(* ===== verification/_CoqProject ===== *)
-Q . S2P
Prelude.v
Case.v
Kinds.v
Tokens.v
Input.v
TornIf.v
ParserCore.v
Events.v
Hoare.v
Directives.v
Expressions.v
Grammar.v
DirectivesSpec.v
ExpressionsSpec.v
GrammarSpec.v
EditDistance.v
ParserOps.v
Parsing.v
Sink.v
Denotation.v
SinkSpec.v
Parse.v
Utf8.v
LineIndex.v
Reparse.v
Cfg.v
Dataflow.v
DataflowSpec.v
DataflowExact.v
DefiniteInit.v
DefiniteInitSpec.v
DefiniteInitWitness.v
CfgBuilder.v
CfgBuilderSpec.v
CfgSemantics.v
CfgSimulation.v
DefiniteInitSound.v
Lowered.v
ValueState.v
PathTerminates.v
Guards.v
Sdbl.v
SdblExpressions.v
SdblSelect.v
SdblHoare.v
SdblSpec.v
SdblSelectSpec.v
SdblPackageSpec.v
SdblTokens.v
SdblLexer.v
SdblParse.v
Names.v
Metadata.v
Types.v
Corpus.v
Interning.v
InterningSpec.v
KernelSpec.v
KernelThreads.v
PlatformNames.v
Builders.v
Subtype.v
SubtypeSpec.v
CoercionSpec.v
JoinSpec.v
BridgeSpec.v
Paths.v
Exclusions.v
Vfs.v
VfsSpec.v
Inputs.v
Load.v
LoadSpec.v
Workspace.v
JournalSpec.v
ViewSpec.v
CatchUpSpec.v
OwnerSpec.v
SharedSpec.v
ExclusionsSpec.v
