(* ===== verification/Prelude.v ===== *)
(** * Verification of the analysis core of bsl-analyzer

    bsl-analyzer is a language server for 1C:Enterprise (BSL).  Its core turns a source text into a
    lossless syntax tree, lowers method bodies to statements, builds control-flow graphs of them and
    runs dataflow analyses.  Query texts inside of modules have a front end of their own.  Expressions
    get types, which are interned in one table and compared by a subtype test.  The sources come
    from a virtual file system; one owner holds them for all editors, each with a view of its own.
    The development covers the front end from the token list to the tree, the one of the queries from the text to
    the tree, the line index, the reparse of one method, the control-flow graph with its builder,
    the dataflow solver and some of its analyses, the types with their kernel and their subtyping, and
    the way of the sources from a change on disk to the views.  File names below are relative to src/crates/.

    ** The front end

    The lexer's tokens go through [Input_new] (the significant tokens), the rules of the grammar
    run over a [Parser] and append events, and [finish] replays the events over all tokens and sends
    calls to the tree builder.  [parse] in Parse composes them as parser/src/lib.rs does.

    - Kinds: the alphabets of tokens, nodes and tree elements (lexer/src/lib.rs, parser/src/event.rs,
      parser/src/syntax_kind.rs, syntax/src/syntax_kind.rs).
    - Tokens: lexemes, parse errors, token sets, events (lexer/src/lib.rs, parser-error/src/lib.rs,
      parser/src/parser/token_set.rs, parser/src/event.rs).
    - Input: the parser's view of the tokens and its line-break bitmap (parser/src/parser/input.rs).
    - TornIf: which conditional groups tear a construct, and the value of their conditions
      (parser/src/parser/torn_if.rs).  Its table lists exactly the closed groups with whole headers.
    - ParserCore: the state of the parser and every operation on it (parser/src/parser.rs).  An
      operation is a computation [M A] that returns, panics the way the source does, or runs out
      of fuel; loops take their fuel from the tokens left, and the theorems show that it is enough.
    - Directives, Expressions, Grammar: the rules (parser/src/grammar.rs, grammar/expressions.rs,
      grammar/items.rs, grammar/statements.rs).  [statement] and [preprocessor_if] close the only
      cycle and take fuel from the tokens.
    - Events, Hoare, DirectivesSpec, ExpressionsSpec, GrammarSpec: the shape of event streams, the
      rules of a weakest-precondition calculus for [M], and the specification of every rule.
    - Parsing: a whole run of the parser.  It ends, consumes every token, restores the boundaries,
      and only the iteration guard (1,000,000 checks) may stop it, from 125,000 words on; below 2^31
      words no 32-bit counter overflows, those of the brackets included.
    - EditDistance, ParserOps: single operations against direct definitions: the edit distance of
      misspelt words (no place is edited twice), the table of closing parens, the guard, the error operations.
    - Sink, Denotation, SinkSpec, Parse: the replay (parser/src/sink.rs, syntax/src/syntax_node.rs);
      the tree denotes the events, holds every token once and in order, no node but the root starts
      or ends with trivia, and error ranges stay inside the source.

    ** Queries

    [parse_sdbl] in SdblParse composes the parts: [tokenize_sdbl], the converter, [query_package]
    over the same [Parser] with [at_query_boundary] as the grammar's boundary, and the same sink.

    - Case: comparison and search regardless of case (stdx/src/case.rs), on which the words of the
      query language rest; the tables of Rust's library are the classes [CharCase], [CharUpper] and
      [StrLower].  The functions answer as if the texts were folded whole.
    - SdblTokens, SdblLexer: the kinds of lexemes, the loop over the text and the byte scan of
      string literals (lexer/src/sdbl/mod.rs, strings_mode.rs), the converter
      (parser/src/sdbl_token_converter.rs).  The automaton that the logos library generates is the
      class [SdblLexer], with [SdblLexerLaws] as what the library documents.  The lexemes tile the
      text, whatever it is.
    - Sdbl, SdblExpressions, SdblSelect: the rules with their recovery (parser/src/grammar/sdbl.rs,
      sdbl/expressions.rs, sdbl/select.rs).  Expressions and subqueries close the only cycle; a rule
      takes the record [Rules] of the two, and [rules] ties them with fuel from the tokens.
    - SdblHoare, SdblSpec, SdblSelectSpec, SdblPackageSpec: the specification of every rule in the
      calculus of Hoare: the checks of the guard it may spend ([Pays]), that it consumes no
      separator, and where it must move.  A turn of the package's loop may consume nothing, so its
      fuel is twice the tokens left; [package_measure] shows it enough.
    - SdblParse: the package is cut exactly at its separators, and the tree has the query's text.

    ** Positions and edits

    - Utf8: bytes of a text and slices at character boundaries, as Rust's [str] has them.
    - LineIndex: line starts, positions, UTF-16 and character columns (line-index/src/lib.rs),
      against a reading of the text as lines with terminators.
    - Reparse: the edit between two texts, the balance of directives and the merge of errors
      (parser/src/reparse.rs).

    ** Control flow and dataflow

    - Cfg: the graph and the cyclomatic complexity (cfg/src/graph.rs, edge.rs, vertex.rs,
      cyclomatic.rs).  The order of edges and the depth-first post-order belong to the petgraph
      library: they are the classes [EdgeOrder] and [DfsPostOrder], with [EdgeOrderLaw] (some order
      of all edges) and [dfs_law] (every vertex the start reaches, once) as what the code relies on.
    - CfgBuilder, CfgBuilderSpec: the builder of graphs from lowered statements (cfg/src/builder.rs,
      hir-def/src/hir.rs).  A handler is a computation over the builder's state; every body is built
      without a panic into a well-formed graph that places each of its points once.
    - CfgSemantics, CfgSimulation: the executions of a body as a big-step relation [runs] and, by rule
      induction on it, a path in the built graph for every execution.
    - DefiniteInitSound: the analysis below, run on the built graph of a body, is sound for the
      executions of the body.
    - Dataflow, DataflowSpec: the worklist solver in both directions (dataflow/src/lib.rs).  The
      traits are the classes [Lattice] and [Transfer], their laws [LatticeLaws] and [TransferLaws].
      A run always ends; a converged one solves the equations, covers every path, and convergence
      is certain from [vertices + height * edges] iterations on.
    - DefiniteInit, DefiniteInitSpec, DefiniteInitWitness: definite initialization
      (dataflow/src/definite_init.rs): its states are exact, it converges, and its search for a path
      without initialization is sound and, without literal headers, complete.
    - DataflowExact: for a family of properties that a join cannot make from nothing, a converged run
      reports a state with the property exactly when some path does, in both directions.
    - Lowered: expressions and bindings of a lowered body (hir-def/src/hir.rs, body.rs).
    - ValueState: booleans that variables are known to hold (dataflow/src/value_state.rs):
      known exactly when every path assigned them last.
    - PathTerminates: blocks from which control may fall through to the end
      (dataflow/src/path_terminates.rs): exactly those with a path without [Return] and [Raise].
    - Guards: statements behind a check of a role (dataflow/src/guard_predicates.rs): the
      search is exact, and executions that arrive at a guarded statement evaluated a guard.

    ** Types

    A type is a [TypeKind]; types inside of it are indices into the kernel's table.  [kernel_intern]
    brings a type into its canonical form and finds or adds it; [is_assignable] and
    [is_coercible_to] are computations over a kernel that look types up and intern some.

    - Names, Metadata: strings of the standard library; the kinds of metadata with their names in
      both languages (bsl-metadata/src/metadata_object.rs, form.rs, bsl-types/src/kind.rs).
    - Types, Builders: the types, their facets, equality up to provenance, and the builders
      (bsl-types/src/kind.rs, facet.rs, equality.rs, builders.rs).
    - Corpus: the index of the platform's types and canonical spellings (bsl-platform/src/db.rs,
      bsl-types/src/intern.rs).  The loaded documentation is the class [PlatformTypes].
    - Interning: order keys, canonical forms, the kernel (bsl-types/src/intern.rs,
      ide-db/src/type_kernel.rs).  [TypeLookup] and [TypeIntern] are the trait TypeKernelDb; the
      Debug texts inside of keys are the class [DebugText].
    - InterningSpec, KernelSpec, KernelThreads: [TypeKernelLaws] states what a kernel
      promises and [kernel_laws] discharges it for the database's: a type has one index, unions are
      sets of plain members, types are made of earlier ones.  Threads that share a kernel agree in
      every interleaving.
    - PlatformNames, Subtype: the names outside of the corpus and the tests (hir-ty/src/
      platform_type_name.rs, subtype.rs, this_object.rs).
    - SubtypeSpec, CoercionSpec, JoinSpec, BridgeSpec: against any kernel with the laws, the tests
      end and decide the relations [assignable] and [coercible]; the canonical union is the join of
      its members; the names two of the bridges lead to are those of a list.

    ** Sources of a project

    A change on disk goes through the virtual file system, whose drains hand it to the inputs of the
    database, by batches.  The owner of a workspace publishes what a batch changed and keeps the
    last publications; the view of an editor is seeded from a snapshot of the owner, overlays the
    buffers of its editor, and catches up by publications, from a later snapshot, or by a view
    prepared beside it.

    - Paths, Exclusions, ExclusionsSpec: components of paths, roles of files, exclusions and rules
      of directories (bsl-conventions/src/lib.rs, project-model/src/file_role.rs,
      stdx/src/path_exclusion.rs, vfs/src/loader.rs).  What the file system resolves is the class
      [FileSystem], the globset library the class [Globs].  An excluded directory stays excluded
      under other spellings; of the rules of a directory the most specific one wins.
    - Vfs, VfsSpec (with the maps of the Prelude: lists of entries in the order of insertion, as
      [IndexMap] keeps them; of a [HashMap] only look-ups are used, or what does not depend on the
      order): the interner of paths and the merging of changes (vfs/src/lib.rs,
      path_interner.rs, file_set.rs).  The hash of a text is the class [Hasher].  A consumer of the
      drains ends with the texts last written, up to equal hashes.  [fits] bounds the paths by the
      number of ids, 2^32.
    - Inputs, Load, LoadSpec: the inputs with their durabilities and the count of writes to the salsa
      library (base-db/src/lib.rs, input.rs), and the batches (ide-host-core/src/load.rs).  A batch
      refines one step per file, names exactly what it changed, and applied again does nothing.
    - Workspace: the catalogue, the journal, the owner, its snapshots and the views
      (ide-host-core/src/workspace.rs); the listings of the metadata are the class [MetadataInputs].
      The locks around the owner are one state, so each operation is one step.
    - JournalSpec, OwnerSpec: the publications handed over are those since a generation, without a
      gap, and they name every file in which two snapshots differ and which no other write changed:
      [OwnerRuns] are the steps of an owner (batches with a refresh of the metadata, the batch the
      resident of the MCP server applies by hand, other writes, publications) without rebuilds, with
      the list of these writes.  Behind more than sixty-four publications the owner sends its
      snapshot instead.  Generations stay below 2^64 - 1.
    - ViewSpec, CatchUpSpec, SharedSpec: [view_ok] says what a view shows, and every step of a view
      keeps it; so a view agrees with one made afresh of the same snapshot.  [snapshot_ok] is what is
      assumed of a snapshot (each file of a root has a state, ids and roots are not repeated, files
      of the metadata are no modules); open files are modules; a write is [careful] when it
      changes files of the metadata only and its step says that they changed.

    ** Bounds and fuel

    Every function with fuel is called with an amount computed from its input and a theorem shows
    that it suffices; the only results that depend on a limit are those the source limits (the
    iteration guard of the parser, the iteration budget of the solver).  Offsets are 32-bit and
    counters of the parser 32-bit or pointer-sized with the overflow written out: [i32_sum] and
    [u32_sum] of the Prelude are nothing where the addition panics, and whatever counts with them
    (the walks of TornIf, the look-ahead for closing parens and markers, the balance of directives)
    is nothing then too; [size] and [as_u32] panic or wrap where the source does.  Walks into a type take fuel from its index,
    since a type is made of types with smaller ones; order keys stop at depth 24 as in the source.

    ** Not modelled

    The lexer automaton (generated by logos), the green tree (rowan), hash tables beyond maps and
    sets, the semantics of queries (sdbl-hir), the lowering from the tree to statements, name resolution
    (hir-def), type inference and the rendering of types (hir-ty, bsl-types/src/display.rs), the
    readers of metadata, the members of platform types, the queries of the salsa library, the discovery
    of projects and the watching of files, the editor features and diagnostics over them, and the
    servers with their I/O. *)
From stdpp Require Import prelude strings sorting.

(** ** Characters and texts

    A Rust [char] is a Unicode scalar value, here its code point; a text is the list of its
    characters and its length in bytes is that of its UTF-8 encoding. *)

Abbreviation char := Z.
Abbreviation text := (list Z).

(** [char::len_utf8]. *)
Definition len_utf8 (c : char) : Z :=
  if (c <? 0x80)%Z then 1 else if (c <? 0x800)%Z then 2 else if (c <? 0x10000)%Z then 3 else 4.

(** [char::len_utf16]. *)
Definition len_utf16 (c : char) : Z := if (c <? 0x10000)%Z then 1 else 2.

(** [str::len]: the bytes of the UTF-8 encoding. *)
Definition str_len (s : text) : Z := foldr (fun c n => len_utf8 c + n)%Z 0%Z s.

(** The characters of a literal written in this file in UTF-8. *)
Fixpoint decode_utf8 (bytes : list Z) : text :=
  match bytes with
  | [] => []
  | b0 :: rest =>
      if (b0 <? 0xC0)%Z then b0 :: decode_utf8 rest
      else if (b0 <? 0xE0)%Z then
        match rest with
        | b1 :: rest => (Z.land b0 0x1F * 64 + Z.land b1 0x3F)%Z :: decode_utf8 rest
        | _ => []
        end
      else
        match rest with
        | b1 :: b2 :: rest =>
            (Z.land b0 0x0F * 4096 + Z.land b1 0x3F * 64 + Z.land b2 0x3F)%Z :: decode_utf8 rest
        | _ => []
        end
  end.

Definition chars (s : String.string) : text :=
  decode_utf8 ((fun a => Z.of_N (Ascii.N_of_ascii a)) <$> String.list_ascii_of_string s).

(** The case mapping of Unicode is a data table of the language's library: [char::to_lowercase]
    gives the lowercase spelling of one character as one or more characters. *)
Class CharCase := to_lowercase : char -> text.

(** A case mapping for ASCII and the basic Cyrillic letters, used by the concrete examples. *)
Definition basic_lowercase (c : char) : text :=
  if ((0x41 <=? c) && (c <=? 0x5A))%Z then [(c + 32)%Z]
  else if ((0x410 <=? c) && (c <=? 0x42F))%Z then [(c + 32)%Z]
  else if (c =? 0x401)%Z then [0x451%Z]
  else [c].

(** ** Decidable equality of enumerations

    Equality through an injective code in [N] reduces by computation, unlike a case analysis over
    every pair of constructors. *)
Definition decode_decision {A} (code : A -> N) `{!Inj (=) (=) code} (x y : A) : Decision (x = y) :=
  match decide (code x = code y) with
  | left E => left (inj code x y E)
  | right N => right (fun E => N (f_equal code E))
  end.

(** ** Binary search

    [slice::partition_point] and [slice::binary_search_by_key] of the language's library, as
    bisections of the index range [lo, hi). *)
Fixpoint bisect {A} (fuel : nat) (pred : A -> bool) (l : list A) (lo hi : nat) : nat :=
  match fuel with
  | O => lo
  | S fuel =>
      if (lo <? hi)%nat then
        let mid := ((lo + hi) / 2)%nat in
        match l !! mid with
        | Some x => if pred x then bisect fuel pred l (S mid) hi else bisect fuel pred l lo mid
        | None => lo
        end
      else lo
  end.

Definition partition_point {A} (pred : A -> bool) (l : list A) : nat :=
  bisect (length l) pred l 0 (length l).

Definition binary_search_by_key {A} (key : nat) (f : A -> nat) (l : list A) : option nat :=
  let i := partition_point (fun x => (f x <? key)%nat) l in
  x ← l !! i; if (f x =? key)%nat then Some i else None.

(** ** Ranges of a text

    The text-size library's [TextSize] is a [u32] offset in bytes, its [TextRange] a start and an
    end, and [TextRange::new] panics when the end stands before the start. *)

Record TextRange : Set := MkRange { range_start : Z; range_end : Z }.

Definition TextRange_new (start end_ : Z) : option TextRange :=
  if (start <=? end_)%Z then Some (MkRange start end_) else None.

Definition TextRange_empty (offset : Z) : TextRange := MkRange offset offset.

(** ** Monadic tests of lists

    [Iterator::any], [Iterator::all] and [Vec::retain] with a test that has effects: the first two
    stop at the element that decides. *)

Section tests.
Context {M : Type -> Type} `{MRet M, MBind M} {A : Type} (f : A -> M bool).

Fixpoint anyM (l : list A) : M bool :=
  match l with
  | [] => mret false
  | x :: l => b ← f x; if b : bool then mret true else anyM l
  end.

Fixpoint allM (l : list A) : M bool :=
  match l with
  | [] => mret true
  | x :: l => b ← f x; if b : bool then allM l else mret false
  end.

Fixpoint retainM (l : list A) : M (list A) :=
  match l with
  | [] => mret []
  | x :: l => b ← f x; l ← retainM l; mret (if b : bool then x :: l else l)
  end.
End tests.

(** ** Lemmas on texts *)

Lemma len_utf8_pos c : (1 <= len_utf8 c <= 4)%Z.
Proof. unfold len_utf8. repeat case_match; lia. Qed.

Lemma str_len_app s1 s2 : str_len (s1 ++ s2) = (str_len s1 + str_len s2)%Z.
Proof. induction s1 as [|c s1 IH]; [done|]. simpl. rewrite IH. lia. Qed.

Lemma str_len_nonneg s : (0 <= str_len s)%Z.
Proof. induction s as [|c s IH]; simpl; [lia|]. pose proof (len_utf8_pos c). lia. Qed.

(** ** Paths *)

(** What every step keeps, every path keeps. *)
Lemma rtc_closed {A} (R : relation A) (P : A -> Prop) u v :
  (forall x y, P x -> R x y -> P y) -> rtc R u v -> P u -> P v.
Proof. intros Hstep. induction 1 as [|x y z Hxy _ IH]; eauto. Qed.

(** ** Bit tests *)

(** The test [word & (1 << i) != 0] reads bit [i]. *)
Lemma land_shiftl_testbit w i : negb (N.land w (N.shiftl 1 i) =? 0)%N = N.testbit w i.
Proof.
  destruct (N.testbit w i) eqn:E.
  - apply negb_true_iff, N.eqb_neq. intros H.
    apply (f_equal (fun n => N.testbit n i)) in H. revert H.
    by rewrite N.land_spec, E, N.shiftl_1_l, N.pow2_bits_true, N.bits_0.
  - apply negb_false_iff, N.eqb_eq, N.bits_inj. intros j.
    rewrite N.land_spec, N.shiftl_1_l, N.bits_0.
    destruct (N.eq_dec i j) as [<-|]; [by rewrite E|].
    by rewrite N.pow2_bits_false, andb_false_r.
Qed.

(** ** Binary search on partitioned and sorted lists *)

#[local] Arguments Nat.div : simpl never.

Lemma bisect_spec {A} (pred : A -> bool) l1 l2 fuel lo hi :
  Forall (fun x => pred x = true) l1 -> Forall (fun x => pred x = false) l2 ->
  (lo <= length l1 <= hi)%nat -> (hi <= length (l1 ++ l2))%nat -> (hi - lo <= fuel)%nat ->
  bisect fuel pred (l1 ++ l2) lo hi = length l1.
Proof.
  intros H1 H2. revert lo hi. induction fuel as [|fuel IH]; intros lo hi Hlo Hhi Hf; simpl; [lia|].
  destruct (Nat.ltb_spec lo hi) as [Hlt|]; [|lia].
  assert (Hmid : (lo <= (lo + hi) / 2 < hi)%nat).
  { split; [apply Nat.div_le_lower_bound|apply Nat.Div0.div_lt_upper_bound]; lia. }
  set (mid := ((lo + hi) / 2)%nat) in *. clearbody mid.
  destruct (decide (mid < length l1)%nat) as [Hm|Hm].
  - destruct (lookup_lt_is_Some_2 l1 _ Hm) as [x Hx]. rewrite lookup_app_l, Hx by done.
    rewrite (Forall_lookup_1 _ _ _ _ H1 Hx). apply IH; lia.
  - destruct (lookup_lt_is_Some_2 l2 (mid - length l1)) as [x Hx].
    { rewrite length_app in Hhi. lia. }
    rewrite lookup_app_r, Hx by lia. rewrite (Forall_lookup_1 _ _ _ _ H2 Hx). apply IH; lia.
Qed.

Lemma partition_point_spec {A} (pred : A -> bool) l1 l2 :
  Forall (fun x => pred x = true) l1 -> Forall (fun x => pred x = false) l2 ->
  partition_point pred (l1 ++ l2) = length l1.
Proof. intros. unfold partition_point. apply bisect_spec; rewrite ?length_app; try done; lia. Qed.

(** On a list whose keys increase strictly the search finds the element with the key, if any. *)
Lemma binary_search_spec {A} key (f : A -> nat) l :
  StronglySorted (fun x y => f x < f y)%nat l ->
  match binary_search_by_key key f l with
  | Some i => exists x, l !! i = Some x /\ f x = key
  | None => forall x, x ∈ l -> f x <> key
  end.
Proof.
  intros Hs. unfold binary_search_by_key.
  assert (exists l1 l2, l = l1 ++ l2 /\ Forall (fun x => (f x <? key)%nat = true) l1 /\
    Forall (fun x => (f x <? key)%nat = false) l2) as (l1 & l2 & -> & H1 & H2).
  { clear -Hs. induction Hs as [|x l Hs IH Hx]; [by exists [], []|].
    destruct (Nat.ltb_spec (f x) key) as [Hlt|Hge].
    - destruct IH as (l1 & l2 & -> & H1 & H2). exists (x :: l1), l2. split; [done|].
      split; [|done]. constructor; [|done]. by apply Nat.ltb_lt.
    - exists [], (x :: l). split; [done|]. split; [done|]. constructor; [by apply Nat.ltb_ge|].
      eapply Forall_impl; [done|]. intros y Hy. apply Nat.ltb_ge. simpl in *. lia. }
  rewrite partition_point_spec, lookup_app_r, Nat.sub_diag by done.
  destruct l2 as [|y l2]; simpl.
  - intros x. rewrite app_nil_r. intros Hx <-.
    eapply Forall_forall in H1; [|done]. apply Nat.ltb_lt in H1. lia.
  - apply Forall_cons in H2 as [Hy H2]. destruct (Nat.eqb_spec (f y) key) as [E|E]; simpl.
    + exists y. split; [|done]. by rewrite lookup_app_r, Nat.sub_diag.
    + intros x Hx <-. apply elem_of_app in Hx as [Hx|Hx].
      * eapply Forall_forall in H1; [|done]. apply Nat.ltb_lt in H1. lia.
      * apply elem_of_cons in Hx as [->|Hx]; [done|].
        apply StronglySorted_app_1_r in Hs. apply StronglySorted_inv in Hs as [_ Hs].
        eapply Forall_forall in Hs; [|done]. apply Nat.ltb_ge in Hy. lia.
Qed.

(** ** Sums of machine integers

    [None] is the panic of an overflow, in a build that checks for it. *)

(** [a + b] on [i32]. *)
Definition i32_sum (a b : Z) : option Z :=
  if ((- 2 ^ 31 <=? a + b) && (a + b <? 2 ^ 31))%Z then Some (a + b)%Z else None.

(** [a + b] on [u32], of which none is negative. *)
Definition u32_sum (a b : Z) : option Z := if (a + b <? 2 ^ 32)%Z then Some (a + b)%Z else None.

Lemma i32_sum_fits a b : (Z.abs (a + b) < 2 ^ 31)%Z -> i32_sum a b = Some (a + b)%Z.
Proof. intros Hab. unfold i32_sum. destruct (Z.leb_spec (- 2 ^ 31) (a + b)), (Z.ltb_spec (a + b) (2 ^ 31)); done || lia. Qed.

Lemma u32_sum_fits a b : (a + b < 2 ^ 32)%Z -> u32_sum a b = Some (a + b)%Z.
Proof. intros Hab. unfold u32_sum. destruct (Z.ltb_spec (a + b) (2 ^ 32)); done || lia. Qed.

(** ** Maps as lists of entries

    [HashMap] and [IndexMap] agree on look-ups; the entries are in the order of insertion, as
    [IndexMap] keeps them.  No key occurs twice ([assoc_wf]). *)

Section assoc.
Context {K V : Type} `{EqDecision K}.
Implicit Types (k : K) (v : V) (m : list (K * V)).

Fixpoint assoc_get k m : option V :=
  match m with
  | [] => None
  | (k', v) :: m => if decide (k' = k) then Some v else assoc_get k m
  end.

(** [insert]: in place when the key is there, at the end otherwise. *)
Fixpoint assoc_set k v m : list (K * V) :=
  match m with
  | [] => [(k, v)]
  | (k', v') :: m => if decide (k' = k) then (k, v) :: m else (k', v') :: assoc_set k v m
  end.

(** [remove], and [shift_remove], which keeps the order. *)
Fixpoint assoc_remove k m : list (K * V) :=
  match m with
  | [] => []
  | (k', v') :: m => if decide (k' = k) then m else (k', v') :: assoc_remove k m
  end.

Definition assoc_wf m : Prop := NoDup m.*1.

Lemma assoc_get_set k k' v m : assoc_get k' (assoc_set k v m) = if decide (k = k') then Some v else assoc_get k' m.
Proof.
  induction m as [|[k1 v1] m IH]; simpl.
  - done.
  - destruct (decide (k1 = k)) as [->|Hn]; simpl.
    + by repeat case_decide.
    + rewrite IH. by repeat case_decide; simplify_eq.
Qed.

Lemma assoc_get_set_eq k v m : assoc_get k (assoc_set k v m) = Some v.
Proof. by rewrite assoc_get_set, decide_True. Qed.

Lemma assoc_get_set_ne k k' v m : k <> k' -> assoc_get k' (assoc_set k v m) = assoc_get k' m.
Proof. intros ?. by rewrite assoc_get_set, decide_False. Qed.

Lemma assoc_get_elem k v m : assoc_get k m = Some v -> (k, v) ∈ m.
Proof.
  induction m as [|[k1 v1] m IH]; simpl; [done|]. case_decide as E; [|right; by apply IH].
  intros [= ->]. subst. by left.
Qed.

Lemma assoc_get_None k m : assoc_get k m = None <-> k ∉ m.*1.
Proof.
  induction m as [|[k1 v1] m IH]; simpl; [split; [intros _; apply not_elem_of_nil|done]|].
  rewrite not_elem_of_cons. case_decide as E; [split; [done|by intros []]|].
  rewrite IH. split; [by split|by intros []].
Qed.

Lemma assoc_elem_get k v m : assoc_wf m -> (k, v) ∈ m -> assoc_get k m = Some v.
Proof.
  unfold assoc_wf. induction m as [|[k1 v1] m IH]; csimpl; intros Hwf Hm; [by apply not_elem_of_nil in Hm|].
  apply NoDup_cons in Hwf as [Hn Hwf]. apply elem_of_cons in Hm as [[= -> ->]|Hm]; [by rewrite decide_True|].
  rewrite decide_False; [by apply IH|]. intros ->. apply Hn. by apply (list_elem_of_fmap_2 fst) in Hm.
Qed.

Lemma assoc_set_keys k v m : (assoc_set k v m).*1 = if decide (k ∈ m.*1) then m.*1 else m.*1 ++ [k].
Proof.
  induction m as [|[k1 v1] m IH]; csimpl; [done|].
  destruct (decide (k1 = k)) as [->|Hn]; csimpl.
  - rewrite decide_True; [done|by left].
  - rewrite IH. destruct (decide (k ∈ m.*1)) as [Hk|Hk].
    + rewrite decide_True; [done|by right].
    + rewrite decide_False; [done|]. by rewrite not_elem_of_cons.
Qed.

Lemma assoc_set_wf k v m : assoc_wf m -> assoc_wf (assoc_set k v m).
Proof.
  unfold assoc_wf. rewrite assoc_set_keys. case_decide; [done|]. intros Hm. apply NoDup_app. split; [done|].
  split; [|apply NoDup_singleton]. intros x Hx ->%list_elem_of_singleton. done.
Qed.

Lemma assoc_remove_keys k m : assoc_wf m -> forall x, x ∈ (assoc_remove k m).*1 <-> x ∈ m.*1 /\ x <> k.
Proof.
  unfold assoc_wf. induction m as [|[k1 v1] m IH]; csimpl; intros Hwf x.
  - rewrite elem_of_nil. naive_solver.
  - apply NoDup_cons in Hwf as [Hn Hwf]. destruct (decide (k1 = k)) as [->|Hk]; csimpl.
    + rewrite elem_of_cons. split; [|by intros [[->|?] ?]]. intros Hx. split; [by right|]. by intros ->.
    + rewrite !elem_of_cons, (IH Hwf). naive_solver.
Qed.

Lemma assoc_remove_wf k m : assoc_wf m -> assoc_wf (assoc_remove k m).
Proof.
  unfold assoc_wf. induction m as [|[k1 v1] m IH]; csimpl; [done|]. intros [Hn Hwf]%NoDup_cons.
  case_decide; [done|]. csimpl. apply NoDup_cons. split; [|by apply IH]. rewrite (assoc_remove_keys k m Hwf). naive_solver.
Qed.

Lemma assoc_remove_none k m : assoc_get k m = None -> assoc_remove k m = m.
Proof. induction m as [|[k1 v1] m IH]; simpl; [done|]. case_decide; [done|]. intros. by rewrite IH. Qed.

Lemma assoc_get_remove k k' m :
  assoc_wf m -> assoc_get k' (assoc_remove k m) = if decide (k = k') then None else assoc_get k' m.
Proof.
  unfold assoc_wf. induction m as [|[k1 v1] m IH]; csimpl; [by case_decide|]. intros [Hn Hwf]%NoDup_cons.
  destruct (decide (k1 = k)) as [->|Hk].
  - case_decide as E; [|done]. subst. by apply assoc_get_None.
  - simpl. rewrite (IH Hwf). by repeat case_decide; simplify_eq.
Qed.
End assoc.
