(* ===== verification/Case.v ===== *)
(** Case: comparison and search of texts regardless of case (crates/stdx/src/case.rs).

    The functions of the file fold one character at a time: an arithmetic fast path for ASCII and
    the Russian letters, the table of the language's library ([CharCase]) for the rest, where one
    character may fold to several.  The reference they answer to is [fold_lower_per_char], the
    whole text folded: two texts are equal regardless of case when their folded texts are, and a
    folded needle is found where the folded rest of the haystack starts with it. *)
From stdpp Require Import prelude strings.
From S2P Require Import Prelude.

(** ** The code *)

Definition fold_char_fast (c : char) : option char :=
  (if (0x41 <=? c) && (c <=? 0x5A) then Some (Z.lor c 0x20)
   else if c <? 0x80 then Some c
   else if (0x410 <=? c) && (c <=? 0x42F) then Some (c + 0x20)
   else if c =? 0x401 then Some 0x451
   else if ((0x430 <=? c) && (c <=? 0x44F)) || (c =? 0x451) then Some c
   else None)%Z.

Section code.
Context `{CharCase}.

(** The iterators of both sides chained and compared. *)
Definition eq_ignore_case_slow (x y : char) (a_rest b_rest : text) : bool :=
  bool_decide (to_lowercase x ++ (a_rest ≫= to_lowercase) =
               to_lowercase y ++ (b_rest ≫= to_lowercase)).

Fixpoint eq_ignore_case (a b : text) : bool :=
  match a, b with
  | [], [] => true
  | x :: a, y :: b =>
      match fold_char_fast x, fold_char_fast y with
      | Some fx, Some fy => if (fx =? fy)%Z then eq_ignore_case a b else false
      | _, _ => eq_ignore_case_slow x y a b
      end
  | _, _ => false
  end.

Definition fold_lower_per_char (s : text) : text :=
  s ≫= (fun c => match fold_char_fast c with Some folded => [folded] | None => to_lowercase c end).

Definition fold_one (c : char) : char :=
  match fold_char_fast c with
  | Some folded => folded
  | None => match to_lowercase c with first :: _ => first | [] => c end
  end.

(** [pending]: what is left of the expansion of the last character of the haystack; [offset]: the
    byte index of the rest of the haystack. *)
Fixpoint match_len_loop (needle : text) (pending : option text) (haystack : text)
    (offset consumed : Z) : option Z :=
  match needle with
  | [] => Some consumed
  | expected :: needle =>
      match pending with
      | Some (folded :: pending) =>
          if (folded =? expected)%Z
          then match_len_loop needle (Some pending) haystack offset consumed
          else None
      | _ =>
          match haystack with
          | [] => None
          | candidate :: haystack =>
              let consumed := (offset + len_utf8 candidate)%Z in
              match fold_char_fast candidate with
              | Some folded =>
                  if (folded =? expected)%Z
                  then match_len_loop needle None haystack consumed consumed
                  else None
              | None =>
                  match to_lowercase candidate with
                  | [] => None
                  | first :: expansion =>
                      if (first =? expected)%Z
                      then match_len_loop needle (Some expansion) haystack consumed consumed
                      else None
                  end
              end
          end
      end
  end.

Definition match_len_ignore_case (haystack needle : text) : option Z :=
  match_len_loop needle None haystack 0 0.

(** The positions of the haystack from [start] on. *)
Fixpoint find_loop (haystack needle : text) (needle_first : char) (start : Z) : option (Z * Z) :=
  match haystack with
  | [] => None
  | candidate :: rest =>
      let next := find_loop rest needle needle_first (start + len_utf8 candidate) in
      if negb (fold_one candidate =? needle_first)%Z then next
      else match match_len_ignore_case haystack needle with
           | Some len => Some (start, (start + len)%Z)
           | None => next
           end
  end.

(** [None] is the failed [debug_assert_eq]: the needle is not folded. *)
Definition find_ignore_case (haystack needle_lower : text) : option (option (Z * Z)) :=
  if decide (needle_lower = fold_lower_per_char needle_lower)
  then Some (match needle_lower with
             | [] => Some (0, 0)%Z
             | needle_first :: _ => find_loop haystack needle_lower needle_first 0
             end)
  else None.

Definition contains_ignore_case (haystack needle_lower : text) : option bool :=
  (fun r => bool_decide (is_Some r)) <$> find_ignore_case haystack needle_lower.

Definition starts_with_ignore_case (haystack needle_lower : text) : option bool :=
  if decide (needle_lower = fold_lower_per_char needle_lower)
  then Some (bool_decide (is_Some (match_len_ignore_case haystack needle_lower)))
  else None.
End code.

(** *** Simple folding, the relation of the lexer's patterns *)

(** [char::to_uppercase]. *)
Class CharUpper := to_uppercase : char -> text.

(** [str::to_lowercase], which may look at the neighbours of a character. *)
Class StrLower := str_to_lowercase : text -> text.

Section folding.
Context `{CharCase} `{CharUpper} `{StrLower}.

Definition fold_case_slow (c : char) : char :=
  let upper := match to_uppercase c with [single] => single | _ => c end in
  match to_lowercase upper with [single] => single | _ => upper end.

Definition fold_case (c : char) : char :=
  (if (0x41 <=? c) && (c <=? 0x5A) then Z.lor c 0x20
   else if c <? 0x80 then c
   else if (0x410 <=? c) && (c <=? 0x42F) then c + 0x20
   else if c =? 0x401 then 0x451
   else if ((0x430 <=? c) && (c <=? 0x44F)) || (c =? 0x451) then c
   else if c =? 0x131 then c
   else fold_case_slow c)%Z.

Fixpoint eq_case_folded (a b : text) : bool :=
  match a, b with
  | [], [] => true
  | x :: a, y :: b => if (fold_case x =? fold_case y)%Z then eq_case_folded a b else false
  | _, _ => false
  end.

(** The folded prefix; the first character outside of the fast alphabet leaves the whole text to
    the library. *)
Fixpoint fold_lower_loop (s out : text) : option text :=
  match s with
  | [] => Some out
  | c :: s => folded ← fold_char_fast c; fold_lower_loop s (out ++ [folded])
  end.

Definition fold_lower (s : text) : text := default (str_to_lowercase s) (fold_lower_loop s []).

(** Comparing character by character is comparing the folded texts. *)
Lemma eq_case_folded_spec a b : eq_case_folded a b = true <-> fold_case <$> a = fold_case <$> b.
Proof.
  revert b. induction a as [|x a IH]; intros [|y b]; csimpl; [done..|].
  destruct (Z.eqb_spec (fold_case x) (fold_case y)) as [E|Hne]; [|split; [done|congruence]].
  rewrite IH, E. split; congruence.
Qed.

Lemma fold_lower_loop_app s out folded :
  fold_lower_loop s out = Some folded -> exists t, folded = out ++ t /\ mapM fold_char_fast s = Some t.
Proof.
  revert out. induction s as [|c s IH]; intros out; simpl.
  - intros [= <-]. exists []. by rewrite app_nil_r.
  - destruct (fold_char_fast c) as [f|]; [|done]. simpl. intros (t & -> & Ht)%IH.
    exists (f :: t). rewrite <- app_assoc. split; [done|]. by rewrite Ht.
Qed.

(** [fold_lower] is the library's [to_lowercase], when that maps a text of the fast alphabet
    character by character. *)
Lemma fold_lower_spec s :
  (forall t, mapM fold_char_fast s = Some t -> str_to_lowercase s = t) -> fold_lower s = str_to_lowercase s.
Proof.
  intros Hlaw. unfold fold_lower. destruct (fold_lower_loop s []) as [t|] eqn:E; [|done].
  apply fold_lower_loop_app in E as (t' & -> & Ht). symmetry. by apply Hlaw.
Qed.
End folding.

(** ** The library's table

    What [char::to_lowercase] documents: the mapping of a character is never empty, and for ASCII
    and the Russian letters it is the arithmetic one. *)
Class CharCaseLaws `(CharCase) := {
  lowercase_fast : forall c f, fold_char_fast c = Some f -> to_lowercase c = [f];
  lowercase_some : forall c, to_lowercase c <> [];
}.

(** The 26 capital letters of ASCII. *)
Lemma ascii_capital_fold c : (0x41 <= c <= 0x5A)%Z -> Z.lor c 0x20 = (c + 32)%Z.
Proof.
  intros Hc. assert (c ∈ seqZ 0x41 26) as Hin by (apply elem_of_seqZ; lia). clear Hc.
  revert c Hin. apply Forall_forall. vm_compute. by repeat constructor.
Qed.

#[export] Instance basic_lowercase_laws : @CharCaseLaws basic_lowercase.
Proof.
  split.
  - intros c f. unfold fold_char_fast, to_lowercase, basic_lowercase.
    destruct (Z.leb_spec 0x41 c), (Z.leb_spec c 0x5A); simpl; [by intros [= <-]; rewrite ascii_capital_fold|..];
      repeat case_match; intros E; simplify_eq; try done;
      rewrite ?andb_true_iff, ?andb_false_iff, ?orb_true_iff in *; lia.
  - intros c. unfold to_lowercase, basic_lowercase. by repeat case_match.
Qed.

(** ** Comparison *)

#[local] Arguments fold_lower_per_char {_} _ : simpl never.

Section laws.
Context `{CharCaseLaws}.

(** The fast path computes what the table says. *)
Lemma fold_lower_cons c s :
  fold_lower_per_char (c :: s) = to_lowercase c ++ fold_lower_per_char s.
Proof.
  unfold fold_lower_per_char. csimpl. destruct (fold_char_fast c) eqn:E; [|done].
  by rewrite (lowercase_fast _ _ E).
Qed.

Lemma fold_lower_per_char_bind s : fold_lower_per_char s = s ≫= to_lowercase.
Proof. induction s as [|c s IH]; [done|]. by rewrite fold_lower_cons, IH. Qed.

Lemma fold_lower_app s1 s2 :
  fold_lower_per_char (s1 ++ s2) = fold_lower_per_char s1 ++ fold_lower_per_char s2.
Proof. unfold fold_lower_per_char. apply bind_app. Qed.

(** The first character of the expansion of [c], and the rest. *)
Lemma lowercase_cons c : exists expansion, to_lowercase c = fold_one c :: expansion.
Proof.
  unfold fold_one. destruct (fold_char_fast c) eqn:E; [rewrite (lowercase_fast _ _ E); eauto|].
  destruct (to_lowercase c) eqn:El; [by apply lowercase_some in El|eauto].
Qed.

Lemma fold_lower_nil s : fold_lower_per_char s = [] -> s = [].
Proof.
  destruct s as [|c s]; [done|]. rewrite fold_lower_cons.
  by destruct (lowercase_cons c) as [expansion ->].
Qed.

(** The walk over the pairs of characters, which stops at the first mismatch and starts over with
    whole expansions at the first pair outside the fast alphabet. *)
Lemma eq_ignore_case_folded a b :
  eq_ignore_case a b = true <-> fold_lower_per_char a = fold_lower_per_char b.
Proof.
  revert b. induction a as [|x a IH]; intros [|y b]; simpl.
  - done.
  - split; [done|]. intros E. symmetry in E. by apply fold_lower_nil in E.
  - split; [done|]. intros E. by apply fold_lower_nil in E.
  - assert (eq_ignore_case_slow x y a b = true <->
      fold_lower_per_char (x :: a) = fold_lower_per_char (y :: b)) as Hslow.
    { unfold eq_ignore_case_slow. rewrite bool_decide_eq_true, !fold_lower_per_char_bind. done. }
    destruct (fold_char_fast x) as [fx|] eqn:Ex, (fold_char_fast y) as [fy|] eqn:Ey; try exact Hslow.
    rewrite !fold_lower_cons, (lowercase_fast _ _ Ex), (lowercase_fast _ _ Ey). simpl.
    destruct (Z.eqb_spec fx fy) as [->|Hne].
    + rewrite IH. split; [by intros ->|by intros [= ?]].
    + split; [done|by intros [= ?]].
Qed.

(** C40. Comparison regardless of case is equality of the folded texts: the walk over the pairs of
    characters, which stops at the first mismatch and starts over with whole expansions at the
    first pair outside the fast alphabet, answers exactly whether [fold_lower_per_char] maps both
    texts to the same key. *)
Theorem eq_ignore_case_folds a b :
  eq_ignore_case a b = true <-> fold_lower_per_char a = fold_lower_per_char b.
Proof. apply eq_ignore_case_folded. Qed.

(** ** Search *)

(** [mid] is the shortest part of the text whose folding, behind what is pending, starts with the
    needle. *)
Definition shortest_match (needle pending mid : text) : Prop :=
  needle `prefix_of` pending ++ fold_lower_per_char mid /\
  forall mid' c rest, mid = mid' ++ c :: rest ->
    ~ needle `prefix_of` pending ++ fold_lower_per_char mid'.

Lemma shortest_match_step needle first expansion c mid :
  to_lowercase c = first :: expansion ->
  shortest_match needle expansion mid -> shortest_match (first :: needle) [] (c :: mid).
Proof.
  intros Ec [Hp Hmin]. split; simpl.
  - rewrite fold_lower_cons, Ec. by apply prefix_cons.
  - intros [|c' mid'] d rest E; [by intros ?%prefix_nil_inv|]. injection E as <- E. simpl.
    rewrite fold_lower_cons, Ec. intros Hq%prefix_cons_inv_2. by eapply Hmin.
Qed.

Lemma match_len_loop_spec needle : forall pending haystack offset consumed,
  match match_len_loop needle pending haystack offset consumed with
  | Some len => exists mid suf, haystack = mid ++ suf /\
      len = (if mid is [] then consumed else offset + str_len mid)%Z /\
      shortest_match needle (default [] pending) mid
  | None => ~ needle `prefix_of` default [] pending ++ fold_lower_per_char haystack
  end.
Proof.
  induction needle as [|expected needle IH]; intros pending haystack offset consumed; simpl.
  { exists [], haystack. split_and!; [done..|]. split; [apply prefix_nil|]. by intros [] ?? [=]. }
  assert (default [] pending = [] -> forall first expansion c haystack pending',
    to_lowercase c = first :: expansion -> default [] pending' = expansion ->
    match (if (first =? expected)%Z
           then match_len_loop needle pending' haystack (offset + len_utf8 c) (offset + len_utf8 c)
           else None) with
    | Some len => exists mid suf, c :: haystack = mid ++ suf /\
        len = (if mid is [] then consumed else offset + str_len mid)%Z /\
        shortest_match (expected :: needle) [] mid
    | None => ~ expected :: needle `prefix_of` fold_lower_per_char (c :: haystack)
    end) as Hstep.
  { intros Hnil first expansion c hay pending' Ec Ep.
    specialize (IH pending' hay (offset + len_utf8 c)%Z (offset + len_utf8 c)%Z).
    rewrite fold_lower_cons, Ec. simpl.
    destruct (Z.eqb_spec first expected) as [->|Hne]; [|by intros ?%prefix_cons_inv_1].
    rewrite Ep in IH. destruct (match_len_loop _ _ _ _ _) as [len|].
    - destruct IH as (mid & suf & -> & -> & Hm). exists (c :: mid), suf.
      split_and!; [done| |by eapply shortest_match_step]. destruct mid; simpl; lia.
    - by intros ?%prefix_cons_inv_2. }
  destruct pending as [[|folded pending]|]; simpl in *.
  1, 3: destruct haystack as [|c haystack]; [by intros ?%prefix_nil_inv|];
    destruct (fold_char_fast c) as [folded|] eqn:Ef;
    [apply (Hstep eq_refl folded []); [by apply lowercase_fast|done]|];
    destruct (to_lowercase c) as [|first expansion] eqn:Ec; [by apply lowercase_some in Ec|];
    by apply (Hstep eq_refl first expansion).
  clear Hstep. destruct (Z.eqb_spec folded expected) as [->|Hne]; [|by intros ?%prefix_cons_inv_1].
  specialize (IH (Some pending) haystack offset consumed). simpl in IH.
  destruct (match_len_loop _ _ _ _ _) as [len|]; [|by intros ?%prefix_cons_inv_2].
  destruct IH as (mid & suf & -> & -> & Hp & Hmin). exists mid, suf. split_and!; [done..|].
  split; [by apply prefix_cons|]. intros mid' c rest E. simpl. intros Hq%prefix_cons_inv_2.
  by eapply Hmin.
Qed.

Lemma match_len_spec haystack needle :
  match match_len_ignore_case haystack needle with
  | Some len => exists mid suf, haystack = mid ++ suf /\ len = str_len mid /\
      shortest_match needle [] mid
  | None => ~ needle `prefix_of` fold_lower_per_char haystack
  end.
Proof.
  pose proof (match_len_loop_spec needle None haystack 0 0) as Hm. simpl in Hm.
  unfold match_len_ignore_case. destruct (match_len_loop _ _ _ _ _); [|done].
  destruct Hm as (mid & suf & -> & -> & Hm). exists mid, suf. split_and!; [done|by destruct mid|done].
Qed.

(** The first-character filter skips no match. *)
Lemma fold_one_filter c haystack first needle :
  fold_one c <> first -> ~ first :: needle `prefix_of` fold_lower_per_char (c :: haystack).
Proof.
  intros Hne. rewrite fold_lower_cons. destruct (lowercase_cons c) as [expansion ->].
  by intros ?%prefix_cons_inv_1.
Qed.

(** What a search finds: the match is the first one and the shortest one there. *)
Definition first_match (haystack needle : text) (start end_ : Z) : Prop :=
  exists pre mid suf, haystack = pre ++ mid ++ suf /\
    start = str_len pre /\ end_ = (start + str_len mid)%Z /\ shortest_match needle [] mid /\
    forall pre' rest, haystack = pre' ++ rest -> (length pre' < length pre)%nat ->
      ~ needle `prefix_of` fold_lower_per_char rest.

Lemma find_loop_spec first needle haystack : forall base,
  match find_loop haystack (first :: needle) first base with
  | Some (start, end_) => first_match haystack (first :: needle) (start - base) (end_ - base)
  | None => forall pre rest, haystack = pre ++ rest ->
      ~ first :: needle `prefix_of` fold_lower_per_char rest
  end.
Proof.
  induction haystack as [|c haystack IH]; intros base; simpl.
  { intros [] [] E; [|done..]. by intros ?%prefix_nil_inv. }
  specialize (IH (base + len_utf8 c)%Z).
  assert (~ first :: needle `prefix_of` fold_lower_per_char (c :: haystack) ->
    match find_loop haystack (first :: needle) first (base + len_utf8 c) with
    | Some (start, end_) => first_match (c :: haystack) (first :: needle) (start - base) (end_ - base)
    | None => forall pre rest, c :: haystack = pre ++ rest ->
        ~ first :: needle `prefix_of` fold_lower_per_char rest
    end) as Hnext.
  { intros Hno. destruct (find_loop _ _ _ _) as [[start end_]|].
    - destruct IH as (pre & mid & suf & -> & Hs & He & Hm & Hfirst).
      exists (c :: pre), mid, suf. split_and!; [done|simpl; lia|lia|done|].
      intros [|c' pre'] rest E Hl; simplify_eq/=; [done|]. apply (Hfirst pre'); [done|lia].
    - intros [|c' pre] rest E; simplify_eq/=; [done|]. by apply (IH pre). }
  destruct (Z.eqb_spec (fold_one c) first) as [Ef|Hne]; simpl; [|by apply Hnext, fold_one_filter].
  pose proof (match_len_spec (c :: haystack) (first :: needle)) as Hm.
  destruct (match_len_ignore_case _ _) as [len|]; [|by apply Hnext].
  destruct Hm as (mid & suf & E & -> & Hm). exists [], mid, suf. rewrite E. simpl.
  split_and!; [done|lia..|done|]. intros pre' rest _ Hl. simpl in Hl. lia.
Qed.

(** Search regardless of case finds the first match: for a needle that is folded, as the
    functions require, [find_ignore_case] answers with the byte range, in the haystack itself, of
    the shortest part at the first character boundary from which the folded haystack starts with
    the needle, and with nothing only when there is no such boundary; [contains_ignore_case] and
    [starts_with_ignore_case] agree with the folded haystack in the same way; and a needle that is
    not folded fails the assertion of all three. *)
Theorem find_ignore_case_first haystack needle :
  (fold_lower_per_char needle = needle ->
   match find_ignore_case haystack needle with
   | Some (Some (start, end_)) => first_match haystack needle start end_
   | Some None => forall pre rest, haystack = pre ++ rest ->
       ~ needle `prefix_of` fold_lower_per_char rest
   | None => False
   end /\
   (contains_ignore_case haystack needle = Some true <->
    exists pre rest, haystack = pre ++ rest /\ needle `prefix_of` fold_lower_per_char rest) /\
   (starts_with_ignore_case haystack needle = Some true <->
    needle `prefix_of` fold_lower_per_char haystack)) /\
  (fold_lower_per_char needle <> needle ->
   find_ignore_case haystack needle = None /\ contains_ignore_case haystack needle = None /\
   starts_with_ignore_case haystack needle = None).
Proof.
  unfold contains_ignore_case, starts_with_ignore_case, find_ignore_case.
  split; intros Hf; [rewrite !decide_True by done|by rewrite !decide_False by congruence].
  assert (Hsearch : match (match needle with
      | [] => Some (0, 0)%Z
      | first :: _ => find_loop haystack needle first 0
      end) with
    | Some (start, end_) => first_match haystack needle start end_
    | None => forall pre rest, haystack = pre ++ rest ->
        ~ needle `prefix_of` fold_lower_per_char rest
    end).
  { destruct needle as [|first needle].
    - exists [], [], haystack. split_and!; [done..| |simpl; intros; lia].
      split; [apply prefix_nil|]. by intros [] ?? [=].
    - pose proof (find_loop_spec first needle haystack 0) as Hl.
      destruct (find_loop _ _ _ _) as [[start end_]|]; [|done]. by rewrite !Z.sub_0_r in Hl. }
  split_and!.
  - destruct (match needle with [] => _ | _ => _ end) as [[]|]; done.
  - simpl. destruct (match needle with [] => _ | _ => _ end) as [[start end_]|]; simpl.
    + split; [intros _|done]. destruct Hsearch as (pre & mid & suf & -> & _ & _ & [Hp _] & _).
      exists pre, (mid ++ suf). split; [done|]. rewrite fold_lower_app. by apply prefix_app_r.
    + split; [done|]. intros (pre & rest & E & Hp). by destruct (Hsearch _ _ E).
  - pose proof (match_len_spec haystack needle) as Hm. destruct (match_len_ignore_case _ _); simpl.
    + split; [intros _|done]. destruct Hm as (mid & suf & -> & _ & Hp & _).
      rewrite fold_lower_app. by apply prefix_app_r.
    + done.
Qed.
End laws.

Lemma eq_ignore_case_folds_witness :
  eq_ignore_case (H := basic_lowercase) (chars "ВЫБРАТЬ") (chars "выбрать") = true /\
  fold_lower_per_char (H := basic_lowercase) (chars "ВЫБРАТЬ") =
  fold_lower_per_char (H := basic_lowercase) (chars "выбрать").
Proof.
  assert (eq_ignore_case (H := basic_lowercase) (chars "ВЫБРАТЬ") (chars "выбрать") = true) as E
    by by vm_compute.
  split; [exact E|].
  apply (@eq_ignore_case_folds basic_lowercase basic_lowercase_laws), E.
Defined.

Lemma find_ignore_case_first_witness :
  find_ignore_case (H := basic_lowercase) (chars "aЖИz") (chars "жи") = Some (Some (1, 5))%Z /\
  first_match (H := basic_lowercase) (chars "aЖИz") (chars "жи") 1 5.
Proof.
  assert (find_ignore_case (H := basic_lowercase) (chars "aЖИz") (chars "жи") = Some (Some (1, 5))%Z)
    as E by by vm_compute.
  split; [exact E|].
  assert (fold_lower_per_char (H := basic_lowercase) (chars "жи") = chars "жи") as Hf by by vm_compute.
  pose proof (@find_ignore_case_first basic_lowercase basic_lowercase_laws (chars "aЖИz") (chars "жи"))
    as [Hfound _].
  destruct (Hfound Hf) as [Hr _]. rewrite E in Hr. exact Hr.
Defined.
