(* ===== verification/Kinds.v ===== *)
(** Kinds: the three alphabets of the front end.

    [TokenKind] is the lexer's enumeration (crates/lexer/src/lib.rs), [Sig] the grammar's alphabet
    of significant kinds (crates/parser/src/parser/input.rs), [NK.NodeKind] the kinds of the nodes
    the grammar opens (crates/parser/src/event.rs) and [SK.SyntaxKind] the kinds stored in the tree
    (crates/syntax/src/syntax_kind.rs), with the two translations into it
    (crates/parser/src/syntax_kind.rs).  Every enumeration keeps the source's order, since its
    discriminants are observable: [TokenSet] uses them as bit numbers and the tree stores them as
    16-bit integers. *)
From stdpp Require Import prelude.
From S2P Require Import Prelude.

(** ** Token kinds *)

Inductive TokenKind : Set :=
  | KwProcedure | KwEndProcedure | KwFunction | KwEndFunction | KwExport | KwVal | KwIf
  | KwThen | KwElsIf | KwElse | KwEndIf | KwFor | KwEach | KwIn | KwTo | KwWhile | KwDo
  | KwEndDo | KwReturn | KwContinue | KwBreak | KwGoto | KwTry | KwExcept | KwEndTry | KwRaise
  | KwVar | KwNew | KwExecute | KwAddHandler | KwRemoveHandler | KwAsync | KwAwait | KwAnd
  | KwOr | KwNot | KwTrue | KwFalse | KwUndefined | KwNull | PreIf | PreElsIf | PreElse
  | PreEndIf | PreRegion | PreEndRegion | PreInsert | PreEndInsert | PreDelete | PreEndDelete
  | AnnAtClient | AnnAtServer | AnnAtServerNoContext | AnnAtClientAtServerNoContext
  | AnnAtClientAtServer | AnnBefore | AnnAfter | AnnAround | AnnChangeAndValidate | AnnCustom
  | Eq | Neq | Le | Lt | Ge | Gt | Plus | Minus | Star | Slash | Percent | LParen | RParen
  | LBrace | RBrace | LBracket | RBracket | Dot | Comma | Semicolon | Colon | Question | Tilde
  | Bar | Hash | Ampersand | Float | Decimal | String | StringStart | StringTail | StringPart
  | Date | Ident | Comment | Newline | Whitespace | Bom | Error.

(** [TokenKind::ALL]: every kind in the order of declaration. *)
Definition TokenKind_ALL : list TokenKind :=
  [ KwProcedure; KwEndProcedure; KwFunction; KwEndFunction; KwExport; KwVal; KwIf; KwThen;
    KwElsIf; KwElse; KwEndIf; KwFor; KwEach; KwIn; KwTo; KwWhile; KwDo; KwEndDo; KwReturn;
    KwContinue; KwBreak; KwGoto; KwTry; KwExcept; KwEndTry; KwRaise; KwVar; KwNew; KwExecute;
    KwAddHandler; KwRemoveHandler; KwAsync; KwAwait; KwAnd; KwOr; KwNot; KwTrue; KwFalse;
    KwUndefined; KwNull; PreIf; PreElsIf; PreElse; PreEndIf; PreRegion; PreEndRegion;
    PreInsert; PreEndInsert; PreDelete; PreEndDelete; AnnAtClient; AnnAtServer;
    AnnAtServerNoContext; AnnAtClientAtServerNoContext; AnnAtClientAtServer; AnnBefore;
    AnnAfter; AnnAround; AnnChangeAndValidate; AnnCustom; Eq; Neq; Le; Lt; Ge; Gt; Plus; Minus;
    Star; Slash; Percent; LParen; RParen; LBrace; RBrace; LBracket; RBracket; Dot; Comma;
    Semicolon; Colon; Question; Tilde; Bar; Hash; Ampersand; Float; Decimal; String;
    StringStart; StringTail; StringPart; Date; Ident; Comment; Newline; Whitespace; Bom; Error ].

(** The discriminant, [kind as u8]. *)
Definition TokenKind_as_u8 (kind : TokenKind) : N :=
  match kind with
  | KwProcedure => 0%N | KwEndProcedure => 1%N | KwFunction => 2%N | KwEndFunction => 3%N
  | KwExport => 4%N | KwVal => 5%N | KwIf => 6%N | KwThen => 7%N | KwElsIf => 8%N
  | KwElse => 9%N | KwEndIf => 10%N | KwFor => 11%N | KwEach => 12%N | KwIn => 13%N
  | KwTo => 14%N | KwWhile => 15%N | KwDo => 16%N | KwEndDo => 17%N | KwReturn => 18%N
  | KwContinue => 19%N | KwBreak => 20%N | KwGoto => 21%N | KwTry => 22%N | KwExcept => 23%N
  | KwEndTry => 24%N | KwRaise => 25%N | KwVar => 26%N | KwNew => 27%N | KwExecute => 28%N
  | KwAddHandler => 29%N | KwRemoveHandler => 30%N | KwAsync => 31%N | KwAwait => 32%N
  | KwAnd => 33%N | KwOr => 34%N | KwNot => 35%N | KwTrue => 36%N | KwFalse => 37%N
  | KwUndefined => 38%N | KwNull => 39%N | PreIf => 40%N | PreElsIf => 41%N | PreElse => 42%N
  | PreEndIf => 43%N | PreRegion => 44%N | PreEndRegion => 45%N | PreInsert => 46%N
  | PreEndInsert => 47%N | PreDelete => 48%N | PreEndDelete => 49%N | AnnAtClient => 50%N
  | AnnAtServer => 51%N | AnnAtServerNoContext => 52%N | AnnAtClientAtServerNoContext => 53%N
  | AnnAtClientAtServer => 54%N | AnnBefore => 55%N | AnnAfter => 56%N | AnnAround => 57%N
  | AnnChangeAndValidate => 58%N | AnnCustom => 59%N | Eq => 60%N | Neq => 61%N | Le => 62%N
  | Lt => 63%N | Ge => 64%N | Gt => 65%N | Plus => 66%N | Minus => 67%N | Star => 68%N
  | Slash => 69%N | Percent => 70%N | LParen => 71%N | RParen => 72%N | LBrace => 73%N
  | RBrace => 74%N | LBracket => 75%N | RBracket => 76%N | Dot => 77%N | Comma => 78%N
  | Semicolon => 79%N | Colon => 80%N | Question => 81%N | Tilde => 82%N | Bar => 83%N
  | Hash => 84%N | Ampersand => 85%N | Float => 86%N | Decimal => 87%N | String => 88%N
  | StringStart => 89%N | StringTail => 90%N | StringPart => 91%N | Date => 92%N
  | Ident => 93%N | Comment => 94%N | Newline => 95%N | Whitespace => 96%N | Bom => 97%N
  | Error => 98%N
  end.

Definition is_trivia (kind : TokenKind) : bool :=
  match kind with
  | Whitespace | Comment | Newline | Bom => true
  | _ => false
  end.

Definition is_keyword (kind : TokenKind) : bool :=
  match kind with
  | KwProcedure | KwEndProcedure | KwFunction | KwEndFunction | KwExport | KwVal | KwIf
  | KwThen | KwElsIf | KwElse | KwEndIf | KwFor | KwEach | KwIn | KwTo | KwWhile | KwDo
  | KwEndDo | KwReturn | KwContinue | KwBreak | KwGoto | KwTry | KwExcept | KwEndTry | KwRaise
  | KwVar | KwNew | KwExecute | KwAddHandler | KwRemoveHandler | KwAsync | KwAwait | KwAnd
  | KwOr | KwNot | KwTrue | KwFalse | KwUndefined | KwNull => true
  | _ => false
  end.

(** ** The grammar's alphabet

    [Sig] wraps a token kind; its constructor is private in the source and every record of the
    alphabet is written [T![ kind ]]. *)
Record Sig : Set := MkSig { sig_kind : TokenKind }.

Notation "'T![' k ]" := (MkSig k) (at level 0, k at level 0, format "'T![' k ]").

Definition sig_is_keyword (s : Sig) : bool := is_keyword (sig_kind s).

(** The records the macro [define_the_alphabet!] generates, in its order. *)
Definition Sig_ALL : list Sig :=
  [ T![KwProcedure]; T![KwEndProcedure]; T![KwFunction]; T![KwEndFunction]; T![KwExport];
    T![KwVal]; T![KwIf]; T![KwThen]; T![KwElsIf]; T![KwElse]; T![KwEndIf]; T![KwFor];
    T![KwEach]; T![KwIn]; T![KwTo]; T![KwWhile]; T![KwDo]; T![KwEndDo]; T![KwReturn];
    T![KwContinue]; T![KwBreak]; T![KwGoto]; T![KwTry]; T![KwExcept]; T![KwEndTry];
    T![KwRaise]; T![KwVar]; T![KwNew]; T![KwExecute]; T![KwAddHandler]; T![KwRemoveHandler];
    T![KwAsync]; T![KwAwait]; T![KwAnd]; T![KwOr]; T![KwNot]; T![KwTrue]; T![KwFalse];
    T![KwUndefined]; T![KwNull]; T![PreIf]; T![PreElsIf]; T![PreElse]; T![PreEndIf];
    T![PreRegion]; T![PreEndRegion]; T![PreInsert]; T![PreEndInsert]; T![PreDelete];
    T![PreEndDelete]; T![AnnAtClient]; T![AnnAtServer]; T![AnnAtServerNoContext];
    T![AnnAtClientAtServerNoContext]; T![AnnAtClientAtServer]; T![AnnBefore]; T![AnnAfter];
    T![AnnAround]; T![AnnChangeAndValidate]; T![AnnCustom]; T![Eq]; T![Neq]; T![Le]; T![Lt];
    T![Ge]; T![Gt]; T![Plus]; T![Minus]; T![Star]; T![Slash]; T![Percent]; T![LParen];
    T![RParen]; T![LBrace]; T![RBrace]; T![LBracket]; T![RBracket]; T![Dot]; T![Comma];
    T![Semicolon]; T![Colon]; T![Question]; T![Tilde]; T![Bar]; T![Hash]; T![Ampersand];
    T![Float]; T![Decimal]; T![String]; T![StringStart]; T![StringTail]; T![StringPart];
    T![Date]; T![Ident]; T![Error] ].

(** ** Node kinds *)
Module NK.
Inductive NodeKind : Set :=
  | SourceFile | ProcedureDef | FunctionDef | VarDef | ParamList | Param | Annotation
  | AnnotationParams | AnnotationParam | CompilerDirective | StmtList | AssignStmt | CallStmt
  | ReturnStmt | IfStmt | ElseIfClause | ElseClause | WhileStmt | ForStmt | ForEachStmt
  | TryStmt | ExceptClause | RaiseStmt | ExecuteStmt | BreakStmt | ContinueStmt | GotoStmt
  | LabelStmt | AddHandlerStmt | RemoveHandlerStmt | EmptyStmt | Expr | BinaryExpr | UnaryExpr
  | TernaryExpr | CallExpr | IndexExpr | FieldExpr | NewExpr | AwaitExpr | ParenExpr | Literal
  | Ident | ArgList | PreIfDir | PreElsIfClause | PreElseClause | PreRegionDir | PreDeleteDir
  | PreInsertDir | PreTornIfPart | PreExpr | PreLogicalExpr | PreLogicalOperand | PreSymbol
  | PreBoolOp | SdblQueryPackage | SdblSelectQuery | SdblSubquery | SdblUnionClause | SdblQuery
  | SdblQueryExtension | SdblLimitations | SdblTopClause | SdblSelectClause | SdblFieldList
  | SdblSelectedField | SdblAlias | SdblAsteriskField | SdblIntoClause | SdblTempTableName
  | SdblFromClause | SdblDataSource | SdblTableRef | SdblJoinClause | SdblWhereClause
  | SdblGroupClause | SdblOrderClause | SdblHavingClause | SdblForUpdate | SdblIndexBy
  | SdblAutoorder | SdblTotalsBy | SdblExpr | SdblLogicalOrExpr | SdblLogicalAndExpr
  | SdblNotExpr | SdblComparisonExpr | SdblInExpr | SdblInHierarchyExpr | SdblIsNullExpr
  | SdblBetweenExpr | SdblLikeExpr | SdblRefsExpr | SdblAdditiveExpr | SdblMultiplicativeExpr
  | SdblUnaryExpr | SdblParenExpr | SdblTupleExpr | SdblSubqueryExpr | SdblColumnRef
  | SdblInlineTableFields | SdblFunctionCall | SdblCaseExpr | SdblWhenClause | SdblLiteral
  | SdblMultiString | SdblParameter | SdblType | SdblDropQuery | SdblMissingArg | SdblError
  | Error | Comment.

Definition ALL : list NodeKind :=
  [ SourceFile; ProcedureDef; FunctionDef; VarDef; ParamList; Param; Annotation;
    AnnotationParams; AnnotationParam; CompilerDirective; StmtList; AssignStmt; CallStmt;
    ReturnStmt; IfStmt; ElseIfClause; ElseClause; WhileStmt; ForStmt; ForEachStmt; TryStmt;
    ExceptClause; RaiseStmt; ExecuteStmt; BreakStmt; ContinueStmt; GotoStmt; LabelStmt;
    AddHandlerStmt; RemoveHandlerStmt; EmptyStmt; Expr; BinaryExpr; UnaryExpr; TernaryExpr;
    CallExpr; IndexExpr; FieldExpr; NewExpr; AwaitExpr; ParenExpr; Literal; Ident; ArgList;
    PreIfDir; PreElsIfClause; PreElseClause; PreRegionDir; PreDeleteDir; PreInsertDir;
    PreTornIfPart; PreExpr; PreLogicalExpr; PreLogicalOperand; PreSymbol; PreBoolOp;
    SdblQueryPackage; SdblSelectQuery; SdblSubquery; SdblUnionClause; SdblQuery;
    SdblQueryExtension; SdblLimitations; SdblTopClause; SdblSelectClause; SdblFieldList;
    SdblSelectedField; SdblAlias; SdblAsteriskField; SdblIntoClause; SdblTempTableName;
    SdblFromClause; SdblDataSource; SdblTableRef; SdblJoinClause; SdblWhereClause;
    SdblGroupClause; SdblOrderClause; SdblHavingClause; SdblForUpdate; SdblIndexBy;
    SdblAutoorder; SdblTotalsBy; SdblExpr; SdblLogicalOrExpr; SdblLogicalAndExpr; SdblNotExpr;
    SdblComparisonExpr; SdblInExpr; SdblInHierarchyExpr; SdblIsNullExpr; SdblBetweenExpr;
    SdblLikeExpr; SdblRefsExpr; SdblAdditiveExpr; SdblMultiplicativeExpr; SdblUnaryExpr;
    SdblParenExpr; SdblTupleExpr; SdblSubqueryExpr; SdblColumnRef; SdblInlineTableFields;
    SdblFunctionCall; SdblCaseExpr; SdblWhenClause; SdblLiteral; SdblMultiString;
    SdblParameter; SdblType; SdblDropQuery; SdblMissingArg; SdblError; Error; Comment ].

Definition index (kind : NodeKind) : N :=
  match kind with
  | SourceFile => 0%N | ProcedureDef => 1%N | FunctionDef => 2%N | VarDef => 3%N
  | ParamList => 4%N | Param => 5%N | Annotation => 6%N | AnnotationParams => 7%N
  | AnnotationParam => 8%N | CompilerDirective => 9%N | StmtList => 10%N | AssignStmt => 11%N
  | CallStmt => 12%N | ReturnStmt => 13%N | IfStmt => 14%N | ElseIfClause => 15%N
  | ElseClause => 16%N | WhileStmt => 17%N | ForStmt => 18%N | ForEachStmt => 19%N
  | TryStmt => 20%N | ExceptClause => 21%N | RaiseStmt => 22%N | ExecuteStmt => 23%N
  | BreakStmt => 24%N | ContinueStmt => 25%N | GotoStmt => 26%N | LabelStmt => 27%N
  | AddHandlerStmt => 28%N | RemoveHandlerStmt => 29%N | EmptyStmt => 30%N | Expr => 31%N
  | BinaryExpr => 32%N | UnaryExpr => 33%N | TernaryExpr => 34%N | CallExpr => 35%N
  | IndexExpr => 36%N | FieldExpr => 37%N | NewExpr => 38%N | AwaitExpr => 39%N
  | ParenExpr => 40%N | Literal => 41%N | Ident => 42%N | ArgList => 43%N | PreIfDir => 44%N
  | PreElsIfClause => 45%N | PreElseClause => 46%N | PreRegionDir => 47%N
  | PreDeleteDir => 48%N | PreInsertDir => 49%N | PreTornIfPart => 50%N | PreExpr => 51%N
  | PreLogicalExpr => 52%N | PreLogicalOperand => 53%N | PreSymbol => 54%N | PreBoolOp => 55%N
  | SdblQueryPackage => 56%N | SdblSelectQuery => 57%N | SdblSubquery => 58%N
  | SdblUnionClause => 59%N | SdblQuery => 60%N | SdblQueryExtension => 61%N
  | SdblLimitations => 62%N | SdblTopClause => 63%N | SdblSelectClause => 64%N
  | SdblFieldList => 65%N | SdblSelectedField => 66%N | SdblAlias => 67%N
  | SdblAsteriskField => 68%N | SdblIntoClause => 69%N | SdblTempTableName => 70%N
  | SdblFromClause => 71%N | SdblDataSource => 72%N | SdblTableRef => 73%N
  | SdblJoinClause => 74%N | SdblWhereClause => 75%N | SdblGroupClause => 76%N
  | SdblOrderClause => 77%N | SdblHavingClause => 78%N | SdblForUpdate => 79%N
  | SdblIndexBy => 80%N | SdblAutoorder => 81%N | SdblTotalsBy => 82%N | SdblExpr => 83%N
  | SdblLogicalOrExpr => 84%N | SdblLogicalAndExpr => 85%N | SdblNotExpr => 86%N
  | SdblComparisonExpr => 87%N | SdblInExpr => 88%N | SdblInHierarchyExpr => 89%N
  | SdblIsNullExpr => 90%N | SdblBetweenExpr => 91%N | SdblLikeExpr => 92%N
  | SdblRefsExpr => 93%N | SdblAdditiveExpr => 94%N | SdblMultiplicativeExpr => 95%N
  | SdblUnaryExpr => 96%N | SdblParenExpr => 97%N | SdblTupleExpr => 98%N
  | SdblSubqueryExpr => 99%N | SdblColumnRef => 100%N | SdblInlineTableFields => 101%N
  | SdblFunctionCall => 102%N | SdblCaseExpr => 103%N | SdblWhenClause => 104%N
  | SdblLiteral => 105%N | SdblMultiString => 106%N | SdblParameter => 107%N
  | SdblType => 108%N | SdblDropQuery => 109%N | SdblMissingArg => 110%N | SdblError => 111%N
  | Error => 112%N | Comment => 113%N
  end.
End NK.
Abbreviation NodeKind := NK.NodeKind.

(** ** Tree kinds *)
Module SK.
Inductive SyntaxKind : Set :=
  | TOMBSTONE | EOF | WHITESPACE | NEWLINE | COMMENT | BOM | KW_PROCEDURE | KW_END_PROCEDURE
  | KW_FUNCTION | KW_END_FUNCTION | KW_EXPORT | KW_VAL | KW_IF | KW_THEN | KW_ELSIF | KW_ELSE
  | KW_END_IF | KW_FOR | KW_EACH | KW_IN | KW_TO | KW_WHILE | KW_DO | KW_END_DO | KW_RETURN
  | KW_CONTINUE | KW_BREAK | KW_GOTO | KW_TRY | KW_EXCEPT | KW_END_TRY | KW_RAISE | KW_VAR
  | KW_NEW | KW_EXECUTE | KW_ADD_HANDLER | KW_REMOVE_HANDLER | KW_ASYNC | KW_AWAIT | KW_AND
  | KW_OR | KW_NOT | KW_TRUE | KW_FALSE | KW_UNDEFINED | KW_NULL | PRE_IF | PRE_ELSIF
  | PRE_ELSE | PRE_END_IF | PRE_REGION | PRE_END_REGION | PRE_INSERT | PRE_END_INSERT
  | PRE_DELETE | PRE_END_DELETE | ANN_AT_CLIENT | ANN_AT_SERVER | ANN_AT_SERVER_NO_CONTEXT
  | ANN_AT_CLIENT_AT_SERVER_NO_CONTEXT | ANN_AT_CLIENT_AT_SERVER | ANN_BEFORE | ANN_AFTER
  | ANN_AROUND | ANN_CHANGE_AND_VALIDATE | ANN_CUSTOM | EQ | NEQ | LE | LT | GE | GT | PLUS
  | MINUS | STAR | SLASH | PERCENT | L_PAREN | R_PAREN | L_BRACE | R_BRACE | L_BRACKET
  | R_BRACKET | DOT | COMMA | SEMICOLON | COLON | QUESTION | TILDE | BAR | HASH | AMPERSAND
  | FLOAT | DECIMAL | STRING | STRING_START | STRING_TAIL | STRING_PART | DATE | IDENT
  | SOURCE_FILE | PROCEDURE_DEF | FUNCTION_DEF | VAR_DEF | PARAM_LIST | PARAM | ANNOTATION
  | ANNOTATION_PARAMS | ANNOTATION_PARAM | COMPILER_DIRECTIVE | STMT_LIST | ASSIGN_STMT
  | CALL_STMT | RETURN_STMT | IF_STMT | ELSIF_CLAUSE | ELSE_CLAUSE | WHILE_STMT | FOR_STMT
  | FOR_EACH_STMT | TRY_STMT | EXCEPT_CLAUSE | RAISE_STMT | EXECUTE_STMT | BREAK_STMT
  | CONTINUE_STMT | GOTO_STMT | LABEL_STMT | ADD_HANDLER_STMT | REMOVE_HANDLER_STMT
  | EMPTY_STMT | EXPR | BINARY_EXPR | UNARY_EXPR | TERNARY_EXPR | CALL_EXPR | INDEX_EXPR
  | FIELD_EXPR | NEW_EXPR | AWAIT_EXPR | PAREN_EXPR | LITERAL | ARG_LIST | PRE_IF_DIR
  | PRE_ELSIF_CLAUSE | PRE_ELSE_CLAUSE | PRE_REGION_DIR | PRE_DELETE_DIR | PRE_INSERT_DIR
  | PRE_TORN_IF_PART | PRE_EXPR | PRE_LOGICAL_EXPR | PRE_LOGICAL_OPERAND | PRE_SYMBOL
  | PRE_BOOL_OP | SDBL_QUERY_PACKAGE | SDBL_SELECT_QUERY | SDBL_SUBQUERY | SDBL_UNION_CLAUSE
  | SDBL_QUERY | SDBL_LIMITATIONS | SDBL_TOP_CLAUSE | SDBL_SELECT_CLAUSE | SDBL_FIELD_LIST
  | SDBL_SELECTED_FIELD | SDBL_ALIAS | SDBL_ASTERISK_FIELD | SDBL_INTO_CLAUSE
  | SDBL_TEMP_TABLE_NAME | SDBL_FROM_CLAUSE | SDBL_DATA_SOURCE | SDBL_TABLE_REF
  | SDBL_WHERE_CLAUSE | SDBL_EXPR | SDBL_LOGICAL_OR_EXPR | SDBL_LOGICAL_AND_EXPR
  | SDBL_NOT_EXPR | SDBL_COMPARISON_EXPR | SDBL_IN_EXPR | SDBL_IN_HIERARCHY_EXPR
  | SDBL_IS_NULL_EXPR | SDBL_BETWEEN_EXPR | SDBL_LIKE_EXPR | SDBL_REFS_EXPR
  | SDBL_ADDITIVE_EXPR | SDBL_MULTIPLICATIVE_EXPR | SDBL_UNARY_EXPR | SDBL_PAREN_EXPR
  | SDBL_TUPLE_EXPR | SDBL_SUBQUERY_EXPR | SDBL_COLUMN_REF | SDBL_INLINE_TABLE_FIELDS
  | SDBL_FUNCTION_CALL | SDBL_CASE_EXPR | SDBL_WHEN_CLAUSE | SDBL_LITERAL | SDBL_MULTI_STRING
  | SDBL_PARAMETER | SDBL_TYPE | SDBL_JOIN_CLAUSE | SDBL_GROUP_CLAUSE | SDBL_ORDER_CLAUSE
  | SDBL_HAVING_CLAUSE | SDBL_FOR_UPDATE | SDBL_INDEX_BY | SDBL_AUTOORDER | SDBL_TOTALS_BY
  | SDBL_DROP_QUERY | SDBL_QUERY_EXTENSION | SDBL_MISSING_ARG | SDBL_ERROR | ERROR.

Definition ALL : list SyntaxKind :=
  [ TOMBSTONE; EOF; WHITESPACE; NEWLINE; COMMENT; BOM; KW_PROCEDURE; KW_END_PROCEDURE;
    KW_FUNCTION; KW_END_FUNCTION; KW_EXPORT; KW_VAL; KW_IF; KW_THEN; KW_ELSIF; KW_ELSE;
    KW_END_IF; KW_FOR; KW_EACH; KW_IN; KW_TO; KW_WHILE; KW_DO; KW_END_DO; KW_RETURN;
    KW_CONTINUE; KW_BREAK; KW_GOTO; KW_TRY; KW_EXCEPT; KW_END_TRY; KW_RAISE; KW_VAR; KW_NEW;
    KW_EXECUTE; KW_ADD_HANDLER; KW_REMOVE_HANDLER; KW_ASYNC; KW_AWAIT; KW_AND; KW_OR; KW_NOT;
    KW_TRUE; KW_FALSE; KW_UNDEFINED; KW_NULL; PRE_IF; PRE_ELSIF; PRE_ELSE; PRE_END_IF;
    PRE_REGION; PRE_END_REGION; PRE_INSERT; PRE_END_INSERT; PRE_DELETE; PRE_END_DELETE;
    ANN_AT_CLIENT; ANN_AT_SERVER; ANN_AT_SERVER_NO_CONTEXT; ANN_AT_CLIENT_AT_SERVER_NO_CONTEXT;
    ANN_AT_CLIENT_AT_SERVER; ANN_BEFORE; ANN_AFTER; ANN_AROUND; ANN_CHANGE_AND_VALIDATE;
    ANN_CUSTOM; EQ; NEQ; LE; LT; GE; GT; PLUS; MINUS; STAR; SLASH; PERCENT; L_PAREN; R_PAREN;
    L_BRACE; R_BRACE; L_BRACKET; R_BRACKET; DOT; COMMA; SEMICOLON; COLON; QUESTION; TILDE; BAR;
    HASH; AMPERSAND; FLOAT; DECIMAL; STRING; STRING_START; STRING_TAIL; STRING_PART; DATE;
    IDENT; SOURCE_FILE; PROCEDURE_DEF; FUNCTION_DEF; VAR_DEF; PARAM_LIST; PARAM; ANNOTATION;
    ANNOTATION_PARAMS; ANNOTATION_PARAM; COMPILER_DIRECTIVE; STMT_LIST; ASSIGN_STMT; CALL_STMT;
    RETURN_STMT; IF_STMT; ELSIF_CLAUSE; ELSE_CLAUSE; WHILE_STMT; FOR_STMT; FOR_EACH_STMT;
    TRY_STMT; EXCEPT_CLAUSE; RAISE_STMT; EXECUTE_STMT; BREAK_STMT; CONTINUE_STMT; GOTO_STMT;
    LABEL_STMT; ADD_HANDLER_STMT; REMOVE_HANDLER_STMT; EMPTY_STMT; EXPR; BINARY_EXPR;
    UNARY_EXPR; TERNARY_EXPR; CALL_EXPR; INDEX_EXPR; FIELD_EXPR; NEW_EXPR; AWAIT_EXPR;
    PAREN_EXPR; LITERAL; ARG_LIST; PRE_IF_DIR; PRE_ELSIF_CLAUSE; PRE_ELSE_CLAUSE;
    PRE_REGION_DIR; PRE_DELETE_DIR; PRE_INSERT_DIR; PRE_TORN_IF_PART; PRE_EXPR;
    PRE_LOGICAL_EXPR; PRE_LOGICAL_OPERAND; PRE_SYMBOL; PRE_BOOL_OP; SDBL_QUERY_PACKAGE;
    SDBL_SELECT_QUERY; SDBL_SUBQUERY; SDBL_UNION_CLAUSE; SDBL_QUERY; SDBL_LIMITATIONS;
    SDBL_TOP_CLAUSE; SDBL_SELECT_CLAUSE; SDBL_FIELD_LIST; SDBL_SELECTED_FIELD; SDBL_ALIAS;
    SDBL_ASTERISK_FIELD; SDBL_INTO_CLAUSE; SDBL_TEMP_TABLE_NAME; SDBL_FROM_CLAUSE;
    SDBL_DATA_SOURCE; SDBL_TABLE_REF; SDBL_WHERE_CLAUSE; SDBL_EXPR; SDBL_LOGICAL_OR_EXPR;
    SDBL_LOGICAL_AND_EXPR; SDBL_NOT_EXPR; SDBL_COMPARISON_EXPR; SDBL_IN_EXPR;
    SDBL_IN_HIERARCHY_EXPR; SDBL_IS_NULL_EXPR; SDBL_BETWEEN_EXPR; SDBL_LIKE_EXPR;
    SDBL_REFS_EXPR; SDBL_ADDITIVE_EXPR; SDBL_MULTIPLICATIVE_EXPR; SDBL_UNARY_EXPR;
    SDBL_PAREN_EXPR; SDBL_TUPLE_EXPR; SDBL_SUBQUERY_EXPR; SDBL_COLUMN_REF;
    SDBL_INLINE_TABLE_FIELDS; SDBL_FUNCTION_CALL; SDBL_CASE_EXPR; SDBL_WHEN_CLAUSE;
    SDBL_LITERAL; SDBL_MULTI_STRING; SDBL_PARAMETER; SDBL_TYPE; SDBL_JOIN_CLAUSE;
    SDBL_GROUP_CLAUSE; SDBL_ORDER_CLAUSE; SDBL_HAVING_CLAUSE; SDBL_FOR_UPDATE; SDBL_INDEX_BY;
    SDBL_AUTOORDER; SDBL_TOTALS_BY; SDBL_DROP_QUERY; SDBL_QUERY_EXTENSION; SDBL_MISSING_ARG;
    SDBL_ERROR; ERROR ].

(** [u16::from(kind)]. *)
Definition into_u16 (kind : SyntaxKind) : N :=
  match kind with
  | TOMBSTONE => 0%N | EOF => 1%N | WHITESPACE => 2%N | NEWLINE => 3%N | COMMENT => 4%N
  | BOM => 5%N | KW_PROCEDURE => 6%N | KW_END_PROCEDURE => 7%N | KW_FUNCTION => 8%N
  | KW_END_FUNCTION => 9%N | KW_EXPORT => 10%N | KW_VAL => 11%N | KW_IF => 12%N
  | KW_THEN => 13%N | KW_ELSIF => 14%N | KW_ELSE => 15%N | KW_END_IF => 16%N | KW_FOR => 17%N
  | KW_EACH => 18%N | KW_IN => 19%N | KW_TO => 20%N | KW_WHILE => 21%N | KW_DO => 22%N
  | KW_END_DO => 23%N | KW_RETURN => 24%N | KW_CONTINUE => 25%N | KW_BREAK => 26%N
  | KW_GOTO => 27%N | KW_TRY => 28%N | KW_EXCEPT => 29%N | KW_END_TRY => 30%N
  | KW_RAISE => 31%N | KW_VAR => 32%N | KW_NEW => 33%N | KW_EXECUTE => 34%N
  | KW_ADD_HANDLER => 35%N | KW_REMOVE_HANDLER => 36%N | KW_ASYNC => 37%N | KW_AWAIT => 38%N
  | KW_AND => 39%N | KW_OR => 40%N | KW_NOT => 41%N | KW_TRUE => 42%N | KW_FALSE => 43%N
  | KW_UNDEFINED => 44%N | KW_NULL => 45%N | PRE_IF => 46%N | PRE_ELSIF => 47%N
  | PRE_ELSE => 48%N | PRE_END_IF => 49%N | PRE_REGION => 50%N | PRE_END_REGION => 51%N
  | PRE_INSERT => 52%N | PRE_END_INSERT => 53%N | PRE_DELETE => 54%N | PRE_END_DELETE => 55%N
  | ANN_AT_CLIENT => 56%N | ANN_AT_SERVER => 57%N | ANN_AT_SERVER_NO_CONTEXT => 58%N
  | ANN_AT_CLIENT_AT_SERVER_NO_CONTEXT => 59%N | ANN_AT_CLIENT_AT_SERVER => 60%N
  | ANN_BEFORE => 61%N | ANN_AFTER => 62%N | ANN_AROUND => 63%N
  | ANN_CHANGE_AND_VALIDATE => 64%N | ANN_CUSTOM => 65%N | EQ => 66%N | NEQ => 67%N
  | LE => 68%N | LT => 69%N | GE => 70%N | GT => 71%N | PLUS => 72%N | MINUS => 73%N
  | STAR => 74%N | SLASH => 75%N | PERCENT => 76%N | L_PAREN => 77%N | R_PAREN => 78%N
  | L_BRACE => 79%N | R_BRACE => 80%N | L_BRACKET => 81%N | R_BRACKET => 82%N | DOT => 83%N
  | COMMA => 84%N | SEMICOLON => 85%N | COLON => 86%N | QUESTION => 87%N | TILDE => 88%N
  | BAR => 89%N | HASH => 90%N | AMPERSAND => 91%N | FLOAT => 92%N | DECIMAL => 93%N
  | STRING => 94%N | STRING_START => 95%N | STRING_TAIL => 96%N | STRING_PART => 97%N
  | DATE => 98%N | IDENT => 99%N | SOURCE_FILE => 100%N | PROCEDURE_DEF => 101%N
  | FUNCTION_DEF => 102%N | VAR_DEF => 103%N | PARAM_LIST => 104%N | PARAM => 105%N
  | ANNOTATION => 106%N | ANNOTATION_PARAMS => 107%N | ANNOTATION_PARAM => 108%N
  | COMPILER_DIRECTIVE => 109%N | STMT_LIST => 110%N | ASSIGN_STMT => 111%N
  | CALL_STMT => 112%N | RETURN_STMT => 113%N | IF_STMT => 114%N | ELSIF_CLAUSE => 115%N
  | ELSE_CLAUSE => 116%N | WHILE_STMT => 117%N | FOR_STMT => 118%N | FOR_EACH_STMT => 119%N
  | TRY_STMT => 120%N | EXCEPT_CLAUSE => 121%N | RAISE_STMT => 122%N | EXECUTE_STMT => 123%N
  | BREAK_STMT => 124%N | CONTINUE_STMT => 125%N | GOTO_STMT => 126%N | LABEL_STMT => 127%N
  | ADD_HANDLER_STMT => 128%N | REMOVE_HANDLER_STMT => 129%N | EMPTY_STMT => 130%N
  | EXPR => 131%N | BINARY_EXPR => 132%N | UNARY_EXPR => 133%N | TERNARY_EXPR => 134%N
  | CALL_EXPR => 135%N | INDEX_EXPR => 136%N | FIELD_EXPR => 137%N | NEW_EXPR => 138%N
  | AWAIT_EXPR => 139%N | PAREN_EXPR => 140%N | LITERAL => 141%N | ARG_LIST => 142%N
  | PRE_IF_DIR => 143%N | PRE_ELSIF_CLAUSE => 144%N | PRE_ELSE_CLAUSE => 145%N
  | PRE_REGION_DIR => 146%N | PRE_DELETE_DIR => 147%N | PRE_INSERT_DIR => 148%N
  | PRE_TORN_IF_PART => 149%N | PRE_EXPR => 150%N | PRE_LOGICAL_EXPR => 151%N
  | PRE_LOGICAL_OPERAND => 152%N | PRE_SYMBOL => 153%N | PRE_BOOL_OP => 154%N
  | SDBL_QUERY_PACKAGE => 155%N | SDBL_SELECT_QUERY => 156%N | SDBL_SUBQUERY => 157%N
  | SDBL_UNION_CLAUSE => 158%N | SDBL_QUERY => 159%N | SDBL_LIMITATIONS => 160%N
  | SDBL_TOP_CLAUSE => 161%N | SDBL_SELECT_CLAUSE => 162%N | SDBL_FIELD_LIST => 163%N
  | SDBL_SELECTED_FIELD => 164%N | SDBL_ALIAS => 165%N | SDBL_ASTERISK_FIELD => 166%N
  | SDBL_INTO_CLAUSE => 167%N | SDBL_TEMP_TABLE_NAME => 168%N | SDBL_FROM_CLAUSE => 169%N
  | SDBL_DATA_SOURCE => 170%N | SDBL_TABLE_REF => 171%N | SDBL_WHERE_CLAUSE => 172%N
  | SDBL_EXPR => 173%N | SDBL_LOGICAL_OR_EXPR => 174%N | SDBL_LOGICAL_AND_EXPR => 175%N
  | SDBL_NOT_EXPR => 176%N | SDBL_COMPARISON_EXPR => 177%N | SDBL_IN_EXPR => 178%N
  | SDBL_IN_HIERARCHY_EXPR => 179%N | SDBL_IS_NULL_EXPR => 180%N | SDBL_BETWEEN_EXPR => 181%N
  | SDBL_LIKE_EXPR => 182%N | SDBL_REFS_EXPR => 183%N | SDBL_ADDITIVE_EXPR => 184%N
  | SDBL_MULTIPLICATIVE_EXPR => 185%N | SDBL_UNARY_EXPR => 186%N | SDBL_PAREN_EXPR => 187%N
  | SDBL_TUPLE_EXPR => 188%N | SDBL_SUBQUERY_EXPR => 189%N | SDBL_COLUMN_REF => 190%N
  | SDBL_INLINE_TABLE_FIELDS => 191%N | SDBL_FUNCTION_CALL => 192%N | SDBL_CASE_EXPR => 193%N
  | SDBL_WHEN_CLAUSE => 194%N | SDBL_LITERAL => 195%N | SDBL_MULTI_STRING => 196%N
  | SDBL_PARAMETER => 197%N | SDBL_TYPE => 198%N | SDBL_JOIN_CLAUSE => 199%N
  | SDBL_GROUP_CLAUSE => 200%N | SDBL_ORDER_CLAUSE => 201%N | SDBL_HAVING_CLAUSE => 202%N
  | SDBL_FOR_UPDATE => 203%N | SDBL_INDEX_BY => 204%N | SDBL_AUTOORDER => 205%N
  | SDBL_TOTALS_BY => 206%N | SDBL_DROP_QUERY => 207%N | SDBL_QUERY_EXTENSION => 208%N
  | SDBL_MISSING_ARG => 209%N | SDBL_ERROR => 210%N | ERROR => 211%N
  end.

(** [SyntaxKind::from(value)]: the assertion fails outside the enumeration. *)
Definition from_u16 (value : N) : option SyntaxKind :=
  if (value <? N.of_nat (length ALL))%N then ALL !! N.to_nat value else None.

Definition is_trivia (kind : SyntaxKind) : bool :=
  match kind with
  | WHITESPACE | COMMENT | NEWLINE | BOM => true
  | _ => false
  end.

Definition is_keyword (kind : SyntaxKind) : bool :=
  match kind with
  | KW_PROCEDURE | KW_END_PROCEDURE | KW_FUNCTION | KW_END_FUNCTION | KW_EXPORT | KW_VAL
  | KW_IF | KW_THEN | KW_ELSIF | KW_ELSE | KW_END_IF | KW_FOR | KW_EACH | KW_IN | KW_TO
  | KW_WHILE | KW_DO | KW_END_DO | KW_RETURN | KW_CONTINUE | KW_BREAK | KW_GOTO | KW_TRY
  | KW_EXCEPT | KW_END_TRY | KW_RAISE | KW_VAR | KW_NEW | KW_EXECUTE | KW_ADD_HANDLER
  | KW_REMOVE_HANDLER | KW_ASYNC | KW_AWAIT | KW_AND | KW_OR | KW_NOT | KW_TRUE | KW_FALSE
  | KW_UNDEFINED | KW_NULL => true
  | _ => false
  end.

Definition is_literal (kind : SyntaxKind) : bool :=
  match kind with
  | FLOAT | DECIMAL | STRING | STRING_START | STRING_TAIL | STRING_PART | DATE | KW_TRUE
  | KW_FALSE | KW_UNDEFINED | KW_NULL => true
  | _ => false
  end.

Definition is_string_literal (kind : SyntaxKind) : bool :=
  match kind with
  | STRING | STRING_START | STRING_TAIL | STRING_PART => true
  | _ => false
  end.

Definition is_number_literal (kind : SyntaxKind) : bool :=
  match kind with
  | DECIMAL | FLOAT | DATE => true
  | _ => false
  end.

Definition is_boolean_literal (kind : SyntaxKind) : bool :=
  match kind with
  | KW_TRUE | KW_FALSE => true
  | _ => false
  end.

Definition is_preprocessor (kind : SyntaxKind) : bool :=
  match kind with
  | PRE_IF | PRE_ELSIF | PRE_ELSE | PRE_END_IF | PRE_REGION | PRE_END_REGION | PRE_INSERT
  | PRE_END_INSERT | PRE_DELETE | PRE_END_DELETE => true
  | _ => false
  end.

Definition is_annotation (kind : SyntaxKind) : bool :=
  match kind with
  | ANN_AT_CLIENT | ANN_AT_SERVER | ANN_AT_SERVER_NO_CONTEXT
  | ANN_AT_CLIENT_AT_SERVER_NO_CONTEXT | ANN_AT_CLIENT_AT_SERVER | ANN_BEFORE | ANN_AFTER
  | ANN_AROUND | ANN_CHANGE_AND_VALIDATE | ANN_CUSTOM => true
  | _ => false
  end.

Definition is_compilation_directive (kind : SyntaxKind) : bool :=
  match kind with
  | ANN_AT_CLIENT | ANN_AT_SERVER | ANN_AT_SERVER_NO_CONTEXT
  | ANN_AT_CLIENT_AT_SERVER_NO_CONTEXT | ANN_AT_CLIENT_AT_SERVER => true
  | _ => false
  end.

Definition is_declaration_keyword (kind : SyntaxKind) : bool :=
  match kind with
  | KW_PROCEDURE | KW_END_PROCEDURE | KW_FUNCTION | KW_END_FUNCTION | KW_EXPORT | KW_VAL
  | KW_VAR | KW_ASYNC => true
  | _ => false
  end.

Definition is_operator (kind : SyntaxKind) : bool :=
  match kind with
  | PLUS | MINUS | STAR | SLASH | PERCENT | EQ | NEQ | LT | LE | GT | GE => true
  | _ => false
  end.

End SK.
Abbreviation SyntaxKind := SK.SyntaxKind.

(** ** Translations into the tree's kinds *)

Definition node_kind_to_syntax (kind : NodeKind) : SyntaxKind :=
  match kind with
  | NK.SourceFile => SK.SOURCE_FILE | NK.ProcedureDef => SK.PROCEDURE_DEF
  | NK.FunctionDef => SK.FUNCTION_DEF | NK.VarDef => SK.VAR_DEF | NK.ParamList => SK.PARAM_LIST
  | NK.Param => SK.PARAM | NK.Annotation => SK.ANNOTATION
  | NK.AnnotationParams => SK.ANNOTATION_PARAMS | NK.AnnotationParam => SK.ANNOTATION_PARAM
  | NK.CompilerDirective => SK.COMPILER_DIRECTIVE | NK.StmtList => SK.STMT_LIST
  | NK.AssignStmt => SK.ASSIGN_STMT | NK.CallStmt => SK.CALL_STMT
  | NK.ReturnStmt => SK.RETURN_STMT | NK.IfStmt => SK.IF_STMT
  | NK.ElseIfClause => SK.ELSIF_CLAUSE | NK.ElseClause => SK.ELSE_CLAUSE
  | NK.WhileStmt => SK.WHILE_STMT | NK.ForStmt => SK.FOR_STMT
  | NK.ForEachStmt => SK.FOR_EACH_STMT | NK.TryStmt => SK.TRY_STMT
  | NK.ExceptClause => SK.EXCEPT_CLAUSE | NK.RaiseStmt => SK.RAISE_STMT
  | NK.ExecuteStmt => SK.EXECUTE_STMT | NK.BreakStmt => SK.BREAK_STMT
  | NK.ContinueStmt => SK.CONTINUE_STMT | NK.GotoStmt => SK.GOTO_STMT
  | NK.LabelStmt => SK.LABEL_STMT | NK.AddHandlerStmt => SK.ADD_HANDLER_STMT
  | NK.RemoveHandlerStmt => SK.REMOVE_HANDLER_STMT | NK.EmptyStmt => SK.EMPTY_STMT
  | NK.Expr => SK.EXPR | NK.BinaryExpr => SK.BINARY_EXPR | NK.UnaryExpr => SK.UNARY_EXPR
  | NK.TernaryExpr => SK.TERNARY_EXPR | NK.CallExpr => SK.CALL_EXPR
  | NK.IndexExpr => SK.INDEX_EXPR | NK.FieldExpr => SK.FIELD_EXPR | NK.NewExpr => SK.NEW_EXPR
  | NK.AwaitExpr => SK.AWAIT_EXPR | NK.ParenExpr => SK.PAREN_EXPR | NK.Literal => SK.LITERAL
  | NK.Ident => SK.IDENT | NK.ArgList => SK.ARG_LIST | NK.PreIfDir => SK.PRE_IF_DIR
  | NK.PreElsIfClause => SK.PRE_ELSIF_CLAUSE | NK.PreElseClause => SK.PRE_ELSE_CLAUSE
  | NK.PreRegionDir => SK.PRE_REGION_DIR | NK.PreDeleteDir => SK.PRE_DELETE_DIR
  | NK.PreInsertDir => SK.PRE_INSERT_DIR | NK.PreTornIfPart => SK.PRE_TORN_IF_PART
  | NK.PreExpr => SK.PRE_EXPR | NK.PreLogicalExpr => SK.PRE_LOGICAL_EXPR
  | NK.PreLogicalOperand => SK.PRE_LOGICAL_OPERAND | NK.PreSymbol => SK.PRE_SYMBOL
  | NK.PreBoolOp => SK.PRE_BOOL_OP | NK.SdblQueryPackage => SK.SDBL_QUERY_PACKAGE
  | NK.SdblSelectQuery => SK.SDBL_SELECT_QUERY | NK.SdblSubquery => SK.SDBL_SUBQUERY
  | NK.SdblUnionClause => SK.SDBL_UNION_CLAUSE | NK.SdblQuery => SK.SDBL_QUERY
  | NK.SdblQueryExtension => SK.SDBL_QUERY_EXTENSION
  | NK.SdblLimitations => SK.SDBL_LIMITATIONS | NK.SdblTopClause => SK.SDBL_TOP_CLAUSE
  | NK.SdblSelectClause => SK.SDBL_SELECT_CLAUSE | NK.SdblFieldList => SK.SDBL_FIELD_LIST
  | NK.SdblSelectedField => SK.SDBL_SELECTED_FIELD | NK.SdblAlias => SK.SDBL_ALIAS
  | NK.SdblAsteriskField => SK.SDBL_ASTERISK_FIELD | NK.SdblIntoClause => SK.SDBL_INTO_CLAUSE
  | NK.SdblTempTableName => SK.SDBL_TEMP_TABLE_NAME | NK.SdblFromClause => SK.SDBL_FROM_CLAUSE
  | NK.SdblDataSource => SK.SDBL_DATA_SOURCE | NK.SdblTableRef => SK.SDBL_TABLE_REF
  | NK.SdblJoinClause => SK.SDBL_JOIN_CLAUSE | NK.SdblWhereClause => SK.SDBL_WHERE_CLAUSE
  | NK.SdblGroupClause => SK.SDBL_GROUP_CLAUSE | NK.SdblOrderClause => SK.SDBL_ORDER_CLAUSE
  | NK.SdblHavingClause => SK.SDBL_HAVING_CLAUSE | NK.SdblForUpdate => SK.SDBL_FOR_UPDATE
  | NK.SdblIndexBy => SK.SDBL_INDEX_BY | NK.SdblAutoorder => SK.SDBL_AUTOORDER
  | NK.SdblTotalsBy => SK.SDBL_TOTALS_BY | NK.SdblExpr => SK.SDBL_EXPR
  | NK.SdblLogicalOrExpr => SK.SDBL_LOGICAL_OR_EXPR
  | NK.SdblLogicalAndExpr => SK.SDBL_LOGICAL_AND_EXPR | NK.SdblNotExpr => SK.SDBL_NOT_EXPR
  | NK.SdblComparisonExpr => SK.SDBL_COMPARISON_EXPR | NK.SdblInExpr => SK.SDBL_IN_EXPR
  | NK.SdblInHierarchyExpr => SK.SDBL_IN_HIERARCHY_EXPR
  | NK.SdblIsNullExpr => SK.SDBL_IS_NULL_EXPR | NK.SdblBetweenExpr => SK.SDBL_BETWEEN_EXPR
  | NK.SdblLikeExpr => SK.SDBL_LIKE_EXPR | NK.SdblRefsExpr => SK.SDBL_REFS_EXPR
  | NK.SdblAdditiveExpr => SK.SDBL_ADDITIVE_EXPR
  | NK.SdblMultiplicativeExpr => SK.SDBL_MULTIPLICATIVE_EXPR
  | NK.SdblUnaryExpr => SK.SDBL_UNARY_EXPR | NK.SdblParenExpr => SK.SDBL_PAREN_EXPR
  | NK.SdblTupleExpr => SK.SDBL_TUPLE_EXPR | NK.SdblSubqueryExpr => SK.SDBL_SUBQUERY_EXPR
  | NK.SdblColumnRef => SK.SDBL_COLUMN_REF
  | NK.SdblInlineTableFields => SK.SDBL_INLINE_TABLE_FIELDS
  | NK.SdblFunctionCall => SK.SDBL_FUNCTION_CALL | NK.SdblCaseExpr => SK.SDBL_CASE_EXPR
  | NK.SdblWhenClause => SK.SDBL_WHEN_CLAUSE | NK.SdblLiteral => SK.SDBL_LITERAL
  | NK.SdblMultiString => SK.SDBL_MULTI_STRING | NK.SdblParameter => SK.SDBL_PARAMETER
  | NK.SdblType => SK.SDBL_TYPE | NK.SdblDropQuery => SK.SDBL_DROP_QUERY
  | NK.SdblMissingArg => SK.SDBL_MISSING_ARG | NK.SdblError => SK.SDBL_ERROR
  | NK.Error => SK.ERROR | NK.Comment => SK.COMMENT
  end.

Definition token_kind_to_syntax (kind : TokenKind) : SyntaxKind :=
  match kind with
  | KwProcedure => SK.KW_PROCEDURE | KwEndProcedure => SK.KW_END_PROCEDURE
  | KwFunction => SK.KW_FUNCTION | KwEndFunction => SK.KW_END_FUNCTION
  | KwExport => SK.KW_EXPORT | KwVal => SK.KW_VAL | KwIf => SK.KW_IF | KwThen => SK.KW_THEN
  | KwElsIf => SK.KW_ELSIF | KwElse => SK.KW_ELSE | KwEndIf => SK.KW_END_IF
  | KwFor => SK.KW_FOR | KwEach => SK.KW_EACH | KwIn => SK.KW_IN | KwTo => SK.KW_TO
  | KwWhile => SK.KW_WHILE | KwDo => SK.KW_DO | KwEndDo => SK.KW_END_DO
  | KwReturn => SK.KW_RETURN | KwContinue => SK.KW_CONTINUE | KwBreak => SK.KW_BREAK
  | KwGoto => SK.KW_GOTO | KwTry => SK.KW_TRY | KwExcept => SK.KW_EXCEPT
  | KwEndTry => SK.KW_END_TRY | KwRaise => SK.KW_RAISE | KwVar => SK.KW_VAR
  | KwNew => SK.KW_NEW | KwExecute => SK.KW_EXECUTE | KwAddHandler => SK.KW_ADD_HANDLER
  | KwRemoveHandler => SK.KW_REMOVE_HANDLER | KwAsync => SK.KW_ASYNC | KwAwait => SK.KW_AWAIT
  | KwAnd => SK.KW_AND | KwOr => SK.KW_OR | KwNot => SK.KW_NOT | KwTrue => SK.KW_TRUE
  | KwFalse => SK.KW_FALSE | KwUndefined => SK.KW_UNDEFINED | KwNull => SK.KW_NULL
  | PreIf => SK.PRE_IF | PreElsIf => SK.PRE_ELSIF | PreElse => SK.PRE_ELSE
  | PreEndIf => SK.PRE_END_IF | PreRegion => SK.PRE_REGION | PreEndRegion => SK.PRE_END_REGION
  | PreInsert => SK.PRE_INSERT | PreEndInsert => SK.PRE_END_INSERT | PreDelete => SK.PRE_DELETE
  | PreEndDelete => SK.PRE_END_DELETE | AnnAtClient => SK.ANN_AT_CLIENT
  | AnnAtServer => SK.ANN_AT_SERVER | AnnAtServerNoContext => SK.ANN_AT_SERVER_NO_CONTEXT
  | AnnAtClientAtServerNoContext => SK.ANN_AT_CLIENT_AT_SERVER_NO_CONTEXT
  | AnnAtClientAtServer => SK.ANN_AT_CLIENT_AT_SERVER | AnnBefore => SK.ANN_BEFORE
  | AnnAfter => SK.ANN_AFTER | AnnAround => SK.ANN_AROUND
  | AnnChangeAndValidate => SK.ANN_CHANGE_AND_VALIDATE | AnnCustom => SK.ANN_CUSTOM
  | Eq => SK.EQ | Neq => SK.NEQ | Le => SK.LE | Lt => SK.LT | Ge => SK.GE | Gt => SK.GT
  | Plus => SK.PLUS | Minus => SK.MINUS | Star => SK.STAR | Slash => SK.SLASH
  | Percent => SK.PERCENT | LParen => SK.L_PAREN | RParen => SK.R_PAREN | LBrace => SK.L_BRACE
  | RBrace => SK.R_BRACE | LBracket => SK.L_BRACKET | RBracket => SK.R_BRACKET | Dot => SK.DOT
  | Comma => SK.COMMA | Semicolon => SK.SEMICOLON | Colon => SK.COLON | Question => SK.QUESTION
  | Tilde => SK.TILDE | Bar => SK.BAR | Hash => SK.HASH | Ampersand => SK.AMPERSAND
  | Float => SK.FLOAT | Decimal => SK.DECIMAL | String => SK.STRING
  | StringStart => SK.STRING_START | StringTail => SK.STRING_TAIL
  | StringPart => SK.STRING_PART | Date => SK.DATE | Ident => SK.IDENT
  | Whitespace => SK.WHITESPACE | Newline => SK.NEWLINE | Comment => SK.COMMENT | Bom => SK.BOM
  | Error => SK.ERROR
  end.

(** ** Decidable equality through the discriminants *)

Lemma TokenKind_of_index kind : TokenKind_ALL !! N.to_nat (TokenKind_as_u8 kind) = Some kind.
Proof. by destruct kind. Qed.

#[export] Instance TokenKind_as_u8_inj : Inj (=) (=) TokenKind_as_u8.
Proof.
  intros x y E. apply (inj Some). by rewrite <- !TokenKind_of_index, E.
Qed.

#[export] Instance TokenKind_eq_dec : EqDecision TokenKind.
Proof. exact (fun x y => decode_decision TokenKind_as_u8 x y). Defined.

#[export] Instance Sig_eq_dec : EqDecision Sig.
Proof. solve_decision. Defined.

Lemma NodeKind_of_index kind : NK.ALL !! N.to_nat (NK.index kind) = Some kind.
Proof. by destruct kind. Qed.

#[export] Instance node_index_inj : Inj (=) (=) NK.index.
Proof. intros x y E. apply (inj Some). by rewrite <- !NodeKind_of_index, E. Qed.

#[export] Instance NodeKind_eq_dec : EqDecision NodeKind.
Proof. exact (fun x y => decode_decision NK.index x y). Defined.

Lemma SyntaxKind_of_index kind : SK.ALL !! N.to_nat (SK.into_u16 kind) = Some kind.
Proof. by destruct kind. Qed.

#[export] Instance into_u16_inj : Inj (=) (=) SK.into_u16.
Proof. intros x y E. apply (inj Some). by rewrite <- !SyntaxKind_of_index, E. Qed.

#[export] Instance SyntaxKind_eq_dec : EqDecision SyntaxKind.
Proof. exact (fun x y => decode_decision SK.into_u16 x y). Defined.
