(* ===== verification/Tokens.v ===== *)
(** Tokens: lexemes, parse errors, token sets and the parser's events.

    [Token] is crates/lexer/src/lib.rs, [ParseError] crates/parser-error/src/lib.rs, [TokenSet]
    crates/parser/src/parser/token_set.rs and [Event] crates/parser/src/event.rs.  The lexer itself
    is generated by the logos library from the patterns of [TokenKind]; the development takes its
    result, a list of tokens, as given. *)
From stdpp Require Import prelude strings.
From S2P Require Import Prelude Kinds.

(** ** Lexemes *)

Record Token : Set := MkToken {
  tok_kind : TokenKind;
  tok_text : text;
  tok_offset : Z;
}.

(** ** Parse errors *)

Inductive RecoveryKind : Set := BumpToken | MissingToken | RecoverySpan | RecoveryCustom.

Inductive ParseError : Set :=
| Expected (expected : list TokenKind) (found : option TokenKind) (recovery : RecoveryKind)
| Unexpected (found : option TokenKind) (recovery : RecoveryKind)
| Custom (message : String.string) (recovery : RecoveryKind).

Definition recovery (e : ParseError) : RecoveryKind :=
  match e with
  | Expected _ _ recovery | Unexpected _ recovery | Custom _ recovery => recovery
  end.

(** ** Events *)

Inductive Event : Set :=
| Start (kind : NodeKind) (forward_parent : option nat)
| Finish
| EToken (kind : TokenKind)
| Placeholder
| EError (err : ParseError)
| ErrorWithSpan (start_token : nat) (err : ParseError).

(** ** Token sets

    A set of kinds is a 128-bit integer whose bit [kind as u8] says whether the kind belongs. *)
Module TokenSet.
Definition t : Set := N.

Definition bit (kind : Sig) : N := N.shiftl 1 (TokenKind_as_u8 (sig_kind kind)).

Fixpoint new_loop (kinds : list Sig) (bits : N) : N :=
  match kinds with
  | [] => bits
  | kind :: kinds => new_loop kinds (N.lor bits (bit kind))
  end.

Definition new (kinds : list Sig) : t := new_loop kinds 0%N.

Definition empty : t := 0%N.

Definition contains (set : t) (kind : Sig) : bool := negb (N.land set (bit kind) =? 0)%N.

Definition union (set other : t) : t := N.lor set other.

Definition is_empty (set : t) : bool := (set =? 0)%N.
End TokenSet.

(** ** Decidable equalities *)

#[export] Instance RecoveryKind_eq_dec : EqDecision RecoveryKind.
Proof. solve_decision. Defined.

#[export] Instance ParseError_eq_dec : EqDecision ParseError.
Proof. solve_decision. Defined.

#[export] Instance Event_eq_dec : EqDecision Event.
Proof. solve_decision. Defined.

(** ** Lemmas on token sets *)

Lemma TokenKind_as_u8_bound kind : (TokenKind_as_u8 kind < 99)%N.
Proof. by destruct kind. Qed.

Lemma contains_testbit set kind :
  TokenSet.contains set kind = N.testbit set (TokenKind_as_u8 (sig_kind kind)).
Proof. apply land_shiftl_testbit. Qed.

Lemma testbit_bit kind i :
  N.testbit (TokenSet.bit kind) i = bool_decide (TokenKind_as_u8 (sig_kind kind) = i).
Proof.
  unfold TokenSet.bit. rewrite N.shiftl_1_l. case_bool_decide as H.
  - subst. apply N.pow2_bits_true.
  - by apply N.pow2_bits_false.
Qed.

Lemma new_loop_testbit kinds bits i :
  N.testbit (TokenSet.new_loop kinds bits) i =
  N.testbit bits i || existsb (fun k => N.testbit (TokenSet.bit k) i) kinds.
Proof.
  revert bits. induction kinds as [|k kinds IH]; intros bits; simpl.
  - by rewrite orb_false_r.
  - by rewrite IH, N.lor_spec, orb_assoc.
Qed.

Lemma contains_union set other kind :
  TokenSet.contains (TokenSet.union set other) kind =
  TokenSet.contains set kind || TokenSet.contains other kind.
Proof. by rewrite !contains_testbit, <- N.lor_spec. Qed.

Lemma contains_new kinds kind : TokenSet.contains (TokenSet.new kinds) kind = bool_decide (kind ∈ kinds).
Proof.
  rewrite contains_testbit. unfold TokenSet.new. rewrite new_loop_testbit, N.bits_0, orb_false_l.
  apply eq_bool_prop_intro. rewrite bool_decide_spec, existb_True, Exists_exists. split.
  - intros (k & Hk & E). cbv beta in E. rewrite testbit_bit in E. apply bool_decide_unpack in E.
    apply (inj TokenKind_as_u8) in E. destruct k, kind; simpl in *. by subst.
  - intros Hk. exists kind. split; [done|]. cbv beta. rewrite testbit_bit. by apply bool_decide_pack.
Qed.
