(* ===== verification/Input.v ===== *)
(** Input: the parser's view of the token stream (crates/parser/src/parser/input.rs).

    Only the significant tokens are addressable; trivia stays in [tokens] for the tree.  The only
    thing the grammar may ask about the text between two words is whether a line break stands
    there, and that is answered by a bitmap built once.  The file proves the bitmap equal to the
    backward scan over the raw stream that it replaces. *)
From stdpp Require Import prelude.
From S2P Require Import Prelude Kinds Tokens.

(** ** The bitmap *)

Definition U64_BITS : nat := 64.

(** [set_bit]: grows the map with zero words as far as the index needs. *)
Definition set_bit (map : list N) (index : nat) (value : bool) : list N :=
  let word := (index / U64_BITS)%nat in
  let map := if (length map <=? word)%nat then resize (S word) 0%N map else map in
  if value
  then alter (fun w => N.lor w (N.shiftl 1 (N.of_nat (index mod U64_BITS)))) word map
  else map.

(** ** The input *)

Record Input : Set := MkInput {
  tokens : list Token;
  raw : list Z;
  kinds : list Sig;
  line_break_before : list N;
}.

(** [index as u32]. *)
Definition as_u32 (n : nat) : Z := (Z.of_nat n mod 2 ^ 32)%Z.

(** The kinds whose text puts a line break in a gap: a comment runs to the end of its line. *)
Definition breaks_line (kind : TokenKind) : bool :=
  match kind with Newline | Comment => true | _ => false end.

(** The loop of [Input::new] from the raw position [index] on. *)
Fixpoint new_loop (index : nat) (rest : list Token) (raw : list Z) (kinds : list Sig)
    (line_break_before : list N) (gap_has_line_break : bool) : list Z * list Sig * list N :=
  match rest with
  | [] => (raw, kinds, set_bit line_break_before (length kinds) gap_has_line_break)
  | token :: rest =>
      if is_trivia (tok_kind token) then
        new_loop (S index) rest raw kinds line_break_before
          (gap_has_line_break || breaks_line (tok_kind token))
      else
        new_loop (S index) rest (raw ++ [as_u32 index]) (kinds ++ [MkSig (tok_kind token)])
          (set_bit line_break_before (length kinds) gap_has_line_break) false
  end.

Definition Input_new (tokens : list Token) : Input :=
  let '(raw, kinds, line_break_before) := new_loop 0 tokens [] [] [] false in
  MkInput tokens raw kinds line_break_before.

Definition input_len (i : Input) : nat := length (kinds i).

Definition input_kind (i : Input) (pos : nat) : option Sig := kinds i !! pos.

Definition input_token (i : Input) (pos : nat) : option Token :=
  index ← raw i !! pos; tokens i !! Z.to_nat index.

Definition input_text (i : Input) (pos : nat) : text := from_option tok_text [] (input_token i pos).

Definition raw_at (i : Input) (pos : nat) : nat :=
  from_option Z.to_nat (length (tokens i)) (raw i !! pos).

Definition a_gap_precedes (i : Input) (pos : nat) : bool :=
  match pos with
  | O => negb (raw_at i pos =? 0)%nat
  | S prev =>
      match raw i !! prev with
      | Some r => negb (raw_at i pos =? Z.to_nat r + 1)%nat
      | None => false
      end
  end.

(** The bit of a word that is in the map, [false] for a word that is not. *)
Definition get_bit (map : list N) (index : nat) : bool :=
  match map !! (index / U64_BITS)%nat with
  | Some word => negb (N.land word (N.shiftl 1 (N.of_nat (index mod U64_BITS))) =? 0)%N
  | None => false
  end.

Definition a_line_break_precedes (i : Input) (pos : nat) : bool :=
  if (pos =? 0)%nat then false
  else get_bit (line_break_before i) (pos `min` length (kinds i)).

(** ** The reference: a backward scan over the raw stream

    The scan the bitmap replaced, kept by the source as the oracle of its test. *)

(** The raw position of the first significant token at or after [raw_pos]. *)
Fixpoint first_significant (raw_pos : nat) (rest : list Token) : nat :=
  match rest with
  | [] => raw_pos
  | t :: rest => if is_trivia (tok_kind t) then first_significant (S raw_pos) rest else raw_pos
  end.

Fixpoint scan_back (rev_prefix : list Token) (saw_line_break : bool) : bool :=
  match rev_prefix with
  | [] => false
  | t :: rev_prefix =>
      if is_trivia (tok_kind t)
      then scan_back rev_prefix (saw_line_break || breaks_line (tok_kind t))
      else saw_line_break
  end.

Definition scan_line_break_before (tokens : list Token) (raw_pos : nat) : bool :=
  let anchor := first_significant raw_pos (drop raw_pos tokens) in
  scan_back (reverse (take anchor tokens)) false.

#[local] Arguments Nat.modulo : simpl never.
#[local] Arguments Nat.div : simpl never.

(** ** What the loop computes *)

(** The raw positions of the significant tokens. *)
Fixpoint sig_positions (index : nat) (toks : list Token) : list nat :=
  match toks with
  | [] => []
  | t :: toks =>
      if is_trivia (tok_kind t) then sig_positions (S index) toks
      else index :: sig_positions (S index) toks
  end.

(** The kinds of the significant tokens. *)
Fixpoint sig_kinds (toks : list Token) : list Sig :=
  match toks with
  | [] => []
  | t :: toks =>
      if is_trivia (tok_kind t) then sig_kinds toks else MkSig (tok_kind t) :: sig_kinds toks
  end.

(** One flag per gap: before each significant token and after the last one. *)
Fixpoint gap_flags (toks : list Token) (gap : bool) : list bool :=
  match toks with
  | [] => [gap]
  | t :: toks =>
      if is_trivia (tok_kind t) then gap_flags toks (gap || breaks_line (tok_kind t))
      else gap :: gap_flags toks false
  end.

Lemma get_bit_testbit map index :
  get_bit map index =
  from_option (fun w => N.testbit w (N.of_nat (index mod U64_BITS))) false
    (map !! (index / U64_BITS)%nat).
Proof. unfold get_bit. destruct (map !! _); [apply land_shiftl_testbit|done]. Qed.

Lemma testbit_lookup_resize (map : list N) n k i :
  (length map <= n)%nat ->
  from_option (fun w => N.testbit w i) false (resize n 0%N map !! k) =
  from_option (fun w => N.testbit w i) false (map !! k).
Proof.
  intros Hn. rewrite resize_ge by done. destruct (decide (k < length map)%nat).
  - by rewrite lookup_app_l.
  - rewrite lookup_app_r, (lookup_ge_None_2 map) by lia. simpl.
    destruct (replicate _ _ !! _) as [w|] eqn:E; [|done].
    apply lookup_replicate in E as [-> _]. apply N.bits_0.
Qed.

Lemma get_set_bit map index value j :
  get_bit (set_bit map index value) j =
  if decide (j = index) then get_bit map j || value else get_bit map j.
Proof.
  rewrite !get_bit_testbit. unfold set_bit.
  set (word := (index / U64_BITS)%nat).
  set (map' := if (length map <=? word)%nat then resize (S word) 0%N map else map).
  assert (Hlen : (word < length map')%nat).
  { unfold map'. destruct (Nat.leb_spec (length map) word); [rewrite length_resize|]; lia. }
  assert (Hmap : forall i k, from_option (fun w => N.testbit w i) false (map' !! k) =
                 from_option (fun w => N.testbit w i) false (map !! k)).
  { intros. unfold map'. destruct (Nat.leb_spec (length map) word); [|done].
    apply testbit_lookup_resize. lia. }
  rewrite <- !Hmap. destruct value; [|by rewrite orb_false_r; case_decide].
  rewrite list_lookup_alter. destruct (decide (word = j / U64_BITS)%nat) as [Hw|Hw].
  - destruct (lookup_lt_is_Some_2 map' _ Hlen) as [w Ew].
    rewrite <- Hw, Ew. simpl. rewrite N.lor_spec, N.shiftl_1_l, N.pow2_bits_eqb.
    destruct (decide (j = index)) as [->|Hj].
    + by rewrite N.eqb_refl.
    + replace (_ =? _)%N with false; [by rewrite orb_false_r|]. symmetry. apply N.eqb_neq.
      intros E. apply Nat2N.inj in E. apply Hj.
      rewrite (Nat.div_mod_eq j U64_BITS), (Nat.div_mod_eq index U64_BITS).
      fold word. by rewrite <- Hw, E.
  - rewrite decide_False; [done|]. intros ->. by apply Hw.
Qed.

(** The loop appends the positions and kinds of the significant tokens. *)
Lemma new_loop_tokens index rest r k m g :
  let '(r', k', _) := new_loop index rest r k m g in
  r' = r ++ (as_u32 <$> sig_positions index rest) /\ k' = k ++ sig_kinds rest.
Proof.
  revert index r k m g. induction rest as [|t rest IH]; intros; simpl.
  { split; by rewrite app_nil_r. }
  destruct (is_trivia (tok_kind t)).
  - by specialize (IH (S index) r k m (g || breaks_line (tok_kind t))).
  - specialize (IH (S index) (r ++ [as_u32 index]) (k ++ [MkSig (tok_kind t)])
      (set_bit m (length k) g) false).
    destruct (new_loop _ _ _ _ _ _) as [[r' k'] m']. destruct IH as [-> ->].
    split; by rewrite <- app_assoc.
Qed.

(** The loop writes one bit per gap; the bits below the current gap are final and those from it
    on are clear. *)
Lemma new_loop_bits index rest r k m g :
  (forall j, (length k <= j)%nat -> get_bit m j = false) ->
  let '(_, _, m') := new_loop index rest r k m g in
  (forall j, (j < length k)%nat -> get_bit m' j = get_bit m j) /\
  (forall j b, gap_flags rest g !! j = Some b -> get_bit m' (length k + j) = b).
Proof.
  revert index r k m g. induction rest as [|t rest IH]; intros index r k m g Hm; simpl.
  - split.
    + intros j Hj. rewrite get_set_bit, decide_False by lia. done.
    + intros [|j] b; [|done]. intros [= ->]. rewrite Nat.add_0_r, get_set_bit, decide_True by done.
      by rewrite Hm.
  - destruct (is_trivia (tok_kind t)); [by apply IH|].
    specialize (IH (S index) (r ++ [as_u32 index]) (k ++ [MkSig (tok_kind t)])
      (set_bit m (length k) g) false).
    destruct (new_loop _ _ _ _ _ _) as [[r' k'] m'].
    rewrite length_app in IH. simpl in IH. destruct IH as [IHlow IHhigh].
    { intros j Hj. rewrite get_set_bit, decide_False by lia. apply Hm. lia. }
    split.
    + intros j Hj. rewrite IHlow by lia. rewrite get_set_bit, decide_False by lia. done.
    + intros [|j] b.
      * intros [= ->]. rewrite Nat.add_0_r, IHlow by lia.
        rewrite get_set_bit, decide_True by done. by rewrite Hm.
      * intros Hj. rewrite <- (IHhigh j b Hj). f_equal. lia.
Qed.

Lemma Input_new_kinds toks : kinds (Input_new toks) = sig_kinds toks.
Proof.
  unfold Input_new. pose proof (new_loop_tokens 0 toks [] [] [] false) as H.
  destruct (new_loop _ _ _ _ _ _) as [[r k] m]. by destruct H.
Qed.

Lemma Input_new_raw toks : raw (Input_new toks) = as_u32 <$> sig_positions 0 toks.
Proof.
  unfold Input_new. pose proof (new_loop_tokens 0 toks [] [] [] false) as H.
  destruct (new_loop _ _ _ _ _ _) as [[r k] m]. by destruct H.
Qed.

Lemma Input_new_tokens toks : tokens (Input_new toks) = toks.
Proof. unfold Input_new. by destruct (new_loop _ _ _ _ _ _) as [[r k] m]. Qed.

Lemma Input_new_gap toks j b :
  gap_flags toks false !! j = Some b -> get_bit (line_break_before (Input_new toks)) j = b.
Proof.
  intros Hj. unfold Input_new.
  pose proof (new_loop_bits 0 toks [] [] [] false) as H.
  destruct (new_loop _ _ _ _ _ _) as [[r k] m]. destruct H as [_ H]; [|by apply H in Hj].
  intros i _. unfold get_bit. by rewrite lookup_nil.
Qed.

Lemma length_gap_flags toks g : length (gap_flags toks g) = S (length (sig_kinds toks)).
Proof.
  revert g. induction toks as [|t toks IH]; intros g; simpl; [done|].
  destruct (is_trivia _); simpl; by rewrite IH.
Qed.

Lemma length_sig_positions index toks : length (sig_positions index toks) = length (sig_kinds toks).
Proof.
  revert index. induction toks as [|t toks IH]; intros index; simpl; [done|].
  destruct (is_trivia _); simpl; by rewrite IH.
Qed.

(** The grammar sees no trivia. *)
Lemma sig_kinds_significant toks : Forall (fun s => is_trivia (sig_kind s) = false) (sig_kinds toks).
Proof.
  induction toks as [|t toks IH]; simpl; [constructor|].
  destruct (is_trivia _) eqn:E; [done|]. by constructor.
Qed.

(** ** The bitmap agrees with the backward scan *)

Definition has_significant (toks : list Token) : bool :=
  existsb (fun t => negb (is_trivia (tok_kind t))) toks.

Lemma scan_back_snoc toks t s :
  scan_back (reverse (toks ++ [t])) s =
  if is_trivia (tok_kind t) then scan_back (reverse toks) (s || breaks_line (tok_kind t)) else s.
Proof. by rewrite reverse_snoc. Qed.

Lemma has_significant_snoc toks t :
  has_significant (toks ++ [t]) = has_significant toks || negb (is_trivia (tok_kind t)).
Proof. unfold has_significant. by rewrite existsb_app; simpl; rewrite orb_false_r. Qed.

(** Where the text up to a gap ends, the backward scan reads the flag of the gap. *)
Lemma scan_back_gap toks : forall P g j q b,
  (forall s, scan_back (reverse P) s = has_significant P && (g || s)) ->
  gap_flags toks g !! j = Some b ->
  (sig_positions (length P) toks ++ [(length P + length toks)%nat]) !! j = Some q ->
  scan_back (reverse (take q (P ++ toks))) false = (has_significant P || (0 <? j)%nat) && b.
Proof.
  induction toks as [|t toks IH]; intros P g j q b HP; simpl.
  - destruct j as [|j]; simpl; [|by rewrite lookup_nil]. intros [= ->] [= <-].
    rewrite app_nil_r, Nat.add_0_r, take_ge, HP by lia. by rewrite !orb_false_r.
  - specialize (IH (P ++ [t])). rewrite length_app, Nat.add_1_r in IH.
    rewrite has_significant_snoc in IH.
    replace (length P + S (length toks))%nat with (S (length P) + length toks)%nat by lia.
    rewrite (cons_middle t P toks), (app_assoc P).
    destruct (is_trivia (tok_kind t)) eqn:Et; simpl in *.
    + intros Hj Hq. rewrite (IH (g || breaks_line (tok_kind t)) j q b); [|intros s|done|done].
      * by rewrite orb_false_r.
      * rewrite scan_back_snoc, Et, HP, orb_false_r. by destruct g, s, (breaks_line _).
    + destruct j as [|j]; simpl.
      * intros [= ->] [= <-]. rewrite <- app_assoc, take_app_length, HP.
        by rewrite !orb_false_r.
      * intros Hj Hq. rewrite (IH false j q b); [by rewrite !orb_true_r| |done|done].
        intros s. by rewrite scan_back_snoc, Et, orb_true_r.
Qed.

Lemma sig_positions_bound toks : forall index j q,
  sig_positions index toks !! j = Some q -> (index <= q < index + length toks)%nat.
Proof.
  induction toks as [|t toks IH]; intros index j q; simpl; [done|].
  destruct (is_trivia _); [intros H; apply IH in H; lia|].
  destruct j as [|j]; simpl; [intros [= <-]; lia|intros H; apply IH in H; lia].
Qed.

(** A raw position is the position of the token, as long as the stream fits [u32]. *)
Lemma raw_at_position toks pos :
  (Z.of_nat (length toks) < 2 ^ 32)%Z -> (pos <= input_len (Input_new toks))%nat ->
  (sig_positions 0 toks ++ [length toks]) !! pos = Some (raw_at (Input_new toks) pos).
Proof.
  intros Hlen Hpos. unfold raw_at, input_len in *.
  rewrite Input_new_raw, Input_new_tokens, list_lookup_fmap.
  rewrite Input_new_kinds, <- (length_sig_positions 0) in Hpos.
  destruct (sig_positions 0 toks !! pos) as [q|] eqn:E; simpl.
  - rewrite lookup_app_l by by apply lookup_lt_Some in E.
    rewrite E. apply sig_positions_bound in E.
    unfold as_u32. rewrite Z.mod_small by lia. by rewrite Nat2Z.id.
  - apply lookup_ge_None in E. rewrite lookup_app_r by lia.
    replace (pos - _)%nat with 0%nat by lia. done.
Qed.

Lemma sig_position_significant toks : forall index j q,
  sig_positions index toks !! j = Some q ->
  exists t, toks !! (q - index)%nat = Some t /\ is_trivia (tok_kind t) = false.
Proof.
  induction toks as [|t toks IH]; intros index j q; simpl; [done|].
  assert (Hrec : sig_positions (S index) toks !! Nat.pred j = Some q \/
                 sig_positions (S index) toks !! j = Some q ->
    exists t', (t :: toks) !! (q - index)%nat = Some t' /\ is_trivia (tok_kind t') = false).
  { intros [H|H]; pose proof (sig_positions_bound _ _ _ _ H); apply IH in H as (t' & H & Ht');
      exists t'; (split; [|done]); by replace (q - index)%nat with (S (q - S index)) by lia. }
  destruct (is_trivia _) eqn:Et; [by eauto|].
  destruct j as [|j]; simpl; [|by eauto]. intros [= <-]. exists t. by rewrite Nat.sub_diag.
Qed.

Lemma first_significant_here toks j q :
  (sig_positions 0 toks ++ [length toks]) !! j = Some q ->
  first_significant q (drop q toks) = q.
Proof.
  intros H. apply lookup_app_Some in H as [H|[_ H]].
  - apply sig_position_significant in H as (t & H & Ht). rewrite Nat.sub_0_r in H.
    erewrite drop_S by done. simpl. by rewrite Ht.
  - apply list_lookup_singleton_Some in H as [_ <-]. by rewrite drop_all.
Qed.

(** The bitmap built once by [Input::new] answers "does a line break precede word [pos]"
    exactly as the backward scan over the raw tokens does, at every position from the first word
    to the end of the input, for every token stream whose length fits the 32-bit indices. *)
Theorem line_break_map_agrees toks pos
    (Hlen : (Z.of_nat (length toks) < 2 ^ 32)%Z) (Hpos : (pos <= input_len (Input_new toks))%nat) :
  a_line_break_precedes (Input_new toks) pos =
  scan_line_break_before toks (raw_at (Input_new toks) pos).
Proof.
  pose proof (raw_at_position toks pos Hlen Hpos) as Hq.
  unfold scan_line_break_before. rewrite (first_significant_here _ _ _ Hq).
  unfold input_len in Hpos. unfold a_line_break_precedes. rewrite Nat.min_l by done.
  rewrite Input_new_kinds in Hpos.
  destruct (lookup_lt_is_Some_2 (gap_flags toks false) pos) as [b Hb].
  { rewrite length_gap_flags. lia. }
  pose proof (scan_back_gap toks [] false pos _ b (fun s => eq_refl) Hb Hq) as E.
  simpl in E. rewrite E.
  rewrite (Input_new_gap _ _ _ Hb). by destruct pos.
Qed.

Lemma line_break_map_agrees_witness :
  let toks := [MkToken Ident [0x61%Z] 0; MkToken Comment [0x2F%Z; 0x2F%Z] 1;
               MkToken Newline [10%Z] 3; MkToken Ident [0x62%Z] 4] in
  a_line_break_precedes (Input_new toks) 1 = true /\
  a_line_break_precedes (Input_new toks) 1 =
  scan_line_break_before toks (raw_at (Input_new toks) 1).
Proof.
  intros toks. split; [reflexivity|].
  apply (line_break_map_agrees toks 1); [vm_compute; reflexivity|vm_compute; lia].
Defined.

(** The kinds the grammar is given are those of the non-trivia tokens in the order of the
    stream, so no position of the input carries trivia. *)
Theorem no_position_carries_trivia toks pos :
  input_kind (Input_new toks) pos = sig_kinds toks !! pos /\
  from_option (fun s => is_trivia (sig_kind s)) false (input_kind (Input_new toks) pos) = false.
Proof.
  unfold input_kind. rewrite Input_new_kinds. split; [done|].
  destruct (sig_kinds toks !! pos) as [s|] eqn:E; simpl; [|done].
  by apply (Forall_lookup_1 _ _ _ _ (sig_kinds_significant toks) E).
Qed.
