(* ===== verification/TornIf.v ===== *)
(** TornIf: conditional groups as the compiler sees them (crates/parser/src/parser/torn_if.rs).

    The groups [#If ... #EndIf] of the whole input are decided once: which of them tear a construct
    apart and which branch of such a group is read as code.  The source asks for the kinds through
    a function of the position; here it is the list of the kinds of the significant tokens.

    Every loop moves a position forward, and its fuel is the number of positions left; the lemmas
    named [*_fuel] show that more fuel gives the same answer.  The walk counts brackets in an [i32];
    [None] is the panic of its overflow, in a build that checks for it. *)
From stdpp Require Import prelude gmap sorting.
From S2P Require Import Prelude Kinds.

(** A closed group, by positions among the significant tokens. *)
Record Conditional : Set := MkConditional {
  open : nat;
  close : nat;
  balanced : bool;
  active : option (nat * nat);
}.

(** One branch: where its code starts and ends, and whether it is taken. *)
Record Branch : Set := MkBranch {
  body : nat * nat;
  branch_holds : bool;
}.

Inductive Block : Set := BIf | BLoop | BTry | BProcedure | BFunction.

#[export] Instance Block_eq_dec : EqDecision Block.
Proof. solve_decision. Defined.

Section torn_if.
  Context (kinds : list Sig).

Definition kind (pos : nat) : option Sig := kinds !! pos.

(** The position a removal that starts at [pos] is left at: its closer, or the end of input. *)
Fixpoint end_of_removed (fuel pos : nat) : nat :=
  match fuel with
  | O => S pos
  | S fuel =>
      match kind (S pos) with
      | Some T![PreEndDelete] | None => S pos
      | _ => end_of_removed fuel (S pos)
      end
  end.

(** *** The groups, in the order they close *)

(** A group being scanned: its [#If] and the clauses met so far. *)
Abbreviation OpenGroup := (nat * list nat)%type.
Abbreviation RawGroup := (nat * list nat * nat)%type.

(** [open.last_mut()] is the head of the stack. *)
Definition push_clause (pos : nat) (open : list OpenGroup) : list OpenGroup :=
  match open with
  | (start, clauses) :: open => (start, clauses ++ [pos]) :: open
  | [] => []
  end.

Fixpoint scan_groups (fuel pos : nat) (raw : list RawGroup) (open : list OpenGroup)
    : list RawGroup :=
  match fuel with
  | O => raw
  | S fuel =>
      match kind pos with
      | None => raw
      | Some T![PreIf] => scan_groups fuel (S pos) raw ((pos, []) :: open)
      | Some T![PreElsIf] | Some T![PreElse] =>
          scan_groups fuel (S pos) raw (push_clause pos open)
      | Some T![PreEndIf] =>
          match open with
          | (start, clauses) :: open =>
              scan_groups fuel (S pos) (raw ++ [(start, clauses, pos)]) open
          | [] => scan_groups fuel (S pos) raw []
          end
      | Some T![PreDelete] =>
          scan_groups fuel (S (end_of_removed (length kinds) pos)) raw open
      | Some _ => scan_groups fuel (S pos) raw open
      end
  end.

Definition raw_groups : list RawGroup := scan_groups (S (length kinds)) 0 [] [].

(** *** A condition evaluated with every symbol defined *)

Section condition.
  Context (until : nat).

Definition peek (at_ : nat) : option Sig := if (at_ <? until)%nat then kind at_ else None.

Fixpoint cond_or (fuel at_ : nat) : bool * nat :=
  match fuel with
  | O => (true, at_)
  | S fuel => let '(value, at_) := cond_and fuel at_ in or_loop fuel value at_
  end
with or_loop (fuel : nat) (value : bool) (at_ : nat) : bool * nat :=
  match fuel with
  | O => (true, at_)
  | S fuel =>
      match peek at_ with
      | Some T![KwOr] =>
          let '(rhs, at_) := cond_and fuel (S at_) in or_loop fuel (value || rhs) at_
      | _ => (value, at_)
      end
  end
with cond_and (fuel at_ : nat) : bool * nat :=
  match fuel with
  | O => (true, at_)
  | S fuel => let '(value, at_) := operand fuel at_ in and_loop fuel value at_
  end
with and_loop (fuel : nat) (value : bool) (at_ : nat) : bool * nat :=
  match fuel with
  | O => (true, at_)
  | S fuel =>
      match peek at_ with
      | Some T![KwAnd] =>
          let '(rhs, at_) := operand fuel (S at_) in and_loop fuel (value && rhs) at_
      | _ => (value, at_)
      end
  end
with operand (fuel at_ : nat) : bool * nat :=
  match fuel with
  | O => (true, at_)
  | S fuel =>
      match peek at_ with
      | Some T![KwNot] => let '(value, at_) := operand fuel (S at_) in (negb value, at_)
      | Some T![LParen] =>
          let '(value, at_) := cond_or fuel (S at_) in
          (value, match peek at_ with Some T![RParen] => S at_ | _ => at_ end)
      | Some _ => (true, S at_)
      | None => (true, at_)
      end
  end.

(** Every call either consumes a token or goes one of three levels down. *)
Definition cond_fuel (at_ : nat) : nat := (4 * (until - at_) + 4)%nat.

Definition holds (at_ : nat) : bool := (cond_or (cond_fuel at_) at_).1.
End condition.

(** *** Branches *)

(** [(from..until).find(|&at| kind(at) == Some(KwThen))] *)
Fixpoint find_then (fuel from until : nat) : option nat :=
  match fuel with
  | O => None
  | S fuel =>
      if (from <? until)%nat then
        if decide (kind from = Some T![KwThen]) then Some from else find_then fuel (S from) until
      else None
  end.

Fixpoint branches_loop (directives : list nat) (close : nat) : option (list Branch) :=
  match directives with
  | [] => Some []
  | directive :: rest =>
      let until := match rest with next :: _ => next | [] => close end in
      if decide (kind directive = Some T![PreElse]) then
        bs ← branches_loop rest close; Some (MkBranch (S directive, until) true :: bs)
      else
        then_ ← find_then (until - S directive) (S directive) until;
        bs ← branches_loop rest close;
        Some (MkBranch (S then_, until) (holds then_ (S directive)) :: bs)
  end.

Definition branches (start : nat) (clauses : list nat) (close : nat) : option (list Branch) :=
  branches_loop (start :: clauses) close.

(** *** Walking code *)

Definition opens (k : Sig) : option Block :=
  match k with
  | T![KwIf] => Some BIf
  | T![KwWhile] | T![KwFor] => Some BLoop
  | T![KwTry] => Some BTry
  | T![KwProcedure] => Some BProcedure
  | T![KwFunction] => Some BFunction
  | _ => None
  end.

Definition closes (k : Sig) : option Block :=
  match k with
  | T![KwEndIf] => Some BIf
  | T![KwEndDo] => Some BLoop
  | T![KwEndTry] => Some BTry
  | T![KwEndProcedure] => Some BProcedure
  | T![KwEndFunction] => Some BFunction
  | _ => None
  end.

Definition continues (k : Sig) : option Block :=
  match k with
  | T![KwElsIf] | T![KwElse] => Some BIf
  | T![KwExcept] => Some BTry
  | _ => None
  end.

Definition is_annotation_word (k : Sig) : bool :=
  match k with
  | T![AnnAtClient] | T![AnnAtServer] | T![AnnAtServerNoContext] | T![AnnAtClientAtServer]
  | T![AnnAtClientAtServerNoContext] | T![AnnBefore] | T![AnnAfter] | T![AnnAround]
  | T![AnnChangeAndValidate] | T![AnnCustom] => true
  | _ => false
  end.

Definition annotated_after (k : Sig) (annotated : bool) : bool :=
  if is_annotation_word k then true
  else match k with T![KwProcedure] | T![KwFunction] | T![KwVar] => false | _ => annotated end.

Definition bracket_after (k : Sig) (brackets : Z) : option Z :=
  match k with
  | T![LParen] | T![LBracket] => i32_sum brackets 1
  | T![RParen] | T![RBracket] => i32_sum brackets (-1)
  | _ => Some brackets
  end.

(** [whole &= brackets >= 0], asked behind a closing bracket. *)
Definition bracket_whole (k : Sig) (brackets : Z) : bool :=
  match k with T![RParen] | T![RBracket] => (0 <=? brackets)%Z | _ => true end.

(** The blocks after a word of a construct, and whether the word had its construct open. The last
    block opened is the head of the list. *)
Definition block_after (k : Sig) (blocks : list Block) : list Block * bool :=
  match opens k, closes k, continues k with
  | Some block, _, _ => (block :: blocks, true)
  | None, Some block, _ =>
      match blocks with
      | top :: rest => if decide (top = block) then (rest, true) else (blocks, false)
      | [] => (blocks, false)
      end
  | None, None, Some block => (blocks, bool_decide (head blocks = Some block))
  | None, None, None => (blocks, true)
  end.

(** A keyword behind a dot is a member name and one behind a tilde a label. *)
Definition is_name (at_ : nat) : bool :=
  match at_ with
  | O => false
  | S prev => match kind prev with Some T![Dot] | Some T![Tilde] => true | _ => false end
  end.

(** [while at < range.1 && kind(at) != Some(PreEndDelete) { at += 1 }] *)
Fixpoint skip_removed (fuel at_ until : nat) : nat :=
  match fuel with
  | O => at_
  | S fuel =>
      if (at_ <? until)%nat then
        if decide (kind at_ = Some T![PreEndDelete]) then at_ else skip_removed fuel (S at_) until
      else at_
  end.

Section walk.
  Context (decided : list Conditional) (by_open : gmap nat nat).

Definition group_opened_at (at_ : nat) : option Conditional :=
  index ← by_open !! at_; decided !! index.

(** The loop of [walk]: the answer [whole && !annotated && brackets == 0] and the blocks. *)
Fixpoint walk_loop (fuel at_ until : nat) (whole annotated : bool) (brackets : Z)
    (blocks : list Block) : option (bool * list Block) :=
  let answer := Some (whole && negb annotated && (brackets =? 0)%Z, blocks) in
  match fuel with
  | O => answer
  | S fuel =>
      if (at_ <? until)%nat then
        match kind at_ with
        | None => answer
        | Some k =>
            match (if decide (k = T![PreIf]) then group_opened_at at_ else None) with
            | Some group =>
                '(nested, blocks) ←
                  match (if balanced group then None else active group) with
                  | Some (from, until) => walk_loop fuel from until true false 0 blocks
                  | None => Some (true, blocks)
                  end;
                walk_loop fuel (S (close group)) until (whole && nested) annotated brackets blocks
            | None =>
                brackets ← bracket_after k brackets;
                let whole := whole && bracket_whole k brackets in
                if decide (k = T![PreDelete]) then
                  walk_loop fuel (S (skip_removed (until - at_) at_ until)) until
                    whole annotated brackets blocks
                else if is_name at_ then
                  walk_loop fuel (S at_) until whole annotated brackets blocks
                else
                  let '(blocks, owned) := block_after k blocks in
                  walk_loop fuel (S at_) until (whole && owned) (annotated_after k annotated)
                    brackets blocks
            end
        end
      else answer
  end.

Definition walk (range : nat * nat) (blocks : list Block) : option (bool * list Block) :=
  walk_loop (S (length kinds)) range.1 range.2 true false 0 blocks.

Definition walk_whole (range : nat * nat) : option bool :=
  '(whole, blocks) ← walk range []; Some (whole && bool_decide (blocks = [])).

(** [branches.iter().all(..)], which stops at the first branch that is not whole. *)
Fixpoint all_whole (branches : list Branch) : option bool :=
  match branches with
  | [] => Some true
  | b :: branches =>
      whole ← walk_whole (body b);
      if (whole : bool) then all_whole branches else Some false
  end.
End walk.

(** *** The closed groups, sorted by the position of their [#If] *)

Definition decide_group (decided : list Conditional) (by_open : gmap nat nat) (start : nat)
    (branches : list Branch) (close : nat) : option Conditional :=
  let active := body <$> head (filter (fun b => branch_holds b = true) branches) in
  balanced ← all_whole decided by_open branches;
  Some (MkConditional start close balanced active).

Fixpoint decide_groups (raw : list RawGroup) (decided : list Conditional) (by_open : gmap nat nat)
    : option (list Conditional) :=
  match raw with
  | [] => Some decided
  | (start, clauses, close) :: raw =>
      match branches start clauses close with
      | None => decide_groups raw decided by_open
      | Some bs =>
          group ← decide_group decided by_open start bs close;
          decide_groups raw (decided ++ [group]) (<[start := length decided]> by_open)
      end
  end.

Definition by_open_le (g h : Conditional) : Prop := (open g <= open h)%nat.
#[export] Instance by_open_le_dec : RelDecision by_open_le.
Proof. unfold by_open_le. intros ??. apply _. Defined.

Definition conditionals : option (list Conditional) :=
  groups ← decide_groups raw_groups [] ∅; Some (merge_sort by_open_le groups).

Definition index_by_open (groups : list Conditional) : gmap nat nat :=
  list_to_map (reverse (imap (fun index group => (open group, index)) groups)).

(** Whether the whole input holds whole constructs. *)
Definition whole (groups : list Conditional) : option bool :=
  walk_whole groups (index_by_open groups) (0%nat, length kinds).
End torn_if.

(** ** The groups nest

    What the scan keeps as it goes: the groups still open, innermost first, and the groups closed
    so far, each either apart from another or inside it. *)

(** Two closed groups, the first one closed first: apart, or the first inside the second. *)
Definition closed_in_order (g h : nat * nat) : Prop :=
  (g.2 < h.2)%nat /\ ((g.2 < h.1)%nat \/ (h.1 < g.1)%nat).

(** Apart from each other, or one inside the other. *)
Definition laminar (g h : Conditional) : Prop :=
  (close g < open h)%nat \/ (close h < open g)%nat \/
  (open g < open h /\ close h < close g)%nat \/ (open h < open g /\ close g < close h)%nat.

Definition ends (g : Conditional) : nat * nat := (open g, close g).

(** What the parser relies on about one group. *)
Definition group_ok (kinds : list Sig) (g : Conditional) : Prop :=
  kinds !! open g = Some T![PreIf] /\ kinds !! close g = Some T![PreEndIf] /\
  (open g < close g)%nat /\
  match active g with Some (s, e) => (open g < s <= e)%nat /\ (e <= close g)%nat | None => True end.

Section nesting.
Context (kinds : list Sig).

Definition raw_ok (r : nat * list nat * nat) : Prop :=
  let '(start, clauses, close) := r in
  kinds !! start = Some T![PreIf] /\ kinds !! close = Some T![PreEndIf] /\
  StronglySorted lt (start :: clauses ++ [close]).

Definition raw_ends (r : nat * list nat * nat) : nat * nat := (r.1.1, r.2).

(** A group open at [pos]: its directives stand in order before [pos]. *)
Definition open_ok (pos : nat) (o : nat * list nat) : Prop :=
  kinds !! o.1 = Some T![PreIf] /\ StronglySorted lt (o.1 :: o.2 ++ [pos]).

Record scan_inv (pos : nat) (raw : list (nat * list nat * nat)) (opened : list (nat * list nat))
    : Prop := {
  si_raw : Forall raw_ok raw;
  si_open : Forall (open_ok pos) opened;
  si_stack : StronglySorted (fun o o' => o'.1 < o.1)%nat opened;
  si_order : StronglySorted closed_in_order (raw_ends <$> raw);
  si_past : Forall (fun g => g.2 < pos)%nat (raw_ends <$> raw);
  si_around : Forall (fun o => Forall (fun g => o.1 < g.1 \/ g.2 < o.1)%nat (raw_ends <$> raw)) opened;
}.

Lemma end_of_removed_after fuel : forall pos, (pos < end_of_removed kinds fuel pos)%nat.
Proof.
  induction fuel as [|fuel IH]; intros pos; simpl; [lia|].
  specialize (IH (S pos)). repeat case_match; lia.
Qed.

Lemma StronglySorted_snoc {A} (R : A -> A -> Prop) l x :
  StronglySorted R (l ++ [x]) <-> StronglySorted R l /\ Forall (fun y => R y x) l.
Proof.
  rewrite StronglySorted_app. split.
  - intros (H & Hl & _). split; [done|]. apply Forall_forall. intros y Hy. apply H; [done|].
    by apply list_elem_of_singleton.
  - intros [H Hx]. split; [|split; [done|repeat constructor]].
    intros y z Hy ->%list_elem_of_singleton. by eapply Forall_forall in Hx.
Qed.

Lemma open_ok_mono pos pos' o : (pos <= pos')%nat -> open_ok pos o -> open_ok pos' o.
Proof.
  intros Hp [Hk Hs]. split; [done|]. rewrite app_comm_cons in *.
  apply StronglySorted_snoc in Hs as [Hs Hf]. apply StronglySorted_snoc. split; [done|].
  eapply Forall_impl; [done|]. simpl. lia.
Qed.

Lemma open_ok_start pos o : open_ok pos o -> (o.1 < pos)%nat.
Proof.
  intros [_ Hs]. rewrite app_comm_cons in Hs. apply StronglySorted_snoc in Hs as [_ Hf].
  by apply Forall_cons in Hf as [? _].
Qed.

Lemma scan_inv_advance pos pos' raw opened :
  (pos <= pos')%nat -> scan_inv pos raw opened -> scan_inv pos' raw opened.
Proof.
  intros Hp []. constructor; try done.
  - eapply Forall_impl; [exact si_open0|]. intros o. by apply open_ok_mono.
  - eapply Forall_impl; [exact si_past0|]. simpl. lia.
Qed.

Lemma scan_inv_open pos raw opened :
  kinds !! pos = Some T![PreIf] -> scan_inv pos raw opened ->
  scan_inv (S pos) raw ((pos, []) :: opened).
Proof.
  intros Hk Hi. pose proof (scan_inv_advance _ (S pos) _ _ (Nat.le_succ_diag_r _) Hi) as Hi'.
  destruct Hi, Hi'. constructor; try done.
  - constructor; [|done]. split; [done|]. simpl. repeat constructor.
  - constructor; [done|]. eapply Forall_impl; [exact si_open0|]. apply open_ok_start.
  - constructor; [|done]. eapply Forall_impl; [exact si_past0|]. simpl. auto.
Qed.

Lemma scan_inv_clause pos raw opened :
  scan_inv pos raw opened -> scan_inv (S pos) raw (push_clause pos opened).
Proof.
  intros Hi. pose proof (scan_inv_advance _ (S pos) _ _ (Nat.le_succ_diag_r _) Hi) as Hi'.
  destruct opened as [|[start clauses] opened]; [done|]. simpl.
  destruct Hi as [_ Ho _ _ _ _], Hi' as [? Ho' Hs ? ? Ha].
  apply Forall_cons in Ho as [[Hk Hsort] _], Ho' as [_ Ho'], Ha as [Ha Ha'].
  apply StronglySorted_inv in Hs as [Hs Hs']. simpl in Hsort.
  constructor; try done; (constructor; [|done]); try done.
  split; [done|]. simpl. rewrite app_comm_cons. apply StronglySorted_snoc. split; [done|].
  rewrite app_comm_cons in Hsort. apply StronglySorted_snoc in Hsort as [_ Hf].
  rewrite app_comm_cons. apply Forall_app. split; [|by repeat constructor].
  eapply Forall_impl; [exact Hf|]. simpl. lia.
Qed.

Lemma scan_inv_close pos raw start clauses opened :
  kinds !! pos = Some T![PreEndIf] -> scan_inv pos raw ((start, clauses) :: opened) ->
  scan_inv (S pos) (raw ++ [(start, clauses, pos)]) opened.
Proof.
  intros Hk [Hr Ho Hs Hord Hp Ha].
  apply Forall_cons in Ho as [[Hks Hsort] Ho], Ha as [Ha Ha'].
  apply StronglySorted_inv in Hs as [Hs Hs']. simpl in *.
  assert (start < pos)%nat as Hlt by by apply (open_ok_start pos (start, clauses)).
  constructor; rewrite ?fmap_app; simpl; try done.
  - apply Forall_app. split; [done|]. apply Forall_singleton. done.
  - eapply Forall_impl; [exact Ho|]. intros o. apply open_ok_mono. lia.
  - apply StronglySorted_snoc. split; [done|]. apply Forall_forall. intros g Hg.
    eapply Forall_forall in Hp; [|done]. eapply Forall_forall in Ha; [|done].
    split; simpl in *; lia.
  - apply Forall_app. split; [|apply Forall_singleton; simpl; lia].
    eapply Forall_impl; [exact Hp|]. simpl. lia.
  - apply Forall_forall. intros o Hin. apply Forall_app. split.
    + by eapply Forall_forall in Ha'.
    + apply Forall_singleton. eapply Forall_forall in Hs'; [|done]. simpl in *. lia.
Qed.

Lemma scan_groups_inv fuel : forall pos raw opened,
  scan_inv pos raw opened ->
  exists pos' opened', scan_inv pos' (scan_groups kinds fuel pos raw opened) opened'.
Proof.
  induction fuel as [|fuel IH]; intros pos raw opened Hi; simpl; [by exists pos, opened|].
  pose proof (scan_inv_advance _ (S pos) _ _ (Nat.le_succ_diag_r _) Hi) as Hi'.
  unfold kind. destruct (kinds !! pos) as [[k]|] eqn:Ek; [|by eauto].
  destruct k; try (by apply IH); try (apply IH, scan_inv_clause, Hi).
  - by apply IH, scan_inv_open.
  - destruct opened as [|[start clauses] opened]; [by apply IH|]. by apply IH, scan_inv_close.
  - apply IH. eapply scan_inv_advance; [|exact Hi]. pose proof (end_of_removed_after (length kinds) pos). lia.
Qed.

Lemma scan_inv_start : scan_inv 0 [] [].
Proof. constructor; repeat constructor. Qed.

Lemma raw_groups_ok : Forall raw_ok (raw_groups kinds).
Proof. destruct (scan_groups_inv (S (length kinds)) 0 [] [] scan_inv_start) as (? & ? & []). done. Qed.

Lemma raw_groups_order : StronglySorted closed_in_order (raw_ends <$> raw_groups kinds).
Proof. destruct (scan_groups_inv (S (length kinds)) 0 [] [] scan_inv_start) as (? & ? & []). done. Qed.

(** *** The branches of a group *)

Lemma find_then_spec fuel : forall from until then_,
  find_then kinds fuel from until = Some then_ ->
  (from <= then_ < until)%nat /\ kinds !! then_ = Some T![KwThen].
Proof.
  induction fuel as [|fuel IH]; intros from until then_; simpl; [done|].
  destruct (Nat.ltb_spec from until) as [Hlt|]; [|done].
  case_decide as Hk; [intros [= <-]; split; [lia|done]|]. intros H%IH. split; [lia|]. apply H.
Qed.

Definition branch_ok (start close : nat) (b : Branch) : Prop :=
  (start < (body b).1 <= (body b).2)%nat /\ ((body b).2 <= close)%nat.

Lemma branches_loop_ok directives close bs start :
  branches_loop kinds directives close = Some bs ->
  StronglySorted lt (directives ++ [close]) ->
  Forall (fun d => start <= d)%nat directives -> Forall (branch_ok start close) bs.
Proof.
  revert bs. induction directives as [|d ds IH]; intros bs; simpl; [by intros [= <-] _ _|].
  intros Hb [Hs Hd]%StronglySorted_inv [Hsd Hsds]%Forall_cons.
  set (until := match ds with next :: _ => next | [] => close end) in *.
  assert (d < until <= close)%nat as Hu.
  { unfold until. destruct ds as [|next ds]; simpl in *.
    - apply Forall_cons in Hd as [? _]. lia.
    - apply Forall_cons in Hd as [? _]. apply StronglySorted_inv in Hs as [_ Hs].
      apply Forall_app in Hs as [_ [? _]%Forall_cons]. lia. }
  case_decide.
  - apply bind_Some in Hb as (bs' & Hb & [= <-]). constructor; [|by eapply IH].
    split; simpl; lia.
  - apply bind_Some in Hb as (then_ & Ht & Hb). apply bind_Some in Hb as (bs' & Hb & [= <-]).
    apply find_then_spec in Ht as [Ht _]. constructor; [|by eapply IH]. split; simpl; lia.
Qed.

Lemma decide_group_ok decided by_open start clauses close bs g :
  raw_ok (start, clauses, close) -> branches kinds start clauses close = Some bs ->
  decide_group kinds decided by_open start bs close = Some g ->
  group_ok kinds g /\ ends g = (start, close).
Proof.
  unfold decide_group. intros (Hs & Hc & Hsort) Hb (bal & _ & [= <-])%bind_Some. split; [|done]. split; [done|]. split; [done|]. simpl.
  rewrite app_comm_cons in Hsort. pose proof Hsort as [_ [Hlt _]%Forall_cons]%StronglySorted_snoc.
  split; [done|]. destruct (filter _ bs) as [|b rest] eqn:Ef; simpl; [done|].
  assert (b ∈ bs) as Hin by (eapply list_elem_of_filter; rewrite Ef; left).
  apply (branches_loop_ok _ _ _ start) in Hb; [|exact Hsort|].
  - eapply Forall_forall in Hb; [|done]. destruct b as [[s e] h]. unfold branch_ok in Hb. simpl in *. lia.
  - constructor; [done|]. apply StronglySorted_inv in Hsort as [_ Hsort].
    apply Forall_app in Hsort as [Hsort _]. eapply Forall_impl; [exact Hsort|]. simpl. lia.
Qed.

Lemma decide_groups_ok raw : forall decided by_open groups,
  Forall raw_ok raw -> Forall (group_ok kinds) decided ->
  StronglySorted closed_in_order ((ends <$> decided) ++ (raw_ends <$> raw)) ->
  decide_groups kinds raw decided by_open = Some groups ->
  Forall (group_ok kinds) groups /\ StronglySorted closed_in_order (ends <$> groups).
Proof.
  induction raw as [|[[start clauses] close] raw IH]; intros decided by_open groups Hr Hd Hs; simpl.
  { intros [= <-]. split; [done|]. by rewrite app_nil_r in Hs. }
  apply Forall_cons in Hr as [Hr Hraw]. destruct (branches _ _ _ _) as [bs|] eqn:Eb.
  - intros (g & Eg & Hgs)%bind_Some. destruct (decide_group_ok _ _ _ _ _ _ _ Hr Eb Eg) as [Hg He].
    eapply IH; [done| | |exact Hgs].
    + apply Forall_app. split; [done|]. by apply Forall_singleton.
    + rewrite fmap_app, <- app_assoc. csimpl. by rewrite He.
  - apply IH; [done..|]. apply StronglySorted_app in Hs as (Hc & Hl & Hrr).
    apply StronglySorted_inv in Hrr as [Hrr _].
    apply StronglySorted_app. split; [|done]. intros x y Hx Hy. apply Hc; [done|]. by right.
Qed.
End nesting.

(** A symmetric relation between every two elements does not depend on the order of the list. *)
Lemma StronglySorted_symmetric_perm {A} (R : A -> A -> Prop) l1 l2 :
  (forall x y, R x y -> R y x) -> l1 ≡ₚ l2 -> StronglySorted R l1 -> StronglySorted R l2.
Proof.
  intros Hsym. induction 1 as [|x l1 l2 Hp IH|x y l|]; intros Hs; [done| | |by auto].
  - apply StronglySorted_inv in Hs as [Hs Hx]. constructor; [by apply IH|]. by rewrite <- Hp.
  - apply StronglySorted_inv in Hs as [Hs Hx]. apply Forall_cons in Hx as [Hxy Hx].
    apply StronglySorted_inv in Hs as [Hs Hy]. constructor; constructor; auto.
Qed.

Lemma StronglySorted_impl_2 {A} (R1 R2 R3 : A -> A -> Prop) l :
  (forall x y, R1 x y -> R2 x y -> R3 x y) ->
  StronglySorted R1 l -> StronglySorted R2 l -> StronglySorted R3 l.
Proof.
  intros HR. induction 1 as [|x l Hs IH Hx]; intros H2; [constructor|].
  apply StronglySorted_inv in H2 as [H2 Hx2]. constructor; [by apply IH|].
  rewrite Forall_forall in *. auto.
Qed.

Lemma conditionals_facts kinds groups :
  conditionals kinds = Some groups ->
  Forall (group_ok kinds) groups /\ StronglySorted (fun g h => open g < open h /\ laminar g h)%nat groups.
Proof.
  unfold conditionals. intros (l & El & [= <-])%bind_Some.
  destruct (decide_groups_ok kinds (raw_groups kinds) [] ∅ l) as [Hok Hord]; [apply raw_groups_ok|constructor|apply raw_groups_order|done|].
  clear El.
  pose proof (merge_sort_Permutation by_open_le l) as Hp. split; [by rewrite Hp|].
  assert (StronglySorted (fun g h => laminar g h /\ open g <> open h) (merge_sort by_open_le l)) as Hl.
  { eapply (StronglySorted_symmetric_perm _ l); [|by symmetry|].
    - unfold laminar. intros x y. lia.
    - clear Hp. induction l as [|g l IH]; [constructor|].
      apply Forall_cons in Hok as [Hg Hok]. simpl in Hord. apply StronglySorted_inv in Hord as [Hord Hx].
      constructor; [by apply IH|]. rewrite Forall_fmap in Hx. rewrite Forall_forall in *.
      intros h Hh. specialize (Hx h Hh). specialize (Hok h Hh).
      destruct Hg as (_ & _ & ? & _), Hok as (_ & _ & ? & _).
      unfold closed_in_order, laminar in *. simpl in *. lia. }
  eapply StronglySorted_impl_2; [|apply StronglySorted_merge_sort|exact Hl].
  - unfold by_open_le. simpl. intros x y ? [? ?]. split; [lia|done].
  - intros x y z. unfold by_open_le. lia.
  - intros x y. unfold by_open_le. lia.
Qed.

(** ** Enough fuel *)

Section fuel.
Context (kinds : list Sig).

Lemma kind_Some_lt pos k : kind kinds pos = Some k -> (pos < length kinds)%nat.
Proof. apply lookup_lt_Some. Qed.

Lemma scan_groups_fuel f1 : forall f2 pos raw opened,
(length kinds - pos < f1)%nat -> (length kinds - pos < f2)%nat ->
scan_groups kinds f1 pos raw opened = scan_groups kinds f2 pos raw opened.
Proof.
induction f1 as [|f1 IH]; intros [|f2] pos raw opened H1 H2; [lia..|]. simpl.
destruct (kind kinds pos) as [[k]|] eqn:Ek; [|done]. apply kind_Some_lt in Ek.
pose proof (end_of_removed_after kinds (length kinds) pos).
destruct k; try (apply IH; lia). destruct opened as [|[start clauses] opened]; apply IH; lia.
Qed.

Section condition.
Context (until : nat).

Lemma peek_Some at_ k : peek kinds until at_ = Some k -> (at_ < until)%nat.
Proof. unfold peek. by destruct (Nat.ltb_spec at_ until). Qed.

(** A call never moves back. *)
Lemma cond_forward f : forall at_ v,
  (at_ <= (cond_or kinds until f at_).2)%nat /\ (at_ <= (or_loop kinds until f v at_).2)%nat /\
  (at_ <= (cond_and kinds until f at_).2)%nat /\ (at_ <= (and_loop kinds until f v at_).2)%nat /\
  (at_ <= (operand kinds until f at_).2)%nat.
Proof.
  induction f as [|f IH]; intros at_ v; simpl; [lia|].
  assert (Hor : forall a, (a <= (cond_or kinds until f a).2)%nat) by (intros a; apply (IH a v)).
  assert (Hol : forall a v, (a <= (or_loop kinds until f v a).2)%nat) by (intros a w; apply (IH a w)).
  assert (Hand : forall a, (a <= (cond_and kinds until f a).2)%nat) by (intros a; apply (IH a v)).
  assert (Hal : forall a v, (a <= (and_loop kinds until f v a).2)%nat) by (intros a w; apply (IH a w)).
  assert (Hop : forall a, (a <= (operand kinds until f a).2)%nat) by (intros a; apply (IH a v)).
  clear IH. split_and!.
  - specialize (Hand at_). destruct (cond_and _ _ _ _) as [w a]. specialize (Hol a w). simpl in *. lia.
  - specialize (Hand (S at_)). destruct (cond_and _ _ _ _) as [w a]. specialize (Hol a (v || w)).
    repeat case_match; simpl in *; lia.
  - specialize (Hop at_). destruct (operand _ _ _ _) as [w a]. specialize (Hal a w). simpl in *. lia.
  - specialize (Hop (S at_)). destruct (operand _ _ _ _) as [w a]. specialize (Hal a (v && w)).
    repeat case_match; simpl in *; lia.
  - specialize (Hop (S at_)). specialize (Hor (S at_)).
    destruct (operand _ _ _ _) as [w a], (cond_or _ _ _ _) as [w' a'].
    repeat (case_match; simpl in *; try lia).
Qed.

Abbreviation left at_ := (until - at_)%nat.

Lemma cond_fuel_enough f1 : forall f2 at_ v,
  ((4 * left at_ + 3 <= f1)%nat -> (4 * left at_ + 3 <= f2)%nat ->
   cond_or kinds until f1 at_ = cond_or kinds until f2 at_) /\
  ((4 * left at_ + 1 <= f1)%nat -> (4 * left at_ + 1 <= f2)%nat ->
   or_loop kinds until f1 v at_ = or_loop kinds until f2 v at_) /\
  ((4 * left at_ + 2 <= f1)%nat -> (4 * left at_ + 2 <= f2)%nat ->
   cond_and kinds until f1 at_ = cond_and kinds until f2 at_) /\
  ((4 * left at_ + 1 <= f1)%nat -> (4 * left at_ + 1 <= f2)%nat ->
   and_loop kinds until f1 v at_ = and_loop kinds until f2 v at_) /\
  ((4 * left at_ + 1 <= f1)%nat -> (4 * left at_ + 1 <= f2)%nat ->
   operand kinds until f1 at_ = operand kinds until f2 at_).
Proof.
  induction f1 as [|f1 IH]; intros [|f2] at_ v; [split_and!; intros; lia..|]. simpl.
  split_and!; intros H1 H2.
  - destruct (IH f2 at_ v) as (_ & _ & -> & _); [|lia..].
    pose proof (cond_forward f2 at_ v) as (_ & _ & Hf & _).
    destruct (cond_and _ _ _ _) as [w a]. simpl in *. apply (IH f2 a w); lia.
  - destruct (peek _ _ _) as [[k]|] eqn:Ek; [|done]. apply peek_Some in Ek. destruct k; try done.
    destruct (IH f2 (S at_) v) as (_ & _ & -> & _); [|lia..].
    pose proof (cond_forward f2 (S at_) v) as (_ & _ & Hf & _).
    destruct (cond_and _ _ _ _) as [w a]. simpl in *. apply (IH f2 a _); lia.
  - destruct (IH f2 at_ v) as (_ & _ & _ & _ & ->); [|lia..].
    pose proof (cond_forward f2 at_ v) as (_ & _ & _ & _ & Hf).
    destruct (operand _ _ _ _) as [w a]. simpl in *. apply (IH f2 a w); lia.
  - destruct (peek _ _ _) as [[k]|] eqn:Ek; [|done]. apply peek_Some in Ek. destruct k; try done.
    destruct (IH f2 (S at_) v) as (_ & _ & _ & _ & ->); [|lia..].
    pose proof (cond_forward f2 (S at_) v) as (_ & _ & _ & _ & Hf).
    destruct (operand _ _ _ _) as [w a]. simpl in *. apply (IH f2 a _); lia.
  - destruct (peek _ _ _) as [[k]|] eqn:Ek; [|done]. apply peek_Some in Ek. destruct k; try done.
    + destruct (IH f2 (S at_) v) as (_ & _ & _ & _ & ->); [done|lia..].
    + destruct (IH f2 (S at_) v) as (-> & _); [done|lia..].
Qed.

(** The rules with as much fuel as they need. *)
Definition or_rule (at_ : nat) := cond_or kinds until (cond_fuel until at_) at_.
Definition or_more (v : bool) (at_ : nat) := or_loop kinds until (cond_fuel until at_) v at_.
Definition and_rule (at_ : nat) := cond_and kinds until (cond_fuel until at_) at_.
Definition and_more (v : bool) (at_ : nat) := and_loop kinds until (cond_fuel until at_) v at_.
Definition operand_rule (at_ : nat) := operand kinds until (cond_fuel until at_) at_.

Lemma rules_enough f at_ v :
  ((4 * left at_ + 3 <= f)%nat -> cond_or kinds until f at_ = or_rule at_) /\
  ((4 * left at_ + 1 <= f)%nat -> or_loop kinds until f v at_ = or_more v at_) /\
  ((4 * left at_ + 2 <= f)%nat -> cond_and kinds until f at_ = and_rule at_) /\
  ((4 * left at_ + 1 <= f)%nat -> and_loop kinds until f v at_ = and_more v at_) /\
  ((4 * left at_ + 1 <= f)%nat -> operand kinds until f at_ = operand_rule at_).
Proof.
  destruct (cond_fuel_enough f (cond_fuel until at_) at_ v) as (H1 & H2 & H3 & H4 & H5).
  unfold cond_fuel in *. split_and!; intros; [apply H1|apply H2|apply H3|apply H4|apply H5]; lia.
Qed.

Lemma cond_fuel_S at_ : cond_fuel until at_ = S (4 * left at_ + 3).
Proof. unfold cond_fuel. lia. Qed.

Lemma or_rule_eq at_ : or_rule at_ = let '(v, at_) := and_rule at_ in or_more v at_.
Proof.
  unfold or_rule. rewrite cond_fuel_S. remember (4 * left at_ + 3)%nat as n eqn:Hn. simpl.
  pose proof (cond_forward n at_ true) as (_ & _ & Hf & _).
  destruct (rules_enough n at_ true) as (_ & _ & E & _). rewrite E in Hf |- * by lia.
  destruct (and_rule at_) as [w a]. simpl in *. apply (rules_enough _ a w). lia.
Qed.

Lemma or_more_eq v at_ :
  or_more v at_ =
  match peek kinds until at_ with
  | Some T![KwOr] => let '(rhs, at_) := and_rule (S at_) in or_more (v || rhs) at_
  | _ => (v, at_)
  end.
Proof.
  unfold or_more. rewrite cond_fuel_S. remember (4 * left at_ + 3)%nat as n eqn:Hn. simpl. destruct (peek _ _ _) as [[k]|] eqn:Ek; [|done].
  apply peek_Some in Ek. destruct k; try done.
  pose proof (cond_forward n (S at_) true) as (_ & _ & Hf & _).
  destruct (rules_enough n (S at_) true) as (_ & _ & E & _). rewrite E in Hf |- * by lia.
  destruct (and_rule (S at_)) as [w a]. simpl in *. apply (rules_enough _ a (v || w)). lia.
Qed.

Lemma and_rule_eq at_ : and_rule at_ = let '(v, at_) := operand_rule at_ in and_more v at_.
Proof.
  unfold and_rule. rewrite cond_fuel_S. remember (4 * left at_ + 3)%nat as n eqn:Hn. simpl.
  pose proof (cond_forward n at_ true) as (_ & _ & _ & _ & Hf).
  destruct (rules_enough n at_ true) as (_ & _ & _ & _ & E). rewrite E in Hf |- * by lia.
  destruct (operand_rule at_) as [w a]. simpl in *. apply (rules_enough _ a w). lia.
Qed.

Lemma and_more_eq v at_ :
  and_more v at_ =
  match peek kinds until at_ with
  | Some T![KwAnd] => let '(rhs, at_) := operand_rule (S at_) in and_more (v && rhs) at_
  | _ => (v, at_)
  end.
Proof.
  unfold and_more. rewrite cond_fuel_S. remember (4 * left at_ + 3)%nat as n eqn:Hn. simpl. destruct (peek _ _ _) as [[k]|] eqn:Ek; [|done].
  apply peek_Some in Ek. destruct k; try done.
  pose proof (cond_forward n (S at_) true) as (_ & _ & _ & _ & Hf).
  destruct (rules_enough n (S at_) true) as (_ & _ & _ & _ & E). rewrite E in Hf |- * by lia.
  destruct (operand_rule (S at_)) as [w a]. simpl in *. apply (rules_enough _ a (v && w)). lia.
Qed.

Lemma operand_rule_eq at_ :
  operand_rule at_ =
  match peek kinds until at_ with
  | Some T![KwNot] => let '(v, at_) := operand_rule (S at_) in (negb v, at_)
  | Some T![LParen] =>
      let '(v, at_) := or_rule (S at_) in
      (v, match peek kinds until at_ with Some T![RParen] => S at_ | _ => at_ end)
  | Some _ => (true, S at_)
  | None => (true, at_)
  end.
Proof.
  unfold operand_rule. rewrite cond_fuel_S. remember (4 * left at_ + 3)%nat as n eqn:Hn. simpl. destruct (peek _ _ _) as [[k]|] eqn:Ek; [|done].
  apply peek_Some in Ek.
  destruct (rules_enough n (S at_) true) as (Eo & _ & _ & _ & E).
  destruct k; try done.
  - by rewrite E by lia.
  - by rewrite Eo by lia.
Qed.

Lemma holds_rule at_ : holds kinds until at_ = (or_rule at_).1.
Proof. done. Qed.
End condition.

(** [walk]: the position only grows, whether the loop goes on or a group's branch is entered. *)
Lemma skip_removed_ge fuel : forall at_ until, (at_ <= skip_removed kinds fuel at_ until)%nat.
Proof.
induction fuel as [|fuel IH]; intros at_ until; simpl; [lia|].
specialize (IH (S at_) until). repeat case_match; lia.
Qed.

Section walk.
Context (decided : list Conditional) (by_open : gmap nat nat).
Hypothesis Hforward : forall at_ g, group_opened_at decided by_open at_ = Some g ->
  (at_ < close g)%nat /\ (forall s e, active g = Some (s, e) -> (at_ < s)%nat).

Lemma walk_loop_fuel f1 : forall f2 at_ until w a b blocks,
  (length kinds - at_ < f1)%nat -> (length kinds - at_ < f2)%nat ->
  walk_loop kinds decided by_open f1 at_ until w a b blocks =
  walk_loop kinds decided by_open f2 at_ until w a b blocks.
Proof.
  induction f1 as [|f1 IH]; intros [|f2] at_ until w a b blocks H1 H2; [lia..|]. simpl.
  destruct (at_ <? until)%nat; [|done]. destruct (kind kinds at_) as [k|] eqn:Ek; [|done].
  apply kind_Some_lt in Ek. pose proof (skip_removed_ge (until - at_) at_ until).
  destruct (if decide _ then _ else _) as [g|] eqn:Eg.
  - assert (group_opened_at decided by_open at_ = Some g) as Hg by by case_decide.
    apply Hforward in Hg as [Hc Hs].
    assert (match (if balanced g then None else active g) with
      | Some (from, until) => walk_loop kinds decided by_open f1 from until true false 0 blocks
      | None => Some (true, blocks)
      end = match (if balanced g then None else active g) with
      | Some (from, until) => walk_loop kinds decided by_open f2 from until true false 0 blocks
      | None => Some (true, blocks)
      end) as ->.
    { destruct (if balanced g then None else active g) as [[s e]|] eqn:Ea; [|done].
      destruct (balanced g); [done|]. apply Hs in Ea. apply IH; lia. }
    destruct (match _ with Some _ => _ | None => _ end) as [[nested bl]|]; [|done]. apply IH; lia.
  - clear Eg. destruct (bracket_after k b) as [b'|]; [|done]. cbn [mbind option_bind].
    case_decide; [apply IH; lia|]. destruct (is_name _ _); [apply IH; lia|].
    destruct (block_after _ _) as [bl owned]. apply IH; lia.
Qed.

(** The brackets seen so far are no more than the words walked over. *)
Lemma bracket_after_fits k brackets at_ :
  (Z.of_nat (S at_) < 2 ^ 31)%Z -> (Z.abs brackets <= Z.of_nat at_)%Z ->
  exists b, bracket_after k brackets = Some b /\ (Z.abs b <= Z.of_nat (S at_))%Z.
Proof.
  intros Hl Hb. assert (forall d, (Z.abs d <= 1)%Z ->
    exists b, i32_sum brackets d = Some b /\ (Z.abs b <= Z.of_nat (S at_))%Z) as Hd.
  { intros d Hd. rewrite i32_sum_fits by lia. eexists. split; [done|lia]. }
  destruct k as [[]]; simpl; try (apply Hd; lia); (exists brackets; split; [done|lia]).
Qed.

Lemma walk_loop_fits fuel : forall at_ until w a b blocks,
  (Z.of_nat (length kinds) < 2 ^ 31)%Z -> (Z.abs b <= Z.of_nat at_)%Z ->
  is_Some (walk_loop kinds decided by_open fuel at_ until w a b blocks).
Proof.
  induction fuel as [|fuel IH]; intros at_ until w a b blocks Hl Hb; simpl; [by eexists|].
  destruct (at_ <? until)%nat; [|by eexists]. destruct (kind kinds at_) as [k|] eqn:Ek; [|by eexists].
  apply kind_Some_lt in Ek. pose proof (skip_removed_ge (until - at_) at_ until).
  destruct (if decide _ then _ else _) as [g|] eqn:Eg.
  - assert (group_opened_at decided by_open at_ = Some g) as Hg by by case_decide.
    apply Hforward in Hg as [Hc _].
    destruct (if balanced g then None else active g) as [[s e]|].
    + destruct (IH s e true false 0%Z blocks Hl ltac:(lia)) as [[n bl] ->]. apply IH; [done|lia].
    + apply IH; [done|lia].
  - clear Eg. destruct (bracket_after_fits k b at_) as (b' & -> & Hb'); [lia|done|]. cbn [mbind option_bind].
    case_decide; [apply IH; [done|lia]|]. destruct (is_name _ _); [by apply IH|].
    destruct (block_after _ _) as [bl owned]. by apply IH.
Qed.

Lemma walk_whole_fits range :
  (Z.of_nat (length kinds) < 2 ^ 31)%Z -> is_Some (walk_whole kinds decided by_open range).
Proof.
  intros Hl. unfold walk_whole, walk.
  destruct (walk_loop_fits (S (length kinds)) range.1 range.2 true false 0 [] Hl ltac:(lia)) as [[w bl] ->]. by eexists.
Qed.

Lemma decide_group_fits start bs close :
  (Z.of_nat (length kinds) < 2 ^ 31)%Z -> is_Some (decide_group kinds decided by_open start bs close).
Proof.
  intros Hl. unfold decide_group. assert (is_Some (all_whole kinds decided by_open bs)) as [w ->]; [|by eexists].
  induction bs as [|x bs IH]; simpl; [by eexists|]. destruct (walk_whole_fits (body x) Hl) as [[] ->]; [done|by eexists].
Qed.
End walk.

(** The index leads to groups that open where it says. *)
Definition indexed (decided : list Conditional) (by_open : gmap nat nat) : Prop :=
  forall at_ i, by_open !! at_ = Some i -> exists g, decided !! i = Some g /\ open g = at_.

Lemma indexed_forward decided by_open :
  indexed decided by_open -> Forall (group_ok kinds) decided ->
  forall at_ g, group_opened_at decided by_open at_ = Some g ->
    (at_ < close g)%nat /\ (forall s e, active g = Some (s, e) -> (at_ < s)%nat).
Proof.
  intros Hx Hok at_ g (i & Hi & Hg)%bind_Some. destruct (Hx _ _ Hi) as (g' & Hg' & <-).
  rewrite Hg in Hg'. injection Hg' as <-. apply (Forall_lookup_1 _ _ _ _ Hok) in Hg as (_ & _ & Hc & Ha).
  split; [done|]. intros s e E. rewrite E in Ha. lia.
Qed.

(** What has been decided stays, and every raw group whose headers are whole is decided on. *)
Lemma decide_groups_fits raw : forall decided by_open,
  (Z.of_nat (length kinds) < 2 ^ 31)%Z -> Forall (raw_ok kinds) raw -> Forall (group_ok kinds) decided -> indexed decided by_open ->
  is_Some (decide_groups kinds raw decided by_open).
Proof.
  induction raw as [|[[start clauses] close] raw IH]; intros decided by_open Hl Hr Hd Hx; simpl; [by eexists|].
  apply Forall_cons in Hr as [Hr Hraw]. destruct (branches _ _ _ _) as [bs|] eqn:Eb; [|by apply IH].
  destruct (decide_group_fits decided by_open (indexed_forward _ _ Hx Hd) start bs close Hl) as [g Eg]. rewrite Eg. cbn [mbind option_bind].
  destruct (decide_group_ok _ _ _ _ _ _ _ _ Hr Eb Eg) as [Hg He]. apply IH; [done|done| |].
  - apply Forall_app. split; [done|]. by apply Forall_singleton.
  - intros at_ i Hi. destruct (decide (start = at_)) as [<-|Hn].
    + rewrite lookup_insert_eq in Hi. injection Hi as <-. exists g. split; [by apply list_lookup_middle|]. by injection He.
    + rewrite lookup_insert_ne in Hi by done. destruct (Hx _ _ Hi) as (g' & Hg' & Ho). exists g'. split; [|done]. by apply lookup_app_l_Some.
Qed.
End fuel.

(** The table of an input that a walk can count is there. *)
Lemma conditionals_fit kinds : (Z.of_nat (length kinds) < 2 ^ 31)%Z -> is_Some (conditionals kinds).
Proof.
  intros Hl. unfold conditionals.
  destruct (decide_groups_fits kinds (raw_groups kinds) [] ∅ Hl (raw_groups_ok kinds) (Forall_nil_2 _)) as [gs ->]; [|by eexists].
  intros at_ i Hi. by rewrite lookup_empty in Hi.
Qed.

(** ** Which groups are closed

    Reading the words outside of removals as brackets, an [#If] and an [#EndIf] make a group when
    the words between them are balanced. *)

Section listed.
Context (kinds : list Sig).

(** The positions outside of the removals. *)
Fixpoint visible_from (fuel pos : nat) : list nat :=
  match fuel with
  | O => []
  | S fuel =>
      match kind kinds pos with
      | None => []
      | Some T![PreDelete] => visible_from fuel (S (end_of_removed kinds (length kinds) pos))
      | Some _ => pos :: visible_from fuel (S pos)
      end
  end.

Definition visible : list nat := visible_from (S (length kinds)) 0.

Definition is_word (k : option Sig) : bool :=
  match k with Some T![PreIf] | Some T![PreElsIf] | Some T![PreElse] | Some T![PreEndIf] => false | _ => true end.

(** [Inside ps cs]: the positions between the ends of a group, and the clauses of the group itself. *)
Inductive Inside : list nat -> list nat -> Prop :=
| Inside_nil : Inside [] []
| Inside_word p ps cs : is_word (kinds !! p) = true -> Inside ps cs -> Inside (p :: ps) cs
| Inside_clause p ps cs :
    kinds !! p = Some T![PreElsIf] \/ kinds !! p = Some T![PreElse] -> Inside ps cs -> Inside (p :: ps) (p :: cs)
| Inside_group o us ds c vs cs :
    kinds !! o = Some T![PreIf] -> Inside us ds -> kinds !! c = Some T![PreEndIf] -> Inside vs cs ->
    Inside (o :: us ++ c :: vs) cs.

(** The group from [o] to [c] with the clauses [cs], among the positions [ps]. *)
Definition group_in (ps : list nat) (o : nat) (cs : list nat) (c : nat) : Prop :=
  exists pre mid post, ps = pre ++ o :: mid ++ c :: post /\
    kinds !! o = Some T![PreIf] /\ Inside mid cs /\ kinds !! c = Some T![PreEndIf].

Definition closed_group : nat -> list nat -> nat -> Prop := group_in visible.

(** The scan, a position at a time. *)
Definition scan_step (st : list (nat * list nat * nat) * list (nat * list nat)) (pos : nat)
    : list (nat * list nat * nat) * list (nat * list nat) :=
  match kinds !! pos with
  | Some T![PreIf] => (st.1, (pos, []) :: st.2)
  | Some T![PreElsIf] | Some T![PreElse] => (st.1, push_clause pos st.2)
  | Some T![PreEndIf] =>
      match st.2 with
      | (start, clauses) :: opened => (st.1 ++ [(start, clauses, pos)], opened)
      | [] => st
      end
  | _ => st
  end.

Lemma scan_visible fuel : forall pos raw opened,
  scan_groups kinds fuel pos raw opened = (foldl scan_step (raw, opened) (visible_from fuel pos)).1.
Proof.
  induction fuel as [|fuel IH]; intros pos raw opened; [done|]. cbn [scan_groups visible_from]. unfold kind.
  destruct (kinds !! pos) as [[k]|] eqn:Ek; [|done].
  destruct k; try apply IH; cbn [foldl]; unfold scan_step at 2; rewrite Ek, IH; try done. by destruct opened as [|[]].
Qed.

Lemma Inside_app us ds vs cs : Inside us ds -> Inside vs cs -> Inside (us ++ vs) (ds ++ cs).
Proof.
  induction 1 as [|p us ds Hp _ IH|p us ds Hp _ IH|o us' es c us ds Ho Hu _ Hc _ IH]; intros Hv; [done|..].
  - apply Inside_word; [done|by apply IH].
  - apply Inside_clause; [done|by apply IH].
  - rewrite <- app_comm_cons, <- app_assoc. apply (Inside_group o us' es c); [done..|by apply IH].
Qed.

(** What is inside of an open group leaves it open, with its clauses added. *)
Lemma Inside_scanned ps cs : Inside ps cs -> forall raw o ds opened,
  exists more, foldl scan_step (raw, (o, ds) :: opened) ps = (raw ++ more, (o, ds ++ cs) :: opened).
Proof.
  induction 1 as [|p us ds Hp _ IH|p us ds Hp _ IH|o us es c vs cs Ho _ IHu Hc _ IHv]; intros raw start clauses opened.
  - exists []. by rewrite !app_nil_r.
  - destruct (IH raw start clauses opened) as [more E]. exists more. rewrite <- E. cbn [foldl]. f_equal.
    unfold scan_step. by destruct (kinds !! p) as [[[]]|].
  - destruct (IH raw start (clauses ++ [p]) opened) as [more E]. exists more. rewrite <- app_assoc in E. simpl in E. rewrite <- E. cbn [foldl]. f_equal.
    unfold scan_step. by destruct Hp as [-> | ->].
  - cbn [foldl]. unfold scan_step at 2. rewrite Ho. simpl. rewrite foldl_app. destruct (IHu raw o [] ((start, clauses) :: opened)) as [m1 ->].
    cbn [foldl]. unfold scan_step at 2. rewrite Hc. simpl. destruct (IHv ((raw ++ m1) ++ [(o, es, c)]) start clauses opened) as [m2 ->].
    eexists. by rewrite <- !app_assoc.
Qed.

Lemma scan_keeps ps : forall st, exists more, (foldl scan_step st ps).1 = st.1 ++ more.
Proof.
  induction ps as [|p ps IH]; intros st; [exists []; by rewrite app_nil_r|]. cbn [foldl]. destruct (IH (scan_step st p)) as [more ->].
  assert (exists m, (scan_step st p).1 = st.1 ++ m) as [m ->].
  { unfold scan_step. destruct (kinds !! p) as [[[]]|]; try (exists []; by rewrite app_nil_r).
    destruct st as [raw [|[s c] opened]]; simpl; [exists []; by rewrite app_nil_r|by eexists]. }
  eexists. by rewrite <- app_assoc.
Qed.

(** The open groups, innermost first: what follows on each [#If] is inside of it. *)
Fixpoint stacked (opened : list (nat * list nat)) (ps : list nat) : Prop :=
  match opened with
  | [] => True
  | (o, cs) :: opened =>
      exists pre mid, ps = pre ++ o :: mid /\ kinds !! o = Some T![PreIf] /\ Inside mid cs /\ stacked opened pre
  end.

Definition scanned (st : list (nat * list nat * nat) * list (nat * list nat)) (ps : list nat) : Prop :=
  (forall o cs c, (o, cs, c) ∈ st.1 -> group_in ps o cs c) /\ stacked st.2 ps.

Lemma stacked_more o cs opened ps qs ds :
  stacked ((o, cs) :: opened) ps -> Inside qs ds -> stacked ((o, cs ++ ds) :: opened) (ps ++ qs).
Proof.
  intros (pre & mid & -> & Ho & Hm & Hs) Hq. exists pre, (mid ++ qs). rewrite <- app_assoc. split; [done|]. split; [done|].
  split; [by apply Inside_app|done].
Qed.

Lemma group_in_app ps qs o cs c : group_in ps o cs c -> group_in (ps ++ qs) o cs c.
Proof.
  intros (pre & mid & post & -> & H). exists pre, mid, (post ++ qs). split; [|done].
  rewrite <- !app_assoc. simpl. by rewrite <- app_assoc.
Qed.

Lemma scan_step_scanned st ps p : scanned st ps -> scanned (scan_step st p) (ps ++ [p]).
Proof.
  intros [Hr Hs]. assert (forall o cs c, (o, cs, c) ∈ st.1 -> group_in (ps ++ [p]) o cs c) as Hr' by (intros; by apply group_in_app, Hr).
  assert (is_word (kinds !! p) = true -> scanned st (ps ++ [p])) as Hword.
  { intros Hp. split; [done|]. destruct st as [raw [|[o cs] opened]]; [done|]. simpl in *.
    rewrite <- (app_nil_r cs). eapply stacked_more; [exact Hs|]. by repeat constructor. }
  unfold scan_step. destruct (kinds !! p) as [[k]|] eqn:Ek; [|by apply Hword].
  destruct k; try (by apply Hword).
  - split; [done|]. exists ps, []. repeat split; [done|constructor|done].
  - split; [done|]. destruct st as [raw [|[o cs] opened]]; [done|]. eapply stacked_more; [exact Hs|].
    apply Inside_clause; [by left|constructor].
  - split; [done|]. destruct st as [raw [|[o cs] opened]]; [done|]. eapply stacked_more; [exact Hs|].
    apply Inside_clause; [by right|constructor].
  - destruct st as [raw [|[o cs] opened]]; simpl in *; [by split|]. destruct Hs as (pre & mid & -> & Ho & Hm & Hs). split.
    + intros o' cs' c' [Hin|[= -> -> ->]%list_elem_of_singleton]%elem_of_app; [by apply Hr'|].
      exists pre, mid, []. by rewrite <- app_assoc.
    + destruct opened as [|[o2 cs2] opened]; [done|]. rewrite <- (app_nil_r cs2), <- app_assoc. eapply stacked_more; [exact Hs|].
      change ((o :: mid) ++ [p]) with (o :: mid ++ p :: []). apply (Inside_group o mid cs p); [done..|constructor].
Qed.

(** The scan finds the closed groups and no others. *)
Lemma raw_groups_listed o cs c : (o, cs, c) ∈ raw_groups kinds <-> closed_group o cs c.
Proof.
  unfold raw_groups. rewrite scan_visible. fold visible. unfold closed_group. split.
  - assert (forall ps, scanned (foldl scan_step ([], []) ps) ps) as Hsc; [|apply (Hsc visible)].
    induction ps as [|p ps IH] using rev_ind; [by split; [intros ??? ?%not_elem_of_nil|]|].
    rewrite foldl_snoc. by apply scan_step_scanned.
  - intros (pre & mid & post & -> & Ho & Hm & Hc). rewrite foldl_app. destruct (foldl scan_step ([], []) pre) as [raw opened].
    cbn [foldl]. unfold scan_step at 2. rewrite Ho. simpl. rewrite foldl_app.
    destruct (Inside_scanned mid cs Hm raw o [] opened) as [more ->]. cbn [foldl]. unfold scan_step at 2. rewrite Hc. simpl.
    destruct (scan_keeps post ((raw ++ more) ++ [(o, cs, c)], opened)) as [m ->]. simpl.
    apply elem_of_app. left. apply elem_of_app. right. by left.
Qed.

(** The branch read as code: the first that holds. *)
Definition chosen (bs : list Branch) : option (nat * nat) := body <$> head (filter (fun b => branch_holds b = true) bs).

(** A raw group whose headers are whole, and what is decided of it. *)
Definition of_raw (r : nat * list nat * nat) (o c : nat) (act : option (nat * nat)) : Prop :=
  r.1.1 = o /\ r.2 = c /\ exists bs, branches kinds o r.1.2 c = Some bs /\ act = chosen bs.

Definition listed (groups : list Conditional) (o c : nat) (act : option (nat * nat)) : Prop :=
  exists g, g ∈ groups /\ open g = o /\ close g = c /\ active g = act.

Lemma decide_groups_listed raw : forall decided by_open groups,
  decide_groups kinds raw decided by_open = Some groups ->
  forall o c act, listed groups o c act <-> listed decided o c act \/ exists r, r ∈ raw /\ of_raw r o c act.
Proof.
  induction raw as [|[[start clauses] stop] raw IH]; intros decided by_open groups; simpl.
  { intros [= <-] o c act. split; [by left|]. intros [|(r & Hr & _)]; [done|]. by apply not_elem_of_nil in Hr. }
  destruct (branches kinds start clauses stop) as [bs|] eqn:Eb.
  - intros (g & Eg & Hgs)%bind_Some o c act. rewrite (IH _ _ _ Hgs). unfold decide_group in Eg. apply bind_Some in Eg as (bal & _ & [= <-]).
    split.
    + intros [(g & [Hg| ->%list_elem_of_singleton]%elem_of_app & Hf)|(r & Hr & Hf)].
      * left. by exists g.
      * right. exists (start, clauses, stop). split; [by left|]. destruct Hf as (<- & <- & <-). repeat split. by exists bs.
      * right. exists r. split; [by right|done].
    + intros [(g & Hg & Hf)|(r & [->|Hr]%elem_of_cons & Hf)].
      * left. exists g. split; [apply elem_of_app; by left|done].
      * left. destruct Hf as (<- & <- & bs' & Hbs & ->). simpl in Hbs. rewrite Eb in Hbs. injection Hbs as <-.
        eexists. split; [apply elem_of_app; right; by left|done].
      * right. by exists r.
  - intros Hgs o c act. rewrite (IH _ _ _ Hgs). split.
    + intros [|(r & Hr & Hf)]; [by left|right]. exists r. split; [by right|done].
    + intros [|(r & [->|Hr]%elem_of_cons & Hf)]; [by left| |right; by exists r].
      destruct Hf as (<- & <- & bs' & Hbs & ->). simpl in Hbs. congruence.
Qed.

Lemma conditionals_listed groups o c act :
  conditionals kinds = Some groups ->
  listed groups o c act <-> exists cs bs, closed_group o cs c /\ branches kinds o cs c = Some bs /\ act = chosen bs.
Proof.
  unfold conditionals. intros (l & El & [= <-])%bind_Some.
  assert (listed (merge_sort by_open_le l) o c act <-> listed l o c act) as ->.
  { unfold listed. by setoid_rewrite merge_sort_Permutation. }
  rewrite (decide_groups_listed _ _ _ _ El). split.
  - intros [(g & Hg & _)|([[o' cs] c'] & Hr & Ho & Hc & bs & Hbs & ->)]; [by apply not_elem_of_nil in Hg|]. simpl in *. subst.
    exists cs, bs. by rewrite <- raw_groups_listed.
  - intros (cs & bs & Hcl & Hbs & ->). right. exists (o, cs, c). split; [by apply raw_groups_listed|]. repeat split. by exists bs.
Qed.
End listed.

(** ** Conditions: the language the evaluator reads *)

(** A condition and its value when every symbol is defined.  Any word that is neither [Not] nor an
    opening paren may stand for a symbol. *)
Inductive OrExpr : list Sig -> bool -> Prop :=
| Or_one ks v : AndExpr ks v -> OrExpr ks v
| Or_more ks v ks' v' :
    OrExpr ks v -> AndExpr ks' v' -> OrExpr (ks ++ T![KwOr] :: ks') (v || v')
with AndExpr : list Sig -> bool -> Prop :=
| And_one ks v : Operand ks v -> AndExpr ks v
| And_more ks v ks' v' :
    AndExpr ks v -> Operand ks' v' -> AndExpr (ks ++ T![KwAnd] :: ks') (v && v')
with Operand : list Sig -> bool -> Prop :=
| Operand_symbol k : k <> T![KwNot] -> k <> T![LParen] -> Operand [k] true
| Operand_not ks v : Operand ks v -> Operand (T![KwNot] :: ks) (negb v)
| Operand_paren ks v : OrExpr ks v -> Operand (T![LParen] :: ks ++ [T![RParen]]) v.

Scheme OrExpr_mut := Minimality for OrExpr Sort Prop
  with AndExpr_mut := Minimality for AndExpr Sort Prop
  with Operand_mut := Minimality for Operand Sort Prop.
Combined Scheme condition_ind from OrExpr_mut, AndExpr_mut, Operand_mut.

Section conditions.
Context (kinds : list Sig) (until : nat).

(** The words [ks] stand at [at_] and all of them before [until]. *)
Definition stands (at_ : nat) (ks : list Sig) : Prop :=
  forall i k, ks !! i = Some k -> peek kinds until (at_ + i) = Some k.

Lemma stands_app at_ ks ks' :
  stands at_ (ks ++ ks') <-> stands at_ ks /\ stands (at_ + length ks) ks'.
Proof.
  split.
  - intros H. split; intros i k Hk.
    + apply H. by apply lookup_app_l_Some.
    + rewrite <- Nat.add_assoc. apply H. rewrite lookup_app_r by lia.
      by replace (length ks + i - length ks)%nat with i by lia.
  - intros [H1 H2] i k [Hk|[Hge Hk]]%lookup_app_Some; [by apply H1|].
    apply H2 in Hk. by replace (at_ + i)%nat with (at_ + length ks + (i - length ks))%nat by lia.
Qed.

Lemma stands_cons at_ k ks :
  stands at_ (k :: ks) <-> peek kinds until at_ = Some k /\ stands (S at_) ks.
Proof.
  split.
  - intros H. split; [by rewrite <- (Nat.add_0_r at_); apply (H 0%nat)|].
    intros i k' Hk. rewrite Nat.add_succ_comm. by apply (H (S i)).
  - intros [H1 H2] [|i] k' Hk; simpl in Hk; [injection Hk as <-; by rewrite Nat.add_0_r|].
    rewrite <- Nat.add_succ_comm. by apply H2.
Qed.

(** Read from the left, an expression leaves the loop of its level at its end, with its value. *)
Lemma condition_reads :
  (forall ks v, OrExpr ks v -> forall at_, stands at_ ks ->
    peek kinds until (at_ + length ks) <> Some T![KwAnd] ->
    or_rule kinds until at_ = or_more kinds until v (at_ + length ks)) /\
  (forall ks v, AndExpr ks v -> forall at_, stands at_ ks ->
    and_rule kinds until at_ = and_more kinds until v (at_ + length ks)) /\
  (forall ks v, Operand ks v -> forall at_, stands at_ ks ->
    operand_rule kinds until at_ = (v, at_ + length ks)%nat).
Proof.
  apply condition_ind.
  - intros ks v _ IH at_ Hs Hn. rewrite or_rule_eq, IH, and_more_eq by done.
    destruct (peek _ _ _) as [[[]]|]; done || congruence.
  - intros ks v ks' v' _ IH _ IH' at_ [Hs [Ho Hs']%stands_cons]%stands_app Hn.
    rewrite length_app in *. simpl in *. rewrite Nat.add_assoc, Nat.add_succ_r in *.
    rewrite IH, or_more_eq, Ho, IH', and_more_eq by (done || congruence). simpl in *.
    destruct (peek _ _ (S _)) as [[[]]|]; done || congruence.
  - intros ks v _ IH at_ Hs. by rewrite and_rule_eq, IH.
  - intros ks v ks' v' _ IH _ IH' at_ [Hs [Ho Hs']%stands_cons]%stands_app.
    rewrite length_app. simpl. rewrite IH, and_more_eq, Ho, IH' by done. f_equal. lia.
  - intros k Hnot Hparen at_ [Hk _]%stands_cons. rewrite operand_rule_eq, Hk. simpl.
    rewrite Nat.add_1_r. destruct k as [[]]; done || congruence.
  - intros ks v _ IH at_ [Hk Hs]%stands_cons. rewrite operand_rule_eq, Hk, IH by done.
    simpl. f_equal. lia.
  - intros ks v _ IH at_ [Hk [Hs [Hc _]%stands_cons]%stands_app]%stands_cons.
    rewrite operand_rule_eq, Hk, IH  by (done || congruence). rewrite or_more_eq, Hc. rewrite Hc.
    simpl. rewrite length_app. simpl. f_equal. lia.
Qed.
End conditions.

(** ** The claims *)

(** C30. The conditional groups of an input are its closed groups.  For fewer than 2^31 words the
    table is computed without an overflow; its groups are exactly the [#If]s and [#EndIf]s outside
    of removals with balanced words between them whose headers all have their [Then], each with the
    branch read as code that is the first whose condition holds; they are listed once each in the
    order of their [#If], two of them are apart or one is inside the other, and the branch lies
    strictly behind the group's [#If] and ends no later than its [#EndIf]. *)
Theorem conditionals_wellformed kinds :
  (Z.of_nat (length kinds) < 2 ^ 31)%Z ->
  exists groups, conditionals kinds = Some groups /\
    (forall o c act, (exists g, g ∈ groups /\ open g = o /\ close g = c /\ active g = act) <->
       exists cs bs, closed_group kinds o cs c /\ branches kinds o cs c = Some bs /\ act = chosen bs) /\
    StronglySorted (fun g h => open g < open h /\ laminar g h)%nat groups /\
    forall g, g ∈ groups ->
      kinds !! open g = Some T![PreIf] /\ kinds !! close g = Some T![PreEndIf] /\
      (open g < close g)%nat /\
      forall s e, active g = Some (s, e) -> (open g < s <= e)%nat /\ (e <= close g)%nat.
Proof.
  intros Hl. destruct (conditionals_fit kinds Hl) as [groups E]. exists groups. split; [done|].
  split; [intros o c act; exact (conditionals_listed kinds groups o c act E)|].
  destruct (conditionals_facts kinds groups E) as [Hok Hs]. split; [done|]. intros g Hg.
  eapply Forall_forall in Hok as (? & ? & ? & Ha); [|done]. repeat (split; [done|]).
  intros s e Ea. by rewrite Ea in Ha.
Qed.

(** A group in the branch of another; a removal with an [#EndIf] in it; an [#If] left open. *)
Definition sample_kinds : list Sig :=
  [T![PreIf]; T![Ident]; T![KwThen]; T![PreIf]; T![KwNot]; T![Ident]; T![KwThen]; T![PreElse]; T![Ident]; T![PreEndIf];
   T![PreDelete]; T![PreEndIf]; T![PreEndDelete]; T![PreEndIf]; T![PreIf]; T![Ident]].

Lemma conditionals_wellformed_witness :
  conditionals sample_kinds = Some [MkConditional 0 13 true (Some (3, 13)%nat); MkConditional 3 9 true (Some (8, 9)%nat)] /\
  (exists cs, closed_group sample_kinds 3 cs 9) /\ ~ exists c, closed_group sample_kinds 14 [] c /\ is_Some (branches sample_kinds 14 [] c).
Proof.
  assert (conditionals sample_kinds = Some [MkConditional 0 13 true (Some (3, 13)%nat); MkConditional 3 9 true (Some (8, 9)%nat)]) as E
    by (vm_compute; reflexivity).
  destruct (conditionals_wellformed sample_kinds ltac:(vm_compute; reflexivity)) as (groups & E' & Hl & _).
  rewrite E in E'. injection E' as <-. split; [exact E|]. split.
  - destruct (proj1 (Hl 3 9 (Some (8, 9)))%nat) as (cs & bs & Hc & _); [eexists; split; [right; by left|done]|].
    by exists cs.
  - intros (c & Hc & bs & Hb). destruct (proj2 (Hl 14%nat c (chosen bs))) as (g & Hg & Ho & _); [by exists [], bs|].
    apply elem_of_cons in Hg as [->|[->|[]%not_elem_of_nil]%elem_of_cons]; simpl in Ho; discriminate Ho.
Defined.

(** A preprocessor condition gets the value the language gives it when every symbol is
    defined: [Or] binds looser than [And], [Not] tighter than both, parentheses group; the words of
    the condition are all read. *)
Theorem condition_value kinds pre ks post v (Hks : OrExpr ks v) (Hin : kinds = pre ++ ks ++ post) :
  holds kinds (length pre + length ks) (length pre) = v /\
  or_rule kinds (length pre + length ks) (length pre) = (v, length pre + length ks)%nat.
Proof.
  assert (or_rule kinds (length pre + length ks) (length pre) = (v, length pre + length ks)%nat) as E.
  { assert (Hend : forall n, peek kinds n n = None) by (intros; unfold peek; by rewrite Nat.ltb_irrefl).
    destruct (condition_reads kinds (length pre + length ks)) as [Hor _].
    rewrite (Hor ks v Hks), or_more_eq, Hend; [done| |by rewrite Hend].
    intros i k Hk. unfold peek. pose proof (lookup_lt_Some _ _ _ Hk).
    destruct (Nat.ltb_spec (length pre + i) (length pre + length ks)); [|lia].
    unfold kind. rewrite Hin, lookup_app_r by lia. apply lookup_app_l_Some.
    by replace (length pre + i - length pre)%nat with i by lia. }
  by rewrite holds_rule, E.
Qed.

Lemma condition_value_witness :
  let ks := [T![KwNot]; T![Ident]; T![KwOr]; T![LParen]; T![Ident]; T![KwAnd]; T![Ident]; T![RParen]] in
  OrExpr ks true /\
  holds ([T![PreIf]] ++ ks ++ [T![KwThen]]) (1 + 8) 1 = true.
Proof.
  intros ks. assert (OrExpr ks true) as Hks.
  { apply (Or_more [T![KwNot]; T![Ident]] false [T![LParen]; T![Ident]; T![KwAnd]; T![Ident]; T![RParen]] true).
    - apply Or_one, And_one, (Operand_not _ true). by apply Operand_symbol.
    - apply And_one, (Operand_paren [T![Ident]; T![KwAnd]; T![Ident]]), Or_one.
      by apply (And_more [T![Ident]] true [T![Ident]] true); [apply And_one|]; apply Operand_symbol. }
  split; [exact Hks|].
  exact (proj1 (condition_value _ [T![PreIf]] ks [T![KwThen]] true Hks eq_refl)).
Defined.

Lemma index_by_open_spec groups at_ g :
  group_opened_at groups (index_by_open groups) at_ = Some g -> open g = at_ /\ g ∈ groups.
Proof.
  unfold group_opened_at. intros (index & Hi & Hg)%bind_Some.
  unfold index_by_open in Hi. apply elem_of_list_to_map_2 in Hi.
  rewrite elem_of_reverse in Hi. apply list_elem_of_lookup in Hi as [j Hj].
  rewrite list_lookup_imap in Hj. destruct (groups !! j) as [h|] eqn:Eh; [|done].
  injection Hj as <- <-. rewrite Hg in Eh. injection Eh as <-.
  split; [done|]. by eapply list_elem_of_lookup_2.
Qed.

Lemma conditionals_forward kinds groups at_ g :
  conditionals kinds = Some groups -> group_opened_at groups (index_by_open groups) at_ = Some g ->
  (at_ < close g)%nat /\ (forall s e, active g = Some (s, e) -> (at_ < s)%nat).
Proof.
  intros E [<- Hg]%index_by_open_spec. destruct (conditionals_facts kinds groups E) as [Hok _].
  eapply Forall_forall in Hok as (_ & _ & Hc & Ha); [|done]. split; [done|].
  intros s e Ea. rewrite Ea in Ha. lia.
Qed.

(** The scans over the input end: with the fuel the definitions give them they read all of it,
    so that any larger amount of fuel finds the same groups, gives a condition the same value and
    gives a walk over any range, the walks it starts inside torn groups included, the same answer;
    and below 2^31 words the walk over the whole input overflows nowhere. *)
Theorem torn_if_scans_end kinds groups extra at_ until w a b blocks :
  conditionals kinds = Some groups ->
  scan_groups kinds (S (length kinds) + extra) 0 [] [] = raw_groups kinds /\
  cond_or kinds until (cond_fuel until at_ + extra) at_ = or_rule kinds until at_ /\
  walk_loop kinds groups (index_by_open groups) (S (length kinds) + extra) at_ until w a b blocks =
  walk_loop kinds groups (index_by_open groups) (S (length kinds)) at_ until w a b blocks /\
  ((Z.of_nat (length kinds) < 2 ^ 31)%Z -> is_Some (whole kinds groups)).
Proof.
  intros E. split_and!.
  - unfold raw_groups. apply scan_groups_fuel; lia.
  - apply (rules_enough _ _ _ at_ true). unfold cond_fuel. lia.
  - apply walk_loop_fuel; [intros at' g; by apply (conditionals_forward kinds)|lia..].
  - intros Hl. apply walk_whole_fits; [intros at' g; by apply (conditionals_forward kinds)|done].
Qed.
