(* ===== verification/ParserCore.v ===== *)
(** ParserCore: the state of the parser and its operations (crates/parser/src/parser.rs).

    The parser never backtracks: it holds a position among the significant tokens, appends events
    and keeps a few counters.  An operation is a computation [M A] over the state; it may panic the
    way the source does (an index out of bounds, an arithmetic overflow, a failed assertion, the
    iteration guard).  Loops and recursion carry fuel computed from the tokens left, and running out
    of it is an outcome of its own, which the proofs exclude.

    The predicates the grammar hands to [within_boundary] and [set_grammar_boundary] are function
    pointers in the source; here they are names ([Boundary]) with an interpretation ([at_boundary]).
    The tables the source caches in cells (closed insertions, conditional groups, closing parens)
    are functions of the input and are computed where they are asked for. *)
From stdpp Require Import prelude sorting strings.
From S2P Require Import Prelude Case Kinds Tokens Input TornIf.

(** ** State *)

(** The predicates of grammar.rs, grammar/items.rs and grammar/statements.rs, and those of
    grammar/sdbl.rs, of which the ones that compare words carry the case mapping they compare
    with. *)
Inductive Boundary : Set :=
| preproc_at_then | at_paren_list_punctuation | at_closing_paren | at_closing_bracket
| at_item_start | at_preproc_closer
| at_end_procedure | at_end_function
| at_end_do | at_then | at_handler_comma | at_do | at_to_or_do | at_if_closer | at_try_closer
| at_comma | at_list_delimiter | clause_keyword `(CharCase) | query_boundary `(CharCase).

Record Parser : Set := MkParser {
  input : Input;
  pos : nat;
  events : list Event;
  iteration_count : Z;
  recent_positions : list nat;
  paren_depth : Z;
  brace_depth : Z;
  at_grammar_boundary : option Boundary;
  enclosing_boundaries : list Boundary;
  names_are_fields : bool;
  open_inline_inserts : Z;
  open_preproc_ifs : Z;
  crossed_preproc_ifs : list Z;
  open_torn_ifs : list (nat * nat);
}.

Definition Parser_new (tokens : list Token) : Parser :=
  MkParser (Input_new tokens) 0 [] 0 [] 0 0 None [] false 0 0 [] [].

Definition set_pos (v : nat) (p : Parser) : Parser :=
  MkParser (input p) v (events p) (iteration_count p) (recent_positions p) (paren_depth p)
    (brace_depth p) (at_grammar_boundary p) (enclosing_boundaries p) (names_are_fields p)
    (open_inline_inserts p) (open_preproc_ifs p) (crossed_preproc_ifs p) (open_torn_ifs p).

Definition set_events (v : list Event) (p : Parser) : Parser :=
  MkParser (input p) (pos p) v (iteration_count p) (recent_positions p) (paren_depth p)
    (brace_depth p) (at_grammar_boundary p) (enclosing_boundaries p) (names_are_fields p)
    (open_inline_inserts p) (open_preproc_ifs p) (crossed_preproc_ifs p) (open_torn_ifs p).

Definition set_guard (count : Z) (recent : list nat) (p : Parser) : Parser :=
  MkParser (input p) (pos p) (events p) count recent (paren_depth p)
    (brace_depth p) (at_grammar_boundary p) (enclosing_boundaries p) (names_are_fields p)
    (open_inline_inserts p) (open_preproc_ifs p) (crossed_preproc_ifs p) (open_torn_ifs p).

Definition set_depths (parens braces : Z) (p : Parser) : Parser :=
  MkParser (input p) (pos p) (events p) (iteration_count p) (recent_positions p) parens
    braces (at_grammar_boundary p) (enclosing_boundaries p) (names_are_fields p)
    (open_inline_inserts p) (open_preproc_ifs p) (crossed_preproc_ifs p) (open_torn_ifs p).

Definition set_boundary (v : option Boundary) (p : Parser) : Parser :=
  MkParser (input p) (pos p) (events p) (iteration_count p) (recent_positions p) (paren_depth p)
    (brace_depth p) v (enclosing_boundaries p) (names_are_fields p)
    (open_inline_inserts p) (open_preproc_ifs p) (crossed_preproc_ifs p) (open_torn_ifs p).

Definition set_boundaries (v : list Boundary) (p : Parser) : Parser :=
  MkParser (input p) (pos p) (events p) (iteration_count p) (recent_positions p) (paren_depth p)
    (brace_depth p) (at_grammar_boundary p) v (names_are_fields p)
    (open_inline_inserts p) (open_preproc_ifs p) (crossed_preproc_ifs p) (open_torn_ifs p).

Definition set_names_are_fields (v : bool) (p : Parser) : Parser :=
  MkParser (input p) (pos p) (events p) (iteration_count p) (recent_positions p) (paren_depth p)
    (brace_depth p) (at_grammar_boundary p) (enclosing_boundaries p) v
    (open_inline_inserts p) (open_preproc_ifs p) (crossed_preproc_ifs p) (open_torn_ifs p).

Definition set_open_inline_inserts (v : Z) (p : Parser) : Parser :=
  MkParser (input p) (pos p) (events p) (iteration_count p) (recent_positions p) (paren_depth p)
    (brace_depth p) (at_grammar_boundary p) (enclosing_boundaries p) (names_are_fields p)
    v (open_preproc_ifs p) (crossed_preproc_ifs p) (open_torn_ifs p).

Definition set_open_preproc_ifs (v : Z) (p : Parser) : Parser :=
  MkParser (input p) (pos p) (events p) (iteration_count p) (recent_positions p) (paren_depth p)
    (brace_depth p) (at_grammar_boundary p) (enclosing_boundaries p) (names_are_fields p)
    (open_inline_inserts p) v (crossed_preproc_ifs p) (open_torn_ifs p).

Definition set_crossed_preproc_ifs (v : list Z) (p : Parser) : Parser :=
  MkParser (input p) (pos p) (events p) (iteration_count p) (recent_positions p) (paren_depth p)
    (brace_depth p) (at_grammar_boundary p) (enclosing_boundaries p) (names_are_fields p)
    (open_inline_inserts p) (open_preproc_ifs p) v (open_torn_ifs p).

Definition set_open_torn_ifs (v : list (nat * nat)) (p : Parser) : Parser :=
  MkParser (input p) (pos p) (events p) (iteration_count p) (recent_positions p) (paren_depth p)
    (brace_depth p) (at_grammar_boundary p) (enclosing_boundaries p) (names_are_fields p)
    (open_inline_inserts p) (open_preproc_ifs p) (crossed_preproc_ifs p) v.

(** ** Computations *)

Inductive PanicReason : Set :=
| IterationLimit | IndexOutOfBounds | ArithmeticOverflow | AssertionFailed.

Inductive Outcome (A : Type) : Type :=
| Ok (a : A) (p : Parser)
| Panic (reason : PanicReason)
| OutOfFuel.
Arguments Ok {A} a p.
Arguments Panic {A} reason.
Arguments OutOfFuel {A}.

Definition M (A : Type) : Type := Parser -> Outcome A.

#[export] Instance M_ret : MRet M := fun A a p => Ok a p.

#[export] Instance M_bind : MBind M := fun A B k m p =>
  match m p with
  | Ok a p => k a p
  | Panic reason => Panic reason
  | OutOfFuel => OutOfFuel
  end.

Definition gets {A} (f : Parser -> A) : M A := fun p => Ok (f p) p.
Definition modify (f : Parser -> Parser) : M unit := fun p => Ok tt (f p).

(** A question whose answer takes counting; [None] is the overflow of a counter. *)
Definition ask {A} (f : Parser -> option A) : M A := fun p =>
  match f p with Some a => Ok a p | None => Panic ArithmeticOverflow end.
Definition panic {A} (reason : PanicReason) : M A := fun _ => Panic reason.
Definition skip : M unit := mret tt.

Definition when (b : bool) (m : M unit) : M unit := if b then m else skip.

(** [a.checked_add(b)] on [u32] in a build that checks for overflow. *)
Definition u32_add (a b : Z) : M Z :=
  if (a + b <? 2 ^ 32)%Z then mret (a + b)%Z else panic ArithmeticOverflow.

(** [u32::saturating_sub]. *)
Definition saturating_sub (a b : Z) : Z := Z.max 0 (a - b).

Definition remaining (p : Parser) : nat := (input_len (input p) - pos p)%nat.

(** A loop whose body either goes on ([inl]) or breaks with a result ([inr]). *)
Fixpoint loop_fuel {A B} (fuel : nat) (body : A -> M (A + B)) (a : A) : M B :=
  match fuel with
  | O => fun _ => OutOfFuel
  | S fuel =>
      r ← body a;
      match r with
      | inl a => loop_fuel fuel body a
      | inr b => mret b
      end
  end.

(** Every turn of a loop of the parser that goes on consumes a token, so the tokens left bound the
    turns. *)
Definition loop {A B} (body : A -> M (A + B)) (a : A) : M B :=
  fun p => loop_fuel (S (remaining p)) body a p.

Definition continue_ {A B} (a : A) : M (A + B) := mret (inl a).
Definition break_ {A B} (b : B) : M (A + B) := mret (inr b).

(** [while cond { body }] *)
Definition while_ (cond : Parser -> bool) (body : M unit) : M unit :=
  loop (fun _ : unit =>
    go ← gets cond;
    if (go : bool) then body;; continue_ tt else break_ tt) tt.

(** The same, where the condition may overflow a counter. *)
Definition while_ask (cond : Parser -> option bool) (body : M unit) : M unit :=
  loop (fun _ : unit =>
    go ← ask cond;
    if (go : bool) then body;; continue_ tt else break_ tt) tt.

(** A recursive rule consumes a token before it calls itself, so the tokens left bound the depth.
    [K] is what a group of mutually recursive rules offers to its bodies. *)
Definition rec_ {K A} (bot : K) (F : K -> K) (entry : K -> M A) : M A :=
  fun p => entry (Nat.iter (S (remaining p)) F bot) p.

Definition out_of_fuel {A} : M A := fun _ => OutOfFuel.

(** ** Reading the input *)

Definition nth (n : nat) (p : Parser) : option Sig := input_kind (input p) (pos p + n).

Definition current (p : Parser) : option Sig := nth 0 p.

Definition at_ (kind : Sig) (p : Parser) : bool := bool_decide (current p = Some kind).

Definition token_pos (p : Parser) : nat := pos p.

Definition at_ts (set : TokenSet.t) (p : Parser) : bool :=
  match current p with Some k => TokenSet.contains set k | None => false end.

Definition current_text (p : Parser) : text := input_text (input p) (pos p).

Definition at_end (p : Parser) : bool := (input_len (input p) <=? pos p)%nat.

Definition prev_significant (p : Parser) : option Sig :=
  match pos p with O => None | S prev => input_kind (input p) prev end.

Definition parser_line_break_precedes (p : Parser) : bool :=
  a_line_break_precedes (input p) (pos p).

Definition parser_gap_precedes (p : Parser) : bool := a_gap_precedes (input p) (pos p).

Definition at_error (p : Parser) : bool := at_ T![Error] p.

Definition at_current_keyword (p : Parser) : bool :=
  match current p with Some k => sig_is_keyword k | None => false end.

Definition at_keyword `{CharCase} (word : String.string) (p : Parser) : bool :=
  match input_token (input p) (pos p) with
  | Some t => bool_decide (tok_kind t = Ident) && eq_ignore_case (tok_text t) (chars word)
  | None => false
  end.

Definition at_declaration_start (p : Parser) : bool :=
  match current p with
  | Some T![KwFunction] | Some T![KwProcedure] => bool_decide (nth 1 p = Some T![Ident])
  | _ => false
  end.

(** ** Consuming tokens *)

Definition track_group (kind : TokenKind) : M unit := fun p =>
  match kind with
  | Semicolon => Ok tt (set_depths 0 0 p)
  | LBrace =>
      (d ← u32_add (brace_depth p) 1; modify (fun p => set_depths (paren_depth p) d p)) p
  | RBrace => Ok tt (set_depths (paren_depth p) (saturating_sub (brace_depth p) 1) p)
  | LParen =>
      if (brace_depth p =? 0)%Z
      then (d ← u32_add (paren_depth p) 1; modify (fun p => set_depths d (brace_depth p) p)) p
      else Ok tt p
  | RParen =>
      if (brace_depth p =? 0)%Z
      then Ok tt (set_depths (saturating_sub (paren_depth p) 1) (brace_depth p) p)
      else Ok tt p
  | _ => Ok tt p
  end.

Definition push_event (e : Event) : M unit := modify (fun p => set_events (events p ++ [e]) p).

Definition advance : M unit := modify (fun p => set_pos (S (pos p)) p).

Definition bump : M unit :=
  current ← gets current;
  match current with
  | None => skip
  | Some kind =>
      track_group (sig_kind kind);;
      push_event (EToken (sig_kind kind));;
      advance
  end.

Definition bump_removed : M unit :=
  current ← gets current;
  match current with
  | None => skip
  | Some kind => push_event (EToken (sig_kind kind));; advance
  end.

Definition eat (kind : Sig) : M bool :=
  here ← gets (at_ kind);
  if (here : bool) then bump;; mret true else mret false.

Definition eat_keyword `{CharCase} (word : String.string) : M bool :=
  here ← gets (at_keyword word);
  if (here : bool) then bump;; mret true else mret false.

Definition reset_group_tracking : M unit := modify (set_depths 0 0).

Definition open_group_count (p : Parser) : Z := (paren_depth p + brace_depth p)%Z.

(** ** The iteration guard *)

Definition MAX_ITERATIONS : Z := 1000000.
Definition POSITION_HISTORY_SIZE : nat := 100.

Definition remember_position (recent : list nat) (pos : nat) : list nat :=
  (if (POSITION_HISTORY_SIZE <=? length recent)%nat then tail recent else recent) ++ [pos].

Definition check_iteration_limit : M unit := fun p =>
  let count := (iteration_count p + 1)%Z in
  let recent := remember_position (recent_positions p) (pos p) in
  if (count <? MAX_ITERATIONS)%Z then Ok tt (set_guard count recent p)
  else if (length (remove_dups recent) <? 5)%nat then Panic IterationLimit
  else Ok tt (set_guard 0 recent p).

(** ** Markers *)

Record Marker : Set := MkMarker { m_pos : nat; m_start_token_pos : nat }.
Record CompletedMarker : Set := MkCompleted { c_pos : nat; c_start_token_pos : nat }.

Definition start : M Marker := fun p =>
  Ok (MkMarker (length (events p)) (raw_at (input p) (pos p)))
     (set_events (events p ++ [Placeholder]) p).

(** [events[m.pos] = Start; events.push(Finish)]. *)
Definition complete (m : Marker) (kind : NK.NodeKind) : M CompletedMarker := fun p =>
  if (m_pos m <? length (events p))%nat
  then Ok (MkCompleted (m_pos m) (m_start_token_pos m))
          (set_events (<[m_pos m := Start kind None]> (events p) ++ [Finish]) p)
  else Panic IndexOutOfBounds.

(** Removes the marker when nothing has followed it. *)
Definition abandon (m : Marker) : M unit := fun p =>
  if (length (events p) =? 0)%nat then Panic ArithmeticOverflow
  else if (m_pos m =? length (events p) - 1)%nat
  then match last (events p) with
       | Some Placeholder => Ok tt (set_events (removelast (events p)) p)
       | _ => Ok tt p
       end
  else Ok tt p.

(** Opens a node around a completed one: the completed node's start event points forward to it. *)
Definition precede (c : CompletedMarker) : M Marker := fun p =>
  let new_pos := length (events p) in
  let es := events p ++ [Placeholder] in
  match es !! c_pos c with
  | Some (Start kind _) =>
      Ok (MkMarker new_pos (c_start_token_pos c))
         (set_events (<[c_pos c := Start kind (Some (new_pos - c_pos c)%nat)]> es) p)
  | Some _ => Ok (MkMarker new_pos (c_start_token_pos c)) (set_events es p)
  | None => Panic IndexOutOfBounds
  end.

(** The result of the marker is not used. *)
Definition complete_ (m : Marker) (kind : NK.NodeKind) : M unit := complete m kind;; skip.

(** ** Extension markers and crossed conditionals *)

Definition bump_inline_insert_marker : M unit :=
  here ← gets current;
  match here with
  | Some T![PreInsert] =>
      opened ← gets open_inline_inserts;
      n ← u32_add opened 1;
      modify (set_open_inline_inserts n);; bump
  | Some T![PreEndInsert] =>
      modify (fun p => set_open_inline_inserts (saturating_sub (open_inline_inserts p) 1) p);; bump
  | _ => skip
  end.

Definition inline_insert_open (p : Parser) : bool := (0 <? open_inline_inserts p)%Z.

Definition forget_inline_inserts : M unit := modify (set_open_inline_inserts 0).

Definition take_crossed_preproc_ifs : M (list Z) := fun p =>
  Ok (crossed_preproc_ifs p) (set_crossed_preproc_ifs [] p).

Definition restore_crossed_preproc_ifs (outer : list Z) : M unit :=
  modify (set_crossed_preproc_ifs outer).

Definition enter_preproc_if : M unit :=
  opened ← gets open_preproc_ifs;
  n ← u32_add opened 1;
  modify (set_open_preproc_ifs n).

Definition leave_preproc_if : M unit :=
  modify (fun p => set_open_preproc_ifs (saturating_sub (open_preproc_ifs p) 1) p).

Definition cross_preproc_if : M unit :=
  modify (fun p => set_crossed_preproc_ifs (crossed_preproc_ifs p ++ [open_preproc_ifs p]) p).

Definition at_preproc_if_directive (p : Parser) : bool :=
  match current p with
  | Some T![PreElsIf] | Some T![PreElse] | Some T![PreEndIf] => true
  | _ => false
  end.

Definition at_crossed_preproc_if_directive (p : Parser) : bool :=
  at_preproc_if_directive p &&
  bool_decide (last (crossed_preproc_ifs p) = Some (open_preproc_ifs p)).

Definition bump_crossed_preproc_if_end : M unit :=
  here ← gets (fun p => at_ T![PreEndIf] p && at_crossed_preproc_if_directive p);
  when here
    (modify (fun p => set_crossed_preproc_ifs (removelast (crossed_preproc_ifs p)) p);; bump).

(** The insertions that are closed before their method ends. *)
Fixpoint match_inserts_loop (kinds : list Sig) (fuel pos : nat) (open closed : list nat) : list nat :=
  match fuel with
  | O => closed
  | S fuel =>
      match kinds !! pos with
      | None => closed
      | Some T![PreInsert] => match_inserts_loop kinds fuel (S pos) (pos :: open) closed
      | Some T![PreEndInsert] =>
          match open with
          | o :: open => match_inserts_loop kinds fuel (S pos) open (closed ++ [o])
          | [] => match_inserts_loop kinds fuel (S pos) [] closed
          end
      | Some T![PreDelete] =>
          match_inserts_loop kinds fuel (S (end_of_removed kinds (length kinds) pos)) open closed
      | Some T![KwEndProcedure] | Some T![KwEndFunction] =>
          match_inserts_loop kinds fuel (S pos) [] closed
      | Some _ => match_inserts_loop kinds fuel (S pos) open closed
      end
  end.

Definition match_inserts (kinds : list Sig) : list nat :=
  merge_sort le (match_inserts_loop kinds (S (length kinds)) 0 [] []).

Definition insert_here_is_closed (p : Parser) : bool :=
  match binary_search_by_key (pos p) id (match_inserts (kinds (input p))) with
  | Some _ => true
  | None => false
  end.

(** ** Closing parens ahead *)

(** The depth and the brace count after a token, as the table counts them. *)
Definition paren_step (k : Sig) (depth braces : Z) : option (Z * Z) :=
  match k with
  | T![Semicolon] => Some (0, 0)%Z
  | T![LBrace] => braces ← u32_sum braces 1; Some (depth, braces)
  | T![RBrace] => Some (depth, saturating_sub braces 1)
  | T![LParen] =>
      if (braces =? 0)%Z then depth ← i32_sum depth 1; Some (depth, braces) else Some (depth, braces)
  | T![RParen] =>
      if (braces =? 0)%Z then depth ← i32_sum depth (-1); Some (depth, braces) else Some (depth, braces)
  | _ => Some (depth, braces)
  end.

(** Per token: the depth before it, the depth after it, and whether it stands outside braces. *)
Fixpoint paren_depths (ks : list Sig) (depth braces : Z) : option (list (Sig * (Z * Z * bool))) :=
  match ks with
  | [] => Some []
  | k :: ks =>
      '(depth', braces') ← paren_step k depth braces;
      rest ← paren_depths ks depth' braces';
      Some ((k, (depth, depth', (braces =? 0)%Z)) :: rest)
  end.

Definition I32_MAX : Z := 2147483647.

(** From the last token to the first, with the lowest depth ahead in the statement. *)
Fixpoint lowest_ahead (ds : list (Sig * (Z * Z * bool))) : list (option bool) * Z :=
  match ds with
  | [] => ([], I32_MAX)
  | (k, (before, after, outside)) :: ds =>
      let '(closers, lowest) := lowest_ahead ds in
      let lowest := if decide (k = T![Semicolon]) then I32_MAX else Z.min lowest after in
      ((if (outside : bool) then Some (lowest <? before)%Z else None) :: closers, lowest)
  end.

Definition match_closers (kinds : list Sig) : option (list (option bool)) :=
  ds ← paren_depths kinds 0 0; Some (lowest_ahead ds).1.

Fixpoint scan_for_closing_paren (ks : list Sig) (parens braces : Z) : option bool :=
  match ks with
  | [] => Some false
  | T![Semicolon] :: _ => Some false
  | T![LBrace] :: ks => braces ← u32_sum braces 1; scan_for_closing_paren ks parens braces
  | T![RBrace] :: ks => scan_for_closing_paren ks parens (saturating_sub braces 1)
  | T![LParen] :: ks =>
      if (braces =? 0)%Z then parens ← u32_sum parens 1; scan_for_closing_paren ks parens braces
      else scan_for_closing_paren ks parens braces
  | T![RParen] :: ks =>
      if (braces =? 0)%Z
      then if (parens =? 0)%Z then Some true else scan_for_closing_paren ks (parens - 1) braces
      else scan_for_closing_paren ks parens braces
  | _ :: ks => scan_for_closing_paren ks parens braces
  end.

Definition closing_paren_ahead (p : Parser) : option bool :=
  closers ← match_closers (kinds (input p));
  match closers !! pos p with
  | Some (Some ahead) => Some ahead
  | Some None => scan_for_closing_paren (drop (pos p) (kinds (input p))) 0 0
  | None => Some false
  end.

(** ** Torn conditional groups *)

Definition parser_conditionals (p : Parser) : option (list Conditional) := conditionals (kinds (input p)).

Definition conditional_at (at_ : nat) (p : Parser) : option (option Conditional) :=
  groups ← parser_conditionals p;
  Some (index ← binary_search_by_key at_ open groups; groups !! index).

Definition is_whole (p : Parser) : option bool :=
  groups ← parser_conditionals p; whole (kinds (input p)) groups.

Definition at_torn_if_statement (p : Parser) : option bool :=
  if at_ T![PreIf] p then
    group ← conditional_at (pos p) p;
    Some (match group with Some group => negb (balanced group) | None => false end)
  else Some false.

Definition at_torn_if_inline (p : Parser) : option bool :=
  if at_ T![PreIf] p then
    group ← conditional_at (pos p) p;
    Some (match group with Some _ => true | None => false end)
  else Some false.

(** The entry of a branch that ends at [at_], the oldest first. *)
Definition find_torn_end (at_ : nat) (l : list (nat * nat)) : option (nat * (nat * nat)) :=
  list_find (fun e => e.1 = at_) l.

Definition at_torn_if_end (p : Parser) : bool :=
  at_preproc_if_directive p && bool_decide (is_Some (find_torn_end (pos p) (open_torn_ifs p))).

Definition torn_if_here (p : Parser) : option (option Conditional) :=
  if at_ T![PreIf] p then conditional_at (pos p) p else Some None.

Definition open_torn_if (end_ close : nat) : M unit :=
  modify (fun p => set_open_torn_ifs (open_torn_ifs p ++ [(end_, close)]) p).

Definition close_torn_if : M (option nat) := fun p =>
  match find_torn_end (pos p) (open_torn_ifs p) with
  | Some (index, (_, close)) =>
      Ok (Some close) (set_open_torn_ifs (delete index (open_torn_ifs p)) p)
  | None => Ok None p
  end.

(** Where a look-ahead resumes past the torn-group part [n] tokens ahead, and the branches the
    look-ahead has entered. *)
Definition torn_if_skip (n : nat) (pending : list (nat * nat)) (p : Parser)
    : option (option nat * list (nat * nat)) :=
  let at_ := (pos p + n)%nat in
  match input_kind (input p) at_ with
  | Some T![PreIf] =>
      group ← conditional_at at_ p;
      match group with
      | None => Some (None, pending)
      | Some group =>
          match active group with
          | Some (start, end_) => Some (Some (start - pos p)%nat, pending ++ [(end_, close group)])
          | None => Some (Some (close group + 1 - pos p)%nat, pending)
          end
      end
  | Some T![PreElsIf] | Some T![PreElse] | Some T![PreEndIf] =>
      Some ((fun e : nat * (nat * nat) => e.2.2 + 1 - pos p)%nat <$>
              find_torn_end at_ (open_torn_ifs p ++ pending), pending)
  | _ => Some (None, pending)
  end.

Definition bump_removed_until (next : nat) : M unit :=
  while_ (fun p => (pos p <? next)%nat && negb (at_end p))
    (check_iteration_limit;; bump_removed).

(** ** Boundaries *)

(** *** The words of the query language that are boundaries

    Every keyword of that language reaches the parser as an identifier and is told from a name by
    its text. *)
Definition at_sdbl_keyword `{CharCase} (en ru : String.string) (p : Parser) : bool :=
  at_keyword en p || at_keyword ru p.

Definition is_join_keyword `{CharCase} (p : Parser) : bool :=
  at_keyword "LEFT" p || at_keyword "ЛЕВОЕ" p ||
  at_keyword "RIGHT" p || at_keyword "ПРАВОЕ" p ||
  at_keyword "FULL" p || at_keyword "ПОЛНОЕ" p ||
  at_keyword "INNER" p || at_keyword "ВНУТРЕННЕЕ" p ||
  at_keyword "JOIN" p || at_keyword "СОЕДИНЕНИЕ" p.

Definition is_clause_keyword `{CharCase} (p : Parser) : bool :=
  at_sdbl_keyword "SELECT" "ВЫБРАТЬ" p ||
  at_sdbl_keyword "FROM" "ИЗ" p ||
  at_sdbl_keyword "WHERE" "ГДЕ" p ||
  at_sdbl_keyword "GROUP" "СГРУППИРОВАТЬ" p ||
  at_sdbl_keyword "HAVING" "ИМЕЮЩИЕ" p ||
  at_sdbl_keyword "ORDER" "УПОРЯДОЧИТЬ" p ||
  at_sdbl_keyword "UNION" "ОБЪЕДИНИТЬ" p ||
  at_sdbl_keyword "INTO" "ПОМЕСТИТЬ" p ||
  at_sdbl_keyword "ON" "ПО" p ||
  at_sdbl_keyword "FOR" "ДЛЯ" p ||
  at_sdbl_keyword "INDEX" "ИНДЕКСИРОВАТЬ" p ||
  at_sdbl_keyword "AUTOORDER" "АВТОУПОРЯДОЧИВАНИЕ" p ||
  at_sdbl_keyword "TOTALS" "ИТОГИ" p ||
  is_join_keyword p.

Definition at_query_start `{CharCase} (p : Parser) : bool :=
  at_sdbl_keyword "SELECT" "ВЫБРАТЬ" p || at_sdbl_keyword "DROP" "УНИЧТОЖИТЬ" p.

Definition at_query_boundary `{CharCase} (p : Parser) : bool := at_query_start p.

(** *** The predicates *)

Definition at_boundary (b : Boundary) (p : Parser) : bool :=
  match b with
  | preproc_at_then | at_then => at_ T![KwThen] p
  | at_paren_list_punctuation =>
      match current p with Some T![RParen] | Some T![Comma] => true | _ => false end
  | at_closing_paren => at_ T![RParen] p
  | at_closing_bracket => at_ T![RBracket] p
  | at_item_start =>
      match current p with
      | Some T![KwProcedure] | Some T![KwFunction] | Some T![KwVar] | Some T![KwAsync]
      | Some T![AnnAtClient] | Some T![AnnAtServer] | Some T![AnnAtServerNoContext]
      | Some T![AnnAtClientAtServer] | Some T![AnnAtClientAtServerNoContext]
      | Some T![AnnBefore] | Some T![AnnAfter] | Some T![AnnAround]
      | Some T![AnnChangeAndValidate] | Some T![AnnCustom]
      | Some T![PreRegion] | Some T![PreEndRegion] => true
      | _ => false
      end
  | at_preproc_closer =>
      at_preproc_if_directive p && negb (at_crossed_preproc_if_directive p) &&
      negb (at_torn_if_end p)
  | at_end_procedure => at_ T![KwEndProcedure] p
  | at_end_function => at_ T![KwEndFunction] p
  | at_end_do => at_ T![KwEndDo] p
  | at_handler_comma => at_ T![Comma] p
  | at_do => at_ T![KwDo] p
  | at_to_or_do => match current p with Some T![KwTo] | Some T![KwDo] => true | _ => false end
  | at_if_closer =>
      match current p with
      | Some T![KwElsIf] | Some T![KwElse] | Some T![KwEndIf] => true
      | _ => false
      end
  | at_try_closer =>
      match current p with Some T![KwExcept] | Some T![KwEndTry] => true | _ => false end
  | at_comma => at_ T![Comma] p
  | at_list_delimiter => at_ T![Comma] p || at_ T![RParen] p
  | clause_keyword words => @is_clause_keyword words p
  | query_boundary words => @at_query_boundary words p
  end.

Definition set_grammar_boundary (b : Boundary) : M unit := modify (set_boundary (Some b)).

(** [Vec::push], the closure, [Vec::pop]. *)
Definition within_boundary {A} (b : Boundary) (f : M A) : M A :=
  modify (fun p => set_boundaries (enclosing_boundaries p ++ [b]) p);;
  result ← f;
  modify (fun p => set_boundaries (removelast (enclosing_boundaries p)) p);;
  mret result.

Definition within_field_names {A} (f : M A) : M A :=
  outer ← gets names_are_fields;
  modify (set_names_are_fields true);;
  result ← f;
  modify (set_names_are_fields outer);;
  mret result.

Definition outside_field_names {A} (f : M A) : M A :=
  outer ← gets names_are_fields;
  modify (set_names_are_fields false);;
  result ← f;
  modify (set_names_are_fields outer);;
  mret result.

Definition at_enclosing_boundary (p : Parser) : bool :=
  existsb (fun b => at_boundary b p) (enclosing_boundaries p).

Definition at_declared_boundary (p : Parser) : bool :=
  match at_grammar_boundary p with Some b => at_boundary b p | None => false end.

Definition at_statement_separator (p : Parser) : bool :=
  at_ T![Semicolon] p || at_ T![PreIf] p || at_declared_boundary p || at_enclosing_boundary p ||
  at_torn_if_end p.

(** ** Errors *)

Definition emit_error (err : ParseError) : M unit :=
  m ← start;
  end_ ← gets at_end;
  when (negb end_) bump;;
  push_event (EError err);;
  complete_ m NK.Error.

Definition emit_missing (err : ParseError) : M unit :=
  m ← start;
  push_event (EError err);;
  complete_ m NK.Error.

Definition emit_error_at_marker (m : Marker) (err : ParseError) : M unit :=
  push_event (ErrorWithSpan (m_start_token_pos m) err);;
  complete_ m NK.Error.

(** The kind of recovery an error at the current token calls for. *)
Definition recovery_here (p : Parser) : RecoveryKind :=
  if bool_decide (current p = None) || at_statement_separator p then MissingToken else BumpToken.

Definition emit (err : ParseError) : M unit :=
  match recovery err with MissingToken => emit_missing err | _ => emit_error err end.

Definition found (p : Parser) : option TokenKind := sig_kind <$> current p.

Definition expect (kind : Sig) : M bool :=
  declared ← gets at_declared_boundary;
  taken ← (if (declared : bool) then mret false else eat kind);
  if (taken : bool) then mret true
  else
    err ← gets (fun p => Expected [sig_kind kind] (found p) (recovery_here p));
    emit err;;
    mret false.

Definition expect_no_bump (kind : Sig) : M bool :=
  declared ← gets at_declared_boundary;
  taken ← (if (declared : bool) then mret false else eat kind);
  if (taken : bool) then mret true
  else
    err ← gets (fun p => Expected [sig_kind kind] (found p) MissingToken);
    emit_missing err;;
    mret false.

(** The answer of [expect] is not used. *)
Definition expect_ (kind : Sig) : M unit := expect kind;; skip.

Definition eat_ (kind : Sig) : M unit := eat kind;; skip.

Definition error : M unit :=
  err ← gets (fun p => Unexpected (found p) (recovery_here p));
  emit err.

Definition error_unexpected : M unit := error.

Definition error_custom (msg : String.string) : M unit :=
  err ← gets (fun p => Custom msg (recovery_here p));
  emit err.

Definition error_custom_no_bump (msg : String.string) : M unit :=
  emit_missing (Custom msg MissingToken).

Definition error_expected (kind : Sig) : M unit :=
  m ← start;
  here ← gets found;
  emit_error_at_marker m (Expected [sig_kind kind] here RecoverySpan).

Definition error_custom_at_marker (m : Marker) (message : String.string) : M unit :=
  emit_error_at_marker m (Custom message RecoverySpan).

Definition error_checkpoint (p : Parser) : nat := length (events p).

Definition is_error_event (e : Event) : bool :=
  match e with EError _ | ErrorWithSpan _ _ => true | _ => false end.

Definition has_error_since (checkpoint : nat) : M bool := fun p =>
  if (checkpoint <=? length (events p))%nat
  then Ok (existsb is_error_event (drop checkpoint (events p))) p
  else Panic IndexOutOfBounds.

(** ** Misspelt closers *)

Definition closer_spellings (kind : TokenKind) : list text :=
  match kind with
  | KwEndIf => [chars "КонецЕсли"; chars "EndIf"]
  | KwEndDo => [chars "КонецЦикла"; chars "EndDo"]
  | KwEndTry => [chars "КонецПопытки"; chars "EndTry"]
  | KwExcept => [chars "Исключение"; chars "Except"]
  | KwEndProcedure => [chars "КонецПроцедуры"; chars "EndProcedure"]
  | KwEndFunction => [chars "КонецФункции"; chars "EndFunction"]
  | KwElse => [chars "Иначе"; chars "Else"]
  | KwElsIf => [chars "ИначеЕсли"; chars "ElsIf"]
  | _ => []
  end.

(** The cell of row [i], column [j] of the distance table, both at least 1; [None] is an index out of
    range. *)
Definition distance_cell (a b : text) (i j : nat) (prev_prev prev current : list nat) : option nat :=
  x ← a !! (i - 1)%nat;
  y ← b !! (j - 1)%nat;
  let substitution := if decide (x = y) then 0%nat else 1%nat in
  above ← prev !! j;
  left ← current !! (j - 1)%nat;
  diagonal ← prev !! (j - 1)%nat;
  let cell := (((above + 1) `min` (left + 1)) `min` (diagonal + substitution))%nat in
  if (1 <? i)%nat && (1 <? j)%nat then
    y' ← b !! (j - 2)%nat;
    if decide (x = y') then
      x' ← a !! (i - 2)%nat;
      if decide (x' = y) then swapped ← prev_prev !! (j - 2)%nat; Some (cell `min` (swapped + 1))%nat
      else Some cell
    else Some cell
  else Some cell.

(** [for j in 1..=b.len()]: the cells of the row so far are [current]. *)
Fixpoint distance_row (a b : text) (i : nat) (prev_prev prev current : list nat) (js : list nat)
    : option (list nat) :=
  match js with
  | [] => Some current
  | j :: js =>
      cell ← distance_cell a b i j prev_prev prev current;
      distance_row a b i prev_prev prev (current ++ [cell]) js
  end.

(** [for i in 1..=a.len()]. *)
Fixpoint distance_rows (a b : text) (prev_prev prev : list nat) (rows : list nat) : option (list nat) :=
  match rows with
  | [] => Some prev
  | i :: rows =>
      row ← distance_row a b i prev_prev prev [i] (seq 1 (length b));
      distance_rows a b prev row rows
  end.

Definition edit_distance_within (a b : text) (max : nat) : option bool :=
  if (max <? (length a - length b) + (length b - length a))%nat then Some false
  else
    row ← distance_rows a b [] (seq 0 (S (length b))) (seq 1 (length a));
    distance ← row !! length b;
    Some (distance <=? max)%nat.

(** The table's indices are all in range ([EditDistance]), so the answer is there. *)
Definition PREFIX : nat := 3.
Definition MAX_EDITS : nat := 2.

Definition is_typo_of `{CharCase} (text spelling : text) : bool :=
  let text := text ≫= to_lowercase in
  let spelling := spelling ≫= to_lowercase in
  if decide (text = spelling) then false
  else if (length text <? PREFIX)%nat || (length spelling <? PREFIX)%nat ||
          negb (bool_decide (take PREFIX text = take PREFIX spelling))
  then false
  else bool_decide (edit_distance_within text spelling MAX_EDITS = Some true).

Definition resembles_closer `{CharCase} (pos : nat) (closer : Sig) (p : Parser) : bool :=
  let text := input_text (input p) pos in
  existsb (fun spelling => is_typo_of text spelling) (closer_spellings (sig_kind closer)).
