(* ===== verification/Events.v ===== *)
(** Events: well-formed event streams.

    A finished parse is a forest of nodes written in the order of the events, where a node that was
    opened around an earlier one ([CompletedMarker::precede]) starts behind it and is pointed at by
    the earlier node's [forward_parent].  The file states that shape and what the markers of a rule
    still running mean inside it. *)
From stdpp Require Import prelude.
From S2P Require Import Prelude Kinds Tokens Input TornIf ParserCore.

(** ** Forests of events *)

(** A [Chain] is one node seen from its first event: either a plain node, or a node whose start
    points forward, over its own events and what followed it, to the start of its parent. *)
Inductive Forest : list Event -> Prop :=
| Forest_nil : Forest []
| Forest_token kind es : Forest es -> Forest (EToken kind :: es)
| Forest_placeholder es : Forest es -> Forest (Placeholder :: es)
| Forest_error err es : Forest es -> Forest (EError err :: es)
| Forest_span start err es : Forest es -> Forest (ErrorWithSpan start err :: es)
| Forest_chain c es : Chain c -> Forest es -> Forest (c ++ es)
with Chain : list Event -> Prop :=
| Chain_node kind body : Forest body -> Chain (Start kind None :: body ++ [Finish])
| Chain_forward kind body between parent :
    Forest body -> Forest between -> Chain parent ->
    Chain (Start kind (Some (length body + length between + 2)%nat) ::
           body ++ Finish :: between ++ parent).

Scheme Forest_mut := Minimality for Forest Sort Prop
  with Chain_mut := Minimality for Chain Sort Prop.
Combined Scheme Forest_Chain_ind from Forest_mut, Chain_mut.

Lemma Forest_app es1 es2 : Forest es1 -> Forest es2 -> Forest (es1 ++ es2).
Proof.
  intros H1 H2. induction H1; simpl; try (by constructor); [done|].
  rewrite <- app_assoc. by constructor.
Qed.

Lemma Forest_of_chain c : Chain c -> Forest c.
Proof. intros H. rewrite <- (app_nil_r c). by repeat constructor. Qed.

Lemma Forest_node kind body : Forest body -> Forest (Start kind None :: body ++ [Finish]).
Proof. intros H. by apply Forest_of_chain, Chain_node. Qed.

Create HintDb events.
#[export] Hint Constructors Forest : events.
#[export] Hint Resolve Forest_app Forest_of_chain Forest_node Chain_node : events.

(** The kinds of the token events, in order. *)
Definition token_kinds (es : list Event) : list TokenKind :=
  omap (fun e => match e with EToken k => Some k | _ => None end) es.

Lemma token_kinds_app es1 es2 : token_kinds (es1 ++ es2) = token_kinds es1 ++ token_kinds es2.
Proof. apply omap_app. Qed.

(** Rewriting an event that is not a token's leaves the tokens as they were. *)
Lemma token_kinds_insert es i e e' :
  es !! i = Some e -> token_kinds [e] = [] -> token_kinds [e'] = [] ->
  token_kinds (<[i := e']> es) = token_kinds es.
Proof.
  intros Hi He He'. rewrite <- (take_drop_middle es i e Hi) at 2.
  rewrite insert_take_drop by by eapply lookup_lt_Some.
  rewrite !token_kinds_app.
  change (e' :: drop (S i) es) with ([e'] ++ drop (S i) es).
  change (e :: drop (S i) es) with ([e] ++ drop (S i) es).
  by rewrite !token_kinds_app, He, He'.
Qed.

(** ** Markers of the rules still running

    [EFresh m]: [m] was started here and nothing points to it.  [EOpen m]: [m] may also be the
    target of the forward parent of the node before it.  [EDone c]: a completed node that may still
    get a parent. *)
Inductive Entry : Set :=
| EFresh (m : Marker)
| EOpen (m : Marker)
| EDone (c : CompletedMarker).

Section stack.
Context (base : list Event).

(** The events [es] extend [base] with forests, except for the markers of the stack, the last
    started first. *)
Fixpoint Ev (stack : list Entry) (es : list Event) : Prop :=
  match stack with
  | [] => exists grown, es = base ++ grown /\ Forest grown
  | EFresh m :: stack =>
      exists before after, es = before ++ Placeholder :: after /\
        m_pos m = length before /\ Forest after /\ Ev stack before
  | EOpen m :: stack =>
      exists before after, es = before ++ Placeholder :: after /\
        m_pos m = length before /\ Forest after /\
        forall c, Chain c -> Ev stack (before ++ c)
  | EDone c :: stack =>
      exists before kind body after,
        es = before ++ Start kind None :: body ++ Finish :: after /\
        c_pos c = length before /\ Forest body /\ Forest after /\
        forall c, Chain c -> Ev stack (before ++ c)
  end.

Lemma Ev_app stack es grown : Ev stack es -> Forest grown -> Ev stack (es ++ grown).
Proof.
  destruct stack as [|[m|m|c] stack]; simpl.
  - intros (g & -> & Hg) H. exists (g ++ grown). split; [by rewrite <- app_assoc|].
    auto with events.
  - intros (b & a & -> & Hm & Ha & Hb) H. exists b, (a ++ grown).
    split_and!; [by rewrite <- app_assoc|done|auto with events|done].
  - intros (b & a & -> & Hm & Ha & Hb) H. exists b, (a ++ grown).
    split_and!; [by rewrite <- app_assoc|done|auto with events|done].
  - intros (b & k & body & a & -> & Hm & Hbody & Ha & Hb) H. exists b, k, body, (a ++ grown).
    split_and!; [|done|done|auto with events|done].
    rewrite <- app_assoc. simpl. by rewrite <- app_assoc.
Qed.

Lemma Ev_start stack es m :
  Ev stack es -> m_pos m = length es -> Ev (EFresh m :: stack) (es ++ [Placeholder]).
Proof. intros He Hm. exists es, []. split_and!; auto with events. Qed.

Lemma Ev_open stack es m : Ev (EFresh m :: stack) es -> Ev (EOpen m :: stack) es.
Proof.
  intros (b & a & -> & Hm & Ha & Hb). exists b, a. split_and!; try done.
  intros c Hc. apply Ev_app; auto with events.
Qed.

Lemma Ev_complete stack es m kind :
  Ev (EOpen m :: stack) es ->
  (m_pos m < length es)%nat /\
  Ev (EDone (MkCompleted (m_pos m) (m_start_token_pos m)) :: stack)
    (<[m_pos m := Start kind None]> es ++ [Finish]).
Proof.
  intros (b & a & -> & Hm & Ha & Hb). split; [rewrite length_app; simpl; lia|].
  exists b, kind, a, []. split_and!; try done; auto with events.
  rewrite Hm, insert_app_r_alt, Nat.sub_diag by lia. simpl. by rewrite <- app_assoc.
Qed.

Lemma Ev_precede stack es c m :
  Ev (EDone c :: stack) es -> m_pos m = length es ->
  exists kind, (es ++ [Placeholder]) !! c_pos c = Some (Start kind None) /\
    Ev (EOpen m :: stack)
      (<[c_pos c := Start kind (Some (length es - c_pos c)%nat)]> (es ++ [Placeholder])).
Proof.
  intros (b & k & body & a & -> & Hc & Hbody & Ha & Hb) Hm. exists k. split.
  { rewrite <- app_assoc, lookup_app_r by lia. by rewrite Hc, Nat.sub_diag. }
  set (off := (length _ - c_pos c)%nat).
  assert (off = length body + length a + 2)%nat as Hoff.
  { unfold off. rewrite Hc, length_app. simpl. rewrite length_app. simpl. lia. }
  clearbody off. exists (b ++ Start k (Some off) :: body ++ Finish :: a), [].
  split_and!; [| |constructor|].
  - by rewrite <- (app_assoc b), Hc, insert_app_r_alt, Nat.sub_diag, <- app_assoc by lia.
  - rewrite Hm, !length_app. simpl. by rewrite !length_app.
  - intros c' Hc'. rewrite <- app_assoc. apply Hb. simpl. rewrite <- app_assoc. simpl.
    rewrite Hoff. by constructor.
Qed.

Lemma Ev_drop stack es c : Ev (EDone c :: stack) es -> Ev stack es.
Proof.
  intros (b & k & body & a & -> & Hc & Hbody & Ha & Hb).
  replace (b ++ Start k None :: body ++ Finish :: a)
    with ((b ++ Start k None :: body ++ [Finish]) ++ a)
    by (rewrite <- app_assoc; simpl; by rewrite <- app_assoc).
  apply Ev_app; [|done]. apply Hb. by constructor.
Qed.

(** Abandoning a fresh marker removes its event, or leaves a placeholder behind. *)
Lemma Ev_abandon_last stack es m :
  Ev (EFresh m :: stack) es -> m_pos m = (length es - 1)%nat -> Ev stack (removelast es).
Proof.
  intros (b & a & -> & Hm & Ha & Hb). rewrite length_app. simpl. intros Hlast.
  destruct a; simpl in *; [|lia]. by rewrite removelast_last.
Qed.

Lemma Ev_abandon stack es m : Ev (EFresh m :: stack) es -> Ev stack es.
Proof. intros (b & a & -> & Hm & Ha & Hb). apply Ev_app; auto with events. Qed.
End stack.

(** A rule that ran from [es] on a stack of its own continues the stack of its caller. *)
Lemma Ev_trans base stack es es' own :
  Ev base stack es -> Ev es own es' -> Ev base (own ++ stack) es'.
Proof.
  intros He. revert es'. induction own as [|[m|m|c] own IH]; intros es'; simpl.
  - intros (g & -> & Hg). by apply Ev_app.
  - intros (b & a & -> & Hm & Ha & Hb). exists b, a. auto 10.
  - intros (b & a & -> & Hm & Ha & Hb). exists b, a. auto 10.
  - intros (b & k & body & a & -> & Hm & Hbody & Ha & Hb). exists b, k, body, a. auto 10.
Qed.
