(* ===== verification/Hoare.v ===== *)
(** Hoare: what every rule of the grammar keeps, and the rules to prove it.

    [wp B m Q p]: the computation [m] started in [p] ends with fuel left, and either returns with
    [Q] or is stopped by the iteration guard, and the latter only when the budget [B] reaches the
    guard's limit.

    [Inv] is the invariant of the state between operations; [Cx base bs stack p] says what a rule
    in the middle of its work has made of the state since it started; [Cost c p p'] accounts for
    the iteration guard: a token consumed pays for 8 checks, a rule never spends more than it
    consumes, and one that consumed anything leaves [c] over. *)
From stdpp Require Import prelude.
From S2P Require Import Prelude Kinds Tokens Input TornIf ParserCore Events.

#[local] Arguments Nat.min : simpl never.
#[local] Arguments Z.mul : simpl never.
#[local] Arguments Z.sub : simpl never.
#[local] Arguments Z.of_nat : simpl never.

(** A question whose positive answer says that a token stands here. *)
Class Asks (f : Parser -> bool) := asks : forall p, f p = true -> is_Some (current p).

#[export] Instance at_asks k : Asks (at_ k).
Proof. intros p H. apply bool_decide_eq_true in H. by eexists. Qed.

(** The same for a question whose answer takes counting. *)
Class AsksCounting (f : Parser -> option bool) := asks_counting : forall p, f p = Some true -> is_Some (current p).

Ltac solve_asks :=
  let p := fresh in let H := fresh in let E := fresh in
  intros p H; revert H;
  match goal with |- ?f p = _ -> _ => unfold f end;
  destruct (current p) eqn:E; [by eexists|done].

Definition wp (B : Z) {A} (m : M A) (Q : A -> Parser -> Prop) (p : Parser) : Prop :=
  match m p with
  | Ok a p => Q a p
  | Panic reason => reason = IterationLimit /\ (MAX_ITERATIONS <= B)%Z
  | OutOfFuel => False
  end.

(** The boundary a grammar declares for the whole parse. *)
Class Declared := declared : option Boundary.

Section hoare.
Context {boundary : Declared} (inp : Input) (B : Z).
Hypothesis Hfits : (Z.of_nat (input_len inp) < 2 ^ 31)%Z.

Abbreviation len := (input_len inp).

(** The checks the guard has counted plus those the tokens left may pay for. *)
Definition pot (p : Parser) : Z :=
  (iteration_count p + 8 * (Z.of_nat len - Z.of_nat (pos p)))%Z.

Record Inv (p : Parser) : Prop := {
  inv_input : input p = inp;
  inv_boundary : at_grammar_boundary p = declared;
  inv_pos : (pos p <= len)%nat;
  inv_count : (0 <= iteration_count p)%Z;
  inv_torn : Forall (fun e => e.1 <= e.2)%nat (open_torn_ifs p);
  inv_depths : (0 <= paren_depth p /\ 0 <= brace_depth p /\
                paren_depth p + brace_depth p <= Z.of_nat (pos p))%Z;
  inv_inserts : (0 <= open_inline_inserts p <= Z.of_nat (pos p))%Z;
  inv_ifs : (0 <= open_preproc_ifs p <= Z.of_nat (pos p))%Z;
  inv_tokens : token_kinds (events p) = take (pos p) (sig_kind <$> kinds inp);
}.

(** [base]: the events when the rule started; [bs]: the boundaries in force. *)
Record Cx (base : list Event) (bs : list Boundary) (stack : list Entry) (p : Parser) : Prop := {
  cx_inv : Inv p;
  cx_bs : enclosing_boundaries p = bs;
  cx_ev : Ev base stack (events p);
}.

Definition Cost (c : Z) (p p' : Parser) : Prop :=
  (pos p <= pos p')%nat /\ (pot p' <= pot p)%Z /\
  ((pos p < pos p')%nat -> (pot p' + c <= pot p)%Z).

(** A rule whose result may carry markers of its own ([St]), that needs [s] checks of slack,
    leaves [c] over, and promises [Post]. *)
Definition Spec {A} (s c : Z) (m : M A) (St : A -> list Entry)
    (Post : Parser -> A -> Parser -> Prop) (p : Parser) : Prop :=
  Inv p -> (pot p + s <= B)%Z ->
  wp B m (fun a p' => Cx (events p) (enclosing_boundaries p) (St a) p' /\ Cost c p p' /\ Post p a p') p.

(** Same state for every question the grammar asks: the events and the guard may differ. *)
Definition ctl (p : Parser) : Parser := set_events [] (set_guard 0 [] p).
Definition Same (p p' : Parser) : Prop := ctl p' = ctl p.

(** ** Structural rules *)

Lemma wp_ret {A} (a : A) Q p : Q a p -> wp B (mret a) Q p.
Proof. done. Qed.

Lemma wp_bind {A A'} (m : M A) (k : A -> M A') Q p :
  wp B m (fun a p' => wp B (k a) Q p') p -> wp B (m ≫= k) Q p.
Proof. unfold wp, mbind, M_bind. by destruct (m p). Qed.

Lemma wp_gets {A} (f : Parser -> A) (Q : A -> Parser -> Prop) p : Q (f p) p -> wp B (gets f) Q p.
Proof. done. Qed.

Lemma wp_ask {A} (f : Parser -> option A) (Q : A -> Parser -> Prop) p :
  is_Some (f p) -> (forall a, f p = Some a -> Q a p) -> wp B (ask f) Q p.
Proof. intros [a E] HQ. unfold wp, ask. rewrite E. by apply HQ. Qed.

Lemma wp_skip (Q : unit -> Parser -> Prop) p : Q tt p -> wp B skip Q p.
Proof. done. Qed.

Lemma wp_modify f (Q : unit -> Parser -> Prop) p : Q tt (f p) -> wp B (modify f) Q p.
Proof. done. Qed.

(** A choice made by looking at the whole state. *)
Lemma wp_fun {A} (f : Parser -> M A) Q p : wp B (f p) Q p -> wp B (fun p => f p p) Q p.
Proof. done. Qed.

Lemma wp_mono {A} (m : M A) (Q Q' : A -> Parser -> Prop) p :
  wp B m Q p -> (forall a p, Q a p -> Q' a p) -> wp B m Q' p.
Proof. unfold wp. destruct (m p); auto. Qed.

Lemma wp_call {A} s c (m : M A) St Post base bs stack (Q : A -> Parser -> Prop) p :
  Spec s c m St Post p -> Cx base bs stack p -> (pot p + s <= B)%Z ->
  (forall a p', Cx base bs (St a ++ stack) p' -> Cost c p p' -> Post p a p' -> Q a p') ->
  wp B m Q p.
Proof.
  intros Hs [Hi Hb He] Hpot HQ. eapply wp_mono; [exact (Hs Hi Hpot)|].
  intros a p' ([Hi' Hb' He'] & Hc & HP). apply HQ; [|done|done].
  constructor; [done|congruence|]. by eapply Ev_trans.
Qed.

Lemma Cx_start p : Inv p -> Cx (events p) (enclosing_boundaries p) [] p.
Proof. intros. constructor; [done..|]. exists []. rewrite app_nil_r. auto with events. Qed.

Lemma Cx_drop base bs stack c p : Cx base bs (EDone c :: stack) p -> Cx base bs stack p.
Proof. intros []. constructor; [done..|]. by eapply Ev_drop. Qed.

Lemma Cx_open base bs stack m p : Cx base bs (EFresh m :: stack) p -> Cx base bs (EOpen m :: stack) p.
Proof. intros []. constructor; [done..|]. by apply Ev_open. Qed.

Lemma Cx_pos base bs stack p : Cx base bs stack p -> (pos p <= len)%nat.
Proof. intros [[]]. done. Qed.

Lemma Cost_refl c p : Cost c p p.
Proof. unfold Cost. lia. Qed.

Lemma Cost_trans c p q r : (0 <= c)%Z -> Cost c p q -> Cost c q r -> Cost c p r.
Proof. unfold Cost. lia. Qed.

(** ** Questions *)

Lemma same_ask {A} (f : Parser -> A) p p' : (forall q, f (ctl q) = f q) -> Same p p' -> f p' = f p.
Proof. intros Hf E. by rewrite <- (Hf p'), <- (Hf p), E. Qed.

Lemma current_live p k : Inv p -> current p = Some k -> (pos p < len)%nat.
Proof.
  intros [Hin _ _ _ _ _ _ _ _]. unfold current, nth, input_kind. rewrite Hin, Nat.add_0_r.
  apply lookup_lt_Some.
Qed.

Lemma at_current k p : at_ k p = true <-> current p = Some k.
Proof. apply bool_decide_eq_true. Qed.

Lemma at_live p k : Inv p -> at_ k p = true -> (pos p < len)%nat.
Proof. rewrite at_current. apply current_live. Qed.

(** What stands at a position does not change. *)
Lemma current_at p q : Inv p -> Inv q -> pos p = pos q -> current p = current q.
Proof. intros [Hp] [Hq] E. unfold current, nth. by rewrite Hp, Hq, E. Qed.

Lemma at_moved k p q : Inv p -> Inv q -> at_ k p = true -> at_ k q = false -> pos p <> pos q.
Proof.
  intros Hp Hq Ht Hf E. revert Ht Hf. unfold at_. rewrite (current_at _ _ Hp Hq E). congruence.
Qed.

Lemma asks_live f p `{!Asks f} : Inv p -> f p = true -> (pos p < len)%nat.
Proof. intros Hi H. apply asks in H as [k Hk]. by eapply current_live. Qed.

Lemma asks_counting_live f p `{!AsksCounting f} : Inv p -> f p = Some true -> (pos p < len)%nat.
Proof. intros Hi H. apply asks_counting in H as [k Hk]. by eapply current_live. Qed.

Lemma current_none p : Inv p -> current p = None -> pos p = len.
Proof.
  intros [Hin _ Hp _ _ _ _ _ _]. unfold current, nth, input_kind. rewrite Hin, Nat.add_0_r.
  intros H. apply lookup_ge_None in H. unfold input_len in *. lia.
Qed.

Lemma at_end_false p : Inv p -> at_end p = false -> (pos p < len)%nat.
Proof. intros [Hin]. unfold at_end. rewrite Hin. intros H. apply Nat.leb_gt in H. done. Qed.

Lemma at_end_true p : Inv p -> at_end p = true -> pos p = len.
Proof. intros [Hin _ Hp]. unfold at_end. rewrite Hin. intros H. apply Nat.leb_le in H. lia. Qed.

(** ** Changes of the events and of the guard *)

Lemma Inv_events p es :
  Inv p -> token_kinds es = token_kinds (events p) -> Inv (set_events es p).
Proof. intros [] H. constructor; simpl; congruence. Qed.

Lemma wp_start base bs stack (Q : Marker -> Parser -> Prop) p :
  Cx base bs stack p ->
  (forall m p', Cx base bs (EFresh m :: stack) p' -> Same p p' -> pos p' = pos p ->
     pot p' = pot p -> Q m p') ->
  wp B start Q p.
Proof.
  intros [Hi Hb He] HQ. unfold wp, start. apply HQ; [|done..].
  constructor; [|done|by apply Ev_start].
  apply Inv_events; [done|]. by rewrite token_kinds_app, app_nil_r.
Qed.

Lemma wp_complete base bs stack (Q : CompletedMarker -> Parser -> Prop) p m kind :
  Cx base bs (EOpen m :: stack) p ->
  (forall c p', Cx base bs (EDone c :: stack) p' -> Same p p' -> pos p' = pos p ->
     pot p' = pot p -> Q c p') ->
  wp B (complete m kind) Q p.
Proof.
  intros [Hi Hb He] HQ. unfold wp, complete.
  destruct (Ev_complete _ _ _ _ kind He) as [Hlt Hd].
  destruct (Nat.ltb_spec (m_pos m) (length (events p))); [|lia]. apply HQ; [|done..].
  constructor; [|done|done]. apply Inv_events; [done|].
  rewrite token_kinds_app, app_nil_r. destruct He as (b & a & Ee & Hm & _).
  apply (token_kinds_insert _ _ Placeholder); [|done..].
  by rewrite Ee, Hm, lookup_app_r, Nat.sub_diag.
Qed.

Lemma wp_precede base bs stack (Q : Marker -> Parser -> Prop) p c :
  Cx base bs (EDone c :: stack) p ->
  (forall m p', Cx base bs (EOpen m :: stack) p' -> Same p p' -> pos p' = pos p ->
     pot p' = pot p -> Q m p') ->
  wp B (precede c) Q p.
Proof.
  intros [Hi Hb He] HQ. unfold wp, precede.
  destruct (Ev_precede _ _ _ c (MkMarker (length (events p)) (c_start_token_pos c)) He eq_refl)
    as (k & Hk & Ho).
  rewrite Hk. apply HQ; [|done..]. constructor; [|done|done]. apply Inv_events; [done|].
  rewrite (token_kinds_insert _ _ _ _ Hk) by done. by rewrite token_kinds_app, app_nil_r.
Qed.

Lemma wp_abandon base bs stack (Q : unit -> Parser -> Prop) p m :
  Cx base bs (EFresh m :: stack) p ->
  (forall p', Cx base bs stack p' -> Same p p' -> pos p' = pos p -> pot p' = pot p -> Q tt p') ->
  wp B (abandon m) Q p.
Proof.
  intros [Hi Hb He] HQ. unfold wp, abandon.
  destruct (Nat.eqb_spec (length (events p)) 0) as [E|_].
  { destruct He as (b & a & Ee & _). rewrite Ee, length_app in E. simpl in E. lia. }
  assert (Cx base bs stack p) as Hkeep by (constructor; [done..|by eapply Ev_abandon]).
  destruct (Nat.eqb_spec (m_pos m) (length (events p) - 1)) as [Em|_]; [|by apply HQ].
  destruct (last (events p)) as [[]|] eqn:El; try by apply HQ.
  apply HQ; [|done..]. constructor; [|done|by eapply Ev_abandon_last].
  apply Inv_events; [done|]. apply last_Some in El as [l ->].
  rewrite removelast_last, token_kinds_app. by rewrite app_nil_r.
Qed.

Lemma wp_error_event base bs stack (Q : unit -> Parser -> Prop) p e :
  is_error_event e = true -> Cx base bs stack p ->
  (forall p', Cx base bs stack p' -> Same p p' -> pos p' = pos p -> pot p' = pot p -> Q tt p') ->
  wp B (push_event e) Q p.
Proof.
  intros He [Hi Hb Hev] HQ. apply wp_modify, HQ; [|done..]. constructor; [|done|].
  - apply Inv_events; [done|]. rewrite token_kinds_app. destruct e; try done; by rewrite app_nil_r.
  - apply Ev_app; [done|]. destruct e; try done; auto with events.
Qed.

(** The guard: a check costs one. *)
Lemma wp_check base bs stack (Q : unit -> Parser -> Prop) p :
  Cx base bs stack p -> (pot p + 1 <= B)%Z ->
  (forall p', Cx base bs stack p' -> Same p p' -> pos p' = pos p -> (pot p' <= pot p + 1)%Z -> Q tt p') ->
  wp B check_iteration_limit Q p.
Proof.
  intros [Hi Hb He] Hpot HQ. pose proof (inv_count _ Hi). pose proof (inv_pos _ Hi).
  unfold wp, check_iteration_limit.
  destruct (Z.ltb_spec (iteration_count p + 1) MAX_ITERATIONS).
  - apply HQ; [|done..|unfold pot; simpl; lia]. constructor; [|done..].
    destruct Hi. constructor; simpl; try done. lia.
  - destruct (_ <? 5)%nat; [split; [done|unfold pot in *; lia]|].
    apply HQ; [|done..|unfold pot; simpl; lia]. constructor; [|done..].
    destruct Hi. constructor; simpl; try done.
Qed.

(** ** Loops and recursion *)

Lemma wp_loop {A A'} (body : A -> M (A + A')) (I : A -> Parser -> Prop) (Q : A' -> Parser -> Prop) a p :
  I a p -> (forall a p, I a p -> Inv p) ->
  (forall a p, I a p -> wp B (body a) (fun r p' =>
     match r with inl a' => I a' p' /\ (pos p < pos p')%nat | inr b => Q b p' end) p) ->
  wp B (loop body a) Q p.
Proof.
  intros HI Hinv Hbody. unfold loop. change (wp B (loop_fuel (S (remaining p)) body a) Q p).
  assert (remaining p < S (remaining p))%nat as Hlt by lia. revert Hlt.
  generalize (S (remaining p)) as n. intros n. revert a p HI.
  induction n as [|n IH]; intros a p HI Hn; [lia|]. simpl. apply wp_bind.
  eapply wp_mono; [by apply Hbody|]. intros [a'|b] p' HQ; [|done]. destruct HQ as [HI' Hlt].
  apply IH; [done|]. pose proof (Hinv _ _ HI) as [Hin _ Hp]. pose proof (Hinv _ _ HI') as [Hin' _ Hp'].
  unfold remaining in *. rewrite Hin in Hn. rewrite Hin'. lia.
Qed.

(** Every turn of a loop consumes, so a turn either is the first one or stands further on. *)
Definition From (p q : Parser) : Prop := q = p \/ (pos p < pos q)%nat.

(** A loop that carries no state of its own. *)
Lemma wp_loop_cx {A'} c (body : unit -> M (unit + A')) (Q : A' -> Parser -> Prop) base bs stack p :
  Cx base bs stack p ->
  (forall q, Cx base bs stack q -> Cost c p q -> From p q -> wp B (body tt) (fun r p' =>
     match r with
     | inl _ => Cx base bs stack p' /\ Cost c p p' /\ (pos q < pos p')%nat
     | inr b => Q b p'
     end) q) ->
  wp B (loop body tt) Q p.
Proof.
  intros HC Hbody. apply (wp_loop _ (fun _ q => Cx base bs stack q /\ Cost c p q /\ From p q)).
  - split; [done|]. split; [apply Cost_refl|by left].
  - by intros _ q [[] _].
  - intros [] q (HCq & Hc & Hf). eapply wp_mono; [by apply Hbody|].
    intros [[]|b] p' HQ; [|done]. destruct HQ as (? & ? & ?). split; [|done].
    split; [done|]. split; [done|]. right. unfold Cost in Hc. lia.
Qed.

Lemma wp_while c cond (body : M unit) (Q : unit -> Parser -> Prop) base bs stack p :
  Cx base bs stack p ->
  (forall q, Cx base bs stack q -> Cost c p q -> From p q -> cond q = true ->
     wp B body (fun _ p' => Cx base bs stack p' /\ Cost c p p' /\ (pos q < pos p')%nat) q) ->
  (forall q, Cx base bs stack q -> Cost c p q -> From p q -> cond q = false -> Q tt q) ->
  wp B (while_ cond body) Q p.
Proof.
  intros HC Hbody Hend. apply (wp_loop_cx c _ _ base bs stack); [done|].
  intros q HCq Hc Hf. apply wp_bind, wp_gets. destruct (cond q) eqn:Ec.
  - apply wp_bind. eapply wp_mono; [by apply Hbody|]. by intros [] p' HQ.
  - by apply Hend.
Qed.

Lemma wp_while_ask c cond (body : M unit) (Q : unit -> Parser -> Prop) base bs stack p :
  Cx base bs stack p -> (forall q, Inv q -> is_Some (cond q)) ->
  (forall q, Cx base bs stack q -> Cost c p q -> From p q -> cond q = Some true ->
     wp B body (fun _ p' => Cx base bs stack p' /\ Cost c p p' /\ (pos q < pos p')%nat) q) ->
  (forall q, Cx base bs stack q -> Cost c p q -> From p q -> cond q = Some false -> Q tt q) ->
  wp B (while_ask cond body) Q p.
Proof.
  intros HC Hcond Hbody Hend. apply (wp_loop_cx c _ _ base bs stack); [done|].
  intros q HCq Hc Hf. apply wp_bind, wp_ask; [by apply Hcond, HCq|]. intros [] Ec.
  - apply wp_bind. eapply wp_mono; [by apply Hbody|]. by intros [] p' HQ.
  - by apply Hend.
Qed.

Lemma wp_while_skip cond (body : M unit) (Q : unit -> Parser -> Prop) p :
  cond p = false -> Q tt p -> wp B (while_ cond body) Q p.
Proof.
  intros Hc HQ. unfold wp, while_, loop. simpl. unfold mbind, M_bind, gets. simpl. by rewrite Hc.
Qed.

Lemma iter_spec {K} (F : K -> K) (bot : K) (P : K -> Parser -> Prop) :
  (forall k p, Inv p -> (forall q, Inv q -> (pos p < pos q)%nat -> P k q) -> P (F k) p) ->
  forall n p, Inv p -> (remaining p < n)%nat -> P (Nat.iter n F bot) p.
Proof.
  intros HF n. induction n as [|n IH]; intros p Hi Hn; [lia|]. simpl. apply HF; [done|].
  intros q Hq Hlt. apply IH; [done|]. destruct Hi as [Hin _ Hp], Hq as [Hin' _ Hp'].
  unfold remaining in *. rewrite Hin in Hn. rewrite Hin'. lia.
Qed.

Lemma wp_rec {K A} (F : K -> K) (bot : K) (entry : K -> M A) Q p :
  wp B (entry (Nat.iter (S (remaining p)) F bot)) Q p -> wp B (rec_ bot F entry) Q p.
Proof. done. Qed.

(** A recursive rule may rely on itself at every later position. *)
Lemma rec_spec {A} (P : Parser -> Prop) s c (F : M A -> M A) St Post :
  (forall m p, P p -> (forall q, P q -> (pos p < pos q)%nat -> Spec s c m St Post q) ->
     Spec s c (F m) St Post p) ->
  forall p, P p -> Spec s c (rec_ out_of_fuel F id) St Post p.
Proof.
  intros HF p HP Hi Hpot.
  apply (iter_spec F out_of_fuel (fun m q => P q -> Spec s c m St Post q)); [|done|lia|done..].
  intros m q Hq IH HPq. apply HF; [done|]. intros r HPr Hr Hir. by apply IH.
Qed.

(** ** Boundaries *)

Lemma wp_within {A} b (m : M A) (Q : A -> Parser -> Prop) base bs stack p :
  Cx base bs stack p ->
  (forall p1, Cx base (bs ++ [b]) stack p1 -> pos p1 = pos p -> pot p1 = pot p ->
     wp B m (fun a p2 => Cx base (bs ++ [b]) stack p2 /\
       forall p3, Cx base bs stack p3 -> pos p3 = pos p2 -> pot p3 = pot p2 -> Q a p3) p1) ->
  wp B (within_boundary b m) Q p.
Proof.
  intros [Hi Hb He] HQ. unfold within_boundary. apply wp_bind, wp_modify, wp_bind.
  eapply wp_mono; [apply HQ; [|done..]|].
  - constructor; simpl; [by destruct Hi|by rewrite Hb|done].
  - intros a p2 [[Hi2 Hb2 He2] HQ2]. apply wp_bind, wp_modify, wp_ret, HQ2; [|done..].
    constructor; simpl; [by destruct Hi2| |done]. by rewrite Hb2, removelast_last.
Qed.

(** ** Consuming tokens *)

Lemma take_kind p k :
  Inv p -> current p = Some k ->
  take (S (pos p)) (sig_kind <$> kinds inp) = take (pos p) (sig_kind <$> kinds inp) ++ [sig_kind k].
Proof.
  intros [Hin] Hk. apply take_S_r. unfold current, nth, input_kind in Hk.
  rewrite Hin, Nat.add_0_r in Hk. by rewrite list_lookup_fmap, Hk.
Qed.

Lemma Inv_token p k d b :
  Inv p -> current p = Some k -> (0 <= d /\ 0 <= b /\ d + b <= Z.of_nat (pos p) + 1)%Z ->
  Inv (set_pos (S (pos p)) (set_events (events p ++ [EToken (sig_kind k)]) (set_depths d b p))).
Proof.
  intros Hi Hk Hd. pose proof (current_live _ _ Hi Hk). pose proof (take_kind _ _ Hi Hk) as Ht.
  destruct Hi. constructor; simpl; try done; try lia.
  rewrite token_kinds_app, Ht. by f_equal.
Qed.

Lemma track_group_ok p k (Q : unit -> Parser -> Prop) :
  Inv p -> (pos p < len)%nat ->
  (forall d b, (0 <= d /\ 0 <= b /\ d + b <= Z.of_nat (pos p) + 1)%Z -> Q tt (set_depths d b p)) ->
  wp B (track_group k) Q p.
Proof.
  intros Hi Hlt HQ. pose proof (inv_depths _ Hi) as Hd.
  assert (Hsame : Q tt p).
  { replace p with (set_depths (paren_depth p) (brace_depth p) p) by by destruct p. apply HQ. lia. }
  unfold wp, track_group, u32_add, saturating_sub.
  destruct k; try exact Hsame; simpl.
  - destruct (Z.eqb_spec (brace_depth p) 0); [|exact Hsame]. unfold mbind, M_bind.
    destruct (Z.ltb_spec (paren_depth p + 1) (2 ^ 32)); [|lia]. apply HQ. lia.
  - destruct (Z.eqb_spec (brace_depth p) 0); [|exact Hsame]. apply HQ. lia.
  - unfold mbind, M_bind. destruct (Z.ltb_spec (brace_depth p + 1) (2 ^ 32)); [|lia]. apply HQ. lia.
  - apply HQ. lia.
  - apply HQ. lia.
Qed.

(** What [bump] leaves alone. *)
Definition Bumped (p p' : Parser) : Prop :=
  pos p' = (S (pos p) `min` len)%nat /\ pot p' = (pot p - 8 * (Z.of_nat (pos p') - Z.of_nat (pos p)))%Z /\
  open_torn_ifs p' = open_torn_ifs p /\ open_preproc_ifs p' = open_preproc_ifs p /\
  open_inline_inserts p' = open_inline_inserts p.

Lemma Bumped_cost p p' : Bumped p p' -> (pos p <= len)%nat -> Cost 8 p p'.
Proof. unfold Bumped, Cost. lia. Qed.

Lemma Bumped_none p : Inv p -> current p = None -> Bumped p p.
Proof. intros Hi Hn. apply current_none in Hn; [|done]. unfold Bumped. split_and!; done || lia. Qed.

Lemma Ev_token base stack es k : Ev base stack es -> Ev base stack (es ++ [EToken k]).
Proof. intros. apply Ev_app; auto with events. Qed.

Lemma wp_bump base bs stack (Q : unit -> Parser -> Prop) p :
  Cx base bs stack p ->
  (forall p', Cx base bs stack p' -> Bumped p p' -> Q tt p') ->
  wp B bump Q p.
Proof.
  intros HC HQ. pose proof HC as [Hi Hb He]. unfold bump. apply wp_bind, wp_gets.
  destruct (current p) as [k|] eqn:Ek; [|by apply HQ, Bumped_none].
  pose proof (current_live _ _ Hi Ek). apply wp_bind, track_group_ok; [done..|].
  intros d b Hd. apply wp_bind, wp_modify, wp_modify, HQ.
  - constructor; [exact (Inv_token p k d b Hi Ek Hd)|done|by apply Ev_token].
  - unfold Bumped, pot. simpl. split_and!; done || lia.
Qed.

Lemma wp_bump_removed base bs stack (Q : unit -> Parser -> Prop) p :
  Cx base bs stack p ->
  (forall p', Cx base bs stack p' -> Bumped p p' -> Q tt p') ->
  wp B bump_removed Q p.
Proof.
  intros HC HQ. pose proof HC as [Hi Hb He]. unfold bump_removed. apply wp_bind, wp_gets.
  destruct (current p) as [k|] eqn:Ek; [|by apply HQ, Bumped_none].
  pose proof (current_live _ _ Hi Ek). apply wp_bind, wp_modify, wp_modify.
  pose proof (inv_depths _ Hi).
  pose proof (Inv_token p k (paren_depth p) (brace_depth p) Hi Ek) as Hi'.
  apply HQ.
  - constructor; [|done|by apply Ev_token]. destruct p; apply Hi'. simpl in *. lia.
  - unfold Bumped, pot. simpl. split_and!; done || lia.
Qed.

Lemma wp_eat base bs stack k (Q : bool -> Parser -> Prop) p :
  Cx base bs stack p ->
  (at_ k p = true -> forall p', Cx base bs stack p' -> Bumped p p' -> (pos p < len)%nat -> Q true p') ->
  (at_ k p = false -> Q false p) ->
  wp B (eat k) Q p.
Proof.
  intros HC Ht Hf. unfold eat. apply wp_bind, wp_gets. destruct (at_ k p) eqn:E; [|by apply Hf].
  pose proof (at_live _ _ (cx_inv _ _ _ _ HC) E). apply wp_bind. eapply wp_bump; [done|].
  intros p' HC' Hb. by apply wp_ret, Ht.
Qed.

Lemma eat_spec k p : Spec 0 8 (eat k) (fun _ => []) (fun p b p' =>
  b = at_ k p /\ (b = true -> pos p' = S (pos p)) /\ (b = false -> p' = p)) p.
Proof.
  intros Hi Hpot. eapply wp_eat; [by apply Cx_start|..].
  - intros E p' HC Hb Hl. pose proof (inv_pos _ Hi). split; [done|].
    split; [by apply Bumped_cost|]. split; [done|]. unfold Bumped in Hb. split; [lia|done].
  - intros E. split; [by apply Cx_start|]. split; [apply Cost_refl|]. by split.
Qed.

Lemma eat__spec k p : Spec 0 8 (eat_ k) (fun _ => []) (fun _ _ _ => True) p.
Proof.
  intros Hi Hpot. apply wp_bind. eapply wp_mono; [by apply eat_spec|].
  intros b p' (HC & Hc & _). by apply wp_skip.
Qed.

(** ** Errors *)

Lemma complete_error base bs stack (Q : unit -> Parser -> Prop) p m kind :
  Cx base bs (EOpen m :: stack) p ->
  (forall p', Cx base bs stack p' -> Same p p' -> pos p' = pos p -> pot p' = pot p -> Q tt p') ->
  wp B (complete_ m kind) Q p.
Proof.
  intros HC HQ. apply wp_bind. eapply wp_complete; [done|]. intros c p' HC' HS Hp Hpot.
  apply wp_skip, HQ; [by eapply Cx_drop|done..].
Qed.

Lemma wp_emit_error_at_marker base bs stack (Q : unit -> Parser -> Prop) p m err :
  Cx base bs (EOpen m :: stack) p ->
  (forall p', Cx base bs stack p' -> Same p p' -> pos p' = pos p -> pot p' = pot p -> Q tt p') ->
  wp B (emit_error_at_marker m err) Q p.
Proof.
  intros HC HQ. apply wp_bind. eapply wp_error_event; [done..|]. intros p1 HC1 HS1 Hp1 Hpot1.
  eapply complete_error; [done|]. intros p2 HC2 HS2 Hp2 Hpot2. apply HQ; [done| |congruence..].
  unfold Same in *. congruence.
Qed.

Lemma wp_emit_missing base bs stack (Q : unit -> Parser -> Prop) p err :
  Cx base bs stack p ->
  (forall p', Cx base bs stack p' -> Same p p' -> pos p' = pos p -> pot p' = pot p -> Q tt p') ->
  wp B (emit_missing err) Q p.
Proof.
  intros HC HQ. apply wp_bind. eapply wp_start; [done|]. intros m p1 HC1 HS1 Hp1 Hpot1.
  apply wp_bind. eapply wp_error_event; [done..|]. intros p2 HC2 HS2 Hp2 Hpot2.
  eapply complete_error; [by apply Cx_open|]. intros p3 HC3 HS3 Hp3 Hpot3.
  apply HQ; [done| |congruence..]. unfold Same in *. congruence.
Qed.

Lemma wp_emit_error base bs stack (Q : unit -> Parser -> Prop) p err :
  Cx base bs stack p ->
  (forall p', Cx base bs stack p' -> pos p' = (S (pos p) `min` len)%nat ->
     pot p' = (pot p - 8 * (Z.of_nat (pos p') - Z.of_nat (pos p)))%Z -> Q tt p') ->
  wp B (emit_error err) Q p.
Proof.
  intros HC HQ. apply wp_bind. eapply wp_start; [done|]. intros m p1 HC1 HS1 Hp1 Hpot1.
  apply wp_bind, wp_gets, wp_bind. pose proof (Cx_pos _ _ _ _ HC1).
  destruct (at_end p1) eqn:Ee; simpl.
  - apply wp_skip, wp_bind. eapply wp_error_event; [done..|]. intros p2 HC2 HS2 Hp2 Hpot2.
    eapply complete_error; [by apply Cx_open|]. intros p3 HC3 HS3 Hp3 Hpot3.
    apply at_end_true in Ee; [|by destruct HC1]. apply HQ; [done|lia..].
  - eapply wp_bump; [done|]. intros p2 HC2 [Hp2 [Hpot2 _]]. apply wp_bind.
    eapply wp_error_event; [done..|]. intros p3 HC3 HS3 Hp3 Hpot3.
    eapply complete_error; [by apply Cx_open|]. intros p4 HC4 HS4 Hp4 Hpot4.
    apply HQ; [done|lia..].
Qed.

(** An error takes the token it is about unless it stands at a separator or at the end. *)
Definition takes (p p' : Parser) : Prop :=
  at_statement_separator p = false -> (pos p < len)%nat -> (pos p < pos p')%nat.

Lemma emit_spec e p :
  recovery e = recovery_here p -> Spec 0 8 (emit e) (fun _ => []) (fun p _ p' => takes p p') p.
Proof.
  intros He Hi Hpot. pose proof (inv_pos _ Hi). unfold emit.
  rewrite He. unfold recovery_here, takes.
  destruct (bool_decide (current p = None) || at_statement_separator p) eqn:E.
  - eapply wp_emit_missing; [by apply Cx_start|]. intros p' HC HS Hp Hpot'. split; [done|].
    split; [unfold Cost; lia|]. intros Hs Hl. rewrite Hs, orb_false_r in E.
    apply bool_decide_eq_true, current_none in E; [lia|done].
  - eapply wp_emit_error; [by apply Cx_start|]. intros p' HC Hp Hpot'. split; [done|].
    split; unfold Cost; lia.
Qed.

Lemma error_spec p : Spec 0 8 error (fun _ => []) (fun p _ p' => takes p p') p.
Proof. intros Hi Hpot. apply wp_bind, wp_gets. by apply emit_spec. Qed.

Lemma error_unexpected_spec p : Spec 0 8 error_unexpected (fun _ => []) (fun p _ p' => takes p p') p.
Proof. apply error_spec. Qed.

Lemma error_custom_spec msg p : Spec 0 8 (error_custom msg) (fun _ => []) (fun p _ p' => takes p p') p.
Proof. intros Hi Hpot. apply wp_bind, wp_gets. by apply emit_spec. Qed.

Lemma error_custom_no_bump_spec msg p :
  Spec 0 8 (error_custom_no_bump msg) (fun _ => []) (fun p _ p' => pos p' = pos p) p.
Proof.
  intros Hi Hpot. eapply wp_emit_missing; [by apply Cx_start|]. intros p' HC HS Hp Hpot'.
  split; [done|]. split; [unfold Cost; lia|done].
Qed.
End hoare.

(** ** Automation

    [wp_facts] derives from the answers of the questions where the position stands; [wp_step]
    applies the rule of the operation at the head of the goal; [wp_call] needs the specification of
    the rule called, which it takes from the [specs] database or the context. *)
Create HintDb specs discriminated.
#[export] Hint Resolve eat__spec error_spec error_unexpected_spec error_custom_spec
  error_custom_no_bump_spec : specs.
#[export] Hint Extern 1 (Inv _ _) => eapply cx_inv; eassumption : specs.
#[export] Hint Extern 5 (_ < _)%nat => lia : specs.
#[export] Hint Extern 5 (_ <= _)%nat => lia : specs.

Ltac have_new P pf :=
  lazymatch goal with
  | _ : P |- _ => fail
  | _ => pose proof (pf : P)
  end.

Ltac wp_facts :=
  repeat match goal with
  | H : _ && _ = true |- _ => apply andb_true_iff in H as [? ?]
  | H : _ || _ = false |- _ => apply orb_false_iff in H as [? ?]
  | H : takes _ _ _ /\ _ |- _ => destruct H
  | H : _ /\ From _ _ |- _ => destruct H
  | H : negb _ = true |- _ => apply negb_true_iff in H
  | H : negb _ = false |- _ => apply negb_false_iff in H
  | C : Cx ?i ?base ?bs ?st ?p |- _ =>
      have_new (pos p <= input_len i)%nat (Cx_pos i base bs st p C)
  | H : ?f ?p = true, C : Cx ?i ?base ?bs ?st ?p |- _ =>
      have_new (pos p < input_len i)%nat (asks_live i f p (cx_inv i base bs st p C) H)
  | H : ?f ?p = Some true, C : Cx ?i ?base ?bs ?st ?p |- _ =>
      have_new (pos p < input_len i)%nat (asks_counting_live i f p (cx_inv i base bs st p C) H)
  | H : current ?p = Some ?k, C : Cx ?i ?base ?bs ?st ?p |- _ =>
      have_new (pos p < input_len i)%nat (current_live i p k (cx_inv i base bs st p C) H)
  | H : at_end ?p = false, C : Cx ?i ?base ?bs ?st ?p |- _ =>
      have_new (pos p < input_len i)%nat (at_end_false i p (cx_inv i base bs st p C) H)
  | H : at_end ?p = true, C : Cx ?i ?base ?bs ?st ?p |- _ =>
      have_new (pos p = input_len i)%nat (at_end_true i p (cx_inv i base bs st p C) H)
  end.

Ltac cost := unfold Cost, Bumped, takes in *; lia.

(** A question asked after events or checks gets the answer it got before them. *)
Ltac same :=
  repeat match goal with
  | S : Same ?p ?p' |- context [?f ?p'] =>
      lazymatch type of (f p') with
      | bool => rewrite (same_ask f p p' (fun _ => eq_refl) S)
      | option _ => rewrite (same_ask f p p' (fun _ => eq_refl) S)
      end
  | S : Same ?p ?p', H : context [?f ?p'] |- _ =>
      lazymatch type of (f p') with
      | bool => rewrite (same_ask f p p' (fun _ => eq_refl) S) in H
      | option _ => rewrite (same_ask f p p' (fun _ => eq_refl) S) in H
      end
  end.

(** A rule that takes a token unless it stands at a separator: the first operand that may fail to
    take one stands at the same separator as the rule. *)
Ltac solve_takes :=
  let Hs := fresh "Hsep" in let Hl := fresh "Hlive" in
  intros Hs Hl;
  repeat match goal with
  | F : From _ _ |- _ => destruct F as [F|F]; [subst|]
  end;
  repeat match goal with
  | T : takes _ ?q _ |- _ =>
      let E := fresh in
      assert (at_statement_separator q = false) as E by (same; exact Hs); specialize (T E); clear E
  end;
  cost.

Ltac wp_cx := first [eassumption | apply Cx_open; eassumption | eapply Cx_drop; eassumption].

(** Forgets what is known of the state before the last operation, except for the numbers. *)
Ltac wp_pre := cbv beta; wp_facts.

Ltac wp_intro_same :=
  let p := fresh "p" in let HC := fresh "HC" in let HS := fresh "HS" in
  let Hp := fresh "Hp" in let Hq := fresh "Hq" in
  intros p HC HS Hp Hq; wp_pre.

Ltac wp_intro_cost :=
  let a := fresh "a" in let p := fresh "p" in let HC := fresh "HC" in
  let H1 := fresh "Hpos" in let H2 := fresh "Hpot" in let H3 := fresh "Hpay" in
  let HP := fresh "HP" in
  intros a p HC (H1 & H2 & H3) HP; cbv beta in HP; cbn [app] in HC;
  lazymatch type of a with unit => destruct a | _ => idtac end;
  wp_pre.

Ltac wp_intro_bump :=
  let p := fresh "p" in let HC := fresh "HC" in let H1 := fresh "Hpos" in
  let H2 := fresh "Hpot" in let H3 := fresh "Hkeep" in
  intros p HC (H1 & H2 & H3); wp_pre.

Ltac wp_apply_call :=
  eapply wp_call; [solve [eauto with specs] | wp_cx | lia | wp_intro_cost].

Ltac wp_step :=
  lazymatch goal with
  | |- wp _ (mbind _ _) _ _ => apply wp_bind
  | |- wp _ (mret _) _ _ => apply wp_ret; wp_pre
  | |- wp _ (continue_ _) _ _ => apply wp_ret; wp_pre
  | |- wp _ (break_ _) _ _ => apply wp_ret; wp_pre
  | |- wp _ (gets _) _ _ => apply wp_gets; wp_pre
  | |- wp _ (ask _) _ _ =>
      let a := fresh "a" in let E := fresh "E" in
      eapply wp_ask; [solve [eauto with specs] | intros a E; wp_pre]
  | |- wp _ skip _ _ => apply wp_skip; wp_pre
  | |- wp _ (when _ _) _ _ => unfold when
  | |- wp _ (if ?b then _ else _) _ _ => let E := fresh "E" in destruct b eqn:E; wp_pre
  | |- wp _ start _ _ =>
      let m := fresh "m" in eapply wp_start; [wp_cx | intros m; wp_intro_same]
  | |- wp _ (complete_ _ _) _ _ => eapply complete_error; [wp_cx | wp_intro_same]
  | |- wp _ (complete _ _) _ _ =>
      let c := fresh "c" in eapply wp_complete; [wp_cx | intros c; wp_intro_same]
  | |- wp _ (precede _) _ _ =>
      let m := fresh "m" in eapply wp_precede; [wp_cx | intros m; wp_intro_same]
  | |- wp _ (abandon _) _ _ => eapply wp_abandon; [wp_cx | wp_intro_same]
  | |- wp _ (emit_missing _) _ _ => eapply wp_emit_missing; [wp_cx | wp_intro_same]
  | |- wp _ (error_custom_at_marker _ _) _ _ =>
      eapply wp_emit_error_at_marker; [wp_cx | wp_intro_same]
  | |- wp _ check_iteration_limit _ _ => eapply wp_check; [wp_cx | lia | wp_intro_same]
  | |- wp _ bump _ _ => eapply wp_bump; [eassumption | wp_cx | wp_intro_bump]
  | |- wp _ bump_removed _ _ => eapply wp_bump_removed; [wp_cx | wp_intro_bump]
  | |- wp _ (eat _) _ _ =>
      eapply wp_eat; [eassumption | wp_cx
        | let E := fresh "E" in let p := fresh "p" in let HC := fresh "HC" in
          let H1 := fresh "Hpos" in let H2 := fresh "Hpot" in let H3 := fresh "Hkeep" in
          intros E p HC (H1 & H2 & H3) ?; wp_pre
        | let E := fresh "E" in intros E; wp_pre]
  | |- wp _ (within_boundary _ _) _ _ =>
      let p := fresh "p" in let HC := fresh "HC" in let Hp := fresh "Hp" in let Hq := fresh "Hq" in
      eapply wp_within; [wp_cx | intros p HC Hp Hq; wp_pre]
  | |- wp _ _ _ _ => wp_apply_call
  | |- Cx _ _ _ _ _ /\ (forall _, _) =>
      let p := fresh "p" in let HC := fresh "HC" in let Hp := fresh "Hp" in let Hq := fresh "Hq" in
      split; [wp_cx | intros p HC Hp Hq; wp_pre]
  | |- _ /\ _ => split
  | |- Cx _ _ _ _ _ => wp_cx
  | |- Cost _ _ _ _ => cost
  | |- True => exact I
  | |- takes _ _ _ => first [cost | solve [solve_takes]]
  | |- (_ < _)%nat => cost
  | |- _ -> (_ < _)%nat => solve [intros; cost]
  end.

Ltac wp_start_rule := 
  let Hi := fresh "Hi" in let Hpot := fresh "Hslack" in
  intros Hi Hpot; pose proof (Cx_start _ _ Hi); wp_facts.

Ltac wp_auto := repeat wp_step.

(** A loop keeps the stack and pays [c] for what it consumes. *)
Ltac wp_intro_turn :=
  let q := fresh "q" in let HC := fresh "HC" in let H1 := fresh "Hpos" in
  let H2 := fresh "Hpot" in let H3 := fresh "Hpay" in let Hf := fresh "Hfrom" in
  intros q HC (H1 & H2 & H3) Hf.

Ltac wp_while c :=
  let Hc := fresh "Hcond" in
  eapply (wp_while _ _ c); [wp_cx | wp_intro_turn; intros Hc; wp_pre | wp_intro_turn; intros Hc; wp_pre].

Ltac wp_while_ask c :=
  let Hc := fresh "Hcond" in
  eapply (wp_while_ask _ _ c); [wp_cx | solve [eauto with specs] | wp_intro_turn; intros Hc; wp_pre
    | wp_intro_turn; intros Hc; wp_pre].

Ltac wp_loop c := eapply (wp_loop_cx _ _ c); [wp_cx | wp_intro_turn; wp_pre].
