(* ===== verification/Directives.v ===== *)
(** Directives: preprocessor rules that hold no statements (crates/parser/src/grammar.rs).

    Region markers, removed and inserted blocks, preprocessor conditions and the two ends of a torn
    conditional group.  The rules whose content is statements are in Grammar. *)
From stdpp Require Import prelude strings.
From S2P Require Import Prelude Kinds Tokens Input TornIf ParserCore.

(** ** Flat markers *)

Definition preprocessor_region : M unit :=
  m ← start;
  bump;;
  named ← gets (fun p => negb (parser_line_break_precedes p) && at_ T![Ident] p);
  when named bump;;
  complete_ m NK.PreRegionDir.

Definition preprocessor_end_region : M unit :=
  m ← start;
  bump;;
  complete_ m NK.PreRegionDir.

Definition preprocessor_delete : M unit :=
  m ← start;
  bump;;
  while_ (fun p => negb (at_end p) && negb (at_ T![PreEndDelete] p))
    (check_iteration_limit;; bump);;
  eat_ T![PreEndDelete];;
  complete_ m NK.PreDeleteDir.

Definition preprocessor_insert : M unit :=
  m ← start;
  bump;;
  while_ (fun p => negb (at_end p) && negb (at_ T![PreEndInsert] p))
    (check_iteration_limit;; bump);;
  eat_ T![PreEndInsert];;
  complete_ m NK.PreInsertDir.

(** ** Preprocessor conditions *)

Definition preproc_symbol : M unit :=
  m ← start;
  here ← gets current;
  match here with
  | Some T![Ident] => bump
  | _ => error_unexpected
  end;;
  complete_ m NK.PreSymbol.

Definition at_bool_op (p : Parser) : bool :=
  match current p with Some T![KwAnd] | Some T![KwOr] => true | _ => false end.

Section condition.
  Context (preproc_logical_operand : M unit).

Definition preproc_logical_expression_body : M unit :=
  m ← start;
  preproc_logical_operand;;
  while_ at_bool_op
    (check_iteration_limit;;
     op_m ← start;
     bump;;
     complete_ op_m NK.PreBoolOp;;
     preproc_logical_operand);;
  complete_ m NK.PreLogicalExpr.

Definition preproc_logical_operand_body : M unit :=
  m ← start;
  paren ← gets (at_ T![LParen]);
  (if (paren : bool) then
     bump;;
     within_boundary at_closing_paren
       (negated ← gets (at_ T![KwNot]);
        if (negated : bool) then bump;; preproc_logical_operand
        else preproc_logical_expression_body);;
     expect_ T![RParen]
   else
     negated ← gets (at_ T![KwNot]);
     if (negated : bool) then bump;; preproc_logical_operand
     else preproc_symbol);;
  complete_ m NK.PreLogicalOperand.
End condition.

Definition preproc_logical_operand : M unit :=
  rec_ out_of_fuel preproc_logical_operand_body id.

Definition preproc_logical_expression : M unit :=
  preproc_logical_expression_body preproc_logical_operand.

Definition preproc_expression : M unit :=
  m ← start;
  preproc_logical_expression;;
  complete_ m NK.PreExpr.

(** ** Torn conditional groups *)

Definition torn_preprocessor_if : M unit :=
  here ← ask torn_if_here;
  match here with
  | None => skip
  | Some group =>
      m ← start;
      bump;;
      within_boundary preproc_at_then preproc_expression;;
      expect_ T![KwThen];;
      match active group with
      | Some (start, end_) =>
          bump_removed_until start;;
          open_torn_if end_ (close group)
      | None => bump_removed_until (close group + 1)
      end;;
      complete_ m NK.PreTornIfPart
  end.

Definition torn_preprocessor_if_end : M unit :=
  closed ← close_torn_if;
  match closed with
  | None => skip
  | Some close =>
      m ← start;
      bump_removed_until (close + 1);;
      complete_ m NK.PreTornIfPart
  end.

(** ** Markers inside an expression (crates/parser/src/grammar/expressions.rs) *)

Definition at_inline_directive (p : Parser) : option bool :=
  match current p with
  | Some T![PreInsert] | Some T![PreDelete] => Some true
  | Some T![PreEndInsert] => Some (inline_insert_open p)
  | Some T![PreIf] => at_torn_if_inline p
  | Some T![PreElsIf] | Some T![PreElse] | Some T![PreEndIf] => Some (at_torn_if_end p)
  | _ => Some false
  end.

Definition at_closed_inline_insert (p : Parser) : bool := insert_here_is_closed p.

Definition inline_delete : M unit :=
  m ← start;
  bump_removed;;
  while_ (fun p => negb (at_end p) && negb (at_ T![PreEndDelete] p))
    (check_iteration_limit;; bump_removed);;
  closed ← gets (at_ T![PreEndDelete]);
  when closed bump_removed;;
  complete_ m NK.PreDeleteDir.

Definition inline_directive : M unit := fun p =>
  (if at_ T![PreIf] p then torn_preprocessor_if
   else if at_torn_if_end p then torn_preprocessor_if_end
   else if at_ T![PreDelete] p then inline_delete
   else if at_ T![PreInsert] p && negb (at_closed_inline_insert p) then
     m ← start;
     bump;;
     error_custom_at_marker m "директива #Вставка без #КонецВставки"
   else bump_inline_insert_marker) p.

Definition inline_directives : M unit :=
  while_ask at_inline_directive (check_iteration_limit;; inline_directive).

(** Behind the closer of the removal that starts [n] tokens ahead, when it has one. *)
Fixpoint removed_ahead (p : Parser) (fuel n : nat) : option nat :=
  match fuel with
  | O => None
  | S fuel =>
      match nth (S n) p with
      | Some T![PreEndDelete] => Some (S (S n))
      | Some _ => removed_ahead p fuel (S n)
      | None => None
      end
  end.

Fixpoint inline_before_loop (p : Parser) (continues : Sig -> bool) (fuel n : nat) (open : Z)
    (torn : list (nat * nat)) : option bool :=
  match fuel with
  | O => Some false
  | S fuel =>
      skipped ← torn_if_skip n torn p;
      match skipped with
      | (Some resume, torn) => inline_before_loop p continues fuel resume open torn
      | (None, torn) =>
          let otherwise next := Some ((0 <? n)%nat && continues next) in
          match nth n p with
          | Some T![PreInsert] =>
              open ← u32_sum open 1; inline_before_loop p continues fuel (S n) open torn
          | Some T![PreEndInsert] =>
              if (0 <? open)%Z then inline_before_loop p continues fuel (S n) (open - 1) torn
              else otherwise T![PreEndInsert]
          | Some T![PreDelete] =>
              match removed_ahead p (S (remaining p)) n with
              | Some n => inline_before_loop p continues fuel n open torn
              | None => Some false
              end
          | Some next => otherwise next
          | None => Some false
          end
      end
  end.

(** Every turn moves the look-ahead forward, and it ends at the end of input. *)
Definition at_inline_directives_before (continues : Sig -> bool) (p : Parser) : option bool :=
  inline_before_loop p continues (S (S (remaining p))) 0 (open_inline_inserts p) [].

Definition inline_directives_before (continues : Sig -> bool) : M unit :=
  here ← ask (at_inline_directives_before continues);
  when here inline_directives.

Definition TORN_EXPRESSION_CONTINUATION : TokenSet.t :=
  TokenSet.new
    [ T![KwOr]; T![KwAnd]; T![Eq]; T![Neq]; T![Lt]; T![Le]; T![Gt]; T![Ge]; T![Plus]; T![Minus];
      T![Star]; T![Slash]; T![Percent]; T![Dot]; T![LBracket]; T![LParen]; T![RParen];
      T![RBracket]; T![Comma]; T![KwThen]; T![KwDo]; T![KwTo] ].

Definition continue_across_inline_directives : M bool :=
  closer ← gets (fun p => at_ T![PreEndInsert] p && inline_insert_open p);
  if (closer : bool) then bump_inline_insert_marker;; mret true
  else
    torn ← ask (fun p => if at_torn_if_end p then Some true else at_torn_if_inline p);
    here ← ask (at_inline_directives_before (fun kind =>
      TokenSet.contains TORN_EXPRESSION_CONTINUATION kind ||
      (torn && bool_decide (kind = T![Semicolon]))));
    if (here : bool) then inline_directives;; mret true else mret false.
