(* ===== verification/Expressions.v ===== *)
(** Expressions: the expression rules (crates/parser/src/grammar/expressions.rs). *)
From stdpp Require Import prelude strings.
From S2P Require Import Prelude Kinds Tokens Input TornIf ParserCore Directives.

Definition CROSS_LINE_PROPERTY_NAME_TOKENS : TokenSet.t :=
  TokenSet.new
    [ T![Ident]; T![KwProcedure]; T![KwFunction]; T![KwExecute]; T![KwGoto]; T![KwBreak];
      T![KwContinue]; T![KwTo]; T![KwTrue]; T![KwFalse]; T![KwUndefined]; T![KwNull]; T![KwNew] ].

(** ** String literals *)

Definition string_continuation_tail : M unit :=
  loop (fun _ : unit =>
    check_iteration_limit;;
    here ← gets current;
    inline ← ask at_inline_directive;
    match here with
    | Some T![StringTail] | Some T![String] => bump;; break_ tt
    | Some T![StringPart] => bump;; continue_ tt
    | other =>
        if (inline : bool) then inline_directives;; continue_ tt
        else match other with
             | None => error_custom "незакрытая многострочная строка";; break_ tt
             | Some _ => error_custom "неожиданный токен в многострочной строке";; break_ tt
             end
    end) tt.

Definition at_adjacent_string_literal (p : Parser) : bool :=
  match current p with Some T![String] | Some T![StringStart] => true | _ => false end.

Definition string_literal : M CompletedMarker :=
  m ← start;
  loop (fun _ : unit =>
    here ← gets current;
    let next :=
      adjacent ← gets at_adjacent_string_literal;
      if (adjacent : bool) then continue_ tt else break_ tt in
    match here with
    | Some T![String] => bump;; next
    | Some T![StringStart] => bump;; string_continuation_tail;; next
    | _ => break_ tt
    end) tt;;
  complete m NK.Literal.

(** ** The rules around [expression] *)

Definition continues_the_surrounding_expression (p : Parser) : bool :=
  match current p with
  | Some T![KwOr] | Some T![KwAnd] | Some T![Eq] | Some T![Neq] | Some T![Lt] | Some T![Le]
  | Some T![Gt] | Some T![Ge] | Some T![Plus] | Some T![Minus] | Some T![Star] | Some T![Slash]
  | Some T![Percent] | Some T![Dot] | Some T![LBracket] => true
  | _ => false
  end.

Section rules.
  Context (expression : M unit).

Definition await_expr : M CompletedMarker :=
  m ← start;
  bump;;
  expression;;
  complete m NK.AwaitExpr.

Definition ternary_expr : M CompletedMarker :=
  m ← start;
  bump;;
  opened ← eat T![LParen];
  if (opened : bool) then
    within_boundary at_paren_list_punctuation
      (expression;; expect_ T![Comma];; expression;; expect_ T![Comma];; expression);;
    expect_ T![RParen];;
    complete m NK.TernaryExpr
  else
    continued ← gets continues_the_surrounding_expression;
    (if (continued : bool) then expect_no_bump T![LParen];; skip else expect_ T![LParen]);;
    complete m NK.TernaryExpr.

Definition argument : M unit :=
  empty ← gets (fun p => at_ T![Comma] p || at_ T![RParen] p);
  when (negb empty) expression.

Definition arg_list : M unit :=
  m ← start;
  bump;;
  within_boundary at_paren_list_punctuation
    (inline_directives;;
     closed ← gets (at_ T![RParen]);
     when (negb closed)
       (argument;;
        loop (fun _ : unit =>
          more ← eat T![Comma];
          if (more : bool) then check_iteration_limit;; inline_directives;; argument;; continue_ tt
          else break_ tt) tt));;
  expect_ T![RParen];;
  complete_ m NK.ArgList.

Definition new_expr : M CompletedMarker :=
  m ← start;
  bump;;
  inline_directives_before (fun kind =>
    bool_decide (kind = T![Ident]) || bool_decide (kind = T![LParen]));;
  eat_ T![Ident];;
  inline_directives_before (fun kind => bool_decide (kind = T![LParen]));;
  here ← gets (at_ T![LParen]);
  when here arg_list;;
  complete m NK.NewExpr.

Definition one_token (kind : NK.NodeKind) : M (option CompletedMarker) :=
  m ← start;
  bump;;
  c ← complete m kind;
  mret (Some c).

Definition primary_expr : M (option CompletedMarker) :=
  here ← gets current;
  match here with
  | Some T![Decimal] | Some T![Float] | Some T![Date] => one_token NK.Literal
  | Some T![String] | Some T![StringStart] => c ← string_literal; mret (Some c)
  | Some T![StringPart] | Some T![StringTail] =>
      error_custom "неожиданный фрагмент строки";; mret None
  | Some T![KwTrue] | Some T![KwFalse] => one_token NK.Literal
  | Some T![KwUndefined] | Some T![KwNull] => one_token NK.Literal
  | Some T![KwAwait] => c ← await_expr; mret (Some c)
  | Some T![Ident] => one_token NK.Ident
  | Some T![LParen] =>
      m ← start;
      bump;;
      within_boundary at_closing_paren expression;;
      expect_ T![RParen];;
      c ← complete m NK.ParenExpr;
      mret (Some c)
  | Some T![KwNew] => c ← new_expr; mret (Some c)
  | Some T![Question] => c ← ternary_expr; mret (Some c)
  | _ => error_unexpected;; mret None
  end.

(** The state of the loop: the operand read so far, whether it is a constructor not yet followed
    by anything, and whether what was read can stand as a statement. *)
Record Postfix : Set := MkPostfix {
  lhs : CompletedMarker;
  postfix_after_constructor : bool;
  is_valid_statement : bool;
}.

(** The dot and the name behind it; [None] when the name is missing and the chain ends. *)
Definition field_access (s : Postfix) : M (option CompletedMarker) :=
  m ← precede (lhs s);
  (if postfix_after_constructor s then
     dot ← start;
     bump;;
     error_custom_at_marker dot
       "после конструктора нельзя обращаться к свойству или методу напрямую"
   else bump);;
  inline_directives_before (fun kind => bool_decide (kind = T![Ident]) || sig_is_keyword kind);;
  crossed_newline ← gets parser_line_break_precedes;
  is_orphaned_declaration ← gets (fun p => crossed_newline && at_declaration_start p);
  at_property_name ← gets (fun p =>
    if (crossed_newline : bool) then at_ts CROSS_LINE_PROPERTY_NAME_TOKENS p
    else at_ T![Ident] p || at_current_keyword p);
  if at_property_name && negb is_orphaned_declaration then
    bump;;
    c ← complete m NK.FieldExpr;
    mret (Some c)
  else
    error_custom_no_bump "ожидалось имя свойства после '.'";;
    complete_ m NK.FieldExpr;;
    mret None.

Definition index_access (s : Postfix) : M CompletedMarker :=
  m ← precede (lhs s);
  bump;;
  within_boundary at_closing_bracket expression;;
  expect_ T![RBracket];;
  complete m NK.IndexExpr.

Definition call_access (s : Postfix) : M CompletedMarker :=
  m ← precede (lhs s);
  arg_list;;
  complete m NK.CallExpr.

Definition postfix_turn (s : Postfix) : M (Postfix + bool) :=
  check_iteration_limit;;
  here ← gets current;
  match here with
  | Some T![Dot] =>
      field ← field_access s;
      match field with
      | Some lhs => continue_ (MkPostfix lhs false false)
      | None => break_ (is_valid_statement s)
      end
  | Some T![LBracket] => lhs ← index_access s; continue_ (MkPostfix lhs false true)
  | Some T![LParen] => lhs ← call_access s; continue_ (MkPostfix lhs false true)
  | Some T![PreInsert] | Some T![PreEndInsert] | Some T![PreDelete] | Some T![PreIf]
  | Some T![PreElsIf] | Some T![PreElse] | Some T![PreEndIf] =>
      taken ← continue_across_inline_directives;
      if (taken : bool) then continue_ s else break_ (is_valid_statement s)
  | _ => break_ (is_valid_statement s)
  end.

Definition postfix_expr_with_call_info : M bool :=
  constructor ← gets (at_ T![KwNew]);
  primary ← primary_expr;
  match primary with
  | None => mret false
  | Some lhs => loop postfix_turn (MkPostfix lhs constructor false)
  end.

Definition postfix_expr : M unit := postfix_expr_with_call_info;; skip.

Definition unary_expr : M unit :=
  rec_ out_of_fuel (fun unary_expr =>
    inline_directives;;
    here ← gets current;
    match here with
    | Some T![Plus] | Some T![Minus] => bump;; unary_expr
    | _ => postfix_expr
    end) id.

(** One turn of a level of binary operators: the operand read so far becomes the left side of a
    node that takes the operator and the right side. *)
Definition binary_turn (operand : M unit) (lhs : Marker) : M Marker :=
  c ← complete lhs NK.Expr;
  m ← precede c;
  bump;;
  rhs ← start;
  operand;;
  complete_ rhs NK.Expr;;
  c ← complete m NK.BinaryExpr;
  precede c.

(** A level whose loop asks the iteration guard on every turn. *)
Definition binary_level (operator : Parser -> bool) (operand : M unit) : M unit :=
  lhs ← start;
  operand;;
  lhs ← loop (fun lhs =>
    go ← gets operator;
    if (go : bool) then
      check_iteration_limit;;
      lhs ← binary_turn operand lhs;
      continue_ lhs
    else break_ lhs) lhs;
  complete_ lhs NK.Expr.

Definition at_multiplicative (p : Parser) : bool :=
  match current p with Some T![Star] | Some T![Slash] | Some T![Percent] => true | _ => false end.

Definition multiplicative_expr : M unit := binary_level at_multiplicative unary_expr.

Definition at_additive (p : Parser) : bool :=
  match current p with Some T![Plus] | Some T![Minus] => true | _ => false end.

Definition additive_expr : M unit := binary_level at_additive multiplicative_expr.

Definition at_comparison (p : Parser) : bool :=
  match current p with
  | Some T![Eq] | Some T![Neq] | Some T![Lt] | Some T![Le] | Some T![Gt] | Some T![Ge] => true
  | _ => false
  end.

Definition comparison_expr : M unit :=
  lhs ← start;
  additive_expr;;
  r ← loop (fun '(lhs, saw_comparison) =>
    go ← gets at_comparison;
    if (go : bool) then
      lhs ← binary_turn additive_expr lhs;
      continue_ (lhs, true)
    else break_ (lhs, saw_comparison)) (lhs, false);
  let '(lhs, saw_comparison) := r in
  if (saw_comparison : bool) then complete_ lhs NK.Expr else abandon lhs.

Definition not_expr : M unit :=
  rec_ out_of_fuel (fun not_expr =>
    inline_directives;;
    negated ← gets (at_ T![KwNot]);
    if (negated : bool) then
      m ← start;
      bump;;
      not_expr;;
      complete_ m NK.UnaryExpr
    else comparison_expr) id.

Definition and_expr : M unit := binary_level (at_ T![KwAnd]) not_expr.

Definition or_expr : M unit := binary_level (at_ T![KwOr]) and_expr.
End rules.

Definition expression : M unit := rec_ out_of_fuel or_expr id.

Definition postfix_expression_for_assignment : M bool := postfix_expr_with_call_info expression.
