(* ===== verification/Grammar.v ===== *)
(** Grammar: statements, items and the source file (crates/parser/src/grammar/statements.rs,
    grammar/items.rs and grammar.rs).

    Statements, conditional groups and the definitions inside them call each other.  The rules that
    close the cycle, [statement] and [preprocessor_if], are reached only behind a token consumed
    (the word of the statement around them, or the [#If]), and the bodies below take them as a
    record [Rules]. *)
From stdpp Require Import prelude strings.
From S2P Require Import Prelude Kinds Tokens Input TornIf ParserCore Directives Expressions.

(** ** Items without statements *)

Definition compiler_directive : M unit :=
  m ← start;
  bump;;
  complete_ m NK.CompilerDirective.

Definition at_signed_number (p : Parser) : bool := at_ T![Decimal] p || at_ T![Float] p.

Definition annotation_param_value : M unit :=
  here ← gets current;
  match here with
  | Some T![Decimal] | Some T![Float] | Some T![String] | Some T![Date] | Some T![KwTrue]
  | Some T![KwFalse] | Some T![KwUndefined] | Some T![KwNull] => bump
  | Some T![Minus] | Some T![Plus] =>
      bump;;
      number ← gets at_signed_number;
      when number bump
  | _ => error_unexpected
  end.

Definition annotation_param : M unit :=
  m ← start;
  named ← gets (at_ T![Ident]);
  (if (named : bool) then
     bump;;
     valued ← eat T![Eq];
     when valued annotation_param_value
   else annotation_param_value);;
  complete_ m NK.AnnotationParam.

(** [item(p); while p.eat(Comma) { check; item(p) }] *)
Definition comma_list (item : M unit) : M unit :=
  item;;
  loop (fun _ : unit =>
    more ← eat T![Comma];
    if (more : bool) then check_iteration_limit;; item;; continue_ tt else break_ tt) tt.

Definition annotation_params : M unit :=
  m ← start;
  bump;;
  within_boundary at_paren_list_punctuation
    (closed ← gets (at_ T![RParen]);
     when (negb closed) (comma_list annotation_param));;
  expect_ T![RParen];;
  complete_ m NK.AnnotationParams.

Definition annotation : M unit :=
  m ← start;
  bump;;
  here ← gets (at_ T![LParen]);
  when here annotation_params;;
  complete_ m NK.Annotation.

Definition report_missing_name (expected : String.string) : M unit :=
  silent ← gets (fun p => at_end p || at_error p);
  when (negb silent) (error_custom_no_bump expected).

Definition param : M unit :=
  m ← start;
  eat_ T![KwVal];;
  named ← gets (at_ T![Ident]);
  (if (named : bool) then bump
   else
     report ← gets (fun p =>
       negb (at_end p) && negb (at_enclosing_boundary p) && negb (at_error p) &&
       negb (at_ T![Eq] p));
     when report (error_custom "ожидалось имя параметра"));;
  default ← eat T![Eq];
  when default expression;;
  complete_ m NK.Param.

Definition param_list : M unit :=
  m ← start;
  bump;;
  within_boundary at_paren_list_punctuation
    (closed ← gets (at_ T![RParen]);
     when (negb closed) (comma_list param));;
  expect_ T![RParen];;
  complete_ m NK.ParamList.

Definition variable_name : M unit :=
  named ← gets (at_ T![Ident]);
  (if (named : bool) then bump else report_missing_name "ожидалось имя переменной");;
  eat_ T![KwExport].

Definition var_declaration_content : M unit :=
  bump;;
  comma_list variable_name;;
  eat_ T![Semicolon].

Definition var_declaration : M unit :=
  m ← start;
  var_declaration_content;;
  complete_ m NK.VarDef.

(** ** Statements without statements inside *)

Definition at_end_of_statement (p : Parser) : bool :=
  at_ T![Semicolon] p || at_end p || at_enclosing_boundary p.

(** A word alone: [Break], [Continue]. *)
Definition word_stmt (kind : NK.NodeKind) : M unit :=
  m ← start;
  bump;;
  eat_ T![Semicolon];;
  complete_ m kind.

Definition empty_stmt : M unit :=
  m ← start;
  bump;;
  complete_ m NK.EmptyStmt.

Definition return_stmt : M unit :=
  m ← start;
  bump;;
  ended ← gets at_end_of_statement;
  when (negb ended) expression;;
  eat_ T![Semicolon];;
  complete_ m NK.ReturnStmt.

Definition parse_raise_call_args : M unit :=
  opened ← gets (at_ T![LParen]);
  (if (opened : bool) then skip else panic AssertionFailed);;
  bump;;
  within_boundary at_paren_list_punctuation
    (loop (fun _ : unit =>
       go ← gets (fun p => negb (at_ T![RParen] p) && negb (at_end p));
       if (go : bool) then
         check_iteration_limit;;
         argument expression;;
         comma ← gets (at_ T![Comma]);
         closed ← gets (at_ T![RParen]);
         if (comma : bool) then bump;; continue_ tt
         else if (closed : bool) then continue_ tt else break_ tt
       else break_ tt) tt);;
  expect_ T![RParen].

Definition raise_stmt : M unit :=
  m ← start;
  bump;;
  call ← gets (at_ T![LParen]);
  ended ← gets at_end_of_statement;
  (if (call : bool) then parse_raise_call_args else when (negb ended) expression);;
  eat_ T![Semicolon];;
  complete_ m NK.RaiseStmt.

Definition goto_stmt : M unit :=
  m ← start;
  bump;;
  tilde ← eat T![Tilde];
  named ← gets (fun p =>
    at_ T![Ident] p || (tilde && at_current_keyword p && negb (parser_gap_precedes p)));
  when named bump;;
  eat_ T![Semicolon];;
  complete_ m NK.GotoStmt.

Definition label_stmt : M unit :=
  m ← start;
  bump;;
  keyword_name ← gets (fun p =>
    at_current_keyword p && negb (parser_gap_precedes p) &&
    bool_decide (nth 1 p = Some T![Colon]));
  (if (keyword_name : bool) then bump else expect_ T![Ident]);;
  expect_ T![Colon];;
  complete_ m NK.LabelStmt.

Definition execute_stmt : M unit :=
  m ← start;
  bump;;
  expression;;
  eat_ T![Semicolon];;
  complete_ m NK.ExecuteStmt.

(** [AddHandler] and [RemoveHandler]. *)
Definition handler_stmt (kind : NK.NodeKind) : M unit :=
  m ← start;
  bump;;
  within_boundary at_handler_comma (expression;; expect_ T![Comma]);;
  expression;;
  eat_ T![Semicolon];;
  complete_ m kind.

Definition assignment_or_call : M bool :=
  m ← start;
  is_valid_stmt ← postfix_expression_for_assignment;
  assigned ← eat T![Eq];
  if (assigned : bool) then
    expression;;
    complete_ m NK.AssignStmt;;
    eat_ T![Semicolon];;
    mret false
  else if (is_valid_stmt : bool) then
    complete_ m NK.CallStmt;;
    eat_ T![Semicolon];;
    mret false
  else
    error_custom_at_marker m "ожидался вызов или присваивание";;
    eat_ T![Semicolon];;
    mret true.

Definition expect_stmt_list_terminator (terminator : Sig) (closer_typo : bool) : M unit :=
  here ← gets (at_ terminator);
  when (here || negb closer_typo) (expect_ terminator).

(** A header's condition, read up to the word the header waits for. *)
Definition expression_before (b : Boundary) : M unit := within_boundary b expression.

(** ** The recursive rules *)

Record Rules : Type := MkRules {
  r_statement : M bool;
  r_preprocessor_if : M unit;
}.

Section grammar.
  Context `{CharCase} (rules : Rules).

Definition list_ends (terminators : list Sig) (p : Parser) : bool :=
  at_end p || existsb (fun t => at_ t p) terminators || at_enclosing_boundary p.

(** The closers whose misspelling the recovered word at [head] is. *)
Definition closer_typos (closers : list Sig) (head : nat) (typos : TokenSet.t) (p : Parser)
    : TokenSet.t :=
  foldl (fun typos closer =>
    if resembles_closer head closer p then TokenSet.union typos (TokenSet.new [closer]) else typos)
    typos closers.

Definition stmt_list_of (terminators closers : list Sig) : M TokenSet.t :=
  m ← start;
  typos ← loop (fun typos : TokenSet.t =>
    ended ← gets (list_ends terminators);
    if (ended : bool) then break_ typos
    else
      check_iteration_limit;;
      ended ← gets (list_ends terminators);
      if (ended : bool) then break_ typos
      else
        head ← gets token_pos;
        recovered ← r_statement rules;
        if (recovered : bool) then
          typos ← gets (closer_typos closers head typos);
          continue_ typos
        else continue_ typos) TokenSet.empty;
  complete_ m NK.StmtList;;
  mret typos.

Definition stmt_list (terminator : Sig) : M bool :=
  typos ← stmt_list_of [terminator] [terminator];
  mret (negb (TokenSet.is_empty typos)).

Definition if_typos : M TokenSet.t :=
  stmt_list_of [T![KwElsIf]; T![KwElse]; T![KwEndIf]] [T![KwEndIf]].

Definition if_stmt : M unit :=
  m ← start;
  bump;;
  recovered ← within_boundary at_if_closer
    (expression_before at_then;;
     expect_ T![KwThen];;
     recovered ← if_typos;
     recovered ← loop (fun recovered : TokenSet.t =>
       clause ← gets (at_ T![KwElsIf]);
       if (clause : bool) then
         check_iteration_limit;;
         em ← start;
         bump;;
         expression_before at_then;;
         expect_ T![KwThen];;
         typos ← if_typos;
         complete_ em NK.ElseIfClause;;
         continue_ (TokenSet.union recovered typos)
       else break_ recovered) recovered;
     clause ← gets (at_ T![KwElse]);
     if (clause : bool) then
       em ← start;
       bump;;
       typos ← stmt_list_of [T![KwEndIf]] [T![KwEndIf]];
       complete_ em NK.ElseClause;;
       mret (TokenSet.union recovered typos)
     else mret recovered);
  expect_stmt_list_terminator T![KwEndIf] (TokenSet.contains recovered T![KwEndIf]);;
  eat_ T![Semicolon];;
  complete_ m NK.IfStmt.

Definition while_stmt : M unit :=
  m ← start;
  bump;;
  recovered ← within_boundary at_end_do
    (expression_before at_do;;
     expect_ T![KwDo];;
     stmt_list T![KwEndDo]);
  expect_stmt_list_terminator T![KwEndDo] recovered;;
  eat_ T![Semicolon];;
  complete_ m NK.WhileStmt.

Definition for_each_rest (m : Marker) : M unit :=
  recovered ← within_boundary at_end_do
    (bump;;
     eat_ T![Ident];;
     within_boundary at_do (expect_ T![KwIn];; expression);;
     expect_ T![KwDo];;
     stmt_list T![KwEndDo]);
  expect_stmt_list_terminator T![KwEndDo] recovered;;
  eat_ T![Semicolon];;
  complete_ m NK.ForEachStmt.

Definition for_to_rest (m : Marker) : M unit :=
  recovered ← within_boundary at_end_do
    (eat_ T![Ident];;
     expect_ T![Eq];;
     within_boundary at_to_or_do (expression;; expect_ T![KwTo]);;
     expression_before at_do;;
     expect_ T![KwDo];;
     stmt_list T![KwEndDo]);
  expect_stmt_list_terminator T![KwEndDo] recovered;;
  eat_ T![Semicolon];;
  complete_ m NK.ForStmt.

Definition for_stmt : M unit :=
  m ← start;
  bump;;
  each ← gets (at_ T![KwEach]);
  if (each : bool) then for_each_rest m else for_to_rest m.

Definition try_stmt : M unit :=
  m ← start;
  bump;;
  typos ← within_boundary at_try_closer
    (body_typos ← stmt_list_of [T![KwExcept]] [T![KwExcept]; T![KwEndTry]];
     expect_stmt_list_terminator T![KwExcept] (TokenSet.contains body_typos T![KwExcept]);;
     em ← start;
     except_typos ← stmt_list_of [T![KwEndTry]] [T![KwEndTry]];
     complete_ em NK.ExceptClause;;
     mret (body_typos, except_typos));
  expect_stmt_list_terminator T![KwEndTry]
    (TokenSet.contains typos.1 T![KwEndTry] || TokenSet.contains typos.2 T![KwEndTry]);;
  eat_ T![Semicolon];;
  complete_ m NK.TryStmt.

(** *** Definitions *)

(** [procedure_def_content] and [function_def_content], which differ in their words. *)
Definition def_content (word closer : Sig) (at_closer : Boundary) (missing : String.string)
    : M unit :=
  forget_inline_inserts;;
  outer_crossed ← take_crossed_preproc_ifs;
  eat_ T![KwAsync];;
  expect_ word;;
  recovered ← within_boundary at_closer
    (named ← gets (fun p =>
       at_ T![Ident] p || (at_current_keyword p && negb (at_ closer p)));
     unnamed ← gets (at_ closer);
     (if (named : bool) then bump else when unnamed (report_missing_name missing));;
     params ← gets (at_ T![LParen]);
     when params param_list;;
     eat_ T![KwExport];;
     stmt_list closer);
  expect_stmt_list_terminator closer recovered;;
  restore_crossed_preproc_ifs outer_crossed.

Definition procedure_def_content : M unit :=
  def_content T![KwProcedure] T![KwEndProcedure] at_end_procedure "ожидалось имя процедуры".

Definition function_def_content : M unit :=
  def_content T![KwFunction] T![KwEndFunction] at_end_function "ожидалось имя функции".

Definition procedure_def : M unit :=
  m ← start;
  procedure_def_content;;
  complete_ m NK.ProcedureDef.

Definition function_def : M unit :=
  m ← start;
  function_def_content;;
  complete_ m NK.FunctionDef.

Definition at_annotation (p : Parser) : bool :=
  match current p with Some k => is_annotation_word k | None => false end.

Definition at_compiler_directive (p : Parser) : bool :=
  match current p with
  | Some T![AnnAtClient] | Some T![AnnAtServer] | Some T![AnnAtServerNoContext]
  | Some T![AnnAtClientAtServer] | Some T![AnnAtClientAtServerNoContext] => true
  | _ => false
  end.

Definition at_folding_marker (p : Parser) : bool :=
  match current p with Some T![PreRegion] | Some T![PreEndRegion] => true | _ => false end.

Definition annotated_item : M unit :=
  outer ← start;
  within_boundary at_item_start
    (while_ at_annotation
       (check_iteration_limit;;
        directive ← gets at_compiler_directive;
        if (directive : bool) then compiler_directive else annotation);;
     while_ (fun p => at_folding_marker p || at_torn_if_end p)
       (check_iteration_limit;;
        here ← gets current;
        match here with
        | Some T![PreRegion] => preprocessor_region
        | Some T![PreEndRegion] => preprocessor_end_region
        | _ => torn_preprocessor_if_end
        end));;
  here ← gets current;
  next ← gets (nth 1);
  match here, next with
  | Some T![KwAsync], Some T![KwProcedure] | Some T![KwProcedure], _ =>
      procedure_def_content;; complete_ outer NK.ProcedureDef
  | Some T![KwAsync], Some T![KwFunction] | Some T![KwFunction], _ =>
      function_def_content;; complete_ outer NK.FunctionDef
  | Some T![KwVar], _ => var_declaration_content;; complete_ outer NK.VarDef
  | _, _ => abandon outer;; error_unexpected
  end.

(** *** Content of a module and of a conditional group *)

(** The dispatch shared by [source_file] and [preproc_content]: an item, a directive or a
    statement.  The two rules that close the recursion are arguments. *)
Definition item : M unit :=
  here ← gets current;
  next ← gets (nth 1);
  match here, next with
  | Some T![KwAsync], Some T![KwProcedure] => procedure_def
  | Some T![KwAsync], Some T![KwFunction] => function_def
  | Some T![KwAsync], _ => error_unexpected
  | Some T![KwProcedure], _ => procedure_def
  | Some T![KwFunction], _ => function_def
  | Some T![KwVar], _ => var_declaration
  | Some T![PreRegion], _ => preprocessor_region
  | Some T![PreEndRegion], _ => preprocessor_end_region
  | Some T![PreIf], _ => r_preprocessor_if rules
  | Some T![PreDelete], _ => preprocessor_delete
  | Some T![PreInsert], _ => preprocessor_insert
  | Some k, _ => if is_annotation_word k then annotated_item else r_statement rules;; skip
  | None, _ => r_statement rules;; skip
  end.

Definition preproc_content_ends (p : Parser) : bool :=
  at_end p || at_boundary at_preproc_closer p || at_enclosing_boundary p.

Definition preproc_content : M unit :=
  loop (fun _ : unit =>
    ended ← gets preproc_content_ends;
    if (ended : bool) then break_ tt
    else
      check_iteration_limit;;
      ended ← gets preproc_content_ends;
      if (ended : bool) then break_ tt else item;; continue_ tt) tt.

Definition preproc_condition : M unit :=
  within_boundary preproc_at_then preproc_expression;;
  expect_ T![KwThen].

Definition preprocessor_if : M unit :=
  torn ← ask at_torn_if_statement;
  if (torn : bool) then torn_preprocessor_if
  else
    m ← start;
    bump;;
    enter_preproc_if;;
    within_boundary at_preproc_closer
      (preproc_condition;;
       preproc_content;;
       while_ (at_ T![PreElsIf])
         (check_iteration_limit;;
          elsif_m ← start;
          bump;;
          preproc_condition;;
          preproc_content;;
          complete_ elsif_m NK.PreElsIfClause);;
       alternative ← gets (at_ T![PreElse]);
       when alternative
         (else_m ← start;
          bump;;
          preproc_content;;
          complete_ else_m NK.PreElseClause));;
    leave_preproc_if;;
    crossed ← gets (fun p =>
      negb (at_end p) && negb (at_preproc_if_directive p) && at_enclosing_boundary p);
    expect_ T![PreEndIf];;
    when crossed cross_preproc_if;;
    complete_ m NK.PreIfDir.

Definition expression_statement : M unit :=
  here ← gets current;
  match here with
  | Some _ =>
      m ← start;
      expression;;
      complete_ m NK.CallStmt;;
      eat_ T![Semicolon]
  | None => skip
  end.

(** A directive among the statements: the end of a torn branch, or a directive of a group that a
    statement has crossed. *)
Definition preproc_statement : M unit :=
  torn ← gets at_torn_if_end;
  crossed ← gets at_crossed_preproc_if_directive;
  here ← gets current;
  if (torn : bool) then torn_preprocessor_if_end
  else if (crossed : bool) then
    match here with
    | Some T![PreElsIf] => bump;; preproc_condition
    | Some T![PreElse] => bump
    | _ => bump_crossed_preproc_if_end
    end
  else expression_statement.

Definition statement : M bool :=
  here ← gets current;
  match here with
  | Some T![Ident] => assignment_or_call
  | _ =>
    match here with
    | Some T![Semicolon] => empty_stmt
    | Some T![KwReturn] => return_stmt
    | Some T![KwIf] => if_stmt
    | Some T![KwWhile] => while_stmt
    | Some T![KwFor] => for_stmt
    | Some T![KwTry] => try_stmt
    | Some T![KwRaise] => raise_stmt
    | Some T![KwBreak] => word_stmt NK.BreakStmt
    | Some T![KwContinue] => word_stmt NK.ContinueStmt
    | Some T![KwGoto] => goto_stmt
    | Some T![Tilde] => label_stmt
    | Some T![KwExecute] => execute_stmt
    | Some T![KwAddHandler] => handler_stmt NK.AddHandlerStmt
    | Some T![KwRemoveHandler] => handler_stmt NK.RemoveHandlerStmt
    | Some T![KwVar] => var_declaration
    | Some T![PreRegion] => preprocessor_region
    | Some T![PreEndRegion] => preprocessor_end_region
    | Some T![PreIf] => preprocessor_if
    | Some T![PreElsIf] | Some T![PreElse] | Some T![PreEndIf] => preproc_statement
    | Some T![PreDelete] => preprocessor_delete
    | Some T![PreInsert] => preprocessor_insert
    | Some T![PreEndInsert] =>
        waiting ← gets inline_insert_open;
        if (waiting : bool) then bump_inline_insert_marker else expression_statement
    | _ => expression_statement
    end;;
    mret false
  end.
End grammar.

Section source_file.
  Context `{CharCase}.

Definition no_rules : Rules := MkRules out_of_fuel out_of_fuel.

Definition rules_body (rules : Rules) : Rules :=
  MkRules (statement rules) (preprocessor_if rules).

(** The rules with as much recursion as the tokens left allow. *)
Definition all_rules : Rules :=
  MkRules (rec_ no_rules rules_body r_statement) (rec_ no_rules rules_body r_preprocessor_if).

Definition source_file : M unit :=
  m ← start;
  loop (fun _ : unit =>
    ended ← gets at_end;
    if (ended : bool) then break_ tt
    else
      check_iteration_limit;;
      ended ← gets at_end;
      if (ended : bool) then break_ tt else item all_rules;; continue_ tt) tt;;
  complete_ m NK.SourceFile.
End source_file.
