(* ===== verification/DirectivesSpec.v ===== *)
(** DirectivesSpec: the specifications of the rules of Directives. *)
From stdpp Require Import prelude sorting.
From S2P Require Import Prelude Kinds Tokens Input TornIf ParserCore Events Hoare Directives.

#[export] Instance at_bool_op_asks : Asks at_bool_op.
Proof. solve_asks. Qed.

#[export] Instance at_preproc_if_directive_asks : Asks at_preproc_if_directive.
Proof. solve_asks. Qed.

#[export] Instance at_torn_if_end_asks : Asks at_torn_if_end.
Proof. intros p [H _]%andb_true_iff. by apply asks in H. Qed.

#[export] Instance at_inline_directive_asks : AsksCounting at_inline_directive.
Proof. solve_asks. Qed.

(** ** What is expected

    The grammar of modules declares no boundary for the whole parse, so a rule may require any
    token where it stands. *)
#[export] Instance no_boundary : Declared := None.

Section expect.
Context (inp : Input) (B : Z).
Hypothesis Hfits : (Z.of_nat (input_len inp) < 2 ^ 31)%Z.

Lemma no_declared_boundary p : Inv inp p -> at_declared_boundary p = false.
Proof. intros [_ Hb]. unfold at_declared_boundary. by rewrite Hb. Qed.

Lemma expect_spec k p :
  Spec inp B 0 8 (expect k) (fun _ => []) (fun p _ p' => at_ k p = true -> (pos p < pos p')%nat) p.
Proof.
  intros Hi Hpot. apply wp_bind, wp_gets. rewrite no_declared_boundary by done.
  apply wp_bind. eapply wp_mono; [by apply eat_spec|]. intros b p1 (HC1 & Hc1 & Hb & Ht & Hf).
  destruct b.
  - apply wp_ret. rewrite (Ht eq_refl). split; [done|]. split; [done|]. lia.
  - rewrite (Hf eq_refl) in *. clear Ht Hf. apply wp_bind, wp_gets, wp_bind.
    eapply wp_mono; [by apply emit_spec|]. intros [] p2 (HC2 & Hc2 & _). apply wp_ret.
    split; [done|]. split; [done|]. congruence.
Qed.

Lemma expect__spec k p :
  Spec inp B 0 8 (expect_ k) (fun _ => []) (fun p _ p' => at_ k p = true -> (pos p < pos p')%nat) p.
Proof.
  intros Hi Hpot. apply wp_bind. eapply wp_mono; [by apply expect_spec|].
  intros b p' HQ. by apply wp_skip.
Qed.

Lemma expect_no_bump_spec k p :
  Spec inp B 0 8 (expect_no_bump k) (fun _ => []) (fun p _ p' => True) p.
Proof.
  intros Hi Hpot. apply wp_bind, wp_gets. rewrite no_declared_boundary by done.
  apply wp_bind. eapply wp_mono; [by apply eat_spec|]. intros b p1 (HC1 & Hc1 & Hb & Ht & Hf).
  destruct b; [by apply wp_ret|]. rewrite (Hf eq_refl) in *. apply wp_bind, wp_gets, wp_bind.
  eapply wp_emit_missing; [done|]. intros p2 HC2 HS2 Hp2 Hpot2. apply wp_ret.
  split; [done|]. split; [unfold Cost; lia|done].
Qed.
End expect.

#[export] Hint Resolve expect_spec expect__spec expect_no_bump_spec : specs.

(** ** What a look-up of a conditional group finds *)

Lemma conditional_at_spec at_ p g :
  conditional_at at_ p = Some (Some g) -> group_ok (kinds (input p)) g /\ open g = at_.
Proof.
  unfold conditional_at. intros (groups & Eg & Hx)%bind_Some. injection Hx as (index & Hi & Hg)%bind_Some.
  destruct (conditionals_facts (kinds (input p)) groups Eg) as [Hok Hs].
  pose proof (binary_search_spec at_ open groups) as Hb.
  rewrite Hi in Hb. destruct Hb as (g' & Hg' & Ho).
  { eapply StronglySorted_impl_2; [|exact Hs|exact Hs]. by intros x y [? _]. }
  rewrite Hg in Hg'. injection Hg' as <-. split; [|done].
  eapply Forall_forall in Hok; [done|]. by eapply list_elem_of_lookup_2.
Qed.

Lemma torn_if_here_spec p g :
  torn_if_here p = Some (Some g) -> group_ok (kinds (input p)) g /\ open g = pos p.
Proof. unfold torn_if_here. destruct (at_ _ p); [apply conditional_at_spec|done]. Qed.

Lemma torn_if_here_inline p : at_torn_if_inline p = Some true -> exists g, torn_if_here p = Some (Some g).
Proof.
  unfold at_torn_if_inline, torn_if_here. destruct (at_ _ p); [|done]. intros (g & E & Eg)%bind_Some. injection Eg as Eg. destruct g as [g|]; [by exists g|done].
Qed.

Lemma find_torn_end_spec at_ l i e :
  find_torn_end at_ l = Some (i, e) -> l !! i = Some e /\ e.1 = at_.
Proof. unfold find_torn_end. intros (? & ? & _)%list_find_Some. done. Qed.

Section specs.
Context (inp : Input) (B : Z).
Hypothesis Hfits : (Z.of_nat (input_len inp) < 2 ^ 31)%Z.

Abbreviation len := (input_len inp).
(** ** The questions that count

    No counter overflows on the way to their answers. *)

Lemma conditional_at_counts at_ p : Inv inp p -> is_Some (conditional_at at_ p).
Proof.
  intros Hi. unfold conditional_at, parser_conditionals. rewrite (inv_input _ _ Hi).
  destruct (conditionals_fit (kinds inp)) as [groups ->]; [exact Hfits|by eexists].
Qed.

Lemma torn_if_here_counts p : Inv inp p -> is_Some (torn_if_here p).
Proof. intros Hi. unfold torn_if_here. destruct (at_ _ p); [by apply conditional_at_counts|by eexists]. Qed.

Lemma at_torn_if_inline_counts p : Inv inp p -> is_Some (at_torn_if_inline p).
Proof.
  intros Hi. unfold at_torn_if_inline. destruct (at_ _ p); [|by eexists].
  destruct (conditional_at_counts (pos p) p Hi) as [g ->]. by eexists.
Qed.

Lemma at_torn_if_statement_counts p : Inv inp p -> is_Some (at_torn_if_statement p).
Proof.
  intros Hi. unfold at_torn_if_statement. destruct (at_ _ p); [|by eexists].
  destruct (conditional_at_counts (pos p) p Hi) as [g ->]. by eexists.
Qed.

Lemma at_inline_directive_counts p : Inv inp p -> is_Some (at_inline_directive p).
Proof.
  intros Hi. unfold at_inline_directive. destruct (current p) as [[[]]|]; try by eexists. by apply at_torn_if_inline_counts.
Qed.

Lemma torn_or_inline_counts p :
  Inv inp p -> is_Some (if at_torn_if_end p then Some true else at_torn_if_inline p).
Proof. intros Hi. destruct (at_torn_if_end p); [by eexists|by apply at_torn_if_inline_counts]. Qed.

(** A look-ahead that resumes behind a part of a torn group has moved on. *)
Lemma torn_if_skip_counts n torn p :
  Inv inp p -> Forall (fun e => e.1 <= e.2)%nat torn ->
  exists resume torn', torn_if_skip n torn p = Some (resume, torn') /\ Forall (fun e => e.1 <= e.2)%nat torn' /\
    match resume with Some m => (n < m)%nat | None => True end.
Proof.
  intros Hi Ht. unfold torn_if_skip.
  assert (exists resume torn', Some ((fun e : nat * (nat * nat) => e.2.2 + 1 - pos p)%nat <$>
      find_torn_end (pos p + n) (open_torn_ifs p ++ torn), torn) = Some (resume, torn') /\ Forall (fun e => e.1 <= e.2)%nat torn' /\
    match resume with Some m => (n < m)%nat | None => True end) as Hend.
  { eexists _, _. split; [done|]. split; [done|]. destruct (find_torn_end _ _) as [[i e]|] eqn:E; [|done]. simpl.
    apply find_torn_end_spec in E as [Hl He].
    assert (Forall (fun e => e.1 <= e.2)%nat (open_torn_ifs p ++ torn)) as Hall by (apply Forall_app; split; [apply Hi|done]).
    apply (Forall_lookup_1 _ _ _ _ Hall) in Hl. lia. }
  destruct (input_kind (input p) (pos p + n)) as [[[]]|]; try exact Hend; try by eexists _, _.
  destruct (conditional_at_counts (pos p + n) p Hi) as [g Eg]. rewrite Eg. cbn [mbind option_bind]. destruct g as [g|]; [|by eexists _, _].
  apply conditional_at_spec in Eg as [(_ & _ & Hc & Ha) Ho].
  destruct (active g) as [[s e]|]; eexists _, _; (split; [done|]); (split; [|lia]); [|done].
  apply Forall_app. split; [done|]. apply Forall_singleton. simpl. lia.
Qed.

Lemma removed_ahead_after p fuel : forall n m, removed_ahead p fuel n = Some m -> (n < m)%nat.
Proof.
  induction fuel as [|fuel IH]; intros n m; simpl; [done|]. destruct (nth (S n) p) as [k|]; [|done].
  destruct k as [[]]; try (intros E%IH; lia). intros [= <-]. lia.
Qed.

Lemma inline_before_counts p continues fuel : forall n open torn,
  Inv inp p -> Forall (fun e => e.1 <= e.2)%nat torn -> (open <= Z.of_nat (pos p + n))%Z ->
  is_Some (inline_before_loop p continues fuel n open torn).
Proof.
  induction fuel as [|fuel IH]; intros n open torn Hi Ht Ho; [by eexists|]. cbn [inline_before_loop].
  destruct (torn_if_skip_counts n torn p Hi Ht) as ([m|] & torn' & -> & Ht' & Hm); cbn [mbind option_bind].
  { apply IH; [done..|lia]. }
  destruct (nth n p) as [[k]|] eqn:En; [|by eexists].
  assert (pos p + n < len)%nat as Hlt.
  { unfold nth, input_kind in En. rewrite (inv_input _ _ Hi) in En. by apply lookup_lt_Some in En. }
  destruct k; try by eexists.
  - rewrite u32_sum_fits by lia. apply IH; [done..|lia].
  - destruct (0 <? open)%Z; [|by eexists]. apply IH; [done..|lia].
  - destruct (removed_ahead _ _ _) as [m|] eqn:Er; [|by eexists]. apply removed_ahead_after in Er. apply IH; [done..|lia].
Qed.

Lemma at_inline_directives_before_counts continues p : Inv inp p -> is_Some (at_inline_directives_before continues p).
Proof. intros Hi. apply inline_before_counts; [done..|]. pose proof (inv_inserts _ _ Hi). lia. Qed.

Hint Resolve conditional_at_counts torn_if_here_counts at_torn_if_inline_counts at_torn_if_statement_counts
  at_inline_directive_counts torn_or_inline_counts at_inline_directives_before_counts : specs.

Abbreviation Rule s c m Post := (Spec inp B s c m (fun _ => []) Post).
Abbreviation Takes := (fun p (_ : unit) p' => (pos p < len)%nat -> (pos p < pos p')%nat).
Abbreviation Any := (fun p (_ : unit) p' => True).

Lemma preprocessor_region_spec p : Rule 0 8 preprocessor_region Takes p.
Proof. wp_start_rule. unfold preprocessor_region. wp_auto. Qed.

Lemma preprocessor_end_region_spec p : Rule 0 8 preprocessor_end_region Takes p.
Proof. wp_start_rule. unfold preprocessor_end_region. wp_auto. Qed.

Lemma preprocessor_delete_spec p : Rule 0 8 preprocessor_delete Takes p.
Proof.
wp_start_rule. unfold preprocessor_delete. wp_auto. wp_while 0%Z; wp_auto.
Qed.

Lemma preprocessor_insert_spec p : Rule 0 8 preprocessor_insert Takes p.
Proof.
wp_start_rule. unfold preprocessor_insert. wp_auto. wp_while 0%Z; wp_auto.
Qed.

(** ** Conditions *)

Lemma preproc_symbol_spec p : Rule 0 7 preproc_symbol Any p.
Proof.
wp_start_rule. unfold preproc_symbol. wp_auto.
destruct (current _) as [[[]]|]; wp_auto.
Qed.

Section condition.
Context (k : nat) (operand : M unit).
Hypothesis Hoperand : forall p, (k <= pos p)%nat -> Rule 0 7 operand Any p.

Lemma preproc_logical_expression_body_spec p :
  (k <= pos p)%nat -> Rule 1 7 (preproc_logical_expression_body operand) Any p.
Proof.
  intros Hk. wp_start_rule. unfold preproc_logical_expression_body. wp_auto.
  wp_while 7%Z; wp_auto.
Qed.

Lemma preproc_logical_operand_body_spec p :
  (k <= S (pos p))%nat -> Rule 0 7 (preproc_logical_operand_body operand) Any p.
Proof.
  intros Hk. pose proof preproc_symbol_spec. pose proof preproc_logical_expression_body_spec.
  wp_start_rule. unfold preproc_logical_operand_body. wp_auto.
Qed.
End condition.

Lemma preproc_logical_operand_spec p : Rule 0 7 preproc_logical_operand Any p.
Proof.
apply (rec_spec _ _ (fun _ => True)); [|done]. intros m q _ Hm.
apply (preproc_logical_operand_body_spec (S (pos q))); auto with lia.
Qed.

Hint Resolve preproc_logical_operand_spec : specs.

Lemma preproc_expression_spec p : Rule 1 7 preproc_expression Any p.
Proof.
assert (Hle : forall p, Rule 1 7 preproc_logical_expression Any p).
{ intros q. apply (preproc_logical_expression_body_spec 0); [|lia]. auto with specs. }
wp_start_rule. unfold preproc_expression. wp_auto.
Qed.

Hint Resolve preproc_expression_spec : specs.

(** ** Torn groups *)

Lemma bump_removed_until_spec next p :
Rule 1 7 (bump_removed_until next)
  (fun p _ p' => (pos p < next)%nat -> (pos p < len)%nat -> (pos p < pos p')%nat) p.
Proof.
wp_start_rule. unfold bump_removed_until. wp_while 7%Z; wp_facts; [wp_auto|].
split; [done|]. split; [cost|]. intros Hn Hl.
apply andb_false_iff in Hcond as [E|E]; [apply Nat.ltb_ge in E; lia|]. wp_facts. lia.
Qed.

Lemma wp_open_torn_if base bs stack (Q : unit -> Parser -> Prop) p e c :
Cx inp base bs stack p -> (e <= c)%nat ->
(forall p', Cx inp base bs stack p' -> pos p' = pos p -> pot inp p' = pot inp p -> Q tt p') ->
wp B (open_torn_if e c) Q p.
Proof.
intros [Hi Hb He] Hec HQ. apply wp_modify, HQ; [|done..]. constructor; [|done..].
destruct Hi. constructor; try done. simpl. apply Forall_app. by repeat constructor.
Qed.

Lemma wp_close_torn_if base bs stack (Q : option nat -> Parser -> Prop) p :
Cx inp base bs stack p ->
(forall c p', Cx inp base bs stack p' -> pos p' = pos p -> pot inp p' = pot inp p ->
   (pos p <= c)%nat -> Q (Some c) p') ->
(at_torn_if_end p = false -> Q None p) ->
wp B close_torn_if Q p.
Proof.
intros HC HQ HN. pose proof HC as [Hi Hb He]. unfold wp, close_torn_if.
destruct (find_torn_end _ _) as [[i [e c]]|] eqn:Ef.
- apply find_torn_end_spec in Ef as [Hl Hp]. simpl in Hp. subst e.
  pose proof (inv_torn _ _ Hi) as Ht. apply HQ; [|done..|].
  + constructor; [|done..]. destruct Hi. constructor; try done. simpl.
    rewrite delete_take_drop. apply Forall_app. split; [by apply Forall_take|by apply Forall_drop].
  + by apply (Forall_lookup_1 _ _ _ _ Ht) in Hl.
- apply HN. unfold at_torn_if_end. rewrite Ef. by rewrite andb_false_r.
Qed.

Lemma torn_preprocessor_if_spec p :
Rule 0 7 torn_preprocessor_if
  (fun p _ p' => (exists g, torn_if_here p = Some (Some g)) -> (pos p < pos p')%nat) p.
Proof.
pose proof bump_removed_until_spec.
wp_start_rule. unfold torn_preprocessor_if. wp_step. wp_step.
destruct a as [g|].
- rename E into Eg. assert (pos p < len)%nat as Hl.
  { unfold torn_if_here in Eg. destruct (at_ _ p) eqn:E; [|done]. by wp_facts. }
  apply torn_if_here_spec in Eg as [(_ & _ & Hc & Ha) Ho].
  destruct (active g) as [[s e]|]; wp_auto.
  eapply wp_open_torn_if; [wp_cx|lia|]. intros. wp_auto.
- wp_auto. intros [? ?]. congruence.
Qed.

Lemma torn_preprocessor_if_end_spec p :
Rule 1 7 torn_preprocessor_if_end
  (fun p _ p' => at_torn_if_end p = true -> (pos p < pos p')%nat) p.
Proof.
pose proof bump_removed_until_spec.
wp_start_rule. unfold torn_preprocessor_if_end. wp_step. eapply wp_close_torn_if; [wp_cx|..].
- intros c p1 HC1 Hp1 Hq1 Hc. wp_auto. intros E. pose proof (asks_live inp _ _ Hi E); cost.
- intros E. wp_auto. congruence.
Qed.

(** ** Markers inside an expression *)

Lemma wp_bump_insert base bs stack (Q : unit -> Parser -> Prop) p k n :
Cx inp base bs stack p -> current p = Some T![k] -> k = PreInsert \/ k = PreEndInsert ->
(0 <= n <= Z.of_nat (pos p) + 1)%Z ->
(forall p', Cx inp base bs stack p' -> pos p' = S (pos p) -> pot inp p' = (pot inp p - 8)%Z ->
   Q tt p') ->
wp B bump Q (set_open_inline_inserts n p).
Proof.
intros [Hi Hb He] Hc Hk Hn HQ. pose proof (current_live _ _ _ Hi Hc).
pose proof (inv_depths _ _ Hi) as Hd.
pose proof (Inv_token _ p _ (paren_depth p) (brace_depth p) Hi Hc) as Hi'.
unfold bump. apply wp_bind, wp_gets.
change (current (set_open_inline_inserts n p)) with (current p). rewrite Hc.
apply wp_bind. assert (track_group k (set_open_inline_inserts n p) =
  Ok tt (set_open_inline_inserts n p)) as Et by by destruct Hk as [-> | ->].
unfold wp at 1. cbn [sig_kind]. rewrite Et. apply wp_bind, wp_modify, wp_modify, HQ.
- constructor; [|done|by apply Ev_token].
  destruct Hi'; [lia|]. constructor; simpl in *; try done; lia.
- done.
- unfold pot. cbn [pos iteration_count set_pos set_events set_open_inline_inserts]. lia.
Qed.

Lemma bump_inline_insert_marker_spec p :
Rule 0 7 bump_inline_insert_marker
  (fun p _ p' => current p = Some T![PreInsert] \/ current p = Some T![PreEndInsert] ->
                 (pos p < pos p')%nat) p.
Proof.
wp_start_rule. unfold bump_inline_insert_marker. wp_step. wp_step.
assert (Hstay : current p <> Some T![PreInsert] -> current p <> Some T![PreEndInsert] ->
  Cx inp (events p) (enclosing_boundaries p) [] p /\ Cost inp 7 p p /\
  (current p = Some T![PreInsert] \/ current p = Some T![PreEndInsert] -> (pos p < pos p)%nat)).
{ intros. split; [done|]. split; [apply Cost_refl|]. by intros [?|?]. }
pose proof (inv_inserts _ _ Hi) as Hn.
destruct (current p) as [[k]|] eqn:Ec; [|by apply wp_skip, Hstay].
destruct (decide (k = PreInsert)) as [->|]; [|destruct (decide (k = PreEndInsert)) as [->|]].
- wp_facts. wp_step. wp_step. wp_step. unfold u32_add.
  destruct (Z.ltb_spec (open_inline_inserts p + 1) (2 ^ 32)); [|lia].
  wp_step. wp_step. apply wp_modify. eapply wp_bump_insert; [done|done|by left|lia|].
  intros. wp_auto.
- wp_facts. wp_step. apply wp_modify. eapply wp_bump_insert; [done|done|by right| |].
  + unfold saturating_sub. lia.
  + intros. wp_auto.
- destruct k; by apply wp_skip, Hstay || congruence.
Qed.

Lemma inline_delete_spec p : Rule 0 7 inline_delete Takes p.
Proof. wp_start_rule. unfold inline_delete. wp_auto. wp_while 0%Z; wp_auto. Qed.

Hint Resolve preprocessor_region_spec preprocessor_end_region_spec torn_preprocessor_if_spec
torn_preprocessor_if_end_spec bump_inline_insert_marker_spec inline_delete_spec : specs.

Lemma inline_directive_spec p :
Rule 1 7 inline_directive
  (fun p _ p' => at_inline_directive p = Some true -> (pos p < pos p')%nat) p.
Proof.
wp_start_rule. apply (wp_fun _ (fun p => if at_ T![PreIf] p then _ else _)). wp_auto; intros Ha.
- apply HP, torn_if_here_inline. apply at_current in E. unfold at_inline_directive in Ha.
  by rewrite E in Ha.
- by apply HP.
- apply HP. unfold at_inline_directive in Ha. unfold at_ in E, E1.
  apply bool_decide_eq_false in E, E1.
  destruct (current p) as [[[]]|]; try done; try congruence; auto.
Qed.

Hint Resolve inline_directive_spec : specs.

(** The markers are taken one after the other; with none here the state is left as it was. *)
Lemma inline_directives_spec p :
Rule 2 6 inline_directives
  (fun p _ p' => (at_inline_directive p = Some true -> (pos p < pos p')%nat) /\ From p p') p.
Proof.
wp_start_rule. unfold inline_directives. wp_while_ask 6%Z; wp_auto; same;
  try specialize (HP Hcond); try cost; [|done].
intros Ha. destruct Hfrom as [->|]; [congruence|done].
Qed.

Hint Resolve inline_directives_spec : specs.

(** A run of markers that the look-ahead accepts begins with a marker the expression takes. *)
Lemma at_inline_directives_before_here continues p :
at_inline_directives_before continues p = Some true -> at_inline_directive p = Some true.
Proof.
unfold at_inline_directives_before. cbn [inline_before_loop].
unfold at_inline_directive, torn_if_skip. rewrite Nat.add_0_r.
assert (input_kind (input p) (pos p) = current p) as -> by (unfold current, nth; by rewrite Nat.add_0_r).
change (nth 0 p) with (current p).
assert (Hend : at_preproc_if_directive p = true ->
  is_Some (find_torn_end (pos p) (open_torn_ifs p ++ [])) -> at_torn_if_end p = true).
{ rewrite app_nil_r. intros Hd Hf. unfold at_torn_if_end. rewrite Hd. by apply bool_decide_eq_true. }
destruct (current p) as [[k]|] eqn:E; [|done].
assert (Hdir : k = PreElsIf \/ k = PreElse \/ k = PreEndIf -> at_preproc_if_directive p = true).
{ unfold at_preproc_if_directive. rewrite E. by intros [-> | [-> | ->]]. }
destruct k; try discriminate; try reflexivity.
- unfold at_torn_if_inline, at_. rewrite E.
  destruct (conditional_at (pos p) p) as [[g|]|]; [reflexivity|discriminate..].
- cbn [mbind option_bind]. destruct (find_torn_end _ _); [|discriminate]. intros _. f_equal.
  apply Hend; [apply Hdir; auto|by eexists].
- cbn [mbind option_bind]. destruct (find_torn_end _ _); [|discriminate]. intros _. f_equal.
  apply Hend; [apply Hdir; auto|by eexists].
- cbn [mbind option_bind]. destruct (find_torn_end _ _); [|discriminate]. intros _. f_equal.
  apply Hend; [apply Hdir; auto|by eexists].
- unfold inline_insert_open. destruct (0 <? open_inline_inserts p)%Z; [reflexivity|discriminate].
Qed.

Lemma inline_directives_before_spec continues p :
Rule 2 6 (inline_directives_before continues) Any p.
Proof. wp_start_rule. unfold inline_directives_before. wp_auto. Qed.

(** Taken, the markers are at least one token. *)
Lemma continue_across_inline_directives_spec p :
Rule 2 6 continue_across_inline_directives (fun p r p' => r = true -> (pos p < pos p')%nat) p.
Proof.
wp_start_rule. unfold continue_across_inline_directives. wp_auto; intros.
- apply HP. right. by apply at_current.
- match goal with F : at_inline_directive _ = Some true -> _ |- _ => apply F end. by eapply at_inline_directives_before_here.
Qed.
End specs.

#[export] Hint Resolve torn_if_here_counts at_torn_if_statement_counts at_inline_directive_counts : specs.
