(* ===== verification/ExpressionsSpec.v ===== *)
(** ExpressionsSpec: the specifications of the rules of Expressions.

    An expression consumes at least one token unless it starts at a statement separator, which is
    what lets every loop of the grammar end. *)
From stdpp Require Import prelude.
From S2P Require Import Prelude Kinds Tokens Input TornIf ParserCore Events Hoare Directives.
From S2P Require Import DirectivesSpec Expressions.

#[export] Hint Resolve preprocessor_region_spec preprocessor_end_region_spec
  preprocessor_delete_spec preprocessor_insert_spec preproc_expression_spec
  torn_preprocessor_if_spec torn_preprocessor_if_end_spec bump_inline_insert_marker_spec
  inline_directives_spec inline_directives_before_spec continue_across_inline_directives_spec
  : specs.

#[export] Instance at_adjacent_asks : Asks at_adjacent_string_literal.
Proof. solve_asks. Qed.

#[export] Instance at_multiplicative_asks : Asks at_multiplicative.
Proof. solve_asks. Qed.

#[export] Instance at_additive_asks : Asks at_additive.
Proof. solve_asks. Qed.

#[export] Instance at_comparison_asks : Asks at_comparison.
Proof. solve_asks. Qed.

Section specs.
Context (inp : Input) (B : Z).
Hypothesis Hfits : (Z.of_nat (input_len inp) < 2 ^ 31)%Z.

Abbreviation len := (input_len inp).
Abbreviation Rule s c m Post := (Spec inp B s c m (fun _ => []) Post).
Abbreviation NodeRule s c m Post := (Spec inp B s c m (fun r => [EDone r]) Post).
Abbreviation Takes := (fun p _ p' => takes inp p p').
Abbreviation Moves := (fun p _ p' => (pos p < len)%nat -> (pos p < pos p')%nat).

(** ** String literals *)

(** The tail may spend one check without consuming anything. *)
Lemma wp_string_continuation_tail base bs stack (Q : unit -> Parser -> Prop) p :
Cx inp base bs stack p -> (pot inp p + 3 <= B)%Z ->
(forall p', Cx inp base bs stack p' -> (pos p <= pos p')%nat -> (pot inp p' <= pot inp p + 1)%Z ->
 Q tt p') ->
wp B string_continuation_tail Q p.
Proof.
intros HC Hslack HQ. unfold string_continuation_tail. wp_loop 0%Z. do 6 wp_step.
destruct (current _) as [k|] eqn:Ek; wp_facts.
- assert (Hother : forall msg, wp B (if (a : bool) then inline_directives;; continue_ tt
  else error_custom msg;; break_ tt)
  (fun r p' => match r with
    | inl _ => Cx inp base bs stack p' /\ Cost inp 0 p p' /\ (pos q < pos p')%nat
    | inr b => Q b p'
    end) p0).
{ intros msg. wp_auto; [match goal with F : at_inline_directive _ = Some true -> _, E : at_inline_directive _ = Some true |- _ => specialize (F E) end; cost..|]. apply HQ; [done|cost..]. }
destruct k as [[]]; try exact (Hother _); wp_auto; try cost; (apply HQ; [done|cost..]).
- wp_auto; [match goal with F : at_inline_directive _ = Some true -> _, E : at_inline_directive _ = Some true |- _ => specialize (F E) end; cost..|]. apply HQ; [done|cost..].
Qed.

Lemma string_literal_spec p :
NodeRule 0 7 string_literal
(fun p _ p' => at_adjacent_string_literal p = true -> (pos p < pos p')%nat) p.
Proof.
wp_start_rule. unfold string_literal. wp_auto. wp_loop 7%Z. wp_step. wp_step.
match goal with |- wp B _ ?Q q =>
assert (Hbreak : at_adjacent_string_literal q = false -> wp B (break_ tt) Q q) end.
{ intros E. wp_auto. intros Ea. destruct Hfrom as [->|]; [|cost]. same. congruence. }
unfold at_adjacent_string_literal in Hbreak.
destruct (current q) as [[[]]|] eqn:Ek; wp_facts; try (by apply Hbreak); clear Hbreak.
- wp_auto.
- wp_step. wp_step. wp_step. eapply wp_string_continuation_tail; [wp_cx|lia|].
intros p3 HC3 Hp3 Hq3. wp_auto.
Qed.

Hint Resolve string_literal_spec : specs.

(** ** The rules around [expression]

[expression] may be relied on from the position [k] on, which is behind the position the
rules below start at: each of them consumes its first word before it calls it. *)
Section rules.
Context (k : nat) (expression : M unit).
Hypothesis Hexpression : forall p, (k <= pos p)%nat -> Rule 2 6 expression Takes p.

Lemma await_expr_spec p :
(k <= S (pos p))%nat -> (pos p < len)%nat ->
NodeRule 0 7 (await_expr expression) (fun p _ p' => (pos p < pos p')%nat) p.
Proof. intros Hk Hl. wp_start_rule. unfold await_expr. wp_auto. Qed.

Lemma ternary_expr_spec p :
(k <= S (pos p))%nat -> (pos p < len)%nat ->
NodeRule 0 7 (ternary_expr expression) (fun p _ p' => (pos p < pos p')%nat) p.
Proof. intros Hk Hl. wp_start_rule. unfold ternary_expr. wp_auto. Qed.

Lemma argument_spec p :
(k <= pos p)%nat ->
Rule 2 6 (argument expression) (fun p _ p' => True) p.
Proof. intros Hk. wp_start_rule. unfold argument. wp_auto. Qed.

Hint Resolve argument_spec : specs.

Lemma arg_list_spec p :
(k <= S (pos p))%nat -> (pos p < len)%nat ->
Rule 0 7 (arg_list expression) (fun p _ p' => (pos p < pos p')%nat) p.
Proof.
intros Hk Hl. wp_start_rule. unfold arg_list. wp_auto. wp_loop 0%Z. wp_auto.
Qed.

Hint Resolve await_expr_spec ternary_expr_spec arg_list_spec : specs.

Lemma new_expr_spec p :
(k <= S (pos p))%nat -> (pos p < len)%nat ->
NodeRule 0 7 (new_expr expression) (fun p _ p' => (pos p < pos p')%nat) p.
Proof. intros Hk Hl. wp_start_rule. unfold new_expr. wp_auto. Qed.

Hint Resolve new_expr_spec : specs.

(** An operand that was read leaves its node, which may still get a parent. *)
Abbreviation operand_stack := (fun r : option CompletedMarker =>
match r with Some c => [EDone c] | None => [] end).

Lemma primary_expr_spec p :
(k <= S (pos p))%nat ->
Spec inp B 0 7 (primary_expr expression) operand_stack
  (fun p r p' => takes inp p p' /\ (r <> None -> (pos p < pos p')%nat)) p.
Proof.
intros Hk. wp_start_rule. unfold primary_expr, one_token. wp_step. wp_step.
assert (Hadj : current p = Some T![String] \/ current p = Some T![StringStart] ->
  at_adjacent_string_literal p = true).
{ unfold at_adjacent_string_literal. by intros [-> | ->]. }
destruct (current p) as [[[]]|] eqn:Ek; wp_facts; wp_auto; try done;
  (specialize (HP (Hadj ltac:(auto))); cost).
Qed.

Hint Resolve primary_expr_spec : specs.

(** *** Postfix chains *)

Lemma wp_field_access base bs stack (Q : option CompletedMarker -> Parser -> Prop) s p :
Cx inp base bs (EDone (lhs s) :: stack) p -> (pos p < len)%nat -> (pot inp p <= B)%Z ->
(forall r p', Cx inp base bs (operand_stack r ++ stack) p' -> (pos p < pos p')%nat ->
   (pot inp p' + 8 <= pot inp p)%Z -> Q r p') ->
wp B (field_access s) Q p.
Proof.
intros HC Hl Hpot HQ. unfold field_access. wp_facts. wp_auto; (apply HQ; [wp_cx|lia..]).
Qed.

Lemma wp_index_access base bs stack (Q : CompletedMarker -> Parser -> Prop) s p :
(k <= S (pos p))%nat ->
Cx inp base bs (EDone (lhs s) :: stack) p -> (pos p < len)%nat -> (pot inp p <= B)%Z ->
(forall c p', Cx inp base bs (EDone c :: stack) p' -> (pos p < pos p')%nat ->
   (pot inp p' + 8 <= pot inp p)%Z -> Q c p') ->
wp B (index_access expression s) Q p.
Proof.
intros Hk HC Hl Hpot HQ. unfold index_access. wp_facts. wp_auto. apply HQ; [wp_cx|lia..].
Qed.

Lemma wp_call_access base bs stack (Q : CompletedMarker -> Parser -> Prop) s p :
(k <= S (pos p))%nat ->
Cx inp base bs (EDone (lhs s) :: stack) p -> (pos p < len)%nat -> (pot inp p <= B)%Z ->
(forall c p', Cx inp base bs (EDone c :: stack) p' -> (pos p < pos p')%nat ->
   (pot inp p' + 7 <= pot inp p)%Z -> Q c p') ->
wp B (call_access expression s) Q p.
Proof.
intros Hk HC Hl Hpot HQ. unfold call_access. wp_facts. wp_auto. apply HQ; [wp_cx|lia..].
Qed.

Lemma wp_postfix_turn base bs stack (Q : Postfix + bool -> Parser -> Prop) s p :
(k <= S (pos p))%nat -> Cx inp base bs (EDone (lhs s) :: stack) p -> (pot inp p + 3 <= B)%Z ->
(forall s' p', Cx inp base bs (EDone (lhs s') :: stack) p' -> (pos p < pos p')%nat ->
   (pot inp p' + 5 <= pot inp p)%Z -> Q (inl s') p') ->
(forall b p', Cx inp base bs stack p' -> (pos p <= pos p')%nat ->
   (pot inp p' <= pot inp p + 1)%Z -> Q (inr b) p') ->
wp B (postfix_turn expression s) Q p.
Proof.
intros Hk HC Hpot Hcont Hbreak. unfold postfix_turn. wp_auto.
assert (Hstop : forall b, wp B (break_ b) Q p0) by (intros b; wp_auto; apply Hbreak; [wp_cx|lia..]).
assert (Hacross : wp B (taken ← continue_across_inline_directives;
  if (taken : bool) then continue_ s else break_ (is_valid_statement s)) Q p0).
{ wp_auto; [apply Hcont|apply Hbreak]; try wp_cx; try specialize (HP eq_refl); lia. }
destruct (current p0) as [[[]]|] eqn:Ek; wp_facts;
  try exact (Hstop _); try exact Hacross; clear Hstop Hacross; wp_step.
- eapply wp_call_access; [lia|wp_cx|lia..|]. intros c p' HC' Hp' Hq'. wp_auto.
  apply Hcont; [done|lia..].
- eapply wp_index_access; [lia|wp_cx|lia..|]. intros c p' HC' Hp' Hq'. wp_auto.
  apply Hcont; [done|lia..].
- eapply wp_field_access; [wp_cx|lia..|]. intros [c|] p' HC' Hp' Hq'; wp_auto.
  + apply Hcont; [done|lia..].
  + apply Hbreak; [done|lia..].
Qed.

Lemma postfix_expr_with_call_info_spec p :
(k <= S (pos p))%nat -> Rule 0 6 (postfix_expr_with_call_info expression) Takes p.
Proof.
intros Hk. wp_start_rule. unfold postfix_expr_with_call_info. wp_auto.
destruct a as [c|]; [|wp_auto].
assert (pos p < pos p0)%nat by auto.
apply (wp_loop inp _ _ (fun s q => Cx inp (events p) (enclosing_boundaries p) [EDone (lhs s)] q /\
  (pos p0 <= pos q)%nat /\ (pot inp q <= pot inp p0)%Z)).
- split; [done|lia].
- by intros s q [[] _].
- intros s q (HCq & Hp1 & Hq1). wp_facts. eapply wp_postfix_turn; [lia|done|lia|..].
  + intros s' p' HC' Hp' Hq'. split; [|lia]. split; [done|lia].
  + intros b p' HC' Hp' Hq'. wp_facts. wp_auto.
Qed.

Hint Resolve postfix_expr_with_call_info_spec : specs.

Lemma postfix_expr_spec p :
(k <= S (pos p))%nat -> Rule 0 6 (postfix_expr expression) Takes p.
Proof. intros Hk. wp_start_rule. unfold postfix_expr. wp_auto. Qed.

Hint Resolve postfix_expr_spec : specs.
Lemma unary_expr_spec p : (k <= S (pos p))%nat -> Rule 2 6 (unary_expr expression) Takes p.
Proof.
revert p. apply rec_spec. intros m p Hk Hm. wp_start_rule. wp_auto.
destruct (current p0) as [[[]]|] eqn:Ek; wp_facts; wp_auto.
Qed.

Hint Resolve unary_expr_spec : specs.

(** *** Binary operators *)

Section level.
Context (operand : M unit).
Hypothesis Hoperand : forall p, (k <= S (pos p))%nat -> Rule 2 6 operand Takes p.

Lemma wp_binary_turn base bs stack (Q : Marker -> Parser -> Prop) lhs p :
  (k <= S (pos p))%nat -> Cx inp base bs (EOpen lhs :: stack) p -> (pos p < len)%nat ->
  (pot inp p <= B)%Z ->
  (forall m p', Cx inp base bs (EOpen m :: stack) p' -> (pos p < pos p')%nat ->
     (pot inp p' + 8 <= pot inp p)%Z -> Q m p') ->
  wp B (binary_turn operand lhs) Q p.
Proof.
  intros Hk HC Hl Hpot HQ. unfold binary_turn. wp_facts. wp_auto. apply HQ; [done|lia..].
Qed.

Lemma binary_level_spec operator p :
  Asks operator -> (k <= S (pos p))%nat -> Rule 2 6 (binary_level operator operand) Takes p.
Proof.
  intros Ho Hk. wp_start_rule. unfold binary_level. wp_auto.
  apply (wp_loop inp _ _ (fun lhs q => Cx inp (events p) (enclosing_boundaries p) [EOpen lhs] q /\
    Cost inp 6 p1 q)).
  - split; [wp_cx|apply Cost_refl].
  - by intros lhs q [[] _].
  - intros lhs q [HCq (Hp1 & Hq1 & Hpay1)]. wp_auto.
    eapply wp_binary_turn; [lia|wp_cx|lia..|]. intros. wp_auto.
Qed.
End level.

Lemma multiplicative_expr_spec p :
(k <= S (pos p))%nat -> Rule 2 6 (multiplicative_expr expression) Takes p.
Proof. apply binary_level_spec; [exact unary_expr_spec|apply _]. Qed.

Lemma additive_expr_spec p :
(k <= S (pos p))%nat -> Rule 2 6 (additive_expr expression) Takes p.
Proof. apply binary_level_spec; [exact multiplicative_expr_spec|apply _]. Qed.

Hint Resolve additive_expr_spec : specs.

Lemma comparison_expr_spec p :
(k <= S (pos p))%nat -> Rule 2 6 (comparison_expr expression) Takes p.
Proof.
intros Hk. wp_start_rule. unfold comparison_expr. wp_auto.
apply (wp_loop inp _ _ (fun '(lhs, saw) q =>
  Cx inp (events p) (enclosing_boundaries p) [if (saw : bool) then EOpen lhs else EFresh lhs] q /\
  Cost inp 6 p1 q)).
- split; [done|apply Cost_refl].
- by intros [lhs saw] q [[] _].
- intros [lhs saw] q [HCq (Hp1 & Hq1 & Hpay1)]. wp_auto.
  eapply wp_binary_turn; [exact additive_expr_spec|lia|destruct saw; wp_cx|lia..|].
  intros. wp_auto.
Qed.

Hint Resolve comparison_expr_spec : specs.

Lemma not_expr_spec p : (k <= S (pos p))%nat -> Rule 2 6 (not_expr expression) Takes p.
Proof. revert p. apply rec_spec. intros m p Hk Hm. wp_start_rule. wp_auto. Qed.

Lemma and_expr_spec p : (k <= S (pos p))%nat -> Rule 2 6 (and_expr expression) Takes p.
Proof. apply binary_level_spec; [exact not_expr_spec|apply _]. Qed.

Lemma or_expr_spec p : (k <= S (pos p))%nat -> Rule 2 6 (or_expr expression) Takes p.
Proof. apply binary_level_spec; [exact and_expr_spec|apply _]. Qed.
End rules.

Lemma expression_spec p : Rule 2 6 expression Takes p.
Proof.
apply (rec_spec _ _ (fun _ => True)); [|done]. intros m q _ Hm.
apply (or_expr_spec (S (pos q))); [|lia]. intros r Hr. by apply Hm.
Qed.

Lemma postfix_expression_for_assignment_spec p :
Rule 0 6 postfix_expression_for_assignment Takes p.
Proof. apply (postfix_expr_with_call_info_spec 0); [|lia]. intros q _. apply expression_spec. Qed.
End specs.
