(* ===== verification/GrammarSpec.v ===== *)
(** GrammarSpec: the specifications of the rules of Grammar, up to the source file. *)
From stdpp Require Import prelude.
From S2P Require Import Prelude Kinds Tokens Input TornIf ParserCore Events Hoare Directives.
From S2P Require Import DirectivesSpec Expressions ExpressionsSpec Grammar.

#[export] Hint Resolve expression_spec postfix_expression_for_assignment_spec argument_spec : specs.

#[export] Instance at_annotation_asks : Asks at_annotation.
Proof. solve_asks. Qed.

#[export] Instance at_folding_asks : Asks at_folding_marker.
Proof. solve_asks. Qed.

#[export] Instance at_signed_number_asks : Asks at_signed_number.
Proof. intros p [H|H]%orb_true_iff; by apply asks in H. Qed.

#[export] Instance at_current_keyword_asks : Asks at_current_keyword.
Proof. solve_asks. Qed.

Section specs.
Context (inp : Input) (B : Z).
Hypothesis Hfits : (Z.of_nat (input_len inp) < 2 ^ 31)%Z.

Abbreviation len := (input_len inp).
Abbreviation Rule s c m Post := (Spec inp B s c m (fun _ => []) Post).
Abbreviation Takes := (fun p _ p' => takes inp p p').
Abbreviation Moves := (fun p _ p' => (pos p < len)%nat -> (pos p < pos p')%nat).
Abbreviation Any := (fun p _ p' => True).

(** ** Items and statements without statements inside *)

Lemma compiler_directive_spec p : Rule 0 6 compiler_directive Moves p.
Proof. wp_start_rule. unfold compiler_directive. wp_auto. Qed.

Lemma annotation_param_value_spec p : Rule 0 6 annotation_param_value Any p.
Proof.
wp_start_rule. unfold annotation_param_value. wp_auto.
destruct (current p) as [[[]]|]; wp_auto.
Qed.

Hint Resolve annotation_param_value_spec : specs.

Lemma annotation_param_spec p : Rule 2 6 annotation_param Any p.
Proof. wp_start_rule. unfold annotation_param. wp_auto. Qed.

Lemma comma_list_spec item p :
(forall q, Rule 2 6 item Any q) -> Rule 2 6 (comma_list item) Any p.
Proof. intros Hitem. wp_start_rule. unfold comma_list. wp_auto. wp_loop 6%Z. wp_auto. Qed.

Lemma report_missing_name_spec msg p : Rule 0 6 (report_missing_name msg) Any p.
Proof. wp_start_rule. unfold report_missing_name. wp_auto. Qed.

Hint Resolve compiler_directive_spec annotation_param_spec comma_list_spec
report_missing_name_spec : specs.

Lemma annotation_params_spec p : (pos p < len)%nat -> Rule 0 6 annotation_params Moves p.
Proof. intros Hl. wp_start_rule. unfold annotation_params. wp_auto. Qed.

Hint Resolve annotation_params_spec : specs.

Lemma annotation_spec p : Rule 0 6 annotation Moves p.
Proof. wp_start_rule. unfold annotation. wp_auto. Qed.

Lemma param_spec p : Rule 2 6 param Any p.
Proof. wp_start_rule. unfold param. wp_auto. Qed.

Hint Resolve annotation_spec param_spec : specs.

Lemma param_list_spec p : (pos p < len)%nat -> Rule 0 6 param_list Moves p.
Proof. intros Hl. wp_start_rule. unfold param_list. wp_auto. Qed.

Lemma variable_name_spec p : Rule 2 6 variable_name Any p.
Proof. wp_start_rule. unfold variable_name. wp_auto. Qed.

Hint Resolve param_list_spec variable_name_spec : specs.

Lemma var_declaration_content_spec p :
(pos p < len)%nat -> Rule 0 6 var_declaration_content Moves p.
Proof. intros Hl. wp_start_rule. unfold var_declaration_content. wp_auto. Qed.

Hint Resolve var_declaration_content_spec : specs.

Lemma var_declaration_spec p : (pos p < len)%nat -> Rule 0 6 var_declaration Moves p.
Proof. intros Hl. wp_start_rule. unfold var_declaration. wp_auto. Qed.

Lemma word_stmt_spec kind p : (pos p < len)%nat -> Rule 0 6 (word_stmt kind) Moves p.
Proof. intros Hl. wp_start_rule. unfold word_stmt. wp_auto. Qed.

Lemma empty_stmt_spec p : (pos p < len)%nat -> Rule 0 6 empty_stmt Moves p.
Proof. intros Hl. wp_start_rule. unfold empty_stmt. wp_auto. Qed.

Lemma return_stmt_spec p : (pos p < len)%nat -> Rule 0 6 return_stmt Moves p.
Proof. intros Hl. wp_start_rule. unfold return_stmt. wp_auto. Qed.

Lemma parse_raise_call_args_spec p :
at_ T![LParen] p = true -> Rule 0 6 parse_raise_call_args Moves p.
Proof.
intros Hp. wp_start_rule. unfold parse_raise_call_args. do 3 wp_step. rewrite Hp. wp_auto.
wp_loop 5%Z. wp_auto.
all: pose proof (at_moved _ _ _ _ (cx_inv _ _ _ _ _ HC3) (cx_inv _ _ _ _ _ HC1) E0 ltac:(done)).
all: cost.
Qed.

Hint Resolve parse_raise_call_args_spec : specs.

Lemma raise_stmt_spec p : (pos p < len)%nat -> Rule 0 6 raise_stmt Moves p.
Proof. intros Hl. wp_start_rule. unfold raise_stmt. wp_auto. Qed.

Lemma goto_stmt_spec p : (pos p < len)%nat -> Rule 0 6 goto_stmt Moves p.
Proof. intros Hl. wp_start_rule. unfold goto_stmt. wp_auto. Qed.

Lemma label_stmt_spec p : (pos p < len)%nat -> Rule 0 6 label_stmt Moves p.
Proof. intros Hl. wp_start_rule. unfold label_stmt. wp_auto. Qed.

Lemma execute_stmt_spec p : (pos p < len)%nat -> Rule 0 6 execute_stmt Moves p.
Proof. intros Hl. wp_start_rule. unfold execute_stmt. wp_auto. Qed.

Lemma handler_stmt_spec kind p : (pos p < len)%nat -> Rule 0 6 (handler_stmt kind) Moves p.
Proof. intros Hl. wp_start_rule. unfold handler_stmt. wp_auto. Qed.

Lemma assignment_or_call_spec p : Rule 0 6 assignment_or_call Takes p.
Proof. wp_start_rule. unfold assignment_or_call. wp_auto. Qed.

Lemma expect_stmt_list_terminator_spec k b p :
Rule 0 6 (expect_stmt_list_terminator k b) Any p.
Proof. wp_start_rule. unfold expect_stmt_list_terminator. wp_auto. Qed.

Lemma expression_before_spec b p : Rule 2 6 (expression_before b) Any p.
Proof. wp_start_rule. unfold expression_before. wp_auto. Qed.

Lemma preproc_condition_spec p : Rule 1 6 preproc_condition Any p.
Proof. wp_start_rule. unfold preproc_condition. wp_auto. Qed.

Lemma expression_statement_spec p : Rule 2 6 expression_statement Takes p.
Proof.
wp_start_rule. unfold expression_statement. wp_step. wp_step.
destruct (current p) as [k|] eqn:Ek; wp_auto. intros _ Hl.
pose proof (current_none _ _ Hi Ek). lia.
Qed.

Hint Resolve var_declaration_spec word_stmt_spec empty_stmt_spec return_stmt_spec raise_stmt_spec
goto_stmt_spec label_stmt_spec execute_stmt_spec handler_stmt_spec assignment_or_call_spec
expect_stmt_list_terminator_spec expression_before_spec preproc_condition_spec
expression_statement_spec : specs.

(** ** The recursive rules

  [rules] may be relied on from the position [k] on. *)

(** A statement consumes unless the input has ended or an enclosing construct waits here. *)
Definition statement_moves (p p' : Parser) : Prop :=
at_enclosing_boundary p = false -> (pos p < len)%nat -> (pos p < pos p')%nat.

Abbreviation Statement := (fun p _ p' => statement_moves p p').

Section rules.
Context `{CharCase} (k : nat) (rules : Rules).
Hypothesis Hstatement : forall p, (k <= pos p)%nat -> Rule 2 6 (r_statement rules) Statement p.
Hypothesis Hpreproc_if : forall p, (k <= pos p)%nat -> at_ T![PreIf] p = true ->
  Rule 0 6 (r_preprocessor_if rules) Moves p.

Lemma stmt_list_of_spec terminators closers p :
  (k <= pos p)%nat -> Rule 3 5 (stmt_list_of rules terminators closers) Any p.
Proof.
  intros Hk. wp_start_rule. unfold stmt_list_of. wp_auto.
  apply (wp_loop inp _ _ (fun _ q =>
    Cx inp (events p) (enclosing_boundaries p) [EFresh m] q /\ Cost inp 5 p0 q)).
  - split; [done|apply Cost_refl].
  - by intros _ q [[] _].
  - intros typos q [HCq (Hp1 & Hq1 & Hpay1)]. wp_auto.
    1: by same; congruence.
    all: unfold list_ends in E0; wp_facts; unfold statement_moves in HP;
      (assert (pos p1 < pos p2)%nat by auto; cost).
Qed.

Hint Resolve stmt_list_of_spec : specs.

Lemma stmt_list_spec terminator p :
  (k <= pos p)%nat -> Rule 3 5 (stmt_list rules terminator) Any p.
Proof. intros Hk. wp_start_rule. unfold stmt_list. wp_auto. Qed.

Lemma if_typos_spec p : (k <= pos p)%nat -> Rule 3 5 (if_typos rules) Any p.
Proof. intros Hk. by apply stmt_list_of_spec. Qed.

Hint Resolve stmt_list_spec if_typos_spec : specs.

Lemma if_stmt_spec p :
  (k <= S (pos p))%nat -> (pos p < len)%nat -> Rule 0 6 (if_stmt rules) Moves p.
Proof.
  intros Hk Hl. wp_start_rule. unfold if_stmt. wp_auto.
  apply (wp_loop inp _ _ (fun _ q =>
    Cx inp (events p) (enclosing_boundaries p ++ [at_if_closer]) [EFresh m] q /\ Cost inp 0 p5 q)).
  - split; [done|apply Cost_refl].
  - by intros _ q [[] _].
  - intros typos q [HCq (Hp6 & Hq6 & Hpay6)]. wp_auto.
Qed.

Lemma while_stmt_spec p :
  (k <= S (pos p))%nat -> (pos p < len)%nat -> Rule 0 6 (while_stmt rules) Moves p.
Proof. intros Hk Hl. wp_start_rule. unfold while_stmt. wp_auto. Qed.

Lemma for_stmt_spec p :
  (k <= S (pos p))%nat -> (pos p < len)%nat -> Rule 0 6 (for_stmt rules) Moves p.
Proof.
  intros Hk Hl. wp_start_rule. unfold for_stmt, for_each_rest, for_to_rest. wp_auto.
Qed.

Lemma try_stmt_spec p :
  (k <= S (pos p))%nat -> (pos p < len)%nat -> Rule 0 6 (try_stmt rules) Moves p.
Proof. intros Hk Hl. wp_start_rule. unfold try_stmt. wp_auto. Qed.

(** *** Definitions *)

(** A change of the counters a definition sets aside. *)
Lemma Cx_inserts base bs stack p :
  Cx inp base bs stack p -> Cx inp base bs stack (set_open_inline_inserts 0 p).
Proof. intros [[] ? ?]. constructor; [|done..]. constructor; try done. simpl. lia. Qed.

Lemma Cx_crossed base bs stack l p :
  Cx inp base bs stack p -> Cx inp base bs stack (set_crossed_preproc_ifs l p).
Proof. intros [[] ? ?]. constructor; [by constructor|done..]. Qed.

(** The word a definition begins with stands here, alone or behind [Async]. *)
Definition at_definition (word : Sig) (p : Parser) : Prop :=
  at_ T![KwAsync] p = true \/ at_ word p = true.

Lemma wp_def_prefix {A} (m : M A) base bs stack word (Q : A -> Parser -> Prop) p :
  Cx inp base bs stack p -> at_definition word p -> (pot inp p <= B)%Z ->
  (forall p', Cx inp base bs stack p' -> (pos p < pos p')%nat -> (pot inp p' + 8 <= pot inp p)%Z ->
     wp B m Q p') ->
  wp B (eat_ T![KwAsync];; expect_ word;; m) Q p.
Proof.
  intros HC Hdef Hpot HQ. wp_facts. apply wp_bind, wp_bind. wp_step.
  - do 3 wp_step. apply HQ; [wp_cx|lia..].
  - assert (at_ word p = true) as Hw by (destruct Hdef; congruence). wp_facts.
    do 3 wp_step. specialize (HP Hw). apply HQ; [wp_cx|lia..].
Qed.

Lemma wp_restore base bs stack outer (Q : unit -> Parser -> Prop) p :
  Cx inp base bs stack p ->
  (forall p', Cx inp base bs stack p' -> pos p' = pos p -> pot inp p' = pot inp p -> Q tt p') ->
  wp B (restore_crossed_preproc_ifs outer) Q p.
Proof. intros HC HQ. by apply wp_modify, HQ; [apply Cx_crossed|..]. Qed.

Lemma def_content_spec word closer b msg p :
  (k <= S (pos p))%nat -> at_definition word p ->
  Rule 0 6 (def_content rules word closer b msg) (fun p _ p' => (pos p < pos p')%nat) p.
Proof.
  intros Hk Hdef. wp_start_rule. unfold def_content.
  wp_step. apply wp_modify, wp_bind. unfold take_crossed_preproc_ifs, wp at 1.
  set (p1 := set_crossed_preproc_ifs _ _).
  assert (Cx inp (events p) (enclosing_boundaries p) [] p1) as HC1 by by apply Cx_crossed, Cx_inserts.
  eapply wp_def_prefix; [exact HC1|exact Hdef|change (pot inp p1) with (pot inp p); lia|].
  intros p2 HC2 Hp2 Hq2. change (pos p1) with (pos p) in Hp2. change (pot inp p1) with (pot inp p) in Hq2.
  wp_auto; (eapply wp_restore; [wp_cx|intros; wp_auto]).
Qed.

Lemma procedure_def_content_spec p :
  (k <= S (pos p))%nat -> at_definition T![KwProcedure] p ->
  Rule 0 6 (procedure_def_content rules) (fun p _ p' => (pos p < pos p')%nat) p.
Proof. intros Hk Hdef. unfold procedure_def_content. by apply def_content_spec. Qed.

Lemma function_def_content_spec p :
  (k <= S (pos p))%nat -> at_definition T![KwFunction] p ->
  Rule 0 6 (function_def_content rules) (fun p _ p' => (pos p < pos p')%nat) p.
Proof. intros Hk Hdef. unfold function_def_content. by apply def_content_spec. Qed.

Lemma at_definition_same word p p' : Same p p' -> at_definition word p -> at_definition word p'.
Proof. intros HS. unfold at_definition. by same. Qed.

Hint Resolve procedure_def_content_spec function_def_content_spec : specs.
Hint Extern 3 (at_definition _ _) => (eapply at_definition_same; [eassumption|]) : specs.

Lemma procedure_def_spec p :
  (k <= S (pos p))%nat -> at_definition T![KwProcedure] p ->
  Rule 0 6 (procedure_def rules) (fun p _ p' => (pos p < pos p')%nat) p.
Proof. intros Hk Hdef. wp_start_rule. unfold procedure_def. wp_auto. Qed.

Lemma function_def_spec p :
  (k <= S (pos p))%nat -> at_definition T![KwFunction] p ->
  Rule 0 6 (function_def rules) (fun p _ p' => (pos p < pos p')%nat) p.
Proof. intros Hk Hdef. wp_start_rule. unfold function_def. wp_auto. Qed.

Lemma annotated_item_spec p :
  (k <= S (pos p))%nat -> at_annotation p = true ->
  Rule 1 5 (annotated_item rules) (fun p _ p' => (pos p < pos p')%nat) p.
Proof.
  intros Hk Ha. wp_start_rule. unfold annotated_item. wp_auto. wp_while 5%Z; [wp_auto|].
  assert (pos p < pos q)%nat as Hmoved.
  { destruct Hfrom as [->|]; [|lia]. exfalso. revert Hcond Ha. unfold at_annotation.
    rewrite (current_at inp p1 p); [congruence|by destruct HC0|done|lia]. }
  wp_while 5%Z.
  - do 4 wp_step.
    assert (Hmarker : at_torn_if_end p2 = true -> wp B torn_preprocessor_if_end (fun _ p' =>
      Cx inp (events p) (enclosing_boundaries p ++ [at_item_start]) [EFresh m] p' /\
      Cost inp 5 q p' /\ (pos q0 < pos p')%nat) p2).
    { intros Ht. wp_auto; specialize (HP Ht); cost. }
    assert (Hask : at_folding_marker p2 || at_torn_if_end p2 = true) by by same.
    unfold at_folding_marker in Hask.
    destruct (current p2) as [[[]]|] eqn:Ek; try (apply Hmarker, Hask); wp_facts; wp_auto.
  - wp_auto.
    assert (Hdef : forall w, current p2 = Some T![KwAsync] \/ current p2 = Some w -> at_definition w p2).
    { intros w. unfold at_definition. by rewrite !at_current. }
    match goal with |- wp B _ ?Q p2 =>
      assert (Hfail : wp B (abandon m;; error_unexpected) Q p2) by wp_auto end.
    destruct (current p2) as [[[]]|] eqn:Ek; try exact Hfail;
      try match goal with |- context [nth 1 p2] =>
        destruct (nth 1 p2) as [[[]]|]; try exact Hfail end; clear Hfail; wp_facts;
      try pose proof (Hdef T![KwProcedure] ltac:(auto));
      try pose proof (Hdef T![KwFunction] ltac:(auto)); wp_auto.
Qed.

Hint Resolve procedure_def_spec function_def_spec annotated_item_spec : specs.

(** *** Content *)

(** A word no rule waits for is not a separator, unless it is one by itself. *)
Definition separator_word (word : Sig) : bool :=
  match word with
  | T![Semicolon] | T![PreIf] | T![PreElsIf] | T![PreElse] | T![PreEndIf] => true
  | _ => false
  end.

Lemma word_moves word p p' :
  Inv inp p -> current p = Some word -> separator_word word = false ->
  takes inp p p' -> statement_moves p p'.
Proof.
  intros Hi Hc Hw Ht He Hl. apply Ht; [|done].
  unfold at_statement_separator, at_torn_if_end, at_preproc_if_directive, at_.
  rewrite Hc, He, (no_declared_boundary inp) by done. by destruct word as [[]].
Qed.

Lemma item_spec p : (k <= pos p)%nat -> Rule 2 5 (item rules) Statement p.
Proof.
  intros Hk. wp_start_rule. unfold item. do 4 wp_step.
  assert (Hdef : forall w, current p = Some T![KwAsync] \/ current p = Some w -> at_definition w p).
  { intros w. unfold at_definition. by rewrite !at_current. }
  match goal with |- wp B _ ?Q p =>
    assert (Hstmt : wp B (r_statement rules;; skip) Q p) by (wp_auto; done);
    assert (Hann : at_annotation p = true -> wp B (annotated_item rules) Q p);
    [|assert (Herr : current p = Some T![KwAsync] -> wp B error_unexpected Q p)] end.
  - intros Ha. wp_facts. wp_auto. unfold statement_moves. intros. lia.
  - intros Hc. wp_facts. wp_auto. by eapply word_moves.
  - destruct (current p) as [[[]]|] eqn:Ek; try exact Hstmt;
      try (apply Hann; unfold at_annotation; by rewrite Ek); clear Hstmt Hann;
      try match goal with |- context [nth 1 p] =>
        destruct (nth 1 p) as [[[]]|]; try by apply Herr end; clear Herr; wp_facts;
      try pose proof (Hdef T![KwProcedure] ltac:(auto));
      try pose proof (Hdef T![KwFunction] ltac:(auto));
      try pose proof (proj2 (at_current _ _) Ek); wp_auto; intros ?; cost.
Qed.

Hint Resolve item_spec : specs.

Lemma preproc_content_spec p : (k <= pos p)%nat -> Rule 3 4 (preproc_content rules) Any p.
Proof.
  intros Hk. wp_start_rule. unfold preproc_content. wp_loop 4%Z. wp_auto.
  1: by same; congruence.
  all: unfold preproc_content_ends in E0; wp_facts; unfold statement_moves in HP;
    (assert (pos p0 < pos p1)%nat by auto; cost).
Qed.

Hint Resolve preproc_content_spec : specs.

Lemma wp_enter_preproc_if base bs stack (Q : unit -> Parser -> Prop) p :
  Cx inp base bs stack p -> (open_preproc_ifs p < Z.of_nat (pos p))%Z ->
  (forall p', Cx inp base bs stack p' -> pos p' = pos p -> pot inp p' = pot inp p -> Q tt p') ->
  wp B enter_preproc_if Q p.
Proof.
  intros HC Hlt HQ. pose proof HC as [[] Hb He]. unfold enter_preproc_if. wp_step. wp_step.
  unfold u32_add. destruct (Z.ltb_spec (open_preproc_ifs p + 1) (2 ^ 32)); [|lia].
  wp_step. wp_step. apply wp_modify, HQ; [|done..]. constructor; [|done..].
  constructor; try done. simpl. lia.
Qed.

Lemma wp_leave_preproc_if base bs stack (Q : unit -> Parser -> Prop) p :
  Cx inp base bs stack p ->
  (forall p', Cx inp base bs stack p' -> pos p' = pos p -> pot inp p' = pot inp p -> Q tt p') ->
  wp B leave_preproc_if Q p.
Proof.
  intros [[] Hb He] HQ. apply wp_modify, HQ; [|done..]. constructor; [|done..].
  constructor; try done. simpl. unfold saturating_sub. lia.
Qed.

Lemma wp_cross_preproc_if base bs stack (Q : unit -> Parser -> Prop) p :
  Cx inp base bs stack p ->
  (forall p', Cx inp base bs stack p' -> pos p' = pos p -> pot inp p' = pot inp p -> Q tt p') ->
  wp B cross_preproc_if Q p.
Proof. intros HC HQ. by apply wp_modify, HQ; [apply Cx_crossed|..]. Qed.

Lemma torn_statement_here p : at_torn_if_statement p = Some true -> exists g, torn_if_here p = Some (Some g).
Proof.
  unfold at_torn_if_statement, torn_if_here. destruct (at_ _ p); [|done].
  intros ([g|] & -> & Hg)%bind_Some; [by exists g|done].
Qed.

Lemma preprocessor_if_spec p :
  (k <= S (pos p))%nat -> at_ T![PreIf] p = true -> Rule 0 6 (preprocessor_if rules) Moves p.
Proof.
  intros Hk Ha. wp_start_rule. unfold preprocessor_if. wp_step. wp_step. wp_step.
  - wp_auto. intros _. by apply HP, torn_statement_here.
  - wp_auto. pose proof (inv_ifs _ _ (cx_inv _ _ _ _ _ HC)).
    eapply wp_enter_preproc_if; [wp_cx|destruct Hkeep as (_ & -> & _); lia|].
    intros p2 HC2 Hp2 Hq2. wp_auto. wp_while 0%Z; [wp_auto|].
    wp_auto; (eapply wp_leave_preproc_if; [wp_cx|intros]); wp_auto;
      (eapply wp_cross_preproc_if; [wp_cx|intros]); wp_auto.
Qed.

Lemma wp_bump_crossed_end base bs stack (Q : unit -> Parser -> Prop) p :
  Cx inp base bs stack p -> at_ T![PreEndIf] p = true -> at_crossed_preproc_if_directive p = true ->
  (forall p', Cx inp base bs stack p' -> Bumped inp p p' -> Q tt p') ->
  wp B bump_crossed_preproc_if_end Q p.
Proof.
  intros HC Ha Hc HQ. unfold bump_crossed_preproc_if_end. wp_step. wp_step. rewrite Ha, Hc. simpl.
  apply wp_bind, wp_modify. eapply wp_bump; [done|by apply Cx_crossed|].
  intros p' HC' Hb. by apply HQ.
Qed.

(** A directive at which nothing waits is not a separator unless it ends a torn branch. *)
Lemma directive_takes p p' :
  Inv inp p -> at_preproc_if_directive p = true -> at_torn_if_end p = false ->
  takes inp p p' -> statement_moves p p'.
Proof.
  intros Hi Hd Ht Htk He Hl. apply Htk; [|done].
  unfold at_statement_separator. rewrite He, Ht, (no_declared_boundary inp) by done.
  revert Hd. unfold at_preproc_if_directive, at_. by destruct (current p) as [[[]]|].
Qed.

Lemma preproc_statement_spec p :
  at_preproc_if_directive p = true -> Rule 2 6 preproc_statement Statement p.
Proof.
  intros Hd. wp_start_rule. unfold preproc_statement. wp_auto.
  - intros _ _. by apply HP.
  - assert (Hend : current p = Some T![PreEndIf] -> wp B bump_crossed_preproc_if_end
      (fun _ p' => Cx inp (events p) (enclosing_boundaries p) [] p' /\ Cost inp 6 p p' /\
        statement_moves p p') p).
    { intros Hc. apply at_current in Hc. eapply wp_bump_crossed_end; [wp_cx|done..|].
      wp_intro_bump. wp_auto. intros _ _. lia. }
    unfold at_preproc_if_directive in Hd.
    destruct (current p) as [[[]]|] eqn:Ek; try done; wp_facts; wp_auto;
      [intros ? ?; cost|intros ? ?; cost|by apply Hend].
  - by apply directive_takes.
Qed.

Hint Resolve if_stmt_spec while_stmt_spec for_stmt_spec try_stmt_spec preprocessor_if_spec
  preproc_statement_spec : specs.

Lemma statement_spec p : (k <= S (pos p))%nat -> Rule 2 6 (statement rules) Statement p.
Proof.
  intros Hk. wp_start_rule. unfold statement. wp_step. wp_step.
  match goal with |- wp B _ ?Q p =>
    assert (Hexpr : forall word, current p = Some word -> separator_word word = false ->
      wp B (expression_statement;; mret false) Q p) end.
  { intros word Hc Hw. wp_facts. wp_auto. by eapply word_moves. }
  destruct (current p) as [[[]]|] eqn:Ek; try (by eapply Hexpr); clear Hexpr; wp_facts;
    try pose proof (proj2 (at_current _ _) Ek);
    try (assert (at_preproc_if_directive p = true) by (unfold at_preproc_if_directive; by rewrite Ek)).
  all: wp_auto; try done; try (intros ? ?; cost).
  all: first [ by eapply word_moves | intros _ _; apply HP; by auto
             | intros _ Hl; pose proof (current_none _ _ Hi Ek); lia ].
Qed.
End rules.

(** ** The rules tied together *)

Context `{CharCase}.

Lemma rules_spec n p :
Inv inp p -> (remaining p < n)%nat ->
let rules := Nat.iter n rules_body no_rules in
Rule 2 6 (r_statement rules) Statement p /\
(at_ T![PreIf] p = true -> Rule 0 6 (r_preprocessor_if rules) Moves p).
Proof.
apply (iter_spec inp rules_body no_rules (fun rules p =>
  Rule 2 6 (r_statement rules) Statement p /\
  (at_ T![PreIf] p = true -> Rule 0 6 (r_preprocessor_if rules) Moves p))).
intros rules q Hq IH.
assert (Hs : forall r, (S (pos q) <= pos r)%nat -> Rule 2 6 (r_statement rules) Statement r).
{ intros r Hr Hir. by apply IH. }
assert (Hp : forall r, (S (pos q) <= pos r)%nat -> at_ T![PreIf] r = true ->
  Rule 0 6 (r_preprocessor_if rules) Moves r).
{ intros r Hr Ha Hir. by apply IH. }
split.
- unfold rules_body. cbn [r_statement]. eapply statement_spec; [exact Hs|exact Hp|lia].
- intros Ha. unfold rules_body. cbn [r_preprocessor_if].
  eapply preprocessor_if_spec; [exact Hs|exact Hp|lia|exact Ha].
Qed.

Lemma all_rules_statement_spec p : Rule 2 6 (r_statement all_rules) Statement p.
Proof.
intros Hi Hpot. unfold all_rules. cbn [r_statement]. apply wp_rec.
destruct (rules_spec (S (remaining p)) p) as [Hs _]; [done|lia|]. by apply Hs.
Qed.

Lemma all_rules_preprocessor_if_spec p :
at_ T![PreIf] p = true -> Rule 0 6 (r_preprocessor_if all_rules) Moves p.
Proof.
intros Ha Hi Hpot. unfold all_rules. cbn [r_preprocessor_if]. apply wp_rec.
destruct (rules_spec (S (remaining p)) p) as [_ Hs]; [done|lia|]. by apply Hs.
Qed.

Lemma all_items_spec p : Rule 2 5 (item all_rules) Statement p.
Proof.
apply (item_spec 0); [|by intros; apply all_rules_preprocessor_if_spec|lia].
intros q _. apply all_rules_statement_spec.
Qed.

Hint Resolve all_items_spec : specs.

(** The node of the whole file: its marker is the first event. *)
Lemma wp_complete_root (Q : unit -> Parser -> Prop) m kind p :
Cx inp [] [] [EFresh m] p -> m_pos m = 0%nat ->
(forall p', Inv inp p' -> pos p' = pos p -> enclosing_boundaries p' = [] ->
   (exists body, Forest body /\ events p' = Start kind None :: body ++ [Finish]) -> Q tt p') ->
wp B (complete_ m kind) Q p.
Proof.
intros HC Hm HQ. pose proof HC as [Hi Hb (before & after & He & Hlen & Ha & _)].
destruct before; [|simpl in *; lia]. simpl in He.
unfold wp, complete_, mbind, M_bind, complete. rewrite Hm, He. simpl. apply HQ; [|done|done|].
- apply Inv_events; [done|]. rewrite He. simpl. unfold token_kinds. simpl.
  rewrite omap_app. simpl. by rewrite app_nil_r.
- by exists after.
Qed.

(** The source file consumes every token and leaves one node. *)
Lemma source_file_spec p :
Inv inp p -> (pot inp p + 3 <= B)%Z -> events p = [] -> enclosing_boundaries p = [] ->
wp B source_file (fun _ p' => Inv inp p' /\ pos p' = len /\ enclosing_boundaries p' = [] /\
  exists body, Forest body /\ events p' = Start NK.SourceFile None :: body ++ [Finish]) p.
Proof.
intros Hi Hpot He Hb. unfold source_file. wp_step. unfold start, wp at 1. rewrite He.
set (m := MkMarker _ _). set (p1 := set_events _ p).
assert (Cx inp [] [] [EFresh m] p1) as HC1.
{ constructor; [|done|apply (Ev_start [] [] [] m); [exists []; auto with events|done]].
  apply Inv_events; [done|]. by rewrite He. }
assert (pot inp p1 = pot inp p) as Hq1 by done.
wp_step. wp_loop 4%Z. do 3 wp_step.
- wp_step. eapply wp_complete_root; [done|done|]. intros p' Hi' Hp' Hb' Hbody.
  split; [done|]. split; [lia|]. by split.
- do 5 wp_step; [by same; congruence|]. wp_auto;
    (assert (pos p0 < pos p2)%nat by (apply HP; [|lia]; unfold at_enclosing_boundary;
       by rewrite (cx_bs _ _ _ _ _ HC0)); cost).
Qed.
End specs.
