(* ===== verification/EditDistance.v ===== *)
(** EditDistance: the distance that tells a misspelt closer (crates/parser/src/parser.rs,
    [edit_distance_within]).

    The source fills a table row by row and keeps three rows.  The reference is the definition of
    the distance: the fewest insertions, removals, replacements and swaps of neighbours that turn
    one text into the other, no place edited twice. *)
From stdpp Require Import prelude strings.
From S2P Require Import Prelude Kinds Tokens Input TornIf ParserCore.

(** ** Edit scripts *)

(** [Edits a b n]: [n] edits turn [a] into [b]; a script is read from the first character on. *)
Inductive Edits : text -> text -> nat -> Prop :=
| Edits_nil : Edits [] [] 0
| Edits_keep a b x n : Edits a b n -> Edits (a ++ [x]) (b ++ [x]) n
| Edits_replace a b x y n : Edits a b n -> Edits (a ++ [x]) (b ++ [y]) (S n)
| Edits_remove a b x n : Edits a b n -> Edits (a ++ [x]) b (S n)
| Edits_insert a b y n : Edits a b n -> Edits a (b ++ [y]) (S n)
| Edits_swap a b x y n : Edits a b n -> Edits (a ++ [x; y]) (b ++ [y; x]) (S n).

(** ** The recurrence of the table *)

(** The distance of the first [i] characters of [a] and the first [j] of [b]. *)
Fixpoint distance (a b : text) (i : nat) {struct i} : nat -> nat :=
  fix columns (j : nat) : nat :=
    match i, j with
    | O, j => j
    | S i', O => i
    | S i', S j' =>
        let substitution := if decide (a !! i' = b !! j') then 0%nat else 1%nat in
        let cell :=
          (((distance a b i' (S j') + 1) `min` (columns j' + 1)) `min`
           (distance a b i' j' + substitution))%nat in
        match i', j' with
        | S i'', S j'' =>
            if bool_decide (a !! i' = b !! j'') && bool_decide (a !! i'' = b !! j')
            then (cell `min` (distance a b i'' j'' + 1))%nat
            else cell
        | _, _ => cell
        end
    end.

(** The row [i] of the table. *)
Definition table_row (a b : text) (i n : nat) : list nat := distance a b i <$> seq 0 n.

Lemma distance_0_l a b j : distance a b 0 j = j.
Proof. by destruct j. Qed.

Lemma distance_0_r a b i : distance a b i 0 = i.
Proof. by destruct i. Qed.

Lemma table_row_index a b i n j : (j < n)%nat -> table_row a b i n !! j = Some (distance a b i j).
Proof.
  intros Hj. unfold table_row.
  by rewrite list_lookup_fmap, lookup_seq_lt.
Qed.

Lemma table_row_snoc a b i n : table_row a b i (S n) = table_row a b i n ++ [distance a b i n].
Proof. unfold table_row. by rewrite seq_S, fmap_app. Qed.

Lemma table_row_0 a b n : table_row a b 0 n = seq 0 n.
Proof.
  unfold table_row. rewrite <- (list_fmap_id (seq 0 n)) at 2.
  apply list_fmap_ext. intros. apply distance_0_l.
Qed.

Lemma distance_SS a b i j :
  distance a b (S i) (S j) =
  let cell := (((distance a b i (S j) + 1) `min` (distance a b (S i) j + 1)) `min`
    (distance a b i j + (if decide (a !! i = b !! j) then 0 else 1)))%nat in
  match i, j with
  | S i', S j' =>
      if bool_decide (a !! i = b !! j') && bool_decide (a !! i' = b !! j) then (cell `min` (distance a b i' j' + 1))%nat else cell
  | _, _ => cell
  end.
Proof. done. Qed.

(** A cell computed from correct rows is correct, and no index is out of range. *)
Lemma distance_cell_spec a b i j n prev_prev :
  (i < length a)%nat -> (j < length b)%nat -> (S j < n)%nat -> (forall i', i = S i' -> prev_prev = table_row a b i' n) ->
  distance_cell a b (S i) (S j) prev_prev (table_row a b i n) (table_row a b (S i) (S j)) =
  Some (distance a b (S i) (S j)).
Proof.
  intros Ha Hb Hj Hpp. unfold distance_cell. rewrite !Nat.sub_succ, !Nat.sub_0_r.
  destruct (lookup_lt_is_Some_2 a i Ha) as [x Hx], (lookup_lt_is_Some_2 b j Hb) as [y Hy].
  rewrite Hx, Hy. cbn [mbind option_bind]. rewrite !table_row_index by lia. cbn [mbind option_bind].
  rewrite distance_SS.
  assert ((if decide (a !! i = b !! j) then 0%nat else 1%nat) = (if decide (x = y) then 0%nat else 1%nat)) as ->.
  { destruct (decide (x = y)), (decide (a !! i = b !! j)); congruence. }
  generalize (((distance a b i (S j) + 1) `min` (distance a b (S i) j + 1)) `min`
    (distance a b i j + (if decide (x = y) then 0 else 1)))%nat as cell. intros cell. cbv zeta.
  destruct i as [|i]; [done|]. destruct j as [|j]; [done|].
  change ((1 <? S (S i))%nat && (1 <? S (S j))%nat) with true. cbv iota.
  rewrite ?Nat.sub_succ, ?Nat.sub_0_r.
  destruct (lookup_lt_is_Some_2 a i ltac:(lia)) as [x' Hx'], (lookup_lt_is_Some_2 b j ltac:(lia)) as [y' Hy'].
  rewrite (Hpp i eq_refl), Hx', Hy'. cbn [mbind option_bind]. rewrite table_row_index by lia. cbn [mbind option_bind].
  assert (bool_decide (a !! S i = Some y') = bool_decide (x = y')) as -> by (apply bool_decide_ext; rewrite Hx; split; congruence).
  assert (bool_decide (Some x' = b !! S j) = bool_decide (x' = y)) as -> by (apply bool_decide_ext; rewrite Hy; split; congruence).
  destruct (decide (x = y')), (decide (x' = y)); repeat case_bool_decide; done.
Qed.

Lemma distance_row_spec a b i prev_prev k :
  (i < length a)%nat -> (forall i', i = S i' -> prev_prev = table_row a b i' (S (length b))) -> (k <= length b)%nat ->
  distance_row a b (S i) prev_prev (table_row a b i (S (length b))) (table_row a b (S i) (S k))
    (seq (S k) (length b - k)) = Some (table_row a b (S i) (S (length b))).
Proof.
  intros Ha Hpp Hk. remember (length b - k)%nat as r eqn:Hr. revert k Hk Hr.
  induction r as [|r IH]; intros k Hk Hr; cbn [distance_row seq].
  - by replace k with (length b) by lia.
  - rewrite distance_cell_spec by (done || lia). cbn [mbind option_bind].
    rewrite <- table_row_snoc. apply IH; lia.
Qed.

Lemma distance_rows_spec a b i r prev_prev :
  (i + r <= length a)%nat -> (forall i', i = S i' -> prev_prev = table_row a b i' (S (length b))) ->
  distance_rows a b prev_prev (table_row a b i (S (length b))) (seq (S i) r) =
  Some (table_row a b (i + r) (S (length b))).
Proof.
  revert i prev_prev. induction r as [|r IH]; intros i prev_prev Ha Hpp; cbn [distance_rows seq].
  - by rewrite Nat.add_0_r.
  - pose proof (distance_row_spec a b i prev_prev 0 ltac:(lia) Hpp ltac:(lia)) as Hrow.
    rewrite Nat.sub_0_r in Hrow.
    change (table_row a b (S i) 1) with [S i] in Hrow. rewrite Hrow. cbn [mbind option_bind]. rewrite IH.
    + by rewrite Nat.add_succ_r.
    + lia.
    + by intros i' [= <-].
Qed.

(** The table's last cell. *)
Lemma table_last_cell a b :
  exists row, distance_rows a b [] (seq 0 (S (length b))) (seq 1 (length a)) = Some row /\
    row !! length b = Some (distance a b (length a) (length b)).
Proof.
  rewrite <- (table_row_0 a b), (distance_rows_spec a b 0 (length a)) by done. eexists. split; [done|].
  apply table_row_index. lia.
Qed.

(** ** The recurrence and the scripts *)

Lemma distance_le_replace a b i j :
  (distance a b (S i) (S j) <= distance a b i j + (if decide (a !! i = b !! j) then 0 else 1))%nat.
Proof. simpl. destruct i, j; try case_match; case_decide; lia. Qed.

Lemma distance_le_remove a b i j : (distance a b (S i) j <= S (distance a b i j))%nat.
Proof.
  destruct j as [|j]; [by rewrite !distance_0_r|].
  simpl. destruct i, j; try case_match; case_decide; lia.
Qed.

Lemma distance_le_insert a b i j : (distance a b i (S j) <= S (distance a b i j))%nat.
Proof.
  destruct i as [|i]; [by rewrite !distance_0_l|].
  simpl. destruct i, j; try case_match; case_decide; lia.
Qed.

Lemma distance_le_swap a b i j :
  a !! S i = b !! j -> a !! i = b !! S j ->
  (distance a b (S (S i)) (S (S j)) <= S (distance a b i j))%nat.
Proof.
  intros H1 H2. cbn [distance]. rewrite !bool_decide_true by done. simpl. lia.
Qed.

(** A script is at least as long as the difference of the lengths. *)
Lemma Edits_length a b n :
  Edits a b n -> (length a - length b + (length b - length a) <= n)%nat.
Proof. induction 1; rewrite ?length_app; simpl; lia. Qed.

Lemma min_closed (P : nat -> Prop) x y : P x -> P y -> P (x `min` y)%nat.
Proof. by destruct (Nat.min_dec x y) as [->| ->]. Qed.

(** One of the four ways of reaching a cell is the shortest. *)
Lemma distance_cases a b i j (P : nat -> Prop) :
  P (S (distance a b i (S j))) -> P (S (distance a b (S i) j)) ->
  P (distance a b i j + (if decide (a !! i = b !! j) then 0 else 1))%nat ->
  (forall i' j', i = S i' -> j = S j' -> a !! i = b !! j' -> a !! i' = b !! j ->
    P (S (distance a b i' j'))) ->
  P (distance a b (S i) (S j)).
Proof.
  rewrite <- !Nat.add_1_r with (n := distance a b i (S j)).
  rewrite <- !Nat.add_1_r with (n := distance a b (S i) j).
  intros Hremove Hinsert Hreplace Hswap.
  assert (P (((distance a b i (S j) + 1) `min` (distance a b (S i) j + 1)) `min`
    (distance a b i j + (if decide (a !! i = b !! j) then 0 else 1)))%nat) as Hcell.
  { by repeat apply min_closed. }
  destruct i as [|i]; [exact Hcell|]. destruct j as [|j]; [exact Hcell|].
  cbn [distance] in Hcell |- *.
  destruct (bool_decide (a !! S i = b !! j) && bool_decide (a !! i = b !! S j)) eqn:E;
    [|exact Hcell].
  apply andb_true_iff in E as [E1%bool_decide_eq_true E2%bool_decide_eq_true].
  apply min_closed; [exact Hcell|]. rewrite Nat.add_1_r. by apply Hswap.
Qed.

Lemma lookup_past_snoc {A} (u : list A) x r : ((u ++ [x]) ++ r) !! length u = Some x.
Proof. rewrite <- app_assoc. by apply list_lookup_middle. Qed.

Lemma lookup_past_pair {A} (u : list A) x y r :
  ((u ++ [x; y]) ++ r) !! length u = Some x /\ ((u ++ [x; y]) ++ r) !! S (length u) = Some y.
Proof.
  rewrite <- app_assoc. split.
  - by apply list_lookup_middle.
  - rewrite lookup_app_r by lia. by replace (S (length u) - length u)%nat with 1%nat by lia.
Qed.

(** No script is shorter than the distance. *)
Lemma Edits_distance u v n :
  Edits u v n -> forall a b, u `prefix_of` a -> v `prefix_of` b ->
  (distance a b (length u) (length v) <= n)%nat.
Proof.
  induction 1 as [|u v x n _ IH|u v x y n _ IH|u v x n _ IH|u v y n _ IH|u v x y n _ IH];
    intros a b [ra Ha] [rb Hb]; subst; rewrite ?length_app, ?Nat.add_1_r.
  - done.
  - etrans; [apply distance_le_replace|]. rewrite decide_True.
    + rewrite Nat.add_0_r. apply IH; rewrite <- app_assoc; by apply prefix_app_r.
    + by rewrite !lookup_past_snoc.
  - etrans; [apply distance_le_replace|].
    assert (distance ((u ++ [x]) ++ ra) ((v ++ [y]) ++ rb) (length u) (length v) <= n)%nat.
    { apply IH; rewrite <- app_assoc; by apply prefix_app_r. }
    case_decide; lia.
  - etrans; [apply distance_le_remove|]. apply le_n_S, IH; [|by apply prefix_app_r].
    rewrite <- app_assoc. by apply prefix_app_r.
  - etrans; [apply distance_le_insert|]. apply le_n_S, IH; [by apply prefix_app_r|].
    rewrite <- app_assoc. by apply prefix_app_r.
  - simpl. rewrite !Nat.add_succ_r, !Nat.add_0_r.
    etrans; [apply distance_le_swap|].
    + by rewrite (proj2 (lookup_past_pair _ _ _ _)), (proj1 (lookup_past_pair _ _ _ _)).
    + by rewrite (proj2 (lookup_past_pair _ _ _ _)), (proj1 (lookup_past_pair _ _ _ _)).
    + apply le_n_S, IH; rewrite <- app_assoc; by apply prefix_app_r.
Qed.

Lemma Edits_remove_all a : Edits a [] (length a).
Proof.
  induction a as [|x a IH] using rev_ind; [constructor|].
  rewrite length_app, Nat.add_1_r. by constructor.
Qed.

Lemma Edits_insert_all b : Edits [] b (length b).
Proof.
  induction b as [|x b IH] using rev_ind; [constructor|].
  rewrite length_app, Nat.add_1_r. by constructor.
Qed.

(** The distance is that of a script. *)
Lemma distance_Edits a b i j :
  (i <= length a)%nat -> (j <= length b)%nat -> Edits (take i a) (take j b) (distance a b i j).
Proof.
  remember (i + j)%nat as s eqn:Hs. revert i j Hs.
  induction (lt_wf s) as [s _ IH]. intros i j -> Hi Hj.
  destruct i as [|i].
  { rewrite distance_0_l. rewrite <- (length_take_le b j) at 2 by done. apply Edits_insert_all. }
  destruct j as [|j].
  { rewrite distance_0_r. rewrite <- (length_take_le a (S i)) at 2 by done. apply Edits_remove_all. }
  destruct (lookup_lt_is_Some_2 a i) as [x Hx]; [lia|].
  destruct (lookup_lt_is_Some_2 b j) as [y Hy]; [lia|].
  rewrite (take_S_r a i x Hx), (take_S_r b j y Hy). apply distance_cases.
  - rewrite <- (take_S_r b j y Hy). constructor. apply (IH (i + S j)%nat); lia.
  - rewrite <- (take_S_r a i x Hx). constructor. apply (IH (S i + j)%nat); lia.
  - case_decide as E.
    + assert (x = y) as -> by congruence. rewrite Nat.add_0_r.
      constructor. apply (IH (i + j)%nat); lia.
    + rewrite Nat.add_1_r. constructor. apply (IH (i + j)%nat); lia.
  - intros i' j' -> -> E1 E2.
    rewrite (take_S_r a i' y), (take_S_r b j' x), <- !app_assoc by congruence.
    constructor. apply (IH (i' + j')%nat); lia.
Qed.

(** C33. The misspelling test measures the restricted edit distance: the three-row table always has
    an answer (no index of it is out of range), and answers whether some script of at most [max]
    insertions, removals, replacements and swaps of neighbouring letters turns one text into the
    other, where a letter that was swapped is not edited again; the shortcut by length never refuses
    a text that is close enough.  Without the restriction the distance may be smaller. *)
Theorem edit_distance_is_shortest a b max :
  exists answer, edit_distance_within a b max = Some answer /\
    (answer = true <-> exists n, (n <= max)%nat /\ Edits a b n).
Proof.
  unfold edit_distance_within. destruct (table_last_cell a b) as (row & -> & Hrow).
  assert (Edits a b (distance a b (length a) (length b))) as Hscript.
  { rewrite <- (take_ge a (length a)) at 1 by done. rewrite <- (take_ge b (length b)) at 1 by done.
    by apply distance_Edits. }
  assert (forall n, Edits a b n -> distance a b (length a) (length b) <= n)%nat as Hleast.
  { intros n Hn. by apply Edits_distance with (a := a) (b := b) in Hn. }
  destruct (Nat.ltb_spec max (length a - length b + (length b - length a))) as [Hlen|_].
  - exists false. split; [done|]. split; [done|]. intros (n & Hn & He). apply Edits_length in He. lia.
  - cbn [mbind option_bind]. rewrite Hrow. eexists. split; [done|].
    rewrite Nat.leb_le. split; [eauto|]. intros (n & Hn & He). specialize (Hleast n He). lia.
Qed.

(** The Damerau-Levenshtein distance of these two texts is 2: a swap, then an insertion between the
    swapped letters.  The table counts 3. *)
Lemma restricted_distance_is_larger :
  Edits (chars "ca") (chars "ac") 1 /\ Edits (chars "ac") (chars "abc") 1 /\
  edit_distance_within (chars "ca") (chars "abc") 2 = Some false.
Proof.
  split; [|split; [|vm_compute; reflexivity]].
  - exact (Edits_swap [] [] _ _ 0 Edits_nil).
  - exact (Edits_keep _ _ _ 1 (Edits_insert _ _ _ 0 (Edits_keep _ _ _ 0 Edits_nil))).
Qed.
