(* ===== verification/ParserOps.v ===== *)
(** ParserOps: single operations of the parser, each against a direct definition of what it
    promises (crates/parser/src/parser.rs): the table of closing parens, the iteration guard and the
    error operations. *)
From stdpp Require Import prelude strings.
From S2P Require Import Prelude Kinds Tokens Input TornIf ParserCore.

(** ** Closing parens ahead *)

Lemma length_lowest_ahead ds : length (lowest_ahead ds).1 = length ds.
Proof.
  induction ds as [|[k [[before after] outside]] ds IH]; csimpl; [done|].
  destruct (lowest_ahead ds). csimpl in *. by rewrite IH.
Qed.

(** Counts of a depth and of braces that [n] tokens may have made. *)
Definition counted (n depth braces : Z) : Prop := (Z.abs depth <= n /\ 0 <= braces <= n)%Z.

(** A token moves each count by one at most. *)
Lemma paren_step_counted n k depth braces :
  (n + 1 < 2 ^ 31)%Z -> counted n depth braces ->
  exists d b, paren_step k depth braces = Some (d, b) /\ counted (n + 1) d b /\ (k <> T![Semicolon] -> (d <= depth + 1)%Z).
Proof.
  unfold counted. intros Hn Hc.
  assert (forall d b, (Z.abs d <= n + 1 /\ 0 <= b <= n + 1 /\ d <= depth + 1)%Z ->
    exists d' b', Some (d, b) = Some (d', b') /\ (Z.abs d' <= n + 1 /\ 0 <= b' <= n + 1)%Z /\ (k <> T![Semicolon] -> (d' <= depth + 1)%Z)) as Hok.
  { intros d b Hd. exists d, b. split; [done|]. split; [lia|]. intros _. lia. }
  destruct k as [[]]; unfold paren_step; try (apply Hok; lia).
  - destruct (Z.eqb_spec braces 0) as [->|]; [rewrite i32_sum_fits by lia|]; apply Hok; lia.
  - destruct (Z.eqb_spec braces 0) as [->|]; [rewrite i32_sum_fits by lia|]; apply Hok; lia.
  - rewrite u32_sum_fits by lia. apply Hok. lia.
  - apply Hok. unfold saturating_sub. lia.
  - exists 0%Z, 0%Z. split; [done|]. split; [lia|done].
Qed.

(** What the table holds for the tokens from some point on, against the scan started there with
    [parens] groups open. *)
Lemma lowest_ahead_scan ks n depth braces parens :
  (n + Z.of_nat (length ks) < 2 ^ 31)%Z -> counted n depth braces -> (0 <= parens <= n)%Z ->
  exists ds, paren_depths ks depth braces = Some ds /\ length ds = length ks /\
    scan_for_closing_paren ks parens braces = Some ((lowest_ahead ds).2 <? depth - parens)%Z.
Proof.
  revert n depth braces parens.
  induction ks as [|k ks IH]; intros n depth braces parens Hn Hc Hp.
  { exists []. split; [done|]. split; [done|]. simpl. f_equal. symmetry. apply Z.ltb_ge. unfold counted, I32_MAX in *. lia. }
  cbn [length] in Hn. destruct (paren_step_counted n k depth braces) as (d & b & E & Hc' & Hd); [lia|done|].
  assert (exists ds, paren_depths ks d b = Some ds /\ length ds = length ks) as (ds & Eds & Hlen).
  { destruct (IH (n + 1)%Z d b 0%Z) as (ds & ? & ? & _); [lia|done|lia|]. by exists ds. }
  assert (forall m, (0 <= m <= n + 1)%Z -> scan_for_closing_paren ks m b = Some ((lowest_ahead ds).2 <? d - m)%Z) as IH'.
  { intros m Hm. destruct (IH (n + 1)%Z d b m) as (ds' & E' & _ & ->); [lia|done|lia|]. congruence. }
  clear IH. exists ((k, (depth, d, (braces =? 0)%Z)) :: ds). cbn [paren_depths]. rewrite E. cbn [mbind option_bind]. rewrite Eds.
  split; [done|]. split; [cbn [length]; by rewrite Hlen|]. cbn [lowest_ahead]. destruct (lowest_ahead ds) as [closers lowest]. cbn [snd] in IH' |- *.
  assert (forall m, (m <= d)%Z -> (Z.min lowest d <? m)%Z = (lowest <? m)%Z) as Hmin.
  { intros m Hm. destruct (Z.ltb_spec lowest m), (Z.ltb_spec (Z.min lowest d) m); lia. }
  unfold counted in *. destruct k as [kind].
  destruct kind; unfold paren_step in E; cbn [scan_for_closing_paren];
    try (injection E as <- <-; rewrite decide_False by done; rewrite Hmin by lia; apply IH'; lia).
  - (* LParen *) destruct (Z.eqb_spec braces 0) as [->|Hb].
    + rewrite i32_sum_fits in E by lia. injection E as <- <-. rewrite u32_sum_fits by lia. cbn [mbind option_bind].
      rewrite decide_False by done. rewrite Hmin, IH' by lia. do 2 f_equal. lia.
    + injection E as <- <-. rewrite decide_False by done. rewrite Hmin by lia. apply IH'. lia.
  - (* RParen *) destruct (Z.eqb_spec braces 0) as [->|Hb].
    + rewrite i32_sum_fits in E by lia. injection E as <- <-. rewrite decide_False by done. destruct (Z.eqb_spec parens 0) as [->|Hn'].
      * f_equal. symmetry. apply Z.ltb_lt. lia.
      * rewrite Hmin, IH' by lia. do 2 f_equal. lia.
    + injection E as <- <-. rewrite decide_False by done. rewrite Hmin by lia. apply IH'. lia.
  - (* LBrace *) rewrite u32_sum_fits in E by lia. injection E as <- <-. rewrite u32_sum_fits by lia. cbn [mbind option_bind].
    rewrite decide_False by done. rewrite Hmin by lia. apply IH'. lia.
  - (* Semicolon *) rewrite decide_True by done. f_equal. symmetry. apply Z.ltb_ge. unfold I32_MAX. lia.
Qed.

(** The row of the table for a token: the counts before it and what follows. *)
Lemma match_closers_at ks1 ks2 n depth braces ds :
  (n + Z.of_nat (length (ks1 ++ ks2)) < 2 ^ 31)%Z -> counted n depth braces -> paren_depths (ks1 ++ ks2) depth braces = Some ds ->
  exists depth' braces' ds', counted (n + Z.of_nat (length ks1)) depth' braces' /\ paren_depths ks2 depth' braces' = Some ds' /\
    (lowest_ahead ds).1 !! length ks1 = (lowest_ahead ds').1 !! 0%nat.
Proof.
  revert n depth braces ds. induction ks1 as [|k ks1 IH]; intros n depth braces ds Hn Hc E.
  { exists depth, braces, ds. split; [by rewrite Z.add_0_r|done]. }
  cbn [length app] in *. destruct (paren_step_counted n k depth braces) as (d & b & Es & Hc' & _); [lia|done|].
  cbn [paren_depths] in E. rewrite Es in E. cbn [mbind option_bind] in E.
  apply bind_Some in E as (rest & Er & [= <-]). destruct (IH (n + 1)%Z d b rest) as (d' & b' & ds' & Hd & Eds & Hrow); [lia|done|done|].
  exists d', b', ds'. split; [by replace (n + Z.of_nat (S (length ks1)))%Z with (n + 1 + Z.of_nat (length ks1))%Z by lia|]. split; [done|].
  cbn [lowest_ahead]. destruct (lowest_ahead rest) as [closers lowest]. exact Hrow.
Qed.

(** The table of closing parens answers as the scan: whether a closing paren of an enclosing
    group follows before the statement ends is read in the precomputed table at every position
    outside braces, and the table, counted once from the start of the file, gives what the scan
    from that position gives; below 2^31 words neither overflows a counter. *)
Theorem closing_paren_table_agrees p :
  (Z.of_nat (length (kinds (input p))) < 2 ^ 31)%Z ->
  closing_paren_ahead p = scan_for_closing_paren (drop (pos p) (kinds (input p))) 0 0 /\
  is_Some (closing_paren_ahead p).
Proof.
  intros Hlen. assert (is_Some (scan_for_closing_paren (drop (pos p) (kinds (input p))) 0 0)) as Hsome.
  { destruct (lowest_ahead_scan (drop (pos p) (kinds (input p))) 0 0 0 0) as (? & _ & _ & ->);
      [rewrite length_drop; lia|unfold counted; lia|lia|by eexists]. }
  assert (closing_paren_ahead p = scan_for_closing_paren (drop (pos p) (kinds (input p))) 0 0) as ->; [|done]. clear Hsome.
  unfold closing_paren_ahead, match_closers.
  destruct (lowest_ahead_scan (kinds (input p)) 0 0 0 0) as (ds & Eds & Hds & _); [lia|unfold counted; lia|lia|].
  rewrite Eds. cbn [mbind option_bind].
  destruct (drop (pos p) (kinds (input p))) as [|k ks] eqn:Ed.
  { rewrite lookup_ge_None_2; [done|]. rewrite length_lowest_ahead, Hds.
    apply (f_equal length) in Ed. rewrite length_drop in Ed. simpl in Ed. lia. }
  assert (pos p < length (kinds (input p)))%nat as Hp.
  { apply (f_equal length) in Ed. rewrite length_drop in Ed. simpl in Ed. lia. }
  pose proof (take_drop (pos p) (kinds (input p))) as Hsplit. rewrite Ed in Hsplit.
  rewrite <- Hsplit in Eds. destruct (match_closers_at (take (pos p) (kinds (input p))) (k :: ks) 0 0 0 ds)
    as (depth & braces & ds' & Hc & E' & Hrow); [by rewrite Hsplit|unfold counted; lia|done|].
  rewrite length_take_le in Hrow, Hc by lia. rewrite Hrow.
  assert (Z.of_nat (pos p) + Z.of_nat (length (k :: ks)) < 2 ^ 31)%Z as Hbound.
  { rewrite <- Hsplit, length_app, length_take_le in Hlen by lia. lia. }
  destruct (lowest_ahead_scan (k :: ks) (Z.of_nat (pos p)) depth braces 0) as (ds2 & E2 & _ & Hscan); [lia|done|lia|].
  rewrite E' in E2. injection E2 as <-. rewrite Z.sub_0_r in Hscan.
  cbn [paren_depths] in E'. apply bind_Some in E' as ([d b] & _ & E'). apply bind_Some in E' as (rest & _ & [= <-]).
  cbn [lowest_ahead] in *. destruct (lowest_ahead rest) as [closers lowest].
  destruct (Z.eqb_spec braces 0) as [->|Hb]; [by rewrite Hscan|done].
Qed.

(** ** The iteration guard *)

(** A loop of [n] turns that only asks the guard. *)
Fixpoint check_times (n : nat) : M unit :=
  match n with
  | O => skip
  | S n => check_iteration_limit;; check_times n
  end.

(** At most [m] further checks at [here] fill the history with [here]. *)
Definition fills (here m : nat) (recent : list nat) : Prop :=
  exists stale, (forall i x, recent !! i = Some x -> (stale <= i)%nat -> x = here) /\
    (length recent <= POSITION_HISTORY_SIZE)%nat /\
    (stale + (POSITION_HISTORY_SIZE - length recent) <= m)%nat.

Lemma fills_remember here m recent :
  fills here m recent -> fills here (m - 1) (remember_position recent here).
Proof.
  intros (stale & Hs & Hlen & Hm). unfold fills, remember_position, POSITION_HISTORY_SIZE in *.
  destruct (Nat.leb_spec 100 (length recent)) as [Hfull|Hfree].
  - exists (stale - 1)%nat. destruct recent as [|x recent]; [cbn in *; lia|]. simpl tail.
    rewrite length_app. cbn [length] in *. split_and!; [|lia..]. intros i y [Hy|[Hi Hy]]%lookup_app_Some Hge.
    + apply (Hs (S i)); [done|lia].
    + apply list_lookup_singleton_Some in Hy. by destruct Hy.
  - exists stale. rewrite length_app. cbn [length]. split_and!; [|lia..].
    intros i y [Hy|[Hi Hy]]%lookup_app_Some Hge.
    + by apply (Hs i).
    + apply list_lookup_singleton_Some in Hy. by destruct Hy.
Qed.

Lemma constant_no_dups {A} `{EqDecision A} (l : list A) x :
  (forall y, y ∈ l -> y = x) -> (length (remove_dups l) <= 1)%nat.
Proof.
  intros Hl. pose proof (NoDup_remove_dups l) as Hnd.
  assert (forall y, y ∈ remove_dups l -> y = x) as Hr.
  { intros y Hy. apply Hl, elem_of_remove_dups, Hy. }
  destruct (remove_dups l) as [|a [|b r]]; simpl; [lia..|].
  exfalso. apply NoDup_cons in Hnd as [Hnd _]. apply Hnd.
  rewrite (Hr a), <- (Hr b) by set_solver. set_solver.
Qed.

Lemma filled_panics here recent :
  fills here 0 recent -> (length (remove_dups recent) <? 5)%nat = true.
Proof.
  intros (stale & Hs & _ & Hm). apply Nat.ltb_lt.
  enough (length (remove_dups recent) <= 1)%nat by lia.
  apply constant_no_dups with here. intros y [i Hy]%list_elem_of_lookup.
  apply (Hs i); [done|lia].
Qed.

(** The checks the guard needs at most. *)
Definition patience (m : nat) (count : Z) : Z :=
  (MAX_ITERATIONS - count +
   (if (Z.of_nat m <=? MAX_ITERATIONS - count)%Z then 0 else MAX_ITERATIONS))%Z.

Lemma check_times_stopped n p m :
  fills (pos p) m (recent_positions p) -> (m <= 100)%nat ->
  (0 <= iteration_count p < MAX_ITERATIONS)%Z -> (patience m (iteration_count p) <= Z.of_nat n)%Z ->
  check_times n p = Panic IterationLimit.
Proof.
  unfold patience. remember MAX_ITERATIONS as limit eqn:Hlimit.
  assert (100 < limit)%Z as Hlarge by by rewrite Hlimit. 
  revert p m. induction n as [|n IH]; intros p m Hf Hm Hc Hn.
  { destruct (Z.leb_spec (Z.of_nat m) (limit - iteration_count p)); lia. }
  unfold check_times; fold check_times. unfold mbind, M_bind, check_iteration_limit.
  rewrite <- Hlimit. pose proof (fills_remember _ _ _ Hf) as Hf'.
  destruct (Z.ltb_spec (iteration_count p + 1) limit) as [Hlt|Hge].
  - apply (IH _ (m - 1)%nat); simpl; [done|lia|lia|].
    destruct (Z.leb_spec (Z.of_nat m) (limit - iteration_count p)),
      (Z.leb_spec (Z.of_nat (m - 1)) (limit - (iteration_count p + 1))); lia.
  - destruct (length (remove_dups (remember_position (recent_positions p) (pos p))) <? 5)%nat eqn:E;
      [done|].
    apply (IH _ (m - 1)%nat); simpl; [done|lia|lia|].
    destruct (Z.leb_spec (Z.of_nat m) (limit - iteration_count p)) as [Hle|Hgt].
    + replace (m - 1)%nat with 0%nat in Hf' by lia. apply filled_panics in Hf'. congruence.
    + destruct (Z.leb_spec (Z.of_nat (m - 1)) (limit - 0)); lia.
Qed.

(** C32. A loop that stands still is stopped: whatever the guard has counted and whatever positions
    it remembers, at most 1,000,099 checks without a token consumed between them end in the panic
    of the iteration guard. *)
Theorem stuck_loop_is_stopped p n :
  (0 <= iteration_count p < MAX_ITERATIONS)%Z ->
  (length (recent_positions p) <= POSITION_HISTORY_SIZE)%nat ->
  (1000099 <= Z.of_nat n)%Z ->
  check_times n p = Panic IterationLimit.
Proof.
  intros Hc Hr Hn. apply check_times_stopped with 100%nat; [|done..|].
  - exists (length (recent_positions p)). split_and!; [|done|unfold POSITION_HISTORY_SIZE in *; lia].
    intros i x Hx%lookup_lt_Some. lia.
  - unfold patience, MAX_ITERATIONS in *.
    destruct (Z.leb_spec (Z.of_nat 100) (1000000 - iteration_count p)); lia.
Qed.

(** ** Expecting a token *)

(** No counter of open groups is about to leave [u32]. *)
Definition counters_fit (p : Parser) : Prop :=
  (paren_depth p + 1 < 2 ^ 32)%Z /\ (brace_depth p + 1 < 2 ^ 32)%Z.

Lemma bump_run p k :
  counters_fit p -> current p = Some k ->
  exists q, bump p = Ok tt q /\ pos q = S (pos p) /\ input q = input p /\
    events q = events p ++ [EToken (sig_kind k)].
Proof.
  intros [Hp Hb] Hk. unfold bump, mbind, M_bind, gets, push_event, advance, modify. rewrite Hk.
  assert (exists d b, track_group (sig_kind k) p = Ok tt (set_depths d b p)) as (d & b & ->).
  { unfold track_group, mbind, M_bind, u32_add, modify, mret, M_ret.
    destruct p; destruct (sig_kind k); simpl in *; unfold set_depths; simpl;
      repeat match goal with
      | |- context [if (?a <? ?b)%Z then _ else _] => destruct (Z.ltb_spec a b)
      | |- context [if (?a =? ?b)%Z then _ else _] => destruct (Z.eqb_spec a b)
      end; eauto; lia. }
  by eexists.
Qed.

(** The tokens and events an error takes: the token here unless the recovery leaves it, then the
    error itself, in a node of their own. *)
Definition error_events (err : ParseError) (taken : option Sig) : list Event :=
  Start NK.Error None :: (EToken ∘ sig_kind <$> option_list taken) ++ [EError err; Finish].

Lemma complete_run es rest raw kind q :
  events q = es ++ Placeholder :: rest ->
  complete_ (MkMarker (length es) raw) kind q =
  Ok tt (set_events (es ++ Start kind None :: rest ++ [Finish]) q).
Proof.
  intros E. unfold complete_, complete, mbind, M_bind. simpl m_pos. rewrite E.
  rewrite (proj2 (Nat.ltb_lt _ _)) by (rewrite length_app; simpl; lia).
  rewrite <- (Nat.add_0_r (length es)) at 1. rewrite insert_app_r, <- app_assoc. reflexivity.
Qed.

Lemma emit_missing_run p err :
  exists q, emit_missing err p = Ok tt q /\ pos q = pos p /\ input q = input p /\
    events q = events p ++ error_events err None.
Proof.
  unfold emit_missing. unfold mbind at 1, M_bind at 1, start.
  unfold mbind, M_bind, push_event, modify.
  rewrite (complete_run (events p) [EError err]) by (simpl; by rewrite <- app_assoc).
  by eexists.
Qed.

Lemma at_end_current p : at_end p = bool_decide (current p = None).
Proof.
  unfold at_end, current, nth, input_kind, input_len. rewrite Nat.add_0_r.
  case_bool_decide as E; [apply Nat.leb_le, lookup_ge_None, E|].
  apply Nat.leb_gt. by apply not_eq_None_Some, lookup_lt_is_Some in E.
Qed.

Lemma emit_error_run p err :
  counters_fit p ->
  exists q, emit_error err p = Ok tt q /\ input q = input p /\
    pos q = (pos p + length (option_list (current p)))%nat /\
    events q = events p ++ error_events err (current p).
Proof.
  intros Hfit. unfold emit_error. unfold mbind at 1, M_bind at 1, start.
  unfold mbind at 1, M_bind at 1, gets. unfold mbind at 1, M_bind at 1.
  set (p1 := set_events _ p).
  assert (exists q, when (negb (at_end p1)) bump p1 = Ok tt q /\ input q = input p /\
    pos q = (pos p + length (option_list (current p)))%nat /\
    events q = events p ++ Placeholder :: (EToken ∘ sig_kind <$> option_list (current p)))
    as (q & -> & Hin & Hpos & Hev).
  { destruct (current p) as [k|] eqn:Ek.
    - destruct (bump_run p1 k Hfit Ek) as (q & Hb & Hpos & Hin & Hev). exists q.
      rewrite at_end_current. change (current p1) with (current p). rewrite Ek. simpl. rewrite Hev, Hpos. unfold p1. simpl. rewrite <- app_assoc.
      split_and!; [done|done|simpl; lia|done].
    - exists p1. rewrite at_end_current. change (current p1) with (current p). rewrite Ek. simpl. rewrite Nat.add_0_r. done. }
  unfold mbind, M_bind, push_event, modify.
  rewrite (complete_run (events p) ((EToken ∘ sig_kind <$> option_list (current p)) ++ [EError err]))
    by (simpl; by rewrite Hev, <- app_assoc).
  eexists. split; [done|]. simpl. unfold error_events. rewrite <- app_assoc. done.
Qed.

(** The failing branch of [expect]. *)
Lemma missing_run p kind :
  counters_fit p ->
  let err := Expected [kind] (sig_kind <$> current p) (recovery_here p) in
  let lost := if at_statement_separator p then None else current p in
  exists q,
    (err ← gets (fun p => Expected [kind] (found p) (recovery_here p)); emit err;; mret false) p =
      Ok false q /\ input q = input p /\
    false = false /\ pos q = (pos p + length (option_list lost))%nat /\
    events q = events p ++ error_events err lost.
Proof.
  intros Hfit err lost. unfold mbind at 1, M_bind at 1, gets. unfold found. fold err.
  unfold mbind, M_bind, emit. subst err lost. simpl recovery.
  assert (recovery_here p = if bool_decide (current p = None) || at_statement_separator p
    then MissingToken else BumpToken) as Er by done.
  destruct (at_statement_separator p) eqn:Es.
  - rewrite orb_true_r in Er. rewrite Er. cbn [recovery].
    destruct (emit_missing_run p (Expected [kind] (sig_kind <$> current p) MissingToken))
      as (q & -> & ? & ? & ?). exists q. simpl. rewrite Nat.add_0_r. done.
  - rewrite orb_false_r in Er. rewrite Er. case_bool_decide as Ec; cbn [recovery].
    + destruct (emit_missing_run p (Expected [kind] (sig_kind <$> current p) MissingToken))
        as (q & -> & ? & ? & ?). exists q. rewrite Ec in *. simpl. rewrite Nat.add_0_r. done.
    + destruct (emit_error_run p (Expected [kind] (sig_kind <$> current p) BumpToken) Hfit)
        as (q & -> & ? & ? & ?). by exists q.
Qed.

(** C31. Expecting a token does one of two things, on every state: a word of the expected kind that
    is no boundary of the whole parse is consumed and nothing else happens; otherwise exactly one
    error, naming the expected and the found kind, is recorded in an [Error] node of its own. The
    error takes the token under the cursor with it only where no separator of statements, no
    enclosing boundary and no end of input stands. *)
Theorem expect_settles kind p :
  counters_fit p ->
  exists taken q, expect kind p = Ok taken q /\ input q = input p /\
    taken = (negb (at_declared_boundary p) && at_ kind p) /\
    let err := Expected [sig_kind kind] (sig_kind <$> current p) (recovery_here p) in
    let lost := if at_statement_separator p then None else current p in
    if taken
    then pos q = S (pos p) /\ events q = events p ++ [EToken (sig_kind kind)]
    else pos q = (pos p + length (option_list lost))%nat /\
         events q = events p ++ error_events err lost.
Proof.
  intros Hfit. unfold expect. unfold mbind at 1, M_bind at 1, gets at 1.
  unfold mbind at 1, M_bind at 1.
  destruct (at_declared_boundary p) eqn:Eb; simpl negb; rewrite ?andb_false_l, ?andb_true_l.
  - destruct (missing_run p (sig_kind kind) Hfit) as (q & Hrun & Hrest).
    by exists false, q.
  - unfold eat at 1. unfold mbind at 1, M_bind at 1, gets at 1.
    destruct (at_ kind p) eqn:Ek.
    + apply bool_decide_eq_true in Ek. destruct (bump_run p kind Hfit Ek) as (q & Hb & ? & ? & ?).
      exists true, q. unfold mbind, M_bind. rewrite Hb. done.
    + destruct (missing_run p (sig_kind kind) Hfit) as (q & Hrun & Hrest).
      by exists false, q.
Qed.

(** ** A call *)

(** The tokens of [f(a;]. *)
Definition sample_call : list Token :=
  [MkToken Ident (chars "f") 0; MkToken LParen (chars "(") 1; MkToken Ident (chars "a") 2;
   MkToken RParen (chars ")") 3; MkToken Semicolon (chars ";") 4].

Definition sample_inside : Parser := set_pos 2 (Parser_new sample_call).

Lemma closing_paren_table_agrees_witness :
  (Z.of_nat (length (kinds (input sample_inside))) < 2 ^ 31)%Z /\
  scan_for_closing_paren (drop (pos sample_inside) (kinds (input sample_inside))) 0 0 = Some true /\
  closing_paren_ahead sample_inside = Some true.
Proof.
  assert (Z.of_nat (length (kinds (input sample_inside))) < 2 ^ 31)%Z as H by by vm_compute.
  split; [exact H|]. split; [by vm_compute|].
  rewrite (proj1 (closing_paren_table_agrees sample_inside H)). by vm_compute.
Defined.

Lemma stuck_loop_is_stopped_witness :
  exists n, check_times n (Parser_new sample_call) = Panic IterationLimit.
Proof.
  exists (Z.to_nat 1000099). apply stuck_loop_is_stopped.
  - by vm_compute.
  - apply Nat.le_0_l.
  - rewrite Z2Nat.id; lia.
Defined.

Lemma expect_settles_witness :
  counters_fit sample_inside /\ exists q,
    expect T![RParen] sample_inside = Ok false q /\ pos q = 3%nat /\
    length (events q) = 4%nat.
Proof.
  assert (counters_fit sample_inside) as Hfit by by vm_compute.
  split; [exact Hfit|].
  destruct (expect_settles T![RParen] sample_inside Hfit) as (taken & q & Hrun & _ & Ht & Hq).
  change (taken = false) in Ht. rewrite Ht in Hrun, Hq. destruct Hq as [Hpos Hev].
  exists q. split; [exact Hrun|]. split; [exact Hpos|]. by rewrite Hev.
Defined.
