(* ===== verification/Parsing.v ===== *)
(** Parsing: what a run of the parser over a whole module comes to (crates/parser/src/lib.rs and
    the entry [grammar::source_file]).

    The rules' specifications are composed for the initial state; the iteration guard's budget is
    computed from the input.  Outside of the guard nothing can go wrong: the computation has fuel,
    and no index, counter or assertion fails. *)
From stdpp Require Import prelude strings.
From S2P Require Import Prelude Kinds Tokens Input TornIf ParserCore Events Hoare Directives.
From S2P Require Import Expressions Grammar DirectivesSpec ExpressionsSpec GrammarSpec.

(** The checks of the guard that a run over [toks] may need. *)
Definition checks_bound (toks : list Token) : Z := (8 * Z.of_nat (length (sig_kinds toks)) + 3)%Z.

(** The parser's share of [parse]: the events of a module. *)
Definition parse_events `{CharCase} (toks : list Token) : Outcome (list Event) :=
  (source_file;; gets events) (Parser_new toks).

Lemma Parser_new_inv toks : Inv (Input_new toks) (Parser_new toks).
Proof. constructor; simpl; try done; lia. Qed.

Lemma Parser_new_pot toks : pot (Input_new toks) (Parser_new toks) = (checks_bound toks - 3)%Z.
Proof. unfold pot, checks_bound, input_len. simpl. rewrite Input_new_kinds. lia. Qed.

Lemma sig_kinds_filter toks :
  sig_kind <$> sig_kinds toks = tok_kind <$> filter (fun t => is_trivia (tok_kind t) = false) toks.
Proof.
  induction toks as [|t toks IH]; csimpl; [done|].
  destruct (is_trivia (tok_kind t)) eqn:E.
  - by rewrite filter_cons_False by congruence.
  - rewrite filter_cons_True, fmap_cons, IH by done. done.
Qed.

(** The specification of the source file at the initial state. *)
Lemma source_file_run `{CharCase} toks :
  (Z.of_nat (length (sig_kinds toks)) < 2 ^ 31)%Z ->
  wp (checks_bound toks) source_file (fun _ p' => Inv (Input_new toks) p' /\
    pos p' = length (sig_kinds toks) /\ enclosing_boundaries p' = [] /\
    exists body, Forest body /\ events p' = Start NK.SourceFile None :: body ++ [Finish])
    (Parser_new toks).
Proof.
  intros Hn. rewrite <- Input_new_kinds. apply source_file_spec; simpl.
  - unfold input_len. by rewrite Input_new_kinds.
  - apply Parser_new_inv.
  - rewrite Parser_new_pot. lia.
  - done.
  - done.
Qed.

(** C5. The parser finishes every module its guard allows: when the significant tokens are few
    enough for the iteration guard (8 checks per token and 3 more below the limit of a million),
    [source_file] returns, having consumed every token, with every grammar boundary removed again,
    every counter of open groups, insertions and conditionals within the tokens read, and with
    events that form one [SourceFile] node around a forest of nodes. *)
Theorem source_file_parses `{CharCase} toks :
  (checks_bound toks < MAX_ITERATIONS)%Z ->
  exists p', source_file (Parser_new toks) = Ok tt p' /\
    pos p' = length (sig_kinds toks) /\
    enclosing_boundaries p' = [] /\ at_grammar_boundary p' = None /\
    (0 <= paren_depth p' /\ 0 <= brace_depth p' /\
     paren_depth p' + brace_depth p' <= Z.of_nat (pos p'))%Z /\
    (0 <= open_inline_inserts p' <= Z.of_nat (pos p'))%Z /\
    (0 <= open_preproc_ifs p' <= Z.of_nat (pos p'))%Z /\
    exists body, Forest body /\ events p' = Start NK.SourceFile None :: body ++ [Finish].
Proof.
  intros Hb. pose proof (source_file_run toks) as Hrun. unfold wp in Hrun.
  unfold checks_bound, MAX_ITERATIONS in *.
  destruct (source_file (Parser_new toks)) as [[] p'|reason|].
  - exists p'. destruct Hrun as ([] & ? & ? & ?); [lia|]. eauto 10.
  - destruct Hrun; lia.
  - destruct Hrun; lia.
Qed.

(** The parser is lossless in its significant tokens: the token events of a module are exactly
    the kinds of its significant tokens, in their order, none lost, added or moved, however broken
    the module is. *)
Theorem events_keep_every_token `{CharCase} toks es p' :
  (Z.of_nat (length (sig_kinds toks)) < 2 ^ 31)%Z ->
  parse_events toks = Ok es p' ->
  token_kinds es = tok_kind <$> filter (fun t => is_trivia (tok_kind t) = false) toks.
Proof.
  intros Hn. pose proof (source_file_run toks Hn) as Hrun. unfold wp in Hrun.
  unfold parse_events, mbind, M_bind. destruct (source_file (Parser_new toks)) as [[] q| |]; [|done..].
  intros [= <- <-]. destruct Hrun as ([_ _ _ _ _ _ _ _ Ht] & Hp & _).
  rewrite Ht, Hp, Input_new_kinds, sig_kinds_filter, take_ge; [done|].
  by rewrite <- sig_kinds_filter, length_fmap.
Qed.

(** C6. Nothing but the iteration guard stops the parser: on any module of fewer than 2^31
    significant tokens the computation of [source_file] ends (no loop and no recursion of the
    grammar goes on without consuming a token), no index is out of bounds, no assertion fails and no
    counter overflows, neither the [u32] counters of the state and of the look-ahead over markers
    nor the [i32] bracket counts of the walks that decide the conditional groups; and the guard
    itself needs a module of 125,000 tokens. *)
Theorem only_the_guard_stops `{CharCase} toks :
  (Z.of_nat (length (sig_kinds toks)) < 2 ^ 31)%Z ->
  match source_file (Parser_new toks) with
  | Ok _ _ => True
  | Panic reason => reason = IterationLimit /\
      (MAX_ITERATIONS <= checks_bound toks /\ 125000 <= Z.of_nat (length (sig_kinds toks)))%Z
  | OutOfFuel => False
  end.
Proof.
  intros Hn. pose proof (source_file_run toks Hn) as Hrun. unfold wp in Hrun.
  destruct (source_file (Parser_new toks)) as [[] p'|reason|]; [done| |done].
  destruct Hrun as [-> Hlim]. split; [done|].
  unfold checks_bound, MAX_ITERATIONS in *. lia.
Qed.

(** ** A module with gaps and an operand missing *)

(** The tokens of [procedure a()⏎b=;⏎endprocedure]. *)
Definition sample_module : list Token :=
  [MkToken KwProcedure (chars "procedure") 0; MkToken Whitespace [0x20%Z] 9;
   MkToken Ident (chars "a") 10; MkToken LParen (chars "(") 11; MkToken RParen (chars ")") 12;
   MkToken Newline [0xA%Z] 13; MkToken Ident (chars "b") 14; MkToken Eq (chars "=") 15;
   MkToken Semicolon (chars ";") 16; MkToken Newline [0xA%Z] 17;
   MkToken KwEndProcedure (chars "endprocedure") 18].

Lemma source_file_parses_witness :
  (checks_bound sample_module < MAX_ITERATIONS)%Z /\
  exists p', source_file (H := basic_lowercase) (Parser_new sample_module) = Ok tt p' /\
    pos p' = 8%nat.
Proof.
  assert (checks_bound sample_module < MAX_ITERATIONS)%Z as Hb by by vm_compute.
  split; [exact Hb|].
  destruct (@source_file_parses basic_lowercase sample_module Hb) as (p' & Hrun & Hpos & _).
  exists p'. split; [exact Hrun|exact Hpos].
Defined.

Lemma events_keep_every_token_witness :
  exists es p', parse_events (H := basic_lowercase) sample_module = Ok es p' /\
    token_kinds es =
      [KwProcedure; Ident; LParen; RParen; Ident; Eq; Semicolon; KwEndProcedure].
Proof.
  destruct (parse_events (H := basic_lowercase) sample_module) as [es p'|reason|] eqn:E.
  - exists es, p'. split; [done|].
    rewrite (@events_keep_every_token basic_lowercase sample_module es p'); [done..|exact E].
  - exfalso. revert E. by vm_compute.
  - exfalso. revert E. by vm_compute.
Defined.

Lemma only_the_guard_stops_witness :
  (Z.of_nat (length (sig_kinds sample_module)) < 2 ^ 31)%Z /\
  match source_file (H := basic_lowercase) (Parser_new sample_module) with
  | Ok _ _ => True
  | Panic reason => reason = IterationLimit /\
      (MAX_ITERATIONS <= checks_bound sample_module /\
       125000 <= Z.of_nat (length (sig_kinds sample_module)))%Z
  | OutOfFuel => False
  end.
Proof.
  assert (Z.of_nat (length (sig_kinds sample_module)) < 2 ^ 31)%Z as Hn by by vm_compute.
  split; [exact Hn|]. exact (@only_the_guard_stops basic_lowercase sample_module Hn).
Defined.
