(* ===== verification/Sink.v ===== *)
(** Sink: from events to the calls that build the tree (crates/parser/src/sink.rs and the builder of
    crates/syntax/src/syntax_node.rs).

    The sink replays the events over the raw tokens, puts the trivia between the words back and
    computes the ranges of the errors.  The tree itself is made by the builder of the rowan library;
    the model keeps the calls it is sent, in order, which is all the sink contributes.  A step that
    panics in the source ([unreachable!], an index out of bounds, an underflow) gives [None]. *)
From stdpp Require Import prelude.
From S2P Require Import Prelude Kinds Tokens Input TornIf ParserCore.

(** ** The tree builder *)

Inductive Call : Set :=
| StartNode (kind : SK.SyntaxKind)
| AddToken (kind : SK.SyntaxKind) (t : text)
| FinishNode.

(** [size_of::<usize>() * 2] on a 64-bit target. *)
Definition HEAP_PER_ELEMENT : Z := 16.

Record SyntaxTreeBuilder : Set := MkBuilder {
  b_errors : list (TextRange * ParseError);
  inner : list Call;
  heap_bytes : Z;
}.

Definition builder_new : SyntaxTreeBuilder := MkBuilder [] [] 0.

Definition builder_token (kind : SK.SyntaxKind) (t : text) (b : SyntaxTreeBuilder) : SyntaxTreeBuilder :=
  MkBuilder (b_errors b) (inner b ++ [AddToken kind t]) (heap_bytes b + (HEAP_PER_ELEMENT + str_len t)).

Definition builder_start_node (kind : SK.SyntaxKind) (b : SyntaxTreeBuilder) : SyntaxTreeBuilder :=
  MkBuilder (b_errors b) (inner b ++ [StartNode kind]) (heap_bytes b + HEAP_PER_ELEMENT).

Definition builder_finish_node (b : SyntaxTreeBuilder) : SyntaxTreeBuilder :=
  MkBuilder (b_errors b) (inner b ++ [FinishNode]) (heap_bytes b).

Definition builder_error (range : TextRange) (err : ParseError) (b : SyntaxTreeBuilder)
    : SyntaxTreeBuilder :=
  MkBuilder (b_errors b ++ [(range, err)]) (inner b) (heap_bytes b).

(** ** The sink *)

Inductive DeferredNode : Set := DStart (kind : SK.SyntaxKind) | DFinish.

Record Sink : Set := MkSink {
  builder : SyntaxTreeBuilder;
  s_tokens : list Token;
  token_pos : nat;
  last_significant_pos : option nat;
  pending_trivia_start : option nat;
  deferred_nodes : list DeferredNode;
  deferred_depth : nat;
  open_nodes : nat;
  s_errors : list (TextRange * ParseError);
}.

Definition Sink_new (tokens : list Token) : Sink :=
  MkSink builder_new tokens 0 None None [] 0 0 [].

Definition set_builder (b : SyntaxTreeBuilder) (s : Sink) : Sink :=
  MkSink b (s_tokens s) (token_pos s) (last_significant_pos s) (pending_trivia_start s)
    (deferred_nodes s) (deferred_depth s) (open_nodes s) (s_errors s).

Definition set_token_pos (n : nat) (pending : option nat) (s : Sink) : Sink :=
  MkSink (builder s) (s_tokens s) n (last_significant_pos s) pending
    (deferred_nodes s) (deferred_depth s) (open_nodes s) (s_errors s).

Definition set_last_significant (n : nat) (s : Sink) : Sink :=
  MkSink (builder s) (s_tokens s) (token_pos s) (Some n) (pending_trivia_start s)
    (deferred_nodes s) (deferred_depth s) (open_nodes s) (s_errors s).

Definition set_deferred (nodes : list DeferredNode) (depth : nat) (s : Sink) : Sink :=
  MkSink (builder s) (s_tokens s) (token_pos s) (last_significant_pos s) (pending_trivia_start s)
    nodes depth (open_nodes s) (s_errors s).

Definition set_open_nodes (n : nat) (s : Sink) : Sink :=
  MkSink (builder s) (s_tokens s) (token_pos s) (last_significant_pos s) (pending_trivia_start s)
    (deferred_nodes s) (deferred_depth s) n (s_errors s).

Definition push_error (range : TextRange) (err : ParseError) (s : Sink) : Sink :=
  MkSink (builder s) (s_tokens s) (token_pos s) (last_significant_pos s) (pending_trivia_start s)
    (deferred_nodes s) (deferred_depth s) (open_nodes s) (s_errors s ++ [(range, err)]).

(** [open_nodes -= 1]. *)
Definition pred_open (s : Sink) : option Sink :=
  match open_nodes s with O => None | S n => Some (set_open_nodes n s) end.

Definition start_node (kind : SK.SyntaxKind) (s : Sink) : Sink :=
  set_open_nodes (S (open_nodes s)) (set_builder (builder_start_node kind (builder s)) s).

Definition finish_node (s : Sink) : option Sink :=
  pred_open (set_builder (builder_finish_node (builder s)) s).

(** *** Trivia *)

Definition add_raw_token (t : Token) (b : SyntaxTreeBuilder) : SyntaxTreeBuilder :=
  builder_token (token_kind_to_syntax (tok_kind t)) (tok_text t) b.

(** The slice [tokens[start..token_pos]], out of bounds when it is not one. *)
Definition flush_trivia (s : Sink) : option Sink :=
  match pending_trivia_start s with
  | None => Some s
  | Some start =>
      if (start <=? token_pos s)%nat && (token_pos s <=? length (s_tokens s))%nat then
        let gap := take (token_pos s - start) (drop start (s_tokens s)) in
        Some (set_builder (foldl (fun b t => add_raw_token t b) (builder s) gap)
                (set_token_pos (token_pos s) None s))
      else None
  end.

(** [pending_trivia_start.get_or_insert(token_pos); token_pos += 1]. *)
Definition pass_token (s : Sink) : Sink :=
  set_token_pos (S (token_pos s))
    (Some (default (token_pos s) (pending_trivia_start s))) s.

Definition raw_is_trivia (t : Token) : bool := SK.is_trivia (token_kind_to_syntax (tok_kind t)).

(** The loop over the gap in front of a word; [rest] is what the raw stream holds from the cursor. *)
Fixpoint skip_gap (rest : list Token) (s : Sink) : Sink :=
  match rest with
  | t :: rest => if raw_is_trivia t then skip_gap rest (pass_token s) else s
  | [] => s
  end.

Definition take_the_tail (s : Sink) : Sink :=
  Nat.iter (length (s_tokens s) - token_pos s) pass_token s.

(** *** Nodes that wait for their first word *)

Fixpoint perform_nodes (nodes : list DeferredNode) (s : Sink) : option Sink :=
  match nodes with
  | [] => Some s
  | DStart kind :: nodes => perform_nodes nodes (start_node kind s)
  | DFinish :: nodes => s ← finish_node s; perform_nodes nodes s
  end.

Definition perform_deferred_nodes (s : Sink) : option Sink :=
  perform_nodes (deferred_nodes s) (set_deferred [] 0 s).

(** *** Error ranges *)

Definition USIZE_MAX : Z := (2 ^ 64 - 1)%Z.
Definition U32_MAX : Z := (2 ^ 32 - 1)%Z.

Definition saturating_add (a b : Z) : Z := Z.min USIZE_MAX (a + b).

(** [u32::try_from(offset).unwrap_or(u32::MAX)]. *)
Definition to_u32 (offset : Z) : Z := if (offset <=? U32_MAX)%Z then offset else U32_MAX.

Definition token_end (t : Token) : Z := saturating_add (tok_offset t) (str_len (tok_text t)).

Definition source_len (s : Sink) : Z :=
  match last (s_tokens s) with Some t => to_u32 (token_end t) | None => 0 end.

Definition clamp_offset (s : Sink) (offset : Z) : Z := Z.min (to_u32 offset) (source_len s).

Definition safe_range (start end_ : Z) : option TextRange := TextRange_new start (Z.max end_ start).

Definition offset_of_next_significant (s : Sink) (from : nat) : Z :=
  match list_find (fun t => raw_is_trivia t = false) (drop (from `min` length (s_tokens s)) (s_tokens s)) with
  | Some (_, t) => clamp_offset s (tok_offset t)
  | None => source_len s
  end.

Definition previous_token_range_or_zero_at_start (s : Sink) : option TextRange :=
  match last_significant_pos s with
  | None => Some (TextRange_empty 0)
  | Some pos =>
      match s_tokens s !! pos with
      | None => Some (TextRange_empty (source_len s))
      | Some t => safe_range (clamp_offset s (tok_offset t)) (clamp_offset s (token_end t))
      end
  end.

Definition compute_error_range (s : Sink) (err : ParseError) (span_start_token : option nat)
    : option TextRange :=
  match recovery err with
  | BumpToken => previous_token_range_or_zero_at_start s
  | MissingToken => Some (TextRange_empty (offset_of_next_significant s (token_pos s)))
  | RecoverySpan =>
      let start := match span_start_token with
                   | Some idx => offset_of_next_significant s idx
                   | None => source_len s
                   end in
      safe_range start (offset_of_next_significant s (token_pos s))
  | RecoveryCustom =>
      match last_significant_pos s with
      | Some _ => previous_token_range_or_zero_at_start s
      | None => Some (TextRange_empty (offset_of_next_significant s (token_pos s)))
      end
  end.

(** *** Events *)

(** Without a token left the event puts nothing. *)
Definition sink_token (kind : TokenKind) (s : Sink) : option Sink :=
  let s := skip_gap (drop (token_pos s) (s_tokens s)) s in
  match s_tokens s !! token_pos s with
  | None => Some s
  | Some token =>
      s ← flush_trivia s;
      s ← perform_deferred_nodes s;
      let s := set_builder (builder_token (token_kind_to_syntax kind) (tok_text token) (builder s)) s in
      let s := set_last_significant (token_pos s) s in
      Some (set_token_pos (S (token_pos s)) (pending_trivia_start s) s)
  end.

Definition sink_finish (s : Sink) : option Sink :=
  if (0 <? deferred_depth s)%nat then
    Some (set_deferred (deferred_nodes s ++ [DFinish]) (deferred_depth s - 1) s)
  else
    s ← perform_deferred_nodes s;
    s ← (if (open_nodes s =? 1)%nat then flush_trivia (take_the_tail s) else Some s);
    finish_node s.

Definition defer_node (kind : SK.SyntaxKind) (s : Sink) : Sink :=
  set_deferred (deferred_nodes s ++ [DStart kind]) (S (deferred_depth s)) s.

(** The kinds of the nodes that start together, the outermost first. *)
Definition sink_starts (kinds : list NK.NodeKind) (s : Sink) : Sink :=
  let defer := (0 <? open_nodes s)%nat || negb (bool_decide (deferred_nodes s = [])) in
  foldl (fun s kind =>
    let kind := node_kind_to_syntax kind in
    if (defer : bool) then defer_node kind s else start_node kind s) s kinds.

Section finish.
  Context (events : list Event).

(** From a start that points forward, every start on the way to the outermost parent is marked:
    its node is opened with the first one. *)
Fixpoint mark_from (fuel idx : nat) (skip : list bool) : option (list bool) :=
  match fuel with
  | O => None
  | S fuel =>
      match events !! idx with
      | None => None
      | Some (Start _ forward_parent) =>
          let skip := <[idx := true]> skip in
          match forward_parent with
          | Some next => mark_from fuel (idx + next) skip
          | None => Some skip
          end
      | Some _ => Some skip
      end
  end.

Fixpoint mark_loop (i : nat) (rest : list Event) (skip : list bool) : option (list bool) :=
  match rest with
  | [] => Some skip
  | Start _ (Some fwd) :: rest =>
      skip ← mark_from (S (length events)) (i + fwd) skip;
      mark_loop (S i) rest skip
  | _ :: rest => mark_loop (S i) rest skip
  end.

Definition skip_marks : option (list bool) :=
  mark_loop 0 events (replicate (length events) false).

(** The kinds of the parents of the start at [idx], innermost first. *)
Fixpoint parent_kinds (fuel idx : nat) (fp : option nat) : option (list NK.NodeKind) :=
  match fuel with
  | O => None
  | S fuel =>
      match fp with
      | None => Some []
      | Some fwd =>
          match events !! (idx + fwd)%nat with
          | Some (Start kind forward_parent) =>
              ks ← parent_kinds fuel (idx + fwd) forward_parent; Some (kind :: ks)
          | _ => None
          end
      end
  end.

Definition sink_event (skip : list bool) (i : nat) (e : Event) (s : Sink) : option Sink :=
  match e with
  | Start kind forward_parent =>
      marked ← skip !! i;
      if (marked : bool) then Some s
      else
        parents ← parent_kinds (S (length events)) i forward_parent;
        Some (sink_starts (reverse (kind :: parents)) s)
  | Finish => sink_finish s
  | EToken kind => sink_token kind s
  | Placeholder => Some s
  | EError err =>
      range ← compute_error_range s err None;
      Some (push_error range err s)
  | ErrorWithSpan start_token err =>
      range ← compute_error_range s err (Some start_token);
      Some (push_error range err s)
  end.

Fixpoint event_loop (skip : list bool) (i : nat) (rest : list Event) (s : Sink) : option Sink :=
  match rest with
  | [] => Some s
  | e :: rest => s ← sink_event skip i e s; event_loop skip (S i) rest s
  end.
End finish.

(** [Sink::finish]: the builder with the errors in it. *)
Definition finish (s : Sink) (events : list Event) : option SyntaxTreeBuilder :=
  skip ← skip_marks events;
  s ← event_loop events skip 0 events s;
  Some (foldl (fun b '(range, err) => builder_error range err b) (builder s) (s_errors s)).
