(* ===== verification/Denotation.v ===== *)
(** Denotation: what a well-formed event stream means, and that the loops of [Sink::finish]
    (crates/parser/src/sink.rs) compute it.

    A chain of starts linked by [forward_parent] is one group: all its nodes open together, the
    outermost first, and the starts met later are skipped.  [Denotes] states that meaning
    declaratively, as a flat sequence of operations on the sink; the file proves the marks of the
    first loop and the parent lists of the second to be those of the declaration. *)
From stdpp Require Import prelude.
From S2P Require Import Prelude Kinds Tokens Input TornIf ParserCore Events Sink.

(** ** The meaning of a stream *)

Inductive Op : Set :=
| OStarts (kinds : list NK.NodeKind)
| OFinish
| OToken (kind : TokenKind)
| OError (err : ParseError)
| OSpan (start_token : nat) (err : ParseError).

Definition run_op (o : Op) (s : Sink) : option Sink :=
  match o with
  | OStarts kinds => Some (sink_starts kinds s)
  | OFinish => sink_finish s
  | OToken kind => sink_token kind s
  | OError err =>
      range ← compute_error_range s err None;
      Some (push_error range err s)
  | OSpan start_token err =>
      range ← compute_error_range s err (Some start_token);
      Some (push_error range err s)
  end.

Fixpoint run_ops (ops : list Op) (s : Sink) : option Sink :=
  match ops with
  | [] => Some s
  | o :: ops => s ← run_op o s; run_ops ops s
  end.

(** [Denotes es marks ops]: the forest [es] means [ops], and [marks] are the starts opened with an
    earlier one.  [DenotesChain c marks kinds rest]: the chain [c] opens [kinds] at its first event
    and does [rest] afterwards; [marks] leaves the first event out. *)
Inductive Denotes : list Event -> list bool -> list Op -> Prop :=
| Denotes_nil : Denotes [] [] []
| Denotes_token kind es ms ops :
    Denotes es ms ops -> Denotes (EToken kind :: es) (false :: ms) (OToken kind :: ops)
| Denotes_placeholder es ms ops :
    Denotes es ms ops -> Denotes (Placeholder :: es) (false :: ms) ops
| Denotes_error err es ms ops :
    Denotes es ms ops -> Denotes (EError err :: es) (false :: ms) (OError err :: ops)
| Denotes_span start err es ms ops :
    Denotes es ms ops -> Denotes (ErrorWithSpan start err :: es) (false :: ms) (OSpan start err :: ops)
| Denotes_chain c mc kinds rest es ms ops :
    DenotesChain c mc kinds rest -> Denotes es ms ops ->
    Denotes (c ++ es) (false :: mc ++ ms) (OStarts kinds :: rest ++ ops)
with DenotesChain : list Event -> list bool -> list NK.NodeKind -> list Op -> Prop :=
| DenotesChain_node kind body mb ops :
    Denotes body mb ops ->
    DenotesChain (Start kind None :: body ++ [Finish]) (mb ++ [false]) [kind] (ops ++ [OFinish])
| DenotesChain_forward kind body mb ops between mt ops' parent mp kinds rest :
    Denotes body mb ops -> Denotes between mt ops' -> DenotesChain parent mp kinds rest ->
    DenotesChain
      (Start kind (Some (length body + length between + 2)%nat) ::
         body ++ Finish :: between ++ parent)
      (mb ++ false :: mt ++ true :: mp) (kinds ++ [kind]) (ops ++ OFinish :: ops' ++ rest).

Scheme Denotes_mut := Minimality for Denotes Sort Prop
  with DenotesChain_mut := Minimality for DenotesChain Sort Prop.
Combined Scheme Denotes_ind_both from Denotes_mut, DenotesChain_mut.

(** Every well-formed stream has a meaning. *)
Lemma Forest_denotes :
  (forall es, Forest es -> exists ms ops, Denotes es ms ops) /\
  (forall c, Chain c -> exists mc kinds rest, DenotesChain c mc kinds rest).
Proof.
  apply Forest_Chain_ind; intros;
    repeat match goal with H : exists _, _ |- _ => destruct H end;
    eauto using Denotes, DenotesChain.
Qed.

(** ** The operations denoted keep the order of the events *)

Definition op_token (o : Op) : option TokenKind := match o with OToken k => Some k | _ => None end.

Definition op_error (o : Op) : option ParseError :=
  match o with OError err | OSpan _ err => Some err | _ => None end.

Definition event_error (e : Event) : option ParseError :=
  match e with EError err | ErrorWithSpan _ err => Some err | _ => None end.

Lemma denotes_tokens :
  (forall es ms ops, Denotes es ms ops -> omap op_token ops = token_kinds es) /\
  (forall c mc kinds rest, DenotesChain c mc kinds rest -> omap op_token rest = token_kinds c).
Proof.
  apply Denotes_ind_both; unfold token_kinds; intros; csimpl;
    repeat (rewrite ?omap_app; csimpl); rewrite ?app_nil_r; congruence.
Qed.

Lemma denotes_errors :
  (forall es ms ops, Denotes es ms ops -> omap op_error ops = omap event_error es) /\
  (forall c mc kinds rest, DenotesChain c mc kinds rest -> omap op_error rest = omap event_error c).
Proof.
  apply Denotes_ind_both; intros; csimpl;
    repeat (rewrite ?omap_app; csimpl); rewrite ?app_nil_r; congruence.
Qed.

(** ** The marks are the targets of the forward pointers *)

(** The positions that a list of events points forward to. *)
Fixpoint targets (es : list Event) : list nat :=
  match es with
  | [] => []
  | e :: es =>
      match e with Start _ (Some off) => [off] | _ => [] end ++ (S <$> targets es)
  end.

Fixpoint true_positions (ms : list bool) : list nat :=
  match ms with
  | [] => []
  | m :: ms => (if (m : bool) then [0%nat] else []) ++ (S <$> true_positions ms)
  end.

Lemma targets_app es1 es2 : targets (es1 ++ es2) = targets es1 ++ (Nat.add (length es1) <$> targets es2).
Proof.
  induction es1 as [|e es1 IH]; csimpl; [by rewrite list_fmap_id|].
  by rewrite IH, fmap_app, <- list_fmap_compose, app_assoc.
Qed.

Lemma true_positions_app ms1 ms2 :
  true_positions (ms1 ++ ms2) = true_positions ms1 ++ (Nat.add (length ms1) <$> true_positions ms2).
Proof.
  induction ms1 as [|m ms1 IH]; csimpl; [by rewrite list_fmap_id|].
  by rewrite IH, fmap_app, <- list_fmap_compose, app_assoc.
Qed.

Lemma elem_of_true_positions ms j : j ∈ true_positions ms <-> ms !! j = Some true.
Proof.
  revert j. induction ms as [|m ms IH]; intros j; simpl; [split; [by intros ?%elem_of_nil|done]|].
  rewrite elem_of_app, list_elem_of_fmap. destruct j as [|j]; simpl.
  - split; [|intros [= ->]; left; by left]. intros [H|(? & [=] & _)]. destruct m; [done|].
    by apply elem_of_nil in H.
  - rewrite <- IH. split; [|eauto]. intros [H|(? & [= ->] & H)]; [|done].
    destruct m; [by apply list_elem_of_singleton in H|by apply elem_of_nil in H].
Qed.

Lemma denotes_length :
  (forall es ms ops, Denotes es ms ops -> length ms = length es) /\
  (forall c mc kinds rest, DenotesChain c mc kinds rest -> S (length mc) = length c).
Proof.
  apply Denotes_ind_both; intros; csimpl;
    repeat (rewrite ?length_app; csimpl); lia.
Qed.

Lemma denotes_targets :
  (forall es ms ops, Denotes es ms ops -> targets es ≡ₚ true_positions ms) /\
  (forall c mc kinds rest, DenotesChain c mc kinds rest -> targets c ≡ₚ true_positions (false :: mc)).
Proof.
  destruct denotes_length as [Hl Hlc].
  apply Denotes_ind_both; intros; csimpl;
    repeat match goal with
    | H : Denotes _ _ _ |- _ => apply Hl in H
    | H : DenotesChain _ _ _ _ |- _ => apply Hlc in H
    | H : targets _ ≡ₚ true_positions _ |- _ => csimpl in *; rewrite ?targets_app in *
    end.
  all: repeat (rewrite ?targets_app, ?true_positions_app, ?fmap_app; csimpl).
  all: repeat match goal with H : targets _ ≡ₚ _ |- _ => rewrite H; clear H end.
  all: try done.
  - rewrite <- H, <- list_fmap_compose. done.
  - rewrite H, H1, Nat.add_0_r.
    replace (length body + length between + 2)%nat
      with (S (length body + S (length between)))%nat by lia.
    rewrite !(app_assoc (S <$> true_positions mb)). apply Permutation_middle.
Qed.

Definition is_start (e : Event) : Prop := match e with Start _ _ => True | _ => False end.

Definition points_forward (e : Event) : Prop :=
  match e with Start _ (Some off) => (0 < off)%nat | _ => True end.

(** Marks stand at starts only. *)
Lemma denotes_marks_starts :
  (forall es ms ops, Denotes es ms ops -> Forall2 (fun e (m : bool) => m -> is_start e) es ms) /\
  (forall c mc kinds rest, DenotesChain c mc kinds rest ->
     forall m : bool, Forall2 (fun e (m : bool) => m -> is_start e) c (m :: mc)).
Proof.
  apply Denotes_ind_both; intros; repeat (constructor || apply Forall2_app); try done.
  - by apply (Forall2_app (l1 := c) (l2 := es) (l1' := false :: mc)).
Qed.

Lemma denotes_forward :
  (forall es ms ops, Denotes es ms ops -> Forall points_forward es) /\
  (forall c mc kinds rest, DenotesChain c mc kinds rest -> Forall points_forward c).
Proof.
  apply Denotes_ind_both; intros; repeat (constructor || apply Forall_app_2); try done.
  simpl. lia.
Qed.

Lemma elem_of_targets es j :
  j ∈ targets es <-> exists i kind off, es !! i = Some (Start kind (Some off)) /\ j = (i + off)%nat.
Proof.
  revert j. induction es as [|e es IH]; intros j; simpl.
  { split; [by intros ?%elem_of_nil|by intros (? & ? & ? & ? & ?)]. }
  rewrite elem_of_app, list_elem_of_fmap. split.
  - intros [H|(j' & -> & H)].
    + destruct e as [kind [off|]| | | | |]; try by apply elem_of_nil in H.
      apply list_elem_of_singleton in H as ->. by exists 0%nat, kind, off.
    + apply IH in H as (i & kind & off & H & ->). by exists (S i), kind, off.
  - intros ([|i] & kind & off & H & ->); simpl in *.
    + injection H as ->. left. by apply list_elem_of_singleton.
    + right. exists (i + off)%nat. split; [done|]. apply IH. eauto.
Qed.

Section marks.
Context (events : list Event).
Hypothesis Hstart : forall j, j ∈ targets events -> exists kind fp, events !! j = Some (Start kind fp).
Hypothesis Hforward : Forall points_forward events.

(** Marking from a target marks it and no position but targets. *)
Lemma mark_from_spec fuel idx skip :
  idx ∈ targets events -> length skip = length events -> (length events < fuel + idx)%nat ->
  exists skip', mark_from events fuel idx skip = Some skip' /\ length skip' = length events /\
    skip' !! idx = Some true /\
    forall j, (skip !! j = Some true -> skip' !! j = Some true) /\
         (skip' !! j = Some true -> skip !! j = Some true \/ j ∈ targets events).
Proof using Hstart Hforward.
  revert idx skip. induction fuel as [|fuel IH]; intros idx skip Hi Hl Hf.
  { apply Hstart in Hi as (? & ? & Hi%lookup_lt_Some). lia. }
  destruct (Hstart idx Hi) as (kind & fp & He). simpl. rewrite He.
  pose proof (lookup_lt_Some _ _ _ He) as Hlt.
  assert (forall j, (skip !! j = Some true -> <[idx:=true]> skip !! j = Some true) /\
    (<[idx:=true]> skip !! j = Some true -> skip !! j = Some true \/ j ∈ targets events)) as Hins.
  { intros j. rewrite list_lookup_insert. case_decide as Hd; [|tauto].
    destruct Hd as [<- _]. tauto. }
  destruct fp as [off|].
  - pose proof (Forall_lookup_1 _ _ _ _ Hforward He) as Hoff. simpl in Hoff.
    destruct (IH (idx + off)%nat (<[idx:=true]> skip)) as (s & Es & Ls & _ & Hs).
    + apply elem_of_targets. eauto.
    + by rewrite length_insert.
    + lia.
    + exists s. split; [done|]. split; [done|]. split.
      * apply Hs. rewrite list_lookup_insert, decide_True; [done|lia].
      * intros j. destruct (Hins j), (Hs j). split; [auto|]. intros [?|?]%H2; auto.
  - exists (<[idx:=true]> skip). split; [done|]. split; [by rewrite length_insert|].
    split; [|done]. rewrite list_lookup_insert, decide_True; [done|lia].
Qed.

Lemma mark_loop_spec rest : forall i skip,
  drop i events = rest -> length skip = length events ->
  exists skip', mark_loop events i rest skip = Some skip' /\ length skip' = length events /\
    forall j, (skip !! j = Some true \/ j ∈ (Nat.add i <$> targets rest) -> skip' !! j = Some true) /\
         (skip' !! j = Some true -> skip !! j = Some true \/ j ∈ targets events).
Proof using Hstart Hforward.
  induction rest as [|e rest IH]; intros i skip Hd Hl.
  { exists skip. split; [done|]. split; [done|]. intros j. simpl.
    split; [|tauto]. by intros [?|?%elem_of_nil]. }
  assert (drop (S i) events = rest) as Hd'.
  { by rewrite <- Nat.add_1_r, <- drop_drop, Hd. }
  assert (Hnext : forall k, k ∈ (Nat.add i <$> targets (e :: rest)) ->
    (exists kind off, e = Start kind (Some off) /\ k = (i + off)%nat) \/
    k ∈ (Nat.add (S i) <$> targets rest)).
  { intros k. simpl. rewrite fmap_app, elem_of_app. intros [H|H].
    - left. destruct e as [kind [off|]| | | | |]; try by apply elem_of_nil in H.
      apply list_elem_of_singleton in H as ->. eauto.
    - right. rewrite <- list_fmap_compose in H. eapply list_elem_of_fmap in H as (j & -> & H).
      apply list_elem_of_fmap. exists j. split; [simpl; lia|done]. }
  assert ((exists kind off, e = Start kind (Some off)) \/
          (forall kind off, e <> Start kind (Some off)) /\
          mark_loop events i (e :: rest) skip = mark_loop events (S i) rest skip)
    as [(kind & off & ->)|[Hno Hskip]].
  { destruct e as [kind [off|]| | | | |]; eauto. }
  - assert (i + off ∈ targets events)%nat as Ht.
    { apply elem_of_targets. exists i, kind, off. split; [|done].
      rewrite <- (Nat.add_0_r i), <- lookup_drop, Hd. done. }
    destruct (mark_from_spec (S (length events)) (i + off) skip Ht Hl) as (s & Es & Ls & Hs & Hm); [lia|].
    destruct (IH (S i) s Hd' Ls) as (s' & Es' & Ls' & Hm').
    exists s'. cbn [mark_loop]. rewrite Es. split; [done|]. split; [done|].
    intros j. destruct (Hm j), (Hm' j) as [? Hback]. split; [|intros [?|?]%Hback; auto].
    intros [?|Hj%Hnext]; [by auto|].
    destruct Hj as [(? & ? & [= <- <-] & ->)|Hj]; auto.
  - destruct (IH (S i) skip Hd' Hl) as (s' & Es' & Ls' & Hm').
    exists s'. rewrite Hskip. split; [done|]. split; [done|].
    intros j. destruct (Hm' j). split; [|done].
    intros [?|Hj%Hnext]; [by auto|].
    destruct Hj as [(? & ? & E & _)|Hj]; [by apply Hno in E|auto].
Qed.
End marks.

(** The first loop of [finish] marks the starts that the declaration marks. *)
Lemma skip_marks_spec es ms ops : Denotes es ms ops -> skip_marks es = Some ms.
Proof.
  intros Hd.
  destruct denotes_length as [Hlen _], denotes_targets as [Htgt _],
    denotes_marks_starts as [Hst _], denotes_forward as [Hfw _].
  specialize (Hlen _ _ _ Hd). specialize (Htgt _ _ _ Hd). specialize (Hst _ _ _ Hd).
  specialize (Hfw _ _ _ Hd).
  assert (Hms : forall j, j ∈ targets es <-> ms !! j = Some true).
  { intros j. rewrite <- elem_of_true_positions. by rewrite Htgt. }
  destruct (mark_loop_spec es) with (rest := es) (i := 0%nat)
    (skip := replicate (length es) false) as (skip & Es & Ls & Hs).
  - intros j Hj%Hms. destruct (Forall2_lookup_r _ _ _ _ _ Hst Hj) as (e & He & Hstart).
    destruct e; try by destruct (Hstart I). eauto.
  - done.
  - apply drop_0.
  - apply length_replicate.
  - unfold skip_marks. rewrite Es. f_equal. apply list_eq. intros j.
    assert (Hiff : skip !! j = Some true <-> ms !! j = Some true).
    { rewrite <- Hms. destruct (Hs j) as [H1 H2]. split.
      - intros [H|H]%H2; [|done]. apply lookup_replicate in H as [H _]. done.
      - intros H. apply H1. right. rewrite list_fmap_id. done. }
    destruct (skip !! j) as [[]|] eqn:E1, (ms !! j) as [[]|] eqn:E2; try done;
      destruct Hiff as [Hab Hba]; try discriminate (Hab eq_refl); try discriminate (Hba eq_refl).
    + apply lookup_lt_Some in E1. apply lookup_ge_None in E2. lia.
    + apply lookup_lt_Some in E2. apply lookup_ge_None in E1. lia.
Qed.

(** ** The second loop performs the operations *)

Lemma run_ops_app ops1 ops2 s :
  run_ops (ops1 ++ ops2) s = s' ← run_ops ops1 s; run_ops ops2 s'.
Proof.
  revert s. induction ops1 as [|o ops1 IH]; intros s; simpl; [done|].
  destruct (run_op o s) as [s'|]; simpl; [apply IH|done].
Qed.

Lemma drop_next {A} i (l : list A) x rest : drop i l = x :: rest -> drop (S i) l = rest.
Proof. intros H. by rewrite <- Nat.add_1_r, <- drop_drop, H. Qed.

Lemma drop_more {A} i (l l1 l2 : list A) : drop i l = l1 ++ l2 -> drop (i + length l1) l = l2.
Proof. intros H. by rewrite <- drop_drop, H, drop_app_length. Qed.

Lemma drop_lookup {A} i (l : list A) x rest : drop i l = x :: rest -> l !! i = Some x.
Proof. intros H. by rewrite <- (Nat.add_0_r i), <- lookup_drop, H. Qed.

Section loop.
Context (events : list Event) (skip : list bool).

(** The walk over the parents finds the group of the chain. *)
Lemma chain_parents c mc kinds rest :
  DenotesChain c mc kinds rest -> forall i post fuel,
  drop i events = c ++ post -> (length c <= fuel)%nat ->
  exists kind fp tl parents, c = Start kind fp :: tl /\
    parent_kinds events fuel i fp = Some parents /\ reverse (kind :: parents) = kinds.
Proof.
  induction 1 as [kind body mb ops _|kind body mb ops between mt ops' parent mp kinds rest _ _ _ IH];
    intros i post fuel Hd Hf.
  - exists kind, None, (body ++ [Finish]), []. split; [done|]. destruct fuel; [simpl in *; lia|done].
  - eexists kind, _, _. set (off := (length body + length between + 2)%nat) in *.
    assert (drop (i + off) events = parent ++ post) as Hp.
    { replace (i + off)%nat
        with (i + length (Start kind (Some off) :: body ++ Finish :: between))%nat.
      - apply drop_more. rewrite Hd. simpl. rewrite <- !app_assoc. simpl. by rewrite <- !app_assoc.
      - unfold off. simpl. rewrite length_app. simpl. lia. }
    destruct fuel as [|fuel]; [simpl in *; lia|].
    destruct (IH (i + off)%nat post fuel Hp) as (k' & fp' & tl' & ps & -> & Hps & <-).
    { simpl in Hf. rewrite length_app in Hf. simpl in Hf. rewrite length_app in Hf. lia. }
    exists (k' :: ps). split; [done|].
    cbn [parent_kinds]. fold off. rewrite (drop_lookup _ _ _ _ Hp), Hps.
    by rewrite !reverse_cons.
Qed.

Lemma event_loop_marked i kind fp es s rest :
  drop i skip = true :: rest ->
  event_loop events skip i (Start kind fp :: es) s = event_loop events skip (S i) es s.
Proof. intros H. simpl. by rewrite (drop_lookup _ _ _ _ H). Qed.

Lemma event_loop_spec :
  (forall es ms ops, Denotes es ms ops -> forall i post mpost s,
     drop i events = es ++ post -> drop i skip = ms ++ mpost ->
     event_loop events skip i (es ++ post) s =
       s' ← run_ops ops s; event_loop events skip (i + length es) post s') /\
  (forall c mc kinds rest, DenotesChain c mc kinds rest -> forall i post m mpost s e tl,
     c = e :: tl -> drop i events = c ++ post -> drop i skip = (m :: mc) ++ mpost ->
     event_loop events skip (S i) (tl ++ post) s =
       s' ← run_ops rest s; event_loop events skip (i + length c) post s').
Proof.
  destruct denotes_length as [Hl Hlc].
  apply Denotes_ind_both.
  - intros i post mpost s _ _. simpl. by rewrite Nat.add_0_r.
  - intros kind es ms ops _ IH i post mpost s Hd Hs. simpl.
    destruct (sink_token kind s) as [s'|]; simpl; [|done].
    rewrite (IH _ post mpost) by by eapply drop_next.
    by rewrite Nat.add_succ_r.
  - intros es ms ops _ IH i post mpost s Hd Hs. simpl.
    rewrite (IH _ post mpost) by by eapply drop_next.
    by rewrite Nat.add_succ_r.
  - intros err es ms ops _ IH i post mpost s Hd Hs. simpl.
    destruct (compute_error_range _ _ _) as [r|]; simpl; [|done].
    rewrite (IH _ post mpost) by by eapply drop_next.
    by rewrite Nat.add_succ_r.
  - intros st err es ms ops _ IH i post mpost s Hd Hs. simpl.
    destruct (compute_error_range _ _ _) as [r|]; simpl; [|done].
    rewrite (IH _ post mpost) by by eapply drop_next.
    by rewrite Nat.add_succ_r.
  - intros c mc kinds rest es ms ops Hc IHc _ IH i post mpost s Hd Hs.
    rewrite <- app_assoc in Hd. simpl in Hs. rewrite <- app_assoc in Hs.
    destruct (chain_parents _ _ _ _ Hc i (es ++ post) (S (length events)) Hd)
      as (kind & fp & tl & parents & Ec & Hps & Hks).
    { apply (f_equal length) in Hd. rewrite length_drop, length_app in Hd. lia. }
    pose proof (IHc i (es ++ post) false (ms ++ mpost) (sink_starts kinds s) _ _ Ec Hd Hs) as Hc'.
    rewrite length_app, <- app_assoc. rewrite Ec at 1. cbn [app event_loop sink_event run_ops run_op].
    rewrite (drop_lookup _ _ _ _ Hs), Hps. cbn [mbind option_bind].
    rewrite Hks, Hc', run_ops_app, Nat.add_assoc.
    destruct (run_ops rest (sink_starts kinds s)) as [s'|]; simpl; [|done].
    apply (IH _ _ mpost).
    + by apply drop_more in Hd.
    + rewrite <- (Hlc _ _ _ _ Hc). change (S (length mc)) with (length (false :: mc)).
      by apply drop_more.
  - intros kind body mb ops Hb IH i post m mpost s e tl [= <- <-] Hd Hs.
    rewrite <- app_assoc. simpl in Hd, Hs. rewrite <- app_assoc in Hd, Hs.
    rewrite (IH _ _ ([false] ++ mpost)) by by eapply drop_next.
    rewrite run_ops_app. destruct (run_ops ops s) as [s'|]; simpl; [|done].
    rewrite length_app. simpl. 
    destruct (sink_finish s') as [s''|]; simpl; [|done]. do 2 f_equal. lia.
  - intros kind body mb ops between mt ops' parent mp kinds rest Hb IHb Ht IHt Hp IHp
      i post m mpost s e tl [= <- <-] Hd Hs.
    pose proof (Hl _ _ _ Hb) as Lb. pose proof (Hl _ _ _ Ht) as Lt.
    simpl in Hd, Hs. apply drop_next in Hd, Hs.
    rewrite <- !app_assoc in Hd, Hs. simpl in Hd, Hs. rewrite <- !app_assoc in Hd, Hs. simpl in Hs.
    rewrite <- app_assoc, run_ops_app. simpl. rewrite <- app_assoc.
    rewrite (IHb _ _ _ _ Hd Hs).
    destruct (run_ops ops s) as [s1|]; simpl; [|done].
    destruct (sink_finish s1) as [s2|]; simpl; [|done].
    apply drop_more, drop_next in Hd, Hs. rewrite Lb in Hs.
    rewrite (IHt _ _ _ _ Hd Hs), run_ops_app.
    destruct (run_ops ops' s2) as [s3|]; simpl; [|done].
    apply drop_more in Hd, Hs. rewrite Lt in Hs.
    destruct parent as [|e tl]; [by inversion Hp|].
    assert (exists k fp, e = Start k fp) as (k & fp & ->) by (inversion Hp; eauto).
    simpl app at 1. erewrite event_loop_marked by exact Hs.
    rewrite (IHp _ _ _ _ _ _ _ eq_refl Hd Hs).
    destruct (run_ops rest s3) as [s4|]; simpl; [|done].
    f_equal. rewrite !length_app. simpl. rewrite length_app. simpl. lia.
Qed.
End loop.

(** [Sink::finish] performs the operations a stream denotes and hands the errors to the builder. *)
Definition with_errors (s : Sink) : SyntaxTreeBuilder :=
  foldl (fun b '(range, err) => builder_error range err b) (builder s) (s_errors s).

Lemma finish_denotes es ms ops s :
  Denotes es ms ops -> finish s es = s' ← run_ops ops s; Some (with_errors s').
Proof.
  intros Hd. unfold finish. rewrite (skip_marks_spec _ _ _ Hd). cbn [mbind option_bind].
  pose proof (proj1 (event_loop_spec es ms) es ms ops Hd 0%nat [] [] s) as H.
  rewrite !app_nil_r in H. rewrite H by done.
  by destruct (run_ops ops s).
Qed.
