(* ===== verification/SinkSpec.v ===== *)
(** SinkSpec: what the sink builds (crates/parser/src/sink.rs, crates/syntax/src/syntax_node.rs).

    The sink delays nodes until their first word and trivia until the next word, so that trivia
    hang at the common ancestor of their neighbours.  The file states the invariant of the delayed
    work and proves, for every well-formed stream, that nothing panics, that the tree is the one the
    events denote, that every token is in it once and in order, and where trivia may stand. *)
From stdpp Require Import prelude.
From S2P Require Import Prelude Kinds Tokens Input TornIf ParserCore Events Sink Denotation.

(** ** Logs of builder calls *)

(** The depth after a log, when no node is closed that it has not opened (above depth 0). *)
Fixpoint closes (depth : nat) (log : list Call) : option nat :=
  match log with
  | [] => Some depth
  | StartNode _ :: log => closes (S depth) log
  | AddToken _ _ :: log => closes depth log
  | FinishNode :: log => match depth with O => None | S depth => closes depth log end
  end.

(** The tokens of a log, in order. *)
Definition log_tokens (log : list Call) : list (SK.SyntaxKind * text) :=
  omap (fun c => match c with AddToken k t => Some (k, t) | _ => None end) log.

Definition call_cost (c : Call) : Z :=
  match c with
  | StartNode _ => HEAP_PER_ELEMENT
  | AddToken _ t => HEAP_PER_ELEMENT + str_len t
  | FinishNode => 0
  end.

Definition heap_cost (log : list Call) : Z := foldr (fun c n => call_cost c + n)%Z 0%Z log.

(** The tree of a log without its trivia and texts. *)
Definition skeleton (log : list Call) : list Call :=
  omap (fun c => match c with
                 | AddToken k _ => if SK.is_trivia k then None else Some (AddToken k [])
                 | c => Some c
                 end) log.

(** Where trivia do not stand: right after the start of a node or right before its end. *)
Definition edge_ok (a b : Call) : Prop :=
  match a, b with
  | StartNode _, AddToken k _ => SK.is_trivia k = false
  | AddToken k _, FinishNode => SK.is_trivia k = false
  | _, _ => True
  end.

Definition adjacent {A} (R : A -> A -> Prop) (l : list A) : Prop :=
  forall i a b, l !! i = Some a -> l !! S i = Some b -> R a b.

(** ** The tree that the operations denote, without delays *)

Definition direct_op (o : Op) : list Call :=
  match o with
  | OStarts kinds => (fun k => StartNode (node_kind_to_syntax k)) <$> kinds
  | OFinish => [FinishNode]
  | OToken kind => [AddToken (token_kind_to_syntax kind) []]
  | OError _ | OSpan _ _ => []
  end.

Definition direct (ops : list Op) : list Call := ops ≫= direct_op.

Definition deferred_call (d : DeferredNode) : Call :=
  match d with DStart kind => StartNode kind | DFinish => FinishNode end.

(** ** Lemmas on logs *)

Lemma closes_app d log1 log2 : closes d (log1 ++ log2) = d' ← closes d log1; closes d' log2.
Proof.
  revert d. induction log1 as [|[] log1 IH]; intros d; simpl; [done|apply IH..|].
  destruct d; [done|apply IH].
Qed.

Lemma closes_deeper n d log d' : closes d log = Some d' -> closes (n + d) log = Some (n + d')%nat.
Proof.
  revert d. induction log as [|[] log IH]; intros d; simpl.
  - by intros [= ->].
  - intros H%IH. by rewrite Nat.add_succ_r in H.
  - apply IH.
  - destruct d; [done|]. rewrite Nat.add_succ_r. apply IH.
Qed.

Lemma closes_skeleton d log : closes d (skeleton log) = closes d log.
Proof.
  revert d. induction log as [|[] log IH]; intros d; csimpl; [done|apply IH| |].
  - destruct (SK.is_trivia kind); apply IH.
  - destruct d; [done|apply IH].
Qed.

Lemma heap_cost_app log1 log2 : heap_cost (log1 ++ log2) = (heap_cost log1 + heap_cost log2)%Z.
Proof. induction log1; simpl; [done|]. rewrite IHlog1. lia. Qed.

Lemma skeleton_app log1 log2 : skeleton (log1 ++ log2) = skeleton log1 ++ skeleton log2.
Proof. apply omap_app. Qed.

Lemma log_tokens_app log1 log2 : log_tokens (log1 ++ log2) = log_tokens log1 ++ log_tokens log2.
Proof. apply omap_app. Qed.

Lemma direct_app ops1 ops2 : direct (ops1 ++ ops2) = direct ops1 ++ direct ops2.
Proof. apply bind_app. Qed.

Lemma adjacent_app {A} (R : A -> A -> Prop) l1 l2 :
  adjacent R l1 -> adjacent R l2 ->
  (forall a b, last l1 = Some a -> head l2 = Some b -> R a b) -> adjacent R (l1 ++ l2).
Proof.
  intros H1 H2 Hj i a b Ha Hb. apply lookup_app_Some in Ha as [Ha|[Hi Ha]].
  - apply lookup_app_Some in Hb as [Hb|[Hi Hb]]; [by eapply H1|].
    apply lookup_lt_Some in Ha as Hlt. apply Hj.
    + rewrite last_lookup. by replace (pred (length l1)) with i by lia.
    + rewrite head_lookup. by replace 0%nat with (S i - length l1)%nat by lia.
  - rewrite lookup_app_r in Hb by lia. eapply H2; [done|].
    by replace (S (i - length l1)) with (S i - length l1)%nat by lia.
Qed.

Lemma adjacent_all {A} (R : A -> A -> Prop) (P : A -> Prop) l :
  (forall a b, P a -> P b -> R a b) -> Forall P l -> adjacent R l.
Proof. intros HR HP i a b Ha Hb. apply HR; by eapply Forall_lookup_1. Qed.

(** ** What the builder's calls add up to *)

Definition emit (calls : list Call) (b : SyntaxTreeBuilder) : SyntaxTreeBuilder :=
  MkBuilder (b_errors b) (inner b ++ calls) (heap_bytes b + heap_cost calls).

Lemma emit_nil b : emit [] b = b.
Proof. destruct b. unfold emit. simpl. by rewrite app_nil_r, Z.add_0_r. Qed.

Lemma emit_emit c1 c2 b : emit c2 (emit c1 b) = emit (c1 ++ c2) b.
Proof. unfold emit. simpl. rewrite <- app_assoc, heap_cost_app. f_equal. lia. Qed.

Lemma builder_token_emit k t b : builder_token k t b = emit [AddToken k t] b.
Proof. unfold emit, builder_token. simpl. f_equal. lia. Qed.

Lemma builder_start_emit k b : builder_start_node k b = emit [StartNode k] b.
Proof. unfold emit, builder_start_node. simpl. f_equal. Qed.

Lemma builder_finish_emit b : builder_finish_node b = emit [FinishNode] b.
Proof. unfold emit, builder_finish_node. simpl. f_equal. lia. Qed.

(** The call for a raw token. *)
Definition raw_call (t : Token) : Call := AddToken (token_kind_to_syntax (tok_kind t)) (tok_text t).

Lemma add_raw_tokens gap b :
  foldl (fun b t => add_raw_token t b) b gap = emit (raw_call <$> gap) b.
Proof.
  revert b. induction gap as [|t gap IH]; intros b; csimpl; [by rewrite emit_nil|].
  rewrite IH. unfold add_raw_token. by rewrite builder_token_emit, emit_emit.
Qed.

(** Performing waiting nodes is their calls in their order. *)
Lemma perform_nodes_spec nodes : forall d n s,
  closes d (deferred_call <$> nodes) = Some n ->
  open_nodes s = d ->
  perform_nodes nodes s = Some (set_open_nodes n (set_builder (emit (deferred_call <$> nodes) (builder s)) s)).
Proof.
  induction nodes as [|[kind|] nodes IH]; intros d n s; csimpl.
  - intros [= ->] <-. rewrite emit_nil. by destruct s.
  - intros Hc <-. rewrite (IH _ _ _ Hc) by done. unfold start_node. simpl.
    by rewrite builder_start_emit, emit_emit.
  - destruct d as [|d]; [done|]. intros Hc Ho. unfold finish_node, pred_open. simpl. rewrite Ho. simpl.
    rewrite (IH _ _ _ Hc) by done. simpl. by rewrite builder_finish_emit, emit_emit.
Qed.

(** The kinds of the two layers agree on what is trivia. *)
Lemma trivia_layers k : SK.is_trivia (token_kind_to_syntax k) = is_trivia k.
Proof. by destruct k. Qed.

(** ** Logs under construction *)

(** The calls whose end a gap may follow. *)
Definition rests (c : Call) : Prop :=
  match c with FinishNode => True | AddToken k _ => SK.is_trivia k = false | _ => False end.

(** A log inside the root: [n] nodes are open, the tokens in it are [shown], and a gap may come
    next. *)
Record LogOK (l : list Call) (n : nat) (shown : list (SK.SyntaxKind * text)) : Prop := {
  lo_closes : closes 0 l = Some n;
  lo_edges : adjacent edge_ok l;
  lo_rests : forall c, last l = Some c -> rests c;
  lo_shown : log_tokens l = shown;
}.

Definition is_gap_call (c : Call) : Prop :=
  match c with AddToken k _ => SK.is_trivia k = true | _ => False end.

Definition is_node_call (c : Call) : Prop := match c with AddToken _ _ => False | _ => True end.

Lemma deferred_node_calls nodes : Forall is_node_call (deferred_call <$> nodes).
Proof. apply Forall_fmap, Forall_true. by intros []. Qed.

(** Waiting nodes begin with a start; when all of them are closed they end with a finish. *)
Lemma closes_head l n c : closes 0 l = Some n -> head l = Some c -> c <> FinishNode.
Proof. destruct l as [|[] l]; simpl; by intros H [= <-]. Qed.

Lemma closes_last l c :
  closes 0 l = Some 0%nat -> Forall is_node_call l -> last l = Some c -> c = FinishNode.
Proof.
  destruct l as [|c' l _] using rev_ind; [done|]. rewrite last_snoc, closes_app.
  intros Hc Hn [= ->]. apply Forall_app in Hn as [_ Hn]. apply Forall_cons in Hn as [Hn _].
  destruct (closes 0 l) as [d|]; [|done]. by destruct c; simplify_eq/=.
Qed.

Lemma gap_calls_closes d l : Forall is_gap_call l -> closes d l = Some d.
Proof. induction 1 as [|[] l Hc _ IH]; simpl; done. Qed.

Lemma gap_calls_skeleton l : Forall is_gap_call l -> skeleton l = [].
Proof. induction 1 as [|[] l Hc _ IH]; csimpl; [done..| |done]. by rewrite Hc. Qed.

Lemma node_calls_skeleton l : Forall is_node_call l -> skeleton l = l.
Proof. induction 1 as [|[] l Hc _ IH]; csimpl; [done|by f_equal|done|by f_equal]. Qed.

Lemma node_calls_tokens l : Forall is_node_call l -> log_tokens l = [].
Proof. by induction 1 as [|[] l Hc _ IH]. Qed.

Lemma adjacent_singleton {A} (R : A -> A -> Prop) a : adjacent R [a].
Proof. by intros [|i]. Qed.

(** A gap may follow any log at rest. *)
Lemma LogOK_gap_edges l n shown gap :
  LogOK l n shown -> Forall is_gap_call gap -> adjacent edge_ok (l ++ gap).
Proof.
  intros [Hc He Hr _] Hg. apply adjacent_app; [done| |].
  - eapply adjacent_all, Hg. by intros [] [].
  - intros a b Ha%Hr Hb. destruct gap as [|g gap]; simplify_eq/=.
    apply Forall_cons in Hg as [Hg _]. by destruct a, b.
Qed.

(** Nodes that begin with a start may follow anything. *)
Lemma nodes_edges l nodes n :
  adjacent edge_ok l -> Forall is_node_call nodes -> closes 0 nodes = Some n ->
  adjacent edge_ok (l ++ nodes).
Proof.
  intros He Hn Hc. apply adjacent_app; [done| |].
  - eapply adjacent_all, Hn. by intros [] [].
  - intros a b _ Hb. pose proof (closes_head _ _ _ Hc Hb).
    destruct nodes; simplify_eq/=. apply Forall_cons in Hn as [Hn _]. by destruct a, b.
Qed.

(** A gap, the nodes that waited and their first word. *)
Lemma LogOK_word l n shown gap nodes d k t :
  LogOK l n shown -> Forall is_gap_call gap -> Forall is_node_call nodes ->
  closes 0 nodes = Some d -> SK.is_trivia k = false ->
  LogOK (l ++ gap ++ nodes ++ [AddToken k t]) (n + d) (shown ++ log_tokens gap ++ [(k, t)]).
Proof.
  intros HL Hg Hn Hc Hk. pose proof HL as [Hcl _ _ Hs]. constructor.
  - apply (closes_deeper n) in Hc. rewrite Nat.add_0_r in Hc.
    by rewrite !closes_app, Hcl; simpl; rewrite closes_app, gap_calls_closes by done;
      simpl; rewrite closes_app, Hc.
  - rewrite !app_assoc. apply adjacent_app; [|apply adjacent_singleton|].
    + eapply nodes_edges; [by eapply LogOK_gap_edges|done..].
    + intros a b _ [= <-]. by destruct a.
  - intros c. by rewrite !app_assoc, last_snoc; intros [= <-].
  - by rewrite !log_tokens_app, Hs, (node_calls_tokens nodes) by done.
Qed.

(** Nodes that waited and are all closed. *)
Lemma LogOK_nodes l n shown nodes :
  LogOK l n shown -> Forall is_node_call nodes -> closes 0 nodes = Some 0%nat ->
  LogOK (l ++ nodes) n shown.
Proof.
  intros [Hcl He Hr Hs] Hn Hc. constructor.
  - apply (closes_deeper n) in Hc. rewrite Nat.add_0_r in Hc. by rewrite closes_app, Hcl.
  - by eapply nodes_edges.
  - intros c. rewrite last_app. destruct (last nodes) as [c'|] eqn:E; [|by apply Hr].
    intros [= <-]. by rewrite (closes_last _ _ Hc Hn E).
  - by rewrite log_tokens_app, (node_calls_tokens nodes), app_nil_r by done.
Qed.

Lemma LogOK_finish l n shown : LogOK l (S n) shown -> LogOK (l ++ [FinishNode]) n shown.
Proof.
  intros [Hcl He Hr Hs]. constructor.
  - by rewrite closes_app, Hcl.
  - apply adjacent_app; [done|apply adjacent_singleton|]. intros a b Ha%Hr [= <-]. by destruct a.
  - intros c. by rewrite last_snoc; intros [= <-].
  - by rewrite log_tokens_app, Hs, app_nil_r.
Qed.

(** ** The invariant *)

(** A raw token as the tree shows it. *)
Definition token_pair (t : Token) : SK.SyntaxKind * text :=
  (token_kind_to_syntax (tok_kind t), tok_text t).

Section sink.
Context (ts : list Token) (root : SK.SyntaxKind).
Hypothesis Hoff : Forall (fun t => 0 <= tok_offset t)%Z ts.

(** The first token not yet in the tree. *)
Definition flushed (s : Sink) : nat := default (token_pos s) (pending_trivia_start s).

Definition in_source (s : Sink) (r : TextRange) : Prop :=
  (0 <= range_start r /\ range_start r <= range_end r /\ range_end r <= source_len s)%Z.

Definition kinds_left (i : nat) : list TokenKind :=
  tok_kind <$> filter (fun t => is_trivia (tok_kind t) = false) (drop i ts).

(** [done]: the operations after the root's start; [left]: the kinds of the words to come. *)
Record SInv (done : list Op) (left : list TokenKind) (s : Sink) : Prop := {
  si_tokens : s_tokens s = ts;
  si_pos : (flushed s <= token_pos s <= length ts)%nat;
  si_gap : forall i t, (flushed s <= i < token_pos s)%nat -> ts !! i = Some t ->
             is_trivia (tok_kind t) = true;
  si_left : kinds_left (token_pos s) = left;
  si_deferred : closes 0 (deferred_call <$> deferred_nodes s) = Some (deferred_depth s);
  si_heap : heap_bytes (builder s) = heap_cost (inner (builder s));
  si_log : exists l n, inner (builder s) = StartNode root :: l /\ open_nodes s = S n /\
             LogOK l n (token_pair <$> take (flushed s) ts) /\
             skeleton l ++ (deferred_call <$> deferred_nodes s) = direct done;
  si_ranges : Forall (fun e => in_source s e.1) (s_errors s);
  si_errors : (s_errors s).*2 = omap op_error done;
  si_berrors : b_errors (builder s) = [];
}.

(** *** The trivia in front of a word *)

Lemma kinds_left_trivia i t :
  ts !! i = Some t -> is_trivia (tok_kind t) = true -> kinds_left (S i) = kinds_left i.
Proof.
  intros Hi Ht. unfold kinds_left. rewrite (drop_S _ _ _ Hi), filter_cons_False; [done|congruence].
Qed.

Lemma kinds_left_word i t :
  ts !! i = Some t -> is_trivia (tok_kind t) = false ->
  kinds_left i = tok_kind t :: kinds_left (S i).
Proof. intros Hi Ht. unfold kinds_left. by rewrite (drop_S _ _ _ Hi), filter_cons_True. Qed.

Lemma skip_gap_spec rest : forall s,
  s_tokens s = ts -> drop (token_pos s) ts = rest -> (token_pos s <= length ts)%nat ->
  exists q pend, skip_gap rest s = set_token_pos q pend s /\
    (token_pos s <= q <= length ts)%nat /\ default q pend = flushed s /\
    kinds_left q = kinds_left (token_pos s) /\
    (forall i t, (token_pos s <= i < q)%nat -> ts !! i = Some t -> is_trivia (tok_kind t) = true) /\
    (forall t, ts !! q = Some t -> is_trivia (tok_kind t) = false).
Proof using.
  clear Hoff. induction rest as [|t rest IH]; intros s Hts Hd Hp; simpl.
  - exists (token_pos s), (pending_trivia_start s). split; [by destruct s|].
    split_and!; try done; [lia|]. intros t Ht. apply lookup_lt_Some in Ht.
    apply (f_equal length) in Hd. rewrite length_drop in Hd. simpl in Hd. lia.
  - pose proof (drop_lookup _ _ _ _ Hd) as Ht. unfold raw_is_trivia. rewrite trivia_layers.
    destruct (is_trivia (tok_kind t)) eqn:Et.
    + destruct (IH (pass_token s)) as (q & pend & -> & Hq & Hf & Hk & Htr & Hw); simpl.
      * done.
      * by eapply drop_next.
      * by apply lookup_lt_Some in Ht.
      * simpl in *. exists q, pend. split; [by destruct s|].
        split_and!; [lia|lia|done|by rewrite Hk, (kinds_left_trivia _ t)| |done].
        intros i t' Hi Ht'. destruct (decide (i = token_pos s)) as [->|]; [congruence|].
        apply (Htr i t'); [lia|done].
    + exists (token_pos s), (pending_trivia_start s). split; [by destruct s|].
      split_and!; try done; [lia|]. intros t' Ht'. congruence.
Qed.

Lemma flush_trivia_spec s :
  s_tokens s = ts -> (flushed s <= token_pos s <= length ts)%nat ->
  flush_trivia s =
    Some (set_builder (emit (raw_call <$> take (token_pos s - flushed s) (drop (flushed s) ts)) (builder s))
            (set_token_pos (token_pos s) None s)).
Proof using.
  clear Hoff. intros Hts Hp. unfold flush_trivia, flushed in *.
  destruct (pending_trivia_start s) as [start|] eqn:E; simpl in *.
  - rewrite Hts. rewrite !(proj2 (Nat.leb_le _ _)) by lia. simpl. by rewrite add_raw_tokens.
  - rewrite Nat.sub_diag. simpl. rewrite emit_nil. destruct s; simpl in *. by subst.
Qed.

(** The tokens from [i] to [j] are a gap. *)
Definition gap_between (i j : nat) : list Token := take (j - i) (drop i ts).

Lemma gap_between_calls i j :
  (forall k t, (i <= k < j)%nat -> ts !! k = Some t -> is_trivia (tok_kind t) = true) ->
  Forall is_gap_call (raw_call <$> gap_between i j).
Proof using.
  clear Hoff. intros H. apply Forall_fmap, Forall_lookup. intros k t Hk. simpl. rewrite trivia_layers.
  unfold gap_between in Hk. apply lookup_take_Some in Hk as [Hk Hlt].
  rewrite lookup_drop in Hk. apply (H (i + k)%nat); [lia|done].
Qed.

Lemma log_tokens_raw gap : log_tokens (raw_call <$> gap) = token_pair <$> gap.
Proof using. clear Hoff. by induction gap as [|t gap IH]; csimpl; rewrite ?IH. Qed.

Lemma take_gap i j : (i <= j)%nat -> take i ts ++ gap_between i j = take j ts.
Proof using.
  clear Hoff. intros H. unfold gap_between. replace j with (i + (j - i))%nat at 2 by lia. apply take_take_drop.
Qed.

Lemma shown_word i j t :
  (i <= j)%nat -> ts !! j = Some t ->
  (token_pair <$> take i ts) ++ log_tokens (raw_call <$> gap_between i j) ++ [token_pair t] =
    token_pair <$> take (S j) ts.
Proof using.
  clear Hoff. intros Hij Ht. rewrite log_tokens_raw, (take_S_r _ _ _ Ht), <- (take_gap i j) by done.
  rewrite !fmap_app. by rewrite <- app_assoc.
Qed.

Lemma direct_snoc done o : direct (done ++ [o]) = direct done ++ direct_op o.
Proof using. clear Hoff. rewrite direct_app. unfold direct. simpl. by rewrite app_nil_r. Qed.

Lemma errors_snoc done o : omap op_error (done ++ [o]) = omap op_error done ++ omap op_error [o].
Proof using. apply omap_app. Qed.

(** What waited is performed below the open nodes. *)
Lemma perform_deferred_spec s n :
  closes 0 (deferred_call <$> deferred_nodes s) = Some n ->
  perform_deferred_nodes s =
    Some (set_open_nodes (open_nodes s + n)
            (set_builder (emit (deferred_call <$> deferred_nodes s) (builder s)) (set_deferred [] 0 s))).
Proof using.
  clear Hoff. intros H. apply (closes_deeper (open_nodes s)) in H. rewrite Nat.add_0_r in H.
  unfold perform_deferred_nodes. by rewrite (perform_nodes_spec _ _ _ _ H).
Qed.

Lemma sink_token_spec done k left s :
  SInv done (k :: left) s ->
  exists s', sink_token k s = Some s' /\ SInv (done ++ [OToken k]) left s'.
Proof using.
  clear Hoff. intros [Hts Hp Hg Hl Hd Hh (l & n & Hlog & Ho & HL & Hsk) Hr He Hb].
  destruct (skip_gap_spec (drop (token_pos s) ts) s) as (q & pend & Es & Hq & Hf & Hk & Htr & Hw);
    [done|done|lia|].
  rewrite Hl in Hk.
  destruct (ts !! q) as [t|] eqn:Et; last first.
  { apply lookup_ge_None in Et. unfold kinds_left in Hk. by rewrite drop_ge in Hk. }
  rewrite (kinds_left_word _ _ Et) in Hk by auto. injection Hk as Hkt Hleft.
  unfold sink_token. rewrite Hts, Es. simpl. rewrite Hts, Et.
  rewrite flush_trivia_spec; simpl; [|done|unfold flushed at 1; simpl; lia].
  assert (flushed (set_token_pos q pend s) = flushed s) as Hf' by done.
  rewrite Hf'. fold (gap_between (flushed s) q).
  erewrite perform_deferred_spec by exact Hd. simpl.
  rewrite builder_token_emit, !emit_emit, Ho. eexists. split; [done|].
  constructor; simpl; try done.
  - apply lookup_lt_Some in Et. unfold flushed. simpl. lia.
  - unfold flushed. simpl. lia.
  - rewrite Hh. symmetry. apply heap_cost_app.
  - exists (l ++ (raw_call <$> gap_between (flushed s) q) ++ (deferred_call <$> deferred_nodes s) ++
              [AddToken (token_kind_to_syntax k) (tok_text t)]), (n + deferred_depth s)%nat.
    assert (Forall is_gap_call (raw_call <$> gap_between (flushed s) q)) as Hgap.
    { apply gap_between_calls. intros i t' Hi Ht'.
      destruct (decide (i < token_pos s)%nat); [apply (Hg i)|apply (Htr i)]; done || lia. }
    split; [by rewrite Hlog|]. split; [done|]. split.
    + unfold flushed. simpl. rewrite <- (shown_word (flushed s) q t); [|lia|done].
      unfold token_pair at 2. rewrite Hkt.
      apply LogOK_word; [done|done|apply deferred_node_calls|done|].
      rewrite trivia_layers, <- Hkt. by apply Hw.
    + rewrite app_nil_r, direct_snoc, <- Hsk, !skeleton_app, (gap_calls_skeleton _ Hgap).
      rewrite (node_calls_skeleton _ (deferred_node_calls _)). csimpl.
      rewrite trivia_layers, <- Hkt, Hw by done. by rewrite app_assoc.
  - by rewrite errors_snoc, app_nil_r.
Qed.

(** *** Error ranges *)

Lemma to_u32_nonneg n : (0 <= n)%Z -> (0 <= to_u32 n)%Z.
Proof using. clear Hoff. unfold to_u32, U32_MAX. case_match; lia. Qed.

Lemma token_end_nonneg t : (0 <= tok_offset t)%Z -> (0 <= token_end t)%Z.
Proof using.
  clear Hoff. intros H. unfold token_end, saturating_add, USIZE_MAX.
  pose proof (str_len_nonneg (tok_text t)). lia.
Qed.

Lemma source_len_nonneg s : s_tokens s = ts -> (0 <= source_len s)%Z.
Proof using Hoff.
  intros Hts. unfold source_len. rewrite Hts. destruct (last ts) as [t|] eqn:E; [|done].
  apply to_u32_nonneg, token_end_nonneg. rewrite Forall_forall in Hoff. apply Hoff.
  by apply last_Some_elem_of.
Qed.

Lemma clamp_offset_bounds s n :
  s_tokens s = ts -> (0 <= n)%Z -> (0 <= clamp_offset s n <= source_len s)%Z.
Proof using Hoff.
  intros Hts Hn. pose proof (source_len_nonneg s Hts). pose proof (to_u32_nonneg n Hn).
  unfold clamp_offset. lia.
Qed.

Lemma next_significant_bounds s i :
  s_tokens s = ts -> (0 <= offset_of_next_significant s i <= source_len s)%Z.
Proof using Hoff.
  intros Hts. unfold offset_of_next_significant.
  destruct (list_find _ _) as [[j t]|] eqn:E.
  - apply list_find_Some in E as (Hj & _ & _). rewrite Hts, lookup_drop in Hj.
    apply clamp_offset_bounds; [done|]. exact (Forall_lookup_1 _ _ _ _ Hoff Hj).
  - pose proof (source_len_nonneg s Hts). lia.
Qed.

Lemma safe_range_bounds s a b :
  (0 <= a <= source_len s)%Z -> (b <= source_len s)%Z ->
  exists r, safe_range a b = Some r /\ in_source s r.
Proof using.
  clear Hoff. intros Ha Hb. unfold safe_range, TextRange_new.
  rewrite (proj2 (Z.leb_le _ _)) by lia. eexists. split; [done|]. unfold in_source. simpl. lia.
Qed.

Lemma empty_range_bounds s n : (0 <= n <= source_len s)%Z -> in_source s (TextRange_empty n).
Proof using. clear Hoff. unfold in_source. simpl. lia. Qed.

Lemma previous_range_bounds s :
  s_tokens s = ts ->
  exists r, previous_token_range_or_zero_at_start s = Some r /\ in_source s r.
Proof using Hoff.
  intros Hts. pose proof (source_len_nonneg s Hts) as Hlen.
  unfold previous_token_range_or_zero_at_start.
  destruct (last_significant_pos s) as [i|]; [|eexists; split; [done|by apply empty_range_bounds]].
  rewrite Hts. destruct (ts !! i) as [t|] eqn:E.
  - pose proof (Forall_lookup_1 _ _ _ _ Hoff E) as Ho. simpl in Ho.
    pose proof (token_end_nonneg t Ho).
    apply safe_range_bounds; [by apply clamp_offset_bounds|by apply clamp_offset_bounds].
  - eexists. split; [done|]. apply empty_range_bounds. lia.
Qed.

Lemma compute_error_range_bounds s err span :
  s_tokens s = ts -> exists r, compute_error_range s err span = Some r /\ in_source s r.
Proof using Hoff.
  intros Hts. pose proof (next_significant_bounds s (token_pos s) Hts) as Hnext.
  pose proof (source_len_nonneg s Hts) as Hlen. unfold compute_error_range.
  destruct (recovery err).
  - by apply previous_range_bounds.
  - eexists. split; [done|]. by apply empty_range_bounds.
  - apply safe_range_bounds; [|lia]. destruct span; [by apply next_significant_bounds|lia].
  - destruct (last_significant_pos s); [by apply previous_range_bounds|].
    eexists. split; [done|]. by apply empty_range_bounds.
Qed.

Lemma SInv_error done left s r err o :
  SInv done left s -> in_source s r -> direct_op o = [] -> op_error o = Some err ->
  SInv (done ++ [o]) left (push_error r err s).
Proof using.
  clear Hoff. intros [Hts Hp Hg Hl Hd Hh Hlog Hr He Hb] Hin Ho Hoe. constructor; simpl; try done.
  - by rewrite direct_snoc, Ho, app_nil_r.
  - apply Forall_app. split; [done|]. by apply Forall_singleton.
  - rewrite fmap_app, He, errors_snoc. csimpl. by rewrite Hoe.
Qed.

(** *** Starts and finishes inside the root *)

Lemma defer_nodes kinds : forall s,
  foldl (fun s kind => defer_node (node_kind_to_syntax kind) s) s kinds =
    set_deferred (deferred_nodes s ++ ((fun k => DStart (node_kind_to_syntax k)) <$> kinds))
      (deferred_depth s + length kinds) s.
Proof using.
  clear Hoff. induction kinds as [|k kinds IH]; intros s; csimpl.
  - rewrite app_nil_r, Nat.add_0_r. by destruct s.
  - rewrite IH. simpl. rewrite <- app_assoc. simpl. by rewrite Nat.add_succ_r.
Qed.

Lemma closes_starts d (kinds : list NK.NodeKind) :
  closes d ((fun k => StartNode (node_kind_to_syntax k)) <$> kinds) = Some (d + length kinds)%nat.
Proof using.
  clear Hoff. revert d. induction kinds as [|k kinds IH]; intros d; csimpl; [by rewrite Nat.add_0_r|].
  rewrite IH. f_equal. lia.
Qed.

Lemma sink_starts_spec done left kinds s :
  SInv done left s -> SInv (done ++ [OStarts kinds]) left (sink_starts kinds s).
Proof using.
  clear Hoff. intros [Hts Hp Hg Hl Hd Hh (l & n & Hlog & Ho & HL & Hsk) Hr He Hb].
  unfold sink_starts. rewrite Ho. simpl. rewrite defer_nodes.
  assert (deferred_call <$> ((fun k => DStart (node_kind_to_syntax k)) <$> kinds) =
          (fun k => StartNode (node_kind_to_syntax k)) <$> kinds) as Hk.
  { by rewrite <- list_fmap_compose. }
  constructor; simpl; try done.
  - by rewrite fmap_app, closes_app, Hd, Hk; simpl; rewrite closes_starts.
  - exists l, n. split_and!; try done.
    by rewrite fmap_app, Hk, app_assoc, Hsk, direct_snoc.
  - by rewrite errors_snoc, app_nil_r.
Qed.

(** A finish that is not the root's. *)
Lemma sink_finish_spec done left s m :
  SInv done left s -> closes 0 (direct (done ++ [OFinish])) = Some m ->
  exists s', sink_finish s = Some s' /\ SInv (done ++ [OFinish]) left s'.
Proof using.
  clear Hoff. intros [Hts Hp Hg Hl Hd Hh (l & n & Hlog & Ho & HL & Hsk) Hr He Hb] Hc.
  rewrite direct_snoc, <- Hsk, !closes_app, closes_skeleton, (lo_closes _ _ _ HL) in Hc. simpl in Hc.
  pose proof (closes_deeper n _ _ _ Hd) as Hd'. rewrite Nat.add_0_r in Hd'. rewrite Hd' in Hc.
  unfold sink_finish. destruct (Nat.ltb_spec 0 (deferred_depth s)) as [Hlt|Hge].
  - eexists. split; [done|]. constructor; simpl; try done.
    + rewrite fmap_app, closes_app, Hd. simpl. destruct (deferred_depth s); [lia|].
      simpl. by rewrite Nat.sub_0_r.
    + exists l, n. split_and!; try done. by rewrite fmap_app, app_assoc, Hsk, direct_snoc.
    + by rewrite errors_snoc, app_nil_r.
  - assert (deferred_depth s = 0)%nat as E by lia. rewrite E in Hd, Hc.
    rewrite Nat.add_0_r in Hc. simpl in Hc. destruct n as [|n]; [done|].
    rewrite (perform_deferred_spec _ _ Hd). simpl. rewrite Ho, Nat.add_0_r. simpl.
    unfold finish_node, pred_open. simpl. rewrite builder_finish_emit, emit_emit.
    eexists. split; [done|]. constructor; simpl; try done.
    + rewrite Hh. symmetry. apply heap_cost_app.
    + exists (l ++ (deferred_call <$> deferred_nodes s) ++ [FinishNode]), n.
      split; [by rewrite Hlog|]. split; [done|]. split.
      * rewrite app_assoc. apply LogOK_finish.
        apply LogOK_nodes; [done|apply deferred_node_calls|done].
      * rewrite app_nil_r, direct_snoc, <- Hsk, !skeleton_app.
        by rewrite (node_calls_skeleton _ (deferred_node_calls _)), app_assoc.
    + by rewrite errors_snoc, app_nil_r.
Qed.

(** *** Whole runs *)

Lemma run_op_spec done left left' o s m :
  SInv done left s -> closes 0 (direct (done ++ [o])) = Some m -> omap op_token [o] ++ left' = left ->
  exists s', run_op o s = Some s' /\ SInv (done ++ [o]) left' s'.
Proof using Hoff.
  intros HI Hc Hl. destruct o as [kinds| |k|err|st err]; simpl in Hl |- *; rewrite <- ?Hl in HI.
  - eexists. split; [done|]. by apply sink_starts_spec.
  - by eapply sink_finish_spec.
  - by apply sink_token_spec.
  - destruct (compute_error_range_bounds s err None) as (r & -> & Hr); [apply HI|].
    eexists. split; [done|]. by eapply SInv_error.
  - destruct (compute_error_range_bounds s err (Some st)) as (r & -> & Hr); [apply HI|].
    eexists. split; [done|]. by eapply SInv_error.
Qed.

Lemma run_ops_spec ops : forall done left left' s m,
  SInv done left s -> closes 0 (direct (done ++ ops)) = Some m -> omap op_token ops ++ left' = left ->
  exists s', run_ops ops s = Some s' /\ SInv (done ++ ops) left' s'.
Proof using Hoff.
  induction ops as [|o ops IH]; intros done left left' s m HI Hc Hl.
  { exists s. simpl in Hl. subst. by rewrite app_nil_r. }
  rewrite cons_middle, app_assoc in Hc |- *.
  destruct (closes 0 (direct (done ++ [o]))) as [d|] eqn:Ed; last first.
  { by rewrite direct_app, closes_app, Ed in Hc. }
  destruct (run_op_spec done left (omap op_token ops ++ left') o s d) as (s1 & E1 & H1); [done..| |].
  { rewrite app_assoc, <- omap_app. done. }
  destruct (IH _ _ left' _ _ H1 Hc eq_refl) as (s2 & E2 & H2).
  exists s2. simpl. by rewrite E1.
Qed.

Lemma pass_tokens n : forall s,
  exists pend, Nat.iter n pass_token s = set_token_pos (token_pos s + n) pend s /\
    default (token_pos s + n)%nat pend = flushed s.
Proof using.
  clear Hoff. induction n as [|n IH]; intros s.
  - exists (pending_trivia_start s). rewrite Nat.add_0_r. split; [by destruct s|done].
  - rewrite Nat.iter_succ_r. destruct (IH (pass_token s)) as (pend & -> & Hp). simpl in *.
    exists pend. rewrite <- Nat.add_succ_comm. split; [by destruct s|exact Hp].
Qed.

(** The root's finish takes the tail of the file into the root. *)
Lemma sink_finish_root done s :
  SInv done [] s -> closes 0 (direct done) = Some 0%nat ->
  exists s' l, sink_finish s = Some s' /\
    inner (builder s') = StartNode root :: l ++ [FinishNode] /\
    closes 0 l = Some 0%nat /\ adjacent edge_ok l /\ log_tokens l = token_pair <$> ts /\
    skeleton l = direct done /\ heap_bytes (builder s') = heap_cost (inner (builder s')) /\
    Forall (fun e => in_source s' e.1) (s_errors s') /\ s_errors s' = s_errors s /\
    s_tokens s' = ts /\ b_errors (builder s') = [].
Proof using.
  clear Hoff. intros [Hts Hp Hg Hl Hd Hh (l & n & Hlog & Ho & HL & Hsk) Hr He Hb] Hc.
  rewrite <- Hsk, closes_app, closes_skeleton, (lo_closes _ _ _ HL) in Hc. simpl in Hc.
  pose proof (closes_deeper n _ _ _ Hd) as Hd'. rewrite Nat.add_0_r, Hc in Hd'.
  injection Hd' as Hd'. assert (n = 0 /\ deferred_depth s = 0)%nat as [-> E] by lia.
  rewrite E in Hd. unfold sink_finish. rewrite E. simpl.
  rewrite (perform_deferred_spec _ _ Hd). simpl. rewrite Ho. simpl.
  unfold take_the_tail. cbn [s_tokens set_open_nodes set_builder set_deferred token_pos].
  match goal with |- context [Nat.iter ?k pass_token ?st] =>
    destruct (pass_tokens k st) as (pend & -> & Hpend) end.
  rewrite Hts in *. simpl in *. replace (token_pos s + (length ts - token_pos s))%nat
    with (length ts) in * by lia.
  rewrite flush_trivia_spec; simpl; [|done|unfold flushed at 1; simpl; rewrite Hpend; unfold flushed in *; simpl; lia].
  change (default (length ts) pend = flushed s) in Hpend.
  repeat match goal with |- context [flushed (set_token_pos ?a ?b ?st)] =>
    change (flushed (set_token_pos a b st)) with (default a b) end.
  rewrite Hpend. fold (gap_between (flushed s) (length ts)).
  unfold finish_node, pred_open. simpl. rewrite builder_finish_emit, !emit_emit.
  set (gap := gap_between (flushed s) (length ts)).
  assert (Forall is_gap_call (raw_call <$> gap)) as Hgap.
  { apply gap_between_calls. intros i t Hi Ht. destruct (decide (i < token_pos s)%nat) as [|Hn].
    - by apply (Hg i); [lia|].
    - unfold kinds_left in Hl. apply fmap_nil_inv in Hl. apply not_false_is_true. intros Hw.
      assert (t ∈ filter (fun t => is_trivia (tok_kind t) = false) (drop (token_pos s) ts)) as Hin.
      { apply list_elem_of_filter. split; [done|]. apply list_elem_of_lookup.
        exists (i - token_pos s)%nat. rewrite lookup_drop.
        by replace (token_pos s + (i - token_pos s))%nat with i by lia. }
      rewrite Hl in Hin. by apply elem_of_nil in Hin. }
  pose proof (LogOK_nodes _ _ _ _ HL (deferred_node_calls _) Hd) as HL'.
  eexists _, (l ++ (deferred_call <$> deferred_nodes s) ++ (raw_call <$> gap)).
  split; [done|]. simpl. split_and!; try done.
  - rewrite Hlog. simpl. by rewrite <- !app_assoc.
  - by rewrite app_assoc, closes_app, (lo_closes _ _ _ HL'); simpl; apply gap_calls_closes.
  - rewrite app_assoc. by eapply LogOK_gap_edges.
  - rewrite app_assoc, log_tokens_app, (lo_shown _ _ _ HL'), log_tokens_raw, <- fmap_app.
    unfold gap. rewrite take_gap by lia. by rewrite take_ge.
  - by rewrite !skeleton_app, (gap_calls_skeleton _ Hgap), app_nil_r,
      (node_calls_skeleton _ (deferred_node_calls _)).
  - rewrite Hh. symmetry. apply heap_cost_app.
Qed.
End sink.

(** ** The tree of a whole stream *)

(** The operations of a well-formed stream close what they open. *)
Lemma denotes_closes :
  (forall es ms ops, Denotes es ms ops -> forall d, closes d (direct ops) = Some d) /\
  (forall c mc kinds rest, DenotesChain c mc kinds rest ->
     forall d, closes (d + length kinds) (direct rest) = Some d).
Proof.
  assert (Hcons : forall o ops, direct (o :: ops) = direct_op o ++ direct ops) by done.
  apply Denotes_ind_both; intros; rewrite ?direct_app, ?Hcons; simpl; try done.
  - rewrite closes_app, closes_starts. simpl. rewrite direct_app, closes_app, H0. apply H2.
  - rewrite closes_app, Nat.add_1_r, H0. done.
  - rewrite length_app, Nat.add_1_r, Nat.add_succ_r, closes_app, H0. simpl.
    rewrite direct_app, closes_app, H2. apply H4.
Qed.

(** The significant tokens' kinds. *)
Definition word_kinds (ts : list Token) : list TokenKind :=
  tok_kind <$> filter (fun t => is_trivia (tok_kind t) = false) ts.

(** What the sink makes of the events [Start root; body; Finish]: the calls [StartNode root], [l],
    [FinishNode], where [l] shows every token and, but for its trivia, is what [ops] denote. *)
Record Built (ts : list Token) (root : NK.NodeKind) (ops : list Op) (l : list Call)
    (b : SyntaxTreeBuilder) : Prop := {
  bu_inner : inner b = StartNode (node_kind_to_syntax root) :: l ++ [FinishNode];
  bu_closes : closes 0 l = Some 0%nat;
  bu_edges : adjacent edge_ok l;
  bu_tokens : log_tokens l = token_pair <$> ts;
  bu_skeleton : skeleton l = direct ops;
  bu_heap : heap_bytes b = heap_cost (inner b);
  bu_ranges : Forall (fun e => 0 <= range_start e.1 /\ range_start e.1 <= range_end e.1 /\
                            range_end e.1 <= source_len (Sink_new ts))%Z (b_errors b);
  bu_errors : (b_errors b).*2 = omap op_error ops;
}.

Lemma builder_errors errs : forall b,
  foldl (fun b '(range, err) => builder_error range err b) b errs =
    MkBuilder (b_errors b ++ errs) (inner b) (heap_bytes b).
Proof.
  induction errs as [|[r e] errs IH]; intros b; simpl; [rewrite app_nil_r; by destruct b|].
  rewrite IH. unfold builder_error. simpl. by rewrite <- app_assoc.
Qed.

Lemma finish_builds ts root body :
  Forall (fun t => 0 <= tok_offset t)%Z ts -> Forest body -> token_kinds body = word_kinds ts ->
  exists ms ops l b, Denotes body ms ops /\
    finish (Sink_new ts) (Start root None :: body ++ [Finish]) = Some b /\ Built ts root ops l b.
Proof.
  intros Hoff Hf Hk. destruct (proj1 Forest_denotes body Hf) as (ms & ops & Hd).
  pose proof (DenotesChain_node root body ms ops Hd) as Hc.
  pose proof (Denotes_chain _ _ _ _ _ _ _ Hc Denotes_nil) as Hroot. rewrite !app_nil_r in Hroot.
  pose proof (proj1 denotes_closes _ _ _ Hd 0%nat) as Hcl.
  pose proof (proj1 denotes_tokens _ _ _ Hd) as Ht.
  assert (SInv ts (node_kind_to_syntax root) [] (word_kinds ts) (sink_starts [root] (Sink_new ts))) as H0.
  { constructor; simpl; try done; [unfold flushed; simpl; lia|unfold flushed; simpl; lia|].
    exists [], 0%nat. by split_and!. }
  destruct (run_ops_spec ts _ Hoff ops [] _ [] _ _ H0 Hcl) as (s1 & E1 & H1).
  { by rewrite app_nil_r, Ht. }
  destruct (sink_finish_root ts _ _ _ H1 Hcl) as
    (s2 & l & E2 & Hin & Hcl' & Hed & Htok & Hsk & Hheap & Hr & He & Hts & Hb).
  exists ms, ops, l, (with_errors s2). split; [done|]. split.
  - rewrite (finish_denotes _ _ _ _ Hroot). cbn [run_ops run_op mbind option_bind].
    rewrite run_ops_app, E1. simpl. by rewrite E2.
  - unfold with_errors. rewrite builder_errors, Hb. constructor; simpl; try done.
    + revert Hr. unfold in_source, source_len. rewrite Hts. done.
    + rewrite He. apply (si_errors _ _ _ _ _ H1).
Qed.
