(* ===== verification/Parse.v ===== *)
(** Parse: the whole front end after the lexer (crates/parser/src/lib.rs): the token list goes
    through the parser and its events through the sink.

    The first group of theorems is about the sink on any well-formed stream, the second about
    [parse] on any module below the iteration guard. *)
From stdpp Require Import prelude strings.
From S2P Require Import Prelude Kinds Tokens Input TornIf ParserCore Events Hoare Directives.
From S2P Require Import Expressions Grammar DirectivesSpec ExpressionsSpec GrammarSpec Parsing Sink Denotation SinkSpec.

(** The sink's share of [parse]: the tree of a stream of events over the file's tokens. *)
Definition build_tree (toks : list Token) (es : list Event) : option SyntaxTreeBuilder :=
  finish (Sink_new toks) es.

(** [parse] on the lexer's tokens, up to the tree builder's last call. *)
Definition parse `{CharCase} (toks : list Token) : option SyntaxTreeBuilder :=
  match parse_events toks with
  | Ok events _ => build_tree toks events
  | _ => None
  end.

(** ** The sink on a well-formed stream *)

(** C9. The sink builds the tree that the events denote: on every well-formed stream whose tokens
    are the words of the file it returns without a panic, its calls open and close one tree of the
    root's kind, and without the trivia they are the tree of the stream's meaning, in which a node
    opened by [precede] encloses the nodes before it. The delays change no node and no word. *)
Theorem sink_builds_what_events_denote ts root body :
  Forall (fun t => 0 <= tok_offset t)%Z ts -> Forest body -> token_kinds body = word_kinds ts ->
  exists ms ops l b, Denotes body ms ops /\
    build_tree ts (Start root None :: body ++ [Finish]) = Some b /\
    inner b = StartNode (node_kind_to_syntax root) :: l ++ [FinishNode] /\
    closes 0 l = Some 0%nat /\ skeleton l = direct ops.
Proof.
  intros Hoff Hf Hk. destruct (finish_builds ts root body Hoff Hf Hk) as (ms & ops & l & b & ? & ? & []).
  by exists ms, ops, l, b.
Qed.

(** C10. Trivia belong to the common ancestor of their neighbours: in the tree of any well-formed
    stream no node but the root starts or ends with trivia. *)
Theorem trivia_hang_between_words ts root body b :
  Forall (fun t => 0 <= tok_offset t)%Z ts -> Forest body -> token_kinds body = word_kinds ts ->
  build_tree ts (Start root None :: body ++ [Finish]) = Some b ->
  forall i x y, (0 < i)%nat -> (i + 2 < length (inner b))%nat ->
    inner b !! i = Some x -> inner b !! S i = Some y ->
    match x, y with
    | StartNode _, AddToken k _ | AddToken k _, FinishNode => SK.is_trivia k = false
    | _, _ => True
    end.
Proof.
  intros Hoff Hf Hk Hfin i x y Hi Hlt Hx Hy.
  destruct (finish_builds ts root body Hoff Hf Hk) as (ms & ops & l & b' & _ & E & [Hin _ He _ _ _ _ _]).
  assert (b' = b) as -> by (unfold build_tree in *; congruence). rewrite Hin in *. destruct i as [|i]; [lia|].
  simpl in Hx, Hy, Hlt. rewrite length_app in Hlt. simpl in Hlt.
  rewrite lookup_app_l in Hx, Hy by lia. pose proof (He i x y Hx Hy). by destruct x, y.
Qed.

(** C11. Error messages stay in the file: every range the sink computes for an error starts at or
    after 0, does not end before it starts and ends within the source, and the errors come in the
    order of their events. *)
Theorem error_ranges_in_source ts root body b :
  Forall (fun t => 0 <= tok_offset t)%Z ts -> Forest body -> token_kinds body = word_kinds ts ->
  build_tree ts (Start root None :: body ++ [Finish]) = Some b ->
  Forall (fun e => 0 <= range_start e.1 /\ range_start e.1 <= range_end e.1 /\
                range_end e.1 <= source_len (Sink_new ts))%Z (b_errors b) /\
  (b_errors b).*2 = omap event_error body.
Proof.
  intros Hoff Hf Hk Hfin.
  destruct (finish_builds ts root body Hoff Hf Hk) as (ms & ops & l & b' & Hd & E & [_ _ _ _ _ _ Hr He]).
  assert (b' = b) as -> by (unfold build_tree in *; congruence). split; [done|].
  by rewrite He, (proj1 denotes_errors _ _ _ Hd).
Qed.

(** ** Modules *)

Lemma word_kinds_sig ts : word_kinds ts = sig_kind <$> sig_kinds ts.
Proof. unfold word_kinds. by rewrite sig_kinds_filter. Qed.

(** The events of a module below the guard. *)
Lemma parse_events_spec `{CharCase} toks :
  (checks_bound toks < MAX_ITERATIONS)%Z ->
  exists body p', parse_events toks = Ok (Start NK.SourceFile None :: body ++ [Finish]) p' /\
    Forest body /\ token_kinds body = word_kinds toks.
Proof.
  intros Hb. pose proof (source_file_run toks) as Hrun. unfold wp in Hrun.
  unfold parse_events, mbind, M_bind. unfold checks_bound, MAX_ITERATIONS in *.
  destruct (source_file (Parser_new toks)) as [[] p'|reason|]; [|destruct Hrun; lia..].
  destruct Hrun as ([_ _ _ _ _ _ _ _ Ht] & Hp & _ & body & Hf & He); [lia|].
  exists body, p'. rewrite <- He. split; [done|]. split; [done|].
  rewrite Hp, Input_new_kinds, take_ge, He in Ht by by rewrite length_fmap.
  rewrite word_kinds_sig, <- Ht. unfold token_kinds. csimpl. rewrite omap_app. by rewrite app_nil_r.
Qed.

(** A call that makes a node or a token. *)
Definition is_element (c : Call) : bool := match c with FinishNode => false | _ => true end.

Lemma heap_cost_elements log :
  heap_cost log = (HEAP_PER_ELEMENT * Z.of_nat (length (filter (fun c => is_element c = true) log)) +
                   str_len (concat (snd <$> log_tokens log)))%Z.
Proof.
  unfold HEAP_PER_ELEMENT. induction log as [|c log IH]; [done|].
  destruct c; simpl heap_cost; rewrite IH; unfold HEAP_PER_ELEMENT.
  - rewrite filter_cons_True by done. unfold log_tokens. csimpl. lia.
  - rewrite filter_cons_True by done. unfold log_tokens. csimpl. rewrite str_len_app. lia.
  - rewrite filter_cons_False by done. unfold log_tokens. csimpl. lia.
Qed.

(** C1. Parsing is total and lossless: every module below the iteration guard, however malformed,
    gets a tree with a [SOURCE_FILE] root that holds every token of the file, trivia included,
    exactly once, in order and with its kind; the text of the tree is the text of the file; and the
    heap estimate is 16 bytes per node and token plus the bytes of the text. *)
Theorem parse_lossless `{CharCase} toks :
  Forall (fun t => 0 <= tok_offset t)%Z toks -> (checks_bound toks < MAX_ITERATIONS)%Z ->
  exists b l, parse toks = Some b /\ inner b = StartNode SK.SOURCE_FILE :: l ++ [FinishNode] /\
    closes 0 l = Some 0%nat /\
    log_tokens (inner b) = token_pair <$> toks /\
    concat (snd <$> log_tokens (inner b)) = concat (tok_text <$> toks) /\
    heap_bytes b = (HEAP_PER_ELEMENT *
        Z.of_nat (length (filter (fun c => is_element c = true) (inner b))) +
        str_len (concat (tok_text <$> toks)))%Z.
Proof.
  intros Hoff Hb. destruct (parse_events_spec toks Hb) as (body & p' & E & Hf & Hk).
  destruct (finish_builds toks NK.SourceFile body Hoff Hf Hk)
    as (ms & ops & l & b & _ & Efin & [Hin Hcl _ Htok _ Hheap _ _]).
  assert (log_tokens (inner b) = token_pair <$> toks) as Hall.
  { rewrite Hin, <- Htok. unfold log_tokens. csimpl. rewrite omap_app. by rewrite app_nil_r. }
  assert (snd <$> log_tokens (inner b) = tok_text <$> toks) as Htext.
  { by rewrite Hall, <- list_fmap_compose. }
  exists b, l. unfold parse, build_tree. rewrite E. split_and!; [done..| |].
  - by rewrite Htext.
  - by rewrite Hheap, heap_cost_elements, Htext.
Qed.

(** C2. Parsing a module gives the tree its events denote, with the trivia between the words: the
    stream of [source_file] is well formed, its meaning is the skeleton of the tree, no node but
    the root starts or ends with trivia, and every error of the parser is reported once, in order,
    at a range inside the source. *)
Theorem parse_refines_events `{CharCase} toks :
  Forall (fun t => 0 <= tok_offset t)%Z toks -> (checks_bound toks < MAX_ITERATIONS)%Z ->
  exists body p' ms ops l b,
    parse_events toks = Ok (Start NK.SourceFile None :: body ++ [Finish]) p' /\
    Denotes body ms ops /\ parse toks = Some b /\
    inner b = StartNode SK.SOURCE_FILE :: l ++ [FinishNode] /\
    skeleton l = direct ops /\ adjacent edge_ok l /\
    (b_errors b).*2 = omap event_error body /\
    Forall (fun e => 0 <= range_start e.1 /\ range_start e.1 <= range_end e.1 /\
                  range_end e.1 <= source_len (Sink_new toks))%Z (b_errors b).
Proof.
  intros Hoff Hb. destruct (parse_events_spec toks Hb) as (body & p' & E & Hf & Hk).
  destruct (finish_builds toks NK.SourceFile body Hoff Hf Hk)
    as (ms & ops & l & b & Hd & Efin & [Hin _ He _ Hs _ Hr Herr]).
  exists body, p', ms, ops, l, b. unfold parse, build_tree. rewrite E. split_and!; try done.
  by rewrite Herr, (proj1 denotes_errors _ _ _ Hd).
Qed.

(** ** A module *)

Lemma sample_offsets : Forall (fun t => 0 <= tok_offset t)%Z sample_module.
Proof. repeat (apply Forall_cons_2; [by vm_compute|]). constructor. Qed.

Lemma sample_bound : (checks_bound sample_module < MAX_ITERATIONS)%Z.
Proof. by vm_compute. Qed.

Lemma parse_lossless_witness :
  exists b, parse (H := basic_lowercase) sample_module = Some b /\
    log_tokens (inner b) = token_pair <$> sample_module /\
    concat (snd <$> log_tokens (inner b)) =
      chars "procedure a()" ++ [0xA%Z] ++ chars "b=;" ++ [0xA%Z] ++ chars "endprocedure".
Proof.
  destruct (@parse_lossless basic_lowercase sample_module sample_offsets sample_bound)
    as (b & l & E & _ & _ & Ht & Hx & _).
  exists b. split; [exact E|]. split; [exact Ht|]. rewrite Hx. vm_compute. reflexivity.
Defined.

Lemma parse_refines_events_witness :
  exists b, parse (H := basic_lowercase) sample_module = Some b /\
    length (b_errors b) = 1%nat.
Proof.
  destruct (@parse_refines_events basic_lowercase sample_module sample_offsets sample_bound)
    as (body & p' & ms & ops & l & b & E & _ & Eb & _ & _ & _ & Herr & _).
  exists b. split; [exact Eb|]. rewrite <- (length_fmap snd), Herr.
  assert (omap event_error (default [] (match parse_events (H := basic_lowercase) sample_module with
    Ok es _ => Some es | _ => None end)) = omap event_error body) as <-.
  { rewrite E. csimpl. rewrite omap_app. apply app_nil_r. }
  vm_compute. reflexivity.
Defined.

(** A stream with a node opened around an earlier one, an error in a gap and trivia at both ends:
    [ a+1 ] as a sum around the name. *)
Definition sample_stream : list Event :=
  [Start NK.Expr (Some 4%nat); EToken Ident; Finish; Placeholder;
   Start NK.BinaryExpr None; EToken Plus; Start NK.Error None;
   EError (Custom "expression expected" MissingToken); Finish; EToken Decimal; Finish].

Definition sample_tokens : list Token :=
  [MkToken Whitespace [0x20%Z] 0; MkToken Ident (chars "a") 1; MkToken Whitespace [0x20%Z] 2;
   MkToken Plus (chars "+") 3; MkToken Whitespace [0x20%Z] 4; MkToken Decimal (chars "1") 5;
   MkToken Whitespace [0x20%Z] 6].

Lemma sample_tokens_offsets : Forall (fun t => 0 <= tok_offset t)%Z sample_tokens.
Proof. repeat (apply Forall_cons_2; [by vm_compute|]). constructor. Qed.

Lemma sample_stream_forest : Forest sample_stream.
Proof.
  apply Forest_of_chain.
  apply (Chain_forward _ [EToken Ident] [Placeholder]); [by repeat constructor..|].
  apply (Chain_node _ [_; _; _; _; _]). constructor.
  apply (Forest_chain [_; _; _]); [apply (Chain_node _ [_])|]; by repeat constructor.
Qed.

Lemma sample_stream_kinds : token_kinds sample_stream = word_kinds sample_tokens.
Proof. reflexivity. Qed.

(** The calls: the node of the error stands before the gap that follows it. *)
Abbreviation sample_built :=
  (build_tree sample_tokens (Start NK.SourceFile None :: sample_stream ++ [Finish])).

Lemma sink_builds_what_events_denote_witness :
  exists b, sample_built = Some b /\
    skeleton (inner b) =
      [StartNode SK.SOURCE_FILE; StartNode SK.BINARY_EXPR; StartNode SK.EXPR;
       AddToken SK.IDENT []; FinishNode; AddToken SK.PLUS []; StartNode SK.ERROR; FinishNode;
       AddToken SK.DECIMAL []; FinishNode; FinishNode].
Proof.
  destruct (sink_builds_what_events_denote sample_tokens NK.SourceFile sample_stream
    sample_tokens_offsets sample_stream_forest sample_stream_kinds)
    as (ms & ops & l & b & _ & E & _).
  exists b. split; [exact E|].
  assert (skeleton (from_option inner [] sample_built) = skeleton (inner b)) as <-.
  { by rewrite E. }
  vm_compute. reflexivity.
Defined.

Lemma sample_built_some : exists b, sample_built = Some b /\ length (inner b) = 15%nat.
Proof. eexists. split; vm_compute; reflexivity. Qed.

(** The space after the root's start is the root's first child: call 2 opens the sum. *)
Lemma trivia_hang_between_words_witness :
  exists b, sample_built = Some b /\ length (inner b) = 15%nat /\
    forall i x y, (0 < i < 13)%nat -> inner b !! i = Some x -> inner b !! S i = Some y ->
      match x, y with
      | StartNode _, AddToken k _ | AddToken k _, FinishNode => SK.is_trivia k = false
      | _, _ => True
      end.
Proof.
  destruct sample_built_some as (b & E & Hlen). exists b. split; [exact E|]. split; [exact Hlen|].
  intros i x y Hi. apply (trivia_hang_between_words sample_tokens NK.SourceFile sample_stream b
    sample_tokens_offsets sample_stream_forest sample_stream_kinds E); lia.
Defined.

Lemma error_ranges_in_source_witness :
  exists b, sample_built = Some b /\
    (b_errors b).*2 = [Custom "expression expected" MissingToken] /\
    Forall (fun e => 0 <= range_start e.1 /\ range_end e.1 <= 7)%Z (b_errors b).
Proof.
  destruct sample_built_some as (b & E & _). exists b. split; [exact E|].
  destruct (error_ranges_in_source sample_tokens NK.SourceFile sample_stream b
    sample_tokens_offsets sample_stream_forest sample_stream_kinds E) as [Hr He].
  split; [exact He|]. eapply Forall_impl; [exact Hr|]. simpl. intros e (H1 & _ & H3).
  split; [exact H1|]. exact H3.
Defined.
