(* ===== verification/Utf8.v ===== *)
(** Utf8: the bytes of a text.

    The sources address a [&str] by byte offsets and slice it at the boundaries of characters.  A
    text is a list of characters here; this file gives its bytes, its boundaries and its slices the
    way the language defines them. *)
From stdpp Require Import prelude.
From S2P Require Import Prelude.

(** ** Bytes *)

Definition encode_utf8 (c : char) : list Z :=
  (if c <? 0x80 then [c]
   else if c <? 0x800 then [0xC0 + c / 64; 0x80 + c mod 64]
   else if c <? 0x10000 then [0xE0 + c / 4096; 0x80 + c / 64 mod 64; 0x80 + c mod 64]
   else [0xF0 + c / 262144; 0x80 + c / 4096 mod 64; 0x80 + c / 64 mod 64; 0x80 + c mod 64])%Z.

(** [str::as_bytes]. *)
Definition as_bytes (s : text) : list Z := s ≫= encode_utf8.

(** The range of [char]. *)
Definition is_scalar (c : char) : Prop := (0 <= c < 0x110000)%Z.

(** ** Slices *)

(** The characters before and after a byte offset; [None] inside a character or past the end. *)
Fixpoint split_at (s : text) (offset : Z) : option (text * text) :=
  if (offset =? 0)%Z then Some ([], s)
  else
    match s with
    | [] => None
    | c :: s =>
        if (offset <? len_utf8 c)%Z then None
        else '(before, after) ← split_at s (offset - len_utf8 c); Some (c :: before, after)
    end.

(** [&s[start..end]]; [None] is the panic of an offset that is no boundary or out of range. *)
Definition str_slice (s : text) (start end_ : Z) : option text :=
  if (end_ <? start)%Z then None
  else
    '(_, rest) ← split_at s start;
    '(slice, _) ← split_at rest (end_ - start);
    Some slice.

(** [str::floor_char_boundary]: the last boundary at or before an offset. *)
Fixpoint floor_char_boundary (s : text) (offset : Z) : Z :=
  match s with
  | [] => 0
  | c :: s =>
      if (offset <? len_utf8 c)%Z then 0
      else (len_utf8 c + floor_char_boundary s (offset - len_utf8 c))%Z
  end.

(** ** Lemmas *)

Lemma length_encode_utf8 c : Z.of_nat (length (encode_utf8 c)) = len_utf8 c.
Proof. unfold encode_utf8, len_utf8. repeat case_match; done. Qed.

Lemma as_bytes_cons c s : as_bytes (c :: s) = encode_utf8 c ++ as_bytes s.
Proof. done. Qed.

Lemma as_bytes_app s1 s2 : as_bytes (s1 ++ s2) = as_bytes s1 ++ as_bytes s2.
Proof. apply bind_app. Qed.

Lemma length_as_bytes s : Z.of_nat (length (as_bytes s)) = str_len s.
Proof.
  induction s as [|c s IH]; [done|].
  rewrite as_bytes_cons, length_app, Nat2Z.inj_add, length_encode_utf8, IH. done.
Qed.

(** A character outside of ASCII has no ASCII byte. *)
Lemma encode_utf8_ascii c :
  is_scalar c -> encode_utf8 c = [c] \/ Forall (fun b => 0x80 <= b)%Z (encode_utf8 c).
Proof.
  intros Hc. unfold is_scalar, encode_utf8 in *.
  destruct (Z.ltb_spec c 0x80); [by left|right].
  assert (forall d, 0 < d -> 0 <= c / d)%Z as Hdiv by (intros; apply Z.div_pos; lia).
  assert (forall x, 0 <= x mod 64)%Z as Hmod by (intros x; apply Z.mod_pos_bound; lia).
  pose proof (Hdiv 64%Z). pose proof (Hdiv 4096%Z). pose proof (Hdiv 262144%Z).
  pose proof (Hmod c). pose proof (Hmod (c / 64)%Z). pose proof (Hmod (c / 4096)%Z).
  repeat case_match; repeat constructor; lia.
Qed.

Lemma split_at_app a b : split_at (a ++ b) (str_len a) = Some (a, b).
Proof.
  induction a as [|c a IH]; [by destruct b|].
  simpl. pose proof (len_utf8_pos c). pose proof (str_len_nonneg a).
  rewrite (proj2 (Z.eqb_neq _ _)), (proj2 (Z.ltb_ge _ _)) by lia.
  replace (len_utf8 c + str_len a - len_utf8 c)%Z with (str_len a) by lia. by rewrite IH.
Qed.

Lemma split_at_Some s n a b : split_at s n = Some (a, b) -> s = a ++ b /\ str_len a = n.
Proof.
  revert n a. induction s as [|c s IH]; intros n a; simpl.
  - destruct (Z.eqb_spec n 0); [|done]. by intros [= <- <-].
  - destruct (Z.eqb_spec n 0); [by intros [= <- <-]|]. case_match; [done|].
    destruct (split_at s (n - len_utf8 c)) as [[a' b']|] eqn:E; simpl; [|done].
    intros [= <- <-]. apply IH in E as [-> E]. simpl. split; [done|lia].
Qed.

Lemma str_slice_app a b c : str_slice (a ++ b ++ c) (str_len a) (str_len a + str_len b) = Some b.
Proof.
  unfold str_slice. pose proof (str_len_nonneg b). rewrite (proj2 (Z.ltb_ge _ _)) by lia.
  rewrite split_at_app. simpl. replace (str_len a + str_len b - str_len a)%Z with (str_len b) by lia.
  by rewrite split_at_app.
Qed.

(** The floor at an offset: a boundary with no boundary between. *)
Lemma floor_char_boundary_spec s n :
  (0 <= n)%Z -> exists a b, s = a ++ b /\ floor_char_boundary s n = str_len a /\
    (str_len a <= n)%Z /\
    match b with c :: _ => (n < str_len a + len_utf8 c)%Z | [] => True end.
Proof.
  revert n. induction s as [|c s IH]; intros n Hn; simpl; [by exists [], []|].
  destruct (Z.ltb_spec n (len_utf8 c)); [by exists [], (c :: s)|].
  destruct (IH (n - len_utf8 c)%Z) as (a & b & -> & -> & ? & ?); [lia|].
  exists (c :: a), b. simpl. split_and!; [done|done|lia|]. destruct b; [done|lia].
Qed.

Lemma floor_char_boundary_app a b : floor_char_boundary (a ++ b) (str_len a) = str_len a.
Proof.
  induction a as [|c a IH]; simpl.
  - destruct b as [|c b]; [done|]. simpl. pose proof (len_utf8_pos c).
    by rewrite (proj2 (Z.ltb_lt _ _)) by lia.
  - pose proof (str_len_nonneg a). rewrite (proj2 (Z.ltb_ge _ _)) by lia.
    replace (len_utf8 c + str_len a - len_utf8 c)%Z with (str_len a) by lia. by rewrite IH.
Qed.
