(* ===== verification/LineIndex.v ===== *)
(** LineIndex: line starts of a text and the columns of a position (crates/line-index/src/lib.rs).

    A line ends at [\n], [\r\n] or a lone [\r].  The index scans the bytes once; its answers are
    compared with a reading of the text as a list of lines with their terminators. *)
From stdpp Require Import prelude.
From S2P Require Import Prelude Utf8.

Definition LF : Z := 0xA.
Definition CR : Z := 0xD.

(** [as u32]. *)
Definition as_u32 (n : Z) : Z := (n mod 2 ^ 32)%Z.

(** The result of an operation that may panic: [None] is the panic. *)
Abbreviation Panics A := (option A).

(** ** Data *)

Record LineCol : Set := MkLineCol { lc_line : Z; lc_col : Z }.

Record LineColRange : Set := MkLineColRange {
  start_line : Z; start_character : Z; end_line : Z; end_character : Z
}.

Record LineIndex : Set := MkLineIndex {
  newlines : list Z;
  lone_cr_lines : list Z;
  len : Z;
}.

(** ** The scan *)

(** Whether the byte at [idx] ends a line. *)
Definition breaks (bytes : list Z) (idx : nat) (byte : Z) : bool :=
  if (byte =? LF)%Z then true
  else if (byte =? CR)%Z then negb (bool_decide (bytes !! S idx = Some LF))
  else false.

(** [for (idx, &byte) in bytes.iter().enumerate()]. *)
Fixpoint new_loop (bytes : list Z) (idx : nat) (rest newlines lone : list Z) : list Z * list Z :=
  match rest with
  | [] => (newlines, lone)
  | byte :: rest =>
      if breaks bytes idx byte
      then new_loop bytes (S idx) rest
             (newlines ++ [as_u32 (Z.of_nat idx + 1)])
             (if (byte =? CR)%Z then lone ++ [as_u32 (Z.of_nat (length newlines))] else lone)
      else new_loop bytes (S idx) rest newlines lone
  end.

Definition LineIndex_new (text : text) : LineIndex :=
  let '(newlines, lone) := new_loop (as_bytes text) 0 (as_bytes text) [] [] in
  MkLineIndex newlines lone (str_len text).

(** ** Lines *)

Definition len_lines (ix : LineIndex) : Z := as_u32 (Z.of_nat (length (newlines ix)) + 1).

Definition lf_line (ix : LineIndex) (line : Z) : Z :=
  (line - as_u32 (Z.of_nat (partition_point (fun lone_cr => (lone_cr <? line)%Z) (lone_cr_lines ix))))%Z.

Definition try_line_start (ix : LineIndex) (line : Z) : option Z :=
  if (line =? 0)%Z then Some 0%Z else newlines ix !! Z.to_nat (line - 1).

(** The [expect] of a line that is not there. *)
Definition line_start (ix : LineIndex) (line : Z) : Panics Z := try_line_start ix line.

(** An index or a slice out of range of the text panics. *)
Definition is_cr_crlf_tail (ix : LineIndex) (text : text) (line : Z) : Panics bool :=
  match try_line_start ix line with
  | None => Some false
  | Some start =>
      if (start =? 0)%Z then Some false
      else
        byte ← as_bytes text !! Z.to_nat (start - 1);
        if (byte =? CR)%Z then
          '(_, rest) ← split_at text start;
          Some (bool_decide (take 2 rest = [CR; LF]))
        else Some false
  end.

Definition estimated_heap (ix : LineIndex) : Z :=
  (Z.of_nat (length (newlines ix)) * 4 + Z.of_nat (length (lone_cr_lines ix)) * 4)%Z.

(** The position of an offset; none behind the end of the text. *)
Definition try_line_col (ix : LineIndex) (offset : Z) : Panics (option LineCol) :=
  if (len ix <? offset)%Z then Some None
  else
    let line := as_u32 (Z.of_nat (partition_point (fun nl => (nl <=? offset)%Z) (newlines ix))) in
    start ← line_start ix line;
    if (offset <? start)%Z then None else Some (Some (MkLineCol line (offset - start))).

(** An offset behind the end panics. *)
Definition line_col (ix : LineIndex) (offset : Z) : Panics LineCol :=
  mjoin (try_line_col ix offset).

(** The sum of two [TextSize]s panics when it leaves [u32]. *)
Definition offset (ix : LineIndex) (lc : LineCol) : Panics (option Z) :=
  match try_line_start ix (lc_line lc) with
  | None => Some None
  | Some start =>
      if (start + lc_col lc <? 2 ^ 32)%Z then Some (Some (start + lc_col lc)%Z) else None
  end.

Definition line_range (ix : LineIndex) (line : Z) : Panics (option TextRange) :=
  match try_line_start ix line with
  | None => Some None
  | Some start =>
      end_ ← (if (line <? Z.of_nat (length (newlines ix)))%Z
              then nl ← newlines ix !! Z.to_nat line;
                   if (nl <? 1)%Z then None else Some (nl - 1)%Z
              else Some (len ix));
      range ← TextRange_new start end_;
      Some (Some range)
  end.

Definition line_len (ix : LineIndex) (line : Z) : Panics (option Z) :=
  range ← line_range ix line;
  Some (option_map (fun r => range_end r - range_start r)%Z range).

Definition text_len (ix : LineIndex) : Z := len ix.

(** The part of a line inside a text, cut back to boundaries of characters. *)
Definition safe_line_str (ix : LineIndex) (text : text) (line : Z) : Panics (option Prelude.text) :=
  range ← line_range ix line;
  match range with
  | None => Some None
  | Some r =>
      let start := floor_char_boundary text (Z.min (range_start r) (str_len text)) in
      let end_ := floor_char_boundary text (Z.min (range_end r) (str_len text)) in
      slice ← str_slice text start end_; Some (Some slice)
  end.

(** [(0..self.len_lines()).filter_map(..)], collected. *)
Definition lines (ix : LineIndex) : Panics (list (Z * TextRange)) :=
  let numbers := Z.of_nat <$> seq 0 (Z.to_nat (len_lines ix)) in
  ranges ← mapM (line_range ix) numbers;
  Some (omap (fun '(line, range) => option_map (pair line) range) (zip numbers ranges)).

(** ** Columns *)

(** [encode_utf16().count()]. *)
Definition utf16_count (s : text) : Z := foldr (fun c n => len_utf16 c + n)%Z 0%Z s.

Definition utf16_len (text : text) (range : TextRange) : Panics Z :=
  let start := floor_char_boundary text (range_start range) in
  let end_ := floor_char_boundary text (Z.min (range_end range) (str_len text)) in
  slice ← str_slice text start end_; Some (as_u32 (utf16_count slice)).

Definition utf16_col (ix : LineIndex) (text : text) (line byte_col : Z) : Panics Z :=
  range ← line_range ix line;
  match range with
  | None => Some 0%Z
  | Some r =>
      let col_end := Z.min (Z.min (range_start r + byte_col) (str_len text)) (range_end r) in
      slice ← str_slice text (floor_char_boundary text (range_start r)) (floor_char_boundary text col_end);
      Some (as_u32 (utf16_count slice))
  end.

Definition utf16_line_col_range (ix : LineIndex) (text : text) (range : TextRange)
    : Panics (option LineColRange) :=
  start ← try_line_col ix (range_start range);
  match start with
  | None => Some None
  | Some start =>
      end_ ← try_line_col ix (range_end range);
      match end_ with
      | None => Some None
      | Some end_ =>
          sc ← utf16_col ix text (lc_line start) (lc_col start);
          ec ← utf16_col ix text (lc_line end_) (lc_col end_);
          Some (Some (MkLineColRange (lc_line start) sc (lc_line end_) ec))
      end
  end.

(** The loop over a line's characters; the counters are at most the bytes of the text. *)
Fixpoint utf16_col_loop (s : text) (utf16_col utf16_offset byte_offset : Z) : option Z :=
  match s with
  | [] => if (utf16_col <=? utf16_offset)%Z then Some (as_u32 byte_offset) else None
  | ch :: s =>
      if (utf16_col <=? utf16_offset)%Z then Some (as_u32 byte_offset)
      else utf16_col_loop s utf16_col (utf16_offset + len_utf16 ch) (byte_offset + len_utf8 ch)
  end.

Definition utf16_col_to_byte_col (ix : LineIndex) (text : text) (line utf16_col : Z)
    : Panics (option Z) :=
  line_text ← safe_line_str ix text line;
  Some (match line_text with Some s => utf16_col_loop s utf16_col 0 0 | None => None end).

(** The end of the columns is the text's end here, not the line's. *)
Definition byte_col_to_char_col (ix : LineIndex) (text : text) (line byte_col : Z) : Panics Z :=
  range ← line_range ix line;
  match range with
  | None => Some 0%Z
  | Some r =>
      let col_end := Z.min (range_start r + byte_col) (str_len text) in
      slice ← str_slice text (floor_char_boundary text (range_start r)) (floor_char_boundary text col_end);
      Some (as_u32 (Z.of_nat (length slice)))
  end.

Fixpoint char_col_loop (s : text) (i : nat) (char_col byte_col : Z) : Z :=
  match s with
  | [] => byte_col
  | ch :: s =>
      if (as_u32 (Z.of_nat i) =? char_col)%Z then byte_col
      else char_col_loop s (S i) char_col (byte_col + as_u32 (len_utf8 ch))
  end.

Definition char_col_to_byte_col (ix : LineIndex) (text : text) (line char_col : Z)
    : Panics (option Z) :=
  line_text ← safe_line_str ix text line;
  Some (option_map (fun s => char_col_loop s 0 char_col 0) line_text).

Definition line_char_len (ix : LineIndex) (text : text) (line : Z) : Panics (option Z) :=
  line_text ← safe_line_str ix text line;
  Some (option_map (fun s => as_u32 (Z.of_nat (length s))) line_text).

(** ** Splitting *)

Definition is_break_char (c : char) : bool := ((c =? LF) || (c =? CR))%Z.

(** One call of the iterator: the next line and what is left. *)
Definition split_next (rest : text) : option (text * text) :=
  match rest with
  | [] => None
  | _ =>
      match list_find (fun c => is_break_char c = true) rest with
      | Some (at_, _) =>
          let terminator := if decide (take 2 (drop at_ rest) = [CR; LF]) then 2%nat else 1%nat in
          Some (take at_ rest, drop (at_ + terminator) rest)
      | None => Some (rest, [])
      end
  end.

Fixpoint split_lines_fuel (fuel : nat) (rest : text) : option (list text) :=
  match fuel with
  | O => None
  | S fuel =>
      match split_next rest with
      | None => Some []
      | Some (line, rest) => (line ::.) <$> split_lines_fuel fuel rest
      end
  end.

(** The lines of a text, collected; every call but the last consumes a character. *)
Definition split_lines (text : text) : option (list Prelude.text) :=
  split_lines_fuel (S (length text)) text.

(** ** The reading as lines *)

(** Every line with its terminator; the last one has none. *)
Fixpoint lines_of (s : text) : list (text * text) :=
  match s with
  | [] => [([], [])]
  | c :: s =>
      if (c =? LF)%Z then ([], [LF]) :: lines_of s
      else if (c =? CR)%Z then
        match s with
        | d :: s' => if (d =? LF)%Z then ([], [CR; LF]) :: lines_of s' else ([], [CR]) :: lines_of s
        | [] => ([], [CR]) :: lines_of s
        end
      else
        match lines_of s with
        | (line, terminator) :: ls => (c :: line, terminator) :: ls
        | [] => []
        end
  end.

(** Where each line starts, from [from] on. *)
Fixpoint line_starts (from : Z) (ls : list (text * text)) : list Z :=
  match ls with
  | [] => []
  | (line, terminator) :: ls => from :: line_starts (from + str_len line + str_len terminator) ls
  end.

(** The text that lines make up. *)
Definition text_of (ls : list (text * text)) : text := concat ((fun '(l, t) => l ++ t) <$> ls).

(** The lines whose terminator is a lone [CR]. *)
Fixpoint lone_lines (i : Z) (ls : list (text * text)) : list Z :=
  match ls with
  | [] => []
  | (_, t) :: ls => (if decide (t = [CR]) then [i] else []) ++ lone_lines (i + 1) ls
  end.

(** What splits into lines: contents without breaks, terminators between them, a [CR] before an
    [LF] never alone. *)
Fixpoint well_split (ls : list (text * text)) : Prop :=
  match ls with
  | [] => False
  | (l, t) :: ls =>
      Forall (fun c => is_break_char c = false) l /\
      match ls with
      | [] => t = []
      | _ =>
          (t = [LF] \/ t = [CR; LF] \/ t = [CR] /\ head (text_of ls) <> Some LF) /\ well_split ls
      end
  end.

(** ** Lines and texts *)

(** Induction over a text by its first line break or character. *)
Lemma lines_ind (P : text -> Prop) :
  P [] -> (forall s, P s -> P (LF :: s)) -> (forall s, P s -> P (CR :: LF :: s)) ->
  (forall s, head s <> Some LF -> P s -> P (CR :: s)) ->
  (forall c s, is_break_char c = false -> P s -> P (c :: s)) -> forall s, P s.
Proof.
  intros H0 Hlf Hcrlf Hcr Hc s.
  remember (length s) as n eqn:Hn. revert s Hn.
  induction (lt_wf n) as [n _ IH]. intros s ->.
  destruct s as [|c s]; [done|].
  destruct (decide (c = LF)) as [->|Hlfn]; [apply Hlf, (IH (length s)); simpl; [lia|done]|].
  destruct (decide (c = CR)) as [->|Hcrn].
  - destruct s as [|d s]; [by apply Hcr|].
    destruct (decide (d = LF)) as [->|Hd].
    + apply Hcrlf, (IH (length s)); simpl; [lia|done].
    + apply Hcr; [simpl; congruence|]. apply (IH (length (d :: s))); simpl; [lia|done].
  - apply Hc; [|apply (IH (length s)); simpl; [lia|done]].
    unfold is_break_char. by rewrite (proj2 (Z.eqb_neq _ _) Hlfn), (proj2 (Z.eqb_neq _ _) Hcrn).
Qed.

Lemma lines_of_lf s : lines_of (LF :: s) = ([], [LF]) :: lines_of s.
Proof. done. Qed.

Lemma lines_of_crlf s : lines_of (CR :: LF :: s) = ([], [CR; LF]) :: lines_of s.
Proof. done. Qed.

Lemma lines_of_cr s : head s <> Some LF -> lines_of (CR :: s) = ([], [CR]) :: lines_of s.
Proof.
  destruct s as [|d s]; [done|]. intros Hd. simpl.
  rewrite (proj2 (Z.eqb_neq d LF)) by (simpl in Hd; congruence). done.
Qed.

Lemma lines_of_char c s l t ls :
  is_break_char c = false -> lines_of s = (l, t) :: ls -> lines_of (c :: s) = (c :: l, t) :: ls.
Proof.
  intros [H1 H2]%orb_false_iff E. cbn [lines_of]. by rewrite H1, H2, E.
Qed.

Lemma lines_of_cons s : exists l t ls, lines_of s = (l, t) :: ls.
Proof.
  induction s as [|s IH|s IH|s Hs IH|c s Hc (l & t & ls & IH)] using lines_ind;
    [by do 3 eexists|by do 3 eexists|by do 3 eexists| |].
  - rewrite lines_of_cr by done. by do 3 eexists.
  - rewrite (lines_of_char _ _ _ _ _ Hc IH). by do 3 eexists.
Qed.

Lemma text_of_lines s : text_of (lines_of s) = s.
Proof.
  unfold text_of. induction s as [|s IH|s IH|s Hs IH|c s Hc IH] using lines_ind; [done|..].
  - rewrite lines_of_lf. csimpl. by rewrite IH.
  - rewrite lines_of_crlf. csimpl. by rewrite IH.
  - rewrite lines_of_cr by done. csimpl. by rewrite IH.
  - destruct (lines_of_cons s) as (l & t & ls & E). rewrite E in IH.
    rewrite (lines_of_char _ _ _ _ _ Hc E). csimpl in *. by rewrite IH.
Qed.

Lemma well_split_lines s : well_split (lines_of s).
Proof.
  induction s as [|s IH|s IH|s Hs IH|c s Hc IH] using lines_ind.
  - by repeat constructor.
  - rewrite lines_of_lf. destruct (lines_of_cons s) as (l & t & ls & E). rewrite E in *.
    split; [constructor|]. auto.
  - rewrite lines_of_crlf. destruct (lines_of_cons s) as (l & t & ls & E). rewrite E in *.
    split; [constructor|]. auto.
  - rewrite lines_of_cr by done. rewrite <- (text_of_lines s) in Hs.
    destruct (lines_of_cons s) as (l & t & ls & E). rewrite E in *. split; [constructor|]. auto.
  - destruct (lines_of_cons s) as (l & t & ls & E). rewrite E in IH.
    rewrite (lines_of_char _ _ _ _ _ Hc E). destruct IH as [Hl IH]. split; [by constructor|done].
Qed.

Lemma length_line_starts from ls : length (line_starts from ls) = length ls.
Proof. revert from. induction ls as [|[l t] ls IH]; intros from; simpl; [done|]. by rewrite IH. Qed.

Lemma line_starts_lookup from ls i :
  (i < length ls)%nat -> line_starts from ls !! i = Some (from + str_len (text_of (take i ls)))%Z.
Proof.
  revert from i. induction ls as [|[l t] ls IH]; intros from i Hi; simpl in Hi; [lia|].
  destruct i as [|i]; simpl; [by rewrite Z.add_0_r|].
  rewrite IH by lia. unfold text_of. csimpl. rewrite !str_len_app. f_equal. lia.
Qed.

(** ** The scan finds the lines *)

Lemma as_u32_small n : (0 <= n < 2 ^ 32)%Z -> as_u32 n = n.
Proof. apply Z.mod_small. Qed.

Lemma breaks_high bytes idx b : (0x80 <= b)%Z -> breaks bytes idx b = false.
Proof.
  intros Hb. unfold breaks, LF, CR.
  by rewrite (proj2 (Z.eqb_neq b _)), (proj2 (Z.eqb_neq b _)) by lia.
Qed.

(** The bytes of a character that breaks no line are passed over. *)
Lemma new_loop_char c bytes idx rest nls lone :
  is_scalar c -> is_break_char c = false ->
  new_loop bytes idx (encode_utf8 c ++ rest) nls lone =
  new_loop bytes (idx + length (encode_utf8 c)) rest nls lone.
Proof.
  intros Hs [H1 H2]%orb_false_iff.
  assert (Forall (fun b => forall i, breaks bytes i b = false) (encode_utf8 c)) as Hb.
  { destruct (encode_utf8_ascii c Hs) as [->|Hhigh].
    - constructor; [|constructor]. intros i. unfold breaks. by rewrite H1, H2.
    - eapply Forall_impl; [exact Hhigh|]. intros b Hb i. by apply breaks_high. }
  revert idx. induction Hb as [|b bs Hb _ IH]; intros idx; simpl; [by rewrite Nat.add_0_r|].
  by rewrite Hb, IH, Nat.add_succ_r.
Qed.

Lemma head_as_bytes s : Forall is_scalar s -> head s <> Some LF -> head (as_bytes s) <> Some LF.
Proof.
  destruct s as [|c s]; [done|]. intros Hs Hc. apply Forall_cons in Hs as [Hs _].
  rewrite as_bytes_cons. destruct (encode_utf8_ascii c Hs) as [->|Hhigh]; [done|].
  pose proof (length_encode_utf8 c) as Hl. pose proof (len_utf8_pos c).
  destruct (encode_utf8 c) as [|b bs]; [simpl in Hl; lia|].
  apply Forall_cons in Hhigh as [Hb _]. simpl. unfold LF. intros [= ->]. lia.
Qed.

Lemma lookup_next {A} (pre : list A) x rest :
  (pre ++ x :: rest) !! S (length pre) = head rest.
Proof.
  rewrite lookup_app_r by lia. replace (S (length pre) - length pre)%nat with 1%nat by lia.
  by destruct rest.
Qed.

(** The answer for the lines of [s], found from the byte [from] and the line [i] on. *)
Definition found_lines (from i : Z) (s : text) (nls lone : list Z) : list Z * list Z :=
  (nls ++ tail (line_starts from (lines_of s)), lone ++ lone_lines i (lines_of s)).

(** A terminator adds its line and goes on behind it. *)
Lemma found_lines_break s t s' from i nls lone :
  lines_of s = ([], t) :: lines_of s' ->
  found_lines from i s nls lone =
  found_lines (from + str_len t) (i + 1) s' (nls ++ [from + str_len t]%Z)
    (if decide (t = [CR]) then lone ++ [i] else lone).
Proof.
  intros E. unfold found_lines. rewrite E. cbn [line_starts tail lone_lines].
  destruct (lines_of_cons s') as (l & t' & ls & ->). cbn [line_starts tail].
  rewrite <- !app_assoc. simpl str_len. rewrite Z.add_0_r. f_equal.
  case_decide; by rewrite <- ?app_assoc.
Qed.

(** Equations between positions around a terminator. *)
Ltac terminator_lia :=
  change (str_len [LF]) with 1%Z; change (str_len [CR]) with 1%Z;
  change (str_len [CR; LF]) with 2%Z; repeat (f_equal; try lia); lia.

(** The bytes before [as_bytes s] have been read; the scan of the rest finds its lines. *)
Lemma new_loop_lines s pre nls lone :
  Forall is_scalar s -> (Z.of_nat (length (pre ++ as_bytes s)) < 2 ^ 32)%Z ->
  (length nls <= length pre)%nat ->
  new_loop (pre ++ as_bytes s) (length pre) (as_bytes s) nls lone =
  found_lines (Z.of_nat (length pre)) (Z.of_nat (length nls)) s nls lone.
Proof.
  revert pre nls lone.
  induction s as [|s IH|s IH|s Hhd IH|c s Hc IH] using lines_ind; intros pre nls lone Hs Hb Hn.
  - unfold found_lines. simpl. by rewrite !app_nil_r.
  - apply Forall_cons in Hs as [_ Hs]. rewrite (found_lines_break _ [LF] s) by done.
    specialize (IH (pre ++ [LF]) (nls ++ [Z.of_nat (length pre) + 1]%Z) lone Hs).
    change (as_bytes (LF :: s)) with ([LF] ++ as_bytes s) in *.
    rewrite <- app_assoc, !length_app in IH. rewrite !length_app in Hb. cbn [length] in *.
    cbn [new_loop app]. change (breaks _ _ LF) with true. change (LF =? CR)%Z with false. cbn iota.
    rewrite as_u32_small by lia. rewrite !Nat.add_1_r in IH. cbn [app] in IH.
    rewrite IH by lia. terminator_lia.
  - apply Forall_cons in Hs as [_ Hs]. apply Forall_cons in Hs as [_ Hs].
    rewrite (found_lines_break _ [CR; LF] s) by done.
    specialize (IH (pre ++ [CR; LF]) (nls ++ [Z.of_nat (length pre) + 2]%Z) lone Hs).
    change (as_bytes (CR :: LF :: s)) with ([CR; LF] ++ as_bytes s) in *.
    rewrite <- app_assoc, !length_app in IH. rewrite !length_app in Hb. cbn [length] in *.
    cbn [new_loop app] in *.
    assert (breaks (pre ++ CR :: LF :: as_bytes s) (length pre) CR = false) as ->.
    { unfold breaks. simpl (CR =? LF)%Z. simpl (CR =? CR)%Z. cbn iota. by rewrite lookup_next. }
    change (breaks _ _ LF) with true. change (LF =? CR)%Z with false. cbn iota.
    replace (Z.of_nat (S (length pre)) + 1)%Z with (Z.of_nat (length pre) + 2)%Z by lia.
    rewrite as_u32_small by lia. rewrite !Nat.add_succ_r, !Nat.add_0_r in IH.
    rewrite IH by lia. terminator_lia.
  - apply Forall_cons in Hs as [_ Hs]. rewrite (found_lines_break _ [CR] s) by by apply lines_of_cr.
    specialize (IH (pre ++ [CR]) (nls ++ [Z.of_nat (length pre) + 1]%Z)
      (lone ++ [Z.of_nat (length nls)]) Hs).
    change (as_bytes (CR :: s)) with ([CR] ++ as_bytes s) in *.
    rewrite <- app_assoc, !length_app in IH. rewrite !length_app in Hb. cbn [length] in *.
    cbn [new_loop app] in *.
    assert (breaks (pre ++ CR :: as_bytes s) (length pre) CR = true) as ->.
    { unfold breaks. simpl (CR =? LF)%Z. simpl (CR =? CR)%Z. cbn iota. rewrite lookup_next.
      by rewrite bool_decide_false by by apply head_as_bytes. }
    change (CR =? CR)%Z with true. cbn iota. rewrite !as_u32_small by lia.
    rewrite !Nat.add_1_r in IH. rewrite IH by lia. terminator_lia.
  - apply Forall_cons in Hs as [Hscalar Hs].
    specialize (IH (pre ++ encode_utf8 c) nls lone Hs). rewrite as_bytes_cons in *.
    rewrite <- app_assoc, !length_app in IH. rewrite !length_app in Hb.
    rewrite new_loop_char, IH by (done || lia). unfold found_lines.
    destruct (lines_of_cons s) as (l & t & ls & E). rewrite (lines_of_char _ _ _ _ _ Hc E), E.
    rewrite Nat2Z.inj_add, length_encode_utf8. cbn [line_starts tail lone_lines].
    change (str_len (c :: l)) with (len_utf8 c + str_len l)%Z. by rewrite !Z.add_assoc.
Qed.

(** The index of a text of valid characters that fits [u32] holds its lines. *)
Lemma index_fields s :
  Forall is_scalar s -> (str_len s < 2 ^ 32)%Z ->
  newlines (LineIndex_new s) = tail (line_starts 0 (lines_of s)) /\
  lone_cr_lines (LineIndex_new s) = lone_lines 0 (lines_of s) /\
  len (LineIndex_new s) = str_len s.
Proof.
  intros Hs Hb. unfold LineIndex_new.
  pose proof (new_loop_lines s [] [] [] Hs) as H. simpl in H. rewrite H; [done| |done].
  by rewrite length_as_bytes.
Qed.

(** ** Positions in the lines *)

(** The text before line [i]. *)
Definition text_before (s : text) (i : nat) : text := text_of (take i (lines_of s)).

(** The part of a line that the index counts to it: all but the last byte of the terminator. *)
Definition shown (l t : text) : text := if decide (t = [CR; LF]) then l ++ [CR] else l.

Lemma text_of_app ls1 ls2 : text_of (ls1 ++ ls2) = text_of ls1 ++ text_of ls2.
Proof. unfold text_of. by rewrite fmap_app, concat_app. Qed.

Lemma split_at_line s i l t :
  lines_of s !! i = Some (l, t) ->
  s = text_before s i ++ l ++ t ++ text_of (drop (S i) (lines_of s)).
Proof.
  intros Hi. rewrite <- (text_of_lines s) at 1. rewrite <- (take_drop_middle _ _ _ Hi) at 1.
  rewrite text_of_app. f_equal. unfold text_of. csimpl. by rewrite <- app_assoc.
Qed.

Lemma text_before_S s i l t :
  lines_of s !! i = Some (l, t) -> text_before s (S i) = text_before s i ++ l ++ t.
Proof.
  intros Hi. unfold text_before. rewrite (take_S_r _ _ _ Hi), text_of_app.
  unfold text_of at 2. csimpl. by rewrite app_nil_r.
Qed.

(** The terminator at a line: none exactly at the last one. *)
Lemma well_split_lookup ls i l t :
  well_split ls -> ls !! i = Some (l, t) ->
  Forall (fun c => is_break_char c = false) l /\
  if decide (S i = length ls) then t = [] else t = [LF] \/ t = [CR; LF] \/ t = [CR].
Proof.
  revert i. induction ls as [|[l' t'] ls IH]; intros i Hw Hi; [done|].
  destruct Hw as [Hl Hw]. destruct i as [|i]; simpl in Hi.
  - simplify_eq. split; [done|]. destruct ls as [|x ls]; [by rewrite decide_True|].
    rewrite decide_False by (cbn [length]; lia). destruct Hw as [Hw _]. tauto.
  - destruct ls as [|x ls]; [done|]. destruct Hw as [_ Hw].
    destruct (IH i Hw Hi) as [? Ht]. split; [done|].
    cbn [length] in *. case_decide; case_decide; done || lia.
Qed.

Lemma line_terminator s i l t :
  lines_of s !! i = Some (l, t) ->
  Forall (fun c => is_break_char c = false) l /\
  if decide (S i = length (lines_of s)) then t = [] else t = [LF] \/ t = [CR; LF] \/ t = [CR].
Proof. apply well_split_lookup, well_split_lines. Qed.

Lemma str_len_terminator t :
  t = [LF] \/ t = [CR; LF] \/ t = [CR] -> (1 <= str_len t)%Z.
Proof. by intros [->|[->| ->]]. Qed.

Lemma str_len_shown l t :
  t = [LF] \/ t = [CR; LF] \/ t = [CR] ->
  str_len (shown l t) = (str_len l + Z.max 0 (str_len t - 1))%Z.
Proof.
  unfold shown. intros [->|[->| ->]].
  - rewrite decide_False by done. change (str_len [LF]) with 1%Z. lia.
  - rewrite decide_True by done. rewrite str_len_app. done.
  - rewrite decide_False by done. change (str_len [CR]) with 1%Z. lia.
Qed.

Section index.
Context (s : text).
Hypothesis (Hs : Forall is_scalar s) (Hb : (str_len s < 2 ^ 32)%Z).

Abbreviation ix := (LineIndex_new s).

Lemma lookup_newlines i : newlines ix !! i = line_starts 0 (lines_of s) !! S i.
Proof.
  rewrite (proj1 (index_fields s Hs Hb)). by destruct (line_starts 0 (lines_of s)).
Qed.

Lemma length_newlines : S (length (newlines ix)) = length (lines_of s).
Proof.
  rewrite (proj1 (index_fields s Hs Hb)), <- (length_line_starts 0 (lines_of s)).
  destruct (lines_of_cons s) as (l & t & ls & ->). done.
Qed.

Lemma start_of_line i :
  (i < length (lines_of s))%nat ->
  line_starts 0 (lines_of s) !! i = Some (str_len (text_before s i)).
Proof. intros Hi. by rewrite line_starts_lookup. Qed.

Lemma try_line_start_spec i :
  try_line_start ix (Z.of_nat i) =
  if decide (i < length (lines_of s))%nat then Some (str_len (text_before s i)) else None.
Proof.
  unfold try_line_start. destruct (Z.eqb_spec (Z.of_nat i) 0) as [E|E].
  - replace i with 0%nat by lia. rewrite decide_True; [done|]. pose proof length_newlines. lia.
  - rewrite lookup_newlines. replace (S (Z.to_nat (Z.of_nat i - 1))) with i by lia.
    case_decide as Hi; [by apply start_of_line|].
    apply lookup_ge_None_2. rewrite length_line_starts. lia.
Qed.

Lemma split_at_shown i l t :
  lines_of s !! i = Some (l, t) -> exists rest, s = text_before s i ++ shown l t ++ rest.
Proof.
  intros Hi. pose proof (split_at_line s i l t Hi) as E. unfold shown. case_decide as Ht.
  - rewrite Ht in E. exists (LF :: text_of (drop (S i) (lines_of s))).
    rewrite E at 1. by rewrite <- (app_assoc l).
  - by eexists.
Qed.

Lemma line_range_spec i l t :
  lines_of s !! i = Some (l, t) ->
  line_range ix (Z.of_nat i) = Some (Some (MkRange (str_len (text_before s i))
    (str_len (text_before s i) + str_len (shown l t)))).
Proof.
  intros Hi. pose proof (lookup_lt_Some _ _ _ Hi) as Hlt. pose proof length_newlines as Hlen.
  unfold line_range. rewrite try_line_start_spec, decide_True by done.
  destruct (line_terminator s i l t Hi) as [_ Ht].
  pose proof (str_len_nonneg (text_before s i)). pose proof (str_len_nonneg l).
  assert ((if (Z.of_nat i <? Z.of_nat (length (newlines ix)))%Z
    then nl ← newlines ix !! Z.to_nat (Z.of_nat i); if (nl <? 1)%Z then None else Some (nl - 1)%Z
    else Some (len ix)) = Some (str_len (text_before s i) + str_len (shown l t))%Z) as ->.
  { destruct (decide (S i = length (lines_of s))) as [Hlast|Hmore].
    - rewrite (proj2 (Z.ltb_ge _ _)) by lia. destruct (index_fields s Hs Hb) as (_ & _ & ->).
      subst t. rewrite (split_at_line s i l [] Hi) at 1. rewrite drop_ge by lia.
      unfold shown. rewrite decide_False by done. unfold text_of. simpl.
      by rewrite !str_len_app, Z.add_0_r.
    - rewrite (proj2 (Z.ltb_lt _ _)) by lia. rewrite Nat2Z.id, lookup_newlines, start_of_line by lia.
      rewrite (text_before_S s i l t Hi), !str_len_app. simpl.
      rewrite (str_len_shown l t) by done. pose proof (str_len_terminator t Ht).
      rewrite (proj2 (Z.ltb_ge _ _)) by lia. f_equal. lia. }
  simpl. unfold TextRange_new. pose proof (str_len_nonneg (shown l t)).
  by rewrite (proj2 (Z.leb_le _ _)) by lia.
Qed.

Lemma safe_line_str_spec i l t :
  lines_of s !! i = Some (l, t) -> safe_line_str ix s (Z.of_nat i) = Some (Some (shown l t)).
Proof.
  intros Hi. unfold safe_line_str. rewrite (line_range_spec i l t Hi). simpl.
  destruct (split_at_shown i l t Hi) as [rest E].
  assert (str_len s = str_len (text_before s i) + (str_len (shown l t) + str_len rest))%Z as Hlen.
  { rewrite E at 1. by rewrite !str_len_app. }
  pose proof (str_len_nonneg (shown l t)). pose proof (str_len_nonneg rest).
  pose proof (str_len_nonneg (text_before s i)).
  rewrite !Z.min_l by lia.
  assert (floor_char_boundary s (str_len (text_before s i)) = str_len (text_before s i)) as ->.
  { rewrite E at 1. apply floor_char_boundary_app. }
  assert (floor_char_boundary s (str_len (text_before s i) + str_len (shown l t)) =
    str_len (text_before s i) + str_len (shown l t))%Z as ->.
  { rewrite <- str_len_app. rewrite E at 1. rewrite app_assoc. apply floor_char_boundary_app. }
  rewrite E at 1. by rewrite str_slice_app.
Qed.

Lemma no_such_line i :
  (length (lines_of s) <= i)%nat -> line_range ix (Z.of_nat i) = Some None.
Proof.
  intros Hi. unfold line_range. by rewrite try_line_start_spec, decide_False by lia.
Qed.
End index.

(** C34. The index of a text holds its lines: reading the text as contents and terminators ([LF],
    [CR LF] or a lone [CR] behind every line but the last), line [i] starts behind the lines before
    it, its range ends one byte before the next line, and its text is its content, with the [CR]
    of a [CR LF] kept; other lines there are none, and no operation panics. *)
Theorem index_holds_lines s i :
  Forall is_scalar s -> (str_len s < 2 ^ 32)%Z ->
  s = text_of (lines_of s) /\ well_split (lines_of s) /\
  match lines_of s !! i with
  | Some (l, t) =>
      try_line_start (LineIndex_new s) (Z.of_nat i) = Some (str_len (text_before s i)) /\
      line_range (LineIndex_new s) (Z.of_nat i) =
        Some (Some (MkRange (str_len (text_before s i))
          (str_len (text_before s i) + str_len l + Z.max 0 (str_len t - 1)))) /\
      safe_line_str (LineIndex_new s) s (Z.of_nat i) =
        Some (Some (l ++ if decide (t = [CR; LF]) then [CR] else []))
  | None =>
      try_line_start (LineIndex_new s) (Z.of_nat i) = None /\
      line_range (LineIndex_new s) (Z.of_nat i) = Some None /\
      safe_line_str (LineIndex_new s) s (Z.of_nat i) = Some None
  end.
Proof.
  intros Hs Hb. split; [by rewrite text_of_lines|]. split; [apply well_split_lines|].
  destruct (lines_of s !! i) as [[l t]|] eqn:Hi.
  - pose proof (lookup_lt_Some _ _ _ Hi). rewrite try_line_start_spec, decide_True by done.
    rewrite (line_range_spec s Hs Hb i l t Hi), (safe_line_str_spec s Hs Hb i l t Hi).
    destruct (line_terminator s i l t Hi) as [_ Ht]. split; [done|].
    assert (str_len (shown l t) = str_len l + Z.max 0 (str_len t - 1))%Z as ->.
    { case_decide as Hlast; [|by apply str_len_shown].
      subst t. unfold shown. rewrite decide_False by done. simpl. lia. }
    rewrite Z.add_assoc. split; [done|]. unfold shown. repeat case_decide; by rewrite ?app_nil_r.
  - apply lookup_ge_None in Hi. rewrite try_line_start_spec, decide_False by (done || lia).
    unfold safe_line_str. by rewrite (no_such_line s Hs Hb i Hi).
Qed.

(** ** Positions *)

Lemma length_lines_of s : (Z.of_nat (length (lines_of s)) <= str_len s + 1)%Z.
Proof.
  induction s as [|s IH|s IH|s Hs IH|c s Hc IH] using lines_ind; [done|..].
  - rewrite lines_of_lf. simpl. change (len_utf8 LF) with 1%Z. lia.
  - rewrite lines_of_crlf. simpl. change (len_utf8 LF) with 1%Z. change (len_utf8 CR) with 1%Z. lia.
  - rewrite lines_of_cr by done. simpl. change (len_utf8 CR) with 1%Z. lia.
  - destruct (lines_of_cons s) as (l & t & ls & E). rewrite (lines_of_char _ _ _ _ _ Hc E).
    rewrite E in IH. simpl in *. pose proof (len_utf8_pos c). lia.
Qed.

Lemma text_before_mono s i j :
  (i <= j)%nat -> (j < length (lines_of s))%nat ->
  (str_len (text_before s i) + Z.of_nat (j - i) <= str_len (text_before s j))%Z.
Proof.
  intros Hij. induction Hij as [|j Hij IH]; intros Hj; [lia|].
  destruct (lookup_lt_is_Some_2 (lines_of s) j) as [[l t] Hl]; [lia|].
  rewrite (text_before_S s j l t Hl), !str_len_app.
  destruct (line_terminator s j l t Hl) as [_ Ht]. rewrite decide_False in Ht by lia.
  pose proof (str_len_terminator t Ht). pose proof (str_len_nonneg l).
  specialize (IH ltac:(lia)). lia.
Qed.

(** An offset belongs to the last line that starts at or before it. *)
Definition in_line (s : text) (i : nat) (o : Z) : Prop :=
  (i < length (lines_of s))%nat /\ (str_len (text_before s i) <= o)%Z /\
  ((S i < length (lines_of s))%nat -> (o < str_len (text_before s (S i)))%Z).

Lemma in_line_exists s o : (0 <= o)%Z -> exists i, in_line s i o.
Proof.
  intros Ho.
  assert (forall n, (n < length (lines_of s))%nat -> (str_len (text_before s n) <= o)%Z ->
    exists i, in_line s i o) as H.
  { intros n. remember (length (lines_of s) - n)%nat as r eqn:Hr. revert n Hr.
    induction r as [|r IH]; intros n Hr Hn Hle; [lia|].
    destruct (decide (S n < length (lines_of s))%nat) as [Hm|Hm].
    - destruct (Z.le_gt_cases (str_len (text_before s (S n))) o) as [Hle'|Hgt].
      + apply (IH (S n)); lia || done.
      + by exists n.
    - exists n. by split_and!. }
  apply (H 0%nat).
  - destruct (lines_of_cons s) as (l & t & ls & ->). simpl. lia.
  - done.
Qed.

(** The bisection over the line starts finds the line of an offset. *)
Lemma partition_point_line s i o :
  Forall is_scalar s -> (str_len s < 2 ^ 32)%Z -> in_line s i o ->
  partition_point (fun nl => (nl <=? o)%Z) (newlines (LineIndex_new s)) = i.
Proof.
  intros Hs Hb (Hi & Hle & Hgt). pose proof (length_newlines s Hs Hb) as Hlen.
  rewrite <- (take_drop i (newlines (LineIndex_new s))), partition_point_spec.
  - rewrite length_take_le; lia.
  - apply Forall_lookup_2. intros j nl [Hj Hlt]%lookup_take_Some.
    rewrite lookup_newlines, start_of_line in Hj by (done || lia). simplify_eq.
    apply Z.leb_le. pose proof (text_before_mono s (S j) i ltac:(lia) Hi). lia.
  - apply Forall_lookup_2. intros j nl Hj. rewrite lookup_drop in Hj.
    pose proof (lookup_lt_Some _ _ _ Hj) as Hlt.
    rewrite lookup_newlines, start_of_line in Hj by (done || lia). simplify_eq.
    apply Z.leb_gt. pose proof (text_before_mono s (S i) (S (i + j)) ltac:(lia) ltac:(lia)).
    specialize (Hgt ltac:(lia)). lia.
Qed.

Lemma try_line_col_spec s i o :
  Forall is_scalar s -> (str_len s < 2 ^ 32)%Z -> in_line s i o -> (o <= str_len s)%Z ->
  try_line_col (LineIndex_new s) o =
  Some (Some (MkLineCol (Z.of_nat i) (o - str_len (text_before s i)))).
Proof.
  intros Hs Hb Hi Ho. pose proof (length_lines_of s).
  unfold try_line_col. rewrite (proj2 (proj2 (index_fields s Hs Hb))).
  rewrite (proj2 (Z.ltb_ge _ _)) by lia. rewrite (partition_point_line s i o) by done.
  destruct Hi as (Hi & Hle & _). rewrite as_u32_small by lia.
  unfold line_start. rewrite try_line_start_spec, decide_True by done. simpl.
  by rewrite (proj2 (Z.ltb_ge _ _)) by lia.
Qed.

(** C35. Offsets and positions are two names of one place: every offset up to the end of the text
    has a line and a column, [offset] gives it back, and it lies in that line; offsets behind the
    end have none. Back again, a column inside a line (its terminator included, or at the end of
    the last line) has an offset whose line and column are the same. *)
Theorem positions_round_trip s :
  Forall is_scalar s -> (str_len s < 2 ^ 32)%Z ->
  (forall o, (0 <= o)%Z ->
    match try_line_col (LineIndex_new s) o with
    | Some (Some lc) =>
        (o <= str_len s)%Z /\ offset (LineIndex_new s) lc = Some (Some o) /\
        exists i, lc_line lc = Z.of_nat i /\ in_line s i o
    | Some None => (str_len s < o)%Z
    | None => False
    end) /\
  (forall i l t col, lines_of s !! i = Some (l, t) -> (0 <= col)%Z ->
    (col < str_len (l ++ t) \/ S i = length (lines_of s) /\ col = str_len l)%Z ->
    exists o, offset (LineIndex_new s) (MkLineCol (Z.of_nat i) col) = Some (Some o) /\
      try_line_col (LineIndex_new s) o = Some (Some (MkLineCol (Z.of_nat i) col))).
Proof.
  intros Hs Hb. split.
  - intros o Ho. destruct (Z.le_gt_cases o (str_len s)) as [Hle|Hgt].
    + destruct (in_line_exists s o Ho) as [i Hi].
      rewrite (try_line_col_spec s i o) by done. split; [done|]. split; [|by exists i].
      unfold offset. simpl. destruct Hi as (Hi & Hst & _).
      rewrite try_line_start_spec, decide_True by done.
      rewrite Zplus_minus. by rewrite (proj2 (Z.ltb_lt _ _)) by lia.
    + unfold try_line_col. rewrite (proj2 (proj2 (index_fields s Hs Hb))).
      by rewrite (proj2 (Z.ltb_lt _ _)) by lia.
  - intros i l t col Hi Hcol Hin. pose proof (lookup_lt_Some _ _ _ Hi) as Hlt.
    set (o := (str_len (text_before s i) + col)%Z).
    assert (str_len s = str_len (text_before s i) + (str_len (l ++ t) +
      str_len (text_of (drop (S i) (lines_of s)))))%Z as Hlen.
    { rewrite (split_at_line s i l t Hi) at 1. by rewrite !str_len_app, <- Z.add_assoc. }
    pose proof (str_len_nonneg (text_of (drop (S i) (lines_of s)))).
    pose proof (str_len_nonneg (text_before s i)). pose proof (str_len_nonneg t).
    rewrite str_len_app in *.
    assert (in_line s i o) as Hline.
    { subst o. split_and!; [done|lia|]. intros Hmore.
      rewrite (text_before_S s i l t Hi), !str_len_app. lia. }
    exists o. split.
    + unfold offset. simpl. rewrite try_line_start_spec, decide_True by done.
      by rewrite (proj2 (Z.ltb_lt _ _)) by lia.
    + rewrite (try_line_col_spec s i o) by (done || lia). subst o. do 3 f_equal. lia.
Qed.

(** ** Splitting *)

Lemma length_text_of_cons l t ls : length (text_of ((l, t) :: ls)) =
  (length l + length t + length (text_of ls))%nat.
Proof. unfold text_of. csimpl. rewrite !length_app. lia. Qed.

Lemma find_break l c rest :
  Forall (fun c => is_break_char c = false) l -> is_break_char c = true ->
  list_find (fun c => is_break_char c = true) (l ++ c :: rest) = Some (length l, c).
Proof.
  intros Hl Hc. apply list_find_app_Some. right. split_and!; [done| |].
  - apply list_find_None. eapply Forall_impl; [exact Hl|]. simpl. intros x. by destruct (is_break_char x).
  - simpl. rewrite decide_True by done. by rewrite Nat.sub_diag.
Qed.

(** One call of the iterator takes the first line with its terminator. *)
Lemma split_next_line l t rest :
  Forall (fun c => is_break_char c = false) l ->
  t = [LF] \/ t = [CR; LF] \/ t = [CR] /\ head rest <> Some LF ->
  split_next (l ++ t ++ rest) = Some (l, rest).
Proof.
  intros Hl Ht.
  assert (exists c t', t = c :: t' /\ is_break_char c = true /\
    (if decide (take 2 (t ++ rest) = [CR; LF]) then 2%nat else 1%nat) = length t)
    as (c & t' & E & Hc & Hterm).
  { destruct Ht as [->|[->|[-> Hr]]]; do 2 eexists; (split; [reflexivity|]); (split; [done|]).
    - by rewrite decide_False by done.
    - by rewrite decide_True by done.
    - rewrite decide_False; [done|]. destruct rest; simpl in *; congruence. }
  unfold split_next. destruct (l ++ t ++ rest) eqn:Et.
  { apply (f_equal length) in Et. rewrite E, !length_app in Et. simpl in Et. lia. }
  rewrite <- Et. rewrite E at 1. simpl app at 2. rewrite (find_break l c) by done.
  rewrite drop_app_length, Hterm, take_app_length. f_equal. f_equal.
  rewrite app_assoc, <- length_app. apply drop_app_length.
Qed.

(** The contents of the lines, an empty last one left out. *)
Definition visible_lines (ls : list (text * text)) : list text :=
  match last ls with
  | Some ([], _) => (removelast ls).*1
  | _ => ls.*1
  end.

Lemma visible_lines_cons x y ls : visible_lines (x :: y :: ls) = x.1 :: visible_lines (y :: ls).
Proof.
  unfold visible_lines. rewrite last_cons_cons. by destruct (last (y :: ls)) as [[[] ?]|].
Qed.

Lemma split_lines_well ls fuel :
  well_split ls -> (length (text_of ls) < fuel)%nat ->
  split_lines_fuel fuel (text_of ls) = Some (visible_lines ls).
Proof.
  revert fuel. induction ls as [|[l t] ls IH]; intros fuel Hw Hf; [done|].
  destruct fuel as [|fuel]; [lia|]. destruct Hw as [Hl Hw].
  destruct ls as [|x ls].
  - subst t. unfold text_of in *. csimpl in *. rewrite !app_nil_r in *.
    destruct l as [|c l]; [done|].
    assert (split_next (c :: l) = Some (c :: l, [])) as ->.
    { unfold split_next. destruct (list_find _ _) as [[at_ b]|] eqn:E; [|done].
      apply list_find_Some in E as (Hat & Hbrk & _). by rewrite (Forall_lookup_1 _ _ _ _ Hl Hat) in Hbrk. }
    destruct fuel; [simpl in Hf; lia|]. done.
  - destruct Hw as [Ht Hw].
    assert (text_of ((l, t) :: x :: ls) = l ++ t ++ text_of (x :: ls)) as E.
    { unfold text_of. csimpl. by rewrite <- app_assoc. }
    rewrite length_text_of_cons in Hf. rewrite E. cbn [split_lines_fuel].
    rewrite split_next_line by done.
    rewrite IH; [|done|destruct Ht as [->|[->|[-> _]]]; cbn [length] in Hf; lia].
    by rewrite visible_lines_cons.
Qed.

(** [split_lines] yields the contents of the index's lines in order, without their terminators
    and without an empty last line; it ends on every text. *)
Theorem split_lines_are_lines s : split_lines s = Some (visible_lines (lines_of s)).
Proof.
  unfold split_lines. rewrite <- (text_of_lines s) at 2.
  apply split_lines_well; [apply well_split_lines|]. rewrite text_of_lines. lia.
Qed.

(** ** Lines as git counts them *)

Lemma lone_lines_app i ls1 ls2 :
  lone_lines i (ls1 ++ ls2) = lone_lines i ls1 ++ lone_lines (i + Z.of_nat (length ls1)) ls2.
Proof.
  revert i. induction ls1 as [|[l t] ls1 IH]; intros i; simpl; [by rewrite Z.add_0_r|].
  rewrite IH, <- app_assoc. do 3 f_equal. lia.
Qed.

Lemma lone_lines_bounds i ls :
  Forall (fun k => i <= k < i + Z.of_nat (length ls))%Z (lone_lines i ls).
Proof.
  revert i. induction ls as [|[l t] ls IH]; intros i; simpl; [constructor|].
  apply Forall_app. split.
  - case_decide; [|constructor]. constructor; [lia|constructor].
  - eapply Forall_impl; [apply IH|]. simpl. lia.
Qed.

Definition lf_count (s : text) : nat := length (filter (fun c => c = LF) s).

Lemma lf_count_app s1 s2 : lf_count (s1 ++ s2) = (lf_count s1 + lf_count s2)%nat.
Proof. unfold lf_count. by rewrite filter_app, length_app. Qed.

Lemma lf_count_content l : Forall (fun c => is_break_char c = false) l -> lf_count l = 0%nat.
Proof.
  unfold lf_count. induction 1 as [|c l Hc _ IH]; [done|]. rewrite filter_cons_False; [done|].
  intros ->. done.
Qed.

(** The lines before line [i] end in [LF] but for the lone [CR]s. *)
Lemma lf_count_before s i :
  (i < length (lines_of s))%nat ->
  (lf_count (text_before s i) + length (lone_lines 0 (take i (lines_of s))))%nat = i.
Proof.
  induction i as [|i IH]; intros Hi; [done|].
  destruct (lookup_lt_is_Some_2 (lines_of s) i) as [[l t] Hl]; [lia|].
  rewrite (text_before_S s i l t Hl), !lf_count_app, (take_S_r _ _ _ Hl), lone_lines_app.
  destruct (line_terminator s i l t Hl) as [Hc Ht]. rewrite decide_False in Ht by lia.
  rewrite (lf_count_content l Hc), length_app. specialize (IH ltac:(lia)).
  cbn [lone_lines]. rewrite app_nil_r.
  destruct Ht as [->|[->| ->]]; [rewrite decide_False by done..|rewrite decide_True by done];
    change (lf_count [LF]) with 1%nat; change (lf_count [CR; LF]) with 1%nat;
    change (lf_count [CR]) with 0%nat; cbn [length]; lia.
Qed.

(** [lf_line] is the line number of a reader that breaks lines at [LF] only, as git does: the
    number of [LF]s before the line. *)
Theorem lf_line_counts_lf s i :
  Forall is_scalar s -> (str_len s < 2 ^ 32)%Z -> (i < length (lines_of s))%nat ->
  lf_line (LineIndex_new s) (Z.of_nat i) = Z.of_nat (lf_count (text_before s i)).
Proof.
  intros Hs Hb Hi. unfold lf_line. rewrite (proj1 (proj2 (index_fields s Hs Hb))).
  rewrite <- (take_drop i (lines_of s)), lone_lines_app, length_take_le by lia.
  rewrite partition_point_spec.
  - pose proof (lf_count_before s i Hi). pose proof (length_lines_of s).
    rewrite as_u32_small by lia. lia.
  - eapply Forall_impl; [apply lone_lines_bounds|]. cbv beta. intros k Hk.
    rewrite length_take_le in Hk by lia. apply Z.ltb_lt. lia.
  - eapply Forall_impl; [apply lone_lines_bounds|]. cbv beta. intros k Hk. apply Z.ltb_ge. lia.
Qed.

(** ** Columns *)

Lemma len_utf16_pos c : (1 <= len_utf16 c <= len_utf8 c)%Z.
Proof. unfold len_utf16, len_utf8. repeat case_match; lia. Qed.

Lemma utf16_count_app s1 s2 : utf16_count (s1 ++ s2) = (utf16_count s1 + utf16_count s2)%Z.
Proof. induction s1 as [|c s1 IH]; [done|]. simpl. rewrite IH. lia. Qed.

(** A text has at most as many code units, and as many characters, as bytes. *)
Lemma utf16_count_bounds s : (0 <= utf16_count s <= str_len s)%Z.
Proof. induction s as [|c s IH]; simpl; [done|]. pose proof (len_utf16_pos c). lia. Qed.

Lemma length_bounds s : (Z.of_nat (length s) <= str_len s)%Z.
Proof. induction s as [|c s IH]; [done|]. simpl. pose proof (len_utf8_pos c). lia. Qed.

Lemma utf16_loop_prefix a b units bytes :
  (0 <= bytes)%Z -> (bytes + str_len a < 2 ^ 32)%Z ->
  utf16_col_loop (a ++ b) (units + utf16_count a) units bytes = Some (bytes + str_len a)%Z.
Proof.
  revert units bytes. induction a as [|c a IH]; intros units bytes H0 Hb; simpl in *.
  - rewrite !Z.add_0_r in *. destruct b; simpl; rewrite (proj2 (Z.leb_le _ _)) by lia;
      by rewrite as_u32_small by lia.
  - pose proof (len_utf16_pos c). pose proof (utf16_count_bounds a).
    rewrite (proj2 (Z.leb_gt _ _)) by lia.
    rewrite !Z.add_assoc. rewrite IH by lia. done.
Qed.

Lemma utf16_loop_past s col units bytes :
  (units + utf16_count s < col)%Z -> utf16_col_loop s col units bytes = None.
Proof.
  revert units bytes. induction s as [|c s IH]; intros units bytes Hc; simpl in *.
  - by rewrite (proj2 (Z.leb_gt _ _)) by lia.
  - pose proof (len_utf16_pos c). pose proof (utf16_count_bounds s).
    rewrite (proj2 (Z.leb_gt _ _)) by lia. apply IH. lia.
Qed.

Lemma char_loop_prefix a b i bytes :
  (Z.of_nat (i + length a) < 2 ^ 32)%Z ->
  char_col_loop (a ++ b) i (Z.of_nat (i + length a)) bytes = (bytes + str_len a)%Z.
Proof.
  revert i bytes. induction a as [|c a IH]; intros i bytes Hi; simpl in *.
  - rewrite Nat.add_0_r, Z.add_0_r in *. destruct b; [done|]. simpl.
    rewrite as_u32_small by lia. by rewrite Z.eqb_refl.
  - rewrite as_u32_small, (proj2 (Z.eqb_neq _ _)) by lia.
    replace (i + S (length a))%nat with (S i + length a)%nat in * by lia.
    rewrite IH by done. pose proof (len_utf8_pos c). rewrite as_u32_small by lia. lia.
Qed.

(** The columns count the text between the line's start and a boundary inside its shown part. *)
Lemma slice_of_column s i l t a b :
  lines_of s !! i = Some (l, t) -> shown l t = a ++ b ->
  str_slice s (floor_char_boundary s (str_len (text_before s i)))
    (floor_char_boundary s (str_len (text_before s i) + str_len a)) = Some a /\
  (str_len (text_before s i) + str_len a + str_len b <= str_len s)%Z.
Proof.
  intros Hi Hab. destruct (split_at_shown s i l t Hi) as [rest E]. rewrite Hab in E.
  pose proof (str_len_nonneg rest).
  assert (s = text_before s i ++ a ++ b ++ rest) as E' by by rewrite E at 1; rewrite <- app_assoc.
  assert (floor_char_boundary s (str_len (text_before s i)) = str_len (text_before s i)) as ->.
  { rewrite E' at 1. apply floor_char_boundary_app. }
  rewrite <- str_len_app.
  assert (floor_char_boundary s (str_len (text_before s i ++ a)) = str_len (text_before s i ++ a)) as ->.
  { rewrite E' at 1. rewrite app_assoc. apply floor_char_boundary_app. }
  split.
  - rewrite E' at 1. rewrite str_len_app. apply str_slice_app.
  - rewrite E' at 2. rewrite !str_len_app. lia.
Qed.

(** Columns convert both ways: for every boundary of a line's text, that is every part [a] in
    front of it, the UTF-16 and the character column of the byte column [str_len a] are the code
    units and characters of [a], and converting these back gives the byte column; a UTF-16 column
    behind the line's end has no byte column. Nothing panics and no count leaves [u32]. *)
Theorem columns_round_trip s i l t a b :
  Forall is_scalar s -> (str_len s < 2 ^ 32)%Z ->
  lines_of s !! i = Some (l, t) -> shown l t = a ++ b ->
  let ix := LineIndex_new s in let line := Z.of_nat i in
  utf16_col ix s line (str_len a) = Some (utf16_count a) /\
  utf16_col_to_byte_col ix s line (utf16_count a) = Some (Some (str_len a)) /\
  byte_col_to_char_col ix s line (str_len a) = Some (Z.of_nat (length a)) /\
  char_col_to_byte_col ix s line (Z.of_nat (length a)) = Some (Some (str_len a)) /\
  (forall col, (utf16_count (shown l t) < col)%Z ->
    utf16_col_to_byte_col ix s line col = Some None).
Proof.
  intros Hs Hb Hi Hab ix line. destruct (slice_of_column s i l t a b Hi Hab) as [Hslice Hlen].
  pose proof (str_len_nonneg (text_before s i)). pose proof (str_len_nonneg a).
  pose proof (str_len_nonneg b). pose proof (utf16_count_bounds a). pose proof (length_bounds a).
  assert (str_len (shown l t) = str_len a + str_len b)%Z as Hshown by by rewrite Hab, str_len_app.
  subst ix line. unfold utf16_col, byte_col_to_char_col, utf16_col_to_byte_col, char_col_to_byte_col.
  rewrite (line_range_spec s Hs Hb i l t Hi), (safe_line_str_spec s Hs Hb i l t Hi). simpl.
  rewrite !Z.min_l by lia. rewrite Hslice, Hab. simpl.
  rewrite !as_u32_small by lia. split_and!; [done| |done| |].
  - f_equal. apply (utf16_loop_prefix a b 0 0); lia.
  - do 2 f_equal. apply (char_loop_prefix a b 0 0). simpl. lia.
  - intros col Hcol. f_equal. apply utf16_loop_past. by rewrite Z.add_0_l.
Qed.

(** ** A text with every terminator *)

(** [П𝕏⏎] ended by [LF], [b] by [CR LF], an empty line by a lone [CR], and [c]. *)
Definition sample_text : text := [0x41F; 0x1D54F; 0xA; 0x62; 0xD; 0xA; 0xD; 0x63]%Z.

Lemma sample_scalars : Forall is_scalar sample_text.
Proof. repeat (apply Forall_cons_2; [by vm_compute|]). constructor. Qed.

Lemma sample_fits : (str_len sample_text < 2 ^ 32)%Z.
Proof. by vm_compute. Qed.

Lemma index_holds_lines_witness :
  lines_of sample_text !! 1%nat = Some ([0x62], [CR; LF])%Z /\
  line_range (LineIndex_new sample_text) 1 = Some (Some (MkRange 7 9)) /\
  safe_line_str (LineIndex_new sample_text) sample_text 1 = Some (Some [0x62; CR]%Z).
Proof.
  destruct (index_holds_lines sample_text 1 sample_scalars sample_fits) as (_ & _ & _ & Hr & Ht).
  split; [by vm_compute|]. split; [exact Hr|exact Ht].
Defined.

Lemma positions_round_trip_witness :
  exists o, offset (LineIndex_new sample_text) (MkLineCol 3 1) = Some (Some o) /\
    try_line_col (LineIndex_new sample_text) o = Some (Some (MkLineCol 3 1)).
Proof.
  destruct (positions_round_trip sample_text sample_scalars sample_fits) as [_ H].
  apply (H 3%nat [0x63%Z] [] 1%Z); [by vm_compute|lia|right; by split].
Defined.

Lemma lf_line_counts_lf_witness :
  (3 < length (lines_of sample_text))%nat /\ lf_line (LineIndex_new sample_text) 3 = 2%Z.
Proof.
  assert (3 < length (lines_of sample_text))%nat as H3 by (vm_compute; lia).
  split; [exact H3|]. exact (lf_line_counts_lf sample_text 3 sample_scalars sample_fits H3).
Defined.

Lemma columns_round_trip_witness :
  utf16_col (LineIndex_new sample_text) sample_text 0 6 = Some 3%Z /\
  utf16_col_to_byte_col (LineIndex_new sample_text) sample_text 0 3 = Some (Some 6%Z) /\
  utf16_col_to_byte_col (LineIndex_new sample_text) sample_text 0 4 = Some None.
Proof.
  destruct (columns_round_trip sample_text 0 [0x41F; 0x1D54F]%Z [LF] [0x41F; 0x1D54F]%Z []
    sample_scalars sample_fits) as (H1 & H2 & _ & _ & H5); [by vm_compute..|].
  split; [exact H1|]. split; [exact H2|]. apply H5. by vm_compute.
Defined.
