(* ===== verification/Reparse.v ===== *)
(** Reparse: the parts of the reparse of one method that do not read the tree
    (crates/parser/src/reparse.rs): the edit between two texts, the balance of the directives in a
    fragment and the merge of the error lists.

    The search for the method's node, the guards on its tokens and the replacement of the subtree
    are calls of the tree library; here a node is what [merge_errors] asks of it, its range and the
    ranges of its first and last token. *)
From stdpp Require Import prelude sorting strings.
From S2P Require Import Prelude Utf8 Kinds Tokens.

(** ** The edit between two texts *)

Definition BLOCK : nat := 256.

Record TextEdit : Set := MkEdit { old_range : TextRange; new_range : TextRange }.

(** [a[i..i + n]]. *)
Definition block (a : list Z) (i n : nat) : list Z := take n (drop i a).

(** A loop that adds [step] to [i] while [go i]; it goes on below [n] only, so [S n] turns are
    enough. *)
Fixpoint advance_while (fuel : nat) (go : nat -> bool) (step i : nat) : option nat :=
  match fuel with
  | O => None
  | S fuel => if go i then advance_while fuel go step (i + step) else Some i
  end.

Definition common_prefix (a b : list Z) : option nat :=
  let n := (length a `min` length b)%nat in
  i ← advance_while (S n)
        (fun i => (i + BLOCK <=? n)%nat && bool_decide (block a i BLOCK = block b i BLOCK)) BLOCK 0;
  advance_while (S n) (fun i => (i <? n)%nat && bool_decide (a !! i = b !! i)) 1 i.

Definition common_suffix (a b : list Z) : option nat :=
  let n := (length a `min` length b)%nat in
  i ← advance_while (S n)
        (fun i => (i + BLOCK <=? n)%nat &&
           bool_decide (block a (length a - i - BLOCK) BLOCK = block b (length b - i - BLOCK) BLOCK))
        BLOCK 0;
  advance_while (S n)
    (fun i => (i <? n)%nat && bool_decide (a !! (length a - 1 - i)%nat = b !! (length b - 1 - i)%nat))
    1 i.

(** [u32::try_from(n).expect(..)]. *)
Definition size (n : nat) : option Z := if (Z.of_nat n <? 2 ^ 32)%Z then Some (Z.of_nat n) else None.

(** [None] is a panic ([size] or [TextRange::new]), [Some None] the answer for equal texts. *)
Definition edit_between (old new : text) : option (option TextEdit) :=
  let old_b := as_bytes old in
  let new_b := as_bytes new in
  prefix ← common_prefix old_b new_b;
  if (prefix =? length old_b)%nat && (prefix =? length new_b)%nat then Some None
  else
    let max_suffix := (length old_b `min` length new_b - prefix)%nat in
    suffix ← common_suffix (drop prefix old_b) (drop prefix new_b);
    let suffix := (suffix `min` max_suffix)%nat in
    start ← size prefix;
    old_end ← size (length old_b - suffix);
    new_end ← size (length new_b - suffix);
    old_range ← TextRange_new start old_end;
    new_range ← TextRange_new start new_end;
    Some (Some (MkEdit old_range new_range)).

(** ** Balance of the directives *)

(** The loop over the tokens; the counters are [i32] and the kinds' order that of the source. *)
Fixpoint preprocessor_loop (kinds : list TokenKind) (ifs inserts deletes : Z) : option bool :=
  match kinds with
  | [] => Some ((ifs =? 0)%Z && (inserts =? 0)%Z && (deletes =? 0)%Z)
  | kind :: kinds =>
      let next ifs inserts deletes :=
        if (ifs <? 0)%Z || (inserts <? 0)%Z || (deletes <? 0)%Z then Some false
        else preprocessor_loop kinds ifs inserts deletes in
      match kind with
      | PreIf => ifs ← i32_sum ifs 1; next ifs inserts deletes
      | PreElsIf | PreElse => if (ifs =? 0)%Z then Some false else next ifs inserts deletes
      | PreEndIf => ifs ← i32_sum ifs (-1); next ifs inserts deletes
      | PreInsert => inserts ← i32_sum inserts 1; next ifs inserts deletes
      | PreEndInsert => inserts ← i32_sum inserts (-1); next ifs inserts deletes
      | PreDelete => deletes ← i32_sum deletes 1; next ifs inserts deletes
      | PreEndDelete => deletes ← i32_sum deletes (-1); next ifs inserts deletes
      | _ => next ifs inserts deletes
      end
  end.

Definition preprocessor_balanced (tokens : list Token) : option bool :=
  preprocessor_loop (tok_kind <$> tokens) 0 0 0.

(** ** The merged errors *)

Definition SyntaxError : Set := TextRange * ParseError.

(** What the merge reads of a node. *)
Record NodeInfo : Set := MkNode {
  text_range : TextRange;
  first_token : option TextRange;
  last_token : option TextRange;
}.

Definition touches_edge_tokens (range : TextRange) (node : NodeInfo) : bool :=
  existsb (fun edge => (range_start range <=? range_end edge)%Z && (range_start edge <=? range_end range)%Z)
    (option_list (first_token node) ++ option_list (last_token node)).

(** [(u32::from(x) as i64 + delta) as usize] through [size]; a negative sum is a huge [usize]. *)
Definition shift_offset (delta x : Z) : option Z :=
  if ((0 <=? x + delta) && (x + delta <? 2 ^ 32))%Z then Some (x + delta)%Z else None.

Definition shifted (e : SyntaxError) (delta : Z) : option SyntaxError :=
  start ← shift_offset delta (range_start e.1);
  end_ ← shift_offset delta (range_end e.1);
  range ← TextRange_new start end_;
  Some (range, e.2).

(** An answer, the refusal for an error of the context, or a panic. *)
Inductive Merged (A : Type) : Type :=
| Merge (a : A)
| ContextError
| MergePanic.
Arguments Merge {A} a.
Arguments ContextError {A}.
Arguments MergePanic {A}.

#[export] Instance Merged_ret : MRet Merged := @Merge.

#[export] Instance Merged_bind : MBind Merged := fun A B k m =>
  match m with Merge a => k a | ContextError => ContextError | MergePanic => MergePanic end.

Definition or_panic {A} (o : option A) : Merged A :=
  match o with Some a => Merge a | None => MergePanic end.

(** The errors of the fragment, moved to the node's place. *)
Fixpoint fragment_loop (errors : list SyntaxError) (new_node : NodeInfo) (start : Z) (strict : bool)
    : Merged (list SyntaxError) :=
  match errors with
  | [] => mret []
  | e :: errors =>
      if strict && touches_edge_tokens e.1 new_node then ContextError
      else
        e ← or_panic (shifted e start);
        es ← fragment_loop errors new_node start strict;
        mret (e :: es)
  end.

(** [TextRange::contains_range]. *)
Definition contains_range (outer inner : TextRange) : bool :=
  (range_start outer <=? range_start inner)%Z && (range_end inner <=? range_end outer)%Z.

(** The loop over the old errors; [fragment] are the errors still to be inserted. *)
Fixpoint merge_loop (old_errors : list SyntaxError) (old_node : NodeInfo) (delta : Z) (strict : bool)
    (fragment : list SyntaxError) (inserted : bool) (errors : list SyntaxError)
    : Merged (list SyntaxError * list SyntaxError * bool) :=
  match old_errors with
  | [] => mret (errors, fragment, inserted)
  | e :: old_errors =>
      let r := e.1 in
      let old := text_range old_node in
      if strict && touches_edge_tokens r old_node then ContextError
      else
        let inside := contains_range old r in
        let after := (range_end old <=? range_start r)%Z in
        let before := (range_end r <=? range_start old)%Z in
        let '(errors, fragment, inserted) :=
          if (inside || after) && negb inserted then (errors ++ fragment, [], true)
          else (errors, fragment, inserted) in
        if inside then merge_loop old_errors old_node delta strict fragment inserted errors
        else if after then
          e ← or_panic (shifted e delta);
          merge_loop old_errors old_node delta strict fragment inserted (errors ++ [e])
        else if before then
          merge_loop old_errors old_node delta strict fragment inserted (errors ++ [e])
        else if strict then ContextError
        else merge_loop old_errors old_node delta strict fragment inserted errors
  end.

Definition merge_errors (old_errors : list SyntaxError) (old_node : NodeInfo)
    (fragment_errors : list SyntaxError) (new_node : NodeInfo) (start delta : Z) (strict : bool)
    : Merged (list SyntaxError) :=
  fragment ← fragment_loop fragment_errors new_node start strict;
  merged ← merge_loop old_errors old_node delta strict fragment false [];
  let '(errors, fragment, inserted) := merged in
  Merge (if (inserted : bool) then errors else errors ++ fragment).

(** ** The loops over blocks and bytes *)

(** A loop that stays below [n] ends, keeps what every turn keeps and stops where it may. *)
Lemma advance_while_spec fuel go step n (P : nat -> Prop) i :
  (0 < step)%nat -> (forall i, go i = true -> P i -> (i + step <= n)%nat /\ P (i + step)%nat) ->
  (i <= n)%nat -> (n - i < fuel)%nat -> P i ->
  exists j, advance_while fuel go step i = Some j /\ (j <= n)%nat /\ go j = false /\ P j.
Proof.
  intros Hstep Hgo. revert i. induction fuel as [|fuel IH]; intros i Hi Hf HP; [lia|]. simpl.
  destruct (go i) eqn:E; [|by exists i].
  destruct (Hgo i E HP) as [Hle HP']. apply IH; [done|lia|done].
Qed.

Lemma take_add {A} (a : list A) i n : take (i + n) a = take i a ++ take n (drop i a).
Proof.
  revert i. induction a as [|x a IH]; intros i; [by rewrite !take_nil, drop_nil, take_nil|].
  destruct i as [|i]; [done|]. simpl. by rewrite IH.
Qed.

Lemma drop_sub {A} (a : list A) i n :
  (i + n <= length a)%nat ->
  drop (length a - (i + n)) a = take n (drop (length a - i - n) a) ++ drop (length a - i) a.
Proof.
  intros Hn. replace (length a - (i + n))%nat with (length a - i - n)%nat by lia.
  rewrite <- (take_drop n (drop (length a - i - n) a)) at 1. rewrite drop_drop.
  by replace (length a - i - n + n)%nat with (length a - i)%nat by lia.
Qed.

Lemma common_prefix_spec a b :
  exists n, common_prefix a b = Some n /\ (n <= length a)%nat /\ (n <= length b)%nat /\
    take n a = take n b /\ ((n < length a)%nat -> (n < length b)%nat -> a !! n <> b !! n).
Proof.
  unfold common_prefix. set (n := (length a `min` length b)%nat).
  destruct (advance_while_spec (S n)
    (fun i => (i + BLOCK <=? n)%nat && bool_decide (block a i BLOCK = block b i BLOCK)) BLOCK n
    (fun i => take i a = take i b) 0) as (i & -> & Hi & _ & Hpre).
  { unfold BLOCK. lia. }
  { intros i [H1%Nat.leb_le H2%bool_decide_eq_true]%andb_true_iff Hpre. split; [done|].
    rewrite !take_add. by f_equal. }
  { lia. }
  { lia. }
  { done. }
  cbn [mbind option_bind]. destruct (advance_while_spec (S n)
    (fun i => (i <? n)%nat && bool_decide (a !! i = b !! i)) 1 n
    (fun i => take i a = take i b) i) as (j & -> & Hj & Hstop & Hpre').
  { lia. }
  { intros k [H1%Nat.ltb_lt H2%bool_decide_eq_true]%andb_true_iff Hk. split; [lia|].
    destruct (lookup_lt_is_Some_2 a k) as [x Hx]; [lia|].
    rewrite Nat.add_1_r, (take_S_r a k x), (take_S_r b k x) by congruence. by f_equal. }
  { done. }
  { lia. }
  { done. }
  exists j. split_and!; [done|lia|lia|done|]. intros Ha Hb E.
  rewrite (proj2 (Nat.ltb_lt _ _)), bool_decide_true in Hstop by (done || lia). done.
Qed.

Lemma common_suffix_spec a b :
  exists n, common_suffix a b = Some n /\ (n <= length a)%nat /\ (n <= length b)%nat /\
    drop (length a - n) a = drop (length b - n) b /\
    ((n < length a)%nat -> (n < length b)%nat -> a !! (length a - 1 - n)%nat <> b !! (length b - 1 - n)%nat).
Proof.
  unfold common_suffix. set (n := (length a `min` length b)%nat).
  destruct (advance_while_spec (S n)
    (fun i => (i + BLOCK <=? n)%nat &&
       bool_decide (block a (length a - i - BLOCK) BLOCK = block b (length b - i - BLOCK) BLOCK)) BLOCK n
    (fun i => drop (length a - i) a = drop (length b - i) b) 0) as (i & -> & Hi & _ & Hsuf).
  { unfold BLOCK. lia. }
  { intros i [H1%Nat.leb_le H2%bool_decide_eq_true]%andb_true_iff Hsuf. split; [done|].
    rewrite !drop_sub by lia. unfold block in H2. by f_equal. }
  { lia. }
  { lia. }
  { by rewrite !Nat.sub_0_r, !drop_ge. }
  cbn [mbind option_bind]. destruct (advance_while_spec (S n)
    (fun i => (i <? n)%nat && bool_decide (a !! (length a - 1 - i)%nat = b !! (length b - 1 - i)%nat)) 1 n
    (fun i => drop (length a - i) a = drop (length b - i) b) i) as (j & -> & Hj & Hstop & Hsuf').
  { lia. }
  { intros k [H1%Nat.ltb_lt H2%bool_decide_eq_true]%andb_true_iff Hk. split; [lia|].
    destruct (lookup_lt_is_Some_2 a (length a - 1 - k)) as [x Hx]; [lia|].
    rewrite !drop_sub by lia.
    replace (length a - k - 1)%nat with (length a - 1 - k)%nat by lia.
    replace (length b - k - 1)%nat with (length b - 1 - k)%nat by lia.
    rewrite (drop_S a x), (drop_S b x) by congruence. simpl. by f_equal. }
  { done. }
  { lia. }
  { done. }
  exists j. split_and!; [done|lia|lia|done|]. intros Ha Hb E.
  rewrite (proj2 (Nat.ltb_lt _ _)), bool_decide_true in Hstop by (done || lia). done.
Qed.

Lemma size_small n : (Z.of_nat n < 2 ^ 32)%Z -> size n = Some (Z.of_nat n).
Proof. intros Hn. unfold size. by rewrite (proj2 (Z.ltb_lt _ _)). Qed.

Lemma TextRange_new_le a b : (a <= b)%Z -> TextRange_new a b = Some (MkRange a b).
Proof. intros H. unfold TextRange_new. by rewrite (proj2 (Z.leb_le _ _)). Qed.

(** The ranges of a replacement of [x] by [y] behind [p]. *)
Definition replacement (p x y : list Z) : TextEdit :=
  let start := Z.of_nat (length p) in
  MkEdit (MkRange start (start + Z.of_nat (length x))) (MkRange start (start + Z.of_nat (length y))).

(** Two texts around a common prefix and a common suffix. *)
Lemma split_common (a b : list Z) n m :
  (n <= length a)%nat -> (n <= length b)%nat -> take n a = take n b ->
  (m <= length (drop n a))%nat -> (m <= length (drop n b))%nat ->
  drop (length (drop n a) - m) (drop n a) = drop (length (drop n b) - m) (drop n b) ->
  exists p x y q, a = p ++ x ++ q /\ b = p ++ y ++ q /\ length p = n /\ length q = m /\
    drop n a = x ++ q /\ drop n b = y ++ q.
Proof.
  intros Ha Hb Hp Hma Hmb Hq.
  exists (take n a), (take (length (drop n a) - m) (drop n a)),
    (take (length (drop n b) - m) (drop n b)), (drop (length (drop n a) - m) (drop n a)).
  split_and!.
  - by rewrite !take_drop.
  - by rewrite Hq, Hp, !take_drop.
  - by rewrite length_take_le.
  - rewrite length_drop. lia.
  - by rewrite take_drop.
  - by rewrite Hq, take_drop.
Qed.

(** C36. The edit between two texts is exact and smallest: none for equal texts; otherwise the texts
    are equal before and behind the edit's ranges, which differ in their first byte and, when both
    hold any, in their last. So replacing the old range by the new text's range gives the new text,
    and comparing by blocks of 256 bytes finds the same edit as comparing bytes. *)
Theorem edit_between_minimal old new :
  (str_len old < 2 ^ 32)%Z -> (str_len new < 2 ^ 32)%Z ->
  match edit_between old new with
  | Some None => as_bytes old = as_bytes new
  | Some (Some e) => exists p x y q,
      as_bytes old = p ++ x ++ q /\ as_bytes new = p ++ y ++ q /\ e = replacement p x y /\
      head x <> head y /\ (x <> [] -> y <> [] -> last x <> last y)
  | None => False
  end.
Proof.
  rewrite <- !length_as_bytes. intros Hold Hnew. unfold edit_between.
  set (a := as_bytes old) in *. set (b := as_bytes new) in *.
  destruct (common_prefix_spec a b) as (n & -> & Hna & Hnb & Hp & Hmax). cbn [mbind option_bind].
  destruct ((n =? length a)%nat && (n =? length b)%nat) eqn:Eequal.
  { apply andb_true_iff in Eequal as [Ea%Nat.eqb_eq Eb%Nat.eqb_eq].
    by rewrite !take_ge in Hp by lia. }
  destruct (common_suffix_spec (drop n a) (drop n b)) as (m & -> & Hma & Hmb & Hq & Hsmax).
  cbn [mbind option_bind]. rewrite Nat.min_l by (rewrite !length_drop in *; lia).
  destruct (split_common a b n m) as (p & x & y & q & Hxa & Hyb & Hlp & Hlq & Hda & Hdb); try done.
  assert (length a = n + length x + m)%nat as Hla by (rewrite Hxa, !length_app; lia).
  assert (length b = n + length y + m)%nat as Hlb by (rewrite Hyb, !length_app; lia).
  rewrite !size_small by lia. cbn [mbind option_bind].
  rewrite !TextRange_new_le by lia. cbn [mbind option_bind].
  exists p, x, y, q. split; [done|]. split; [done|].
  split; [unfold replacement; repeat f_equal; lia|].
  destruct x as [|x0 x], y as [|y0 y].
  - exfalso. cbn [length app] in *. destruct (decide (m = 0%nat)) as [->|Hm].
    + apply andb_false_iff in Eequal as [E%Nat.eqb_neq|E%Nat.eqb_neq]; lia.
    + apply Hmax; [lia..|]. by rewrite Hxa, Hyb.
  - done.
  - done.
  - cbn [length] in *. split.
    + intros [= ->]. apply (Hmax ltac:(lia) ltac:(lia)).
      rewrite Hxa, Hyb, <- Hlp. cbn [app]. by rewrite !list_lookup_middle.
    + intros _ _ Hlast. rewrite Hda, Hdb, !length_app in Hsmax. cbn [length] in Hsmax.
      apply Hsmax; [lia..|].
      rewrite !lookup_app_l by (cbn [length]; lia).
      rewrite !last_lookup in Hlast. cbn [length] in Hlast.
      by replace (S (length x) + length q - 1 - m)%nat with (length x) by lia;
        replace (S (length y) + length q - 1 - m)%nat with (length y) by lia.
Qed.

(** ** Nesting *)

(** What a token is to one family of directives. *)
Inductive Role : Set := Opens | Closes | Parts | Plain.

Definition if_role (k : TokenKind) : Role :=
  match k with PreIf => Opens | PreEndIf => Closes | PreElsIf | PreElse => Parts | _ => Plain end.

Definition insert_role (k : TokenKind) : Role :=
  match k with PreInsert => Opens | PreEndInsert => Closes | _ => Plain end.

Definition delete_role (k : TokenKind) : Role :=
  match k with PreDelete => Opens | PreEndDelete => Closes | _ => Plain end.

(** Tokens in which every group is closed and its parts stand directly inside it; [inside] says
    whether the tokens are those of a group. *)
Inductive Nested (role : TokenKind -> Role) : bool -> list TokenKind -> Prop :=
| Nested_nil inside : Nested role inside []
| Nested_plain inside k ks : role k = Plain -> Nested role inside ks -> Nested role inside (k :: ks)
| Nested_part k ks : role k = Parts -> Nested role true ks -> Nested role true (k :: ks)
| Nested_group inside o body c ks :
    role o = Opens -> role c = Closes -> Nested role true body -> Nested role inside ks ->
    Nested role inside (o :: body ++ c :: ks).

Section nesting.
Context (role : TokenKind -> Role).

(** The groups open after some tokens, counted. *)
Fixpoint closes_all (ks : list TokenKind) (depth : nat) : bool :=
  match ks with
  | [] => (depth =? 0)%nat
  | k :: ks =>
      match role k, depth with
      | Opens, _ => closes_all ks (S depth)
      | Closes, S depth => closes_all ks depth
      | Parts, S _ | Plain, _ => closes_all ks depth
      | _, O => false
      end
  end.

Lemma closes_all_nested inside ks :
  Nested role inside ks -> forall rest depth, (inside = true -> (0 < depth)%nat) ->
  closes_all (ks ++ rest) depth = closes_all rest depth.
Proof.
  induction 1 as [|inside k ks Hk _ IH|k ks Hk _ IH|inside o body c ks Ho Hc _ IHb _ IH];
    intros rest depth Hd; [done|..]; simpl.
  - rewrite Hk, IH by done. by destruct depth.
  - destruct depth as [|depth]; [specialize (Hd eq_refl); lia|]. by rewrite Hk, IH.
  - rewrite Ho, <- app_assoc. rewrite IHb by lia. simpl. by rewrite Hc, IH.
Qed.

(** [depth] groups are closed one after the other, then no group is open. *)
Fixpoint closed_after (depth : nat) (ks : list TokenKind) : Prop :=
  match depth with
  | O => Nested role false ks
  | S depth => exists body c rest, ks = body ++ c :: rest /\ Nested role true body /\
      role c = Closes /\ closed_after depth rest
  end.

Lemma closed_after_plain k depth ks :
  role k = Plain -> closed_after depth ks -> closed_after depth (k :: ks).
Proof.
  destruct depth as [|depth]; simpl; [by constructor|].
  intros Hk (body & c & rest & -> & Hb & Hc & Hr). exists (k :: body), c, rest.
  by split_and!; [|constructor|..].
Qed.

Lemma closed_after_group o body c depth ks :
  role o = Opens -> role c = Closes -> Nested role true body -> closed_after depth ks ->
  closed_after depth (o :: body ++ c :: ks).
Proof.
  intros Ho Hc Hb. destruct depth as [|depth]; simpl; [by constructor|].
  intros (body' & c' & rest & -> & Hb' & Hc' & Hr). exists (o :: body ++ c :: body'), c', rest.
  split_and!; [simpl; by rewrite <- app_assoc|by constructor|done|done].
Qed.

Lemma closes_all_closed ks depth : closes_all ks depth = true -> closed_after depth ks.
Proof.
  revert depth. induction ks as [|k ks IH]; intros depth; simpl.
  - intros ->%Nat.eqb_eq. constructor.
  - destruct (role k) eqn:Hk; [|destruct depth as [|depth]; [done|]..|].
    + intros (body & c & rest & -> & Hb & Hc & Hr)%IH. by apply closed_after_group.
    + intros Hr%IH. exists [], k, ks. by split_and!; [|constructor|..].
    + intros (body & c & rest & -> & Hb & Hc & Hr)%IH. exists (k :: body), c, rest.
      by split_and!; [|constructor|..].
    + intros Hr. by apply closed_after_plain, IH.
Qed.

Lemma closes_all_spec ks : closes_all ks 0 = true <-> Nested role false ks.
Proof.
  split; [apply closes_all_closed|]. intros Hn.
  rewrite <- (app_nil_r ks), (closes_all_nested false) by done. done.
Qed.
End nesting.

Lemma preprocessor_loop_counts ks i n d :
  (Z.of_nat (i + n + d + length ks) < 2 ^ 31)%Z ->
  preprocessor_loop ks (Z.of_nat i) (Z.of_nat n) (Z.of_nat d) =
  Some (closes_all if_role ks i && closes_all insert_role ks n && closes_all delete_role ks d).
Proof.
  revert i n d. induction ks as [|k ks IH]; intros i n d Hl.
  { simpl. by destruct i, n, d. }
  cbn [length] in Hl. assert (forall a b c : nat, (a + b + c <= S (i + n + d))%nat ->
    (if (Z.of_nat a <? 0)%Z || (Z.of_nat b <? 0)%Z || (Z.of_nat c <? 0)%Z then Some false
     else preprocessor_loop ks (Z.of_nat a) (Z.of_nat b) (Z.of_nat c)) =
    Some (closes_all if_role ks a && closes_all insert_role ks b && closes_all delete_role ks c)) as Hnext.
  { intros a b c Habc. rewrite !(proj2 (Z.ltb_ge _ _)) by lia. apply IH. lia. }
  assert (forall a, (a <= i + n + d)%nat -> i32_sum (Z.of_nat a) 1 = Some (Z.of_nat (S a))) as Hup.
  { intros a Ha. rewrite i32_sum_fits by lia. f_equal. lia. }
  assert (forall a, (S a <= i + n + d)%nat -> i32_sum (Z.of_nat (S a)) (-1) = Some (Z.of_nat a)) as Hdown.
  { intros a Ha. rewrite i32_sum_fits by lia. f_equal. lia. }
  assert (i32_sum (Z.of_nat 0) (-1) = Some (-1)%Z) as Hbelow by done.
  destruct k; cbn [preprocessor_loop closes_all if_role insert_role delete_role];
    rewrite ?Hup by lia; try (apply Hnext; lia).
  all: destruct i as [|i], n as [|n], d as [|d]; rewrite ?Hdown by lia; try (apply Hnext; lia).
  all: rewrite ?Hbelow; simpl; rewrite ?andb_false_r; try done; apply IH; lia.
Qed.

(** The guard on directives accepts exactly the fragments whose conditionals, insertions and
    removals are each nested: every group is closed in the fragment, no closing word stands without
    its group, and [#ElsIf] and [#Else] only directly inside a conditional; no counter overflows
    below 2^31 tokens. *)
Theorem preprocessor_balanced_nested tokens :
  (Z.of_nat (length tokens) < 2 ^ 31)%Z ->
  exists answer, preprocessor_balanced tokens = Some answer /\
    (answer = true <->
     Nested if_role false (tok_kind <$> tokens) /\
     Nested insert_role false (tok_kind <$> tokens) /\
     Nested delete_role false (tok_kind <$> tokens)).
Proof.
  intros Hl. unfold preprocessor_balanced. rewrite (preprocessor_loop_counts _ 0 0 0) by (rewrite length_fmap; lia).
  eexists. split; [done|]. rewrite !andb_true_iff, !closes_all_spec. tauto.
Qed.

(** ** Merging errors *)

Definition move (delta : Z) (e : SyntaxError) : SyntaxError :=
  (MkRange (range_start e.1 + delta) (range_end e.1 + delta), e.2).

Lemma shifted_move e delta e' : shifted e delta = Some e' -> e' = move delta e.
Proof.
  unfold shifted, shift_offset, TextRange_new, move. intros H.
  repeat (case_match; simpl in H; try done). by simplify_eq.
Qed.

Section merge.
Context (node : NodeInfo) (delta : Z).

Abbreviation old := (text_range node).

Definition is_inside (e : SyntaxError) : bool := contains_range old e.1.
Definition is_after (e : SyntaxError) : bool := (range_end old <=? range_start e.1)%Z.
Definition is_before (e : SyntaxError) : bool := (range_end e.1 <=? range_start old)%Z.

(** An old error the merge can place: clear of the node's edges and on one side of its bounds. *)
Definition settled (e : SyntaxError) : Prop :=
  touches_edge_tokens e.1 node = false /\ (is_inside e || is_after e || is_before e = true).

(** What becomes of an old error. *)
Definition moved (e : SyntaxError) : list SyntaxError :=
  if is_inside e then [] else if is_after e then [move delta e] else [e].

(** The place of the fragment's errors: the first old error inside or behind the node. *)
Definition replaced (olds fragment : list SyntaxError) : list SyntaxError :=
  match list_find (fun e => is_inside e || is_after e = true) olds with
  | Some (i, _) => take i olds ++ fragment ++ (drop i olds ≫= moved)
  | None => olds ++ fragment
  end.

Lemma merge_loop_inserted olds acc es fragment inserted :
  merge_loop olds node delta true [] true acc = Merge (es, fragment, inserted) ->
  es = acc ++ (olds ≫= moved) /\ inserted = true /\ Forall settled olds.
Proof.
  revert acc. induction olds as [|e olds IH]; intros acc; simpl.
  { intros [= <- _ <-]. by rewrite app_nil_r. }
  destruct (touches_edge_tokens e.1 node) eqn:Et; [done|]. rewrite andb_false_r. simpl.
  unfold moved at 1. fold (is_inside e) (is_after e) (is_before e).
  destruct (is_inside e) eqn:Ei; [|destruct (is_after e) eqn:Ea; [|destruct (is_before e) eqn:Eb]];
    simpl.
  - intros (-> & -> & Hf)%IH. split_and!; [done..|]. constructor; [|done]. split; [done|]. by rewrite Ei.
  - destruct (shifted e delta) as [e'|] eqn:Es; [|done]. apply shifted_move in Es as ->. simpl.
    intros (-> & -> & Hf)%IH. rewrite <- app_assoc. split_and!; [done..|]. constructor; [|done].
    split; [done|]. by rewrite Ei, Ea.
  - intros (-> & -> & Hf)%IH. rewrite <- app_assoc. split_and!; [done..|]. constructor; [|done].
    split; [done|]. by rewrite Ei, Ea, Eb.
  - done.
Qed.

Lemma merge_loop_replaced olds acc es fragment rest inserted :
  merge_loop olds node delta true fragment false acc = Merge (es, rest, inserted) ->
  (if inserted then es else es ++ rest) = acc ++ replaced olds fragment /\ Forall settled olds.
Proof.
  unfold replaced. revert acc. induction olds as [|e olds IH]; intros acc.
  { simpl. intros [= <- <- <-]. done. }
  cbn [merge_loop list_find].
  destruct (touches_edge_tokens e.1 node) eqn:Et; [done|]. simpl andb at 1. cbn iota.
  fold (is_inside e) (is_after e) (is_before e).
  destruct (is_inside e) eqn:Ei; [|destruct (is_after e) eqn:Ea]; simpl.
  - intros (-> & -> & Hf)%merge_loop_inserted.
    unfold moved at 2. rewrite Ei, <- app_assoc. split; [done|]. constructor; [|done].
    split; [done|]. by rewrite Ei.
  - destruct (shifted e delta) as [e'|] eqn:Es; [|done]. apply shifted_move in Es as ->. simpl.
    intros (-> & -> & Hf)%merge_loop_inserted.
    unfold moved at 2. rewrite Ei, Ea, <- !app_assoc. split; [done|]. constructor; [|done].
    split; [done|]. by rewrite Ei, Ea.
  - destruct (is_before e) eqn:Eb; [|done]. intros (-> & Hf)%IH.
    split; [|constructor; [|done]; split; [done|by rewrite Ei, Ea, Eb]].
    destruct (list_find _ olds) as [[i x]|]; simpl; by rewrite <- app_assoc.
Qed.
End merge.

Lemma fragment_loop_moved errors node start es :
  fragment_loop errors node start true = Merge es ->
  es = move start <$> errors /\ Forall (fun e => touches_edge_tokens e.1 node = false) errors.
Proof.
  revert es. induction errors as [|e errors IH]; intros es; simpl; [by intros [= <-]|].
  destruct (touches_edge_tokens e.1 node) eqn:Et; [done|].
  destruct (shifted e start) as [e'|] eqn:Es; [|done]. apply shifted_move in Es as ->. simpl.
  destruct (fragment_loop errors node start true) as [es'| |]; [|done..]. simpl.
  intros [= <-]. destruct (IH es' eq_refl) as [-> Hf]. split; [done|by constructor].
Qed.

Lemma merge_errors_replaced olds node fragment new_node start delta errors :
  merge_errors olds node fragment new_node start delta true = Merge errors ->
  errors = replaced node delta olds (move start <$> fragment) /\
  Forall (settled node) olds /\
  Forall (fun e => touches_edge_tokens e.1 new_node = false) fragment.
Proof.
  unfold merge_errors.
  destruct (fragment_loop fragment new_node start true) as [es| |] eqn:Ef; [|done..].
  apply fragment_loop_moved in Ef as [-> Hf]. simpl.
  destruct (merge_loop olds node delta true (move start <$> fragment) false [])
    as [[[es rest] inserted]| |] eqn:Em; [|done..]. simpl. intros [= <-].
  apply merge_loop_replaced in Em as [E Hs]. split; [exact E|done].
Qed.

(** C37. A strict merge that is not refused replaces the node's errors and no others: the errors
    before the first one inside or behind the node stay, then come the fragment's errors moved to
    the node's start, then the rest without the node's own, those behind the node moved by the
    edit's delta. It is refused unless every old error is clear of the node's edge tokens and lies
    wholly before, inside or behind the node. *)
Theorem merge_replaces_errors olds node fragment new_node start delta errors :
  merge_errors olds node fragment new_node start delta true = Merge errors ->
  errors = replaced node delta olds (move start <$> fragment) /\
  Forall (settled node) olds /\
  Forall (fun e => touches_edge_tokens e.1 new_node = false) fragment.
Proof. apply merge_errors_replaced. Qed.

Definition in_order (es : list SyntaxError) : Prop :=
  StronglySorted (fun e f => range_start e.1 <= range_start f.1)%Z es.

Definition within (total : Z) (es : list SyntaxError) : Prop :=
  Forall (fun e => 0 <= range_start e.1 /\ range_start e.1 <= range_end e.1 /\
                   range_end e.1 <= total)%Z es.

(** A node as the tree gives it: its first token starts where it starts, its last ends where it
    ends. *)
Record node_at (node : NodeInfo) (start stop total : Z) : Prop := {
  node_range : text_range node = MkRange start stop;
  node_bounds : (0 <= start /\ start <= stop /\ stop <= total)%Z;
  node_first : exists r, first_token node = Some r /\ range_start r = start /\
    (start <= range_end r)%Z;
  node_last : exists r, last_token node = Some r /\ range_end r = stop /\
    (range_start r <= stop)%Z;
}.

Section order.
Context (node : NodeInfo) (start stop total delta : Z).
Hypothesis Hnode : node_at node start stop total.

(** The three places of an error, strictly apart. *)
Lemma settled_cases e :
  settled node e -> (range_start e.1 <= range_end e.1)%Z ->
  is_inside node e = true /\ (start < range_start e.1)%Z \/
  is_inside node e = false /\ is_after node e = true /\ (stop < range_start e.1)%Z \/
  is_inside node e = false /\ is_after node e = false /\ (range_end e.1 < start)%Z.
Proof.
  destruct Hnode as [Hr Hbounds (f & Hf & Hfs & Hfe) (l & Hl & Hls & Hle)].
  intros [Ht Hplace] He. revert Ht Hplace.
  unfold touches_edge_tokens, is_inside, is_after, is_before, contains_range. rewrite Hr, Hf, Hl.
  simpl. rewrite Hfs, Hls.
  repeat match goal with |- context [(?a <=? ?b)%Z] => destruct (Z.leb_spec a b) end; simpl;
    try done; intros _ _; lia.
Qed.

Lemma before_of_no_place e :
  ~ (is_inside node e || is_after node e = true) -> settled node e ->
  (range_start e.1 <= range_end e.1)%Z -> (range_end e.1 < start)%Z.
Proof.
  intros Hno Hs He. destruct (settled_cases e Hs He) as [[E _]|[(_ & E & _)|(_ & _ & ?)]]; [| |done];
    by rewrite E, ?orb_true_r in Hno.
Qed.

Lemma place_behind e :
  is_inside node e || is_after node e = true -> settled node e ->
  (range_start e.1 <= range_end e.1)%Z -> (start < range_start e.1)%Z.
Proof.
  intros Hp Hs He. pose proof (node_bounds _ _ _ _ Hnode).
  destruct (settled_cases e Hs He) as [[_ ?]|[(_ & _ & ?)|(E1 & E2 & _)]]; [done|lia|].
  by rewrite E1, E2 in Hp.
Qed.

(** Behind the first error that is not before the node. *)
Lemma moved_behind es :
  in_order es -> within total es -> Forall (settled node) es ->
  Forall (fun e => start < range_start e.1)%Z es ->
  in_order (es ≫= moved node delta) /\
  Forall (fun e => stop + delta < range_start e.1 /\ range_start e.1 <= range_end e.1 /\
                   range_end e.1 <= total + delta)%Z (es ≫= moved node delta).
Proof.
  unfold within. induction es as [|e es IH]; intros Ho Hw Hs Hb; [done|].
  apply StronglySorted_cons in Ho as [He Ho].
  apply Forall_cons in Hw as [(_ & Hw1 & Hw2) Hw]. apply Forall_cons in Hs as [Hse Hs].
  apply Forall_cons in Hb as [Hbe Hb]. destruct (IH Ho Hw Hs Hb) as [IHo IHw]. csimpl.
  unfold moved at 1 3.
  destruct (settled_cases e Hse Hw1) as [[-> _]|[(-> & -> & Hlt)|(_ & _ & Hlt)]]; [done| |lia].
  simpl. split; [|constructor; [simpl; lia|exact IHw]].
  apply StronglySorted_cons. split; [|exact IHo].
  apply Forall_forall. intros f (g & Hf & Hg)%list_elem_of_bind. simpl.
  eapply Forall_forall in He; [|exact Hg].
  unfold moved in Hf. repeat case_match; try by apply elem_of_nil in Hf.
  - apply list_elem_of_singleton in Hf as ->. simpl. lia.
  - rewrite Forall_forall in Hs, Hw, Hb. specialize (Hs g Hg). specialize (Hw g Hg).
    specialize (Hb g Hg). cbv beta in *.
    destruct (settled_cases g Hs) as [[? _]|[(? & ? & _)|(_ & _ & ?)]]; [lia|congruence..|lia].
Qed.

(** The errors of the fragment, moved to the node's start. *)
Lemma moved_fragment n es :
  in_order es -> within n es ->
  in_order (move start <$> es) /\
  Forall (fun e => start <= range_start e.1 /\ range_start e.1 <= range_end e.1 /\
                   range_end e.1 <= start + n)%Z (move start <$> es).
Proof.
  intros Ho Hw. split.
  - eapply StronglySorted_fmap; [|exact Ho]. simpl. lia.
  - apply Forall_fmap. eapply Forall_impl; [exact Hw|]. simpl. lia.
Qed.
End order.

(** Three ordered lists one behind the other. *)
Lemma in_order_parts a b c lo hi :
  in_order a -> in_order b -> in_order c ->
  Forall (fun e => range_start e.1 <= lo)%Z a ->
  Forall (fun e => lo <= range_start e.1 /\ range_start e.1 <= hi)%Z b ->
  Forall (fun e => lo <= range_start e.1 /\ hi <= range_start e.1)%Z c -> in_order (a ++ b ++ c).
Proof.
  rewrite !Forall_forall. intros Ha Hb Hc Hla Hlb Hlc.
  apply StronglySorted_app. split_and!; [|done|apply StronglySorted_app; split_and!; [|done..]].
  - intros x y Hx [Hy|Hy]%elem_of_app; specialize (Hla x Hx); cbv beta in Hla.
    + specialize (Hlb y Hy). simpl in *. lia.
    + specialize (Hlc y Hy). simpl in *. lia.
  - intros x y Hx Hy. specialize (Hlb x Hx). specialize (Hlc y Hy). simpl in *. lia.
Qed.

Lemma before_starts es start total :
  within total es -> Forall (fun e => range_end e.1 < start)%Z es ->
  Forall (fun e => range_start e.1 <= start)%Z es.
Proof.
  intros Hw Hb. eapply Forall_impl; [exact (proj2 (Forall_and _ _) (conj Hw Hb))|]. simpl. lia.
Qed.

(** A strict merge keeps the list of errors a list for the new text: when the old errors and
    the fragment's are in order of their starts and within their texts, the merged errors are in
    order and within the new text, whose length differs by the edit's delta. *)
Theorem merged_errors_in_order olds node fragment new_node start stop total delta errors :
  node_at node start stop total -> (0 <= stop - start + delta)%Z ->
  in_order olds -> within total olds ->
  in_order fragment -> within (stop - start + delta) fragment ->
  merge_errors olds node fragment new_node start delta true = Merge errors ->
  in_order errors /\ within (total + delta) errors.
Proof.
  intros Hn Hdelta Ho Hw Hof Hwf Hm.
  destruct (moved_fragment start _ _ Hof Hwf) as [Hfo Hfw].
  apply merge_errors_replaced in Hm as (-> & Hs & _).
  unfold replaced. destruct (list_find _ olds) as [[i e0]|] eqn:Ef.
  - apply list_find_Some in Ef as (Hi & He0 & Hfirst).
    rewrite <- (take_drop i olds) in Ho, Hw, Hs.
    apply StronglySorted_app in Ho as (_ & Ho1 & Ho2).
    apply Forall_app in Hw as [Hw1 Hw2]. apply Forall_app in Hs as [Hs1 Hs2].
    assert (Forall (fun e => range_end e.1 < start)%Z (take i olds)) as Hbefore.
    { apply Forall_lookup_2. intros j e [Hj Hlt]%lookup_take_Some.
      apply (before_of_no_place node start stop total Hn); [apply (Hfirst j e Hj Hlt)| |].
      - apply (Forall_lookup_1 _ _ j e Hs1). by apply lookup_take_Some.
      - apply (Forall_lookup_1 _ _ j e Hw1). by apply lookup_take_Some. }
    assert (Forall (fun e => start < range_start e.1)%Z (drop i olds)) as Hbehind.
    { rewrite (drop_S _ _ _ Hi) in *. apply StronglySorted_cons in Ho2 as [Hhd _].
      apply Forall_cons in Hs2 as [Hse _]. apply Forall_cons in Hw2 as [(_ & He & _) _].
      pose proof (place_behind node start stop total Hn e0 He0 Hse He).
      constructor; [done|]. eapply Forall_impl; [exact Hhd|]. simpl. lia. }
    destruct (moved_behind node start stop total delta Hn _ Ho2 Hw2 Hs2 Hbehind) as [Hmo Hmw].
    split.
    + apply in_order_parts with start (stop + delta)%Z; [done..| | |].
      * by apply before_starts with (total := total).
      * eapply Forall_impl; [exact Hfw|]. simpl. lia.
      * eapply Forall_impl; [exact Hmw|]. simpl. lia.
    + pose proof (node_bounds _ _ _ _ Hn).
      apply Forall_app_2; [|apply Forall_app_2].
      * eapply Forall_impl; [exact (proj2 (Forall_and _ _) (conj Hw1 Hbefore))|]. simpl. lia.
      * eapply Forall_impl; [exact Hfw|]. simpl. lia.
      * eapply Forall_impl; [exact Hmw|]. simpl. lia.
  - apply list_find_None in Ef.
    assert (Forall (fun e => range_end e.1 < start)%Z olds) as Hbefore.
    { apply Forall_lookup_2. intros j e Hj.
      apply (before_of_no_place node start stop total Hn);
        [apply (Forall_lookup_1 _ _ j e Ef Hj)|apply (Forall_lookup_1 _ _ j e Hs Hj)|
         apply (Forall_lookup_1 _ _ j e Hw Hj)]. }
    pose proof (node_bounds _ _ _ _ Hn). split.
    + rewrite <- (app_nil_r (_ <$> _)).
      apply in_order_parts with start (stop + delta)%Z; [done..|constructor| | |constructor].
      * by apply before_starts with (total := total).
      * eapply Forall_impl; [exact Hfw|]. simpl. lia.
    + apply Forall_app_2.
      * eapply Forall_impl; [exact (proj2 (Forall_and _ _) (conj Hw Hbefore))|]. simpl. lia.
      * eapply Forall_impl; [exact Hfw|]. simpl. lia.
Qed.

(** ** A method with an error before, inside and behind it *)

Definition sample_node : NodeInfo :=
  MkNode (MkRange 10 40) (Some (MkRange 10 19)) (Some (MkRange 30 40)).
Definition sample_new_node : NodeInfo :=
  MkNode (MkRange 0 32) (Some (MkRange 0 9)) (Some (MkRange 22 32)).

Definition sample_error (start : Z) : SyntaxError :=
  (MkRange start (start + 1), Custom "error" BumpToken).

Definition sample_olds : list SyntaxError := sample_error <$> [2; 22; 50]%Z.
Definition sample_fragment : list SyntaxError := [sample_error 12].

Lemma sample_node_at : node_at sample_node 10 40 60.
Proof. constructor; simpl; [done|lia|eexists; split; [done|simpl; lia]..]. Qed.

Lemma merge_replaces_errors_witness :
  merge_errors sample_olds sample_node sample_fragment sample_new_node 10 2 true =
    Merge (sample_error <$> [2; 22; 52]%Z) /\
  replaced sample_node 2 sample_olds (move 10 <$> sample_fragment) = sample_error <$> [2; 22; 52]%Z.
Proof.
  assert (merge_errors sample_olds sample_node sample_fragment sample_new_node 10 2 true =
    Merge (sample_error <$> [2; 22; 52]%Z)) as E by by vm_compute.
  split; [exact E|]. symmetry. exact (proj1 (merge_replaces_errors _ _ _ _ _ _ _ E)).
Defined.

Lemma merged_errors_in_order_witness :
  in_order (sample_error <$> [2; 22; 52]%Z) /\ within 62 (sample_error <$> [2; 22; 52]%Z).
Proof.
  apply (merged_errors_in_order sample_olds sample_node sample_fragment sample_new_node 10 40 60 2).
  - exact sample_node_at.
  - lia.
  - repeat constructor; simpl; lia.
  - repeat constructor; simpl; lia.
  - repeat constructor.
  - repeat constructor; simpl; lia.
  - by vm_compute.
Defined.

Lemma edit_between_minimal_witness :
  edit_between (chars "aa") (chars "aaa") = Some (Some (replacement (chars "aa") [] (chars "a"))) /\
  match edit_between (chars "aa") (chars "aaa") with
  | Some (Some e) => exists p x y q,
      as_bytes (chars "aa") = p ++ x ++ q /\ as_bytes (chars "aaa") = p ++ y ++ q /\
      e = replacement p x y
  | _ => False
  end.
Proof.
  split; [by vm_compute|].
  assert (str_len (chars "aa") < 2 ^ 32)%Z as H1 by by vm_compute.
  assert (str_len (chars "aaa") < 2 ^ 32)%Z as H2 by by vm_compute.
  pose proof (edit_between_minimal (chars "aa") (chars "aaa") H1 H2) as H. revert H.
  destruct (edit_between (chars "aa") (chars "aaa")) as [[e|]|]; [|done|done].
  intros (p & x & y & q & Hx & Hy & He & _). exists p, x, y, q. split_and!; assumption.
Defined.
