(* ===== verification/Cfg.v ===== *)
(** Cfg: control-flow graphs (crates/cfg/src/graph.rs, edge.rs, vertex.rs, cyclomatic.rs).

    The graph itself is a [DiGraph] of the petgraph library: a growing list of vertices addressed by
    their position and a list of edges.  What the library leaves open is a parameter: the order in
    which the edges of a vertex are enumerated ([EdgeOrder]) and the depth-first post-order
    ([DfsPostOrder]). *)
From stdpp Require Import prelude gmap.
From S2P Require Import Prelude.

(** ** Data *)

(** Positions in arenas and graphs. *)
Abbreviation ExprId := nat.
Abbreviation StmtId := nat.
Abbreviation BindingId := nat.
Abbreviation NodeIndex := nat.
Abbreviation LocalRange := TextRange.

Inductive CfgEdgeType : Set :=
| Unconditional | TrueBranch | FalseBranch | Exception | Unexecutable.

#[export] Instance CfgEdgeType_eq_dec : EqDecision CfgEdgeType.
Proof. solve_decision. Defined.

Definition is_executable (k : CfgEdgeType) : bool :=
  match k with Unexecutable => false | _ => true end.

Inductive CfgVertex : Set :=
| BasicBlock (statements : list StmtId)
| Conditional (condition : ExprId)
| WhileHeader (condition : ExprId)
| ForHeader (loop_var : BindingId) (from to : ExprId)
| ForEachHeader (loop_var : BindingId) (collection : ExprId)
| TryVertex
| PreprocCondition (condition_range : LocalRange) (directive_range full_range : option LocalRange)
| Exit.

Record Edge : Set := MkEdge { e_source : NodeIndex; e_target : NodeIndex; e_weight : CfgEdgeType }.

Record ControlFlowGraph : Type := MkGraph {
  g_nodes : list CfgVertex;
  g_edges : list Edge;
  statement_origins : gmap NodeIndex StmtId;
  g_start : option NodeIndex;
  g_exit : NodeIndex;
}.

(** [PartialEq::eq]: it compares the start, the exit and the two counts. *)
Definition graph_eq (a b : ControlFlowGraph) : bool :=
  if negb (bool_decide (g_start a = g_start b)) || negb (bool_decide (g_exit a = g_exit b)) then false
  else if negb (length (g_nodes a) =? length (g_nodes b))%nat ||
          negb (length (g_edges a) =? length (g_edges b))%nat then false
  else true.

(** ** The library's parameters *)

(** The order in which the edges of one vertex are enumerated: some order of all of them. *)
Class EdgeOrder := edge_order : list Edge -> list Edge.

Class EdgeOrderLaw `{EdgeOrder} := edge_order_permutes : forall es, edge_order es ≡ₚ es.

(** [DfsPostOrder] over the edges [es] from a vertex. *)
Class DfsPostOrder := dfs_post_order : list Edge -> NodeIndex -> list NodeIndex.

(** ** Operations *)

Definition Graph_new : ControlFlowGraph := MkGraph [Exit] [] ∅ None 0.

Definition add_vertex (v : CfgVertex) (g : ControlFlowGraph) : NodeIndex * ControlFlowGraph :=
  (length (g_nodes g),
   MkGraph (g_nodes g ++ [v]) (g_edges g) (statement_origins g) (g_start g) (g_exit g)).

Definition add_vertex_with_origin (v : CfgVertex) (stmt : StmtId) (g : ControlFlowGraph)
    : NodeIndex * ControlFlowGraph :=
  let '(index, g) := add_vertex v g in
  (index, MkGraph (g_nodes g) (g_edges g) (<[index := stmt]> (statement_origins g)) (g_start g) (g_exit g)).

Definition source_stmt_id (g : ControlFlowGraph) (index : NodeIndex) : option StmtId :=
  statement_origins g !! index.

(** The library panics when an end of the edge does not exist: [None]. *)
Definition add_edge (source target : NodeIndex) (k : CfgEdgeType) (g : ControlFlowGraph)
    : option ControlFlowGraph :=
  if (source <? length (g_nodes g))%nat && (target <? length (g_nodes g))%nat
  then Some (MkGraph (g_nodes g) (g_edges g ++ [MkEdge source target k]) (statement_origins g)
               (g_start g) (g_exit g))
  else None.

Definition set_start (start : NodeIndex) (g : ControlFlowGraph) : ControlFlowGraph :=
  MkGraph (g_nodes g) (g_edges g) (statement_origins g) (Some start) (g_exit g).

Definition vertex (g : ControlFlowGraph) (index : NodeIndex) : option CfgVertex := g_nodes g !! index.

Definition vertex_exists (g : ControlFlowGraph) (index : NodeIndex) : bool :=
  bool_decide (is_Some (vertex g index)).

Definition contains_vertex (g : ControlFlowGraph) (index : NodeIndex) : bool := vertex_exists g index.

(** [vertex_mut] and a change through the reference. *)
Definition alter_vertex (f : CfgVertex -> CfgVertex) (index : NodeIndex) (g : ControlFlowGraph)
    : ControlFlowGraph :=
  MkGraph (alter f index (g_nodes g)) (g_edges g) (statement_origins g) (g_start g) (g_exit g).

Definition vertex_count (g : ControlFlowGraph) : nat := length (g_nodes g).
Definition edge_count (g : ControlFlowGraph) : nat := length (g_edges g).

(** [node_indices] with the vertices. *)
Definition vertices (g : ControlFlowGraph) : list (NodeIndex * CfgVertex) := imap pair (g_nodes g).

Section order.
Context `{EdgeOrder}.

Definition outgoing_edges (g : ControlFlowGraph) (v : NodeIndex) : list (NodeIndex * CfgEdgeType) :=
  (fun e => (e_target e, e_weight e)) <$> edge_order (filter (fun e => e_source e = v) (g_edges g)).

Definition incoming_edges (g : ControlFlowGraph) (v : NodeIndex) : list (NodeIndex * CfgEdgeType) :=
  (fun e => (e_source e, e_weight e)) <$> edge_order (filter (fun e => e_target e = v) (g_edges g)).

Definition in_degree (g : ControlFlowGraph) (v : NodeIndex) : nat := length (incoming_edges g v).
End order.

Section dfs.
Context `{DfsPostOrder}.

Definition reverse_postorder (g : ControlFlowGraph) : list NodeIndex :=
  match g_start g with
  | None => []
  | Some start => reverse (dfs_post_order (g_edges g) start)
  end.

Definition reversed (es : list Edge) : list Edge :=
  (fun e => MkEdge (e_target e) (e_source e) (e_weight e)) <$> es.

Definition postorder_from_exit (g : ControlFlowGraph) : list NodeIndex :=
  dfs_post_order (reversed (g_edges g)) (g_exit g).
End dfs.

(** [remove_node] of the library: the last vertex takes the place of the removed one. *)
Definition renamed (last removed v : NodeIndex) : NodeIndex := if decide (v = last) then removed else v.

Definition remove_node (v : NodeIndex) (g : ControlFlowGraph) : list CfgVertex * list Edge :=
  let last := (length (g_nodes g) - 1)%nat in
  let nodes :=
    match g_nodes g !! last with
    | Some x => take last (<[v := x]> (g_nodes g))
    | None => g_nodes g
    end in
  (nodes,
   (fun e => MkEdge (renamed last v (e_source e)) (renamed last v (e_target e)) (e_weight e)) <$>
     filter (fun e => e_source e <> v /\ e_target e <> v) (g_edges g)).

Definition remove_vertex (v : NodeIndex) (g : ControlFlowGraph) : option CfgVertex * ControlFlowGraph :=
  match vertex g v with
  | None => (None, g)
  | Some removed =>
      let last := (length (g_nodes g) - 1)%nat in
      let origins := delete v (statement_origins g) in
      let origins :=
        if decide (v <> last) then
          match origins !! last with
          | Some stmt => <[v := stmt]> (delete last origins)
          | None => origins
          end
        else origins in
      let '(nodes, edges) := remove_node v g in
      (Some removed, MkGraph nodes edges origins (g_start g) (g_exit g))
  end.

(** The size of a type on the target is a number of the build, here a parameter. *)
Definition estimated_heap (vertex_size edge_size index_size stmt_size : Z) (g : ControlFlowGraph) : Z :=
  (Z.of_nat (vertex_count g) * (vertex_size + 8) + Z.of_nat (edge_count g) * (edge_size + 16) +
   Z.of_nat (size (statement_origins g)) * (index_size + stmt_size) +
   foldr (fun v n => match v with BasicBlock b => Z.of_nat (length b) * stmt_size + n | _ => n end)
     0 (g_nodes g))%Z.

(** ** Cyclomatic complexity *)

Section cyclomatic.
Context `{EdgeOrder}.

(** [for edge in graph.edges(node)]: targets over executable edges not seen before are pushed. *)
Fixpoint push_targets (edges : list (NodeIndex * CfgEdgeType)) (reachable : gset NodeIndex)
    (stack : list NodeIndex) : gset NodeIndex * list NodeIndex :=
  match edges with
  | [] => (reachable, stack)
  | (target, k) :: edges =>
      if negb (is_executable k) then push_targets edges reachable stack
      else if decide (target ∈ reachable) then push_targets edges reachable stack
      else push_targets edges ({[target]} ∪ reachable) (target :: stack)
  end.

(** [while let Some(node) = stack.pop()]; the head is the top. *)
Fixpoint reach_loop (fuel : nat) (g : ControlFlowGraph) (reachable : gset NodeIndex)
    (stack : list NodeIndex) : option (gset NodeIndex) :=
  match fuel with
  | O => None
  | S fuel =>
      match stack with
      | [] => Some reachable
      | node :: stack =>
          let '(reachable, stack) := push_targets (outgoing_edges g node) reachable stack in
          reach_loop fuel g reachable stack
      end
  end.

(** The edges the second loop counts. *)
Definition counted_edges (g : ControlFlowGraph) (reachable : gset NodeIndex) : Z :=
  foldr (fun node n =>
    Z.of_nat (length (filter (fun e : NodeIndex * CfgEdgeType =>
      is_executable e.2 = true /\ e.1 ∈ reachable) (outgoing_edges g node))) + n)%Z
    0%Z (elements reachable).

(** Every vertex is pushed once. *)
Definition cyclomatic_complexity (g : ControlFlowGraph) : option Z :=
  match g_start g with
  | None => Some 1%Z
  | Some start =>
      reachable ← reach_loop (S (S (length (g_nodes g)))) g {[start]} [start];
      let v := (counted_edges g reachable - Z.of_nat (size reachable) + 2)%Z in
      Some (Z.max v 1)
  end.
End cyclomatic.

(** ** Paths *)

(** Edges join vertices of the graph, which holds its start and its exit. *)
Definition well_formed (g : ControlFlowGraph) : Prop :=
  Forall (fun e => e_source e < length (g_nodes g) /\ e_target e < length (g_nodes g))%nat (g_edges g) /\
  (forall v, g_start g = Some v -> v < length (g_nodes g))%nat /\ (g_exit g < length (g_nodes g))%nat.

Definition steps (es : list Edge) (u v : NodeIndex) : Prop :=
  exists k, MkEdge u v k ∈ es.

(** An execution may step from [u] to [v]. *)
Definition exec_steps (es : list Edge) (u v : NodeIndex) : Prop :=
  exists k, is_executable k = true /\ MkEdge u v k ∈ es.

(** What the documentation of the depth-first post-order promises: every vertex that the start
    reaches, once. *)
Definition dfs_law `{DfsPostOrder} (es : list Edge) (start : NodeIndex) : Prop :=
  NoDup (dfs_post_order es start) /\
  forall v, v ∈ dfs_post_order es start <-> rtc (steps es) start v.

(** A decidable check of that law for a given list: its last vertex is the start, every other one
    has an edge from a vertex after it, and edges do not leave the list. *)
Fixpoint seen_from (es : list Edge) (seen l : list NodeIndex) : bool :=
  match l with
  | [] => true
  | v :: l =>
      existsb (fun e => bool_decide (e_target e = v) && bool_decide (e_source e ∈ seen)) es &&
      seen_from es (v :: seen) l
  end.

Definition dfs_check (es : list Edge) (start : NodeIndex) (l : list NodeIndex) : bool :=
  bool_decide (NoDup l) &&
  forallb (fun e => negb (bool_decide (e_source e ∈ l)) || bool_decide (e_target e ∈ l)) es &&
  match reverse l with
  | [] => false
  | v :: rest => bool_decide (v = start) && seen_from es [start] rest
  end.

Lemma seen_from_reached es start seen l :
  seen_from es seen l = true -> (forall v, v ∈ seen -> rtc (steps es) start v) ->
  forall v, v ∈ l -> rtc (steps es) start v.
Proof.
  revert seen. induction l as [|w l IH]; intros seen; simpl.
  { intros _ _ v Hv. by apply elem_of_nil in Hv. }
  intros [He Hl]%andb_true_iff Hs.
  assert (rtc (steps es) start w) as Hw.
  { apply existsb_exists in He as ([u t k] & Hin%list_elem_of_In & [Ht Hu]%andb_true_iff).
    apply bool_decide_eq_true in Ht as <-. apply bool_decide_eq_true in Hu.
    eapply rtc_r; [by apply Hs|by exists k]. }
  intros v [->|Hv]%elem_of_cons; [done|]. apply (IH _ Hl); [|done].
  intros x [->|Hx]%elem_of_cons; [done|by apply Hs].
Qed.

Lemma dfs_check_law `{DfsPostOrder} es start :
  dfs_check es start (dfs_post_order es start) = true -> dfs_law es start.
Proof.
  unfold dfs_check, dfs_law. generalize (dfs_post_order es start) as l. intros l.
  intros [[Hnd Hcl]%andb_true_iff Hrev]%andb_true_iff. apply bool_decide_eq_true in Hnd.
  destruct (reverse l) as [|x rest] eqn:E; [done|].
  apply andb_true_iff in Hrev as [->%bool_decide_eq_true Hseen].
  assert (forall v, v ∈ l <-> v = start \/ v ∈ rest) as Hl.
  { intros v. by rewrite <- elem_of_reverse, E, elem_of_cons. }
  split; [done|]. intros v. split.
  - intros [->|Hv]%Hl; [done|]. apply (seen_from_reached es start _ _ Hseen); [|done].
    by intros w ->%list_elem_of_singleton.
  - intros Hr. assert (start ∈ l) as Hs by (apply Hl; by left). revert Hs.
    eapply (rtc_closed _ (.∈ l)); [|exact Hr]. intros u w Hu [k Hk].
    rewrite forallb_forall in Hcl. apply list_elem_of_In, Hcl in Hk. simpl in Hk.
    rewrite (bool_decide_true (u ∈ l)) in Hk by done. by apply bool_decide_eq_true in Hk.
Qed.

Section edges.
Context `{EdgeOrderLaw}.

Lemma elem_of_outgoing g u v k : (v, k) ∈ outgoing_edges g u <-> MkEdge u v k ∈ g_edges g.
Proof.
  unfold outgoing_edges. rewrite list_elem_of_fmap. setoid_rewrite edge_order_permutes.
  setoid_rewrite list_elem_of_filter. split.
  - intros ([s t w] & [= -> ->] & [= ->] & Hin). done.
  - intros Hin. by exists (MkEdge u v k).
Qed.

Lemma elem_of_incoming g u v k : (u, k) ∈ incoming_edges g v <-> MkEdge u v k ∈ g_edges g.
Proof.
  unfold incoming_edges. rewrite list_elem_of_fmap. setoid_rewrite edge_order_permutes.
  setoid_rewrite list_elem_of_filter. split.
  - intros ([s t w] & [= -> ->] & [= ->] & Hin). done.
  - intros Hin. by exists (MkEdge u v k).
Qed.

(** The edges of a vertex are those that leave it, each once, whatever the order. *)
Lemma length_outgoing_filter g u (P : NodeIndex * CfgEdgeType -> Prop) `{!forall x, Decision (P x)} :
  length (filter P (outgoing_edges g u)) =
  length (filter (fun e => e_source e = u /\ P (e_target e, e_weight e)) (g_edges g)).
Proof.
  unfold outgoing_edges. rewrite edge_order_permutes.
  induction (g_edges g) as [|e es IH]; [done|].
  rewrite !filter_cons. destruct (decide (e_source e = u)) as [E|E].
  - rewrite fmap_cons, filter_cons.
    destruct (decide (P (e_target e, e_weight e))) as [HP|HP].
    + rewrite decide_True by done. simpl. by rewrite IH.
    + rewrite decide_False by tauto. apply IH.
  - rewrite decide_False by tauto. apply IH.
Qed.

(** ** The search for the executed part *)

Lemma push_targets_spec edges reachable stack reachable' stack' :
  push_targets edges reachable stack = (reachable', stack') ->
  exists pushed, stack' = pushed ++ stack /\ NoDup pushed /\
    reachable' = list_to_set pushed ∪ reachable /\ (forall v, v ∈ pushed -> v ∉ reachable) /\
    (forall v, v ∈ pushed -> exists k, is_executable k = true /\ (v, k) ∈ edges) /\
    (forall v k, is_executable k = true -> (v, k) ∈ edges -> v ∈ reachable').
Proof.
  revert reachable stack. induction edges as [|[t k] edges IH]; intros reachable stack; simpl.
  { intros [= <- <-]. exists []. split_and!; [done|constructor|set_solver..]. }
  destruct (is_executable k) eqn:Ek; simpl; [|].
  - destruct (decide (t ∈ reachable)) as [Hin|Hin].
    + intros (ps & -> & Hnd & -> & Hnew & Hfrom & Hall)%IH. exists ps.
      split_and!; [done..|set_solver|]. intros v k' Hk [[= -> ->]|Hv]%elem_of_cons; [set_solver|].
      by eapply Hall.
    + intros (ps & -> & Hnd & -> & Hnew & Hfrom & Hall)%IH. exists (ps ++ [t]).
      split_and!.
      * by rewrite <- app_assoc.
      * apply NoDup_app. split_and!; [done| |apply NoDup_singleton]. set_solver.
      * set_solver.
      * set_solver.
      * intros v [Hv| ->%list_elem_of_singleton]%elem_of_app; [set_solver|]. exists k. set_solver.
      * intros v k' Hk [[= -> ->]|Hv]%elem_of_cons; [set_solver|]. pose proof (Hall v k' Hk Hv). set_solver.
  - intros (ps & -> & Hnd & -> & Hnew & Hfrom & Hall)%IH. exists ps.
    split_and!; [done..|set_solver|]. intros v k' Hk [[= -> ->]|Hv]%elem_of_cons; [congruence|].
    by eapply Hall.
Qed.

Lemma reach_loop_spec g start fuel reachable stack :
  well_formed g ->
  (forall v, v ∈ reachable -> rtc (exec_steps (g_edges g)) start v /\ v < length (g_nodes g))%nat ->
  start ∈ reachable -> (forall v, v ∈ stack -> v ∈ reachable) -> NoDup stack ->
  (forall u v, u ∈ reachable -> u ∉ stack -> exec_steps (g_edges g) u v -> v ∈ reachable) ->
  (length (g_nodes g) - size reachable + length stack < fuel)%nat ->
  exists r, reach_loop fuel g reachable stack = Some r /\
    forall v, v ∈ r <-> rtc (exec_steps (g_edges g)) start v.
Proof.
  intros [Hwf _]. revert reachable stack.
  induction fuel as [|fuel IH]; intros reachable stack Hr Hstart Hs Hnd Hclosed Hf; [lia|]. simpl.
  destruct stack as [|u stack].
  { exists reachable. split; [done|]. intros v. split; [apply Hr|].
    intros Hv. revert Hstart. eapply (rtc_closed _ (.∈ reachable)); [|exact Hv].
    intros x y Hx Hxy. apply (Hclosed x y); [done|set_solver|done]. }
  apply NoDup_cons in Hnd as [Hu Hnd].
  destruct (push_targets (outgoing_edges g u) reachable stack) as [reachable' stack'] eqn:E.
  apply push_targets_spec in E as (ps & -> & Hpnd & -> & Hnew & Hfrom & Hall).
  assert (Hsize : size (list_to_set ps ∪ reachable) = (length ps + size reachable)%nat).
  { rewrite size_union by set_solver. by rewrite size_list_to_set. }
  assert (Hps : forall v, v ∈ ps ->
    rtc (exec_steps (g_edges g)) start v /\ (v < length (g_nodes g))%nat).
  { intros v (k & Hk & Hv%elem_of_outgoing)%Hfrom. split.
    - apply rtc_r with u; [apply Hr; set_solver|]. by exists k.
    - rewrite Forall_forall in Hwf. apply Hwf in Hv. simpl in Hv. lia. }
  assert (Hbound : (size (list_to_set ps ∪ reachable) <= length (g_nodes g))%nat).
  { rewrite <- (size_set_seq (C := gset nat) 0 (length (g_nodes g))).
    apply subseteq_size. intros v [Hv|Hv]%elem_of_union; apply elem_of_set_seq.
    - apply elem_of_list_to_set in Hv. apply Hps in Hv. lia.
    - apply Hr in Hv. lia. }
  apply IH.
  - intros v [Hv%elem_of_list_to_set|Hv]%elem_of_union; [by apply Hps|by apply Hr].
  - set_solver.
  - set_solver.
  - apply NoDup_app. split_and!; [done| |done]. intros v Hv Hv'. apply (Hnew v Hv). set_solver.
  - intros x v Hx Hxs Hstep. destruct (decide (x = u)) as [->|Hxu].
    + destruct Hstep as (k & Hk & Hin). apply (Hall v k Hk). by apply elem_of_outgoing.
    + apply elem_of_union_r. apply (Hclosed x v); [|set_solver|done].
      apply elem_of_union in Hx as [Hx%elem_of_list_to_set|Hx]; [set_solver|done].
  - rewrite length_app, Hsize. simpl in Hf. lia.
Qed.

(** Edges counted vertex by vertex are counted once. *)
Lemma count_by_source (Q : Edge -> Prop) `{!forall e, Decision (Q e)} xs es :
  NoDup xs ->
  foldr (fun x n => Z.of_nat (length (filter (fun e => e_source e = x /\ Q e) es)) + n)%Z 0%Z xs =
  Z.of_nat (length (filter (fun e => e_source e ∈ xs /\ Q e) es)).
Proof.
  induction 1 as [|x xs Hx _ IH]; simpl.
  - induction es as [|e es IH]; [done|].
    rewrite filter_cons_False; [done|]. intros [Hin _]. by apply elem_of_nil in Hin.
  - rewrite IH. clear IH. rewrite <- Nat2Z.inj_add. f_equal.
    induction es as [|e es IH]; [done|]. rewrite !filter_cons.
    destruct (decide (Q e)) as [HQ|HQ].
    + destruct (decide (e_source e = x)) as [E|E].
      * rewrite decide_True, decide_False, decide_True by set_solver. simpl. by rewrite IH.
      * rewrite decide_False by tauto. destruct (decide (e_source e ∈ xs)).
        -- rewrite !decide_True by set_solver. simpl. rewrite <- IH. lia.
        -- rewrite !decide_False by set_solver. apply IH.
    + by rewrite !decide_False by tauto.
Qed.

Lemma counted_edges_spec g (r : gset NodeIndex) :
  counted_edges g r = Z.of_nat (length (filter (fun e =>
    e_source e ∈ elements r /\ is_executable (e_weight e) = true /\ e_target e ∈ r) (g_edges g))).
Proof.
  rewrite <- (count_by_source (fun e => is_executable (e_weight e) = true /\ e_target e ∈ r))
    by apply NoDup_elements.
  unfold counted_edges. induction (elements r) as [|x xs IH]; [done|]. simpl. rewrite IH. do 2 f_equal.
  by rewrite length_outgoing_filter.
Qed.
End edges.

(** The executable edges between vertices of [r]. *)
Definition executed_edges (g : ControlFlowGraph) (r : gset NodeIndex) : list Edge :=
  filter (fun e => e_source e ∈ r /\ is_executable (e_weight e) = true /\ e_target e ∈ r) (g_edges g).

(** C38. Cyclomatic complexity is computed from the executed part of the graph: the search ends with
    exactly the vertices that executable edges reach from the start, and the result is the number
    of executable edges between them less the number of these vertices plus two, and never below
    one; the order in which edges are enumerated does not matter. *)
Theorem cyclomatic_counts_executed `{EdgeOrderLaw} g start :
  well_formed g -> g_start g = Some start ->
  exists r : gset NodeIndex,
    (forall v, v ∈ r <-> rtc (exec_steps (g_edges g)) start v) /\
    cyclomatic_complexity g =
      Some (Z.max (Z.of_nat (length (executed_edges g r)) - Z.of_nat (size r) + 2) 1).
Proof.
  intros Hwf Hstart. pose proof Hwf as (_ & Hs & _). specialize (Hs start Hstart).
  destruct (reach_loop_spec g start (S (S (length (g_nodes g)))) {[start]} [start]) as (r & E & Hr).
  - done.
  - intros v ->%elem_of_singleton. by split.
  - set_solver.
  - set_solver.
  - apply NoDup_singleton.
  - set_solver.
  - rewrite size_singleton. simpl. lia.
  - exists r. split; [done|]. unfold cyclomatic_complexity. rewrite Hstart, E. simpl.
    rewrite counted_edges_spec. do 3 f_equal. unfold executed_edges. do 3 f_equal.
    apply list_filter_iff. intros [u v k]. simpl. by rewrite elem_of_elements.
Qed.

(** A decidable check of well-formedness. *)
Definition well_formed_check (g : ControlFlowGraph) : bool :=
  let n := length (g_nodes g) in
  forallb (fun e => (e_source e <? n)%nat && (e_target e <? n)%nat) (g_edges g) &&
  match g_start g with Some v => (v <? n)%nat | None => true end && (g_exit g <? n)%nat.

Lemma well_formed_checked g : well_formed_check g = true -> well_formed g.
Proof.
  unfold well_formed_check, well_formed. rewrite !andb_true_iff. intros [[He Hs] Hx].
  split_and!.
  - rewrite Forall_forall. intros e Hin%list_elem_of_In. rewrite forallb_forall in He.
    specialize (He e Hin). rewrite andb_true_iff, !Nat.ltb_lt in He. done.
  - intros v Hv. rewrite Hv in Hs. by apply Nat.ltb_lt.
  - by apply Nat.ltb_lt.
Qed.

(** Edges enumerated as the list has them. *)
Definition as_listed : EdgeOrder := fun es => es.

Lemma as_listed_law : @EdgeOrderLaw as_listed.
Proof. intros es. done. Qed.

(** A loop whose body leaves over an edge that is not executed. *)
Definition small_loop : ControlFlowGraph :=
  MkGraph [Exit; BasicBlock [0]; WhileHeader 0; BasicBlock [1]; BasicBlock [2]]
    [MkEdge 1 2 Unconditional; MkEdge 2 3 TrueBranch; MkEdge 3 2 Unconditional;
     MkEdge 2 0 FalseBranch; MkEdge 4 0 Unconditional; MkEdge 3 4 Unexecutable]
    ∅ (Some 1) 0.

Lemma cyclomatic_counts_executed_witness :
  well_formed small_loop /\
  exists r : gset NodeIndex, (forall v, v ∈ r <-> rtc (exec_steps (g_edges small_loop)) 1 v) /\
    @cyclomatic_complexity as_listed small_loop =
      Some (Z.max (Z.of_nat (length (executed_edges small_loop r)) - Z.of_nat (size r) + 2) 1).
Proof.
  split; [by apply well_formed_checked|].
  apply (@cyclomatic_counts_executed as_listed as_listed_law small_loop 1); [|done].
  by apply well_formed_checked.
Defined.

(** The same vertices and edges, but the back edge of the loop is not executed. *)
Definition broken_loop : ControlFlowGraph :=
  MkGraph (g_nodes small_loop)
    [MkEdge 1 2 Unconditional; MkEdge 2 3 TrueBranch; MkEdge 3 2 Unexecutable;
     MkEdge 2 0 FalseBranch; MkEdge 4 0 Unconditional; MkEdge 3 4 Unexecutable]
    ∅ (Some 1) 0.

(** Graphs that [==] takes for equal differ in what is computed from them. *)
Lemma graph_eq_is_coarse :
  graph_eq small_loop broken_loop = true /\
  @cyclomatic_complexity as_listed small_loop = Some 2%Z /\
  @cyclomatic_complexity as_listed broken_loop = Some 1%Z.
Proof. vm_compute. done. Qed.
