(* ===== verification/Dataflow.v ===== *)
(** Dataflow: the worklist solver over control-flow graphs (crates/dataflow/src/lib.rs).

    [Lattice] and [Transfer] are the two traits as classes; their laws, which the source leaves to
    the implementations, are classes of their own.  The forward and the backward solver are one loop
    with the roles of incoming and outgoing edges and of the two maps exchanged; it is written once
    over these roles.  The body a transfer function reads is fixed inside the instance. *)
From stdpp Require Import prelude gmap.
From S2P Require Import Prelude Cfg.

Definition DEFAULT_MAX_ITERATIONS : nat := 10000.

Inductive Direction : Set := Forward | Backward.

(** ** The traits *)

Class Lattice (L : Type) := join : L -> L -> L.

(** A state is below another when the join adds nothing to it. *)
Definition below `{Lattice L} (a b : L) : Prop := join a b = b.

Class LatticeLaws (L : Type) `{Lattice L} := {
  join_assoc : forall a b c, join (join a b) c = join a (join b c);
  join_comm : forall a b, join a b = join b a;
  join_idem : forall a, join a a = a;
}.

(** The [_in_place] forms the solver calls. *)
Class Transfer (L : Type) := {
  transfer_stmt : StmtId -> L -> L;
  transfer_expr : ExprId -> L -> L;
  transfer_edge : CfgEdgeType -> L -> L;
  transfer_loop_var_bind : BindingId -> L -> L;
  transfer_try_entry : StmtId -> L -> L;
}.

Class TransferLaws (L : Type) `{Lattice L, Transfer L} := {
  stmt_mono : forall s a b, below a b -> below (transfer_stmt s a) (transfer_stmt s b);
  expr_mono : forall e a b, below a b -> below (transfer_expr e a) (transfer_expr e b);
  edge_mono : forall k a b, below a b -> below (transfer_edge k a) (transfer_edge k b);
  bind_mono : forall v a b, below a b -> below (transfer_loop_var_bind v a) (transfer_loop_var_bind v b);
  try_mono : forall s a b, below a b -> below (transfer_try_entry s a) (transfer_try_entry s b);
}.

(** ** The solver *)

Record DataflowResult (L : Type) : Type := MkResult {
  block_in : gmap NodeIndex L;
  block_out : gmap NodeIndex L;
  converged : bool;
}.
Arguments MkResult {L} _ _ _.
Arguments block_in {L} _.
Arguments block_out {L} _.
Arguments converged {L} _.

Section solver.
Context `{EqDecision L, Lattice L, Transfer L}.

Definition transfer_block (g : ControlFlowGraph) (block_idx : NodeIndex) (in_state : L) : L :=
  match vertex g block_idx with
  | None => in_state
  | Some (BasicBlock statements) => foldl (fun state s => transfer_stmt s state) in_state statements
  | Some (WhileHeader condition) | Some (Conditional condition) => transfer_expr condition in_state
  | Some (ForHeader loop_var from to) =>
      transfer_loop_var_bind loop_var (transfer_expr to (transfer_expr from in_state))
  | Some (ForEachHeader loop_var collection) =>
      transfer_loop_var_bind loop_var (transfer_expr collection in_state)
  | Some TryVertex =>
      match source_stmt_id g block_idx with
      | Some try_stmt => transfer_try_entry try_stmt in_state
      | None => in_state
      end
  | Some (PreprocCondition _ _ _) | Some Exit => in_state
  end.

(** The states that arrive over the edges, joined in their order; vertices without a state do not
    contribute. *)
Fixpoint join_edges (edges : list (NodeIndex * CfgEdgeType)) (states : gmap NodeIndex L)
    (state : option L) : option L :=
  match edges with
  | [] => state
  | (other, k) :: edges =>
      let state :=
        match states !! other with
        | Some s =>
            let edge_state := transfer_edge k s in
            Some (match state with None => edge_state | Some s => join s edge_state end)
        | None => state
        end in
      join_edges edges states state
  end.

(** The maps before and after the vertices in the direction of the analysis: IN and OUT forwards,
    OUT and IN backwards. *)
Record Progress : Type := MkProgress {
  worklist : list NodeIndex;
  worklist_set : gset NodeIndex;
  iterations : nat;
  before : gmap NodeIndex L;
  after : gmap NodeIndex L;
}.

Section loop.
Context (feeding dependents : NodeIndex -> list (NodeIndex * CfgEdgeType)).
Context (transfer : NodeIndex -> L -> L).
Context (seed : option NodeIndex) (max_iterations : nat).

(** The state before a vertex: the seeded one, the join of its edges or the one it has. [None] is
    the panic of a vertex without a state. *)
Definition arriving (v : NodeIndex) (before after : gmap NodeIndex L) : option L :=
  let edges := feeding v in
  if bool_decide (Some v = seed) && bool_decide (edges = []) then before !! v
  else
    match join_edges edges after None with
    | Some state => Some state
    | None => before !! v
    end.

(** [if worklist_set.insert(v) { worklist.push_back(v) }] for every edge. *)
Fixpoint enqueue (edges : list (NodeIndex * CfgEdgeType)) (worklist : list NodeIndex)
    (set : gset NodeIndex) : list NodeIndex * gset NodeIndex :=
  match edges with
  | [] => (worklist, set)
  | (v, _) :: edges =>
      if decide (v ∈ set) then enqueue edges worklist set
      else enqueue edges (worklist ++ [v]) ({[v]} ∪ set)
  end.

(** One turn for the vertex taken off the worklist. *)
Definition visit (v : NodeIndex) (rest : list NodeIndex) (p : Progress) : option Progress :=
  state ← arriving v (before p) (after p);
  let before' := <[v := state]> (before p) in
  let out := transfer v state in
  let changed := match after p !! v with Some old => negb (bool_decide (out = old)) | None => true end in
  let set := worklist_set p ∖ {[v]} in
  if changed then
    let '(wl, set) := enqueue (dependents v) rest set in
    Some (MkProgress wl set (S (iterations p)) before' (<[v := out]> (after p)))
  else Some (MkProgress rest set (S (iterations p)) before' (after p)).

(** [while let Some(v) = worklist.pop_front()]; every turn counts an iteration, and the one that
    exceeds the budget is the last. *)
Fixpoint solve_loop (fuel : nat) (p : Progress) : option (Progress * bool) :=
  match fuel with
  | O => None
  | S fuel =>
      match worklist p with
      | [] => Some (p, true)
      | v :: rest =>
          if (max_iterations <? S (iterations p))%nat then Some (p, false)
          else p ← visit v rest p; solve_loop fuel p
      end
  end.

Definition solve_from (order : list NodeIndex) (before after : gmap NodeIndex L)
    : option (Progress * bool) :=
  solve_loop (S (S max_iterations)) (MkProgress order (list_to_set order) 0 before after).
End loop.

Context `{EdgeOrder, DfsPostOrder}.

(** [set_bottom_factory], then [set_initial_state] or [set_initial_state_at_exit]. *)
Definition bottoms (g : ControlFlowGraph) (bottom : L) : gmap NodeIndex L :=
  list_to_map ((fun v => (v, bottom)) <$> seq 0 (length (g_nodes g))).

Definition set_initial_state (g : ControlFlowGraph) (initial : L) (states : gmap NodeIndex L)
    : gmap NodeIndex L :=
  match g_start g with Some entry => <[entry := initial]> states | None => states end.

Definition set_initial_state_at_exit (g : ControlFlowGraph) (initial : L) (states : gmap NodeIndex L)
    : gmap NodeIndex L := <[g_exit g := initial]> states.

(** The assertion of both solvers: every vertex has its two states. *)
Definition initialized (g : ControlFlowGraph) (block_in block_out : gmap NodeIndex L) : bool :=
  forallb (fun v => bool_decide (is_Some (block_in !! v)) && bool_decide (is_Some (block_out !! v)))
    (seq 0 (length (g_nodes g))).

(** [None] is a panic. *)
Definition solve_forward (g : ControlFlowGraph) (max_iterations : nat)
    (block_in block_out : gmap NodeIndex L) : option (DataflowResult L) :=
  if initialized g block_in block_out then
    '(p, converged) ← solve_from (incoming_edges g) (outgoing_edges g) (transfer_block g)
       (g_start g) max_iterations (reverse_postorder g) block_in block_out;
    Some (MkResult (before p) (after p) converged)
  else None.

Definition solve_backward (g : ControlFlowGraph) (max_iterations : nat)
    (block_in block_out : gmap NodeIndex L) : option (DataflowResult L) :=
  if initialized g block_in block_out then
    '(p, converged) ← solve_from (outgoing_edges g) (incoming_edges g) (transfer_block g)
       (Some (g_exit g)) max_iterations (postorder_from_exit g) block_out block_in;
    Some (MkResult (after p) (before p) converged)
  else None.

Definition solve (d : Direction) (g : ControlFlowGraph) (max_iterations : nat)
    (block_in block_out : gmap NodeIndex L) : option (DataflowResult L) :=
  match d with
  | Forward => solve_forward g max_iterations block_in block_out
  | Backward => solve_backward g max_iterations block_in block_out
  end.
End solver.
Arguments Progress L : clear implicits.
Arguments MkProgress {L} _ _ _ _ _.
Arguments worklist {L} _.
Arguments worklist_set {L} _.
Arguments iterations {L} _.
Arguments before {L} _.
Arguments after {L} _.
