(* ===== verification/DataflowSpec.v ===== *)
(** DataflowSpec: what a run of the solver comes to.

    A converged run is a fixed point of the analysis' equations, whatever the lattice; with a join
    that is a semilattice and monotone transfer functions it covers every path, and with a bound on
    the height of the lattice it converges within a computed number of iterations. *)
From stdpp Require Import prelude gmap.
From S2P Require Import Prelude Cfg Dataflow.

(** ** The order of a semilattice *)

Section order.
Context `{LatticeLaws L}.

Lemma below_refl a : below a a.
Proof. apply join_idem. Qed.

Lemma below_trans a b c : below a b -> below b c -> below a c.
Proof. unfold below. intros Hab Hbc. by rewrite <- Hbc, <- join_assoc, Hab. Qed.

Lemma below_antisymm a b : below a b -> below b a -> a = b.
Proof. unfold below. intros Hab Hba. by rewrite <- Hab, join_comm, Hba. Qed.

Lemma below_join_l a b : below a (join a b).
Proof. unfold below. by rewrite <- join_assoc, join_idem. Qed.

Lemma below_join_r a b : below b (join a b).
Proof. rewrite join_comm. apply below_join_l. Qed.

Lemma join_least a b c : below a c -> below b c -> below (join a b) c.
Proof. unfold below. intros Ha Hb. by rewrite join_assoc, Hb. Qed.

Lemma join_mono a a' b b' : below a a' -> below b b' -> below (join a b) (join a' b').
Proof.
  intros Ha Hb. apply join_least; (eapply below_trans; [eassumption|]);
    [apply below_join_l|apply below_join_r].
Qed.
End order.

#[export] Hint Resolve below_refl below_join_l below_join_r : core.

Section blocks.
Context `{EqDecision L, TransferLaws L}.

(** Transfer through a vertex is monotone. *)
Lemma transfer_block_mono g v a b : below a b -> below (transfer_block g v a) (transfer_block g v b).
Proof.
  intros Hab. unfold transfer_block. destruct (vertex g v) as [[statements| | | | | | |]|]; try done.
  - revert a b Hab. induction statements as [|s statements IH]; intros a b Hab; [done|].
    simpl. by apply IH, stmt_mono.
  - by apply expr_mono.
  - by apply expr_mono.
  - by apply bind_mono, expr_mono, expr_mono.
  - by apply bind_mono, expr_mono.
  - destruct (source_stmt_id g v); [by apply try_mono|done].
Qed.
End blocks.

(** ** The loop *)

Section loop.
Context `{EqDecision L, Lattice L, Transfer L}.
Context (feeding dependents : NodeIndex -> list (NodeIndex * CfgEdgeType)).
Context (transfer : NodeIndex -> L -> L).
Context (seed : option NodeIndex) (max_iterations : nat).
Context (order : list NodeIndex).

Hypothesis Hdual : forall u v k, (u, k) ∈ feeding v -> exists k', (v, k') ∈ dependents u.
Hypothesis Hclosed : forall u v k, u ∈ order -> (v, k) ∈ dependents u -> v ∈ order.

Abbreviation arriving := (Dataflow.arriving feeding seed).
Abbreviation visit := (Dataflow.visit feeding dependents transfer seed).
Abbreviation solve_loop := (Dataflow.solve_loop feeding dependents transfer seed max_iterations).

(** The equations at a vertex. *)
Definition solved (before after : gmap NodeIndex L) (v : NodeIndex) : Prop :=
  exists s, before !! v = Some s /\ arriving v before after = Some s /\
    after !! v = Some (transfer v s).

Record LoopInv (p : Progress L) : Prop := {
  inv_nodup : NoDup (worklist p);
  inv_set : worklist_set p = list_to_set (worklist p);
  inv_order : forall v, v ∈ worklist p -> v ∈ order;
  inv_keys : forall v, v ∈ order -> is_Some (before p !! v) /\ is_Some (after p !! v);
  inv_solved : forall v, v ∈ order -> v ∉ worklist p -> solved (before p) (after p) v;
}.

Lemma enqueue_spec edges wl set wl' set' :
  set = list_to_set wl -> NoDup wl -> enqueue edges wl set = (wl', set') ->
  exists more, wl' = wl ++ more /\ NoDup wl' /\ set' = list_to_set wl' /\
    (length more <= length edges)%nat /\
    (forall v, v ∈ more -> exists k, (v, k) ∈ edges) /\
    (forall v k, (v, k) ∈ edges -> v ∈ wl').
Proof.
  revert wl set. induction edges as [|[v k] edges IH]; intros wl set -> Hnd; simpl.
  { intros [= <- <-]. exists []. rewrite app_nil_r. split_and!; [done..|set_solver|set_solver]. }
  destruct (decide (v ∈ (list_to_set wl : gset NodeIndex))) as [Hin|Hin]; intros E.
  - apply IH in E as (more & -> & Hnd' & -> & Hlen & Hfrom & Hall); [|done..]. exists more.
    apply elem_of_list_to_set in Hin.
    split_and!; [done..|lia| |].
    + intros x (k' & Hx)%Hfrom. exists k'. by apply list_elem_of_further.
    + intros x k' [[= -> ->]|Hx]%elem_of_cons; [by apply elem_of_app; left|by eapply Hall].
  - rewrite elem_of_list_to_set in Hin.
    apply IH in E as (more & -> & Hnd' & -> & Hlen & Hfrom & Hall).
    + exists (v :: more). rewrite <- app_assoc in *. split_and!; [done..|simpl; lia| |].
      * intros x [->|(k' & Hx)%Hfrom]%elem_of_cons; [exists k; by apply list_elem_of_here|].
        exists k'. by apply list_elem_of_further.
      * intros x k' [[= -> ->]|Hx]%elem_of_cons; [|by eapply Hall].
        apply elem_of_app. right. by apply list_elem_of_here.
    + rewrite list_to_set_app_L. simpl. set_solver.
    + apply NoDup_app. split_and!; [done| |apply NoDup_singleton].
      intros x Hx ->%list_elem_of_singleton. done.
Qed.
(** The state before a vertex depends on the states after those that feed it. *)
Lemma arriving_change u x v b a :
  (forall k, (u, k) ∉ feeding v) -> arriving v b (<[u := x]> a) = arriving v b a.
Proof.
  intros Hu. unfold Dataflow.arriving. destruct (bool_decide _ && bool_decide _) eqn:E; [done|].
  clear E. assert (join_edges (feeding v) (<[u := x]> a) None = join_edges (feeding v) a None) as ->; [|done].
  generalize (None : option L). induction (feeding v) as [|[w k] es IH]; intros st; [done|]. simpl.
  rewrite lookup_insert_ne; [|intros ->; apply (Hu k); by apply list_elem_of_here].
  apply IH. intros k' Hk'. apply (Hu k'). by apply list_elem_of_further.
Qed.

(** It reads the map before the vertices at the vertex itself only, and only for want of edges. *)
Lemma arriving_before v b b' a : b !! v = b' !! v -> arriving v b a = arriving v b' a.
Proof. intros E. unfold Dataflow.arriving. by rewrite E. Qed.

Lemma arriving_again v b a s : arriving v b a = Some s -> arriving v (<[v := s]> b) a = Some s.
Proof.
  unfold Dataflow.arriving. rewrite lookup_insert_eq. case_match; [done|].
  by destruct (join_edges (feeding v) a None).
Qed.

Lemma arriving_some v b a : is_Some (b !! v) -> is_Some (arriving v b a).
Proof. intros Hb. unfold Dataflow.arriving. repeat case_match; done || by eexists. Qed.

(** A visit ends, keeps the invariant and solves its vertex. *)
Lemma visit_spec p v rest :
  LoopInv p -> worklist p = v :: rest ->
  exists s p', arriving v (before p) (after p) = Some s /\ visit v rest p = Some p' /\ LoopInv p' /\
    iterations p' = S (iterations p) /\ before p' = <[v := s]> (before p) /\
    after p' = <[v := transfer v s]> (after p) /\
    (after p !! v = Some (transfer v s) /\ worklist p' = rest \/
     after p !! v <> Some (transfer v s) /\
       (length (worklist p') <= length rest + length (dependents v))%nat).
Proof.
  intros [Hnd Hset Hord Hkeys Hsolved] Hwl. rewrite Hwl in *.
  apply NoDup_cons in Hnd as [Hv Hnd].
  assert (v ∈ order) as Hvo by (apply Hord, list_elem_of_here).
  destruct (arriving_some v (before p) (after p)) as [s Hs]; [apply Hkeys, Hvo|].
  assert (worklist_set p ∖ {[v]} = list_to_set rest) as Hset'.
  { rewrite Hset. simpl. apply set_eq. intros x.
    rewrite elem_of_difference, elem_of_union, elem_of_list_to_set, elem_of_singleton.
    split; [tauto|]. intros Hx. split; [by right|]. by intros ->. }
  assert (forall a', a' = <[v := transfer v s]> (after p) -> forall w, w ∈ order ->
    is_Some (<[v := s]> (before p) !! w) /\ is_Some (a' !! w)) as Hkeys'.
  { intros a' -> w Hw. rewrite !lookup_insert_is_Some'. destruct (Hkeys w Hw). tauto. }
  unfold Dataflow.visit. rewrite Hs. simpl. rewrite Hset'.
  destruct (decide (after p !! v = Some (transfer v s))) as [Hsame|Hdiff].
  - rewrite Hsame, bool_decide_true by done. simpl.
    assert (<[v := transfer v s]> (after p) = after p) as Hafter by by apply insert_id.
    eexists s, _. split; [done|]. split; [done|]. simpl. rewrite Hafter.
    split; [|split_and!; [done..|by left]].
    constructor; simpl; [done|done| | |].
    + intros w Hw. apply Hord. by apply list_elem_of_further.
    + by apply Hkeys'.
    + intros w Hw Hw'. destruct (decide (w = v)) as [->|Hne].
      * exists s. rewrite lookup_insert_eq. split_and!; [done| |done]. by apply arriving_again.
      * destruct (Hsolved w Hw) as (t & Hb & Ha & Ht).
        { by intros [->|]%elem_of_cons. }
        exists t. rewrite lookup_insert_ne by done. split_and!; [done| |done].
        by rewrite (arriving_before w _ (before p)) by by rewrite lookup_insert_ne.
  - assert (match after p !! v with
      | Some old => negb (bool_decide (transfer v s = old)) | None => true end = true) as ->.
    { destruct (after p !! v); [|done]. rewrite bool_decide_false by congruence. done. }
    destruct (enqueue (dependents v) rest (list_to_set rest)) as [wl' set'] eqn:E.
    apply enqueue_spec in E as (more & -> & Hnd' & -> & Hlen & Hfrom & Hall); [|done..].
    eexists s, _. split; [done|]. split; [done|]. simpl.
    split; [|split_and!; [done..|right; split; [done|rewrite length_app; lia]]].
    constructor; simpl; [done|done| | |].
    + intros w [Hw|(k & Hk)%Hfrom]%elem_of_app.
      * apply Hord. by apply list_elem_of_further.
      * by apply (Hclosed v w k).
    + by apply Hkeys'.
    + intros w Hw Hw'.
      assert (forall k, (v, k) ∉ feeding w) as Hnofeed.
      { intros k (k' & Hk')%Hdual. by apply Hw', (Hall w k'). }
      destruct (decide (w = v)) as [->|Hne].
      * exists s. rewrite !lookup_insert_eq. split_and!; [done| |done].
        rewrite arriving_change by done. by apply arriving_again.
      * destruct (Hsolved w Hw) as (t & Hb & Ha & Ht).
        { intros [->|Hin]%elem_of_cons; [done|]. apply Hw', elem_of_app. by left. }
        exists t. rewrite !lookup_insert_ne by done. split_and!; [done| |done].
        rewrite arriving_change by done.
        by rewrite (arriving_before w _ (before p)) by by rewrite lookup_insert_ne.
Qed.

(** The loop ends within its budget; its invariant, and whatever else every visit keeps, holds for
    what it returns. *)
Lemma solve_loop_spec (Q : Progress L -> Prop) fuel p :
  (forall v rest p p', LoopInv p -> Q p -> worklist p = v :: rest -> visit v rest p = Some p' -> Q p') ->
  LoopInv p -> Q p -> (iterations p <= max_iterations)%nat ->
  (iterations p + fuel = S (S max_iterations))%nat ->
  exists p' c, solve_loop fuel p = Some (p', c) /\ LoopInv p' /\ Q p' /\
    (c = true -> worklist p' = []) /\ (c = false -> iterations p' = max_iterations /\ worklist p' <> []).
Proof.
  intros HQ. revert p. induction fuel as [|fuel IH]; intros p Hp Hq Hit Hf; [lia|]. simpl.
  destruct (worklist p) as [|v rest] eqn:Hwl; [by exists p, true|].
  destruct (Nat.ltb_spec max_iterations (S (iterations p))) as [Hover|Hgo].
  - exists p, false. split_and!; [done..|]. intros _. rewrite Hwl. split; [lia|done].
  - destruct (visit_spec p v rest Hp Hwl) as (s & p' & _ & Hv & Hp' & Hit' & _). rewrite Hv. simpl.
    apply IH; [done|by apply (HQ v rest p)|lia..].
Qed.

Context (before0 after0 : gmap NodeIndex L).
Hypothesis Hnodup : NoDup order.
Hypothesis Hkeys0 : forall v, v ∈ order -> is_Some (before0 !! v) /\ is_Some (after0 !! v).

Lemma initial_inv : LoopInv (MkProgress order (list_to_set order) 0 before0 after0).
Proof. by constructor. Qed.

Abbreviation solve_from :=
  (Dataflow.solve_from feeding dependents transfer seed max_iterations order before0 after0).

(** The run ends, and a converged one solves the equations of every vertex of the order. *)
Lemma solve_from_spec (Q : Progress L -> Prop) :
  (forall v rest p p', LoopInv p -> Q p -> worklist p = v :: rest -> visit v rest p = Some p' -> Q p') ->
  Q (MkProgress order (list_to_set order) 0 before0 after0) ->
  exists p c, solve_from = Some (p, c) /\ LoopInv p /\ Q p /\
    (c = true -> forall v, v ∈ order -> solved (before p) (after p) v) /\
    (c = false -> iterations p = max_iterations /\ worklist p <> []).
Proof.
  intros HQ Hq0. destruct (solve_loop_spec Q (S (S max_iterations)) _ HQ initial_inv Hq0)
    as (p & c & E & Hp & Hq & Hc & Hn); [simpl; lia..|].
  exists p, c. split_and!; [done..| |done]. intros Htrue v Hv. apply (inv_solved p Hp v Hv).
  rewrite Hc by done. by apply not_elem_of_nil.
Qed.

(** What no visit reaches stays as it was. *)
Definition kept_outside (p : Progress L) : Prop :=
  forall v, v ∉ order -> before p !! v = before0 !! v /\ after p !! v = after0 !! v.

Lemma kept_outside_visit v rest p p' :
  LoopInv p -> kept_outside p -> worklist p = v :: rest -> visit v rest p = Some p' -> kept_outside p'.
Proof.
  intros Hp Hk Hwl Hv. destruct (visit_spec p v rest Hp Hwl)
    as (s & p'' & _ & Hv' & _ & _ & Hb & Ha & _). assert (p'' = p') as -> by congruence.
  intros w Hw. rewrite Hb, Ha. assert (w <> v).
  { intros ->. apply Hw, (inv_order p Hp). rewrite Hwl. apply list_elem_of_here. }
  rewrite !lookup_insert_ne by done. by apply Hk.
Qed.
End loop.

(** ** Convergence *)

Section convergence.
Context `{EqDecision L, LatticeLaws L, !Transfer L}.
Context (feeding dependents : NodeIndex -> list (NodeIndex * CfgEdgeType)).
Context (transfer : NodeIndex -> L -> L).
Context (seed : option NodeIndex) (max_iterations : nat) (order : list NodeIndex).
Context (valid : L -> Prop) (rank : L -> nat) (height : nat).

Hypothesis Hdual : forall u v k, (u, k) ∈ feeding v -> exists k', (v, k') ∈ dependents u.
Hypothesis Hclosed : forall u v k, u ∈ order -> (v, k) ∈ dependents u -> v ∈ order.
Hypothesis Hmono : forall v a b, below a b -> below (transfer v a) (transfer v b).
Hypothesis Hedge : forall k a b, below a b -> below (transfer_edge k a) (transfer_edge k b).
Hypothesis Hjoin_valid : forall a b, valid a -> valid b -> valid (join a b).
Hypothesis Hedge_valid : forall k a, valid a -> valid (transfer_edge k a).
Hypothesis Htransfer_valid : forall v a, valid a -> valid (transfer v a).
Hypothesis Hrank : forall a b, valid a -> valid b -> below a b -> a <> b -> (rank a < rank b)%nat.
Hypothesis Hheight : forall a, valid a -> (rank a <= height)%nat.

Abbreviation arriving := (Dataflow.arriving feeding seed).
Abbreviation visit := (Dataflow.visit feeding dependents transfer seed).

(** One state per vertex, each below the other's. *)
Definition map_below (a b : gmap NodeIndex L) : Prop :=
  forall v, option_Forall2 below (a !! v) (b !! v).

Lemma join_edges_mono es a b st st' :
  map_below a b -> option_Forall2 below st st' ->
  option_Forall2 below (join_edges es a st) (join_edges es b st').
Proof.
  intros Hab. revert st st'. induction es as [|[u k] es IH]; intros st st' Hst; [done|]. simpl.
  apply IH. destruct (Hab u) as [s t Hs|]; [|done].
  constructor. destruct Hst; [by apply join_mono, Hedge|by apply Hedge].
Qed.

Lemma arriving_unfed v b a : feeding v = [] -> arriving v b a = b !! v.
Proof. intros E. unfold Dataflow.arriving. rewrite E. by case_match. Qed.

Lemma join_edges_some es a st :
  (forall u k, (u, k) ∈ es -> is_Some (a !! u)) -> es <> [] \/ is_Some st ->
  is_Some (join_edges es a st).
Proof.
  revert st. induction es as [|[u k] es IH]; intros st Ha Hst; [by destruct Hst|]. simpl.
  apply IH; [intros w k' Hw; apply (Ha w k'); by apply list_elem_of_further|right].
  destruct (Ha u k) as [s ->]; [apply list_elem_of_here|]. by eexists.
Qed.

Lemma arriving_fed v b a :
  feeding v <> [] -> (forall u k, (u, k) ∈ feeding v -> is_Some (a !! u)) ->
  arriving v b a = join_edges (feeding v) a None.
Proof.
  intros Hne Ha. unfold Dataflow.arriving. rewrite (bool_decide_false _ Hne), andb_false_r.
  destruct (join_edges_some (feeding v) a None Ha) as [s ->]; [by left|done].
Qed.

(** *** What every visit keeps *)

Definition all_valid (m : gmap NodeIndex L) : Prop := forall v s, m !! v = Some s -> valid s.

Lemma all_valid_insert m v s : all_valid m -> valid s -> all_valid (<[v := s]> m).
Proof.
  intros Hm Hs w t. destruct (decide (w = v)) as [->|Hne].
  - rewrite lookup_insert_eq. by intros [= <-].
  - rewrite lookup_insert_ne by done. apply Hm.
Qed.

Lemma arriving_valid v b a s : all_valid b -> all_valid a -> arriving v b a = Some s -> valid s.
Proof.
  intros Hb Ha.
  assert (forall es st r, (forall s, st = Some s -> valid s) -> join_edges es a st = Some r -> valid r)
    as Hjoin.
  { clear s. induction es as [|[u k] es IH]; intros st r Hst; simpl; [by intros ->; apply Hst|].
    apply IH. intros s. destruct (a !! u) as [t|] eqn:E; [|apply Hst].
    apply Ha in E. intros [= <-]. destruct st as [s0|]; [apply Hjoin_valid; [by apply Hst|by apply Hedge_valid]|by apply Hedge_valid]. }
  unfold Dataflow.arriving. case_match; [apply Hb|].
  destruct (join_edges (feeding v) a None) as [r|] eqn:E; [|apply Hb].
  intros [= <-]. eapply Hjoin; [|exact E]. done.
Qed.

(** All vertices that feed the order have a state, and no state is above what its equation asks. *)
Definition full (a : gmap NodeIndex L) : Prop :=
  forall v u k, v ∈ order -> (u, k) ∈ feeding v -> is_Some (a !! u).

Definition ascending (b a : gmap NodeIndex L) : Prop :=
  forall v, v ∈ order -> exists s old, arriving v b a = Some s /\ a !! v = Some old /\
    below old (transfer v s).

Definition weight (a : gmap NodeIndex L) (v : NodeIndex) : nat :=
  ((height - from_option rank 0%nat (a !! v)) * length (dependents v))%nat.

Definition effort (a : gmap NodeIndex L) : nat := sum_list_with (weight a) order.

Lemma map_below_insert a v old x : a !! v = Some old -> below old x -> map_below a (<[v := x]> a).
Proof.
  intros Hv Hx w. destruct (decide (w = v)) as [->|Hne].
  - rewrite Hv, lookup_insert_eq. by constructor.
  - rewrite lookup_insert_ne by done. destruct (a !! w); constructor. apply below_refl.
Qed.

(** Raising the state after [v] and recording the state before it keeps the equations ascending. *)
Lemma ascending_visit b a v s old :
  full a -> ascending b a -> v ∈ order -> arriving v b a = Some s -> a !! v = Some old ->
  full (<[v := transfer v s]> a) /\ ascending (<[v := s]> b) (<[v := transfer v s]> a).
Proof.
  intros Hfull Hasc Hv Hs Hold.
  assert (below old (transfer v s)) as Hraise.
  { destruct (Hasc v Hv) as (s' & old' & Hs' & Hold' & Hb). congruence. }
  assert (full (<[v := transfer v s]> a)) as Hfull'.
  { intros w u k Hw Hu. rewrite lookup_insert_is_Some'. right. by apply (Hfull w u k). }
  split; [done|]. intros w Hw. destruct (Hasc w Hw) as (t & oldw & Ht & Holdw & Hbw).
  pose proof (map_below_insert a v old (transfer v s) Hold Hraise) as Hup.
  assert (exists t', arriving w (<[v := s]> b) (<[v := transfer v s]> a) = Some t' /\ below t t')
    as (t' & Ht' & Hbt).
  { destruct (decide (feeding w = [])) as [Efed|Efed].
    - rewrite arriving_unfed in Ht |- * by done. exists t. split; [|apply below_refl].
      destruct (decide (w = v)) as [->|Hne]; [|by rewrite lookup_insert_ne].
      rewrite arriving_unfed in Hs by done. rewrite lookup_insert_eq. congruence.
    - rewrite (arriving_fed w b a Efed) in Ht by (intros u k Hu; by apply (Hfull w u k)).
      rewrite arriving_fed by (done || (intros u k Hu; by apply (Hfull' w u k))).
      pose proof (join_edges_mono (feeding w) _ _ None None Hup ltac:(constructor)) as Hj.
      rewrite Ht in Hj. inversion Hj; subst. by eexists. }
  exists t'. destruct (decide (w = v)) as [->|Hne].
  - exists (transfer v s). rewrite lookup_insert_eq. split_and!; [done..|].
    apply Hmono. assert (t = s) as -> by congruence. done.
  - exists oldw. rewrite lookup_insert_ne by done. split_and!; [done..|].
    eapply below_trans; [exact Hbw|]. by apply Hmono.
Qed.

Hypothesis Hnodup : NoDup order.

Lemma effort_insert a v x :
  v ∈ order -> (effort (<[v := x]> a) + weight a v = effort a + weight (<[v := x]> a) v)%nat.
Proof.
  intros Hv. unfold effort. apply list_elem_of_split in Hv as (l1 & l2 & E). rewrite E in Hnodup |- *.
  apply NoDup_app in Hnodup as (_ & H1 & H2). apply NoDup_cons in H2 as [H2 _].
  rewrite !sum_list_with_app. simpl.
  assert (forall l, v ∉ l -> sum_list_with (weight (<[v := x]> a)) l = sum_list_with (weight a) l) as Hout.
  { induction l as [|w l IH]; [done|]. intros [Hw Hl]%not_elem_of_cons. simpl. rewrite IH by done.
    unfold weight. by rewrite lookup_insert_ne. }
  rewrite !Hout; [lia|done|]. intros Hin. apply (H1 v Hin), list_elem_of_here.
Qed.

(** The visits that are left: those waiting and those that rising states may still cause. *)
Definition convergence_bound : nat :=
  (length order + height * sum_list_with (fun v => length (dependents v)) order)%nat.

Definition on_budget (p : Progress L) : Prop :=
  full (after p) /\ ascending (before p) (after p) /\ all_valid (before p) /\ all_valid (after p) /\
  (iterations p + length (worklist p) + effort (after p) <= convergence_bound)%nat.

Abbreviation LoopInv := (DataflowSpec.LoopInv feeding transfer seed order).

Lemma on_budget_visit v rest p p' :
  LoopInv p -> on_budget p -> worklist p = v :: rest -> visit v rest p = Some p' -> on_budget p'.
Proof.
  intros Hp (Hfull & Hasc & Hbv & Hav & Hle) Hwl Hv.
  destruct (visit_spec feeding dependents transfer seed order Hdual Hclosed p v rest Hp Hwl)
    as (s & p'' & Hs & Hv' & _ & Hit & Hb & Ha & Hcase). assert (p'' = p') as -> by congruence.
  assert (v ∈ order) as Hvo.
  { apply (inv_order _ _ _ _ _ Hp). rewrite Hwl. apply list_elem_of_here. }
  destruct (Hasc v Hvo) as (s' & old & Hs' & Hold & Hraise).
  assert (s' = s) as -> by congruence.
  destruct (ascending_visit _ _ v s old Hfull Hasc Hvo Hs Hold) as [Hf' Ha'].
  pose proof (arriving_valid v _ _ s Hbv Hav Hs) as Hsv.
  split; [by rewrite Ha|]. split; [by rewrite Ha, Hb|].
  split; [rewrite Hb; by apply all_valid_insert|].
  split; [rewrite Ha; by apply all_valid_insert, Htransfer_valid|].
  rewrite Hit, Ha. rewrite Hwl in Hle. simpl in Hle.
  destruct Hcase as [[Hsame Hwl']|[Hdiff Hwl']].
  - rewrite Hwl'. rewrite insert_id by done. lia.
  - pose proof (effort_insert (after p) v (transfer v s) Hvo) as Heff.
    assert (old <> transfer v s) as Hne by congruence.
    pose proof (Htransfer_valid v s Hsv) as Htv.
    pose proof (Hrank _ _ (Hav v old Hold) Htv Hraise Hne). pose proof (Hheight (transfer v s) Htv).
    unfold weight in Heff. rewrite Hold, lookup_insert_eq in Heff. simpl in Heff.
    assert ((height - rank old) * length (dependents v) >=
      (height - rank (transfer v s)) * length (dependents v) + length (dependents v))%nat.
    { replace (height - rank old)%nat
        with (S (height - rank (transfer v s)) + (rank (transfer v s) - rank old - 1))%nat by lia.
      nia. }
    lia.
Qed.

Lemma effort_le a : (effort a <= height * sum_list_with (fun v => length (dependents v)) order)%nat.
Proof.
  unfold effort.
  assert (forall l, (sum_list_with (weight a) l <=
    height * sum_list_with (fun v => length (dependents v)) l)%nat) as Hl; [|apply Hl].
  induction l as [|v l IH]; simpl; [lia|]. unfold weight at 1. nia.
Qed.

Context (before0 after0 : gmap NodeIndex L).
Hypothesis Hkeys0 : forall v, v ∈ order -> is_Some (before0 !! v) /\ is_Some (after0 !! v).

(** Within the bound the run converges. *)
Lemma solve_from_converges :
  full after0 -> ascending before0 after0 -> all_valid before0 -> all_valid after0 ->
  (convergence_bound <= max_iterations)%nat ->
  exists p, Dataflow.solve_from feeding dependents transfer seed max_iterations order before0 after0 =
    Some (p, true).
Proof.
  intros Hf Ha Hvb Hva Hb.
  destruct (solve_from_spec feeding dependents transfer seed max_iterations order Hdual Hclosed
    before0 after0 Hnodup Hkeys0 on_budget on_budget_visit) as (p & c & E & Hp & Hq & _ & Hn).
  - split_and!; [done..|]. simpl. pose proof (effort_le after0). unfold convergence_bound. lia.
  - destruct c; [by exists p|]. destruct (Hn eq_refl) as [Hit Hwl]. destruct Hq as (_ & _ & _ & _ & Hle).
    destruct (worklist p); [done|]. simpl in Hle. lia.
Qed.
End convergence.

(** ** The two solvers *)

Section solvers.
Context `{EqDecision L, Lattice L, Transfer L, EdgeOrderLaw, DfsPostOrder}.

Lemma bottoms_lookup g (bottom : L) v :
  (v < length (g_nodes g))%nat -> bottoms g bottom !! v = Some bottom.
Proof.
  intros Hv. unfold bottoms. apply elem_of_list_to_map_1.
  - rewrite <- list_fmap_compose. rewrite list_fmap_id. apply NoDup_seq.
  - apply list_elem_of_fmap. exists v. split; [done|]. apply elem_of_seq. lia.
Qed.

Lemma initialized_keys g (bi bo : gmap NodeIndex L) v :
  initialized g bi bo = true -> (v < length (g_nodes g))%nat -> is_Some (bi !! v) /\ is_Some (bo !! v).
Proof.
  unfold initialized. rewrite forallb_forall. intros Hk Hv.
  specialize (Hk v ltac:(apply in_seq; lia)). apply andb_true_iff in Hk as [K1 K2].
  by apply bool_decide_eq_true in K1, K2.
Qed.

(** The usual initialization satisfies the assertion. *)
Lemma bottoms_initialized g start (init bottom : L) :
  g_start g = Some start ->
  initialized g (set_initial_state g init (bottoms g bottom)) (bottoms g bottom) = true.
Proof.
  intros Hstart. unfold initialized. apply forallb_forall. intros v [_ Hv]%in_seq. apply andb_true_iff.
  assert (bottoms g bottom !! v = Some bottom) as Hv' by (apply bottoms_lookup; lia).
  unfold set_initial_state. rewrite Hstart.
  split; apply bool_decide_eq_true; [apply lookup_insert_is_Some'; right|]; by eexists.
Qed.

Lemma rtc_in_graph g start v :
  well_formed g -> (start < length (g_nodes g))%nat -> rtc (steps (g_edges g)) start v ->
  (v < length (g_nodes g))%nat.
Proof.
  intros [Hwf _] Hs Hr. revert Hs. eapply (rtc_closed _ (fun v => v < length (g_nodes g))%nat); [|exact Hr].
  intros x y _ [k Hk]. rewrite Forall_forall in Hwf. apply Hwf in Hk. simpl in Hk. lia.
Qed.

Lemma incoming_outgoing g u v k :
  (u, k) ∈ incoming_edges g v -> exists k', (v, k') ∈ outgoing_edges g u.
Proof. rewrite elem_of_incoming. intros Hk. exists k. by apply elem_of_outgoing. Qed.

Lemma outgoing_incoming g u v k :
  (u, k) ∈ outgoing_edges g v -> exists k', (v, k') ∈ incoming_edges g u.
Proof. rewrite elem_of_outgoing. intros Hk. exists k. by apply elem_of_incoming. Qed.

Lemma elem_of_reversed es u v k : MkEdge u v k ∈ reversed es <-> MkEdge v u k ∈ es.
Proof.
  unfold reversed. rewrite list_elem_of_fmap. split.
  - intros ([s t w] & [= -> -> ->] & Hin). done.
  - intros Hin. by exists (MkEdge v u k).
Qed.

Section forward.
Context (g : ControlFlowGraph) (start : NodeIndex) (max_iterations : nat).
Context (bi bo : gmap NodeIndex L).
Hypothesis Hwf : well_formed g.
Hypothesis Hstart : g_start g = Some start.
Hypothesis Hdfs : dfs_law (g_edges g) start.
Hypothesis Hinit : initialized g bi bo = true.

Lemma elem_of_forward_order v :
  v ∈ reverse_postorder g <-> rtc (steps (g_edges g)) start v.
Proof. unfold reverse_postorder. rewrite Hstart, elem_of_reverse. apply Hdfs. Qed.

Lemma forward_order_nodup : NoDup (reverse_postorder g).
Proof. unfold reverse_postorder. rewrite Hstart. rewrite reverse_Permutation. apply Hdfs. Qed.

Lemma forward_order_closed u v k :
  u ∈ reverse_postorder g -> (v, k) ∈ outgoing_edges g u -> v ∈ reverse_postorder g.
Proof.
  rewrite !elem_of_forward_order, elem_of_outgoing. intros Hu Hk.
  eapply rtc_r; [exact Hu|by exists k].
Qed.

Lemma forward_order_keys v :
  v ∈ reverse_postorder g -> is_Some (bi !! v) /\ is_Some (bo !! v).
Proof.
  rewrite elem_of_forward_order. intros Hv. apply (initialized_keys g bi bo v Hinit).
  apply (rtc_in_graph g start); [done| |done]. destruct Hwf as (_ & Hs & _). by apply Hs.
Qed.

(** The forward run with anything that its visits keep. *)
Lemma solve_forward_run (Q : Progress L -> Prop) :
  (forall v rest p p',
    LoopInv (incoming_edges g) (transfer_block g) (g_start g) (reverse_postorder g) p -> Q p ->
    worklist p = v :: rest ->
    visit (incoming_edges g) (outgoing_edges g) (transfer_block g) (g_start g) v rest p = Some p' -> Q p') ->
  Q (MkProgress (reverse_postorder g) (list_to_set (reverse_postorder g)) 0 bi bo) ->
  exists p c, solve_forward g max_iterations bi bo = Some (MkResult (before p) (after p) c) /\
    kept_outside (reverse_postorder g) bi bo p /\ Q p /\
    (c = true -> forall v, v ∈ reverse_postorder g ->
      solved (incoming_edges g) (transfer_block g) (g_start g) (before p) (after p) v).
Proof.
  intros HQ Hq0.
  destruct (solve_from_spec (incoming_edges g) (outgoing_edges g) (transfer_block g) (g_start g)
    max_iterations (reverse_postorder g) (incoming_outgoing g) forward_order_closed bi bo
    forward_order_nodup forward_order_keys
    (fun p => kept_outside (reverse_postorder g) bi bo p /\ Q p)) as (p & c & E & _ & [Hk Hq] & Hc & _).
  - intros v rest p p' Hp [Hk Hq] Hwl Hv. split; [|by apply (HQ v rest p)].
    by apply (kept_outside_visit (incoming_edges g) (outgoing_edges g) (transfer_block g)
      (g_start g) (reverse_postorder g) (incoming_outgoing g) forward_order_closed bi bo v rest p).
  - split; [|done]. by intros v _.
  - exists p, c. split_and!; [|done..]. unfold solve_forward. by rewrite Hinit, E.
Qed.
End forward.
Section backward.
Context (g : ControlFlowGraph) (max_iterations : nat) (bi bo : gmap NodeIndex L).
Hypothesis Hwf : well_formed g.
Hypothesis Hdfs : dfs_law (reversed (g_edges g)) (g_exit g).
Hypothesis Hinit : initialized g bi bo = true.

Lemma elem_of_backward_order v :
  v ∈ postorder_from_exit g <-> rtc (steps (reversed (g_edges g))) (g_exit g) v.
Proof. apply Hdfs. Qed.

Lemma backward_order_closed u v k :
  u ∈ postorder_from_exit g -> (v, k) ∈ incoming_edges g u -> v ∈ postorder_from_exit g.
Proof.
  rewrite !elem_of_backward_order, elem_of_incoming. intros Hu Hk.
  eapply rtc_r; [exact Hu|]. exists k. by apply elem_of_reversed.
Qed.

Lemma backward_order_keys v :
  v ∈ postorder_from_exit g -> is_Some (bo !! v) /\ is_Some (bi !! v).
Proof.
  rewrite elem_of_backward_order. intros Hv.
  enough (v < length (g_nodes g))%nat as Hlt by (destruct (initialized_keys g bi bo v Hinit Hlt); done).
  destruct Hwf as (Hes & _ & Hexit). revert Hexit.
  eapply (rtc_closed _ (fun v => v < length (g_nodes g))%nat); [|exact Hv].
  intros x y _ [k Hk]. rewrite elem_of_reversed in Hk. rewrite Forall_forall in Hes. apply Hes in Hk. simpl in Hk. lia.
Qed.

(** The backward run with anything that its visits keep. *)
Lemma solve_backward_run (Q : Progress L -> Prop) :
  (forall v rest p p',
    LoopInv (outgoing_edges g) (transfer_block g) (Some (g_exit g)) (postorder_from_exit g) p -> Q p ->
    worklist p = v :: rest ->
    visit (outgoing_edges g) (incoming_edges g) (transfer_block g) (Some (g_exit g)) v rest p = Some p' -> Q p') ->
  Q (MkProgress (postorder_from_exit g) (list_to_set (postorder_from_exit g)) 0 bo bi) ->
  exists p c, solve_backward g max_iterations bi bo = Some (MkResult (after p) (before p) c) /\
    kept_outside (postorder_from_exit g) bo bi p /\ Q p /\
    (c = true -> forall v, v ∈ postorder_from_exit g ->
      solved (outgoing_edges g) (transfer_block g) (Some (g_exit g)) (before p) (after p) v).
Proof.
  intros HQ Hq0.
  destruct (solve_from_spec (outgoing_edges g) (incoming_edges g) (transfer_block g) (Some (g_exit g))
    max_iterations (postorder_from_exit g) (outgoing_incoming g) backward_order_closed bo bi
    (proj1 Hdfs) backward_order_keys (fun p => kept_outside (postorder_from_exit g) bo bi p /\ Q p))
    as (p & c & E & _ & [Hk Hq] & Hc & _).
  - intros v rest p p' Hp [Hk Hq] Hwl Hv. split; [|by apply (HQ v rest p)].
    by apply (kept_outside_visit (outgoing_edges g) (incoming_edges g) (transfer_block g)
      (Some (g_exit g)) (postorder_from_exit g) (outgoing_incoming g) backward_order_closed bo bi v rest p).
  - split; [|done]. by intros v _.
  - exists p, c. split_and!; [|done..]. unfold solve_backward. by rewrite Hinit, E.
Qed.
End backward.

(** The equations of a result at a vertex, forwards and backwards. *)
Definition forward_equation (g : ControlFlowGraph) (r : DataflowResult L) (v : NodeIndex) : Prop :=
  solved (incoming_edges g) (transfer_block g) (g_start g) (block_in r) (block_out r) v.

Definition backward_equation (g : ControlFlowGraph) (r : DataflowResult L) (v : NodeIndex) : Prop :=
  solved (outgoing_edges g) (transfer_block g) (Some (g_exit g)) (block_out r) (block_in r) v.

(** C15. The solver always returns, and a converged result solves the analysis: at every vertex the
    start reaches (backwards: that reaches the exit) the state on one side is the join of the
    states its edges carry there, or the seeded one, and the state on the other side is that of the
    transfer function; states of other vertices stay as initialized. This holds for every lattice,
    every transfer function, every order of edges and every budget. *)
Theorem converged_results_solve g start max_iterations bi bo :
  well_formed g -> g_start g = Some start ->
  dfs_law (g_edges g) start -> dfs_law (reversed (g_edges g)) (g_exit g) ->
  initialized g bi bo = true ->
  (exists r, solve Forward g max_iterations bi bo = Some r /\
    (converged r = true -> forall v, rtc (steps (g_edges g)) start v -> forward_equation g r v) /\
    (forall v, ~ rtc (steps (g_edges g)) start v ->
      block_in r !! v = bi !! v /\ block_out r !! v = bo !! v)) /\
  (exists r, solve Backward g max_iterations bi bo = Some r /\
    (converged r = true -> forall v, rtc (steps (reversed (g_edges g))) (g_exit g) v ->
      backward_equation g r v) /\
    (forall v, ~ rtc (steps (reversed (g_edges g))) (g_exit g) v ->
      block_in r !! v = bi !! v /\ block_out r !! v = bo !! v)).
Proof.
  intros Hwf Hstart Hdf Hdb Hinit. split.
  - destruct (solve_forward_run g start max_iterations bi bo Hwf Hstart Hdf Hinit (fun _ => True))
      as (p & c & E & Hk & _ & Hc); [done..|].
    exists (MkResult (before p) (after p) c). split; [exact E|]. split.
    + intros Htrue v Hv. apply (Hc Htrue). by apply (elem_of_forward_order g start Hstart Hdf).
    + intros v Hv. apply Hk. by rewrite (elem_of_forward_order g start Hstart Hdf).
  - destruct (solve_backward_run g max_iterations bi bo Hwf Hdb Hinit (fun _ => True)) as (p & c & E & Hk & _ & Hc); [done..|].
    exists (MkResult (after p) (before p) c). split; [exact E|]. split.
    + intros Htrue v Hv. apply (Hc Htrue). by apply (elem_of_backward_order g Hdb).
    + intros v Hv. simpl. destruct (Hk v) as [K1 K2]; [by rewrite (elem_of_backward_order g Hdb)|done].
Qed.
End solvers.

(** ** Paths *)

(** [path_state g init v a]: along some path from the start, entered with [init], the state [a]
    arrives at [v]. *)
Inductive path_state `{Transfer L} (g : ControlFlowGraph) (init : L) : NodeIndex -> L -> Prop :=
| path_start v : g_start g = Some v -> path_state g init v init
| path_step u v k a : path_state g init u a -> MkEdge u v k ∈ g_edges g ->
    path_state g init v (transfer_edge k (transfer_block g u a)).

Section paths.
Context `{EqDecision L, TransferLaws L, !LatticeLaws L, EdgeOrderLaw, DfsPostOrder}.

(** The join of the edges is above each of them. *)
Lemma join_edges_above es (a : gmap NodeIndex L) st r :
  join_edges es a st = Some r ->
  (forall s, st = Some s -> below s r) /\
  (forall u k s, (u, k) ∈ es -> a !! u = Some s -> below (transfer_edge k s) r).
Proof.
  revert st. induction es as [|[u k] es IH]; intros st; simpl.
  { intros ->. split; [intros s [= ->]; apply below_refl|]. intros u k s Hin. by apply elem_of_nil in Hin. }
  intros [Hst Hes]%IH. destruct (a !! u) as [t|] eqn:E.
  - specialize (Hst _ eq_refl). split.
    + intros s ->. eapply below_trans; [apply below_join_l|exact Hst].
    + intros w k' s [[= -> ->]|Hin]%elem_of_cons Hw; [|by apply (Hes w k' s)].
      assert (s = t) as -> by congruence.
      destruct st; [eapply below_trans; [apply below_join_r|exact Hst]|exact Hst].
  - split; [done|]. intros w k' s [[= -> ->]|Hin]%elem_of_cons Hw; [congruence|by apply (Hes w k' s)].
Qed.

Lemma join_edges_none es (a : gmap NodeIndex L) st :
  join_edges es a st = None -> forall u k, (u, k) ∈ es -> a !! u = None.
Proof.
  intros E u k Hin. apply eq_None_not_Some. intros [s Hs].
  assert (is_Some (join_edges es a st)) as [r Hr]; [|congruence].
  clear E. revert st. induction es as [|[w k'] es IH]; intros st; [by apply elem_of_nil in Hin|]. simpl.
  assert (forall es st, is_Some st -> is_Some (join_edges es a st)) as Hkeep.
  { clear. induction es as [|[w k] es IH]; intros st Hst; [done|]. simpl. apply IH.
    destruct (a !! w); [by eexists|done]. }
  apply elem_of_cons in Hin as [[= <- <-]|Hin]; [|by apply IH].
  rewrite Hs. apply Hkeep. by eexists.
Qed.

Lemma forward_covers g start max_iterations bi bo r init :
  well_formed g -> g_start g = Some start -> (forall e, e ∈ g_edges g -> e_target e <> start) ->
  dfs_law (g_edges g) start -> initialized g bi bo = true -> bi !! start = Some init ->
  solve_forward g max_iterations bi bo = Some r -> converged r = true ->
  forall v a, path_state g init v a -> exists s, block_in r !! v = Some s /\ below a s.
Proof.
  intros Hwf Hstart Hentry Hdfs Hinit Hbi Hr Hconv.
  destruct (solve_forward_run g start max_iterations bi bo Hwf Hstart Hdfs Hinit
    (fun p => before p !! start = Some init)) as (p & c & E & _ & Hs & Hc).
  - intros v rest q q' Hq Hqs Hwl Hv.
    destruct (visit_spec (incoming_edges g) (outgoing_edges g) (transfer_block g) (g_start g)
      (reverse_postorder g) (incoming_outgoing g) (forward_order_closed g start Hstart Hdfs) q v rest Hq Hwl)
      as (s & q'' & Has & Hv' & _ & _ & Hb & _). assert (q'' = q') as -> by congruence.
    rewrite Hb. destruct (decide (v = start)) as [->|Hne]; [|by rewrite lookup_insert_ne].
    rewrite lookup_insert_eq, <- Has, <- Hqs. apply arriving_unfed.
    apply elem_of_nil_inv. intros [u k] Hu%elem_of_incoming. by apply Hentry in Hu.
  - done.
  - assert (r = MkResult (before p) (after p) c) as -> by congruence. simpl in *.
    intros v a Hpath.
    assert (rtc (steps (g_edges g)) start v /\ exists s, before p !! v = Some s /\ below a s) as [_ ?];
      [|done].
    induction Hpath as [v Hv|u v k a _ (Hru & s & Hbu & Hau) Hk].
    + assert (v = start) as -> by congruence. split; [done|]. exists init. split; [done|apply below_refl].
    + assert (rtc (steps (g_edges g)) start v) as Hrv by (eapply rtc_r; [exact Hru|by exists k]).
      split; [exact Hrv|].
      assert (forall w, rtc (steps (g_edges g)) start w -> solved (incoming_edges g) (transfer_block g)
        (g_start g) (before p) (after p) w) as Hsol.
      { intros w Hw. apply (Hc Hconv). by apply (elem_of_forward_order g start Hstart Hdfs). }
      destruct (Hsol u Hru) as (s' & Hbu' & _ & Hout). assert (s' = s) as -> by congruence.
      destruct (Hsol v Hrv) as (t & Hbv & Harr & _). exists t. split; [done|].
      assert ((u, k) ∈ incoming_edges g v) as Hin by by apply elem_of_incoming.
      unfold arriving in Harr. rewrite (bool_decide_false (incoming_edges g v = [])), andb_false_r in Harr
        by (intros Hnil; rewrite Hnil in Hin; by apply elem_of_nil in Hin).
      destruct (join_edges (incoming_edges g v) (after p) None) as [j|] eqn:Ej.
      * simplify_eq. eapply below_trans; [apply edge_mono, transfer_block_mono, Hau|].
        by apply (proj2 (join_edges_above _ _ _ _ Ej) u k).
      * pose proof (join_edges_none _ _ _ Ej u k Hin) as Hno. congruence.
Qed.

(** A converged forward result covers every path: when the join is a semilattice's and the
    transfer functions are monotone, the state that any path from the start carries to a vertex is
    below the state the solver reports on entry to it. *)
Theorem forward_covers_paths g start max_iterations bi bo r init :
  well_formed g -> g_start g = Some start -> (forall e, e ∈ g_edges g -> e_target e <> start) ->
  dfs_law (g_edges g) start -> initialized g bi bo = true -> bi !! start = Some init ->
  solve_forward g max_iterations bi bo = Some r -> converged r = true ->
  forall v a, path_state g init v a -> exists s, block_in r !! v = Some s /\ below a s.
Proof. by apply forward_covers. Qed.

(** *** Convergence forwards *)

Lemma sum_outgoing_le g order :
  NoDup order ->
  (sum_list_with (fun v => length (outgoing_edges g v)) order <= length (g_edges g))%nat.
Proof.
  intros Hnd.
  assert (Z.of_nat (sum_list_with (fun v => length (outgoing_edges g v)) order) =
    Z.of_nat (length (filter (fun e => e_source e ∈ order /\ True) (g_edges g)))) as E.
  { rewrite <- (count_by_source (fun _ => True)) by done. clear Hnd.
    induction order as [|v l IH]; [done|]. simpl. rewrite Nat2Z.inj_add, IH. do 2 f_equal.
    unfold outgoing_edges. rewrite length_fmap, edge_order_permutes. f_equal. apply list_filter_iff. tauto. }
  apply Nat2Z.inj in E. rewrite E. apply length_filter.
Qed.

Lemma order_in_graph_le g order :
  NoDup order -> (forall v, v ∈ order -> v < length (g_nodes g))%nat ->
  (length order <= length (g_nodes g))%nat.
Proof.
  intros Hnd Hlt. rewrite <- (size_list_to_set (C := gset nat) order) by done.
  rewrite <- (size_set_seq (C := gset nat) 0 (length (g_nodes g))). apply subseteq_size.
  intros v Hv%elem_of_list_to_set. apply elem_of_set_seq. specialize (Hlt v Hv). lia.
Qed.

Lemma forward_converges_valid g start max_iterations bottom init (valid : L -> Prop) rank height :
  well_formed g -> g_start g = Some start -> dfs_law (g_edges g) start ->
  (forall a, below bottom a) -> valid bottom -> valid init ->
  (forall a b, valid a -> valid b -> valid (join a b)) ->
  (forall k a, valid a -> valid (transfer_edge k a)) ->
  (forall v a, valid a -> valid (transfer_block g v a)) ->
  (forall a b, valid a -> valid b -> below a b -> a <> b -> rank a < rank b)%nat ->
  (forall a, valid a -> rank a <= height)%nat ->
  (length (g_nodes g) + height * length (g_edges g) <= max_iterations)%nat ->
  exists r, solve_forward g max_iterations (set_initial_state g init (bottoms g bottom))
    (bottoms g bottom) = Some r /\ converged r = true.
Proof.
  intros Hwf Hstart Hdfs Hbot Hvb Hvi Hvj Hve Hvt Hrank Hheight Hmax.
  pose proof Hwf as (Hes & Hs & _). specialize (Hs start Hstart).
  set (bi := set_initial_state g init (bottoms g bottom)). set (bo := bottoms g bottom).
  assert (initialized g bi bo = true) as Hinit by by apply (bottoms_initialized g start).
  assert (forall v, v ∈ reverse_postorder g -> v < length (g_nodes g))%nat as Hord.
  { intros v Hv. apply (elem_of_forward_order g start Hstart Hdfs) in Hv.
    by apply (rtc_in_graph g start). }
  assert (all_valid valid bo) as Hbov.
  { intros v s E. unfold bo, bottoms in E. apply elem_of_list_to_map_2 in E.
    by apply list_elem_of_fmap in E as (w & [= -> ->] & _). }
  assert (all_valid valid bi) as Hbiv.
  { unfold bi, set_initial_state. rewrite Hstart. by apply all_valid_insert. }
  destruct (solve_from_converges (incoming_edges g) (outgoing_edges g) (transfer_block g) (g_start g)
    max_iterations (reverse_postorder g) valid rank height) with (before0 := bi) (after0 := bo)
    as [p E]; try done.
  - apply incoming_outgoing.
  - by apply (forward_order_closed g start).
  - intros v a b. apply transfer_block_mono.
  - intros k a b. apply edge_mono.
  - by apply (forward_order_nodup g start).
  - by apply (forward_order_keys g start).
  - intros v u k _ Hu%elem_of_incoming. rewrite Forall_forall in Hes. apply Hes in Hu. simpl in Hu.
    unfold bo. rewrite bottoms_lookup by lia. by eexists.
  - intros v Hv. specialize (Hord v Hv).
    destruct (arriving_some (incoming_edges g) (g_start g) v bi bo) as [s Hsome].
    { by apply (initialized_keys g bi bo v). }
    exists s, bottom. unfold bo at 2. rewrite bottoms_lookup by done. done.
  - unfold convergence_bound. pose proof (order_in_graph_le g _ (forward_order_nodup g start Hstart Hdfs) Hord).
    pose proof (sum_outgoing_le g _ (forward_order_nodup g start Hstart Hdfs)). nia.
  - exists (MkResult (before p) (after p) true). split; [|done].
    unfold solve_forward. by rewrite Hinit, E.
Qed.

(** C39. The solver converges within a budget known in advance: with a lattice of finite height [h]
    (every proper step up raises a rank that never exceeds [h]), monotone transfer functions and
    the bottom state everywhere but at the start, a forward analysis of [n] vertices and [e] edges
    converges whenever the iteration limit is at least [n + h * e]. *)
Theorem forward_converges g start max_iterations bottom init rank height :
  well_formed g -> g_start g = Some start -> dfs_law (g_edges g) start ->
  (forall a, below bottom a) ->
  (forall a b, below a b -> a <> b -> rank a < rank b)%nat -> (forall a, rank a <= height)%nat ->
  (length (g_nodes g) + height * length (g_edges g) <= max_iterations)%nat ->
  exists r, solve_forward g max_iterations (set_initial_state g init (bottoms g bottom))
    (bottoms g bottom) = Some r /\ converged r = true.
Proof.
  intros. apply (forward_converges_valid g start max_iterations bottom init (fun _ => True) rank height);
    auto.
Qed.
End paths.

(** ** An instance: whether statement 1 may have run *)

Module Ran.
#[local] Instance order : EdgeOrder := as_listed.
#[local] Instance order_law : EdgeOrderLaw := as_listed_law.

(** The post-orders of [small_loop] from its start and, over the reversed edges, from its exit. *)
#[local] Instance dfs : DfsPostOrder := fun _ start =>
  match start with 1 => [0; 4; 3; 2; 1] | _ => [1; 3; 2; 4; 0] end.

#[local] Instance ran_join : Lattice bool := orb.

#[local] Instance ran_transfer : Transfer bool := {
  transfer_stmt s b := (s =? 1) || b;
  transfer_expr _ b := b;
  transfer_edge _ b := b;
  transfer_loop_var_bind _ b := b;
  transfer_try_entry _ b := b;
}.

#[local] Instance ran_lattice_laws : LatticeLaws bool.
Proof. split; repeat intros []; done. Qed.

#[local] Instance ran_transfer_laws : TransferLaws bool.
Proof. split; try done. intros s [] [] Hab; simpl; by destruct (s =? 1). Qed.

Definition entry : gmap NodeIndex bool := set_initial_state small_loop false (bottoms small_loop false).
Definition bottom : gmap NodeIndex bool := bottoms small_loop false.

Lemma small_loop_well_formed : well_formed small_loop.
Proof. by apply well_formed_checked. Qed.

Lemma small_loop_forward : dfs_law (g_edges small_loop) 1.
Proof. by apply dfs_check_law. Qed.

Lemma small_loop_backward : dfs_law (reversed (g_edges small_loop)) 0.
Proof. by apply dfs_check_law. Qed.

(** The loop may have run when its header, the exit and the last block are entered. *)
Lemma small_loop_result :
  option_map (fun r => ((fun v => block_in r !! v) <$> [0; 1; 2; 3; 4], converged r))
    (solve_forward small_loop DEFAULT_MAX_ITERATIONS entry bottom) =
  Some (Some <$> [true; false; true; true; true], true).
Proof. vm_compute. reflexivity. Qed.

Lemma converged_results_solve_witness :
  well_formed small_loop /\ initialized small_loop entry bottom = true /\
  exists r, solve Forward small_loop 100 entry bottom = Some r /\
    (converged r = true ->
     forall v, rtc (steps (g_edges small_loop)) 1 v -> forward_equation small_loop r v).
Proof.
  split; [exact small_loop_well_formed|]. split; [reflexivity|].
  destruct (converged_results_solve small_loop 1 100 entry bottom) as [(r & E & H1 & _) _];
    [exact small_loop_well_formed|reflexivity|exact small_loop_forward|exact small_loop_backward
    |reflexivity|]. exists r. split; [exact E|exact H1].
Defined.

Lemma forward_covers_paths_witness :
  match solve_forward small_loop 100 entry bottom with
  | Some r => converged r = true /\
      forall v a, path_state small_loop false v a -> exists s, block_in r !! v = Some s /\ below a s
  | None => False
  end.
Proof.
  destruct (solve_forward small_loop 100 entry bottom) as [r|] eqn:E; [|vm_compute in E; discriminate].
  assert (converged r = true) as Hc by (vm_compute in E; injection E as <-; reflexivity).
  split; [exact Hc|].
  apply (forward_covers_paths small_loop 1 100 entry bottom r false); [|reflexivity| | |reflexivity..|exact E|exact Hc].
  - exact small_loop_well_formed.
  - intros e He. simpl in He. rewrite !elem_of_cons, elem_of_nil in He.
    destruct He as [->|[->|[->|[->|[->|[->|[]]]]]]]; discriminate.
  - exact small_loop_forward.
Defined.

Lemma forward_converges_witness :
  exists r, solve_forward small_loop 11 (set_initial_state small_loop false (bottoms small_loop false))
    (bottoms small_loop false) = Some r /\ converged r = true.
Proof.
  apply (forward_converges small_loop 1 11 false false (fun b : bool => if b then 1 else 0) 1).
  - exact small_loop_well_formed.
  - reflexivity.
  - exact small_loop_forward.
  - done.
  - intros [] [] Hab Hne; try done; simpl; lia.
  - intros []; simpl; lia.
  - simpl. lia.
Defined.
End Ran.
