(* ===== verification/DataflowExact.v ===== *)
(** DataflowExact: a converged result holds what the paths carry, and nothing more
    (crates/dataflow/src/lib.rs).

    Let a property of states be prime: the join has it only when one side does.  When the transfer
    functions take prime properties back to prime ones ([Prime]), every state the solver reports
    that has such a property is witnessed by one path; and what a path carries is below the state
    reported.  Both hold in both directions, for the loop with its roles. *)
From stdpp Require Import prelude gmap.
From S2P Require Import Prelude Cfg Dataflow DataflowSpec.

(** A family of prime properties, closed under the transfer functions; the least state has one only
    when all states have it. *)
Record Prime `{Lattice L, Transfer L} (bottom : L) (F : (L -> Prop) -> Prop) : Prop := MkPrime {
  prime_join : forall H a b, F H -> H (join a b) -> H a \/ H b;
  prime_bottom : forall H a, F H -> H bottom -> H a;
  prime_stmt : forall H s, F H -> F (fun a => H (transfer_stmt s a));
  prime_expr : forall H e, F H -> F (fun a => H (transfer_expr e a));
  prime_edge : forall H k, F H -> F (fun a => H (transfer_edge k a));
  prime_bind : forall H v, F H -> F (fun a => H (transfer_loop_var_bind v a));
  prime_try : forall H s, F H -> F (fun a => H (transfer_try_entry s a));
  prime_strict : forall k, transfer_edge k bottom = bottom;
}.

Lemma prime_block `{Lattice L, Transfer L} bottom F g v H1 :
  Prime bottom F -> F H1 -> F (fun a => H1 (transfer_block g v a)).
Proof.
  intros P HF. unfold transfer_block. destruct (vertex g v) as [[ss| | | | | | |]|]; try exact HF.
  - revert H1 HF. induction ss as [|s ss IH]; intros H1 HF; [exact HF|]. cbn [foldl].
    apply (prime_stmt _ _ P (fun a => H1 (foldl (fun state s => transfer_stmt s state) a ss)) s). by apply IH.
  - by apply (prime_expr _ _ P).
  - by apply (prime_expr _ _ P).
  - apply (prime_expr _ _ P (fun a => H1 (transfer_loop_var_bind loop_var (transfer_expr to a))) from).
    apply (prime_expr _ _ P (fun a => H1 (transfer_loop_var_bind loop_var a)) to). by apply (prime_bind _ _ P).
  - apply (prime_expr _ _ P (fun a => H1 (transfer_loop_var_bind loop_var a)) collection). by apply (prime_bind _ _ P).
  - destruct (source_stmt_id g v); [by apply (prime_try _ _ P)|exact HF].
Qed.

(** ** The loop *)

Section loop.
Context `{EqDecision L, Lattice L, Transfer L}.
Context (feeding dependents : NodeIndex -> list (NodeIndex * CfgEdgeType)).
Context (transfer : NodeIndex -> L -> L).
Context (root : NodeIndex) (max_iterations : nat) (order : list NodeIndex).
Context (init bottom : L) (before0 after0 : gmap NodeIndex L).

Hypothesis Hdual : forall u v k, (u, k) ∈ feeding v -> exists k', (v, k') ∈ dependents u.
Hypothesis Hclosed : forall u v k, u ∈ order -> (v, k) ∈ dependents u -> v ∈ order.
Hypothesis Hunfed : feeding root = [].
Hypothesis Hbefore : forall v, v ∈ order -> before0 !! v = Some (if decide (v = root) then init else bottom).
Hypothesis Hafter : forall v s, after0 !! v = Some s -> s = bottom.

(** Along some path from the root, entered with [init], the state arrives. *)
Inductive carried : NodeIndex -> L -> Prop :=
| carried_root : carried root init
| carried_step u v k a : carried u a -> (u, k) ∈ feeding v -> carried v (transfer_edge k (transfer u a)).

Hypothesis Hreached : forall v, v ∈ order -> exists a, carried v a.

Abbreviation visit := (Dataflow.visit feeding dependents transfer (Some root)).
Abbreviation LoopInv := (DataflowSpec.LoopInv feeding transfer (Some root) order).

Section witnessed.
Context (F : (L -> Prop) -> Prop).
Hypothesis Hprime : Prime bottom F.
Hypothesis Htransfer : forall v P, F P -> F (fun a => P (transfer v a)).

Record witnessed (p : Progress L) : Prop := MkWitnessed {
  wit_before : forall P v s, F P -> v ∈ order -> before p !! v = Some s -> P s -> exists a, carried v a /\ P a;
  wit_after : forall P v s, F P -> v ∈ order -> after p !! v = Some s -> P s -> exists a, carried v a /\ P (transfer v a);
  wit_kept : forall v s, v ∉ order -> after p !! v = Some s -> s = bottom;
}.

Lemma witnessed_start set n : witnessed (MkProgress order set n before0 after0).
Proof.
  split; simpl.
  - intros P v s HP Hv Hs HPs. rewrite Hbefore in Hs by done. case_decide as Hr; injection Hs as <-.
    + subst. exists init. split; [constructor|done].
    + destruct (Hreached v Hv) as [a Ha]. exists a. split; [done|]. by apply (prime_bottom _ _ Hprime P).
  - intros P v s HP Hv ->%Hafter HPs. destruct (Hreached v Hv) as [a Ha]. exists a. split; [done|]. by apply (prime_bottom _ _ Hprime P).
  - intros v s _. apply Hafter.
Qed.

(** A prime property of the join of the edges comes over one of them. *)
Lemma join_edges_prime P es (a : gmap NodeIndex L) st r :
  F P -> join_edges es a st = Some r -> P r ->
  (exists s, st = Some s /\ P s) \/ exists u k s, (u, k) ∈ es /\ a !! u = Some s /\ P (transfer_edge k s).
Proof.
  intros HP. revert st. induction es as [|[u k] es IH]; intros st; simpl; [intros -> Hr; left; by exists r|].
  intros E Hr. destruct (IH _ E Hr) as [(s & Es & Hs)|(w & k' & s & Hin & Hw & Hs)].
  - destruct (a !! u) as [t|] eqn:Eu; [|left; by exists s]. injection Es as <-. destruct st as [s0|].
    + destruct (prime_join _ _ Hprime P _ _ HP Hs) as [Hs0|Ht]; [left; by exists s0|].
      right. exists u, k, t. split; [apply list_elem_of_here|done].
    + right. exists u, k, t. split; [apply list_elem_of_here|done].
  - right. exists w, k', s. split; [by apply list_elem_of_further|done].
Qed.

Lemma arriving_shown p P v s :
  witnessed p -> F P -> v ∈ order -> arriving feeding (Some root) v (before p) (after p) = Some s -> P s ->
  exists a, carried v a /\ P a.
Proof.
  intros W HP Hv. unfold arriving. destruct (bool_decide (Some v = Some root) && bool_decide (feeding v = [])).
  { intros Hs. by eapply (wit_before _ W). }
  destruct (join_edges (feeding v) (after p) None) as [r|] eqn:E; [|intros Hs; by eapply (wit_before _ W)].
  intros [= ->] Hs. destruct (join_edges_prime P _ _ _ _ HP E Hs) as [(t & [=] & _)|(u & k & t & Hin & Hu & Ht)].
  destruct (decide (u ∈ order)) as [Ho|Ho].
  - destruct (wit_after _ W (fun a => P (transfer_edge k a)) u t) as (a & Ha & HPa); [by apply (prime_edge _ _ Hprime)|done..|].
    exists (transfer_edge k (transfer u a)). split; [by econstructor|done].
  - rewrite (wit_kept _ W u t Ho Hu), (prime_strict _ _ Hprime) in Ht. destruct (Hreached v Hv) as [a Ha].
    exists a. split; [done|]. by apply (prime_bottom _ _ Hprime P).
Qed.

Lemma witnessed_visit v rest p p' :
  LoopInv p -> witnessed p -> worklist p = v :: rest -> visit v rest p = Some p' -> witnessed p'.
Proof.
  intros I W Hwl Hp'.
  destruct (visit_spec feeding dependents transfer (Some root) order Hdual Hclosed p v rest I Hwl)
    as (s & p'' & Has & Hp'' & _ & _ & Hb & Ha & _). assert (p'' = p') as -> by congruence.
  assert (v ∈ order) as Hv by (apply (inv_order _ _ _ _ _ I); rewrite Hwl; apply list_elem_of_here).
  split; rewrite ?Hb, ?Ha.
  - intros P w t HP Hw Ht HPt. destruct (decide (w = v)) as [->|Hne].
    + rewrite lookup_insert_eq in Ht. injection Ht as <-. by eapply arriving_shown.
    + rewrite lookup_insert_ne in Ht by done. by eapply (wit_before _ W).
  - intros P w t HP Hw Ht HPt. destruct (decide (w = v)) as [->|Hne].
    + rewrite lookup_insert_eq in Ht. injection Ht as <-.
      destruct (arriving_shown p (fun a => P (transfer v a)) v s W) as (a & Hc & HPa); [by apply Htransfer|done..|].
      by exists a.
    + rewrite lookup_insert_ne in Ht by done. by eapply (wit_after _ W).
  - intros w t Hw. rewrite lookup_insert_ne by congruence. by apply (wit_kept _ W).
Qed.
End witnessed.

(** *** Covering *)

Definition rooted (p : Progress L) : Prop := root ∈ order -> before p !! root = Some init.

Lemma rooted_start set n : rooted (MkProgress order set n before0 after0).
Proof. intros Hr. simpl. rewrite Hbefore by done. by rewrite decide_True. Qed.

Lemma rooted_visit v rest p p' :
  LoopInv p -> rooted p -> worklist p = v :: rest -> visit v rest p = Some p' -> rooted p'.
Proof.
  intros I R Hwl Hp'.
  destruct (visit_spec feeding dependents transfer (Some root) order Hdual Hclosed p v rest I Hwl)
    as (s & p'' & Has & Hp'' & _ & _ & Hb & _). assert (p'' = p') as -> by congruence.
  intros Hr. rewrite Hb. destruct (decide (v = root)) as [->|Hne]; [|rewrite lookup_insert_ne by done; by apply R].
  rewrite lookup_insert_eq, <- Has, <- (R Hr). by apply arriving_unfed.
Qed.

Lemma carried_covered `{!LatticeLaws L} p :
  (forall v a b, below a b -> below (transfer v a) (transfer v b)) ->
  (forall k a b, below a b -> below (transfer_edge k a) (transfer_edge k b)) ->
  rooted p -> (forall v, v ∈ order -> solved feeding transfer (Some root) (before p) (after p) v) ->
  root ∈ order -> forall v a, carried v a -> v ∈ order /\ exists s, before p !! v = Some s /\ below a s.
Proof.
  intros Ht He R Hsol Hr v a. induction 1 as [|u v k a _ [Hu (s & Hs & Hb)] Hin].
  - split; [done|]. exists init. split; [by apply R|apply below_refl].
  - destruct (Hdual u v k Hin) as [k' Hk']. assert (v ∈ order) as Hv by by eapply Hclosed. split; [done|].
    destruct (Hsol u Hu) as (s' & Hs' & _ & Hout). assert (s' = s) as -> by congruence.
    destruct (Hsol v Hv) as (t & Hbt & Harr & _). exists t. split; [done|]. unfold arriving in Harr.
    rewrite (bool_decide_false (feeding v = [])), andb_false_r in Harr
      by (intros E; rewrite E in Hin; by apply elem_of_nil in Hin).
    destruct (join_edges (feeding v) (after p) None) as [j|] eqn:Ej.
    + simplify_eq. eapply below_trans; [apply He, Ht, Hb|]. by apply (proj2 (join_edges_above _ _ _ _ Ej) u k).
    + pose proof (join_edges_none _ _ _ Ej u k Hin). congruence.
Qed.
End loop.

(** ** Forwards *)

Section forward.
Context `{EqDecision L, TransferLaws L, !LatticeLaws L, EdgeOrderLaw, DfsPostOrder}.
Context (g : ControlFlowGraph) (start : NodeIndex) (max_iterations : nat) (init bottom : L).
Hypothesis Hwf : well_formed g.
Hypothesis Hstart : g_start g = Some start.
Hypothesis Hentry : forall e, e ∈ g_edges g -> e_target e <> start.
Hypothesis Hdfs : dfs_law (g_edges g) start.

Lemma path_carried v a : path_state g init v a <-> carried (incoming_edges g) (transfer_block g) start init v a.
Proof.
  split.
  - induction 1 as [v Hv|u v k a _ IH Hk]; [assert (v = start) as -> by congruence; constructor|].
    econstructor; [exact IH|by apply elem_of_incoming].
  - induction 1 as [|u v k a _ IH Hk]; [by constructor|]. econstructor; [exact IH|by apply elem_of_incoming].
Qed.

Lemma path_to v : rtc (steps (g_edges g)) start v -> exists a, path_state g init v a.
Proof.
  intros Hr. refine (rtc_ind_r (fun v => exists a, path_state g init v a) start _ _ v Hr).
  - exists init. by constructor.
  - intros u w _ [k Hk] [a Ha]. eexists. by eapply path_step.
Qed.

Lemma bottoms_bottom v s : bottoms g bottom !! v = Some s -> s = bottom.
Proof. unfold bottoms. intros Hv%elem_of_list_to_map_2. by apply list_elem_of_fmap in Hv as (? & [= -> ->] & _). Qed.

Lemma bottoms_in_graph v : rtc (steps (g_edges g)) start v -> bottoms g bottom !! v = Some bottom.
Proof.
  intros Hr. apply bottoms_lookup. apply (rtc_in_graph g start); [done| |done].
  destruct Hwf as (_ & Hs & _). by apply Hs.
Qed.

(** What the solver reports on entry to a vertex the start reaches: of the prime properties, those
    of a path, and no others. *)
Lemma forward_exact r F P :
  solve_forward g max_iterations (set_initial_state g init (bottoms g bottom)) (bottoms g bottom) = Some r ->
  converged r = true -> Prime bottom F -> F P -> (forall a b, below a b -> P a -> P b) ->
  forall v, rtc (steps (g_edges g)) start v ->
    exists s, block_in r !! v = Some s /\ (P s <-> exists a, path_state g init v a /\ P a).
Proof.
  intros Er Ec HF HP Hup v Hv.
  set (W := witnessed (incoming_edges g) (transfer_block g) start (reverse_postorder g) init bottom F).
  set (R := rooted start (reverse_postorder g) init).
  assert (forall v, v ∈ reverse_postorder g <-> rtc (steps (g_edges g)) start v) as Hord by by apply elem_of_forward_order.
  assert (forall v, v ∈ reverse_postorder g -> set_initial_state g init (bottoms g bottom) !! v =
    Some (if decide (v = start) then init else bottom)) as Hbi.
  { intros w Hw%Hord. unfold set_initial_state. rewrite Hstart. case_decide as Hs; [subst; by rewrite lookup_insert_eq|].
    rewrite lookup_insert_ne by done. by apply bottoms_in_graph. }
  assert (incoming_edges g start = []) as Hnone.
  { apply elem_of_nil_inv. intros [u k] Hu%elem_of_incoming. by apply Hentry in Hu. }
  assert (forall v, v ∈ reverse_postorder g -> exists a, carried (incoming_edges g) (transfer_block g) start init v a) as Hreach.
  { intros w Hw%Hord. destruct (path_to w Hw) as [a Ha]. exists a. by apply path_carried. }
  pose proof (forward_order_closed g start Hstart Hdfs) as Hcl.
  destruct (solve_forward_run g start max_iterations _ _ Hwf Hstart Hdfs (bottoms_initialized g start init bottom Hstart)
    (fun p => W p /\ R p)) as (p & c & E & _ & [Hw Hroot] & Hsol).
  - intros w rest p p' I [HW HR] Hwl Hp'. rewrite Hstart in I, Hp'. split.
    + by eapply (witnessed_visit (incoming_edges g) (outgoing_edges g) (transfer_block g) start (reverse_postorder g) init bottom
        (incoming_outgoing g) Hcl Hreach F HF (fun v P => prime_block bottom F g v P HF)).
    + by eapply (rooted_visit (incoming_edges g) (outgoing_edges g) (transfer_block g) start (reverse_postorder g) init
        (incoming_outgoing g) Hcl Hnone).
  - split; [|by eapply rooted_start]. eapply witnessed_start; [exact Hbi|apply bottoms_bottom|exact Hreach|exact HF].
  - assert (r = MkResult (before p) (after p) c) as -> by congruence. simpl in *.
    assert (start ∈ reverse_postorder g) as Hso by by apply Hord.
    assert (forall v, v ∈ reverse_postorder g ->
      solved (incoming_edges g) (transfer_block g) (Some start) (before p) (after p) v) as Hsol' by (rewrite <- Hstart; by apply Hsol).
    apply Hord in Hv as Hvo. destruct (Hsol' v Hvo) as (s & Hs & _). exists s. split; [done|]. split.
    + intros HPs. destruct (wit_before _ _ _ _ _ _ _ _ Hw P v s HP Hvo Hs HPs) as (a & Ha & HPa). exists a. split; [by apply path_carried|done].
    + intros (a & Ha%path_carried & HPa).
      destruct (carried_covered (incoming_edges g) (outgoing_edges g) (transfer_block g) start (reverse_postorder g) init
        (incoming_outgoing g) Hcl p (transfer_block_mono g) edge_mono Hroot Hsol' Hso v a Ha) as (_ & s' & Hs' & Hb).
      assert (s' = s) as -> by congruence. by apply (Hup a).
Qed.

(** The states of other vertices stay as they were. *)
Lemma forward_kept r v :
  solve_forward g max_iterations (set_initial_state g init (bottoms g bottom)) (bottoms g bottom) = Some r ->
  ~ rtc (steps (g_edges g)) start v -> block_in r !! v = bottoms g bottom !! v.
Proof.
  intros Er Hv. destruct (solve_forward_run g start max_iterations _ _ Hwf Hstart Hdfs
    (bottoms_initialized g start init bottom Hstart) (fun _ => True)) as (p & c & E & Hk & _); [done..|].
  assert (r = MkResult (before p) (after p) c) as -> by congruence. simpl.
  destruct (Hk v) as [-> _]; [by rewrite (elem_of_forward_order g start Hstart Hdfs)|].
  unfold set_initial_state. rewrite Hstart. rewrite lookup_insert_ne; [done|]. intros <-. by apply Hv.
Qed.
End forward.

(** ** Backwards *)

(** Along some path to the exit, left with [init], the state arrives behind the vertex. *)
Inductive path_back `{Transfer L} (g : ControlFlowGraph) (init : L) : NodeIndex -> L -> Prop :=
| back_exit : path_back g init (g_exit g) init
| back_step u v k a : path_back g init u a -> MkEdge v u k ∈ g_edges g ->
    path_back g init v (transfer_edge k (transfer_block g u a)).

Section backward.
Context `{EqDecision L, TransferLaws L, !LatticeLaws L, EdgeOrderLaw, DfsPostOrder}.
Context (g : ControlFlowGraph) (max_iterations : nat) (init bottom : L).
Hypothesis Hwf : well_formed g.
Hypothesis Hleave : forall e, e ∈ g_edges g -> e_source e <> g_exit g.
Hypothesis Hdfs : dfs_law (reversed (g_edges g)) (g_exit g).

Lemma back_carried v a : path_back g init v a <-> carried (outgoing_edges g) (transfer_block g) (g_exit g) init v a.
Proof.
  split.
  - induction 1 as [|u v k a _ IH Hk]; [constructor|]. econstructor; [exact IH|by apply elem_of_outgoing].
  - induction 1 as [|u v k a _ IH Hk]; [constructor|]. econstructor; [exact IH|by apply elem_of_outgoing].
Qed.

Lemma path_from v : rtc (steps (reversed (g_edges g))) (g_exit g) v -> exists a, path_back g init v a.
Proof.
  intros Hr. refine (rtc_ind_r (fun v => exists a, path_back g init v a) _ _ _ v Hr).
  - exists init. constructor.
  - intros u w _ [k Hk] [a Ha]. rewrite elem_of_reversed in Hk. exists (transfer_edge k (transfer_block g u a)). econstructor; [exact Ha|exact Hk].
Qed.

Lemma exit_in_graph v : rtc (steps (reversed (g_edges g))) (g_exit g) v -> (v < length (g_nodes g))%nat.
Proof.
  intros Hv. destruct Hwf as (Hes & _ & Hexit). revert Hexit.
  eapply (rtc_closed _ (fun v => v < length (g_nodes g))%nat); [|exact Hv].
  intros x y _ [k Hk]. rewrite elem_of_reversed in Hk. rewrite Forall_forall in Hes. apply Hes in Hk. simpl in Hk. lia.
Qed.

Lemma exit_initialized : initialized g (bottoms g bottom) (set_initial_state_at_exit g init (bottoms g bottom)) = true.
Proof.
  unfold initialized. apply forallb_forall. intros v [_ Hv]%in_seq. apply andb_true_iff.
  assert (bottoms g bottom !! v = Some bottom) as Hv' by (apply bottoms_lookup; lia).
  unfold set_initial_state_at_exit. split; apply bool_decide_eq_true; [by eexists|]. apply lookup_insert_is_Some'. right. by eexists.
Qed.

(** The state behind a vertex that reaches the exit has the prime properties of some path, and the
    state before it those the vertex makes of a path's. *)
Lemma backward_exact r F P :
  solve_backward g max_iterations (bottoms g bottom) (set_initial_state_at_exit g init (bottoms g bottom)) = Some r ->
  converged r = true -> Prime bottom F -> F P -> (forall a b, below a b -> P a -> P b) ->
  forall v, rtc (steps (reversed (g_edges g))) (g_exit g) v ->
    exists s, block_out r !! v = Some s /\ block_in r !! v = Some (transfer_block g v s) /\
      (P s <-> exists a, path_back g init v a /\ P a).
Proof.
  intros Er Ec HF HP Hup v Hv.
  set (W := witnessed (outgoing_edges g) (transfer_block g) (g_exit g) (postorder_from_exit g) init bottom F).
  set (R := rooted (g_exit g) (postorder_from_exit g) init).
  assert (forall v, v ∈ postorder_from_exit g <-> rtc (steps (reversed (g_edges g))) (g_exit g) v) as Hord by by apply elem_of_backward_order.
  assert (forall v, v ∈ postorder_from_exit g -> set_initial_state_at_exit g init (bottoms g bottom) !! v =
    Some (if decide (v = g_exit g) then init else bottom)) as Hbi.
  { intros w Hw%Hord. unfold set_initial_state_at_exit. case_decide as Hs; [subst; by rewrite lookup_insert_eq|].
    rewrite lookup_insert_ne by done. by apply bottoms_lookup, exit_in_graph. }
  assert (outgoing_edges g (g_exit g) = []) as Hnone.
  { apply elem_of_nil_inv. intros [u k] Hu%elem_of_outgoing. by apply Hleave in Hu. }
  assert (forall v, v ∈ postorder_from_exit g -> exists a, carried (outgoing_edges g) (transfer_block g) (g_exit g) init v a) as Hreach.
  { intros w Hw%Hord. destruct (path_from w Hw) as [a Ha]. exists a. by apply back_carried. }
  pose proof (backward_order_closed g Hdfs) as Hcl.
  destruct (solve_backward_run g max_iterations _ _ Hwf Hdfs exit_initialized (fun p => W p /\ R p)) as (p & c & E & _ & [Hw Hroot] & Hsol).
  - intros w rest p p' I [HW HR] Hwl Hp'. split.
    + by eapply (witnessed_visit (outgoing_edges g) (incoming_edges g) (transfer_block g) (g_exit g) (postorder_from_exit g) init bottom
        (outgoing_incoming g) Hcl Hreach F HF (fun v P => prime_block bottom F g v P HF)).
    + by eapply (rooted_visit (outgoing_edges g) (incoming_edges g) (transfer_block g) (g_exit g) (postorder_from_exit g) init
        (outgoing_incoming g) Hcl Hnone).
  - split; [|by eapply rooted_start]. eapply witnessed_start; [exact Hbi|apply (bottoms_bottom g bottom)|exact Hreach|exact HF].
  - assert (r = MkResult (after p) (before p) c) as -> by congruence. simpl in *.
    assert (g_exit g ∈ postorder_from_exit g) as Hso by by apply Hord.
    apply Hord in Hv as Hvo. destruct (Hsol Ec v Hvo) as (s & Hs & _ & Ha). exists s. split; [done|]. split; [done|]. split.
    + intros HPs. destruct (wit_before _ _ _ _ _ _ _ _ Hw P v s HP Hvo Hs HPs) as (a & Hca & HPa). exists a. split; [by apply back_carried|done].
    + intros (a & Hca%back_carried & HPa).
      destruct (carried_covered (outgoing_edges g) (incoming_edges g) (transfer_block g) (g_exit g) (postorder_from_exit g) init
        (outgoing_incoming g) Hcl p (transfer_block_mono g) edge_mono Hroot (Hsol Ec) Hso v a Hca) as (_ & s' & Hs' & Hb).
      assert (s' = s) as -> by congruence. by apply (Hup a).
Qed.

Lemma backward_kept r v :
  solve_backward g max_iterations (bottoms g bottom) (set_initial_state_at_exit g init (bottoms g bottom)) = Some r ->
  ~ rtc (steps (reversed (g_edges g))) (g_exit g) v -> block_in r !! v = bottoms g bottom !! v.
Proof.
  intros Er Hv. destruct (solve_backward_run g max_iterations _ _ Hwf Hdfs exit_initialized (fun _ => True)) as (p & c & E & Hk & _); [done..|].
  assert (r = MkResult (after p) (before p) c) as -> by congruence. simpl.
  by destruct (Hk v) as [_ ->]; [by rewrite (elem_of_backward_order g Hdfs)|].
Qed.
End backward.

(** ** Trails *)

(** The vertices a path passes before it arrives, since the start ([true]) or since the last edge
    that cuts what is carried ([false]). *)
Inductive trail (cut : CfgEdgeType -> bool) (g : ControlFlowGraph) : NodeIndex -> bool -> list NodeIndex -> Prop :=
| trail_start v : g_start g = Some v -> trail cut g v true []
| trail_step u v k b us : trail cut g u b us -> MkEdge u v k ∈ g_edges g -> cut k = false -> trail cut g v b (us ++ [u])
| trail_cut u v k b us : trail cut g u b us -> MkEdge u v k ∈ g_edges g -> cut k = true -> trail cut g v false [].

(** When the edges carry everything or nothing, what a path carries is what the vertices of its
    trail make of the initial state. *)
Lemma path_state_trail `{Transfer L} g (init bottom : L) cut v a :
  (forall k a, transfer_edge k a = if (cut k : bool) then bottom else a) ->
  path_state g init v a <->
  exists b us, trail cut g v b us /\ a = foldl (fun s u => transfer_block g u s) (if b : bool then init else bottom) us.
Proof.
  intros Hcut. split.
  - induction 1 as [v Hv|u v k a _ (b & us & Ht & ->) Hk]; [exists true, []; split; [by constructor|done]|].
    rewrite Hcut. destruct (cut k) eqn:Ec.
    + exists false, []. split; [by eapply trail_cut|done].
    + exists b, (us ++ [u]). split; [by eapply trail_step|]. by rewrite foldl_app.
  - intros (b & us & Ht & ->). induction Ht as [v Hv|u v k b us _ IH Hk Ec|u v k b us _ IH Hk Ec]; [by constructor|..].
    + rewrite foldl_app. simpl. pose proof (path_step g init u v k _ IH Hk) as Hp. by rewrite Hcut, Ec in Hp.
    + simpl. pose proof (path_step g init u v k _ IH Hk) as Hp. by rewrite Hcut, Ec in Hp.
Qed.
