(* ===== verification/DefiniteInit.v ===== *)
(** DefiniteInit: definite initialization (crates/dataflow/src/definite_init.rs).

    A must-analysis over the control-flow graph: which tracked names are assigned on every
    executable path to a point, a path on which a name is not, and whether the back edges of a loop
    carry it.  A bit set of the fixedbitset library is a finite set of bit numbers; the library
    panics when a bit outside the width is set, and the theorems take the bits of the events to be
    inside. *)
From stdpp Require Import prelude gmap.
From S2P Require Import Prelude Cfg Dataflow.

Inductive InitPoint : Set := Stmt (s : StmtId) | Header (e : ExprId).

#[export] Instance InitPoint_eq_dec : EqDecision InitPoint.
Proof. solve_decision. Defined.

#[export] Instance InitPoint_countable : Countable InitPoint.
Proof.
  apply (inj_countable' (fun p => match p with Stmt s => inl s | Header e => inr e end)
    (fun x => match x with inl s => Stmt s | inr e => Header e end)).
  by intros [].
Defined.

(** A loop header whose literal condition decides its false branch. *)
Inductive EnteringHeader : Set := NeverExits | EntersOnFirstArrival.

Record InitEvents : Type := MkEvents {
  width : nat;
  ev_stmt : gmap StmtId (list nat);
  ev_header : gmap ExprId (list nat);
  ev_loop_var : gmap BindingId nat;
  entering_headers : gmap StmtId EnteringHeader;
}.

Inductive DefiniteInit : Type := Unreached | Reached (set : gset nat).

#[export] Instance DefiniteInit_eq_dec : EqDecision DefiniteInit.
Proof. solve_decision. Defined.

(** [None] when the point is unreachable. *)
Definition is_initialized (s : DefiniteInit) (bit : nat) : option bool :=
  match s with Unreached => None | Reached set => Some (bool_decide (bit ∈ set)) end.

Definition lacks (s : DefiniteInit) (bit : nat) : bool := bool_decide (is_initialized s bit = Some false).

Definition add (bits : list nat) (s : DefiniteInit) : DefiniteInit :=
  match s with
  | Unreached => Unreached
  | Reached set => Reached (foldl (fun set bit => {[bit]} ∪ set) set bits)
  end.

(** The bits of a place, when the events have any. *)
Definition add_some (bits : option (list nat)) (s : DefiniteInit) : DefiniteInit :=
  match bits with Some bits => add bits s | None => s end.

Definition init_join (a b : DefiniteInit) : DefiniteInit :=
  match a, b with
  | Unreached, x | x, Unreached => x
  | Reached a, Reached b => Reached (a ∩ b)
  end.

#[export] Instance DefiniteInit_join : Lattice DefiniteInit := init_join.

(** [DefiniteInitTransfer]; the entry of a try is the trait's default. *)
Definition DefiniteInitTransfer (events : InitEvents) : Transfer DefiniteInit := {|
  transfer_stmt s state := add_some (ev_stmt events !! s) state;
  transfer_expr e state := add_some (ev_header events !! e) state;
  transfer_edge k state := match k with Unexecutable => Unreached | _ => state end;
  transfer_loop_var_bind v state :=
    match ev_loop_var events !! v with Some bit => add [bit] state | None => state end;
  transfer_try_entry _ state := state;
|}.

Record WitnessStep : Type := MkStep { step_vertex : NodeIndex; step_edge : CfgEdgeType }.

Record DefiniteInitResult : Type := MkInit {
  cfg : ControlFlowGraph;
  inner : DataflowResult DefiniteInit;
  events : InitEvents;
  states : gmap InitPoint DefiniteInit;
  point_vertices : gmap InitPoint NodeIndex;
  rpo : gmap NodeIndex nat;
}.

(** ** The states of the points *)

(** The statements of a block with the states before them. *)
Fixpoint block_points (events : InitEvents) (statements : list StmtId) (state : DefiniteInit)
    : list (InitPoint * DefiniteInit) :=
  match statements with
  | [] => []
  | s :: statements =>
      (Stmt s, state) :: block_points events statements (add_some (ev_stmt events !! s) state)
  end.

(** What is recorded for one vertex, in the order of the calls of [record]. *)
Definition vertex_points (events : InitEvents) (kind : CfgVertex) (entry : DefiniteInit)
    : list (InitPoint * DefiniteInit) :=
  match kind with
  | BasicBlock statements => block_points events statements entry
  | Conditional condition | WhileHeader condition => [(Header condition, entry)]
  | ForHeader _ from to => [(Header from, entry); (Header to, add_some (ev_header events !! from) entry)]
  | ForEachHeader _ collection => [(Header collection, entry)]
  | TryVertex | PreprocCondition _ _ _ | Exit => []
  end.

(** Everything recorded: points with their vertices and states. *)
Definition recorded (events : InitEvents) (g : ControlFlowGraph) (r : DataflowResult DefiniteInit)
    : list (InitPoint * (NodeIndex * DefiniteInit)) :=
  '(v, kind) ← vertices g;
  match block_in r !! v with
  | Some entry => (fun '(point, state) => (point, (v, state))) <$> vertex_points events kind entry
  | None => []
  end.

(** [insert] overwrites: the last record of a point remains. *)
Definition record_all {A} (rs : list (InitPoint * A)) : gmap InitPoint A :=
  foldl (fun m '(point, x) => <[point := x]> m) ∅ rs.

Section analysis.
Context `{EdgeOrder, DfsPostOrder}.

(** [None] when the solver ran out of its budget; the outer [None] is a panic. *)
Definition analyze_definite_init (g : ControlFlowGraph) (events : InitEvents) (max_iterations : nat)
    : option (option DefiniteInitResult) :=
  let bottom := bottoms g Unreached in
  r ← @solve_forward DefiniteInit _ _ (DefiniteInitTransfer events) _ _ g max_iterations
        (set_initial_state g (Reached ∅) bottom) bottom;
  if converged r then
    let rs := recorded events g r in
    Some (Some (MkInit g r events
      (record_all ((fun '(p, (_, s)) => (p, s)) <$> rs))
      (record_all ((fun '(p, (v, _)) => (p, v)) <$> rs))
      (list_to_map (imap (fun pos v => (v, pos)) (reverse_postorder g)))))
  else Some None.

Definition state_before (r : DefiniteInitResult) (point : InitPoint) : option DefiniteInit :=
  states r !! point.

Definition vertex_of (r : DefiniteInitResult) (point : InitPoint) : option NodeIndex :=
  point_vertices r !! point.

Definition is_back_edge (r : DefiniteInitResult) (from to : NodeIndex) : bool :=
  match rpo r !! from, rpo r !! to with
  | Some from, Some to => (to <=? from)%nat
  | _, _ => false
  end.

Definition back_edges (r : DefiniteInitResult) (header : NodeIndex) : list NodeIndex :=
  fst <$> filter (fun '(from, edge) => is_executable edge && is_back_edge r from header)
            (incoming_edges (cfg r) header).

Fixpoint back_edges_loop (r : DefiniteInitResult) (bit : nat) (any : bool) (froms : list NodeIndex) : bool :=
  match froms with
  | [] => any
  | from :: froms =>
      match state ← block_out (inner r) !! from; is_initialized state bit with
      | Some true => back_edges_loop r bit true froms
      | Some false => false
      | None => back_edges_loop r bit any froms
      end
  end.

Definition back_edges_initialize (r : DefiniteInitResult) (header : NodeIndex) (bit : nat) : bool :=
  back_edges_loop r bit false (back_edges r header).

(** ** The search for a witness *)

(** A vertex and "it may be entered only along a back edge". *)
Definition Pair : Type := NodeIndex * bool.

Record Search : Type := MkSearch {
  queue : list Pair;
  visited : gset Pair;
  parent : gmap Pair (Pair * CfgEdgeType);
}.

(** [parent[&pair]] panics for a pair without a parent: [None]. *)
Fixpoint steps_to (fuel : nat) (parent : gmap Pair (Pair * CfgEdgeType)) (from origin : Pair)
    : option (list WitnessStep) :=
  match fuel with
  | O => None
  | S fuel =>
      if decide (from = origin) then Some []
      else '(next, edge) ← parent !! from;
           steps ← steps_to fuel parent next origin;
           Some (MkStep from.1 edge :: steps)
  end.

(** The pair an incoming edge leads to; [None] is [continue]. *)
Definition next_pair (r : DefiniteInitResult) (bit : nat) (pair : Pair) (from : NodeIndex)
    (edge : CfgEdgeType) : option Pair :=
  let '(vertex, back_only) := pair in
  if negb (is_executable edge) || (back_only && negb (is_back_edge r from vertex)) then None
  else if negb (match block_out (inner r) !! from with Some state => lacks state bit | None => false end)
  then None
  else
    let entering :=
      if decide (edge = FalseBranch) then
        stmt ← source_stmt_id (cfg r) from; entering_headers (events r) !! stmt
      else None in
    match entering with
    | Some NeverExits => None
    | Some EntersOnFirstArrival => Some (from, true)
    | None => Some (from, false)
    end.

(** The [for] over the incoming edges of [pair]: [inl] is its [return] with the pair it returns at. *)
Fixpoint search_edges (r : DefiniteInitResult) (bit : nat) (start : NodeIndex) (pair : Pair)
    (edges : list (NodeIndex * CfgEdgeType)) (s : Search) : Search + Search :=
  match edges with
  | [] => inr s
  | (from, edge) :: edges =>
      match next_pair r bit pair from edge with
      | None => search_edges r bit start pair edges s
      | Some next =>
          if decide (next ∈ visited s) then search_edges r bit start pair edges s
          else
            let visited := {[next]} ∪ visited s in
            let parent := <[next := (pair, edge)]> (parent s) in
            if decide (next = (start, false)) then inl (MkSearch (queue s) visited parent)
            else search_edges r bit start pair edges (MkSearch (queue s ++ [next]) visited parent)
      end
  end.

(** [while let Some(pair) = queue.pop_front()]. *)
Fixpoint search_loop (fuel : nat) (r : DefiniteInitResult) (bit : nat) (start : NodeIndex)
    (origin : Pair) (s : Search) : option (option (list WitnessStep)) :=
  match fuel with
  | O => None
  | S fuel =>
      match queue s with
      | [] => Some None
      | here :: rest =>
          match search_edges r bit start here (incoming_edges (cfg r) here.1)
                  (MkSearch rest (visited s) (parent s)) with
          | inl s => Some <$> steps_to (S (size (parent s))) (parent s) (start, false) origin
          | inr s => search_loop fuel r bit start origin s
          end
      end
  end.

(** Every vertex is queued at most twice. *)
Definition witness (r : DefiniteInitResult) (point : InitPoint) (bit : nat)
    : option (option (list WitnessStep)) :=
  match vertex_of r point, g_start (cfg r) with
  | Some target, Some start =>
      if decide (target = start) then Some (Some [])
      else
        let origin := (target, false) in
        search_loop (S (S (2 * length (g_nodes (cfg r))))) r bit start origin
          (MkSearch [origin] {[origin]} ∅)
  | _, _ => Some None
  end.
End analysis.
