(* ===== verification/DefiniteInitSpec.v ===== *)
(** DefiniteInitSpec: what definite initialization computes, against the executable paths of the
    graph. *)
From stdpp Require Import prelude gmap.
From S2P Require Import Prelude Cfg Dataflow DataflowSpec DefiniteInit.

(** ** Paths and the bits they carry *)

Definition bits_of (bits : option (list nat)) : gset nat := list_to_set (default [] bits).

Definition stmts_bits (ev : InitEvents) (ss : list StmtId) : gset nat :=
  foldr (fun s bits => bits_of (ev_stmt ev !! s) ∪ bits) ∅ ss.

Definition header_bits (ev : InitEvents) (e : ExprId) : gset nat := bits_of (ev_header ev !! e).

Definition loop_var_bits (ev : InitEvents) (v : BindingId) : gset nat :=
  match ev_loop_var ev !! v with Some bit => {[bit]} | None => ∅ end.

(** The bits a vertex sets. *)
Definition vertex_bits (ev : InitEvents) (g : ControlFlowGraph) (v : NodeIndex) : gset nat :=
  match vertex g v with
  | Some (BasicBlock ss) => stmts_bits ev ss
  | Some (Conditional c) | Some (WhileHeader c) => header_bits ev c
  | Some (ForHeader x from to) => header_bits ev from ∪ header_bits ev to ∪ loop_var_bits ev x
  | Some (ForEachHeader x c) => header_bits ev c ∪ loop_var_bits ev x
  | _ => ∅
  end.

(** Along some executable path the bits [S] are set on entry to a vertex. *)
Inductive carries (ev : InitEvents) (g : ControlFlowGraph) : NodeIndex -> gset nat -> Prop :=
| carries_start v : g_start g = Some v -> carries ev g v ∅
| carries_step u v k S : carries ev g u S -> MkEdge u v k ∈ g_edges g -> is_executable k = true ->
    carries ev g v (S ∪ vertex_bits ev g u).

(** The same before a statement and inside a header. *)
Inductive carries_to (ev : InitEvents) (g : ControlFlowGraph) : InitPoint -> gset nat -> Prop :=
| carries_stmt v pre s post S : carries ev g v S -> vertex g v = Some (BasicBlock (pre ++ s :: post)) ->
    carries_to ev g (Stmt s) (S ∪ stmts_bits ev pre)
| carries_conditional v c S : carries ev g v S -> vertex g v = Some (Conditional c) ->
    carries_to ev g (Header c) S
| carries_while v c S : carries ev g v S -> vertex g v = Some (WhileHeader c) ->
    carries_to ev g (Header c) S
| carries_from v x from to S : carries ev g v S -> vertex g v = Some (ForHeader x from to) ->
    carries_to ev g (Header from) S
| carries_until v x from to S : carries ev g v S -> vertex g v = Some (ForHeader x from to) ->
    carries_to ev g (Header to) (S ∪ header_bits ev from)
| carries_collection v x c S : carries ev g v S -> vertex g v = Some (ForEachHeader x c) ->
    carries_to ev g (Header c) S.

(** A state describes a family of bit sets exactly: it is unreached when the family is empty, and
    otherwise it holds the bits of all of its sets, so that every other bit is missing in some. *)
Definition describes (st : DefiniteInit) (F : gset nat -> Prop) : Prop :=
  match st with
  | Unreached => forall S, ~ F S
  | Reached T => (exists S, F S) /\ (forall S, F S -> T ⊆ S) /\
      forall bit, bit ∉ T -> exists S, F S /\ bit ∉ S
  end.

(** The half of it that a run keeps: what the state lacks, some path lacks. *)
Definition witnessed (st : DefiniteInit) (F : gset nat -> Prop) : Prop :=
  match st with
  | Unreached => True
  | Reached T => (exists S, F S) /\ forall bit, bit ∉ T -> exists S, F S /\ bit ∉ S
  end.

(** And the other half: the state is reached and holds no more than any path carries. *)
Definition covers (st : DefiniteInit) (F : gset nat -> Prop) : Prop :=
  forall S, F S -> exists T, st = Reached T /\ T ⊆ S.

Lemma witnessed_covers_describes st F : witnessed st F -> covers st F -> describes st F.
Proof.
  destruct st as [|T]; simpl; intros Hw Hc.
  - intros S HS. by destruct (Hc S HS) as (T & ? & _).
  - destruct Hw as [Hex Hw]. split_and!; [done| |done].
    intros S HS. by destruct (Hc S HS) as (T' & [= <-] & HT).
Qed.

(** ** The transfer functions *)

#[export] Instance DefiniteInit_laws : LatticeLaws DefiniteInit.
Proof.
  split; unfold join; cbn.
  - intros [|a] [|b] [|c]; cbn; try done. f_equal. set_solver.
  - intros [|a] [|b]; cbn; try done. f_equal. set_solver.
  - intros [|a]; cbn; try done. f_equal. set_solver.
Qed.

Lemma below_reached a b : below (Reached a) b <-> exists T, b = Reached T /\ T ⊆ a.
Proof.
  unfold below, join, DefiniteInit_join, init_join. destruct b as [|T]; split.
  - done.
  - by intros (? & ? & _).
  - intros [= E]. exists T. split; [done|set_solver].
  - intros (T' & [= <-] & HT). f_equal. set_solver.
Qed.

Lemma below_unreached b : below Unreached b.
Proof. by destruct b. Qed.

Definition with_bits (B : gset nat) (st : DefiniteInit) : DefiniteInit :=
  match st with Unreached => Unreached | Reached T => Reached (T ∪ B) end.

Lemma add_with_bits bits st : add bits st = with_bits (list_to_set bits) st.
Proof.
  destruct st as [|T]; [done|]. simpl. f_equal. revert T.
  induction bits as [|b bits IH]; intros T; simpl; [set_solver|]. rewrite IH. set_solver.
Qed.

Lemma add_some_with_bits bits st : add_some bits st = with_bits (bits_of bits) st.
Proof.
  destruct bits as [bits|]; simpl; [apply add_with_bits|].
  destruct st; simpl; [done|]. f_equal. unfold bits_of. set_solver.
Qed.

Lemma with_bits_twice B C st : with_bits B (with_bits C st) = with_bits (C ∪ B) st.
Proof. destruct st; simpl; [done|]. f_equal. set_solver. Qed.

Lemma with_no_bits st : with_bits ∅ st = st.
Proof. destruct st; simpl; [done|]. f_equal. set_solver. Qed.

Lemma with_bits_mono B a b : below a b -> below (with_bits B a) (with_bits B b).
Proof.
  destruct a as [|a]; [intros _; apply below_unreached|].
  intros (T & -> & HT)%below_reached. apply below_reached. exists (T ∪ B). split; [done|set_solver].
Qed.

Section events.
Context (ev : InitEvents) (g : ControlFlowGraph).

#[local] Hint Extern 0 (Transfer DefiniteInit) => exact (DefiniteInitTransfer ev) : typeclass_instances.

Lemma transfer_loop_var_with_bits x st :
  transfer_loop_var_bind x st = with_bits (loop_var_bits ev x) st.
Proof.
  cbn. unfold loop_var_bits. destruct (ev_loop_var ev !! x); [|by rewrite with_no_bits].
  rewrite add_with_bits. f_equal. set_solver.
Qed.

Lemma foldl_stmts ss st :
  foldl (fun st s => transfer_stmt s st) st ss = with_bits (stmts_bits ev ss) st.
Proof.
  revert st. induction ss as [|s ss IH]; intros st; simpl; [by rewrite with_no_bits|].
  rewrite IH. cbn. rewrite add_some_with_bits. apply with_bits_twice.
Qed.

(** A vertex adds its bits. *)
Lemma transfer_block_bits v st : transfer_block g v st = with_bits (vertex_bits ev g v) st.
Proof.
  unfold transfer_block, vertex_bits. destruct (vertex g v) as [kind|]; [|by rewrite with_no_bits].
  destruct kind; rewrite ?foldl_stmts, ?transfer_loop_var_with_bits; cbn;
    rewrite ?add_some_with_bits, ?with_bits_twice, ?with_no_bits; try done.
  - unfold header_bits. by rewrite assoc_L by apply _.
  - by destruct (source_stmt_id g v).
Qed.

Lemma transfer_edge_exec k (st : DefiniteInit) : is_executable k = true -> transfer_edge k st = st.
Proof. by destruct k. Qed.

#[local] Instance DefiniteInit_transfer_laws : TransferLaws DefiniteInit.
Proof.
  split; intros x a b Hab.
  - cbn. rewrite !add_some_with_bits. by apply with_bits_mono.
  - cbn. rewrite !add_some_with_bits. by apply with_bits_mono.
  - by destruct x.
  - rewrite !transfer_loop_var_with_bits. by apply with_bits_mono.
  - done.
Qed.

(** *** The states of a run *)

Abbreviation carries_in v := (carries ev g v).

(** What a path carries behind a vertex. *)
Definition carries_out (v : NodeIndex) (S' : gset nat) : Prop :=
  exists S, carries ev g v S /\ S' = S ∪ vertex_bits ev g v.

Lemma witnessed_join a b F : witnessed a F -> witnessed b F -> witnessed (join a b) F.
Proof.
  destruct a as [|A], b as [|B]; try done. simpl. intros [HA Ha] [_ Hb]. split; [done|].
  intros bit Hbit. destruct (decide (bit ∈ A)) as [Hin|Hin]; [|by apply Ha].
  apply Hb. set_solver.
Qed.

Lemma witnessed_out v st :
  witnessed st (carries_in v) -> witnessed (transfer_block g v st) (carries_out v).
Proof.
  rewrite transfer_block_bits. destruct st as [|T]; [done|]. intros [[S HS] HT]. simpl. split.
  - by exists (S ∪ vertex_bits ev g v), S.
  - intros bit Hbit. apply not_elem_of_union in Hbit as [Hb1 Hb2].
    destruct (HT bit Hb1) as (S1 & HS1 & Hb). exists (S1 ∪ vertex_bits ev g v).
    split; [by exists S1|set_solver].
Qed.

Lemma witnessed_edge u v k st :
  MkEdge u v k ∈ g_edges g -> witnessed st (carries_out u) ->
  witnessed (transfer_edge k st) (carries_in v).
Proof.
  intros Hin. destruct (is_executable k) eqn:Ek; [|by destruct k].
  rewrite transfer_edge_exec by done. destruct st as [|T]; [done|].
  assert (forall S, carries_out u S -> carries_in v S) as Hstep.
  { intros S (S0 & HS0 & ->). by apply carries_step with k. }
  intros [[S HS] HT]. split; [exists S; by apply Hstep|].
  intros bit Hb. destruct (HT bit Hb) as (S1 & HS1 & ?). exists S1. split; [by apply Hstep|done].
Qed.

Definition run_witnessed (p : Progress DefiniteInit) : Prop :=
  (forall v st, before p !! v = Some st -> witnessed st (carries_in v)) /\
  (forall v st, after p !! v = Some st -> witnessed st (carries_out v)).

Section run.
Context `{EdgeOrderLaw, DfsPostOrder}.
Context (start : NodeIndex).
Hypothesis Hwf : well_formed g.
Hypothesis Hstart : g_start g = Some start.
Hypothesis Hentry : forall e, e ∈ g_edges g -> e_target e <> start.
Hypothesis Hdfs : dfs_law (g_edges g) start.

Lemma join_edges_witnessed es (a : gmap NodeIndex DefiniteInit) (F : gset nat -> Prop) st r :
  (forall u k s, (u, k) ∈ es -> a !! u = Some s -> witnessed (transfer_edge k s) F) ->
  (forall s, st = Some s -> witnessed s F) -> join_edges es a st = Some r -> witnessed r F.
Proof.
  revert st. induction es as [|[u k] es IH]; intros st Hes Hst; simpl; [apply Hst|].
  apply IH; [intros w k' s Hw; apply Hes; by apply list_elem_of_further|].
  intros s. destruct (a !! u) as [t|] eqn:E; [|apply Hst].
  assert (witnessed (transfer_edge k t) F) by (apply (Hes u k); [apply list_elem_of_here|done]).
  intros [= <-]. destruct st as [s0|]; [apply witnessed_join; [by apply Hst|done]|done].
Qed.

Lemma arriving_witnessed v b a s :
  (forall v st, b !! v = Some st -> witnessed st (carries_in v)) ->
  (forall v st, a !! v = Some st -> witnessed st (carries_out v)) ->
  arriving (incoming_edges g) (g_start g) v b a = Some s -> witnessed s (carries_in v).
Proof.
  intros Hb Ha. unfold arriving. case_match; [apply Hb|].
  destruct (join_edges (incoming_edges g v) a None) as [r|] eqn:E; [|apply Hb].
  intros [= <-]. apply (join_edges_witnessed (incoming_edges g v) a (carries_in v) None); try done.
  intros u k t Hu%elem_of_incoming Ht. apply (witnessed_edge u v k); [done|by apply Ha].
Qed.

Lemma run_witnessed_visit v rest p p' :
  LoopInv (incoming_edges g) (transfer_block g) (g_start g) (reverse_postorder g) p ->
  run_witnessed p -> worklist p = v :: rest ->
  visit (incoming_edges g) (outgoing_edges g) (transfer_block g) (g_start g) v rest p = Some p' ->
  run_witnessed p'.
Proof.
  intros Hp [Hb Ha] Hwl Hv.
  destruct (visit_spec (incoming_edges g) (outgoing_edges g) (transfer_block g) (g_start g)
    (reverse_postorder g) (incoming_outgoing g) (forward_order_closed g start Hstart Hdfs) p v rest Hp Hwl)
    as (s & p'' & Has & Hv' & _ & _ & Eb & Ea & _). assert (p'' = p') as -> by congruence.
  pose proof (arriving_witnessed v _ _ s Hb Ha Has) as Hs. split.
  - intros w st. rewrite Eb. destruct (decide (w = v)) as [->|Hne].
    + rewrite lookup_insert_eq. by intros [= <-].
    + rewrite lookup_insert_ne by done. apply Hb.
  - intros w st. rewrite Ea. destruct (decide (w = v)) as [->|Hne].
    + rewrite lookup_insert_eq. intros [= <-]. by apply witnessed_out.
    + rewrite lookup_insert_ne by done. apply Ha.
Qed.

Definition entry_states : gmap NodeIndex DefiniteInit :=
  set_initial_state g (Reached ∅) (bottoms g Unreached).

Lemma bottoms_inv v (st : DefiniteInit) : bottoms g Unreached !! v = Some st -> st = Unreached.
Proof.
  unfold bottoms. intros E%elem_of_list_to_map_2. by apply list_elem_of_fmap in E as (w & [= -> ->] & _).
Qed.

Lemma entry_initialized : initialized g entry_states (bottoms g Unreached) = true.
Proof. by apply (bottoms_initialized g start). Qed.

Lemma initial_witnessed (order : list NodeIndex) :
  run_witnessed (MkProgress order (list_to_set order) 0 entry_states (bottoms g Unreached)).
Proof.
  split; intros v st; simpl.
  - unfold entry_states, set_initial_state. rewrite Hstart. destruct (decide (v = start)) as [->|Hne].
    + rewrite lookup_insert_eq. intros [= <-].
      assert (carries ev g start ∅) as Hc by by apply carries_start.
      split; [by exists ∅|]. intros bit Hb. by exists ∅.
    + rewrite lookup_insert_ne by done. by intros ->%bottoms_inv.
  - by intros ->%bottoms_inv.
Qed.

Lemma carries_path v S : carries ev g v S -> path_state g (Reached ∅) v (Reached S).
Proof.
  induction 1 as [v Hv|u v k S _ IH Hk Hex]; [by apply path_start|].
  pose proof (path_step g (Reached ∅) u v k _ IH Hk) as Hp.
  rewrite transfer_block_bits, transfer_edge_exec in Hp by done. exact Hp.
Qed.

Lemma carries_steps v S : carries ev g v S -> rtc (steps (g_edges g)) start v.
Proof.
  induction 1 as [v Hv|u v k S _ IH Hk Hex]; [assert (v = start) as -> by congruence; done|].
  eapply rtc_r; [exact IH|by exists k].
Qed.

(** The states of a converged run describe the executable paths, and the states behind a vertex
    are the states before it with its bits. *)
Lemma run_describes max_iterations r :
  solve_forward g max_iterations entry_states (bottoms g Unreached) = Some r -> converged r = true ->
  forall v, (v < length (g_nodes g))%nat -> exists st, block_in r !! v = Some st /\
    describes st (carries_in v) /\ block_out r !! v = Some (with_bits (vertex_bits ev g v) st).
Proof.
  intros E Hconv v Hv.
  destruct (solve_forward_run g start max_iterations entry_states (bottoms g Unreached) Hwf Hstart
    Hdfs entry_initialized run_witnessed) as (p & c & E' & Hk & [Hb _] & Hc).
  - apply run_witnessed_visit.
  - apply initial_witnessed.
  - assert (r = MkResult (before p) (after p) c) as -> by congruence. simpl in *.
    destruct (decide (v ∈ reverse_postorder g)) as [Hin|Hout].
    + destruct (Hc Hconv v Hin) as (st & Hst & _ & Ho). exists st. split; [done|].
      rewrite transfer_block_bits in Ho. split; [|done].
      apply witnessed_covers_describes; [by apply Hb|]. intros S HS.
      destruct (forward_covers g start max_iterations entry_states (bottoms g Unreached)
        (MkResult (before p) (after p) c) (Reached ∅)) with (v := v) (a := Reached S)
        as (st' & Hst' & (T & -> & HT)%below_reached);
        [done..|apply entry_initialized| |exact E'|exact Hconv|by apply carries_path|].
      * unfold entry_states, set_initial_state. rewrite Hstart. apply lookup_insert_eq.
      * simpl in Hst'. exists T. split; [congruence|done].
    + rewrite (elem_of_forward_order g start Hstart Hdfs) in Hout.
      destruct (Hk v) as [K1 K2]; [by rewrite (elem_of_forward_order g start Hstart Hdfs)|].
      exists Unreached. rewrite K1. split.
      * unfold entry_states, set_initial_state. rewrite Hstart.
        rewrite lookup_insert_ne by (intros ->; by apply Hout). by apply bottoms_lookup.
      * split; [|rewrite K2; by apply bottoms_lookup].
        intros S HS. by apply Hout, (carries_steps v S).
Qed.

(** *** The points of a run *)

(** A run in every sense the later theorems need. *)
Lemma analysis_result max_iterations r :
  analyze_definite_init g ev max_iterations = Some (Some r) ->
  cfg r = g /\ events r = ev /\ converged (inner r) = true /\
  solve_forward g max_iterations entry_states (bottoms g Unreached) = Some (inner r) /\
  states r = record_all ((fun '(p, (_, s)) => (p, s)) <$> recorded ev g (inner r)) /\
  point_vertices r = record_all ((fun '(p, (v, _)) => (p, v)) <$> recorded ev g (inner r)).
Proof.
  unfold analyze_definite_init. fold entry_states.
  destruct (solve_forward g max_iterations entry_states (bottoms g Unreached)) as [q|] eqn:E;
    simpl; [|done].
  destruct (converged q) eqn:Hc; [|done]. by intros [= <-].
Qed.

Lemma result_describes max_iterations r :
  analyze_definite_init g ev max_iterations = Some (Some r) ->
  forall v, (v < length (g_nodes g))%nat -> exists st, block_in (inner r) !! v = Some st /\
    describes st (carries_in v) /\
    block_out (inner r) !! v = Some (with_bits (vertex_bits ev g v) st).
Proof. intros (_ & _ & Hc & E & _)%analysis_result. by apply (run_describes max_iterations). Qed.
End run.

(** The points of a vertex with the bits that are set inside the vertex before them. *)
Fixpoint block_marks (bits : gset nat) (ss : list StmtId) : list (InitPoint * gset nat) :=
  match ss with
  | [] => []
  | s :: ss => (Stmt s, bits) :: block_marks (bits ∪ bits_of (ev_stmt ev !! s)) ss
  end.

Definition kind_marks (kind : CfgVertex) : list (InitPoint * gset nat) :=
  match kind with
  | BasicBlock ss => block_marks ∅ ss
  | Conditional c | WhileHeader c => [(Header c, ∅)]
  | ForHeader _ from to => [(Header from, ∅); (Header to, header_bits ev from)]
  | ForEachHeader _ c => [(Header c, ∅)]
  | TryVertex | PreprocCondition _ _ _ | Exit => []
  end.

Definition marks (vs : list (NodeIndex * CfgVertex)) : list (InitPoint * (NodeIndex * gset nat)) :=
  '(v, kind) ← vs; (fun '(p, B) => (p, (v, B))) <$> kind_marks kind.

Lemma block_points_marks ss B st :
  block_points ev ss (with_bits B st) = (fun '(p, B) => (p, with_bits B st)) <$> block_marks B ss.
Proof.
  revert B. induction ss as [|s ss IH]; intros B; [done|]. simpl. f_equal.
  rewrite add_some_with_bits, with_bits_twice. apply IH.
Qed.

Lemma vertex_points_marks kind st :
  vertex_points ev kind st = (fun '(p, B) => (p, with_bits B st)) <$> kind_marks kind.
Proof.
  destruct kind; simpl; rewrite ?with_no_bits, ?add_some_with_bits; try done.
  rewrite <- (with_no_bits st) at 1. apply block_points_marks.
Qed.

Lemma recorded_marks (r : DataflowResult DefiniteInit) vs (entry : NodeIndex -> DefiniteInit) :
  (forall v kind, (v, kind) ∈ vs -> block_in r !! v = Some (entry v)) ->
  ('(v, kind) ← vs;
   match block_in r !! v with
   | Some entry => (fun '(point, state) => (point, (v, state))) <$> vertex_points ev kind entry
   | None => []
   end) = (fun '(p, (v, B)) => (p, (v, with_bits B (entry v)))) <$> marks vs.
Proof.
  induction vs as [|[v kind] vs IH]; intros Hin; [done|]. unfold marks. simpl.
  rewrite (Hin v kind) by apply list_elem_of_here. rewrite fmap_app. f_equal.
  - rewrite vertex_points_marks, <- !list_fmap_compose. apply list_fmap_ext. by intros ? [p B].
  - apply IH. intros w k Hw. apply (Hin w k). by apply list_elem_of_further.
Qed.

Lemma elem_of_block_marks ss B p C :
  (p, C) ∈ block_marks B ss <->
  exists pre s post, ss = pre ++ s :: post /\ p = Stmt s /\ C = B ∪ stmts_bits ev pre.
Proof.
  revert B. induction ss as [|s ss IH]; intros B; simpl.
  - rewrite elem_of_nil. split; [done|]. by intros ([] & ? & ? & ? & _).
  - rewrite elem_of_cons, IH. split.
    + intros [[= -> ->]|(pre & x & post & -> & -> & ->)].
      * exists [], s, ss. split_and!; [done..|]. simpl. set_solver.
      * exists (s :: pre), x, post. split_and!; [done..|]. simpl. set_solver.
    + intros (pre & x & post & E & -> & ->). destruct pre as [|y pre]; simplify_eq/=.
      * left. f_equal. set_solver.
      * right. exists pre, x, post. split_and!; [done..|]. set_solver.
Qed.

Lemma elem_of_vertices v kind : (v, kind) ∈ vertices g <-> vertex g v = Some kind.
Proof.
  unfold vertices, vertex. rewrite elem_of_lookup_imap. split.
  - by intros (i & x & [= -> ->] & Hx).
  - intros Hk. by exists v, kind.
Qed.

(** A path to a point is a path to its vertex and the bits before the point. *)
Lemma carries_to_marks p S :
  carries_to ev g p S <->
  exists v B S0, (p, (v, B)) ∈ marks (vertices g) /\ carries ev g v S0 /\ S = S0 ∪ B.
Proof.
  assert (forall v B, (p, (v, B)) ∈ marks (vertices g) <->
    exists kind, vertex g v = Some kind /\ (p, B) ∈ kind_marks kind) as Hm.
  { intros v B. unfold marks. rewrite list_elem_of_bind. split.
    - intros ([w kind] & Hp & Hw). apply list_elem_of_fmap in Hp as ([q C] & E & Hp).
      simplify_eq. exists kind. split; [by apply elem_of_vertices|done].
    - intros (kind & Hk & Hp). exists (v, kind). split; [|by apply elem_of_vertices].
      apply list_elem_of_fmap. by exists (p, B). }
  setoid_rewrite Hm. split.
  - destruct 1 as [v pre s post S HS Hv|v c S HS Hv|v c S HS Hv|v x from to S HS Hv|v x from to S HS Hv|v x c S HS Hv].
    1: exists v, (stmts_bits ev pre), S.
    5: exists v, (header_bits ev from), S.
    2,3,4,6: exists v, (∅ : gset nat), S.
    all: split; [eexists; split; [exact Hv|]|split; [done|set_solver]]; simpl; try set_solver.
    apply elem_of_block_marks. exists pre, s, post. split_and!; [done..|]. set_solver.
  - intros (v & B & S0 & (kind & Hk & Hp) & HS & ->). destruct kind; simpl in Hp.
    + apply elem_of_block_marks in Hp as (pre & s & post & -> & -> & ->).
      rewrite union_empty_l_L. by apply carries_stmt with v post.
    + apply list_elem_of_singleton in Hp as [= -> ->]. rewrite union_empty_r_L.
      by apply carries_conditional with v.
    + apply list_elem_of_singleton in Hp as [= -> ->]. rewrite union_empty_r_L.
      by apply carries_while with v.
    + apply elem_of_cons in Hp as [[= -> ->]|[= -> ->]%list_elem_of_singleton].
      * rewrite union_empty_r_L. by apply carries_from with v loop_var to.
      * by apply carries_until with v loop_var.
    + apply list_elem_of_singleton in Hp as [= -> ->]. rewrite union_empty_r_L.
      by apply carries_collection with v loop_var.
    + by apply elem_of_nil in Hp.
    + by apply elem_of_nil in Hp.
    + by apply elem_of_nil in Hp.
Qed.
End events.

(** The points of a graph. *)
Definition kind_points (kind : CfgVertex) : list InitPoint :=
  match kind with
  | BasicBlock ss => Stmt <$> ss
  | Conditional c | WhileHeader c => [Header c]
  | ForHeader _ from to => [Header from; Header to]
  | ForEachHeader _ c => [Header c]
  | TryVertex | PreprocCondition _ _ _ | Exit => []
  end.

Definition graph_points (g : ControlFlowGraph) : list InitPoint :=
  '(_, kind) ← vertices g; kind_points kind.

Lemma block_marks_points ev B ss : (block_marks ev B ss).*1 = Stmt <$> ss.
Proof. revert B. induction ss as [|s ss IH]; intros B; [done|]. simpl. by rewrite IH. Qed.

Lemma marks_points ev vs : (marks ev vs).*1 = '(_, kind) ← vs; kind_points kind.
Proof.
  unfold marks. induction vs as [|[v kind] vs IH]; [done|]. simpl. rewrite fmap_app. f_equal; [|exact IH].
  rewrite <- list_fmap_compose.
  transitivity ((kind_marks ev kind).*1); [apply list_fmap_ext; by intros ? []|].
  destruct kind; simpl; try done. apply block_marks_points.
Qed.

Section record_all.
Context {A : Type}.

Lemma record_all_snoc (rs : list (InitPoint * A)) p x :
  record_all (rs ++ [(p, x)]) = <[p := x]> (record_all rs).
Proof. unfold record_all. by rewrite foldl_snoc. Qed.

Lemma record_all_some (rs : list (InitPoint * A)) p x :
  NoDup rs.*1 -> (p, x) ∈ rs -> record_all rs !! p = Some x.
Proof.
  induction rs as [|[q y] rs IH] using rev_ind; [by rewrite elem_of_nil|].
  rewrite fmap_app, record_all_snoc. intros (Hnd & Hout & _)%NoDup_app Hin.
  apply elem_of_app in Hin as [Hin|[= -> ->]%list_elem_of_singleton].
  - rewrite lookup_insert_ne; [by apply IH|]. intros ->. apply (Hout p); [|apply list_elem_of_here].
    apply list_elem_of_fmap. by exists (p, x).
  - apply lookup_insert_eq.
Qed.

Lemma record_all_none (rs : list (InitPoint * A)) p : p ∉ rs.*1 -> record_all rs !! p = None.
Proof.
  induction rs as [|[q y] rs IH] using rev_ind; [done|]. rewrite fmap_app, record_all_snoc.
  intros [Hrs Hq]%not_elem_of_app. simpl in Hq. rewrite lookup_insert_ne by set_solver. by apply IH.
Qed.

Lemma record_all_in (rs : list (InitPoint * A)) p x : record_all rs !! p = Some x -> (p, x) ∈ rs.
Proof.
  induction rs as [|[q y] rs IH] using rev_ind; [done|]. rewrite record_all_snoc, elem_of_app.
  destruct (decide (p = q)) as [->|Hne].
  - rewrite lookup_insert_eq. intros [= <-]. right. apply list_elem_of_here.
  - rewrite lookup_insert_ne by done. intros Hp. left. by apply IH.
Qed.
End record_all.

Section points.
Context `{EdgeOrderLaw, DfsPostOrder}.
Context (ev : InitEvents) (g : ControlFlowGraph) (start : NodeIndex).
Hypothesis Hwf : well_formed g.
Hypothesis Hstart : g_start g = Some start.
Hypothesis Hentry : forall e, e ∈ g_edges g -> e_target e <> start.
Hypothesis Hdfs : dfs_law (g_edges g) start.

(** What the analysis records, point by point. *)
Lemma result_points max_iterations r :
  analyze_definite_init g ev max_iterations = Some (Some r) ->
  exists entry : NodeIndex -> DefiniteInit,
    (forall v, (v < length (g_nodes g))%nat -> describes (entry v) (carries ev g v)) /\
    states r = record_all ((fun '(p, (v, B)) => (p, with_bits B (entry v))) <$> marks ev (vertices g)) /\
    point_vertices r = record_all ((fun '(p, (v, _)) => (p, v)) <$> marks ev (vertices g)).
Proof.
  intros E. pose proof (result_describes ev g start Hwf Hstart Hentry Hdfs _ _ E) as Hd.
  apply analysis_result in E as (_ & _ & _ & _ & Hs & Hp).
  exists (fun v => default Unreached (block_in (inner r) !! v)). split.
  - intros v Hv. destruct (Hd v Hv) as (st & -> & ? & _). done.
  - assert (recorded ev g (inner r) = (fun '(p, (v, B)) =>
      (p, (v, with_bits B (default Unreached (block_in (inner r) !! v))))) <$> marks ev (vertices g)) as Hrec.
    { apply (recorded_marks ev (inner r) (vertices g) (fun v => default Unreached (block_in (inner r) !! v))).
      intros v kind Hv%elem_of_vertices. apply lookup_lt_Some in Hv.
      by destruct (Hd v Hv) as (st & -> & _). }
    rewrite Hs, Hp, Hrec, <- !list_fmap_compose.
    split; f_equal; apply list_fmap_ext; by intros ? [p [v B]].
Qed.

Lemma marks_nodup_unique p v B w C :
  NoDup (graph_points g) -> (p, (v, B)) ∈ marks ev (vertices g) -> (p, (w, C)) ∈ marks ev (vertices g) ->
  v = w /\ B = C.
Proof.
  unfold graph_points. rewrite <- (marks_points ev). intros Hnd Hv Hw.
  apply (elem_of_list_to_map (M := gmap InitPoint)) in Hv, Hw; [|done..]. rewrite Hv in Hw.
  by injection Hw as -> ->.
Qed.

Lemma marks_vertex p v B : (p, (v, B)) ∈ marks ev (vertices g) -> (v < length (g_nodes g))%nat.
Proof.
  intros ([w kind] & Hm & Hw)%list_elem_of_bind.
  apply list_elem_of_fmap in Hm as ([q C] & E & _). simplify_eq.
  apply elem_of_vertices in Hw. by eapply lookup_lt_Some.
Qed.

Lemma mapped_points {A} (f : InitPoint * (NodeIndex * gset nat) -> InitPoint * A) :
  (forall x, (f x).1 = x.1) -> (f <$> marks ev (vertices g)).*1 = graph_points g.
Proof.
  intros Hf. unfold graph_points. rewrite <- (marks_points ev), <- list_fmap_compose.
  apply list_fmap_ext. intros _ x _. apply Hf.
Qed.

Lemma describes_with_bits st (F F' : gset nat -> Prop) B :
  describes st F -> (forall S', F' S' <-> exists S, F S /\ S' = S ∪ B) -> describes (with_bits B st) F'.
Proof.
  intros Hd HF. destruct st as [|T]; simpl in *.
  - intros S' (S & HS & ->)%HF. by apply (Hd S).
  - destruct Hd as ([S HS] & Hall & Hd). split_and!; [exists (S ∪ B); apply HF; by exists S| |].
    + intros S' (S1 & HS1 & ->)%HF. specialize (Hall S1 HS1). set_solver.
    + intros bit [Hb HB]%not_elem_of_union. destruct (Hd bit Hb) as (S1 & HS1 & Hn).
      exists (S1 ∪ B). split; [apply HF; by exists S1|set_solver].
Qed.

(** The state of a point that occurs once. *)
Lemma point_described max_iterations r point :
  NoDup (graph_points g) -> analyze_definite_init g ev max_iterations = Some (Some r) ->
  point ∈ graph_points g ->
  exists st, state_before r point = Some st /\ describes st (carries_to ev g point).
Proof.
  intros Hnd (entry & Hd & Hs & _)%result_points Hp. unfold state_before. rewrite Hs.
  unfold graph_points in Hp. rewrite <- (marks_points ev) in Hp.
  apply list_elem_of_fmap in Hp as ([p' [v B]] & -> & Hm). simpl.
  exists (with_bits B (entry v)). split.
  - apply record_all_some.
    + by rewrite mapped_points by by intros [? []].
    + apply list_elem_of_fmap. by exists (p', (v, B)).
  - apply (describes_with_bits _ (carries ev g v)).
    + by eapply Hd, marks_vertex.
    + intros S'. rewrite carries_to_marks. split.
      * intros (w & C & S0 & Hm' & HS0 & ->).
        destruct (marks_nodup_unique _ _ _ _ _ Hnd Hm Hm') as [-> ->]. by exists S0.
      * intros (S0 & HS0 & ->). by exists v, B, S0.
Qed.

(** C12. The analysis is exact: for a statement or header that occurs once in the graph, the
    recorded state is unreached exactly when no executable path leads to it, and otherwise a name
    counts as initialized there exactly when every executable path to it assigns the name before
    (some path does not assign any other name); for other points no state is recorded. *)
Theorem definite_init_exact max_iterations r :
  NoDup (graph_points g) -> analyze_definite_init g ev max_iterations = Some (Some r) ->
  (forall point, point ∈ graph_points g ->
     exists st, state_before r point = Some st /\ describes st (carries_to ev g point)) /\
  (forall point, point ∉ graph_points g -> state_before r point = None).
Proof.
  intros Hnd E. split; [intros p; by apply point_described with max_iterations|].
  apply result_points in E as (entry & _ & Hs & _). unfold state_before. rewrite Hs.
  intros p Hp. apply record_all_none. by rewrite mapped_points by by intros [? []].
Qed.

End points.

(** *** Convergence *)

Section convergence.
Context (ev : InitEvents) (g : ControlFlowGraph).

(** The bits of the events are inside the width. *)
Definition events_in_width : Prop :=
  (forall s bits, ev_stmt ev !! s = Some bits -> Forall (fun b => b < width ev)%nat bits) /\
  (forall e bits, ev_header ev !! e = Some bits -> Forall (fun b => b < width ev)%nat bits) /\
  (forall v b, ev_loop_var ev !! v = Some b -> (b < width ev)%nat).

Definition all_bits : gset nat := set_seq 0 (width ev).

Definition in_width (st : DefiniteInit) : Prop :=
  match st with Unreached => True | Reached T => T ⊆ all_bits end.

Lemma bits_of_in_width bits :
  (forall bs, bits = Some bs -> Forall (fun b => b < width ev)%nat bs) -> bits_of bits ⊆ all_bits.
Proof.
  unfold bits_of, all_bits. destruct bits as [bs|]; simpl; [|set_solver].
  intros Hbs b Hb%elem_of_list_to_set. specialize (Hbs bs eq_refl). rewrite Forall_forall in Hbs.
  apply elem_of_set_seq. specialize (Hbs b Hb). lia.
Qed.

Lemma vertex_bits_in_width v : events_in_width -> vertex_bits ev g v ⊆ all_bits.
Proof.
  intros (Hs & Hh & Hl).
  assert (forall e, header_bits ev e ⊆ all_bits) as He.
  { intros e. apply bits_of_in_width. apply Hh. }
  assert (forall x, loop_var_bits ev x ⊆ all_bits) as Hx.
  { intros x. unfold loop_var_bits. destruct (ev_loop_var ev !! x) as [b|] eqn:E.
    - apply Hl in E. intros b' ->%elem_of_singleton. apply elem_of_set_seq. lia.
    - apply empty_subseteq. }
  assert (forall ss, stmts_bits ev ss ⊆ all_bits) as Hss.
  { induction ss as [|s ss IH]; simpl; [apply empty_subseteq|].
    apply union_least; [apply bits_of_in_width, Hs|exact IH]. }
  unfold vertex_bits. destruct (vertex g v) as [[]|]; repeat apply union_least;
    first [apply He|apply Hx|apply Hss|apply empty_subseteq].
Qed.

Definition init_rank (st : DefiniteInit) : nat :=
  match st with Unreached => 0 | Reached T => S (width ev - size T) end.

Lemma init_rank_lt a b :
  in_width a -> in_width b -> below a b -> a <> b -> (init_rank a < init_rank b)%nat.
Proof.
  intros Ha Hb Hab Hne. destruct a as [|A].
  { destruct b; [done|]. simpl. lia. }
  apply below_reached in Hab as (T & -> & HT). simpl in *.
  assert (T ⊂ A) as Hlt%subset_size.
  { split; [done|]. intros HA. apply Hne. f_equal. by apply set_eq_subseteq. }
  apply subseteq_size in Ha. unfold all_bits in Ha. rewrite size_set_seq in Ha. lia.
Qed.

(** The analysis always ends, and within its budget it answers: for events whose bits are inside
    the width [w], a graph of [n] vertices and [e] edges is analyzed whenever the iteration limit is
    at least [n + (w + 1) * e]. *)
Theorem definite_init_converges `{EdgeOrderLaw, DfsPostOrder} start max_iterations :
  well_formed g -> g_start g = Some start -> dfs_law (g_edges g) start -> events_in_width -> (length (g_nodes g) + S (width ev) * length (g_edges g) <= max_iterations)%nat ->
  exists r, analyze_definite_init g ev max_iterations = Some (Some r).
Proof.
  intros Hwf Hstart Hdfs Hev Hmax.
  destruct (@forward_converges_valid DefiniteInit _ _ (DefiniteInitTransfer ev)
    (DefiniteInit_transfer_laws ev) _ _ _ _ g start max_iterations Unreached (Reached ∅)
    in_width init_rank (S (width ev))) as (r & E & Hc); [done..| | | | | | | | |].
  - done.
  - simpl. set_solver.
  - intros [|a] [|b]; simpl; [done..|]. set_solver.
  - by intros [] a.
  - intros v a. rewrite transfer_block_bits. destruct a as [|a]; [done|]. simpl.
    pose proof (vertex_bits_in_width v Hev). set_solver.
  - apply init_rank_lt.
  - intros [|a]; simpl; lia.
  - exact Hmax.
  - unfold analyze_definite_init. setoid_rewrite E. simpl. rewrite Hc. by eexists.
Qed.
End convergence.

(** ** A loop whose body assigns the only name *)

Module Loop.
#[local] Existing Instances Ran.order Ran.order_law Ran.dfs.

(** Statement 1, the body of the loop, sets bit 0. *)
Definition loop_events : InitEvents := MkEvents 1 {[1 := [0]]} ∅ ∅ ∅.

Lemma loop_entry e : e ∈ g_edges small_loop -> e_target e <> 1.
Proof.
  simpl. rewrite !elem_of_cons, elem_of_nil. by intros [->|[->|[->|[->|[->|[->|[]]]]]]].
Qed.

(** The name is missing before the body and behind the loop; the block behind the body is entered
    over an edge that is not executed. *)
Lemma loop_states :
  match analyze_definite_init small_loop loop_events DEFAULT_MAX_ITERATIONS with
  | Some (Some r) =>
      (fun s => option_map (fun st => is_initialized st 0) (state_before r (Stmt s))) <$> [0; 1; 2] =
      [Some (Some false); Some (Some false); Some None]
  | _ => False
  end.
Proof. vm_compute. reflexivity. Qed.

Lemma definite_init_exact_witness :
  NoDup (graph_points small_loop) /\
  match analyze_definite_init small_loop loop_events 100 with
  | Some (Some r) => forall point, point ∈ graph_points small_loop ->
      exists st, state_before r point = Some st /\ describes st (carries_to loop_events small_loop point)
  | _ => False
  end.
Proof.
  assert (NoDup (graph_points small_loop)) as Hnd.
  { apply (bool_decide_unpack (NoDup (graph_points small_loop))). vm_compute. exact I. }
  split; [exact Hnd|].
  destruct (analyze_definite_init small_loop loop_events 100) as [[r|]|] eqn:E;
    [|vm_compute in E; discriminate..].
  exact (proj1 (definite_init_exact loop_events small_loop 1 Ran.small_loop_well_formed eq_refl
    loop_entry Ran.small_loop_forward 100 r Hnd E)).
Defined.

Lemma definite_init_converges_witness :
  exists r, analyze_definite_init small_loop loop_events 17 = Some (Some r).
Proof.
  apply (definite_init_converges loop_events small_loop 1 17 Ran.small_loop_well_formed eq_refl
    Ran.small_loop_forward).
  - split_and!; intros x y E; unfold loop_events in E; simpl in E.
    + apply lookup_singleton_Some in E as [_ <-]. repeat constructor.
    + discriminate.
    + discriminate.
  - simpl. lia.
Defined.
End Loop.
