(* ===== verification/DefiniteInitWitness.v ===== *)
(** DefiniteInitWitness: the search for a path without initialization finds one exactly when there
    is one, and what it finds is an executable path. *)
From stdpp Require Import prelude gmap.
From S2P Require Import Prelude Cfg Dataflow DataflowSpec DefiniteInit DefiniteInitSpec.

(** [leads ev g bit u steps v]: the steps go over executable edges from [u] to [v], and no vertex
    they leave sets the bit. *)
Inductive leads (ev : InitEvents) (g : ControlFlowGraph) (bit : nat)
    : NodeIndex -> list WitnessStep -> NodeIndex -> Prop :=
| leads_nil v : leads ev g bit v [] v
| leads_cons u w v k ss : MkEdge u w k ∈ g_edges g -> is_executable k = true ->
    bit ∉ vertex_bits ev g u -> leads ev g bit w ss v -> leads ev g bit u (MkStep u k :: ss) v.

(** The literal header whose false branch a step takes. *)
Definition entered (ev : InitEvents) (g : ControlFlowGraph) (st : WitnessStep) : option EnteringHeader :=
  if decide (step_edge st = FalseBranch) then
    stmt ← source_stmt_id g (step_vertex st); entering_headers ev !! stmt
  else None.

(** A path leaves no loop that never exits, and one that enters its body on first arrival only after
    it came back to the header over a back edge. *)
Fixpoint respects_headers (r : DefiniteInitResult) (previous : option WitnessStep) (ss : list WitnessStep)
    : Prop :=
  match ss with
  | [] => True
  | st :: ss =>
      match entered (events r) (cfg r) st with
      | None => True
      | Some NeverExits => False
      | Some EntersOnFirstArrival =>
          exists p, previous = Some p /\ is_back_edge r (step_vertex p) (step_vertex st) = true
      end /\ respects_headers r (Some st) ss
  end.

Inductive chain (parent : gmap Pair (Pair * CfgEdgeType)) (origin : Pair) : Pair -> list WitnessStep -> Prop :=
| chain_nil : chain parent origin origin []
| chain_cons p q k ss : parent !! p = Some (q, k) -> chain parent origin q ss ->
    chain parent origin p (MkStep p.1 k :: ss).

Lemma chain_insert parent origin p q k x ss :
  parent !! x = None -> chain parent origin p ss -> chain (<[x := (q, k)]> parent) origin p ss.
Proof.
  intros Hx. induction 1 as [|p q' k' ss Hp _ IH]; [constructor|].
  apply (chain_cons _ _ p q' k'); [|done]. rewrite lookup_insert_ne; [done|]. intros ->. congruence.
Qed.

(** Following the parents ends at the origin. *)
Lemma steps_to_chain parent origin p ss fuel :
  parent !! origin = None -> chain parent origin p ss -> (length ss < fuel)%nat ->
  steps_to fuel parent p origin = Some ss.
Proof.
  intros Ho Hc. revert fuel. induction Hc as [|p q k ss Hp _ IH]; intros [|fuel] Hf; simpl in *; try lia.
  - by rewrite decide_True.
  - rewrite decide_False by (intros ->; congruence). rewrite Hp. simpl. rewrite IH by lia. done.
Qed.

Section search.
Context `{EdgeOrderLaw}.
Context (r : DefiniteInitResult) (bit : nat) (start : NodeIndex) (origin : Pair).

(** The links of the search. *)
Definition linked (q : Pair) (k : CfgEdgeType) (p : Pair) : Prop :=
  (p.1, k) ∈ incoming_edges (cfg r) q.1 /\ next_pair r bit q p.1 k = Some p.

Lemma next_pair_from q from k p : next_pair r bit q from k = Some p -> p.1 = from.
Proof.
  destruct q as [v b]. unfold next_pair. repeat case_match; intros; by simplify_eq.
Qed.

Record Searching (s : Search) : Prop := {
  se_origin : origin ∈ visited s;
  se_root : parent s !! origin = None;
  se_links : forall p q k, parent s !! p = Some (q, k) -> p ∈ visited s /\ linked q k p;
  se_chains : forall p, p ∈ visited s ->
    exists ss, chain (parent s) origin p ss /\ (length ss <= size (parent s))%nat;
}.

Lemma searching_insert s q' cur edge p :
  Searching s -> p ∉ visited s -> cur ∈ visited s -> linked cur edge p ->
  Searching (MkSearch q' ({[p]} ∪ visited s) (<[p := (cur, edge)]> (parent s))).
Proof.
  intros [Ho Hr Hl Hc] Hp Hcur Hlink.
  assert (parent s !! p = None) as Hnone.
  { apply eq_None_not_Some. intros [[q k] Hq]. by apply Hp, (Hl p q k). }
  assert (origin <> p) as Hop by (intros <-; by apply Hp).
  split; simpl.
  - set_solver.
  - by rewrite lookup_insert_ne.
  - intros x q k. destruct (decide (x = p)) as [->|Hne].
    + rewrite lookup_insert_eq. intros [= <- <-]. split; [set_solver|done].
    + rewrite lookup_insert_ne by done. intros Hx. destruct (Hl x q k Hx). split; [set_solver|done].
  - intros x. rewrite map_size_insert_None by done. intros [->%elem_of_singleton|Hx]%elem_of_union.
    + destruct (Hc cur Hcur) as (ss & Hch & Hlen). exists (MkStep p.1 edge :: ss). split; [|simpl; lia].
      apply (chain_cons _ _ p cur); [apply lookup_insert_eq|by apply chain_insert].
    + destruct (Hc x Hx) as (ss & Hch & Hlen). exists ss. split; [by apply chain_insert|lia].
Qed.

(** One vertex: either the start is found, or every pair its edges lead to is visited, the new ones
    waiting. *)
Lemma search_edges_spec cur edges s :
  Searching s -> cur ∈ visited s -> (start, false) ∉ visited s ->
  (forall from k, (from, k) ∈ edges -> (from, k) ∈ incoming_edges (cfg r) cur.1) ->
  match search_edges r bit start cur edges s with
  | inl s' => Searching s' /\ (start, false) ∈ visited s'
  | inr s' => Searching s' /\ (start, false) ∉ visited s' /\
      exists more, queue s' = queue s ++ more /\ NoDup more /\ visited s' = list_to_set more ∪ visited s /\
        (forall p, p ∈ more -> p ∉ visited s /\ exists k, linked cur k p) /\
        (forall from k p, (from, k) ∈ edges -> next_pair r bit cur from k = Some p -> p ∈ visited s')
  end.
Proof.
  revert s. induction edges as [|[from k] edges IH]; intros s Hs Hcur Hstart Hin; simpl.
  { split; [done|]. split; [done|]. exists []. rewrite app_nil_r.
    split_and!; [done|constructor|set_solver|set_solver|]. intros ? ? ? Hn. by apply elem_of_nil in Hn. }
  assert (forall f k, (f, k) ∈ edges -> (f, k) ∈ incoming_edges (cfg r) cur.1) as Hin'.
  { intros f k' Hf. apply Hin. by apply list_elem_of_further. }
  assert (forall s', search_edges r bit start cur edges s = inr s' ->
    (forall p, next_pair r bit cur from k = Some p -> p ∈ visited s) ->
    Searching s' /\ (start, false) ∉ visited s' /\
      exists more, queue s' = queue s ++ more /\ NoDup more /\ visited s' = list_to_set more ∪ visited s /\
        (forall p, p ∈ more -> p ∉ visited s /\ exists k, linked cur k p) /\
        (forall f k' p, (f, k') ∈ (from, k) :: edges -> next_pair r bit cur f k' = Some p -> p ∈ visited s'))
    as Hskip.
  { intros s' E Hp. specialize (IH s Hs Hcur Hstart Hin'). rewrite E in IH.
    destruct IH as (H1 & H2 & more & Hq & Hnd & Hv & Hm & Hall).
    split_and!; [done..|]. exists more. split_and!; [done..|].
    intros f k' p [[= -> ->]|Hf]%elem_of_cons Hn; [|by apply (Hall f k')].
    rewrite Hv. apply elem_of_union_r. by apply Hp. }
  destruct (next_pair r bit cur from k) as [p|] eqn:En.
  - destruct (decide (p ∈ visited s)) as [Hp|Hp].
    + pose proof (IH s Hs Hcur Hstart Hin') as IH'.
      destruct (search_edges r bit start cur edges s) as [s'|s'] eqn:E; [done|].
      apply Hskip; [done|]. by intros x [= <-].
    + assert (linked cur k p) as Hlink.
      { pose proof (next_pair_from _ _ _ _ En) as Hf. split; [|by rewrite Hf].
        rewrite Hf. apply Hin, list_elem_of_here. }
      pose proof (searching_insert s (queue s ++ [p]) cur k p Hs Hp Hcur Hlink) as Hs'.
      destruct (decide (p = (start, false))) as [->|Hne].
      * split; [by apply (searching_insert s (queue s) cur k)|]. simpl. set_solver.
      * specialize (IH _ Hs'). simpl in IH. specialize (IH ltac:(set_solver) ltac:(set_solver) Hin').
        destruct (search_edges r bit start cur edges _) as [s'|s']; [done|].
        destruct IH as (H1 & H2 & more & Hq & Hnd & Hv & Hm & Hall).
        split_and!; [done..|]. exists (p :: more). split_and!.
        -- by rewrite Hq, <- app_assoc.
        -- apply NoDup_cons. split; [|done]. intros Hpm. destruct (Hm p Hpm) as [Hn _]. set_solver.
        -- rewrite Hv. simpl. set_solver.
        -- intros x [->|Hx]%elem_of_cons; [split; [done|by exists k]|].
           destruct (Hm x Hx) as [Hn ?]. split; [set_solver|done].
        -- intros f k' x [[= -> ->]|Hf]%elem_of_cons Hx; [|by apply (Hall f k')].
           assert (x = p) as -> by congruence. rewrite Hv. set_solver.
  - pose proof (IH s Hs Hcur Hstart Hin') as IH'.
    destruct (search_edges r bit start cur edges s) as [s'|s'] eqn:E; [done|].
    by apply Hskip.
Qed.

(** The pairs of a graph: at most two for each vertex. *)
Definition graph_pairs : gset Pair :=
  let vs := seq 0 (length (g_nodes (cfg r))) in
  list_to_set (((fun v => (v, true)) <$> vs) ++ ((fun v => (v, false)) <$> vs)).

Lemma elem_of_graph_pairs p : p ∈ graph_pairs <-> (p.1 < length (g_nodes (cfg r)))%nat.
Proof.
  unfold graph_pairs. rewrite elem_of_list_to_set, elem_of_app, !list_elem_of_fmap.
  setoid_rewrite elem_of_seq. split.
  - intros [(v & -> & Hv)|(v & -> & Hv)]; simpl; lia.
  - intros Hp. destruct p as [v []]; simpl in Hp; [left|right]; exists v; split; done || lia.
Qed.

Lemma size_list_to_set_le (l : list Pair) : (size (list_to_set l : gset Pair) <= length l)%nat.
Proof.
  induction l as [|p l IH]; [by apply Nat.eq_le_incl, size_empty_iff|]. simpl.
  rewrite size_union_alt, size_singleton.
  pose proof (subseteq_size (list_to_set l ∖ {[p]} : gset Pair) (list_to_set l) ltac:(set_solver)). lia.
Qed.

Lemma size_graph_pairs : (size graph_pairs <= 2 * length (g_nodes (cfg r)))%nat.
Proof.
  unfold graph_pairs. etransitivity; [apply size_list_to_set_le|].
  rewrite length_app, !length_fmap, length_seq. lia.
Qed.

(** What the end of the search knows: the chain from the start, or a set of pairs closed under the
    edges it follows, without the start. *)
Definition search_result (o : option (list WitnessStep)) : Prop :=
  match o with
  | Some ss => exists s, Searching s /\ chain (parent s) origin (start, false) ss
  | None => exists V : gset Pair, origin ∈ V /\ (start, false) ∉ V /\
      forall q from k p, q ∈ V -> (from, k) ∈ incoming_edges (cfg r) q.1 ->
        next_pair r bit q from k = Some p -> p ∈ V
  end.

Lemma search_loop_spec fuel s :
  well_formed (cfg r) -> Searching s -> (start, false) ∉ visited s -> visited s ⊆ graph_pairs ->
  NoDup (queue s) -> (forall p, p ∈ queue s -> p ∈ visited s) ->
  (forall q from k p, q ∈ visited s -> q ∉ queue s -> (from, k) ∈ incoming_edges (cfg r) q.1 ->
     next_pair r bit q from k = Some p -> p ∈ visited s) ->
  (2 * length (g_nodes (cfg r)) - size (visited s) + length (queue s) < fuel)%nat ->
  exists o, search_loop fuel r bit start origin s = Some o /\ search_result o.
Proof.
  intros [Hwf _]. revert s. induction fuel as [|fuel IH]; intros s Hs Hstart Hg Hnd Hq Hcl Hf; [lia|].
  cbn [search_loop]. destruct (queue s) as [|cur rest] eqn:Eq.
  { exists None. split; [done|]. exists (visited s). split_and!; [apply Hs|done|].
    intros q from k p Hqv Hin Hn. apply (Hcl q from k); [done|set_solver|done..]. }
  apply NoDup_cons in Hnd as [Hcur Hnd].
  assert (cur ∈ visited s) as Hcv by (apply Hq, list_elem_of_here).
  assert (Searching (MkSearch rest (visited s) (parent s))) as Hs0 by (by destruct Hs; split).
  pose proof (search_edges_spec cur (incoming_edges (cfg r) cur.1) _ Hs0 Hcv Hstart ltac:(done)) as He.
  destruct (search_edges r bit start cur (incoming_edges (cfg r) cur.1) _) as [s'|s'].
  - destruct He as [Hs' Hfound]. destruct (se_chains _ Hs' _ Hfound) as (ss & Hch & Hlen).
    exists (Some ss). split; [|by exists s'].
    rewrite (steps_to_chain _ _ _ ss); [done|apply Hs'|done|lia].
  - destruct He as (Hs' & Hst' & more & Eq' & Hndm & Hv & Hm & Hall). simpl in Eq', Hv, Hm.
    assert (size (visited s') = (length more + size (visited s))%nat) as Hsize.
    { rewrite Hv, size_union by (intros p Hp%elem_of_list_to_set; by apply Hm).
      by rewrite size_list_to_set. }
    assert (visited s' ⊆ graph_pairs) as Hg'.
    { rewrite Hv. apply union_least; [|done]. intros p Hp%elem_of_list_to_set.
      destruct (Hm p Hp) as [_ (k & Hin%elem_of_incoming & _)]. apply elem_of_graph_pairs.
      rewrite Forall_forall in Hwf. apply Hwf in Hin. simpl in Hin. lia. }
    pose proof (subseteq_size _ _ Hg') as Hle. pose proof size_graph_pairs.
    apply IH; [done..| | | |].
    + rewrite Eq'. apply NoDup_app. split_and!; [done| |done]. intros p Hp Hpm.
      apply (Hm p Hpm). apply Hq. by apply list_elem_of_further.
    + intros p. rewrite Eq', Hv. intros [Hp|Hp]%elem_of_app.
      * apply elem_of_union_r, Hq. by apply list_elem_of_further.
      * apply elem_of_union_l. by apply elem_of_list_to_set.
    + intros q from k p. rewrite Eq'. intros Hqv Hqn Hin Hn.
      apply not_elem_of_app in Hqn as [Hqr Hqm].
      destruct (decide (q = cur)) as [->|Hne]; [by apply (Hall from k)|].
      rewrite Hv in Hqv |- *. apply elem_of_union in Hqv as [Hqv%elem_of_list_to_set|Hqv]; [done|].
      apply elem_of_union_r. apply (Hcl q from k); [done| |done..]. set_solver.
    + rewrite Eq', length_app, Hsize. simpl in Hf. lia.
Qed.
End search.

(** ** The paths the search finds *)

Section paths.
Context `{EdgeOrderLaw, DfsPostOrder}.
Context (ev : InitEvents) (g : ControlFlowGraph) (start : NodeIndex).
Hypothesis Hwf : well_formed g.
Hypothesis Hstart : g_start g = Some start.
Hypothesis Hentry : forall e, e ∈ g_edges g -> e_target e <> start.
Hypothesis Hdfs : dfs_law (g_edges g) start.
Context (max_iterations : nat) (r : DefiniteInitResult) (bit : nat).
Hypothesis Hr : analyze_definite_init g ev max_iterations = Some (Some r).

Lemma cfg_of_result : cfg r = g /\ events r = ev.
Proof. pose proof (analysis_result ev g max_iterations r Hr). tauto. Qed.

(** The state behind a vertex lacks the bit exactly when some path sets it neither before nor in the
    vertex. *)
Lemma out_lacks u :
  (u < length (g_nodes g))%nat ->
  match block_out (inner r) !! u with Some state => lacks state bit | None => false end = true <->
  bit ∉ vertex_bits ev g u /\ exists S, carries ev g u S /\ bit ∉ S.
Proof.
  intros Hu. destruct (result_describes ev g start Hwf Hstart Hentry Hdfs _ _ Hr u Hu)
    as (st & _ & Hd & ->).
  unfold lacks. rewrite bool_decide_eq_true. destruct st as [|T]; simpl in *.
  - split; [done|]. intros (_ & S & HS & _). by apply Hd in HS.
  - split.
    + intros [= Hb%bool_decide_eq_false]. apply not_elem_of_union in Hb as [Hb Hv].
      split; [done|]. by apply Hd.
    + intros (Hv & S & HS & Hb). f_equal. apply bool_decide_eq_false, not_elem_of_union.
      split; [|done]. intros HT. by apply Hb, (proj1 (proj2 Hd) S HS).
Qed.

Lemma linked_edge q k p :
  linked r bit q k p -> MkEdge p.1 q.1 k ∈ g_edges g /\ is_executable k = true /\
    bit ∉ vertex_bits ev g p.1 /\
    (q.2 = true -> is_back_edge r p.1 q.1 = true) /\
    match entered ev g (MkStep p.1 k) with
    | Some NeverExits => False
    | Some EntersOnFirstArrival => p.2 = true
    | None => True
    end.
Proof.
  destruct cfg_of_result as [Ecfg Eev]. unfold linked. rewrite Ecfg. intros [Hin%elem_of_incoming Hn].
  split; [done|]. destruct q as [v b]. unfold next_pair in Hn.
  destruct (negb (is_executable k) || b && negb (is_back_edge r p.1 v)) eqn:E1; [done|].
  apply orb_false_iff in E1 as [Hk Hb]. apply negb_false_iff in Hk.
  destruct (negb _) eqn:E2 in Hn; [done|]. apply negb_false_iff in E2.
  assert (p.1 < length (g_nodes g))%nat as Hp.
  { destruct Hwf as [Hes _]. rewrite Forall_forall in Hes. by apply Hes in Hin as [? _]. }
  apply out_lacks in E2 as [Hbit _]; [|done]. split_and!; [done..| |].
  - intros [= ->]. simpl in Hb. by apply negb_false_iff in Hb.
  - unfold entered. simpl. rewrite Ecfg, Eev in Hn. destruct (decide (k = FalseBranch)); [|done].
    destruct (stmt ← source_stmt_id g p.1; entering_headers ev !! stmt) as [[]|]; try done.
    by injection Hn as <-.
Qed.

(** A chain is a path; where its first pair may only be entered over a back edge, its last step
    before has to be one. *)
Lemma chain_path (s : Search) origin p ss :
  Searching r bit origin s -> chain (parent s) origin p ss ->
  leads ev g bit p.1 ss origin.1 /\
  forall previous, (p.2 = true -> exists st, previous = Some st /\ is_back_edge r (step_vertex st) p.1 = true) ->
    respects_headers r previous ss.
Proof.
  destruct cfg_of_result as [Ecfg Eev].
  intros Hs. induction 1 as [|p q k ss Hp _ [IH1 IH2]]; [split; [constructor|done]|].
  apply (se_links _ _ _ _ Hs) in Hp as [_ Hl].
  apply linked_edge in Hl as (Hin & Hk & Hbit & Hback & Hent). split.
  - by apply leads_cons with q.1.
  - intros previous Hprev. simpl. rewrite Ecfg, Eev. split.
    + destruct (entered ev g (MkStep p.1 k)) as [[]|]; [done| |done]. by apply Hprev.
    + apply IH2. intros Hq. exists (MkStep p.1 k). split; [done|]. by apply Hback.
Qed.

(** Without literal headers a closed set of pairs holds every vertex of a path without the bit. *)
Lemma closed_set_path (V : gset Pair) v S :
  entering_headers ev = ∅ ->
  (forall q from k p, q ∈ V -> (from, k) ∈ incoming_edges (cfg r) q.1 ->
     next_pair r bit q from k = Some p -> p ∈ V) ->
  carries ev g v S -> bit ∉ S -> (v, false) ∈ V -> (start, false) ∈ V.
Proof.
  destruct cfg_of_result as [Ecfg Eev]. rewrite Ecfg. intros Hnone Hcl.
  induction 1 as [v Hv|u v k S HS IH Hin Hk]; intros Hb HV; [by simplify_eq|].
  apply not_elem_of_union in Hb as [Hb Hu]. apply IH; [done|].
  apply (Hcl (v, false) u k); [done|by apply elem_of_incoming|]. unfold next_pair. rewrite Hk. simpl.
  assert (u < length (g_nodes g))%nat as Hlt.
  { destruct Hwf as [Hes _]. rewrite Forall_forall in Hes. by apply Hes in Hin as [? _]. }
  rewrite (proj2 (out_lacks u Hlt)) by (split; [done|by exists S]). simpl. rewrite Ecfg, Eev, Hnone.
  destruct (decide (k = FalseBranch)); [|done]. by destruct (source_stmt_id g u).
Qed.

(** C13. A witness is a real execution: the search always ends, and the steps it returns lead over
    executable edges from the start to the vertex of the point without a vertex that sets the bit,
    leave no loop that never exits, and leave a loop that enters its body on first arrival only
    after coming back over a back edge. Where no header is literal it finds such a path whenever
    some execution arrives at the vertex without the bit. *)
Theorem witness_finds_path point target :
  vertex_of r point = Some target ->
  exists o, witness r point bit = Some o /\
    match o with
    | Some steps => leads ev g bit start steps target /\ respects_headers r None steps
    | None => entering_headers ev = ∅ -> forall S, carries ev g target S -> bit ∈ S
    end.
Proof.
  destruct cfg_of_result as [Ecfg Eev]. intros Hv. unfold witness. rewrite Hv, Ecfg, Hstart.
  destruct (decide (target = start)) as [->|Hne].
  { exists (Some []). split; [done|]. split; [constructor|done]. }
  destruct (search_loop_spec r bit start (target, false) (S (S (2 * length (g_nodes g))))
    (MkSearch [(target, false)] {[(target, false)]} ∅)) as (o & E & Ho); simpl.
  - by rewrite Ecfg.
  - split; simpl; [set_solver|done|done|]. intros p ->%elem_of_singleton. exists []. split; [constructor|].
    simpl. lia.
  - set_solver.
  - intros p ->%elem_of_singleton. apply elem_of_graph_pairs. rewrite Ecfg. simpl.
    pose proof (result_points ev g start Hwf Hstart Hentry Hdfs _ _ Hr) as (entry & _ & _ & Hpv).
    unfold vertex_of in Hv. rewrite Hpv in Hv. apply record_all_in in Hv.
    apply list_elem_of_fmap in Hv as ([q [v B]] & [= -> ->] & Hm).
    by apply (marks_vertex ev g) in Hm.
  - apply NoDup_singleton.
  - set_solver.
  - set_solver.
  - rewrite Ecfg. lia.
  - exists o. split; [exact E|]. destruct o as [ss|].
    + destruct Ho as (s & Hs & Hch). destruct (chain_path s _ _ _ Hs Hch) as [Hl Hh].
      split; [exact Hl|]. by apply Hh.
    + destruct Ho as (V & Ho & Hn & Hcl). intros Hnone S HS. apply dec_stable. intros Hb.
      by apply Hn, (closed_set_path V target S).
Qed.
End paths.

(** ** A path through the loop *)

Module LoopWitness.
#[local] Existing Instances Ran.order Ran.order_law Ran.dfs.

(** Before the body of the loop the name is missing: the path from the start over the header. *)
Lemma loop_witness :
  match analyze_definite_init small_loop Loop.loop_events DEFAULT_MAX_ITERATIONS with
  | Some (Some r) =>
      witness r (Stmt 1) 0 = Some (Some [MkStep 1 Unconditional; MkStep 2 TrueBranch]) /\
      back_edges_initialize r 2 0 = true
  | _ => False
  end.
Proof. vm_compute. split; reflexivity. Qed.

Lemma witness_finds_path_witness :
  match analyze_definite_init small_loop Loop.loop_events 100 with
  | Some (Some r) => exists o, witness r (Stmt 1) 0 = Some o /\
      match o with
      | Some steps => leads Loop.loop_events small_loop 0 1 steps 3 /\ respects_headers r None steps
      | None => entering_headers Loop.loop_events = ∅ ->
          forall S, carries Loop.loop_events small_loop 3 S -> 0 ∈ S
      end
  | _ => False
  end.
Proof.
  destruct (analyze_definite_init small_loop Loop.loop_events 100) as [[r|]|] eqn:E;
    [|vm_compute in E; discriminate..].
  assert (vertex_of r (Stmt 1) = Some 3) as Hv by (vm_compute in E; injection E as <-; reflexivity).
  exact (witness_finds_path Loop.loop_events small_loop 1 Ran.small_loop_well_formed eq_refl
    Loop.loop_entry Ran.small_loop_forward 100 r 0 E (Stmt 1) 3 Hv).
Defined.
End LoopWitness.
