(* ===== verification/CfgBuilder.v ===== *)
(** CfgBuilder: control-flow graphs from statements (crates/cfg/src/builder.rs).

    The statements of a lowered body sit in an arena and refer to each other by index
    (crates/hir-def/src/hir.rs, [Body::stmt_idx] of body.rs); of a body the builder reads the
    statements and the expressions that recovery made up.  A handler of the builder is a computation
    [M A] over the [CfgBuilder]; [None] is a panic (an index outside the arena or the graph, a
    missing range) or the end of the fuel, which counts nested statements.  Stacks have their top at
    the head.  Labels are compared by their exact spelling, as [Name]'s [==] does. *)
From stdpp Require Import prelude gmap strings.
From S2P Require Import Prelude Cfg.

(** ** Statements *)

Abbreviation Name := string.

Module Hir.

Record IfStmt : Type := MkIf {
  condition : ExprId;
  then_branch : list StmtId;
  elsif_branches : list (ExprId * list StmtId);
  else_branch : option (list StmtId);
}.

(** Without the parsed conditions, which the builder does not read. *)
Record PreprocIfStmt : Type := MkPreprocIf {
  condition_range : LocalRange;
  directive_range : LocalRange;
  full_range : LocalRange;
  pre_then_branch : list StmtId;
  pre_elsif_branches : list (LocalRange * LocalRange * list StmtId);
  pre_else_branch : option (list StmtId);
}.

Inductive HirPreBranchKind : Set := Then | ElsIf (i : nat) | Else.

Record HirPreBranch : Type := MkBranch {
  kind : HirPreBranchKind;
  branch_condition_range : option LocalRange;
  branch_directive_range : option LocalRange;
  branch_stmts : list StmtId;
}.

Definition branches (p : PreprocIfStmt) : list HirPreBranch :=
  [MkBranch Then (Some (condition_range p)) (Some (directive_range p)) (pre_then_branch p)] ++
  imap (fun i '(condition, directive, stmts) =>
    MkBranch (ElsIf i) (Some condition) (Some directive) stmts) (pre_elsif_branches p) ++
  match pre_else_branch p with
  | Some stmts => [MkBranch Else None None stmts]
  | None => []
  end.

Inductive Stmt : Type :=
| Expr (e : ExprId)
| Assign (target value : ExprId)
| VarDecl (bindings : list BindingId)
| If (i : IfStmt)
| PreprocIf (p : PreprocIfStmt)
| While (condition : ExprId) (body : list StmtId)
| For (var : BindingId) (from to : ExprId) (body : list StmtId)
| ForEach (var : BindingId) (collection : ExprId) (body : list StmtId)
| Try (body except : list StmtId)
| Return (value : option ExprId)
| Raise (value : option ExprId)
| Break
| Continue
| Goto (name : Name)
| Label (name : Name)
| Execute (expr : ExprId)
| AddHandler (event handler : ExprId)
| RemoveHandler (event handler : ExprId).

Record Body : Type := MkBody { stmts : list Stmt; recovered : gset ExprId }.

Definition stmt_idx (b : Body) (id : StmtId) : option Stmt := stmts b !! id.

Definition is_recovered (b : Body) (e : ExprId) : bool := bool_decide (e ∈ recovered b).

End Hir.

(** ** The builder *)

Record LoopFrame : Set := MkFrame { f_header : NodeIndex; f_exit : NodeIndex }.

Record CfgBuilder : Type := MkBuilder {
  cfg : ControlFlowGraph;
  current_block : option NodeIndex;
  except_stack : list NodeIndex;
  loop_stack : list LoopFrame;
  label_table : gmap Name NodeIndex;
  pending_gotos : list (NodeIndex * Name);
}.

Definition CfgBuilder_new : CfgBuilder := MkBuilder Graph_new None [] [] ∅ [].

Definition set_cfg (g : ControlFlowGraph) (b : CfgBuilder) : CfgBuilder :=
  MkBuilder g (current_block b) (except_stack b) (loop_stack b) (label_table b) (pending_gotos b).
Definition set_current (c : option NodeIndex) (b : CfgBuilder) : CfgBuilder :=
  MkBuilder (cfg b) c (except_stack b) (loop_stack b) (label_table b) (pending_gotos b).
Definition set_except (s : list NodeIndex) (b : CfgBuilder) : CfgBuilder :=
  MkBuilder (cfg b) (current_block b) s (loop_stack b) (label_table b) (pending_gotos b).
Definition set_loops (s : list LoopFrame) (b : CfgBuilder) : CfgBuilder :=
  MkBuilder (cfg b) (current_block b) (except_stack b) s (label_table b) (pending_gotos b).
Definition set_labels (t : gmap Name NodeIndex) (b : CfgBuilder) : CfgBuilder :=
  MkBuilder (cfg b) (current_block b) (except_stack b) (loop_stack b) t (pending_gotos b).
Definition set_pending (p : list (NodeIndex * Name)) (b : CfgBuilder) : CfgBuilder :=
  MkBuilder (cfg b) (current_block b) (except_stack b) (loop_stack b) (label_table b) p.

Definition M (A : Type) : Type := CfgBuilder -> option (A * CfgBuilder).

#[export] Instance M_ret : MRet M := fun A x b => Some (x, b).
#[export] Instance M_bind : MBind M := fun A B f m b =>
  match m b with Some (x, b) => f x b | None => None end.

Definition gets {A} (f : CfgBuilder -> A) : M A := fun b => Some (f b, b).
Definition modify (f : CfgBuilder -> CfgBuilder) : M unit := fun b => Some (tt, f b).
Definition or_panic {A} (x : option A) : M A := fun b => match x with Some x => Some (x, b) | None => None end.

(** Vertices and edges of the builder's graph. *)
Definition vertex_new (v : CfgVertex) : M NodeIndex := fun b =>
  let '(i, g) := add_vertex v (cfg b) in Some (i, set_cfg g b).
Definition vertex_with_origin (v : CfgVertex) (stmt : StmtId) : M NodeIndex := fun b =>
  let '(i, g) := add_vertex_with_origin v stmt (cfg b) in Some (i, set_cfg g b).
Definition edge (source target : NodeIndex) (k : CfgEdgeType) : M unit := fun b =>
  match add_edge source target k (cfg b) with Some g => Some (tt, set_cfg g b) | None => None end.

Section builder.
Context `{EdgeOrder}.

Definition new_block : M NodeIndex := vertex_new (BasicBlock []).

Definition add_statement (stmt : StmtId) (v : CfgVertex) : CfgVertex :=
  match v with BasicBlock ss => BasicBlock (ss ++ [stmt]) | v => v end.

Definition add_to_current_block_hir (stmt_id : StmtId) : M unit :=
  modify (fun b =>
    match current_block b with
    | Some i => set_cfg (alter_vertex (add_statement stmt_id) i (cfg b)) b
    | None => b
    end).

(** [if let Some(block) = self.current_block { .. }]. *)
Definition on_current (f : NodeIndex -> M unit) : M unit :=
  current ← gets current_block;
  match current with Some i => f i | None => mret tt end.

Definition seal_jump : M unit :=
  dead_block ← new_block;
  on_current (fun i => edge i dead_block Unexecutable);;
  modify (set_current (Some dead_block)).

Definition is_block_reachable (g : ControlFlowGraph) (block : NodeIndex) : bool :=
  negb (bool_decide (incoming_edges g block = [])) || bool_decide (g_start g = Some block).

Definition block_has_live_incoming (g : ControlFlowGraph) (block : NodeIndex) : bool :=
  if bool_decide (g_start g = Some block) then true
  else existsb (fun e => is_executable e.2) (incoming_edges g block).

Definition link_to (from to : NodeIndex) : M unit :=
  live ← gets (fun b => block_has_live_incoming (cfg b) from);
  edge from to (if (live : bool) then Unconditional else Unexecutable).

Definition walk_return_statement_hir (stmt_id : StmtId) : M unit :=
  add_to_current_block_hir stmt_id;;
  on_current (fun i =>
    exit ← gets (fun b => g_exit (cfg b));
    edge i exit Unconditional;;
    seal_jump).

Definition walk_raise_statement_hir (stmt_id : StmtId) : M unit :=
  add_to_current_block_hir stmt_id;;
  on_current (fun i =>
    target ← gets (fun b => match except_stack b with t :: _ => t | [] => g_exit (cfg b) end);
    edge i target Exception;;
    seal_jump).

(** [Break] and [Continue]: the edge to one end of the innermost loop, when there is one. *)
Definition walk_loop_jump (target : LoopFrame -> NodeIndex) (stmt_id : StmtId) : M unit :=
  add_to_current_block_hir stmt_id;;
  on_current (fun i =>
    frames ← gets loop_stack;
    match frames with frame :: _ => edge i (target frame) Unconditional | [] => mret tt end);;
  seal_jump.

Definition walk_break_statement_hir : StmtId -> M unit := walk_loop_jump f_exit.
Definition walk_continue_statement_hir : StmtId -> M unit := walk_loop_jump f_header.

Definition walk_goto_statement_hir (stmt_id : StmtId) (name : Name) : M unit :=
  add_to_current_block_hir stmt_id;;
  on_current (fun i =>
    target ← gets (fun b => label_table b !! name);
    match target with
    | Some t => edge i t Unconditional
    | None => modify (fun b => set_pending (pending_gotos b ++ [(i, name)]) b)
    end);;
  seal_jump.

(** [for (source, _) in matched]. *)
Fixpoint link_matched (matched : list (NodeIndex * Name)) (label_block : NodeIndex) : M unit :=
  match matched with
  | [] => mret tt
  | (source, _) :: matched => edge source label_block Unconditional;; link_matched matched label_block
  end.

Definition walk_label_statement_hir (stmt_id : StmtId) (name : Name) : M unit :=
  label_block ← new_block;
  on_current (fun i => edge i label_block Unconditional);;
  pending ← gets pending_gotos;
  link_matched (filter (fun p => p.2 = name) pending) label_block;;
  modify (fun b => set_pending (filter (fun p => p.2 <> name) pending) b);;
  modify (fun b => set_labels (<[name := label_block]> (label_table b)) b);;
  modify (set_current (Some label_block));;
  add_to_current_block_hir stmt_id;;
  after_label ← new_block;
  edge label_block after_label Unconditional;;
  modify (set_current (Some after_label)).

Section walk.
Context (walk : StmtId -> M unit).

Fixpoint walk_all (stmts : list StmtId) : M unit :=
  match stmts with
  | [] => mret tt
  | s :: stmts => walk s;; walk_all stmts
  end.

(** A branch in a block of its own that an edge enters; its end is linked to the merge. *)
Definition walk_branch (from : NodeIndex) (k : CfgEdgeType) (merge_block : NodeIndex)
    (stmts : list StmtId) : M unit :=
  block ← new_block;
  edge from block k;;
  modify (set_current (Some block));;
  walk_all stmts;;
  on_current (fun exit => link_to exit merge_block).

(** The [elsif] branches; the result is the last condition. *)
Fixpoint walk_elsifs (stmt_id : StmtId) (merge_block : NodeIndex)
    (branches : list (ExprId * list StmtId)) (current_cond : NodeIndex) : M NodeIndex :=
  match branches with
  | [] => mret current_cond
  | (condition, stmts) :: branches =>
      elsif_cond ← vertex_with_origin (Conditional condition) stmt_id;
      edge current_cond elsif_cond FalseBranch;;
      walk_branch elsif_cond TrueBranch merge_block stmts;;
      walk_elsifs stmt_id merge_block branches elsif_cond
  end.

Definition walk_if_statement_hir (stmt_id : StmtId) (i : Hir.IfStmt) : M unit :=
  cond_vertex ← vertex_with_origin (Conditional (Hir.condition i)) stmt_id;
  on_current (fun current => edge current cond_vertex Unconditional);;
  merge_block ← new_block;
  walk_branch cond_vertex TrueBranch merge_block (Hir.then_branch i);;
  current_cond ← walk_elsifs stmt_id merge_block (Hir.elsif_branches i) cond_vertex;
  match Hir.else_branch i with
  | Some stmts => walk_branch current_cond FalseBranch merge_block stmts
  | None => edge current_cond merge_block FalseBranch
  end;;
  modify (set_current (Some merge_block)).

(** [for branch in preproc_if.branches()]; the result is the last condition and whether an
    [#Else] was seen. *)
Fixpoint walk_pre_branches (cond_vertex merge_block : NodeIndex) (bs : list Hir.HirPreBranch)
    (current_cond : NodeIndex) (saw_else : bool) : M (NodeIndex * bool) :=
  match bs with
  | [] => mret (current_cond, saw_else)
  | branch :: bs =>
      match Hir.kind branch with
      | Hir.Then =>
          walk_branch cond_vertex TrueBranch merge_block (Hir.branch_stmts branch);;
          walk_pre_branches cond_vertex merge_block bs current_cond saw_else
      | Hir.ElsIf _ =>
          condition ← or_panic (Hir.branch_condition_range branch);
          directive ← or_panic (Hir.branch_directive_range branch);
          elsif_cond ← vertex_new (PreprocCondition condition (Some directive) None);
          edge current_cond elsif_cond FalseBranch;;
          walk_branch elsif_cond TrueBranch merge_block (Hir.branch_stmts branch);;
          walk_pre_branches cond_vertex merge_block bs elsif_cond saw_else
      | Hir.Else =>
          walk_branch current_cond FalseBranch merge_block (Hir.branch_stmts branch);;
          walk_pre_branches cond_vertex merge_block bs current_cond true
      end
  end.

Definition walk_preproc_if_statement_hir (p : Hir.PreprocIfStmt) : M unit :=
  cond_vertex ← vertex_new (PreprocCondition (Hir.condition_range p) (Some (Hir.directive_range p))
                              (Some (Hir.full_range p)));
  on_current (fun current => edge current cond_vertex Unconditional);;
  merge_block ← new_block;
  '(current_cond, saw_else) ← walk_pre_branches cond_vertex merge_block (Hir.branches p) cond_vertex false;
  (if (saw_else : bool) then mret tt else edge current_cond merge_block FalseBranch);;
  modify (set_current (Some merge_block)).

Definition walk_loop (stmt_id : StmtId) (header : CfgVertex) (loop_body : list StmtId) : M unit :=
  header ← vertex_with_origin header stmt_id;
  on_current (fun current => link_to current header);;
  body_block ← new_block;
  edge header body_block TrueBranch;;
  after_loop ← new_block;
  modify (fun b => set_loops (MkFrame header after_loop :: loop_stack b) b);;
  modify (set_current (Some body_block));;
  walk_all loop_body;;
  modify (fun b => set_loops (tail (loop_stack b)) b);;
  on_current (fun exit =>
    reachable ← gets (fun b => is_block_reachable (cfg b) exit);
    if (reachable : bool) then edge exit header Unconditional else mret tt);;
  edge header after_loop FalseBranch;;
  modify (set_current (Some after_loop)).

(** [if let Some(exit) = exit { self.link_to(exit, to) }]. *)
Definition link_some (exit : option NodeIndex) (to : NodeIndex) : M unit :=
  match exit with Some exit => link_to exit to | None => mret tt end.

Definition walk_try_statement_hir (stmt_id : StmtId) (try_body except : list StmtId) : M unit :=
  try_vertex ← vertex_with_origin TryVertex stmt_id;
  on_current (fun current => edge current try_vertex Unconditional);;
  try_block ← new_block;
  edge try_vertex try_block Unconditional;;
  except_block ← new_block;
  edge try_vertex except_block Exception;;
  modify (fun b => set_except (except_block :: except_stack b) b);;
  modify (set_current (Some try_block));;
  walk_all try_body;;
  try_exit ← gets current_block;
  modify (fun b => set_except (tail (except_stack b)) b);;
  modify (set_current (Some except_block));;
  walk_all except;;
  except_exit ← gets current_block;
  merge_block ← new_block;
  link_some try_exit merge_block;;
  link_some except_exit merge_block;;
  modify (set_current (Some merge_block)).
End walk.

Fixpoint walk_statement_hir (fuel : nat) (body : Hir.Body) (stmt_id : StmtId) : M unit :=
  match fuel with
  | O => fun _ => None
  | S fuel =>
      stmt ← or_panic (Hir.stmt_idx body stmt_id);
      let walk := walk_statement_hir fuel body in
      match stmt with
      | Hir.Expr e =>
          if Hir.is_recovered body e then mret tt else add_to_current_block_hir stmt_id
      | Hir.Return _ => walk_return_statement_hir stmt_id
      | Hir.Raise _ => walk_raise_statement_hir stmt_id
      | Hir.If i => walk_if_statement_hir walk stmt_id i
      | Hir.PreprocIf p => walk_preproc_if_statement_hir walk p
      | Hir.While condition loop_body => walk_loop walk stmt_id (WhileHeader condition) loop_body
      | Hir.For var from to loop_body => walk_loop walk stmt_id (ForHeader var from to) loop_body
      | Hir.ForEach var collection loop_body =>
          walk_loop walk stmt_id (ForEachHeader var collection) loop_body
      | Hir.Try try_body except => walk_try_statement_hir walk stmt_id try_body except
      | Hir.Break => walk_break_statement_hir stmt_id
      | Hir.Continue => walk_continue_statement_hir stmt_id
      | Hir.Goto name => walk_goto_statement_hir stmt_id name
      | Hir.Label name => walk_label_statement_hir stmt_id name
      | Hir.Assign _ _ | Hir.VarDecl _ | Hir.Execute _ | Hir.AddHandler _ _ | Hir.RemoveHandler _ _ =>
          add_to_current_block_hir stmt_id
      end
  end.

(** [matches!(body.stmt(stmt_id), Stmt::Return { .. } | Stmt::Raise { .. })]. *)
Definition is_terminator (s : Hir.Stmt) : bool :=
  match s with Hir.Return _ | Hir.Raise _ => true | _ => false end.

Definition ends_with_terminator (body : Hir.Body) (v : option CfgVertex) : option bool :=
  match v with
  | Some (BasicBlock ss) =>
      match last ss with
      | Some stmt_id => is_terminator <$> Hir.stmt_idx body stmt_id
      | None => Some false
      end
  | _ => Some false
  end.

(** Statements refer to statements allocated before them, so that their number bounds the nesting. *)
Definition build_graph_from_hir (body_stmts : list StmtId) (body : Hir.Body) : option ControlFlowGraph :=
  let build : M unit :=
    start ← new_block;
    modify (fun b => set_cfg (set_start start (cfg b)) b);;
    modify (set_current (Some start));;
    walk_all (walk_statement_hir (S (length (Hir.stmts body))) body) body_stmts;;
    on_current (fun i =>
      exit ← gets (fun b => g_exit (cfg b));
      terminated ← gets (fun b => ends_with_terminator body (vertex (cfg b) i));
      terminated ← or_panic terminated;
      if (terminated : bool) then mret tt else link_to i exit) in
  match build CfgBuilder_new with Some (_, b) => Some (cfg b) | None => None end.
End builder.
