(* ===== verification/CfgBuilderSpec.v ===== *)
(** CfgBuilderSpec: what every handler of the builder keeps, and the shape of what it adds.

    A handler extends the graph: edges stay, a vertex that is neither the current block nor reserved
    for later (the block behind a loop, a merge block, an exception handler) stays as it is.  The
    stacks come back as they were.  The last part proves that a whole body is built without a panic
    into a well-formed graph that places every point of the body once. *)
From stdpp Require Import prelude gmap strings.
From S2P Require Import Prelude Cfg Dataflow DataflowSpec DefiniteInit DefiniteInitSpec CfgBuilder.

#[local] Abbreviation cfg := CfgBuilder.cfg.

Definition node_count (b : CfgBuilder) : nat := length (g_nodes (cfg b)).

(** ** Extensions *)

Definition grows (x y : CfgVertex) : Prop :=
  match x with
  | BasicBlock ss => exists more, y = BasicBlock (ss ++ more)
  | _ => y = x
  end.

Lemma grows_refl x : grows x x.
Proof. destruct x; simpl; try done. exists []. by rewrite app_nil_r. Qed.

Lemma grows_trans x y z : grows x y -> grows y z -> grows x z.
Proof.
  destruct x; simpl; intros Hxy; try (by subst y).
  destruct Hxy as [m1 ->]. intros [m2 ->]. exists (m1 ++ m2). by rewrite app_assoc.
Qed.

(** The graph [g] extends the one of [b], where besides the current block only the vertices in [R]
    may grow. *)
Record ext (R : gset NodeIndex) (b : CfgBuilder) (g : ControlFlowGraph) : Prop := {
  ext_edges : forall e, e ∈ g_edges (cfg b) -> e ∈ g_edges g;
  ext_start : g_start g = g_start (cfg b);
  ext_exit : g_exit g = g_exit (cfg b);
  ext_grows : forall v x, vertex (cfg b) v = Some x -> exists y, vertex g v = Some y /\ grows x y;
  ext_closed : forall v x, vertex (cfg b) v = Some x -> current_block b <> Some v -> v ∉ R ->
    vertex g v = Some x;
}.

Record step (R : gset NodeIndex) (b b' : CfgBuilder) : Prop := {
  step_ext : ext R b (cfg b');
  step_current : forall c, current_block b' = Some c ->
    current_block b = Some c \/ c ∈ R \/ (node_count b <= c)%nat;
}.

Lemma vertex_lt b v x : vertex (cfg b) v = Some x -> (v < node_count b)%nat.
Proof. apply lookup_lt_Some. Qed.

Lemma ext_refl R b : ext R b (cfg b).
Proof. split; try done. intros v x Hv. exists x. split; [done|apply grows_refl]. Qed.

Lemma step_refl R b : step R b b.
Proof. split; [apply ext_refl|tauto]. Qed.

Lemma ext_count R b g : ext R b g -> (node_count b <= length (g_nodes g))%nat.
Proof.
  intros He. destruct (decide (node_count b = 0)%nat) as [->|Hn]; [lia|].
  destruct (lookup_lt_is_Some_2 (g_nodes (cfg b)) (node_count b - 1)) as [x Hx]; [unfold node_count in *; lia|].
  destruct (ext_grows _ _ _ He _ _ Hx) as (y & Hy & _). apply lookup_lt_Some in Hy. lia.
Qed.

(** Composition: what may grow behind the second step either may grow in the first, is its current
    block, or is new. *)
Lemma ext_trans R R' b b' g :
  step R b b' -> ext R' b' g ->
  (forall v, (v < node_count b)%nat -> v ∈ R' -> v ∈ R \/ current_block b = Some v) ->
  ext R b g.
Proof.
  intros [[He1 Hs1 Hx1 Hg1 Hc1] Hcur] [He2 Hs2 Hx2 Hg2 Hc2] HR. split.
  - intros e He. by apply He2, He1.
  - by rewrite Hs2.
  - by rewrite Hx2.
  - intros v x Hv. destruct (Hg1 v x Hv) as (y & Hy & Hxy). destruct (Hg2 v y Hy) as (z & Hz & Hyz).
    exists z. split; [done|by apply grows_trans with y].
  - intros v x Hv Hne HvR. pose proof (vertex_lt _ _ _ Hv) as Hlt. apply Hc2.
    + by apply Hc1.
    + intros Hc. destruct (Hcur v Hc) as [?|[?|?]]; [done..|lia].
    + intros Hin. by destruct (HR v Hlt Hin).
Qed.

Lemma step_trans R R' b b' b'' :
  step R b b' -> step R' b' b'' ->
  (forall v, (v < node_count b)%nat -> v ∈ R' -> v ∈ R \/ current_block b = Some v) ->
  step R b b''.
Proof.
  intros H1 H2 HR. split; [by apply (ext_trans R R' b b'), HR; [|apply H2]|].
  intros c Hc. destruct (step_current _ _ _ H2 c Hc) as [Hc'|[Hc'|Hc']].
  - by apply H1.
  - destruct (decide (c < node_count b)%nat) as [Hlt|]; [|right; right; lia].
    destruct (HR c Hlt Hc'); tauto.
  - right. right. pose proof (ext_count _ _ _ (step_ext _ _ _ H1)). unfold node_count in *. lia.
Qed.

Lemma ext_weaken R R' b g : R ⊆ R' -> ext R b g -> ext R' b g.
Proof. intros HR []. split; try done. intros v x Hv Hc Hn. apply ext_closed0; set_solver. Qed.

Lemma step_weaken R R' b b' : R ⊆ R' -> step R b b' -> step R' b b'.
Proof.
  intros HR []. split; [by apply (ext_weaken R)|]. intros c Hc. destruct (step_current0 c Hc) as [?|[?|?]]; auto.
Qed.

(** ** The invariant *)

(** A vertex that edges may enter. *)
Definition target_ok (b : CfgBuilder) (t : NodeIndex) : Prop :=
  (t < node_count b)%nat /\ g_start (cfg b) <> Some t.

Record Inv (b : CfgBuilder) : Prop := {
  inv_edges : forall e, e ∈ g_edges (cfg b) -> (e_source e < node_count b)%nat /\ target_ok b (e_target e);
  inv_start : exists s, g_start (cfg b) = Some s /\ (s < node_count b)%nat;
  inv_exit : target_ok b (g_exit (cfg b)) /\ vertex (cfg b) (g_exit (cfg b)) = Some Exit;
  inv_current : exists c ss, current_block b = Some c /\ vertex (cfg b) c = Some (BasicBlock ss);
  inv_except : forall t, t ∈ except_stack b -> target_ok b t;
  inv_loops : forall f, f ∈ loop_stack b -> target_ok b (f_header f) /\ target_ok b (f_exit f);
  inv_labels : forall l t, label_table b !! l = Some t -> target_ok b t;
  inv_pending : forall s l, (s, l) ∈ pending_gotos b -> (s < node_count b)%nat /\ label_table b !! l = None;
}.

(** ** Elementary changes *)

Definition push_vertex (v : CfgVertex) (b : CfgBuilder) : CfgBuilder :=
  set_cfg (add_vertex v (cfg b)).2 b.

Definition push_vertex_with_origin (v : CfgVertex) (stmt : StmtId) (b : CfgBuilder) : CfgBuilder :=
  set_cfg (add_vertex_with_origin v stmt (cfg b)).2 b.

Definition push_edge (source target : NodeIndex) (k : CfgEdgeType) (b : CfgBuilder) : CfgBuilder :=
  set_cfg (MkGraph (g_nodes (cfg b)) (g_edges (cfg b) ++ [MkEdge source target k])
    (statement_origins (cfg b)) (g_start (cfg b)) (g_exit (cfg b))) b.

Lemma vertex_push v b i :
  vertex (cfg (push_vertex v b)) i = if decide (i = node_count b) then Some v else vertex (cfg b) i.
Proof.
  unfold vertex, push_vertex. simpl. destruct (decide (i = node_count b)) as [->|Hne].
  - apply list_lookup_middle. done.
  - destruct (decide (i < node_count b)%nat).
    + by rewrite lookup_app_l.
    + rewrite lookup_ge_None_2, lookup_ge_None_2; [done| |]; rewrite ?length_app; unfold node_count in *; simpl; lia.
Qed.

Lemma node_count_push v b : node_count (push_vertex v b) = S (node_count b).
Proof. unfold node_count. simpl. rewrite length_app. simpl. lia. Qed.

Lemma push_vertex_old v b i x :
  vertex (cfg b) i = Some x -> vertex (cfg (push_vertex v b)) i = Some x.
Proof.
  intros Hi. rewrite vertex_push, decide_False; [done|]. apply vertex_lt in Hi. unfold node_count in *. lia.
Qed.

Lemma push_vertex_new v b : vertex (cfg (push_vertex v b)) (node_count b) = Some v.
Proof. rewrite vertex_push. by rewrite decide_True. Qed.

Lemma step_push_vertex v b : step ∅ b (push_vertex v b).
Proof.
  split; [split|]; try done.
  - intros i x Hi. exists x. split; [by apply push_vertex_old|apply grows_refl].
  - intros i x Hi _ _. by apply push_vertex_old.
  - tauto.
Qed.

Lemma target_ok_push v b t : target_ok b t -> target_ok (push_vertex v b) t.
Proof. intros [Hlt Hs]. split; [rewrite node_count_push; lia|done]. Qed.

Lemma target_ok_new v b : Inv b -> target_ok (push_vertex v b) (node_count b).
Proof.
  intros Hb. destruct (inv_start b Hb) as (s & Hs & Hlt). split; [rewrite node_count_push; lia|].
  simpl. rewrite Hs. intros [= ->]. lia.
Qed.

Lemma Inv_push_vertex v b : Inv b -> Inv (push_vertex v b).
Proof.
  intros [He (s & Hs & Hlt) [Hx Hx'] (c & ss & Hc & Hv) Hex Hl Hla Hp]. split.
  - intros e Hin. destruct (He e Hin). split; [rewrite node_count_push; lia|by apply target_ok_push].
  - exists s. split; [done|]. rewrite node_count_push. lia.
  - split; [by apply target_ok_push|]. by apply push_vertex_old.
  - exists c, ss. split; [done|]. by apply push_vertex_old.
  - intros t Ht. by apply target_ok_push, Hex.
  - intros f Hf. destruct (Hl f Hf). split; by apply target_ok_push.
  - intros l t Ht. by apply target_ok_push, (Hla l).
  - intros t l Ht. destruct (Hp t l Ht). split; [rewrite node_count_push; lia|done].
Qed.

(** A vertex with its origin changes nothing else. *)
Lemma step_push_origin v stmt b : step ∅ b (push_vertex_with_origin v stmt b).
Proof. destruct (step_push_vertex v b) as [[] ?]. split; [split|]; done. Qed.

Lemma Inv_push_origin v stmt b : Inv b -> Inv (push_vertex_with_origin v stmt b).
Proof. intros Hb. destruct (Inv_push_vertex v b Hb). split; done. Qed.

Lemma step_push_edge s t k b : step ∅ b (push_edge s t k b).
Proof.
  split; [split|]; try done.
  - intros e He. simpl. set_solver.
  - intros v x Hv. exists x. split; [done|apply grows_refl].
  - tauto.
Qed.

Lemma Inv_push_edge s t k b :
  Inv b -> (s < node_count b)%nat -> target_ok b t -> Inv (push_edge s t k b).
Proof.
  intros [He Hs Hx Hc Hex Hl Hla Hp] Hlt Ht. split; try done.
  simpl. intros e [Hin| ->%list_elem_of_singleton]%elem_of_app; [by apply He|done].
Qed.

Lemma step_set_current c b : step {[c]} b (set_current (Some c) b).
Proof.
  split; [split|]; try done.
  - intros v x Hv. exists x. split; [done|apply grows_refl].
  - simpl. intros c' [= <-]. right. left. set_solver.
Qed.

Lemma Inv_set_current c ss b :
  Inv b -> vertex (cfg b) c = Some (BasicBlock ss) -> Inv (set_current (Some c) b).
Proof. intros [] Hv. split; try done. by exists c, ss. Qed.

(** Adding a statement to the current block. *)
Definition push_stmt (s : StmtId) (b : CfgBuilder) : CfgBuilder :=
  match current_block b with
  | Some i => set_cfg (alter_vertex (add_statement s) i (cfg b)) b
  | None => b
  end.

Lemma vertex_push_stmt s b c ss :
  current_block b = Some c -> vertex (cfg b) c = Some (BasicBlock ss) ->
  vertex (cfg (push_stmt s b)) c = Some (BasicBlock (ss ++ [s])).
Proof.
  intros Hc Hv. unfold push_stmt. rewrite Hc. unfold vertex in *. simpl.
  by rewrite list_lookup_alter_eq, Hv.
Qed.

Lemma vertex_push_stmt_ne s b c v :
  current_block b = Some c -> v <> c -> vertex (cfg (push_stmt s b)) v = vertex (cfg b) v.
Proof.
  intros Hc Hv. unfold push_stmt. rewrite Hc. unfold vertex. simpl. by rewrite list_lookup_alter_ne.
Qed.

Lemma node_count_push_stmt s b : node_count (push_stmt s b) = node_count b.
Proof. unfold push_stmt. destruct (current_block b); [|done]. unfold node_count. simpl. apply length_alter. Qed.

Lemma push_stmt_fields s b :
  g_edges (cfg (push_stmt s b)) = g_edges (cfg b) /\ g_start (cfg (push_stmt s b)) = g_start (cfg b) /\
  g_exit (cfg (push_stmt s b)) = g_exit (cfg b) /\ current_block (push_stmt s b) = current_block b /\
  except_stack (push_stmt s b) = except_stack b /\ loop_stack (push_stmt s b) = loop_stack b /\
  label_table (push_stmt s b) = label_table b /\ pending_gotos (push_stmt s b) = pending_gotos b.
Proof. unfold push_stmt. destruct (current_block b) eqn:E; simpl; by rewrite ?E. Qed.

Lemma step_push_stmt s b : Inv b -> step ∅ b (push_stmt s b).
Proof.
  intros Hb. destruct (inv_current b Hb) as (c & ss & Hc & Hv).
  destruct (push_stmt_fields s b) as (E1 & E2 & E3 & E4 & _). split; [split|].
  - by rewrite E1.
  - done.
  - done.
  - intros v x Hx. destruct (decide (v = c)) as [->|Hne].
    + assert (x = BasicBlock ss) as -> by congruence. rewrite (vertex_push_stmt s b c ss Hc Hv).
      eexists. split; [done|]. by exists [s].
    + rewrite (vertex_push_stmt_ne s b c v Hc Hne). exists x. split; [done|apply grows_refl].
  - intros v x Hx Hne _. rewrite (vertex_push_stmt_ne s b c v Hc); [done|]. by intros ->.
  - rewrite E4. tauto.
Qed.

Lemma Inv_push_stmt s b : Inv b -> Inv (push_stmt s b).
Proof.
  intros Hb. destruct (inv_current b Hb) as (c & ss & Hc & Hv).
  destruct (push_stmt_fields s b) as (E1 & E2 & E3 & E4 & E5 & E6 & E7 & E8).
  assert (forall t, target_ok b t -> target_ok (push_stmt s b) t) as Hok.
  { intros t [Hlt Ht]. split; [by rewrite node_count_push_stmt|by rewrite E2]. }
  destruct Hb as [He Hs [Hx Hx'] _ Hex Hl Hla Hp].
  split; rewrite ?E1, ?E2, ?E3, ?E4, ?E5, ?E6, ?E7, ?E8, ?node_count_push_stmt.
  - intros e Hin. destruct (He e Hin). split; [done|by apply Hok].
  - done.
  - split; [by apply Hok|]. rewrite (vertex_push_stmt_ne s b c _ Hc); [done|]. intros E. congruence.
  - exists c, (ss ++ [s]). split; [done|by apply vertex_push_stmt].
  - intros t Ht. by apply Hok, Hex.
  - intros f Hf. destruct (Hl f Hf). split; by apply Hok.
  - intros l t Ht. by apply Hok, (Hla l).
  - apply Hp.
Qed.

(** ** Points and labels *)

(** The points of the vertices, in the order of the vertices. *)
Definition points (b : CfgBuilder) : list InitPoint := g_nodes (cfg b) ≫= kind_points.

Lemma graph_points_nodes g : graph_points g = g_nodes g ≫= kind_points.
Proof.
  assert (forall (f : nat -> nat) xs,
    ('(_, kind) ← imap (fun i (x : CfgVertex) => (f i, x)) xs; kind_points kind) = xs ≫= kind_points) as Hf;
    [|exact (Hf (fun i => i) (g_nodes g))].
  intros f xs. revert f. induction xs as [|x xs IH]; intros f; [done|]. simpl. f_equal.
  apply (IH (fun i => f (S i))).
Qed.

Lemma points_push_vertex v b : points (push_vertex v b) = points b ++ kind_points v.
Proof. unfold points. simpl. rewrite bind_app. simpl. by rewrite app_nil_r. Qed.

Lemma points_push_stmt s b : Inv b -> points (push_stmt s b) ≡ₚ points b ++ [Stmt s].
Proof.
  intros Hb. destruct (inv_current b Hb) as (c & ss & Hc & Hv). unfold push_stmt. rewrite Hc.
  unfold points, vertex in *. simpl. apply list_elem_of_split_length in Hv as (l1 & l2 & E & Hlen).
  rewrite E. rewrite Hlen, alter_app_r_alt, Nat.sub_diag by lia. simpl.
  rewrite !bind_app. simpl. rewrite fmap_app. simpl. solve_Permutation.
Qed.

(** A jump that waits for its label or already has its edge to the label's block. *)
Definition awaits (b : CfgBuilder) (src : NodeIndex) (l : Name) : Prop :=
  (src, l) ∈ pending_gotos b \/
  exists t, label_table b !! l = Some t /\ MkEdge src t Unconditional ∈ g_edges (cfg b).

(** [Walked R ps ls b b']: from [b] to [b'] the points [ps] were placed and the labels [ls] declared. *)
Record Walked (R : gset NodeIndex) (ps : list InitPoint) (ls : list Name) (b b' : CfgBuilder) : Prop := {
  wk_inv : Inv b';
  wk_step : step R b b';
  wk_points : points b' ≡ₚ points b ++ ps;
  wk_kept : forall l t, label_table b !! l = Some t -> l ∉ ls -> label_table b' !! l = Some t;
  wk_dom : forall l, is_Some (label_table b' !! l) <-> is_Some (label_table b !! l) \/ l ∈ ls;
  wk_awaits : NoDup ls -> (forall l, l ∈ ls -> label_table b !! l = None) ->
    forall src l, awaits b src l -> awaits b' src l;
}.

Lemma walked_refl R b : Inv b -> Walked R [] [] b b.
Proof.
  intros Hb. split; try done; [apply step_refl|by rewrite app_nil_r|].
  intros l. rewrite elem_of_nil. tauto.
Qed.

Lemma walked_trans R R' ps ps' ls ls' b b' b'' :
  Walked R ps ls b b' -> Walked R' ps' ls' b' b'' ->
  (forall v, (v < node_count b)%nat -> v ∈ R' -> v ∈ R \/ current_block b = Some v) ->
  Walked R (ps ++ ps') (ls ++ ls') b b''.
Proof.
  intros [Hi1 Hs1 Hp1 Hk1 Hd1 Ha1] [Hi2 Hs2 Hp2 Hk2 Hd2 Ha2] HR. split.
  - done.
  - by apply (step_trans R R' b b').
  - by rewrite Hp2, Hp1, app_assoc.
  - intros l t Hl [Hn1 Hn2]%not_elem_of_app. by apply Hk2, Hn2; apply Hk1.
  - intros l. rewrite Hd2, Hd1, elem_of_app. tauto.
  - intros (Hnd1 & Hdisj & Hnd2)%NoDup_app Hnone src l Haw. apply Ha2; [done| |].
    + intros l' Hl'. apply eq_None_not_Some. intros [Hsome|Hin]%Hd1; [|by apply (Hdisj l')].
      rewrite Hnone in Hsome by set_solver. by destruct Hsome.
    + apply Ha1; [done| |done]. intros l' Hl'. apply Hnone. set_solver.
Qed.

(** The steps that place nothing: they compose without a trace. *)
Lemma walked_trans_l R R' ps ls b b' b'' :
  Walked R [] [] b b' -> Walked R' ps ls b' b'' ->
  (forall v, (v < node_count b)%nat -> v ∈ R' -> v ∈ R \/ current_block b = Some v) ->
  Walked R ps ls b b''.
Proof. apply (walked_trans R R' [] ps [] ls). Qed.

Lemma walked_trans_r R R' ps ls b b' b'' :
  Walked R ps ls b b' -> Walked R' [] [] b' b'' ->
  (forall v, (v < node_count b)%nat -> v ∈ R' -> v ∈ R \/ current_block b = Some v) ->
  Walked R ps ls b b''.
Proof.
  intros H1 H2 HR. pose proof (walked_trans R R' ps [] ls [] b b' b'' H1 H2 HR) as Hw.
  by rewrite !app_nil_r in Hw.
Qed.

(** The same when the second step reserves nothing. *)
Lemma walked_seq R ps ps' ls ls' b b' b'' :
  Walked R ps ls b b' -> Walked ∅ ps' ls' b' b'' -> Walked R (ps ++ ps') (ls ++ ls') b b''.
Proof. intros H1 H2. apply (walked_trans R ∅ ps ps' ls ls' b b' b'' H1 H2). intros v _ []%not_elem_of_empty. Qed.

Lemma walked_seq_l R ps ls b b' b'' :
  Walked R [] [] b b' -> Walked ∅ ps ls b' b'' -> Walked R ps ls b b''.
Proof. apply (walked_seq R [] ps [] ls). Qed.

Lemma walked_seq_r R ps ls b b' b'' :
  Walked R ps ls b b' -> Walked ∅ [] [] b' b'' -> Walked R ps ls b b''.
Proof. intros H1 H2. pose proof (walked_seq R ps [] ls [] b b' b'' H1 H2) as Hw. by rewrite !app_nil_r in Hw. Qed.

Lemma walked_weaken R R' ps ls b b' : R ⊆ R' -> Walked R ps ls b b' -> Walked R' ps ls b b'.
Proof. intros HR []. split; try done. by apply (step_weaken R). Qed.

(** A change that keeps the label table, the waiting jumps and every edge. *)
Lemma walked_plain R ps b b' :
  Inv b' -> step R b b' -> points b' ≡ₚ points b ++ ps -> label_table b' = label_table b ->
  pending_gotos b' = pending_gotos b -> Walked R ps [] b b'.
Proof.
  intros Hi Hs Hp Hl Hg. split; try done.
  - intros l t Hlt _. by rewrite Hl.
  - intros l. rewrite Hl, elem_of_nil. tauto.
  - intros _ _ src l [Hin|(t & Ht & He)]; [left; by rewrite Hg|].
    right. exists t. rewrite Hl. split; [done|]. by apply (step_ext _ _ _ Hs).
Qed.

Lemma walked_push_vertex v b : Inv b -> Walked ∅ (kind_points v) [] b (push_vertex v b).
Proof.
  intros Hb. apply walked_plain; [by apply Inv_push_vertex|apply step_push_vertex| |done..].
  by rewrite points_push_vertex.
Qed.

Lemma walked_push_origin v s b : Inv b -> Walked ∅ (kind_points v) [] b (push_vertex_with_origin v s b).
Proof.
  intros Hb. apply walked_plain; [by apply Inv_push_origin|apply step_push_origin| |done..].
  pose proof (points_push_vertex v b) as E. unfold points in *. simpl in *. by rewrite E.
Qed.

Lemma walked_push_edge s t k b :
  Inv b -> (s < node_count b)%nat -> target_ok b t -> Walked ∅ [] [] b (push_edge s t k b).
Proof.
  intros Hb Hs Ht. apply walked_plain; [by apply Inv_push_edge|apply step_push_edge| |done..].
  by rewrite app_nil_r.
Qed.

Lemma walked_set_current c ss b :
  Inv b -> vertex (cfg b) c = Some (BasicBlock ss) -> Walked {[c]} [] [] b (set_current (Some c) b).
Proof.
  intros Hb Hc. apply walked_plain; [by apply (Inv_set_current c ss)|apply step_set_current| |done..].
  by rewrite app_nil_r.
Qed.

Lemma walked_push_stmt s b : Inv b -> Walked ∅ [Stmt s] [] b (push_stmt s b).
Proof.
  intros Hb. destruct (push_stmt_fields s b) as (_ & _ & _ & _ & _ & _ & E7 & E8).
  apply walked_plain; [by apply Inv_push_stmt|by apply step_push_stmt|by apply points_push_stmt|done..].
Qed.

(** ** The handlers as changes of the state *)

Lemma target_ok_step R b b' t : step R b b' -> target_ok b t -> target_ok b' t.
Proof.
  intros Hs [Hlt Ht]. pose proof (ext_count _ _ _ (step_ext _ _ _ Hs)) as Hle.
  split; [unfold node_count in *; lia|]. by rewrite (ext_start _ _ _ (step_ext _ _ _ Hs)).
Qed.

Lemma node_count_step R b b' : step R b b' -> (node_count b <= node_count b')%nat.
Proof. intros Hs. apply (ext_count _ _ _ (step_ext _ _ _ Hs)). Qed.

Lemma node_count_origin v s b : node_count (push_vertex_with_origin v s b) = S (node_count b).
Proof. apply (node_count_push v). Qed.

Lemma node_count_edge s t k b : node_count (push_edge s t k b) = node_count b.
Proof. done. Qed.

Lemma node_count_current c b : node_count (set_current c b) = node_count b.
Proof. done. Qed.

Lemma node_count_loops s b : node_count (set_loops s b) = node_count b.
Proof. done. Qed.

Lemma node_count_except s b : node_count (set_except s b) = node_count b.
Proof. done. Qed.

Lemma node_count_pending p b : node_count (set_pending p b) = node_count b.
Proof. done. Qed.

Lemma node_count_labels t b : node_count (set_labels t b) = node_count b.
Proof. done. Qed.

Create HintDb nodes discriminated.
#[export] Hint Rewrite node_count_push node_count_pending node_count_labels node_count_origin node_count_edge node_count_current
  node_count_loops node_count_except node_count_push_stmt : nodes.

Lemma edge_eq s t k b :
  (s < node_count b)%nat -> (t < node_count b)%nat -> edge s t k b = Some (tt, push_edge s t k b).
Proof.
  intros Hs Ht. unfold edge, add_edge, node_count in *.
  by rewrite (proj2 (Nat.ltb_lt _ _) Hs), (proj2 (Nat.ltb_lt _ _) Ht).
Qed.

Lemma on_current_eq f b c : current_block b = Some c -> on_current f b = f c b.
Proof. intros Hc. unfold on_current, mbind, M_bind, gets. by rewrite Hc. Qed.

Lemma current_lt b c : Inv b -> current_block b = Some c -> (c < node_count b)%nat.
Proof. intros Hb Hc. destruct (inv_current b Hb) as (c' & ss & Hc' & Hv). apply vertex_lt in Hv. congruence. Qed.

(** One step of a computation whose result is known. *)
Lemma bind_eq {A B} (m : M A) (f : A -> M B) b x b' :
  m b = Some (x, b') -> (m ≫= f) b = f x b'.
Proof. intros E. unfold mbind, M_bind. by rewrite E. Qed.

Ltac bind_step E := erewrite bind_eq; [|eapply E]; cbv beta.

Lemma new_block_eq b : new_block b = Some (node_count b, push_vertex (BasicBlock []) b).
Proof. done. Qed.

Lemma vertex_new_eq v b : vertex_new v b = Some (node_count b, push_vertex v b).
Proof. done. Qed.

Lemma origin_eq v s b : vertex_with_origin v s b = Some (node_count b, push_vertex_with_origin v s b).
Proof. done. Qed.

Lemma modify_eq f b : modify f b = Some (tt, f b).
Proof. done. Qed.

Lemma gets_eq {A} (f : CfgBuilder -> A) b : gets f b = Some (f b, b).
Proof. done. Qed.

Lemma add_current_eq s b : add_to_current_block_hir s b = Some (tt, push_stmt s b).
Proof. done. Qed.

Section handlers.
Context `{EdgeOrderLaw}.

Definition link_kind (b : CfgBuilder) (c : NodeIndex) : CfgEdgeType :=
  if block_has_live_incoming (cfg b) c then Unconditional else Unexecutable.

Lemma link_to_eq c t b :
  (c < node_count b)%nat -> (t < node_count b)%nat ->
  link_to c t b = Some (tt, push_edge c t (link_kind b c) b).
Proof. intros Hc Ht. unfold link_to, mbind, M_bind, gets. by rewrite edge_eq. Qed.

Lemma link_current_eq c t b :
  current_block b = Some c -> (c < node_count b)%nat -> (t < node_count b)%nat ->
  on_current (fun current => link_to current t) b = Some (tt, push_edge c t (link_kind b c) b).
Proof. intros Hc Hlt Ht. rewrite (on_current_eq _ _ c Hc). by apply link_to_eq. Qed.

Lemma edge_current_eq c t k b :
  current_block b = Some c -> (c < node_count b)%nat -> (t < node_count b)%nat ->
  on_current (fun current => edge current t k) b = Some (tt, push_edge c t k b).
Proof. intros Hc Hlt Ht. rewrite (on_current_eq _ _ c Hc). by apply edge_eq. Qed.

(** The state after [seal_jump] from the block [c]. *)
Definition sealed (c : NodeIndex) (b : CfgBuilder) : CfgBuilder :=
  set_current (Some (node_count b)) (push_edge c (node_count b) Unexecutable (push_vertex (BasicBlock []) b)).

Lemma seal_jump_eq b c :
  Inv b -> current_block b = Some c -> seal_jump b = Some (tt, sealed c b).
Proof.
  intros Hb Hc. pose proof (current_lt b c Hb Hc) as Hlt.
  unfold seal_jump, new_block, vertex_new, mbind, M_bind. simpl.
  rewrite (on_current_eq _ _ c) by done. fold (push_vertex (BasicBlock []) b).
  change (length (g_nodes (CfgBuilder.cfg b))) with (node_count b).
  change (set_cfg _ b) with (push_vertex (BasicBlock []) b).
  by rewrite edge_eq by (autorewrite with nodes; lia).
Qed.

(** A fresh block, entered or not, becomes the current one. *)
Lemma walked_fresh_current b b' n :
  Walked ∅ [] [] b b' -> (node_count b <= n)%nat -> vertex (cfg b') n = Some (BasicBlock []) ->
  Walked ∅ [] [] b (set_current (Some n) b').
Proof.
  intros Hw Hn Hv. apply (walked_trans_l ∅ {[n]} [] [] b b'); [done| |set_solver by lia].
  apply (walked_set_current n []); [apply Hw|done].
Qed.

Lemma walked_sealed c b :
  Inv b -> (c < node_count b)%nat -> Walked ∅ [] [] b (sealed c b).
Proof.
  intros Hb Hc. unfold sealed.
  pose proof (walked_push_vertex (BasicBlock []) b Hb) as Hw.
  apply walked_fresh_current; [|lia|apply push_vertex_new].
  apply (walked_seq_l ∅ [] [] _ _ _ Hw).
  apply walked_push_edge; [apply Hw|autorewrite with nodes; lia|by apply target_ok_new].
Qed.

(** A jump: the statement, an edge, and the rest of the text in a sealed block. *)
Definition jumped (s : StmtId) (target : NodeIndex) (k : CfgEdgeType) (c : NodeIndex) (b : CfgBuilder)
    : CfgBuilder := sealed c (push_edge c target k (push_stmt s b)).

Lemma push_stmt_current s b c : current_block b = Some c -> current_block (push_stmt s b) = Some c.
Proof. intros Hc. destruct (push_stmt_fields s b) as (_ & _ & _ & -> & _). done. Qed.

Lemma target_ok_stmt s b t : target_ok b t -> target_ok (push_stmt s b) t.
Proof.
  intros [Hlt Hs]. split; [by rewrite node_count_push_stmt|].
  by destruct (push_stmt_fields s b) as (_ & -> & _).
Qed.

Lemma walked_jumped s target k c b :
  Inv b -> current_block b = Some c -> target_ok b target ->
  Walked ∅ [Stmt s] [] b (jumped s target k c b).
Proof.
  intros Hb Hc Ht. pose proof (walked_push_stmt s b Hb) as Hw. pose proof (current_lt b c Hb Hc).
  apply (walked_seq_r ∅ _ _ _ _ _ Hw).
  assert (Walked ∅ [] [] (push_stmt s b) (push_edge c target k (push_stmt s b))) as He.
  { apply walked_push_edge; [apply Hw|autorewrite with nodes; lia|by apply target_ok_stmt]. }
  apply (walked_seq_l ∅ [] [] _ _ _ He).
  apply walked_sealed; [apply He|autorewrite with nodes; lia].
Qed.

Lemma sealed_stacks c b :
  except_stack (sealed c b) = except_stack b /\ loop_stack (sealed c b) = loop_stack b.
Proof. done. Qed.

Definition same_stacks (b b' : CfgBuilder) : Prop :=
  except_stack b' = except_stack b /\ loop_stack b' = loop_stack b.

Lemma same_stacks_trans b b' b'' : same_stacks b b' -> same_stacks b' b'' -> same_stacks b b''.
Proof. intros [] []. split; congruence. Qed.

Lemma push_stmt_stacks s b : same_stacks b (push_stmt s b).
Proof. destruct (push_stmt_fields s b) as (_ & _ & _ & _ & E5 & E6 & _). done. Qed.

(** One lemma per jump: the state it ends in. *)
Lemma return_eq s b c :
  Inv b -> current_block b = Some c ->
  walk_return_statement_hir s b = Some (tt, jumped s (g_exit (cfg b)) Unconditional c b).
Proof.
  intros Hb Hc. pose proof (Inv_push_stmt s b Hb) as Hb1. pose proof (current_lt b c Hb Hc).
  destruct (inv_exit b Hb) as [Hx _]. pose proof (target_ok_stmt s b _ Hx) as Hx1.
  unfold walk_return_statement_hir, mbind, M_bind. rewrite add_current_eq.
  rewrite (on_current_eq _ _ c) by by apply push_stmt_current. unfold gets.
  destruct (push_stmt_fields s b) as (_ & _ & -> & _).
  rewrite edge_eq; [|autorewrite with nodes; lia|apply Hx1].
  apply seal_jump_eq; [|by apply push_stmt_current].
  apply Inv_push_edge; [done|autorewrite with nodes; lia|done].
Qed.

Definition raise_target (b : CfgBuilder) : NodeIndex :=
  match except_stack b with t :: _ => t | [] => g_exit (cfg b) end.

Lemma raise_target_ok b : Inv b -> target_ok b (raise_target b).
Proof.
  intros Hb. unfold raise_target. destruct (except_stack b) as [|t ts] eqn:E; [apply Hb|].
  apply (inv_except b Hb). rewrite E. apply list_elem_of_here.
Qed.

Lemma raise_eq s b c :
  Inv b -> current_block b = Some c ->
  walk_raise_statement_hir s b = Some (tt, jumped s (raise_target b) Exception c b).
Proof.
  intros Hb Hc. pose proof (Inv_push_stmt s b Hb) as Hb1. pose proof (current_lt b c Hb Hc).
  pose proof (target_ok_stmt s b _ (raise_target_ok b Hb)) as Hx1.
  unfold walk_raise_statement_hir, mbind, M_bind. rewrite add_current_eq.
  rewrite (on_current_eq _ _ c) by by apply push_stmt_current. unfold gets.
  destruct (push_stmt_fields s b) as (_ & _ & -> & _ & -> & _). fold (raise_target b).
  rewrite edge_eq; [|autorewrite with nodes; lia|apply Hx1].
  apply seal_jump_eq; [|by apply push_stmt_current].
  apply Inv_push_edge; [done|autorewrite with nodes; lia|done].
Qed.

Definition loop_jumped (target : LoopFrame -> NodeIndex) (s : StmtId) (c : NodeIndex) (b : CfgBuilder)
    : CfgBuilder :=
  match loop_stack b with
  | frame :: _ => jumped s (target frame) Unconditional c b
  | [] => sealed c (push_stmt s b)
  end.

Lemma loop_jump_eq target s b c :
  Inv b -> current_block b = Some c -> (forall f, f ∈ loop_stack b -> target_ok b (target f)) ->
  walk_loop_jump target s b = Some (tt, loop_jumped target s c b).
Proof.
  intros Hb Hc Ht. pose proof (Inv_push_stmt s b Hb) as Hb1. pose proof (current_lt b c Hb Hc).
  unfold walk_loop_jump, mbind, M_bind. rewrite add_current_eq.
  rewrite (on_current_eq _ _ c) by by apply push_stmt_current. unfold gets, loop_jumped.
  destruct (push_stmt_fields s b) as (_ & _ & _ & _ & _ & -> & _).
  destruct (loop_stack b) as [|f fs] eqn:E.
  - apply seal_jump_eq; [done|by apply push_stmt_current].
  - pose proof (target_ok_stmt s b _ (Ht f ltac:(apply list_elem_of_here))) as Hx1.
    rewrite edge_eq; [|autorewrite with nodes; lia|apply Hx1].
    apply seal_jump_eq; [|by apply push_stmt_current].
    apply Inv_push_edge; [done|autorewrite with nodes; lia|done].
Qed.

Lemma walked_loop_jumped target s c b :
  Inv b -> current_block b = Some c -> (forall f, f ∈ loop_stack b -> target_ok b (target f)) ->
  Walked ∅ [Stmt s] [] b (loop_jumped target s c b) /\ same_stacks b (loop_jumped target s c b).
Proof.
  intros Hb Hc Ht. pose proof (push_stmt_stacks s b) as Hst. unfold loop_jumped.
  destruct (loop_stack b) as [|f fs] eqn:E.
  - split; [|done]. pose proof (walked_push_stmt s b Hb) as Hw.
    apply (walked_seq_r ∅ _ _ _ _ _ Hw). apply walked_sealed; [apply Hw|].
    autorewrite with nodes. by apply current_lt.
  - split; [|done]. apply walked_jumped; [done..|]. apply Ht, list_elem_of_here.
Qed.

(** *** Labels *)

Definition goto_jumped (s : StmtId) (l : Name) (c : NodeIndex) (b : CfgBuilder) : CfgBuilder :=
  match label_table b !! l with
  | Some t => jumped s t Unconditional c b
  | None => sealed c (set_pending (pending_gotos b ++ [(c, l)]) (push_stmt s b))
  end.

Lemma Inv_set_pending b p :
  Inv b -> (forall s l, (s, l) ∈ p -> (s < node_count b)%nat /\ label_table b !! l = None) ->
  Inv (set_pending p b).
Proof. intros [] Hp. by split. Qed.

Lemma goto_eq s l b c :
  Inv b -> current_block b = Some c ->
  walk_goto_statement_hir s l b = Some (tt, goto_jumped s l c b) /\
  Walked ∅ [Stmt s] [] b (goto_jumped s l c b) /\ same_stacks b (goto_jumped s l c b) /\
  awaits (goto_jumped s l c b) c l.
Proof.
  intros Hb Hc. pose proof (Inv_push_stmt s b Hb) as Hb1. pose proof (current_lt b c Hb Hc).
  pose proof (push_stmt_stacks s b) as Hst. pose proof (walked_push_stmt s b Hb) as Hw.
  unfold walk_goto_statement_hir, goto_jumped, mbind, M_bind. rewrite add_current_eq.
  rewrite (on_current_eq _ _ c) by by apply push_stmt_current. unfold gets, modify.
  destruct (push_stmt_fields s b) as (_ & _ & _ & Ec & _ & _ & -> & Ep0).
  destruct (label_table b !! l) as [t|] eqn:E.
  - pose proof (inv_labels b Hb l t E) as Ht. pose proof (target_ok_stmt s b _ Ht) as Hx1.
    rewrite edge_eq; [|autorewrite with nodes; lia|apply Hx1]. split_and!; [|by apply walked_jumped|done|].
    + apply seal_jump_eq; [|by apply push_stmt_current].
      apply Inv_push_edge; [done|autorewrite with nodes; lia|done].
    + right. exists t. split.
      * simpl. destruct (push_stmt_fields s b) as (_ & _ & _ & _ & _ & _ & -> & _). done.
      * simpl. set_solver.
  - assert (Inv (set_pending (pending_gotos b ++ [(c, l)]) (push_stmt s b))) as Hi.
    { apply Inv_set_pending; [done|]. rewrite node_count_push_stmt.
      destruct (push_stmt_fields s b) as (_ & _ & _ & _ & _ & _ & -> & _).
      intros s' l' [Hin|[= -> ->]%list_elem_of_singleton]%elem_of_app; [by apply (inv_pending b Hb)|done]. }
    rewrite Ep0. split_and!; [apply seal_jump_eq; [done|by rewrite <- Hc]| |done|].
    + apply (walked_seq_r ∅ _ _ _ _ _ Hw).
      apply (walked_trans_l ∅ ∅ [] [] _ (set_pending (pending_gotos b ++ [(c, l)]) (push_stmt s b)));
        [|apply walked_sealed; [done|by autorewrite with nodes]|set_solver].
      split; [done| |by rewrite app_nil_r|done| |].
      * destruct (step_refl ∅ (push_stmt s b)) as [[] ?]. by split; [split|].
      * intros l'. rewrite elem_of_nil. simpl. tauto.
      * intros _ _ src l' [Hin|?]; [|by right]. left. simpl.
        destruct (push_stmt_fields s b) as (_ & _ & _ & _ & _ & _ & _ & Ep). rewrite Ep in Hin. set_solver.
    + left. simpl. set_solver.
Qed.

Definition matched_edges (matched : list (NodeIndex * Name)) (t : NodeIndex) (b : CfgBuilder) : CfgBuilder :=
  foldl (fun b p => push_edge p.1 t Unconditional b) b matched.

Lemma matched_edges_spec matched t b :
  Inv b -> target_ok b t -> (forall p, p ∈ matched -> p.1 < node_count b)%nat ->
  link_matched matched t b = Some (tt, matched_edges matched t b) /\
  Walked ∅ [] [] b (matched_edges matched t b) /\ same_stacks b (matched_edges matched t b) /\
  pending_gotos (matched_edges matched t b) = pending_gotos b /\
  label_table (matched_edges matched t b) = label_table b /\
  current_block (matched_edges matched t b) = current_block b /\
  g_nodes (cfg (matched_edges matched t b)) = g_nodes (cfg b) /\
  (forall e, e ∈ g_edges (cfg b) -> e ∈ g_edges (cfg (matched_edges matched t b))) /\
  forall p, p ∈ matched -> MkEdge p.1 t Unconditional ∈ g_edges (cfg (matched_edges matched t b)).
Proof.
  revert b. induction matched as [|[src l] matched IH]; intros b Hb Ht Hm.
  { split_and!; try done; [by apply walked_refl|]. intros p Hp. by apply elem_of_nil in Hp. }
  assert (src < node_count b)%nat as Hsrc by apply (Hm (src, l)), list_elem_of_here.
  pose proof (walked_push_edge src t Unconditional b Hb Hsrc Ht) as Hw.
  destruct (IH (push_edge src t Unconditional b)) as (E & Hw' & Hst & E1 & E2 & E3 & E4 & Hkeep & Hall).
  - apply Hw.
  - done.
  - intros p Hp. apply Hm. by apply list_elem_of_further.
  - split_and!; try done.
    + unfold link_matched. fold link_matched. unfold mbind, M_bind. rewrite edge_eq by (done || apply Ht).
      exact E.
    + apply (walked_trans_l ∅ ∅ [] [] _ _ _ Hw); [done|set_solver].
    + intros e He. apply Hkeep. simpl. set_solver.
    + intros p [->|Hp]%elem_of_cons; [|by apply Hall]. apply Hkeep. simpl. set_solver.
Qed.

(** The block of a label and the block behind it. *)
Definition declared (s : StmtId) (l : Name) (c : NodeIndex) (b : CfgBuilder) : CfgBuilder :=
  let L := node_count b in
  let b := push_edge c L Unconditional (push_vertex (BasicBlock []) b) in
  let pending := pending_gotos b in
  let b := matched_edges (filter (fun p => p.2 = l) pending) L b in
  let b := set_pending (filter (fun p => p.2 <> l) pending) b in
  let b := set_labels (<[l := L]> (label_table b)) b in
  let b := push_stmt s (set_current (Some L) b) in
  set_current (Some (node_count b))
    (push_edge L (node_count b) Unconditional (push_vertex (BasicBlock []) b)).

(** Declaring a label when the waiting jumps to it have their edges. *)
Lemma walked_declare l L b :
  Inv b -> target_ok b L ->
  (forall src, (src, l) ∈ pending_gotos b -> MkEdge src L Unconditional ∈ g_edges (cfg b)) ->
  Walked ∅ [] [l] b
    (set_labels (<[l := L]> (label_table b)) (set_pending (filter (fun p => p.2 <> l) (pending_gotos b)) b)).
Proof.
  intros Hb HL Hm. split.
  - destruct Hb. split; try done; simpl.
    + intros l' t. destruct (decide (l' = l)) as [->|Hne].
      * rewrite lookup_insert_eq. by intros [= <-].
      * rewrite lookup_insert_ne by done. apply inv_labels0.
    + intros src l' [Hne Hin]%list_elem_of_filter. simpl in Hne.
      destruct (inv_pending0 src l' Hin). split; [done|]. by rewrite lookup_insert_ne.
  - destruct (step_refl ∅ b) as [[] ?]. by split; [split|].
  - by rewrite app_nil_r.
  - intros l' t Hl Hne. simpl. rewrite lookup_insert_ne; [done|]. intros ->. set_solver.
  - intros l'. simpl. rewrite lookup_insert_is_Some', list_elem_of_singleton. naive_solver.
  - intros _ Hnone src l' [Hin|(t & Ht & He)].
    + destruct (decide (l' = l)) as [->|Hne].
      * right. exists L. simpl. rewrite lookup_insert_eq. split; [done|by apply Hm].
      * left. simpl. by apply list_elem_of_filter.
    + right. exists t. simpl. split; [|done]. rewrite lookup_insert_ne; [done|]. intros ->.
      rewrite Hnone in Ht by set_solver. done.
Qed.

Lemma label_eq s l b c :
  Inv b -> current_block b = Some c ->
  walk_label_statement_hir s l b = Some (tt, declared s l c b) /\
  Walked ∅ [Stmt s] [l] b (declared s l c b) /\ same_stacks b (declared s l c b) /\
  current_block (declared s l c b) = Some (S (node_count b)) /\
  vertex (cfg (declared s l c b)) (node_count b) = Some (BasicBlock [s]) /\
  vertex (cfg (declared s l c b)) (S (node_count b)) = Some (BasicBlock []) /\
  label_table (declared s l c b) !! l = Some (node_count b) /\
  MkEdge c (node_count b) Unconditional ∈ g_edges (cfg (declared s l c b)) /\
  MkEdge (node_count b) (S (node_count b)) Unconditional ∈ g_edges (cfg (declared s l c b)).
Proof.
  intros Hb Hc. pose proof (current_lt b c Hb Hc) as Hlt.
  set (L := node_count b). set (b1 := push_vertex (BasicBlock []) b).
  pose proof (walked_push_vertex (BasicBlock []) b Hb) as W1. fold b1 in W1.
  pose proof (target_ok_new (BasicBlock []) b Hb) as HL. fold L b1 in HL.
  assert (Walked ∅ [] [] b1 (push_edge c L Unconditional b1)) as W2.
  { apply walked_push_edge; [apply W1|unfold b1; autorewrite with nodes; lia|done]. }
  set (b2 := push_edge c L Unconditional b1) in *.
  set (matched := filter (fun p => p.2 = l) (pending_gotos b2)).
  destruct (matched_edges_spec matched L b2) as (E3 & W3 & S3 & P3 & T3 & C3 & N3 & K3 & M3);
    [apply W2|by apply (target_ok_step ∅ b1 b2), HL; apply W2| |].
  { intros [src l'] [_ Hin]%list_elem_of_filter. by apply (inv_pending _ (wk_inv _ _ _ _ _ W2) src l'). }
  set (b3 := matched_edges matched L b2) in *.
  pose proof (target_ok_step _ _ _ _ (wk_step _ _ _ _ _ W3) (target_ok_step _ _ _ _ (wk_step _ _ _ _ _ W2) HL)) as HL3.
  assert (Walked ∅ [] [l] b3 (set_labels (<[l := L]> (label_table b3))
    (set_pending (filter (fun p => p.2 <> l) (pending_gotos b2)) b3))) as W4.
  { rewrite <- P3. apply walked_declare; [apply W3|done|]. intros src Hin. apply (M3 (src, l)).
    apply list_elem_of_filter. split; [done|]. by rewrite <- P3. }
  set (b4 := set_labels _ _) in W4.
  assert (vertex (cfg b4) L = Some (BasicBlock [])) as V4.
  { change (vertex (cfg b3) L = Some (BasicBlock [])). unfold vertex. rewrite N3. apply push_vertex_new. }
  assert (Walked {[L]} [] [] b4 (set_current (Some L) b4)) as W5 by (apply (walked_set_current L []); [apply W4|done]).
  set (b5 := set_current (Some L) b4) in *.
  pose proof (walked_push_stmt s b5 (wk_inv _ _ _ _ _ W5)) as W6. set (b6 := push_stmt s b5) in *.
  assert (node_count b6 = S L) as N6.
  { unfold b6. rewrite node_count_push_stmt. change (length (g_nodes (cfg b3)) = S L). rewrite N3.
    apply node_count_push. }
  pose proof (walked_push_vertex (BasicBlock []) b6 (wk_inv _ _ _ _ _ W6)) as W7.
  set (b7 := push_vertex (BasicBlock []) b6) in *.
  assert (Walked ∅ [] [] b7 (push_edge L (S L) Unconditional b7)) as W8.
  { apply walked_push_edge; [apply W7|unfold b7; autorewrite with nodes; lia|].
    rewrite <- N6. apply target_ok_new, W6. }
  set (b8 := push_edge L (S L) Unconditional b7) in *.
  assert (declared s l c b = set_current (Some (S L)) b8) as Ed.
  { unfold b8. rewrite <- N6. reflexivity. }
  assert (vertex (cfg b6) L = Some (BasicBlock [s])) as V6.
  { unfold b6. by rewrite (vertex_push_stmt s b5 L []). }
  pose proof (walked_seq_l ∅ [] [] _ _ _ W1 W2) as W12.
  pose proof (walked_seq_l ∅ [] [] _ _ _ W12 W3) as W13.
  pose proof (walked_seq_l ∅ [] [l] _ _ _ W13 W4) as W14.
  assert (Walked ∅ [] [l] b b5) as W15.
  { apply (walked_trans_r ∅ {[L]} [] [l] _ _ _ W14 W5). intros v Hv ->%elem_of_singleton. unfold L in Hv. lia. }
  pose proof (walked_seq ∅ [] [Stmt s] [l] [] _ _ _ W15 W6) as W16.
  pose proof (walked_seq_r ∅ [Stmt s] [l] _ _ _ W16 W7) as W17.
  pose proof (walked_seq_r ∅ [Stmt s] [l] _ _ _ W17 W8) as W18.
  rewrite Ed. split_and!.
  - unfold walk_label_statement_hir, new_block, vertex_new, mbind, M_bind. cbn [add_vertex].
    change (length (g_nodes (CfgBuilder.cfg b))) with L.
    change (set_cfg _ b) with b1. rewrite (on_current_eq _ b1 c) by done.
    rewrite edge_eq by (unfold b1; autorewrite with nodes; unfold L; lia). fold b2. unfold gets at 1.
    fold matched. rewrite E3. unfold modify. fold b3.
    change (label_table (set_pending _ b3)) with (label_table b3). fold b4 b5.
    rewrite add_current_eq. fold b6. change (length (g_nodes (CfgBuilder.cfg b6))) with (node_count b6).
    change (set_cfg _ b6) with b7. rewrite N6.
    rewrite edge_eq by (unfold b7; autorewrite with nodes; lia).
    done.
  - apply (walked_trans_r ∅ {[S L]} [Stmt s] [l] _ _ _ W18).
    + apply (walked_set_current (S L) []); [apply W18|]. unfold b8, b7. rewrite <- N6. apply push_vertex_new.
    + intros v Hv ->%elem_of_singleton. unfold L in Hv. lia.
  - unfold b8, b7, b6. destruct (push_stmt_stacks s b5) as [K1 K2]. destruct S3 as [S31 S32].
    split; [change (except_stack (push_stmt s b5) = except_stack b); rewrite K1; exact S31|].
    change (loop_stack (push_stmt s b5) = loop_stack b). rewrite K2. exact S32.
  - done.
  - change (vertex (cfg b7) L = Some (BasicBlock [s])). by apply push_vertex_old.
  - change (vertex (cfg b7) (S L) = Some (BasicBlock [])). unfold b7. rewrite <- N6. apply push_vertex_new.
  - change (label_table b6 !! l = Some L). unfold b6.
    destruct (push_stmt_fields s b5) as (_ & _ & _ & _ & _ & _ & -> & _). apply lookup_insert_eq.
  - change (MkEdge c L Unconditional ∈ g_edges (cfg b8)). apply (ext_edges _ _ _ (step_ext _ _ _ (wk_step _ _ _ _ _ W8))).
    apply (ext_edges _ _ _ (step_ext _ _ _ (wk_step _ _ _ _ _ W7))).
    apply (ext_edges _ _ _ (step_ext _ _ _ (wk_step _ _ _ _ _ W6))). apply K3. simpl. set_solver.
  - simpl. set_solver.
Qed.

(** *** Branches *)

(** A list of statements whose walk places [ps] and declares [ls]. *)
Definition walks (walk : StmtId -> M unit) (ss : list StmtId) (ps : list InitPoint) (ls : list Name) : Prop :=
  forall b, Inv b -> exists b', walk_all walk ss b = Some (tt, b') /\ Walked ∅ ps ls b b' /\ same_stacks b b'.

(** A fresh block behind an edge becomes the current one. *)
Definition branch_entry (from : NodeIndex) (k : CfgEdgeType) (b : CfgBuilder) : CfgBuilder :=
  set_current (Some (node_count b)) (push_edge from (node_count b) k (push_vertex (BasicBlock []) b)).

(** The current block falls through to [to]. *)
Definition link_end (to : NodeIndex) (b : CfgBuilder) : CfgBuilder :=
  match current_block b with Some c => push_edge c to (link_kind b c) b | None => b end.

Lemma walked_pushed_block from k b :
  Inv b -> (from < node_count b)%nat ->
  Walked ∅ [] [] b (push_edge from (node_count b) k (push_vertex (BasicBlock []) b)).
Proof.
  intros Hb Hf. pose proof (walked_push_vertex (BasicBlock []) b Hb) as W1.
  apply (walked_seq_l ∅ [] [] _ _ _ W1).
  apply walked_push_edge; [apply W1|autorewrite with nodes; lia|by apply target_ok_new].
Qed.

Lemma walked_branch_entry from k b :
  Inv b -> (from < node_count b)%nat -> Walked ∅ [] [] b (branch_entry from k b).
Proof.
  intros Hb Hf. apply walked_fresh_current; [by apply walked_pushed_block|lia|apply push_vertex_new].
Qed.

Lemma walked_link_end to b : Inv b -> target_ok b to -> Walked ∅ [] [] b (link_end to b).
Proof.
  intros Hb Ht. destruct (inv_current b Hb) as (c & ss & Hc & Hv). unfold link_end. rewrite Hc.
  apply walked_push_edge; [done|by apply vertex_lt in Hv|done].
Qed.

Lemma link_end_eq to b :
  Inv b -> target_ok b to -> on_current (fun exit => link_to exit to) b = Some (tt, link_end to b).
Proof.
  intros Hb Ht. destruct (inv_current b Hb) as (c & ss & Hc & Hv). unfold link_end. rewrite Hc.
  rewrite (on_current_eq _ _ c Hc). apply link_to_eq; [by apply vertex_lt in Hv|apply Ht].
Qed.

Lemma link_end_stacks to b : same_stacks b (link_end to b).
Proof. unfold link_end. by destruct (current_block b). Qed.

Lemma branch_ok walk from k merge ss ps ls b :
  Inv b -> (from < node_count b)%nat -> target_ok b merge -> walks walk ss ps ls ->
  exists b2, walk_all walk ss (branch_entry from k b) = Some (tt, b2) /\
    Walked ∅ ps ls (branch_entry from k b) b2 /\ same_stacks (branch_entry from k b) b2 /\
    walk_branch walk from k merge ss b = Some (tt, link_end merge b2) /\
    Walked ∅ ps ls b (link_end merge b2) /\ same_stacks b (link_end merge b2).
Proof.
  intros Hb Hf Hm Hw. pose proof (walked_branch_entry from k b Hb Hf) as W1.
  destruct (Hw (branch_entry from k b)) as (b2 & E & W2 & S2); [apply W1|].
  assert (target_ok b2 merge) as Hm2 by (eapply target_ok_step; [apply W2|]; eapply target_ok_step; [apply W1|done]).
  pose proof (walked_link_end merge b2 (wk_inv _ _ _ _ _ W2) Hm2) as W3.
  exists b2. split_and!; [done..| | |].
  - unfold walk_branch, new_block, vertex_new, mbind, M_bind. cbn [add_vertex].
    change (length (g_nodes (CfgBuilder.cfg b))) with (node_count b).
    change (set_cfg _ b) with (push_vertex (BasicBlock []) b).
    rewrite edge_eq by (autorewrite with nodes; lia). unfold modify. fold (branch_entry from k b).
    rewrite E. by apply link_end_eq; [apply W2|].
  - apply (walked_seq_l ∅ _ _ _ _ _ W1).
    apply (walked_seq_r ∅ _ _ _ _ _ W2 W3).
  - apply (same_stacks_trans _ b2); [done|apply link_end_stacks].
Qed.

(** *** Loops *)

Definition loop_entry (s : StmtId) (header : CfgVertex) (c : NodeIndex) (b : CfgBuilder) : CfgBuilder :=
  let h := node_count b in
  let b := push_vertex_with_origin header s b in
  let b := push_edge c h (link_kind b c) b in
  let b := push_edge h (S h) TrueBranch (push_vertex (BasicBlock []) b) in
  let b := push_vertex (BasicBlock []) b in
  set_current (Some (S h)) (set_loops (MkFrame h (S (S h)) :: loop_stack b) b).

(** Back to the header, when anything enters the end of the body, and on behind the loop. *)
Definition loop_back (h : NodeIndex) (b : CfgBuilder) : CfgBuilder :=
  match current_block b with
  | Some c => if is_block_reachable (cfg b) c then push_edge c h Unconditional b else b
  | None => b
  end.

Definition loop_end (h : NodeIndex) (b : CfgBuilder) : CfgBuilder :=
  let b := set_loops (tail (loop_stack b)) b in
  set_current (Some (S (S h))) (push_edge h (S (S h)) FalseBranch (loop_back h b)).

Lemma Inv_set_loops b s :
  Inv b -> (forall f, f ∈ s -> target_ok b (f_header f) /\ target_ok b (f_exit f)) -> Inv (set_loops s b).
Proof. intros [] Hs. by split. Qed.

Lemma walked_set_loops b s :
  Inv b -> (forall f, f ∈ s -> target_ok b (f_header f) /\ target_ok b (f_exit f)) ->
  Walked ∅ [] [] b (set_loops s b).
Proof.
  intros Hb Hs. apply walked_plain; [by apply Inv_set_loops| |by rewrite app_nil_r|done..].
  destruct (step_refl ∅ b) as [[] ?]. by split; [split|].
Qed.

Lemma loop_back_spec h b :
  Inv b -> target_ok b h ->
  Walked ∅ [] [] b (loop_back h b) /\ same_stacks b (loop_back h b) /\
  g_nodes (cfg (loop_back h b)) = g_nodes (cfg b) /\
  on_current (fun exit =>
    reachable ← gets (fun b => is_block_reachable (cfg b) exit);
    if (reachable : bool) then edge exit h Unconditional else mret tt) b = Some (tt, loop_back h b).
Proof.
  intros Hb Hh. destruct (inv_current b Hb) as (c & ss & Hc & Hv). apply vertex_lt in Hv.
  unfold loop_back. rewrite Hc, (on_current_eq _ _ c Hc). unfold mbind, M_bind, gets.
  destruct (is_block_reachable (cfg b) c).
  - split_and!; [by apply walked_push_edge|done..|]. apply edge_eq; [done|apply Hh].
  - split_and!; [by apply walked_refl|done..].
Qed.

Lemma target_ok_walked R ps ls b b' t : Walked R ps ls b b' -> target_ok b t -> target_ok b' t.
Proof. intros Hw. apply (target_ok_step R b b'), Hw. Qed.

Lemma node_count_walked R ps ls b b' : Walked R ps ls b b' -> (node_count b <= node_count b')%nat.
Proof. intros Hw. apply (node_count_step R b b'), Hw. Qed.

(** The state in which the body of a loop is walked. *)
Lemma loop_entry_spec s hd b c :
  Inv b -> current_block b = Some c ->
  Walked ∅ (kind_points hd) [] b (loop_entry s hd c b) /\
  node_count (loop_entry s hd c b) = S (S (S (node_count b))) /\
  target_ok (loop_entry s hd c b) (node_count b) /\
  target_ok (loop_entry s hd c b) (S (S (node_count b))) /\
  vertex (cfg (loop_entry s hd c b)) (node_count b) = Some hd /\
  vertex (cfg (loop_entry s hd c b)) (S (node_count b)) = Some (BasicBlock []) /\
  vertex (cfg (loop_entry s hd c b)) (S (S (node_count b))) = Some (BasicBlock []).
Proof.
  intros Hb Hc. pose proof (current_lt b c Hb Hc) as Hlt. unfold loop_entry. cbv zeta.
  set (h := node_count b).
  pose proof (walked_push_origin hd s b Hb) as W1. set (b1 := push_vertex_with_origin hd s b) in *.
  assert (node_count b1 = S h) as N1 by apply node_count_origin.
  assert (target_ok b1 h) as T1.
  { destruct (target_ok_new hd b Hb) as [? Ht]. split; [rewrite N1; lia|exact Ht]. }
  assert (Walked ∅ [] [] b1 (push_edge c h (link_kind b1 c) b1)) as W2.
  { apply walked_push_edge; [apply W1|rewrite N1; unfold h; lia|done]. }
  set (b2 := push_edge c h (link_kind b1 c) b1) in *. assert (node_count b2 = S h) as N2 by exact N1.
  pose proof (walked_pushed_block h TrueBranch b2 (wk_inv _ _ _ _ _ W2) ltac:(lia)) as W3. rewrite N2 in W3.
  set (b3 := push_edge h (S h) TrueBranch (push_vertex (BasicBlock []) b2)) in *.
  assert (node_count b3 = S (S h)) as N3 by (unfold b3; autorewrite with nodes; lia).
  pose proof (walked_push_vertex (BasicBlock []) b3 (wk_inv _ _ _ _ _ W3)) as W4.
  set (b4 := push_vertex (BasicBlock []) b3) in *.
  pose proof (walked_seq_r _ _ _ _ _ _ W1 W2) as W12.
  pose proof (walked_seq_r _ _ _ _ _ _ W12 W3) as W13.
  pose proof (walked_seq_r _ _ _ _ _ _ W13 W4) as W14.
  assert (target_ok b4 h) as Th.
  { eapply target_ok_walked; [exact W4|]. eapply target_ok_walked; [exact W3|].
    by eapply target_ok_walked; [exact W2|]. }
  assert (target_ok b4 (S (S h))) as Ta by (rewrite <- N3; apply target_ok_new, W3).
  assert (Walked ∅ [] [] b4 (set_loops (MkFrame h (S (S h)) :: loop_stack b4) b4)) as W5.
  { apply walked_set_loops; [apply W4|]. intros f [->|Hf]%elem_of_cons; [done|].
    by apply (inv_loops _ (wk_inv _ _ _ _ _ W4)). }
  set (b5 := set_loops _ b4) in *. pose proof (walked_seq_r _ _ _ _ _ _ W14 W5) as W15.
  assert (vertex (cfg b5) (S h) = Some (BasicBlock [])) as Vb.
  { apply push_vertex_old. change (vertex (cfg (push_vertex (BasicBlock []) b2)) (S h) = Some (BasicBlock [])).
    rewrite <- N2. apply push_vertex_new. }
  split_and!; [|unfold b5, b4; autorewrite with nodes; lia|exact Th|exact Ta| |exact Vb|].
  - apply (walked_trans_r ∅ {[S h]} _ _ _ _ _ W15).
    + apply (walked_set_current (S h) []); [apply W5|done].
    + intros v Hv ->%elem_of_singleton. unfold h in Hv. lia.
  - change (vertex (cfg b4) h = Some hd). apply push_vertex_old.
    change (vertex (cfg (push_vertex (BasicBlock []) b2)) h = Some hd). apply push_vertex_old.
    apply (push_vertex_new hd b).
  - change (vertex (cfg b4) (S (S h)) = Some (BasicBlock [])). rewrite <- N3. apply push_vertex_new.
Qed.

(** The end of a loop: the header and the block behind it are those of the entry. *)
Lemma loop_end_spec h b :
  Inv b -> target_ok b h -> target_ok b (S (S h)) ->
  vertex (cfg b) (S (S h)) = Some (BasicBlock []) ->
  Walked {[S (S h)]} [] [] b (loop_end h b) /\
  except_stack (loop_end h b) = except_stack b /\ loop_stack (loop_end h b) = tail (loop_stack b) /\
  vertex (cfg (loop_end h b)) (S (S h)) = Some (BasicBlock []) /\
  MkEdge h (S (S h)) FalseBranch ∈ g_edges (cfg (loop_end h b)).
Proof.
  intros Hb Hh Ha Hv. unfold loop_end. cbv zeta.
  assert (Walked ∅ [] [] b (set_loops (tail (loop_stack b)) b)) as W1.
  { apply walked_set_loops; [done|]. intros f Hf. apply (inv_loops b Hb).
    destruct (loop_stack b); [done|]. by apply list_elem_of_further. }
  set (b1 := set_loops (tail (loop_stack b)) b) in *.
  destruct (loop_back_spec h b1 (wk_inv _ _ _ _ _ W1) Hh) as (W2 & [S21 S22] & N2 & _).
  set (b2 := loop_back h b1) in *.
  pose proof (target_ok_walked _ _ _ _ _ _ W2 Hh) as Hh2.
  assert (Walked ∅ [] [] b2 (push_edge h (S (S h)) FalseBranch b2)) as W3.
  { apply walked_push_edge; [apply W2|apply Hh2|by eapply target_ok_walked]. }
  set (b3 := push_edge h (S (S h)) FalseBranch b2) in *.
  assert (vertex (cfg b3) (S (S h)) = Some (BasicBlock [])) as V3.
  { change (vertex (cfg b2) (S (S h)) = Some (BasicBlock [])). unfold vertex. by rewrite N2. }
  pose proof (walked_seq_r _ _ _ _ _ _ (walked_seq_r _ _ _ _ _ _ W1 W2) W3) as W13.
  split_and!; [|exact S21|exact S22|exact V3|simpl; set_solver].
  apply (walked_trans_r {[S (S h)]} {[S (S h)]} [] [] b b3).
  - by apply (walked_weaken ∅); [set_solver|].
  - apply (walked_set_current (S (S h)) []); [apply W3|done].
  - tauto.
Qed.

Lemma loop_ok walk s hd ss ps ls b c :
  Inv b -> current_block b = Some c -> walks walk ss ps ls ->
  exists b2, walk_all walk ss (loop_entry s hd c b) = Some (tt, b2) /\
    Walked ∅ ps ls (loop_entry s hd c b) b2 /\ same_stacks (loop_entry s hd c b) b2 /\
    target_ok b2 (node_count b) /\ target_ok b2 (S (S (node_count b))) /\
    vertex (cfg b2) (S (S (node_count b))) = Some (BasicBlock []) /\
    walk_loop walk s hd ss b = Some (tt, loop_end (node_count b) b2) /\
    Walked ∅ (kind_points hd ++ ps) ls b (loop_end (node_count b) b2) /\
    same_stacks b (loop_end (node_count b) b2).
Proof.
  intros Hb Hc Hw. destruct (loop_entry_spec s hd b c Hb Hc) as (W1 & N1 & Th & Ta & Vh & Vb & Va).
  pose proof (current_lt b c Hb Hc) as Hlt. set (h := node_count b) in *.
  destruct (Hw (loop_entry s hd c b)) as (b2 & E & W2 & S2); [apply W1|].
  pose proof (target_ok_walked _ _ _ _ _ _ W2 Th) as Th2.
  pose proof (target_ok_walked _ _ _ _ _ _ W2 Ta) as Ta2.
  assert (vertex (cfg b2) (S (S h)) = Some (BasicBlock [])) as Va2.
  { apply (ext_closed _ _ _ (step_ext _ _ _ (wk_step _ _ _ _ _ W2))); [done| |set_solver].
    intros [= Eh]. unfold h in Eh. lia. }
  destruct (loop_end_spec h b2 (wk_inv _ _ _ _ _ W2) Th2 Ta2 Va2) as (W3 & Ex3 & El3 & Va3 & _).
  exists b2. split_and!; [done..| | |].
  - unfold walk_loop. bind_step (origin_eq hd s b). fold h.
    bind_step (link_current_eq c h (push_vertex_with_origin hd s b)); [|done|autorewrite with nodes; lia..].
    set (b1 := push_edge c h _ _). assert (node_count b1 = S h) as N by apply node_count_origin.
    bind_step (new_block_eq b1). rewrite N.
    bind_step (edge_eq h (S h) TrueBranch (push_vertex (BasicBlock []) b1)); [|autorewrite with nodes; lia..].
    set (b3 := push_edge h (S h) TrueBranch _).
    assert (node_count b3 = S (S h)) as N3 by (unfold b3; autorewrite with nodes; lia).
    bind_step (new_block_eq b3). rewrite N3.
    do 2 bind_step @modify_eq. bind_step E. bind_step @modify_eq.
    set (b4 := set_loops (tail (loop_stack b2)) b2).
    assert (Walked ∅ [] [] b2 b4) as W4.
    { apply walked_set_loops; [apply W2|]. intros f Hf. apply (inv_loops b2 (wk_inv _ _ _ _ _ W2)).
      destruct (loop_stack b2); [done|]. by apply list_elem_of_further. }
    destruct (loop_back_spec h b4 (wk_inv _ _ _ _ _ W4) Th2) as (W5 & _ & _ & E5).
    bind_step E5. pose proof (target_ok_walked _ _ _ _ _ _ W5 Th2) as [Th5 _].
    pose proof (target_ok_walked _ _ _ _ _ _ W5 Ta2) as [Ta5 _].
    bind_step (edge_eq h (S (S h)) FalseBranch (loop_back h b4)); done.
  - apply (walked_trans_r ∅ {[S (S h)]} _ _ _ b2); [by apply (walked_seq _ _ _ [] ls _ _ _ W1)|done|].
    intros v Hv ->%elem_of_singleton. unfold h in Hv. lia.
  - destruct S2 as [S21 S22]. split; [by rewrite Ex3, S21|by rewrite El3, S22].
Qed.

(** *** Conditionals *)

Section walk.
Context (walk : StmtId -> M unit) (P : StmtId -> list InitPoint) (L : StmtId -> list Name).

(** The statement [s] is walked, placing [P s] and declaring [L s]. *)
Definition walked_stmt (s : StmtId) : Prop :=
  forall b, Inv b -> exists b', walk s b = Some (tt, b') /\ Walked ∅ (P s) (L s) b b' /\ same_stacks b b'.

Lemma walk_all_ok ss : Forall walked_stmt ss -> walks walk ss (ss ≫= P) (ss ≫= L).
Proof.
  induction 1 as [|s ss Hs _ IH]; intros b Hb; [exists b; split_and!; [done|by apply walked_refl|done]|].
  destruct (Hs b Hb) as (b1 & E1 & W1 & S1). destruct (IH b1 (wk_inv _ _ _ _ _ W1)) as (b2 & E2 & W2 & S2).
  exists b2. split_and!; [|by apply (walked_seq _ _ _ _ _ _ _ _ W1)|by apply (same_stacks_trans _ b1)].
  cbn [walk_all]. by bind_step E1.
Qed.

Definition branch_points (br : ExprId * list StmtId) : list InitPoint := Header br.1 :: (br.2 ≫= P).
Definition branch_labels (br : ExprId * list StmtId) : list Name := br.2 ≫= L.

(** A further condition: its vertex with the edge into it. *)
Definition condition_entry (v : CfgVertex) (s : StmtId) (from : NodeIndex) (b : CfgBuilder) : CfgBuilder :=
  push_edge from (node_count b) FalseBranch (push_vertex_with_origin v s b).

Lemma walked_condition_entry v s from b :
  Inv b -> (from < node_count b)%nat -> Walked ∅ (kind_points v) [] b (condition_entry v s from b).
Proof.
  intros Hb Hf. pose proof (walked_push_origin v s b Hb) as W1.
  apply (walked_seq_r _ _ _ _ _ _ W1). apply walked_push_edge; [apply W1|autorewrite with nodes; lia|].
  destruct (target_ok_new v b Hb) as [? Ht]. split; [autorewrite with nodes; lia|exact Ht].
Qed.

Lemma elsifs_ok s merge branches cond b :
  Inv b -> (cond < node_count b)%nat -> target_ok b merge ->
  Forall (fun br => Forall walked_stmt br.2) branches ->
  exists last b', walk_elsifs walk s merge branches cond b = Some (last, b') /\
    (last < node_count b')%nat /\
    Walked ∅ (branches ≫= branch_points) (branches ≫= branch_labels) b b' /\ same_stacks b b'.
Proof.
  intros Hb Hc Hm Hbr. revert cond b Hb Hc Hm. induction Hbr as [|[e ss] branches Hss _ IH]; intros cond b Hb Hc Hm.
  { exists cond, b. split_and!; [done|done|by apply walked_refl|done]. }
  pose proof (walked_condition_entry (Conditional e) s cond b Hb Hc) as W1.
  set (b1 := condition_entry (Conditional e) s cond b) in *.
  assert (node_count b1 = S (node_count b)) as N1 by (unfold b1, condition_entry; autorewrite with nodes; lia).
  pose proof (target_ok_walked _ _ _ _ _ _ W1 Hm) as Hm1.
  destruct (branch_ok walk (node_count b) TrueBranch merge ss _ _ b1 (wk_inv _ _ _ _ _ W1) ltac:(lia) Hm1
    (walk_all_ok ss Hss)) as (b2 & _ & _ & _ & E2 & W2 & S2).
  set (b3 := link_end merge b2) in *.
  destruct (IH (node_count b) b3 (wk_inv _ _ _ _ _ W2)) as (last & b4 & E4 & Hl4 & W4 & S4).
  - pose proof (node_count_walked _ _ _ _ _ W2). lia.
  - by eapply target_ok_walked.
  - exists last, b4. split_and!; [|done| |].
    + cbn [walk_elsifs]. bind_step (origin_eq (Conditional e) s b).
      bind_step (edge_eq cond (node_count b) FalseBranch (push_vertex_with_origin (Conditional e) s b));
        [|autorewrite with nodes; lia..].
      by bind_step E2.
    + cbn [mbind list_bind].
      apply (walked_seq _ [Header e] _ [] _ _ _ _ W1).
      by apply (walked_seq _ _ _ _ _ _ _ _ W2).
    + apply (same_stacks_trans _ b3); [|done]. by apply (same_stacks_trans _ b1).
Qed.

(** Into a construct: its first vertex with the edge from the current block, and a merge block. *)
Definition construct_entry (v : CfgBuilder -> CfgBuilder) (c : NodeIndex) (b : CfgBuilder) : CfgBuilder :=
  push_vertex (BasicBlock []) (push_edge c (node_count b) Unconditional (v b)).

Definition else_points (o : option (list StmtId)) : list InitPoint :=
  match o with Some ss => ss ≫= P | None => [] end.
Definition else_labels (o : option (list StmtId)) : list Name :=
  match o with Some ss => ss ≫= L | None => [] end.

Definition if_points (i : Hir.IfStmt) : list InitPoint :=
  Header (Hir.condition i) :: (Hir.then_branch i ≫= P) ++ (Hir.elsif_branches i ≫= branch_points) ++
    else_points (Hir.else_branch i).
Definition if_labels (i : Hir.IfStmt) : list Name :=
  (Hir.then_branch i ≫= L) ++ (Hir.elsif_branches i ≫= branch_labels) ++ else_labels (Hir.else_branch i).

(** The last part of a conditional: the merge block becomes the current one. *)
Lemma walked_merge ps ls b b' merge :
  Walked ∅ ps ls b b' -> (node_count b <= merge)%nat -> vertex (cfg b') merge = Some (BasicBlock []) ->
  Walked ∅ ps ls b (set_current (Some merge) b').
Proof.
  intros Hw Hm Hv. apply (walked_trans_r ∅ {[merge]} _ _ _ _ _ Hw).
  - apply (walked_set_current merge []); [apply Hw|done].
  - intros v Hlt ->%elem_of_singleton. lia.
Qed.

(** A vertex that is not the current block stays as it is over a walk. *)
Lemma frozen ps ls b b' v x :
  Walked ∅ ps ls b b' -> vertex (cfg b) v = Some x -> current_block b <> Some v ->
  vertex (cfg b') v = Some x /\ current_block b' <> Some v.
Proof.
  intros Hw Hv Hc. pose proof (wk_step _ _ _ _ _ Hw) as [He Hcur]. split.
  - apply (ext_closed _ _ _ He); [done..|apply not_elem_of_empty].
  - intros Hc'. apply vertex_lt in Hv. destruct (Hcur v Hc') as [?|[[]%not_elem_of_empty|?]]; [done|lia].
Qed.

Lemma if_ok s i b :
  Inv b -> Forall (walked_stmt) (Hir.then_branch i) ->
  Forall (fun br => Forall walked_stmt br.2) (Hir.elsif_branches i) ->
  (forall ss, Hir.else_branch i = Some ss -> Forall walked_stmt ss) ->
  exists b', walk_if_statement_hir walk s i b = Some (tt, b') /\
    Walked ∅ (if_points i) (if_labels i) b b' /\ same_stacks b b'.
Proof.
  intros Hb Hthen Helsif Helse. destruct (inv_current b Hb) as (c & cs & Hc & Hcv).
  pose proof (vertex_lt _ _ _ Hcv) as Hlt. set (h := node_count b).
  pose proof (walked_push_origin (Conditional (Hir.condition i)) s b Hb) as W1.
  set (b1 := push_vertex_with_origin (Conditional (Hir.condition i)) s b) in *.
  assert (node_count b1 = S h) as N1 by apply node_count_origin.
  assert (target_ok b1 h) as T1.
  { destruct (target_ok_new (Conditional (Hir.condition i)) b Hb) as [? Ht]. split; [rewrite N1; lia|exact Ht]. }
  pose proof (walked_push_edge c h Unconditional b1 (wk_inv _ _ _ _ _ W1) ltac:(lia) T1) as W2.
  set (b2 := push_edge c h Unconditional b1) in *.
  pose proof (walked_push_vertex (BasicBlock []) b2 (wk_inv _ _ _ _ _ W2)) as W3.
  pose proof (target_ok_new (BasicBlock []) b2 (wk_inv _ _ _ _ _ W2)) as Tm.
  pose proof (push_vertex_new (BasicBlock []) b2) as Vm.
  assert (node_count b2 = S h) as N2 by exact N1. rewrite N2 in Tm, Vm.
  set (b3 := push_vertex (BasicBlock []) b2) in *.
  assert (node_count b3 = S (S h)) as N3 by (unfold b3; rewrite node_count_push; lia).
  pose proof (walked_seq_r _ _ _ _ _ _ (walked_seq_r _ _ _ _ _ _ W1 W2) W3) as W13.
  destruct (branch_ok walk h TrueBranch (S h) (Hir.then_branch i) _ _ b3 (wk_inv _ _ _ _ _ W3) ltac:(lia) Tm
    (walk_all_ok _ Hthen)) as (b4 & _ & _ & _ & E4 & W4 & S4).
  destruct (frozen _ _ _ _ _ _ W4 Vm) as [Vm5 Cm5].
  { change (current_block b3) with (current_block b). rewrite Hc. intros [= ->]. unfold h in *. lia. }
  set (b5 := link_end (S h) b4) in *.
  pose proof (target_ok_walked _ _ _ _ _ _ W4 Tm) as Tm5.
  assert (h < node_count b5)%nat as Hh5 by (pose proof (node_count_walked _ _ _ _ _ W4); lia).
  destruct (elsifs_ok s (S h) (Hir.elsif_branches i) h b5 (wk_inv _ _ _ _ _ W4) Hh5 Tm5 Helsif)
    as (last & b6 & E6 & Hl6 & W6 & S6).
  pose proof (target_ok_walked _ _ _ _ _ _ W6 Tm5) as Tm6.
  assert (exists b7, (match Hir.else_branch i with
      | Some stmts => walk_branch walk last FalseBranch (S h) stmts
      | None => edge last (S h) FalseBranch
      end) b6 = Some (tt, b7) /\
    Walked ∅ (else_points (Hir.else_branch i)) (else_labels (Hir.else_branch i)) b6 b7 /\
    same_stacks b6 b7) as (b7 & E7 & W7 & S7).
  { destruct (Hir.else_branch i) as [ss|] eqn:Ee.
    - destruct (branch_ok walk last FalseBranch (S h) ss _ _ b6 (wk_inv _ _ _ _ _ W6) Hl6 Tm6
        (walk_all_ok _ (Helse ss eq_refl))) as (b7 & _ & _ & _ & E7 & W7 & S7). by exists (link_end (S h) b7).
    - exists (push_edge last (S h) FalseBranch b6).
      split_and!; [apply edge_eq; [done|apply Tm6]|apply walked_push_edge; [apply W6|done..]|done]. }
  destruct (frozen _ _ _ _ _ _ W6 Vm5 Cm5) as [Vm6 Cm6].
  destruct (frozen _ _ _ _ _ _ W7 Vm6 Cm6) as [Vm7 _].
  exists (set_current (Some (S h)) b7). split_and!.
  - unfold walk_if_statement_hir. bind_step (origin_eq (Conditional (Hir.condition i)) s b). fold h b1.
    bind_step (edge_current_eq c h Unconditional b1); [|done|lia..]. fold b2.
    bind_step (new_block_eq b2). rewrite N2. bind_step E4. bind_step E6. bind_step E7. done.
  - apply walked_merge; [|unfold h; lia|done].
    apply (walked_seq _ [Header (Hir.condition i)] _ [] _ _ _ _ W13).
    apply (walked_seq _ _ _ _ _ _ _ _ W4). by apply (walked_seq _ _ _ _ _ _ _ _ W6).
  - apply (same_stacks_trans _ b5); [done|]. apply (same_stacks_trans _ b6); [done|exact S7].
Qed.

(** *** Preprocessor conditionals *)

(** The ranges the builder expects are there. *)
Lemma branches_ranges p br j :
  br ∈ Hir.branches p -> Hir.kind br = Hir.ElsIf j ->
  is_Some (Hir.branch_condition_range br) /\ is_Some (Hir.branch_directive_range br).
Proof.
  unfold Hir.branches. rewrite !elem_of_app. intros [->%list_elem_of_singleton|[Hin|Hin]]; [done| |].
  - apply elem_of_lookup_imap in Hin as (i & [[r1 r2] ss] & -> & _). by split; eexists.
  - destruct (Hir.pre_else_branch p); [|by apply elem_of_nil in Hin].
    by apply list_elem_of_singleton in Hin as ->.
Qed.

Definition pre_points (bs : list Hir.HirPreBranch) : list InitPoint := bs ≫= fun br => Hir.branch_stmts br ≫= P.
Definition pre_labels (bs : list Hir.HirPreBranch) : list Name := bs ≫= fun br => Hir.branch_stmts br ≫= L.

Lemma pre_branches_ok h m bs cond saw b :
  Inv b -> (h < node_count b)%nat -> (cond < node_count b)%nat -> target_ok b m ->
  Forall (fun br => Forall walked_stmt (Hir.branch_stmts br) /\
    forall j, Hir.kind br = Hir.ElsIf j ->
      is_Some (Hir.branch_condition_range br) /\ is_Some (Hir.branch_directive_range br)) bs ->
  exists last saw' b', walk_pre_branches walk h m bs cond saw b = Some ((last, saw'), b') /\
    (last < node_count b')%nat /\ Walked ∅ (pre_points bs) (pre_labels bs) b b' /\ same_stacks b b'.
Proof.
  intros Hb Hh Hc Hm Hbs. revert cond saw b Hb Hh Hc Hm.
  induction Hbs as [|br bs [Hss Hr] _ IH]; intros cond saw b Hb Hh Hc Hm.
  { exists cond, saw, b. split_and!; [done|done|by apply walked_refl|done]. }
  assert (forall b0 from k cond' saw', Walked ∅ [] [] b b0 -> same_stacks b b0 ->
    (from < node_count b0)%nat -> (cond' < node_count b0)%nat ->
    exists last saw'' b', (walk_branch walk from k m (Hir.branch_stmts br);;
      walk_pre_branches walk h m bs cond' saw') b0 = Some ((last, saw''), b') /\
    (last < node_count b')%nat /\ Walked ∅ (pre_points (br :: bs)) (pre_labels (br :: bs)) b b' /\
    same_stacks b b') as Hgo.
  { intros b0 from k cond' saw' W0 S0 Hf Hc'. pose proof (node_count_walked _ _ _ _ _ W0).
    destruct (branch_ok walk from k m (Hir.branch_stmts br) _ _ b0 (wk_inv _ _ _ _ _ W0) Hf
      (target_ok_walked _ _ _ _ _ _ W0 Hm) (walk_all_ok _ Hss)) as (b2 & _ & _ & _ & E2 & W2 & S2).
    set (b3 := link_end m b2) in *. pose proof (node_count_walked _ _ _ _ _ W2).
    pose proof (walked_seq_l _ _ _ _ _ _ W0 W2) as W02.
    destruct (IH cond' saw' b3 (wk_inv _ _ _ _ _ W2)) as (last & saw'' & b4 & E4 & Hl & W4 & S4);
      [lia|lia|by eapply target_ok_walked|].
    exists last, saw'', b4. split_and!; [|done| |].
    - by bind_step E2.
    - by apply (walked_seq _ _ _ _ _ _ _ _ W02).
    - apply (same_stacks_trans _ b0); [done|]. by apply (same_stacks_trans _ b3). }
  cbn [walk_pre_branches]. destruct (Hir.kind br) as [|j|] eqn:Ek.
  - apply Hgo; [by apply walked_refl|done..].
  - destruct (Hr j eq_refl) as [[r1 E1] [r2 E2]]. rewrite E1, E2.
    set (v := PreprocCondition r1 (Some r2) None).
    pose proof (walked_push_vertex v b Hb) as W1.
    assert (node_count (push_vertex v b) = S (node_count b)) as N1 by apply node_count_push.
    pose proof (walked_push_edge cond (node_count b) FalseBranch (push_vertex v b) (wk_inv _ _ _ _ _ W1)
      ltac:(lia) (target_ok_new v b Hb)) as W2.
    destruct (Hgo (push_edge cond (node_count b) FalseBranch (push_vertex v b)) (node_count b) TrueBranch
      (node_count b) saw) as (last & saw' & b' & E' & H');
      [exact (walked_seq_l _ _ _ _ _ _ W1 W2)|done|rewrite node_count_edge; lia..|].
    exists last, saw', b'. split; [|exact H'].
    erewrite bind_eq; [|reflexivity]. erewrite bind_eq; [|reflexivity].
    bind_step (vertex_new_eq v b).
    bind_step (edge_eq cond (node_count b) FalseBranch (push_vertex v b)); [exact E'|lia..].
  - apply Hgo; [by apply walked_refl|done..].
Qed.

Lemma pre_if_ok p b :
  Inv b -> Forall (fun br => Forall walked_stmt (Hir.branch_stmts br)) (Hir.branches p) ->
  exists b', walk_preproc_if_statement_hir walk p b = Some (tt, b') /\
    Walked ∅ (pre_points (Hir.branches p)) (pre_labels (Hir.branches p)) b b' /\ same_stacks b b'.
Proof.
  intros Hb Hbs. destruct (inv_current b Hb) as (c & cs & Hc & Hcv).
  pose proof (vertex_lt _ _ _ Hcv) as Hlt. set (h := node_count b).
  set (v := PreprocCondition (Hir.condition_range p) (Some (Hir.directive_range p)) (Some (Hir.full_range p))).
  pose proof (walked_push_vertex v b Hb) as W1. pose proof (target_ok_new v b Hb) as T1.
  set (b1 := push_vertex v b) in *. fold h in T1.
  assert (node_count b1 = S h) as N1 by apply node_count_push.
  pose proof (walked_push_edge c h Unconditional b1 (wk_inv _ _ _ _ _ W1) ltac:(lia) T1) as W2.
  set (b2 := push_edge c h Unconditional b1) in *. assert (node_count b2 = S h) as N2 by exact N1.
  pose proof (walked_push_vertex (BasicBlock []) b2 (wk_inv _ _ _ _ _ W2)) as W3.
  pose proof (target_ok_new (BasicBlock []) b2 (wk_inv _ _ _ _ _ W2)) as Tm.
  pose proof (push_vertex_new (BasicBlock []) b2) as Vm. rewrite N2 in Tm, Vm.
  set (b3 := push_vertex (BasicBlock []) b2) in *.
  assert (node_count b3 = S (S h)) as N3 by (unfold b3; rewrite node_count_push; lia).
  pose proof (walked_seq_r _ _ _ _ _ _ (walked_seq_r _ _ _ _ _ _ W1 W2) W3) as W13.
  destruct (pre_branches_ok h (S h) (Hir.branches p) h false b3 (wk_inv _ _ _ _ _ W3))
    as (last & saw & b4 & E4 & Hl4 & W4 & S4); [lia|lia|done| |].
  { rewrite Forall_forall in Hbs |- *. intros br Hbr. split; [by apply Hbs|].
    intros j Hk. by apply (branches_ranges p br j). }
  destruct (frozen _ _ _ _ _ _ W4 Vm) as [Vm4 Cm4].
  { change (current_block b3) with (current_block b). rewrite Hc. intros [= ->]. unfold h in *. lia. }
  pose proof (target_ok_walked _ _ _ _ _ _ W4 Tm) as Tm4.
  set (b5 := if saw then b4 else push_edge last (S h) FalseBranch b4).
  assert (Walked ∅ [] [] b4 b5) as W5.
  { unfold b5. destruct saw; [apply walked_refl, W4|apply walked_push_edge; [apply W4|done..]]. }
  assert (vertex (cfg b5) (S h) = Some (BasicBlock [])) as Vm5 by (unfold b5; by destruct saw).
  exists (set_current (Some (S h)) b5). split_and!.
  - unfold walk_preproc_if_statement_hir. bind_step (vertex_new_eq v b). fold h b1.
    bind_step (edge_current_eq c h Unconditional b1); [|done|lia..]. fold b2.
    bind_step (new_block_eq b2). rewrite N2. bind_step E4. cbv iota.
    erewrite (bind_eq _ _ _ tt b5); [done|]. unfold b5. destruct saw; [done|]. apply edge_eq; [done|apply Tm4].
  - apply walked_merge; [|unfold h; lia|done].
    apply (walked_seq_r _ _ _ _ b4); [|done]. by apply (walked_seq_l _ _ _ _ _ _ W13).
  - destruct S4 as [S41 S42]. unfold b5. destruct saw; split; done.
Qed.

(** *** Tries *)

Definition try_entry (s : StmtId) (c : NodeIndex) (b : CfgBuilder) : CfgBuilder :=
  let t := node_count b in
  let b := push_edge c t Unconditional (push_vertex_with_origin TryVertex s b) in
  let b := push_edge t (S t) Unconditional (push_vertex (BasicBlock []) b) in
  let b := push_edge t (S (S t)) Exception (push_vertex (BasicBlock []) b) in
  set_current (Some (S t)) (set_except (S (S t) :: except_stack b) b).

(** From the protected statements to the handler. *)
Definition try_handler (t : NodeIndex) (b : CfgBuilder) : CfgBuilder :=
  set_current (Some (S (S t))) (set_except (tail (except_stack b)) b).

(** Both ends fall through to a merge block. *)
Definition try_end (c1 c2 : NodeIndex) (b : CfgBuilder) : CfgBuilder :=
  let m := node_count b in
  let b := push_vertex (BasicBlock []) b in
  let b := push_edge c1 m (link_kind b c1) b in
  let b := push_edge c2 m (link_kind b c2) b in
  set_current (Some m) b.

Lemma walked_set_except b s :
  Inv b -> (forall t, t ∈ s -> target_ok b t) -> Walked ∅ [] [] b (set_except s b).
Proof.
  intros Hb Hs. apply walked_plain; [by destruct Hb; split| |by rewrite app_nil_r|done..].
  destruct (step_refl ∅ b) as [[] ?]. by split; [split|].
Qed.

Lemma try_entry_spec s b c :
  Inv b -> current_block b = Some c ->
  Walked ∅ [] [] b (try_entry s c b) /\
  node_count (try_entry s c b) = S (S (S (node_count b))) /\
  target_ok (try_entry s c b) (S (S (node_count b))) /\
  vertex (cfg (try_entry s c b)) (node_count b) = Some TryVertex /\
  vertex (cfg (try_entry s c b)) (S (node_count b)) = Some (BasicBlock []) /\
  vertex (cfg (try_entry s c b)) (S (S (node_count b))) = Some (BasicBlock []).
Proof.
  intros Hb Hc. pose proof (current_lt b c Hb Hc) as Hlt. unfold try_entry. cbv zeta.
  set (t := node_count b).
  pose proof (walked_push_origin TryVertex s b Hb) as W1. set (b1 := push_vertex_with_origin TryVertex s b) in *.
  assert (node_count b1 = S t) as N1 by apply node_count_origin.
  assert (target_ok b1 t) as T1.
  { destruct (target_ok_new TryVertex b Hb) as [? Ht]. split; [rewrite N1; lia|exact Ht]. }
  pose proof (walked_push_edge c t Unconditional b1 (wk_inv _ _ _ _ _ W1) ltac:(lia) T1) as W2.
  set (b2 := push_edge c t Unconditional b1) in *. assert (node_count b2 = S t) as N2 by exact N1.
  pose proof (walked_pushed_block t Unconditional b2 (wk_inv _ _ _ _ _ W2) ltac:(lia)) as W3.
  rewrite N2 in W3. set (b3 := push_edge t (S t) Unconditional _) in *.
  assert (node_count b3 = S (S t)) as N3 by (unfold b3; autorewrite with nodes; lia).
  pose proof (walked_pushed_block t Exception b3 (wk_inv _ _ _ _ _ W3) ltac:(lia)) as W4.
  rewrite N3 in W4. set (b4 := push_edge t (S (S t)) Exception _) in *.
  assert (target_ok b4 (S (S t))) as T4.
  { rewrite <- N3. apply (target_ok_new (BasicBlock []) b3), W3. }
  assert (Walked ∅ [] [] b4 (set_except (S (S t) :: except_stack b4) b4)) as W5.
  { apply walked_set_except; [apply W4|]. intros x [->|Hx]%elem_of_cons; [done|].
    by apply (inv_except _ (wk_inv _ _ _ _ _ W4)). }
  set (b5 := set_except _ b4) in *.
  pose proof (walked_seq_r _ _ _ _ _ _ (walked_seq_r _ _ _ _ _ _ (walked_seq_r _ _ _ _ _ _
    (walked_seq_r _ _ _ _ _ _ W1 W2) W3) W4) W5) as W15.
  assert (vertex (cfg b5) (S t) = Some (BasicBlock [])) as Vb.
  { change (vertex (cfg (push_vertex (BasicBlock []) b3)) (S t) = Some (BasicBlock [])).
    apply push_vertex_old. change (vertex (cfg (push_vertex (BasicBlock []) b2)) (S t) = Some (BasicBlock [])).
    rewrite <- N2. apply push_vertex_new. }
  split_and!; [|unfold b5, b4; autorewrite with nodes; lia|exact T4| |exact Vb|].
  - apply (walked_merge _ _ b b5 (S t)); [exact W15|unfold t; lia|done].
  - change (vertex (cfg (push_vertex (BasicBlock []) b3)) t = Some TryVertex). apply push_vertex_old.
    change (vertex (cfg (push_vertex (BasicBlock []) b2)) t = Some TryVertex). apply push_vertex_old.
    apply (push_vertex_new TryVertex b).
  - change (vertex (cfg (push_vertex (BasicBlock []) b3)) (S (S t)) = Some (BasicBlock [])).
    rewrite <- N3. apply push_vertex_new.
Qed.

Lemma try_end_spec c1 c2 b :
  Inv b -> (c1 < node_count b)%nat -> (c2 < node_count b)%nat ->
  Walked ∅ [] [] b (try_end c1 c2 b) /\ same_stacks b (try_end c1 c2 b).
Proof.
  intros Hb H1 H2. split; [|done]. unfold try_end. cbv zeta.
  pose proof (walked_push_vertex (BasicBlock []) b Hb) as W1.
  pose proof (target_ok_new (BasicBlock []) b Hb) as T1. set (b1 := push_vertex (BasicBlock []) b) in *.
  assert (node_count b1 = S (node_count b)) as N1 by apply node_count_push.
  pose proof (walked_push_edge c1 _ (link_kind b1 c1) b1 (wk_inv _ _ _ _ _ W1) ltac:(lia) T1) as W2.
  set (b2 := push_edge c1 _ _ b1) in *.
  pose proof (walked_push_edge c2 _ (link_kind b2 c2) b2 (wk_inv _ _ _ _ _ W2)
    ltac:(unfold b2; autorewrite with nodes; lia) (target_ok_walked _ _ _ _ _ _ W2 T1)) as W3.
  apply walked_merge; [|lia|apply push_vertex_new].
  exact (walked_seq_l _ _ _ _ _ _ (walked_seq_l _ _ _ _ _ _ W1 W2) W3).
Qed.

Lemma try_ok s body except b c :
  Inv b -> current_block b = Some c -> Forall walked_stmt body -> Forall walked_stmt except ->
  exists b2 b5 c2 c5, walk_all walk body (try_entry s c b) = Some (tt, b2) /\
    Walked ∅ (body ≫= P) (body ≫= L) (try_entry s c b) b2 /\ same_stacks (try_entry s c b) b2 /\
    current_block b2 = Some c2 /\ Inv (try_handler (node_count b) b2) /\
    walk_all walk except (try_handler (node_count b) b2) = Some (tt, b5) /\
    Walked ∅ (except ≫= P) (except ≫= L) (try_handler (node_count b) b2) b5 /\
    same_stacks (try_handler (node_count b) b2) b5 /\ current_block b5 = Some c5 /\
    Walked ∅ [] [] b5 (try_end c2 c5 b5) /\
    walk_try_statement_hir walk s body except b = Some (tt, try_end c2 c5 b5) /\
    Walked ∅ ((body ≫= P) ++ (except ≫= P)) ((body ≫= L) ++ (except ≫= L)) b (try_end c2 c5 b5) /\
    same_stacks b (try_end c2 c5 b5).
Proof.
  intros Hb Hc Hbody Hexc. pose proof (current_lt b c Hb Hc) as Hlt.
  destruct (try_entry_spec s b c Hb Hc) as (W1 & N1 & T1 & _ & _ & Vx). set (t := node_count b) in *.
  set (b1 := try_entry s c b) in *.
  destruct (walk_all_ok body Hbody b1 (wk_inv _ _ _ _ _ W1)) as (b2 & E2 & W2 & S2).
  destruct (inv_current b2 (wk_inv _ _ _ _ _ W2)) as (c2 & cs2 & Hc2 & Hcv2).
  destruct (frozen _ _ _ _ _ _ W2 Vx) as [Vx2 _].
  { unfold b1, try_entry. simpl. intros [= E]. unfold t in E. lia. }
  assert (Walked ∅ [] [] b2 (set_except (tail (except_stack b2)) b2)) as W3.
  { apply walked_set_except; [apply W2|]. intros x Hx. apply (inv_except b2 (wk_inv _ _ _ _ _ W2)).
    destruct (except_stack b2); [done|]. by apply list_elem_of_further. }
  pose proof (walked_seq_r _ _ _ _ _ _ (walked_seq_l _ _ _ _ _ _ W1 W2) W3) as W13.
  assert (Walked ∅ (body ≫= P) (body ≫= L) b (try_handler t b2)) as W4.
  { apply walked_merge; [exact W13|unfold t; lia|exact Vx2]. }
  destruct (walk_all_ok except Hexc (try_handler t b2) (wk_inv _ _ _ _ _ W4)) as (b5 & E5 & W5 & S5).
  destruct (inv_current b5 (wk_inv _ _ _ _ _ W5)) as (c5 & cs5 & Hc5 & Hcv5).
  pose proof (vertex_lt _ _ _ Hcv2) as Hl2. pose proof (vertex_lt _ _ _ Hcv5) as Hl5.
  pose proof (node_count_walked _ _ _ _ _ W5) as Hle5. change (node_count (try_handler t b2)) with (node_count b2) in Hle5.
  destruct (try_end_spec c2 c5 b5 (wk_inv _ _ _ _ _ W5) ltac:(lia) Hl5) as [W6 S6].
  exists b2, b5, c2, c5. split_and!; [done..|apply W4|done|done|done|done|done| | |].
  - unfold walk_try_statement_hir. bind_step (origin_eq TryVertex s b). fold t.
    bind_step (edge_current_eq c t Unconditional (push_vertex_with_origin TryVertex s b));
      [|done|autorewrite with nodes; lia..].
    set (d1 := push_edge c t Unconditional _). assert (node_count d1 = S t) as D1 by apply node_count_origin.
    bind_step (new_block_eq d1). rewrite D1.
    bind_step (edge_eq t (S t) Unconditional (push_vertex (BasicBlock []) d1)); [|autorewrite with nodes; lia..].
    set (d2 := push_edge t (S t) Unconditional _).
    assert (node_count d2 = S (S t)) as D2 by (unfold d2; autorewrite with nodes; lia).
    bind_step (new_block_eq d2). rewrite D2.
    bind_step (edge_eq t (S (S t)) Exception (push_vertex (BasicBlock []) d2)); [|autorewrite with nodes; lia..].
    do 2 bind_step @modify_eq. change (set_current _ _) with b1. bind_step E2. bind_step @gets_eq.
    do 2 bind_step @modify_eq. fold (try_handler t b2). bind_step E5. bind_step @gets_eq.
    rewrite Hc2, Hc5. bind_step (new_block_eq b5). unfold link_some.
    bind_step (link_to_eq c2 (node_count b5) (push_vertex (BasicBlock []) b5)); [|autorewrite with nodes; lia..].
    bind_step (link_to_eq c5 (node_count b5)); [|autorewrite with nodes; lia..]. done.
  - apply (walked_seq_r _ _ _ _ b5); [|done]. by apply (walked_seq _ _ _ _ _ _ _ _ W4).
  - apply (same_stacks_trans _ b5); [|done]. destruct S2 as [S21 S22], S5 as [S51 S52].
    split; [rewrite S51; simpl; by rewrite S21|by rewrite S52; simpl; rewrite S22].
Qed.
End walk.

(** ** A whole body *)

Definition children (st : Hir.Stmt) : list StmtId :=
  match st with
  | Hir.If i => Hir.then_branch i ++ (Hir.elsif_branches i ≫= snd) ++ default [] (Hir.else_branch i)
  | Hir.PreprocIf p => Hir.branches p ≫= Hir.branch_stmts
  | Hir.While _ ss | Hir.For _ _ _ ss | Hir.ForEach _ _ ss => ss
  | Hir.Try ss es => ss ++ es
  | _ => []
  end.

(** Statements refer to statements that stand before them in the arena. *)
Definition nested (body : Hir.Body) : Prop :=
  forall id st, Hir.stmt_idx body id = Some st -> forall c, c ∈ children st -> (c < id)%nat.

(** The points of a statement, with those inside it. *)
Fixpoint stmt_points (fuel : nat) (body : Hir.Body) (s : StmtId) : list InitPoint :=
  match fuel with
  | O => []
  | S fuel =>
      let P := stmt_points fuel body in
      match Hir.stmt_idx body s with
      | None => []
      | Some (Hir.Expr e) => if Hir.is_recovered body e then [] else [Stmt s]
      | Some (Hir.If i) => if_points P i
      | Some (Hir.PreprocIf p) => pre_points P (Hir.branches p)
      | Some (Hir.While c ss) => Header c :: (ss ≫= P)
      | Some (Hir.For _ from to ss) => Header from :: Header to :: (ss ≫= P)
      | Some (Hir.ForEach _ c ss) => Header c :: (ss ≫= P)
      | Some (Hir.Try ss es) => (ss ≫= P) ++ (es ≫= P)
      | Some _ => [Stmt s]
      end
  end.

(** The labels declared in a statement. *)
Fixpoint stmt_labels (fuel : nat) (body : Hir.Body) (s : StmtId) : list Name :=
  match fuel with
  | O => []
  | S fuel =>
      let L := stmt_labels fuel body in
      match Hir.stmt_idx body s with
      | Some (Hir.If i) => if_labels L i
      | Some (Hir.PreprocIf p) => pre_labels L (Hir.branches p)
      | Some (Hir.While _ ss) | Some (Hir.For _ _ _ ss) | Some (Hir.ForEach _ _ ss) => ss ≫= L
      | Some (Hir.Try ss es) => (ss ≫= L) ++ (es ≫= L)
      | Some (Hir.Label l) => [l]
      | _ => []
      end
  end.

Definition body_points (body : Hir.Body) (ids : list StmtId) : list InitPoint :=
  ids ≫= stmt_points (S (length (Hir.stmts body))) body.
Definition body_labels (body : Hir.Body) (ids : list StmtId) : list Name :=
  ids ≫= stmt_labels (S (length (Hir.stmts body))) body.

Lemma added_stmt_ok s b :
  Inv b -> exists b', add_to_current_block_hir s b = Some (tt, b') /\ Walked ∅ [Stmt s] [] b b' /\
    same_stacks b b'.
Proof.
  intros Hb. exists (push_stmt s b). split_and!; [done|by apply walked_push_stmt|apply push_stmt_stacks].
Qed.

Lemma statement_ok body fuel id :
  nested body -> (id < fuel)%nat -> (id < length (Hir.stmts body))%nat ->
  walked_stmt (walk_statement_hir fuel body) (stmt_points fuel body) (stmt_labels fuel body) id.
Proof.
  intros Hn. revert id. induction fuel as [|fuel IH]; intros id Hf Hid; [lia|].
  destruct (lookup_lt_is_Some_2 (Hir.stmts body) id Hid) as [st Hst].
  assert (forall ss, (forall c, c ∈ ss -> c ∈ children st) ->
    Forall (walked_stmt (walk_statement_hir fuel body) (stmt_points fuel body) (stmt_labels fuel body)) ss) as Hss.
  { intros ss Hc. apply Forall_forall. intros c Hin. pose proof (Hn id st Hst c (Hc c Hin)). apply IH; lia. }
  intros b Hb. destruct (inv_current b Hb) as (c & cs & Hc & _).
  cbn [walk_statement_hir stmt_points stmt_labels]. unfold Hir.stmt_idx. rewrite Hst.
  erewrite bind_eq; [|reflexivity]. cbv zeta.
  destruct st; try by apply added_stmt_ok.
  - destruct (Hir.is_recovered body e); [|by apply added_stmt_ok].
    exists b. split_and!; [done|by apply walked_refl|done].
  - apply if_ok; [done|apply Hss; set_solver| |].
    + apply Forall_forall. intros br Hbr. apply Hss. intros x Hx. simpl.
      apply elem_of_app. right. apply elem_of_app. left. apply list_elem_of_bind. by exists br.
    + intros ss E. apply Hss. simpl. rewrite E. set_solver.
  - apply pre_if_ok; [done|]. apply Forall_forall. intros br Hbr. apply Hss. intros x Hx.
    apply list_elem_of_bind. by exists br.
  - destruct (loop_ok _ id (WhileHeader condition) body0 _ _ b c Hb Hc (walk_all_ok _ _ _ body0 (Hss body0 ltac:(done))))
      as (b2 & _ & _ & _ & _ & _ & _ & E & W & S'). by eexists.
  - destruct (loop_ok _ id (ForHeader var from to) body0 _ _ b c Hb Hc (walk_all_ok _ _ _ body0 (Hss body0 ltac:(done))))
      as (b2 & _ & _ & _ & _ & _ & _ & E & W & S'). by eexists.
  - destruct (loop_ok _ id (ForEachHeader var collection) body0 _ _ b c Hb Hc (walk_all_ok _ _ _ body0 (Hss body0 ltac:(done))))
      as (b2 & _ & _ & _ & _ & _ & _ & E & W & S'). by eexists.
  - destruct (try_ok (walk_statement_hir fuel body) (stmt_points fuel body) (stmt_labels fuel body) id body0 except b c Hb Hc)
      as (b2 & b5 & c2 & c5 & _ & _ & _ & _ & _ & _ & _ & _ & _ & _ & E & W & S');
      [apply Hss; intros x Hx; apply elem_of_app; by left|apply Hss; intros x Hx; apply elem_of_app; by right|].
    by eexists.
  - exists (jumped id (g_exit (cfg b)) Unconditional c b). split_and!; [by apply return_eq| |apply push_stmt_stacks].
    apply walked_jumped; [done..|apply inv_exit, Hb].
  - exists (jumped id (raise_target b) Exception c b). split_and!; [by apply raise_eq| |apply push_stmt_stacks].
    apply walked_jumped; [done..|by apply raise_target_ok].
  - exists (loop_jumped f_exit id c b). split; [apply loop_jump_eq|apply walked_loop_jumped]; try done;
      intros frame Hframe; by apply (inv_loops b Hb).
  - exists (loop_jumped f_header id c b). split; [apply loop_jump_eq|apply walked_loop_jumped]; try done;
      intros frame Hframe; by apply (inv_loops b Hb).
  - destruct (goto_eq id name b c Hb Hc) as (E & W & S' & _). by eexists.
  - destruct (label_eq id name b c Hb Hc) as (E & W & S' & _). by eexists.
Qed.

(** The points of a body refer to its arena. *)
Lemma stmt_points_valid body fuel id s :
  Stmt s ∈ stmt_points fuel body id -> is_Some (Hir.stmt_idx body s).
Proof.
  revert id. induction fuel as [|fuel IH]; intros id; cbn [stmt_points]; [by intros ?%elem_of_nil|].
  assert (forall ss, Stmt s ∈ ss ≫= stmt_points fuel body -> is_Some (Hir.stmt_idx body s)) as Hss.
  { intros ss (c & Hc & _)%list_elem_of_bind. by apply (IH c). }
  destruct (Hir.stmt_idx body id) as [st|] eqn:E; [|by intros ?%elem_of_nil].
  assert (Stmt s ∈ [Stmt id] -> is_Some (Hir.stmt_idx body s)) as Hone.
  { intros [= ->]%list_elem_of_singleton. by rewrite E. }
  destruct st; try exact Hone.
  - destruct (Hir.is_recovered body e); [by intros ?%elem_of_nil|exact Hone].
  - unfold if_points, else_points. rewrite elem_of_cons, !elem_of_app.
    intros [?|[Hin|[(br & Hbr & _)%list_elem_of_bind|Hin]]]; [done|by apply (Hss (Hir.then_branch i))| |].
    + unfold branch_points in Hbr. apply elem_of_cons in Hbr as [|Hbr]; [done|by apply (Hss br.2)].
    + destruct (Hir.else_branch i) as [ss|]; [by apply (Hss ss)|by apply elem_of_nil in Hin].
  - unfold pre_points. intros (br & Hbr & _)%list_elem_of_bind. by apply (Hss (Hir.branch_stmts br)).
  - rewrite elem_of_cons. intros [?|Hin]; [done|by apply (Hss body0)].
  - rewrite !elem_of_cons. intros [?|[?|Hin]]; [done..|by apply (Hss body0)].
  - rewrite elem_of_cons. intros [?|Hin]; [done|by apply (Hss body0)].
  - rewrite elem_of_app. intros [Hin|Hin]; [by apply (Hss body0)|by apply (Hss except)].
Qed.

(** The state in which the first statement is walked: the exit and an empty start block. *)
Definition started : CfgBuilder :=
  MkBuilder (MkGraph [Exit; BasicBlock []] [] ∅ (Some 1) 0) (Some 1) [] [] ∅ [].

Lemma Inv_started : Inv started.
Proof.
  split; simpl.
  - intros e He. by apply elem_of_nil in He.
  - exists 1. split; [done|]. unfold node_count. simpl. lia.
  - split; [|done]. split; [unfold node_count; simpl; lia|done].
  - by exists 1, [].
  - intros t Ht. by apply elem_of_nil in Ht.
  - intros f Hf. by apply elem_of_nil in Hf.
  - done.
  - intros s l Hl. by apply elem_of_nil in Hl.
Qed.

(** A block's statements are among the points. *)
Lemma block_in_points b c ss s :
  vertex (cfg b) c = Some (BasicBlock ss) -> s ∈ ss -> Stmt s ∈ points b.
Proof.
  intros Hv Hs. unfold points. apply list_elem_of_bind. exists (BasicBlock ss). split.
  - simpl. by apply list_elem_of_fmap_2.
  - by eapply list_elem_of_lookup_2.
Qed.

(** The end of a body: the last block falls through to the exit unless a jump ended it. *)
Lemma build_spec body ids :
  nested body -> Forall (fun id => id < length (Hir.stmts body))%nat ids ->
  exists b, walk_all (walk_statement_hir (S (length (Hir.stmts body))) body) ids started = Some (tt, b) /\
    Walked ∅ (body_points body ids) (body_labels body ids) started b /\ same_stacks started b /\
    exists g, build_graph_from_hir ids body = Some g /\ ext ∅ b g /\ g_nodes g = g_nodes (cfg b) /\
      (forall e, e ∈ g_edges g -> e ∈ g_edges (cfg b) \/ e_target e = 0 /\ current_block b = Some (e_source e)) /\
      forall c, current_block b = Some c ->
        match vertex (cfg b) c with
        | Some (BasicBlock ss) =>
            (exists s st, last ss = Some s /\ Hir.stmt_idx body s = Some st /\ is_terminator st = true) \/
            MkEdge c 0 (link_kind b c) ∈ g_edges g
        | _ => False
        end.
Proof.
  intros Hn Hids.
  destruct (walk_all_ok (walk_statement_hir (S (length (Hir.stmts body))) body)
    (stmt_points (S (length (Hir.stmts body))) body) (stmt_labels (S (length (Hir.stmts body))) body) ids)
    with (b := started) as (b & E & W & S'); [|apply Inv_started|].
  { apply Forall_forall. intros id Hid. rewrite Forall_forall in Hids. specialize (Hids id Hid).
    apply statement_ok; [done|lia|done]. }
  exists b. split; [exact E|]. split; [exact W|]. split; [done|].
  destruct (inv_current b (wk_inv _ _ _ _ _ W)) as (c & ss & Hc & Hv).
  assert (g_exit (cfg b) = 0) as Hx by apply (ext_exit _ _ _ (step_ext _ _ _ (wk_step _ _ _ _ _ W))).
  assert (exists t, ends_with_terminator body (vertex (cfg b) c) = Some t /\
    (t = true -> exists s st, last ss = Some s /\ Hir.stmt_idx body s = Some st /\ is_terminator st = true))
    as (t & Et & Ht).
  { rewrite Hv. simpl. destruct (last ss) as [s|] eqn:El; [|by exists false].
    assert (Stmt s ∈ points b) as Hp by (by eapply block_in_points, last_Some_elem_of).
    rewrite (wk_points _ _ _ _ _ W) in Hp. apply elem_of_app in Hp as [Hp|Hp]; [by apply elem_of_nil in Hp|].
    apply list_elem_of_bind in Hp as (id & Hp & _). apply stmt_points_valid in Hp as [st Hst].
    rewrite Hst. exists (is_terminator st). split; [done|]. intros Hterm. by exists s, st. }
  set (g := if t then cfg b else cfg (push_edge c 0 (link_kind b c) b)).
  exists g. split_and!.
  - unfold build_graph_from_hir.
    erewrite bind_eq; [|apply new_block_eq]. erewrite bind_eq; [|reflexivity]. erewrite bind_eq; [|reflexivity].
    change (set_current _ _) with started. bind_step E.
    rewrite (on_current_eq _ _ c Hc). erewrite bind_eq; [|reflexivity]. erewrite bind_eq; [|reflexivity].
    rewrite Et. erewrite bind_eq; [|reflexivity]. unfold g. destruct t; [done|].
    rewrite Hx, link_to_eq; [done|by apply vertex_lt in Hv|].
    pose proof (inv_exit b (wk_inv _ _ _ _ _ W)) as [[Hlt _] _]. by rewrite Hx in Hlt.
  - unfold g. destruct t; [apply ext_refl|apply (step_ext _ _ _ (step_push_edge c 0 (link_kind b c) b))].
  - unfold g. by destruct t.
  - unfold g. intros e. destruct t; [by left|]. simpl.
    intros [He| ->%list_elem_of_singleton]%elem_of_app; [by left|by right].
  - intros c' Hc'. assert (c' = c) as -> by congruence. rewrite Hv. unfold g. destruct t; [left; by apply Ht|].
    right. simpl. set_solver.
Qed.

(** The graph of a body. *)
Lemma built_graph body ids :
  nested body -> Forall (fun id => id < length (Hir.stmts body))%nat ids ->
  exists g, build_graph_from_hir ids body = Some g /\ well_formed g /\
    (exists s, g_start g = Some s /\ forall e, e ∈ g_edges g -> e_target e <> s) /\
    graph_points g ≡ₚ body_points body ids.
Proof.
  intros Hn Hids. destruct (build_spec body ids Hn Hids) as (b & _ & W & _ & g & E & He & Hnodes & Hedges & _).
  destruct (wk_inv _ _ _ _ _ W) as [Hin (s & Hs & Hlt) [[Hx Hxs] _] (c & ss & Hc & Hv) _ _ _ _].
  assert (g_start g = g_start (cfg b)) as Es by apply He. assert (g_exit g = g_exit (cfg b)) as Ex by apply He.
  assert (g_exit (cfg b) = 0) as Hx0 by apply (ext_exit _ _ _ (step_ext _ _ _ (wk_step _ _ _ _ _ W))).
  unfold target_ok, node_count in *. rewrite <- Hnodes in *.
  assert (forall e, e ∈ g_edges g -> (e_source e < length (g_nodes g))%nat /\
    (e_target e < length (g_nodes g))%nat /\ g_start (cfg b) <> Some (e_target e)) as Hall.
  { intros e [Hin'|[Ht Hsrc]]%Hedges; [by apply Hin|]. rewrite Ht, <- Hx0. split; [|by split].
    assert (e_source e = c) as -> by congruence. rewrite Hnodes. by apply vertex_lt in Hv. }
  exists g. split_and!; [done| | |].
  - split_and!.
    + apply Forall_forall. intros e He'. by destruct (Hall e He') as (? & ? & _).
    + rewrite Es, Hs. by intros v [= <-].
    + by rewrite Ex.
  - exists s. rewrite Es. split; [done|]. intros e He' Ht. destruct (Hall e He') as (_ & _ & Hne). congruence.
  - rewrite graph_points_nodes, Hnodes. apply (wk_points _ _ _ _ _ W).
Qed.

(** C14. Every body is built: for statements that refer to earlier ones in the arena the builder
    returns a graph without a panic, whose edges join its vertices, in which nothing leads back into
    the start, and which places every statement and every header of the body exactly as often as
    the body has it (once, when the body mentions it once). *)
Theorem builder_places_points body ids :
  nested body -> Forall (fun id => id < length (Hir.stmts body))%nat ids ->
  exists g, build_graph_from_hir ids body = Some g /\ well_formed g /\
    (exists s, g_start g = Some s /\ forall e, e ∈ g_edges g -> e_target e <> s) /\
    graph_points g ≡ₚ body_points body ids.
Proof. apply built_graph. Qed.
End handlers.

(** ** A body with a label, a loop left by a jump, and a handler *)

(** [~L: While e0 Do s0; If e3 Then Break EndIf EndDo; Try s4 Except Goto ~L EndTry; Return]. *)
Definition sample_body : Hir.Body := Hir.MkBody
  [Hir.Assign 1 2; Hir.Break; Hir.If (Hir.MkIf 3 [1] [] None); Hir.While 0 [0; 2];
   Hir.Assign 4 5; Hir.Goto "L"; Hir.Try [4] [5]; Hir.Return None; Hir.Label "L"] ∅.

Definition sample_ids : list StmtId := [8; 3; 6; 7].

Lemma sample_nested : nested sample_body.
Proof.
  intros id st Hst c Hc. unfold Hir.stmt_idx, sample_body in Hst. simpl in Hst.
  repeat (destruct id as [|id]; [injection Hst as <-; simpl in Hc;
    rewrite ?elem_of_cons, ?elem_of_nil in Hc; intuition (subst; lia)|]; simpl in Hst).
  done.
Qed.

Lemma builder_places_points_witness :
  @build_graph_from_hir as_listed sample_ids sample_body <> None /\
  exists g, @build_graph_from_hir as_listed sample_ids sample_body = Some g /\ well_formed g /\
    (exists s, g_start g = Some s /\ forall e, e ∈ g_edges g -> e_target e <> s) /\
    graph_points g ≡ₚ body_points sample_body sample_ids.
Proof.
  split; [vm_compute; discriminate|].
  apply (@builder_places_points as_listed as_listed_law sample_body sample_ids sample_nested).
  repeat constructor.
Defined.
