(* ===== verification/CfgSemantics.v ===== *)
(** CfgSemantics: the executions of a body, and that its graph has a path for each.

    [runs] is a big-step semantics of statements over the points they evaluate: conditions may go
    either way, an error may interrupt the protected statements of a try before or behind any of
    their points, and a jump to a label continues behind the label in the innermost list of
    statements that holds it (the language has no jumps into a block from outside).  [Stopped]
    marks the prefix of an execution that ends with the last point listed. *)
From stdpp Require Import prelude gmap strings.
From S2P Require Import Prelude Cfg Dataflow DataflowSpec DefiniteInit DefiniteInitSpec CfgBuilder.
From S2P Require Import CfgBuilderSpec.

#[local] Abbreviation cfg := CfgBuilder.cfg.

(** ** Events *)

(** What an execution does that an analysis may observe: it arrives at a point, or a loop binds its
    variable. *)
Inductive Event : Set := At (p : InitPoint) | Binds (v : BindingId).

Definition vertex_events (kind : CfgVertex) : list Event :=
  match kind with
  | BasicBlock ss => (fun s => At (Stmt s)) <$> ss
  | Conditional c | WhileHeader c => [At (Header c)]
  | ForHeader x from to => [At (Header from); At (Header to); Binds x]
  | ForEachHeader x c => [At (Header c); Binds x]
  | TryVertex | PreprocCondition _ _ _ | Exit => []
  end.

(** ** Executions *)

Inductive Outcome : Type :=
| Next | Broke | Continued | Returned | Raised | Jumped (l : Name) | Stopped.

#[export] Instance Outcome_eq_dec : EqDecision Outcome.
Proof. solve_decision. Defined.

Inductive Code : Type :=
| CStmt (s : StmtId)
| CList (ss : list StmtId)
| CIf (c : ExprId) (ss : list StmtId) (elsifs : list (ExprId * list StmtId)) (els : option (list StmtId))
| CLoop (header : CfgVertex) (ss : list StmtId).

(** The statement places itself in a block. *)
Definition is_simple (body : Hir.Body) (st : Hir.Stmt) : bool :=
  match st with
  | Hir.Expr e => negb (Hir.is_recovered body e)
  | Hir.If _ | Hir.PreprocIf _ | Hir.While _ _ | Hir.For _ _ _ _ | Hir.ForEach _ _ _ | Hir.Try _ _ => false
  | _ => true
  end.

(** How a simple statement ends. *)
Definition simple_outcome (st : Hir.Stmt) : Outcome :=
  match st with
  | Hir.Return _ => Returned
  | Hir.Raise _ => Raised
  | Hir.Break => Broke
  | Hir.Continue => Continued
  | Hir.Goto l => Jumped l
  | _ => Next
  end.

(** The header and the statements of a loop. *)
Definition loop_of (st : Hir.Stmt) : option (CfgVertex * list StmtId) :=
  match st with
  | Hir.While c ss => Some (WhileHeader c, ss)
  | Hir.For x from to ss => Some (ForHeader x from to, ss)
  | Hir.ForEach x c ss => Some (ForEachHeader x c, ss)
  | _ => None
  end.

Section runs.
Context (body : Hir.Body).

Inductive runs : Code -> list Event -> Outcome -> Prop :=
| run_nil : runs (CList []) [] Next
| run_cons s ss t1 t2 o : runs (CStmt s) t1 Next -> runs (CList ss) t2 o ->
    runs (CList (s :: ss)) (t1 ++ t2) o
| run_leave s ss t o : runs (CStmt s) t o -> o <> Next -> runs (CList (s :: ss)) t o
| run_jump pre lab post l t1 t2 o : runs (CList (pre ++ lab :: post)) t1 (Jumped l) ->
    Hir.stmt_idx body lab = Some (Hir.Label l) -> runs (CList (lab :: post)) t2 o ->
    runs (CList (pre ++ lab :: post)) (t1 ++ t2) o
| run_simple s st : Hir.stmt_idx body s = Some st -> is_simple body st = true ->
    runs (CStmt s) [At (Stmt s)] (simple_outcome st)
| run_simple_stop s st : Hir.stmt_idx body s = Some st -> is_simple body st = true ->
    runs (CStmt s) [At (Stmt s)] Stopped
| run_recovered s e : Hir.stmt_idx body s = Some (Hir.Expr e) -> Hir.is_recovered body e = true ->
    runs (CStmt s) [] Next
| run_if s i t o : Hir.stmt_idx body s = Some (Hir.If i) ->
    runs (CIf (Hir.condition i) (Hir.then_branch i) (Hir.elsif_branches i) (Hir.else_branch i)) t o ->
    runs (CStmt s) t o
| run_if_stop c ss es el : runs (CIf c ss es el) [At (Header c)] Stopped
| run_if_true c ss es el t o : runs (CList ss) t o -> runs (CIf c ss es el) (At (Header c) :: t) o
| run_if_elsif c ss c' ss' es el t o : runs (CIf c' ss' es el) t o ->
    runs (CIf c ss ((c', ss') :: es) el) (At (Header c) :: t) o
| run_if_else c ss ss' t o : runs (CList ss') t o ->
    runs (CIf c ss [] (Some ss')) (At (Header c) :: t) o
| run_if_none c ss : runs (CIf c ss [] None) [At (Header c)] Next
| run_pre s p br t o : Hir.stmt_idx body s = Some (Hir.PreprocIf p) -> br ∈ Hir.branches p ->
    runs (CList (Hir.branch_stmts br)) t o -> runs (CStmt s) t o
| run_pre_none s p : Hir.stmt_idx body s = Some (Hir.PreprocIf p) -> Hir.pre_else_branch p = None ->
    runs (CStmt s) [] Next
| run_loop s st hd ss t o : Hir.stmt_idx body s = Some st -> loop_of st = Some (hd, ss) ->
    runs (CLoop hd ss) t o -> runs (CStmt s) t o
| run_loop_stop hd ss t e rest : vertex_events hd = t ++ e :: rest -> runs (CLoop hd ss) (t ++ [e]) Stopped
| run_loop_exit hd ss : runs (CLoop hd ss) (vertex_events hd) Next
| run_loop_again hd ss t1 t2 o1 o : runs (CList ss) t1 o1 -> o1 = Next \/ o1 = Continued ->
    runs (CLoop hd ss) t2 o -> runs (CLoop hd ss) (vertex_events hd ++ t1 ++ t2) o
| run_loop_break hd ss t : runs (CList ss) t Broke -> runs (CLoop hd ss) (vertex_events hd ++ t) Next
| run_loop_leave hd ss t o : runs (CList ss) t o -> o <> Next -> o <> Broke -> o <> Continued ->
    runs (CLoop hd ss) (vertex_events hd ++ t) o
| run_try s ss es t o : Hir.stmt_idx body s = Some (Hir.Try ss es) -> runs (CList ss) t o ->
    o <> Raised -> runs (CStmt s) t o
| run_try_handled s ss es t1 t2 o1 o : Hir.stmt_idx body s = Some (Hir.Try ss es) ->
    runs (CList ss) t1 o1 -> o1 = Raised \/ o1 = Stopped -> runs (CList es) t2 o ->
    runs (CStmt s) (t1 ++ t2) o
| run_try_interrupted s ss es t o : Hir.stmt_idx body s = Some (Hir.Try ss es) ->
    runs (CList es) t o -> runs (CStmt s) t o.
End runs.

(** ** Paths *)

(** A position in a graph: a vertex and how many of its events are done. *)
Definition Pos : Type := NodeIndex * nat.

Inductive path (g : ControlFlowGraph) : Pos -> list Event -> Pos -> Prop :=
| path_nil p : path g p [] p
| path_emit v i kind e t p : vertex g v = Some kind -> vertex_events kind !! i = Some e ->
    path g (v, S i) t p -> path g (v, i) (e :: t) p
| path_edge v kind w k t p : vertex g v = Some kind -> MkEdge v w k ∈ g_edges g ->
    is_executable k = true -> path g (w, 0) t p -> path g (v, length (vertex_events kind)) t p.

Lemma path_trans g p t1 q t2 r : path g p t1 q -> path g q t2 r -> path g p (t1 ++ t2) r.
Proof. induction 1; intros Hr; simpl; [done|by eapply path_emit; eauto|by eapply path_edge; eauto]. Qed.

(** All events of a vertex in a row. *)
Lemma path_events g v kind pre t post :
  vertex g v = Some kind -> vertex_events kind = pre ++ t ++ post ->
  path g (v, length pre) t (v, length pre + length t).
Proof.
  intros Hv. revert pre. induction t as [|e t IH]; intros pre E.
  - simpl. rewrite Nat.add_0_r. constructor.
  - eapply path_emit; [exact Hv| |].
    + rewrite E. by apply list_lookup_middle.
    + specialize (IH (pre ++ [e])). rewrite <- !app_assoc in IH. specialize (IH E).
      rewrite length_app in IH. simpl in IH. rewrite Nat.add_1_r in IH. simpl.
      by rewrite Nat.add_succ_r.
Qed.

Lemma path_vertex g v kind : vertex g v = Some kind ->
  path g (v, 0) (vertex_events kind) (v, length (vertex_events kind)).
Proof. intros Hv. apply (path_events g v kind [] _ []); [done|by rewrite app_nil_r]. Qed.

(** From the start of a vertex over all its events and an edge. *)
Lemma path_through g v kind w k t p :
  vertex g v = Some kind -> MkEdge v w k ∈ g_edges g -> is_executable k = true ->
  path g (w, 0) t p -> path g (v, 0) (vertex_events kind ++ t) p.
Proof.
  intros Hv He Hk Hp. eapply path_trans; [by apply path_vertex|]. by eapply path_edge.
Qed.

(** A path shows an execution when its events are among those of the execution, and for a prefix
    when it ends with the same event. *)
Definition ends_like (t' t : list Event) : Prop :=
  exists t0 t0' e, t = t0 ++ [e] /\ t' = t0' ++ [e] /\ t0' `sublist_of` t0.

Lemma ends_like_app t1' t1 t' t : t1' `sublist_of` t1 -> ends_like t' t -> ends_like (t1' ++ t') (t1 ++ t).
Proof.
  intros H1 (t0 & t0' & e & -> & -> & H2). exists (t1 ++ t0), (t1' ++ t0'), e.
  rewrite <- !app_assoc. split_and!; [done..|]. by apply sublist_app.
Qed.

Lemma ends_like_last t e : ends_like (t ++ [e]) (t ++ [e]).
Proof. by exists t, t, e. Qed.

(** ** States of the builder inside a graph *)

(** The state with no current block: its graph may grow at reserved vertices only. *)
Definition off (b : CfgBuilder) : CfgBuilder := set_current None b.

Lemma ext_off R b g : ext R (off b) g -> ext R b g.
Proof. intros He. split; [apply He..|]. intros v x Hv _ HR. by apply (ext_closed _ _ _ He). Qed.

Lemma step_off R b b' : step R b b' -> step R b (off b').
Proof. intros [He Hc]. split; [|done]. split; apply He. Qed.

(** What goes on from a state without a current block goes on in the same way. *)
Lemma step_off_current b c : step {[c]} (off b) (set_current (Some c) b).
Proof. apply (step_set_current c (off b)). Qed.

(** A block is entered by an execution, or is the start. *)
Definition live_at (g : ControlFlowGraph) (c : NodeIndex) : Prop :=
  g_start g = Some c \/ exists u k, MkEdge u c k ∈ g_edges g /\ is_executable k = true.

Definition live (b : CfgBuilder) : Prop := forall c, current_block b = Some c -> live_at (cfg b) c.

Lemma live_at_ext R b g c : ext R b g -> live_at (cfg b) c -> live_at g c.
Proof.
  intros He [Hs|(u & k & Hin & Hk)]; [left; by rewrite (ext_start _ _ _ He)|].
  right. exists u, k. split; [by apply (ext_edges _ _ _ He)|done].
Qed.

Lemma live_at_edge u c k b : is_executable k = true -> live_at (cfg (push_edge u c k b)) c.
Proof. intros Hk. right. exists u, k. split; [simpl; set_solver|done]. Qed.

Section order.
Context `{EdgeOrderLaw}.

Lemma live_incoming g c : live_at g c -> block_has_live_incoming g c = true.
Proof.
  intros Hl. unfold block_has_live_incoming. case_bool_decide as Hs; [done|].
  destruct Hl as [|(u & k & Hin & Hk)]; [done|]. apply existsb_exists. exists (u, k).
  split; [|done]. by apply list_elem_of_In, elem_of_incoming.
Qed.

Lemma link_kind_live b c : live_at (cfg b) c -> link_kind b c = Unconditional.
Proof. intros Hl. unfold link_kind. by rewrite live_incoming. Qed.

Lemma live_reachable g c : live_at g c -> is_block_reachable g c = true.
Proof.
  intros [Hs|(u & k & Hin & _)]; unfold is_block_reachable; apply orb_true_iff.
  - right. by apply bool_decide_eq_true.
  - left. apply negb_true_iff, bool_decide_eq_false. intros E.
    apply elem_of_incoming in Hin. rewrite E in Hin. by apply elem_of_nil in Hin.
Qed.
End order.

(** The position of a state: the end of its current block. *)
Definition pos_of (b : CfgBuilder) (p : Pos) : Prop :=
  exists c ss, current_block b = Some c /\ vertex (cfg b) c = Some (BasicBlock ss) /\ p = (c, length ss).

(** The last position of a vertex. *)
Definition closed_in (g : ControlFlowGraph) (v i : nat) : Prop :=
  exists kind, vertex g v = Some kind /\ i = length (vertex_events kind).

Lemma closed_off R b g c ss :
  ext R (off b) g -> c ∉ R -> vertex (cfg b) c = Some (BasicBlock ss) -> closed_in g c (length ss).
Proof.
  intros He HR Hv. exists (BasicBlock ss). split; [by apply (ext_closed _ _ _ He)|].
  simpl. by rewrite length_fmap.
Qed.

Lemma path_leave g v i w k t p :
  closed_in g v i -> MkEdge v w k ∈ g_edges g -> is_executable k = true -> path g (w, 0) t p ->
  path g (v, i) t p.
Proof. intros (kind & Hv & ->) He Hk Hp. by eapply path_edge. Qed.

(** What an execution with a trace and an outcome comes to in the graph: [nx] says where [Next]
    leads, the frames and the handler are those around the code, and [b'] knows the jumps that
    wait for their labels. *)
Definition reach (nx : Pos -> Prop) (frames : list LoopFrame) (handler : NodeIndex) (b' : CfgBuilder)
    (g : ControlFlowGraph) (p : Pos) (t : list Event) (o : Outcome) : Prop :=
  match o with
  | Next => exists t' q, nx q /\ path g p t' q /\ t' `sublist_of` t
  | Broke => forall f fs, frames = f :: fs ->
      exists t', path g p t' (f_exit f, 0) /\ t' `sublist_of` t
  | Continued => forall f fs, frames = f :: fs ->
      exists t', path g p t' (f_header f, 0) /\ t' `sublist_of` t
  | Returned => exists t', path g p t' (g_exit g, 0) /\ t' `sublist_of` t
  | Raised => exists t', path g p t' (handler, 0) /\ t' `sublist_of` t
  | Jumped l => exists v i t', path g p t' (v, i) /\ closed_in g v i /\ t' `sublist_of` t /\ awaits b' v l
  | Stopped => exists t' q, path g p t' q /\ ends_like t' t
  end.

Lemma reach_prefix nx fr h b' g p q t0' t0 t o :
  path g p t0' q -> t0' `sublist_of` t0 -> reach nx fr h b' g q t o -> reach nx fr h b' g p (t0 ++ t) o.
Proof.
  intros Hp Hs. destruct o; simpl.
  - intros (t' & q' & Hn & Hq & Ht). exists (t0' ++ t'), q'. split_and!; [done|by eapply path_trans|by apply sublist_app].
  - intros Hr f fs E. destruct (Hr f fs E) as (t' & Hq & Ht). exists (t0' ++ t').
    split; [by eapply path_trans|by apply sublist_app].
  - intros Hr f fs E. destruct (Hr f fs E) as (t' & Hq & Ht). exists (t0' ++ t').
    split; [by eapply path_trans|by apply sublist_app].
  - intros (t' & Hq & Ht). exists (t0' ++ t'). split; [by eapply path_trans|by apply sublist_app].
  - intros (t' & Hq & Ht). exists (t0' ++ t'). split; [by eapply path_trans|by apply sublist_app].
  - intros (v & i & t' & Hq & Hc & Ht & Ha). exists v, i, (t0' ++ t').
    split_and!; [by eapply path_trans|done|by apply sublist_app|done].
  - intros (t' & q' & Hq & Ht). exists (t0' ++ t'), q'. split; [by eapply path_trans|by apply ends_like_app].
Qed.

(** Code that does not go on ends in the same way in a later state. *)
Lemma reach_later nx nx' fr h b1 b2 g p t o :
  (forall v l, awaits b1 v l -> awaits b2 v l) -> o <> Next -> reach nx fr h b1 g p t o ->
  reach nx' fr h b2 g p t o.
Proof.
  intros Ha Hne. destruct o; simpl; try done.
  intros (v & i & t' & Hq & Hc & Ht & Haw). exists v, i, t'. split_and!; [done..|by apply Ha].
Qed.

(** Code that may go on does so from the next position. *)
Lemma reach_onward nx nx' fr h b1 b2 g p t o :
  (forall q, nx q -> exists q', nx' q' /\ path g q [] q') ->
  (forall v l, awaits b1 v l -> awaits b2 v l) -> reach nx fr h b1 g p t o -> reach nx' fr h b2 g p t o.
Proof.
  intros Hn Ha. destruct (decide (o = Next)) as [->|Hne]; [|by apply reach_later].
  intros (t' & q & Hq & Hp & Ht). destruct (Hn q Hq) as (q' & Hq' & Hp').
  exists (t' ++ []), q'. split_and!; [done|by eapply path_trans|by rewrite app_nil_r].
Qed.
