(* ===== verification/CfgSimulation.v ===== *)
(** CfgSimulation: every execution of a body has a path in the graph the builder makes of it.

    By rule induction on the executions, with one lemma per rule.  A piece of code is walked from
    a state [b] to a state [b'], and [G] is any graph that extends [b'] later on; [R] holds the
    reserved vertices, which may still grow although they are not current. *)
From stdpp Require Import prelude gmap strings.
From S2P Require Import Prelude Cfg Dataflow DataflowSpec DefiniteInit DefiniteInitSpec CfgBuilder.
From S2P Require Import CfgBuilderSpec CfgSemantics.

#[local] Abbreviation cfg := CfgBuilder.cfg.

(** ** Labels and reserved vertices along a walk *)

Definition fresh (ls : list Name) (b : CfgBuilder) : Prop :=
  NoDup ls /\ forall l, l ∈ ls -> label_table b !! l = None.

Lemma fresh_split R ps ls1 ls2 b b1 :
  fresh (ls1 ++ ls2) b -> Walked R ps ls1 b b1 -> fresh ls1 b /\ fresh ls2 b1.
Proof.
  intros [(H1 & Hd & H2)%NoDup_app Hn] W. split; (split; [done|]).
  - intros l Hl. apply Hn. set_solver.
  - intros l Hl. apply eq_None_not_Some. intros [Hs|Hin]%(wk_dom _ _ _ _ _ W).
    + rewrite Hn in Hs by set_solver. by destruct Hs.
    + by apply (Hd l).
Qed.

Lemma fresh_walked R ps ls b b1 : fresh ls b -> Walked R ps [] b b1 -> fresh ls b1.
Proof. intros Hf W. by apply (fresh_split R ps [] ls b b1). Qed.

Definition rsv (R : gset NodeIndex) (b : CfgBuilder) : Prop :=
  forall v, v ∈ R -> (v < node_count b)%nat /\ current_block b <> Some v.

Lemma rsv_step R b b' : step ∅ b b' -> rsv R b -> rsv R b'.
Proof.
  intros Hs HR v Hv. destruct (HR v Hv) as [Hlt Hc]. split; [pose proof (node_count_step _ _ _ Hs); lia|].
  intros Hc'. destruct (step_current _ _ _ Hs v Hc') as [?|[[]%not_elem_of_empty|?]]; [done|lia].
Qed.

(** Going back over a step to which [G] need not be closed. *)
Lemma ext_back R b b' g : step ∅ b b' -> ext R b' g -> ext R b g.
Proof.
  intros Hs He. apply (ext_trans R R b b'); [|done|by left].
  by apply (step_weaken ∅); [set_solver|].
Qed.

(** Going back over the end of a construct, where a reserved vertex became the current one. *)
Lemma ext_back_current R m b b' g : step {[m]} b b' -> ext R b' g -> ext ({[m]} ∪ R) b g.
Proof.
  intros Hs He. apply (ext_trans _ R b b'); [|done|set_solver].
  by apply (step_weaken {[m]}); [set_solver|].
Qed.

Record around (R : gset NodeIndex) (ls : list Name) (b b' : CfgBuilder) (G : ControlFlowGraph) : Prop := {
  ar_inv : Inv b;
  ar_fresh : fresh ls b;
  ar_rsv : rsv R b;
  ar_ext : ext R b' G;
}.

Lemma around_split R ls1 ls2 ps1 ps2 b b1 b' G :
  around R (ls1 ++ ls2) b b' G -> Walked ∅ ps1 ls1 b b1 -> Walked ∅ ps2 ls2 b1 b' ->
  around R ls1 b b1 G /\ around R ls2 b1 b' G /\ forall v l, awaits b1 v l -> awaits b' v l.
Proof.
  intros [Hi Hf Hr He] W1 W2. destruct (fresh_split _ _ _ _ _ _ Hf W1) as [Hf1 Hf2]. split_and!.
  - split; [done..|]. by apply (ext_back R b1 b'); [apply W2|].
  - split; [apply W1|done|by apply (rsv_step R b); [apply W1|]|done].
  - intros v l. apply (wk_awaits _ _ _ _ _ W2); [apply Hf2..].
Qed.

Lemma raise_target_walked R ps ls b b' :
  Walked R ps ls b b' -> except_stack b' = except_stack b -> raise_target b' = raise_target b.
Proof.
  intros W E. unfold raise_target. rewrite E.
  by rewrite (ext_exit _ _ _ (step_ext _ _ _ (wk_step _ _ _ _ _ W))).
Qed.

(** ** The current block *)

Section simulation.
Context `{EdgeOrderLaw} (body : Hir.Body).

(** The current block does not end with a [Return] or a [Raise]. *)
Definition calm (b : CfgBuilder) : Prop :=
  forall c ss s, current_block b = Some c -> vertex (cfg b) c = Some (BasicBlock ss) -> last ss = Some s ->
    exists st, Hir.stmt_idx body s = Some st /\ is_terminator st = false.

(** An execution has arrived at the end of the current block. *)
Definition at_end (b : CfgBuilder) (q : Pos) : Prop := pos_of b q /\ live b /\ calm b.

(** An execution is about to start with the first statement of [ss]: behind the current block, or
    at the block of a label it jumps to. *)
Definition entry (b : CfgBuilder) (ss : list StmtId) (p : Pos) : Prop :=
  at_end b p \/ exists s rest l, ss = s :: rest /\ Hir.stmt_idx body s = Some (Hir.Label l) /\ p = (node_count b, 0).

Lemma at_end_empty b c :
  current_block b = Some c -> vertex (cfg b) c = Some (BasicBlock []) -> live_at (cfg b) c -> at_end b (c, 0).
Proof.
  intros Hc Hv Hl. split_and!.
  - by exists c, [].
  - intros c' E. by assert (c' = c) as -> by congruence.
  - intros c' ss s E Hs. assert (c' = c) as -> by congruence. by assert (ss = []) as -> by congruence.
Qed.

(** The last position of the current block of [b], once it is no longer current. *)
Lemma end_closed R b G c ss :
  ext R (off b) G -> rsv R b -> current_block b = Some c -> vertex (cfg b) c = Some (BasicBlock ss) ->
  closed_in G c (length ss).
Proof.
  intros He HR Hc Hv. apply (closed_off R b); [done| |done]. intros Hin. by destruct (HR c Hin).
Qed.

(** A statement that was added to the current block. *)
Lemma path_added R b G c ss s :
  vertex (cfg b) c = Some (BasicBlock (ss ++ [s])) -> ext R b G ->
  path G (c, length ss) [At (Stmt s)] (c, length (ss ++ [s])).
Proof.
  intros Hv He. destruct (ext_grows _ _ _ He _ _ Hv) as (y & Hy & more & ->).
  replace (length (ss ++ [s])) with (S (length ss)) by (rewrite length_app; simpl; lia).
  eapply path_emit; [exact Hy| |constructor].
  simpl. rewrite <- app_assoc, fmap_app. simpl. apply list_lookup_middle. by rewrite length_fmap.
Qed.

Lemma ends_like_one (e : Event) : ends_like [e] [e].
Proof. by exists [], [], e. Qed.

(** *** Jumps *)

(** What changes no vertex and ends in a new block leaves the current block closed. *)
Lemma step_from_off R b b' :
  step R b b' -> (forall v x, vertex (cfg b) v = Some x -> vertex (cfg b') v = Some x) ->
  (forall c, current_block b' = Some c -> c ∈ R \/ (node_count b <= c)%nat) -> step R (off b) b'.
Proof.
  intros [He _] Hv Hc. split; [split; try apply He|]; [intros v x Hx _ _; by apply Hv|].
  intros c Hc'. right. by apply Hc.
Qed.

Lemma vertex_sealed c t v x : vertex (cfg t) v = Some x -> vertex (cfg (sealed c t)) v = Some x.
Proof. intros Hv. change (vertex (cfg (push_vertex (BasicBlock []) t)) v = Some x). by apply push_vertex_old. Qed.

(** The block of a jump is closed when the text behind the jump has its own block. *)
Lemma sealed_end R c b G :
  Inv b -> current_block b = Some c -> ext R (sealed c b) G -> ext R (off b) G.
Proof.
  intros Hb Hc. apply ext_back. apply step_from_off.
  - apply (wk_step _ _ _ _ _ (walked_sealed c b Hb (current_lt b c Hb Hc))).
  - apply vertex_sealed.
  - intros c' [= <-]. by right.
Qed.

Lemma jump_path R G c ss s t :
  Inv t -> current_block t = Some c -> rsv R t -> vertex (cfg t) c = Some (BasicBlock (ss ++ [s])) ->
  ext R (sealed c t) G ->
  path G (c, length ss) [At (Stmt s)] (c, length (ss ++ [s])) /\ closed_in G c (length (ss ++ [s])).
Proof.
  intros Ht Hc HR Hv He. pose proof (sealed_end R c t G Ht Hc He) as Ho.
  split; [by apply (path_added R (off t))|by apply (end_closed R t)].
Qed.

Lemma rsv_same R b t : (node_count b <= node_count t)%nat -> current_block t = current_block b ->
  rsv R b -> rsv R t.
Proof. intros Hn Hc HR v Hv. destruct (HR v Hv). rewrite Hc. split; [lia|done]. Qed.

(** A jump with an edge of its own. *)
Lemma jumped_path R G c ss s target k b :
  Inv b -> current_block b = Some c -> rsv R b -> vertex (cfg b) c = Some (BasicBlock ss) ->
  target_ok b target -> is_executable k = true -> ext R (jumped s target k c b) G ->
  path G (c, length ss) [At (Stmt s)] (target, 0).
Proof.
  intros Hb Hc HR Hv Ht Hk He. pose proof (Inv_push_stmt s b Hb) as H1.
  pose proof (push_stmt_current s b c Hc) as Hc1. pose proof (current_lt _ c H1 Hc1) as Hlt.
  pose proof (Inv_push_edge c target k _ H1 Hlt (target_ok_stmt s b target Ht)) as H2.
  destruct (jump_path R G c ss s (push_edge c target k (push_stmt s b)) H2 Hc1) as [Hp Hcl]; [|by apply vertex_push_stmt|done|].
  { apply (rsv_same R b); [autorewrite with nodes; lia|by rewrite Hc|done]. }
  rewrite <- (app_nil_r [At (Stmt s)]). eapply path_trans; [exact Hp|].
  eapply path_leave; [exact Hcl| |exact Hk|constructor].
  apply (ext_edges _ _ _ He), elem_of_app. left. apply elem_of_app. right. by apply list_elem_of_singleton.
Qed.

(** *** Simple statements *)

Lemma reach_stop nx fr h b' G p q t e : path G p (t ++ [e]) q -> reach nx fr h b' G p (t ++ [e]) Stopped.
Proof. intros Hp. exists (t ++ [e]), q. split; [done|apply ends_like_last]. Qed.

(** A simple statement that is no label adds itself to the current block. *)
Definition adds_itself (st : Hir.Stmt) : bool := match st with Hir.Label _ => false | _ => true end.

Lemma entry_at_end b s st p :
  Hir.stmt_idx body s = Some st -> adds_itself st = true -> entry b [s] p -> at_end b p.
Proof. intros Hst Ha [He|(? & ? & l & [= <- <-] & Hl & _)]; [done|]. rewrite Hst in Hl. by simplify_eq. Qed.

Lemma added_at_end s st b c ss :
  Hir.stmt_idx body s = Some st -> is_terminator st = false -> current_block b = Some c ->
  vertex (cfg b) c = Some (BasicBlock ss) -> at_end b (c, length ss) ->
  at_end (push_stmt s b) (c, length (ss ++ [s])).
Proof.
  intros Hst Ht Hc Hv (_ & Hl & _). pose proof (push_stmt_current s b c Hc) as Hc1.
  pose proof (vertex_push_stmt s b c ss Hc Hv) as Hv1.
  destruct (push_stmt_fields s b) as (E1 & E2 & _). split_and!.
  - by exists c, (ss ++ [s]).
  - intros c' E. assert (c' = c) as -> by congruence. unfold live_at. rewrite E1, E2. by apply (Hl c).
  - intros c' ss' s' E Hv' Hlast. assert (c' = c) as -> by congruence.
    assert (ss' = ss ++ [s]) as -> by congruence. rewrite last_snoc in Hlast. injection Hlast as <-. by exists st.
Qed.

(** The part of a simple statement that all share: it can be seen to be executed. *)
Lemma stop_in R b' G c ss s nx fr h :
  vertex (cfg b') c = Some (BasicBlock (ss ++ [s])) -> ext R b' G ->
  reach nx fr h b' G (c, length ss) [At (Stmt s)] Stopped.
Proof. intros Hv He. eapply (reach_stop _ _ _ _ _ _ _ []). by apply (path_added R b'). Qed.

(** The state a simple statement leads to. *)
Definition simple_state (s : StmtId) (st : Hir.Stmt) (c : NodeIndex) (b : CfgBuilder) : CfgBuilder :=
  match st with
  | Hir.Return _ => jumped s (g_exit (cfg b)) Unconditional c b
  | Hir.Raise _ => jumped s (raise_target b) Exception c b
  | Hir.Break => loop_jumped f_exit s c b
  | Hir.Continue => loop_jumped f_header s c b
  | Hir.Goto l => goto_jumped s l c b
  | Hir.Label l => declared s l c b
  | _ => push_stmt s b
  end.

Lemma simple_eq fuel s st c b :
  Hir.stmt_idx body s = Some st -> is_simple body st = true -> Inv b -> current_block b = Some c ->
  walk_statement_hir (S fuel) body s b = Some (tt, simple_state s st c b).
Proof.
  intros Hst Hsim Hb Hc. cbn [walk_statement_hir]. rewrite Hst. erewrite bind_eq; [|reflexivity]. cbv zeta.
  destruct st; try discriminate; try apply add_current_eq.
  - simpl in Hsim. apply negb_true_iff in Hsim. rewrite Hsim. apply add_current_eq.
  - by apply return_eq.
  - by apply raise_eq.
  - apply loop_jump_eq; [done..|]. intros f Hf. by apply (inv_loops b Hb).
  - apply loop_jump_eq; [done..|]. intros f Hf. by apply (inv_loops b Hb).
  - by apply goto_eq.
  - by apply label_eq.
Qed.

(** The jump of [Break] and [Continue]. *)
Lemma loop_jump_ok R G c ss s target b f fs :
  Inv b -> current_block b = Some c -> rsv R b -> vertex (cfg b) c = Some (BasicBlock ss) ->
  (forall f, f ∈ loop_stack b -> target_ok b (target f)) -> ext R (loop_jumped target s c b) G ->
  loop_stack b = f :: fs -> path G (c, length ss) [At (Stmt s)] (target f, 0).
Proof.
  intros Hb Hc HR Hv Ht He E. unfold loop_jumped in He. rewrite E in He.
  apply (jumped_path R G c ss s (target f) Unconditional b); [done..| |done|done].
  apply Ht. rewrite E. apply list_elem_of_here.
Qed.

Lemma goto_ok R G c ss s l b :
  Inv b -> current_block b = Some c -> rsv R b -> vertex (cfg b) c = Some (BasicBlock ss) ->
  ext R (goto_jumped s l c b) G ->
  path G (c, length ss) [At (Stmt s)] (c, length (ss ++ [s])) /\ closed_in G c (length (ss ++ [s])).
Proof.
  intros Hb Hc HR Hv He. unfold goto_jumped in He. pose proof (Inv_push_stmt s b Hb) as H1.
  pose proof (push_stmt_current s b c Hc) as Hc1. pose proof (current_lt _ c H1 Hc1) as Hlt.
  destruct (push_stmt_fields s b) as (_ & _ & _ & _ & _ & _ & El & Ep).
  destruct (label_table b !! l) as [t|] eqn:E.
  - apply (jump_path R G c ss s (push_edge c t Unconditional (push_stmt s b))); [|done| |by apply vertex_push_stmt|done].
    + apply Inv_push_edge; [done..|]. by apply target_ok_stmt, (inv_labels b Hb l).
    + apply (rsv_same R b); [autorewrite with nodes; lia|by rewrite Hc|done].
  - apply (jump_path R G c ss s (set_pending (pending_gotos b ++ [(c, l)]) (push_stmt s b)));
      [|done| |by apply vertex_push_stmt|done].
    + apply Inv_set_pending; [done|]. rewrite El. autorewrite with nodes.
      intros s' l' [Hin|[= -> ->]%list_elem_of_singleton]%elem_of_app; [by apply (inv_pending b Hb)|].
      split; [by apply current_lt|done].
    + apply (rsv_same R b); [autorewrite with nodes; lia|by simpl; rewrite Hc1|done].
Qed.

(** The end of a simple statement that is no label. *)
Lemma simple_reach R G ls s st b c ss :
  Hir.stmt_idx body s = Some st -> is_simple body st = true -> adds_itself st = true ->
  around R ls b (simple_state s st c b) G -> at_end b (c, length ss) ->
  current_block b = Some c -> vertex (cfg b) c = Some (BasicBlock ss) ->
  reach (at_end (simple_state s st c b)) (loop_stack b) (raise_target b) (simple_state s st c b) G
    (c, length ss) [At (Stmt s)] (simple_outcome st).
Proof.
  intros Hst Hsim Ha [Hb _ HR He] Hend Hc Hv.
  assert (simple_state s st c b = push_stmt s b -> is_terminator st = false -> simple_outcome st = Next ->
    reach (at_end (simple_state s st c b)) (loop_stack b) (raise_target b) (simple_state s st c b) G
    (c, length ss) [At (Stmt s)] (simple_outcome st)) as Hplain.
  { intros Es Ht ->. rewrite Es in *. exists [At (Stmt s)], (c, length (ss ++ [s])). split_and!; [|by apply (path_added R (push_stmt s b)); [apply vertex_push_stmt|]|done].
    by apply (added_at_end s st). }
  destruct st; try discriminate; try (by apply Hplain); cbn [simple_state simple_outcome] in *; clear Hplain.
  - exists [At (Stmt s)]. split; [|done]. rewrite (ext_exit _ _ _ He).
    pose proof (walked_jumped s (g_exit (cfg b)) Unconditional c b Hb Hc (proj1 (inv_exit b Hb))) as W.
    rewrite (ext_exit _ _ _ (step_ext _ _ _ (wk_step _ _ _ _ _ W))).
    apply (jumped_path R G c ss s (g_exit (cfg b)) Unconditional b); [done..|apply (inv_exit b Hb)|done|done].
  - exists [At (Stmt s)]. split; [|done].
    apply (jumped_path R G c ss s (raise_target b) Exception b); [done..|by apply raise_target_ok|done|done].
  - intros f fs E. exists [At (Stmt s)]. split; [|done].
    apply (loop_jump_ok R G c ss s f_exit b f fs); try done. intros f' Hf'. by apply (inv_loops b Hb).
  - intros f fs E. exists [At (Stmt s)]. split; [|done].
    apply (loop_jump_ok R G c ss s f_header b f fs); try done. intros f' Hf'. by apply (inv_loops b Hb).
  - destruct (goto_ok R G c ss s name b Hb Hc HR Hv He) as [Hp Hcl].
    exists c, (length (ss ++ [s])), [At (Stmt s)]. split_and!; [done..|].
    by destruct (goto_eq s name b c Hb Hc) as (_ & _ & _ & ?).
Qed.

(** The statement is in its block from then on. *)
Lemma simple_vertex s st b c ss :
  adds_itself st = true -> current_block b = Some c -> vertex (cfg b) c = Some (BasicBlock ss) ->
  vertex (cfg (simple_state s st c b)) c = Some (BasicBlock (ss ++ [s])).
Proof.
  intros Ha Hc Hv. pose proof (vertex_push_stmt s b c ss Hc Hv) as H1.
  destruct st; try discriminate; try exact H1; cbn [simple_state]; unfold loop_jumped, goto_jumped;
    repeat case_match; by apply vertex_sealed.
Qed.

Lemma matched_edges_nodes matched t b : g_nodes (cfg (matched_edges matched t b)) = g_nodes (cfg b).
Proof. revert b. induction matched as [|p matched IH]; intros b; [done|]. exact (IH (push_edge p.1 t Unconditional b)). Qed.

Lemma declared_old s l c b v x :
  vertex (cfg b) v = Some x -> vertex (cfg (declared s l c b)) v = Some x.
Proof.
  intros Hv. pose proof (vertex_lt b v x Hv). unfold declared. cbv zeta. apply (push_vertex_old (BasicBlock [])).
  rewrite (vertex_push_stmt_ne s _ (node_count b)) by (done || lia).
  unfold vertex. simpl. rewrite matched_edges_nodes. by apply (push_vertex_old (BasicBlock [])).
Qed.

(** A label: its block holds it, and the code behind it has a block of its own. *)
Lemma label_reach R G ls s l b c ss p :
  around R ls b (declared s l c b) G -> current_block b = Some c -> vertex (cfg b) c = Some (BasicBlock ss) ->
  p = (c, length ss) \/ p = (node_count b, 0) ->
  path G p [At (Stmt s)] (S (node_count b), 0) /\ at_end (declared s l c b) (S (node_count b), 0).
Proof.
  intros [Hb _ HR He] Hc Hv Hp. pose proof (current_lt b c Hb Hc) as Hlt.
  destruct (label_eq s l b c Hb Hc) as (_ & W & _ & Ec & VL & VS & _ & Ein & Eout).
  assert (vertex G (node_count b) = Some (BasicBlock [s])) as HL.
  { apply (ext_closed _ _ _ He); [done|rewrite Ec; intros [=]; lia|]. intros Hin. destruct (HR _ Hin). lia. }
  assert (path G (node_count b, 0) [At (Stmt s)] (S (node_count b), 0)) as Hout.
  { eapply path_emit; [exact HL|done|]. apply (path_edge G (node_count b) (BasicBlock [s]) (S (node_count b)) Unconditional);
      [done|by apply (ext_edges _ _ _ He)|done|constructor]. }
  split.
  - destruct Hp as [->| ->]; [|exact Hout].
    apply (path_leave G c (length ss) (node_count b) Unconditional); [|by apply (ext_edges _ _ _ He)|done|exact Hout].
    apply (end_closed R b); [|done..]. apply (ext_back R _ (declared s l c b)); [|done].
    apply step_from_off; [apply W|apply declared_old|]. rewrite Ec. intros c' [= <-]. right. lia.
  - apply at_end_empty; [done..|]. right. exists (node_count b), Unconditional. done.
Qed.

(** ** The rules *)

Definition known (fuel : nat) (ss : list StmtId) : Prop :=
  Forall (fun s => s < fuel /\ s < length (Hir.stmts body))%nat ss.

Definition is_header (hd : CfgVertex) : bool :=
  match hd with WhileHeader _ | ForHeader _ _ _ | ForEachHeader _ _ => true | _ => false end.

Abbreviation walk fuel := (walk_statement_hir fuel body).
Abbreviation P fuel := (stmt_points fuel body).
Abbreviation L fuel := (stmt_labels fuel body).

(** The last part of a conditional. *)
Definition walk_else (fuel : nat) (last m : NodeIndex) (el : option (list StmtId)) : M unit :=
  match el with
  | Some ss => walk_branch (walk fuel) last FalseBranch m ss
  | None => edge last m FalseBranch
  end.

Definition sim (k : Code) (t : list Event) (o : Outcome) : Prop :=
  match k with
  | CStmt s => forall fuel b b' R G p,
      (s < fuel)%nat -> (s < length (Hir.stmts body))%nat -> around R (L fuel s) b b' G ->
      walk fuel s b = Some (tt, b') -> entry b [s] p ->
      reach (at_end b') (loop_stack b) (raise_target b) b' G p t o
  | CList ss => forall fuel b b' R G p,
      known fuel ss -> around R (ss ≫= L fuel) b b' G ->
      walk_all (walk fuel) ss b = Some (tt, b') -> entry b ss p ->
      reach (at_end b') (loop_stack b) (raise_target b) b' G p t o
  | CIf c ss es el => forall fuel s m h b b1 last b2 b3 R G,
      known fuel ss -> Forall (fun br => known fuel br.2) es -> known fuel (default [] el) ->
      vertex (cfg b) h = Some (Conditional c) -> target_ok b m ->
      walk_branch (walk fuel) h TrueBranch m ss b = Some (tt, b1) ->
      walk_elsifs (walk fuel) s m es h b1 = Some (last, b2) ->
      walk_else fuel last m el b2 = Some (tt, b3) ->
      around R ((ss ≫= L fuel) ++ (es ≫= branch_labels (L fuel)) ++ else_labels (L fuel) el) b (off b3) G ->
      reach (fun q => q = (m, 0) /\ live_at (cfg b3) m) (loop_stack b) (raise_target b) b3 G (h, 0) t o
  | CLoop hd ss => forall fuel s b c b2 R G,
      known fuel ss -> is_header hd = true -> current_block b = Some c ->
      walk_all (walk fuel) ss (loop_entry s hd c b) = Some (tt, b2) ->
      around R (ss ≫= L fuel) b (loop_end (node_count b) b2) G ->
      reach (at_end (loop_end (node_count b) b2)) (loop_stack b) (raise_target b)
        (loop_end (node_count b) b2) G (node_count b, 0) t o
  end.

(** *** Walks and their parts *)

Context (Hnested : nested body).

Lemma bind_inv {A B} (m : M A) (f : A -> M B) b r :
  (m ≫= f) b = Some r -> exists x b1, m b = Some (x, b1) /\ f x b1 = Some r.
Proof. unfold mbind, M_bind. destruct (m b) as [[x b1]|] eqn:E; [|done]. by exists x, b1. Qed.

Lemma walk_all_app_inv w ss1 ss2 b r :
  walk_all w (ss1 ++ ss2) b = Some r -> exists b1, walk_all w ss1 b = Some (tt, b1) /\ walk_all w ss2 b1 = Some r.
Proof.
  revert b. induction ss1 as [|s ss1 IH]; intros b E; [by exists b|].
  simpl in E. apply bind_inv in E as ([] & b1 & E1 & E2). destruct (IH b1 E2) as (b2 & E3 & E4).
  exists b2. split; [|done]. simpl. by rewrite (bind_eq _ _ _ tt b1 E1).
Qed.

Lemma known_stmts fuel ss : known fuel ss -> Forall (walked_stmt (walk fuel) (P fuel) (L fuel)) ss.
Proof. intros Hk. eapply Forall_impl; [exact Hk|]. intros s [H1 H2]. by apply statement_ok. Qed.

Lemma stmt_seg fuel s b b' :
  (s < fuel)%nat -> (s < length (Hir.stmts body))%nat -> Inv b -> walk fuel s b = Some (tt, b') ->
  Walked ∅ (P fuel s) (L fuel s) b b' /\ same_stacks b b'.
Proof.
  intros H1 H2 Hb E. destruct (statement_ok body fuel s Hnested H1 H2 b Hb) as (b2 & E2 & W & S2).
  rewrite E in E2. by injection E2 as <-.
Qed.

Lemma list_seg fuel ss b b' :
  known fuel ss -> Inv b -> walk_all (walk fuel) ss b = Some (tt, b') ->
  Walked ∅ (ss ≫= P fuel) (ss ≫= L fuel) b b' /\ same_stacks b b'.
Proof.
  intros Hk Hb E. destruct (walk_all_ok _ _ _ _ (known_stmts fuel ss Hk) b Hb) as (b2 & E2 & W & S2).
  rewrite E in E2. by injection E2 as <-.
Qed.

(** A list in two parts. *)
Lemma list_split fuel ss1 ss2 b b' R G :
  known fuel (ss1 ++ ss2) -> around R ((ss1 ++ ss2) ≫= L fuel) b b' G ->
  walk_all (walk fuel) (ss1 ++ ss2) b = Some (tt, b') ->
  exists b1, walk_all (walk fuel) ss1 b = Some (tt, b1) /\ walk_all (walk fuel) ss2 b1 = Some (tt, b') /\
    around R (ss1 ≫= L fuel) b b1 G /\ around R (ss2 ≫= L fuel) b1 b' G /\
    (forall v l, awaits b1 v l -> awaits b' v l) /\
    loop_stack b1 = loop_stack b /\ raise_target b1 = raise_target b.
Proof.
  intros [Hk1 Hk2]%Forall_app Ha (b1 & E1 & E2)%walk_all_app_inv. rewrite bind_app in Ha.
  destruct (list_seg fuel ss1 b b1 Hk1 (ar_inv _ _ _ _ _ Ha) E1) as [W1 [S1 S1']].
  destruct (list_seg fuel ss2 b1 b' Hk2 (wk_inv _ _ _ _ _ W1) E2) as [W2 _].
  destruct (around_split _ _ _ _ _ _ _ _ _ Ha W1 W2) as (A1 & A2 & Haw).
  exists b1. split_and!; [done..|]. by apply (raise_target_walked _ _ _ _ _ W1).
Qed.

Lemma walk_all_one w s b r : walk_all w [s] b = Some r -> w s b = Some r.
Proof. intros ([] & b1 & E1 & E2)%bind_inv. injection E2 as <-. done. Qed.

(** A statement and the list behind it. *)
Lemma cons_split fuel s ss b b' R G :
  known fuel (s :: ss) -> around R ((s :: ss) ≫= L fuel) b b' G ->
  walk_all (walk fuel) (s :: ss) b = Some (tt, b') ->
  (s < fuel)%nat /\ (s < length (Hir.stmts body))%nat /\ known fuel ss /\
  exists b1, walk fuel s b = Some (tt, b1) /\ walk_all (walk fuel) ss b1 = Some (tt, b') /\
    around R (L fuel s) b b1 G /\ around R (ss ≫= L fuel) b1 b' G /\
    (forall v l, awaits b1 v l -> awaits b' v l) /\
    loop_stack b1 = loop_stack b /\ raise_target b1 = raise_target b.
Proof.
  intros Hk Ha E. destruct (list_split fuel [s] ss b b' R G Hk Ha E) as (b1 & E1 & E2 & A1 & A2 & Hr).
  apply Forall_cons in Hk as [[H1 H2] Hk]. split_and!; [done..|]. exists b1.
  split; [by apply walk_all_one|]. split; [done|]. split; [|done]. simpl in A1. by rewrite app_nil_r in A1.
Qed.

(** *** Lists *)

Lemma sim_nil : sim (CList []) [] Next.
Proof.
  intros fuel b b' R G p _ _ [= <-] [Hp|(? & ? & ? & ? & _)]; [|done].
  exists [], p. split_and!; [done|constructor|done].
Qed.

Lemma entry_cons b s ss p : entry b (s :: ss) p -> entry b [s] p.
Proof. intros [?|(x & rest & l & [= -> ->] & Hl & Hp)]; [by left|]. right. by exists x, [], l. Qed.

Lemma sim_cons s ss t1 t2 o :
  sim (CStmt s) t1 Next -> sim (CList ss) t2 o -> sim (CList (s :: ss)) (t1 ++ t2) o.
Proof.
  intros H1 H2 fuel b b' R G p Hk Ha E Hp%entry_cons.
  destruct (cons_split _ _ _ _ _ _ _ Hk Ha E) as (Hs1 & Hs2 & Hks & b1 & E1 & E2 & A1 & A2 & Haw & El & Er).
  destruct (H1 fuel b b1 R G p Hs1 Hs2 A1 E1 Hp) as (t' & q & Hq & Hpath & Hsub).
  eapply reach_prefix; [exact Hpath|exact Hsub|].
  specialize (H2 fuel b1 b' R G q Hks A2 E2 (or_introl Hq)). by rewrite El, Er in H2.
Qed.

Lemma sim_leave s ss t o : sim (CStmt s) t o -> o <> Next -> sim (CList (s :: ss)) t o.
Proof.
  intros H1 Hne fuel b b' R G p Hk Ha E Hp%entry_cons.
  destruct (cons_split _ _ _ _ _ _ _ Hk Ha E) as (Hs1 & Hs2 & Hks & b1 & E1 & E2 & A1 & A2 & Haw & _).
  eapply reach_later; [exact Haw|done|]. by apply (H1 fuel b b1 R G p).
Qed.

(** The label that starts a list is in the table at its end. *)
Lemma label_known fuel lab l ss b b' R G :
  known fuel (lab :: ss) -> around R ((lab :: ss) ≫= L fuel) b b' G ->
  walk_all (walk fuel) (lab :: ss) b = Some (tt, b') -> Hir.stmt_idx body lab = Some (Hir.Label l) ->
  label_table b' !! l = Some (node_count b) /\ Inv b'.
Proof.
  intros Hk Ha E Hl.
  destruct (cons_split _ _ _ _ _ _ _ Hk Ha E) as (Hs1 & Hs2 & Hks & b1 & E1 & E2 & A1 & A2 & _).
  destruct fuel as [|f]; [lia|]. destruct (inv_current b (ar_inv _ _ _ _ _ Ha)) as (c & ss0 & Hc & _).
  rewrite (simple_eq f lab _ c b Hl) in E1; [|done|apply Ha|done]. injection E1 as <-.
  destruct (label_eq lab l b c (ar_inv _ _ _ _ _ Ha) Hc) as (_ & _ & _ & _ & _ & _ & El & _).
  destruct (list_seg _ _ _ _ Hks (ar_inv _ _ _ _ _ A2) E2) as [W _]. split; [|apply W].
  apply (wk_kept _ _ _ _ _ W); [done|].
  destruct (ar_fresh _ _ _ _ _ Ha) as [Hnd _]. cbn [mbind list_bind] in Hnd.
  apply NoDup_app in Hnd as (_ & Hd & _). apply Hd. cbn [stmt_labels]. rewrite Hl. apply list_elem_of_here.
Qed.

Lemma sim_jump pre lab post l t1 t2 o :
  sim (CList (pre ++ lab :: post)) t1 (Jumped l) -> Hir.stmt_idx body lab = Some (Hir.Label l) ->
  sim (CList (lab :: post)) t2 o -> sim (CList (pre ++ lab :: post)) (t1 ++ t2) o.
Proof.
  intros H1 Hl H2 fuel b b' R G p Hk Ha E Hp.
  destruct (H1 fuel b b' R G p Hk Ha E Hp) as (v & i & t' & Hpath & Hcl & Hsub & Haw).
  destruct (list_split _ _ _ _ _ _ _ Hk Ha E) as (b1 & E1 & E2 & A1 & A2 & _ & El & Er).
  apply Forall_app in Hk as [_ Hk].
  destruct (label_known _ _ _ _ _ _ _ _ Hk A2 E2 Hl) as [Ht Hi].
  assert (MkEdge v (node_count b1) Unconditional ∈ g_edges G) as Hin.
  { apply (ext_edges _ _ _ (ar_ext _ _ _ _ _ A2)). destruct Haw as [Hpend|(t & Ht' & Hin)].
    - destruct (inv_pending b' Hi v l Hpend). congruence.
    - assert (t = node_count b1) as -> by congruence. done. }
  eapply (reach_prefix _ _ _ _ _ _ (node_count b1, 0)); [|exact Hsub|].
  - rewrite <- (app_nil_r t'). eapply path_trans; [exact Hpath|].
    by eapply path_leave; [exact Hcl|exact Hin|done|constructor].
  - specialize (H2 fuel b1 b' R G (node_count b1, 0) Hk A2 E2). rewrite El, Er in H2. apply H2.
    right. by exists lab, post, l.
Qed.

(** *** Simple statements *)

Lemma sim_simple_both s st : Hir.stmt_idx body s = Some st -> is_simple body st = true ->
  sim (CStmt s) [At (Stmt s)] (simple_outcome st) /\ sim (CStmt s) [At (Stmt s)] Stopped.
Proof.
  intros Hst Hsim. cut (forall fuel b b' R G p,
      (s < fuel)%nat -> (s < length (Hir.stmts body))%nat -> around R (L fuel s) b b' G ->
      walk fuel s b = Some (tt, b') -> entry b [s] p ->
      reach (at_end b') (loop_stack b) (raise_target b) b' G p [At (Stmt s)] (simple_outcome st) /\
      reach (at_end b') (loop_stack b) (raise_target b) b' G p [At (Stmt s)] Stopped).
  { intros Hall. split; intros fuel b b' R G p H1 H2 Ha E Hp; by destruct (Hall fuel b b' R G p H1 H2 Ha E Hp). }
  intros [|f] b b' R G p H1 H2 Ha E Hp; [lia|].
  destruct (inv_current b (ar_inv _ _ _ _ _ Ha)) as (c & ss & Hc & Hv).
  rewrite (simple_eq f s st c b Hst Hsim (ar_inv _ _ _ _ _ Ha) Hc) in E. injection E as <-.
  destruct (adds_itself st) eqn:Hadd.
  - apply (entry_at_end _ _ _ _ Hst Hadd) in Hp. pose proof Hp as [(c' & ss' & Hc' & Hv' & ->) _].
    assert (c' = c) as -> by congruence. assert (ss' = ss) as -> by congruence.
    split; [by apply (simple_reach R G (L (S f) s))|].
    apply (stop_in R); [by apply simple_vertex|apply Ha].
  - destruct st as [| | | | | | | | | | | | | |l| | |]; try discriminate.
    destruct (label_reach R G _ s l b c ss p Ha Hc Hv) as [Hpath Hend].
    { destruct Hp as [[(c' & ss' & Hc' & Hv' & ->) _]|(? & ? & ? & _ & _ & ->)]; [left|by right].
      assert (c' = c) as -> by congruence. assert (ss' = ss) as -> by congruence. done. }
    split; [by exists [At (Stmt s)], (S (node_count b), 0)|]. exact (reach_stop _ _ _ _ _ _ _ [] _ Hpath).
Qed.

Lemma sim_recovered s e : Hir.stmt_idx body s = Some (Hir.Expr e) -> Hir.is_recovered body e = true ->
  sim (CStmt s) [] Next.
Proof.
  intros Hst Hr [|f] b b' R G p H1 H2 Ha E Hp; [lia|].
  apply (entry_at_end _ _ _ _ Hst) in Hp; [|done]. cbn [walk_statement_hir] in E.
  rewrite Hst in E. apply bind_inv in E as (st & b1 & [= <- <-] & E). cbv zeta in E. rewrite Hr in E. injection E as <-.
  exists [], p. split_and!; [done|constructor|done].
Qed.

(** *** Branches *)

Lemma off_link_end m b : off (link_end m b) = match current_block b with
  | Some c => push_edge c m (link_kind b c) (off b)
  | None => off b
  end.
Proof. unfold link_end. by destruct (current_block b). Qed.

Lemma step_link_end m b : step ∅ (off b) (off (link_end m b)).
Proof.
  rewrite off_link_end. destruct (current_block b); [apply step_push_edge|apply step_refl].
Qed.

Lemma step_branch_entry from k b :
  Inv b -> (from < node_count b)%nat -> step ∅ (off b) (branch_entry from k b).
Proof.
  intros Hb Hf. apply step_from_off.
  - apply (wk_step _ _ _ _ _ (walked_branch_entry from k b Hb Hf)).
  - intros v x Hv. by apply (push_vertex_old (BasicBlock [])).
  - intros c [= <-]. by right.
Qed.

Lemma step_seq b b1 b2 : step ∅ b b1 -> step ∅ b1 b2 -> step ∅ b b2.
Proof. intros H1 H2. apply (step_trans ∅ ∅ b b1); [done..|]. intros v _ []%not_elem_of_empty. Qed.

Lemma branch_seg fuel from k m ss b b1 :
  known fuel ss -> Inv b -> (from < node_count b)%nat -> target_ok b m ->
  walk_branch (walk fuel) from k m ss b = Some (tt, b1) ->
  exists b2, walk_all (walk fuel) ss (branch_entry from k b) = Some (tt, b2) /\ b1 = link_end m b2 /\
    Walked ∅ (ss ≫= P fuel) (ss ≫= L fuel) (branch_entry from k b) b2 /\
    same_stacks (branch_entry from k b) b2 /\ Inv b2 /\ target_ok b2 m /\
    Walked ∅ (ss ≫= P fuel) (ss ≫= L fuel) b b1 /\ same_stacks b b1 /\ step ∅ (off b) (off b1).
Proof.
  intros Hk Hb Hf Hm E.
  destruct (branch_ok (walk fuel) from k m ss _ _ b Hb Hf Hm (walk_all_ok _ _ _ _ (known_stmts fuel ss Hk)))
    as (b2 & E2 & W2 & S2 & E3 & W3 & S3).
  rewrite E in E3. injection E3 as ->. exists b2. split_and!; try done; [apply W2| |].
  - eapply target_ok_walked; [exact W2|].
    by eapply target_ok_walked; [by apply walked_branch_entry|].
  - eapply step_seq; [|apply step_link_end]. apply step_off.
    eapply step_seq; [by apply step_branch_entry|apply W2].
Qed.

(** A branch from its block to the merge block. *)
Lemma branch_reach fuel from k m ss b b1 R G t o :
  sim (CList ss) t o -> known fuel ss -> around R (ss ≫= L fuel) b (off b1) G ->
  (from < node_count b)%nat -> target_ok b m -> is_executable k = true ->
  walk_branch (walk fuel) from k m ss b = Some (tt, b1) ->
  MkEdge from (node_count b) k ∈ g_edges G /\
  reach (fun q => q = (m, 0) /\ live_at (cfg b1) m) (loop_stack b) (raise_target b) b1 G (node_count b, 0) t o.
Proof.
  intros Hsim Hk [Hb Hf HR He] Hfrom Hm Hex E.
  destruct (branch_seg _ _ _ _ _ _ _ Hk Hb Hfrom Hm E) as (b2 & E2 & -> & W2 & S2 & H2 & Hm2 & _ & _ & _).
  pose proof (walked_branch_entry from k b Hb Hfrom) as W1. set (be := branch_entry from k b) in *.
  pose proof (ext_back R _ _ G (step_link_end m b2) He) as He2.
  assert (rsv R be) as HR1 by (by apply (rsv_step R b); [apply W1|]).
  assert (rsv R b2) as HR2 by (by apply (rsv_step R be); [apply W2|]).
  assert (MkEdge from (node_count b) k ∈ g_edges (cfg be)) as Hin.
  { simpl. apply elem_of_app. right. by apply list_elem_of_singleton. }
  split.
  { apply (ext_edges _ _ _ He2), (ext_edges _ _ _ (step_ext _ _ _ (wk_step _ _ _ _ _ W2))), Hin. }
  assert (reach (at_end b2) (loop_stack b) (raise_target b) b2 G (node_count b, 0) t o) as Hr.
  { apply (Hsim fuel be b2 R G (node_count b, 0) Hk); [|done|].
    - split; [apply W1|by apply (fresh_walked _ _ _ _ _ Hf W1)|done|by apply ext_off].
    - left. apply at_end_empty; [done|by apply (push_vertex_new (BasicBlock []))|].
      right. by exists from, k. }
  destruct (inv_current b2 H2) as (c & ss2 & Hc & Hv).
  assert (link_end m b2 = push_edge c m (link_kind b2 c) b2) as El by (unfold link_end; by rewrite Hc).
  eapply reach_onward; [| |exact Hr].
  - intros q ((c' & ss' & Hc' & Hv' & ->) & Hl & _). assert (c' = c) as -> by congruence.
    rewrite El, (link_kind_live b2 c) by by apply Hl. exists (m, 0).
    split; [split; [done|by apply live_at_edge]|].
    apply (path_leave G c (length ss') m Unconditional); [by apply (end_closed R b2)| |done|constructor].
    apply (ext_edges _ _ _ He). rewrite El, (link_kind_live b2 c) by by apply Hl.
    simpl. apply elem_of_app. right. by apply list_elem_of_singleton.
  - intros v l. apply (wk_awaits _ _ _ _ _ (walked_link_end m b2 H2 Hm2)); [constructor|]. by intros l' Hl'%elem_of_nil.
Qed.

(** *** Conditionals *)

Lemma elsifs_cons_inv w s m c ss es h b last b' :
  walk_elsifs w s m ((c, ss) :: es) h b = Some (last, b') -> (h < node_count b)%nat ->
  exists b1, walk_branch w (node_count b) TrueBranch m ss (condition_entry (Conditional c) s h b) = Some (tt, b1) /\
    walk_elsifs w s m es (node_count b) b1 = Some (last, b').
Proof.
  intros E Hh. cbn [walk_elsifs] in E.
  apply bind_inv in E as (h' & b1 & E0 & E). rewrite origin_eq in E0. injection E0 as <- <-.
  apply bind_inv in E as ([] & b2 & E1 & E). rewrite edge_eq in E1 by (autorewrite with nodes; lia).
  injection E1 as <-. apply bind_inv in E as ([] & b3 & E2 & E3). by exists b3.
Qed.

Lemma condition_entry_spec v s h b m :
  Inv b -> (h < node_count b)%nat -> target_ok b m ->
  Walked ∅ (kind_points v) [] b (condition_entry v s h b) /\
  (node_count b < node_count (condition_entry v s h b))%nat /\ target_ok (condition_entry v s h b) m /\
  vertex (cfg (condition_entry v s h b)) (node_count b) = Some v /\
  step ∅ (off b) (off (condition_entry v s h b)).
Proof.
  intros Hb Hh Hm. pose proof (walked_condition_entry v s h b Hb Hh) as W. split_and!.
  - done.
  - unfold condition_entry. autorewrite with nodes. lia.
  - by eapply target_ok_walked.
  - by apply (push_vertex_new v).
  - eapply step_seq; [apply (step_push_origin v s (off b))|].
    apply (step_push_edge h (node_count b) FalseBranch (off (push_vertex_with_origin v s b))).
Qed.

Lemma elsifs_seg fuel s m es h b last b1 :
  Forall (fun br => known fuel br.2) es -> Inv b -> (h < node_count b)%nat -> target_ok b m ->
  walk_elsifs (walk fuel) s m es h b = Some (last, b1) ->
  Walked ∅ (es ≫= branch_points (P fuel)) (es ≫= branch_labels (L fuel)) b b1 /\ same_stacks b b1 /\
  (last < node_count b1)%nat /\ step ∅ (off b) (off b1).
Proof.
  intros Hk Hb Hh Hm E.
  destruct (elsifs_ok (walk fuel) (P fuel) (L fuel) s m es h b Hb Hh Hm) as (last' & b' & E' & Hl & W & S').
  { eapply Forall_impl; [exact Hk|]. intros br. apply known_stmts. }
  rewrite E in E'. injection E' as <- <-. split_and!; [done..|]. clear W S' Hl.
  revert h b Hb Hh Hm E. induction Hk as [|[c ss] es Hss _ IH]; intros h b Hb Hh Hm E.
  { injection E as -> ->. apply step_refl. }
  apply elsifs_cons_inv in E as (b2 & E1 & E2); [|done].
  destruct (condition_entry_spec (Conditional c) s h b m Hb Hh Hm) as (W1 & Hlt & Hm1 & _ & Hs1).
  destruct (branch_seg _ _ _ _ _ _ _ Hss (wk_inv _ _ _ _ _ W1) Hlt Hm1 E1) as (_ & _ & _ & _ & _ & _ & _ & W2 & _ & Hs2).
  eapply step_seq; [exact Hs1|]. eapply step_seq; [exact Hs2|].
  apply (IH (node_count b) b2); [apply W2| |by eapply target_ok_walked|done].
  pose proof (node_count_walked _ _ _ _ _ W2). lia.
Qed.

Lemma else_seg fuel last m el b b1 :
  known fuel (default [] el) -> Inv b -> (last < node_count b)%nat -> target_ok b m ->
  walk_else fuel last m el b = Some (tt, b1) ->
  Walked ∅ (else_points (P fuel) el) (else_labels (L fuel) el) b b1 /\ same_stacks b b1 /\
  step ∅ (off b) (off b1).
Proof.
  intros Hk Hb Hl Hm E. destruct el as [ss|]; simpl in *.
  - by destruct (branch_seg _ _ _ _ _ _ _ Hk Hb Hl Hm E) as (_ & _ & _ & _ & _ & _ & _ & W & S' & Hs).
  - rewrite edge_eq in E by (done || apply Hm). injection E as <-.
    split_and!; [by apply walked_push_edge|done|]. apply (step_push_edge last m FalseBranch (off b)).
Qed.

(** The conditional behind its first condition [h]. *)
Lemma rest_seg fuel s m h ss es el b b1 last b2 b3 :
  known fuel ss -> Forall (fun br => known fuel br.2) es -> known fuel (default [] el) ->
  Inv b -> (h < node_count b)%nat -> target_ok b m ->
  walk_branch (walk fuel) h TrueBranch m ss b = Some (tt, b1) ->
  walk_elsifs (walk fuel) s m es h b1 = Some (last, b2) ->
  walk_else fuel last m el b2 = Some (tt, b3) ->
  Walked ∅ (ss ≫= P fuel) (ss ≫= L fuel) b b1 /\
  Walked ∅ (es ≫= branch_points (P fuel)) (es ≫= branch_labels (L fuel)) b1 b2 /\
  Walked ∅ (else_points (P fuel) el) (else_labels (L fuel) el) b2 b3 /\
  target_ok b1 m /\ target_ok b2 m /\ (h < node_count b1)%nat /\ (last < node_count b2)%nat /\
  step ∅ (off b) (off b1) /\ step ∅ (off b1) (off b2) /\ step ∅ (off b2) (off b3) /\
  same_stacks b b1 /\ same_stacks b1 b2 /\ same_stacks b2 b3.
Proof.
  intros Hk1 Hk2 Hk3 Hb Hh Hm E1 E2 E3.
  destruct (branch_seg _ _ _ _ _ _ _ Hk1 Hb Hh Hm E1) as (_ & _ & _ & _ & _ & _ & _ & W1 & S1 & Hs1).
  pose proof (target_ok_walked _ _ _ _ _ _ W1 Hm) as Hm1.
  assert (h < node_count b1)%nat as Hh1 by (pose proof (node_count_walked _ _ _ _ _ W1); lia).
  destruct (elsifs_seg _ _ _ _ _ _ _ _ Hk2 (wk_inv _ _ _ _ _ W1) Hh1 Hm1 E2) as (W2 & S2 & Hl & Hs2).
  pose proof (target_ok_walked _ _ _ _ _ _ W2 Hm1) as Hm2.
  destruct (else_seg _ _ _ _ _ _ Hk3 (wk_inv _ _ _ _ _ W2) Hl Hm2 E3) as (W3 & S3 & Hs3).
  by split_and!.
Qed.

(** The condition is where the conditional starts. *)
Lemma condition_path R b b' G h c :
  vertex (cfg b) h = Some (Conditional c) -> step ∅ (off b) (off b') -> ext R (off b') G ->
  path G (h, 0) [At (Header c)] (h, 1) /\ closed_in G h 1.
Proof.
  intros Hv Hs He. destruct (ext_grows _ _ _ (ext_back R (off b) (off b') G Hs He) h _ Hv) as (y & Hy & ->).
  split; [by apply (path_vertex G h (Conditional c))|by exists (Conditional c)].
Qed.

Lemma condition_branch R b b' G h c w k :
  vertex (cfg b) h = Some (Conditional c) -> step ∅ (off b) (off b') -> ext R (off b') G ->
  MkEdge h w k ∈ g_edges G -> is_executable k = true -> path G (h, 0) [At (Header c)] (w, 0).
Proof.
  intros Hv Hs He Hin Hk. apply (path_through G h (Conditional c) w k [] (w, 0)); [|done|done|constructor].
  by destruct (ext_grows _ _ _ (ext_back R (off b) (off b') G Hs He) h _ Hv) as (y & Hy & ->).
Qed.

(** Two parts of a construct, neither of which leaves its end open. *)
Lemma off_split R ls1 ls2 ps1 ps2 b b1 b2 G :
  around R (ls1 ++ ls2) b (off b2) G -> Walked ∅ ps1 ls1 b b1 -> Walked ∅ ps2 ls2 b1 b2 ->
  step ∅ (off b1) (off b2) ->
  around R ls1 b (off b1) G /\ around R ls2 b1 (off b2) G /\ (forall v l, awaits b1 v l -> awaits b2 v l) /\
  forall v, live_at (cfg b1) v -> live_at (cfg b2) v.
Proof.
  intros [Hi Hf Hr He] W1 W2 Hs. destruct (fresh_split _ _ _ _ _ _ Hf W1) as [Hf1 Hf2]. split_and!.
  - split; [done..|]. by apply (ext_back R _ (off b2)).
  - split; [apply W1|done|by apply (rsv_step R b); [apply W1|]|done].
  - intros v l. apply (wk_awaits _ _ _ _ _ W2); [apply Hf2..].
  - intros v. apply (live_at_ext ∅ (off b1) (cfg b2)). apply Hs.
Qed.

Lemma sim_if_stop c ss es el : sim (CIf c ss es el) [At (Header c)] Stopped.
Proof.
  intros fuel s m h b b1 last b2 b3 R G Hk1 Hk2 Hk3 Hv Hm E1 E2 E3 Ha.
  destruct (rest_seg _ _ _ _ _ _ _ _ _ _ _ _ Hk1 Hk2 Hk3 (ar_inv _ _ _ _ _ Ha) (vertex_lt _ _ _ Hv) Hm E1 E2 E3)
    as (_ & _ & _ & _ & _ & _ & _ & Hs1 & Hs2 & Hs3 & _).
  apply (reach_stop _ _ _ _ _ _ (h, 1) []).
  by destruct (condition_path R b b3 G h c Hv (step_seq _ _ _ Hs1 (step_seq _ _ _ Hs2 Hs3)) (ar_ext _ _ _ _ _ Ha)).
Qed.

Lemma sim_if_true c ss es el t o : sim (CList ss) t o -> sim (CIf c ss es el) (At (Header c) :: t) o.
Proof.
  intros Hsim fuel s m h b b1 last b2 b3 R G Hk1 Hk2 Hk3 Hv Hm E1 E2 E3 Ha.
  pose proof (ar_inv _ _ _ _ _ Ha) as Hb. pose proof (vertex_lt _ _ _ Hv) as Hh.
  destruct (rest_seg _ _ _ _ _ _ _ _ _ _ _ _ Hk1 Hk2 Hk3 Hb Hh Hm E1 E2 E3)
    as (W1 & W2 & W3 & _ & _ & _ & _ & Hs1 & Hs2 & Hs3 & _).
  pose proof (step_seq _ _ _ Hs2 Hs3) as Hs23.
  destruct (off_split _ _ _ _ _ _ _ _ _ Ha W1 (walked_seq _ _ _ _ _ _ _ _ W2 W3) Hs23) as (A1 & _ & Haw & Hl).
  destruct (branch_reach fuel h TrueBranch m ss b b1 R G t o Hsim Hk1 A1 Hh Hm eq_refl E1) as [Hin Hr].
  eapply (reach_prefix _ _ _ _ _ _ _ _ [At (Header c)]); [|done|].
  - by eapply (condition_branch R b b1 G h c (node_count b) TrueBranch Hv Hs1 (ar_ext _ _ _ _ _ A1)).
  - eapply reach_onward; [|exact Haw|exact Hr]. intros q [-> Hlm]. exists (m, 0). split; [|constructor].
    split; [done|by apply Hl].
Qed.

Lemma sim_if_elsif c ss c' ss' es el t o :
  sim (CIf c' ss' es el) t o -> sim (CIf c ss ((c', ss') :: es) el) (At (Header c) :: t) o.
Proof.
  intros Hsim fuel s m h b b1 last b2 b3 R G Hk1 Hk2 Hk3 Hv Hm E1 E2 E3 Ha.
  pose proof (ar_inv _ _ _ _ _ Ha) as Hb. pose proof (vertex_lt _ _ _ Hv) as Hh.
  destruct (rest_seg _ _ _ _ _ _ _ _ _ _ _ _ Hk1 Hk2 Hk3 Hb Hh Hm E1 E2 E3)
    as (W1 & W2 & W3 & Hm1 & _ & Hh1 & _ & Hs1 & Hs2 & Hs3 & S1 & _ & _).
  pose proof (step_seq _ _ _ Hs2 Hs3) as Hs23.
  destruct (off_split _ _ _ _ _ _ _ _ _ Ha W1 (walked_seq _ _ _ _ _ _ _ _ W2 W3) Hs23) as (A1 & A2 & _).
  apply elsifs_cons_inv in E2 as (b4 & E2 & E4); [|done]. apply Forall_cons in Hk2 as [Hk2 Hk4].
  destruct (condition_entry_spec (Conditional c') s h b1 m (wk_inv _ _ _ _ _ W1) Hh1 Hm1) as (W4 & _ & Hm4 & Hv4 & Hs4).
  pose proof (ar_ext _ _ _ _ _ A2) as He.
  eapply (reach_prefix _ _ _ _ _ _ _ _ [At (Header c)]); [|done|].
  - eapply (condition_branch R b b3 G h c (node_count b1) FalseBranch Hv (step_seq _ _ _ Hs1 Hs23) He); [|done].
    assert (step ∅ (off (condition_entry (Conditional c') s h b1)) (off b3)) as Hs5.
    { destruct (rest_seg _ _ _ _ _ _ _ _ _ _ _ _ Hk2 Hk4 Hk3 (wk_inv _ _ _ _ _ W4) (vertex_lt _ _ _ Hv4) Hm4 E2 E4 E3)
        as (_ & _ & _ & _ & _ & _ & _ & H1 & H2 & H3 & _).
      eapply step_seq; [exact H1|]. by eapply step_seq. }
    apply (ext_edges _ _ _ (ext_back R _ _ G Hs5 He)). simpl. apply elem_of_app. right. by apply list_elem_of_singleton.
  - specialize (Hsim fuel s m (node_count b1) (condition_entry (Conditional c') s h b1) b4 last b2 b3 R G
      Hk2 Hk4 Hk3 Hv4 Hm4 E2 E4 E3).
    destruct S1 as [S11 S12]. change (loop_stack (condition_entry _ s h b1)) with (loop_stack b1) in Hsim.
    change (raise_target (condition_entry _ s h b1)) with (raise_target b1) in Hsim.
    rewrite S12, (raise_target_walked _ _ _ _ _ W1 S11) in Hsim. apply Hsim.
    destruct A2 as [Hi Hf Hr _]. split; [apply W4| |by apply (rsv_step R b1); [apply W4|]|done].
    apply (fresh_walked _ _ _ _ _ Hf) in W4. cbn [mbind list_bind] in W4. by rewrite <- app_assoc in W4.
Qed.

Lemma sim_if_else c ss ss' t o : sim (CList ss') t o -> sim (CIf c ss [] (Some ss')) (At (Header c) :: t) o.
Proof.
  intros Hsim fuel s m h b b1 last b2 b3 R G Hk1 Hk2 Hk3 Hv Hm E1 E2 E3 Ha.
  pose proof (ar_inv _ _ _ _ _ Ha) as Hb. pose proof (vertex_lt _ _ _ Hv) as Hh.
  destruct (rest_seg _ _ _ _ _ _ _ _ _ _ _ _ Hk1 Hk2 Hk3 Hb Hh Hm E1 E2 E3)
    as (W1 & _ & W3 & Hm1 & _ & Hh1 & _ & Hs1 & _ & Hs3 & [S1 S1'] & _).
  injection E2 as -> ->.
  destruct (off_split _ _ _ _ _ _ _ _ _ Ha W1 W3 Hs3) as (A1 & A2 & _).
  destruct (branch_reach fuel last FalseBranch m ss' b2 b3 R G t o Hsim Hk3 A2 Hh1 Hm1 eq_refl E3) as [Hin Hr].
  rewrite S1', (raise_target_walked _ _ _ _ _ W1 S1) in Hr.
  eapply (reach_prefix _ _ _ _ _ _ _ _ [At (Header c)]); [|done|exact Hr].
  by eapply (condition_branch R b b2 G last c (node_count b2) FalseBranch Hv Hs1 (ar_ext _ _ _ _ _ A1)).
Qed.

Lemma sim_if_none c ss : sim (CIf c ss [] None) [At (Header c)] Next.
Proof.
  intros fuel s m h b b1 last b2 b3 R G Hk1 Hk2 Hk3 Hv Hm E1 E2 E3 Ha.
  pose proof (ar_inv _ _ _ _ _ Ha) as Hb. pose proof (vertex_lt _ _ _ Hv) as Hh.
  destruct (rest_seg _ _ _ _ _ _ _ _ _ _ _ _ Hk1 Hk2 Hk3 Hb Hh Hm E1 E2 E3)
    as (W1 & _ & W3 & Hm1 & _ & Hh1 & _ & Hs1 & _ & Hs3 & _).
  injection E2 as -> ->. simpl in E3. rewrite edge_eq in E3 by (done || apply Hm1). injection E3 as <-.
  exists [At (Header c)], (m, 0). split_and!; [done|by apply live_at_edge| |done].
  eapply (condition_branch R b _ G last c m FalseBranch Hv (step_seq _ _ _ Hs1 Hs3) (ar_ext _ _ _ _ _ Ha)); [|done].
  apply (ext_edges _ _ _ (ar_ext _ _ _ _ _ Ha)). simpl. apply elem_of_app. right. by apply list_elem_of_singleton.
Qed.

(** *** Constructs with a merge block *)

Lemma child_known f s st ss :
  Hir.stmt_idx body s = Some st -> (s < S f)%nat -> (s < length (Hir.stmts body))%nat ->
  (forall c, c ∈ ss -> c ∈ children st) -> known f ss.
Proof.
  intros Hst H1 H2 Hc. apply Forall_forall. intros c Hin. pose proof (Hnested s st Hst c (Hc c Hin)). lia.
Qed.

(** A vertex [hd] at the end of the graph, before the edge into it. *)
Record headed (hd : CfgVertex) (b b1 : CfgBuilder) : Prop := {
  hd_walked : Walked ∅ (kind_points hd) [] b b1;
  hd_count : node_count b1 = S (node_count b);
  hd_target : target_ok b1 (node_count b);
  hd_vertex : vertex (cfg b1) (node_count b) = Some hd;
  hd_current : current_block b1 = current_block b;
  hd_step : step ∅ (off b) (off b1);
  hd_stacks : same_stacks b b1;
}.

Lemma headed_vertex hd b : Inv b -> headed hd b (push_vertex hd b).
Proof.
  intros Hb. split; try done; [by apply walked_push_vertex|apply node_count_push|by apply target_ok_new|
    apply push_vertex_new|apply (step_push_vertex hd (off b))].
Qed.

Lemma headed_origin hd s b : Inv b -> headed hd b (push_vertex_with_origin hd s b).
Proof.
  intros Hb. destruct (headed_vertex hd b Hb) as [_ H1 [H2 H2'] H3 _ _ _].
  split; try done; [by apply walked_push_origin|apply (step_push_origin hd s (off b))].
Qed.

(** The state in which the parts of a conditional are walked. *)
Lemma construct_spec hd v b c :
  Inv b -> current_block b = Some c -> headed hd b (v b) ->
  Walked ∅ (kind_points hd) [] b (construct_entry v c b) /\
  node_count (construct_entry v c b) = S (S (node_count b)) /\
  target_ok (construct_entry v c b) (S (node_count b)) /\
  vertex (cfg (construct_entry v c b)) (node_count b) = Some hd /\
  vertex (cfg (construct_entry v c b)) (S (node_count b)) = Some (BasicBlock []) /\
  current_block (construct_entry v c b) = Some c /\
  MkEdge c (node_count b) Unconditional ∈ g_edges (cfg (construct_entry v c b)) /\
  step ∅ (off b) (off (construct_entry v c b)) /\ same_stacks b (construct_entry v c b).
Proof.
  intros Hb Hc [W1 N1 T1 V1 C1 Hs1 S1]. pose proof (current_lt b c Hb Hc) as Hlt. unfold construct_entry.
  pose proof (walked_push_edge c (node_count b) Unconditional (v b) (wk_inv _ _ _ _ _ W1) ltac:(lia) T1) as W2.
  set (b2 := push_edge c (node_count b) Unconditional (v b)) in *.
  assert (node_count b2 = S (node_count b)) as N2 by exact N1.
  pose proof (walked_push_vertex (BasicBlock []) b2 (wk_inv _ _ _ _ _ W2)) as W3.
  split_and!.
  - exact (walked_seq_r _ _ _ _ _ _ (walked_seq_r _ _ _ _ _ _ W1 W2) W3).
  - rewrite node_count_push. lia.
  - rewrite <- N2. apply target_ok_new, W2.
  - by apply push_vertex_old.
  - rewrite <- N2. apply push_vertex_new.
  - simpl. congruence.
  - simpl. apply elem_of_app. right. by apply list_elem_of_singleton.
  - eapply step_seq; [exact Hs1|]. eapply step_seq; [apply (step_push_edge c (node_count b) Unconditional (off (v b)))|].
    apply (step_push_vertex (BasicBlock []) (off b2)).
  - exact S1.
Qed.

(** Into a construct whose parts never touch the block before it. *)
Lemma enter_path R b b3 G c ss h k :
  c ∉ R -> vertex (cfg b) c = Some (BasicBlock ss) -> step ∅ (off b) (off b3) -> ext R (off b3) G ->
  MkEdge c h k ∈ g_edges (cfg b3) -> is_executable k = true -> path G (c, length ss) [] (h, 0).
Proof.
  intros HR Hv Hs He Hin Hk. apply (path_leave G c (length ss) h k); [|by apply (ext_edges _ _ _ He)|done|constructor].
  apply (closed_off R b); [|done..]. by apply (ext_back R _ (off b3)).
Qed.

(** A construct between its entry [b3] and the state [b7] at its merge block [m]. *)
Lemma merged R ls ps b b3 b7 m G p t o h c ss :
  around R ls b (set_current (Some m) b7) G -> at_end b p -> current_block b = Some c ->
  vertex (cfg b) c = Some (BasicBlock ss) -> current_block b3 = Some c -> (node_count b <= m)%nat ->
  vertex (cfg b3) m = Some (BasicBlock []) -> Walked ∅ ps [] b b3 -> step ∅ (off b) (off b3) ->
  (exists ps', Walked ∅ ps' ls b3 b7) -> step ∅ (off b3) (off b7) ->
  MkEdge c h Unconditional ∈ g_edges (cfg b3) ->
  (around ({[m]} ∪ R) ls b3 (off b7) G ->
   reach (fun q => q = (m, 0) /\ live_at (cfg b7) m) (loop_stack b) (raise_target b) b7 G (h, 0) t o) ->
  reach (at_end (set_current (Some m) b7)) (loop_stack b) (raise_target b) (set_current (Some m) b7) G p t o.
Proof.
  intros Ha Hp Hc Hv Hc3 Hle Vm W3 Hs3 [ps' W7] Hs7 Hin Hr. pose proof (current_lt b c (ar_inv _ _ _ _ _ Ha) Hc) as Hlt.
  pose proof (ext_back_current R m (off b7) _ G (step_off_current b7 m) (ar_ext _ _ _ _ _ Ha)) as He.
  assert (rsv ({[m]} ∪ R) b3) as HR.
  { intros v [->%elem_of_singleton|Hv']%elem_of_union.
    - split; [by apply vertex_lt in Vm|]. rewrite Hc3. intros [= E]. lia.
    - apply (rsv_step R b b3); [apply W3|apply Ha|done]. }
  assert (around ({[m]} ∪ R) ls b3 (off b7) G) as Ha3.
  { split; [apply W3|by apply (fresh_walked ∅ ps _ b); [apply Ha|]|done|done]. }
  destruct Hp as ((c' & ss' & Hc' & Hv' & ->) & _). assert (c' = c) as -> by congruence.
  assert (ss' = ss) as -> by congruence.
  eapply (reach_prefix _ _ _ _ _ _ (h, 0) [] []); [|done|].
  - apply (enter_path ({[m]} ∪ R) b b3 G c ss h Unconditional); [|done|done|by apply (ext_back _ _ (off b7))|done|done].
    intros Hc4. by destruct (HR c Hc4).
  - eapply reach_onward; [| |exact (Hr Ha3)].
    + intros q [-> Hl]. exists (m, 0). split; [|constructor]. apply at_end_empty; [done| |done].
      change (vertex (cfg b7) m = Some (BasicBlock [])). apply (frozen _ _ _ _ _ _ W7 Vm).
      rewrite Hc3. intros [= E]. lia.
    + done.
Qed.

Lemma sim_if s i t o : Hir.stmt_idx body s = Some (Hir.If i) ->
  sim (CIf (Hir.condition i) (Hir.then_branch i) (Hir.elsif_branches i) (Hir.else_branch i)) t o ->
  sim (CStmt s) t o.
Proof.
  intros Hst Hsim [|f] b b' R G p H1 H2 Ha E Hp; [lia|]. apply (entry_at_end _ _ _ _ Hst) in Hp; [|done].
  pose proof (ar_inv _ _ _ _ _ Ha) as Hb. destruct (inv_current b Hb) as (c & ss & Hc & Hv).
  pose proof (current_lt b c Hb Hc) as Hlt.
  cbn [walk_statement_hir] in E. rewrite Hst in E. apply bind_inv in E as (st & b0 & [= <- <-] & E).
  cbv zeta in E. unfold walk_if_statement_hir in E.
  apply bind_inv in E as (h & b1 & E0 & E). rewrite origin_eq in E0. injection E0 as <- <-.
  apply bind_inv in E as ([] & b2 & E0 & E).
  rewrite (edge_current_eq c) in E0 by (done || (autorewrite with nodes; lia)). injection E0 as <-.
  apply bind_inv in E as (m & b3 & E0 & E). rewrite new_block_eq in E0. injection E0 as <- <-.
  apply bind_inv in E as ([] & b5 & E1 & E). apply bind_inv in E as (last & b6 & E2 & E).
  apply bind_inv in E as ([] & b7 & E3 & E). injection E as <-.
  rewrite node_count_edge, node_count_origin in *.
  set (v := push_vertex_with_origin (Conditional (Hir.condition i)) s).
  destruct (construct_spec _ v b c Hb Hc (headed_origin _ s b Hb)) as (W3 & N3 & T3 & V3 & Vm & C3 & Hin & Hs3 & S3).
  change (push_vertex (BasicBlock []) _) with (construct_entry v c b) in E1.
  set (b3 := construct_entry v c b) in *.
  assert (known f (Hir.then_branch i)) as Hk1 by
    (apply (child_known f s _ _ Hst H1 H2); intros x Hx; apply elem_of_app; by left).
  assert (Forall (fun br => known f br.2) (Hir.elsif_branches i)) as Hk2.
  { apply Forall_forall. intros br Hbr. apply (child_known f s _ _ Hst H1 H2). intros x Hx. simpl.
    apply elem_of_app. right. apply elem_of_app. left. apply list_elem_of_bind. by exists br. }
  assert (known f (default [] (Hir.else_branch i))) as Hk3.
  { apply (child_known f s _ _ Hst H1 H2). intros x Hx. simpl. rewrite !elem_of_app. by right; right. }
  destruct (rest_seg _ _ _ _ _ _ _ _ _ _ _ _ Hk1 Hk2 Hk3 (wk_inv _ _ _ _ _ W3) (vertex_lt _ _ _ V3) T3 E1 E2 E3)
    as (W5 & W6 & W7 & _ & _ & _ & _ & Hs5 & Hs6 & Hs7 & _).
  cbn [stmt_labels] in Ha. rewrite Hst in Ha.
  eapply (merged R _ (kind_points (Conditional (Hir.condition i))) b b3 b7 (S (node_count b)) G p t o (node_count b) c ss Ha Hp Hc Hv C3); [lia|exact Vm|exact W3|exact Hs3| | |exact Hin|].
  - eexists. exact (walked_seq _ _ _ _ _ _ _ _ W5 (walked_seq _ _ _ _ _ _ _ _ W6 W7)).
  - eapply step_seq; [exact Hs5|]. by eapply step_seq.
  - intros Ha3. destruct S3 as [S31 S32].
    pose proof (Hsim f s (S (node_count b)) (node_count b) b3 b5 last b6 b7 _ G Hk1 Hk2 Hk3 V3 T3 E1 E2 E3 Ha3) as Hr.
    by rewrite S32, (raise_target_walked _ _ _ _ _ W3 S31) in Hr.
Qed.

(** *** Preprocessor conditionals *)

Definition pre_vertex (b : CfgBuilder) (v : NodeIndex) : Prop :=
  exists r d f, vertex (cfg b) v = Some (PreprocCondition r d f).

(** Preprocessor conditions do nothing. *)
Lemma pre_edge R b b' G v w k :
  pre_vertex b v -> step ∅ (off b) (off b') -> ext R (off b') G -> MkEdge v w k ∈ g_edges G ->
  is_executable k = true -> path G (v, 0) [] (w, 0).
Proof.
  intros (r & d & f & Hv) Hs He Hin Hk.
  destruct (ext_grows _ _ _ (ext_back R (off b) (off b') G Hs He) v _ Hv) as (y & Hy & ->).
  exact (path_through G v (PreprocCondition r d f) w k [] (w, 0) Hy Hin Hk (path_nil _ _)).
Qed.

Lemma pre_vertex_step b b' v : pre_vertex b v -> step ∅ (off b) (off b') -> pre_vertex b' v.
Proof.
  intros (r & d & f & Hv) Hs. exists r, d, f.
  by destruct (ext_grows _ _ _ (step_ext _ _ _ Hs) v _ Hv) as (y & Hy & ->).
Qed.

Definition is_else (br : Hir.HirPreBranch) : bool :=
  match Hir.kind br with Hir.Else => true | _ => false end.

(** One branch: from [b] over its condition to [b0], and over its statements to [b1]. *)
Record pre_step (f : nat) (h m : NodeIndex) (br : Hir.HirPreBranch) (cond : NodeIndex) (b b0 : CfgBuilder)
    (from : NodeIndex) (k : CfgEdgeType) (cond1 : NodeIndex) (b1 : CfgBuilder) : Prop := {
  ps_branch : walk_branch (walk f) from k m (Hir.branch_stmts br) b0 = Some (tt, b1);
  ps_exec : is_executable k = true;
  ps_walked : Walked ∅ [] [] b b0;
  ps_stacks : same_stacks b b0;
  ps_step : step ∅ (off b) (off b0);
  ps_from : pre_vertex b0 from;
  ps_cond : pre_vertex b0 cond1;
  ps_path : forall R G, ext R (off b0) G -> path G (h, 0) [] (cond, 0) ->
    path G (h, 0) [] (from, 0) /\ path G (h, 0) [] (cond1, 0);
}.

Lemma pre_cons_inv f h m br bs cond saw b last saw' b' :
  walk_pre_branches (walk f) h m (br :: bs) cond saw b = Some ((last, saw'), b') ->
  Inv b -> pre_vertex b h -> pre_vertex b cond ->
  exists b0 from k cond1 b1, pre_step f h m br cond b b0 from k cond1 b1 /\
    walk_pre_branches (walk f) h m bs cond1 (saw || is_else br) b1 = Some ((last, saw'), b').
Proof.
  intros E Hb Hh Hc. cbn [walk_pre_branches] in E. unfold is_else.
  destruct (Hir.kind br) as [|j|] eqn:Ek.
  - apply bind_inv in E as ([] & b1 & E1 & E). exists b, h, TrueBranch, cond, b1. rewrite orb_false_r.
    split; [|done]. split; [done..|by apply walked_refl|done|apply step_refl|done|done|]. intros R G _ Hp. by split; [constructor|].
  - apply bind_inv in E as (r1 & b1 & E0 & E). unfold or_panic in E0.
    destruct (Hir.branch_condition_range br) as [c1|]; [|done]. injection E0 as <- <-.
    apply bind_inv in E as (r2 & b1 & E0 & E). unfold or_panic in E0.
    destruct (Hir.branch_directive_range br) as [c2|]; [|done]. injection E0 as <- <-.
    apply bind_inv in E as (v & b1 & E0 & E). rewrite vertex_new_eq in E0. injection E0 as <- <-.
    pose proof Hc as (rc & dc & fc & Hvc). pose proof (vertex_lt _ _ _ Hvc) as Hlt.
    set (v := PreprocCondition c1 (Some c2) None) in *.
    destruct (headed_vertex v b Hb) as [W1 N1 T1 V1 C1 Hs1 S1]. set (b1 := push_vertex v b) in *.
    apply bind_inv in E as ([] & b2 & E0 & E). rewrite edge_eq in E0 by lia. injection E0 as <-.
    pose proof (walked_push_edge cond (node_count b) FalseBranch b1 (wk_inv _ _ _ _ _ W1) ltac:(lia) T1) as W2.
    apply bind_inv in E as ([] & b3 & E1 & E).
    assert (step ∅ (off b) (off (push_edge cond (node_count b) FalseBranch b1))) as Hs.
    { eapply step_seq; [exact Hs1|]. apply (step_push_edge cond (node_count b) FalseBranch (off b1)). }
    exists (push_edge cond (node_count b) FalseBranch b1), (node_count b), TrueBranch, (node_count b), b3.
    rewrite orb_false_r. split; [|done].
    split; [done|done|exact (walked_seq_l _ _ _ _ _ _ W1 W2)|done|done|by exists c1, (Some c2), None..|].
    intros R G He Hp. cut (path G (h, 0) [] (node_count b, 0)); [done|].
    apply (path_trans G (h, 0) [] (cond, 0) []); [done|].
    apply (pre_edge R b _ G cond (node_count b) FalseBranch Hc Hs He); [|done].
    apply (ext_edges _ _ _ He). simpl. apply elem_of_app. right. by apply list_elem_of_singleton.
  - apply bind_inv in E as ([] & b1 & E1 & E). exists b, cond, FalseBranch, cond, b1. rewrite orb_true_r.
    split; [|done]. by split; [..|by apply walked_refl|done|apply step_refl|done|done|].
Qed.

Definition pre_known (f : nat) (br : Hir.HirPreBranch) : Prop :=
  known f (Hir.branch_stmts br) /\
  forall j, Hir.kind br = Hir.ElsIf j ->
    is_Some (Hir.branch_condition_range br) /\ is_Some (Hir.branch_directive_range br).

Lemma pre_seg f h m bs cond saw b last saw' b' :
  Forall (pre_known f) bs -> Inv b -> pre_vertex b h -> pre_vertex b cond -> target_ok b m ->
  walk_pre_branches (walk f) h m bs cond saw b = Some ((last, saw'), b') ->
  Walked ∅ (pre_points (P f) bs) (pre_labels (L f) bs) b b' /\ same_stacks b b' /\ (last < node_count b')%nat /\
  step ∅ (off b) (off b').
Proof.
  intros Hk Hb Hh Hc Hm E. pose proof Hh as (? & ? & ? & Hh1%vertex_lt). pose proof Hc as (? & ? & ? & Hc1%vertex_lt).
  destruct (pre_branches_ok (walk f) (P f) (L f) h m bs cond saw b Hb Hh1 Hc1 Hm) as (last' & saw1 & b1 & E' & Hl & W & S').
  { eapply Forall_impl; [exact Hk|]. intros br [H1 H2]. split; [by apply known_stmts|done]. }
  rewrite E in E'. injection E' as <- <- <-. split_and!; [done..|]. clear W S' Hl Hh1 Hc1.
  revert cond saw b Hb Hh Hc Hm E. induction Hk as [|br bs [Hss _] _ IH]; intros cond saw b Hb Hh Hc Hm E.
  { injection E as _ _ ->. apply step_refl. }
  apply pre_cons_inv in E as (b0 & from & k & cond1 & b1 & [E1 Hex W0 S0 Hs0 Hf Hc0 _] & E2); [|done..].
  pose proof Hf as (? & ? & ? & Hf1%vertex_lt).
  destruct (branch_seg _ _ _ _ _ _ _ Hss (wk_inv _ _ _ _ _ W0) Hf1 (target_ok_walked _ _ _ _ _ _ W0 Hm) E1)
    as (_ & _ & _ & _ & _ & _ & _ & W1 & _ & Hs1).
  pose proof (step_seq _ _ _ Hs0 Hs1) as Hs. eapply step_seq; [exact Hs|].
  apply (IH cond1 (saw || is_else br) b1); [apply W1|by eapply pre_vertex_step|by eapply pre_vertex_step| |done].
  eapply target_ok_walked; [exact W1|]. by eapply target_ok_walked.
Qed.

(** Every branch is reached from the first condition, and so is the last condition. *)
Lemma pre_reach f h m bs cond saw b last saw' b' R G :
  Forall (pre_known f) bs -> pre_vertex b h -> pre_vertex b cond -> target_ok b m ->
  walk_pre_branches (walk f) h m bs cond saw b = Some ((last, saw'), b') ->
  around R (pre_labels (L f) bs) b (off b') G -> path G (h, 0) [] (cond, 0) ->
  (path G (h, 0) [] (last, 0) /\ pre_vertex b' last /\ saw' = (saw || existsb is_else bs)) /\
  forall br t o, br ∈ bs -> sim (CList (Hir.branch_stmts br)) t o ->
    reach (fun q => q = (m, 0) /\ live_at (cfg b') m) (loop_stack b) (raise_target b) b' G (h, 0) t o.
Proof.
  intros Hk. revert cond saw b. induction Hk as [|br bs [Hss Hr] Hk IH]; intros cond saw b Hh Hc Hm E Ha Hp.
  { injection E as <- <- <-. split; [by rewrite orb_false_r|]. by intros br t o ?%elem_of_nil. }
  apply pre_cons_inv in E as (b0 & from & k & cond1 & b1 & [E1 Hex W0 [S0 S0'] Hs0 Hf Hc0 Hpath] & E2); [|apply Ha|done..].
  pose proof Hf as (? & ? & ? & Hf1%vertex_lt). pose proof (target_ok_walked _ _ _ _ _ _ W0 Hm) as Hm0.
  destruct (branch_seg _ _ _ _ _ _ _ Hss (wk_inv _ _ _ _ _ W0) Hf1 Hm0 E1) as (_ & _ & _ & _ & _ & _ & _ & W1 & [S1 S1'] & Hs1).
  pose proof (pre_vertex_step _ _ _ (pre_vertex_step _ _ _ Hh Hs0) Hs1) as Hh1.
  pose proof (pre_vertex_step _ _ _ Hc0 Hs1) as Hc1. pose proof (target_ok_walked _ _ _ _ _ _ W1 Hm0) as Hm1.
  destruct (pre_seg _ _ _ _ _ _ _ _ _ _ Hk (wk_inv _ _ _ _ _ W1) Hh1 Hc1 Hm1 E2) as (W2 & _ & _ & Hs2).
  destruct (off_split _ _ _ _ _ _ _ _ _ Ha (walked_seq_l _ _ _ _ _ _ W0 W1) W2 Hs2) as (_ & A2 & Haw & Hl).
  pose proof (ar_ext _ _ _ _ _ A2) as He. pose proof (ext_back R _ _ G Hs2 He) as He1.
  destruct (Hpath R G (ext_back R _ _ G Hs1 He1) Hp) as [Hpf Hpc].
  destruct (IH cond1 (saw || is_else br) b1 Hh1 Hc1 Hm1 E2 A2 Hpc) as [(Hpl & Hvl & ->) Hrest].
  split; [by rewrite <- orb_assoc|]. intros br' t o [->|Hin]%elem_of_cons Hsim.
  - assert (around R (Hir.branch_stmts br ≫= L f) b0 (off b1) G) as A1.
    { destruct Ha as [Hb Hf' HR _]. split; [apply W0| |by apply (rsv_step R b); [apply W0|]|done].
      destruct (fresh_split _ _ _ _ _ _ (fresh_walked _ _ _ _ _ Hf' W0) W1) as [Hfr _]. exact Hfr. }
    destruct (branch_reach f from k m (Hir.branch_stmts br) b0 b1 R G t o Hsim Hss A1 Hf1 Hm0 Hex E1) as [Hedge Hbr].
    rewrite S0', (raise_target_walked _ _ _ _ _ W0 S0) in Hbr.
    eapply (reach_prefix _ _ _ _ _ _ _ [] []); [|done|].
    + apply (path_trans G (h, 0) [] (from, 0) []); [exact Hpf|].
      exact (pre_edge R b0 b1 G from (node_count b0) k Hf Hs1 He1 Hedge Hex).
    + eapply reach_onward; [|exact Haw|exact Hbr]. intros q [-> Hlm]. exists (m, 0). split; [|constructor].
      split; [done|by apply Hl].
  - specialize (Hrest br' t o Hin Hsim).
    by rewrite S1', (raise_target_walked _ _ _ _ _ W1 S1), S0', (raise_target_walked _ _ _ _ _ W0 S0) in Hrest.
Qed.

Lemma no_else p : Hir.pre_else_branch p = None -> existsb is_else (Hir.branches p) = false.
Proof.
  intros Hn. unfold Hir.branches. rewrite Hn, app_nil_r. simpl.
  apply not_true_is_false. intros (br & Hin & He)%existsb_exists.
  apply list_elem_of_In, elem_of_lookup_imap in Hin as (j & [[r d] ss] & -> & _). discriminate.
Qed.

(** One of the branches runs, or none does and there is no [#Else]. *)
Definition pre_runs (p : Hir.PreprocIfStmt) (t : list Event) (o : Outcome) : Prop :=
  (exists br, br ∈ Hir.branches p /\ sim (CList (Hir.branch_stmts br)) t o) \/
  (Hir.pre_else_branch p = None /\ t = [] /\ o = Next).

Lemma pre_end (saw : bool) last m b4 b7 :
  (if saw then mret tt else edge last m FalseBranch) b4 = Some (tt, b7) -> Inv b4 ->
  (last < node_count b4)%nat -> target_ok b4 m ->
  b7 = (if saw then b4 else push_edge last m FalseBranch b4) /\ Walked ∅ [] [] b4 b7 /\
  step ∅ (off b4) (off b7).
Proof.
  intros E Hb Hl Hm. destruct saw.
  - injection E as <-. split_and!; [done|by apply walked_refl|apply step_refl].
  - rewrite edge_eq in E by (done || apply Hm). injection E as <-.
    split_and!; [done|by apply walked_push_edge|apply (step_push_edge last m FalseBranch (off b4))].
Qed.

Lemma sim_preproc s p t o : Hir.stmt_idx body s = Some (Hir.PreprocIf p) -> pre_runs p t o -> sim (CStmt s) t o.
Proof.
  intros Hst Hruns [|f] b b' R G q H1 H2 Ha E Hq; [lia|]. apply (entry_at_end _ _ _ _ Hst) in Hq; [|done].
  pose proof (ar_inv _ _ _ _ _ Ha) as Hb. destruct (inv_current b Hb) as (c & ss & Hc & Hv).
  pose proof (current_lt b c Hb Hc) as Hlt.
  cbn [walk_statement_hir] in E. rewrite Hst in E. apply bind_inv in E as (st & b0 & [= <- <-] & E).
  cbv zeta in E. unfold walk_preproc_if_statement_hir in E.
  set (v := PreprocCondition (Hir.condition_range p) (Some (Hir.directive_range p)) (Some (Hir.full_range p))) in *.
  destruct (construct_spec v (push_vertex v) b c Hb Hc (headed_vertex v b Hb))
    as (W3 & N3 & T3 & V3 & Vm & C3 & Hin & Hs3 & [S31 S32]).
  apply bind_inv in E as (h & b1 & E0 & E). rewrite vertex_new_eq in E0. injection E0 as <- <-.
  apply bind_inv in E as ([] & b2 & E0 & E).
  rewrite (edge_current_eq c) in E0 by (done || (autorewrite with nodes; lia)). injection E0 as <-.
  apply bind_inv in E as (m & b3 & E0 & E). rewrite new_block_eq in E0. injection E0 as <- <-.
  apply bind_inv in E as ([last saw] & b4 & E1 & E). apply bind_inv in E as ([] & b7 & E3 & E). injection E as <-.
  rewrite node_count_edge, node_count_push in *.
  change (push_vertex (BasicBlock []) _) with (construct_entry (push_vertex v) c b) in E1.
  set (b3 := construct_entry (push_vertex v) c b) in *.
  assert (Forall (pre_known f) (Hir.branches p)) as Hk.
  { apply Forall_forall. intros br Hbr. split; [|intros j; by apply (branches_ranges p br j)].
    apply (child_known f s _ _ Hst H1 H2). intros x Hx. apply list_elem_of_bind. by exists br. }
  assert (pre_vertex b3 (node_count b)) as Hh by (by do 3 eexists).
  destruct (pre_seg _ _ _ _ _ _ _ _ _ _ Hk (wk_inv _ _ _ _ _ W3) Hh Hh T3 E1) as (W4 & _ & Hl & Hs4).
  pose proof (target_ok_walked _ _ _ _ _ _ W4 T3) as T4.
  destruct (pre_end saw last (S (node_count b)) b4 b7 E3 (wk_inv _ _ _ _ _ W4) Hl T4) as (Eb7 & W7 & Hs7).
  cbn [stmt_labels] in Ha. rewrite Hst in Ha.
  eapply (merged R _ [] b b3 b7 (S (node_count b)) G q t o (node_count b) c ss Ha Hq Hc Hv C3);
    [lia|exact Vm|exact W3|exact Hs3|eexists; exact (walked_seq_r _ _ _ _ _ _ W4 W7)|by eapply step_seq|exact Hin|].
  intros Ha3. pose proof (ext_back _ _ _ _ Hs7 (ar_ext _ _ _ _ _ Ha3)) as He4.
  assert (around ({[S (node_count b)]} ∪ R) (pre_labels (L f) (Hir.branches p)) b3 (off b4) G) as Ha4.
  { split; [apply Ha3..|done]. }
  destruct (pre_reach _ _ _ _ _ _ _ _ _ _ _ _ Hk Hh Hh T3 E1 Ha4 (path_nil _ _)) as [(Hpl & Hvl & Esaw) Hall].
  destruct Hruns as [(br & Hbr & Hsim)|(Hne & -> & ->)].
  - specialize (Hall br t o Hbr Hsim). rewrite S32, (raise_target_walked _ _ _ _ _ W3 S31) in Hall.
    eapply reach_onward; [| |exact Hall].
    + intros q' [-> Hlm]. exists (S (node_count b), 0). split; [|constructor]. split; [done|].
      apply (live_at_ext ∅ (off b4)); [apply Hs7|done].
    + intros v' l. apply (wk_awaits _ _ _ _ _ W7); [constructor|]. by intros l' ?%elem_of_nil.
  - rewrite (no_else p Hne) in Esaw. simpl in Esaw. subst saw. rewrite Eb7.
    exists [], (S (node_count b), 0). split_and!; [done|by apply live_at_edge| |done].
    apply (path_trans G _ [] (last, 0) []); [exact Hpl|]. rewrite Eb7 in Ha3, Hs7.
    apply (pre_edge _ b4 _ G last (S (node_count b)) FalseBranch Hvl Hs7 (ar_ext _ _ _ _ _ Ha3)); [|done].
    apply (ext_edges _ _ _ (ar_ext _ _ _ _ _ Ha3)). simpl. apply elem_of_app. right. by apply list_elem_of_singleton.
Qed.

(** *** Loops *)

Lemma loop_end_nodes h b : g_nodes (cfg (loop_end h b)) = g_nodes (cfg b).
Proof. unfold loop_end, loop_back. simpl. repeat case_match; done. Qed.

(** What the executions of a loop use of its walk: [G] has the header with its edges, the block
    behind the loop is the end, and the body may use the loop's frame. *)
Record loop_walk (hd : CfgVertex) (ss : list StmtId) (fuel : nat) (R : gset NodeIndex) (b be b2 b' : CfgBuilder)
    (h : NodeIndex) (G : ControlFlowGraph) : Prop := {
  lw_header : vertex G h = Some hd;
  lw_enter : MkEdge h (S h) TrueBranch ∈ g_edges G;
  lw_leave : MkEdge h (S (S h)) FalseBranch ∈ g_edges G;
  lw_body : around ({[S (S h)]} ∪ R) (ss ≫= L fuel) be b2 G;
  lw_start : at_end be (S h, 0);
  lw_frames : loop_stack be = MkFrame h (S (S h)) :: loop_stack b;
  lw_handler : raise_target be = raise_target b;
  lw_end : at_end b' (S (S h), 0);
  lw_awaits : forall v l, awaits b2 v l -> awaits b' v l;
  lw_back : forall q, at_end b2 q -> path G q [] (h, 0);
}.

Lemma loop_entry_step s hd c b :
  Inv b -> current_block b = Some c -> step ∅ (off b) (loop_entry s hd c b).
Proof.
  intros Hb Hc. destruct (loop_entry_spec s hd b c Hb Hc) as (W1 & _).
  apply step_from_off; [apply W1| |].
  - intros v x Hv. do 2 apply (push_vertex_old (BasicBlock [])). by apply (push_vertex_old hd).
  - intros c' [= <-]. right. lia.
Qed.

Lemma loop_entry_enter s hd c b :
  MkEdge (node_count b) (S (node_count b)) TrueBranch ∈ g_edges (cfg (loop_entry s hd c b)).
Proof. simpl. apply elem_of_app. right. by apply list_elem_of_singleton. Qed.

Lemma loop_back_edge h b c :
  current_block b = Some c -> live_at (cfg b) c ->
  MkEdge c h Unconditional ∈ g_edges (cfg (loop_end h b)).
Proof.
  intros Hc Hl. unfold loop_end, loop_back. simpl. rewrite Hc, (live_reachable (cfg b) c Hl). simpl.
  rewrite !elem_of_app. left. right. by apply list_elem_of_singleton.
Qed.

Lemma loop_walk_ok fuel s hd ss b c b2 R G :
  known fuel ss -> is_header hd = true -> current_block b = Some c ->
  walk_all (walk fuel) ss (loop_entry s hd c b) = Some (tt, b2) ->
  around R (ss ≫= L fuel) b (loop_end (node_count b) b2) G ->
  loop_walk hd ss fuel R b (loop_entry s hd c b) b2 (loop_end (node_count b) b2) (node_count b) G.
Proof.
  intros Hk Hh Hc E [Hb Hf HR He].
  destruct (loop_entry_spec s hd b c Hb Hc) as (W1 & N1 & T1 & T2 & V1 & V2 & V3).
  pose proof (loop_entry_enter s hd c b) as Hin. set (be := loop_entry s hd c b) in *.
  destruct (list_seg _ _ _ _ Hk (wk_inv _ _ _ _ _ W1) E) as [W2 S2].
  pose proof (target_ok_walked _ _ _ _ _ _ W2 T1) as T1'. pose proof (target_ok_walked _ _ _ _ _ _ W2 T2) as T2'.
  destruct (frozen _ _ _ _ _ _ W2 V3) as [V4 _]; [intros [= Eq]; lia|].
  destruct (loop_end_spec (node_count b) b2 (wk_inv _ _ _ _ _ W2) T1' T2' V4) as (W3 & _ & _ & V5 & Hout).
  pose proof (ext_back_current R _ b2 _ G (wk_step _ _ _ _ _ W3) He) as He2.
  pose proof (ext_back _ be b2 G (wk_step _ _ _ _ _ W2) He2) as He1.
  assert (rsv ({[S (S (node_count b))]} ∪ R) be) as HR1.
  { intros v [->%elem_of_singleton|Hv]%elem_of_union; [split; [lia|intros [= Eq]; lia]|].
    by apply (rsv_step R b be); [apply W1| |]. }
  split; try done.
  - destruct (ext_grows _ _ _ He1 _ _ V1) as (y & Hy & Hg). by destruct hd; try discriminate; simpl in Hg; subst y.
  - by apply (ext_edges _ _ _ He1).
  - by apply (ext_edges _ _ _ He).
  - split; [apply W1|by apply (fresh_walked _ _ _ _ _ Hf W1)|done|done].
  - apply at_end_empty; [done..|]. right. by exists (node_count b), TrueBranch.
  - apply at_end_empty; [done..|]. right. by exists (node_count b), FalseBranch.
  - apply (wk_awaits _ _ _ _ _ W3); [constructor|]. by intros l ?%elem_of_nil.
  - intros q ((c2 & ss2 & Hc2 & Hv2 & ->) & Hl & _).
    apply (path_leave G c2 (length ss2) (node_count b) Unconditional); [| |done|constructor].
    + apply (end_closed ({[S (S (node_count b))]} ∪ R) b2); [| |done..].
      * apply (ext_back_current R (S (S (node_count b))) (off b2) (loop_end (node_count b) b2)); [|done].
        apply step_from_off; [apply W3| |].
        -- intros v x Hv. unfold vertex. by rewrite loop_end_nodes.
        -- intros c' [= <-]. left. by apply elem_of_singleton.
      * by apply (rsv_step _ be b2); [apply W2|].
    + apply (ext_edges _ _ _ He). by apply loop_back_edge; [|apply Hl].
Qed.

(** What ends neither the body nor the loop does not depend on the frames. *)
Lemma reach_frames nx nx' fr fr' h b1 b2 G p t o :
  o <> Next -> o <> Broke -> o <> Continued -> (forall v l, awaits b1 v l -> awaits b2 v l) ->
  reach nx fr h b1 G p t o -> reach nx' fr' h b2 G p t o.
Proof.
  intros H1 H2 H3 Ha. destruct o; try done. intros (v & i & t' & Hq & Hc & Ht & Haw).
  exists v, i, t'. split_and!; [done..|by apply Ha].
Qed.

Lemma sim_loop_stop hd ss t e rest : vertex_events hd = t ++ e :: rest -> sim (CLoop hd ss) (t ++ [e]) Stopped.
Proof.
  intros Ev fuel s b c b2 R G Hk Hh Hc E Ha. destruct (loop_walk_ok _ _ _ _ _ _ _ _ _ Hk Hh Hc E Ha) as [Hv _ _ _ _ _ _ _ _ _].
  eapply reach_stop. apply (path_events G (node_count b) hd [] (t ++ [e]) rest Hv).
  simpl. by rewrite Ev, <- app_assoc.
Qed.

Lemma sim_loop_exit hd ss : sim (CLoop hd ss) (vertex_events hd) Next.
Proof.
  intros fuel s b c b2 R G Hk Hh Hc E Ha. destruct (loop_walk_ok _ _ _ _ _ _ _ _ _ Hk Hh Hc E Ha) as [Hv _ Hout _ _ _ _ He _ _].
  exists (vertex_events hd ++ []), (S (S (node_count b)), 0). split_and!; [done| |by rewrite app_nil_r].
  eapply path_through; [exact Hv|exact Hout|done|constructor].
Qed.

(** The body of a loop, from the header. *)
Lemma loop_body_reach hd ss t o fuel s b c b2 R G :
  sim (CList ss) t o -> known fuel ss ->
  walk_all (walk fuel) ss (loop_entry s hd c b) = Some (tt, b2) ->
  loop_walk hd ss fuel R b (loop_entry s hd c b) b2 (loop_end (node_count b) b2) (node_count b) G ->
  reach (at_end b2) (MkFrame (node_count b) (S (S (node_count b))) :: loop_stack b) (raise_target b) b2 G
    (node_count b, 0) (vertex_events hd ++ t) o.
Proof.
  intros Hsim Hk E [Hv Hin _ Hbody Hs Hfr Hha _ _ _].
  eapply (reach_prefix _ _ _ _ _ _ (S (node_count b), 0) (vertex_events hd ++ [])).
  - eapply path_through; [exact Hv|exact Hin|done|constructor].
  - by rewrite app_nil_r.
  - pose proof (Hsim fuel _ b2 _ G (S (node_count b), 0) Hk Hbody E (or_introl Hs)) as Hr.
    by rewrite Hfr, Hha in Hr.
Qed.

Lemma sim_loop_again hd ss t1 t2 o1 o :
  sim (CList ss) t1 o1 -> o1 = Next \/ o1 = Continued -> sim (CLoop hd ss) t2 o ->
  sim (CLoop hd ss) (vertex_events hd ++ t1 ++ t2) o.
Proof.
  intros Hs Ho Hl fuel s b c b2 R G Hk Hh Hc E Ha.
  pose proof (loop_walk_ok _ _ _ _ _ _ _ _ _ Hk Hh Hc E Ha) as Hlw.
  pose proof (loop_body_reach hd ss t1 o1 fuel s b c b2 R G Hs Hk E Hlw) as Hr.
  assert (exists t', path G (node_count b, 0) t' (node_count b, 0) /\ t' `sublist_of` (vertex_events hd ++ t1))
    as (t' & Hp & Hsub).
  { destruct Ho as [-> | ->].
    - destruct Hr as (t' & q & Hq & Hp & Ht). exists (t' ++ []). rewrite app_nil_r at 2.
      split; [|done]. eapply path_trans; [exact Hp|]. by apply (lw_back _ _ _ _ _ _ _ _ _ _ Hlw).
    - by apply (Hr (MkFrame (node_count b) (S (S (node_count b)))) (loop_stack b)). }
  rewrite app_assoc. eapply reach_prefix; [exact Hp|exact Hsub|].
  exact (Hl fuel s b c b2 R G Hk Hh Hc E Ha).
Qed.

Lemma sim_loop_break hd ss t : sim (CList ss) t Broke -> sim (CLoop hd ss) (vertex_events hd ++ t) Next.
Proof.
  intros Hs fuel s b c b2 R G Hk Hh Hc E Ha.
  pose proof (loop_walk_ok _ _ _ _ _ _ _ _ _ Hk Hh Hc E Ha) as Hlw.
  destruct (loop_body_reach hd ss t Broke fuel s b c b2 R G Hs Hk E Hlw _ _ eq_refl) as (t' & Hp & Hsub).
  exists t', (S (S (node_count b)), 0). split_and!; [apply Hlw|done..].
Qed.

Lemma sim_loop_leave hd ss t o : sim (CList ss) t o -> o <> Next -> o <> Broke -> o <> Continued ->
  sim (CLoop hd ss) (vertex_events hd ++ t) o.
Proof.
  intros Hs H1 H2 H3 fuel s b c b2 R G Hk Hh Hc E Ha.
  pose proof (loop_walk_ok _ _ _ _ _ _ _ _ _ Hk Hh Hc E Ha) as Hlw.
  eapply reach_frames; [done..|apply Hlw|]. by apply (loop_body_reach hd ss t o fuel s b c b2 R G).
Qed.

Lemma loop_stmt f s st hd ss b :
  Hir.stmt_idx body s = Some st -> loop_of st = Some (hd, ss) ->
  walk (S f) s b = walk_loop (walk f) s hd ss b /\ L (S f) s = (ss ≫= L f) /\ is_header hd = true /\
  children st = ss /\ adds_itself st = true.
Proof.
  intros Hst Hl. cbn [walk_statement_hir stmt_labels]. rewrite Hst. erewrite bind_eq; [|reflexivity]. cbv zeta.
  destruct st; try discriminate; injection Hl as <- <-; done.
Qed.

Lemma sim_loop s st hd ss t o :
  Hir.stmt_idx body s = Some st -> loop_of st = Some (hd, ss) -> sim (CLoop hd ss) t o -> sim (CStmt s) t o.
Proof.
  intros Hst Hlo Hsim [|f] b b' R G p H1 H2 Ha E Hp; [lia|].
  destruct (loop_stmt f s st hd ss b Hst Hlo) as (Ew & Els & Hh & Hch & Hadd).
  apply (entry_at_end _ _ _ _ Hst Hadd) in Hp as ((c & ss0 & Hc & Hv & ->) & Hl & _).
  rewrite Ew in E. rewrite Els in Ha. pose proof (ar_inv _ _ _ _ _ Ha) as Hb. pose proof (ar_rsv _ _ _ _ _ Ha) as HR.
  assert (known f ss) as Hk by (apply (child_known f s st _ Hst H1 H2); by rewrite Hch).
  destruct (loop_ok (walk f) s hd ss _ _ b c Hb Hc (walk_all_ok _ _ _ _ (known_stmts f ss Hk)))
    as (b2 & E2 & W2 & _ & _ & _ & _ & E3 & _ & _).
  rewrite E in E3. injection E3 as ->.
  pose proof (loop_walk_ok _ _ _ _ _ _ _ _ _ Hk Hh Hc E2 Ha) as Hlw.
  eapply (reach_prefix _ _ _ _ _ _ (node_count b, 0) [] []); [|done|exact (Hsim f s b c b2 R G Hk Hh Hc E2 Ha)].
  pose proof (ext_back _ _ _ _ (wk_step _ _ _ _ _ W2) (ar_ext _ _ _ _ _ (lw_body _ _ _ _ _ _ _ _ _ _ Hlw))) as He.
  apply (path_leave G c (length ss0) (node_count b) Unconditional); [| |done|constructor].
  - apply (closed_off ({[S (S (node_count b))]} ∪ R) b); [| |done].
    + by apply (ext_back _ (off b) (loop_entry s hd c b)); [apply loop_entry_step|].
    + pose proof (current_lt b c Hb Hc). intros [Hin%elem_of_singleton|Hin]%elem_of_union; [lia|by destruct (HR c Hin)].
  - apply (ext_edges _ _ _ He). simpl. rewrite !elem_of_app. left. right. apply list_elem_of_singleton.
    rewrite link_kind_live; [done|]. by apply Hl.
Qed.

(** *** Tries *)

(** What the executions of a try use of its walk: the protected statements run with the handler
    [S (S t)], and both ends lead to the end. *)
Record try_walk (ss es : list StmtId) (fuel : nat) (R : gset NodeIndex) (b be b2 bh b5 b' : CfgBuilder)
    (t : NodeIndex) (G : ControlFlowGraph) : Prop := {
  tw_enter : path G (t, 0) [] (S t, 0);
  tw_fail : path G (t, 0) [] (S (S t), 0);
  tw_body : around ({[S (S t)]} ∪ R) (ss ≫= L fuel) be b2 G;
  tw_handler : around R (es ≫= L fuel) bh b5 G;
  tw_start : at_end be (S t, 0);
  tw_except : at_end bh (S (S t), 0);
  tw_frames : loop_stack be = loop_stack b /\ loop_stack bh = loop_stack b;
  tw_target : raise_target bh = raise_target b;
  tw_awaits : forall v l, awaits b2 v l -> awaits b' v l;
  tw_awaits' : forall v l, awaits b5 v l -> awaits b' v l;
  tw_done : forall q, at_end b2 q -> exists q', at_end b' q' /\ path G q [] q';
  tw_done' : forall q, at_end b5 q -> exists q', at_end b' q' /\ path G q [] q';
}.

Lemma try_entry_step s c b :
  Inv b -> current_block b = Some c -> step ∅ (off b) (try_entry s c b).
Proof.
  intros Hb Hc. destruct (try_entry_spec s b c Hb Hc) as (W1 & _).
  apply step_from_off; [apply W1| |].
  - intros v x Hv. do 2 apply (push_vertex_old (BasicBlock [])). by apply (push_vertex_old TryVertex).
  - intros c' [= <-]. right. lia.
Qed.

Lemma try_handler_step t b : step {[S (S t)]} (off b) (try_handler t b).
Proof.
  destruct (step_set_current (S (S t)) (off b)) as [[] Hc]. by split; [split|].
Qed.

Lemma try_end_step c1 c2 b :
  Inv b -> (c1 < node_count b)%nat -> (c2 < node_count b)%nat -> step ∅ (off b) (try_end c1 c2 b).
Proof.
  intros Hb H1 H2. destruct (try_end_spec c1 c2 b Hb H1 H2) as [W _]. apply step_from_off; [apply W| |].
  - intros v x Hv. by apply (push_vertex_old (BasicBlock [])).
  - intros c' [= <-]. by right.
Qed.

(** The ends of a try: edges of a kind that executions take, when executions arrive there. *)
Lemma try_end_edges c1 c2 b :
  (live_at (cfg b) c1 -> MkEdge c1 (node_count b) Unconditional ∈ g_edges (cfg (try_end c1 c2 b))) /\
  (live_at (cfg b) c2 -> MkEdge c2 (node_count b) Unconditional ∈ g_edges (cfg (try_end c1 c2 b))).
Proof.
  unfold try_end. simpl. split; intros Hl; rewrite !elem_of_app, !list_elem_of_singleton.
  - left. right. by rewrite link_kind_live.
  - right. rewrite link_kind_live; [done|]. by apply (live_at_ext ∅ _ _ c2 (step_ext _ _ _
      (step_push_edge c1 (node_count b) (link_kind (push_vertex (BasicBlock []) b) c1) (push_vertex (BasicBlock []) b)))).
Qed.

Lemma try_end_at c1 c2 b v :
  MkEdge v (node_count b) Unconditional ∈ g_edges (cfg (try_end c1 c2 b)) ->
  at_end (try_end c1 c2 b) (node_count b, 0).
Proof.
  intros Hin. apply at_end_empty; [done|apply (push_vertex_new (BasicBlock []) b)|]. right. by exists v, Unconditional.
Qed.

(** The state behind the protected statements, closed. *)
Lemma handler_closed R t b2 b5 b' G :
  step ∅ (try_handler t b2) b5 -> step ∅ (off b5) b' -> ext R b' G ->
  ext R b5 G /\ ext R (off b5) G /\ ext ({[S (S t)]} ∪ R) b2 G /\ ext ({[S (S t)]} ∪ R) (off b2) G.
Proof.
  intros H5 H6 He. pose proof (ext_back _ _ _ _ H6 He) as He5. pose proof (ext_off _ _ _ He5) as He5'.
  pose proof (ext_back _ _ _ _ H5 He5') as Heh.
  pose proof (ext_back_current R _ _ _ G (try_handler_step t b2) Heh) as He2.
  split_and!; [done..|by apply ext_off|done].
Qed.

(** Going on at the merge block of a try. *)
Lemma try_done R R1 R2 b0 b5 c2 c5 c G :
  ext R (off b0) G -> rsv R b0 -> current_block b0 = Some c -> ext R1 b0 (cfg b5) ->
  (live_at (cfg b5) c -> MkEdge c (node_count b5) Unconditional ∈ g_edges (cfg (try_end c2 c5 b5))) ->
  ext R2 (try_end c2 c5 b5) G ->
  forall q, at_end b0 q -> exists q', at_end (try_end c2 c5 b5) q' /\ path G q [] q'.
Proof.
  intros He HR Hc H05 Hin He' q ((c' & ss & Hc' & Hv & ->) & Hl & _). assert (c' = c) as -> by congruence.
  specialize (Hin (live_at_ext R1 b0 (cfg b5) c H05 (Hl c Hc))).
  exists (node_count b5, 0). split; [by eapply try_end_at|].
  apply (path_leave G c (length ss) (node_count b5) Unconditional); [by apply (end_closed R b0)| |done|constructor].
  by apply (ext_edges _ _ _ He').
Qed.

(** The handler is reserved while the protected statements are walked. *)
Lemma try_reserved R s c b b2 ps ls :
  Inv b -> current_block b = Some c -> rsv R b -> Walked ∅ ps ls (try_entry s c b) b2 ->
  rsv ({[S (S (node_count b))]} ∪ R) (try_entry s c b) /\ rsv ({[S (S (node_count b))]} ∪ R) b2 /\
  rsv R (try_handler (node_count b) b2).
Proof.
  intros Hb Hc HR W2. destruct (try_entry_spec s b c Hb Hc) as (W1 & N1 & _).
  assert (rsv ({[S (S (node_count b))]} ∪ R) (try_entry s c b)) as HR1.
  { intros v [->%elem_of_singleton|Hv]%elem_of_union; [split; [lia|intros [= Eq]; lia]|].
    by apply (rsv_step R b); [apply W1| |]. }
  split_and!; [done|by apply (rsv_step _ (try_entry s c b)); [apply W2|]|].
  intros v Hv. destruct (HR v Hv) as [Hlt _]. pose proof (node_count_walked _ _ _ _ _ W2).
  split; [change (node_count (try_handler (node_count b) b2)) with (node_count b2); lia|intros [= Eq]; lia].
Qed.

Lemma try_walk_ok fuel s ss es b c b' R G :
  known fuel ss -> known fuel es -> current_block b = Some c ->
  walk_try_statement_hir (walk fuel) s ss es b = Some (tt, b') ->
  around R ((ss ≫= L fuel) ++ (es ≫= L fuel)) b b' G ->
  exists b2 b5, walk_all (walk fuel) ss (try_entry s c b) = Some (tt, b2) /\
    walk_all (walk fuel) es (try_handler (node_count b) b2) = Some (tt, b5) /\
    try_walk ss es fuel R b (try_entry s c b) b2 (try_handler (node_count b) b2) b5 b' (node_count b) G /\
    ext ({[S (S (node_count b))]} ∪ R) (try_entry s c b) G.
Proof.
  intros Hk1 Hk2 Hc E [Hb Hf HR He].
  destruct (try_ok (walk fuel) (P fuel) (L fuel) s ss es b c Hb Hc (known_stmts _ _ Hk1) (known_stmts _ _ Hk2))
    as (b2 & b5 & c2 & c5 & E2 & W2 & [S21 S22] & Hc2 & Hh & E5 & W5 & [S51 S52] & Hc5 & W6 & E' & _ & _).
  rewrite E in E'. injection E' as ->. exists b2, b5. split; [done|]. split; [done|].
  destruct (try_entry_spec s b c Hb Hc) as (W1 & N1 & T1 & V1 & V2 & V3). set (be := try_entry s c b) in *.
  set (t := node_count b) in *. set (bh := try_handler t b2) in *.
  pose proof (current_lt b2 c2 (wk_inv _ _ _ _ _ W2) Hc2) as Hl2.
  pose proof (current_lt b5 c5 (wk_inv _ _ _ _ _ W5) Hc5) as Hl5.
  pose proof (node_count_walked _ _ _ _ _ W5) as Hle. change (node_count bh) with (node_count b2) in Hle.
  destruct (handler_closed R t b2 b5 _ G (wk_step _ _ _ _ _ W5)
    (try_end_step c2 c5 b5 (wk_inv _ _ _ _ _ W5) ltac:(lia) Hl5) He) as (He5 & Ho5 & He2 & Ho2).
  pose proof (ext_back _ _ _ _ (wk_step _ _ _ _ _ W2) He2) as Hee.
  destruct (frozen _ _ _ _ _ _ W2 V3) as [V4 Hne]; [intros [= Eq]; unfold t in *; lia|].
  destruct (ext_grows _ _ _ Hee _ _ V1) as (y & Hty & ->).
  assert (MkEdge t (S t) Unconditional ∈ g_edges (cfg be)) as Hin1.
  { simpl. rewrite !elem_of_app. left. right. by apply list_elem_of_singleton. }
  assert (MkEdge t (S (S t)) Exception ∈ g_edges (cfg be)) as Hin2.
  { simpl. rewrite !elem_of_app. right. by apply list_elem_of_singleton. }
  destruct (try_reserved R s c b b2 _ _ Hb Hc HR W2) as (HR1 & HR2 & HRh). fold t be bh in HR1, HR2, HRh.
  destruct (fresh_split _ _ _ _ _ _ (fresh_walked _ _ _ _ _ Hf W1) W2) as [Hf1 Hf2].
  assert (forall v l, awaits b5 v l -> awaits (try_end c2 c5 b5) v l) as Haw5.
  { apply (wk_awaits _ _ _ _ _ W6); [constructor|]. by intros l ?%elem_of_nil. }
  pose proof (step_trans _ _ _ _ _ (try_handler_step t b2) (wk_step _ _ _ _ _ W5)
    ltac:(intros v _ []%not_elem_of_empty)) as Hs25.
  assert (forall g, ext {[S (S t)]} (off b2) g -> ext {[S (S t)]} b2 g) as Hoff by apply ext_off.
  destruct (try_end_edges c2 c5 b5) as [Ht2 Ht5].
  split; [|done]. split; try done.
  - apply (path_through G t TryVertex (S t) Unconditional [] (S t, 0)); [done|by apply (ext_edges _ _ _ Hee)|done|constructor].
  - apply (path_through G t TryVertex (S (S t)) Exception [] (S (S t), 0)); [done|by apply (ext_edges _ _ _ Hee)|done|constructor].
  - split; [apply W1|done..].
  - apply at_end_empty; [done..|]. right. by exists t, Unconditional.
  - apply at_end_empty; [done..|]. right. exists t, Exception. split; [|done].
    by apply (ext_edges _ _ _ (step_ext _ _ _ (wk_step _ _ _ _ _ W2))).
  - unfold raise_target. change (except_stack bh) with (tail (except_stack b2)). rewrite S21.
    change (tail (except_stack be)) with (except_stack b).
    change (g_exit (CfgBuilder.cfg bh)) with (g_exit (CfgBuilder.cfg b2)).
    rewrite (ext_exit _ _ _ (step_ext _ _ _ (wk_step _ _ _ _ _ W2))).
    by rewrite (ext_exit _ _ _ (step_ext _ _ _ (wk_step _ _ _ _ _ W1))).
  - intros v l Haw. apply Haw5. apply (wk_awaits _ _ _ _ _ W5); [apply Hf2..|exact Haw].
  - apply (try_done _ _ R b2 b5 c2 c5 c2 G Ho2 HR2 Hc2 (Hoff _ (step_ext _ _ _ Hs25)) Ht2 He).
  - apply (try_done R ∅ R b5 b5 c2 c5 c5 G Ho5); [by apply (rsv_step R bh); [apply W5|]|done|apply ext_refl|done|done].
Qed.

(** What does not raise does not depend on the handler. *)
Lemma reach_handler nx fr h h' b1 G p t o : o <> Raised -> reach nx fr h b1 G p t o -> reach nx fr h' b1 G p t o.
Proof. by destruct o. Qed.

(** A try statement, its walk, and the way to its vertex. *)
Lemma try_stmt f s ss es b b' R G p :
  Hir.stmt_idx body s = Some (Hir.Try ss es) -> (s < S f)%nat -> (s < length (Hir.stmts body))%nat ->
  around R (L (S f) s) b b' G -> walk (S f) s b = Some (tt, b') -> entry b [s] p ->
  known f ss /\ known f es /\ exists be b2 bh b5,
    walk_all (walk f) ss be = Some (tt, b2) /\ walk_all (walk f) es bh = Some (tt, b5) /\
    try_walk ss es f R b be b2 bh b5 b' (node_count b) G /\ path G p [] (node_count b, 0).
Proof.
  intros Hst H1 H2 Ha E Hp. apply (entry_at_end _ _ _ _ Hst) in Hp as ((c & ss0 & Hc & Hv & ->) & _); [|done].
  assert (known f ss) as Hk1 by (apply (child_known f s _ _ Hst H1 H2); intros x Hx; apply elem_of_app; by left).
  assert (known f es) as Hk2 by (apply (child_known f s _ _ Hst H1 H2); intros x Hx; apply elem_of_app; by right).
  cbn [walk_statement_hir] in E. rewrite Hst in E. apply bind_inv in E as (st & b0 & [= <- <-] & E). cbv zeta in E.
  cbn [stmt_labels] in Ha. rewrite Hst in Ha. pose proof (ar_inv _ _ _ _ _ Ha) as Hb.
  pose proof (ar_rsv _ _ _ _ _ Ha) as HR. pose proof (current_lt b c Hb Hc) as Hlt.
  destruct (try_walk_ok f s ss es b c b' R G Hk1 Hk2 Hc E Ha) as (b2 & b5 & E2 & E5 & Htw & He).
  split; [done|]. split; [done|]. exists (try_entry s c b), b2, (try_handler (node_count b) b2), b5.
  split_and!; [done..|].
  apply (path_leave G c (length ss0) (node_count b) Unconditional); [| |done|constructor].
  - apply (closed_off ({[S (S (node_count b))]} ∪ R) b); [by apply (ext_back _ _ (try_entry s c b)); [apply try_entry_step|]| |done].
    intros [Hin%elem_of_singleton|Hin]%elem_of_union; [lia|by destruct (HR c Hin)].
  - apply (ext_edges _ _ _ He). simpl. rewrite !elem_of_app. left. left. right. by apply list_elem_of_singleton.
Qed.

Lemma sim_try s ss es t o : Hir.stmt_idx body s = Some (Hir.Try ss es) -> sim (CList ss) t o -> o <> Raised ->
  sim (CStmt s) t o.
Proof.
  intros Hst Hsim Ho [|f] b b' R G p H1 H2 Ha E Hp; [lia|].
  destruct (try_stmt f s ss es b b' R G p Hst H1 H2 Ha E Hp) as (Hk1 & _ & be & b2 & bh & b5 & E2 & _ & Htw & Hpath).
  destruct Htw as [Hin _ Hbody _ Hs _ [Hfr _] _ Haw _ Hd _].
  pose proof (Hsim f be b2 _ G _ Hk1 Hbody E2 (or_introl Hs)) as Hr. rewrite Hfr in Hr.
  apply (reach_handler _ _ _ (raise_target b)) in Hr; [|done].
  eapply (reach_prefix _ _ _ _ _ _ (S (node_count b), 0) [] []); [|done|].
  - apply (path_trans G p [] (node_count b, 0) []); done.
  - by eapply reach_onward; [exact Hd|exact Haw|].
Qed.

(** The handler may run after any part of the protected statements. *)
Lemma sim_try_handled s ss es t1 t2 o : Hir.stmt_idx body s = Some (Hir.Try ss es) -> sim (CList es) t2 o ->
  sim (CStmt s) (t1 ++ t2) o.
Proof.
  intros Hst Hsim [|f] b b' R G p H1 H2 Ha E Hp; [lia|].
  destruct (try_stmt f s ss es b b' R G p Hst H1 H2 Ha E Hp) as (_ & Hk2 & be & b2 & bh & b5 & _ & E5 & Htw & Hpath).
  destruct Htw as [_ Hin _ Hbody _ Hs [_ Hfr] Htg _ Haw _ Hd].
  pose proof (Hsim f bh b5 _ G _ Hk2 Hbody E5 (or_introl Hs)) as Hr. rewrite Hfr, Htg in Hr.
  eapply (reach_prefix _ _ _ _ _ _ (S (S (node_count b)), 0) []); [|apply sublist_nil_l|].
  - apply (path_trans G p [] (node_count b, 0) []); done.
  - by eapply reach_onward; [exact Hd|exact Haw|].
Qed.

(** *** All executions *)

Lemma runs_sim k t o : runs body k t o -> sim k t o.
Proof.
  induction 1; [apply sim_nil|by apply sim_cons|by apply sim_leave|by eapply sim_jump|
    by apply (sim_simple_both s st)|by apply (sim_simple_both s st)|by eapply sim_recovered|by eapply sim_if|
    apply sim_if_stop|by apply sim_if_true|by apply sim_if_elsif|by apply sim_if_else|apply sim_if_none|
    eapply sim_preproc; [done|left; by exists br]|by eapply sim_preproc; [done|right]|by eapply sim_loop|
    by eapply sim_loop_stop|apply sim_loop_exit|by eapply sim_loop_again|by apply sim_loop_break|
    by apply sim_loop_leave|by eapply sim_try|by eapply sim_try_handled|].
  by apply (sim_try_handled s ss es []).
Qed.

(** ** Whole bodies *)

(** What an execution of a whole body comes to. *)
Definition shown (g : ControlFlowGraph) (s : NodeIndex) (t : list Event) (o : Outcome) : Prop :=
  match o with
  | Next | Returned | Raised => exists t', path g (s, 0) t' (g_exit g, 0) /\ t' `sublist_of` t
  | Stopped => exists t' q, path g (s, 0) t' q /\ ends_like t' t
  | Broke | Continued | Jumped _ => True
  end.

Lemma started_at_end : at_end started (1, 0).
Proof. apply at_end_empty; [done..|by left]. Qed.

Lemma built_shows ids t o :
  Forall (fun id => id < length (Hir.stmts body))%nat ids -> NoDup (body_labels body ids) ->
  runs body (CList ids) t o ->
  exists g, build_graph_from_hir ids body = Some g /\ g_start g = Some 1 /\ shown g 1 t o.
Proof.
  intros Hids Hnd Hr. destruct (build_spec body ids Hnested Hids) as (b & E & W & [S1 S2] & g & Eg & He & Hn & _ & Hend).
  exists g. split; [done|].
  assert (g_start (cfg b) = Some 1) as Hst by apply (ext_start _ _ _ (step_ext _ _ _ (wk_step _ _ _ _ _ W))).
  assert (g_exit (cfg b) = 0) as Hx by apply (ext_exit _ _ _ (step_ext _ _ _ (wk_step _ _ _ _ _ W))).
  assert (g_exit g = 0) as Hxg by by rewrite (ext_exit _ _ _ He).
  split; [by rewrite (ext_start _ _ _ He)|].
  assert (known (S (length (Hir.stmts body))) ids) as Hk.
  { eapply Forall_impl; [exact Hids|]. intros id Hid. cbv beta in Hid. lia. }
  assert (around ∅ (body_labels body ids) started b g) as Ha.
  { split; [apply Inv_started|by split|by intros v []%not_elem_of_empty|done]. }
  pose proof (runs_sim _ _ _ Hr _ started b ∅ g (1, 0) Hk Ha E (or_introl started_at_end)) as Hreach.
  change (raise_target started) with 0 in Hreach. unfold shown.
  destruct o; try done; [|by rewrite Hxg].
  destruct Hreach as (t' & q & ((c & ss & Hc & Hv & ->) & Hl & Hcalm) & Hp & Ht). rewrite Hxg.
  specialize (Hend c Hc). rewrite Hv in Hend. destruct Hend as [(s & st & Hlast & Hs & Hterm)|Hin].
  - destruct (Hcalm c ss s Hc Hv Hlast) as (st' & Hs' & Hf). congruence.
  - rewrite link_kind_live in Hin by by apply Hl. exists (t' ++ []). split; [|by rewrite app_nil_r].
    eapply path_trans; [exact Hp|]. apply (path_leave g c (length ss) 0 Unconditional); [|done|done|constructor].
    exists (BasicBlock ss). split; [unfold vertex; by rewrite Hn|]. simpl. by rewrite length_fmap.
Qed.

(** C4. The graph misses no execution: whatever a body does (conditions may go either way, loops may
    repeat, errors may enter handlers), the graph the builder makes of it has a path over executable
    edges that passes no statement, header or loop variable the execution did not pass, in the same
    order; the path leads to the exit when the execution falls off the end, returns or raises an error
    nothing handles, and to the same last point for every prefix of an execution. *)
Theorem builder_covers_runs ids t o :
  Forall (fun id => id < length (Hir.stmts body))%nat ids -> NoDup (body_labels body ids) ->
  runs body (CList ids) t o ->
  exists g s, build_graph_from_hir ids body = Some g /\ g_start g = Some s /\
    match o with
    | Next | Returned | Raised => exists t', path g (s, 0) t' (g_exit g, 0) /\ t' `sublist_of` t
    | Stopped => exists t' q, path g (s, 0) t' q /\ ends_like t' t
    | Broke | Continued | Jumped _ => True
    end.
Proof.
  intros Hids Hnd Hr. destruct (built_shows ids t o Hids Hnd Hr) as (g & E & Hs & Hsh). by exists g, 1.
Qed.
End simulation.

(** ** An execution of the body with a label, a loop left by a jump, and a handler *)

(** Into the loop once, out of it by the jump, the protected statement fails, the handler jumps back
    to the label, and the second time the loop is not entered. *)
Definition sample_trace : list Event :=
  [At (Stmt 8); At (Header 0); At (Stmt 0); At (Header 3); At (Stmt 1); At (Stmt 4); At (Stmt 5);
   At (Stmt 8); At (Header 0); At (Stmt 4); At (Stmt 7)].

Lemma sample_loop_left : runs sample_body (CStmt 3) [At (Header 0); At (Stmt 0); At (Header 3); At (Stmt 1)] Next.
Proof.
  apply (run_loop _ 3 (Hir.While 0 [0; 2]) (WhileHeader 0) [0; 2]); [done..|].
  apply (run_loop_break _ (WhileHeader 0) [0; 2] [At (Stmt 0); At (Header 3); At (Stmt 1)]).
  apply (run_cons _ 0 [2] [At (Stmt 0)]); [by apply (run_simple _ 0 (Hir.Assign 1 2))|].
  apply run_leave; [|done]. apply (run_if _ 2 (Hir.MkIf 3 [1] [] None)); [done|].
  apply run_if_true. apply run_leave; [|done]. by apply (run_simple _ 1 Hir.Break).
Qed.

Lemma sample_loop_skipped : runs sample_body (CStmt 3) [At (Header 0)] Next.
Proof.
  apply (run_loop _ 3 (Hir.While 0 [0; 2]) (WhileHeader 0) [0; 2]); [done..|]. apply (run_loop_exit _ (WhileHeader 0)).
Qed.

Lemma sample_label : runs sample_body (CStmt 8) [At (Stmt 8)] Next.
Proof. by apply (run_simple _ 8 (Hir.Label "L")). Qed.

Lemma sample_again : runs sample_body (CList sample_ids) [At (Stmt 8); At (Header 0); At (Stmt 4); At (Stmt 7)] Returned.
Proof.
  apply (run_cons _ 8 _ [At (Stmt 8)]); [apply sample_label|].
  apply (run_cons _ 3 _ [At (Header 0)]); [apply sample_loop_skipped|].
  apply (run_cons _ 6 _ [At (Stmt 4)]).
  - apply (run_try _ 6 [4] [5]); [done| |done].
    apply (run_cons _ 4 [] [At (Stmt 4)] []); [by apply (run_simple _ 4 (Hir.Assign 4 5))|apply run_nil].
  - apply run_leave; [|done]. by apply (run_simple _ 7 (Hir.Return None)).
Qed.

Lemma sample_runs : runs sample_body (CList sample_ids) sample_trace Returned.
Proof.
  apply (run_jump _ [] 8 [3; 6; 7] "L"
    [At (Stmt 8); At (Header 0); At (Stmt 0); At (Header 3); At (Stmt 1); At (Stmt 4); At (Stmt 5)]);
    [|done|apply sample_again].
  apply (run_cons _ 8 _ [At (Stmt 8)]); [apply sample_label|].
  apply (run_cons _ 3 _ [At (Header 0); At (Stmt 0); At (Header 3); At (Stmt 1)]); [apply sample_loop_left|].
  apply run_leave; [|done].
  apply (run_try_handled _ 6 [4] [5] [At (Stmt 4)] [At (Stmt 5)] Stopped); [done| |by right|].
  - apply run_leave; [|done]. by apply (run_simple_stop _ 4 (Hir.Assign 4 5)).
  - apply run_leave; [|done]. by apply (run_simple _ 5 (Hir.Goto "L")).
Qed.

Lemma sample_ids_ok : Forall (fun id => id < length (Hir.stmts sample_body))%nat sample_ids.
Proof. repeat constructor. Qed.

Lemma sample_labels_once : NoDup (body_labels sample_body sample_ids).
Proof. apply (bool_decide_unpack (NoDup (body_labels sample_body sample_ids))). vm_compute. exact I. Qed.

Lemma builder_covers_runs_witness :
  exists g s, @build_graph_from_hir as_listed sample_ids sample_body = Some g /\ g_start g = Some s /\
    exists t', path g (s, 0) t' (g_exit g, 0) /\ t' `sublist_of` sample_trace.
Proof.
  exact (@builder_covers_runs as_listed as_listed_law sample_body sample_nested sample_ids sample_trace Returned
    sample_ids_ok sample_labels_once sample_runs).
Defined.
