(* ===== verification/DefiniteInitSound.v ===== *)
(** DefiniteInitSound: definite initialization against the executions of the body.

    The graph the builder makes of a body has a path for every execution, and the analysis is exact
    on paths; together: what the analysis calls initialized before a point was assigned by every
    execution that arrives there. *)
From stdpp Require Import prelude gmap strings.
From S2P Require Import Prelude Cfg Dataflow DataflowSpec DefiniteInit DefiniteInitSpec CfgBuilder.
From S2P Require Import CfgBuilderSpec CfgSemantics CfgSimulation.

(** ** The bits of an execution *)

Definition event_bits (ev : InitEvents) (e : Event) : gset nat :=
  match e with
  | At (Stmt s) => bits_of (ev_stmt ev !! s)
  | At (Header c) => header_bits ev c
  | Binds v => loop_var_bits ev v
  end.

Definition trace_bits (ev : InitEvents) (t : list Event) : gset nat := ⋃ (event_bits ev <$> t).

Lemma trace_bits_app ev t1 t2 : trace_bits ev (t1 ++ t2) = trace_bits ev t1 ∪ trace_bits ev t2.
Proof. unfold trace_bits. by rewrite fmap_app, union_list_app_L. Qed.

Lemma trace_bits_cons ev e t : trace_bits ev (e :: t) = event_bits ev e ∪ trace_bits ev t.
Proof. done. Qed.

Lemma trace_bits_none ev t (S : gset nat) : S ∪ trace_bits ev (take 0 t) = S.
Proof. apply union_empty_r_L. Qed.

Lemma elem_of_trace_bits ev b t : b ∈ trace_bits ev t <-> exists e, e ∈ t /\ b ∈ event_bits ev e.
Proof.
  unfold trace_bits. rewrite elem_of_union_list. split.
  - intros (B & (e & -> & He)%list_elem_of_fmap & Hb). by exists e.
  - intros (e & He & Hb). exists (event_bits ev e). split; [by apply list_elem_of_fmap_2|done].
Qed.

Lemma trace_bits_sublist ev t' t : t' `sublist_of` t -> trace_bits ev t' ⊆ trace_bits ev t.
Proof.
  intros Hs b (e & He & Hb)%elem_of_trace_bits. apply elem_of_trace_bits. exists e. split; [|done].
  by eapply sublist_subseteq.
Qed.

Section paths.
Context (ev : InitEvents) (g : ControlFlowGraph).

Lemma stmts_bits_events ss : stmts_bits ev ss = trace_bits ev ((fun s => At (Stmt s)) <$> ss).
Proof.
  induction ss as [|s ss IH]; [done|].
  change (bits_of (ev_stmt ev !! s) ∪ stmts_bits ev ss =
    event_bits ev (At (Stmt s)) ∪ trace_bits ev ((fun s => At (Stmt s)) <$> ss)). by rewrite IH.
Qed.

(** A vertex sets the bits of its events. *)
Lemma vertex_bits_events v kind : vertex g v = Some kind -> vertex_bits ev g v = trace_bits ev (vertex_events kind).
Proof.
  intros Hv. unfold vertex_bits. rewrite Hv. destruct kind; unfold trace_bits; simpl; [apply stmts_bits_events|..];
    by rewrite ?union_empty_r_L, ?(assoc_L (∪)).
Qed.

(** The events of a vertex before one of its points are what the path to the point adds. *)
Lemma carries_to_event v kind i p S :
  carries ev g v S -> vertex g v = Some kind -> vertex_events kind !! i = Some (At p) ->
  carries_to ev g p (S ∪ trace_bits ev (take i (vertex_events kind))).
Proof.
  intros HS Hv Hi. destruct kind; simpl in Hi.
  - apply list_lookup_fmap_Some in Hi as (s & [= ->] & Hs).
    rewrite <- (take_drop_middle statements i s Hs) in Hv.
    change (vertex_events (BasicBlock statements)) with ((fun s => At (Stmt s)) <$> statements).
    rewrite <- fmap_take, <- stmts_bits_events. by eapply carries_stmt.
  - destruct i; [|done]. injection Hi as <-. rewrite trace_bits_none. by eapply carries_conditional.
  - destruct i; [|done]. injection Hi as <-. rewrite trace_bits_none. by eapply carries_while.
  - destruct i as [|[|[|i]]]; [| |done|done]; injection Hi as <-.
    + rewrite trace_bits_none. by eapply carries_from.
    + change (trace_bits ev (take 1 _)) with (header_bits ev from ∪ ∅). rewrite (union_empty_r_L (header_bits ev from)).
      by eapply carries_until.
  - destruct i as [|[|i]]; [|done..]. injection Hi as <-. rewrite trace_bits_none. by eapply carries_collection.
  - done.
  - done.
  - done.
Qed.

(** A path carries the bits of its events. *)
Lemma path_carries v i t q S kind :
  path g (v, i) t q -> carries ev g v S -> vertex g v = Some kind ->
  forall t0 p, t = t0 ++ [At p] ->
    carries_to ev g p (S ∪ trace_bits ev (take i (vertex_events kind)) ∪ trace_bits ev t0).
Proof.
  intros Hp. remember (v, i) as x eqn:Ex. revert v i S kind Ex.
  induction Hp as [q0|v' i' kind' e t p' Hv He _ IH|v' kind' w k t p' Hv Hin Hk Hw IH];
    intros v i S kind Ex HS Hkind t0 p Et; [by destruct t0| |].
  - injection Ex as -> ->. assert (kind' = kind) as -> by congruence. destruct t0 as [|e0 t0]; injection Et as -> Et.
    + change (trace_bits ev []) with (∅ : gset nat). rewrite union_empty_r_L. by eapply carries_to_event.
    + specialize (IH v (Datatypes.S i) S kind eq_refl HS Hkind t0 p Et).
      rewrite (take_S_r _ _ _ He), trace_bits_app, trace_bits_cons in IH. rewrite trace_bits_cons.
      change (trace_bits ev []) with (∅ : gset nat) in IH. rewrite union_empty_r_L in IH.
      by rewrite (assoc_L (∪)) in IH |- *.
  - injection Ex as -> <-. assert (kind' = kind) as -> by congruence.
    rewrite firstn_all, <- (vertex_bits_events _ _ Hkind).
    pose proof (carries_step ev g v w k S HS Hin Hk) as Hw'.
    assert (exists kw, vertex g w = Some kw) as [kw Hkw].
    { inversion Hw; subst; [by destruct t0|by eexists..]. }
    specialize (IH w 0 _ kw eq_refl Hw' Hkw t0 p Et). by rewrite trace_bits_none in IH.
Qed.
End paths.

(** ** Soundness *)

Section sound.
Context `{EdgeOrderLaw, DfsPostOrder} (body : Hir.Body) (Hnested : nested body).

(** The part of an execution before a point covers what some path to the point carries. *)
Lemma stopped_carries ev ids t p g :
  Forall (fun id => id < length (Hir.stmts body))%nat ids -> NoDup (body_labels body ids) ->
  build_graph_from_hir ids body = Some g -> runs body (CList ids) (t ++ [At p]) Stopped ->
  exists S, carries_to ev g p S /\ S ⊆ trace_bits ev t.
Proof.
  intros Hids Hnd E Hr. destruct (built_shows body Hnested ids _ Stopped Hids Hnd Hr) as (g' & E' & Hs & Hsh).
  rewrite E in E'. injection E' as <-. destruct Hsh as (t' & q & Hpath & t0 & t0' & e & Et & -> & Hsub).
  apply app_inj_tail in Et as [<- <-].
  assert (exists kind, vertex g 1 = Some kind) as [kind Hk].
  { inversion Hpath; subst; [by destruct t0'|by eexists..]. }
  exists (∅ ∪ trace_bits ev (take 0 (vertex_events kind)) ∪ trace_bits ev t0'). split.
  - by eapply (path_carries ev g 1 0 _ q ∅ kind); [|apply carries_start| |].
  - rewrite trace_bits_none, union_empty_l_L. by apply trace_bits_sublist.
Qed.

(** C3. Definite initialization is sound for executions: when the analysis of the graph of a body
    answers, and an execution of the body arrives at a statement or header, the analysis has a
    reached state for that point, and every name it calls initialized there was assigned by the
    execution before. *)
Theorem definite_init_sound ev ids g max_iterations r t p :
  Forall (fun id => id < length (Hir.stmts body))%nat ids -> NoDup (body_points body ids) -> NoDup (body_labels body ids) ->
  build_graph_from_hir ids body = Some g -> (forall start, g_start g = Some start -> dfs_law (g_edges g) start) ->
  analyze_definite_init g ev max_iterations = Some (Some r) -> runs body (CList ids) (t ++ [At p]) Stopped ->
  exists st, state_before r p = Some st /\ st <> Unreached /\
    forall bit, is_initialized st bit = Some true -> exists e, e ∈ t /\ bit ∈ event_bits ev e.
Proof.
  intros Hids Hpts Hlab E Hdfs Ea Hr.
  destruct (built_graph body ids Hnested Hids) as (g' & E' & Hwf & (s & Hs & Hentry) & Hperm).
  rewrite E in E'. injection E' as <-.
  destruct (stopped_carries ev ids t p g Hids Hlab E Hr) as (S & HS & Hsub).
  assert (p ∈ graph_points g) as Hp.
  { apply carries_to_marks in HS as (v & B & S0 & Hm & _). unfold graph_points. rewrite <- (marks_points ev).
    apply list_elem_of_fmap. by exists (p, (v, B)). }
  destruct (point_described ev g s Hwf Hs Hentry (Hdfs s Hs) max_iterations r p) as (st & Est & Hd);
    [by rewrite Hperm|done|done|].
  exists st. split; [done|]. destruct st as [|T]; simpl in Hd; [by destruct (Hd S)|]. split; [done|].
  intros bit Hb. simpl in Hb. injection Hb as Hb%bool_decide_eq_true. apply elem_of_trace_bits, Hsub.
  destruct Hd as (_ & Hall & _). by apply (Hall S).
Qed.
End sound.

(** ** The statement behind the handler *)

Module Sample.
#[local] Existing Instances as_listed as_listed_law.

#[local] Instance dfs : DfsPostOrder := fun _ _ => [0; 16; 15; 12; 14; 13; 11; 6; 8; 10; 9; 7; 5; 4; 3; 2; 1].

(** The protected statement 4 assigns the only name. *)
Definition sample_events : InitEvents := MkEvents 1 {[4 := [0]]} ∅ ∅ ∅.

(** The execution that passes the loop and arrives at the last statement. *)
Lemma sample_arrives : runs sample_body (CList sample_ids) ([At (Stmt 8); At (Header 0); At (Stmt 4)] ++ [At (Stmt 7)]) Stopped.
Proof.
  apply (run_cons _ 8 _ [At (Stmt 8)]); [apply sample_label|].
  apply (run_cons _ 3 _ [At (Header 0)]); [apply sample_loop_skipped|].
  apply (run_cons _ 6 _ [At (Stmt 4)]).
  - apply (run_try _ 6 [4] [5]); [done| |done].
    apply (run_cons _ 4 [] [At (Stmt 4)] []); [by apply (run_simple _ 4 (Hir.Assign 4 5))|apply run_nil].
  - apply run_leave; [|done]. by apply (run_simple_stop _ 7 (Hir.Return None)).
Qed.

Lemma sample_points_once : NoDup (body_points sample_body sample_ids).
Proof. apply (bool_decide_unpack (NoDup (body_points sample_body sample_ids))). vm_compute. exact I. Qed.

(** The name is initialized there, and not before the protected statement. *)
Lemma sample_states :
  match build_graph_from_hir sample_ids sample_body with
  | Some g => match analyze_definite_init g sample_events 100 with
    | Some (Some r) => (fun s => option_map (fun st => is_initialized st 0) (state_before r (Stmt s))) <$> [4; 7] =
        [Some (Some false); Some (Some true)]
    | _ => False
    end
  | None => False
  end.
Proof. vm_compute. reflexivity. Qed.

Lemma definite_init_sound_witness :
  match build_graph_from_hir sample_ids sample_body with
  | Some g => match analyze_definite_init g sample_events 100 with
    | Some (Some r) => exists st, state_before r (Stmt 7) = Some st /\ st <> Unreached /\
        forall bit, is_initialized st bit = Some true ->
          exists e, e ∈ [At (Stmt 8); At (Header 0); At (Stmt 4)] /\ bit ∈ event_bits sample_events e
    | _ => False
    end
  | None => False
  end.
Proof.
  destruct (build_graph_from_hir sample_ids sample_body) as [g|] eqn:E; [|vm_compute in E; discriminate].
  assert (forall start, g_start g = Some start -> dfs_law (g_edges g) start) as Hdfs.
  { vm_compute in E. injection E as <-. intros start [= <-]. by apply dfs_check_law. }
  destruct (analyze_definite_init g sample_events 100) as [[r|]|] eqn:Ea;
    [|vm_compute in E; injection E as <-; vm_compute in Ea; discriminate..].
  exact (definite_init_sound sample_body sample_nested sample_events sample_ids g 100 r _ (Stmt 7)
    sample_ids_ok sample_points_once sample_labels_once E Hdfs Ea sample_arrives).
Defined.
End Sample.
