(* ===== verification/Lowered.v ===== *)
(** Lowered: the expressions and bindings of a lowered body (crates/hir-def/src/hir.rs, body.rs).

    The statements are those of [CfgBuilder.Hir].  Expressions sit in an arena of their own and refer
    to each other by index; an index outside of it panics, which is [None] here.  A number is the
    64 bits of its float.  Labels, which the builder compares exactly, are strings there; the names
    of expressions and bindings, which the analyses fold, are texts. *)
From stdpp Require Import prelude.
From S2P Require Import Prelude Cfg CfgBuilder.

Inductive Literal : Set :=
| Number (bits : N)
| StringLit (s : text)
| Date (s : text)
| Bool (b : bool)
| Undefined
| Null.

Inductive BinaryOp : Set := Add | Sub | Mul | Div | Mod | Eq | Neq | Lt | Le | Gt | Ge | And | Or.

Inductive UnaryOp : Set := Neg | Not | Plus.

Inductive Expr : Set :=
| Missing
| Lit (l : Literal)
| Path (name : text)
| Binary (lhs rhs : ExprId) (op : BinaryOp)
| Unary (expr : ExprId) (op : UnaryOp)
| Ternary (condition then_expr else_expr : ExprId)
| Call (callee : ExprId) (args : list ExprId)
| MethodCall (receiver : ExprId) (method : text) (args : list ExprId)
| Index (base index : ExprId)
| Field (base : ExprId) (field : text)
| New (type_name : option text) (args : list ExprId)
| Array (items : list ExprId)
| Await (expr : ExprId).

Record Binding : Set := MkBinding { binding_name : text; is_val : bool; default_value : option ExprId }.

Record Body : Type := MkLowered {
  statements : Hir.Body;
  exprs : list Expr;
  bindings : list Binding;
  params : list BindingId;
  body_stmts : list StmtId;
}.

Definition expr (b : Body) (id : ExprId) : option Expr := exprs b !! id.
Definition stmt (b : Body) (id : StmtId) : option Hir.Stmt := Hir.stmt_idx (statements b) id.
Definition binding (b : Body) (id : BindingId) : option Binding := bindings b !! id.

(** The expressions an expression refers to, in the order in which the walks visit them. *)
Definition children (e : Expr) : list ExprId :=
  match e with
  | Missing | Lit _ | Path _ => []
  | Binary lhs rhs _ => [lhs; rhs]
  | Unary e _ | Await e | Field e _ => [e]
  | Ternary condition then_expr else_expr => [condition; then_expr; else_expr]
  | Call e args | MethodCall e _ args => e :: args
  | Index base index => [base; index]
  | New _ args | Array args => args
  end.

(** Lowering allocates an expression behind those it refers to. *)
Definition exprs_nested (b : Body) : Prop :=
  forall i e c, exprs b !! i = Some e -> c ∈ children e -> (c < i)%nat.
