(* ===== verification/ValueState.v ===== *)
(** ValueState: the booleans that variables are known to hold, and that these are the ones all paths
    agree on (crates/dataflow/src/value_state.rs).

    An index outside of the arenas panics, which is [None] of the functions that read the body.  The
    transfer functions of the solver are total here and leave the state alone where the code would
    panic; on a graph all of whose reads are inside ([reads_inside]) none does.  The
    assertions that a state is reachable before it is written are those of debug builds. *)
From stdpp Require Import prelude gmap strings.
From S2P Require Import Prelude Case Cfg Dataflow DataflowSpec DataflowExact DefiniteInit CfgBuilder CfgBuilderSpec CfgSemantics Lowered.

Inductive KnownValue : Set := KBool (b : bool).

#[export] Instance KnownValue_eq_dec : EqDecision KnownValue.
Proof. solve_decision. Defined.

Inductive ValueOverlay : Type := Unreachable | Reachable (m : gmap text KnownValue).

#[export] Instance ValueOverlay_eq_dec : EqDecision ValueOverlay.
Proof. solve_decision. Defined.

Definition is_reachable (s : ValueOverlay) : bool := match s with Reachable _ => true | Unreachable => false end.

Definition is_empty (s : ValueOverlay) : bool :=
  match s with Unreachable => true | Reachable m => bool_decide (m = ∅) end.

(** The smaller map is walked, and what the larger one has too is kept. *)
Definition value_join (a b : ValueOverlay) : ValueOverlay :=
  match a, b with
  | Unreachable, x | x, Unreachable => x
  | Reachable a, Reachable b =>
      let '(small, large) := if (size a <=? size b)%nat then (a, b) else (b, a) in
      Reachable (filter (fun e => large !! e.1 = Some e.2) small)
  end.

#[export] Instance ValueOverlay_join : Lattice ValueOverlay := value_join.

Section code.
Context `{CharCase} `{CharUpper} `{StrLower}.

Definition lowercase_key (name : text) : text := fold_lower name.

Definition value_get (s : ValueOverlay) (name : text) : option KnownValue :=
  match s with Unreachable => None | Reachable m => m !! lowercase_key name end.

Definition value_set (s : ValueOverlay) (name : text) (v : KnownValue) : ValueOverlay :=
  match s with Unreachable => Unreachable | Reachable m => Reachable (<[lowercase_key name := v]> m) end.

Definition value_kill (s : ValueOverlay) (name : text) : ValueOverlay :=
  match s with Unreachable => Unreachable | Reachable m => Reachable (delete (lowercase_key name) m) end.

Definition expect_path_name (b : Body) (e : ExprId) : option (option text) :=
  x ← expr b e; Some (match x with Path name => Some name | _ => None end).

Definition apply_assignment (b : Body) (target value : ExprId) (s : ValueOverlay) : option ValueOverlay :=
  name ← expect_path_name b target;
  match name with
  | None => Some s
  | Some name =>
      x ← expr b value;
      Some (match x with Lit (Bool v) => value_set s name (KBool v) | _ => value_kill s name end)
  end.

Definition step (b : Body) (s : ValueOverlay) (id : StmtId) : option ValueOverlay :=
  if negb (is_reachable s) then Some s
  else
    x ← stmt b id;
    match x with Hir.Assign target value => apply_assignment b target value s | _ => Some s end.

Definition replay_within_block (block_in : ValueOverlay) (b : Body) (stmts : list StmtId) (until_idx : nat) : option ValueOverlay :=
  foldl (fun acc id => s ← acc; step b s id) (Some block_in) (take until_idx stmts).

Definition loop_var_bind (b : Body) (v : BindingId) (s : ValueOverlay) : option ValueOverlay :=
  if negb (is_reachable s) then Some s else x ← binding b v; Some (value_kill s (binding_name x)).

(** The other functions are the trait's. *)
#[local] Instance ValueStateProvider (b : Body) : Transfer ValueOverlay := {|
  transfer_stmt id s := default s (step b s id);
  transfer_expr _ s := s;
  transfer_edge _ s := s;
  transfer_loop_var_bind v s := default s (loop_var_bind b v s);
  transfer_try_entry _ s := s;
|}.

Context `{EdgeOrder, DfsPostOrder}.

Definition analyze (g : ControlFlowGraph) (b : Body) : option (DataflowResult ValueOverlay) :=
  @solve ValueOverlay _ _ (ValueStateProvider b) _ _ Forward g DEFAULT_MAX_ITERATIONS
    (set_initial_state g (Reachable ∅) (bottoms g Unreachable)) (bottoms g Unreachable).

Definition known_value_at_block_entry (r : DataflowResult ValueOverlay) (block : NodeIndex) (name : text) : option KnownValue :=
  s ← block_in r !! block; value_get s name.
End code.

(** ** The lattice *)

Lemma value_join_lookup a b :
  exists m, value_join (Reachable a) (Reachable b) = Reachable m /\ forall k v, m !! k = Some v <-> a !! k = Some v /\ b !! k = Some v.
Proof.
  unfold value_join. destruct (size a <=? size b)%nat; eexists; (split; [reflexivity|]); intros k v; rewrite map_lookup_filter_Some; simpl; tauto.
Qed.

#[export] Instance value_laws : LatticeLaws ValueOverlay.
Proof.
  assert (forall a b c d, (forall k (v : KnownValue), a !! k = Some v <-> b !! k = Some v) -> Reachable a = c -> Reachable b = d -> c = d) as Heq.
  { intros a b c d E <- <-. f_equal. apply map_eq. intros k. apply option_eq. apply E. }
  split.
  - intros [|a] [|b] [|c]; try done; [change (value_join (value_join (Reachable a) (Reachable b)) Unreachable = value_join (Reachable a) (Reachable b));
      by destruct (value_join_lookup a b) as (? & -> & _)|].
    change (value_join (value_join (Reachable a) (Reachable b)) (Reachable c) = value_join (Reachable a) (value_join (Reachable b) (Reachable c))).
    destruct (value_join_lookup a b) as (ab & E1 & H1), (value_join_lookup b c) as (bc & E2 & H2). rewrite E1, E2.
    destruct (value_join_lookup ab c) as (l & -> & Hl), (value_join_lookup a bc) as (r & -> & Hr).
    eapply Heq; [|done|done]. intros k v. rewrite Hl, Hr, H1, H2. tauto.
  - intros [|a] [|b]; try done. change (value_join (Reachable a) (Reachable b) = value_join (Reachable b) (Reachable a)). destruct (value_join_lookup a b) as (l & -> & Hl), (value_join_lookup b a) as (r & -> & Hr).
    eapply Heq; [|done|done]. intros k v. rewrite Hl, Hr. tauto.
  - intros [|a]; [done|]. change (value_join (Reachable a) (Reachable a) = Reachable a). destruct (value_join_lookup a a) as (l & -> & Hl).
    eapply Heq; [|done|done]. intros k v. rewrite Hl. tauto.
Qed.

Section code.
Context `{CharCase} `{CharUpper} `{StrLower}.

(** ** What an event writes *)

(** The value written to the variable with this key: known, unknown, or no write at all. *)
Definition writes (b : Body) (key : text) (e : Event) : option (option KnownValue) :=
  match e with
  | At (Stmt s) =>
      match stmt b s with
      | Some (Hir.Assign target value) =>
          found ← expect_path_name b target;
          name ← found;
          x ← expr b value;
          if decide (lowercase_key name = key) then Some (match x with Lit (Bool v) => Some (KBool v) | _ => None end) else None
      | _ => None
      end
  | At (Header _) => None
  | Binds v => x ← binding b v; if decide (lowercase_key (binding_name x) = key) then Some None else None
  end.

Definition last_write (b : Body) (key : text) (t : list Event) : option KnownValue :=
  foldl (fun known e => match writes b key e with Some w => w | None => known end) None t.

Definition trail_events (g : ControlFlowGraph) (us : list NodeIndex) : list Event :=
  us ≫= fun u => match vertex g u with Some kind => vertex_events kind | None => [] end.

(** Nothing is cut. *)
Definition uncut (k : CfgEdgeType) : bool := false.

Definition event_step (b : Body) (s : ValueOverlay) (e : Event) : ValueOverlay :=
  match e with At (Stmt id) => default s (step b s id) | At (Header _) => s | Binds v => default s (loop_var_bind b v s) end.

(** What the events of a graph read of the body is in its arenas, so that no transfer panics. *)
Definition reads_inside (b : Body) (e : Event) : Prop :=
  match e with
  | At (Stmt s) =>
      match stmt b s with
      | Some (Hir.Assign target value) => is_Some (expr b target) /\ is_Some (expr b value)
      | Some _ => True
      | None => False
      end
  | At (Header _) => True
  | Binds v => is_Some (binding b v)
  end.

Lemma stmt_reads_inside b s id : reads_inside b (At (Stmt id)) -> is_Some (step b s id).
Proof.
  unfold step. simpl. destruct s as [|m]; [by eexists|]. simpl. destruct (stmt b id) as [[]|]; try done; try by eexists.
  intros [[x Hx] [y Hy]]. cbn [mbind option_bind]. unfold apply_assignment, expect_path_name. rewrite Hx. cbn [mbind option_bind].
  destruct x; try by eexists. rewrite Hy. by eexists.
Qed.

Lemma bind_reads_inside b s v : reads_inside b (Binds v) -> is_Some (loop_var_bind b v s).
Proof. unfold loop_var_bind. simpl. destruct s as [|m]; [by eexists|]. intros [x ->]. by eexists. Qed.

Section body.
Context (b : Body).
#[local] Existing Instance ValueStateProvider.

Lemma transfer_block_events g v s :
  @transfer_block _ (ValueStateProvider b) g v s = foldl (event_step b) s (match vertex g v with Some kind => vertex_events kind | None => [] end).
Proof.
  unfold transfer_block. destruct (vertex g v) as [[ss| | | | | | |]|]; try done.
  - simpl. revert s. induction ss as [|x ss IH]; intros s; [done|]. simpl. apply IH.
  - simpl. by destruct (source_stmt_id g v).
Qed.

Lemma trail_step_events g us s :
  foldl (fun s u => @transfer_block _ (ValueStateProvider b) g u s) s us = foldl (event_step b) s (trail_events g us).
Proof.
  revert s. induction us as [|u us IH]; intros s; [done|]. unfold trail_events. simpl. rewrite foldl_app. rewrite transfer_block_events.
  apply IH.
Qed.

(** An event on a reachable state. *)
Lemma event_step_lookup m e :
  exists m', event_step b (Reachable m) e = Reachable m' /\
    forall key, m' !! key = match writes b key e with Some w => w | None => m !! key end.
Proof.
  destruct e as [[s|c]|v]; simpl.
  - unfold step. simpl. destruct (stmt b s) as [[]|]; try by exists m. simpl. unfold apply_assignment.
    destruct (expect_path_name b target) as [[name|]|]; [|by exists m..]. simpl.
    destruct (expr b value) as [x|]; [|by exists m]. simpl.
    assert (exists m', value_kill (Reachable m) name = Reachable m' /\
      forall key, m' !! key = match (if decide (lowercase_key name = key) then Some None else None) with Some w => w | None => m !! key end) as Hkill.
    { eexists. split; [reflexivity|]. intros key. case_decide; [subst; by rewrite lookup_delete_eq|by rewrite lookup_delete_ne]. }
    destruct x as [|[]| | | | | | | | | | |]; try exact Hkill.
    eexists. split; [reflexivity|]. intros key. case_decide; [subst; by rewrite lookup_insert_eq|by rewrite lookup_insert_ne].
  - by exists m.
  - unfold loop_var_bind. simpl. destruct (binding b v) as [x|]; [|by exists m]. simpl. eexists. split; [reflexivity|].
    intros key. case_decide; [subst; by rewrite lookup_delete_eq|by rewrite lookup_delete_ne].
Qed.

Lemma event_step_unreachable e : event_step b Unreachable e = Unreachable.
Proof. by destruct e as [[]|]. Qed.

(** Many events. *)
Lemma events_lookup t m :
  exists m', foldl (event_step b) (Reachable m) t = Reachable m' /\
    forall key, m' !! key = foldl (fun known e => match writes b key e with Some w => w | None => known end) (m !! key) t.
Proof.
  revert m. induction t as [|e t IH]; intros m; [by exists m|]. simpl. destruct (event_step_lookup m e) as (m1 & -> & L1).
  destruct (IH m1) as (m2 & -> & L2). exists m2. split; [done|]. intros key. by rewrite L2, L1.
Qed.

(** ** Monotone, and prime *)

Definition value_lacks (key : text) (w : KnownValue) (s : ValueOverlay) : Prop :=
  match s with Unreachable => False | Reachable m => m !! key <> Some w end.

Lemma value_below s s' : below s s' <->
  match s, s' with Unreachable, _ => True | Reachable _, Unreachable => False
  | Reachable m, Reachable m' => forall key w, m' !! key = Some w -> m !! key = Some w end.
Proof.
  unfold below, join, ValueOverlay_join. destruct s as [|m], s' as [|m']; try done.
  destruct (value_join_lookup m m') as (l & -> & Hl). split.
  - intros [= ->] key w Hk. by apply Hl.
  - intros Hs. f_equal. apply map_eq. intros key. apply option_eq. intros w. rewrite Hl. split; [tauto|]. intros Hw. split; [by apply Hs|done].
Qed.

Lemma event_step_mono e s s' : below s s' -> below (event_step b s e) (event_step b s' e).
Proof.
  rewrite !value_below. destruct s as [|m], s' as [|m']; try done; rewrite ?event_step_unreachable; try done.
  intros Hs. destruct (event_step_lookup m e) as (m1 & -> & L1), (event_step_lookup m' e) as (m2 & -> & L2).
  intros key w. rewrite L1, L2. destruct (writes b key e); [done|apply Hs].
Qed.

#[export] Instance value_transfer_laws : @TransferLaws ValueOverlay _ (ValueStateProvider b).
Proof.
  split; simpl; try done.
  - intros s. apply (event_step_mono (At (Stmt s))).
  - intros v. apply (event_step_mono (Binds v)).
Qed.

Definition value_family (P : ValueOverlay -> Prop) : Prop :=
  (forall s, ~ P s) \/ (forall s, P s <-> is_reachable s = true) \/ exists key w, forall s, P s <-> value_lacks key w s.

Lemma family_event e P : value_family P -> value_family (fun s => P (event_step b s e)).
Proof.
  intros [HP|[HP|(key & w & HP)]]; [by left| |].
  - right. left. intros s. rewrite HP. destruct s as [|m]; [by rewrite event_step_unreachable|]. by destruct (event_step_lookup m e) as (m' & -> & _).
  - assert (forall s, P (event_step b s e) <-> match s with Unreachable => False | Reachable m =>
      match writes b key e with Some x => x <> Some w | None => m !! key <> Some w end end) as Hs.
    { intros s. rewrite HP. destruct s as [|m]; [by rewrite event_step_unreachable|]. destruct (event_step_lookup m e) as (m' & -> & Hm).
      unfold value_lacks. rewrite Hm. by destruct (writes b key e). }
    destruct (writes b key e) as [x|].
    + destruct (decide (x = Some w)) as [->|Hx]; [left; intros s; rewrite Hs; destruct s; [tauto|intros Hn; by apply Hn]|].
      right. left. intros s. rewrite Hs. destruct s; simpl; by split.
    + right. right. exists key, w. exact Hs.
Qed.

Lemma value_prime : @Prime ValueOverlay _ (ValueStateProvider b) Unreachable value_family.
Proof.
  split; simpl; try done.
  - intros P s s' [HP|[HP|(key & w & HP)]]; [by intros ?%HP|..]; rewrite !HP; unfold join, ValueOverlay_join.
    + destruct s, s'; simpl; tauto.
    + destruct s as [|m], s' as [|m']; simpl; try tauto. destruct (size m <=? size m')%nat; simpl.
      * intros Hl. destruct (decide (m !! key = Some w)) as [Hm|]; [|by left]. right. intros Hm'. apply Hl, map_lookup_filter_Some. by split.
      * intros Hl. destruct (decide (m !! key = Some w)) as [Hm|]; [|by left]. right. intros Hm'. apply Hl, map_lookup_filter_Some. by split.
  - intros P s [HP|[HP|(key & w & HP)]] Hb; [by apply HP in Hb|by apply HP in Hb|by apply HP in Hb].
  - intros P s. apply (family_event (At (Stmt s))).
  - intros P v. apply (family_event (Binds v)).
Qed.
Lemma family_events t P : value_family P -> value_family (fun s => P (foldl (event_step b) s t)).
Proof.
  induction t as [|e t IH]; intros HP; [exact HP|]. simpl.
  apply (family_event e (fun s => P (foldl (event_step b) s t))). by apply IH.
Qed.

Lemma events_mono t s s' : below s s' -> below (foldl (event_step b) s t) (foldl (event_step b) s' t).
Proof. revert s s'. induction t as [|e t IH]; intros s s' Hs; [done|]. simpl. by apply IH, event_step_mono. Qed.

Lemma replay_events s ss i :
  Forall (fun x => reads_inside b (At (Stmt x))) ss ->
  replay_within_block s b ss i = Some (foldl (event_step b) s ((fun x => At (Stmt x)) <$> take i ss)).
Proof.
  intros Hss. apply (Forall_take _ i) in Hss. unfold replay_within_block. revert s Hss. generalize (take i ss). intros l.
  induction l as [|x l IH]; intros s Hl; [done|]. apply Forall_cons in Hl as [Hx Hl]. simpl.
  destruct (stmt_reads_inside b s x Hx) as [s' ->]. simpl. by apply IH.
Qed.

Lemma uncut_start g v c us : trail uncut g v c us -> c = true.
Proof. by induction 1. Qed.

(** ** All paths agree *)

Context `{EdgeOrderLaw, DfsPostOrder}.

(** The value behind some events that follow on the entry of a vertex. *)
Lemma value_behind g start r v t name w :
  well_formed g -> g_start g = Some start -> (forall e, e ∈ g_edges g -> e_target e <> start) -> dfs_law (g_edges g) start ->
  analyze g b = Some r -> converged r = true -> rtc (steps (g_edges g)) start v ->
  exists s, block_in r !! v = Some s /\
    (value_get (foldl (event_step b) s t) name = Some w <->
     forall us, trail uncut g v true us -> last_write b (lowercase_key name) (trail_events g us ++ t) = Some w).
Proof.
  intros Hwf Hs He Hd Hr Hc Hv. unfold analyze, solve in Hr.
  assert (forall P, value_family P -> (forall a a', below a a' -> P a -> P a') ->
    exists s, block_in r !! v = Some s /\ (P s <-> exists a, @path_state _ (ValueStateProvider b) g (Reachable ∅) v a /\ P a)) as Hexact.
  { intros P HP Hup. by eapply (forward_exact g start _ (Reachable ∅) Unreachable Hwf Hs He Hd r value_family P Hr Hc value_prime). }
  assert (forall a, @path_state _ (ValueStateProvider b) g (Reachable ∅) v a <->
    exists us, trail uncut g v true us /\ a = foldl (event_step b) (Reachable ∅) (trail_events g us)) as Hpath.
  { intros a. rewrite (path_state_trail g (Reachable ∅) Unreachable uncut) by done. split.
    - intros (c & us & Ht & ->). assert (c = true) as -> by by eapply uncut_start. exists us. split; [done|]. apply trail_step_events.
    - intros (us & Ht & ->). exists true, us. split; [done|]. symmetry. apply trail_step_events. }
  destruct (Hexact (fun s => is_reachable s = true)) as (s & Es & Hreach); [right; by left| |].
  { intros a a' Ha%value_below. by destruct a, a'. }
  destruct (Hexact (fun s => value_lacks (lowercase_key name) w (foldl (event_step b) s t))) as (s' & Es' & Hlacks).
  { apply (family_events t (value_lacks (lowercase_key name) w)). right. right. by exists (lowercase_key name), w. }
  { intros a a' Ha. apply (events_mono t) in Ha. apply value_below in Ha. destruct (foldl _ a t), (foldl _ a' t); simpl; try tauto.
    intros Hn Hw. by apply Hn, Ha. }
  assert (s' = s) as -> by congruence. exists s. split; [done|].
  assert (exists m, s = Reachable m) as [m ->].
  { destruct (@path_to _ (ValueStateProvider b) g start (Reachable ∅) Hs v Hv) as [a Ha]. destruct s as [|m]; [|by exists m].
    exfalso. assert (is_reachable Unreachable = true) as ?; [|done]. apply Hreach. exists a. split; [done|].
    apply Hpath in Ha as (us & _ & ->). by destruct (events_lookup (trail_events g us) ∅) as (m' & -> & _). }
  destruct (events_lookup t m) as (m' & E & Hm'). rewrite E in Hlacks |- *. simpl value_get. split.
  - intros Hw us Ht. assert (~ value_lacks (lowercase_key name) w (Reachable m')) as Hn by (simpl; tauto). rewrite Hlacks in Hn.
    destruct (events_lookup (trail_events g us) ∅) as (m1 & E1 & Hm1). destruct (events_lookup t m1) as (m2 & E2 & Hm2).
    unfold last_write. rewrite foldl_app. specialize (Hm1 (lowercase_key name)). rewrite lookup_empty in Hm1. rewrite <- Hm1, <- Hm2.
    destruct (decide (m2 !! lowercase_key name = Some w)) as [|Hne]; [done|]. exfalso. apply Hn. eexists. split.
    + apply Hpath. exists us. split; [exact Ht|reflexivity].
    + rewrite E1, E2. exact Hne.
  - intros Hall. destruct (decide (m' !! lowercase_key name = Some w)) as [|Hne]; [done|]. exfalso.
    assert (value_lacks (lowercase_key name) w (Reachable m')) as Hl by exact Hne.
    apply Hlacks in Hl as (a & (us & Ht & ->)%Hpath & Hl). specialize (Hall us Ht). unfold last_write in Hall. rewrite foldl_app in Hall.
    destruct (events_lookup (trail_events g us) ∅) as (m1 & E1 & Hm1). destruct (events_lookup t m1) as (m2 & E2 & Hm2).
    specialize (Hm1 (lowercase_key name)). rewrite lookup_empty in Hm1. rewrite <- Hm1, <- Hm2 in Hall. rewrite E1, E2 in Hl. by apply Hl.
Qed.

(** A known value is what every path assigned last.  On entry to a vertex the start reaches,
    and before each statement of a block, the analysis knows a boolean for a name exactly when on
    every path from the start (over all edges) the last write to the name, in any spelling of its
    case, assigned this literal: no other assignment and no loop variable came after it.  No replay of
    a block panics when the statements of the block read inside the arenas. *)
Theorem known_values_exact g start r v name w :
  well_formed g -> g_start g = Some start -> (forall e, e ∈ g_edges g -> e_target e <> start) -> dfs_law (g_edges g) start ->
  analyze g b = Some r -> converged r = true -> rtc (steps (g_edges g)) start v ->
  (known_value_at_block_entry r v name = Some w <->
   forall us, trail uncut g v true us -> last_write b (lowercase_key name) (trail_events g us) = Some w) /\
  (forall ss i, vertex g v = Some (BasicBlock ss) -> Forall (fun x => reads_inside b (At (Stmt x))) ss ->
    exists s s', block_in r !! v = Some s /\ replay_within_block s b ss i = Some s' /\
    (value_get s' name = Some w <->
     forall us, trail uncut g v true us ->
       last_write b (lowercase_key name) (trail_events g us ++ ((fun x => At (Stmt x)) <$> take i ss)) = Some w)).
Proof.
  intros Hwf Hs He Hd Hr Hc Hv. split.
  - destruct (value_behind g start r v [] name w Hwf Hs He Hd Hr Hc Hv) as (s & Es & Hw). unfold known_value_at_block_entry.
    rewrite Es. simpl in *. rewrite Hw. split; intros Hall us Ht; specialize (Hall us Ht); by rewrite ?app_nil_r in *.
  - intros ss i _ Hss. destruct (value_behind g start r v ((fun x => At (Stmt x)) <$> take i ss) name w Hwf Hs He Hd Hr Hc Hv) as (s & Es & Hw).
    eexists s, _. split; [done|]. split; [by apply replay_events|done].
Qed.
End body.
End code.

(** ** A protected assignment *)

Module Sample.
#[local] Existing Instances as_listed as_listed_law.
#[local] Instance basic : CharCase := basic_lowercase.
#[local] Instance no_upper : CharUpper := fun c => [c].
#[local] Instance no_lower : StrLower := fun s => s.
#[local] Instance dfs : DfsPostOrder := fun _ _ => [0; 5; 3; 4; 2; 1].

(** [a] is true; a try makes it false and calls [b]; the handler calls [b] too. *)
Definition protected_body : Body := MkLowered
  (Hir.MkBody [Hir.Assign 0 1; Hir.Assign 0 2; Hir.Expr 4; Hir.Try [1; 2] [4]; Hir.Expr 4] ∅)
  [Path [97]%Z; Lit (Bool true); Lit (Bool false); Path [98]%Z; Call 3 []] [] [] [0; 3].

Definition protected_graph : ControlFlowGraph :=
  Eval vm_compute in default Graph_new (build_graph_from_hir (body_stmts protected_body) (statements protected_body)).

Definition protected_values : DataflowResult ValueOverlay :=
  Eval vm_compute in default (MkResult ∅ ∅ false) (analyze protected_graph protected_body).

(** Before the call in the try [a] is false, on entry to the handler it is said to be true. *)
Lemma known_values_exact_witness :
  known_value_at_block_entry protected_values 4 [65]%Z = Some (KBool true) /\
  (forall us, trail uncut protected_graph 4 true us ->
     last_write protected_body (lowercase_key [65]%Z) (trail_events protected_graph us) = Some (KBool true)) /\
  forall us, trail uncut protected_graph 3 true us ->
    last_write protected_body (lowercase_key [65]%Z) (trail_events protected_graph us ++ [At (Stmt 1)]) = Some (KBool false).
Proof.
  assert (well_formed protected_graph) as Hwf by by apply well_formed_checked.
  assert (dfs_law (g_edges protected_graph) 1) as Hd by by apply dfs_check_law.
  assert (forall e, e ∈ g_edges protected_graph -> e_target e <> 1) as He.
  { apply Forall_forall. by repeat constructor. }
  assert (rtc (steps (g_edges protected_graph)) 1 3) as Hv3 by (apply Hd; do 2 right; left).
  assert (rtc (steps (g_edges protected_graph)) 1 4) as Hv4 by (apply Hd; do 3 right; left).
  assert (analyze protected_graph protected_body = Some protected_values) as Ha by (vm_compute; reflexivity).
  assert (known_value_at_block_entry protected_values 4 [65]%Z = Some (KBool true)) as Hk by (vm_compute; reflexivity).
  destruct (known_values_exact protected_body protected_graph 1 protected_values 4 [65]%Z (KBool true) Hwf eq_refl He Hd Ha eq_refl
    Hv4) as [Hentry _].
  destruct (known_values_exact protected_body protected_graph 1 protected_values 3 [65]%Z (KBool false) Hwf eq_refl He Hd Ha eq_refl
    Hv3) as [_ Hb].
  destruct (Hb [1; 2] 1 eq_refl) as (s & s' & Es & Er & Hs).
  { repeat constructor; by eexists. }
  split; [exact Hk|]. split; [exact (proj1 Hentry Hk)|]. refine (proj1 Hs _).
  vm_compute in Es. injection Es as <-. vm_compute in Er. injection Er as <-. vm_compute. reflexivity.
Defined.

(** An error in the protected statements leads from behind any of them to the handler, while the
    graph enters it from before the first only: an execution arrives there with [a] false. *)
Lemma protected_writes_are_missed :
  runs (statements protected_body) (CList (body_stmts protected_body)) ([At (Stmt 0); At (Stmt 1); At (Stmt 2)] ++ [At (Stmt 4)]) Stopped /\
  last_write protected_body [97]%Z [At (Stmt 0); At (Stmt 1); At (Stmt 2)] = Some (KBool false) /\
  vertex protected_graph 4 = Some (BasicBlock [4]) /\
  known_value_at_block_entry protected_values 4 [97]%Z = Some (KBool true).
Proof.
  split; [|split_and!; vm_compute; reflexivity].
  apply (run_cons _ 0 [3] [At (Stmt 0)] [At (Stmt 1); At (Stmt 2); At (Stmt 4)]); [by apply (run_simple _ 0 (Hir.Assign 0 1))|].
  apply run_leave; [|done].
  apply (run_try_handled _ 3 [1; 2] [4] [At (Stmt 1); At (Stmt 2)] [At (Stmt 4)] Stopped); [done| |by right|].
  - apply (run_cons _ 1 [2] [At (Stmt 1)]); [by apply (run_simple _ 1 (Hir.Assign 0 2))|].
    apply run_leave; [|done]. by apply (run_simple_stop _ 2 (Hir.Expr 4)).
  - apply run_leave; [|done]. by apply (run_simple_stop _ 4 (Hir.Expr 4)).
Qed.
End Sample.
