(* ===== verification/PathTerminates.v ===== *)
(** PathTerminates: which blocks may fall through to the end of the body
    (crates/dataflow/src/path_terminates.rs). *)
From stdpp Require Import prelude gmap strings.
From S2P Require Import Prelude Cfg Dataflow DataflowSpec DataflowExact CfgBuilder.

Record PathTerminatesConfig : Set := MkConfig { loops_executed_at_least_once : bool }.

Definition config_default : PathTerminatesConfig := MkConfig false.

(** A newtype over [bool]. *)
Abbreviation MayFallthrough := bool.

Definition fallthrough_join (a b : MayFallthrough) : MayFallthrough := a || b.

(** [None] is the panic of an index outside of the arena. *)
Definition transfer_return (body : Hir.Body) (s : StmtId) (state : MayFallthrough) : option MayFallthrough :=
  x ← Hir.stmt_idx body s; Some (match x with Hir.Return _ | Hir.Raise _ => false | _ => state end).

(** The other functions are the trait's.  The statements of a graph the builder makes are in the
    arena; the transfer function is total here, and leaves the state alone where the code would panic. *)
Definition PathTerminatesTransfer (body : Hir.Body) : Transfer MayFallthrough := {|
  transfer_stmt s state := default state (transfer_return body s state);
  transfer_expr _ state := state;
  transfer_edge k state := match k with Unexecutable => false | _ => state end;
  transfer_loop_var_bind _ state := state;
  transfer_try_entry _ state := state;
|}.

Section code.
#[local] Instance MayFallthrough_join : Lattice MayFallthrough := fallthrough_join.
Context `{EdgeOrder, DfsPostOrder}.

(** [None] is a panic: the assertion on the configuration, or the solver's. *)
Definition analyze_path_terminates (body : Hir.Body) (g : ControlFlowGraph) (config : PathTerminatesConfig) (max_iterations : nat)
    : option (DataflowResult MayFallthrough) :=
  if loops_executed_at_least_once config then None
  else
    @solve MayFallthrough _ _ (PathTerminatesTransfer body) _ _ Backward g max_iterations
      (bottoms g false) (set_initial_state_at_exit g true (bottoms g false)).

Definition analyze_path_terminates_default (body : Hir.Body) (g : ControlFlowGraph) : option (DataflowResult MayFallthrough) :=
  analyze_path_terminates body g config_default DEFAULT_MAX_ITERATIONS.

Definition may_fallthrough_at_block (r : DataflowResult MayFallthrough) (block : NodeIndex) : bool := default false (block_in r !! block).

(** ** A block may fall through exactly when a path to the end passes no [Return] and no [Raise] *)

(** No statement of the vertex leaves the body. *)
Definition passes (body : Hir.Body) (g : ControlFlowGraph) (v : NodeIndex) : bool :=
  match vertex g v with
  | Some (BasicBlock ss) => forallb (fun s => match Hir.stmt_idx body s with Some st => negb (is_terminator st) | None => true end) ss
  | _ => true
  end.

Lemma block_passes body g v s :
  @transfer_block _ (PathTerminatesTransfer body) g v s = passes body g v && s.
Proof.
  unfold transfer_block, passes. destruct (vertex g v) as [[ss| | | | | | |]|]; try done; [|simpl; by destruct (source_stmt_id g v)].
  revert s. induction ss as [|x ss IH]; intros s; [done|]. cbn [foldl forallb]. rewrite IH. simpl. unfold transfer_return.
  destruct (Hir.stmt_idx body x) as [[]|]; simpl; try done; by rewrite ?andb_false_r.
Qed.

Lemma fallthrough_laws : @LatticeLaws MayFallthrough _.
Proof. split; [by intros [] [] []|by intros [] []|by intros []]. Qed.

Lemma fallthrough_transfer_laws body : @TransferLaws MayFallthrough _ (PathTerminatesTransfer body).
Proof.
  split; unfold below, join, MayFallthrough_join, fallthrough_join; simpl.
  - intros s a b Hab. unfold transfer_return. by destruct (Hir.stmt_idx body s) as [[]|].
  - done.
  - intros [] a b Hab; done.
  - done.
  - done.
Qed.

(** No state has the property, or those in which control may fall through. *)
Definition fallthrough_family (P : MayFallthrough -> Prop) : Prop := (forall s, ~ P s) \/ (forall s, P s <-> s = true).

Lemma fallthrough_prime body : @Prime MayFallthrough _ (PathTerminatesTransfer body) false fallthrough_family.
Proof.
  split.
  - intros P a b [HP|HP]; [by intros ?%HP|]. rewrite !HP. by destruct a; [left|right].
  - intros P a [HP|HP] Hb; by apply HP in Hb.
  - intros P s [HP|HP]; simpl; [left; by intros ? ?%HP|]. unfold transfer_return. destruct (Hir.stmt_idx body s) as [[]|]; try (by right);
      left; by intros ? ?%HP.
  - by intros P e HP.
  - intros P k HP. destruct k; try exact HP. left. intros s Hs. destruct HP as [HP|HP]; by apply HP in Hs.
  - by intros P v HP.
  - by intros P s HP.
  - by intros [].
Qed.

(** An executable edge out of a vertex that nothing leaves. *)
Definition falls (body : Hir.Body) (g : ControlFlowGraph) (u v : NodeIndex) : Prop :=
  passes body g u = true /\ exists k, MkEdge u v k ∈ g_edges g /\ is_executable k = true.

Lemma falls_passes body g v : rtc (falls body g) v (g_exit g) -> passes body g (g_exit g) = true -> passes body g v = true.
Proof. intros Hr Hx. by destruct Hr as [|x y z [Hp _] _]. Qed.

Lemma path_back_falls body g v :
  passes body g v = true /\ (exists a, @path_back _ (PathTerminatesTransfer body) g true v a /\ a = true) <->
  rtc (falls body g) v (g_exit g) /\ passes body g (g_exit g) = true.
Proof.
  split.
  - intros (Hv & a & Hp & Ha). induction Hp as [|u w k a Hp IH Hk]; [split; [constructor|done]|].
    rewrite block_passes in Ha. assert (is_executable k = true /\ passes body g u && a = true) as [He [Hu ->]%andb_true_iff].
    { by destruct k. }
    destruct (IH Hu eq_refl) as [Hr Hx]. split; [|done]. apply rtc_l with u; [|done]. split; [done|]. by exists k.
  - intros [Hr Hx]. split; [by apply falls_passes|].
    refine (rtc_ind_l (fun v => exists a, @path_back _ (PathTerminatesTransfer body) g true v a /\ a = true) (g_exit g) _ _ v Hr).
    + exists true. split; [constructor|done].
    + intros x y [Hp (k & Hk & He)] Hy (a & Ha & ->). eexists. split; [eapply back_step; [exact Ha|exact Hk]|].
      rewrite block_passes, (falls_passes body g y Hy Hx). by destruct k.
Qed.
End code.

Section exact.
#[local] Existing Instances MayFallthrough_join fallthrough_laws.
Context `{EdgeOrderLaw, DfsPostOrder}.

(** A block may fall through exactly when it can.  The analysis says that control may fall
    through from a block to the end of the body exactly when executable edges lead from the block
    to the exit through vertices none of whose statements, in the block itself neither, is a
    [Return] or a [Raise]. *)
Theorem fallthrough_exact body g config max_iterations r v :
  well_formed g -> (forall e, e ∈ g_edges g -> e_source e <> g_exit g) -> dfs_law (reversed (g_edges g)) (g_exit g) ->
  analyze_path_terminates body g config max_iterations = Some r -> converged r = true ->
  may_fallthrough_at_block r v = true <-> rtc (falls body g) v (g_exit g) /\ passes body g (g_exit g) = true.
Proof.
  intros Hwf Hl Hd Hr Hc. unfold analyze_path_terminates in Hr. destruct (loops_executed_at_least_once config); [done|]. simpl in Hr.
  pose proof (fallthrough_transfer_laws body) as Ht. rewrite <- path_back_falls. unfold may_fallthrough_at_block.
  destruct (decide (v ∈ postorder_from_exit g)) as [Hv|Hv].
  - apply Hd in Hv. destruct (backward_exact g max_iterations true false Hwf Hl Hd r fallthrough_family (fun s => s = true) Hr Hc
      (fallthrough_prime body) (or_intror (fun s => iff_refl _))) with v as (s & _ & -> & Hs); [|done|].
    { intros a b Hab ->. symmetry. exact Hab. }
    simpl. by rewrite block_passes, andb_true_iff, Hs.
  - assert (~ rtc (steps (reversed (g_edges g))) (g_exit g) v) as Hv' by (intros Hn; by apply Hv, Hd).
    rewrite (backward_kept g max_iterations true false Hwf Hd r v Hr Hv'). split.
    + destruct (bottoms g false !! v) as [s|] eqn:E; [|done]. apply bottoms_bottom in E as ->. done.
    + intros (_ & a & Ha & _). destruct Hv'. clear Hv. induction Ha as [|u w k a _ IH Hk]; [constructor|].
      eapply rtc_r; [exact IH|]. exists k. by rewrite elem_of_reversed.
Qed.
End exact.

(** ** A conditional return *)

Module Sample.
#[local] Existing Instances as_listed as_listed_law.
#[local] Instance dfs : DfsPostOrder := fun _ _ => [1; 2; 4; 5; 3; 0].

Definition return_body : Hir.Body :=
  Hir.MkBody [Hir.If (Hir.MkIf 0 [1] [] None); Hir.Return None; Hir.Expr 1] ∅.

Definition return_graph : ControlFlowGraph := Eval vm_compute in default Graph_new (build_graph_from_hir [0; 2] return_body).

(** The start may fall through, the block that returns may not. *)
Lemma fallthrough_exact_witness :
  exists r, analyze_path_terminates_default return_body return_graph = Some r /\
    may_fallthrough_at_block r 1 = true /\ rtc (falls return_body return_graph) 1 0 /\
    may_fallthrough_at_block r 4 = false /\ ~ rtc (falls return_body return_graph) 4 0.
Proof.
  assert (well_formed return_graph) as Hwf by by apply well_formed_checked.
  assert (dfs_law (reversed (g_edges return_graph)) 0) as Hd by by apply dfs_check_law.
  assert (forall e, e ∈ g_edges return_graph -> e_source e <> 0) as Hl by (apply Forall_forall; by repeat constructor).
  destruct (analyze_path_terminates_default return_body return_graph) as [r|] eqn:Er; [|by vm_compute in Er].
  assert (converged r = true) as Hc by (vm_compute in Er; by injection Er as <-).
  pose proof (fun v => fallthrough_exact return_body return_graph config_default DEFAULT_MAX_ITERATIONS r v Hwf Hl Hd Er Hc) as Hx.
  assert (may_fallthrough_at_block r 1 = true /\ may_fallthrough_at_block r 4 = false) as [H1 H4].
  { vm_compute in Er. injection Er as <-. by split. }
  exists r. split; [done|]. split; [done|]. split; [exact (proj1 (proj1 (Hx 1) H1))|]. split; [done|].
  intros Hr. assert (may_fallthrough_at_block r 4 = true) as Ht by (apply Hx; by split). congruence.
Defined.
End Sample.
