(* ===== verification/Guards.v ===== *)
(** Guards: whether a statement is guarded by a check of a role, and that a guarded statement is
    behind a guard on every path and in every execution (crates/dataflow/src/guard_predicates.rs).

    [None] is a panic (an expression outside of the arena) or the end of the fuel: the search for
    guards enters a vertex once, and a condition refers to earlier expressions. *)
From stdpp Require Import prelude gmap strings.
From S2P Require Import Prelude Case Cfg Dataflow DataflowSpec DefiniteInit DefiniteInitSpec CfgBuilder CfgBuilderSpec CfgSemantics CfgSimulation Lowered.

Inductive GuardSemantics : Set := RoleCheck | UserCheck | PrivilegedQuery.

Record GuardPredicate : Set := MkPredicate { ru : text; en : text; semantics : GuardSemantics }.

(** The aliases, in lower case. *)
Record GuardRegistry : Set := MkRegistry { lower_aliases : list text }.

Definition is_supported (s : GuardSemantics) : bool := match s with RoleCheck => true | _ => false end.

Definition BLOCKLISTED_GUARD_NAMES : list text :=
  chars <$> ["привилегированныйрежим"; "privilegedmode"; "безопасныйрежим"; "safemode"; "текущийпользователь"; "currentuser"]%string.

Definition is_blocklisted_name (lower_name : text) : bool :=
  negb (bool_decide (lower_name = [])) && bool_decide (lower_name ∈ BLOCKLISTED_GUARD_NAMES).

Section code.
Context `{StrLower}.

Fixpoint collect_aliases (entries : list GuardPredicate) (aliases : list text) : list text :=
  match entries with
  | [] => aliases
  | p :: entries =>
      if negb (is_supported (semantics p)) then collect_aliases entries aliases
      else
        let ru_lower := fold_lower (ru p) in
        let en_lower := match en p with [] => [] | _ => fold_lower (en p) end in
        if is_blocklisted_name ru_lower || is_blocklisted_name en_lower then collect_aliases entries aliases
        else collect_aliases entries (aliases ++ [ru_lower] ++ match en_lower with [] => [] | _ => [en_lower] end)
  end.

Definition GuardRegistry_new (entries : list GuardPredicate) : GuardRegistry := MkRegistry (collect_aliases entries []).

Definition alias_count (r : GuardRegistry) : nat := length (lower_aliases r).

Definition matches (r : GuardRegistry) (name : text) : bool :=
  let n := fold_lower name in existsb (fun alias => bool_decide (alias = n)) (lower_aliases r).

Definition default_registry : GuardRegistry := GuardRegistry_new
  [MkPredicate (chars "РольДоступна") (chars "IsInRole") RoleCheck;
   MkPredicate (chars "РольДоступнаПользователю") (chars "IsInRoleByUser") RoleCheck].

Fixpoint condition_matches (fuel : nat) (b : Body) (condition : ExprId) (r : GuardRegistry) : option bool :=
  match fuel with
  | O => None
  | S fuel =>
      e ← expr b condition;
      match e with
      | Call callee _ => c ← expr b callee; Some (match c with Path name => matches r name | _ => false end)
      | Binary lhs rhs And =>
          left ← condition_matches fuel b lhs r;
          if (left : bool) then Some true else condition_matches fuel b rhs r
      | _ => Some false
      end
  end.

Definition condition_matches_guard (b : Body) (condition : ExprId) (r : GuardRegistry) : option bool :=
  condition_matches (S (length (exprs b))) b condition r.

Definition find_block_containing (g : ControlFlowGraph) (s : StmtId) : option NodeIndex :=
  found ← list_find (fun v => match v.2 with BasicBlock ss => bool_decide (s ∈ ss) | _ => false end = true) (vertices g); Some found.2.1.

Context `{EdgeOrder}.

(** Whether the edge leaves a guard for its true branch. *)
Definition guards_edge (g : ControlFlowGraph) (b : Body) (r : GuardRegistry) (pred : NodeIndex) (k : CfgEdgeType) : option bool :=
  match k, vertex g pred with
  | TrueBranch, Some (Conditional condition) => condition_matches_guard b condition r
  | _, _ => Some false
  end.

(** The loop over the incoming edges; [any] is whether an executable one was there. *)
Fixpoint guarded_edges (search : NodeIndex -> gset NodeIndex -> option (bool * gset NodeIndex))
    (guards : NodeIndex -> CfgEdgeType -> option bool) (edges : list (NodeIndex * CfgEdgeType)) (any : bool) (visited : gset NodeIndex)
    : option (bool * gset NodeIndex) :=
  match edges with
  | [] => Some (any, visited)
  | (pred, k) :: edges =>
      if negb (is_executable k) then guarded_edges search guards edges any visited
      else
        guard ← guards pred k;
        if (guard : bool) then guarded_edges search guards edges true visited
        else
          '(guarded, visited) ← search pred visited;
          if (guarded : bool) then guarded_edges search guards edges true visited else Some (false, visited)
  end.

Fixpoint is_guarded_dfs (fuel : nat) (g : ControlFlowGraph) (b : Body) (r : GuardRegistry) (current : NodeIndex) (visited : gset NodeIndex)
    : option (bool * gset NodeIndex) :=
  match fuel with
  | O => None
  | S fuel =>
      if decide (g_start g = Some current) then Some (false, visited)
      else if decide (current ∈ visited) then Some (true, visited)
      else guarded_edges (is_guarded_dfs fuel g b r) (guards_edge g b r) (incoming_edges g current) false ({[current]} ∪ visited)
  end.

Definition is_stmt_guarded (g : ControlFlowGraph) (b : Body) (s : StmtId) (r : GuardRegistry) : option bool :=
  match find_block_containing g s, g_start g with
  | Some start, Some _ => '(guarded, _) ← is_guarded_dfs (S (S (length (g_nodes g)))) g b r start ∅; Some guarded
  | _, _ => Some false
  end.
End code.

Section code.
Context `{StrLower}.

(** ** Conditions *)

(** A call of a guard is a conjunct of the condition. *)
Inductive guard_conjunct (b : Body) (r : GuardRegistry) : ExprId -> Prop :=
| conjunct_call c callee args name :
    expr b c = Some (Call callee args) -> expr b callee = Some (Path name) -> matches r name = true -> guard_conjunct b r c
| conjunct_left c lhs rhs : expr b c = Some (Binary lhs rhs And) -> guard_conjunct b r lhs -> guard_conjunct b r c
| conjunct_right c lhs rhs : expr b c = Some (Binary lhs rhs And) -> guard_conjunct b r rhs -> guard_conjunct b r c.

Lemma condition_matches_spec b r : exprs_nested b -> forall fuel c, (c < fuel)%nat -> (c < length (exprs b))%nat ->
  exists m, condition_matches fuel b c r = Some m /\ (m = true <-> guard_conjunct b r c).
Proof.
  intros Hn. induction fuel as [|fuel IH]; intros c Hf Hc; [lia|]. cbn [condition_matches].
  destruct (lookup_lt_is_Some_2 _ _ Hc) as [e He]. change (expr b c = Some e) in He. rewrite He. cbn [mbind option_bind].
  assert (forall x, x ∈ children e -> (x < fuel /\ x < length (exprs b))%nat) as Hx by (intros x Hx; specialize (Hn c e x He Hx); lia).
  assert (forall P : Prop, (guard_conjunct b r c -> P) ->
    match e with Call _ _ | Binary _ _ And => True | _ => exists m, Some false = Some m /\ (m = true <-> guard_conjunct b r c) end) as Hno.
  { intros P _. destruct e as [| | |? ? []| | | | | | | | |]; try done; exists false; (split; [done|]);
      (split; [done|]); intros G; inversion G; congruence. }
  specialize (Hno True ltac:(done)).
  destruct e as [| | |lhs rhs []| | |callee args| | | | | |]; try exact Hno.
  - destruct (IH lhs) as (l & -> & Hl); [apply Hx; by left..|]. cbn [mbind option_bind]. destruct l.
    + exists true. split; [done|]. split; [|done]. intros _. eapply conjunct_left; [exact He|by apply Hl].
    + destruct (IH rhs) as (m & -> & Hm); [apply Hx; right; by left..|]. exists m. split; [done|]. rewrite Hm. split.
      * intros G. eapply conjunct_right; [exact He|exact G].
      * intros G. inversion G; simplify_eq; [|done]. exfalso. assert (false = true) by (by apply Hl). done.
  - destruct (Hx callee) as [_ Hcl]; [by left|]. destruct (lookup_lt_is_Some_2 _ _ Hcl) as [x Ex]. change (expr b callee = Some x) in Ex. rewrite Ex.
    eexists. split; [reflexivity|]. split.
    + destruct x; try done. intros Hm. by eapply conjunct_call.
    + intros G. inversion G; by simplify_eq.
Qed.

Lemma condition_matches_conjunct b r c : exprs_nested b -> (c < length (exprs b))%nat ->
  exists m, condition_matches_guard b c r = Some m /\ (m = true <-> guard_conjunct b r c).
Proof. intros Hn Hc. apply condition_matches_spec; [done|lia|done]. Qed.

(** ** The search *)

Section search.
Context `{EdgeOrderLaw} (g : ControlFlowGraph) (b : Body) (r : GuardRegistry).
Hypothesis Hwf : well_formed g.
Hypothesis Hn : exprs_nested b.
Hypothesis Hconds : forall v c, vertex g v = Some (Conditional c) -> (c < length (exprs b))%nat.

Definition guarding (u : NodeIndex) (k : CfgEdgeType) : Prop :=
  k = TrueBranch /\ exists c, vertex g u = Some (Conditional c) /\ guard_conjunct b r c.

(** An executable edge that leaves no guard for its true branch. *)
Definition unguarded (u v : NodeIndex) : Prop :=
  exists k, MkEdge u v k ∈ g_edges g /\ is_executable k = true /\ ~ guarding u k.

(** Where a search backwards fails: the start, or a vertex no executable edge enters. *)
Definition open_end (u : NodeIndex) : Prop :=
  g_start g = Some u \/ forall w k, MkEdge w u k ∈ g_edges g -> is_executable k = false.

Lemma guards_edge_spec u k : exists m, guards_edge g b r u k = Some m /\ (m = true <-> guarding u k).
Proof.
  unfold guards_edge, guarding.
  destruct k; try (exists false; split; [done|]; split; [done|by intros [? _]]).
  destruct (vertex g u) as [[]|] eqn:Ev;
    try (exists false; split; [done|]; split; [done|by intros [_ (? & ? & _)]]).
  destruct (condition_matches_conjunct b r condition Hn (Hconds _ _ Ev)) as (m & -> & Hm). exists m. split; [done|]. rewrite Hm. split.
  - intros G. split; [done|]. by exists condition.
  - intros (_ & c & [= ->] & G). done.
Qed.

(** What a search that succeeds adds is closed backwards. *)
Definition closed_by (before after : gset NodeIndex) : Prop :=
  forall x, x ∈ after -> x ∉ before -> ~ open_end x /\ forall u, unguarded u x -> u ∈ after.

Lemma closed_by_trans a b' c : a ⊆ b' -> b' ⊆ c -> closed_by a b' -> closed_by b' c -> closed_by a c.
Proof.
  intros Hab Hbc L1 L2 x Hx Hxa. destruct (decide (x ∈ b')) as [Hb|Hb]; [|by apply L2].
  destruct (L1 x Hb Hxa) as [Ho Hu]. split; [done|]. intros u Hux. by apply Hbc, Hu.
Qed.

Definition searched (current : NodeIndex) (visited : gset NodeIndex) (res : bool * gset NodeIndex) : Prop :=
  visited ⊆ res.2 /\ (forall v, v ∈ res.2 -> v ∈ visited \/ (v < length (g_nodes g))%nat) /\
  if res.1 then current ∈ res.2 /\ closed_by visited res.2
  else exists u, rtc unguarded u current /\ open_end u.

(** Vertices of the graph that are not visited yet. *)
Definition unvisited (visited : gset NodeIndex) : nat := size (list_to_set (seq 0 (length (g_nodes g))) ∖ visited : gset NodeIndex).

Lemma unvisited_mono a c : a ⊆ c -> (unvisited c <= unvisited a)%nat.
Proof. intros Hac. unfold unvisited. apply subseteq_size. set_solver. Qed.

Lemma unvisited_add x a : (x < length (g_nodes g))%nat -> x ∉ a -> (unvisited ({[x]} ∪ a) < unvisited a)%nat.
Proof.
  intros Hx Ha. unfold unvisited. apply subset_size. split; [set_solver|].
  intros Hs. assert (x ∈ (list_to_set (seq 0 (length (g_nodes g))) ∖ a : gset NodeIndex)) as Hin.
  { apply elem_of_difference. split; [|done]. apply elem_of_list_to_set, elem_of_seq. lia. }
  apply Hs in Hin. set_solver.
Qed.

Lemma edges_searched fuel current edges : forall any visited,
  (forall u k, (u, k) ∈ edges -> MkEdge u current k ∈ g_edges g) ->
  (forall u v', (u < length (g_nodes g))%nat -> (unvisited v' < fuel)%nat -> exists res, is_guarded_dfs fuel g b r u v' = Some res /\ searched u v' res) ->
  (unvisited visited < fuel)%nat ->
  exists res, guarded_edges (is_guarded_dfs fuel g b r) (guards_edge g b r) edges any visited = Some res /\
    visited ⊆ res.2 /\ (forall v, v ∈ res.2 -> v ∈ visited \/ (v < length (g_nodes g))%nat) /\
    (res.1 = true -> closed_by visited res.2 /\ (forall u k, (u, k) ∈ edges -> is_executable k = true -> guarding u k \/ u ∈ res.2) /\
       (any = true \/ exists u k, (u, k) ∈ edges /\ is_executable k = true)) /\
    (res.1 = false -> (any = false /\ (forall u k, (u, k) ∈ edges -> is_executable k = false)) \/
       exists w, rtc unguarded w current /\ open_end w).
Proof.
  induction edges as [|[u k] edges IH]; intros any visited He Hrec Hf; cbn [guarded_edges].
  { exists (any, visited). split; [done|]. split; [done|]. split; [by left|]. split.
    - simpl. intros ->. split; [by intros x ?|]. split; [intros u k Hu; by apply elem_of_nil in Hu|by left].
    - simpl. intros ->. left. split; [done|]. intros u k Hu. by apply elem_of_nil in Hu. }
  assert (forall u k, (u, k) ∈ edges -> MkEdge u current k ∈ g_edges g) as He' by (intros w k' Hw; apply He; by right).
  destruct (is_executable k) eqn:Ek; simpl negb; cbn iota.
  2: { destruct (IH any visited He' Hrec Hf) as (res & -> & Hs & Hin & Ht & Hfa). exists res. split; [done|]. split; [done|]. split; [done|]. split.
       - intros Er. destruct (Ht Er) as (Hc & Hg & Ha). split; [done|]. split.
         + intros w k' [[= -> ->]|Hw]%elem_of_cons Hk'; [congruence|by eapply Hg].
         + destruct Ha as [|(w & k' & Hw & Hk')]; [by left|]. right. exists w, k'. split; [by right|done].
       - intros Er. destruct (Hfa Er) as [[Ha Hno]|Hw]; [left|by right]. split; [done|].
         intros w k' [[= -> ->]|Hw]%elem_of_cons; [done|by eapply Hno]. }
  destruct (guards_edge_spec u k) as (m & -> & Hm). cbn [mbind option_bind].
  assert (forall res visited', visited ⊆ visited' -> visited' ⊆ res.2 -> closed_by visited visited' ->
    (forall v, v ∈ visited' -> v ∈ visited \/ (v < length (g_nodes g))%nat) -> (guarding u k \/ u ∈ res.2) ->
    (visited' ⊆ res.2 /\ (forall v, v ∈ res.2 -> v ∈ visited' \/ (v < length (g_nodes g))%nat) /\
     (res.1 = true -> closed_by visited' res.2 /\ (forall u k, (u, k) ∈ edges -> is_executable k = true -> guarding u k \/ u ∈ res.2) /\
       (true = true \/ exists u k, (u, k) ∈ edges /\ is_executable k = true)) /\
     (res.1 = false -> (true = false /\ (forall u k, (u, k) ∈ edges -> is_executable k = false)) \/
       exists w, rtc unguarded w current /\ open_end w)) ->
    visited ⊆ res.2 /\ (forall v, v ∈ res.2 -> v ∈ visited \/ (v < length (g_nodes g))%nat) /\
    (res.1 = true -> closed_by visited res.2 /\ (forall u' k', (u', k') ∈ (u, k) :: edges -> is_executable k' = true -> guarding u' k' \/ u' ∈ res.2) /\
       (any = true \/ exists u' k', (u', k') ∈ (u, k) :: edges /\ is_executable k' = true)) /\
    (res.1 = false -> (any = false /\ (forall u' k', (u', k') ∈ (u, k) :: edges -> is_executable k' = false)) \/
       exists w, rtc unguarded w current /\ open_end w)) as Hon.
  { intros res visited' S1 S2 C1 I1 Hu (_ & I2 & Ht & Hfa). split; [set_solver|]. split.
    { intros v [Hv|]%I2; [by apply I1|by right]. } split.
    - intros Er. destruct (Ht Er) as (Hc & Hg & _). split; [by eapply closed_by_trans|]. split.
      + intros w k' [[= -> ->]|Hw]%elem_of_cons Hk'; [done|by eapply Hg].
      + right. exists u, k. split; [by left|done].
    - intros Er. destruct (Hfa Er) as [[? _]|]; [done|by right]. }
  destruct m.
  - destruct (IH true visited He' Hrec Hf) as (res & -> & Hrest). exists res. split; [done|].
    apply (Hon res visited); [done|apply Hrest|by intros x ?|by left|left; by apply Hm|exact Hrest].
  - destruct Hwf as (Hes & _ & _). rewrite Forall_forall in Hes.
    destruct (Hrec u visited) as ([guarded visited'] & -> & S1 & I1 & Hres); [apply (Hes (MkEdge u current k)), He; by left|done|].
    cbn [mbind option_bind fst snd] in *. destruct guarded.
    + destruct Hres as [Hu C1]. destruct (IH true visited' He' Hrec) as (res & -> & Hrest).
      { eapply Nat.le_lt_trans; [by apply unvisited_mono|done]. }
      exists res. split; [done|]. apply (Hon res visited'); [done|apply Hrest|done|done| |exact Hrest]. right. apply (proj1 Hrest), Hu.
    + exists (false, visited'). split; [done|]. split; [done|]. split; [done|]. split; [done|]. intros _. right.
      destruct Hres as (w & Hw & Ho). exists w. split; [|done]. eapply rtc_r; [exact Hw|]. exists k.
      split; [apply He; by left|]. split; [done|]. intros G. by apply Hm in G.
Qed.

Lemma dfs_searched fuel : forall current visited, (current < length (g_nodes g))%nat -> (unvisited visited < fuel)%nat ->
  exists res, is_guarded_dfs fuel g b r current visited = Some res /\ searched current visited res.
Proof.
  induction fuel as [|fuel IH]; intros current visited Hc Hf; [lia|]. cbn [is_guarded_dfs].
  destruct (decide (g_start g = Some current)) as [Hs|Hs].
  { exists (false, visited). split; [done|]. split; [done|]. split; [by left|]. exists current. split; [constructor|by left]. }
  destruct (decide (current ∈ visited)) as [Hv|Hv].
  { exists (true, visited). split; [done|]. split; [done|]. split; [by left|]. split; [done|]. by intros x ?. }
  destruct (edges_searched fuel current (incoming_edges g current) false ({[current]} ∪ visited)) as (res & -> & S1 & I1 & Ht & Hfa).
  - intros u k. apply elem_of_incoming.
  - intros u v' Hu. apply IH, Hu.
  - pose proof (unvisited_add current visited Hc Hv). lia.
  - exists res. split; [done|]. split; [set_solver|]. split.
    { intros v [Hin|]%I1; [|by right]. apply elem_of_union in Hin as [->%elem_of_singleton|]; [by right|by left]. }
    destruct res as [[] visited']; simpl in *.
    + destruct (Ht eq_refl) as (C1 & Hg & Ha). split; [set_solver|]. intros x Hx Hxv.
      destruct (decide (x = current)) as [->|Hne]; [|apply C1; [done|set_solver]]. split.
      * intros [Ho|Ho]; [done|]. destruct Ha as [|(u & k & Hu & Hk)]; [done|]. apply elem_of_incoming in Hu. apply Ho in Hu. congruence.
      * intros u (k & Hk & Hek & Hng). destruct (Hg u k) as [|]; [by apply elem_of_incoming|done|done|done].
    + destruct (Hfa eq_refl) as [[_ Hno]|Hw]; [|done]. exists current. split; [constructor|]. right.
      intros w k Hk. apply (Hno w k). by apply elem_of_incoming.
Qed.

(** The search answers, and says yes exactly when no way back over unguarded edges ends open. *)
Lemma guarded_exact s start : g_start g = Some start ->
  exists a, is_stmt_guarded g b s r = Some a /\
    (a = true <-> exists v, find_block_containing g s = Some v /\ ~ exists u, rtc unguarded u v /\ open_end u).
Proof.
  intros Hs. unfold is_stmt_guarded. rewrite Hs. destruct (find_block_containing g s) as [v|] eqn:Ev.
  2: { exists false. split; [done|]. split; [done|]. by intros (? & ? & _). }
  assert (v < length (g_nodes g))%nat as Hv.
  { unfold find_block_containing in Ev. destruct (list_find _ (vertices g)) as [[i [w kind]]|] eqn:Ef; [|done]. injection Ev as <-.
    apply list_find_Some in Ef as (Hi & _ & _). unfold vertices in Hi. rewrite list_lookup_imap in Hi.
    destruct (g_nodes g !! i) eqn:Ei; [|done]. injection Hi as <- <-. by eapply lookup_lt_Some. }
  destruct (dfs_searched (S (S (length (g_nodes g)))) v ∅ Hv) as ([a visited] & E & _ & _ & Ha).
  { unfold unvisited. rewrite difference_empty_L, size_list_to_set, length_seq by apply NoDup_seq. lia. }
  rewrite E. exists a. split; [done|]. simpl in Ha. destruct a.
  - destruct Ha as [Hin C]. split; [|done]. intros _. exists v. split; [done|]. intros (u & Hu & Ho).
    assert (u ∈ visited) as Huv.
    { clear Ho. induction Hu as [|x y z Hxy _ IH]; [done|]. destruct (C y (IH Ev Hv E Hin) ltac:(set_solver)) as [_ Hc]. by apply Hc. }
    by destruct (C u Huv ltac:(set_solver)) as [Hno _].
  - split; [done|]. intros (v' & [= <-] & Hno). by destruct Hno.
Qed.

(** ** The paths through the graph *)

Lemma guarding_decided u k : guarding u k \/ ~ guarding u k.
Proof. destruct (guards_edge_spec u k) as ([] & _ & Hm); [left; by apply Hm|right; intros G; by apply Hm in G]. Qed.

Lemma event_stmt kind i s : vertex_events kind !! i = Some (At (Stmt s)) -> exists ss, kind = BasicBlock ss /\ s ∈ ss.
Proof.
  destruct kind; simpl; try (destruct i as [|[|[|]]]; done).
  intros (x & [= ->] & Hx)%list_lookup_fmap_Some. exists statements. split; [done|]. by eapply list_elem_of_lookup_2.
Qed.

(** The edge of a guard [c] for its true branch, taken on the way from [p] to [q] by the events [t]. *)
Definition through_guard (p : Pos) (t : list Event) (q : Pos) : Prop :=
  exists u c w t1 t2, vertex g u = Some (Conditional c) /\ guard_conjunct b r c /\ MkEdge u w TrueBranch ∈ g_edges g /\
    t = t1 ++ t2 /\ path g p t1 (u, 1) /\ path g (w, 0) t2 q.

(** A path to a statement crosses a guard, or goes over unguarded edges only. *)
Lemma path_crosses p T q : path g p T q -> forall t s, T = t ++ [At (Stmt s)] ->
  exists x j ss, vertex g x = Some (BasicBlock ss) /\ s ∈ ss /\ path g p t (x, j) /\
    (rtc unguarded p.1 x \/ through_guard p t (x, j)).
Proof.
  induction 1 as [p|v i kind e T q Hv He _ IH|v kind w k T q Hv Hk Hek _ IH]; intros t s Et; [by destruct t|..].
  - destruct t as [|e' t]; injection Et as -> Et.
    + destruct (event_stmt kind i s He) as (ss & -> & Hs). exists v, i, ss. split; [done|]. split; [done|]. split; [constructor|]. left. constructor.
    + destruct (IH t s Et) as (x & j & ss & Hx & Hs & Hp & Hor). exists x, j, ss. split; [done|]. split; [done|].
      split; [by eapply path_emit|]. destruct Hor as [Hr|(u & c & y & t1 & t2 & Hu & G & Hy & -> & Hp1 & Hp2)]; [by left|right].
      exists u, c, y, (e' :: t1), t2. repeat (split; [done|]). split; [by eapply path_emit|done].
  - destruct (IH t s Et) as (x & j & ss & Hx & Hs & Hp & Hor). exists x, j, ss. split; [done|]. split; [done|].
    split; [by eapply path_edge|]. destruct Hor as [Hr|(u & c & y & t1 & t2 & Hu & G & Hy & -> & Hp1 & Hp2)].
    + destruct (guarding_decided v k) as [(-> & c & Hc & G)|Hng].
      * right. rewrite Hv in Hc. injection Hc as ->. exists v, c, w, [], t. repeat (split; [done|]). split; [constructor|exact Hp].
      * left. eapply rtc_l; [|exact Hr]. by exists k.
    + right. exists u, c, y, t1, t2. repeat (split; [done|]). split; [by eapply path_edge|done].
Qed.

(** On the way to behind a condition the condition is evaluated. *)
Lemma path_evaluates p t q : path g p t q -> forall u c, q = (u, 1) -> p <> q -> vertex g u = Some (Conditional c) -> At (Header c) ∈ t.
Proof.
  induction 1 as [p|v i kind e t q Hv He _ IH|v kind w k t q Hv Hk Hek _ IH]; intros u c -> Hne Hu; [done|..].
  - destruct (decide ((v, S i) = (u, 1))) as [[= -> ->]|Hd]; [|right; by eapply IH].
    rewrite Hv in Hu. injection Hu as ->. injection He as <-. by left.
  - by eapply (IH u c).
Qed.

Lemma block_of_statement s v v' ss ss' : NoDup (graph_points g) ->
  vertex g v = Some (BasicBlock ss) -> s ∈ ss -> vertex g v' = Some (BasicBlock ss') -> s ∈ ss' -> v = v'.
Proof.
  intros Hnd Hv Hs Hv' Hs'. set (ev := MkEvents 0 ∅ ∅ ∅ ∅).
  assert (forall w l, vertex g w = Some (BasicBlock l) -> s ∈ l -> exists B, (Stmt s, (w, B)) ∈ marks ev (vertices g)) as Hm.
  { intros w l Hw Hl. assert (Stmt s ∈ (block_marks ev ∅ l).*1) as ((p & B) & Ep & HB)%list_elem_of_fmap.
    { rewrite block_marks_points. by apply list_elem_of_fmap_2. }
    simpl in Ep. subst p. exists B. apply list_elem_of_bind. exists (w, BasicBlock l). split; [|by apply elem_of_vertices].
    apply list_elem_of_fmap. by exists (Stmt s, B). }
  destruct (Hm v ss Hv Hs) as [B HB], (Hm v' ss' Hv' Hs') as [C HC]. by destruct (marks_nodup_unique ev g _ _ _ _ _ Hnd HB HC).
Qed.

Lemma found_block s v : find_block_containing g s = Some v -> exists ss, vertex g v = Some (BasicBlock ss) /\ s ∈ ss.
Proof.
  unfold find_block_containing. destruct (list_find _ (vertices g)) as [[i [w kind]]|] eqn:Ef; [|done]. intros [= <-].
  apply list_find_Some in Ef as (Hi & Hk & _). unfold vertices in Hi. rewrite list_lookup_imap in Hi.
  destruct (g_nodes g !! i) eqn:Ei; [|done]. injection Hi as <- <-. simpl in *. destruct c; try done.
  exists statements. split; [exact Ei|]. by apply bool_decide_eq_true in Hk.
Qed.
Lemma block_found s v ss : NoDup (graph_points g) -> vertex g v = Some (BasicBlock ss) -> s ∈ ss -> find_block_containing g s = Some v.
Proof.
  intros Hnd Hv Hs. destruct (find_block_containing g s) as [w|] eqn:Ef.
  - destruct (found_block s w Ef) as (ss' & Hw & Hs'). f_equal. by eapply block_of_statement.
  - exfalso. unfold find_block_containing in Ef. destruct (list_find _ (vertices g)) as [[]|] eqn:El; [done|].
    apply list_find_None in El. rewrite Forall_forall in El. apply (El (v, BasicBlock ss)); [by apply elem_of_vertices|].
    by apply bool_decide_eq_true.
Qed.
End search.

(** An execution that arrives at a statement the search calls guarded. *)
Lemma guarded_run `{EdgeOrderLaw} b r ids g s t :
  exprs_nested b -> nested (statements b) -> (forall v c, vertex g v = Some (Conditional c) -> (c < length (exprs b))%nat) ->
  Forall (fun id => id < length (Hir.stmts (statements b)))%nat ids ->
  NoDup (graph_points g) -> well_formed g -> NoDup (body_labels (statements b) ids) ->
  build_graph_from_hir ids (statements b) = Some g -> is_stmt_guarded g b s r = Some true ->
  runs (statements b) (CList ids) (t ++ [At (Stmt s)]) Stopped ->
  exists start t' q, g_start g = Some start /\ t' `sublist_of` t /\ path g (start, 0) t' q /\ through_guard g b r (start, 0) t' q /\
    exists c, guard_conjunct b r c /\ At (Header c) ∈ t.
Proof.
  intros Hn Hnest Hconds Hids Hnd Hwf Hlab E Hg Hr.
  destruct (built_shows (statements b) Hnest ids _ Stopped Hids Hlab Hr) as (g' & E' & Hs & Hsh). rewrite E in E'. injection E' as <-.
  destruct Hsh as (T & q & Hp & t0 & t' & e & Et & -> & Hsub). apply app_inj_tail in Et as [<- <-].
  destruct (path_crosses g b r Hn Hconds _ _ _ Hp t' s eq_refl) as (x & j & ss & Hx & Hin & Hpx & Hor).
  destruct (guarded_exact g b r Hwf Hn Hconds s 1 Hs) as (a & Ea & Hyes). rewrite Hg in Ea. injection Ea as <-.
  destruct (proj1 Hyes eq_refl) as (v & Hf & Hno). destruct (found_block g s v Hf) as (ss' & Hv & Hin').
  assert (v = x) as -> by by eapply block_of_statement.
  destruct Hor as [Hrtc|Hth]; [destruct Hno; exists 1; split; [exact Hrtc|by left]|].
  exists 1, t', (x, j). repeat (split; [done|]). destruct Hth as (u & c & w & t1 & t2 & Hu & G & _ & -> & Hp1 & _).
  exists c. split; [done|]. eapply sublist_subseteq; [exact Hsub|]. apply elem_of_app. left. by eapply path_evaluates.
Qed.

(** C29. A guarded statement is behind a guard.  On the graph the builder makes of a body the search
    always answers.  It says that a statement is guarded exactly when the statement is in a block
    from which every way back over executable edges, none of them the true branch of a condition
    with a call of a registered guard among its conjuncts, goes round in circles: none ends at the
    start, none at a vertex that no executable edge enters.  And when it says so, every execution
    that arrives at the statement has evaluated such a condition before, and the path the graph has
    for the execution took its true branch. *)
Theorem guards_protect `{EdgeOrderLaw} b r ids g s :
  exprs_nested b -> nested (statements b) -> (forall v c, vertex g v = Some (Conditional c) -> (c < length (exprs b))%nat) ->
  Forall (fun id => id < length (Hir.stmts (statements b)))%nat ids ->
  NoDup (body_points (statements b) ids) -> NoDup (body_labels (statements b) ids) ->
  build_graph_from_hir ids (statements b) = Some g ->
  exists a, is_stmt_guarded g b s r = Some a /\
    (a = true <-> exists v ss, vertex g v = Some (BasicBlock ss) /\ s ∈ ss /\ ~ exists u, rtc (unguarded g b r) u v /\ open_end g u) /\
    (a = true -> forall t, runs (statements b) (CList ids) (t ++ [At (Stmt s)]) Stopped ->
       exists start t' q, g_start g = Some start /\ t' `sublist_of` t /\ path g (start, 0) t' q /\ through_guard g b r (start, 0) t' q /\
         exists c, guard_conjunct b r c /\ At (Header c) ∈ t).
Proof.
  intros Hn Hnest Hconds Hids Hpts Hlab E.
  destruct (built_graph (statements b) ids Hnest Hids) as (g' & E' & Hwf & Hstart & Hperm). rewrite E in E'. injection E' as <-.
  assert (NoDup (graph_points g)) as Hnd by by rewrite Hperm.
  destruct Hstart as (start & Hs & _).
  destruct (guarded_exact g b r Hwf Hn Hconds s start Hs) as (a & Ea & Hyes).
  exists a. split; [exact Ea|]. split.
  - rewrite Hyes. split.
    + intros (v & Hf & Hno). destruct (found_block g s v Hf) as (ss & Hv & Hin). by exists v, ss.
    + intros (v & ss & Hv & Hin & Hno). exists v. split; [by eapply block_found|done].
  - intros -> t Hr. by eapply guarded_run.
Qed.
End code.

(** ** Behind a check of a role *)

Module Sample.
#[local] Existing Instances as_listed as_listed_law.
#[local] Instance no_lower : StrLower := fun s => s.

(** If the role is there and the flag is set, a call; then the call again. *)
Definition role_body : Body := MkLowered
  (Hir.MkBody [Hir.Expr 6; Hir.If (Hir.MkIf 4 [0] [] None); Hir.Expr 6] ∅)
  [Path (chars "РольДоступна"); Lit (StringLit [97]%Z); Call 0 [1]; Path [98]%Z; Binary 2 3 And; Path [99]%Z; Call 5 []] [] [] [1; 2].

Definition role_graph : ControlFlowGraph :=
  Eval vm_compute in default Graph_new (build_graph_from_hir (body_stmts role_body) (statements role_body)).

(** The call inside is guarded, and executions arrive there behind the check; the other call is not. *)
Lemma guards_protect_witness :
  is_stmt_guarded role_graph role_body 0 default_registry = Some true /\
  is_stmt_guarded role_graph role_body 2 default_registry = Some false /\
  (exists v ss, vertex role_graph v = Some (BasicBlock ss) /\ 0 ∈ ss /\
     ~ exists u, rtc (unguarded role_graph role_body default_registry) u v /\ open_end role_graph u) /\
  exists start t' q, g_start role_graph = Some start /\ t' `sublist_of` [At (Header 4)] /\ path role_graph (start, 0) t' q /\
    through_guard role_graph role_body default_registry (start, 0) t' q /\
    exists c, guard_conjunct role_body default_registry c /\ At (Header c) ∈ [At (Header 4)].
Proof.
  assert (is_stmt_guarded role_graph role_body 0 default_registry = Some true) as Hg by (vm_compute; reflexivity).
  assert (exprs_nested role_body) as Hn.
  { intros i e c He Hc. do 7 (destruct i as [|i]; [injection He as <-; simpl in Hc; set_unfold; lia|]). done. }
  assert (nested (statements role_body)) as Hnest.
  { intros id st Hs c Hc. do 3 (destruct id as [|id]; [injection Hs as <-; simpl in Hc; set_unfold; lia|]). done. }
  assert (forall v c, vertex role_graph v = Some (Conditional c) -> (c < length (exprs role_body))%nat) as Hconds.
  { intros v c Hv. do 6 (destruct v as [|v]; [vm_compute in Hv; try done; injection Hv as <-; simpl; lia|]). done. }
  assert (build_graph_from_hir [1; 2] (statements role_body) = Some role_graph) as E by (vm_compute; reflexivity).
  destruct (guards_protect role_body default_registry [1; 2] role_graph 0 Hn Hnest Hconds) as (a & Ea & Hyes & Hrun).
  { repeat constructor. }
  { apply (bool_decide_unpack (NoDup (body_points (statements role_body) [1; 2]))). vm_compute. exact I. }
  { apply (bool_decide_unpack (NoDup (body_labels (statements role_body) [1; 2]))). vm_compute. exact I. }
  { exact E. }
  rewrite Hg in Ea. injection Ea as <-.
  split; [exact Hg|]. split; [vm_compute; reflexivity|]. split; [exact (proj1 Hyes eq_refl)|]. apply (Hrun eq_refl [At (Header 4)]).
  apply run_leave; [|done]. eapply run_if; [done|]. apply run_if_true. apply run_leave; [|done].
  by apply (run_simple_stop _ 0 (Hir.Expr 6)).
Defined.
End Sample.
