(* ===== verification/Sdbl.v ===== *)
(** Sdbl: the words, names and recovery rules of the query language (crates/parser/src/grammar:
    sdbl.rs and the recovery helpers of sdbl/expressions.rs and sdbl/select.rs).

    The [i32] depths of the skipping loops are integers with a checked addition.  A predicate
    handed to a rule is a [Boundary], as in ParserCore; an item rule of a list that assigns to a
    variable of its caller takes and returns its value. *)
From stdpp Require Import prelude strings.
From S2P Require Import Prelude Case Kinds Tokens Input TornIf ParserCore.

Definition LEFTOVER_MESSAGE : String.string := "не разобран остаток текста запроса".

Definition LIST_RECOVERY : TokenSet.t := TokenSet.new [ T![RParen]; T![Semicolon] ].

(** [a + b] on [i32] in a build that checks for overflow. *)
Definition i32_add (a b : Z) : M Z :=
  if (a + b <=? I32_MAX)%Z then mret (a + b)%Z else panic ArithmeticOverflow.

(** [i32::saturating_sub]. *)
Definition i32_saturating_sub (a b : Z) : Z := Z.max (- I32_MAX - 1) (a - b).

Section words.
Context `{CharCase}.

Definition eat_sdbl_keyword (en ru : String.string) : M bool :=
  taken ← eat_keyword en;
  if (taken : bool) then mret true else eat_keyword ru.

(** The answer is not used. *)
Definition eat_sdbl_keyword_ (en ru : String.string) : M unit := eat_sdbl_keyword en ru;; skip.

(** ** Questions about names *)

Definition at_name (p : Parser) : bool := at_ T![Ident] p && negb (at_query_start p).

Definition at_the_alias_separator (p : Parser) : bool := at_sdbl_keyword "AS" "КАК" p.

Definition at_a_list_separator (p : Parser) : bool := at_keyword "BY" p.

Definition at_field_name (p : Parser) : bool :=
  at_name p && negb (is_clause_keyword p) && negb (at_the_alias_separator p) &&
  negb (at_a_list_separator p).

Definition at_property_name (p : Parser) : bool :=
  match current p with
  | Some T![Ident] | Some T![KwIn] | Some T![KwAnd] | Some T![KwOr] | Some T![KwNot]
  | Some T![KwTrue] | Some T![KwFalse] | Some T![KwUndefined] => true
  | _ => false
  end.

Definition at_table_name_component (p : Parser) : bool :=
  at_property_name p && negb (at_query_boundary p) && negb (is_clause_keyword p) &&
  negb (at_the_alias_separator p) && negb (at_a_list_separator p).

Definition at_a_qualifying_dot (p : Parser) : bool := at_ T![Dot] p.

Definition eat_qualifying_dot : M bool :=
  here ← gets (at_ T![Dot]);
  if (here : bool) then bump;; mret true else mret false.

Definition eat_name_here (expected : String.string) : M unit :=
  name ← gets (fun p => at_ T![Ident] p || at_property_name p);
  if (name : bool) then bump else error_custom_no_bump expected.

Definition ends_a_name (is_property : bool) (p : Parser) : bool :=
  match current p with
  | Some T![Ident] => is_property || negb (is_clause_keyword p)
  | Some T![Ampersand] => (1 <? length (current_text p))%nat
  | Some T![RParen] =>
      (0 <? open_group_count p)%Z && negb (bool_decide (prev_significant p = Some T![LParen]))
  | _ => is_property && at_property_name p
  end.

Definition next_is_a_qualifying_dot (p : Parser) : bool := bool_decide (nth 1 p = Some T![Dot]).

(** The kinds of the keywords that do not arrive as identifiers. *)
Definition at_a_keyword_kind (p : Parser) : bool :=
  match current p with
  | Some T![KwIn] | Some T![KwAnd] | Some T![KwOr] | Some T![KwNot] | Some T![KwTrue]
  | Some T![KwFalse] | Some T![KwUndefined] => true
  | _ => false
  end.

Definition at_a_keyword_qualifier (p : Parser) : bool :=
  let is_keyword := at_a_keyword_kind p || at_keyword "CASE" p || at_keyword "ВЫБОР" p ||
    at_keyword "NULL" p in
  is_keyword && next_is_a_qualifying_dot p.

Definition at_a_keyword_that_cannot_be_a_field (p : Parser) : bool :=
  names_are_fields p && (is_clause_keyword p || at_a_list_separator p) &&
  negb (next_is_a_qualifying_dot p).

Definition at_connective_after_dangling_dot (p : Parser) : bool :=
  (at_ T![KwAnd] p || at_ T![KwOr] p) && parser_gap_precedes p.

Definition is_expression_start (p : Parser) : bool :=
  at_a_keyword_qualifier p ||
  match current p with
  | Some T![Decimal] | Some T![Float] | Some T![String] | Some T![Date] | Some T![KwTrue]
  | Some T![KwFalse] | Some T![KwUndefined] => true
  | Some T![Ident] => negb (is_clause_keyword p) && negb (at_query_boundary p)
  | Some T![Plus] | Some T![Minus] | Some T![KwNot] | Some T![Star] => true
  | Some T![LParen] => true
  | Some T![Ampersand] => true
  | _ => at_keyword "CASE" p || at_keyword "ВЫБОР" p || at_keyword "NULL" p
  end.

Definition is_likely_clause_start_after_dot (p : Parser) : bool :=
  is_clause_keyword p ||
  at_sdbl_keyword "AS" "КАК" p ||
  at_sdbl_keyword "ASC" "ВОЗР" p ||
  at_sdbl_keyword "DESC" "УБЫВ" p ||
  at_sdbl_keyword "CASE" "ВЫБОР" p ||
  at_sdbl_keyword "WHEN" "КОГДА" p ||
  at_sdbl_keyword "THEN" "ТОГДА" p ||
  at_sdbl_keyword "ELSE" "ИНАЧЕ" p ||
  at_sdbl_keyword "END" "КОНЕЦ" p ||
  at_sdbl_keyword "BETWEEN" "МЕЖДУ" p ||
  at_sdbl_keyword "LIKE" "ПОДОБНО" p ||
  at_sdbl_keyword "ESCAPE" "СПЕЦСИМВОЛ" p ||
  at_sdbl_keyword "ALL" "ВСЕ" p ||
  at_sdbl_keyword "DISTINCT" "РАЗЛИЧНЫЕ" p ||
  at_sdbl_keyword "TOP" "ПЕРВЫЕ" p ||
  at_sdbl_keyword "HIERARCHY" "ИЕРАРХИИ" p ||
  at_sdbl_keyword "DROP" "УНИЧТОЖИТЬ" p ||
  at_sdbl_keyword "BY" "ПО" p.

Definition is_query_starter_or_combiner_keyword (p : Parser) : bool :=
  at_sdbl_keyword "SELECT" "ВЫБРАТЬ" p || at_sdbl_keyword "UNION" "ОБЪЕДИНИТЬ" p.

Definition is_body_clause_keyword (p : Parser) : bool :=
  at_sdbl_keyword "SELECT" "ВЫБРАТЬ" p ||
  at_sdbl_keyword "FROM" "ИЗ" p ||
  at_sdbl_keyword "WHERE" "ГДЕ" p ||
  at_sdbl_keyword "GROUP" "СГРУППИРОВАТЬ" p ||
  at_sdbl_keyword "HAVING" "ИМЕЮЩИЕ" p ||
  at_sdbl_keyword "ORDER" "УПОРЯДОЧИТЬ" p ||
  at_sdbl_keyword "UNION" "ОБЪЕДИНИТЬ" p ||
  at_sdbl_keyword "INTO" "ПОМЕСТИТЬ" p.

Definition is_limitation_keyword (p : Parser) : bool :=
  at_sdbl_keyword "DISTINCT" "РАЗЛИЧНЫЕ" p || at_sdbl_keyword "TOP" "ПЕРВЫЕ" p ||
  at_sdbl_keyword "ALLOWED" "РАЗРЕШЕННЫЕ" p.

(** ** Skipping to a delimiter

    What a skipping loop carries: whether it took a token, its depths, and the depths of the open
    parens behind which a query starts. *)
Record Skip : Set := MkSkip {
  consumed_any : bool;
  sk_case_depth : Z;
  sk_paren_depth : Z;
  sk_brace_depth : Z;
  nested_query_starts : list Z;
}.

Definition Skip_start : Skip := MkSkip false 0 0 0 [].

(** [bump] and [consumed_any = true] and [continue], with the depths after them. *)
Definition skip_token (case_depth paren_depth brace_depth : Z) (starts : list Z)
    : M (Skip + bool) :=
  bump;;
  continue_ (MkSkip true case_depth paren_depth brace_depth starts).

(** The open paren: a query that starts behind it is remembered with its depth. *)
Definition skip_open_paren (s : Skip) : M (Skip + bool) :=
  depth ← i32_add (sk_paren_depth s) 1;
  bump;;
  query ← gets is_query_starter_or_combiner_keyword;
  continue_ (MkSkip true (sk_case_depth s) depth (sk_brace_depth s)
    (if (query : bool) then nested_query_starts s ++ [depth] else nested_query_starts s)).

(** The closing paren of one the loop has opened. *)
Definition skip_close_paren (s : Skip) : M (Skip + bool) :=
  let starts :=
    if decide (last (nested_query_starts s) = Some (sk_paren_depth s))
    then removelast (nested_query_starts s) else nested_query_starts s in
  skip_token (sk_case_depth s) (sk_paren_depth s - 1) (sk_brace_depth s) starts.

(** The tokens that end the skipping outside of braces. *)
Definition ends_skipped_fragment (has_closer : bool) (at_delimiter : Boundary) (s : Skip)
    (p : Parser) : bool :=
  let inside_nested_query := negb (bool_decide (nested_query_starts s = [])) in
  ((sk_paren_depth s =? 0)%Z && (sk_brace_depth s =? 0)%Z && at_query_boundary p) ||
  ((sk_brace_depth s =? 0)%Z && is_clause_keyword p &&
   negb (bool_decide (prev_significant p = Some T![Dot])) &&
   (if (sk_paren_depth s =? 0)%Z
    then negb has_closer ||
         negb (bool_decide (nth 1 p = Some T![Comma]) || bool_decide (nth 1 p = Some T![RParen]))
    else if inside_nested_query then false
    else negb (is_query_starter_or_combiner_keyword p))) ||
  at_ T![Semicolon] p ||
  ((sk_paren_depth s =? 0)%Z && (sk_brace_depth s =? 0)%Z && at_ T![Comma] p &&
   (at_boundary at_delimiter p || negb has_closer)) ||
  at_end p.

Definition recover_turn (has_closer : bool) (at_delimiter : Boundary) (s : Skip)
    : M (Skip + bool) :=
  check_iteration_limit;;
  opens_brace ← gets (at_ T![LBrace]);
  if (opens_brace : bool) then
    depth ← i32_add (sk_brace_depth s) 1;
    skip_token (sk_case_depth s) (sk_paren_depth s) depth (nested_query_starts s)
  else
  closes_brace ← gets (at_ T![RBrace]);
  if (closes_brace : bool) then
    let depth :=
      if (0 <? sk_brace_depth s)%Z then (sk_brace_depth s - 1)%Z else sk_brace_depth s in
    skip_token (sk_case_depth s) (sk_paren_depth s) depth (nested_query_starts s)
  else if (0 <? sk_brace_depth s)%Z then
    stop ← gets (fun p => at_end p || at_ T![Semicolon] p);
    if (stop : bool) then break_ (consumed_any s)
    else skip_token (sk_case_depth s) (sk_paren_depth s) (sk_brace_depth s) (nested_query_starts s)
  else
  opens ← gets (at_ T![LParen]);
  if (opens : bool) then skip_open_paren s
  else
  closes ← gets (at_ T![RParen]);
  if (closes : bool) then
    if (0 <? sk_paren_depth s)%Z then skip_close_paren s else break_ (consumed_any s)
  else
  stop ← gets (ends_skipped_fragment has_closer at_delimiter s);
  if (stop : bool) then break_ (consumed_any s)
  else skip_token (sk_case_depth s) (sk_paren_depth s) (sk_brace_depth s) (nested_query_starts s).

Definition recover_to_delimiter (report : bool) (at_delimiter : Boundary) : M unit :=
  has_closer ← ask closing_paren_ahead;
  err ← start;
  consumed ← loop (recover_turn has_closer at_delimiter) Skip_start;
  if (consumed : bool) then
    if report then error_custom_at_marker err "пропуск некорректного фрагмента"
    else complete_ err NK.SdblError
  else abandon err.

(** The tokens that end the skipping of a selected field. *)
Definition ends_skipped_field (s : Skip) (p : Parser) : bool :=
  let at_top_level := (sk_case_depth s =? 0)%Z && (sk_paren_depth s =? 0)%Z in
  let inside_nested_query := negb (bool_decide (nested_query_starts s = [])) in
  (at_top_level && at_query_boundary p) ||
  (is_clause_keyword p && negb (bool_decide (prev_significant p = Some T![Dot])) &&
   (if at_top_level then true
    else if inside_nested_query then false
    else negb (is_query_starter_or_combiner_keyword p))) ||
  at_ T![Semicolon] p ||
  at_end p ||
  (at_top_level && (at_sdbl_keyword "AS" "КАК" p || at_ T![Comma] p || at_ T![RParen] p)).

Definition recover_field_turn (s : Skip) : M (Skip + bool) :=
  check_iteration_limit;;
  opens_brace ← gets (at_ T![LBrace]);
  if (opens_brace : bool) then
    depth ← i32_add (sk_brace_depth s) 1;
    skip_token (sk_case_depth s) (sk_paren_depth s) depth (nested_query_starts s)
  else
  closes_brace ← gets (at_ T![RBrace]);
  if (closes_brace : bool) then
    skip_token (sk_case_depth s) (sk_paren_depth s) (i32_saturating_sub (sk_brace_depth s) 1)
      (nested_query_starts s)
  else if (0 <? sk_brace_depth s)%Z then
    stop ← gets (fun p => at_end p || at_ T![Semicolon] p);
    if (stop : bool) then break_ (consumed_any s)
    else skip_token (sk_case_depth s) (sk_paren_depth s) (sk_brace_depth s) (nested_query_starts s)
  else
  opens_case ← gets (at_sdbl_keyword "CASE" "ВЫБОР");
  if (opens_case : bool) then
    depth ← i32_add (sk_case_depth s) 1;
    skip_token depth (sk_paren_depth s) (sk_brace_depth s) (nested_query_starts s)
  else
  closes_case ← gets (fun p => at_sdbl_keyword "END" "КОНЕЦ" p && (0 <? sk_case_depth s)%Z);
  if (closes_case : bool) then
    skip_token (sk_case_depth s - 1) (sk_paren_depth s) (sk_brace_depth s) (nested_query_starts s)
  else
  opens ← gets (at_ T![LParen]);
  if (opens : bool) then skip_open_paren s
  else
  closes ← gets (fun p => at_ T![RParen] p && (0 <? sk_paren_depth s)%Z);
  if (closes : bool) then skip_close_paren s
  else
  stop ← gets (ends_skipped_field s);
  if (stop : bool) then break_ (consumed_any s)
  else skip_token (sk_case_depth s) (sk_paren_depth s) (sk_brace_depth s) (nested_query_starts s).

Definition recover_field_to_alias_or_delimiter : M unit :=
  err ← start;
  consumed ← loop recover_field_turn Skip_start;
  if (consumed : bool) then error_custom_at_marker err "пропуск некорректного фрагмента"
  else abandon err.

(** ** Closing a group *)

Definition recover_expression_tail (checkpoint : nat) : M unit :=
  reported ← has_error_since checkpoint;
  recover_to_delimiter (negb reported) at_list_delimiter.

Definition finish_parenthesized (checkpoint : nat) : M unit :=
  closed ← gets (at_ T![RParen]);
  when (negb closed) (recover_expression_tail checkpoint);;
  expect_ T![RParen].

(** ** Lists *)

Definition is_recovery_point (recovery_set : TokenSet.t) (p : Parser) : bool :=
  match current p with Some kind => TokenSet.contains recovery_set kind | None => false end ||
  is_clause_keyword p || at_end p.

(** Reports something missing in the gap before the current token. *)
Definition report_missing_name (message : String.string) : M unit :=
  m ← start;
  error_custom_at_marker m message.

(** [a] is the variable of the caller that the item rule assigns to. *)
Definition parse_delimited_list {A} (delimiter : Sig) (recovery_set : TokenSet.t)
    (is_item_start : Parser -> bool) (parse_item : A -> M A) (a : A) : M A :=
  missing ← gets (at_ delimiter);
  a ← (if (missing : bool) then report_missing_name "пропущен элемент списка";; mret a
       else within_boundary at_comma (parse_item a));
  loop (fun a =>
    stop ← gets (is_recovery_point recovery_set);
    if (stop : bool) then break_ a
    else
    more ← eat delimiter;
    if negb more then break_ a
    else
    check_iteration_limit;;
    missing ← gets (fun p =>
      at_ delimiter p || is_recovery_point recovery_set p || negb (is_item_start p));
    if (missing : bool) then
      report_missing_name "пропущен элемент списка";;
      again ← gets (at_ delimiter);
      if negb again then break_ a else continue_ a
    else a ← within_boundary at_comma (parse_item a); continue_ a) a.
End words.
