(* ===== verification/SdblExpressions.v ===== *)
(** SdblExpressions: aliases, selected fields and expressions of the query language
    (crates/parser/src/grammar/sdbl/expressions.rs and the field list of sdbl/select.rs).

    An expression holds queries and a query holds expressions; [Rules] is what the two kinds of rule
    offer each other.  A rule consumes a token before it calls a member of [Rules]. *)
From stdpp Require Import prelude strings.
From S2P Require Import Prelude Case Kinds Tokens Input TornIf ParserCore Sdbl.

Record Rules : Type := MkRules {
  expression_rule : M unit;
  subquery_rule : M unit;
}.

Section grammar.
Context `{CharCase}.

(** ** Aliases *)

Inductive Aliased : Set :=
| AliasedField
| AliasedTotals
| AliasedSource (named : bool).

Definition at_a_clause_that_goes_on (aliased : Aliased) (p : Parser) : bool :=
  let opens_here :=
    match aliased with
    | AliasedField | AliasedTotals => negb (is_join_keyword p) && negb (at_sdbl_keyword "ON" "ПО" p)
    | AliasedSource _ => true
    end in
  is_clause_keyword p && opens_here &&
  negb match nth 1 p with
       | None | Some T![Comma] | Some T![RParen] | Some T![Semicolon] => true
       | _ => false
       end.

Definition is_identifier_token (p : Parser) : bool := at_name p.

Definition at_a_keyword_kind_refused_as_alias (p : Parser) : bool :=
  match current p with
  | Some T![KwIn] | Some T![KwAnd] | Some T![KwOr] | Some T![KwNot] | Some T![KwTrue]
  | Some T![KwFalse] | Some T![KwUndefined] => true
  | _ => false
  end.

Definition at_an_implicit_alias (p : Parser) : bool :=
  (is_identifier_token p && negb (is_clause_keyword p)) || at_a_keyword_kind_refused_as_alias p.

Definition REFUSED : list String.string :=
  [ "ИЗ"; "ГДЕ"; "КАК"; "ПО"; "ВЫБОР"; "КОГДА"; "ТОГДА"; "ИНАЧЕ"; "ЕСТЬ"; "NULL"; "ПОДОБНО";
    "СПЕЦСИМВОЛ"; "МЕЖДУ"; "ПЕРВЫЕ"; "РАЗЛИЧНЫЕ"; "РАЗРЕШЕННЫЕ"; "ВНУТРЕННЕЕ"; "ДЛЯ"; "ПОМЕСТИТЬ";
    "ВОЗР"; "УБЫВ"; "АВТОУПОРЯДОЧИВАНИЕ"; "ОБЩИЕ"; "ТОЛЬКО"; "ПЕРИОДАМИ"; "ВЫРАЗИТЬ"; "FROM";
    "WHERE"; "AS"; "BY"; "CASE"; "WHEN"; "THEN"; "ELSE"; "IS"; "LIKE"; "BETWEEN"; "TOP"; "DISTINCT";
    "ALLOWED"; "INNER"; "FOR"; "INTO"; "ASC"; "DESC"; "ONLY"; "OVERALL"; "CAST" ].

Definition at_word_refused_as_alias (p : Parser) : bool :=
  at_a_keyword_kind_refused_as_alias p || existsb (fun word => at_keyword word p) REFUSED.

Definition alias_name (missing : String.string) (aliased : Aliased) : M unit :=
  explicit ← eat_sdbl_keyword "AS" "КАК";
  left_out ← gets (fun p => explicit && match aliased with AliasedTotals => true | _ => false end &&
    at_sdbl_keyword "BY" "ПО" p);
  if (left_out : bool) then error_custom_no_bump missing
  else
  let after_a_name := match aliased with AliasedSource named => named | _ => true end in
  reported_elsewhere ← gets (fun p =>
    negb after_a_name || bool_decide (prev_significant p = Some T![Dot]));
  refused ← gets (fun p => at_word_refused_as_alias p && (explicit || negb reported_elsewhere));
  if (refused : bool) then
    let message :=
      if (explicit : bool) then
        "ожидается имя: ключевое слово языка запросов нельзя использовать как псевдоним"
      else
        "синтаксическая ошибка: ключевое слово языка запросов нельзя использовать как псевдоним" in
    goes_on ← gets (fun p => explicit && at_a_clause_that_goes_on aliased p);
    clause ← gets is_clause_keyword;
    if (goes_on : bool) then error_custom_no_bump message
    else if (clause : bool) then
      err ← start;
      bump;;
      error_custom_at_marker err message
    else error_custom message
  else eat_name_here missing.

(** ** Operands *)

Definition one_token (kind : NK.NodeKind) : M unit :=
  m ← start;
  bump;;
  complete_ m kind.

Definition string_literal_or_multi : M unit :=
  m ← start;
  bump;;
  count ← loop (fun count =>
    more ← gets (fun p => at_ T![String] p && negb (parser_gap_precedes p));
    if (more : bool) then bump;; continue_ (S count) else break_ count) 1;
  complete_ m (if (1 <? count)%nat then NK.SdblMultiString else NK.SdblLiteral).

Definition literal_expr : M unit :=
  string ← gets (at_ T![String]);
  if (string : bool) then string_literal_or_multi else one_token NK.SdblLiteral.

Definition parameter_expr : M unit := one_token NK.SdblParameter.

(** Whether the name after a dot is a keyword the chain has run into; [crossed_newline]: a line
    break stands before it. *)
Definition dangling_dot_recovery (crossed_newline : bool) (p : Parser) : bool :=
  if crossed_newline then is_likely_clause_start_after_dot p || at_query_boundary p
  else at_sdbl_keyword "AS" "КАК" p.

Definition member_path : M unit :=
  loop (fun _ : unit =>
    dot ← eat_qualifying_dot;
    if negb dot then break_ tt
    else
    check_iteration_limit;;
    crossed_newline ← gets parser_line_break_precedes;
    connective ← gets at_connective_after_dangling_dot;
    property ← gets at_property_name;
    recovers ← gets (dangling_dot_recovery crossed_newline);
    if (connective : bool) then
      report_missing_name "ожидалось имя поля, встречена логическая связка";; break_ tt
    else if (property : bool) then
      if (recovers : bool) then
        report_missing_name "ожидалось имя поля, встречено ключевое слово";; break_ tt
      else bump;; continue_ tt
    else error_expected T![Ident];; break_ tt) tt.

Definition is_cast_function (p : Parser) : bool := at_sdbl_keyword "CAST" "ВЫРАЗИТЬ" p.

(** The components of a type or of a table behind the first one: [stopped] reports what stands where
    a component should. *)
Definition name_components (stopped : M unit) : M unit :=
  loop (fun _ : unit =>
    dot ← eat_qualifying_dot;
    if negb dot then break_ tt
    else
    check_iteration_limit;;
    component ← gets at_table_name_component;
    if negb component then stopped;; break_ tt else bump;; continue_ tt) tt.

Definition parse_cast_type : M unit :=
  m ← start;
  name ← gets at_field_name;
  (if (name : bool) then
    is_number_type ← gets (at_sdbl_keyword "NUMBER" "ЧИСЛО");
    bump;;
    name_components
      (property ← gets at_property_name;
       if (property : bool) then report_missing_name "ожидалось имя объекта после '.'"
       else error_expected T![Ident]);;
    opens ← gets (at_ T![LParen]);
    when opens
      (bump;;
       checkpoint ← gets error_checkpoint;
       within_boundary (if (is_number_type : bool) then at_list_delimiter else at_closing_paren)
         (length ← gets (at_ T![Decimal]);
          when length
            (bump;;
             scale ← (if (is_number_type : bool) then
                        comma ← eat T![Comma];
                        if (comma : bool) then gets (at_ T![Decimal]) else mret false
                      else mret false);
             when scale bump);;
          closed ← gets (at_ T![RParen]);
          when (negb is_number_type && negb closed) (recover_to_delimiter true at_closing_paren);;
          finish_parenthesized checkpoint))
  else
    report_missing_name "ожидался тип после 'КАК' / 'AS'";;
    recover_to_delimiter false at_list_delimiter);;
  complete_ m NK.SdblType.

(** ** The rules around [expression] and [subquery] *)

Section rules.
Context (k : Rules).

Abbreviation expression := (expression_rule k).
Abbreviation subquery := (subquery_rule k).

(** *** Selected fields *)

Definition is_asterisk_start (p : Parser) : bool :=
  at_ T![Star] p ||
  (at_ T![Ident] p && bool_decide (nth 1 p = Some T![Dot]) && bool_decide (nth 2 p = Some T![Star])).

Definition is_field_start (p : Parser) : bool := is_asterisk_start p || is_expression_start p.

Definition asterisk_field : M unit :=
  m ← start;
  while_ (fun p => at_ T![Ident] p && bool_decide (nth 1 p = Some T![Dot])) (bump;; bump);;
  expect_ T![Star];;
  complete_ m NK.SdblAsteriskField.

Definition selected_field_alias : M unit :=
  m ← start;
  alias_name "ожидался псевдоним после 'КАК' / 'AS'" AliasedField;;
  complete_ m NK.SdblAlias.

Definition at_an_alias (p : Parser) : bool := at_sdbl_keyword "AS" "КАК" p || at_an_implicit_alias p.

Definition selected_field : M unit :=
  m ← start;
  asterisk ← gets is_asterisk_start;
  (if (asterisk : bool) then asterisk_field
   else
     expression;;
     at_expected_position ← gets (fun p =>
       at_sdbl_keyword "AS" "КАК" p || at_an_implicit_alias p || at_ T![Comma] p ||
       at_ T![Semicolon] p || at_ T![LBrace] p || is_clause_keyword p || at_end p);
     when (negb at_expected_position) recover_field_to_alias_or_delimiter);;
  alias ← gets at_an_alias;
  when alias selected_field_alias;;
  complete_ m NK.SdblSelectedField.

Definition selected_fields : M unit :=
  m ← start;
  list_is_absent ← gets (fun p =>
    is_clause_keyword p || at_ T![Semicolon] p || at_ T![RParen] p || at_ T![LBrace] p || at_end p);
  end_ ← gets at_end;
  (if negb list_is_absent then
     within_field_names
       (parse_delimited_list T![Comma] LIST_RECOVERY is_field_start (fun _ => selected_field) tt)
   else when (negb end_)
     (error_custom_no_bump "ожидался список полей выборки после 'ВЫБРАТЬ' / 'SELECT'"));;
  complete_ m NK.SdblFieldList.

Definition inline_table_fields : M unit :=
  m ← start;
  bump;;
  checkpoint ← gets error_checkpoint;
  within_boundary at_closing_paren (selected_fields;; finish_parenthesized checkpoint);;
  complete_ m NK.SdblInlineTableFields.

(** *** Columns and calls *)

(** The chain of a column behind its first name. *)
Definition column_chain : M unit :=
  loop (fun _ : unit =>
    dot ← eat_qualifying_dot;
    if negb dot then break_ tt
    else
    crossed_newline ← gets parser_line_break_precedes;
    opens ← gets (at_ T![LParen]);
    connective ← gets at_connective_after_dangling_dot;
    property ← gets at_property_name;
    recovers ← gets (dangling_dot_recovery crossed_newline);
    if (opens : bool) then inline_table_fields;; break_ tt
    else if (connective : bool) then
      report_missing_name "ожидалось имя поля, встречена логическая связка";; break_ tt
    else if negb property then error_expected T![Ident];; break_ tt
    else if (recovers : bool) then
      report_missing_name "ожидалось имя поля, встречено ключевое слово";; break_ tt
    else bump;; continue_ tt) tt.

(** What an argument that is not followed by a comma or a closing paren leaves behind. *)
Definition recover_argument (checkpoint : nat) : M unit :=
  ended ← gets (fun p => at_ T![Comma] p || at_ T![RParen] p);
  when (negb ended) (recover_expression_tail checkpoint).

Definition first_argument (is_cast : bool) (checkpoint : nat) : M unit :=
  distinct ← gets (at_sdbl_keyword "DISTINCT" "РАЗЛИЧНЫЕ");
  when distinct bump;;
  starts ← gets (fun p =>
    is_expression_start p && negb (at_ T![Comma] p) && negb (is_clause_keyword p));
  comma ← gets (at_ T![Comma]);
  if (starts : bool) then
    expression;;
    type ← gets (fun p => is_cast && at_sdbl_keyword "AS" "КАК" p);
    if (type : bool) then bump;; parse_cast_type else recover_argument checkpoint
  else if (comma : bool) then report_missing_name "пропущен первый аргумент"
  else
    error_custom_no_bump "ожидался аргумент функции";;
    recover_to_delimiter false at_list_delimiter.

Definition more_arguments (checkpoint : nat) : M nat :=
  loop (fun checkpoint =>
    more ← eat T![Comma];
    if negb more then break_ checkpoint
    else
    check_iteration_limit;;
    checkpoint ← gets error_checkpoint;
    missing ← gets (fun p =>
      at_ T![Comma] p || at_ T![RParen] p || negb (is_expression_start p) || is_clause_keyword p);
    if (missing : bool) then
      report_missing_name "пропущен аргумент функции";;
      again ← gets (at_ T![Comma]);
      if negb again then break_ checkpoint else continue_ checkpoint
    else
    expression;;
    recover_argument checkpoint;;
    continue_ checkpoint) checkpoint.

Definition column_or_function : M unit :=
  m ← start;
  is_cast ← gets is_cast_function;
  bump;;
  dot ← gets (fun p => at_ T![Dot] p || at_a_qualifying_dot p);
  opens ← gets (at_ T![LParen]);
  if (dot : bool) then column_chain;; complete_ m NK.SdblColumnRef
  else if (opens : bool) then
    bump;;
    checkpoint ← gets error_checkpoint;
    within_boundary at_list_delimiter
      (empty ← gets (at_ T![RParen]);
       checkpoint ← (if (empty : bool) then mret checkpoint
                     else first_argument is_cast checkpoint;; more_arguments checkpoint);
       finish_parenthesized checkpoint);;
    member_path;;
    complete_ m NK.SdblFunctionCall
  else complete_ m NK.SdblColumnRef.

(** *** Parentheses *)

Definition tuple_items (checkpoint : nat) : M nat :=
  loop (fun checkpoint =>
    more ← eat T![Comma];
    if negb more then break_ checkpoint
    else
    check_iteration_limit;;
    checkpoint ← gets error_checkpoint;
    closed ← gets (at_ T![RParen]);
    starts ← gets is_expression_start;
    if (closed : bool) then break_ checkpoint
    else if negb starts then
      error_custom_no_bump "ожидался элемент кортежа после запятой";; break_ checkpoint
    else within_boundary at_list_delimiter expression;; continue_ checkpoint) checkpoint.

Definition paren_or_subquery_expr : M unit :=
  m ← start;
  bump;;
  checkpoint ← gets error_checkpoint;
  kind ← within_boundary at_closing_paren
    (query ← gets (at_sdbl_keyword "SELECT" "ВЫБРАТЬ");
     if (query : bool) then
       subquery;;
       finish_parenthesized checkpoint;;
       mret NK.SdblSubqueryExpr
     else
       within_boundary at_list_delimiter expression;;
       tuple ← gets (at_ T![Comma]);
       if (tuple : bool) then
         checkpoint ← tuple_items checkpoint;
         finish_parenthesized checkpoint;;
         mret NK.SdblTupleExpr
       else
         finish_parenthesized checkpoint;;
         mret NK.SdblParenExpr);
  when (bool_decide (kind = NK.SdblParenExpr)) member_path;;
  complete_ m kind.

(** *** [ВЫБОР] *)

Definition when_clause : M unit :=
  m ← start;
  bump;;
  expression;;
  then_ ← gets (at_sdbl_keyword "THEN" "ТОГДА");
  if negb then_ then complete_ m NK.SdblWhenClause
  else bump;; expression;; complete_ m NK.SdblWhenClause.

Definition when_clauses : M bool :=
  loop (fun has_when =>
    more ← gets (at_sdbl_keyword "WHEN" "КОГДА");
    if (more : bool) then when_clause;; continue_ true else break_ has_when) false.

Definition case_expr : M unit :=
  m ← start;
  bump;;
  is_searched_case ← gets (at_sdbl_keyword "WHEN" "КОГДА");
  when (negb is_searched_case) expression;;
  has_when ← when_clauses;
  when (negb has_when) (error_custom "в выражении CASE отсутствует 'КОГДА' / 'WHEN'");;
  else_ ← gets (at_sdbl_keyword "ELSE" "ИНАЧЕ");
  when else_ (bump;; expression);;
  end_ ← gets (at_sdbl_keyword "END" "КОНЕЦ");
  (if negb end_ then error_custom "ожидалось 'КОНЕЦ' / 'END' в выражении CASE" else bump);;
  complete_ m NK.SdblCaseExpr.

(** *** Levels of operators *)

Definition primary_expr : M unit :=
  no_operand ← gets (fun p => at_sdbl_keyword "AS" "КАК" p && negb (next_is_a_qualifying_dot p));
  qualifier ← gets at_a_keyword_qualifier;
  case_ ← gets (at_sdbl_keyword "CASE" "ВЫБОР");
  null ← gets (at_keyword "NULL");
  column ← gets (fun p =>
    ((0 <? open_group_count p)%Z || negb (at_query_boundary p)) &&
    negb (at_a_keyword_that_cannot_be_a_field p));
  here ← gets current;
  if (no_operand : bool) then error_custom_no_bump "ожидался операнд перед 'КАК' / 'AS'"
  else if (qualifier : bool) then column_or_function
  else if (case_ : bool) then case_expr
  else if (null : bool) then one_token NK.SdblLiteral
  else
    match here with
    | Some T![LParen] => paren_or_subquery_expr
    | Some T![Decimal] | Some T![Float] => literal_expr
    | Some T![String] => literal_expr
    | Some T![Date] => literal_expr
    | Some T![KwTrue] | Some T![KwFalse] => literal_expr
    | Some T![KwUndefined] => literal_expr
    | Some T![Ampersand] => parameter_expr
    | Some T![Star] => one_token NK.SdblLiteral
    | Some T![Ident] =>
        if (column : bool) then column_or_function
        else
          m ← start;
          error_custom "ожидался операнд, встречено ключевое слово";;
          complete_ m NK.SdblError
    | _ =>
        m ← start;
        error_unexpected;;
        complete_ m NK.SdblError
    end.

Definition at_unary_operator (p : Parser) : bool :=
  match current p with Some T![Plus] | Some T![Minus] | Some T![KwNot] => true | _ => false end &&
  negb (at_a_keyword_qualifier p).

Definition unary_expr : M unit :=
  rec_ out_of_fuel (fun unary_expr =>
    operator ← gets at_unary_operator;
    if (operator : bool) then
      m ← start;
      bump;;
      unary_expr;;
      complete_ m NK.SdblUnaryExpr
    else primary_expr) id.

(** A level of binary operators of equal rank in one node. *)
Definition operator_level (operator : Parser -> bool) (operand : M unit) (kind : NK.NodeKind)
    : M unit :=
  m ← start;
  operand;;
  while_ operator (check_iteration_limit;; bump;; operand);;
  complete_ m kind.

Definition at_multiplicative (p : Parser) : bool :=
  match current p with Some T![Star] | Some T![Slash] | Some T![Percent] => true | _ => false end.

Definition multiplicative_expr : M unit :=
  operator_level at_multiplicative unary_expr NK.SdblMultiplicativeExpr.

Definition at_additive (p : Parser) : bool :=
  match current p with Some T![Plus] | Some T![Minus] => true | _ => false end.

Definition additive_expr : M unit :=
  operator_level at_additive multiplicative_expr NK.SdblAdditiveExpr.

(** *** Predicates *)

(** The list or the query after [В] and its closing paren. *)
Definition in_operand (checkpoint : nat) : M unit :=
  query ← gets (at_sdbl_keyword "SELECT" "ВЫБРАТЬ");
  checkpoint ←
    (if (query : bool) then subquery;; mret checkpoint
     else parse_delimited_list T![Comma] LIST_RECOVERY is_expression_start
       (fun _ => checkpoint ← gets error_checkpoint; expression;; mret checkpoint) checkpoint);
  finish_parenthesized checkpoint.

Definition in_rule (m : Marker) (kind : NK.NodeKind) : M unit :=
  opened ← expect T![LParen];
  if negb opened then complete_ m kind
  else
    checkpoint ← gets error_checkpoint;
    within_boundary at_closing_paren (in_operand checkpoint);;
    complete_ m kind.

Definition refs_rule (m : Marker) : M unit :=
  bump;;
  name ← gets at_field_name;
  (if (name : bool) then
    bump;;
    name_components
      (property ← gets at_property_name;
       when property (report_missing_name "ожидалось имя объекта после '.'"))
   else report_missing_name "ожидалось имя таблицы после 'ССЫЛКА' / 'REFS'");;
  complete_ m NK.SdblRefsExpr.

Definition at_comparison (p : Parser) : bool :=
  match current p with
  | Some T![Eq] | Some T![Neq] | Some T![Lt] | Some T![Le] | Some T![Gt] | Some T![Ge] => true
  | _ => false
  end.

(** What follows the first operand; [m] is the marker before it. *)
Definition predicate_tail (m : Marker) : M unit :=
  in_ ← gets (at_ T![KwIn]);
  is_ ← gets (at_sdbl_keyword "IS" "ЕСТЬ");
  between ← gets (at_sdbl_keyword "BETWEEN" "МЕЖДУ");
  like ← gets (at_sdbl_keyword "LIKE" "ПОДОБНО");
  refs ← gets (at_sdbl_keyword "REFS" "ССЫЛКА");
  compares ← gets at_comparison;
  if (in_ : bool) then
    bump;;
    hierarchy ← gets (at_sdbl_keyword "HIERARCHY" "ИЕРАРХИИ");
    if (hierarchy : bool) then bump;; in_rule m NK.SdblInHierarchyExpr else in_rule m NK.SdblInExpr
  else if (is_ : bool) then
    bump;;
    not ← gets (at_ T![KwNot]);
    when not bump;;
    null ← gets (at_keyword "NULL");
    if negb null then abandon m else bump;; complete_ m NK.SdblIsNullExpr
  else if (between : bool) then
    bump;;
    additive_expr;;
    and ← gets (at_ T![KwAnd]);
    if negb and then complete_ m NK.SdblBetweenExpr
    else bump;; additive_expr;; complete_ m NK.SdblBetweenExpr
  else if (like : bool) then
    bump;;
    additive_expr;;
    escape ← gets (at_sdbl_keyword "ESCAPE" "СПЕЦСИМВОЛ");
    when escape (bump;; additive_expr);;
    complete_ m NK.SdblLikeExpr
  else if (refs : bool) then refs_rule m
  else if (compares : bool) then bump;; additive_expr;; complete_ m NK.SdblComparisonExpr
  else abandon m.

Definition predicate_expr : M unit :=
  m ← start;
  additive_expr;;
  not ← gets (at_ T![KwNot]);
  when not bump;;
  predicate_tail m.

Definition comparison_expr : M unit := predicate_expr.

Definition not_expr : M unit :=
  rec_ out_of_fuel (fun not_expr =>
    negated ← gets (fun p => at_ T![KwNot] p && negb (at_a_keyword_qualifier p));
    if (negated : bool) then
      m ← start;
      bump;;
      not_expr;;
      complete_ m NK.SdblNotExpr
    else comparison_expr) id.

Definition logical_and_expr : M unit :=
  operator_level (at_ T![KwAnd]) not_expr NK.SdblLogicalAndExpr.

Definition logical_or_expr : M unit :=
  operator_level (at_ T![KwOr]) logical_and_expr NK.SdblLogicalOrExpr.
End rules.
End grammar.
