(* ===== verification/SdblSelect.v ===== *)
(** SdblSelect: sources, clauses and queries of the query language, and the package of queries
    (crates/parser/src/grammar/sdbl/select.rs and grammar/sdbl.rs). *)
From stdpp Require Import prelude strings.
From S2P Require Import Prelude Case Kinds Tokens Input TornIf ParserCore Sdbl SdblExpressions.

Section grammar.
Context `{CharCase}.

(** ** Extensions *)

(** The depth of the braces; [None] ends the loop. *)
Definition extension_turn (depth : Z) : M (Z + unit) :=
  check_iteration_limit;;
  stop ← gets (fun p => at_end p || at_ T![Semicolon] p);
  opens ← gets (at_ T![LBrace]);
  closes ← gets (at_ T![RBrace]);
  if (stop : bool) then break_ tt
  else if (opens : bool) then depth ← i32_add depth 1; bump;; continue_ depth
  else if (closes : bool) then
    bump;;
    if (depth - 1 =? 0)%Z then break_ tt else continue_ (depth - 1)%Z
  else bump;; continue_ depth.

Definition query_extension : M unit :=
  m ← start;
  bump;;
  loop extension_turn 1%Z;;
  complete_ m NK.SdblQueryExtension.

Definition eat_query_extensions : M unit := while_ (at_ T![LBrace]) query_extension.

(** ** Names the dots promise *)

Definition report_the_component_the_dot_promised : M unit :=
  property ← gets at_property_name;
  if (property : bool) then report_missing_name "ожидалось имя объекта, встречено ключевое слово"
  else error_expected T![Ident].

(** ** Before the field list *)

Definition top_clause : M unit :=
  m ← start;
  eat_sdbl_keyword_ "TOP" "ПЕРВЫЕ";;
  absent ← gets (fun p =>
    is_clause_keyword p || at_ T![Semicolon] p || at_ T![RParen] p || at_end p);
  (if (absent : bool) then error_custom_no_bump "ожидалось количество после 'ПЕРВЫЕ' / 'TOP'"
   else expect_ T![Decimal]);;
  complete_ m NK.SdblTopClause.

Definition limitations : M unit :=
  m ← start;
  while_ is_limitation_keyword
    (distinct ← gets (at_sdbl_keyword "DISTINCT" "РАЗЛИЧНЫЕ");
     top ← gets (at_sdbl_keyword "TOP" "ПЕРВЫЕ");
     allowed ← gets (at_sdbl_keyword "ALLOWED" "РАЗРЕШЕННЫЕ");
     if (distinct : bool) then eat_sdbl_keyword_ "DISTINCT" "РАЗЛИЧНЫЕ"
     else if (top : bool) then top_clause
     else when allowed (eat_sdbl_keyword_ "ALLOWED" "РАЗРЕШЕННЫЕ"));;
  complete_ m NK.SdblLimitations.

Definition into_clause : M unit :=
  m ← start;
  eat_sdbl_keyword_ "INTO" "ПОМЕСТИТЬ";;
  name ← gets at_field_name;
  (if (name : bool) then
     table_m ← start;
     bump;;
     complete_ table_m NK.SdblTempTableName
   else error_custom "ожидалось имя временной таблицы после 'ПОМЕСТИТЬ' / 'INTO'");;
  complete_ m NK.SdblIntoClause.

Definition autoorder_clause : M unit :=
  m ← start;
  eat_sdbl_keyword_ "AUTOORDER" "АВТОУПОРЯДОЧИВАНИЕ";;
  complete_ m NK.SdblAutoorder.

Definition for_update_clause : M unit :=
  m ← start;
  eat_sdbl_keyword_ "FOR" "ДЛЯ";;
  eat_sdbl_keyword_ "UPDATE" "ИЗМЕНЕНИЯ";;
  name ← gets at_field_name;
  when name
    (bump;;
     name_components
       (silent ← gets (fun p => at_end p || at_error p);
        when (negb silent) report_the_component_the_dot_promised));;
  complete_ m NK.SdblForUpdate.

Section rules.
Context (k : Rules).

Abbreviation expression := (expression_rule k).
Abbreviation subquery := (subquery_rule k).

(** ** Sources *)

Definition is_data_source_start (p : Parser) : bool :=
  match current p with
  | Some T![LParen] => true
  | Some T![Ampersand] => true
  | Some T![Ident] => negb (is_clause_keyword p)
  | _ => false
  end.

Definition missing_arg : M unit := m ← start; complete_ m NK.SdblMissingArg.

Definition table_argument : M unit :=
  checkpoint ← gets error_checkpoint;
  expression;;
  eat_query_extensions;;
  ended ← gets (fun p => at_ T![Comma] p || at_ T![RParen] p);
  when (negb ended) (recover_expression_tail checkpoint).

Definition more_table_arguments : M unit :=
  loop (fun _ : unit =>
    more ← eat T![Comma];
    if negb more then break_ tt
    else
    check_iteration_limit;;
    eat_query_extensions;;
    empty_slot ← gets (fun p => at_ T![Comma] p || at_ T![RParen] p || negb (is_expression_start p));
    if (empty_slot : bool) then
      missing_arg;;
      again ← gets (at_ T![Comma]);
      if negb again then break_ tt else continue_ tt
    else table_argument;; continue_ tt) tt.

Definition virtual_table_args_body : M unit :=
  eat_query_extensions;;
  closed ← gets (at_ T![RParen]);
  if (closed : bool) then expect_ T![RParen]
  else
  starts ← gets (fun p => is_expression_start p && negb (at_ T![Comma] p));
  (if (starts : bool) then table_argument else missing_arg);;
  more_table_arguments;;
  closed ← gets (at_ T![RParen]);
  clause ← gets is_clause_keyword;
  if (closed : bool) then bump
  else if (clause : bool) then error_expected T![RParen]
  else expect_ T![RParen].

Definition virtual_table_args : M unit :=
  opens ← gets (at_ T![LParen]);
  if negb opens then skip
  else bump;; within_boundary at_list_delimiter virtual_table_args_body.

(** The components of a table's name behind the first one. *)
Definition table_components : M unit :=
  loop (fun _ : unit =>
    go ← gets (fun p => bool_decide (nth 1 p = Some T![Dot]) || at_ T![Dot] p);
    if negb go then break_ tt
    else
    dot ← eat T![Dot];
    if negb dot then break_ tt
    else
    check_iteration_limit;;
    component ← gets at_table_name_component;
    if negb component then report_the_component_the_dot_promised;; break_ tt
    else bump;; continue_ tt) tt.

Definition table_ref : M bool :=
  m ← start;
  parameter ← gets (at_ T![Ampersand]);
  if (parameter : bool) then
    pm ← start;
    bump;;
    complete_ pm NK.SdblParameter;;
    complete_ m NK.SdblTableRef;;
    mret true
  else
  refused ← gets (fun p => at_ T![Ident] p && negb (at_field_name p));
  if (refused : bool) then
    error_custom_no_bump "ожидалось имя таблицы";;
    complete_ m NK.SdblTableRef;;
    mret false
  else
  taken ← expect T![Ident];
  if negb taken then complete_ m NK.SdblTableRef;; mret false
  else
  table_components;;
  virtual_table_args;;
  complete_ m NK.SdblTableRef;;
  mret true.

Definition source_alias (named : bool) : M unit :=
  m ← start;
  alias_name "ожидался псевдоним источника после 'КАК' / 'AS'" (AliasedSource named);;
  complete_ m NK.SdblAlias.

(** The type of a join, without [СОЕДИНЕНИЕ] itself. *)
Definition has_join_type (p : Parser) : bool :=
  at_keyword "LEFT" p || at_keyword "ЛЕВОЕ" p ||
  at_keyword "RIGHT" p || at_keyword "ПРАВОЕ" p ||
  at_keyword "FULL" p || at_keyword "ПОЛНОЕ" p ||
  at_keyword "INNER" p || at_keyword "ВНУТРЕННЕЕ" p.

Definition join_clause (data_source : M unit) : M unit :=
  m ← start;
  has_type ← gets has_join_type;
  when has_type bump;;
  outer ← gets (at_sdbl_keyword "OUTER" "ВНЕШНЕЕ");
  when outer bump;;
  join ← gets (at_sdbl_keyword "JOIN" "СОЕДИНЕНИЕ");
  if negb join then
    error_custom "ожидалось 'СОЕДИНЕНИЕ' / 'JOIN'";;
    complete_ m NK.SdblJoinClause
  else
    bump;;
    data_source;;
    on ← eat_sdbl_keyword "ON" "ПО";
    when (negb on) (error_custom "ожидалось 'ПО' / 'ON' в соединении");;
    within_field_names expression;;
    complete_ m NK.SdblJoinClause.

Definition data_source_body (data_source : M unit) : M unit :=
  m ← start;
  opens ← gets (at_ T![LParen]);
  named ←
    (if (opens : bool) then
       bump;;
       checkpoint ← gets error_checkpoint;
       within_boundary at_closing_paren (subquery;; finish_parenthesized checkpoint);;
       mret true
     else table_ref);
  alias ← gets at_an_alias;
  when alias (source_alias named);;
  eat_query_extensions;;
  while_ is_join_keyword (join_clause data_source;; eat_query_extensions);;
  complete_ m NK.SdblDataSource.

Definition data_source : M unit := rec_ out_of_fuel data_source_body id.

Definition from_clause : M unit :=
  m ← start;
  eat_sdbl_keyword_ "FROM" "ИЗ";;
  parse_delimited_list T![Comma] LIST_RECOVERY is_data_source_start (fun _ => data_source) tt;;
  complete_ m NK.SdblFromClause.

(** ** Clauses *)

Definition where_clause : M unit :=
  m ← start;
  eat_sdbl_keyword_ "WHERE" "ГДЕ";;
  within_field_names expression;;
  complete_ m NK.SdblWhereClause.

Definition having_clause : M unit :=
  m ← start;
  eat_sdbl_keyword_ "HAVING" "ИМЕЮЩИЕ";;
  within_field_names expression;;
  complete_ m NK.SdblHavingClause.

(** [item] and more of them behind commas. *)
Definition comma_items (item : M unit) : M unit :=
  item;;
  loop (fun _ : unit =>
    more ← eat T![Comma];
    if (more : bool) then check_iteration_limit;; item;; continue_ tt else break_ tt) tt.

(** A clause whose items follow [ПО]. *)
Definition keyed_clause (en ru : String.string) (item : M unit) (kind : NK.NodeKind) : M unit :=
  m ← start;
  eat_sdbl_keyword_ en ru;;
  by_ ← gets (at_sdbl_keyword "BY" "ПО");
  if negb by_ then complete_ m kind
  else
    eat_sdbl_keyword_ "BY" "ПО";;
    comma_items item;;
    complete_ m kind.

Definition group_by_clause : M unit :=
  keyed_clause "GROUP" "СГРУППИРОВАТЬ" expression NK.SdblGroupClause.

Definition index_by_clause : M unit :=
  keyed_clause "INDEX" "ИНДЕКСИРОВАТЬ" expression NK.SdblIndexBy.

Definition eat_order_direction : M bool :=
  here ← gets (fun p => at_sdbl_keyword "ASC" "ВОЗР" p || at_sdbl_keyword "DESC" "УБЫВ" p);
  if (here : bool) then bump;; mret true else mret false.

Definition order_by_item : M unit :=
  expression;;
  descending_came_first ← gets (at_sdbl_keyword "DESC" "УБЫВ");
  direction_came_first ← eat_order_direction;
  hierarchy ← gets (at_sdbl_keyword "HIERARCHY" "ИЕРАРХИЯ");
  when hierarchy
    (when (direction_came_first && negb descending_came_first)
       (error_custom_no_bump "'ИЕРАРХИЯ' / 'HIERARCHY' сочетается только с 'УБЫВ' / 'DESC'");;
     bump;;
     when (negb direction_came_first)
       (descending ← gets (at_sdbl_keyword "DESC" "УБЫВ");
        ascending ← gets (at_sdbl_keyword "ASC" "ВОЗР");
        if (descending : bool) then bump
        else when ascending
          (error_custom_no_bump "'ИЕРАРХИЯ' / 'HIERARCHY' сочетается только с 'УБЫВ' / 'DESC'";;
           bump))).

Definition order_by_clause : M unit :=
  keyed_clause "ORDER" "УПОРЯДОЧИТЬ" order_by_item NK.SdblOrderClause.

(** *** Totals *)

Definition PERIOD_NAMES : list (String.string * String.string) :=
  [ ("SECOND", "СЕКУНДА"); ("MINUTE", "МИНУТА"); ("HOUR", "ЧАС"); ("DAY", "ДЕНЬ");
    ("WEEK", "НЕДЕЛЯ"); ("MONTH", "МЕСЯЦ"); ("QUARTER", "КВАРТАЛ"); ("YEAR", "ГОД");
    ("TENDAYS", "ДЕКАДА"); ("HALFYEAR", "ПОЛУГОДИЕ") ].

Definition at_period_name (p : Parser) : bool :=
  existsb (fun '(en, ru) => at_sdbl_keyword en ru p) PERIOD_NAMES.

Definition at_period_boundary (p : Parser) : bool :=
  at_ T![Ampersand] p || at_ T![Date] p ||
  (at_sdbl_keyword "DATETIME" "ДАТАВРЕМЯ" p && bool_decide (nth 1 p = Some T![LParen])).

Definition at_periods_keyword (p : Parser) : bool := at_sdbl_keyword "PERIODS" "ПЕРИОДАМИ" p.

Definition period_boundaries : M unit :=
  while_ (at_ T![Comma])
    (check_iteration_limit;;
     bump;;
     starts ← gets is_expression_start;
     boundary ← gets at_period_boundary;
     if (starts : bool) then
       when (negb boundary)
         (error_custom_no_bump "границей периода может быть литерал даты или параметр");;
       expression
     else
       error_custom_no_bump "ожидалась граница периода после запятой";;
       recover_to_delimiter false at_list_delimiter).

Definition totals_periods_modifier : M unit :=
  bump;;
  opens ← gets (at_ T![LParen]);
  end_ ← gets at_end;
  if negb opens then
    when (negb end_) (error_custom_no_bump "ожидалась '(' после 'ПЕРИОДАМИ' / 'PERIODS'")
  else
    bump;;
    within_boundary at_list_delimiter
      (period ← gets at_period_name;
       word ← gets (fun p => at_name p && negb (is_clause_keyword p));
       (if (period : bool) then bump
        else if (word : bool) then error_custom_no_bump "неизвестный вид периода";; bump
        else
          error_custom_no_bump "ожидался вид периода";;
          recover_to_delimiter false at_list_delimiter);;
       period_boundaries;;
       closed ← gets (at_ T![RParen]);
       end_ ← gets at_end;
       if (closed : bool) then bump
       else when (negb end_)
         (error_custom_no_bump "не закрыта скобка после 'ПЕРИОДАМИ' / 'PERIODS'")).

Definition totals_group_modifier : M unit :=
  only ← gets (at_sdbl_keyword "ONLY" "ТОЛЬКО");
  hierarchy ← gets (at_sdbl_keyword "HIERARCHY" "ИЕРАРХИЯ");
  took_hierarchy ←
    (if (only : bool) then
       bump;;
       hierarchy ← gets (at_sdbl_keyword "HIERARCHY" "ИЕРАРХИЯ");
       if (hierarchy : bool) then bump;; mret true
       else
         error_custom_no_bump "ожидалось 'ИЕРАРХИЯ' / 'HIERARCHY' после 'ТОЛЬКО' / 'ONLY'";;
         mret false
     else if (hierarchy : bool) then bump;; mret true
     else mret false);
  periods ← gets at_periods_keyword;
  when periods
    (when took_hierarchy
       (error_custom_no_bump
          "'ИЕРАРХИЯ' / 'HIERARCHY' и 'ПЕРИОДАМИ' / 'PERIODS' исключают друг друга");;
     totals_periods_modifier).

Definition totals_group_alias : M unit :=
  as_ ← gets (at_sdbl_keyword "AS" "КАК");
  if (as_ : bool) then
    eat_sdbl_keyword_ "AS" "КАК";;
    body ← gets is_body_clause_keyword;
    if (body : bool) then error_custom_no_bump "ожидался псевдоним после 'КАК' / 'AS'"
    else eat_name_here "ожидался псевдоним после 'КАК' / 'AS'"
  else
    name ← gets (fun p => at_name p && negb (is_clause_keyword p));
    when name bump.

Definition totals_group_item : M unit :=
  expression;;
  totals_group_modifier;;
  totals_group_alias.

(** The fields to total, before [ПО]. *)
Definition totals_fields : M unit :=
  loop (fun _ : unit =>
    end_ ← gets at_end;
    if (end_ : bool) then break_ tt
    else
    check_iteration_limit;;
    by_ ← gets (at_sdbl_keyword "BY" "ПО");
    clause ← gets is_clause_keyword;
    starts ← gets is_expression_start;
    if (by_ : bool) then break_ tt
    else if (clause : bool) then break_ tt
    else if (starts : bool) then
      within_boundary at_comma expression;;
      alias ← gets (fun p =>
        at_sdbl_keyword "AS" "КАК" p || (at_an_implicit_alias p && negb (at_sdbl_keyword "BY" "ПО" p)));
      when alias
        (alias ← start;
         alias_name "ожидался псевдоним после 'КАК' / 'AS'" AliasedTotals;;
         complete_ alias NK.SdblAlias);;
      comma ← gets (at_ T![Comma]);
      if negb comma then continue_ tt else bump;; continue_ tt
    else break_ tt) tt.

Definition totals_by_clause : M unit :=
  m ← start;
  eat_sdbl_keyword_ "TOTALS" "ИТОГИ";;
  totals_fields;;
  by_ ← gets (at_sdbl_keyword "BY" "ПО");
  if negb by_ then complete_ m NK.SdblTotalsBy
  else
    eat_sdbl_keyword_ "BY" "ПО";;
    comma_items totals_group_item;;
    complete_ m NK.SdblTotalsBy.

(** ** Queries *)

(** [eat_query_extensions], then the clause when its keyword stands here. *)
Definition optional_clause (en ru : String.string) (clause : M unit) : M unit :=
  eat_query_extensions;;
  here ← gets (at_sdbl_keyword en ru);
  when here clause.

Definition query_body_clauses : M unit :=
  optional_clause "FROM" "ИЗ" from_clause;;
  optional_clause "WHERE" "ГДЕ" where_clause;;
  optional_clause "GROUP" "СГРУППИРОВАТЬ" group_by_clause;;
  optional_clause "HAVING" "ИМЕЮЩИЕ" having_clause;;
  optional_clause "FOR" "ДЛЯ" for_update_clause;;
  optional_clause "INDEX" "ИНДЕКСИРОВАТЬ" index_by_clause;;
  optional_clause "ORDER" "УПОРЯДОЧИТЬ" order_by_clause;;
  eat_query_extensions.

Definition query_content : M unit :=
  m ← start;
  taken ← eat_sdbl_keyword "SELECT" "ВЫБРАТЬ";
  if negb taken then
    error_custom_no_bump "ожидалось 'ВЫБРАТЬ' / 'SELECT'";;
    complete_ m NK.SdblQuery
  else
    within_boundary (clause_keyword _)
      (limited ← gets is_limitation_keyword;
       when limited limitations;;
       selected_fields k;;
       optional_clause "INTO" "ПОМЕСТИТЬ" into_clause;;
       query_body_clauses);;
    complete_ m NK.SdblQuery.

Definition query : M unit := outside_field_names query_content.

Definition union_clause : M unit :=
  m ← start;
  eat_sdbl_keyword_ "UNION" "ОБЪЕДИНИТЬ";;
  eat_sdbl_keyword_ "ALL" "ВСЕ";;
  query;;
  complete_ m NK.SdblUnionClause.

Definition subquery_body : M unit :=
  m ← start;
  query;;
  while_ (fun p => negb (at_ T![Semicolon] p) && at_sdbl_keyword "UNION" "ОБЪЕДИНИТЬ" p) union_clause;;
  complete_ m NK.SdblSubquery.

(** The clauses that may follow in any order, each once: which have been parsed. *)
Definition select_tail_clauses : M unit :=
  loop (fun '(parsed_autoorder, parsed_order_by, parsed_totals_by) =>
    extension ← gets (at_ T![LBrace]);
    autoorder ← gets (at_sdbl_keyword "AUTOORDER" "АВТОУПОРЯДОЧИВАНИЕ");
    order ← gets (at_sdbl_keyword "ORDER" "УПОРЯДОЧИТЬ");
    totals ← gets (at_sdbl_keyword "TOTALS" "ИТОГИ");
    if (extension : bool) then
      query_extension;; continue_ (parsed_autoorder, parsed_order_by, parsed_totals_by)
    else if negb parsed_autoorder && autoorder then
      autoorder_clause;; continue_ (true, parsed_order_by, parsed_totals_by)
    else if negb parsed_order_by && order then
      order_by_clause;; continue_ (parsed_autoorder, true, parsed_totals_by)
    else if negb parsed_totals_by && totals then
      totals_by_clause;; continue_ (parsed_autoorder, parsed_order_by, true)
    else break_ tt) (false, false, false).
End rules.

(** ** The rules tied together *)

Definition rules_body (k : Rules) : Rules := MkRules (logical_or_expr k) (subquery_body k).

Definition no_rules : Rules := MkRules out_of_fuel out_of_fuel.

Definition expression : M unit := rec_ no_rules rules_body expression_rule.

Definition subquery : M unit := rec_ no_rules rules_body subquery_rule.

Definition rules : Rules := MkRules expression subquery.

Definition select_query : M unit :=
  m ← start;
  within_boundary (clause_keyword _) (subquery;; select_tail_clauses rules);;
  complete_ m NK.SdblSelectQuery.

(** ** The package *)

Definition drop_table_query : M unit :=
  m ← start;
  eat_sdbl_keyword_ "DROP" "УНИЧТОЖИТЬ";;
  name ← gets at_field_name;
  word ← gets (at_ T![Ident]);
  (if (name : bool) then bump
   else if (word : bool) then
     error_custom_no_bump "ожидалось имя таблицы после 'УНИЧТОЖИТЬ' / 'DROP'"
   else error_custom "ожидалось имя таблицы после 'УНИЧТОЖИТЬ' / 'DROP'");;
  complete_ m NK.SdblDropQuery.

Definition queries : M unit :=
  drop ← gets (at_sdbl_keyword "DROP" "УНИЧТОЖИТЬ");
  if (drop : bool) then drop_table_query else select_query.

(** What the drain carries. *)
Record Drain : Set := MkDrain {
  took_anything : bool;
  after_a_dot : bool;
  after_a_receiver : bool;
}.

Definition drain_turn (member_is_due : bool) (s : Drain) : M (Drain + bool) :=
  go ← gets (fun p => negb (at_end p) && negb (at_ T![Semicolon] p));
  if negb go then break_ (took_anything s)
  else
  check_iteration_limit;;
  reaches_here ← gets (fun p => after_a_dot s && negb (parser_line_break_precedes p));
  could_begin_a_member ← gets (fun p =>
    negb reaches_here && (at_query_start p || (member_is_due && is_clause_keyword p)));
  stop ← gets (fun p => took_anything s && could_begin_a_member && (open_group_count p =? 0)%Z);
  if (stop : bool) then break_ (took_anything s)
  else
    after_a_dot ← gets (fun p => at_ T![Dot] p && after_a_receiver s);
    after_a_receiver ← gets (ends_a_name reaches_here);
    bump;;
    continue_ (MkDrain true after_a_dot after_a_receiver).

Definition drain_to_boundary (member_is_due : bool) : M bool :=
  nothing ← gets (fun p => at_end p || at_ T![Semicolon] p);
  if (nothing : bool) then mret false
  else
    leftover ← start;
    took ← loop (drain_turn member_is_due) (MkDrain false false false);
    (if (took : bool) then error_custom_at_marker leftover LEFTOVER_MESSAGE else abandon leftover);;
    mret took.

Definition complain_about_a_missing_member (a_query_is_due had_tokens : bool) : M unit :=
  if negb a_query_is_due then skip
  else if had_tokens then error_custom_no_bump "ожидалось 'ВЫБРАТЬ' / 'SELECT'"
  else error_custom_no_bump "ожидался запрос между разделителями".

(** Whether a query is due and whether the member has tokens. *)
Definition package_turn (s : bool * bool) : M ((bool * bool) + (bool * bool)) :=
  let '(a_query_is_due, member_has_tokens) := s in
  end_ ← gets at_end;
  if (end_ : bool) then break_ s
  else
  check_iteration_limit;;
  separator ← gets (at_ T![Semicolon]);
  if (separator : bool) then
    complain_about_a_missing_member a_query_is_due member_has_tokens;;
    bump;;
    reset_group_tracking;;
    continue_ (true, false)
  else
  end_ ← gets at_end;
  if (end_ : bool) then break_ s
  else
  starts_a_member ← gets (fun p =>
    (open_group_count p =? 0)%Z && (at_query_start p || (a_query_is_due && is_clause_keyword p)));
  if (starts_a_member : bool) then
    when (negb a_query_is_due)
      (error_custom_no_bump "ожидался разделитель ';' между запросами");;
    queries;;
    continue_ (false, true)
  else
    drained ← drain_to_boundary a_query_is_due;
    if (drained : bool) then continue_ (a_query_is_due, true) else break_ s.

(** A turn may consume nothing when it finds a member due at a clause keyword; the next one then
    does, so twice the tokens left bound the turns. *)
Definition package_loop (s : bool * bool) : M (bool * bool) :=
  fun p => loop_fuel (2 * S (remaining p)) package_turn s p.

Definition query_package : M unit :=
  m ← start;
  s ← package_loop (true, false);
  let '(a_query_is_due, member_has_tokens) := s in
  when member_has_tokens (complain_about_a_missing_member a_query_is_due member_has_tokens);;
  complete_ m NK.SdblQueryPackage.
End grammar.
