(* ===== verification/SdblHoare.v ===== *)
(** SdblHoare: what every rule of the query grammar keeps, and the rules to prove it.

    The computations are those of ParserCore, so [wp], [Inv] and [Cx] are the ones of Hoare.  A rule
    of this grammar promises more of what it consumes: no token of it is a separator ([seps] counts
    them), and the events only grow, so a checkpoint taken before stays within them.  A rule may
    spend [e] checks of the iteration guard without consuming anything, and leaves [c] over when it
    consumed. *)
From stdpp Require Import prelude strings.
From S2P Require Import Prelude Case Kinds Tokens Input TornIf ParserCore Events Hoare Sdbl.

#[local] Arguments Nat.min : simpl never.
#[local] Arguments Z.mul : simpl never.
#[local] Arguments Z.sub : simpl never.
#[local] Arguments Z.of_nat : simpl never.

(** The word at a position is the token whose kind stands there. *)
Class Consistent (inp : Input) : Prop := ident_kind pos t :
  input_token inp pos = Some t -> tok_kind t = Ident -> input_kind inp pos = Some T![Ident].

(** A token that is no separator stands here. *)
Definition plain (p : Parser) : Prop := exists k, current p = Some k /\ k <> T![Semicolon].

(** A question whose positive answer says so. *)
Class Plain (inp : Input) (f : Parser -> bool) : Prop :=
  plain_of p : input p = inp -> f p = true -> plain p.

Class PlainKind (k : Sig) : Prop := plain_kind : k <> T![Semicolon].
#[export] Hint Extern 0 (PlainKind _) => (unfold PlainKind; discriminate) : typeclass_instances.

#[export] Instance at_plain inp k `{PlainKind k} : Plain inp (at_ k).
Proof. intros p _ E. exists k. split; [by apply at_current|done]. Qed.

Section words.
Context (inp : Input) `{Consistent inp} `{CharCase}.

#[export] Instance at_keyword_plain word : Plain inp (at_keyword word).
Proof.
  intros p Hp. unfold at_keyword. rewrite Hp.
  destruct (input_token inp (pos p)) as [t|] eqn:Et; [|done].
  intros [Ek%bool_decide_eq_true _]%andb_true_iff. exists T![Ident]. split; [|done].
  unfold current, nth. rewrite Hp, Nat.add_0_r. by eapply ident_kind.
Qed.

Lemma at_keyword_ident word p : input p = inp -> at_keyword word p = true -> current p = Some T![Ident].
Proof.
  intros Hp. unfold at_keyword. rewrite Hp.
  destruct (input_token inp (pos p)) as [t|] eqn:Et; [|done].
  intros [Ek%bool_decide_eq_true _]%andb_true_iff.
  unfold current, nth. rewrite Hp, Nat.add_0_r. by eapply ident_kind.
Qed.
End words.

(** Splits a positive answer along the code's disjunctions and asks every part. *)
Ltac plain_parts :=
  lazymatch goal with
  | |- ?a || ?b = true -> _ =>
      let E := fresh in intros [E|E]%orb_true_iff; revert E; plain_parts
  | |- ?a && ?b = true -> _ =>
      let E1 := fresh in let E2 := fresh in intros [E1 E2]%andb_true_iff;
      first [revert E1; solve [plain_parts] | revert E2; solve [plain_parts]]
  | |- ?f ?p = true -> _ =>
      first [notypeclasses refine (@plain_of _ f _ p _); [|eassumption]; typeclasses eauto | let h := get_head f in unfold h; plain_parts]
  end.

Ltac solve_plain :=
  let p := fresh "p" in intros p Hp;
  match goal with |- ?f p = true -> _ => let h := get_head f in unfold h end;
  first [plain_parts | destruct (current p) as [[[]]|] eqn:?; try done; intros _; by eexists].

Section word_questions.
Context (inp : Input) `{Consistent inp} `{CharCase}.

#[export] Instance at_sdbl_keyword_plain en ru : Plain inp (at_sdbl_keyword en ru).
Proof. solve_plain. Qed.

#[export] Instance is_join_keyword_plain : Plain inp is_join_keyword.
Proof. solve_plain. Qed.

#[export] Instance is_clause_keyword_plain : Plain inp is_clause_keyword.
Proof. solve_plain. Qed.

#[export] Instance at_query_start_plain : Plain inp at_query_start.
Proof. solve_plain. Qed.

#[export] Instance at_query_boundary_plain : Plain inp at_query_boundary.
Proof. solve_plain. Qed.

#[export] Instance at_name_plain : Plain inp at_name.
Proof. solve_plain. Qed.

#[export] Instance at_field_name_plain : Plain inp at_field_name.
Proof. solve_plain. Qed.

#[export] Instance at_property_name_plain : Plain inp at_property_name.
Proof. solve_plain. Qed.

#[export] Instance at_table_name_component_plain : Plain inp at_table_name_component.
Proof. solve_plain. Qed.

#[export] Instance at_a_qualifying_dot_plain : Plain inp at_a_qualifying_dot.
Proof. solve_plain. Qed.

#[export] Instance at_a_keyword_kind_plain : Plain inp at_a_keyword_kind.
Proof. solve_plain. Qed.

#[export] Instance at_a_keyword_qualifier_plain : Plain inp at_a_keyword_qualifier.
Proof. solve_plain. Qed.

#[export] Instance is_limitation_keyword_plain : Plain inp is_limitation_keyword.
Proof. solve_plain. Qed.
End word_questions.

(** ** Costs *)

Section hoare.
Context {boundary : Declared} (inp : Input) (B : Z).
Hypothesis Hfits : (Z.of_nat (input_len inp) < 2 ^ 31)%Z.

Abbreviation len := (input_len inp).

(** The separators among the first [n] tokens. *)
Definition seps (n : nat) : nat := length (filter (fun k => k = T![Semicolon]) (take n (kinds inp))).

Lemma seps_S n k : kinds inp !! n = Some k -> k <> T![Semicolon] -> seps (S n) = seps n.
Proof.
  intros Hk Hne. unfold seps. rewrite (take_S_r _ _ _ Hk), filter_app, filter_cons_False by done.
  by rewrite filter_nil, app_nil_r.
Qed.

Definition Pays (e c : Z) (p p' : Parser) : Prop :=
  (pos p <= pos p')%nat /\ (pot inp p' <= pot inp p + e)%Z /\
  ((pos p < pos p')%nat -> (pot inp p' + c <= pot inp p)%Z) /\
  seps (pos p') = seps (pos p) /\ (length (events p) <= length (events p'))%nat.

(** A rule that needs [s] checks of slack. *)
Definition QSpec {A} (s e c : Z) (m : M A) (Post : Parser -> A -> Parser -> Prop) (p : Parser) : Prop :=
  Inv inp p -> (pot inp p + s <= B)%Z ->
  wp B m (fun a p' => Cx inp (events p) (enclosing_boundaries p) [] p' /\ Pays e c p p' /\
                      Post p a p') p.

Lemma Cx_grown base bs p : Cx inp base bs [] p -> (length base <= length (events p))%nat.
Proof. intros [_ _ (g & -> & _)]. rewrite length_app. lia. Qed.

Lemma Pays_refl e c p : (0 <= e)%Z -> Pays e c p p.
Proof. unfold Pays. lia. Qed.

(** ** What stands at a position does not change *)

Lemma at_same k p q : Inv inp p -> Inv inp q -> pos p = pos q -> at_ k p = at_ k q.
Proof. intros Hp Hq E. unfold at_. by rewrite (current_at inp p q Hp Hq E). Qed.

Lemma at_keyword_same `{CharCase} w p q :
  Inv inp p -> Inv inp q -> pos p = pos q -> at_keyword w p = at_keyword w q.
Proof. intros [Hp] [Hq] E. unfold at_keyword. by rewrite Hp, Hq, E. Qed.

Lemma at_sdbl_keyword_same `{CharCase} en ru p q :
  Inv inp p -> Inv inp q -> pos p = pos q -> at_sdbl_keyword en ru p = at_sdbl_keyword en ru q.
Proof. intros. unfold at_sdbl_keyword. by rewrite !(at_keyword_same _ p q). Qed.

Lemma plain_same p q : Inv inp p -> Inv inp q -> pos q = pos p -> plain p -> plain q.
Proof. intros Hp Hq E (k & Hk & Hne). exists k. by rewrite (current_at inp q p Hq Hp E). Qed.

Lemma plain_live p : Inv inp p -> plain p -> (pos p < len)%nat.
Proof. intros Hi (k & Hk & _). by eapply current_live. Qed.

(** ** The primitive operations *)

(** The events an operation leaves are at least as many. *)
Lemma wp_grows {A} (m : M A) (Q : A -> Parser -> Prop) p :
  (forall a p', m p = Ok a p' -> (length (events p) <= length (events p'))%nat) ->
  wp B m (fun a p' => (length (events p) <= length (events p'))%nat -> Q a p') p -> wp B m Q p.
Proof.
  unfold wp. intros Hg. destruct (m p) as [a p'| |]; [|done..]. intros HQ. by apply HQ, (Hg a).
Qed.

Lemma start_grows p m p' : start p = Ok m p' -> (length (events p) <= length (events p'))%nat.
Proof. intros [= <- <-]. simpl. rewrite length_app. lia. Qed.

Lemma push_grows e p u p' : push_event e p = Ok u p' -> (length (events p) <= length (events p'))%nat.
Proof. intros [= <- <-]. simpl. rewrite length_app. lia. Qed.

Lemma complete_grows m k p c p' :
  complete_ m k p = Ok c p' -> (length (events p) <= length (events p'))%nat.
Proof.
  unfold complete_, mbind, M_bind, complete.
  destruct (m_pos m <? length (events p))%nat; [|done]. intros [= <- <-]. simpl.
  rewrite length_app, length_insert. lia.
Qed.

Lemma check_grows p u p' :
  check_iteration_limit p = Ok u p' -> (length (events p) <= length (events p'))%nat.
Proof. unfold check_iteration_limit. repeat case_match; by intros [= <- <-]. Qed.

Lemma emit_error_at_marker_grows m err p u p' :
  emit_error_at_marker m err p = Ok u p' -> (length (events p) <= length (events p'))%nat.
Proof.
  unfold emit_error_at_marker. intros E.
  assert (complete_ m NK.Error (set_events (events p ++ [ErrorWithSpan (m_start_token_pos m) err]) p)
    = Ok u p') as E' by exact E.
  apply complete_grows in E'. simpl in E'. rewrite length_app in E'. lia.
Qed.

Lemma track_group_events k p u p' : track_group k p = Ok u p' -> events p' = events p.
Proof.
  unfold track_group, mbind, M_bind, u32_add, modify.
  destruct k; simpl; try (by intros [= <- <-]);
    repeat first [destruct (_ =? _)%Z | destruct (_ <? _)%Z]; simpl; try done; by intros [= <- <-].
Qed.

Lemma bump_grows p u p' : bump p = Ok u p' -> (length (events p) <= length (events p'))%nat.
Proof.
  unfold bump. unfold mbind, M_bind, gets. destruct (current p) as [k|]; [|by intros [= <- <-]].
  destruct (track_group (sig_kind k) p) as [[] p1| |] eqn:E; [|done..].
  apply track_group_events in E. intros [= <- <-]. simpl. rewrite length_app, E. lia.
Qed.

Lemma wp_qbump base bs stack (Q : unit -> Parser -> Prop) p :
  Cx inp base bs stack p -> plain p ->
  (forall p', Cx inp base bs stack p' -> pos p' = S (pos p) -> pot inp p' = (pot inp p - 8)%Z ->
     seps (pos p') = seps (pos p) -> (length (events p) <= length (events p'))%nat -> Q tt p') ->
  wp B bump Q p.
Proof.
  intros HC Hp HQ. pose proof (cx_inv _ _ _ _ _ HC) as Hi. pose proof (plain_live p Hi Hp) as Hlt.
  apply wp_grows; [intros; by eapply bump_grows|]. eapply wp_bump; [done|done|].
  intros p' HC' (Hpos & Hpot & _) Hev.
  assert (pos p' = S (pos p)) as E by lia.
  apply HQ; [done|done|lia| |done]. rewrite E. destruct Hp as (k & Hk & Hne).
  apply (seps_S _ k); [|done]. unfold current, nth, input_kind in Hk.
  by rewrite (inv_input _ _ Hi), Nat.add_0_r in Hk.
Qed.

(** The next token stands here once this one is consumed. *)
Lemma nth_bumped n k p p' :
  Inv inp p -> Inv inp p' -> pos p' = S (pos p) -> nth (S n) p = Some k -> nth n p' = Some k.
Proof. intros [Hp] [Hq] E. unfold nth. rewrite Hp, Hq, E. by rewrite Nat.add_succ_comm. Qed.

Lemma wp_qstart base bs stack (Q : Marker -> Parser -> Prop) p :
  Cx inp base bs stack p ->
  (forall m p', Cx inp base bs (EFresh m :: stack) p' -> Same p p' -> pos p' = pos p ->
     pot inp p' = pot inp p -> (length (events p) <= length (events p'))%nat -> Q m p') ->
  wp B start Q p.
Proof.
  intros HC HQ. apply wp_grows; [apply start_grows|]. eapply wp_start; [done|]. intros. by apply HQ.
Qed.

Lemma wp_qcomplete base bs stack (Q : unit -> Parser -> Prop) p m kind :
  Cx inp base bs (EOpen m :: stack) p ->
  (forall p', Cx inp base bs stack p' -> Same p p' -> pos p' = pos p -> pot inp p' = pot inp p ->
     (length (events p) <= length (events p'))%nat -> Q tt p') ->
  wp B (complete_ m kind) Q p.
Proof.
  intros HC HQ. apply wp_grows; [apply complete_grows|]. eapply complete_error; [done|].
  intros. by apply HQ.
Qed.

Lemma wp_qcheck base bs stack (Q : unit -> Parser -> Prop) p :
  Cx inp base bs stack p -> (pot inp p + 1 <= B)%Z ->
  (forall p', Cx inp base bs stack p' -> Same p p' -> pos p' = pos p ->
     (pot inp p' <= pot inp p + 1)%Z -> (length (events p) <= length (events p'))%nat -> Q tt p') ->
  wp B check_iteration_limit Q p.
Proof.
  intros HC Hp HQ. apply wp_grows; [apply check_grows|]. eapply wp_check; [done..|].
  intros. by apply HQ.
Qed.

Lemma wp_qerror_at_marker base bs stack (Q : unit -> Parser -> Prop) p m err :
  Cx inp base bs (EOpen m :: stack) p ->
  (forall p', Cx inp base bs stack p' -> Same p p' -> pos p' = pos p -> pot inp p' = pot inp p ->
     (length (events p) <= length (events p'))%nat -> Q tt p') ->
  wp B (emit_error_at_marker m err) Q p.
Proof.
  intros HC HQ. apply wp_grows; [apply emit_error_at_marker_grows|].
  eapply wp_emit_error_at_marker; [done|]. intros. by apply HQ.
Qed.

(** A rule abandons its first marker when it has nothing else open. *)
Lemma wp_qabandon base bs (Q : unit -> Parser -> Prop) p m :
  Cx inp base bs [EFresh m] p ->
  (forall p', Cx inp base bs [] p' -> Same p p' -> pos p' = pos p -> pot inp p' = pot inp p ->
     (length base <= length (events p'))%nat -> Q tt p') ->
  wp B (abandon m) Q p.
Proof.
  intros HC HQ. eapply wp_abandon; [done|]. intros p' HC' HS Hp Hpot. apply HQ; try done.
  by eapply Cx_grown.
Qed.

Lemma wp_has_error_since base bs stack (Q : bool -> Parser -> Prop) p checkpoint :
  Cx inp base bs stack p -> (checkpoint <= length (events p))%nat ->
  (forall b, Q b p) -> wp B (has_error_since checkpoint) Q p.
Proof. intros _ Hc HQ. unfold wp, has_error_since. rewrite (leb_correct _ _ Hc). apply HQ. Qed.

Lemma wp_reset base bs stack (Q : unit -> Parser -> Prop) p :
  Cx inp base bs stack p ->
  (forall p', Cx inp base bs stack p' -> pos p' = pos p -> pot inp p' = pot inp p -> Q tt p') ->
  wp B reset_group_tracking Q p.
Proof.
  intros [Hi Hb He] HQ. apply wp_modify, HQ; [|done..]. constructor; [|done..].
  pose proof (inv_depths _ _ Hi). destruct Hi. constructor; simpl; try done. lia.
Qed.

Lemma wp_i32_add (Q : Z -> Parser -> Prop) p a b :
  (a + b <= I32_MAX)%Z -> Q (a + b)%Z p -> wp B (i32_add a b) Q p.
Proof. intros Hle HQ. unfold i32_add. by rewrite (proj2 (Z.leb_le _ _) Hle). Qed.

(** ** Scopes *)

Lemma wp_qwithin {A} b (m : M A) (Q : A -> Parser -> Prop) base bs stack p :
  Cx inp base bs stack p ->
  (forall p1, Cx inp base (bs ++ [b]) stack p1 -> pos p1 = pos p -> pot inp p1 = pot inp p ->
     events p1 = events p ->
     wp B m (fun a p2 => Cx inp base (bs ++ [b]) stack p2 /\
       forall p3, Cx inp base bs stack p3 -> pos p3 = pos p2 -> pot inp p3 = pot inp p2 ->
         events p3 = events p2 -> Q a p3) p1) ->
  wp B (within_boundary b m) Q p.
Proof.
  intros [Hi Hb He] HQ. unfold within_boundary. apply wp_bind, wp_modify, wp_bind.
  eapply wp_mono; [apply HQ; [|done..]|].
  - constructor; simpl; [by destruct Hi|by rewrite Hb|done].
  - intros a p2 [[Hi2 Hb2 He2] HQ2]. apply wp_bind, wp_modify, wp_ret, HQ2; [|done..].
    constructor; simpl; [by destruct Hi2| |done]. by rewrite Hb2, removelast_last.
Qed.

Lemma Cx_names base bs stack p v : Cx inp base bs stack p -> Cx inp base bs stack (set_names_are_fields v p).
Proof. intros [[] Hb He]. by constructor. Qed.

Lemma wp_qnames {A} (scope : M A -> M A) (m : M A) (Q : A -> Parser -> Prop) base bs stack p :
  scope = within_field_names \/ scope = outside_field_names ->
  Cx inp base bs stack p ->
  (forall p1, Cx inp base bs stack p1 -> pos p1 = pos p -> pot inp p1 = pot inp p ->
     events p1 = events p ->
     wp B m (fun a p2 => Cx inp base bs stack p2 /\
       forall p3, Cx inp base bs stack p3 -> pos p3 = pos p2 -> pot inp p3 = pot inp p2 ->
         events p3 = events p2 -> Q a p3) p1) ->
  wp B (scope m) Q p.
Proof.
  intros Hs HC HQ.
  destruct Hs as [-> | ->]; apply wp_bind, wp_gets, wp_bind, wp_modify, wp_bind;
    (eapply wp_mono; [apply HQ; [by apply Cx_names|done..]|]);
    intros a p2 [HC2 HQ2]; apply wp_bind, wp_modify, wp_ret, HQ2; try done; by apply Cx_names.
Qed.

(** ** Calls *)

Lemma wp_qcall {A} s e c (m : M A) Post base bs stack (Q : A -> Parser -> Prop) p :
  QSpec s e c m Post p -> Cx inp base bs stack p -> (pot inp p + s <= B)%Z ->
  (forall a p', Cx inp base bs stack p' -> Pays e c p p' -> Post p a p' -> Q a p') ->
  wp B m Q p.
Proof.
  intros Hs [Hi Hb He] Hpot HQ. eapply wp_mono; [exact (Hs Hi Hpot)|].
  intros a p' ([Hi' Hb' He'] & Hc & HP). apply HQ; [|done|done].
  constructor; [done|congruence|]. exact (Ev_trans _ _ _ _ [] He He').
Qed.

(** ** Loops *)

Lemma wp_qloop {A A'} c (body : A -> M (A + A')) (I : A -> Parser -> Prop)
    (Q : A' -> Parser -> Prop) base bs stack a p :
  Cx inp base bs stack p -> I a p ->
  (forall a q, Cx inp base bs stack q -> Pays 0 c p q -> I a q ->
     wp B (body a) (fun r p' =>
       match r with
       | inl a' => Cx inp base bs stack p' /\ Pays 0 c p p' /\ (pos q < pos p')%nat /\ I a' p'
       | inr b => Q b p'
       end) q) ->
  wp B (loop body a) Q p.
Proof.
  intros HC HI Hbody.
  apply (wp_loop inp _ _ (fun a q => Cx inp base bs stack q /\ Pays 0 c p q /\ I a q)).
  - split; [done|]. split; [by apply Pays_refl|done].
  - by intros _ q [[] _].
  - intros a' q (HCq & Hc & HIq). eapply wp_mono; [by apply Hbody|].
    intros [a2|b] p' HQ; [|done]. destruct HQ as (? & ? & ? & ?). by split_and!.
Qed.

Lemma wp_qwhile c cond (body : M unit) (Q : unit -> Parser -> Prop) base bs stack p :
  Cx inp base bs stack p ->
  (forall q, Cx inp base bs stack q -> Pays 0 c p q -> cond q = true ->
     wp B body (fun _ p' => Cx inp base bs stack p' /\ Pays 0 c p p' /\ (pos q < pos p')%nat) q) ->
  (forall q, Cx inp base bs stack q -> Pays 0 c p q -> cond q = false -> Q tt q) ->
  wp B (while_ cond body) Q p.
Proof.
  intros HC Hbody Hend. apply (wp_qloop c _ (fun _ _ => True) _ base bs stack); [done..|].
  intros [] q HCq Hc _. apply wp_bind, wp_gets. destruct (cond q) eqn:Ec; [|by apply Hend].
  apply wp_bind. eapply wp_mono; [by apply Hbody|]. intros [] p' (? & ? & ?). by split_and!.
Qed.

(** A recursive rule may rely on itself at every later position. *)
Lemma qrec_spec {A} (P : Parser -> Prop) s e c (F : M A -> M A) Post :
  (forall m p, P p -> (forall q, P q -> (pos p < pos q)%nat -> QSpec s e c m Post q) ->
     QSpec s e c (F m) Post p) ->
  forall p, P p -> QSpec s e c (rec_ out_of_fuel F id) Post p.
Proof.
  intros HF p HP Hi Hpot.
  apply (iter_spec inp F out_of_fuel (fun m q => P q -> QSpec s e c m Post q)); [|done|lia|done..].
  intros m q Hq IH HPq. apply HF; [done|]. intros r HPr Hr Hir. by apply IH.
Qed.

(** ** Consuming a token of a kind or a word *)

Lemma plain_not_sep p : Inv inp p -> at_end p = false -> at_ T![Semicolon] p = false -> plain p.
Proof.
  intros Hi He Hs. apply (at_end_false inp) in He; [|done].
  destruct (current p) as [k|] eqn:Ek; [|apply (current_none inp) in Ek; [lia|done]].
  exists k. split; [done|]. intros ->. apply at_current in Ek. congruence.
Qed.

Lemma wp_qeat base bs stack k `{PlainKind k} (Q : bool -> Parser -> Prop) p :
  Cx inp base bs stack p ->
  (at_ k p = true -> forall p', Cx inp base bs stack p' -> pos p' = S (pos p) ->
     pot inp p' = (pot inp p - 8)%Z -> seps (pos p') = seps (pos p) ->
     (length (events p) <= length (events p'))%nat -> Q true p') ->
  (at_ k p = false -> Q false p) ->
  wp B (eat k) Q p.
Proof.
  intros HC Ht Hf. unfold eat. apply wp_bind, wp_gets. destruct (at_ k p) eqn:E; [|by apply Hf].
  apply wp_bind. eapply wp_qbump; [done| |].
  - by apply (at_plain inp k p (inv_input _ _ (cx_inv _ _ _ _ _ HC))).
  - intros. by apply wp_ret, Ht.
Qed.

Lemma eat_sdbl_keyword_rule `{Consistent inp, CharCase} en ru p :
  QSpec 0 0 8 (eat_sdbl_keyword en ru) (fun p b p' => b = at_sdbl_keyword en ru p /\
    (b = true -> pos p' = S (pos p)) /\ (b = false -> p' = p)) p.
Proof.
  intros Hi Hpot. pose proof (inv_input _ _ Hi) as Hin. pose proof (Cx_start _ _ Hi) as HC.
  assert (forall word, at_keyword word p = true -> wp B (bump;; mret true) (fun b p' =>
    Cx inp (events p) (enclosing_boundaries p) [] p' /\ Pays 0 8 p p' /\
    b = true /\ pos p' = S (pos p)) p) as Htake.
  { intros word E. apply wp_bind. eapply wp_qbump; [done|exact (at_keyword_plain inp word p Hin E)|].
    intros p' HC' Hp Hq Hs He. apply wp_ret. split_and!; try done. unfold Pays. lia. }
  unfold eat_sdbl_keyword, eat_keyword, at_sdbl_keyword. apply wp_bind, wp_bind, wp_gets.
  destruct (at_keyword en p) eqn:E1; [|apply wp_ret, wp_bind, wp_gets; destruct (at_keyword ru p) eqn:E2].
  - eapply wp_mono; [by apply (Htake en)|]. intros b p' (? & ? & -> & ?). by apply wp_ret.
  - eapply wp_mono; [by apply (Htake ru)|]. intros b p' (? & ? & -> & ?). done.
  - apply wp_ret. split_and!; try done. by apply Pays_refl.
Qed.

Lemma wp_qeat_keyword `{Consistent inp, CharCase} base bs stack en ru (Q : bool -> Parser -> Prop) p :
  Cx inp base bs stack p -> (pot inp p <= B)%Z ->
  (at_sdbl_keyword en ru p = true -> forall p', Cx inp base bs stack p' -> pos p' = S (pos p) ->
     Pays 0 8 p p' -> Q true p') ->
  (at_sdbl_keyword en ru p = false -> Q false p) ->
  wp B (eat_sdbl_keyword en ru) Q p.
Proof.
  intros HC Hpot Ht Hf. eapply wp_qcall; [apply eat_sdbl_keyword_rule|done|lia|].
  intros [] p' HC' Hpay (Hb & Hpos & Heq).
  - symmetry in Hb. apply Ht; auto.
  - symmetry in Hb. specialize (Heq eq_refl). subst. by apply Hf.
Qed.

Lemma eat_sdbl_keyword__rule `{Consistent inp, CharCase} en ru p :
  QSpec 0 0 8 (eat_sdbl_keyword_ en ru) (fun p _ p' =>
    at_sdbl_keyword en ru p = true -> (pos p < pos p')%nat) p.
Proof.
  intros Hi Hpot. apply wp_bind. eapply wp_mono; [by apply eat_sdbl_keyword_rule|].
  intros b p' (HC & Hp & Hb & Ht & _). apply wp_skip. split_and!; [done..|].
  rewrite Hb in Ht. intros E. specialize (Ht E). lia.
Qed.

(** ** Errors *)

(** A rule of the other grammar's shape that does not move. *)
Lemma unmoved_rule (m : M unit) p :
  Spec inp B 0 8 m (fun _ => []) (fun p _ p' => pos p' = pos p) p ->
  QSpec 0 0 8 m (fun p _ p' => pos p' = pos p) p.
Proof.
  intros Hs Hi Hpot. eapply wp_mono; [apply Hs; [done|lia]|].
  intros [] p' (HC & (H1 & H2 & H3) & HP). split_and!; [done| |done].
  unfold Pays. rewrite HP. split_and!; try lia. by eapply Cx_grown.
Qed.

Lemma error_custom_no_bump_rule msg p :
  QSpec 0 0 8 (error_custom_no_bump msg) (fun p _ p' => pos p' = pos p) p.
Proof. apply unmoved_rule. by apply error_custom_no_bump_spec. Qed.

Lemma report_missing_name_rule msg p :
  QSpec 0 0 8 (report_missing_name msg) (fun p _ p' => pos p' = pos p) p.
Proof.
  apply unmoved_rule. intros Hi Hpot. pose proof (Cx_start _ _ Hi) as HC. apply wp_bind.
  eapply wp_start; [done|]. intros m p1 HC1 HS1 Hp1 Hq1. eapply wp_emit_error_at_marker; [by apply Cx_open|].
  intros p2 HC2 HS2 Hp2 Hq2. split_and!; [done| |congruence]. unfold Cost. lia.
Qed.

Lemma error_expected_rule k p : QSpec 0 0 8 (error_expected k) (fun p _ p' => pos p' = pos p) p.
Proof.
  apply unmoved_rule. intros Hi Hpot. pose proof (Cx_start _ _ Hi) as HC. apply wp_bind.
  eapply wp_start; [done|]. intros m p1 HC1 HS1 Hp1 Hq1. apply wp_bind, wp_gets.
  eapply wp_emit_error_at_marker; [by apply Cx_open|].
  intros p2 HC2 HS2 Hp2 Hq2. split_and!; [done| |congruence]. unfold Cost. lia.
Qed.

(** An error that recovers by taking a token never takes a separator. *)
Lemma emit_rule e p :
  recovery e = recovery_here p -> QSpec 0 0 8 (emit e) (fun p _ p' => True) p.
Proof.
  intros He Hi Hpot. pose proof (Cx_start _ _ Hi) as HC. unfold emit. rewrite He. unfold recovery_here.
  destruct (bool_decide (current p = None) || at_statement_separator p) eqn:E.
  - eapply wp_emit_missing; [done|]. intros p' HC' _ Hp Hq. split_and!; [done| |done].
    unfold Pays. rewrite Hp. split_and!; try lia. by eapply Cx_grown.
  - apply orb_false_iff in E as [En Es]. apply bool_decide_eq_false in En.
    destruct (current p) as [k|] eqn:Ek; [|done].
    assert (k <> T![Semicolon]) as Hk.
    { intros ->. unfold at_statement_separator in Es. apply at_current in Ek. by rewrite Ek in Es. }
    pose proof (current_live _ _ _ Hi Ek) as Hl.
    eapply wp_emit_error; [done..|]. intros p' HC' Hp Hq.
    assert (pos p' = S (pos p)) as E' by lia.
    split_and!; [done| |done]. unfold Pays. split_and!; try lia; [|by eapply Cx_grown].
    rewrite E'. apply (seps_S _ k); [|done]. unfold current, nth, input_kind in Ek.
    by rewrite (inv_input _ _ Hi), Nat.add_0_r in Ek.
Qed.

Lemma error_unexpected_rule p : QSpec 0 0 8 error_unexpected (fun p _ p' => True) p.
Proof. intros Hi Hpot. apply wp_bind, wp_gets. by apply emit_rule. Qed.

Lemma error_custom_rule msg p : QSpec 0 0 8 (error_custom msg) (fun p _ p' => True) p.
Proof. intros Hi Hpot. apply wp_bind, wp_gets. by apply emit_rule. Qed.

Lemma expect_rule k `{PlainKind k} p :
  QSpec 0 0 8 (expect k) (fun p b p' => b = true -> (pos p < pos p')%nat) p.
Proof.
  intros Hi Hpot. pose proof (Cx_start _ _ Hi) as HC. apply wp_bind, wp_gets, wp_bind.
  assert (wp B (err ← gets (fun p => Expected [sig_kind k] (found p) (recovery_here p));
    emit err;; mret false) (fun b p' => Cx inp (events p) (enclosing_boundaries p) [] p' /\
      Pays 0 8 p p' /\ (b = true -> (pos p < pos p')%nat)) p) as Herr.
  { apply wp_bind, wp_gets, wp_bind. eapply wp_mono; [by apply emit_rule|].
    intros [] p' (HC' & Hp & _). by apply wp_ret. }
  destruct (at_declared_boundary p); [by apply wp_ret|].
  eapply wp_qeat; [done..| |intros _; by apply Herr].
  intros _ p' HC' Hp Hq Hs Hg. apply wp_ret. split_and!; [done| |lia]. unfold Pays. lia.
Qed.

Lemma expect__rule k `{PlainKind k} p : QSpec 0 0 8 (expect_ k) (fun p _ p' => True) p.
Proof.
  intros Hi Hpot. apply wp_bind. eapply wp_mono; [by apply expect_rule|].
  intros b p' (? & ? & _). by apply wp_skip.
Qed.
End hoare.

(** ** Automation

    As in Hoare: [wp_qstep] applies the rule of the operation at the head of the goal, and a rule
    of the grammar is called by its specification in [qspecs] or the context. *)
Create HintDb qspecs discriminated.
#[export] Hint Resolve eat_sdbl_keyword__rule error_custom_no_bump_rule report_missing_name_rule
  error_expected_rule error_unexpected_rule error_custom_rule expect_rule expect__rule : qspecs.
#[export] Hint Extern 5 (_ < _)%nat => lia : qspecs.
#[export] Hint Extern 5 (_ <= _)%nat => lia : qspecs.
#[export] Hint Extern 0 (PlainKind _) => (unfold PlainKind; discriminate) : qspecs.

Ltac plain_by H := revert H; plain_parts.

Ltac wp_qfacts :=
  repeat match goal with
  | H : true = false |- _ => discriminate H
  | H : false = true |- _ => discriminate H
  | H : _ && _ = true |- _ => apply andb_true_iff in H as [? ?]
  | H : _ || _ = false |- _ => apply orb_false_iff in H as [? ?]
  | H : negb _ = true |- _ => apply negb_true_iff in H
  | H : negb _ = false |- _ => apply negb_false_iff in H
  | C : Cx ?i ?base ?bs ?st ?p |- _ =>
      have_new (pos p <= input_len i)%nat (Cx_pos i base bs st p C)
  | C : Cx ?i ?base ?bs ?st ?p |- _ =>
      have_new (input p = i) (inv_input i p (cx_inv i base bs st p C))
  | H : plain ?p, C : Cx ?i ?base ?bs ?st ?p |- _ =>
      have_new (pos p < input_len i)%nat (plain_live i p (cx_inv i base bs st p C) H)
  | H : ?f ?p = true, C : Cx ?i ?base ?bs ?st ?p |- _ =>
      lazymatch goal with
      | _ : plain p |- _ => fail
      | _ => assert (plain p) by
          (notypeclasses refine (@plain_of i f _ p (inv_input i p (cx_inv i base bs st p C)) H);
           typeclasses eauto)
      end
  | H : _ || ?f ?p = true, C : Cx ?i ?base ?bs ?st ?p |- _ =>
      lazymatch goal with
      | _ : plain p |- _ => fail
      | _ => assert (plain p) by plain_by H
      end
  | H : current ?p = Some T![?k] |- _ =>
      lazymatch goal with
      | _ : plain p |- _ => fail
      | _ => assert (plain p) by (eexists; split; [exact H|discriminate])
      end
  | H : pos ?p' = pos ?p, C : Cx ?i _ _ _ ?p' |- _ =>
      have_new (seps i (pos p') = seps i (pos p)) (f_equal (seps i) H)
  | H : pos ?p' = pos ?p, P : plain ?p, C : Cx ?i ?b1 ?s1 ?t1 ?p, C' : Cx ?i ?b2 ?s2 ?t2 ?p' |- _ =>
      have_new (plain p') (plain_same i p p' (cx_inv i b1 s1 t1 p C) (cx_inv i b2 s2 t2 p' C') H P)
  | H : ?x = true, HP : ?x = true -> (_ < _)%nat |- _ => specialize (HP H)
  | S : Same ?p ?q, H : ?f ?p = true, HP : ?f ?q = true -> (_ < _)%nat |- _ =>
      specialize (HP (eq_trans (same_ask f p q (fun _ => eq_refl) S) H))
  | H : at_end ?p = true, C : Cx ?i ?base ?bs ?st ?p |- _ =>
      have_new (pos p = input_len i)%nat (at_end_true i p (cx_inv i base bs st p C) H)
  | H : at_end ?p = false, C : Cx ?i ?base ?bs ?st ?p |- _ =>
      have_new (pos p < input_len i)%nat (at_end_false i p (cx_inv i base bs st p C) H)
  | H1 : at_end ?p = false, H2 : at_ T![Semicolon] ?p = false, C : Cx ?i ?base ?bs ?st ?p |- _ =>
      have_new (plain p) (plain_not_sep i p (cx_inv i base bs st p C) H1 H2)
  end.

Ltac pays := unfold Pays in *; lia.

Ltac wp_qpre := cbv beta; wp_qfacts.

Ltac wp_qintro_same :=
  let p := fresh "p" in let HC := fresh "HC" in let HS := fresh "HS" in
  let Hp := fresh "Hp" in let Hq := fresh "Hq" in let Hg := fresh "Hg" in
  intros p HC HS Hp Hq Hg; wp_qpre.

Ltac wp_qintro_take :=
  let p := fresh "p" in let HC := fresh "HC" in let H1 := fresh "Hpos" in
  let H2 := fresh "Hpot" in let H3 := fresh "Hsep" in let H4 := fresh "Hg" in
  intros p HC H1 H2 H3 H4; wp_qpre.

Ltac wp_qintro_pays :=
  let a := fresh "a" in let p := fresh "p" in let HC := fresh "HC" in
  let H1 := fresh "Hpos" in let H2 := fresh "Hpot" in let H3 := fresh "Hpay" in
  let H4 := fresh "Hsep" in let H5 := fresh "Hg" in let HP := fresh "HP" in
  intros a p HC (H1 & H2 & H3 & H4 & H5) HP; cbv beta in HP;
  lazymatch type of a with unit => destruct a | _ => idtac end;
  lazymatch type of HP with True => clear HP | _ => idtac end;
  wp_qpre.

Ltac wp_qintro_scope :=
  let p := fresh "p" in let HC := fresh "HC" in let Hp := fresh "Hp" in
  let Hq := fresh "Hq" in let He := fresh "He" in
  intros p HC Hp Hq He; apply (f_equal length) in He; wp_qpre.

(** A rule that moves under a condition on where it starts. *)
Ltac solve_moves :=
  intros; first [lia |
    same;
    repeat match goal with H : ?x = true, HP : ?x = true -> _ |- _ => specialize (HP H) end;
    first [lia | exfalso; congruence]].

Ltac wp_qcall := eapply wp_qcall; [solve [eauto with qspecs] | wp_cx | lia | wp_qintro_pays].

Ltac wp_qstep :=
  lazymatch goal with
  | |- wp _ (mbind _ _) _ _ => apply wp_bind
  | |- wp _ (mret _) _ _ => apply wp_ret; wp_qpre
  | |- wp _ (continue_ _) _ _ => apply wp_ret; wp_qpre
  | |- wp _ (break_ _) _ _ => apply wp_ret; wp_qpre
  | |- wp _ (gets _) _ _ => apply wp_gets; try unfold error_checkpoint; wp_qpre
  | |- wp _ skip _ _ => apply wp_skip; wp_qpre
  | |- wp _ (when _ _) _ _ => unfold when
  | |- wp _ (if ?b then _ else _) _ _ => let E := fresh "E" in destruct b eqn:E; wp_qpre
  | |- wp _ start _ _ => let m := fresh "m" in eapply wp_qstart; [wp_cx | intros m; wp_qintro_same]
  | |- wp _ (complete_ _ _) _ _ => eapply wp_qcomplete; [wp_cx | wp_qintro_same]
  | |- wp _ (abandon _) _ _ => eapply wp_qabandon; [wp_cx | wp_qintro_same]
  | |- wp _ (error_custom_at_marker _ _) _ _ =>
      eapply wp_qerror_at_marker; [wp_cx | wp_qintro_same]
  | |- wp _ check_iteration_limit _ _ => eapply wp_qcheck; [wp_cx | lia | wp_qintro_same]
  | |- wp _ bump _ _ => eapply wp_qbump; [eassumption | wp_cx | assumption | wp_qintro_take]
  | |- wp _ (has_error_since _) _ _ =>
      let b := fresh "b" in eapply wp_has_error_since; [wp_cx | lia | intros b; wp_qpre]
  | |- wp _ (i32_add _ _) _ _ => apply wp_i32_add; [first [lia | unfold I32_MAX in *; lia] | wp_qpre]
  | |- wp _ (eat _) _ _ =>
      eapply wp_qeat; [eassumption | apply _ | wp_cx
        | let E := fresh "E" in intros E; wp_qintro_take
        | let E := fresh "E" in intros E; wp_qpre]
  | |- wp _ (eat_sdbl_keyword _ _) _ _ =>
      eapply wp_qeat_keyword; [eassumption | eassumption | wp_cx | lia
        | let E := fresh "E" in let p := fresh "p" in let HC := fresh "HC" in
          let H1 := fresh "Hpos" in let H2 := fresh "Hpot" in let H3 := fresh "Hpay" in
          let H4 := fresh "Hsep" in let H5 := fresh "Hg" in
          intros E p HC ? (H1 & H2 & H3 & H4 & H5); wp_qpre
        | let E := fresh "E" in intros E; wp_qpre]
  | |- wp _ (within_boundary _ _) _ _ => eapply wp_qwithin; [wp_cx | wp_qintro_scope]
  | |- wp _ (within_field_names _) _ _ =>
      eapply (wp_qnames _ _ within_field_names); [by left | wp_cx | wp_qintro_scope]
  | |- wp _ (outside_field_names _) _ _ =>
      eapply (wp_qnames _ _ outside_field_names); [by right | wp_cx | wp_qintro_scope]
  | |- wp _ _ _ _ => wp_qcall
  | |- Cx _ _ _ _ _ /\ (forall _, _) => split; [wp_cx | wp_qintro_scope]
  | |- _ /\ _ => split
  | |- Cx _ _ _ _ _ => wp_cx
  | |- Pays _ _ _ _ _ => pays
  | |- True => exact I
  | |- (_ < _)%nat => first [lia | discriminate]
  | |- (_ <= _)%nat => lia
  | |- (_ <= _)%Z => lia
  | |- pos _ = pos _ => lia
  | |- _ = true -> _ => solve [solve_moves]
  end.

Ltac wp_qstart_rule :=
  let Hi := fresh "Hi" in let Hpot := fresh "Hslack" in
  intros Hi Hpot; pose proof (Cx_start _ _ Hi); wp_qfacts.

Ltac wp_qauto := repeat wp_qstep.

Ltac wp_qintro_turn :=
  let q := fresh "q" in let HC := fresh "HC" in let H1 := fresh "Hpos" in let H2 := fresh "Hpot" in
  let H3 := fresh "Hpay" in let H4 := fresh "Hsep" in let H5 := fresh "Hg" in
  intros q HC (H1 & H2 & H3 & H4 & H5).

(** A loop pays [c] for what it consumes. *)
Ltac wp_qwhile c :=
  let Hc := fresh "Hcond" in
  eapply (wp_qwhile _ _ c);
    [wp_cx | wp_qintro_turn; intros Hc; wp_qpre | wp_qintro_turn; intros Hc; wp_qpre].

(** [I] is what the loop keeps of its own state. *)
Ltac wp_qloop c I :=
  eapply (wp_qloop _ _ c _ I);
    [wp_cx | | let a := fresh "s" in intros a; wp_qintro_turn; let HI := fresh "HI" in intros HI; wp_qpre].
