(* ===== verification/SdblSpec.v ===== *)
(** SdblSpec: the specifications of the rules of the query grammar.

    No rule spends more checks of the iteration guard than it consumes tokens for, and none of them
    consumes a separator.  A rule that may skip a fragment may spend one check without consuming. *)
From stdpp Require Import prelude strings.
From S2P Require Import Prelude Case Kinds Tokens Input TornIf ParserCore Events Hoare Sdbl.
From S2P Require Import SdblExpressions SdblSelect SdblHoare ParserOps.

Section specs.
Context {boundary : Declared} (inp : Input) (B : Z) `{Consistent inp} `{CharCase}.
Hypothesis Hfits : (Z.of_nat (input_len inp) < 2 ^ 31)%Z.
Hypothesis Hdepths : (Z.of_nat (input_len inp) <= I32_MAX)%Z.

Abbreviation len := (input_len inp).
Abbreviation Rule s e c m Post := (QSpec inp B s e c m Post).
Abbreviation Any := (fun (_ : Parser) (_ : unit) (_ : Parser) => True).
Abbreviation Moves := (fun (p : Parser) (_ : unit) (p' : Parser) => (pos p < pos p')%nat).

(** ** Skipping *)

(** The depths count tokens the loop has consumed. *)
Definition skip_depths (s : Skip) (p : Parser) : Prop :=
  (sk_case_depth s <= Z.of_nat (pos p) /\ sk_paren_depth s <= Z.of_nat (pos p) /\
   sk_brace_depth s <= Z.of_nat (pos p))%Z.

Ltac skip_turn :=
  unfold skip_open_paren, skip_close_paren, skip_token, i32_saturating_sub, skip_depths, I32_MAX in *;
  repeat (wp_qstep; cbn [sk_case_depth sk_paren_depth sk_brace_depth] in * ); try lia.

Lemma recover_to_delimiter_rule report at_delimiter p :
  Rule 1 1 6 (recover_to_delimiter report at_delimiter) Any p.
Proof.
  wp_qstart_rule. unfold recover_to_delimiter. wp_qstep.
  apply wp_ask; [|intros has_closer _; wp_qpre; do 3 wp_qstep].
  { apply closing_paren_table_agrees. rewrite (inv_input _ _ Hi). exact Hfits. }
  wp_qloop 7%Z skip_depths; [unfold skip_depths; simpl; lia|].
  unfold recover_turn, ends_skipped_fragment. skip_turn. destruct (0 <? sk_brace_depth s)%Z; lia.
Qed.
Lemma recover_field_rule p : Rule 1 1 6 recover_field_to_alias_or_delimiter Any p.
Proof.
  wp_qstart_rule. unfold recover_field_to_alias_or_delimiter. do 3 wp_qstep.
  wp_qloop 7%Z skip_depths; [unfold skip_depths; simpl; lia|].
  unfold recover_field_turn, ends_skipped_field. skip_turn.
Qed.

Hint Resolve recover_to_delimiter_rule recover_field_rule : qspecs.

Lemma recover_expression_tail_rule checkpoint p :
  (checkpoint <= length (events p))%nat -> Rule 1 1 6 (recover_expression_tail checkpoint) Any p.
Proof. intros Hc. wp_qstart_rule. unfold recover_expression_tail. wp_qauto. Qed.

Hint Resolve recover_expression_tail_rule : qspecs.

Lemma finish_parenthesized_rule checkpoint p :
  (checkpoint <= length (events p))%nat -> Rule 1 1 6 (finish_parenthesized checkpoint) Any p.
Proof.
  intros Hc. wp_qstart_rule. unfold finish_parenthesized. wp_qauto.
Qed.

Lemma eat_name_here_rule expected p : Rule 0 0 8 (eat_name_here expected) Any p.
Proof. wp_qstart_rule. unfold eat_name_here. wp_qauto. Qed.

Hint Resolve finish_parenthesized_rule eat_name_here_rule : qspecs.

(** A list pays for its items, of which the first may spend what an item may spend; the variable
    the items assign to stays a checkpoint ([size] is the one it holds). *)
Lemma parse_delimited_list_rule {A} (size : A -> nat) e c delimiter set is_item_start item a p :
  (0 <= e <= 1)%Z -> (0 <= c <= 6)%Z -> PlainKind delimiter -> (size a <= length (events p))%nat ->
  (forall a q, (pos p <= pos q)%nat -> (size a <= length (events q))%nat ->
     Rule 2 e c (item a) (fun _ a' q' => (size a' <= length (events q'))%nat) q) ->
  Rule 2 e (c - e) (parse_delimited_list delimiter set is_item_start item a)
    (fun _ a' p' => (size a' <= length (events p'))%nat) p.
Proof.
  intros He Hc Hk Ha Hitem. wp_qstart_rule. unfold parse_delimited_list.
  do 3 wp_qstep.
  assert (forall a1 p1, Cx inp (events p) (enclosing_boundaries p) [] p1 -> Pays inp e c p p1 ->
    (size a1 <= length (events p1))%nat ->
    wp B (loop (fun a =>
      stop ← gets (is_recovery_point set);
      if (stop : bool) then break_ a
      else
      more ← eat delimiter;
      if negb more then break_ a
      else
      check_iteration_limit;;
      missing ← gets (fun p => at_ delimiter p || is_recovery_point set p || negb (is_item_start p));
      if (missing : bool) then
        report_missing_name "пропущен элемент списка";;
        again ← gets (at_ delimiter);
        if negb again then break_ a else continue_ a
      else a ← within_boundary at_comma (item a); continue_ a) a1)
    (fun a' p' => Cx inp (events p) (enclosing_boundaries p) [] p' /\ Pays inp e (c - e) p p' /\
      (size a' <= length (events p'))%nat) p1) as Hrest.
  { intros a1 p1 HC1 (Hp1 & Hq1 & Hpay1 & Hs1 & Hg1) Ha1. wp_qpre.
    wp_qloop 6%Z (fun a q => (size a <= length (events q))%nat); [done|]. wp_qauto. }
  wp_qauto; (apply Hrest; [wp_cx|pays|lia]).
Qed.

(** ** Aliases and operands *)

Lemma alias_name_rule missing aliased p :
  Rule 0 0 8 (alias_name missing aliased) (fun p _ p' =>
    at_sdbl_keyword "AS" "КАК" p = true -> (pos p < pos p')%nat) p.
Proof.
  wp_qstart_rule. unfold alias_name. wp_qauto.
Qed.

Lemma one_token_rule kind p : plain p -> Rule 0 0 8 (one_token kind) Moves p.
Proof. intros Hp. wp_qstart_rule. unfold one_token. wp_qauto. Qed.

Hint Resolve alias_name_rule one_token_rule : qspecs.

Lemma literal_expr_rule p : plain p -> Rule 0 0 8 literal_expr Moves p.
Proof.
  intros Hp. wp_qstart_rule. unfold literal_expr, string_literal_or_multi. wp_qauto.
  wp_qloop 8%Z (fun (_ : nat) (_ : Parser) => True); [done|]. wp_qauto.
Qed.

Lemma member_path_rule p : Rule 2 0 6 member_path Any p.
Proof.
  wp_qstart_rule. unfold member_path, eat_qualifying_dot. wp_qloop 6%Z (fun (_ : unit) (_ : Parser) => True); [done|].
  wp_qauto.
Qed.

(** What a chain says when it breaks off consumes nothing. *)
Lemma name_components_rule stopped p :
  (forall q, Rule 0 0 8 stopped (fun p _ p' => pos p' = pos p) q) ->
  Rule 2 0 6 (name_components stopped) Any p.
Proof.
  intros Hs. wp_qstart_rule. unfold name_components, eat_qualifying_dot.
  wp_qloop 6%Z (fun (_ : unit) (_ : Parser) => True); [done|]. wp_qauto.
Qed.

Hint Resolve literal_expr_rule member_path_rule : qspecs.

Lemma parse_cast_type_rule p : Rule 2 1 6 parse_cast_type Any p.
Proof.
  wp_qstart_rule. unfold parse_cast_type.
  assert (forall q, Rule 0 0 8 (property ← gets at_property_name;
    if (property : bool) then report_missing_name "ожидалось имя объекта после '.'"
    else error_expected T![Ident]) (fun p _ p' => pos p' = pos p) q) as Hstop.
  { intros q. wp_qstart_rule. wp_qauto. }
  pose proof (fun q => name_components_rule _ q Hstop) as Hname. clear Hstop.
  wp_qauto.
Qed.

Hint Resolve parse_cast_type_rule : qspecs.

(** ** The rules around [expression] and [subquery]

    Both may be relied on from the position [n] on, which is behind the position the rules that
    consume a token first start at. *)
Section rules.
Context (n : nat) (k : Rules).

(** An expression that may start here consumes, but for the words its callers take. *)
Definition starts (p : Parser) (_ : unit) (p' : Parser) : Prop :=
  is_expression_start p = true -> at_the_alias_separator p = false ->
  at_a_list_separator p = false -> (pos p < pos p')%nat.

Definition selects (p : Parser) (_ : unit) (p' : Parser) : Prop :=
  at_sdbl_keyword "SELECT" "ВЫБРАТЬ" p = true -> (pos p < pos p')%nat.

Hypothesis Hexpression : forall q, (n <= pos q)%nat -> Rule 2 0 6 (expression_rule k) starts q.
Hypothesis Hsubquery : forall q, (n <= pos q)%nat -> Rule 2 0 6 (subquery_rule k) selects q.

Lemma asterisk_field_rule p : Rule 0 0 8 asterisk_field Any p.
Proof.
  wp_qstart_rule. unfold asterisk_field. do 3 wp_qstep. wp_qwhile 8%Z; [|wp_qauto].
  do 2 wp_qstep.
  assert (plain p1) as Hdot.
  { exists T![Dot]. split; [|discriminate]. eapply (nth_bumped inp 0); [apply HC0|apply HC1|done|].
    by eapply bool_decide_eq_true. }
  wp_qfacts. wp_qauto.
Qed.

Hint Resolve asterisk_field_rule : qspecs.

Lemma selected_field_rule p : (n <= pos p)%nat -> Rule 2 1 5 (selected_field k) Any p.
Proof. intros Hn. wp_qstart_rule. unfold selected_field, selected_field_alias. wp_qauto. Qed.

Lemma selected_fields_rule p : (n <= pos p)%nat -> Rule 2 1 4 (selected_fields k) Any p.
Proof.
  intros Hn. wp_qstart_rule. unfold selected_fields.
  assert (forall q, (pos p <= pos q)%nat -> Rule 2 1 4 (parse_delimited_list T![Comma] LIST_RECOVERY
    is_field_start (fun _ => selected_field k) tt) (fun _ _ p' => (0 <= length (events p'))%nat) q) as Hlist.
  { intros q Hq. apply (parse_delimited_list_rule (fun _ => 0%nat) 1 5); try done; try lia.
    intros [] r Hr _. intros Hi' Hpot'. eapply wp_mono; [by apply selected_field_rule; [lia|..]|].
    intros [] r' (? & ? & _). split_and!; [done..|lia]. }
  wp_qauto.
Qed.

Hint Resolve selected_fields_rule : qspecs.

Lemma inline_table_fields_rule p :
  (n <= S (pos p))%nat -> plain p -> Rule 2 0 6 (inline_table_fields k) Any p.
Proof. intros Hn Hp. wp_qstart_rule. unfold inline_table_fields. wp_qauto. Qed.

Hint Resolve inline_table_fields_rule : qspecs.

(** *** Columns and calls *)

Lemma column_chain_rule p : (n <= S (pos p))%nat -> Rule 2 0 6 (column_chain k) Any p.
Proof.
  intros Hn. wp_qstart_rule. unfold column_chain, eat_qualifying_dot.
  wp_qloop 6%Z (fun (_ : unit) (_ : Parser) => True); [done|]. wp_qauto.
Qed.

Lemma recover_argument_rule checkpoint p :
  (checkpoint <= length (events p))%nat -> Rule 1 1 6 (recover_argument checkpoint) Any p.
Proof. intros Hc. wp_qstart_rule. unfold recover_argument. wp_qauto. Qed.

Hint Resolve column_chain_rule recover_argument_rule : qspecs.

Lemma first_argument_rule is_cast checkpoint p :
  (n <= pos p)%nat -> (checkpoint <= length (events p))%nat ->
  Rule 2 1 5 (first_argument k is_cast checkpoint) Any p.
Proof. intros Hn Hc. wp_qstart_rule. unfold first_argument. wp_qauto. Qed.

Lemma more_arguments_rule checkpoint p :
  (n <= pos p)%nat -> (checkpoint <= length (events p))%nat ->
  Rule 2 0 6 (more_arguments k checkpoint) (fun _ c p' => (c <= length (events p'))%nat) p.
Proof.
  intros Hn Hc. wp_qstart_rule. unfold more_arguments.
  wp_qloop 6%Z (fun c q => (c <= length (events q))%nat); [done|]. wp_qauto.
Qed.

Hint Resolve first_argument_rule more_arguments_rule : qspecs.

Lemma column_or_function_rule p :
  (n <= S (pos p))%nat -> plain p -> Rule 2 0 6 (column_or_function k) Moves p.
Proof. intros Hn Hp. wp_qstart_rule. unfold column_or_function. wp_qauto. Qed.

Hint Resolve column_or_function_rule : qspecs.

(** *** Parentheses and [ВЫБОР] *)

Lemma tuple_items_rule checkpoint p :
  (n <= S (pos p))%nat -> (checkpoint <= length (events p))%nat ->
  Rule 2 0 6 (tuple_items k checkpoint) (fun _ c p' => (c <= length (events p'))%nat) p.
Proof.
  intros Hn Hc. wp_qstart_rule. unfold tuple_items.
  wp_qloop 6%Z (fun c q => (c <= length (events q))%nat); [done|]. wp_qauto.
Qed.

Hint Resolve tuple_items_rule member_path_rule : qspecs.

Lemma paren_or_subquery_expr_rule p :
  (n <= S (pos p))%nat -> plain p -> Rule 2 0 6 (paren_or_subquery_expr k) Moves p.
Proof. intros Hn Hp. wp_qstart_rule. unfold paren_or_subquery_expr. wp_qauto. Qed.

Lemma when_clause_rule p : (n <= S (pos p))%nat -> plain p -> Rule 2 0 6 (when_clause k) Moves p.
Proof. intros Hn Hp. wp_qstart_rule. unfold when_clause. wp_qauto. Qed.

Hint Resolve paren_or_subquery_expr_rule when_clause_rule : qspecs.

Lemma when_clauses_rule p : (n <= S (pos p))%nat -> Rule 2 0 6 (when_clauses k) (fun _ _ _ => True) p.
Proof.
  intros Hn. wp_qstart_rule. unfold when_clauses.
  wp_qloop 6%Z (fun (_ : bool) (_ : Parser) => True); [done|]. wp_qauto.
Qed.

Hint Resolve when_clauses_rule : qspecs.

Lemma case_expr_rule p : (n <= S (pos p))%nat -> plain p -> Rule 2 0 6 (case_expr k) Moves p.
Proof. intros Hn Hp. wp_qstart_rule. unfold case_expr. wp_qauto. Qed.

Hint Resolve case_expr_rule : qspecs.

(** *** Levels of operators *)

(** Where [primary_expr] takes nothing, no expression starts. *)
Lemma starts_nowhere p :
  at_a_keyword_qualifier p = false -> at_sdbl_keyword "CASE" "ВЫБОР" p = false ->
  at_keyword "NULL" p = false -> at_unary_operator p = false ->
  match current p with
  | Some T![Decimal] | Some T![Float] | Some T![String] | Some T![Date] | Some T![KwTrue]
  | Some T![KwFalse] | Some T![KwUndefined] | Some T![Ident] | Some T![Star] | Some T![LParen]
  | Some T![Ampersand] => False
  | _ => True
  end -> is_expression_start p = false.
Proof.
  intros Hq Hc Hn Hu Hk. apply orb_false_iff in Hc as [Hc1 Hc2]. revert Hu.
  unfold is_expression_start, at_unary_operator. rewrite Hq, Hc1, Hc2, Hn.
  by destruct (current p) as [[[]]|].
Qed.

(** A name that is refused as a field here starts no expression. *)
Lemma starts_no_field p :
  current p = Some T![Ident] -> at_a_keyword_qualifier p = false ->
  ((0 <? open_group_count p)%Z || negb (at_query_boundary p)) &&
    negb (at_a_keyword_that_cannot_be_a_field p) = false ->
  at_a_list_separator p = false -> is_expression_start p = false.
Proof.
  intros Hk Hq Hc Hby. revert Hc. unfold is_expression_start, at_a_keyword_that_cannot_be_a_field.
  rewrite Hk, Hq, Hby. destruct (is_clause_keyword p), (at_query_boundary p); simpl; try done.
  by rewrite orb_true_r, andb_false_r.
Qed.

Lemma primary_expr_rule p :
  (n <= S (pos p))%nat -> Rule 2 0 6 (primary_expr k) (fun p a p' =>
    at_unary_operator p = false -> starts p a p') p.
Proof.
  intros Hn. wp_qstart_rule. unfold primary_expr, parameter_expr. do 12 wp_qstep.
  assert (forall q, (pos p < pos q)%nat -> at_unary_operator p = false -> starts p () q) as Hmove.
  { by intros q Hq ????. }
  wp_qauto; try (apply Hmove; lia).
  { intros _ _ Has. unfold at_the_alias_separator in Has. congruence. }
  pose proof (starts_no_field p) as Hfield. pose proof (starts_nowhere p) as Hno.
  destruct (current p) as [[[]]|] eqn:Ek; wp_qpre; wp_qauto; try (apply Hmove; lia);
    intros Hu Hs Has Hby; exfalso; first [by rewrite Hno in Hs|by rewrite Hfield in Hs].
Qed.

Hint Resolve primary_expr_rule : qspecs.

Lemma starts_moved p r a : (pos p < pos r)%nat -> starts p a r.
Proof. by intros Hp ???. Qed.

(** A rule whose operand starts where it starts. *)
Lemma starts_from p q r r' a :
  Same p q -> starts q a r -> pos q = pos p -> (pos r <= pos r')%nat -> starts p a r'.
Proof.
  intros HS Hs Hp Hr Hx Ha Hb. specialize (Hs ltac:(by same) ltac:(by same) ltac:(by same)). lia.
Qed.

Ltac solve_starts :=
  first [apply starts_moved; lia | eapply starts_from; [eassumption|eassumption|lia|lia]].

#[local] Instance at_unary_operator_plain : Plain inp at_unary_operator.
Proof. solve_plain. Qed.

Lemma unary_expr_rule p : (n <= S (pos p))%nat -> Rule 2 0 6 (unary_expr k) starts p.
Proof.
  revert p. apply qrec_spec. intros m p Hn Hm. wp_qstart_rule. wp_qauto; [solve_starts|].
  by apply HP.
Qed.

Section level.
Context (operand : M unit).
Hypothesis Hoperand : forall q, (n <= S (pos q))%nat -> Rule 2 0 6 operand starts q.

Lemma operator_level_rule operator kind p :
  Plain inp operator -> (n <= S (pos p))%nat ->
  Rule 2 0 6 (operator_level operator operand kind) starts p.
Proof.
  intros Ho Hn. wp_qstart_rule. unfold operator_level. wp_qauto.
  wp_qwhile 6%Z; wp_qauto. solve_starts.
Qed.
End level.

#[local] Instance at_multiplicative_plain : Plain inp at_multiplicative.
Proof. solve_plain. Qed.

#[local] Instance at_additive_plain : Plain inp at_additive.
Proof. solve_plain. Qed.

#[local] Instance at_comparison_plain : Plain inp at_comparison.
Proof. solve_plain. Qed.

Lemma multiplicative_expr_rule p : (n <= S (pos p))%nat -> Rule 2 0 6 (multiplicative_expr k) starts p.
Proof. apply operator_level_rule; [exact unary_expr_rule|apply _]. Qed.

Lemma additive_expr_rule p : (n <= S (pos p))%nat -> Rule 2 0 6 (additive_expr k) starts p.
Proof. apply operator_level_rule; [exact multiplicative_expr_rule|apply _]. Qed.

Hint Resolve additive_expr_rule : qspecs.

(** *** Predicates *)

Lemma in_operand_rule checkpoint p :
  (n <= pos p)%nat -> (checkpoint <= length (events p))%nat -> Rule 2 1 5 (in_operand k checkpoint) Any p.
Proof.
  intros Hn Hc. wp_qstart_rule. unfold in_operand.
  assert (forall q, (pos p <= pos q)%nat -> (checkpoint <= length (events q))%nat ->
    Rule 2 0 6 (parse_delimited_list T![Comma] LIST_RECOVERY is_expression_start
       (fun _ => checkpoint ← gets error_checkpoint; expression_rule k;; mret checkpoint) checkpoint)
      (fun _ c p' => (c <= length (events p'))%nat) q) as Hlist.
  { intros q Hq Hcq. apply (parse_delimited_list_rule id 0 6); try done; try lia.
    intros a r Hr _. wp_qstart_rule. unfold id. wp_qauto. }
  wp_qauto.
Qed.

Hint Resolve in_operand_rule : qspecs.

Lemma name_components_silent p : Rule 2 0 6 (name_components
  (property ← gets at_property_name;
   when property (report_missing_name "ожидалось имя объекта после '.'"))) Any p.
Proof. apply name_components_rule. intros q. wp_qstart_rule. wp_qauto. Qed.

Lemma predicate_expr_rule p : (n <= S (pos p))%nat -> Rule 2 0 6 (predicate_expr k) starts p.
Proof.
  intros Hn. wp_qstart_rule. unfold predicate_expr, predicate_tail, in_rule, refs_rule.
  pose proof name_components_silent. wp_qauto; solve_starts.
Qed.

Hint Resolve predicate_expr_rule : qspecs.

Lemma not_expr_rule p : (n <= S (pos p))%nat -> Rule 2 0 6 (not_expr k) starts p.
Proof.
  revert p. apply qrec_spec. intros m p Hn Hm. wp_qstart_rule. unfold comparison_expr.
  wp_qauto; [solve_starts|done].
Qed.

Lemma logical_and_expr_rule p : (n <= S (pos p))%nat -> Rule 2 0 6 (logical_and_expr k) starts p.
Proof. apply operator_level_rule; [exact not_expr_rule|apply _]. Qed.

Lemma logical_or_expr_rule p : (n <= S (pos p))%nat -> Rule 2 0 6 (logical_or_expr k) starts p.
Proof. apply operator_level_rule; [exact logical_and_expr_rule|apply _]. Qed.
End rules.
End specs.
