(* ===== verification/SdblSelectSpec.v ===== *)
(** SdblSelectSpec: the specifications of the sources, clauses and queries of SdblSelect, and of the
    rules tied together. *)
From stdpp Require Import prelude strings.
From S2P Require Import Prelude Case Kinds Tokens Input TornIf ParserCore Events Hoare Sdbl.
From S2P Require Import SdblExpressions SdblSelect SdblHoare SdblSpec.

#[export] Hint Resolve recover_to_delimiter_rule recover_field_rule recover_expression_tail_rule
  finish_parenthesized_rule eat_name_here_rule alias_name_rule one_token_rule literal_expr_rule
  member_path_rule parse_cast_type_rule selected_fields_rule : qspecs.

Section specs.
Context {boundary : Declared} (inp : Input) (B : Z) `{Consistent inp} `{CharCase}.
Hypothesis Hfits : (Z.of_nat (input_len inp) < 2 ^ 31)%Z.
Hypothesis Hdepths : (Z.of_nat (input_len inp) <= I32_MAX)%Z.

Abbreviation len := (input_len inp).
Abbreviation Rule s e c m Post := (QSpec inp B s e c m Post).
Abbreviation Any := (fun (_ : Parser) (_ : unit) (_ : Parser) => True).
Abbreviation Moves := (fun (p : Parser) (_ : unit) (p' : Parser) => (pos p < pos p')%nat).
Abbreviation MovesAt f := (fun (p : Parser) (_ : unit) (p' : Parser) => f p = true -> (pos p < pos p')%nat).

(** ** Extensions *)

Lemma query_extension_rule p : plain p -> Rule 2 0 7 query_extension Moves p.
Proof.
  intros Hp. wp_qstart_rule. unfold query_extension. do 5 wp_qstep.
  wp_qloop 7%Z (fun (depth : Z) q => (depth <= Z.of_nat (pos q))%Z); [cbv beta; lia|].
  unfold extension_turn. wp_qauto.
Qed.

Hint Resolve query_extension_rule : qspecs.

Lemma eat_query_extensions_rule p : Rule 2 0 7 eat_query_extensions Any p.
Proof. wp_qstart_rule. unfold eat_query_extensions. wp_qwhile 7%Z; wp_qauto. Qed.

Hint Resolve eat_query_extensions_rule : qspecs.

(** ** Clauses without expressions *)

Lemma report_the_component_rule p :
  Rule 0 0 8 report_the_component_the_dot_promised (fun p _ p' => pos p' = pos p) p.
Proof. wp_qstart_rule. unfold report_the_component_the_dot_promised. wp_qauto. Qed.

Hint Resolve report_the_component_rule : qspecs.

Lemma top_clause_rule p : Rule 0 0 8 top_clause (MovesAt (at_sdbl_keyword "TOP" "ПЕРВЫЕ")) p.
Proof. wp_qstart_rule. unfold top_clause. wp_qauto. Qed.

Hint Resolve top_clause_rule : qspecs.

Lemma limitations_rule p : Rule 2 0 8 limitations Any p.
Proof.
  wp_qstart_rule. unfold limitations. do 3 wp_qstep. wp_qwhile 8%Z; [|wp_qauto].
  unfold is_limitation_keyword in Hcond. wp_qauto.
Qed.

Lemma into_clause_rule p : Rule 0 0 8 into_clause Any p.
Proof. wp_qstart_rule. unfold into_clause. wp_qauto. Qed.

Lemma autoorder_clause_rule p :
  Rule 0 0 8 autoorder_clause (MovesAt (at_sdbl_keyword "AUTOORDER" "АВТОУПОРЯДОЧИВАНИЕ")) p.
Proof. wp_qstart_rule. unfold autoorder_clause. wp_qauto. Qed.

Lemma for_update_clause_rule p : Rule 2 0 6 for_update_clause Any p.
Proof.
  wp_qstart_rule. unfold for_update_clause.
  assert (forall q, Rule 2 0 6 (name_components
    (silent ← gets (fun p => at_end p || at_error p);
     when (negb silent) report_the_component_the_dot_promised)) Any q) as Hname.
  { intros q. apply name_components_rule; [done|]. intros r. wp_qstart_rule. wp_qauto. }
  wp_qauto.
Qed.

Hint Resolve limitations_rule into_clause_rule autoorder_clause_rule for_update_clause_rule : qspecs.

(** A rule whose query starts where it starts. *)
Lemma selects_from p q r r' :
  Inv inp p -> Inv inp q -> pos q = pos p -> selects q tt r -> (pos r <= pos r')%nat -> selects p tt r'.
Proof.
  intros Hp Hq E Hs Hle Hx. rewrite (at_sdbl_keyword_same inp _ _ p q) in Hx by done.
  specialize (Hs Hx). lia.
Qed.

Ltac solve_selects :=
  match goal with
  | C : Cx _ _ _ _ ?q, HP : selects ?q () _, Hi : Inv _ ?p |- selects ?p () _ =>
      apply (selects_from p q _ _ Hi (cx_inv _ _ _ _ _ C) ltac:(lia) HP); lia
  end.

(** ** The rules around [expression] and [subquery] *)
Section rules.
Context (n : nat) (k : Rules).

Hypothesis Hexpression : forall q, (n <= pos q)%nat -> Rule 2 0 6 (expression_rule k) starts q.
Hypothesis Hsubquery : forall q, (n <= pos q)%nat -> Rule 2 0 6 (subquery_rule k) selects q.

(** *** Sources *)

Lemma missing_arg_rule p : Rule 0 0 8 missing_arg Any p.
Proof. wp_qstart_rule. unfold missing_arg. wp_qauto. Qed.

Lemma table_argument_rule p : (n <= pos p)%nat -> Rule 2 1 5 (table_argument k) Any p.
Proof. intros Hn. wp_qstart_rule. unfold table_argument. wp_qauto. Qed.

Hint Resolve missing_arg_rule table_argument_rule : qspecs.

Lemma more_table_arguments_rule p : (n <= pos p)%nat -> Rule 2 0 6 (more_table_arguments k) Any p.
Proof.
  intros Hn. wp_qstart_rule. unfold more_table_arguments.
  wp_qloop 6%Z (fun (_ : unit) (_ : Parser) => True); [done|]. wp_qauto.
Qed.

Hint Resolve more_table_arguments_rule : qspecs.

Lemma virtual_table_args_body_rule p : (n <= pos p)%nat -> Rule 3 1 4 (virtual_table_args_body k) Any p.
Proof. intros Hn. wp_qstart_rule. unfold virtual_table_args_body. wp_qauto. Qed.

Hint Resolve virtual_table_args_body_rule : qspecs.

Lemma virtual_table_args_rule p : (n <= S (pos p))%nat -> Rule 2 0 6 (virtual_table_args k) Any p.
Proof. intros Hn. wp_qstart_rule. unfold virtual_table_args. wp_qauto. Qed.

Lemma table_components_rule p : Rule 2 0 6 table_components Any p.
Proof.
  wp_qstart_rule. unfold table_components.
  wp_qloop 6%Z (fun (_ : unit) (_ : Parser) => True); [done|]. wp_qauto.
Qed.

Hint Resolve virtual_table_args_rule table_components_rule : qspecs.

Lemma table_ref_rule p : (n <= S (pos p))%nat -> Rule 2 0 6 (table_ref k) (fun _ _ _ => True) p.
Proof. intros Hn. wp_qstart_rule. unfold table_ref. wp_qauto. Qed.

Lemma source_alias_rule named p : Rule 0 0 8 (source_alias named) Any p.
Proof. wp_qstart_rule. unfold source_alias. wp_qauto. Qed.

Hint Resolve table_ref_rule source_alias_rule : qspecs.

#[local] Instance has_join_type_plain : Plain inp has_join_type.
Proof. solve_plain. Qed.

Lemma is_join_keyword_split p :
  is_join_keyword p = has_join_type p || at_sdbl_keyword "JOIN" "СОЕДИНЕНИЕ" p.
Proof. unfold is_join_keyword, has_join_type, at_sdbl_keyword. by rewrite !orb_assoc. Qed.

Lemma join_clause_rule data_source p :
  (n <= S (pos p))%nat -> plain p -> is_join_keyword p = true ->
  (forall q, (pos p < pos q)%nat -> Rule 2 0 6 data_source Any q) ->
  Rule 2 0 6 (join_clause k data_source) Moves p.
Proof.
  intros Hn Hp Hj Hs. wp_qstart_rule. rewrite is_join_keyword_split in Hj.
  unfold join_clause. wp_qauto.
  exfalso. revert Hj. same. by rewrite E, E1.
Qed.

Lemma data_source_rule p : (n <= S (pos p))%nat -> Rule 2 0 6 (data_source k) Any p.
Proof.
  revert p. apply qrec_spec. intros m p Hn Hm. wp_qstart_rule. unfold data_source_body.
  assert (forall q, (pos p <= pos q)%nat -> plain q -> is_join_keyword q = true ->
    Rule 2 0 6 (join_clause k m) Moves q) as Hjoin.
  { intros q Hq Hp Hj. apply join_clause_rule; [lia|done..|]. intros r Hr. apply Hm; lia. }
  wp_qauto; (wp_qwhile 6%Z; wp_qauto).
Qed.

Lemma from_clause_rule p : (n <= S (pos p))%nat -> Rule 2 0 6 (from_clause k) Any p.
Proof.
  intros Hn. wp_qstart_rule. unfold from_clause.
  assert (forall q, (pos p <= pos q)%nat -> Rule 2 0 6 (parse_delimited_list T![Comma] LIST_RECOVERY
    is_data_source_start (fun _ => data_source k) tt) (fun _ _ p' => (0 <= length (events p'))%nat) q)
    as Hlist.
  { intros q Hq. eapply (parse_delimited_list_rule inp B Hfits (fun _ => 0%nat) 0 6); try done; try lia.
    intros [] r Hr _. intros Hi' Hpot'. eapply wp_mono; [apply data_source_rule; [lia|done..]|].
    intros [] r' (? & ? & _). split_and!; [done..|lia]. }
  wp_qauto.
Qed.

Hint Resolve from_clause_rule : qspecs.

(** *** Clauses *)

Lemma where_clause_rule p :
  (n <= S (pos p))%nat -> at_sdbl_keyword "WHERE" "ГДЕ" p = true -> Rule 2 0 6 (where_clause k) Any p.
Proof. intros Hn Hw. wp_qstart_rule. unfold where_clause. wp_qauto. Qed.

Lemma having_clause_rule p :
  (n <= S (pos p))%nat -> at_sdbl_keyword "HAVING" "ИМЕЮЩИЕ" p = true ->
  Rule 2 0 6 (having_clause k) Any p.
Proof. intros Hn Hw. wp_qstart_rule. unfold having_clause. wp_qauto. Qed.

Lemma comma_items_rule item p :
  (n <= pos p)%nat -> (forall q, (n <= pos q)%nat -> Rule 2 0 5 item Any q) ->
  Rule 2 0 5 (comma_items item) Any p.
Proof.
  intros Hn Hitem. wp_qstart_rule. unfold comma_items. wp_qauto.
  wp_qloop 6%Z (fun (_ : unit) (_ : Parser) => True); [done|]. wp_qauto.
Qed.

Hint Resolve where_clause_rule having_clause_rule comma_items_rule : qspecs.

Lemma keyed_clause_rule en ru item kind p :
  (n <= S (pos p))%nat -> (forall q, (n <= pos q)%nat -> Rule 2 0 5 item Any q) ->
  Rule 2 0 5 (keyed_clause en ru item kind) (MovesAt (at_sdbl_keyword en ru)) p.
Proof. intros Hn Hitem. wp_qstart_rule. unfold keyed_clause. wp_qauto. Qed.

Lemma expression_item q : (n <= pos q)%nat -> Rule 2 0 5 (expression_rule k) Any q.
Proof. intros Hn. wp_qstart_rule. wp_qauto. Qed.

Lemma eat_order_direction_rule p : Rule 0 0 8 eat_order_direction (fun _ _ _ => True) p.
Proof. wp_qstart_rule. unfold eat_order_direction. wp_qauto. Qed.

Hint Resolve eat_order_direction_rule : qspecs.

Lemma order_by_item_rule q : (n <= pos q)%nat -> Rule 2 0 5 (order_by_item k) Any q.
Proof. intros Hn. wp_qstart_rule. unfold order_by_item. wp_qauto. Qed.

Hint Resolve order_by_item_rule : qspecs.

Lemma group_by_clause_rule p :
  (n <= S (pos p))%nat ->
  Rule 2 0 5 (group_by_clause k) (MovesAt (at_sdbl_keyword "GROUP" "СГРУППИРОВАТЬ")) p.
Proof. intros Hn. apply keyed_clause_rule; [done|exact expression_item]. Qed.

Lemma index_by_clause_rule p :
  (n <= S (pos p))%nat ->
  Rule 2 0 5 (index_by_clause k) (MovesAt (at_sdbl_keyword "INDEX" "ИНДЕКСИРОВАТЬ")) p.
Proof. intros Hn. apply keyed_clause_rule; [done|exact expression_item]. Qed.

Lemma order_by_clause_rule p :
  (n <= S (pos p))%nat ->
  Rule 2 0 5 (order_by_clause k) (MovesAt (at_sdbl_keyword "ORDER" "УПОРЯДОЧИТЬ")) p.
Proof. intros Hn. apply keyed_clause_rule; [done|exact order_by_item_rule]. Qed.

Hint Resolve group_by_clause_rule index_by_clause_rule order_by_clause_rule : qspecs.

(** *** Totals *)

#[local] Instance at_period_name_plain : Plain inp at_period_name.
Proof.
  intros p Hp [[en ru] [_ E]]%existsb_exists. exact (at_sdbl_keyword_plain inp en ru p Hp E).
Qed.

#[local] Instance at_periods_keyword_plain : Plain inp at_periods_keyword.
Proof. solve_plain. Qed.

Lemma period_boundaries_rule p : (n <= S (pos p))%nat -> Rule 2 0 6 (period_boundaries k) Any p.
Proof. intros Hn. wp_qstart_rule. unfold period_boundaries. wp_qwhile 6%Z; wp_qauto. Qed.

Hint Resolve period_boundaries_rule : qspecs.

Lemma totals_periods_modifier_rule p :
  (n <= S (pos p))%nat -> plain p -> Rule 2 0 6 (totals_periods_modifier k) Any p.
Proof. intros Hn Hp. wp_qstart_rule. unfold totals_periods_modifier. wp_qauto. Qed.

Hint Resolve totals_periods_modifier_rule : qspecs.

Lemma totals_group_modifier_rule p :
  (n <= S (pos p))%nat -> Rule 2 0 6 (totals_group_modifier k) Any p.
Proof. intros Hn. wp_qstart_rule. unfold totals_group_modifier. wp_qauto. Qed.

Lemma totals_group_alias_rule p : Rule 0 0 8 totals_group_alias Any p.
Proof. wp_qstart_rule. unfold totals_group_alias. wp_qauto. Qed.

Hint Resolve totals_group_modifier_rule totals_group_alias_rule : qspecs.

Lemma totals_group_item_rule p : (n <= pos p)%nat -> Rule 2 0 5 (totals_group_item k) Any p.
Proof. intros Hn. wp_qstart_rule. unfold totals_group_item. wp_qauto. Qed.

Hint Resolve totals_group_item_rule : qspecs.

(** The questions of the totals depend on the position only. *)
Lemma starts_at p q :
  Inv inp p -> Inv inp q -> pos p = pos q ->
  is_expression_start p = is_expression_start q /\
  at_the_alias_separator p = at_the_alias_separator q /\
  at_a_list_separator p = at_a_list_separator q.
Proof. intros [Hp] [Hq] E. destruct p, q; simpl in *. subst. done. Qed.

Lemma starts_or_alias p0 p1 p2 p3 :
  Inv inp p0 -> Inv inp p1 -> Inv inp p2 -> Inv inp p3 -> pos p1 = pos p0 -> pos p3 = pos p2 ->
  starts p1 tt p2 -> (pos p1 <= pos p2)%nat ->
  is_expression_start p0 = true -> at_sdbl_keyword "BY" "ПО" p0 = false ->
  (pos p0 < pos p3)%nat \/ at_sdbl_keyword "AS" "КАК" p3 = true.
Proof.
  intros H0' H1 H2 H3 E1 E3 Hs Hle Hx Hby. destruct (starts_at p1 p0 H1 H0' E1) as (Ex & Ea & Eb).
  apply orb_false_iff in Hby as [Hby _].
  destruct (at_the_alias_separator p0) eqn:Has.
  - destruct (decide (pos p3 = pos p0)) as [E|]; [|left; lia].
    right. destruct (starts_at p3 p0 H3 H0' E) as (_ & Eq & _).
    unfold at_the_alias_separator in *. congruence.
  - left. rewrite <- E1, E3. apply Hs; unfold at_a_list_separator in *; congruence.
Qed.

Lemma totals_fields_rule p : (n <= pos p)%nat -> Rule 3 1 4 (totals_fields k) Any p.
Proof.
  intros Hn. wp_qstart_rule. unfold totals_fields.
  wp_qloop 5%Z (fun (_ : unit) (_ : Parser) => True); [done|].
  wp_qauto;
    match goal with
    | Hs : starts ?p1 () ?p2, E : is_expression_start ?p0 = true, Hp : pos ?p3 = pos ?p2,
      C0 : Cx _ _ _ _ ?p0, C1 : Cx _ _ _ _ ?p1, C2 : Cx _ _ _ _ ?p2, C3 : Cx _ _ _ _ ?p3 |- _ =>
        pose proof (starts_or_alias p0 p1 p2 p3 (cx_inv _ _ _ _ _ C0) (cx_inv _ _ _ _ _ C1)
          (cx_inv _ _ _ _ _ C2) (cx_inv _ _ _ _ _ C3) ltac:(lia) Hp Hs ltac:(lia) E ltac:(assumption))
          as [?|?]
    end; wp_qfacts; first [lia | pays | congruence].
Qed.

Hint Resolve totals_fields_rule : qspecs.

Lemma totals_by_clause_rule p :
  (n <= S (pos p))%nat -> at_sdbl_keyword "TOTALS" "ИТОГИ" p = true ->
  Rule 2 0 5 (totals_by_clause k) Moves p.
Proof. intros Hn Ht. wp_qstart_rule. unfold totals_by_clause. wp_qauto. Qed.

Hint Resolve totals_by_clause_rule : qspecs.

(** *** Queries *)

Lemma optional_clause_rule c en ru clause p :
  (5 <= c)%Z -> (n <= S (pos p))%nat ->
  (forall q, (n <= S (pos q))%nat -> at_sdbl_keyword en ru q = true -> Rule 2 0 c clause Any q) ->
  Rule 2 0 5 (optional_clause en ru clause) Any p.
Proof. intros Hc Hn Hclause. wp_qstart_rule. unfold optional_clause. wp_qauto. Qed.

(** A rule's postcondition is not needed. *)
Lemma any_rule c (m : M unit) Post p : Rule 2 0 c m Post p -> Rule 2 0 c m Any p.
Proof. intros Hm Hi Hpot. eapply wp_mono; [by apply Hm|]. intros a p' (? & ? & _). done. Qed.

Lemma query_body_clauses_rule p : (n <= S (pos p))%nat -> Rule 2 0 5 (query_body_clauses k) Any p.
Proof.
  intros Hn. wp_qstart_rule. unfold query_body_clauses.
  assert (forall c en ru clause q, (n <= S (pos q))%nat -> (5 <= c)%Z ->
    (forall q, (n <= S (pos q))%nat -> at_sdbl_keyword en ru q = true -> Rule 2 0 c clause Any q) ->
    Rule 2 0 5 (optional_clause en ru clause) Any q) as Hopt.
  { intros. by eapply optional_clause_rule. }
  do 7 (wp_qstep; eapply wp_qcall;
    [ first
        [ apply (Hopt 6%Z); [lia|done|]; intros; solve [eauto with qspecs]
        | apply (Hopt 5%Z); [lia|done|]; intros; eapply any_rule; solve [eauto with qspecs] ]
    | wp_cx | lia | wp_qintro_pays ]).
  wp_qauto.
Qed.

Hint Resolve query_body_clauses_rule : qspecs.

Lemma query_content_rule p : (n <= S (pos p))%nat -> Rule 2 0 6 (query_content k) selects p.
Proof.
  intros Hn. wp_qstart_rule. unfold query_content.
  assert (forall q, (n <= S (pos q))%nat ->
    Rule 2 0 5 (optional_clause "INTO" "ПОМЕСТИТЬ" into_clause) Any q) as Hinto.
  { intros q Hq. apply (optional_clause_rule 8%Z); [done..|]. intros r _ _.
    intros Hi' Hpot'. eapply wp_mono; [apply into_clause_rule; [done..|lia]|done]. }
  wp_qauto; intros Hs; first [lia | exfalso; revert E; same; congruence].
Qed.

Hint Resolve query_content_rule : qspecs.

Lemma query_rule p : (n <= S (pos p))%nat -> Rule 2 0 6 (query k) selects p.
Proof. intros Hn. wp_qstart_rule. unfold query. wp_qauto. solve_selects. Qed.

Hint Resolve query_rule : qspecs.

Lemma union_clause_rule p :
  (n <= S (pos p))%nat -> at_sdbl_keyword "UNION" "ОБЪЕДИНИТЬ" p = true ->
  Rule 2 0 6 (union_clause k) Moves p.
Proof. intros Hn Hu. wp_qstart_rule. unfold union_clause. wp_qauto. Qed.

Hint Resolve union_clause_rule : qspecs.

Lemma subquery_body_rule p : (n <= S (pos p))%nat -> Rule 2 0 6 (subquery_body k) selects p.
Proof.
  intros Hn. wp_qstart_rule. unfold subquery_body. wp_qauto. wp_qwhile 6%Z; wp_qauto. solve_selects.
Qed.

Lemma select_tail_clauses_rule p : (n <= S (pos p))%nat -> Rule 2 0 5 (select_tail_clauses k) Any p.
Proof.
  intros Hn. wp_qstart_rule. unfold select_tail_clauses.
  wp_qloop 5%Z (fun (_ : bool * bool * bool) (_ : Parser) => True); [done|].
  destruct s as [[parsed_autoorder parsed_order_by] parsed_totals_by]. wp_qauto.
Qed.

End rules.

(** ** The rules tied together *)

Lemma query_rules_spec :
  (forall p, Rule 2 0 6 expression starts p) /\ (forall p, Rule 2 0 6 subquery selects p).
Proof.
  assert (forall m p, Inv inp p -> (remaining p < m)%nat ->
    Rule 2 0 6 (expression_rule (Nat.iter m rules_body no_rules)) starts p /\
    Rule 2 0 6 (subquery_rule (Nat.iter m rules_body no_rules)) selects p) as Hiter.
  { intros m p. apply (iter_spec inp rules_body no_rules (fun k p =>
      Rule 2 0 6 (expression_rule k) starts p /\ Rule 2 0 6 (subquery_rule k) selects p)).
    intros k q Hq Hk. 
    assert (forall r, (S (pos q) <= pos r)%nat -> Rule 2 0 6 (expression_rule k) starts r) as He.
    { intros r Hr Hi. by apply Hk. }
    assert (forall r, (S (pos q) <= pos r)%nat -> Rule 2 0 6 (subquery_rule k) selects r) as Hs.
    { intros r Hr Hi. by apply Hk. }
    split; [eapply logical_or_expr_rule|eapply subquery_body_rule]; eauto. }
  split; intros p Hi Hpot; apply wp_rec;
    [destruct (Hiter (S (remaining p)) p Hi (Nat.lt_succ_diag_r _)) as [He _]; exact (He Hi Hpot)
    |destruct (Hiter (S (remaining p)) p Hi (Nat.lt_succ_diag_r _)) as [_ Hs]; exact (Hs Hi Hpot)].
Qed.

Lemma expression_rule_spec p : Rule 2 0 6 expression starts p.
Proof. apply query_rules_spec. Qed.

Lemma subquery_rule_spec p : Rule 2 0 6 subquery selects p.
Proof. apply query_rules_spec. Qed.

Hint Resolve expression_rule_spec subquery_rule_spec : qspecs.

Lemma select_query_rule p : Rule 2 0 5 select_query selects p.
Proof.
  wp_qstart_rule. unfold select_query.
  assert (forall q, Rule 2 0 5 (select_tail_clauses rules) Any q) as Htail.
  { intros q. apply (select_tail_clauses_rule 0); [|lia]. intros r _. apply expression_rule_spec. }
  wp_qauto. solve_selects.
Qed.

Hint Resolve select_query_rule : qspecs.

(** ** The package *)

Lemma drop_table_query_rule p :
  Rule 2 0 5 drop_table_query (MovesAt (at_sdbl_keyword "DROP" "УНИЧТОЖИТЬ")) p.
Proof. wp_qstart_rule. unfold drop_table_query. wp_qauto. Qed.

Hint Resolve drop_table_query_rule : qspecs.

Lemma queries_rule p : Rule 2 0 5 queries (MovesAt at_query_start) p.
Proof.
  wp_qstart_rule. unfold queries. wp_qauto.
  unfold at_query_start. rewrite E, orb_false_r. exact HP.
Qed.

Hint Resolve queries_rule : qspecs.

Lemma drain_loop_rule due p :
  at_end p = false -> at_ T![Semicolon] p = false ->
  Rule 3 1 6 (loop (drain_turn due) (MkDrain false false false)) (fun p b p' =>
    b = true /\ (pos p < pos p')%nat) p.
Proof.
  intros He Hs. wp_qstart_rule.
  wp_qloop 7%Z (fun s q => if took_anything s then (pos p < pos q)%nat else q = p).
  { done. }
  unfold drain_turn. destruct s as [[] dot receiver]; simpl in *; [|subst q]; wp_qauto;
    simpl; first [done | lia | by rewrite He, Hs in E].
Qed.

(** A leftover takes a token unless it stands at the end or at a separator. *)
Lemma drain_to_boundary_rule due p :
  Rule 3 1 6 (drain_to_boundary due) (fun p b p' =>
    b = negb (at_end p || at_ T![Semicolon] p) /\ (b = true -> (pos p < pos p')%nat)) p.
Proof.
  wp_qstart_rule. unfold drain_to_boundary. do 3 wp_qstep.
  - wp_qauto. done.
  - wp_qauto. eapply wp_qcall; [apply drain_loop_rule; by same|wp_cx|lia|wp_qintro_pays].
    destruct HP as [-> HP]. wp_qauto. done.
Qed.

Hint Resolve drain_to_boundary_rule : qspecs.

Lemma complain_rule due had p :
  Rule 0 0 8 (complain_about_a_missing_member due had) (fun p _ p' => pos p' = pos p) p.
Proof. wp_qstart_rule. unfold complain_about_a_missing_member. wp_qauto. Qed.

Hint Resolve complain_rule : qspecs.
End specs.
#[export] Hint Resolve queries_rule drain_to_boundary_rule complain_rule : qspecs.
