(* ===== verification/SdblPackageSpec.v ===== *)
(** SdblPackageSpec: the entry rule of the query grammar, [query_package].

    The package's loop ends because a turn that consumes nothing leaves no query due, and what it
    builds is cut at the separators: only the loop takes one, and every member between two of them
    is a forest of nodes without any. *)
From stdpp Require Import prelude strings.
From S2P Require Import Prelude Case Kinds Tokens Input TornIf ParserCore Events Hoare Sdbl SdblExpressions SdblSelect SdblHoare SdblSpec SdblSelectSpec.

#[local] Arguments Z.mul : simpl never.
#[local] Arguments Z.sub : simpl never.
#[local] Arguments Z.of_nat : simpl never.

(** ** Members *)

(** The events of a member hold whole nodes and no separator. *)
Definition Member (g : list Event) : Prop := Forest g /\ Semicolon ∉ token_kinds g.

Definition closed_member (g : list Event) : list Event := g ++ [EToken Semicolon].

(** [es] extends [es0] with members, all but the last closed by a separator. *)
Definition Members (es0 es : list Event) : Prop :=
  exists closed last, es = es0 ++ concat (closed_member <$> closed) ++ last /\
    Forall Member closed /\ Member last.

(** The runs of kinds between separators. *)
Fixpoint split_members (ks : list TokenKind) : list (list TokenKind) :=
  match ks with
  | [] => [[]]
  | Semicolon :: ks => [] :: split_members ks
  | k :: ks =>
      match split_members ks with
      | [] => [[k]]
      | run :: runs => (k :: run) :: runs
      end
  end.

Lemma split_members_sep run ks :
  Semicolon ∉ run -> split_members (run ++ Semicolon :: ks) = run :: split_members ks.
Proof.
  induction run as [|k run IH]; [done|]. intros [Hk Hr]%not_elem_of_cons. simpl. rewrite IH by done.
  by destruct k.
Qed.

Lemma split_members_last run : Semicolon ∉ run -> split_members run = [run].
Proof.
  induction run as [|k run IH]; [done|]. intros [Hk Hr]%not_elem_of_cons. simpl. rewrite IH by done.
  by destruct k.
Qed.

Lemma split_members_concat closed last :
  Forall Member closed -> Member last ->
  split_members (token_kinds (concat (closed_member <$> closed) ++ last)) =
  token_kinds <$> (closed ++ [last]).
Proof.
  intros Hc [_ Hl]. induction Hc as [|g closed [_ Hg] _ IH]; csimpl; [by apply split_members_last|].
  unfold closed_member at 1. rewrite <- !app_assoc, token_kinds_app. csimpl. rewrite split_members_sep by done.
  by rewrite IH.
Qed.

Lemma Member_app g1 g2 : Member g1 -> Member g2 -> Member (g1 ++ g2).
Proof.
  intros [F1 N1] [F2 N2]. split; [auto with events|]. rewrite token_kinds_app. set_solver.
Qed.

Lemma Members_refl es : Members es es.
Proof. exists [], []. csimpl. rewrite app_nil_r. split_and!; [done|constructor|split; [constructor|set_solver]]. Qed.

Lemma Members_grow es0 es g : Members es0 es -> Member g -> Members es0 (es ++ g).
Proof.
  intros (closed & last & -> & Hc & Hl) Hg. exists closed, (last ++ g). rewrite <- !app_assoc.
  auto using Member_app.
Qed.

Lemma Members_close es0 es : Members es0 es -> Members es0 (es ++ [EToken Semicolon]).
Proof.
  intros (closed & last & -> & Hc & Hl). exists (closed ++ [last]), [].
  rewrite fmap_app, concat_app. csimpl. unfold closed_member at 3. rewrite !app_nil_r, <- !app_assoc.
  split_and!; [done|by apply Forall_app_2, Forall_singleton|split; [constructor|set_solver]].
Qed.

Lemma Members_forest closed last :
  Forall Member closed -> Member last -> Forest (concat (closed_member <$> closed) ++ last).
Proof.
  intros Hc [Hl _]. induction Hc as [|g closed [Hg _] _ IH]; [done|]. csimpl. unfold closed_member at 1.
  rewrite <- !app_assoc. simpl. auto with events.
Qed.

Section specs.
Context {boundary : Declared} (inp : Input) (B : Z) `{Consistent inp} `{CharCase}.
Hypothesis Hfits : (Z.of_nat (input_len inp) < 2 ^ 31)%Z.
Hypothesis Hdepths : (Z.of_nat (input_len inp) <= I32_MAX)%Z.

Abbreviation len := (input_len inp).
Abbreviation Rule s e c m Post := (QSpec inp B s e c m Post).

Lemma seps_events p :
  Inv inp p -> seps inp (pos p) = length (filter (fun k => k = Semicolon) (token_kinds (events p))).
Proof.
  intros [_ _ _ _ _ _ _ _ Ht]. rewrite Ht. unfold seps. rewrite <- fmap_take.
  generalize (take (pos p) (kinds inp)). intros ks. induction ks as [|[k] ks IH]; [done|]. csimpl.
  destruct (decide (k = Semicolon)) as [->|Hk].
  - rewrite !filter_cons_True by done. simpl. by rewrite IH.
  - rewrite !filter_cons_False by congruence. done.
Qed.

(** What a rule consumes is a member's. *)
Lemma grown_member p p' g :
  Inv inp p -> Inv inp p' -> seps inp (pos p') = seps inp (pos p) -> events p' = events p ++ g ->
  Forest g -> Member g.
Proof.
  intros Hp Hp' Hs He Hg. split; [done|]. rewrite !seps_events in Hs by done.
  rewrite He, token_kinds_app, filter_app, length_app in Hs. intros Hin.
  assert (Semicolon ∈ filter (fun k => k = Semicolon) (token_kinds g)) as Hin'
    by by apply list_elem_of_filter.
  destruct (filter _ (token_kinds g)); [by apply elem_of_nil in Hin'|simpl in Hs; lia].
Qed.

(** A rule of a member, told with what it appends. *)
Lemma member_rule {A} s e c (m : M A) Post p :
  Rule s e c m Post p ->
  Rule s e c m (fun p a p' => Post p a p' /\ exists g, events p' = events p ++ g /\ Member g) p.
Proof.
  intros Hm Hi Hpot. eapply wp_mono; [by apply Hm|]. intros a p' (HC & HP & Hpost).
  split_and!; [done..|]. destruct HC as [Hi' _ (g & He & Hg)]. exists g. split; [done|].
  apply (grown_member p p' g); try done. by destruct HP as (_ & _ & _ & ? & _).
Qed.

(** A loop whose turns lower a measure. *)
Lemma wp_loop_measure {A A'} (measure : A -> Parser -> nat) (body : A -> M (A + A'))
    (I : A -> Parser -> Prop) (Q : A' -> Parser -> Prop) fuel a p :
  I a p -> (measure a p < fuel)%nat ->
  (forall a p, I a p -> wp B (body a) (fun r p' =>
     match r with inl a' => I a' p' /\ (measure a' p' < measure a p)%nat | inr b => Q b p' end) p) ->
  wp B (loop_fuel fuel body a) Q p.
Proof.
  revert a p. induction fuel as [|fuel IH]; intros a p HI Hm Hbody; [lia|]. simpl. apply wp_bind.
  eapply wp_mono; [by apply Hbody|]. intros [a'|b] p' HQ; [|done]. destruct HQ as [HI' Hlt].
  apply IH; [done|lia|done].
Qed.

Lemma at_query_start_same p q :
  Inv inp p -> Inv inp q -> pos p = pos q -> at_query_start p = at_query_start q.
Proof. intros. unfold at_query_start. by rewrite !(at_sdbl_keyword_same inp _ _ p q). Qed.

(** What a computation does for certain may be told to its continuation. *)
Lemma wp_known {A} (P : Parser -> Prop) (m : M A) (Q : A -> Parser -> Prop) p :
  (forall a p', m p = Ok a p' -> P p') -> wp B m (fun a p' => P p' -> Q a p') p -> wp B m Q p.
Proof. unfold wp. intros HP. destruct (m p) as [a p'| |]; [|done..]. intros HQ. by apply HQ, (HP a). Qed.

Lemma check_events p u p' : check_iteration_limit p = Ok u p' -> events p' = events p.
Proof. unfold check_iteration_limit. repeat case_match; by intros [= <- <-]. Qed.

Lemma bump_events k p u p' :
  current p = Some T![k] -> bump p = Ok u p' -> events p' = events p ++ [EToken k].
Proof.
  intros Hk. unfold bump, mbind, M_bind, gets. rewrite Hk. simpl.
  destruct (track_group k p) as [[] p1| |] eqn:E; [|done..].
  apply track_group_events in E. intros [= <- <-]. simpl. by rewrite E.
Qed.

(** A separator is taken by the package alone. *)
Lemma wp_separator {A} base bs stack (k : M A) (Q : A -> Parser -> Prop) p0 p :
  Cx inp base bs stack p -> Inv inp p0 -> pos p = pos p0 -> at_ T![Semicolon] p0 = true ->
  (forall p', Cx inp base bs stack p' -> pos p' = S (pos p) -> (pos p < len)%nat ->
     pot inp p' = (pot inp p - 8)%Z -> events p' = events p ++ [EToken Semicolon] -> wp B k Q p') ->
  wp B bump (fun _ p' => wp B (reset_group_tracking;; k) Q p') p.
Proof.
  intros HC Hi0 E Hs HQ. pose proof (cx_inv _ _ _ _ _ HC) as Hi. rewrite <- (at_same inp _ p p0) in Hs by done.
  apply at_current in Hs. pose proof (current_live inp _ _ Hi Hs) as Hlt.
  apply (wp_known (fun p' => events p' = events p ++ [EToken Semicolon])).
  { intros. by eapply bump_events. }
  eapply wp_bump; [done..|]. intros p1 HC1 (Hp1 & Hq1 & _) He1. apply wp_bind.
  apply (wp_known (fun p' => events p' = events p1)); [by intros ?? [= <- <-]|].
  eapply wp_reset; [done|]. intros p2 HC2 Hp2 Hq2 He2. apply HQ; [done|lia..|congruence].
Qed.

(** A member that is not due stands at the start of a query. *)
Lemma member_start_moves p q q' :
  Inv inp p -> Inv inp q -> pos q = pos p -> at_query_start p || false && is_clause_keyword p = true ->
  (at_query_start q = true -> (pos q < pos q')%nat) -> (pos q < pos q')%nat.
Proof.
  intros Hp Hq E Hs HP. rewrite orb_false_r in Hs. apply HP. by rewrite (at_query_start_same q p).
Qed.

(** What the package's loop keeps: a turn that consumed nothing has left no query due. *)
Definition package_state (bs : list Boundary) (p : Parser) (s : bool * bool) (q : Parser) : Prop :=
  Cx inp (events p) bs [] q /\ Members (events p) (events q) /\
  (pot inp q <= pot inp p + (if s.1 then 0 else 1))%Z.

Definition package_measure (s : bool * bool) (q : Parser) : nat :=
  (2 * (len - pos q) + if s.1 then 1 else 0)%nat.

(** The members that a call of a member's rule leaves. *)
Ltac member_facts :=
  repeat match goal with
  | HP : _ /\ (exists g, events ?q = events ?p ++ g /\ Member g), HM : Members ?es (events ?p) |- _ =>
      let g := fresh "g" in let He := fresh "He" in let Hg := fresh "Hg" in
      destruct HP as [HP (g & He & Hg)];
      assert (Members es (events q)) by (rewrite He; by apply Members_grow)
  end.

Ltac wp_member_auto := repeat (wp_qstep; member_facts; wp_qfacts).

Lemma wp_package_turn bs p s q (Q : bool * bool -> Parser -> Prop) :
  (pot inp p + 6 <= B)%Z -> package_state bs p s q ->
  (forall s' q', package_state bs p s' q' -> pos q' = len -> Q s' q') ->
  wp B (package_turn s) (fun r q' =>
    match r with
    | inl s' => package_state bs p s' q' /\ (package_measure s' q' < package_measure s q)%nat
    | inr s' => Q s' q'
    end) q.
Proof.
  intros Hslack (HC & HM & Hpot) HQ. destruct s as [due had].
  pose proof (fun due had p => member_rule _ _ _ _ _ p (complain_rule inp B due had p)) as Hcomplain.
  pose proof (fun msg p => member_rule _ _ _ _ _ p (error_custom_no_bump_rule inp B msg p)) as Herror.
  pose proof (fun p => member_rule _ _ _ _ _ p (queries_rule inp B Hfits Hdepths p)) as Hqueries.
  pose proof (fun due p => member_rule _ _ _ _ _ p (drain_to_boundary_rule inp B Hfits due p)) as Hdrain.
  unfold package_turn, package_state, package_measure in *. cbn [fst snd] in *.
  wp_qpre. do 3 wp_qstep; [apply HQ; [by split_and!|lia]|].
  wp_qstep. apply (wp_known (fun p' => events p' = events q)); [exact (check_events q)|].
  eapply wp_check; [wp_cx|destruct due; lia|]. intros p0 HC0 HS Hp Hq He0. wp_qpre.
  assert (Members (events p) (events p0)) by by rewrite He0.
  destruct due; wp_member_auto; cbn [fst snd] in *.
  all: try done; try lia; try (apply HQ; [split_and!; [wp_cx|done|lia]|lia]).
  all: try match goal with
    | HP : pos ?q = pos ?p, HE : at_query_start ?p || false && _ = true,
        HM : at_query_start ?q = true -> (_ < ?n)%nat |- _ =>
        assert (pos q < n)%nat by (eapply (member_start_moves p q);
          [eapply cx_inv; eassumption|eapply cx_inv; eassumption|eassumption|eassumption|exact HM]); lia
    | HP : false = negb (at_end ?p || at_ _ ?p) /\ _, E : at_end ?p = false, E' : at_ _ ?p = false |- _ =>
        destruct HP as [HP _]; by rewrite E, E' in HP
    end.
  all: (eapply wp_separator; [wp_cx| |exact HP|eassumption|]); [eapply cx_inv; eassumption|].
  all: intros p2 HC2 Hp2 Hlt2 Hq2 He2; assert (Members (events p) (events p2))
    by (rewrite He2; by apply Members_close); wp_qauto; cbn [fst snd]; done || lia.
Qed.

Lemma wp_package_loop bs p (Q : bool * bool -> Parser -> Prop) :
  Cx inp (events p) bs [] p -> (pot inp p + 6 <= B)%Z ->
  (forall s q, package_state bs p s q -> pos q = len -> Q s q) ->
  wp B (package_loop (true, false)) Q p.
Proof.
  intros HC Hslack HQ. unfold package_loop.
  apply (wp_loop_measure package_measure _ (package_state bs p)).
  - split_and!; [done|apply Members_refl|simpl; lia].
  - pose proof (inv_input _ _ (cx_inv _ _ _ _ _ HC)) as E. unfold package_measure, remaining.
    rewrite E. simpl. lia.
  - intros s q HS. by apply (wp_package_turn bs p).
Qed.

(** The package's node is completed around its members. *)
Lemma wp_complete_package (Q : unit -> Parser -> Prop) m p body :
  Inv inp p -> m_pos m = 0%nat -> events p = Placeholder :: body ->
  (forall p', Inv inp p' -> pos p' = pos p -> enclosing_boundaries p' = enclosing_boundaries p ->
     events p' = Start NK.SdblQueryPackage None :: body ++ [Finish] -> Q tt p') ->
  wp B (complete_ m NK.SdblQueryPackage) Q p.
Proof.
  intros Hi Hm He HQ. unfold wp, complete_, mbind, M_bind, complete. rewrite Hm, He. simpl.
  apply HQ; [|done..]. apply Inv_events; [done|]. rewrite He. unfold token_kinds. csimpl.
  rewrite omap_app. by rewrite app_nil_r.
Qed.

Lemma query_package_spec p :
  Inv inp p -> (pot inp p + 6 <= B)%Z -> events p = [] ->
  wp B query_package (fun _ p' => Inv inp p' /\ pos p' = len /\
    enclosing_boundaries p' = enclosing_boundaries p /\
    exists closed last, Forall Member closed /\ Member last /\
      events p' = Start NK.SdblQueryPackage None ::
        (concat (closed_member <$> closed) ++ last) ++ [Finish]) p.
Proof.
  intros Hi Hslack He. pose proof (Cx_start _ _ Hi) as HC. unfold query_package. apply wp_bind.
  apply (wp_known (fun p' => events p' = events p ++ [Placeholder])); [by intros ?? [= <- <-]|].
  eapply wp_start; [done|]. intros m p1 HC1 _ Hp1 Hq1 He1. rewrite He in He1.
  assert (m_pos m = 0%nat) as Hm.
  { destruct HC1 as [_ _ ([|e before] & after & E & Hl & _)]; [done|]. rewrite He1 in E.
    by destruct before. }
  pose proof (Cx_start _ _ (cx_inv _ _ _ _ _ HC1)) as HC1'. rewrite (cx_bs _ _ _ _ _ HC1) in HC1'.
  apply wp_bind. eapply wp_package_loop; [done|lia|].
  intros [due had] q (HCq & HM & Hqp) Hend. apply wp_bind.
  apply (wp_mono _ _ (fun _ q' => Cx inp (events p1) (enclosing_boundaries p) [] q' /\
    Members (events p1) (events q') /\ pos q' = len)).
  - unfold when. destruct had; [|by apply wp_skip].
    eapply wp_qcall; [apply member_rule, complain_rule|done|simpl in *; destruct due; lia|].
    intros _ q' HC' _ [Hp (g & Hg & Hmem)]. split_and!; [done| |congruence]. rewrite Hg.
    by apply Members_grow.
  - intros _ q' (HC' & (closed & last & He' & Hc & Hl) & Hp'). rewrite He1 in He'.
    eapply wp_complete_package; [by eapply cx_inv|done|exact He'|].
    intros p' Hi' Hpos Hb Hev. split_and!; [done|congruence| |by exists closed, last].
    by rewrite Hb, (cx_bs _ _ _ _ _ HC').
Qed.
End specs.
