(* ===== verification/SdblTokens.v ===== *)
(** SdblTokens: the lexemes of the query language and their kinds in the tree.

    [SdblTokenKind] and [SdblToken] are crates/lexer/src/sdbl/mod.rs; the patterns of the kinds are
    the input of the logos library, which makes the automaton from them.  The converter is
    crates/parser/src/sdbl_token_converter.rs: the parser has no kinds of its own for the words of
    the query language, so almost all of them become identifiers. *)
From stdpp Require Import prelude.
From S2P Require Import Prelude Kinds Tokens.

(** ** Kinds

    [Parameter_] is the source's [Parameter]: the word is reserved here. *)
Module S.
Inductive SdblTokenKind : Set :=
  | Whitespace | Newline | Comment | LParen | RParen | LBrace | RBrace | Dot | Comma
    | Semicolon | Hash | Ampersand | Bar | Eq | Neq | Le | Lt | Ge | Gt | Plus | Minus | Star
    | Slash | Percent | Float | Decimal | Quote | String | Date | Ident | Parameter_ | KwSelect
    | KwFrom | KwInto | KwWhere | KwGroup | KwOrder | KwHaving | KwTotals | KwUnion | KwAll
    | KwDistinct | KwTop | KwJoin | KwInner | KwLeft | KwRight | KwFull | KwOuter | KwOnOrBy
    | KwAs | KwIn | KwBetween | KwLike | KwIs | KwCase | KwWhen | KwThen | KwElse | KwEnd
    | OpAnd | OpOr | OpNot | LitTrue | LitFalse | LitNull | KwDrop | KwAutoOrder | KwAsc
    | KwDesc | KwHierarchy | KwAllowed | KwFor | KwUpdate | KwIndex | KwOnly | KwOverall
    | KwPeriods | KwEscape | KwRefs | KwCast | KwType | KwValue | TypeBoolean | TypeNumber
    | TypeString | TypeDate | LitUndefined | PeriodTenDays | PeriodHalfYear | FnSum | FnAvg
    | FnMin | FnMax | FnCount | FnYear | FnQuarter | FnMonth | FnDayOfYear | FnDay | FnWeek
    | FnWeekDay | FnHour | FnMinute | FnSecond | FnBeginOfPeriod | FnEndOfPeriod | FnDateAdd
    | FnDateDiff | FnDateTime | FnSubstring | FnStringLength | FnStrFind | FnStrReplace
    | FnUpper | FnLower | FnTrimAll | FnTrimL | FnTrimR | FnLeft | FnRight | FnRound | FnInt
    | FnExp | FnLog10 | FnLog | FnPow | FnSqrt | FnACos | FnASin | FnATan | FnCos | FnSin
    | FnTan | FnValueType | FnPresentation | FnRefPresentation | FnIsNull | FnRecordAutoNumber
    | FnGroupedBy | FnStoredDataSize | FnEmptyTable | FnEmptyRef | FnUUID | MdoCatalog
    | MdoDocument | MdoDocumentJournal | MdoInformationRegister | MdoAccumulationRegister
    | MdoAccountingRegister | MdoCalculationRegister | MdoChartOfAccounts
    | MdoChartOfCalculationTypes | MdoChartOfCharacteristicTypes | MdoExchangePlan | MdoEnum
    | MdoBusinessProcess | MdoTask | MdoConstant | MdoConstants | MdoSequence
    | MdoFilterCriterion | MdoExternalDataSource | VtSliceFirst | VtSliceLast | VtBalance
    | VtTurnovers | VtBalanceAndTurnovers | VtDrCrTurnovers | VtExtDimensions
    | VtRecordsWithExtDimensions | VtScheduleData | VtAdjustedEffectivePeriod | VtBoundaries
    | VtPoints | VtTasksByPerformer | VtTable | VtCube | VtDimensionTable | VtChanges | Error.
End S.
Abbreviation SdblTokenKind := S.SdblTokenKind.

Record SdblToken : Set := MkSdblToken {
  sdbl_kind : SdblTokenKind;
  sdbl_text : text;
  sdbl_offset : Z;
}.

(** ** Conversion *)

Definition convert_sdbl_token_kind (kind : SdblTokenKind) : TokenKind :=
  match kind with
  | S.KwSelect => Ident
  | S.KwFrom => Ident
  | S.KwWhere => Ident
  | S.KwAs => Ident
  | S.KwUnion => Ident
  | S.KwAll => Ident
  | S.KwDistinct => Ident
  | S.KwTop => Ident
  | S.OpAnd => KwAnd
  | S.OpOr => KwOr
  | S.OpNot => KwNot
  | S.KwIn => KwIn
  | S.KwIs => Ident
  | S.LitNull => Ident
  | S.KwBetween => Ident
  | S.KwLike => Ident
  | S.KwEscape => Ident
  | S.KwCase => Ident
  | S.KwWhen => Ident
  | S.KwThen => Ident
  | S.KwElse => Ident
  | S.KwEnd => Ident
  | S.KwInto => Ident
  | S.KwGroup => Ident
  | S.KwOnOrBy => Ident
  | S.KwHaving => Ident
  | S.KwOrder => Ident
  | S.KwAsc => Ident
  | S.KwDesc => Ident
  | S.KwFor => Ident
  | S.KwUpdate => Ident
  | S.KwIndex => Ident
  | S.KwJoin => Ident
  | S.KwInner => Ident
  | S.KwLeft => Ident
  | S.KwRight => Ident
  | S.KwFull => Ident
  | S.KwOuter => Ident
  | S.KwCast | S.KwValue | S.KwType => Ident
  | S.KwAllowed => Ident
  | S.KwAutoOrder => Ident
  | S.KwOnly => Ident
  | S.KwTotals => Ident
  | S.KwOverall => Ident
  | S.KwPeriods => Ident
  | S.KwRefs => Ident
  | S.KwHierarchy => Ident
  | S.KwDrop => Ident
  | S.FnSum | S.FnCount | S.FnAvg | S.FnMin | S.FnMax => Ident
  | S.FnYear | S.FnQuarter | S.FnMonth | S.FnDayOfYear | S.FnDay | S.FnWeek | S.FnWeekDay
    | S.FnHour | S.FnMinute | S.FnSecond | S.FnBeginOfPeriod | S.FnEndOfPeriod | S.FnDateAdd
    | S.FnDateDiff | S.FnDateTime => Ident
  | S.FnSubstring => Ident
  | S.FnPresentation | S.FnValueType => Ident
  | S.FnIsNull | S.FnRefPresentation | S.FnEmptyRef | S.FnEmptyTable | S.FnUUID => Ident
  | S.FnRecordAutoNumber | S.FnGroupedBy | S.FnStoredDataSize => Ident
  | S.TypeBoolean | S.TypeNumber | S.TypeString | S.TypeDate => Ident
  | S.MdoCatalog | S.MdoDocument | S.MdoEnum | S.MdoChartOfCharacteristicTypes
    | S.MdoChartOfAccounts | S.MdoChartOfCalculationTypes | S.MdoInformationRegister
    | S.MdoAccumulationRegister | S.MdoAccountingRegister | S.MdoCalculationRegister
    | S.MdoBusinessProcess | S.MdoTask | S.MdoExternalDataSource | S.MdoConstant
    | S.MdoConstants | S.MdoSequence | S.MdoDocumentJournal | S.MdoExchangePlan
    | S.MdoFilterCriterion => Ident
  | S.FnStringLength | S.FnStrFind | S.FnStrReplace | S.FnUpper | S.FnLower | S.FnTrimAll
    | S.FnTrimL | S.FnTrimR | S.FnLeft | S.FnRight | S.FnRound | S.FnInt | S.FnExp | S.FnLog10
    | S.FnLog | S.FnPow | S.FnSqrt | S.FnACos | S.FnASin | S.FnATan | S.FnCos | S.FnSin
    | S.FnTan => Ident
  | S.VtSliceFirst | S.VtSliceLast | S.VtBalance | S.VtTurnovers | S.VtBalanceAndTurnovers
    | S.VtDrCrTurnovers | S.VtExtDimensions | S.VtRecordsWithExtDimensions | S.VtScheduleData
    | S.VtAdjustedEffectivePeriod | S.VtBoundaries | S.VtPoints | S.VtTasksByPerformer
    | S.VtTable | S.VtCube | S.VtDimensionTable | S.VtChanges => Ident
  | S.PeriodTenDays | S.PeriodHalfYear => Ident
  | S.Eq => Eq
  | S.Neq => Neq
  | S.Lt => Lt
  | S.Le => Le
  | S.Gt => Gt
  | S.Ge => Ge
  | S.Plus => Plus
  | S.Minus => Minus
  | S.Star => Star
  | S.Slash => Slash
  | S.Percent => Percent
  | S.LParen => LParen
  | S.RParen => RParen
  | S.LBrace => LBrace
  | S.RBrace => RBrace
  | S.Dot => Dot
  | S.Comma => Comma
  | S.Semicolon => Semicolon
  | S.Ampersand => Ampersand
  | S.Hash => Hash
  | S.Bar => Bar
  | S.LitTrue => KwTrue
  | S.LitFalse => KwFalse
  | S.LitUndefined => KwUndefined
  | S.Decimal => Decimal
  | S.Float => Float
  | S.String => String
  | S.Date => Date
  | S.Ident => Ident
  | S.Parameter_ => Ampersand
  | S.Newline => Newline
  | S.Comment => Comment
  | S.Whitespace => Whitespace
  | S.Quote => Error
  | S.Error => Error
  end.

Definition convert_sdbl_token (t : SdblToken) : Token :=
  MkToken (convert_sdbl_token_kind (sdbl_kind t)) (sdbl_text t) (sdbl_offset t).

Definition convert_sdbl_tokens (ts : list SdblToken) : list Token := convert_sdbl_token <$> ts.

(** The conversion keeps the text and the place of every lexeme. *)
Lemma convert_texts ts : tok_text <$> convert_sdbl_tokens ts = sdbl_text <$> ts.
Proof. unfold convert_sdbl_tokens. by rewrite <- list_fmap_compose. Qed.

Lemma convert_offsets ts : tok_offset <$> convert_sdbl_tokens ts = sdbl_offset <$> ts.
Proof. unfold convert_sdbl_tokens. by rewrite <- list_fmap_compose. Qed.

(** Trivia are what the lexer of the query language skips over. *)
Lemma convert_trivia kind :
  is_trivia (convert_sdbl_token_kind kind) =
  match kind with S.Whitespace | S.Newline | S.Comment => true | _ => false end.
Proof. by destruct kind. Qed.
