(* ===== verification/SdblLexer.v ===== *)
(** SdblLexer: from a query's text to its lexemes (crates/lexer/src/sdbl/mod.rs and
    strings_mode.rs).

    A string literal is scanned by hand, over bytes; everything else is left to the automaton that
    the logos library generates from the patterns of the kinds, a parameter here.  The lexemes tile
    the text whatever it is. *)
From stdpp Require Import prelude.
From S2P Require Import Prelude Kinds Tokens Utf8 SdblTokens.

(** ** The generated automaton *)

(** [SdblTokenKind::lexer(remaining).next()] with the slice it matched; an inner [None] is the
    library's error value. *)
Class SdblLexer := sdbl_next : text -> option (option SdblTokenKind * text).

(** What the library documents: there is an item until the text ends, the slice of an item is a
    non-empty beginning of the text, and a kind made from the one-character token of the quote is
    given for that character. *)
Class SdblLexerLaws `{SdblLexer} : Prop := {
  next_end s : sdbl_next s = None -> s = [];
  next_slice s item slice : sdbl_next s = Some (item, slice) ->
    slice <> [] /\ exists rest, s = slice ++ rest;
  next_quote s slice : sdbl_next s = Some (Some S.Quote, slice) -> head s = Some 0x22%Z;
}.

(** ** String literals *)

Definition QUOTE : Z := 0x22.

Record StringsRun : Set := MkStringsRun {
  run_tokens : list SdblToken;
  end_pos : Z;
}.

(** [None]: the panic of a slice at an offset that is no boundary. *)
Definition make_string_token (input : text) (start end_ : Z) : option SdblToken :=
  slice ← str_slice input start end_;
  Some (MkSdblToken S.String slice start).

Definition byte_at (bytes : list Z) (pos : Z) : option Z := bytes !! Z.to_nat pos.

(** The loop over the body; the result says whether the literal was closed. *)
Fixpoint scan_loop (fuel : nat) (input : text) (bytes : list Z) (body_start pos : Z)
    (tokens : list SdblToken) : option (list SdblToken * Z * bool) :=
  match fuel with
  | O => None
  | S fuel =>
      match byte_at bytes pos with
      | None => Some (tokens, pos, false)
      | Some b =>
          if (b =? QUOTE)%Z then
            if bool_decide (byte_at bytes (pos + 1) = Some QUOTE)
            then scan_loop fuel input bytes body_start (pos + 2) tokens
            else
              tokens ← (if (body_start <? pos)%Z
                        then t ← make_string_token input body_start pos; Some (tokens ++ [t])
                        else Some tokens);
              t ← make_string_token input pos (pos + 1);
              Some (tokens ++ [t], (pos + 1)%Z, true)
          else scan_loop fuel input bytes body_start (pos + 1) tokens
      end
  end.

Definition scan (input : text) (start_pos : Z) : option StringsRun :=
  let bytes := as_bytes input in
  if bool_decide (byte_at bytes start_pos = Some QUOTE) then
    opening ← make_string_token input start_pos (start_pos + 1);
    let body_start := (start_pos + 1)%Z in
    '(tokens, pos, closed) ← scan_loop (S (length bytes)) input bytes body_start body_start [opening];
    if negb closed && (body_start <? pos)%Z
    then t ← make_string_token input body_start pos; Some (MkStringsRun (tokens ++ [t]) pos)
    else Some (MkStringsRun tokens pos)
  else Some (MkStringsRun [] start_pos).

(** ** The text *)

(** [None]: a panic, of a slice or of the [unreachable!]. *)
Fixpoint tokenize_loop `{SdblLexer} (fuel : nat) (input : text) (pos : Z) (result : list SdblToken) :
    option (list SdblToken) :=
  match fuel with
  | O => None
  | S fuel =>
      if (pos <? str_len input)%Z then
        remaining ← str_slice input pos (str_len input);
        if bool_decide (head remaining = Some QUOTE) then
          strings ← scan input pos;
          tokenize_loop fuel input (end_pos strings) (result ++ run_tokens strings)
        else
          match sdbl_next remaining with
          | Some (token_result, slice) =>
              let kind := default S.Error token_result in
              match kind with
              | S.Quote => None
              | _ => tokenize_loop fuel input (pos + str_len slice) (result ++ [MkSdblToken kind slice pos])
              end
          | None => Some result
          end
      else Some result
  end.

(** Every turn takes a character, so the text's length is fuel enough. *)
Definition tokenize_sdbl `{SdblLexer} (input : text) : option (list SdblToken) :=
  tokenize_loop (S (length input)) input 0 [].

Definition is_blank (t : SdblToken) : bool :=
  match sdbl_kind t with S.Whitespace | S.Newline => true | _ => false end.

(** Whether the query language itself knows a word. *)
Definition is_sdbl_vocabulary_word `{SdblLexer} (word : text) : option bool :=
  tokens ← tokenize_sdbl word;
  let significant := filter (fun t => is_blank t = false) tokens in
  Some
    match significant with
    | [token] =>
      match sdbl_kind token with
      | S.Ident | S.PeriodTenDays | S.PeriodHalfYear | S.MdoCatalog | S.MdoDocument
      | S.MdoDocumentJournal | S.MdoInformationRegister | S.MdoAccumulationRegister
      | S.MdoAccountingRegister | S.MdoCalculationRegister | S.MdoChartOfAccounts
      | S.MdoChartOfCalculationTypes | S.MdoChartOfCharacteristicTypes | S.MdoExchangePlan
      | S.MdoEnum | S.MdoBusinessProcess | S.MdoTask | S.MdoConstant | S.MdoConstants
      | S.MdoSequence | S.MdoFilterCriterion | S.MdoExternalDataSource => false
      | _ => true
      end
    | _ => false
    end.

(** ** String literals by characters

    The reference: the body up to the first quote that is not doubled, and whether there is one. *)
Fixpoint string_body (s : text) : text * bool * text :=
  match s with
  | [] => ([], false, [])
  | c :: s' =>
      if (c =? QUOTE)%Z then
        match s' with
        | c2 :: s2 =>
            if (c2 =? QUOTE)%Z
            then let '(body, closed, rest) := string_body s2 in (c :: c2 :: body, closed, rest)
            else ([], true, s')
        | [] => ([], true, [])
        end
      else let '(body, closed, rest) := string_body s' in (c :: body, closed, rest)
  end.

Definition string_token (s : text) (offset : Z) : list SdblToken :=
  match s with [] => [] | _ => [MkSdblToken S.String s offset] end.

(** The lexemes of a literal whose opening quote stands at [offset]. *)
Definition string_tokens (body : text) (closed : bool) (offset : Z) : list SdblToken :=
  MkSdblToken S.String [QUOTE] offset :: string_token body (offset + 1) ++
  (if closed then [MkSdblToken S.String [QUOTE] (offset + 1 + str_len body)%Z] else []).

Lemma encode_no_quote c : c <> QUOTE -> QUOTE ∉ encode_utf8 c.
Proof.
  intros Hc. unfold encode_utf8, QUOTE in *.
  destruct (Z.ltb_spec c 0x80); [set_solver|].
  assert (forall d, 0 < d -> 0 <= c / d)%Z as Hdiv by (intros; apply Z.div_pos; lia).
  assert (forall x, 0 <= x mod 64)%Z as Hmod by (intros x; apply Z.mod_pos_bound; lia).
  pose proof (Hdiv 64%Z). pose proof (Hdiv 4096%Z). pose proof (Hdiv 262144%Z).
  pose proof (Hmod c). pose proof (Hmod (c / 64)%Z). pose proof (Hmod (c / 4096)%Z).
  repeat case_match; rewrite !not_elem_of_cons; split_and!; try lia; apply not_elem_of_nil.
Qed.

Lemma str_len_as_bytes s : Z.to_nat (str_len s) = length (as_bytes s).
Proof. by rewrite <- length_as_bytes, Nat2Z.id. Qed.

(** The byte where a text continues is the first of what follows. *)
Lemma byte_at_app pre s : byte_at (as_bytes (pre ++ s)) (str_len pre) = head (as_bytes s).
Proof.
  unfold byte_at. rewrite str_len_as_bytes, as_bytes_app, lookup_app_r by lia.
  rewrite Nat.sub_diag. by destruct (as_bytes s).
Qed.

Lemma head_quote s : head (as_bytes s) = Some QUOTE <-> head s = Some QUOTE.
Proof.
  destruct s as [|c s]; [done|]. rewrite as_bytes_cons. simpl.
  destruct (decide (c = QUOTE)) as [->|Hc]; [done|].
  pose proof (encode_no_quote c Hc) as Hn. split; [|congruence].
  pose proof (length_encode_utf8 c). pose proof (len_utf8_pos c).
  destruct (encode_utf8 c) as [|b bs]; [simpl in *; lia|]. simpl. intros [= ->]. set_solver.
Qed.

Lemma string_body_ind (P : text -> Prop) :
  P [] -> P [QUOTE] -> (forall s, P s -> P (QUOTE :: QUOTE :: s)) ->
  (forall c s, c <> QUOTE -> P (QUOTE :: c :: s)) -> (forall c s, c <> QUOTE -> P s -> P (c :: s)) ->
  forall s, P s.
Proof.
  intros H0 H1 H2 H3 H4. fix IH 1. intros [|c s]; [done|].
  destruct (decide (c = QUOTE)) as [->|Hc]; [|by apply H4].
  destruct s as [|c s]; [done|].
  destruct (decide (c = QUOTE)) as [->|Hc]; [by apply H2|by apply H3].
Qed.

Lemma string_body_split s body closed rest :
  string_body s = (body, closed, rest) -> s = body ++ if closed then QUOTE :: rest else rest.
Proof.
  revert body closed rest. induction s as [| |s IH|c s Hc|c s Hc IH] using string_body_ind;
    intros body closed rest; simpl.
  - by intros [= <- <- <-].
  - by intros [= <- <- <-].
  - destruct (string_body s) as [[b cl] r]. intros [= <- <- <-]. simpl. by rewrite <- (IH b cl r).
  - rewrite (proj2 (Z.eqb_neq c QUOTE)) by done. by intros [= <- <- <-].
  - rewrite (proj2 (Z.eqb_neq c QUOTE)) by done. destruct (string_body s) as [[b cl] r].
    intros [= <- <- <-]. simpl. by rewrite <- (IH b cl r).
Qed.

Lemma scan_loop_bytes run fuel input P R body_start tokens :
  QUOTE ∉ run ->
  scan_loop (length run + fuel) input (P ++ run ++ R) body_start (Z.of_nat (length P)) tokens =
  scan_loop fuel input (P ++ run ++ R) body_start (Z.of_nat (length P + length run)) tokens.
Proof.
  revert P. induction run as [|b run IH]; intros P; [by rewrite Nat.add_0_r|].
  intros [Hb Hr]%not_elem_of_cons. simpl. unfold byte_at at 1.
  rewrite Nat2Z.id, lookup_app_r, Nat.sub_diag by lia. simpl.
  rewrite (proj2 (Z.eqb_neq _ _)) by done. specialize (IH (P ++ [b]) Hr).
  rewrite <- app_assoc, length_app in IH. simpl in IH.
  replace (Z.of_nat (length P) + 1)%Z with (Z.of_nat (length P + 1)) by lia. rewrite IH.
  do 2 f_equal. lia.
Qed.

(** A character that is no quote is passed over whole. *)
Lemma scan_loop_char c pre s fuel body_start tokens :
  c <> QUOTE ->
  scan_loop (length (encode_utf8 c) + fuel) (pre ++ c :: s) (as_bytes (pre ++ c :: s)) body_start
    (str_len pre) tokens =
  scan_loop fuel (pre ++ c :: s) (as_bytes (pre ++ c :: s)) body_start (str_len (pre ++ [c])) tokens.
Proof.
  intros Hc. pose proof (scan_loop_bytes (encode_utf8 c) fuel (pre ++ c :: s) (as_bytes pre)
    (as_bytes s) body_start tokens (encode_no_quote c Hc)) as E.
  rewrite as_bytes_app, as_bytes_cons. rewrite length_as_bytes in E. rewrite E. do 2 f_equal.
  rewrite str_len_app. simpl. rewrite <- length_as_bytes, <- length_encode_utf8. lia.
Qed.

Lemma len_utf8_quote : len_utf8 QUOTE = 1%Z.
Proof. done. Qed.

Lemma byte_at_quote pre s :
  byte_at (as_bytes (pre ++ QUOTE :: s)) (str_len pre) = Some QUOTE /\
  byte_at (as_bytes (pre ++ QUOTE :: s)) (str_len pre + 1) = head (as_bytes s).
Proof.
  split; [by rewrite byte_at_app|].
  replace (str_len pre + 1)%Z with (str_len (pre ++ [QUOTE])) by (by rewrite str_len_app).
  rewrite (cons_middle QUOTE pre s), app_assoc. by rewrite byte_at_app.
Qed.

(** The slice of a token, given what stands around it. *)
Lemma make_string_token_app pre slice post start end_ :
  start = str_len pre -> end_ = (str_len pre + str_len slice)%Z ->
  make_string_token (pre ++ slice ++ post) start end_ = Some (MkSdblToken S.String slice start).
Proof. intros -> ->. unfold make_string_token. by rewrite str_slice_app. Qed.

Lemma str_len_empty s : (str_len s <= 0)%Z -> s = [].
Proof.
  destruct s as [|c s]; [done|]. simpl. pose proof (len_utf8_pos c). pose proof (str_len_nonneg s). lia.
Qed.

Lemma scan_loop_close pre d s fuel toks :
  head s <> Some QUOTE ->
  let input := pre ++ d ++ QUOTE :: s in
  scan_loop (S fuel) input (as_bytes input) (str_len pre) (str_len (pre ++ d)) toks =
  Some (toks ++ string_token d (str_len pre) ++
    [MkSdblToken S.String [QUOTE] (str_len (pre ++ d))], (str_len (pre ++ d) + 1)%Z, true).
Proof.
  intros Hs input. simpl. unfold input. rewrite (app_assoc pre d).
  destruct (byte_at_quote (pre ++ d) s) as [-> ->]. simpl.
  rewrite bool_decide_eq_false_2 by by rewrite head_quote.
  rewrite (make_string_token_app (pre ++ d) [QUOTE] s) by done.
  rewrite <- (app_assoc pre d), str_len_app.
  destruct (Z.ltb_spec (str_len pre) (str_len pre + str_len d)) as [Hd|Hd].
  - rewrite (make_string_token_app pre d (QUOTE :: s)) by done. simpl. rewrite <- app_assoc.
    destruct d; [simpl in *; lia|done].
  - rewrite (str_len_empty d) by lia. done.
Qed.

Lemma scan_loop_body s : forall pre d fuel toks body closed rest,
  (length (as_bytes s) < fuel)%nat -> string_body s = (body, closed, rest) ->
  scan_loop fuel (pre ++ d ++ s) (as_bytes (pre ++ d ++ s)) (str_len pre) (str_len (pre ++ d)) toks =
  Some (if closed
        then toks ++ string_token (d ++ body) (str_len pre) ++
             [MkSdblToken S.String [QUOTE] (str_len (pre ++ d ++ body))]
        else toks,
        (str_len (pre ++ d ++ body) + if closed then 1 else 0)%Z, closed).
Proof.
  induction s as [| |s IH|c s Hc|c s Hc IH] using string_body_ind;
    intros pre d fuel toks body closed rest Hf.
  - intros [= <- <- <-]. destruct fuel as [|fuel]; [simpl in *; lia|]. simpl.
    rewrite (app_assoc pre d), byte_at_app. simpl. by rewrite !app_nil_r, Z.add_0_r.
  - intros [= <- <- <-]. destruct fuel as [|fuel]; [simpl in *; lia|].
    rewrite scan_loop_close by done. by rewrite !app_nil_r.
  - simpl. destruct (string_body s) as [[b cl] r] eqn:Es. intros [= <- <- <-].
    destruct fuel as [|fuel]; [simpl in *; lia|].
    destruct (byte_at_quote (pre ++ d) (QUOTE :: s)) as [E1 E2]. rewrite <- app_assoc in E1, E2.
    simpl. rewrite E1, E2. simpl.
    specialize (IH pre (d ++ [QUOTE; QUOTE]) fuel toks b cl r).
    rewrite <- !app_assoc in IH. simpl in IH. rewrite <- IH; [|simpl in *; lia|done].
    f_equal. rewrite !str_len_app. simpl. rewrite len_utf8_quote. lia.
  - intros E. simpl in E. rewrite (proj2 (Z.eqb_neq c QUOTE)) in E by done. revert E.
    intros [= <- <- <-]. destruct fuel as [|fuel]; [simpl in *; lia|].
    rewrite scan_loop_close by (intros [= ->]; done). by rewrite !app_nil_r.
  - simpl. rewrite (proj2 (Z.eqb_neq c QUOTE)) by done.
    destruct (string_body s) as [[b cl] r] eqn:Es. intros [= <- <- <-].
    rewrite as_bytes_cons, length_app in Hf.
    replace fuel with (length (encode_utf8 c) + (fuel - length (encode_utf8 c)))%nat by lia.
    rewrite (app_assoc pre d). rewrite scan_loop_char by done.
    specialize (IH pre (d ++ [c]) (fuel - length (encode_utf8 c))%nat toks b cl r).
    rewrite <- !app_assoc in *. simpl in IH. rewrite <- IH; [done|lia|done].
Qed.

Lemma str_len_quote pre s : str_len (pre ++ QUOTE :: s) = (str_len pre + 1 + str_len s)%Z.
Proof. rewrite str_len_app. simpl. rewrite len_utf8_quote. lia. Qed.

#[local] Arguments scan_loop : simpl never.

(** The literal is cut as the reference says. *)
Lemma scan_string pre s body closed rest :
  string_body s = (body, closed, rest) ->
  scan (pre ++ QUOTE :: s) (str_len pre) =
  Some (MkStringsRun (string_tokens body closed (str_len pre))
    (str_len pre + 1 + str_len body + if closed then 1 else 0)%Z).
Proof.
  intros E. pose proof (string_body_split _ _ _ _ E) as Hs. unfold scan.
  destruct (byte_at_quote pre s) as [-> _]. rewrite bool_decide_eq_true_2 by done.
  rewrite (make_string_token_app pre [QUOTE] s) by done. cbn [mbind option_bind].
  pose proof (scan_loop_body s (pre ++ [QUOTE]) [] (S (length (as_bytes (pre ++ QUOTE :: s))))
    [MkSdblToken S.String [QUOTE] (str_len pre)] body closed rest) as Hl.
  rewrite <- !app_assoc in Hl. cbn [app] in Hl. rewrite !str_len_quote, !Z.add_0_r in Hl.
  rewrite Hl; [|rewrite as_bytes_app, length_app; simpl; lia|done]. cbn [mbind option_bind].
  unfold string_tokens. destruct closed; cbn [negb andb]; [done|]. rewrite Z.add_0_r.
  destruct (Z.ltb_spec (str_len pre + 1) (str_len pre + 1 + str_len body)).
  - rewrite Hs, (cons_middle QUOTE pre), app_assoc.
    rewrite (make_string_token_app (pre ++ [QUOTE]) body rest) by (rewrite str_len_quote; simpl; lia).
    cbn [mbind option_bind app]. rewrite app_nil_r. destruct body; [simpl in *; lia|done].
  - rewrite (str_len_empty body) by lia. done.
Qed.

(** ** Tilings *)

(** The lexemes stand next to one another from an offset on, and none is empty. *)
Fixpoint Tiles (offset : Z) (s : text) (ts : list SdblToken) : Prop :=
  match ts with
  | [] => s = []
  | t :: ts =>
      exists rest, s = sdbl_text t ++ rest /\ sdbl_text t <> [] /\ sdbl_offset t = offset /\
        Tiles (offset + str_len (sdbl_text t)) rest ts
  end.

Lemma Tiles_app o s1 s2 ts1 ts2 :
  Tiles o s1 ts1 -> Tiles (o + str_len s1) s2 ts2 -> Tiles o (s1 ++ s2) (ts1 ++ ts2).
Proof.
  revert o s1. induction ts1 as [|t ts1 IH]; intros o s1; simpl.
  - intros ->. by rewrite Z.add_0_r.
  - intros (rest & -> & Hne & <- & Hr) H2. exists (rest ++ s2). rewrite <- app_assoc. split_and!; [done..|].
    apply IH; [done|]. rewrite str_len_app, Z.add_assoc in H2. done.
Qed.

Lemma Tiles_one o s : s <> [] -> forall kind, Tiles o s [MkSdblToken kind s o].
Proof. intros Hs kind. exists []. by rewrite app_nil_r. Qed.

Lemma Tiles_string body (closed : bool) o :
  Tiles o (QUOTE :: body ++ (if closed then [QUOTE] else [])) (string_tokens body closed o).
Proof.
  apply (Tiles_app o [QUOTE] _ [_]); [by apply Tiles_one|]. simpl. rewrite len_utf8_quote, Z.add_0_r.
  apply Tiles_app.
  - destruct body; [done|by apply Tiles_one].
  - destruct closed; [|done]. by apply Tiles_one.
Qed.

Lemma Tiles_texts o s ts : Tiles o s ts -> concat (sdbl_text <$> ts) = s.
Proof.
  revert o s. induction ts as [|t ts IH]; intros o s; [by intros ->|].
  intros (rest & -> & _ & _ & H). csimpl. by rewrite (IH _ _ H).
Qed.

Lemma Tiles_length o s ts : Tiles o s ts -> (length ts <= length s)%nat.
Proof.
  revert o s. induction ts as [|t ts IH]; intros o s; simpl; [lia|].
  intros (rest & -> & Hne & _ & H). apply IH in H. rewrite length_app. destruct (sdbl_text t); [done|].
  simpl. lia.
Qed.

Lemma Tiles_offsets o s ts :
  (0 <= o)%Z -> Tiles o s ts -> Forall (fun t => 0 <= sdbl_offset t)%Z ts.
Proof.
  revert o s. induction ts as [|t ts IH]; intros o s Ho; [constructor|].
  intros (rest & -> & _ & <- & H). pose proof (str_len_nonneg (sdbl_text t)).
  constructor; [done|]. eapply IH; [|done]. lia.
Qed.

Section tokenize.
Context `{SdblLexerLaws}.

Lemma tokenize_loop_tiles fuel : forall pre s result,
  (length s < fuel)%nat ->
  exists ts, tokenize_loop fuel (pre ++ s) (str_len pre) result = Some (result ++ ts) /\
    Tiles (str_len pre) s ts.
Proof.
  induction fuel as [|fuel IH]; intros pre s result Hf; [lia|]. simpl. rewrite str_len_app.
  destruct (Z.ltb_spec (str_len pre) (str_len pre + str_len s)) as [Hlt|Hge].
  2:{ rewrite (str_len_empty s) by lia. exists []. by rewrite app_nil_r. }
  pose proof (str_slice_app pre s []) as E. rewrite app_nil_r in E. rewrite E. simpl.
  assert (forall run rest ts, s = run ++ rest -> run <> [] -> Tiles (str_len pre) run ts ->
    exists ts', tokenize_loop fuel (pre ++ s) (str_len pre + str_len run) (result ++ ts) =
      Some (result ++ ts') /\ Tiles (str_len pre) s ts') as Hnext.
  { intros run rest ts -> Hne Hts. specialize (IH (pre ++ run) rest (result ++ ts)).
    rewrite str_len_app, <- !app_assoc in IH. destruct IH as (ts' & -> & Hts').
    - rewrite length_app in Hf. destruct run; [done|]. simpl in Hf. lia.
    - exists (ts ++ ts'). split; [by rewrite <- app_assoc|]. by apply Tiles_app. }
  destruct (bool_decide_reflect (head s = Some QUOTE)) as [Hq|Hq].
  - destruct s as [|c s]; [done|]. simpl in Hq. injection Hq as ->.
    destruct (string_body s) as [[body closed] rest] eqn:Es. rewrite (scan_string _ _ _ _ _ Es). simpl.
    pose proof (string_body_split _ _ _ _ Es) as Hs.
    destruct (Hnext (QUOTE :: body ++ (if closed then [QUOTE] else [])) rest
      (string_tokens body closed (str_len pre))) as (ts' & Ht & Hts'); [| |apply Tiles_string|].
    + rewrite Hs. simpl. rewrite <- app_assoc. by destruct closed.
    + done.
    + exists ts'. split; [|done]. rewrite <- Ht. f_equal. simpl. rewrite str_len_app, len_utf8_quote.
      destruct closed; simpl; [rewrite len_utf8_quote|]; lia.
  - destruct (sdbl_next s) as [[item slice]|] eqn:En.
    2:{ apply next_end in En as ->. simpl in Hlt. lia. }
    destruct (next_slice _ _ _ En) as [Hne [rest Hs]].
    destruct (Hnext slice rest [MkSdblToken (default S.Error item) slice (str_len pre)] Hs Hne)
      as (ts' & Ht & Hts'); [by apply Tiles_one|].
    exists ts'. split; [|done]. rewrite <- Ht.
    assert (default S.Error item <> S.Quote) as Hk.
    { intros Hk. destruct item as [k|]; [|done]. simpl in Hk. subst. by apply next_quote in En. }
    by destruct (default S.Error item).
Qed.

(** The lexemes tile the text, whatever it is: no slice is cut inside a character, the quote never
    reaches the automaton, and the loop ends. *)
Lemma tokenize_sdbl_tiles input : exists ts, tokenize_sdbl input = Some ts /\ Tiles 0 input ts.
Proof. apply (tokenize_loop_tiles (S (length input)) [] input []). lia. Qed.
End tokenize.
