(* ===== verification/SdblParse.v ===== *)
(** SdblParse: the query front end as a whole (crates/parser/src/lib.rs, [parse_sdbl]): the text of
    a query goes through the lexer, the converter, the grammar and the sink. *)
From stdpp Require Import prelude strings.
From S2P Require Import Prelude Case Kinds Tokens Input TornIf ParserCore Events Hoare Sink Denotation SinkSpec Parsing Parse Utf8.
From S2P Require Import Sdbl SdblExpressions SdblSelect SdblHoare SdblSpec SdblSelectSpec SdblPackageSpec SdblTokens SdblLexer.

(** ** Definitions *)

(** The parser's share: the events of a package. *)
Definition sdbl_events `{CharCase} (toks : list Token) : Outcome (list Event) :=
  (set_grammar_boundary (query_boundary _);; query_package;; gets events) (Parser_new toks).

(** [parse_sdbl], up to the tree builder's last call; [None] is a panic. *)
Definition parse_sdbl `{CharCase} `{SdblLexer} (input : text) : option SyntaxTreeBuilder :=
  sdbl_tokens ← tokenize_sdbl input;
  let tokens := convert_sdbl_tokens sdbl_tokens in
  match sdbl_events tokens with
  | Ok events _ => build_tree tokens events
  | _ => None
  end.

(** The checks of the guard that a run over [toks] may need. *)
Definition sdbl_checks_bound (toks : list Token) : Z := (8 * Z.of_nat (length (sig_kinds toks)) + 6)%Z.

(** ** The initial state *)

Lemma length_sig_kinds toks : (length (sig_kinds toks) <= length toks)%nat.
Proof. induction toks as [|t toks IH]; simpl; [lia|]. destruct (is_trivia _); simpl; lia. Qed.

Lemma sig_position_kind toks : forall index j q t,
  sig_positions index toks !! j = Some q -> toks !! (q - index)%nat = Some t ->
  sig_kinds toks !! j = Some (MkSig (tok_kind t)).
Proof.
  induction toks as [|t0 toks IH]; intros index j q t; simpl; [done|].
  destruct (is_trivia (tok_kind t0)).
  - intros Hq. pose proof (sig_positions_bound _ _ _ _ Hq).
    replace (q - index)%nat with (S (q - S index)) by lia. simpl. by eapply IH.
  - destruct j as [|j]; simpl.
    + intros [= <-]. rewrite Nat.sub_diag. simpl. by intros [= ->].
    + intros Hq. pose proof (sig_positions_bound _ _ _ _ Hq).
      replace (q - index)%nat with (S (q - S index)) by lia. simpl. by eapply IH.
Qed.

Lemma Input_new_consistent toks :
  (Z.of_nat (length toks) < 2 ^ 32)%Z -> Consistent (Input_new toks).
Proof.
  intros Hlen pos t Ht Hk. unfold input_token in Ht. rewrite Input_new_raw, Input_new_tokens in Ht.
  rewrite list_lookup_fmap in Ht. destruct (sig_positions 0 toks !! pos) as [q|] eqn:E; [|done].
  simpl in Ht. pose proof (sig_positions_bound _ _ _ _ E).
  unfold as_u32 in Ht. rewrite Z.mod_small, Nat2Z.id in Ht by lia.
  unfold input_kind. rewrite Input_new_kinds.
  rewrite (sig_position_kind toks 0 pos q t E) by by rewrite Nat.sub_0_r. by rewrite Hk.
Qed.

(** The entry rule from the state that [parse_sdbl] gives it. *)
Lemma query_package_run `{CharCase} toks :
  (Z.of_nat (length toks) <= I32_MAX)%Z ->
  wp (sdbl_checks_bound toks) (set_grammar_boundary (query_boundary _);; query_package) (fun _ p' =>
    pos p' = length (sig_kinds toks) /\ enclosing_boundaries p' = [] /\
    at_grammar_boundary p' = Some (query_boundary _) /\
    token_kinds (events p') = sig_kind <$> sig_kinds toks /\
    exists closed last, Forall Member closed /\ Member last /\
      events p' = Start NK.SdblQueryPackage None ::
        (concat (closed_member <$> closed) ++ last) ++ [Finish]) (Parser_new toks).
Proof.
  intros Hn. unfold I32_MAX in Hn. pose proof (length_sig_kinds toks).
  assert (Consistent (Input_new toks)) as Hc by (apply Input_new_consistent; lia).
  apply wp_bind, wp_modify. set (p := set_boundary _ _).
  assert (@Inv (Some (query_boundary _)) (Input_new toks) p) as Hi by (constructor; simpl; try done; lia).
  assert (input_len (Input_new toks) = length (sig_kinds toks)) as Hl
    by (unfold input_len; by rewrite Input_new_kinds).
  eapply wp_mono; [eapply (@query_package_spec (Some (query_boundary _)) (Input_new toks))|].
  - done.
  - lia.
  - unfold I32_MAX. lia.
  - exact Hi.
  - unfold pot, sdbl_checks_bound. rewrite Hl. simpl. lia.
  - done.
  - intros [] p' ([_ Hb _ _ _ _ _ _ Ht] & Hp & He & Hev). rewrite Hp in Ht. rewrite Hl in *.
    rewrite Input_new_kinds, take_ge in Ht by by rewrite length_fmap. by split_and!.
Qed.

(** ** Theorems *)

(** The members of the events are the runs of the tokens between separators. *)
Lemma events_split es closed last :
  Forall Member closed -> Member last ->
  es = Start NK.SdblQueryPackage None :: (concat (closed_member <$> closed) ++ last) ++ [Finish] ->
  split_members (token_kinds es) = token_kinds <$> (closed ++ [last]).
Proof.
  intros Hc Hl ->. rewrite <- split_members_concat by done. f_equal.
  unfold token_kinds. csimpl. rewrite omap_app. by rewrite app_nil_r.
Qed.

(** C8. A query package is cut at its separators: on any query, however broken, the grammar ends
    (only the iteration guard can stop it, and that needs 8 checks for every token), having
    consumed every token and left its boundary in force; what it builds is one
    [SdblQueryPackage] node whose members between the separators are forests of nodes without a
    separator of their own, and the tokens of the members are the runs of the input between its
    separators, so no error recovery moves a token from one query to another or swallows a
    separator. *)
Theorem query_package_splits_at_separators `{CharCase} toks :
  (Z.of_nat (length toks) <= I32_MAX)%Z ->
  match (set_grammar_boundary (query_boundary _);; query_package) (Parser_new toks) with
  | Ok _ p' =>
      pos p' = length (sig_kinds toks) /\ enclosing_boundaries p' = [] /\
      at_grammar_boundary p' = Some (query_boundary _) /\
      exists members last,
        events p' = Start NK.SdblQueryPackage None ::
          (concat ((fun m => m ++ [EToken Semicolon]) <$> members) ++ last) ++ [Finish] /\
        Forall Forest (members ++ [last]) /\
        token_kinds <$> (members ++ [last]) = split_members (sig_kind <$> sig_kinds toks)
  | Panic reason => reason = IterationLimit /\ (MAX_ITERATIONS <= sdbl_checks_bound toks)%Z
  | OutOfFuel => False
  end.
Proof.
  intros Hn. pose proof (query_package_run toks Hn) as Hrun. unfold wp in Hrun.
  destruct ((set_grammar_boundary _;; query_package) (Parser_new toks)) as [[] p'|reason|]; [|done..].
  destruct Hrun as (Hp & He & Hb & Ht & closed & last & Hc & Hl & Hev). split_and!; [done..|].
  exists closed, last. split_and!; [done| |].
  - apply Forall_app_2; [|apply Forall_singleton; by destruct Hl].
    eapply Forall_impl; [exact Hc|]. by intros m [].
  - rewrite <- Ht. by rewrite (events_split _ closed last).
Qed.

(** The events of a query below the guard. *)
Lemma sdbl_events_spec `{CharCase} toks :
  (Z.of_nat (length toks) <= I32_MAX)%Z -> (sdbl_checks_bound toks < MAX_ITERATIONS)%Z ->
  exists body p', sdbl_events toks = Ok (Start NK.SdblQueryPackage None :: body ++ [Finish]) p' /\
    Forest body /\ token_kinds body = word_kinds toks.
Proof.
  intros Hn Hb. pose proof (query_package_run toks Hn) as Hrun. unfold wp, sdbl_events, mbind, M_bind in *.
  simpl in *. destruct (query_package _) as [[] p'|reason|]; [|destruct Hrun; lia|done].
  destruct Hrun as (_ & _ & _ & Ht & closed & last & Hc & Hl & Hev).
  eexists _, p'. simpl. rewrite <- Hev. split; [done|]. split; [by apply Members_forest|].
  rewrite word_kinds_sig, <- Ht, Hev. unfold token_kinds. csimpl. rewrite (omap_app _ (_ ++ _)). by rewrite app_nil_r.
Qed.

(** C7. Parsing a query is total and lossless: for every text, whatever the generated automaton
    matches within its documented behaviour, the lexer's tokens tile the text without an invalid
    slice; and below the iteration guard the parser gives a tree with a [SDBL_QUERY_PACKAGE] root
    whose tokens are the lexer's, each once, in order and with its converted kind, so that the
    text of the tree is the text of the query. *)
Theorem parse_sdbl_lossless `{CharCase} `{SdblLexerLaws} input :
  (Z.of_nat (length input) <= I32_MAX)%Z ->
  exists sdbl_tokens, tokenize_sdbl input = Some sdbl_tokens /\ Tiles 0 input sdbl_tokens /\
    ((sdbl_checks_bound (convert_sdbl_tokens sdbl_tokens) < MAX_ITERATIONS)%Z ->
     exists b l, parse_sdbl input = Some b /\
       inner b = StartNode SK.SDBL_QUERY_PACKAGE :: l ++ [FinishNode] /\ closes 0 l = Some 0%nat /\
       log_tokens (inner b) =
         (fun t => (token_kind_to_syntax (convert_sdbl_token_kind (sdbl_kind t)), sdbl_text t)) <$> sdbl_tokens /\
       concat (snd <$> log_tokens (inner b)) = input).
Proof.
  intros Hn. destruct (tokenize_sdbl_tiles input) as (ts & Ht & Htiles). exists ts. split_and!; [done..|].
  intros Hb. pose proof (Tiles_length _ _ _ Htiles).
  destruct (sdbl_events_spec (convert_sdbl_tokens ts)) as (body & p' & E & Hf & Hk); [|done|].
  { unfold convert_sdbl_tokens. rewrite length_fmap. lia. }
  destruct (finish_builds (convert_sdbl_tokens ts) NK.SdblQueryPackage body)
    as (ms & ops & l & b & _ & Efin & [Hin Hcl _ Htok _ _ _ _]); [|done|done|].
  { apply Forall_fmap. by eapply Tiles_offsets. }
  assert (log_tokens (inner b) = token_pair <$> convert_sdbl_tokens ts) as Hall.
  { rewrite Hin, <- Htok. unfold log_tokens. csimpl. rewrite omap_app. by rewrite app_nil_r. }
  exists b, l. unfold parse_sdbl, build_tree. rewrite Ht. simpl. rewrite E. split_and!; [done..| |].
  - rewrite Hall. unfold convert_sdbl_tokens. by rewrite <- list_fmap_compose.
  - rewrite Hall, <- list_fmap_compose. rewrite <- (Tiles_texts _ _ _ Htiles). f_equal.
    by rewrite <- convert_texts.
Qed.

(** ** A package with a stray separator and a broken member *)

(** A lexer of words and single characters. *)
Definition is_word_char (c : char) : bool :=
  ((0x41 <=? c) && (c <=? 0x5A) || (0x61 <=? c) && (c <=? 0x7A))%Z.

Fixpoint word_run (s : text) : text :=
  match s with
  | c :: s => if is_word_char c then c :: word_run s else []
  | [] => []
  end.

Definition char_kind (c : char) : option SdblTokenKind :=
  (if c =? 0x20 then Some S.Whitespace else if c =? 0x3B then Some S.Semicolon
   else if c =? 0x2C then Some S.Comma else if c =? 0x29 then Some S.RParen
   else if c =? 0x22 then Some S.Quote else None)%Z.

#[local] Instance word_lexer : SdblLexer := fun s =>
  match s with
  | [] => None
  | c :: rest => if is_word_char c then Some (Some S.Ident, word_run s) else Some (char_kind c, [c])
  end.

Lemma word_run_prefix s : exists rest, s = word_run s ++ rest.
Proof.
  induction s as [|c s [rest IH]]; [by exists []|]. simpl.
  destruct (is_word_char c); [|by exists (c :: s)]. exists rest. simpl. by rewrite <- IH.
Qed.

#[local] Instance word_lexer_laws : SdblLexerLaws.
Proof.
  split.
  - intros [|c s]; [done|]. unfold sdbl_next, word_lexer. by case_match.
  - intros [|c s] item slice; [done|]. unfold sdbl_next, word_lexer.
    destruct (is_word_char c) eqn:Ec; intros [= <- <-].
    + split; [simpl; by rewrite Ec|apply word_run_prefix].
    + split; [done|by exists s].
  - intros [|c s] slice; [done|]. unfold sdbl_next, word_lexer, char_kind.
    destruct (is_word_char c); [done|]. repeat case_match; intros [= <-] || done.
    by match goal with H : (_ =? 0x22)%Z = true |- _ => apply Z.eqb_eq in H as -> end.
Qed.

Definition sample_query : text := chars "select a as;) b; select c".

Definition sample_sdbl_tokens : list SdblToken := default [] (tokenize_sdbl sample_query).

(** The members: [select a as], [) b] and [select c]. *)
Lemma query_package_splits_at_separators_witness :
  exists p' members last,
    (set_grammar_boundary (query_boundary basic_lowercase);; @query_package basic_lowercase)
      (Parser_new (convert_sdbl_tokens sample_sdbl_tokens)) = Ok tt p' /\
    pos p' = 9%nat /\
    token_kinds <$> (members ++ [last]) =
      [[Ident; Ident; Ident]; [RParen; Ident]; [Ident; Ident]].
Proof.
  pose proof (@query_package_splits_at_separators basic_lowercase
    (convert_sdbl_tokens sample_sdbl_tokens) ltac:(by vm_compute)) as Hrun.
  destruct ((set_grammar_boundary _;; query_package) (Parser_new _)) as [[] p'|reason|];
    [|exfalso; destruct Hrun as [_ Hrun]; by apply Hrun|done].
  destruct Hrun as (Hp & _ & _ & members & last & _ & _ & Hk). exists p', members, last.
  split_and!; [done| |]; [rewrite Hp|rewrite Hk]; by vm_compute.
Defined.

Lemma parse_sdbl_lossless_witness :
  exists b, @parse_sdbl basic_lowercase word_lexer sample_query = Some b /\
    concat (snd <$> log_tokens (inner b)) = sample_query.
Proof.
  destruct (@parse_sdbl_lossless basic_lowercase word_lexer word_lexer_laws sample_query
    ltac:(by vm_compute)) as (ts & Ht & _ & H).
  destruct H as (b & l & Hb & _ & _ & _ & Htext).
  { assert (ts = sample_sdbl_tokens) as -> by (unfold sample_sdbl_tokens; by rewrite Ht). by vm_compute. }
  exists b. split; [exact Hb|exact Htext].
Defined.
