(* ===== verification/Names.v ===== *)
(** Names: operations of the language's library on names, and folded names as keys.

    Names of BSL are compared regardless of case, by [fold_lower] and [eq_ignore_case] of Case.  The
    first asks the library for whole texts, the second for single characters; [fold_lower_key] is
    what makes them agree. *)
From stdpp Require Import prelude strings.
From S2P Require Import Prelude Case.

(** ** The library *)

(** [str::eq_ignore_ascii_case]. *)
Definition to_ascii_lowercase (c : char) : char :=
  if ((0x41 <=? c) && (c <=? 0x5A))%Z then (c + 32)%Z else c.

Definition eq_ignore_ascii_case (a b : text) : bool :=
  bool_decide (to_ascii_lowercase <$> a = to_ascii_lowercase <$> b).

(** [str::replace] of one character by a text of one character. *)
Definition replace_char (c d : char) (s : text) : text :=
  (fun x => if (x =? c)%Z then d else x) <$> s.

(** [char::is_whitespace]: the characters with the property White_Space. *)
Definition is_whitespace (c : char) : bool :=
  ((0x9 <=? c) && (c <=? 0xD) || (c =? 0x20) || (c =? 0x85) || (c =? 0xA0) || (c =? 0x1680) ||
   (0x2000 <=? c) && (c <=? 0x200A) || (c =? 0x2028) || (c =? 0x2029) || (c =? 0x202F) ||
   (c =? 0x205F) || (c =? 0x3000))%Z.

Fixpoint trim_start (s : text) : text :=
  match s with
  | c :: rest => if is_whitespace c then trim_start rest else s
  | [] => []
  end.

(** [str::trim]. *)
Definition trim (s : text) : text := reverse (trim_start (reverse (trim_start s))).

(** [str::split_once] at a character: what stands before and after the first one. *)
Fixpoint split_once (c : char) (s : text) : option (text * text) :=
  match s with
  | [] => None
  | x :: s =>
      if (x =? c)%Z then Some ([], s)
      else '(before, after) ← split_once c s; Some (x :: before, after)
  end.

Fixpoint starts_with (s prefix : text) : bool :=
  match prefix, s with
  | [], _ => true
  | p :: prefix, x :: s => (x =? p)%Z && starts_with s prefix
  | _ :: _, [] => false
  end.

(** [str::contains] of a text. *)
Fixpoint contains (s pattern : text) : bool :=
  starts_with s pattern || match s with [] => false | _ :: s => contains s pattern end.

(** [str::strip_suffix]. *)
Definition strip_suffix (s suffix : text) : option text :=
  if decide (drop (length s - length suffix) s = suffix)
  then Some (take (length s - length suffix) s) else None.

(** [char::is_alphabetic], a table of the library. *)
Class CharAlphabetic := is_alphabetic : char -> bool.

(** ** Folded names

    [str::to_lowercase] maps every character by [char::to_lowercase], but for the capital sigma at
    the end of a word. *)
Definition no_sigma (s : text) : Prop := 0x3A3%Z ∉ s.

Class StrLowerLaws `{CharCase, StrLower} := {
  str_lower_chars : forall s, no_sigma s -> str_to_lowercase s = s ≫= to_lowercase;
}.

#[export] Instance no_sigma_dec s : Decision (no_sigma s).
Proof. unfold no_sigma. apply _. Defined.

Section folding.
Context `{CharCaseLaws} `{StrLower} `{!StrLowerLaws}.

Lemma mapM_fast_lowercase s t : mapM fold_char_fast s = Some t -> s ≫= to_lowercase = t.
Proof.
  revert t. induction s as [|c s IH]; intros t; csimpl; [by intros [= <-]|].
  destruct (fold_char_fast c) as [f|] eqn:E; [|done]. simpl.
  destruct (mapM fold_char_fast s) as [t'|]; [|done]. intros [= <-].
  by rewrite (lowercase_fast _ _ E), (IH t').
Qed.

(** Both foldings give the same key. *)
Lemma fold_lower_key s : no_sigma s -> fold_lower s = fold_lower_per_char s.
Proof.
  intros Hs. rewrite fold_lower_spec, str_lower_chars, fold_lower_per_char_bind; [done..|].
  intros t Ht. rewrite str_lower_chars by done. by apply mapM_fast_lowercase.
Qed.

Lemma fold_lower_eq a b :
  no_sigma a -> no_sigma b -> fold_lower a = fold_lower b <-> eq_ignore_case a b = true.
Proof. intros. rewrite !fold_lower_key by done. symmetry. apply eq_ignore_case_folded. Qed.
End folding.

(** ** A folding for the examples *)

Definition basic_str_lower : StrLower := fun s => s ≫= basic_lowercase.

#[export] Instance basic_str_lower_laws : @StrLowerLaws basic_lowercase basic_str_lower.
Proof. by split. Qed.
