(* ===== verification/Metadata.v ===== *)
(** Metadata: the kinds of metadata objects and what they are called.

    [Mdo.MdoType] is crates/bsl-metadata/src/metadata_object.rs, [FEK.FormElementKind]
    crates/bsl-metadata/src/form.rs, [ConfigId] crates/bsl-config/src/lib.rs; [MK.MetadataKind] and
    [MRK.MetadataReferenceKind] are the kinds of values and references of
    crates/bsl-types/src/kind.rs, with the tables between them and their names in both languages.
    The names read from a text are compared folded. *)
From stdpp Require Import prelude strings.
From S2P Require Import Prelude Case Names.

(** ** Enumerations *)

Module Mdo.
Inductive MdoType : Set :=
  | Catalog | Document | InformationRegister | AccumulationRegister | AccountingRegister
  | CalculationRegister | ChartOfCharacteristicTypes | ChartOfAccounts | ChartOfCalculationTypes
  | BusinessProcess | Task | Enum | ExchangePlan | ExternalDataSource | Constant | DataProcessor
  | Report | ExternalDataProcessor | ExternalReport | CommonModule | EventSubscription
  | Subsystem | Role.
End Mdo.
Abbreviation MdoType := Mdo.MdoType.

(** The position in the enumeration; the order of the derived [Ord]. *)
Definition mdo_index (mdo : MdoType) : N :=
  match mdo with
  | Mdo.Catalog => 0 | Mdo.Document => 1 | Mdo.InformationRegister => 2
  | Mdo.AccumulationRegister => 3 | Mdo.AccountingRegister => 4 | Mdo.CalculationRegister => 5
  | Mdo.ChartOfCharacteristicTypes => 6 | Mdo.ChartOfAccounts => 7
  | Mdo.ChartOfCalculationTypes => 8 | Mdo.BusinessProcess => 9 | Mdo.Task => 10 | Mdo.Enum => 11
  | Mdo.ExchangePlan => 12 | Mdo.ExternalDataSource => 13 | Mdo.Constant => 14
  | Mdo.DataProcessor => 15 | Mdo.Report => 16 | Mdo.ExternalDataProcessor => 17
  | Mdo.ExternalReport => 18 | Mdo.CommonModule => 19 | Mdo.EventSubscription => 20
  | Mdo.Subsystem => 21 | Mdo.Role => 22
  end.

Definition mdo_list : list MdoType :=
  [ Mdo.Catalog; Mdo.Document; Mdo.InformationRegister; Mdo.AccumulationRegister;
    Mdo.AccountingRegister; Mdo.CalculationRegister; Mdo.ChartOfCharacteristicTypes;
    Mdo.ChartOfAccounts; Mdo.ChartOfCalculationTypes; Mdo.BusinessProcess; Mdo.Task; Mdo.Enum;
    Mdo.ExchangePlan; Mdo.ExternalDataSource; Mdo.Constant; Mdo.DataProcessor; Mdo.Report;
    Mdo.ExternalDataProcessor; Mdo.ExternalReport; Mdo.CommonModule; Mdo.EventSubscription;
    Mdo.Subsystem; Mdo.Role ].

Module FEK.
Inductive FormElementKind : Set :=
  | Table | Group | Field | Button | Decoration | Addition | Other | UsualGroup | Pages | Page
  | CommandBar | ButtonGroup.
End FEK.
Abbreviation FormElementKind := FEK.FormElementKind.

Module MRK.
Inductive MetadataReferenceKind : Set :=
  | Role | EventSubscription | ScheduledJob | HttpService | WebService | Subsystem.
End MRK.
Abbreviation MetadataReferenceKind := MRK.MetadataReferenceKind.

Module MK.
Inductive MetadataKind : Set :=
  | CatalogRef | DocumentRef | DocumentObject | CatalogObject | InformationRegisterRecordManager
  | InformationRegisterRecordSet | AccumulationRegisterRecordSet | AccountingRegisterRecordSet
  | CalculationRegisterRecordSet | InformationRegisterRecord | AccumulationRegisterRecord
  | AccountingRegisterRecord | CalculationRegisterRecord | EnumRef | TaskRef | TaskObject
  | BusinessProcessRef | BusinessProcessObject | DataProcessorObject | ReportObject
  | ExternalDataProcessorObject | ExternalReportObject | ConstantValueManager | ExchangePlanRef
  | ExchangePlanObject | ChartOfAccountsRef | ChartOfAccountsObject
  | ChartOfCharacteristicTypesRef | ChartOfCharacteristicTypesObject | ChartOfCalculationTypesRef
  | ChartOfCalculationTypesObject | InformationRegisterRef | AccumulationRegisterRef
  | AccountingRegisterRef | CalculationRegisterRef | RegisterDimension (parent : MdoType)
  | RegisterResource (parent : MdoType) | RegisterAttribute (parent : MdoType)
  | RegisterFilter (parent : MdoType) | TabularSection (parent : MdoType)
  | TabularSectionRow (parent : MdoType).
End MK.
Abbreviation MetadataKind := MK.MetadataKind.

(** Which configuration a name was resolved in. *)
Inductive ConfigId : Set := Root | Resolved (index : Z) | ConfigUnknown (name : text).

(** ** Decidable equality *)

Lemma mdo_of_index mdo : mdo_list !! N.to_nat (mdo_index mdo) = Some mdo.
Proof. by destruct mdo. Qed.

#[export] Instance mdo_index_inj : Inj (=) (=) mdo_index.
Proof. intros x y E. apply (inj Some). by rewrite <- !mdo_of_index, E. Qed.

#[export] Instance MdoType_eq_dec : EqDecision MdoType.
Proof. exact (fun x y => decode_decision mdo_index x y). Defined.

#[export] Instance FormElementKind_eq_dec : EqDecision FormElementKind.
Proof. solve_decision. Defined.

#[export] Instance MetadataReferenceKind_eq_dec : EqDecision MetadataReferenceKind.
Proof. solve_decision. Defined.

#[export] Instance MetadataKind_eq_dec : EqDecision MetadataKind.
Proof. solve_decision. Defined.

#[export] Instance ConfigId_eq_dec : EqDecision ConfigId.
Proof. solve_decision. Defined.

(** ** Kinds of metadata objects *)
Definition is_register (mdo : MdoType) : bool :=
  match mdo with
  | Mdo.InformationRegister | Mdo.AccumulationRegister | Mdo.AccountingRegister
  | Mdo.CalculationRegister => true
  | _ => false
  end.

Definition russian_name (mdo : MdoType) : text :=
  match mdo with
  | Mdo.Catalog => chars "Справочник"
  | Mdo.Document => chars "Документ"
  | Mdo.InformationRegister => chars "РегистрСведений"
  | Mdo.AccumulationRegister => chars "РегистрНакопления"
  | Mdo.AccountingRegister => chars "РегистрБухгалтерии"
  | Mdo.CalculationRegister => chars "РегистрРасчета"
  | Mdo.ChartOfCharacteristicTypes => chars "ПланВидовХарактеристик"
  | Mdo.ChartOfAccounts => chars "ПланСчетов"
  | Mdo.ChartOfCalculationTypes => chars "ПланВидовРасчета"
  | Mdo.BusinessProcess => chars "БизнесПроцесс"
  | Mdo.Task => chars "Задача"
  | Mdo.Enum => chars "Перечисление"
  | Mdo.ExchangePlan => chars "ПланОбмена"
  | Mdo.ExternalDataSource => chars "ВнешнийИсточникДанных"
  | Mdo.Constant => chars "Константа"
  | Mdo.DataProcessor => chars "Обработка"
  | Mdo.Report => chars "Отчет"
  | Mdo.ExternalDataProcessor => chars "ВнешняяОбработка"
  | Mdo.ExternalReport => chars "ВнешнийОтчет"
  | Mdo.CommonModule => chars "ОбщийМодуль"
  | Mdo.EventSubscription => chars "ПодпискаНаСобытие"
  | Mdo.Subsystem => chars "Подсистема"
  | Mdo.Role => chars "Роль"
  end.

Definition english_name (mdo : MdoType) : text :=
  match mdo with
  | Mdo.Catalog => chars "Catalog"
  | Mdo.Document => chars "Document"
  | Mdo.InformationRegister => chars "InformationRegister"
  | Mdo.AccumulationRegister => chars "AccumulationRegister"
  | Mdo.AccountingRegister => chars "AccountingRegister"
  | Mdo.CalculationRegister => chars "CalculationRegister"
  | Mdo.ChartOfCharacteristicTypes => chars "ChartOfCharacteristicTypes"
  | Mdo.ChartOfAccounts => chars "ChartOfAccounts"
  | Mdo.ChartOfCalculationTypes => chars "ChartOfCalculationTypes"
  | Mdo.BusinessProcess => chars "BusinessProcess"
  | Mdo.Task => chars "Task"
  | Mdo.Enum => chars "Enum"
  | Mdo.ExchangePlan => chars "ExchangePlan"
  | Mdo.ExternalDataSource => chars "ExternalDataSource"
  | Mdo.Constant => chars "Constant"
  | Mdo.DataProcessor => chars "DataProcessor"
  | Mdo.Report => chars "Report"
  | Mdo.ExternalDataProcessor => chars "ExternalDataProcessor"
  | Mdo.ExternalReport => chars "ExternalReport"
  | Mdo.CommonModule => chars "CommonModule"
  | Mdo.EventSubscription => chars "EventSubscription"
  | Mdo.Subsystem => chars "Subsystem"
  | Mdo.Role => chars "Role"
  end.

Definition russian_plural (mdo : MdoType) : option text :=
  match mdo with
  | Mdo.Catalog => Some (chars "Справочники")
  | Mdo.Document => Some (chars "Документы")
  | Mdo.InformationRegister => Some (chars "РегистрыСведений")
  | Mdo.AccumulationRegister => Some (chars "РегистрыНакопления")
  | Mdo.AccountingRegister => Some (chars "РегистрыБухгалтерии")
  | Mdo.CalculationRegister => Some (chars "РегистрыРасчета")
  | Mdo.ChartOfCharacteristicTypes => Some (chars "ПланыВидовХарактеристик")
  | Mdo.ChartOfAccounts => Some (chars "ПланыСчетов")
  | Mdo.ChartOfCalculationTypes => Some (chars "ПланыВидовРасчета")
  | Mdo.BusinessProcess => Some (chars "БизнесПроцессы")
  | Mdo.Task => Some (chars "Задачи")
  | Mdo.Enum => Some (chars "Перечисления")
  | Mdo.ExchangePlan => Some (chars "ПланыОбмена")
  | Mdo.ExternalDataSource => Some (chars "ВнешниеИсточникиДанных")
  | Mdo.Constant => Some (chars "Константы")
  | Mdo.DataProcessor => Some (chars "Обработки")
  | Mdo.Report => Some (chars "Отчеты")
  | Mdo.ExternalDataProcessor | Mdo.ExternalReport | Mdo.CommonModule | Mdo.EventSubscription
  | Mdo.Subsystem | Mdo.Role => None
  end.

(** [MdoType::all]. *)
Definition MdoType_all : list MdoType :=
  [ Mdo.Catalog; Mdo.Document; Mdo.InformationRegister; Mdo.AccumulationRegister;
    Mdo.AccountingRegister; Mdo.CalculationRegister; Mdo.ChartOfCharacteristicTypes;
    Mdo.ChartOfAccounts; Mdo.ChartOfCalculationTypes; Mdo.BusinessProcess; Mdo.Task; Mdo.Enum;
    Mdo.ExchangePlan; Mdo.ExternalDataSource; Mdo.Constant; Mdo.DataProcessor; Mdo.Report;
    Mdo.CommonModule ].

Definition manager_type_prefix (mdo : MdoType) : option text :=
  match mdo with
  | Mdo.Catalog => Some (chars "CatalogManager")
  | Mdo.Document => Some (chars "DocumentManager")
  | Mdo.InformationRegister => Some (chars "InformationRegisterManager")
  | Mdo.AccumulationRegister => Some (chars "AccumulationRegisterManager")
  | Mdo.AccountingRegister => Some (chars "AccountingRegisterManager")
  | Mdo.CalculationRegister => Some (chars "CalculationRegisterManager")
  | Mdo.ChartOfCharacteristicTypes => Some (chars "ChartOfCharacteristicTypesManager")
  | Mdo.ChartOfAccounts => Some (chars "ChartOfAccountsManager")
  | Mdo.ChartOfCalculationTypes => Some (chars "ChartOfCalculationTypesManager")
  | Mdo.BusinessProcess => Some (chars "BusinessProcessManager")
  | Mdo.Task => Some (chars "TaskManager")
  | Mdo.Enum => Some (chars "EnumManager")
  | Mdo.ExchangePlan => Some (chars "ExchangePlanManager")
  | Mdo.ExternalDataSource => Some (chars "ExternalDataSourceManager")
  | Mdo.Constant => Some (chars "ConstantManager")
  | Mdo.DataProcessor => Some (chars "DataProcessorManager")
  | Mdo.Report => Some (chars "ReportManager")
  | Mdo.ExternalDataProcessor | Mdo.ExternalReport | Mdo.CommonModule | Mdo.EventSubscription
  | Mdo.Subsystem | Mdo.Role => None
  end.

Definition manager_type_prefix_ru (mdo : MdoType) : option text :=
  match mdo with
  | Mdo.Catalog => Some (chars "СправочникМенеджер")
  | Mdo.Document => Some (chars "ДокументМенеджер")
  | Mdo.InformationRegister => Some (chars "РегистрСведенийМенеджер")
  | Mdo.AccumulationRegister => Some (chars "РегистрНакопленияМенеджер")
  | Mdo.AccountingRegister => Some (chars "РегистрБухгалтерииМенеджер")
  | Mdo.CalculationRegister => Some (chars "РегистрРасчетаМенеджер")
  | Mdo.ChartOfCharacteristicTypes => Some (chars "ПланВидовХарактеристикМенеджер")
  | Mdo.ChartOfAccounts => Some (chars "ПланСчетовМенеджер")
  | Mdo.ChartOfCalculationTypes => Some (chars "ПланВидовРасчетаМенеджер")
  | Mdo.BusinessProcess => Some (chars "БизнесПроцессМенеджер")
  | Mdo.Task => Some (chars "ЗадачаМенеджер")
  | Mdo.Enum => Some (chars "ПеречислениеМенеджер")
  | Mdo.ExchangePlan => Some (chars "ПланОбменаМенеджер")
  | Mdo.ExternalDataSource => Some (chars "ВнешнийИсточникДанныхМенеджер")
  | Mdo.Constant => Some (chars "КонстантаМенеджер")
  | Mdo.DataProcessor => Some (chars "ОбработкаМенеджер")
  | Mdo.Report => Some (chars "ОтчетМенеджер")
  | Mdo.ExternalDataProcessor | Mdo.ExternalReport | Mdo.CommonModule | Mdo.EventSubscription
  | Mdo.Subsystem | Mdo.Role => None
  end.

Section parsing.
Context `{StrLower}.

(** A [match] of a folded text over literals. *)
Definition match_str {A} (key : text) (table : list (list text * A)) : option A :=
  found ← list_find (fun row => key ∈ row.1) table; Some found.2.2.

(** [FromStr for MdoType]. *)
Definition MdoType_from_str (s : text) : option MdoType :=
  match_str (fold_lower s)
    [ ([chars "справочник"; chars "catalog"], Mdo.Catalog);
      ([chars "документ"; chars "document"], Mdo.Document);
      ([chars "регистрсведений"; chars "informationregister"], Mdo.InformationRegister);
      ([chars "регистрнакопления"; chars "accumulationregister"], Mdo.AccumulationRegister);
      ([chars "регистрбухгалтерии"; chars "accountingregister"], Mdo.AccountingRegister);
      ([chars "регистррасчета"; chars "calculationregister"], Mdo.CalculationRegister);
      ([chars "планвидовхарактеристик"; chars "chartofcharacteristictypes"],
       Mdo.ChartOfCharacteristicTypes);
      ([chars "плансчетов"; chars "chartofaccounts"], Mdo.ChartOfAccounts);
      ([chars "планвидоврасчета"; chars "chartofcalculationtypes"], Mdo.ChartOfCalculationTypes);
      ([chars "бизнеспроцесс"; chars "businessprocess"], Mdo.BusinessProcess);
      ([chars "задача"; chars "task"], Mdo.Task);
      ([chars "перечисление"; chars "enum"], Mdo.Enum);
      ([chars "планобмена"; chars "exchangeplan"], Mdo.ExchangePlan);
      ([chars "внешнийисточникданных"; chars "externaldatasource"], Mdo.ExternalDataSource);
      ([chars "константа"; chars "constant"], Mdo.Constant);
      ([chars "обработка"; chars "dataprocessor"], Mdo.DataProcessor);
      ([chars "внешняяобработка"; chars "externaldataprocessor"], Mdo.ExternalDataProcessor);
      ([chars "внешнийотчет"; chars "внешнийотчёт"; chars "externalreport"], Mdo.ExternalReport);
      ([chars "отчет"; chars "отчёт"; chars "report"], Mdo.Report);
      ([chars "общиймодуль"; chars "commonmodule"], Mdo.CommonModule);
      ([chars "подписканасобытие"; chars "eventsubscription"], Mdo.EventSubscription);
      ([chars "подсистема"; chars "subsystem"], Mdo.Subsystem);
      ([chars "роль"; chars "role"], Mdo.Role) ].

Definition is_russian_keyword (mdo : MdoType) (keyword : text) : bool :=
  bool_decide (fold_lower keyword = fold_lower (russian_name mdo)).

(** [MdoType::from_plural]. *)
Definition MdoType_from_plural (s : text) : option MdoType :=
  match_str (fold_lower s)
    [ ([chars "документы"; chars "documents"], Mdo.Document);
      ([chars "справочники"; chars "catalogs"], Mdo.Catalog);
      ([chars "регистрысведений"; chars "informationregisters"], Mdo.InformationRegister);
      ([chars "регистрынакопления"; chars "accumulationregisters"], Mdo.AccumulationRegister);
      ([chars "регистрыбухгалтерии"; chars "accountingregisters"], Mdo.AccountingRegister);
      ([chars "регистрырасчета"; chars "calculationregisters"], Mdo.CalculationRegister);
      ([chars "планывидовхарактеристик"; chars "chartsofcharacteristictypes"],
       Mdo.ChartOfCharacteristicTypes);
      ([chars "планысчетов"; chars "chartsofaccounts"], Mdo.ChartOfAccounts);
      ([chars "планывидоврасчета"; chars "chartsofcalculationtypes"], Mdo.ChartOfCalculationTypes);
      ([chars "бизнеспроцессы"; chars "businessprocesses"], Mdo.BusinessProcess);
      ([chars "задачи"; chars "tasks"], Mdo.Task);
      ([chars "перечисления"; chars "enums"], Mdo.Enum);
      ([chars "планыобмена"; chars "exchangeplans"], Mdo.ExchangePlan);
      ([chars "внешниеисточникиданных"; chars "externaldatasources"], Mdo.ExternalDataSource);
      ([chars "константы"; chars "constants"], Mdo.Constant);
      ([chars "обработки"; chars "dataprocessors"], Mdo.DataProcessor);
      ([chars "отчеты"; chars "reports"], Mdo.Report);
      ([chars "общиемодули"; chars "commonmodules"], Mdo.CommonModule) ].

(** [MetadataReferenceKind::from_plural], which folds by the library and takes yo for ye. *)
Definition MRK_from_plural (s : text) : option MetadataReferenceKind :=
  match_str (replace_char 0x451 0x435 (str_to_lowercase s))
    [ ([chars "роли"; chars "roles"], MRK.Role);
      ([chars "подпискинасобытия"; chars "eventsubscriptions"], MRK.EventSubscription);
      ([chars "регламентныезадания"; chars "scheduledjobs"], MRK.ScheduledJob);
      ([chars "httpсервисы"; chars "httpservices"], MRK.HttpService);
      ([chars "webсервисы"; chars "webservices"], MRK.WebService);
      ([chars "подсистемы"; chars "subsystems"], MRK.Subsystem) ].

End parsing.

(** ** Form elements *)
Definition base_platform_type_name (kind : FormElementKind) : option text :=
  match kind with
  | FEK.Table => Some (chars "ТаблицаФормы")
  | FEK.Group | FEK.UsualGroup | FEK.Pages | FEK.Page | FEK.CommandBar | FEK.ButtonGroup =>
      Some (chars "ГруппаФормы")
  | FEK.Field => Some (chars "ПолеФормы")
  | FEK.Button => Some (chars "КнопкаФормы")
  | FEK.Decoration => Some (chars "ДекорацияФормы")
  | FEK.Addition => Some (chars "ДополнениеЭлементаФормы")
  | FEK.Other => None
  end.

(** ** References without a manager *)

(** [MetadataReferenceKind::ALL]. *)
Definition MRK_ALL : list MetadataReferenceKind :=
  [ MRK.Role; MRK.EventSubscription; MRK.ScheduledJob; MRK.HttpService; MRK.WebService;
    MRK.Subsystem ].

Definition MRK_russian_singular (kind : MetadataReferenceKind) : text :=
  match kind with
  | MRK.Role => chars "Роль"
  | MRK.EventSubscription => chars "ПодпискаНаСобытие"
  | MRK.ScheduledJob => chars "РегламентноеЗадание"
  | MRK.HttpService => chars "HTTPСервис"
  | MRK.WebService => chars "WebСервис"
  | MRK.Subsystem => chars "Подсистема"
  end.

Definition MRK_english_singular (kind : MetadataReferenceKind) : text :=
  match kind with
  | MRK.Role => chars "Role"
  | MRK.EventSubscription => chars "EventSubscription"
  | MRK.ScheduledJob => chars "ScheduledJob"
  | MRK.HttpService => chars "HTTPService"
  | MRK.WebService => chars "WebService"
  | MRK.Subsystem => chars "Subsystem"
  end.

Definition MRK_russian_plural (kind : MetadataReferenceKind) : text :=
  match kind with
  | MRK.Role => chars "Роли"
  | MRK.EventSubscription => chars "ПодпискиНаСобытия"
  | MRK.ScheduledJob => chars "РегламентныеЗадания"
  | MRK.HttpService => chars "HTTPСервисы"
  | MRK.WebService => chars "WebСервисы"
  | MRK.Subsystem => chars "Подсистемы"
  end.

Definition MRK_english_plural (kind : MetadataReferenceKind) : text :=
  match kind with
  | MRK.Role => chars "Roles"
  | MRK.EventSubscription => chars "EventSubscriptions"
  | MRK.ScheduledJob => chars "ScheduledJobs"
  | MRK.HttpService => chars "HTTPServices"
  | MRK.WebService => chars "WebServices"
  | MRK.Subsystem => chars "Subsystems"
  end.

(** ** Kinds of values *)
Definition object_kind_for (mdo : MdoType) : option MetadataKind :=
  match mdo with
  | Mdo.Catalog => Some MK.CatalogObject
  | Mdo.Document => Some MK.DocumentObject
  | Mdo.ExchangePlan => Some MK.ExchangePlanObject
  | Mdo.ChartOfAccounts => Some MK.ChartOfAccountsObject
  | Mdo.Task => Some MK.TaskObject
  | Mdo.BusinessProcess => Some MK.BusinessProcessObject
  | Mdo.DataProcessor => Some MK.DataProcessorObject
  | Mdo.Report => Some MK.ReportObject
  | Mdo.ExternalDataProcessor => Some MK.ExternalDataProcessorObject
  | Mdo.ExternalReport => Some MK.ExternalReportObject
  | Mdo.ChartOfCharacteristicTypes => Some MK.ChartOfCharacteristicTypesObject
  | Mdo.ChartOfCalculationTypes => Some MK.ChartOfCalculationTypesObject
  | _ => None
  end.

Definition ref_kind_for (mdo : MdoType) : option MetadataKind :=
  match mdo with
  | Mdo.Catalog => Some MK.CatalogRef
  | Mdo.Document => Some MK.DocumentRef
  | Mdo.Enum => Some MK.EnumRef
  | Mdo.Task => Some MK.TaskRef
  | Mdo.BusinessProcess => Some MK.BusinessProcessRef
  | Mdo.ExchangePlan => Some MK.ExchangePlanRef
  | Mdo.ChartOfAccounts => Some MK.ChartOfAccountsRef
  | Mdo.ChartOfCharacteristicTypes => Some MK.ChartOfCharacteristicTypesRef
  | Mdo.ChartOfCalculationTypes => Some MK.ChartOfCalculationTypesRef
  | Mdo.InformationRegister => Some MK.InformationRegisterRef
  | Mdo.AccumulationRegister => Some MK.AccumulationRegisterRef
  | Mdo.AccountingRegister => Some MK.AccountingRegisterRef
  | Mdo.CalculationRegister => Some MK.CalculationRegisterRef
  | _ => None
  end.

Definition record_set_kind_for (mdo : MdoType) : option MetadataKind :=
  match mdo with
  | Mdo.InformationRegister => Some MK.InformationRegisterRecordSet
  | Mdo.AccumulationRegister => Some MK.AccumulationRegisterRecordSet
  | Mdo.AccountingRegister => Some MK.AccountingRegisterRecordSet
  | Mdo.CalculationRegister => Some MK.CalculationRegisterRecordSet
  | _ => None
  end.

Definition ref_mdo_type (kind : MetadataKind) : option MdoType :=
  match kind with
  | MK.CatalogRef => Some Mdo.Catalog
  | MK.DocumentRef => Some Mdo.Document
  | MK.EnumRef => Some Mdo.Enum
  | MK.TaskRef => Some Mdo.Task
  | MK.BusinessProcessRef => Some Mdo.BusinessProcess
  | MK.ExchangePlanRef => Some Mdo.ExchangePlan
  | MK.ChartOfAccountsRef => Some Mdo.ChartOfAccounts
  | MK.ChartOfCharacteristicTypesRef => Some Mdo.ChartOfCharacteristicTypes
  | MK.ChartOfCalculationTypesRef => Some Mdo.ChartOfCalculationTypes
  | MK.InformationRegisterRef => Some Mdo.InformationRegister
  | MK.AccumulationRegisterRef => Some Mdo.AccumulationRegister
  | MK.AccountingRegisterRef => Some Mdo.AccountingRegister
  | MK.CalculationRegisterRef => Some Mdo.CalculationRegister
  | _ => None
  end.

Definition platform_prefix (kind : MetadataKind) : option text :=
  match kind with
  | MK.CatalogObject => Some (chars "CatalogObject")
  | MK.CatalogRef => Some (chars "CatalogRef")
  | MK.DocumentObject => Some (chars "DocumentObject")
  | MK.DocumentRef => Some (chars "DocumentRef")
  | MK.EnumRef => Some (chars "EnumRef")
  | MK.TaskRef => Some (chars "TaskRef")
  | MK.TaskObject => Some (chars "TaskObject")
  | MK.BusinessProcessRef => Some (chars "BusinessProcessRef")
  | MK.BusinessProcessObject => Some (chars "BusinessProcessObject")
  | MK.DataProcessorObject => Some (chars "DataProcessorObject")
  | MK.ReportObject => Some (chars "ReportObject")
  | MK.ExchangePlanRef => Some (chars "ExchangePlanRef")
  | MK.ExchangePlanObject => Some (chars "ExchangePlanObject")
  | MK.ChartOfAccountsRef => Some (chars "ChartOfAccountsRef")
  | MK.ChartOfAccountsObject => Some (chars "ChartOfAccountsObject")
  | MK.ChartOfCharacteristicTypesRef => Some (chars "ChartOfCharacteristicTypesRef")
  | MK.ChartOfCharacteristicTypesObject => Some (chars "ChartOfCharacteristicTypesObject")
  | MK.ChartOfCalculationTypesRef => Some (chars "ChartOfCalculationTypesRef")
  | MK.ChartOfCalculationTypesObject => Some (chars "ChartOfCalculationTypesObject")
  | MK.InformationRegisterRecordManager => Some (chars "InformationRegisterRecordManager")
  | MK.InformationRegisterRecordSet => Some (chars "InformationRegisterRecordSet")
  | MK.AccumulationRegisterRecordSet => Some (chars "AccumulationRegisterRecordSet")
  | MK.AccountingRegisterRecordSet => Some (chars "AccountingRegisterRecordSet")
  | MK.CalculationRegisterRecordSet => Some (chars "CalculationRegisterRecordSet")
  | MK.InformationRegisterRecord => Some (chars "InformationRegisterRecord")
  | MK.AccumulationRegisterRecord => Some (chars "AccumulationRegisterRecord")
  | MK.AccountingRegisterRecord => Some (chars "AccountingRegisterRecord")
  | MK.CalculationRegisterRecord => Some (chars "CalculationRegisterRecord")
  | MK.ConstantValueManager => Some (chars "ConstantValueManager")
  | MK.ExternalDataProcessorObject | MK.ExternalReportObject | MK.InformationRegisterRef
  | MK.AccumulationRegisterRef | MK.AccountingRegisterRef | MK.CalculationRegisterRef
  | MK.RegisterDimension _ | MK.RegisterResource _ | MK.RegisterAttribute _ | MK.RegisterFilter _
  | MK.TabularSection _ | MK.TabularSectionRow _ => None
  end.

Definition bare_platform_type_names (kind : MetadataKind) : option (text * text) :=
  match kind with
  | MK.ExternalDataProcessorObject => Some (chars "ВнешняяОбработка", chars "ExternalDataProcessor")
  | MK.ExternalReportObject => Some (chars "ВнешнийОтчет", chars "ExternalReport")
  | _ => None
  end.

Definition bare_platform_type (kind : MetadataKind) : option text := snd <$> bare_platform_type_names kind.

Definition scalar_platform_key (kind : MetadataKind) : option text :=
  match kind with MK.RegisterFilter _ => Some (chars "Filter") | _ => None end.

(** The locale is whether its name is [En]. *)
Definition display_label (kind : MetadataKind) (is_en : bool) : text :=
  match kind with
  | MK.CatalogRef => chars (if is_en then "CatalogRef" else "СправочникСсылка")
  | MK.CatalogObject => chars (if is_en then "CatalogObject" else "СправочникОбъект")
  | MK.DocumentRef => chars (if is_en then "DocumentRef" else "ДокументСсылка")
  | MK.DocumentObject => chars (if is_en then "DocumentObject" else "ДокументОбъект")
  | MK.EnumRef => chars (if is_en then "EnumRef" else "ПеречислениеСсылка")
  | MK.TaskRef => chars (if is_en then "TaskRef" else "ЗадачаСсылка")
  | MK.TaskObject => chars (if is_en then "TaskObject" else "ЗадачаОбъект")
  | MK.BusinessProcessRef => chars (if is_en then "BusinessProcessRef" else "БизнесПроцессСсылка")
  | MK.BusinessProcessObject =>
      chars (if is_en then "BusinessProcessObject" else "БизнесПроцессОбъект")
  | MK.DataProcessorObject => chars (if is_en then "DataProcessorObject" else "ОбработкаОбъект")
  | MK.ReportObject => chars (if is_en then "ReportObject" else "ОтчетОбъект")
  | MK.ExternalDataProcessorObject =>
      chars (if is_en then "ExternalDataProcessorObject" else "ВнешняяОбработкаОбъект")
  | MK.ExternalReportObject =>
      chars (if is_en then "ExternalReportObject" else "ВнешнийОтчетОбъект")
  | MK.ConstantValueManager =>
      chars (if is_en then "ConstantValueManager" else "КонстантаМенеджерЗначения")
  | MK.ExchangePlanRef => chars (if is_en then "ExchangePlanRef" else "ПланОбменаСсылка")
  | MK.ExchangePlanObject => chars (if is_en then "ExchangePlanObject" else "ПланОбменаОбъект")
  | MK.ChartOfAccountsRef => chars (if is_en then "ChartOfAccountsRef" else "ПланСчетовСсылка")
  | MK.ChartOfAccountsObject =>
      chars (if is_en then "ChartOfAccountsObject" else "ПланСчетовОбъект")
  | MK.ChartOfCharacteristicTypesRef =>
      chars (if is_en then "ChartOfCharacteristicTypesRef" else "ПланВидовХарактеристикСсылка")
  | MK.ChartOfCharacteristicTypesObject =>
      chars (if is_en then "ChartOfCharacteristicTypesObject" else "ПланВидовХарактеристикОбъект")
  | MK.ChartOfCalculationTypesRef =>
      chars (if is_en then "ChartOfCalculationTypesRef" else "ПланВидовРасчетаСсылка")
  | MK.ChartOfCalculationTypesObject =>
      chars (if is_en then "ChartOfCalculationTypesObject" else "ПланВидовРасчетаОбъект")
  | MK.InformationRegisterRef =>
      chars (if is_en then "InformationRegisterRef" else "РегистрСведенийКлючЗаписи")
  | MK.InformationRegisterRecordManager =>
      chars (if is_en then "InformationRegisterRecordManager" else "РегистрСведенийМенеджерЗаписи")
  | MK.InformationRegisterRecordSet =>
      chars (if is_en then "InformationRegisterRecordSet" else "РегистрСведенийНаборЗаписей")
  | MK.InformationRegisterRecord =>
      chars (if is_en then "InformationRegisterRecord" else "РегистрСведенийЗапись")
  | MK.AccumulationRegisterRef =>
      chars (if is_en then "AccumulationRegisterRef" else "РегистрНакопленияКлючЗаписи")
  | MK.AccumulationRegisterRecordSet =>
      chars (if is_en then "AccumulationRegisterRecordSet" else "РегистрНакопленияНаборЗаписей")
  | MK.AccumulationRegisterRecord =>
      chars (if is_en then "AccumulationRegisterRecord" else "РегистрНакопленияЗапись")
  | MK.AccountingRegisterRef =>
      chars (if is_en then "AccountingRegisterRef" else "РегистрБухгалтерииКлючЗаписи")
  | MK.AccountingRegisterRecordSet =>
      chars (if is_en then "AccountingRegisterRecordSet" else "РегистрБухгалтерииНаборЗаписей")
  | MK.AccountingRegisterRecord =>
      chars (if is_en then "AccountingRegisterRecord" else "РегистрБухгалтерииЗапись")
  | MK.CalculationRegisterRef =>
      chars (if is_en then "CalculationRegisterRef" else "РегистрРасчётаКлючЗаписи")
  | MK.CalculationRegisterRecordSet =>
      chars (if is_en then "CalculationRegisterRecordSet" else "РегистрРасчетаНаборЗаписей")
  | MK.CalculationRegisterRecord =>
      chars (if is_en then "CalculationRegisterRecord" else "РегистрРасчетаЗапись")
  | MK.RegisterDimension _ => chars (if is_en then "Dimension" else "Измерение")
  | MK.RegisterResource _ => chars (if is_en then "Resource" else "Ресурс")
  | MK.RegisterAttribute _ => chars (if is_en then "Attribute" else "Реквизит")
  | MK.RegisterFilter _ => chars (if is_en then "Filter" else "Отбор")
  | MK.TabularSection _ => chars (if is_en then "TabularSection" else "ТабличнаяЧасть")
  | MK.TabularSectionRow _ => chars (if is_en then "TabularSectionRow" else "СтрокаТабличнойЧасти")
  end.

(** ** The tables agree *)

Section tables.
Context `{StrLower}.

(** Every kind of object is read back from both of its names and of its plural. *)
Lemma from_str_names mdo :
  MdoType_from_str (russian_name mdo) = Some mdo /\ MdoType_from_str (english_name mdo) = Some mdo.
Proof. by destruct mdo. Qed.

Lemma from_plural_names mdo plural : russian_plural mdo = Some plural -> MdoType_from_plural plural = Some mdo.
Proof. by destruct mdo; simpl; intros [= <-]. Qed.

(** A plural names a kind with a manager, or common modules, and no kind twice. *)
Lemma from_plural_manager s mdo :
  MdoType_from_plural s = Some mdo -> mdo <> Mdo.CommonModule -> is_Some (manager_type_prefix mdo).
Proof.
  unfold MdoType_from_plural, match_str. intros E Hne.
  destruct (list_find _ _) as [[i row]|] eqn:Ef; [|done]. injection E as <-.
  apply list_find_Some in Ef as (Hi & _ & _). revert Hne. eapply (Forall_lookup_1 (fun r => r.2 <> Mdo.CommonModule -> is_Some (manager_type_prefix r.2))), Hi.
  repeat constructor; done.
Qed.
End tables.

(** Kinds of references and of metadata objects that have references correspond one to one. *)
Lemma ref_kind_inverse mdo kind : ref_kind_for mdo = Some kind <-> ref_mdo_type kind = Some mdo.
Proof.
  split; intros E; [destruct mdo|destruct kind]; (discriminate E || (injection E as <-; reflexivity)).
Qed.

(** The manager of a kind has a name in both languages or in none. *)
Lemma manager_prefix_both mdo :
  is_Some (manager_type_prefix mdo) <-> is_Some (manager_type_prefix_ru mdo).
Proof. destruct mdo; split; intros [x Hx]; (discriminate Hx || eexists; reflexivity). Qed.
