(* ===== verification/Types.v ===== *)
(** Types: the types of values (crates/bsl-types/src/kind.rs, facet.rs, equality.rs).

    A [TypeKind] is one layer of a type: the types inside it are [TypeId]s, indices into the table
    of the kernel.  [kind_ids] lists them.  [semantic_eq] compares two layers up to where they came
    from. *)
From stdpp Require Import prelude strings.
From S2P Require Import Prelude Metadata.

(** The index of a type; the kernel hands out [u64]s in order of creation. *)
Abbreviation TypeId := nat (only parsing).
Abbreviation Name := text (only parsing).

(** ** Where a type came from *)

Inductive TypeOrigin : Set := BslLiteral | SdblCast | FromDocComment | FromFormAttribute.

Module PO.
Inductive ProjectionOrigin : Set :=
  | SdblQuery | FormAttribute | ValueTableLiteral | StructureLiteral | DocComment | Unknown.
End PO.
Abbreviation ProjectionOrigin := PO.ProjectionOrigin.

Module PF.
Inductive ProjectionFieldSource : Set :=
  | Column | Cast | Aggregate | Derived | StructureLiteral | DocComment | Unknown.
End PF.
Abbreviation ProjectionFieldSource := PF.ProjectionFieldSource.

Module TS.
Inductive TableSource : Set := SdblUnload | NewValueTable | FormAttribute | Unknown.
End TS.
Abbreviation TableSource := TS.TableSource.

Module PS.
Inductive ProjectionSource : Set := Sdbl | FormAttribute | ValueTableLiteral | Unknown.
End PS.
Abbreviation ProjectionSource := PS.ProjectionSource.

Module FO.
Inductive FunctionOrigin : Set := UserDefined | PlatformGlobal | Closure | Unknown.
End FO.
Abbreviation FunctionOrigin := FO.FunctionOrigin.

(** ** Rows of tables and queries *)

Record SdblTypeShadowFacet : Set := MkShadow { shadow_display : text }.

Record ProjectionField : Set := MkField {
  field_name : Name;
  field_ty : TypeId;
  field_source : ProjectionFieldSource;
}.

Record Projection : Set := MkProjection {
  proj_fields : list ProjectionField;
  proj_origin : ProjectionOrigin;
  raw_sdbl_types : option (list SdblTypeShadowFacet);
}.

(** ** Facets *)

Record NumberFacet : Set := MkNumber {
  precision : option Z; (* u8 *)
  scale : option Z; (* u8 *)
  number_origin : option TypeOrigin;
}.

Definition NumberFacet_unsized : NumberFacet := MkNumber None None None.
Definition NumberFacet_with_scale (p s : Z) : NumberFacet := MkNumber (Some p) (Some s) None.
Definition NumberFacet_with_precision (p : Z) : NumberFacet := MkNumber (Some p) None None.

Record StringFacet : Set := MkString {
  string_length : option Z; (* u32 *)
  string_fixed : bool;
  string_origin : option TypeOrigin;
}.

Definition StringFacet_unsized : StringFacet := MkString None false None.
Definition StringFacet_with_length (n : Z) : StringFacet := MkString (Some n) false None.

Inductive DateComponent : Set := DateOnly | TimeOnly | DateTime.

Record DateFacet : Set := MkDate { component : DateComponent; date_origin : option TypeOrigin }.

Definition DateFacet_datetime : DateFacet := MkDate DateTime None.

Record MetaRefFacet : Set := MkMetaRef {
  meta_kind : MetadataKind;
  meta_name : Name;
  meta_config_id : ConfigId;
}.

Record MetaObjFacet : Set := MkMetaObj {
  obj_kind : MetadataKind;
  obj_name : Name;
  obj_config_id : ConfigId;
}.

Record ManagerFacet : Set := MkManager {
  manager_mdo : MdoType;
  manager_name : Name;
  manager_config_id : ConfigId;
}.

Record CommonModuleFacet : Set := MkCommonModule { module_name : Name; module_config_id : ConfigId }.

Module FD.
Inductive FormDataFacet : Set := Structure | Collection | StructureWithCollection | Tree.
End FD.
Abbreviation FormDataFacet := FD.FormDataFacet.

Record MdoRefFacet : Set := MkMdoRef { mdo_type : MdoType; mdo_name : Name }.

Inductive FormBindingTargetFacet : Set :=
  | TargetTabularSection (mdo_ref : MdoRefFacet) (section : Name)
  | TargetAttribute (ty : TypeId).

Record FormBindingFacet : Set := MkBinding {
  binding_path : list Name;
  binding_target : FormBindingTargetFacet;
}.

Record TableFacet : Set := MkTable { table_projection : option Projection; table_source : TableSource }.

Definition TableFacet_unprojected : TableFacet := MkTable None TS.Unknown.

Record ArrayFacet : Set := MkArray { element : option TypeId }.

Record MapFacet : Set := MkMap { map_key : option TypeId; map_value : option TypeId }.

Record StructureFacet : Set := MkStructure {
  struct_keys : option (list Name);
  struct_fields : option Projection;
  struct_origin : option TypeOrigin;
  struct_closed : bool;
}.

Record ProjectionFacet : Set := MkProjectionFacet {
  facet_projection : option Projection;
  facet_source : ProjectionSource;
}.

Definition ProjectionFacet_empty (source : ProjectionSource) : ProjectionFacet :=
  MkProjectionFacet None source.

Definition ProjectionFacet_with (p : Projection) (source : ProjectionSource) : ProjectionFacet :=
  MkProjectionFacet (Some p) source.

Record PlatformObjectFacet : Set := MkPlatformObject { platform_name : Name }.

Inductive ParamPassing : Set := ByVal | ByRef.

Inductive ArgArity : Set := Fixed (n : Z) | Variadic. (* u16 *)

Record ParamSpec : Set := MkParam {
  param_name : Name;
  param_ty : TypeId;
  param_passing : ParamPassing;
  param_variadic : bool;
}.

Module LV.
Inductive LiteralValue : Set :=
  | Number (s : text) | String (s : text) | Boolean (b : bool) | Undefined | Null | Date (s : text).
End LV.
Abbreviation LiteralValue := LV.LiteralValue.

Inductive DefaultValue : Set :=
  | LiteralDefault (v : LiteralValue) | NamedConstant (name : Name) | DeferredExpr (expr : Z).

Record FunctionFacet : Set := MkFunction {
  params : list ParamSpec;
  defaults : list (option DefaultValue);
  min_args : Z; (* u16 *)
  max_args : ArgArity;
  returns : TypeId;
  fn_origin : FunctionOrigin;
}.

(** [FormDataFacet::platform_type_name]. *)
Definition form_data_platform_type_name (kind : FormDataFacet) : text :=
  match kind with
  | FD.Structure => chars "ДанныеФормыСтруктура"
  | FD.Collection => chars "ДанныеФормыКоллекция"
  | FD.StructureWithCollection => chars "ДанныеФормыСтруктураСКоллекцией"
  | FD.Tree => chars "ДанныеФормыДерево"
  end.

(** ** Kinds of types *)

Module TK.
Inductive TypeKind : Set :=
  | Unknown
  | Never
  | Any
  | Number (f : NumberFacet)
  | String (f : StringFacet)
  | Date (f : DateFacet)
  | Boolean
  | Null
  | Undefined
  | Uuid
  | Array (f : ArrayFacet)
  | Map (f : MapFacet)
  | Structure (f : StructureFacet)
  | ValueList (element : option TypeId)
  | ValueTable (f : TableFacet)
  | ValueTableRow (f : TableFacet)
  | MetadataRef (f : MetaRefFacet)
  | AnyMetadataRef (mdo : MdoType)
  | MetadataReferenceCollection (kind : MetadataReferenceKind)
  | MetadataReference (kind : MetadataReferenceKind) (name : Name)
  | MetadataObjectCollection (mdo : MdoType)
  | AnyRef
  | MetadataObject (f : MetaObjFacet)
  | TabularSection (parent : MetaRefFacet) (name : Name)
  | TabularSectionRow (parent : MetaRefFacet) (name : Name)
  | RegisterDimension (parent : MetaRefFacet) (name : Name)
  | RegisterResource (parent : MetaRefFacet) (name : Name)
  | RegisterAttribute (parent : MetaRefFacet) (name : Name)
  | RegisterFilter (parent : MetaRefFacet)
  | Attribute (parent : MetaRefFacet) (name : Name)
  | FormData (kind : FormDataFacet) (underlying : option MdoRefFacet)
  | FormControl (kind : FormElementKind) (binding : option FormBindingFacet)
  | ThisObject (config_id : ConfigId) (owner : MdoRefFacet)
  | ThisManager (config_id : ConfigId) (owner : MdoRefFacet)
  | CommonModule (f : CommonModuleFacet)
  | PlatformObject (f : PlatformObjectFacet)
  | ValueStorage
  | TypeDescriptor
  | Union (members : list TypeId)
  | ManagerCollection (mdo : MdoType)
  | ObjectManager (f : ManagerFacet)
  | Function (f : FunctionFacet)
  | QueryResult (f : ProjectionFacet)
  | QueryResultSelection (f : ProjectionFacet)
  | QueryBatchResult (per_query : list (option Projection))
  | Query (projections : list (option Projection)).
End TK.
Abbreviation TypeKind := TK.TypeKind.

(** ** The types inside of a type *)

Definition projection_ids (p : option Projection) : list TypeId :=
  match p with Some p => field_ty <$> proj_fields p | None => [] end.

Definition binding_ids (b : option FormBindingFacet) : list TypeId :=
  match b with Some (MkBinding _ (TargetAttribute ty)) => [ty] | _ => [] end.

Definition kind_ids (kind : TypeKind) : list TypeId :=
  match kind with
  | TK.Array f => option_list (element f)
  | TK.Map f => option_list (map_key f) ++ option_list (map_value f)
  | TK.Structure f => projection_ids (struct_fields f)
  | TK.ValueList el => option_list el
  | TK.ValueTable f | TK.ValueTableRow f => projection_ids (table_projection f)
  | TK.FormControl _ binding => binding_ids binding
  | TK.Union members => members
  | TK.Function f => (param_ty <$> params f) ++ [returns f]
  | TK.QueryResult f | TK.QueryResultSelection f => projection_ids (facet_projection f)
  | TK.QueryBatchResult ps | TK.Query ps => ps ≫= projection_ids
  | _ => []
  end.

(** ** Decidable equality *)


#[export] Instance TypeOrigin_eq_dec : EqDecision TypeOrigin.
Proof. solve_decision. Defined.
#[export] Instance ProjectionOrigin_eq_dec : EqDecision ProjectionOrigin.
Proof. solve_decision. Defined.
#[export] Instance ProjectionFieldSource_eq_dec : EqDecision ProjectionFieldSource.
Proof. solve_decision. Defined.
#[export] Instance TableSource_eq_dec : EqDecision TableSource.
Proof. solve_decision. Defined.
#[export] Instance ProjectionSource_eq_dec : EqDecision ProjectionSource.
Proof. solve_decision. Defined.
#[export] Instance FunctionOrigin_eq_dec : EqDecision FunctionOrigin.
Proof. solve_decision. Defined.
#[export] Instance Shadow_eq_dec : EqDecision SdblTypeShadowFacet.
Proof. solve_decision. Defined.
#[export] Instance ProjectionField_eq_dec : EqDecision ProjectionField.
Proof. solve_decision. Defined.
#[export] Instance Projection_eq_dec : EqDecision Projection.
Proof. solve_decision. Defined.
#[export] Instance NumberFacet_eq_dec : EqDecision NumberFacet.
Proof. solve_decision. Defined.
#[export] Instance StringFacet_eq_dec : EqDecision StringFacet.
Proof. solve_decision. Defined.
#[export] Instance DateComponent_eq_dec : EqDecision DateComponent.
Proof. solve_decision. Defined.
#[export] Instance DateFacet_eq_dec : EqDecision DateFacet.
Proof. solve_decision. Defined.
#[export] Instance MetaRefFacet_eq_dec : EqDecision MetaRefFacet.
Proof. solve_decision. Defined.
#[export] Instance MetaObjFacet_eq_dec : EqDecision MetaObjFacet.
Proof. solve_decision. Defined.
#[export] Instance ManagerFacet_eq_dec : EqDecision ManagerFacet.
Proof. solve_decision. Defined.
#[export] Instance CommonModuleFacet_eq_dec : EqDecision CommonModuleFacet.
Proof. solve_decision. Defined.
#[export] Instance FormDataFacet_eq_dec : EqDecision FormDataFacet.
Proof. solve_decision. Defined.
#[export] Instance MdoRefFacet_eq_dec : EqDecision MdoRefFacet.
Proof. solve_decision. Defined.
#[export] Instance FormBindingTarget_eq_dec : EqDecision FormBindingTargetFacet.
Proof. solve_decision. Defined.
#[export] Instance FormBindingFacet_eq_dec : EqDecision FormBindingFacet.
Proof. solve_decision. Defined.
#[export] Instance TableFacet_eq_dec : EqDecision TableFacet.
Proof. solve_decision. Defined.
#[export] Instance ArrayFacet_eq_dec : EqDecision ArrayFacet.
Proof. solve_decision. Defined.
#[export] Instance MapFacet_eq_dec : EqDecision MapFacet.
Proof. solve_decision. Defined.
#[export] Instance StructureFacet_eq_dec : EqDecision StructureFacet.
Proof. solve_decision. Defined.
#[export] Instance ProjectionFacet_eq_dec : EqDecision ProjectionFacet.
Proof. solve_decision. Defined.
#[export] Instance PlatformObjectFacet_eq_dec : EqDecision PlatformObjectFacet.
Proof. solve_decision. Defined.
#[export] Instance ParamPassing_eq_dec : EqDecision ParamPassing.
Proof. solve_decision. Defined.
#[export] Instance ArgArity_eq_dec : EqDecision ArgArity.
Proof. solve_decision. Defined.
#[export] Instance ParamSpec_eq_dec : EqDecision ParamSpec.
Proof. solve_decision. Defined.
#[export] Instance LiteralValue_eq_dec : EqDecision LiteralValue.
Proof. solve_decision. Defined.
#[export] Instance DefaultValue_eq_dec : EqDecision DefaultValue.
Proof. solve_decision. Defined.
#[export] Instance FunctionFacet_eq_dec : EqDecision FunctionFacet.
Proof. solve_decision. Defined.
#[export] Instance TypeKind_eq_dec : EqDecision TypeKind.
Proof. solve_decision. Defined.

(** ** Equality up to where a type came from *)

Definition number_eq_no_origin (x y : NumberFacet) : bool :=
  bool_decide (precision x = precision y) && bool_decide (scale x = scale y).

Definition string_eq_no_origin (x y : StringFacet) : bool :=
  bool_decide (string_length x = string_length y) && bool_decide (string_fixed x = string_fixed y).

Definition date_eq_no_origin (x y : DateFacet) : bool := bool_decide (component x = component y).

Definition projection_field_eq (a b : ProjectionField) : bool :=
  bool_decide (field_name a = field_name b) && bool_decide (field_ty a = field_ty b).

(** [a.len() == b.len() && a.iter().zip(b).all(f)]. *)
Definition all_pairs {A} (f : A -> A -> bool) (a b : list A) : bool :=
  (length a =? length b)%nat && forallb (fun p => f p.1 p.2) (zip a b).

Definition projection_eq (p q : Projection) : bool :=
  all_pairs projection_field_eq (proj_fields p) (proj_fields q).

Definition projection_arc_eq (a b : option Projection) : bool :=
  match a, b with
  | None, None => true
  | Some p, Some q => projection_eq p q
  | _, _ => false
  end.

Definition table_eq_no_source (x y : TableFacet) : bool :=
  projection_arc_eq (table_projection x) (table_projection y).

Definition projection_facet_eq (x y : ProjectionFacet) : bool :=
  projection_arc_eq (facet_projection x) (facet_projection y).

Definition projection_slice_eq (a b : list (option Projection)) : bool := all_pairs projection_arc_eq a b.

Definition function_eq_no_origin (x y : FunctionFacet) : bool :=
  bool_decide (params x = params y) && bool_decide (defaults x = defaults y) &&
  bool_decide (min_args x = min_args y) && bool_decide (max_args x = max_args y) &&
  bool_decide (returns x = returns y).

Definition semantic_eq (a b : TypeKind) : bool :=
  match a, b with
  | TK.Number x, TK.Number y => number_eq_no_origin x y
  | TK.String x, TK.String y => string_eq_no_origin x y
  | TK.Date x, TK.Date y => date_eq_no_origin x y
  | TK.ValueTable x, TK.ValueTable y => table_eq_no_source x y
  | TK.ValueTableRow x, TK.ValueTableRow y => table_eq_no_source x y
  | TK.QueryResult x, TK.QueryResult y => projection_facet_eq x y
  | TK.QueryResultSelection x, TK.QueryResultSelection y => projection_facet_eq x y
  | TK.QueryBatchResult a, TK.QueryBatchResult b => projection_slice_eq a b
  | TK.Query a, TK.Query b => projection_slice_eq a b
  | TK.Function x, TK.Function y => function_eq_no_origin x y
  | _, _ => bool_decide (a = b)
  end.

Definition type_eq (a b : TypeKind) : bool := semantic_eq a b.
