(* ===== verification/Corpus.v ===== *)
(** Corpus: the types of the platform by their names.

    The index over the types of the platform's documentation (crates/bsl-platform/src/db.rs,
    [from_help]) and the canonical spelling of a name (crates/bsl-types/src/intern.rs,
    [canonical_platform_name]).  The documentation itself is data that is loaded: the class
    [PlatformTypes].  A canonical name is its own canonical name. *)
From stdpp Require Import prelude strings.
From S2P Require Import Prelude Case Names.

Record PlatformType : Set := MkPlatformType {
  type_name : text;
  english_type_name : text;
  xdto_name : option text;
}.

(** The types of the loaded documentation, overlays applied. *)
Class PlatformTypes := platform_types : list PlatformType.

(** ** The index *)

(** The maps the index is made of: the last value written under a key. *)
Definition assoc {V} (key : text) (m : list (text * V)) : option V :=
  found ← list_find (fun p => p.1 = key) m; Some found.2.2.

Record TypesIndex : Set := MkTypesIndex {
  types_by_name : list (text * nat);
  ambiguous_type_names : list text;
}.

Section code.
Context `{CharCase} `{StrLower}.

(** How many types declare the alias. *)
Definition xdto_counts (types : list PlatformType) (key : text) : nat :=
  length (filter (fun ty => fold_lower <$> xdto_name ty = Some key) types).

(** [types_by_name.insert] of one of the type's own names: a name that another type had is
    ambiguous. *)
Definition insert_name (key : text) (idx : nat) (ix : TypesIndex) : TypesIndex :=
  MkTypesIndex ((key, idx) :: types_by_name ix)
    (match assoc key (types_by_name ix) with
     | Some prev => if (prev =? idx)%nat then ambiguous_type_names ix else key :: ambiguous_type_names ix
     | None => ambiguous_type_names ix
     end).

(** [types_by_name.entry(key).or_insert(idx)]. *)
Definition insert_alias (key : text) (idx : nat) (ix : TypesIndex) : TypesIndex :=
  match assoc key (types_by_name ix) with
  | Some _ => ix
  | None => MkTypesIndex ((key, idx) :: types_by_name ix) (ambiguous_type_names ix)
  end.

Definition index_type (types : list PlatformType) (idx : nat) (ty : PlatformType) (ix : TypesIndex)
    : TypesIndex :=
  let ix := insert_name (fold_lower (type_name ty)) idx ix in
  let ix := insert_name (fold_lower (english_type_name ty)) idx ix in
  match xdto_name ty with
  | Some xdto =>
      let key := fold_lower xdto in
      if (xdto_counts types key =? 1)%nat then insert_alias key idx ix else ix
  | None => ix
  end.

(** The loop over [types.iter().enumerate()]. *)
Fixpoint index_loop (types rest : list PlatformType) (idx : nat) (ix : TypesIndex) : TypesIndex :=
  match rest with
  | [] => ix
  | ty :: rest => index_loop types rest (S idx) (index_type types idx ty ix)
  end.

Definition index_types (types : list PlatformType) : TypesIndex :=
  index_loop types types 0 (MkTypesIndex [] []).

Context `{PlatformTypes}.

Definition get_type (name : text) : option PlatformType :=
  idx ← assoc (fold_lower name) (types_by_name (index_types platform_types)); platform_types !! idx.

Definition is_ambiguous_type_name (name : text) : bool :=
  bool_decide (fold_lower name ∈ ambiguous_type_names (index_types platform_types)).

(** ** Canonical names *)

(** The spelling the name was found under. *)
Definition matching_alias (ty : PlatformType) (name : text) : option text :=
  found ← list_find (fun alias => alias <> [] /\ eq_ignore_case alias name = true)
            ([type_name ty; english_type_name ty] ++ option_list (xdto_name ty));
  Some found.2.

Definition canonical_platform_name (name : text) : text :=
  match get_type name with
  | None => name
  | Some ty =>
      let canonical :=
        if is_ambiguous_type_name (type_name ty) then matching_alias ty name
        else Some (type_name ty) in
      match canonical with
      | Some canonical => if decide (canonical = name) then name else canonical
      | None => name
      end
  end.
End code.

(** ** The canonical name is canonical *)

Section laws.
Context `{CharCaseLaws} `{StrLower} `{!StrLowerLaws} `{PlatformTypes}.

Lemma assoc_cons {V} key k (v : V) m :
  assoc key ((k, v) :: m) = if decide (k = key) then Some v else assoc key m.
Proof. unfold assoc. simpl. case_decide; [done|]. by destruct (list_find _ m) as [[]|]. Qed.

(** An index [ix] knows the names of the types before [n]: one that is not ambiguous leads to the
    type that has it. *)
Definition index_of (types : list PlatformType) (n : nat) (ix : TypesIndex) : Prop :=
  forall i ty key, (i < n)%nat -> types !! i = Some ty ->
    key = fold_lower (type_name ty) \/ key = fold_lower (english_type_name ty) ->
    key ∉ ambiguous_type_names ix -> assoc key (types_by_name ix) = Some i.

Lemma insert_name_ambiguous key idx ix k :
  k ∉ ambiguous_type_names (insert_name key idx ix) ->
  (k ∉ ambiguous_type_names ix) /\
  (k = key -> forall prev, assoc key (types_by_name ix) = Some prev -> prev = idx).
Proof.
  unfold insert_name. simpl. intros Hk. destruct (assoc key _) as [prev|]; [|by split].
  destruct (Nat.eqb_spec prev idx); [split; [done|]; intros; congruence|].
  apply not_elem_of_cons in Hk as [Hne Hk]. by split.
Qed.

Lemma assoc_insert_name key idx ix k :
  assoc k (types_by_name (insert_name key idx ix)) =
  if decide (key = k) then Some idx else assoc k (types_by_name ix).
Proof. apply assoc_cons. Qed.

(** A name that led to [i] and stays unambiguous leads to [i] still. *)
Lemma insert_name_keeps key idx ix k i :
  k ∉ ambiguous_type_names (insert_name key idx ix) ->
  assoc k (types_by_name ix) = Some i -> assoc k (types_by_name (insert_name key idx ix)) = Some i.
Proof.
  intros [_ Hk]%insert_name_ambiguous E. rewrite assoc_insert_name. case_decide as Hd; [|done].
  subst k. by rewrite (Hk eq_refl i E).
Qed.

Lemma insert_alias_keeps key idx ix k i :
  assoc k (types_by_name ix) = Some i -> assoc k (types_by_name (insert_alias key idx ix)) = Some i.
Proof.
  unfold insert_alias. intros E. destruct (assoc key _) eqn:Ek; [done|]. simpl. rewrite assoc_cons.
  case_decide; [congruence|done].
Qed.

Lemma insert_alias_ambiguous key idx ix :
  ambiguous_type_names (insert_alias key idx ix) = ambiguous_type_names ix.
Proof. unfold insert_alias. by case_match. Qed.

Lemma index_type_of types n ty ix :
  types !! n = Some ty -> index_of types n ix -> index_of types (S n) (index_type types n ty ix).
Proof.
  intros Hn Hix i ty' key Hi Hty Hkey Hamb.
  set (ix1 := insert_name (fold_lower (type_name ty)) n ix).
  set (ix2 := insert_name (fold_lower (english_type_name ty)) n ix1).
  assert ((key ∉ ambiguous_type_names ix2) /\ (assoc key (types_by_name ix2) = Some i ->
    assoc key (types_by_name (index_type types n ty ix)) = Some i)) as [Hamb2 Hlast].
  { revert Hamb. unfold index_type. fold ix1 ix2. destruct (xdto_name ty); [|done].
    case_match; [|done]. rewrite insert_alias_ambiguous. split; [done|]. apply insert_alias_keeps. }
  apply Hlast. pose proof (insert_name_ambiguous _ _ _ _ Hamb2) as [Hamb1 _].
  pose proof (insert_name_ambiguous _ _ _ _ Hamb1) as [Hamb0 _].
  destruct (decide (i = n)) as [->|Hne].
  - assert (ty' = ty) as -> by congruence. destruct Hkey as [-> | ->].
    + apply insert_name_keeps; [done|]. unfold ix1. by rewrite assoc_insert_name, decide_True.
    + unfold ix2. by rewrite assoc_insert_name, decide_True.
  - do 2 (apply insert_name_keeps; [done|]). apply (Hix i ty'); [lia|done..].
Qed.

Lemma index_loop_of types rest n ix :
  drop n types = rest -> index_of types n ix -> index_of types (length types) (index_loop types rest n ix).
Proof.
  revert n ix. induction rest as [|ty rest IH]; intros n ix Hd Hix; simpl.
  - intros i ty' key Hi. apply Hix. apply (f_equal length) in Hd. rewrite length_drop in Hd. simpl in Hd. lia.
  - assert (types !! n = Some ty) as Hn.
    { rewrite <- (Nat.add_0_r n), <- lookup_drop, Hd. done. }
    apply IH; [|by apply index_type_of]. rewrite <- Nat.add_1_r, <- drop_drop, Hd. done.
Qed.

Lemma index_types_of types : index_of types (length types) (index_types types).
Proof. apply index_loop_of; [done|]. intros i ty key Hi. lia. Qed.

(** An unambiguous name of a type is found. *)
Lemma get_type_name ty i :
  platform_types !! i = Some ty -> is_ambiguous_type_name (type_name ty) = false ->
  get_type (type_name ty) = Some ty.
Proof.
  intros Hi Hamb. unfold is_ambiguous_type_name in Hamb. rewrite bool_decide_eq_false in Hamb.
  unfold get_type. rewrite (index_types_of platform_types i ty); [done| |done|by left|done].
  by eapply lookup_lt_Some.
Qed.

(** The spellings of the corpus know no capital sigma. *)
Definition corpus_ok : Prop :=
  Forall (fun ty => no_sigma (type_name ty) /\ no_sigma (english_type_name ty) /\
                    forall xdto, xdto_name ty = Some xdto -> no_sigma xdto) platform_types.

Lemma get_type_in name ty : get_type name = Some ty -> exists i, platform_types !! i = Some ty.
Proof. unfold get_type. destruct (assoc _ _) as [i|]; [|done]. simpl. eauto. Qed.

Lemma corpus_spelling ty i alias :
  corpus_ok -> platform_types !! i = Some ty ->
  alias ∈ [type_name ty; english_type_name ty] ++ option_list (xdto_name ty) -> no_sigma alias.
Proof.
  intros Hc Hi. destruct (Forall_lookup_1 _ _ _ _ Hc Hi) as (Ht & He & Hx).
  intros [->|[->|Ha]%elem_of_cons]%elem_of_cons; [done..|].
  destruct (xdto_name ty) as [x|]; simpl in Ha; [|by apply not_elem_of_nil in Ha].
  apply list_elem_of_singleton in Ha as ->. by apply Hx.
Qed.

Lemma matching_alias_spec ty name alias :
  matching_alias ty name = Some alias ->
  alias ∈ [type_name ty; english_type_name ty] ++ option_list (xdto_name ty) /\
  fold_lower_per_char alias = fold_lower_per_char name.
Proof.
  unfold matching_alias. destruct (list_find _ _) as [[i x]|] eqn:E; [|done]. intros [= ->].
  apply list_find_Some in E as (Hi & [_ Heq] & _). apply eq_ignore_case_folded in Heq.
  split; [by eapply list_elem_of_lookup_2|done].
Qed.

Lemma matching_alias_folded ty a b :
  fold_lower_per_char a = fold_lower_per_char b -> matching_alias ty a = matching_alias ty b.
Proof.
  intros E. unfold matching_alias. rewrite (list_find_ext _ (fun alias => alias <> [] /\ eq_ignore_case alias b = true)); [done|].
  intros x. by rewrite !eq_ignore_case_folded, E.
Qed.

Lemma canonical_no_sigma name : corpus_ok -> no_sigma name -> no_sigma (canonical_platform_name name).
Proof.
  intros Hc Hn. unfold canonical_platform_name. destruct (get_type name) as [ty|] eqn:E; [|done].
  apply get_type_in in E as [i Hi]. destruct (is_ambiguous_type_name (type_name ty)).
  - destruct (matching_alias ty name) as [a|] eqn:Ea; [|done]. case_decide; [done|].
    apply matching_alias_spec in Ea as [Ha _]. by eapply corpus_spelling.
  - case_decide; [done|]. eapply corpus_spelling; [done..|]. simpl. by left.
Qed.

(** Canonisation runs on every interning: it does not move a canonical name. *)
Lemma canonical_platform_name_idem name :
  corpus_ok -> no_sigma name ->
  canonical_platform_name (canonical_platform_name name) = canonical_platform_name name.
Proof.
  intros Hc Hn. unfold canonical_platform_name at 2 3.
  destruct (get_type name) as [ty|] eqn:E; [|by unfold canonical_platform_name; rewrite E].
  destruct (get_type_in _ _ E) as [i Hi]. destruct (is_ambiguous_type_name (type_name ty)) eqn:Eamb.
  - destruct (matching_alias ty name) as [a|] eqn:Ea.
    2: { unfold canonical_platform_name. by rewrite E, Eamb, Ea. }
    destruct (matching_alias_spec _ _ _ Ea) as [Hin Hf].
    assert (get_type a = Some ty) as E'.
    { unfold get_type in *. rewrite fold_lower_key in * by (done || by eapply corpus_spelling). by rewrite Hf. }
    assert (canonical_platform_name a = a) as Ha.
    { unfold canonical_platform_name. rewrite E', Eamb, (matching_alias_folded _ _ _ Hf), Ea.
      by rewrite decide_True. }
    case_decide; [by subst|done].
  - assert (canonical_platform_name (type_name ty) = type_name ty) as Ht.
    { unfold canonical_platform_name. by rewrite (get_type_name _ i), Eamb, decide_True. }
    case_decide as Hd; [by rewrite <- Hd|done].
Qed.
End laws.

(** ** A corpus for the examples

    The second and the third type share their Russian name. *)
Definition example_types : PlatformTypes :=
  [ MkPlatformType (chars "Файл") (chars "File") None;
    MkPlatformType (chars "ЭлементыФормы") (chars "FormItems") None;
    MkPlatformType (chars "ЭлементыФормы") (chars "Controls") (Some (chars "FormControls")) ].

Lemma example_corpus_ok : @corpus_ok example_types.
Proof.
  unfold corpus_ok, platform_types, example_types.
  repeat (apply Forall_cons; split); [..|apply Forall_nil_2];
    (split; [by apply (bool_decide_unpack _); vm_compute|]);
    (split; [by apply (bool_decide_unpack _); vm_compute|]); simpl; intros x [= <-];
    by apply (bool_decide_unpack _); vm_compute.
Qed.

(** Spellings of one type in any case and language are one name; namesakes keep the spelling they
    were found under; a name out of the corpus stays. *)
Example example_canonical_names :
  (@canonical_platform_name basic_lowercase basic_str_lower example_types <$>
    [chars "файл"; chars "FILE"; chars "controls"; chars "элементыформы"; chars "ДокументМенеджер"]) =
  [chars "Файл"; chars "Файл"; chars "Controls"; chars "ЭлементыФормы"; chars "ДокументМенеджер"].
Proof. by vm_compute. Qed.
