(* ===== verification/Interning.v ===== *)
(** Interning: canonical types and their table (crates/bsl-types/src/intern.rs,
    crates/ide-db/src/type_kernel.rs).

    [TypeIntern] and [TypeLookup] are the methods of the trait TypeKernelDb: a kernel hands out an
    index for a type and the type of an index.
    [canonicalise] gives a type its canonical form over any kernel; it is called on every interning
    and interns the type a form control is bound to anew.  [TypeKernelInner] is the kernel of the
    database: a table that only grows, and the map back.  Out of the table is a panic, here [None]. *)
From stdpp Require Import prelude strings.
From S2P Require Import Prelude Case Names Metadata Types Corpus.

(** ** The trait *)

Class TypeLookup (St : Type) := lookup_type : TypeId -> St -> option TypeKind.
Class TypeIntern (St : Type) := intern_type : TypeKind -> St -> option (TypeId * St).

(** The text a value is printed as for debugging, derived by the language's macro. *)
Class DebugText := {
  debug_kind : TypeKind -> text;
  debug_name : Name -> text;
  debug_passing : ParamPassing * bool -> text;
  debug_signature : Z -> ArgArity -> FunctionOrigin -> list (option DefaultValue) -> text;
  debug_element : FormElementKind -> text;
  debug_path : list Name -> text;
  debug_target : FormBindingTargetFacet -> text;
}.

(** ** Order and duplicates *)

(** [Ord] of strings: by bytes, which for UTF-8 is by characters. *)
Fixpoint text_leb (a b : text) : bool :=
  match a, b with
  | [], _ => true
  | _ :: _, [] => false
  | x :: a, y :: b => (x <? y)%Z || (x =? y)%Z && text_leb a b
  end.

(** The stable sort of the library by a key. *)
Fixpoint insert_by_key {A} (x : text * A) (l : list (text * A)) : list (text * A) :=
  match l with
  | [] => [x]
  | y :: l => if text_leb x.1 y.1 then x :: y :: l else y :: insert_by_key x l
  end.

Definition sort_by_key {A} (l : list (text * A)) : list (text * A) := foldr insert_by_key [] l.

(** [Vec::dedup]: of equal neighbours the first one stays. *)
Fixpoint dedup `{EqDecision A} (l : list A) : list A :=
  match l with
  | x :: (y :: _) as rest => if decide (x = y) then dedup rest else x :: dedup rest
  | _ => l
  end.

Section canonical.
Context {St : Type} `{TypeLookup St, TypeIntern St} `{DebugText} `{CharCase} `{StrLower} `{PlatformTypes}.

(** ** Keys *)

Definition write_projection_order_key (write : TypeId -> option text) (p : option Projection)
    : option text :=
  fields ← match p with
           | Some p => mapM (fun fld => ty ← write (field_ty fld);
                               Some (debug_name (field_name fld) ++ chars "=" ++ ty ++ chars ";"))
                         (proj_fields p)
           | None => Some []
           end;
  Some (chars "[" ++ mjoin fields ++ chars "]").

Definition write_projections (write : TypeId -> option text) (ps : list (option Projection)) : option text :=
  mjoin <$> mapM (write_projection_order_key write) ps.

Definition write_param_order_key (write : TypeId -> option text) (p : ParamSpec) : option text :=
  ty ← write (param_ty p);
  Some (debug_name (param_name p) ++ debug_passing (param_passing p, param_variadic p) ++ chars ":" ++
        ty ++ chars ",").

Definition write_binding_order_key (write : TypeId -> option text) (b : option FormBindingFacet)
    : option text :=
  match b with
  | Some b =>
      target ← match binding_target b with
               | TargetAttribute ty => key ← write ty; Some (chars "Attr(" ++ key ++ chars ")")
               | other => Some (debug_target other)
               end;
      Some (debug_path (binding_path b) ++ chars ":" ++ target)
  | None => Some (chars "_")
  end.

(** What is appended for a type; [levels] is 24 less the depth. *)
Fixpoint write_type_order_key (levels : nat) (id : TypeId) (s : St) : option text :=
  match levels with
  | O => Some (chars "~")
  | S levels =>
      let write t := write_type_order_key levels t s in
      let opt (t : option TypeId) := match t with Some t => write t | None => Some (chars "_") end in
      kind ← lookup_type id s;
      match kind with
      | TK.Array f => el ← opt (element f); Some (chars "Array<" ++ el ++ chars ">")
      | TK.Map f =>
          key ← opt (map_key f); value ← opt (map_value f);
          Some (chars "Map<" ++ key ++ chars "," ++ value ++ chars ">")
      | TK.ValueList el => el ← opt el; Some (chars "ValueList<" ++ el ++ chars ">")
      | TK.ValueTable f => (chars "ValueTable" ++.) <$> write_projection_order_key write (table_projection f)
      | TK.ValueTableRow f => (chars "ValueTableRow" ++.) <$> write_projection_order_key write (table_projection f)
      | TK.QueryResult f => (chars "QueryResult" ++.) <$> write_projection_order_key write (facet_projection f)
      | TK.QueryResultSelection f =>
          (chars "QueryResultSelection" ++.) <$> write_projection_order_key write (facet_projection f)
      | TK.QueryBatchResult ps => (chars "QueryBatchResult" ++.) <$> write_projections write ps
      | TK.Query ps => (chars "Query" ++.) <$> write_projections write ps
      | TK.Function f =>
          ps ← mapM (write_param_order_key write) (params f);
          ret ← write (returns f);
          Some (chars "Function(" ++ mjoin ps ++ chars "->" ++ ret ++ chars ";" ++
                debug_signature (min_args f) (max_args f) (fn_origin f) (defaults f) ++ chars ")")
      | TK.FormControl kind binding =>
          b ← write_binding_order_key write binding;
          Some (chars "FormControl{" ++ debug_element kind ++ chars "," ++ b ++ chars "}")
      | TK.Union members =>
          keys ← mapM write members;
          Some (chars "Union(" ++ mjoin ((fun p => p.1 ++ chars "|") <$> sort_by_key ((fun k => (k, tt)) <$> keys)) ++
                chars ")")
      | other => Some (debug_kind other)
      end
  end.

Definition union_order_key (id : TypeId) (s : St) : option text := write_type_order_key 24 id s.

(** ** Unions *)

Definition is_never (kind : TypeKind) : bool := match kind with TK.Never => true | _ => false end.
Definition is_any (kind : TypeKind) : bool := match kind with TK.Any => true | _ => false end.
Definition is_unknown (kind : TypeKind) : bool := match kind with TK.Unknown => true | _ => false end.

(** The members, the members of inner unions in their place. *)
Definition flatten_members (members : list TypeId) (s : St) : option (list TypeId) :=
  mjoin <$> mapM (fun m => kind ← lookup_type m s;
                            Some (match kind with TK.Union inner => inner | _ => [m] end)) members.

(** [retain] of the members that are not of a kind, when there is one of another kind. *)
Definition retain_others (is_kind : TypeKind -> bool) (flat : list TypeId) (s : St) : option (list TypeId) :=
  let other m := kind ← lookup_type m s; Some (negb (is_kind kind)) in
  has_other ← anyM other flat;
  if has_other : bool then retainM other flat else Some flat.

(** [sort_by_cached_key] by the order key, then [dedup]. *)
Definition sort_members (flat : list TypeId) (s : St) : option (list TypeId) :=
  keyed ← mapM (fun id => key ← union_order_key id s; Some (key, id)) flat;
  Some (dedup (sort_by_key keyed).*2).

Definition canonicalise_union (members : list TypeId) (s : St) : option TypeKind :=
  flat ← flatten_members members s;
  flat ← retain_others is_never flat s;
  has_any ← anyM (fun m => kind ← lookup_type m s; Some (is_any kind)) flat;
  if has_any : bool then Some TK.Any
  else
    flat ← retain_others is_unknown flat s;
    flat ← sort_members flat s;
    match flat with
    | [m] => lookup_type m s
    | [] => Some TK.Unknown
    | _ => Some (TK.Union flat)
    end.

(** ** Canonical types *)

Definition strip_projection (p : option Projection) : option Projection :=
  (fun p => MkProjection ((fun f => MkField (field_name f) (field_ty f) PF.Unknown) <$> proj_fields p)
              PO.Unknown (raw_sdbl_types p)) <$> p.

Definition strip_projection_slice (ps : list (option Projection)) : list (option Projection) :=
  strip_projection <$> ps.

Definition canonicalise_mdo_ref (owner : MdoRefFacet) : MdoRefFacet := owner.

Definition canonicalise_form_binding_target (target : FormBindingTargetFacet) (s : St)
    : option (FormBindingTargetFacet * St) :=
  match target with
  | TargetTabularSection mdo_ref section =>
      Some (TargetTabularSection (canonicalise_mdo_ref mdo_ref) section, s)
  | TargetAttribute ty =>
      kind ← lookup_type ty s;
      '(ty, s) ← intern_type kind s;
      Some (TargetAttribute ty, s)
  end.

Definition canonicalise_form_binding (b : FormBindingFacet) (s : St) : option (FormBindingFacet * St) :=
  '(target, s) ← canonicalise_form_binding_target (binding_target b) s;
  Some (MkBinding (binding_path b) target, s).

Definition canonicalise (kind : TypeKind) (s : St) : option (TypeKind * St) :=
  match kind with
  | TK.Number f => Some (TK.Number (MkNumber (precision f) (scale f) None), s)
  | TK.String f => Some (TK.String (MkString (string_length f) (string_fixed f) None), s)
  | TK.Date f => Some (TK.Date (MkDate (component f) None), s)
  | TK.ValueTable f => Some (TK.ValueTable (MkTable (strip_projection (table_projection f)) TS.Unknown), s)
  | TK.ValueTableRow f => Some (TK.ValueTableRow (MkTable (strip_projection (table_projection f)) TS.Unknown), s)
  | TK.QueryResult f =>
      Some (TK.QueryResult (MkProjectionFacet (strip_projection (facet_projection f)) PS.Unknown), s)
  | TK.QueryResultSelection f =>
      Some (TK.QueryResultSelection (MkProjectionFacet (strip_projection (facet_projection f)) PS.Unknown), s)
  | TK.Query ps => Some (TK.Query (strip_projection_slice ps), s)
  | TK.QueryBatchResult ps => Some (TK.QueryBatchResult (strip_projection_slice ps), s)
  | TK.Function f =>
      Some (TK.Function (MkFunction (params f) (defaults f) (min_args f) (max_args f) (returns f) FO.Unknown), s)
  | TK.FormData kind underlying => Some (TK.FormData kind (canonicalise_mdo_ref <$> underlying), s)
  | TK.FormControl kind binding =>
      match binding with
      | Some b => '(b, s) ← canonicalise_form_binding b s; Some (TK.FormControl kind (Some b), s)
      | None => Some (TK.FormControl kind None, s)
      end
  | TK.ThisObject config_id owner => Some (TK.ThisObject config_id (canonicalise_mdo_ref owner), s)
  | TK.ThisManager config_id owner => Some (TK.ThisManager config_id (canonicalise_mdo_ref owner), s)
  | TK.Union members => kind ← canonicalise_union members s; Some (kind, s)
  | TK.PlatformObject f =>
      Some (TK.PlatformObject (MkPlatformObject (canonical_platform_name (platform_name f))), s)
  | other => Some (other, s)
  end.
End canonical.

(** ** The kernel of the database *)

Record Sentinels : Set := MkSentinels {
  sentinel_unknown : TypeId;
  sentinel_never : TypeId;
  sentinel_any : TypeId;
  sentinel_null : TypeId;
  sentinel_undefined : TypeId;
  sentinel_boolean : TypeId;
}.

(** [intern], the map from types to indices, is the list of its entries, the last one first. *)
Record TypeKernelInner : Set := MkKernel {
  table : list TypeKind;
  intern : list (TypeKind * TypeId);
  sentinels : Sentinels;
}.

Definition intern_get (kind : TypeKind) (m : list (TypeKind * TypeId)) : option TypeId :=
  found ← list_find (fun p => p.1 = kind) m; Some found.2.2.

Section kernel.
Context `{DebugText} `{CharCase} `{StrLower} `{PlatformTypes}.

Definition seed (kind : TypeKind) (k : list TypeKind * list (TypeKind * TypeId))
    : TypeId * (list TypeKind * list (TypeKind * TypeId)) :=
  let id := length k.1 in
  (id, (k.1 ++ [kind], (kind, id) :: k.2)).

(** [TypeKernelInner::new]. *)
Definition TypeKernelInner_new : TypeKernelInner :=
  let '(unknown, k) := seed TK.Unknown ([], []) in
  let '(never, k) := seed TK.Never k in
  let '(any, k) := seed TK.Any k in
  let '(null, k) := seed TK.Null k in
  let '(undefined, k) := seed TK.Undefined k in
  let '(boolean, k) := seed TK.Boolean k in
  MkKernel k.1 k.2 (MkSentinels unknown never any null undefined boolean).

#[export] Instance kernel_lookup : TypeLookup TypeKernelInner := fun id k => table k !! id.

(** From [upgradable_read] on, which no other writer shares: the index of a canonical type, a new
    one when the map has none. *)
Definition commit (canonical : TypeKind) (k : TypeKernelInner) : TypeId * TypeKernelInner :=
  match intern_get canonical (intern k) with
  | Some id => (id, k)
  | None =>
      let raw := length (table k) in
      (raw, MkKernel (table k ++ [canonical]) ((canonical, raw) :: intern k) (sentinels k))
  end.

(** [intern_type]: the kernel is its own [db], so interning a form control interns again. *)
Fixpoint intern_loop (fuel : nat) (kind : TypeKind) (k : TypeKernelInner)
    : option (TypeId * TypeKernelInner) :=
  match fuel with
  | O => None
  | S fuel =>
      let db : TypeIntern TypeKernelInner := intern_loop fuel in
      '(canonical, k) ← canonicalise kind k;
      Some (commit canonical k)
  end.

(** A type is bound through other types before it only. *)
#[export] Instance kernel_intern : TypeIntern TypeKernelInner :=
  fun kind k => intern_loop (S (length (table k))) kind k.
End kernel.

(** A printing for the examples. *)
Definition example_debug : DebugText := {|
  debug_kind kind :=
    match kind with
    | TK.Number _ => chars "Number" | TK.String _ => chars "String" | TK.Undefined => chars "Undefined"
    | TK.Unknown => chars "Unknown" | TK.PlatformObject f => platform_name f | _ => chars "?"
    end;
  debug_name name := name;
  debug_passing _ := [];
  debug_signature _ _ _ _ := [];
  debug_element _ := [];
  debug_path path := mjoin path;
  debug_target _ := [];
|}.
