(* ===== verification/InterningSpec.v ===== *)
(** InterningSpec: what interning promises.

    [TypeKernelLaws] states it for any kernel: a type that fits is interned without a panic, under
    its canonical form, every index keeps its type, a type has one index, the types inside of a type
    have smaller indices, and the members of a union are plain.  [kernel_wf] is the invariant of the
    kernel of the database, which discharges the laws.  A canonical union depends on the set of its
    members alone as long as their keys differ. *)
From stdpp Require Import prelude sorting strings.
From S2P Require Import Prelude Case Names Metadata Types Corpus Interning.

(** ** Sorting

    A list that is sorted is its own sort; the sort of two lists with the same elements, whose keys
    tell them apart, is the same after the removal of duplicates. *)

(** *** The order of texts *)

Lemma text_leb_refl a : text_leb a a = true.
Proof. induction a as [|x a IH]; [done|]. simpl. by rewrite Z.eqb_refl, IH, orb_true_r. Qed.

Lemma text_leb_total a b : text_leb a b = true \/ text_leb b a = true.
Proof.
  revert b. induction a as [|x a IH]; intros [|y b]; simpl; try by auto.
  destruct (Z.ltb_spec x y), (Z.ltb_spec y x); simpl; try by auto.
  assert (x = y) as -> by lia. rewrite Z.eqb_refl. apply IH.
Qed.

Lemma text_leb_trans a b c : text_leb a b = true -> text_leb b c = true -> text_leb a c = true.
Proof.
  revert b c. induction a as [|x a IH]; intros [|y b] [|z c]; simpl; try done.
  rewrite !orb_true_iff, !andb_true_iff, !Z.ltb_lt, !Z.eqb_eq.
  intros [?|[-> Hab]] [?|[-> Hbc]]; [left; lia|left; lia|by left|right]. split; [done|]. by eapply IH.
Qed.

Lemma text_leb_antisym a b : text_leb a b = true -> text_leb b a = true -> a = b.
Proof.
  revert b. induction a as [|x a IH]; intros [|y b]; simpl; try done.
  rewrite !orb_true_iff, !andb_true_iff, !Z.ltb_lt, !Z.eqb_eq.
  intros [?|[-> Hab]] [?|[Heq Hba]]; [lia..|]. f_equal. by apply IH.
Qed.

(** *** The stable sort *)

Definition key_le {A} (x y : text * A) : Prop := text_leb x.1 y.1 = true.

#[export] Instance key_le_trans {A} : Transitive (@key_le A).
Proof. intros x y z. apply text_leb_trans. Qed.

Section sort.
Context {A : Type}.
Implicit Types l : list (text * A).

Lemma insert_by_key_perm x l : insert_by_key x l ≡ₚ x :: l.
Proof.
  induction l as [|y l IH]; simpl; [done|]. case_match; [done|]. rewrite IH. apply Permutation_swap.
Qed.

Lemma sort_by_key_perm l : sort_by_key l ≡ₚ l.
Proof. induction l as [|x l IH]; [done|]. simpl. by rewrite insert_by_key_perm, IH. Qed.

Lemma insert_by_key_sorted x l : StronglySorted key_le l -> StronglySorted key_le (insert_by_key x l).
Proof.
  induction 1 as [|y l Hs IH Hy]; simpl; [by repeat constructor|]. destruct (text_leb x.1 y.1) eqn:E.
  - constructor; [by constructor|]. constructor; [done|]. eapply Forall_impl; [done|].
    intros z. by apply key_le_trans.
  - constructor; [done|]. rewrite insert_by_key_perm. constructor; [|done].
    unfold key_le. destruct (text_leb_total x.1 y.1); congruence.
Qed.

Lemma sort_by_key_sorted l : StronglySorted key_le (sort_by_key l).
Proof. induction l as [|x l IH]; [constructor|]. by apply insert_by_key_sorted. Qed.

(** The sort is stable: what is in order stays. *)
Lemma sort_by_key_id l : StronglySorted key_le l -> sort_by_key l = l.
Proof.
  induction 1 as [|x l Hs IH Hx]; [done|]. simpl. rewrite IH. destruct Hx as [|y l Hxy Hx]; [done|].
  simpl. by rewrite Hxy.
Qed.
End sort.

(** *** Equal neighbours *)

Section dedup.
Context `{EqDecision A}.
Implicit Types l : list A.

Lemma dedup_elem x l : x ∈ dedup l <-> x ∈ l.
Proof.
  induction l as [|y l IH]; [done|]. destruct l as [|z l]; [done|]. change (dedup (y :: z :: l)) with
    (if decide (y = z) then dedup (z :: l) else y :: dedup (z :: l)).
  case_decide as Hd; [subst; rewrite IH, !elem_of_cons; intuition|]. by rewrite !elem_of_cons, IH, elem_of_cons.
Qed.

(** No two neighbours are equal. *)
Fixpoint no_repeats (l : list A) : Prop :=
  match l with
  | x :: (y :: _) as rest => x <> y /\ no_repeats rest
  | _ => True
  end.

Lemma dedup_head x l : exists l', dedup (x :: l) = x :: l'.
Proof.
  revert x. induction l as [|y l IH]; intros x; [by eexists|].
  change (dedup (x :: y :: l)) with (if decide (x = y) then dedup (y :: l) else x :: dedup (y :: l)).
  case_decide as Hd; [subst; apply IH|by eexists].
Qed.

Lemma dedup_no_repeats l : no_repeats (dedup l).
Proof.
  induction l as [|x l IH]; [done|]. destruct l as [|y l]; [done|].
  change (dedup (x :: y :: l)) with (if decide (x = y) then dedup (y :: l) else x :: dedup (y :: l)).
  case_decide as Hd; [done|]. destruct (dedup_head y l) as [l' E]. rewrite E in *. by split.
Qed.

Lemma dedup_id l : no_repeats l -> dedup l = l.
Proof.
  induction l as [|x l IH]; [done|]. destruct l as [|y l]; [done|]. intros [Hne Hr].
  change (dedup (x :: y :: l)) with (if decide (x = y) then dedup (y :: l) else x :: dedup (y :: l)).
  by rewrite decide_False, IH.
Qed.

Lemma dedup_sorted R l : StronglySorted R l -> StronglySorted R (dedup l).
Proof.
  induction 1 as [|x l Hs IH Hx]; [constructor|]. destruct l as [|y l]; [by repeat constructor|].
  change (dedup (x :: y :: l)) with (if decide (x = y) then dedup (y :: l) else x :: dedup (y :: l)).
  case_decide; [done|]. constructor; [done|]. apply Forall_forall. intros z. rewrite dedup_elem.
  by apply Forall_forall.
Qed.

(** In a sorted list whose order tells elements apart, no element comes back later. *)
Lemma dedup_NoDup R l :
  StronglySorted R l -> (forall x y, x ∈ l -> y ∈ l -> R x y -> R y x -> x = y) -> NoDup (dedup l).
Proof.
  intros Hs Ha. assert (forall x y, x ∈ dedup l -> y ∈ dedup l -> R x y -> R y x -> x = y) as Hd.
  { intros x y. rewrite !dedup_elem. apply Ha. }
  pose proof (dedup_no_repeats l) as Hr. apply dedup_sorted in Hs. clear Ha. revert Hs Hd Hr.
  generalize (dedup l). clear l. intros l Hs Hd Hr. induction Hs as [|x l Hs IH Hx]; [constructor|].
  destruct l as [|y l]; [repeat constructor; apply not_elem_of_nil|]. destruct Hr as [Hne Hr].
  constructor; [|apply IH; [|done]; intros; apply Hd; [by right..| |]; done].
  intros Hin. apply Hne. apply Forall_cons in Hx as [Hxy _].
  apply elem_of_cons in Hin as [->|Hin]; [done|]. apply Hd; [left|right; left|done|].
  apply StronglySorted_inv in Hs as [_ Hy]. by apply (proj1 (Forall_forall _ _) Hy).
Qed.
End dedup.

(** ** Options that grow *)

Definition opt_le {A} (x y : option A) : Prop := forall v, x = Some v -> y = Some v.

Create HintDb grows.

Lemma opt_le_refl {A} (x : option A) : opt_le x x.
Proof. by intros v. Qed.

Lemma opt_le_bind {A B} (x y : option A) (f g : A -> option B) :
  opt_le x y -> (forall a, opt_le (f a) (g a)) -> opt_le (x ≫= f) (y ≫= g).
Proof.
  intros Hxy Hfg v. destruct x as [a|]; [|done]. rewrite (Hxy a eq_refl). apply Hfg.
Qed.

Lemma opt_le_fmap {A B} (x y : option A) (f : A -> B) : opt_le x y -> opt_le (f <$> x) (f <$> y).
Proof. intros Hxy v. destruct x as [a|]; [|done]. by rewrite (Hxy a eq_refl). Qed.

Lemma opt_le_mapM {A B} (f g : A -> option B) l :
  (forall a, opt_le (f a) (g a)) -> opt_le (mapM f l) (mapM g l).
Proof.
  intros Hfg. induction l as [|a l IH]; [apply opt_le_refl|].
  apply opt_le_bind; [apply Hfg|]. intros b. apply opt_le_bind; [done|]. intros. apply opt_le_refl.
Qed.

Lemma opt_le_anyM {A} (f g : A -> option bool) l :
  (forall a, opt_le (f a) (g a)) -> opt_le (anyM f l) (anyM g l).
Proof.
  intros Hfg. induction l as [|a l IH]; [apply opt_le_refl|]. simpl. apply opt_le_bind; [done|].
  intros [|]; [apply opt_le_refl|done].
Qed.

Lemma opt_le_retainM {A} (f g : A -> option bool) l :
  (forall a, opt_le (f a) (g a)) -> opt_le (retainM f l) (retainM g l).
Proof.
  intros Hfg. induction l as [|a l IH]; [apply opt_le_refl|]. simpl. apply opt_le_bind; [done|].
  intros b. apply opt_le_bind; [done|]. intros. apply opt_le_refl.
Qed.

#[export] Hint Resolve opt_le_anyM opt_le_retainM : grows.
#[export] Hint Resolve opt_le_refl opt_le_bind opt_le_fmap opt_le_mapM : grows.

Lemma is_Some_bind {A B} (x : option A) (f : A -> option B) :
  is_Some x -> (forall a, x = Some a -> is_Some (f a)) -> is_Some (x ≫= f).
Proof. intros [a ->] Hf. by apply Hf. Qed.

Lemma is_Some_fmap {A B} (x : option A) (f : A -> B) : is_Some x -> is_Some (f <$> x).
Proof. intros [a ->]. by eexists. Qed.

(** ** Any kernel *)

Section generic.
Context {St : Type} `{TypeLookup St} `{DebugText} `{CharCase} `{StrLower} `{PlatformTypes}.
Implicit Types s : St.

(** Every index keeps its type. *)
Definition extends (s s' : St) : Prop :=
  forall id kind, lookup_type id s = Some kind -> lookup_type id s' = Some kind.

#[export] Instance extends_preorder : PreOrder extends.
Proof. split; [by intros s id|]. intros s1 s2 s3 Ha Hb id kind Hk. by apply Hb, Ha. Qed.

Definition in_table (s : St) (id : TypeId) : Prop := is_Some (lookup_type id s).

Lemma in_table_extends s s' id : extends s s' -> in_table s id -> in_table s' id.
Proof. intros He [kind Hk]. exists kind. by apply He. Qed.

(** The types inside of a type of the table are in the table. *)
Definition closed (s : St) : Prop :=
  forall id kind, lookup_type id s = Some kind -> Forall (in_table s) (kind_ids kind).

(** *** Keys grow with the table and exist *)

Lemma write_type_order_key_mono levels id s s' :
  extends s s' -> opt_le (write_type_order_key levels id s) (write_type_order_key levels id s').
Proof.
  intros He. revert id. induction levels as [|levels IH]; intros id; [apply opt_le_refl|].
  assert (forall p, opt_le (write_projection_order_key (fun t => write_type_order_key levels t s) p)
                      (write_projection_order_key (fun t => write_type_order_key levels t s') p)) as Hp.
  { intros p. unfold write_projection_order_key. destruct p; auto 7 with grows. }
  assert (forall ps, opt_le (write_projections (fun t => write_type_order_key levels t s) ps)
                       (write_projections (fun t => write_type_order_key levels t s') ps)) as Hps.
  { intros ps. unfold write_projections. auto with grows. }
  simpl. apply opt_le_bind; [by intros kind; apply He|].
  assert (forall t, opt_le (match t with Some t => write_type_order_key levels t s | None => Some (chars "_") end)
                      (match t with Some t => write_type_order_key levels t s' | None => Some (chars "_") end)) as Ho.
  { intros [t|]; auto with grows. }
  intros kind. destruct kind; auto 6 with grows.
  - apply opt_le_bind; [|auto with grows]. unfold write_binding_order_key. destruct binding as [b|]; [|auto with grows].
    apply opt_le_bind; [|auto with grows]. destruct (binding_target b); auto with grows.
  - apply opt_le_bind; [|auto with grows]. apply opt_le_mapM. intros p. unfold write_param_order_key. auto with grows.
Qed.

Lemma write_projection_some write p :
  Forall (fun id => is_Some (write id)) (projection_ids p) -> is_Some (write_projection_order_key write p).
Proof.
  intros Hp. unfold write_projection_order_key. apply is_Some_bind; [|by eexists].
  destruct p as [p|]; [|by eexists]. apply mapM_is_Some. simpl in Hp. rewrite Forall_fmap in Hp.
  eapply Forall_impl; [done|]. intros fld [k Hk]. simpl in *. rewrite Hk. by eexists.
Qed.

Lemma write_projections_some write ps :
  Forall (fun id => is_Some (write id)) (ps ≫= projection_ids) -> is_Some (write_projections write ps).
Proof.
  intros Hps. unfold write_projections. apply is_Some_fmap, mapM_is_Some.
  induction ps as [|p ps IH]; [constructor|]. apply Forall_app in Hps as [Hp Hps].
  constructor; [by apply write_projection_some|by apply IH].
Qed.

Lemma write_type_order_key_some levels id s :
  closed s -> in_table s id -> is_Some (write_type_order_key levels id s).
Proof.
  intros Hc. revert id. induction levels as [|levels IH]; intros id Hid; [by eexists|].
  simpl. apply is_Some_bind; [done|]. intros kind Hk.
  assert (Forall (fun id => is_Some (write_type_order_key levels id s)) (kind_ids kind)) as Hids.
  { eapply Forall_impl; [by apply (Hc id)|]. done. }
  assert (forall t, Forall (fun id => is_Some (write_type_order_key levels id s)) (option_list t) ->
    is_Some (match t with Some t => write_type_order_key levels t s | None => Some (chars "_") end)) as Ho.
  { intros [t|] Ht; [|by eexists]. by apply Forall_cons in Ht as [? _]. }
  destruct kind; simpl in Hids |- *; try (by eexists);
    try (by apply is_Some_fmap, write_projection_some); try (by apply is_Some_fmap, write_projections_some).
  - apply is_Some_bind; [by apply Ho|by eexists].
  - apply Forall_app in Hids as [Hk1 Hk2]. apply is_Some_bind; [by apply Ho|]. intros k _.
    apply is_Some_bind; [by apply Ho|by eexists].
  - apply is_Some_bind; [by apply Ho|by eexists].
  - apply is_Some_bind; [|by eexists]. unfold write_binding_order_key.
    destruct binding as [[path [mdo_ref section|ty]]|]; try by eexists. simpl in *.
    apply Forall_cons in Hids as [[k ->] _]. by eexists.
  - apply is_Some_bind; [by apply mapM_is_Some|by eexists].
  - apply Forall_app in Hids as [Hps Hr]. apply Forall_cons in Hr as [Hr _].
    apply is_Some_bind.
    + apply mapM_is_Some. rewrite Forall_fmap in Hps. eapply Forall_impl; [done|].
      intros p [k Hpk]. unfold write_param_order_key. simpl in *. rewrite Hpk. by eexists.
    + intros ps _. apply is_Some_bind; [done|by eexists].
Qed.

(** *** Unions as functions of their members *)

Lemma union_order_key_some s id : closed s -> in_table s id -> is_Some (union_order_key id s).
Proof. apply write_type_order_key_some. Qed.

Lemma union_order_key_mono s s' id : extends s s' -> opt_le (union_order_key id s) (union_order_key id s').
Proof. apply write_type_order_key_mono. Qed.

#[local] Opaque union_order_key.

(** The type of an index, and its key; only read for indices of the table. *)
Definition kind_of (s : St) (id : TypeId) : TypeKind := default TK.Unknown (lookup_type id s).
Definition key_of (s : St) (id : TypeId) : text := default [] (union_order_key id s).

Lemma lookup_kind_of s id : in_table s id -> lookup_type id s = Some (kind_of s id).
Proof. unfold kind_of. by intros [kind ->]. Qed.

Lemma kind_of_extends s s' id : extends s s' -> in_table s id -> kind_of s' id = kind_of s id.
Proof. intros He Hid. unfold kind_of at 1. by rewrite (He _ _ (lookup_kind_of _ _ Hid)). Qed.

Definition member_flat (s : St) (m : TypeId) : list TypeId :=
  match kind_of s m with TK.Union inner => inner | _ => [m] end.

Definition others (s : St) (p : TypeKind -> bool) (l : list TypeId) : list TypeId :=
  if existsb (fun m => negb (p (kind_of s m))) l then filter (fun m => p (kind_of s m) = false) l else l.

Definition sorted_members (s : St) (l : list TypeId) : list TypeId :=
  dedup (sort_by_key ((fun id => (key_of s id, id)) <$> l)).*2.

(** What is left of the members when none of them is [Any]. *)
Definition union_members (s : St) (members : list TypeId) : list TypeId :=
  others s is_unknown (others s is_never (members ≫= member_flat s)).

Definition canonical_union (s : St) (members : list TypeId) : TypeKind :=
  if existsb (fun m => is_any (kind_of s m)) (others s is_never (members ≫= member_flat s)) then TK.Any
  else
    match sorted_members s (union_members s members) with
    | [m] => kind_of s m
    | [] => TK.Unknown
    | l => TK.Union l
    end.

Lemma anyM_kind s p l :
  Forall (in_table s) l ->
  anyM (fun m => kind ← lookup_type m s; Some (p kind)) l = Some (existsb (fun m => p (kind_of s m)) l).
Proof.
  induction 1 as [|m l Hm Hl IH]; [done|]. simpl. rewrite (lookup_kind_of _ _ Hm). simpl.
  by destruct (p _).
Qed.

Lemma retainM_kind s p l :
  Forall (in_table s) l ->
  retainM (fun m => kind ← lookup_type m s; Some (negb (p kind))) l =
  Some (filter (fun m => p (kind_of s m) = false) l).
Proof.
  induction 1 as [|m l Hm Hl IH]; [done|]. simpl. rewrite (lookup_kind_of _ _ Hm). simpl. rewrite IH.
  simpl. rewrite filter_cons. by destruct (p _).
Qed.

Lemma retain_others_eq s p l :
  Forall (in_table s) l -> retain_others p l s = Some (others s p l).
Proof.
  intros Hl. unfold retain_others, others. rewrite (anyM_kind s (fun k => negb (p k))) by done. simpl.
  case_match; [by apply retainM_kind|done].
Qed.

Lemma others_elem s p l x : x ∈ others s p l -> x ∈ l.
Proof. unfold others. case_match; [|done]. by intros [_ ?]%list_elem_of_filter. Qed.

Lemma others_in_table s p l : Forall (in_table s) l -> Forall (in_table s) (others s p l).
Proof. rewrite !Forall_forall. intros Hl x Hx. by eapply Hl, others_elem. Qed.

Lemma flatten_members_eq s members :
  Forall (in_table s) members -> flatten_members members s = Some (members ≫= member_flat s).
Proof.
  intros Hm. unfold flatten_members. induction Hm as [|m l Hm Hl IH]; [done|].
  simpl. rewrite (lookup_kind_of _ _ Hm). simpl. destruct (mapM _ l) as [ls|]; [|done].
  simpl in *. injection IH as IH. rewrite IH. done.
Qed.

Lemma member_flat_in_table s members :
  closed s -> Forall (in_table s) members -> Forall (in_table s) (members ≫= member_flat s).
Proof.
  intros Hc Hm. rewrite !Forall_forall in *. intros x (m & Hx & Hmm)%list_elem_of_bind.
  unfold member_flat in Hx. specialize (Hm m Hmm). pose proof (Hc _ _ (lookup_kind_of _ _ Hm)) as Hk.
  destruct (kind_of s m); try (by apply list_elem_of_singleton in Hx as ->).
  by eapply (proj1 (Forall_forall _ _) Hk).
Qed.

Lemma key_of_eq s id : closed s -> in_table s id -> union_order_key id s = Some (key_of s id).
Proof.
  intros Hc Hid. unfold key_of. by destruct (union_order_key_some s id Hc Hid) as [k ->].
Qed.

Lemma sort_members_eq s l :
  closed s -> Forall (in_table s) l -> sort_members l s = Some (sorted_members s l).
Proof.
  intros Hc Hl. unfold sort_members.
  assert (mapM (fun id => key ← union_order_key id s; Some (key, id)) l =
    Some ((fun id => (key_of s id, id)) <$> l)) as ->; [|done].
  apply mapM_Some, Forall2_fmap_r, Forall_Forall2_diag. eapply Forall_impl; [done|].
  intros id Hid. simpl. by rewrite (key_of_eq _ _ Hc Hid).
Qed.

Lemma sorted_members_elem s l x : x ∈ sorted_members s l <-> x ∈ l.
Proof.
  unfold sorted_members. rewrite dedup_elem, sort_by_key_perm, <- list_fmap_compose. simpl.
  by rewrite list_fmap_id.
Qed.

(** The order of the members by their keys. *)
Definition key_order (s : St) (i j : TypeId) : Prop := text_leb (key_of s i) (key_of s j) = true.

Lemma sorted_pairs s l :
  (fun id => (key_of s id, id)) <$> (sort_by_key ((fun id => (key_of s id, id)) <$> l)).*2 =
  sort_by_key ((fun id => (key_of s id, id)) <$> l).
Proof.
  rewrite <- list_fmap_compose. rewrite <- (list_fmap_id (sort_by_key _)) at 2.
  apply list_fmap_ext. intros i [k id] Hi. apply list_elem_of_lookup_2 in Hi.
  rewrite sort_by_key_perm in Hi. apply list_elem_of_fmap in Hi as (id' & [= -> ->] & _). done.
Qed.

(** The indices of the sorted pairs. *)
Lemma sorted_ids s l :
  StronglySorted (key_order s) (sort_by_key ((fun id => (key_of s id, id)) <$> l)).*2.
Proof.
  pose proof (sort_by_key_sorted ((fun id => (key_of s id, id)) <$> l)) as Hs.
  rewrite <- sorted_pairs in Hs. revert Hs. generalize (sort_by_key ((fun id => (key_of s id, id)) <$> l)).*2.
  intros ids. induction ids as [|id ids IH]; [constructor|]. rewrite fmap_cons. intros [Hs Hx]%StronglySorted_inv.
  constructor; [by apply IH|]. rewrite Forall_fmap in Hx. eapply Forall_impl; [exact Hx|]. by intros.
Qed.

Lemma sorted_members_sorted s l : StronglySorted (key_order s) (sorted_members s l).
Proof. apply dedup_sorted, sorted_ids. Qed.

(** Sorting and removing duplicates again changes nothing. *)
Lemma sorted_members_id s l :
  StronglySorted (key_order s) l -> no_repeats l -> sorted_members s l = l.
Proof.
  intros Hs Hr. unfold sorted_members. rewrite sort_by_key_id.
  - rewrite <- list_fmap_compose. simpl. by rewrite list_fmap_id, dedup_id.
  - clear Hr. induction Hs as [|x l Hs IH Hx]; [constructor|]. simpl. constructor; [done|].
    rewrite Forall_fmap. eapply Forall_impl; [exact Hx|]. by intros.
Qed.

Lemma canonicalise_union_eq s members :
  closed s -> Forall (in_table s) members -> canonicalise_union members s = Some (canonical_union s members).
Proof.
  intros Hc Hm. unfold canonicalise_union, canonical_union. rewrite flatten_members_eq by done. simpl.
  pose proof (member_flat_in_table _ _ Hc Hm) as Hf. rewrite retain_others_eq by done. simpl.
  pose proof (others_in_table _ is_never _ Hf) as Hn. rewrite anyM_kind by done. simpl.
  case_match; [done|]. rewrite retain_others_eq by done. simpl.
  pose proof (others_in_table _ is_unknown _ Hn) as Hu. rewrite sort_members_eq by done. simpl.
  fold (union_members s members) in *.
  destruct (sorted_members s (union_members s members)) as [|m [|m' l]] eqn:E; [done| |done].
  apply lookup_kind_of. apply (proj1 (Forall_forall _ _) Hu).
  apply (sorted_members_elem s). rewrite E. by left.
Qed.

(** *** Canonical unions *)

Definition is_plain (kind : TypeKind) : bool :=
  match kind with TK.Union _ | TK.Never | TK.Any | TK.Unknown => false | _ => true end.

Record union_ok (s : St) (l : list TypeId) : Prop := {
  union_two : (2 <= length l)%nat;
  union_in_table : Forall (in_table s) l;
  union_plain : Forall (fun m => is_plain (kind_of s m) = true) l;
  union_sorted : StronglySorted (key_order s) l;
  union_no_repeats : no_repeats l;
}.

(** A type has one index, and the unions of the table are flat. *)
Definition unique (s : St) : Prop :=
  forall i j kind, lookup_type i s = Some kind -> lookup_type j s = Some kind -> i = j.

Definition flat_unions (s : St) : Prop :=
  forall id l, lookup_type id s = Some (TK.Union l) -> union_ok s l.

Lemma existsb_false {A} (f : A -> bool) l : existsb f l = false <-> Forall (fun x => f x = false) l.
Proof.
  induction l as [|x l IH]; simpl; [by split; [constructor|]|].
  by rewrite orb_false_iff, Forall_cons, IH.
Qed.

Lemma existsb_true {A} (f : A -> bool) l : existsb f l = true <-> exists x, x ∈ l /\ f x = true.
Proof.
  rewrite existsb_exists. split; intros (x & Hx & Hf); exists x; (split; [|done]); by apply list_elem_of_In.
Qed.

Lemma others_id s p l : Forall (fun m => p (kind_of s m) = false) l -> others s p l = l.
Proof.
  intros Hl. unfold others. case_match; [|done]. induction Hl as [|m l Hm Hl IH]; [done|].
  rewrite filter_cons, decide_True by done. f_equal. destruct l; [done|]. apply IH. simpl.
  by apply Forall_cons in Hl as [-> _].
Qed.

Lemma others_not s p l :
  Forall (fun m => p (kind_of s m) = false) (others s p l) \/
  others s p l = l /\ Forall (fun m => p (kind_of s m) = true) l.
Proof.
  unfold others. case_match eqn:E.
  - left. apply Forall_forall. by intros m [? _]%list_elem_of_filter.
  - right. split; [done|]. apply existsb_false in E. eapply Forall_impl; [done|].
    intros m. by rewrite negb_false_iff.
Qed.

Lemma canonical_union_fix s l : union_ok s l -> canonical_union s l = TK.Union l.
Proof.
  intros [Htwo Hin Hp Hs Hr].
  assert (l ≫= member_flat s = l) as Hflat.
  { clear -Hp. induction Hp as [|m l Hm Hl IH]; [done|]. csimpl. rewrite IH.
    unfold member_flat. by destruct (kind_of s m). }
  assert (forall p : TypeKind -> bool, (forall k, is_plain k = true -> p k = false) ->
    Forall (fun m => p (kind_of s m) = false) l) as Hnot.
  { intros p Hk. eapply Forall_impl; [done|]. intros m. apply Hk. }
  assert (others s is_never l = l) as Hn by (apply others_id, Hnot; by intros []).
  assert (others s is_unknown l = l) as Hu by (apply others_id, Hnot; by intros []).
  unfold canonical_union, union_members. rewrite Hflat, Hn, Hu, sorted_members_id by done.
  rewrite (proj2 (existsb_false _ _)) by (apply Hnot; by intros []).
  destruct l as [|m [|m' l]]; simpl in Htwo; [lia..|done].
Qed.

(** Two indices of one type are no members of a list without repetitions. *)
Lemma no_repeats_one s kind l :
  unique s -> no_repeats l -> Forall (in_table s) l -> Forall (fun m => kind_of s m = kind) l -> (length l <= 1)%nat.
Proof.
  intros Hu Hr Hin Hk. destruct l as [|i [|j l]]; simpl; [lia..|]. destruct Hr as [Hne _]. destruct Hne.
  rewrite !Forall_cons in Hin, Hk. destruct Hin as (Hi & Hj & _), Hk as (Hki & Hkj & _).
  apply (Hu i j kind); [rewrite <- Hki|rewrite <- Hkj]; by apply lookup_kind_of.
Qed.

Lemma is_never_eq kind : is_never kind = true -> kind = TK.Never.
Proof. by destruct kind. Qed.

Lemma is_unknown_eq kind : is_unknown kind = true -> kind = TK.Unknown.
Proof. by destruct kind. Qed.

(** The flat list holds no union. *)
Lemma member_flat_no_union s members x :
  flat_unions s -> Forall (in_table s) members -> x ∈ members ≫= member_flat s ->
  forall l, kind_of s x <> TK.Union l.
Proof.
  intros Hfu Hm (m & Hx & Hmm)%list_elem_of_bind l Ex.
  pose proof (proj1 (Forall_forall _ _) Hm m Hmm) as Hmt. unfold member_flat in Hx.
  destruct (kind_of s m) eqn:Ek; try (apply list_elem_of_singleton in Hx as ->; congruence).
  pose proof (union_plain _ _ (Hfu m _ ltac:(by rewrite <- Ek; apply lookup_kind_of))) as Hpl.
  pose proof (proj1 (Forall_forall _ _) Hpl x Hx) as Hpx. simpl in Hpx. by rewrite Ex in Hpx.
Qed.

Lemma canonical_union_ok s members l :
  closed s -> unique s -> flat_unions s -> Forall (in_table s) members ->
  existsb (fun m => is_any (kind_of s m)) (others s is_never (members ≫= member_flat s)) = false ->
  l = sorted_members s (union_members s members) -> (2 <= length l)%nat -> union_ok s l.
Proof.
  intros Hc Hu Hfu Hm Hany -> Htwo.
  pose proof (member_flat_in_table _ _ Hc Hm) as Hf.
  assert (Forall (in_table s) (sorted_members s (union_members s members))) as Hin.
  { apply Forall_forall. intros x. rewrite sorted_members_elem. intros ?%others_elem%others_elem.
    by apply (proj1 (Forall_forall _ _) Hf). }
  assert (no_repeats (sorted_members s (union_members s members))) as Hr by apply dedup_no_repeats.
  assert (forall p kind, (forall k, p k = true -> k = kind) ->
    Forall (fun m => p (kind_of s m) = true) (union_members s members) -> False) as Hone.
  { intros p kind Hp Hall. pose proof (no_repeats_one s kind _ Hu Hr Hin) as Hle.
    enough (length (sorted_members s (union_members s members)) <= 1)%nat by lia. apply Hle.
    apply Forall_forall. intros x. rewrite sorted_members_elem. intros Hx. apply Hp.
    by apply (proj1 (Forall_forall _ _) Hall). }
  split; [done|done| |apply sorted_members_sorted|done].
  apply Forall_forall. intros x. rewrite sorted_members_elem. intros Hx.
  assert (is_unknown (kind_of s x) = false) as Hxu.
  { unfold union_members in Hx, Hone. destruct (others_not s is_unknown (others s is_never (members ≫= member_flat s))) as [Ho|[Eo Ho]].
    - by apply (proj1 (Forall_forall _ _) Ho).
    - exfalso. rewrite Eo in Hone. by eapply Hone, Ho; apply is_unknown_eq. }
  assert (is_never (kind_of s x) = false) as Hxn.
  { apply others_elem in Hx. destruct (others_not s is_never (members ≫= member_flat s)) as [Ho|[Eo Ho]].
    - by apply (proj1 (Forall_forall _ _) Ho).
    - exfalso. rewrite <- Eo in Ho. apply (Hone is_never TK.Never is_never_eq).
      apply Forall_forall. intros y Hy%others_elem. by apply (proj1 (Forall_forall _ _) Ho). }
  assert (is_any (kind_of s x) = false) as Hxa.
  { apply others_elem in Hx. apply existsb_false in Hany. by apply (proj1 (Forall_forall _ _) Hany). }
  pose proof (member_flat_no_union s members x Hfu Hm) as Hxf.
  apply others_elem, others_elem in Hx. specialize (Hxf Hx). destruct (kind_of s x); try done. by destruct (Hxf members0).
Qed.

(** A result that is a union is the sorted list of the members left. *)
Lemma canonical_union_members s members l :
  flat_unions s -> Forall (in_table s) members -> canonical_union s members = TK.Union l ->
  l = sorted_members s (union_members s members).
Proof.
  intros Hfu Hm. unfold canonical_union. case_match; [done|].
  destruct (sorted_members s (union_members s members)) as [|m [|m' l']] eqn:Es; [done| |congruence].
  intros Ek. exfalso. apply (member_flat_no_union s members m Hfu Hm) in Ek; [done|].
  apply (others_elem s is_never), (others_elem s is_unknown), (sorted_members_elem s).
  fold (union_members s members). rewrite Es. by left.
Qed.

(** The members of a canonical union are the plain ones of the flat list. *)
Lemma union_members_plain s members x :
  (x ∈ members ≫= member_flat s) -> is_plain (kind_of s x) = true -> x ∈ union_members s members.
Proof.
  assert (forall p l, (forall k, is_plain k = true -> p k = false) -> x ∈ l -> is_plain (kind_of s x) = true ->
    x ∈ others s p l) as Ho.
  { intros p l Hp Hx Hpl. unfold others. case_match; [|done]. apply list_elem_of_filter. auto. }
  intros Hx Hpl. apply Ho; [by intros []| |done]. apply Ho; [by intros []|done..].
Qed.

(** *** A union is a set *)

Definition same_members (l1 l2 : list TypeId) : Prop := forall x : TypeId, x ∈ l1 <-> x ∈ l2.

Lemma existsb_same (f : TypeId -> bool) l1 l2 : same_members l1 l2 -> existsb f l1 = existsb f l2.
Proof.
  intros Hs. apply eq_bool_prop_intro. rewrite !Is_true_true, !existsb_true.
  split; intros (x & Hx & Hf); exists x; (split; [by apply Hs|done]).
Qed.

Lemma others_same s p l1 l2 : same_members l1 l2 -> same_members (others s p l1) (others s p l2).
Proof.
  intros Hs x. unfold others. rewrite (existsb_same _ _ _ Hs). case_match; [|apply Hs].
  rewrite !list_elem_of_filter, (Hs x). done.
Qed.

Definition keys_differ (s : St) (l : list TypeId) : Prop :=
  forall i j, i ∈ l -> j ∈ l -> key_of s i = key_of s j -> i = j.

Lemma keys_differ_NoDup s l : NoDup (key_of s <$> l) -> keys_differ s l.
Proof.
  intros Hn i j Hi Hj E. apply list_elem_of_lookup in Hi as [a Ha], Hj as [b Hb].
  assert (a = b) as ->; [|congruence].
  apply (NoDup_lookup (key_of s <$> l) a b (key_of s i)); [done|..]; rewrite list_lookup_fmap.
  - by rewrite Ha.
  - rewrite Hb. simpl. by rewrite E.
Qed.

Lemma sorted_members_NoDup s l : keys_differ s l -> NoDup (sorted_members s l).
Proof.
  intros Hk. apply (dedup_NoDup (key_order s)); [apply sorted_ids|].
  intros i j. rewrite sort_by_key_perm, <- list_fmap_compose. simpl. rewrite list_fmap_id.
  intros Hi Hj Hij Hji. apply Hk; [done..|]. exact (text_leb_antisym _ _ Hij Hji).
Qed.

Lemma sorted_members_same s l1 l2 :
  same_members l1 l2 -> keys_differ s l1 -> sorted_members s l1 = sorted_members s l2.
Proof.
  intros Hs Hk. assert (keys_differ s l2) as Hk2 by (intros i j Hi%Hs Hj%Hs; by apply Hk).
  apply (StronglySorted_unique_strong (key_order s)).
  - intros i j. rewrite !sorted_members_elem. intros Hi Hj%Hs Hij Hji. apply Hk; [done..|].
    exact (text_leb_antisym _ _ Hij Hji).
  - apply sorted_members_sorted.
  - apply sorted_members_sorted.
  - apply NoDup_Permutation; [by apply sorted_members_NoDup..|]. intros x. rewrite !sorted_members_elem. apply Hs.
Qed.

Lemma canonical_union_same s ms1 ms2 :
  same_members (ms1 ≫= member_flat s) (ms2 ≫= member_flat s) ->
  keys_differ s (ms1 ≫= member_flat s) -> canonical_union s ms1 = canonical_union s ms2.
Proof.
  intros Hs Hk. unfold canonical_union. pose proof (others_same s is_never _ _ Hs) as Hn.
  rewrite (existsb_same _ _ _ Hn). case_match; [done|].
  rewrite (sorted_members_same s _ (union_members s ms2)); [done|by apply others_same|].
  intros i j Hi%others_elem%others_elem Hj%others_elem%others_elem. by apply Hk.
Qed.
(** *** In a table that grew *)

Lemma key_of_extends s s' id : extends s s' -> closed s -> in_table s id -> key_of s' id = key_of s id.
Proof.
  intros He Hc Hid. pose proof (key_of_eq _ _ Hc Hid) as E. apply (union_order_key_mono _ _ _ He) in E.
  unfold key_of at 1. by rewrite E.
Qed.

Lemma union_ok_extends s s' l : extends s s' -> closed s -> union_ok s l -> union_ok s' l.
Proof.
  intros He Hc [Htwo Hin Hp Hs Hr]. split; [done| | | |done].
  - eapply Forall_impl; [exact Hin|]. intros m. by apply in_table_extends.
  - rewrite Forall_forall in *. intros m Hm. rewrite (kind_of_extends s) by auto. by apply Hp.
  - clear Htwo Hp Hr. induction Hs as [|m l Hs IH Hm]; [constructor|].
    apply Forall_cons in Hin as [Hmt Hin]. constructor; [by apply IH|].
    rewrite Forall_forall in *. intros x Hx. unfold key_order. rewrite (key_of_extends s s' m), (key_of_extends s s' x) by auto. by apply Hm.
Qed.

Lemma lookup_mono s s' id : extends s s' -> opt_le (lookup_type id s) (lookup_type id s').
Proof. intros He kind. apply He. Qed.

#[local] Hint Resolve lookup_mono union_order_key_mono : grows.

Lemma retain_others_mono s s' p l : extends s s' -> opt_le (retain_others p l s) (retain_others p l s').
Proof.
  intros He. unfold retain_others. apply opt_le_bind; [auto with grows|]. intros [|]; auto with grows.
Qed.

#[local] Hint Resolve retain_others_mono : grows.

Lemma sort_members_mono s s' l : extends s s' -> opt_le (sort_members l s) (sort_members l s').
Proof.
  intros He. apply opt_le_bind; [|intros; apply opt_le_refl]. apply opt_le_mapM. intros id.
  apply opt_le_bind; [by apply union_order_key_mono|intros; apply opt_le_refl].
Qed.

Lemma flatten_members_mono s s' l : extends s s' -> opt_le (flatten_members l s) (flatten_members l s').
Proof.
  intros He. apply opt_le_fmap, opt_le_mapM. intros m.
  apply opt_le_bind; [by apply lookup_mono|intros; apply opt_le_refl].
Qed.

Lemma canonicalise_union_mono s s' l :
  extends s s' -> opt_le (canonicalise_union l s) (canonicalise_union l s').
Proof.
  intros He. apply opt_le_bind; [by apply flatten_members_mono|]. intros flat.
  apply opt_le_bind; [by apply retain_others_mono|]. intros flat1.
  apply opt_le_bind; [apply opt_le_anyM; intros m; apply opt_le_bind; [by apply lookup_mono|intros; apply opt_le_refl]|].
  intros [|]; [apply opt_le_refl|]. apply opt_le_bind; [by apply retain_others_mono|]. intros flat2.
  apply opt_le_bind; [by apply sort_members_mono|].
  intros [|m [|m' flat3]]; [apply opt_le_refl|by apply lookup_mono|apply opt_le_refl].
Qed.

(** ** The interface *)

(** The spelling of a platform type is one the corpus can fold. *)
Definition name_ok (kind : TypeKind) : Prop :=
  match kind with TK.PlatformObject f => no_sigma (platform_name f) | _ => True end.

(** A type that is made of types of the table. *)
Definition fits (s : St) (kind : TypeKind) : Prop := Forall (in_table s) (kind_ids kind) /\ name_ok kind.
End generic.

(** What every kernel promises to those who intern and look up. *)
Class TypeKernelLaws (St : Type) `{TypeLookup St, TypeIntern St} `{DebugText} `{CharCase} `{StrLower} `{PlatformTypes} := {
  kernel_ok : St -> Prop;
  kernel_unique s : kernel_ok s -> unique s;
  kernel_flat s : kernel_ok s -> flat_unions s;
  kernel_below s id kind :
    kernel_ok s -> lookup_type id s = Some kind ->
    Forall (fun j => (j < id)%nat /\ in_table s j) (kind_ids kind);
  kernel_interns s kind :
    kernel_ok s -> fits s kind ->
    exists id canonical s', canonicalise kind s = Some (canonical, s) /\
      intern_type kind s = Some (id, s') /\ lookup_type id s' = Some canonical /\
      extends s s' /\ kernel_ok s';
}.
