(* ===== verification/KernelSpec.v ===== *)
(** KernelSpec: the kernel of the database keeps its promises (crates/ide-db/src/type_kernel.rs).

    [kernel_wf]: the map and the table are inverse to each other, every entry is canonical and is
    made of entries before it.  Interning a type that fits ends without a panic, whatever it is, and
    keeps this; the laws of [TypeKernelLaws] follow.  [step] interleaves threads that share a
    kernel: equal types get equal indices in every interleaving. *)
From stdpp Require Import prelude sorting strings.
From S2P Require Import Prelude Case Names Metadata Types Corpus Interning InterningSpec.

Section kernel.
Context `{DebugText} `{CharCaseLaws} `{StrLower} `{!StrLowerLaws} `{PlatformTypes}.
Implicit Types k : TypeKernelInner.

(** ** The invariant *)

(** Types that canonisation leaves as they are; a form control is as good as the type it is bound
    to, which has an index. *)
Definition canonical (k : TypeKernelInner) (kind : TypeKind) : Prop :=
  match kind with
  | TK.Union l => union_ok k l
  | TK.FormControl _ _ => True
  | _ => fst <$> canonicalise kind k = Some kind
  end.

Record kernel_wf (k : TypeKernelInner) : Prop := {
  wf_intern : forall kind id, intern_get kind (intern k) = Some id <-> table k !! id = Some kind;
  wf_below : forall id kind, table k !! id = Some kind -> Forall (fun j => j < id)%nat (kind_ids kind);
  wf_canonical : forall id kind, table k !! id = Some kind -> canonical k kind /\ name_ok kind;
}.

Lemma wf_unique k : kernel_wf k -> unique k.
Proof. intros Hwf i j kind Hi%(wf_intern _ Hwf) Hj%(wf_intern _ Hwf). congruence. Qed.

Lemma wf_in_table k id : in_table k id <-> (id < length (table k))%nat.
Proof. apply lookup_lt_is_Some. Qed.

Lemma wf_closed k : kernel_wf k -> closed k.
Proof.
  intros Hwf id kind Hk. eapply Forall_impl; [by eapply (wf_below _ Hwf)|]. intros j Hj.
  apply wf_in_table. apply lookup_lt_Some in Hk. simpl in *. lia.
Qed.

Lemma wf_flat k : kernel_wf k -> flat_unions k.
Proof. intros Hwf id l Hl. by apply (wf_canonical _ Hwf) in Hl as [? _]. Qed.

(** ** Interning an entry finds it *)

Lemma canonicalise_canonical intern k kind :
  kernel_wf k -> canonical k kind ->
  (forall j, j ∈ kind_ids kind -> in_table k j /\ intern (kind_of k j) k = Some (j, k)) ->
  @canonicalise _ _ intern _ _ _ _ kind k = Some (kind, k).
Proof.
  intros Hwf Hc Hin.
  destruct kind; try (unfold canonical in Hc; simpl in Hc |- *; congruence).
  - destruct binding as [[path [mdo_ref section|ty]]|]; [done| |done].
    destruct (Hin ty) as [Ht Hi]; [by left|]. simpl. pose proof (lookup_kind_of _ _ Ht) as Hl. simpl in Hl.
    unfold canonicalise_form_binding. simpl. rewrite Hl. simpl. unfold intern_type. by rewrite Hi.
  - simpl. rewrite canonicalise_union_eq, canonical_union_fix; [done|done|by apply wf_closed|by apply union_in_table].
Qed.

Lemma commit_entry k id kind : kernel_wf k -> table k !! id = Some kind -> commit kind k = (id, k).
Proof. intros Hwf Hk%(wf_intern _ Hwf). unfold commit. by rewrite Hk. Qed.

Lemma intern_loop_entry k id kind fuel :
  kernel_wf k -> table k !! id = Some kind -> (id < fuel)%nat -> intern_loop fuel kind k = Some (id, k).
Proof.
  intros Hwf. revert id kind. induction fuel as [|fuel IH]; intros id kind Hk Hf; [lia|].
  simpl. rewrite canonicalise_canonical; [simpl; by rewrite (commit_entry _ id)|done|by apply (wf_canonical _ Hwf id)|].
  intros j Hj. assert (j < id)%nat as Hlt by apply (proj1 (Forall_forall _ _) (wf_below _ Hwf _ _ Hk) j Hj).
  assert (in_table k j) as Ht by (apply wf_in_table; apply lookup_lt_Some in Hk; lia).
  split; [done|]. apply IH; [exact (lookup_kind_of k j Ht)|lia].
Qed.

(** ** Interning a type that fits *)

Lemma strip_projection_idem p : strip_projection (strip_projection p) = strip_projection p.
Proof.
  destruct p as [p|]; [|done]. simpl. do 2 f_equal. rewrite <- list_fmap_compose. by apply list_fmap_ext.
Qed.

Lemma strip_slice_idem ps : strip_projection_slice (strip_projection_slice ps) = strip_projection_slice ps.
Proof.
  unfold strip_projection_slice. rewrite <- list_fmap_compose. apply list_fmap_ext. intros. apply strip_projection_idem.
Qed.

Lemma strip_projection_ids p : projection_ids (strip_projection p) = projection_ids p.
Proof. destruct p as [p|]; [|done]. simpl. by rewrite <- list_fmap_compose. Qed.

Lemma strip_slice_ids ps : strip_projection_slice ps ≫= projection_ids = ps ≫= projection_ids.
Proof.
  induction ps as [|p ps IH]; [done|]. unfold strip_projection_slice in *. csimpl.
  by rewrite strip_projection_ids, IH.
Qed.

Lemma canonicalise_fits intern k kind :
  kernel_wf k -> corpus_ok -> fits k kind ->
  (forall j, in_table k j -> intern (kind_of k j) k = Some (j, k)) ->
  exists c, @canonicalise _ _ intern _ _ _ _ kind k = Some (c, k) /\
    canonical k c /\ fits k c.
Proof.
  intros Hwf Hco [Hids Hn] Hintern.
  destruct kind; try (eexists; split; [reflexivity|]; split; [done|split; done]).
  1-2: eexists; split; [reflexivity|]; unfold canonical, fits; simpl;
    rewrite ?strip_projection_idem, ?strip_projection_ids; done.
  - destruct underlying; by eexists.
  - destruct binding as [[path [mdo_ref section|ty]]|]; [by eexists| |by eexists].
    apply Forall_cons in Hids as [Ht _]. pose proof (lookup_kind_of _ _ Ht) as Hl. simpl in Hl.
    simpl. unfold canonicalise_form_binding. simpl. rewrite Hl. simpl. unfold intern_type. rewrite (Hintern ty Ht). simpl.
    eexists. split; [done|]. split; [done|]. split; [by repeat constructor|done].
  - simpl in Hn. eexists. split; [reflexivity|]. unfold canonical, fits. simpl.
    rewrite canonical_platform_name_idem by done. split; [done|]. split; [constructor|by apply canonical_no_sigma].
  - simpl. rewrite canonicalise_union_eq by (done || by apply wf_closed). simpl. eexists. split; [reflexivity|]. unfold canonical_union.
    destruct (existsb _ _) eqn:Eany; [by split|].
    destruct (sorted_members k (union_members k members)) as [|m [|m' l]] eqn:Es; [by split| |].
    + assert (in_table k m) as Hm.
      { assert (m ∈ sorted_members k (union_members k members)) as Hin by (rewrite Es; by left).
        rewrite sorted_members_elem in Hin. apply others_elem, others_elem in Hin.
        by apply (proj1 (Forall_forall _ _) (member_flat_in_table _ _ (wf_closed _ Hwf) Hids)). }
      pose proof (lookup_kind_of _ _ Hm) as Hl. destruct (wf_canonical _ Hwf _ _ Hl). split; [done|].
      split; [|done]. by apply (wf_closed _ Hwf m).
    + assert (union_ok k (m :: m' :: l)) as Hok.
      { eapply (canonical_union_ok k members); [by apply wf_closed|by apply wf_unique|by apply wf_flat|done|done|done|].
        simpl. lia. }
      split; [done|]. split; [by apply union_in_table|done].
  - eexists; split; [reflexivity|]; unfold canonical, fits; simpl;
      rewrite strip_projection_idem, strip_projection_ids; done.
  - eexists; split; [reflexivity|]; unfold canonical, fits; simpl;
      rewrite strip_projection_idem, strip_projection_ids; done.
  - eexists; split; [reflexivity|]; unfold canonical, fits; simpl; rewrite strip_slice_idem, strip_slice_ids; done.
  - eexists; split; [reflexivity|]; unfold canonical, fits; simpl; rewrite strip_slice_idem, strip_slice_ids; done.
Qed.

Lemma entry_interns k j : kernel_wf k -> in_table k j -> intern_loop (length (table k)) (kind_of k j) k = Some (j, k).
Proof.
  intros Hwf Hj. apply intern_loop_entry; [done|exact (lookup_kind_of k j Hj)|by apply wf_in_table].
Qed.

(** The table only grows at its end. *)
Lemma extends_app k k' rest : table k' = table k ++ rest -> extends k k'.
Proof.
  intros E id kind Hk. unfold lookup_type, kernel_lookup in *. rewrite E. by apply lookup_app_l_Some.
Qed.

Lemma intern_get_cons kind c id m :
  intern_get kind ((c, id) :: m) = if decide (c = kind) then Some id else intern_get kind m.
Proof. unfold intern_get. simpl. case_decide; [done|]. by destruct (list_find _ m) as [[]|]. Qed.

Lemma commit_spec k c :
  kernel_wf k -> canonical k c -> fits k c ->
  kernel_wf (commit c k).2 /\ lookup_type (commit c k).1 (commit c k).2 = Some c /\
  (exists rest, table (commit c k).2 = table k ++ rest) /\ sentinels (commit c k).2 = sentinels k.
Proof.
  intros Hwf Hc [Hids Hn]. unfold commit. destruct (intern_get c (intern k)) as [id|] eqn:E.
  { split; [done|]. split; [by apply (wf_intern _ Hwf)|]. split; [by exists []; rewrite app_nil_r|done]. }
  assert (forall i, table k !! i = Some c -> False) as Hnew by (intros i Hi%(wf_intern _ Hwf); congruence).
  set (k' := MkKernel (table k ++ [c]) ((c, length (table k)) :: intern k) (sentinels k)). simpl.
  assert (extends k k') as He by by apply (extends_app _ _ [c]).
  split; [|split; [exact (list_lookup_middle _ [] _ _ eq_refl)|split; [by eexists|done]]].
  assert (forall id kind, table k' !! id = Some kind ->
    table k !! id = Some kind \/ id = length (table k) /\ kind = c) as Hcases.
  { intros id kind [Hk|[Hle Hk]]%lookup_app_Some; [by left|right].
    apply list_lookup_singleton_Some in Hk as [Hz ->]. split; [lia|done]. }
  split.
  - intros kind id. change (intern k') with ((c, length (table k)) :: intern k). rewrite intern_get_cons.
    case_decide as Hd; [subst kind; split|].
    + intros [= <-]. by apply list_lookup_middle.
    + intros [Hk|[-> _]]%Hcases; [by apply Hnew in Hk|done].
    + rewrite (wf_intern _ Hwf). split; [apply He|]. by intros [Hk|[_ ->]]%Hcases.
  - intros id kind [Hk|[-> ->]]%Hcases; [by apply (wf_below _ Hwf)|].
    eapply Forall_impl; [done|]. intros j. apply wf_in_table.
  - intros id kind Hk. assert (canonical k kind /\ name_ok kind) as [Hck Hnk].
    { apply Hcases in Hk as [Hk|[_ ->]]; [by apply (wf_canonical _ Hwf id)|done]. }
    split; [|done]. destruct kind; try exact Hck. by apply (union_ok_extends k); [|by apply wf_closed|].
Qed.

(** What interning an entry answers is all that canonisation asks of it. *)
Lemma canonicalise_agree (intern1 intern2 : TypeIntern TypeKernelInner) k kind :
  Forall (in_table k) (kind_ids kind) ->
  (forall j, in_table k j -> intern1 (kind_of k j) k = intern2 (kind_of k j) k) ->
  @canonicalise _ _ intern1 _ _ _ _ kind k = @canonicalise _ _ intern2 _ _ _ _ kind k.
Proof.
  intros Hids Ha. destruct kind; try exact eq_refl.
  destruct binding as [[path [mdo_ref section|ty]]|]; [exact eq_refl| |exact eq_refl].
  apply Forall_cons in Hids as [Ht _]. simpl. unfold canonicalise_form_binding. simpl.
  rewrite (lookup_kind_of k ty Ht). simpl. unfold intern_type. by rewrite (Ha ty Ht).
Qed.

Lemma kernel_intern_spec k kind :
  kernel_wf k -> corpus_ok -> fits k kind ->
  exists c, canonicalise kind k = Some (c, k) /\ canonical k c /\ fits k c /\
    kernel_intern kind k = Some (commit c k).
Proof.
  intros Hwf Hco Hf.
  destruct (canonicalise_fits (intern_loop (length (table k))) k kind Hwf Hco Hf) as (c & E & Hc & Hfc).
  { intros j Hj. by apply entry_interns. }
  exists c. split_and!; [|done..|].
  - rewrite (canonicalise_agree kernel_intern (intern_loop (length (table k)))); [done|apply Hf|].
    intros j Hj. rewrite entry_interns by done.
    apply intern_loop_entry; [done|exact (lookup_kind_of k j Hj)|]. apply wf_in_table in Hj. lia.
  - unfold kernel_intern. simpl. by rewrite E.
Qed.

(** ** All kernels there are *)

(** The kernels that interning makes of a new one. *)
Inductive reachable : TypeKernelInner -> Prop :=
  | reach_new : reachable TypeKernelInner_new
  | reach_intern k kind id k' :
      reachable k -> fits k kind -> kernel_intern kind k = Some (id, k') -> reachable k'.

(** The empty kernel, before the sentinels are seeded. *)
Definition empty_kernel : TypeKernelInner := MkKernel [] [] (sentinels TypeKernelInner_new).

Lemma empty_wf : kernel_wf empty_kernel.
Proof. split; intros; simpl in *; try done. Qed.

Lemma new_commits :
  TypeKernelInner_new =
  foldl (fun k kind => (commit kind k).2) empty_kernel
    [TK.Unknown; TK.Never; TK.Any; TK.Null; TK.Undefined; TK.Boolean].
Proof. reflexivity. Qed.

Lemma new_wf : kernel_wf TypeKernelInner_new.
Proof.
  rewrite new_commits. generalize empty_wf. generalize empty_kernel.
  assert (Forall (fun kind => forall k, kernel_wf k -> kernel_wf (commit kind k).2)
    [TK.Unknown; TK.Never; TK.Any; TK.Null; TK.Undefined; TK.Boolean]) as Hall.
  { repeat (apply Forall_cons; split); [..|apply Forall_nil_2];
      (intros k Hk; apply commit_spec; [done..|]; split; [apply Forall_nil_2|done]). }
  induction Hall as [|kind kinds Hkind Hall IH]; [done|]. intros k Hk. simpl. by apply IH, Hkind.
Qed.

Lemma reachable_wf k : corpus_ok -> reachable k -> kernel_wf k.
Proof.
  intros Hco. induction 1 as [|k kind id k' Hk IH Hf E]; [apply new_wf|].
  destruct (kernel_intern_spec k kind IH Hco Hf) as (c & _ & Hc & Hfc & E'). rewrite E in E'.
  injection E' as E'. pose proof (commit_spec k c IH Hc Hfc) as (Hwf & _). by rewrite <- E' in Hwf.
Qed.

(** The sentinels stay where they were seeded. *)
Lemma reachable_sentinels k :
  corpus_ok -> reachable k ->
  sentinels k = sentinels TypeKernelInner_new /\ extends TypeKernelInner_new k.
Proof.
  intros Hco. induction 1 as [|k kind id k' Hk IH Hf E]; [done|]. pose proof (reachable_wf _ Hco Hk) as Hwf.
  destruct (kernel_intern_spec k kind Hwf Hco Hf) as (c & _ & Hc & Hfc & E'). rewrite E in E'.
  injection E' as E'. pose proof (commit_spec k c Hwf Hc Hfc) as (_ & _ & [rest Hr] & Hs).
  rewrite <- E' in Hr, Hs. simpl in Hr, Hs. destruct IH as [IHs IHe]. split; [congruence|].
  etransitivity; [exact IHe|]. by apply (extends_app _ _ rest).
Qed.

(** What interning does to a well-formed kernel. *)
Lemma kernel_intern_wf k kind :
  kernel_wf k -> corpus_ok -> fits k kind ->
  exists id c k', canonicalise kind k = Some (c, k) /\ kernel_intern kind k = Some (id, k') /\
    lookup_type id k' = Some c /\ (exists rest, table k' = table k ++ rest) /\ kernel_wf k'.
Proof.
  intros Hwf Hco Hf. destruct (kernel_intern_spec k kind Hwf Hco Hf) as (c & E & Hc & Hfc & Ei).
  destruct (commit_spec k c Hwf Hc Hfc) as (Hwf' & Hl & Hr & _).
  exists (commit c k).1, c, (commit c k).2. split_and!; try done. by rewrite Ei, <- surjective_pairing.
Qed.

(** C16. Interning gives every type one index, in every kernel there is: a type made of types of the
    table is interned without a panic however deep form controls are bound; the index leads to its
    canonical form and no other index does; no index that was handed out changes its type; the
    canonical form is made of earlier types only, so that every walk into a type ends; and interning
    the canonical form again finds the same index and adds nothing. *)
Theorem types_interned_once k kind :
  corpus_ok -> reachable k -> fits k kind ->
  exists id c k',
    kernel_intern kind k = Some (id, k') /\ canonicalise kind k = Some (c, k) /\
    lookup_type id k' = Some c /\ (forall j, lookup_type j k' = Some c -> j = id) /\
    extends k k' /\ Forall (fun j => j < id)%nat (kind_ids c) /\
    canonicalise c k' = Some (c, k') /\ kernel_intern c k' = Some (id, k').
Proof.
  intros Hco Hk Hf. pose proof (reachable_wf k Hco Hk) as Hwf.
  destruct (kernel_intern_wf k kind Hwf Hco Hf) as (id & c & k' & E & Ei & Hl & [rest Hr] & Hwf').
  exists id, c, k'. split_and!; try done.
  - intros j Hj. by apply (wf_unique _ Hwf' j id c).
  - by apply (extends_app _ _ rest).
  - by apply (wf_below _ Hwf').
  - apply canonicalise_canonical; [done|by apply (wf_canonical _ Hwf' id)|]. intros j Hj.
    assert (in_table k' j) as Ht by (apply (proj1 (Forall_forall _ _) (wf_closed _ Hwf' id c Hl)); done).
    split; [done|]. apply intern_loop_entry; [done|exact (lookup_kind_of k' j Ht)|]. apply wf_in_table in Ht. lia.
  - apply intern_loop_entry; [done|exact Hl|]. apply lookup_lt_Some in Hl. lia.
Qed.

#[export] Instance kernel_laws (Hco : corpus_ok) : TypeKernelLaws TypeKernelInner.
Proof.
  refine {| kernel_ok := kernel_wf |}.
  - apply wf_unique.
  - apply wf_flat.
  - intros k id kind Hwf Hl. apply Forall_forall. intros j Hj. split.
    + by apply (proj1 (Forall_forall _ _) (wf_below _ Hwf _ _ Hl)).
    + by apply (proj1 (Forall_forall _ _) (wf_closed _ Hwf _ _ Hl)).
  - intros k kind Hwf Hf. destruct (kernel_intern_wf k kind Hwf Hco Hf) as (id & c & k' & E & Ei & Hl & [rest Hr] & Hwf').
    exists id, c, k'. split_and!; try done. by apply (extends_app _ _ rest).
Defined.

Lemma intern_union k ms :
  kernel_wf k -> Forall (in_table k) ms ->
  canonicalise (TK.Union ms) k = Some (canonical_union k ms, k) /\
  kernel_intern (TK.Union ms) k = Some (commit (canonical_union k ms) k).
Proof.
  intros Hwf Hms. unfold kernel_intern. simpl. rewrite canonicalise_union_eq by (done || by apply wf_closed). done.
Qed.

(** C21. A union is the set of its members: interning unions whose members, with those of inner
    unions in their place, are the same indices in any order and number gives the same index, as
    long as the order keys of the members tell them apart; and a result that is a union has at least
    two members, none of them twice, exactly the ones that are no union, Never, Any or Unknown. *)
Theorem unions_are_sets k ms ms' :
  corpus_ok -> reachable k -> Forall (in_table k) ms -> Forall (in_table k) ms' ->
  same_members (ms ≫= member_flat k) (ms' ≫= member_flat k) -> keys_differ k (ms ≫= member_flat k) ->
  kernel_intern (TK.Union ms) k = kernel_intern (TK.Union ms') k /\
  exists c, canonicalise (TK.Union ms) k = Some (c, k) /\
    forall l, c = TK.Union l ->
      (2 <= length l)%nat /\ NoDup l /\
      forall x, x ∈ l <-> (x ∈ ms ≫= member_flat k) /\ is_plain (kind_of k x) = true.
Proof.
  intros Hco Hk Hms Hms' Hsame Hkeys. pose proof (reachable_wf k Hco Hk) as Hwf.
  destruct (intern_union k ms Hwf Hms) as [Ec Ei], (intern_union k ms' Hwf Hms') as [_ Ei'].
  rewrite Ei, Ei', (canonical_union_same k ms ms') by done. split; [done|].
  exists (canonical_union k ms). split; [done|]. intros l El.
  assert (union_ok k l) as Hok.
  { destruct (canonicalise_fits kernel_intern k (TK.Union ms) Hwf Hco (conj Hms I)) as (c & Ec' & Hcc & _).
    { intros j Hj. apply intern_loop_entry; [done|exact (lookup_kind_of k j Hj)|]. apply wf_in_table in Hj. lia. }
    rewrite Ec in Ec'. injection Ec' as <-. by rewrite El in Hcc. }
  pose proof (canonical_union_members k ms l (wf_flat _ Hwf) Hms El) as Esm.
  split; [apply Hok|]. split.
  - rewrite Esm. apply sorted_members_NoDup. intros i j Hi%others_elem%others_elem Hj%others_elem%others_elem.
    by apply Hkeys.
  - intros x. split.
    + intros Hx. split; [|by apply (proj1 (Forall_forall _ _) (union_plain _ _ Hok))].
      rewrite Esm, sorted_members_elem in Hx. by apply others_elem, others_elem in Hx.
    + intros [Hx Hpl]. rewrite Esm, sorted_members_elem. by apply union_members_plain.
Qed.
(** ** Semantic equality

    On the entries of a table it is equality of indices, but for the SDBL types that rows carry
    along: canonisation keeps them and [semantic_eq] does not look at them. *)

Definition no_shadows (p : option Projection) : Prop := forall q, p = Some q -> raw_sdbl_types q = None.

Definition kind_no_shadows (kind : TypeKind) : Prop :=
  match kind with
  | TK.ValueTable f | TK.ValueTableRow f => no_shadows (table_projection f)
  | TK.QueryResult f | TK.QueryResultSelection f => no_shadows (facet_projection f)
  | TK.QueryBatchResult ps | TK.Query ps => Forall no_shadows ps
  | _ => True
  end.

Lemma all_pairs_eq {A} (f : A -> A -> bool) (P : A -> Prop) (l1 l2 : list A) :
  (forall x y, P x -> P y -> f x y = true -> x = y) -> Forall P l1 -> Forall P l2 ->
  all_pairs f l1 l2 = true -> l1 = l2.
Proof.
  intros Hf H1'. revert l2. unfold all_pairs.
  induction H1' as [|x l1 Hx H1' IH]; intros [|y l2] H2'; simpl; try done.
  apply Forall_cons in H2' as [Hy H2']. rewrite !andb_true_iff. intros (Hl & Hxy & Hall).
  f_equal; [by apply Hf|]. apply IH; [done|]. by apply andb_true_iff.
Qed.

Lemma stripped_arc_eq p q :
  strip_projection p = p /\ no_shadows p -> strip_projection q = q /\ no_shadows q ->
  projection_arc_eq p q = true -> p = q.
Proof.
  destruct p as [[fs o r]|], q as [[fs' o' r']|]; try done. intros [Ep Hp] [Eq Hq] E.
  specialize (Hp _ eq_refl). specialize (Hq _ eq_refl). simpl in Hp, Hq, Ep, Eq. subst r r'.
  injection Ep as Efs <-. injection Eq as Efs' <-. do 2 f_equal.
  assert (forall l : list ProjectionField, (fun f => MkField (field_name f) (field_ty f) PF.Unknown) <$> l = l ->
    Forall (fun f => field_source f = PF.Unknown) l) as Hs.
  { intros l. induction l as [|[n t s] l IH]; [constructor|]. csimpl. intros [= <- ?]. constructor; [done|by apply IH]. }
  apply (all_pairs_eq projection_field_eq (fun f => field_source f = PF.Unknown)); [|by apply Hs..|done].
  intros [n t s] [n' t' s']. unfold projection_field_eq. simpl. rewrite andb_true_iff, !bool_decide_eq_true.
  by intros -> -> [-> ->].
Qed.

Lemma stripped_slice_eq ps qs :
  strip_projection_slice ps = ps -> Forall no_shadows ps -> strip_projection_slice qs = qs -> Forall no_shadows qs ->
  projection_slice_eq ps qs = true -> ps = qs.
Proof.
  assert (forall l, strip_projection_slice l = l -> Forall no_shadows l ->
    Forall (fun p => strip_projection p = p /\ no_shadows p) l) as Hl.
  { intros l E Hs. apply Forall_and. split; [|done]. clear Hs. induction l as [|p l IH]; [constructor|].
    injection E as Ep El. constructor; [done|by apply IH]. }
  intros. by eapply all_pairs_eq; [apply stripped_arc_eq|apply Hl..|].
Qed.

Lemma semantic_eq_canonical k a b :
  canonical k a -> canonical k b -> kind_no_shadows a -> kind_no_shadows b ->
  semantic_eq a b = true -> a = b.
Proof.
  intros Ha Hb Sa Sb. destruct a, b; cbn [semantic_eq]; try (by intros ?%bool_decide_eq_true);
    unfold canonical in Ha, Hb; simpl in Ha, Hb, Sa, Sb; injection Ha as Ha; injection Hb as Hb; intros E.
  - destruct f as [x y o], f0 as [x' y' o']. simpl in *. unfold number_eq_no_origin in E. simpl in E.
    rewrite andb_true_iff, !bool_decide_eq_true in E. destruct E. congruence.
  - destruct f as [x y o], f0 as [x' y' o']. simpl in *. unfold string_eq_no_origin in E. simpl in E.
    rewrite andb_true_iff, !bool_decide_eq_true in E. destruct E. congruence.
  - destruct f as [x o], f0 as [x' o']. simpl in *. unfold date_eq_no_origin in E. simpl in E.
    rewrite bool_decide_eq_true in E. congruence.
  - destruct f as [x o], f0 as [x' o']. simpl in *. injection Ha as Ha <-. injection Hb as Hb <-.
    do 2 f_equal. by apply stripped_arc_eq.
  - destruct f as [x o], f0 as [x' o']. simpl in *. injection Ha as Ha <-. injection Hb as Hb <-.
    do 2 f_equal. by apply stripped_arc_eq.
  - destruct f as [ps ds mn mx r o], f0 as [ps' ds' mn' mx' r' o']. simpl in *. unfold function_eq_no_origin in E. simpl in E.
    rewrite !andb_true_iff, !bool_decide_eq_true in E. destruct E as [[[[? ?] ?] ?] ?]. congruence.
  - destruct f as [x o], f0 as [x' o']. simpl in *. injection Ha as Ha <-. injection Hb as Hb <-.
    do 2 f_equal. by apply stripped_arc_eq.
  - destruct f as [x o], f0 as [x' o']. simpl in *. injection Ha as Ha <-. injection Hb as Hb <-.
    do 2 f_equal. by apply stripped_arc_eq.
  - f_equal. by apply stripped_slice_eq.
  - f_equal. by apply stripped_slice_eq.
Qed.

Lemma semantic_eq_same_index k i j :
  kernel_wf k -> in_table k i -> in_table k j ->
  kind_no_shadows (kind_of k i) -> kind_no_shadows (kind_of k j) ->
  semantic_eq (kind_of k i) (kind_of k j) = true -> i = j.
Proof.
  intros Hwf Hi Hj Si Sj E. pose proof (lookup_kind_of k i Hi) as Li. pose proof (lookup_kind_of k j Hj) as Lj.
  apply (wf_unique _ Hwf i j (kind_of k i)); [done|].
  rewrite (semantic_eq_canonical k (kind_of k i) (kind_of k j)); [done| | |done..].
  - by destruct (wf_canonical _ Hwf _ _ Li).
  - by destruct (wf_canonical _ Hwf _ _ Lj).
Qed.
End kernel.

(** ** Examples *)

Section examples.
#[local] Instance example_case : CharCase := basic_lowercase.
#[local] Existing Instances basic_str_lower example_types example_debug.

(** A kernel with a number, a string and the union of the string and Undefined. *)
Definition intern_into (kind : TypeKind) (k : TypeKernelInner) : TypeKernelInner :=
  default k (snd <$> kernel_intern kind k).

Definition example_kernel : TypeKernelInner :=
  Eval vm_compute in
    intern_into (TK.Union [7; 4]) (intern_into (TK.String StringFacet_unsized)
      (intern_into (TK.Number NumberFacet_unsized) TypeKernelInner_new)).

Lemma reachable_into k kind :
  reachable k -> fits k kind -> is_Some (kernel_intern kind k) -> reachable (intern_into kind k).
Proof.
  unfold intern_into. intros Hk Hf [[id k'] E]. rewrite E. simpl. exact (reach_intern k kind id k' Hk Hf E).
Qed.

Ltac in_tables :=
  repeat (apply Forall_cons; split); [apply lookup_lt_is_Some; vm_compute; lia..|apply Forall_nil_2].

Lemma example_kernel_reachable : reachable example_kernel.
Proof.
  change (reachable (intern_into (TK.Union [7; 4]) (intern_into (TK.String StringFacet_unsized)
      (intern_into (TK.Number NumberFacet_unsized) TypeKernelInner_new)))).
  repeat apply reachable_into; try apply reach_new; try (split; [|exact I]); simpl;
    try apply Forall_nil_2; try (vm_compute; by eexists).
  in_tables.
Qed.

Lemma types_interned_once_witness :
  let kind := TK.PlatformObject (MkPlatformObject (chars "ФАЙЛ")) in
  fits example_kernel kind /\
  exists id c k',
    kernel_intern kind example_kernel = Some (id, k') /\ canonicalise kind example_kernel = Some (c, example_kernel) /\
    lookup_type id k' = Some c /\ (forall j, lookup_type j k' = Some c -> j = id) /\
    extends example_kernel k' /\ Forall (fun j => j < id)%nat (kind_ids c) /\
    canonicalise c k' = Some (c, k') /\ kernel_intern c k' = Some (id, k').
Proof.
  intros kind. assert (fits example_kernel kind) as Hf.
  { split; [constructor|]. apply (bool_decide_unpack _). by vm_compute. }
  split; [exact Hf|]. apply (types_interned_once example_kernel kind example_corpus_ok example_kernel_reachable Hf).
Defined.

Lemma unions_are_sets_witness :
  keys_differ example_kernel ([6; 8; 0] ≫= member_flat example_kernel) /\
  kernel_intern (TK.Union [6; 8; 0]) example_kernel = kernel_intern (TK.Union [4; 7; 6; 0; 8]) example_kernel /\
  exists c, canonicalise (TK.Union [6; 8; 0]) example_kernel = Some (c, example_kernel) /\
    forall l, c = TK.Union l ->
      (2 <= length l)%nat /\ NoDup l /\
      forall x, x ∈ l <-> (x ∈ [6; 8; 0] ≫= member_flat example_kernel) /\ is_plain (kind_of example_kernel x) = true.
Proof.
  assert (keys_differ example_kernel ([6; 8; 0] ≫= member_flat example_kernel)) as Hk.
  { apply keys_differ_NoDup, (bool_decide_unpack _). by vm_compute. }
  split; [exact Hk|].
  apply (unions_are_sets example_kernel [6; 8; 0] [4; 7; 6; 0; 8] example_corpus_ok example_kernel_reachable); [..|exact Hk].
  - in_tables.
  - in_tables.
  - intros x. change ([6; 8; 0] ≫= member_flat example_kernel) with [6; 7; 4; 0].
    change ([4; 7; 6; 0; 8] ≫= member_flat example_kernel) with [4; 7; 6; 0; 7; 4].
    rewrite !elem_of_cons. intuition.
Defined.

(** Value tables whose columns differ only in the SDBL types they carry have different indices but
    one key: a union of them depends on the order, and a member may come twice. *)
Definition table_of (shadow : String.string) : TypeKind :=
  TK.ValueTable (MkTable (Some (MkProjection [MkField (chars "Имя") 4 PF.Unknown] PO.Unknown
    (Some [MkShadow (chars shadow)]))) TS.Unknown).

Definition tables_kernel : TypeKernelInner :=
  Eval vm_compute in intern_into (table_of "B") (intern_into (table_of "A") TypeKernelInner_new).

Example union_keeps_duplicates :
  semantic_eq (table_of "A") (table_of "B") = true /\
  canonicalise_union [6; 7; 6] tables_kernel = Some (TK.Union [6; 7; 6]) /\
  canonicalise_union [7; 6] tables_kernel = Some (TK.Union [7; 6]).
Proof. split_and!; by vm_compute. Qed.
End examples.
