(* ===== verification/KernelThreads.v ===== *)
(** KernelThreads: threads that share a kernel (crates/ide-db/src/type_kernel.rs).

    Analyses run in parallel over one kernel.  [intern_type] makes the canonical form without the
    lock, over a table that others append to meanwhile, and takes the lock for [commit] only.  A
    thread is at one of these points; [step] runs any thread one point further. *)
From stdpp Require Import prelude strings.
From S2P Require Import Prelude Case Names Metadata Types Corpus Interning InterningSpec KernelSpec.

Inductive Thread : Set :=
  | Called (kind : TypeKind)
  | Canonised (kind canonical : TypeKind)
  | Returned (kind : TypeKind) (id : TypeId).

Section threads.
Context `{DebugText} `{CharCaseLaws} `{StrLower} `{!StrLowerLaws} `{PlatformTypes}.
Implicit Types (k : TypeKernelInner) (ts : list Thread).

Inductive step : list Thread * TypeKernelInner -> list Thread * TypeKernelInner -> Prop :=
  | step_canonicalise ts k t kind c k' :
      ts !! t = Some (Called kind) -> canonicalise kind k = Some (c, k') ->
      step (ts, k) (<[t := Canonised kind c]> ts, k')
  | step_commit ts k t kind c :
      ts !! t = Some (Canonised kind c) ->
      step (ts, k) (<[t := Returned kind (commit c k).1]> ts, (commit c k).2)
  | step_call ts k t kind id kind' :
      ts !! t = Some (Returned kind id) -> fits k kind' ->
      step (ts, k) (<[t := Called kind']> ts, k).

(** ** Canonical forms do not depend on what is appended *)

Lemma canonicalise_extends k k' kind c :
  corpus_ok -> kernel_wf k -> kernel_wf k' -> extends k k' -> Forall (in_table k) (kind_ids kind) ->
  canonicalise kind k = Some (c, k) -> canonicalise kind k' = Some (c, k').
Proof.
  intros Hco Hwf Hwf' He Hids E.
  destruct kind; try (simpl in E |- *; injection E as <-; reflexivity).
  - destruct binding as [[path [mdo_ref section|ty]]|]; try (simpl in E |- *; injection E as <-; reflexivity).
    apply Forall_cons in Hids as [Ht _].
    assert (forall k0, kernel_wf k0 -> in_table k0 ty ->
      canonicalise (TK.FormControl kind (Some (MkBinding path (TargetAttribute ty)))) k0 =
      Some (TK.FormControl kind (Some (MkBinding path (TargetAttribute ty))), k0)) as Hform.
    { intros k0 Hk0 Ht0. apply canonicalise_canonical; [done..|]. intros j Hj.
      apply list_elem_of_singleton in Hj as ->. split; [done|].
      apply intern_loop_entry; [done|exact (lookup_kind_of k0 ty Ht0)|]. apply wf_in_table in Ht0. lia. }
    rewrite Hform in E by done. injection E as <-. apply Hform; [done|]. by eapply in_table_extends.
  - simpl in E |- *. destruct (canonicalise_union members k) as [r|] eqn:Er; [|done]. injection E as <-.
    by rewrite (canonicalise_union_mono k k' members He r Er).
Qed.

(** ** The invariant *)

Definition thread_ok (k : TypeKernelInner) (t : Thread) : Prop :=
  match t with
  | Called kind => fits k kind
  | Canonised kind c => fits k kind /\ canonicalise kind k = Some (c, k) /\ canonical k c /\ fits k c
  | Returned kind id =>
      fits k kind /\ exists c, canonicalise kind k = Some (c, k) /\ lookup_type id k = Some c
  end.

Lemma fits_extends k k' kind : extends k k' -> fits k kind -> fits k' kind.
Proof.
  intros He [Hids Hn]. split; [|done]. eapply Forall_impl; [exact Hids|]. intros j. by apply in_table_extends.
Qed.

Lemma thread_ok_extends k k' t :
  corpus_ok -> kernel_wf k -> kernel_wf k' -> extends k k' -> thread_ok k t -> thread_ok k' t.
Proof.
  intros Hco Hwf Hwf' He. destruct t as [kind|kind c|kind id]; simpl.
  - by apply fits_extends.
  - intros (Hf & Ec & Hc & Hfc). split_and!; [by eapply fits_extends|by apply (canonicalise_extends k); try apply Hf| |by eapply fits_extends].
    destruct c; try exact Hc. by apply (union_ok_extends k); [|apply wf_closed|].
  - intros (Hf & c & Ec & Hl). split; [by eapply fits_extends|]. exists c.
    split; [by apply (canonicalise_extends k); try apply Hf|by apply He].
Qed.

Lemma step_ok ts k ts' k' :
  corpus_ok -> step (ts, k) (ts', k') -> kernel_wf k -> Forall (thread_ok k) ts ->
  kernel_wf k' /\ Forall (thread_ok k') ts' /\ extends k k'.
Proof.
  intros Hco Hstep Hwf Hts. inversion Hstep as [? ? t kind c ? Ht Ec|? ? t kind c Ht|? ? t kind id kind' Ht Hf]; subst;
    pose proof (Forall_lookup_1 _ _ _ _ Hts Ht) as Hok.
  - destruct (kernel_intern_spec k kind Hwf Hco Hok) as (c' & Ec' & Hc & Hfc & _).
    rewrite Ec in Ec'. injection Ec' as <- ->. split_and!; [done| |done].
    apply Forall_insert; [done|]. by split_and!.
  - destruct Hok as (Hf & Ec & Hc & Hfc). destruct (commit_spec k c Hwf Hc Hfc) as (Hwf' & Hl & [rest Hr] & _).
    assert (extends k (commit c k).2) as He by by apply (extends_app _ _ rest).
    split_and!; [done| |done]. apply Forall_insert.
    + eapply Forall_impl; [exact Hts|]. intros x. by apply thread_ok_extends.
    + split; [by eapply fits_extends|]. exists c. split; [|done]. by apply (canonicalise_extends k); try apply Hf.
  - split_and!; [done| |done]. by apply Forall_insert.
Qed.

Lemma steps_ok ts k ts' k' :
  corpus_ok -> rtc step (ts, k) (ts', k') -> kernel_wf k -> Forall (thread_ok k) ts ->
  kernel_wf k' /\ Forall (thread_ok k') ts' /\ extends k k'.
Proof.
  intros Hco Hsteps. remember (ts, k) as c eqn:Ec. remember (ts', k') as c' eqn:Ec'.
  revert ts k Ec. induction Hsteps as [c|c [ts1 k1] c2 Hstep Hsteps IH]; intros ts k -> Hwf Hts.
  - by injection Ec' as -> ->.
  - destruct (step_ok _ _ _ _ Hco Hstep Hwf Hts) as (Hwf1 & Hts1 & He1).
    destruct (IH Ec' ts1 k1 eq_refl Hwf1 Hts1) as (Hwf' & Hts' & He').
    split_and!; [done..|]. by transitivity k1.
Qed.

(** C19. Threads that share a kernel agree: however the canonisations and the locked commits of any
    number of calls are interleaved, each thread that is still in a call can go on, an index that a
    call returned leads to the canonical form of the type it was called with, and two calls returned
    the same index exactly when their types have the same canonical form. *)
Theorem threads_agree ts k ts' k' :
  corpus_ok -> reachable k -> Forall (fun t => exists kind, t = Called kind /\ fits k kind) ts ->
  rtc step (ts, k) (ts', k') ->
  (forall t kind c, ts' !! t = Some (Called kind) \/ ts' !! t = Some (Canonised kind c) ->
     exists s, step (ts', k') s) /\
  (forall t kind id, ts' !! t = Some (Returned kind id) ->
     exists c, canonicalise kind k' = Some (c, k') /\ lookup_type id k' = Some c) /\
  (forall t1 t2 kind1 kind2 id1 id2,
     ts' !! t1 = Some (Returned kind1 id1) -> ts' !! t2 = Some (Returned kind2 id2) ->
     id1 = id2 <-> canonicalise kind1 k' = canonicalise kind2 k').
Proof.
  intros Hco Hk Hts Hsteps. pose proof (reachable_wf k Hco Hk) as Hwf.
  assert (Forall (thread_ok k) ts) as Hts0.
  { eapply Forall_impl; [exact Hts|]. by intros t (kind & -> & Hf). }
  destruct (steps_ok _ _ _ _ Hco Hsteps Hwf Hts0) as (Hwf' & Hts' & _).
  assert (forall t kind id, ts' !! t = Some (Returned kind id) ->
     exists c, canonicalise kind k' = Some (c, k') /\ lookup_type id k' = Some c) as Hret.
  { intros t kind id Ht. by apply (Forall_lookup_1 _ _ _ _ Hts') in Ht as [_ Ht]. }
  split_and!; [|done|].
  - intros t kind c [Ht|Ht]; [|by eexists; apply (step_commit _ _ _ _ _ Ht)].
    pose proof (Forall_lookup_1 _ _ _ _ Hts' Ht) as Hf.
    destruct (kernel_intern_spec k' kind Hwf' Hco Hf) as (c' & Ec' & _).
    eexists. by apply (step_canonicalise _ _ _ _ _ _ Ht Ec').
  - intros t1 t2 kind1 kind2 id1 id2 Ht1 Ht2.
    destruct (Hret _ _ _ Ht1) as (c1 & Ec1 & Hl1), (Hret _ _ _ Ht2) as (c2 & Ec2 & Hl2).
    rewrite Ec1, Ec2. split.
    + intros ->. congruence.
    + intros [= ->]. by apply (wf_unique _ Hwf' id1 id2 c2).
Qed.
End threads.

(** ** Example *)

Section examples.
#[local] Instance thread_case : CharCase := basic_lowercase.
#[local] Existing Instances basic_str_lower example_types example_debug.

(** Two threads intern spellings of one platform type; both canonise before either commits. *)
Definition file_kind (s : text) : TypeKind := TK.PlatformObject (MkPlatformObject s).

Definition after_commits : TypeKernelInner := (commit (file_kind (chars "Файл")) example_kernel).2.

Lemma example_run :
  rtc step ([Called (file_kind (chars "файл")); Called (file_kind (chars "FILE"))], example_kernel)
    ([Returned (file_kind (chars "файл")) 9; Returned (file_kind (chars "FILE")) 9], after_commits).
Proof.
  eapply rtc_l; [apply (step_canonicalise _ _ 0 (file_kind (chars "файл")) (file_kind (chars "Файл"))); by vm_compute|].
  eapply rtc_l; [apply (step_canonicalise _ _ 1 (file_kind (chars "FILE")) (file_kind (chars "Файл"))); by vm_compute|].
  eapply rtc_l; [by apply (step_commit _ _ 1 (file_kind (chars "FILE")) (file_kind (chars "Файл")))|].
  eapply rtc_l; [by apply (step_commit _ _ 0 (file_kind (chars "файл")) (file_kind (chars "Файл")))|].
  apply reflexive_eq. by vm_compute.
Qed.

Lemma threads_agree_witness :
  let ts' := [Returned (file_kind (chars "файл")) 9; Returned (file_kind (chars "FILE")) 9] in
  (forall t kind c, ts' !! t = Some (Called kind) \/ ts' !! t = Some (Canonised kind c) ->
     exists s, step (ts', after_commits) s) /\
  (forall t kind id, ts' !! t = Some (Returned kind id) ->
     exists c, canonicalise kind after_commits = Some (c, after_commits) /\ lookup_type id after_commits = Some c) /\
  (forall t1 t2 kind1 kind2 id1 id2,
     ts' !! t1 = Some (Returned kind1 id1) -> ts' !! t2 = Some (Returned kind2 id2) ->
     id1 = id2 <-> canonicalise kind1 after_commits = canonicalise kind2 after_commits).
Proof.
  refine (threads_agree _ example_kernel _ _ example_corpus_ok example_kernel_reachable _ example_run).
  repeat (apply Forall_cons; split); [..|apply Forall_nil_2];
    (eexists; split; [reflexivity|split; [apply Forall_nil_2|]]; apply (bool_decide_unpack _); by vm_compute).
Defined.
End examples.

