(* ===== verification/PlatformNames.v ===== *)
(** PlatformNames: names of platform types beyond the corpus (crates/hir-ty/src/platform_type_name.rs).

    The tables of generic names that a concrete type may be passed for, which the subtype test and
    the lowering of documented types share, and the tests of the lowering on a name.  Names are
    compared regardless of case, Russian ones by [fold_lower]. *)
From stdpp Require Import prelude strings.
From S2P Require Import Prelude Case Names Metadata Types.

(** ** Tables *)

Definition MANAGER_NAMES : list (MdoType * text * text) :=
  [ (Mdo.Catalog, chars "СправочникМенеджер", chars "CatalogManager");
    (Mdo.Document, chars "ДокументМенеджер", chars "DocumentManager");
    (Mdo.Enum, chars "ПеречислениеМенеджер", chars "EnumManager");
    (Mdo.InformationRegister, chars "РегистрСведенийМенеджер", chars "InformationRegisterManager");
    (Mdo.AccumulationRegister, chars "РегистрНакопленияМенеджер", chars "AccumulationRegisterManager");
    (Mdo.AccountingRegister, chars "РегистрБухгалтерииМенеджер", chars "AccountingRegisterManager");
    (Mdo.CalculationRegister, chars "РегистрРасчетаМенеджер", chars "CalculationRegisterManager");
    (Mdo.ExchangePlan, chars "ПланОбменаМенеджер", chars "ExchangePlanManager");
    (Mdo.ChartOfAccounts, chars "ПланСчетовМенеджер", chars "ChartOfAccountsManager");
    (Mdo.ChartOfCharacteristicTypes, chars "ПланВидовХарактеристикМенеджер", chars "ChartOfCharacteristicTypesManager");
    (Mdo.ChartOfCalculationTypes, chars "ПланВидовРасчетаМенеджер", chars "ChartOfCalculationTypesManager");
    (Mdo.Task, chars "ЗадачаМенеджер", chars "TaskManager");
    (Mdo.BusinessProcess, chars "БизнесПроцессМенеджер", chars "BusinessProcessManager");
    (Mdo.DataProcessor, chars "ОбработкаМенеджер", chars "DataProcessorManager");
    (Mdo.Report, chars "ОтчетМенеджер", chars "ReportManager") ].

Definition OBJECT_NAMES : list (MdoType * text * text) :=
  [ (Mdo.Catalog, chars "СправочникОбъект", chars "CatalogObject");
    (Mdo.Document, chars "ДокументОбъект", chars "DocumentObject");
    (Mdo.Task, chars "ЗадачаОбъект", chars "TaskObject");
    (Mdo.BusinessProcess, chars "БизнесПроцессОбъект", chars "BusinessProcessObject");
    (Mdo.ExchangePlan, chars "ПланОбменаОбъект", chars "ExchangePlanObject");
    (Mdo.ChartOfAccounts, chars "ПланСчетовОбъект", chars "ChartOfAccountsObject");
    (Mdo.ChartOfCharacteristicTypes, chars "ПланВидовХарактеристикОбъект", chars "ChartOfCharacteristicTypesObject");
    (Mdo.ChartOfCalculationTypes, chars "ПланВидовРасчетаОбъект", chars "ChartOfCalculationTypesObject");
    (Mdo.DataProcessor, chars "ОбработкаОбъект", chars "DataProcessorObject");
    (Mdo.Report, chars "ОтчетОбъект", chars "ReportObject");
    (Mdo.ExternalDataProcessor, chars "ВнешняяОбработкаОбъект", chars "ExternalDataProcessorObject");
    (Mdo.ExternalReport, chars "ВнешнийОтчетОбъект", chars "ExternalReportObject") ].

Definition find_name (table : list (MdoType * text * text)) (mdo : MdoType) : option (text * text) :=
  found ← list_find (fun row => row.1.1 = mdo) table; Some (found.2.1.2, found.2.2).

Definition manager_name_for (mdo : MdoType) : option (text * text) := find_name MANAGER_NAMES mdo.

Definition object_name_for (mdo : MdoType) : option (text * text) := find_name OBJECT_NAMES mdo.

Definition form_control_name_for (kind : FormElementKind) : option (text * text) :=
  match kind with
  | FEK.Table => Some (chars "ТаблицаФормы", chars "FormTable")
  | FEK.Field => Some (chars "ПолеФормы", chars "FormField")
  | FEK.Group | FEK.UsualGroup | FEK.Pages | FEK.Page | FEK.CommandBar | FEK.ButtonGroup =>
      Some (chars "ГруппаФормы", chars "FormGroup")
  | FEK.Button => Some (chars "КнопкаФормы", chars "FormButton")
  | FEK.Decoration => Some (chars "ДекорацияФормы", chars "FormDecoration")
  | FEK.Addition => Some (chars "ДополнениеЭлементаФормы", chars "FormItemAddition")
  | FEK.Other => None
  end.

Definition FORM_CONTROL_KINDS : list FormElementKind :=
  [ FEK.Table; FEK.Field; FEK.Group; FEK.Button; FEK.Decoration; FEK.Addition ].

Definition FORM_DATA_NAMES : list (text * text) :=
  [ (chars "ДанныеФормыСтруктура", chars "FormDataStructure");
    (chars "ДанныеФормыКоллекция", chars "FormDataCollection");
    (chars "ДанныеФормыСтруктураСКоллекцией", chars "FormDataStructureAndCollection");
    (chars "ДанныеФормыДерево", chars "FormDataTree") ].

Definition NON_CORPUS_SINGLETONS : list (text * text) :=
  [ (chars "ЭлементФормы", chars "FormControl");
    (chars "КоллекцияЭлементовФормы", chars "FormItemsCollection");
    (chars "ЭлементУправления", chars "ManagedFormControl");
    (chars "УправляемаяФорма", chars "ManagedForm");
    (chars "ФормаКлиентскогоПриложения", chars "ClientApplicationForm");
    (chars "ФормаУправляемогоПриложения", chars "ManagedApplicationForm");
    (chars "ВнешняяКомпонента", chars "AddIn");
    (chars "ОбъектВнешнейКомпоненты", chars "ExternalComponentObject");
    (chars "НаборЗаписей", chars "RecordSet");
    (chars "НаборЗаписейРегистра", chars "RegisterRecordSet");
    (chars "КонстантаМенеджерЗначения", chars "ConstantValueManager");
    (chars "РеквизитФормыКоллекция", chars "FormAttributeCollection") ].

Definition LEGACY_PLATFORM_TYPE_NAMES : list text := [ chars "БлокировкаУстановкиСоединений" ].

Definition REGISTER_PREFIXES : list (text * text) :=
  [ (chars "РегистрСведений", chars "InformationRegister");
    (chars "РегистрНакопления", chars "AccumulationRegister");
    (chars "РегистрБухгалтерии", chars "AccountingRegister");
    (chars "РегистрРасчета", chars "CalculationRegister");
    (chars "Перерасчет", chars "Recalculation");
    (chars "Последовательность", chars "Sequence") ].

Definition RECORD_SUFFIXES : list (text * text) :=
  [ (chars "НаборЗаписей", chars "RecordSet");
    (chars "Запись", chars "Record");
    (chars "КлючЗаписи", chars "RecordKey");
    (chars "МенеджерЗаписи", chars "RecordManager") ].

(** ** Tests of names *)

Section tests.
Context `{CharCase} `{StrLower} `{CharAlphabetic}.

Definition name_eq_ci (actual ru en : text) : bool :=
  eq_ignore_ascii_case actual en || bool_decide (fold_lower actual = fold_lower ru).

(** A pair of names, and whether a name is one of them. *)
Definition is_pair (name : text) (p : text * text) : bool := name_eq_ci name p.1 p.2.

Definition form_control_names : list (text * text) := FORM_CONTROL_KINDS ≫= (fun k => option_list (form_control_name_for k)).

Definition is_form_control_type_name (name : text) : bool := existsb (is_pair name) form_control_names.

Definition is_tabular_row_name (name : text) : bool :=
  let lc := fold_lower (trim name) in
  bool_decide (lc = chars "строка табличной части") || bool_decide (lc = chars "line of a tabular section") ||
  bool_decide (lc = chars "строкатабличнойчасти") || bool_decide (lc = chars "tabularsectionrow").

Definition is_form_data_collection_item_type_name (name : text) : bool :=
  eq_ignore_case name (chars "ДанныеФормыЭлементКоллекции") || eq_ignore_case name (chars "FormDataCollectionItem").

Definition is_row_like_platform_type_name (name : text) : bool :=
  is_tabular_row_name name || is_form_data_collection_item_type_name name.

Definition is_generic_bridge_target_name (name : text) : bool :=
  existsb (fun row => name_eq_ci name row.1.2 row.2) MANAGER_NAMES ||
  existsb (fun row => name_eq_ci name row.1.2 row.2) OBJECT_NAMES ||
  existsb (is_pair name) form_control_names ||
  existsb (is_pair name) FORM_DATA_NAMES ||
  name_eq_ci name (chars "ТабличнаяЧасть") (chars "TabularSection") ||
  is_tabular_row_name name.

Definition is_exact_non_corpus_type_name (name : text) : bool :=
  is_generic_bridge_target_name name || existsb (is_pair name) NON_CORPUS_SINGLETONS.

Definition is_legacy_platform_type_name (name : text) : bool :=
  let lc := fold_lower name in
  existsb (fun legacy => bool_decide (fold_lower legacy = lc)) LEGACY_PLATFORM_TYPE_NAMES.

(** [stem.chars().next_back()] is alphabetic and not ASCII. *)
Definition has_cyrillic_rooted_suffix (lc : text) : bool :=
  existsb (fun tag =>
    match strip_suffix lc tag with
    | Some stem => match last stem with Some c => is_alphabetic c && negb (c <? 0x80)%Z | None => false end
    | None => false
    end) [chars "xdto"; chars "xml"; chars "dom"].

Definition is_register_record_family (name : text) : bool :=
  existsb (fun p => existsb (fun s => name_eq_ci name (p.1 ++ s.1) (p.2 ++ s.2)) RECORD_SUFFIXES) REGISTER_PREFIXES.

Definition is_known_non_corpus_type_name (name : text) : bool :=
  if is_exact_non_corpus_type_name name then true
  else
    let lc := fold_lower name in
    if has_cyrillic_rooted_suffix lc then true
    else if starts_with lc (chars "объектметаданных") || starts_with lc (chars "metadataobject") then true
    else if (starts_with lc (chars "расширение") && contains lc (chars "форм")) || contains lc (chars "formextension")
    then true
    else is_register_record_family name.
End tests.
