(* ===== verification/Builders.v ===== *)
(** Builders: the constructors of types over any kernel (crates/bsl-types/src/builders.rs).

    Every builder interns one layer.  [structure_typed_closed] is the only one with a choice: a
    structure without columns is never closed. *)
From stdpp Require Import prelude strings.
From S2P Require Import Prelude Metadata Types Interning.

(** Which configuration a metadata object belongs to. *)
Record ConfigCtx : Type := MkConfigCtx {
  resolve_config_id : MetadataKind -> Name -> ConfigId;
  resolve_manager_config_id : MdoType -> Name -> ConfigId;
}.

(** The context of tests, with the default of the trait for managers. *)
Definition RootConfigCtx : ConfigCtx := MkConfigCtx (fun _ _ => Root) (fun _ _ => Root).

(** The context of one configuration (crates/hir-ty/src/this_object.rs). *)
Definition FixedConfigCtx (id : ConfigId) : ConfigCtx := MkConfigCtx (fun _ _ => id) (fun _ _ => id).

Section builders.
Context {St : Type} `{TypeIntern St}.
#[local] Abbreviation Built := (St -> option (TypeId * St)).

Definition unknown : Built := intern_type TK.Unknown.
Definition never : Built := intern_type TK.Never.
Definition any : Built := intern_type TK.Any.
Definition number (precision scale : option Z) : Built := intern_type (TK.Number (MkNumber precision scale None)).
Definition string (length : option Z) (fixed : bool) : Built := intern_type (TK.String (MkString length fixed None)).
Definition date (component : DateComponent) : Built := intern_type (TK.Date (MkDate component None)).
Definition boolean : Built := intern_type TK.Boolean.
Definition null : Built := intern_type TK.Null.
Definition undefined : Built := intern_type TK.Undefined.
Definition array (el : option TypeId) : Built := intern_type (TK.Array (MkArray el)).
Definition map (key value : option TypeId) : Built := intern_type (TK.Map (MkMap key value)).

Definition structure (keys : option (list Name)) : Built :=
  intern_type (TK.Structure (MkStructure keys None None false)).

Definition structure_typed (projection : Projection) (origin : TypeOrigin) : Built :=
  let keys := field_name <$> proj_fields projection in
  intern_type (TK.Structure (MkStructure (Some keys) (Some projection) (Some origin) false)).

Definition structure_typed_closed (projection : Projection) (origin : TypeOrigin) : Built :=
  match proj_fields projection with
  | [] => structure_typed projection origin
  | _ =>
      let keys := field_name <$> proj_fields projection in
      intern_type (TK.Structure (MkStructure (Some keys) (Some projection) (Some origin) true))
  end.

Definition value_table (projection : option Projection) (source : TableSource) : Built :=
  intern_type (TK.ValueTable (MkTable projection source)).

Definition value_table_row (projection : option Projection) (source : TableSource) : Built :=
  intern_type (TK.ValueTableRow (MkTable projection source)).

Definition value_list (el : option TypeId) : Built := intern_type (TK.ValueList el).
Definition uuid : Built := intern_type TK.Uuid.
Definition value_storage : Built := intern_type TK.ValueStorage.
Definition type_descriptor : Built := intern_type TK.TypeDescriptor.

Definition metadata_ref (kind : MetadataKind) (name : Name) (cfg : ConfigCtx) : Built :=
  let config_id := resolve_config_id cfg kind name in
  intern_type (TK.MetadataRef (MkMetaRef kind name config_id)).

Definition metadata_object (kind : MetadataKind) (name : Name) (cfg : ConfigCtx) : Built :=
  let config_id := resolve_config_id cfg kind name in
  intern_type (TK.MetadataObject (MkMetaObj kind name config_id)).

Definition any_metadata_ref (mdo : MdoType) : Built := intern_type (TK.AnyMetadataRef mdo).

Definition metadata_reference_collection (kind : MetadataReferenceKind) : Built :=
  intern_type (TK.MetadataReferenceCollection kind).

Definition metadata_reference (kind : MetadataReferenceKind) (name : Name) : Built :=
  intern_type (TK.MetadataReference kind name).

Definition metadata_object_collection (mdo : MdoType) : Built := intern_type (TK.MetadataObjectCollection mdo).
Definition any_ref : Built := intern_type TK.AnyRef.
Definition manager_collection (mdo : MdoType) : Built := intern_type (TK.ManagerCollection mdo).

Definition object_manager (mdo : MdoType) (name : Name) (cfg : ConfigCtx) : Built :=
  let config_id := resolve_manager_config_id cfg mdo name in
  intern_type (TK.ObjectManager (MkManager mdo name config_id)).

Definition object_manager_with_config (mdo : MdoType) (name : Name) (config_id : ConfigId) : Built :=
  intern_type (TK.ObjectManager (MkManager mdo name config_id)).

Definition tabular_section (parent : MetaRefFacet) (name : Name) : Built := intern_type (TK.TabularSection parent name).
Definition tabular_section_row (parent : MetaRefFacet) (name : Name) : Built := intern_type (TK.TabularSectionRow parent name).
Definition register_dimension (parent : MetaRefFacet) (name : Name) : Built := intern_type (TK.RegisterDimension parent name).
Definition register_resource (parent : MetaRefFacet) (name : Name) : Built := intern_type (TK.RegisterResource parent name).
Definition register_attribute (parent : MetaRefFacet) (name : Name) : Built := intern_type (TK.RegisterAttribute parent name).
Definition register_filter (parent : MetaRefFacet) : Built := intern_type (TK.RegisterFilter parent).
Definition attribute (parent : MetaRefFacet) (name : Name) : Built := intern_type (TK.Attribute parent name).

Definition meta_ref_facet (kind : MetadataKind) (name : Name) (cfg : ConfigCtx) : MetaRefFacet :=
  MkMetaRef kind name (resolve_config_id cfg kind name).

Definition mk_form_data (kind : FormDataFacet) (underlying : option MdoRefFacet) : Built :=
  intern_type (TK.FormData kind underlying).

Definition mk_form_control (kind : FormElementKind) (binding : option FormBindingFacet) : Built :=
  intern_type (TK.FormControl kind binding).

Definition mk_this_object (config_id : ConfigId) (owner : MdoRefFacet) : Built := intern_type (TK.ThisObject config_id owner).
Definition mk_this_manager (config_id : ConfigId) (owner : MdoRefFacet) : Built := intern_type (TK.ThisManager config_id owner).
Definition common_module (name : Name) (config_id : ConfigId) : Built := intern_type (TK.CommonModule (MkCommonModule name config_id)).
Definition platform_object (name : Name) : Built := intern_type (TK.PlatformObject (MkPlatformObject name)).
Definition union (members : list TypeId) : Built := intern_type (TK.Union members).

Definition query_result (projection : option Projection) (source : ProjectionSource) : Built :=
  intern_type (TK.QueryResult (MkProjectionFacet projection source)).

Definition query_result_selection (projection : option Projection) (source : ProjectionSource) : Built :=
  intern_type (TK.QueryResultSelection (MkProjectionFacet projection source)).

Definition query_batch_result (per_query : list (option Projection)) : Built := intern_type (TK.QueryBatchResult per_query).
Definition query (projections : list (option Projection)) : Built := intern_type (TK.Query projections).
Definition function (facet : FunctionFacet) : Built := intern_type (TK.Function facet).
End builders.

Definition projection_from_fields (fields : list (Name * TypeId)) (field_source : ProjectionFieldSource)
    (origin : ProjectionOrigin) : Projection :=
  MkProjection ((fun f => MkField f.1 f.2 field_source) <$> fields) origin None.
