(* ===== verification/Subtype.v ===== *)
(** Subtype: when a value of one type fits where another is expected (crates/hir-ty/src/subtype.rs,
    with [coerce_to_metadata_ref_id] of this_object.rs).

    [is_assignable] is the lattice of the type checker, [is_coercible_to] the wider policy for
    arguments.  Both only look types up, but for the platform type of a collection and the metadata
    type of a module's own object, which they intern on the way: a test is a computation over the
    kernel.  The source recurses into the types inside of a type, which have smaller indices; the
    fuel here is counted by the indices. *)
From stdpp Require Import prelude strings.
From S2P Require Import Prelude Case Names Metadata Types Interning Builders PlatformNames.

(** ** Computations over a kernel; [None] is a panic *)

Definition K (St A : Type) : Type := St -> option (A * St).

#[export] Instance K_ret {St} : MRet (K St) := fun A a s => Some (a, s).
#[export] Instance K_bind {St} : MBind (K St) := fun A B f m s => '(a, s) ← m s; f a s.

(** ** Questions about one or two types *)

Definition is_dynamic (kind : TypeKind) : bool := match kind with TK.Unknown | TK.Any => true | _ => false end.

Definition is_soft (kind : TypeKind) : bool :=
  match kind with TK.MetadataReference _ _ | TK.MetadataReferenceCollection _ => true | _ => false end.

Definition is_collection (kind : TypeKind) : bool :=
  match kind with TK.MetadataObjectCollection _ => true | _ => false end.

Definition is_flag (kind : TypeKind) : bool := match kind with TK.Undefined | TK.Null => true | _ => false end.

(** The test for a union, with its members. *)
Definition union_parts (kind : TypeKind) : option (list TypeId) :=
  match kind with TK.Union parts => Some parts | _ => None end.

Definition is_ref_kind (kind : TypeKind) : bool :=
  match kind with
  | TK.MetadataRef f => match ref_mdo_type (meta_kind f) with Some _ => true | None => false end
  | TK.AnyMetadataRef _ | TK.AnyRef => true
  | _ => false
  end.

Definition object_mdo_of_kind (kind : MetadataKind) : option MdoType :=
  match kind with
  | MK.CatalogObject => Some Mdo.Catalog
  | MK.DocumentObject => Some Mdo.Document
  | MK.TaskObject => Some Mdo.Task
  | MK.BusinessProcessObject => Some Mdo.BusinessProcess
  | MK.ExchangePlanObject => Some Mdo.ExchangePlan
  | MK.ChartOfAccountsObject => Some Mdo.ChartOfAccounts
  | MK.DataProcessorObject => Some Mdo.DataProcessor
  | MK.ReportObject => Some Mdo.Report
  | MK.ExternalDataProcessorObject => Some Mdo.ExternalDataProcessor
  | MK.ExternalReportObject => Some Mdo.ExternalReport
  | MK.ChartOfCharacteristicTypesObject => Some Mdo.ChartOfCharacteristicTypes
  | MK.ChartOfCalculationTypesObject => Some Mdo.ChartOfCalculationTypes
  | _ => None
  end.

Definition generic_manager_names (mdo : MdoType) : option (text * text) := manager_name_for mdo.
Definition generic_object_names (mdo : MdoType) : option (text * text) := object_name_for mdo.
Definition generic_form_control_names (kind : FormElementKind) : option (text * text) := form_control_name_for kind.

Definition is_value_table_bridge (from to : TypeKind) : bool :=
  match from, to with
  | TK.ValueTable a, TK.ValueTable b =>
      match table_projection a, table_projection b with
      | Some pa, Some pb => bool_decide (pa = pb)
      | _, _ => true
      end
  | _, _ => false
  end.

Section questions.
Context `{CharCase} `{StrLower}.

Definition platform_name_eq_ci (actual ru en : text) : bool :=
  eq_ignore_ascii_case actual en || bool_decide (fold_lower actual = fold_lower ru).

Definition is_row_metadata_ref (kind : TypeKind) : bool :=
  match kind with
  | TK.MetadataRef f => match meta_kind f with MK.TabularSectionRow _ => true | _ => false end
  | _ => false
  end.

Definition is_row_platform_object (kind : TypeKind) : bool :=
  match kind with TK.PlatformObject f => is_tabular_row_name (platform_name f) | _ => false end.

Definition is_tabular_row_bridge (a b : TypeKind) : bool :=
  (is_row_metadata_ref a && is_row_platform_object b) || (is_row_platform_object a && is_row_metadata_ref b).

Definition is_spreadsheet_area_bridge (from to : TypeKind) : bool :=
  match from, to with
  | TK.PlatformObject f, TK.PlatformObject g =>
      platform_name_eq_ci (platform_name f) (chars "ТабличныйДокумент") (chars "SpreadsheetDocument") &&
      platform_name_eq_ci (platform_name g) (chars "ОбластьЯчеекТабличногоДокумента")
        (chars "SpreadsheetDocumentRange")
  | _, _ => false
  end.

Definition form_data_english_name (kind : FormDataFacet) : text :=
  match kind with
  | FD.Structure => chars "FormDataStructure"
  | FD.Collection => chars "FormDataCollection"
  | FD.StructureWithCollection => chars "FormDataStructureAndCollection"
  | FD.Tree => chars "FormDataTree"
  end.

(** The generic names a concrete type may be passed for. *)
Definition generic_names (from : TypeKind) : option (text * text) :=
  match from with
  | TK.ObjectManager f => generic_manager_names (manager_mdo f)
  | TK.ThisManager _ owner => generic_manager_names (mdo_type owner)
  | TK.ThisObject _ owner => generic_object_names (mdo_type owner)
  | TK.FormData kind _ => Some (form_data_platform_type_name kind, form_data_english_name kind)
  | TK.MetadataRef f =>
      match meta_kind f with
      | MK.TabularSection _ => Some (chars "ТабличнаяЧасть", chars "TabularSection")
      | MK.ConstantValueManager => Some (chars "КонстантаМенеджерЗначения", chars "ConstantValueManager")
      | kind => object_mdo_of_kind kind ≫= generic_object_names
      end
  | TK.FormControl kind _ => generic_form_control_names kind
  | _ => None
  end.

Definition is_concrete_to_generic_platform_bridge (from to : TypeKind) : bool :=
  match to with
  | TK.PlatformObject g =>
      match generic_names from with
      | Some (ru, en) => platform_name_eq_ci (platform_name g) ru en
      | None => false
      end
  | _ => false
  end.

Definition SUPERTYPES : list (text * text * (text * text)) :=
  [ (chars "ФормаКлиентскогоПриложения", chars "ClientApplicationForm", (chars "УправляемаяФорма", chars "ManagedForm")) ].

Definition is_platform_object_supertype_bridge (from to : TypeKind) : bool :=
  match from, to with
  | TK.PlatformObject f, TK.PlatformObject g =>
      if match split_once 0x3A (platform_name f) with
         | Some (prefix, _) => eq_ignore_case (platform_name g) (trim prefix)
         | None => false
         end
      then true
      else existsb (fun row => platform_name_eq_ci (platform_name f) row.1.1 row.1.2 &&
                               platform_name_eq_ci (platform_name g) row.2.1 row.2.2) SUPERTYPES
  | _, _ => false
  end.

Definition same_platform_name (from to : TypeKind) : bool :=
  match from, to with
  | TK.PlatformObject f, TK.PlatformObject g => eq_ignore_case (platform_name f) (platform_name g)
  | _, _ => false
  end.

Definition both_structures (from to : TypeKind) : bool :=
  match from, to with TK.Structure _, TK.Structure _ => true | _, _ => false end.

Definition null_to_ref (from to : TypeKind) : bool :=
  match from with TK.Null => is_ref_kind to | _ => false end.

Definition ref_to_any_ref (from to : TypeKind) : bool :=
  match to with TK.AnyRef => is_ref_kind from | _ => false end.

Definition ref_to_any_metadata_ref (from to : TypeKind) : bool :=
  match to, from with
  | TK.AnyMetadataRef mdo, TK.MetadataRef f => bool_decide (ref_mdo_type (meta_kind f) = Some mdo)
  | _, _ => false
  end.

Definition module_to_common_module (from to : TypeKind) : bool :=
  match from, to with
  | TK.CommonModule _, TK.PlatformObject g =>
      eq_ignore_case (platform_name g) (chars "ОбщийМодуль") ||
      eq_ignore_case (platform_name g) (chars "CommonModule")
  | _, _ => false
  end.

(** The returns between the unions and the arrays, in their order. *)
Definition flat_rules (from to : TypeKind) : bool :=
  both_structures from to || null_to_ref from to || ref_to_any_ref from to ||
  ref_to_any_metadata_ref from to || is_tabular_row_bridge from to ||
  is_spreadsheet_area_bridge from to || is_value_table_bridge from to ||
  is_concrete_to_generic_platform_bridge from to || is_platform_object_supertype_bridge from to ||
  module_to_common_module from to.

Definition is_binary_data (kind : TypeKind) : bool :=
  match kind with
  | TK.PlatformObject f => platform_name_eq_ci (platform_name f) (chars "ДвоичныеДанные") (chars "BinaryData")
  | _ => false
  end.

Definition is_unknown_kind_form_item (kind : TypeKind) : bool :=
  match kind with
  | TK.FormControl kind _ => match form_control_name_for kind with Some _ => false | None => true end
  | TK.PlatformObject f => platform_name_eq_ci (platform_name f) (chars "ЭлементФормы") (chars "FormControl")
  | _ => false
  end.

Definition is_form_item_kind (kind : TypeKind) : bool :=
  match kind with
  | TK.PlatformObject f => is_form_control_type_name (platform_name f)
  | TK.FormControl _ _ => true
  | _ => false
  end.
End questions.

(** ** The tests *)

Section code.
Context {St : Type} `{TypeLookup St, TypeIntern St} `{CharCase} `{StrLower}.

Definition get (id : TypeId) : K St TypeKind := fun s => kind ← lookup_type id s; Some (kind, s).

Definition panic {A} : K St A := fun _ => None.

Definition is_ref_ty (ty : TypeId) : K St bool := kind ← get ty; mret (is_ref_kind kind).

Definition as_platform_metadata_collection (ty : TypeId) : K St TypeId :=
  kind ← get ty;
  match kind with
  | TK.MetadataObjectCollection _ => platform_object (chars "КоллекцияОбъектовМетаданных")
  | _ => mret ty
  end.

Definition coerce_to_metadata_ref_id (receiver : TypeId) : K St (option TypeId) :=
  kind ← get receiver;
  match kind with
  | TK.ThisObject config_id owner =>
      match object_kind_for (mdo_type owner) with
      | None => mret None
      | Some kind => id ← metadata_ref kind (mdo_name owner) (FixedConfigCtx config_id) : K St TypeId; mret (Some id)
      end
  | TK.ThisManager config_id owner =>
      match manager_type_prefix (mdo_type owner) with
      | None => mret None
      | Some _ =>
          id ← object_manager (mdo_type owner) (mdo_name owner) (FixedConfigCtx config_id) : K St TypeId;
          mret (Some id)
      end
  | _ => mret None
  end.

Definition is_array_bridge (assignable : TypeId -> TypeId -> K St bool) (from to : TypeKind) : K St bool :=
  match from, to with
  | TK.Array a, TK.Array b =>
      match element a, element b with
      | Some _, None | None, Some _ => mret true
      | Some ae, Some be => assignable ae be
      | None, None => mret false
      end
  | _, _ => mret false
  end.

Definition this_bridge (assignable : TypeId -> TypeId -> K St bool) (from to : TypeId) (from_kind : TypeKind)
    : K St bool :=
  match from_kind with
  | TK.ThisObject _ _ | TK.ThisManager _ _ =>
      coerced ← coerce_to_metadata_ref_id from;
      match coerced with Some coerced => assignable coerced to | None => mret false end
  | _ => mret false
  end.

Definition function_rule (assignable : TypeId -> TypeId -> K St bool) (from to : TypeKind) : K St bool :=
  match from, to with
  | TK.Function f, TK.Function g =>
      if negb (length (params f) =? length (params g))%nat then mret false
      else
        params_ok ← allM (fun p => assignable (param_ty p.2) (param_ty p.1)) (zip (params f) (params g));
        if params_ok : bool then assignable (returns f) (returns g) else mret false
  | _, _ => mret false
  end.

Fixpoint assignable_loop (fuel : nat) (from to : TypeId) : K St bool :=
  match fuel with
  | O => panic
  | S fuel =>
      if (from =? to)%nat then mret true
      else
        from_kind ← get from;
        to_kind ← get to;
        if is_dynamic from_kind || is_dynamic to_kind then mret true
        else if is_never from_kind then mret true
        else if same_platform_name from_kind to_kind then mret true
        else if is_soft from_kind || is_soft to_kind then mret true
        else if is_collection from_kind || is_collection to_kind then
          from ← as_platform_metadata_collection from;
          to ← as_platform_metadata_collection to;
          assignable_loop fuel from to
        else
          match union_parts from_kind, union_parts to_kind with
          | Some parts, _ => allM (fun p => assignable_loop fuel p to) parts
          | None, Some parts => anyM (fun p => assignable_loop fuel from p) parts
          | None, None =>
              if flat_rules from_kind to_kind then mret true
              else
                b ← is_array_bridge (assignable_loop fuel) from_kind to_kind;
                if b : bool then mret true
                else
                  b ← this_bridge (assignable_loop fuel) from to from_kind;
                  if b : bool then mret true
                  else function_rule (assignable_loop fuel) from_kind to_kind
          end
  end.

Definition is_assignable (from to : TypeId) : K St bool := assignable_loop (from + to + 3) from to.

(** ** Arguments *)

Fixpoint bare_table_loop (fuel : nat) (to : TypeId) : K St bool :=
  match fuel with
  | O => panic
  | S fuel =>
      kind ← get to;
      match kind with
      | TK.ValueTable f => mret (match table_projection f with None => true | Some _ => false end)
      | TK.Union parts => anyM (bare_table_loop fuel) parts
      | _ => mret false
      end
  end.

Definition to_admits_bare_value_table (to : TypeId) : K St bool := bare_table_loop (S to) to.

Fixpoint form_item_loop (fuel : nat) (to : TypeId) : K St bool :=
  match fuel with
  | O => panic
  | S fuel =>
      kind ← get to;
      match kind with
      | TK.Union parts => anyM (form_item_loop fuel) parts
      | kind => mret (is_form_item_kind kind || is_unknown_kind_form_item kind)
      end
  end.

Definition slot_admits_form_item (to : TypeId) : K St bool := form_item_loop (S to) to.

(** The loop over the members of a union: whether there is a regular member, whether one fits,
    whether those that do not are all binary data, and whether all are form items; [None] is the
    early return of a flag that does not fit. *)
Record Tally : Set := MkTally {
  has_regular : bool;
  some_regular_fits : bool;
  nonfitting_regular_all_binary : bool;
  regular_all_form_items : bool;
}.

Fixpoint tally_parts (coercible : TypeId -> K St bool) (to : TypeId) (parts : list TypeId) (t : Tally)
    : K St (option Tally) :=
  match parts with
  | [] => mret (Some t)
  | part :: parts =>
      part_kind ← get part;
      if is_flag part_kind then
        b ← is_assignable part to;
        if b : bool then tally_parts coercible to parts t else mret None
      else
        let items := regular_all_form_items t && is_form_item_kind part_kind in
        b ← coercible part;
        if b : bool then
          tally_parts coercible to parts (MkTally true true (nonfitting_regular_all_binary t) items)
        else if negb (is_binary_data part_kind) then
          tally_parts coercible to parts (MkTally true (some_regular_fits t) false items)
        else
          tally_parts coercible to parts
            (MkTally true (some_regular_fits t) (nonfitting_regular_all_binary t) items)
  end.

Definition tally_accepts (t : Tally) : bool :=
  negb (has_regular t) ||
  (some_regular_fits t && (nonfitting_regular_all_binary t || regular_all_form_items t)).

Definition is_string (kind : TypeKind) : bool := match kind with TK.String _ => true | _ => false end.

Definition this_to_any_ref (from to : TypeKind) : bool :=
  match from with TK.ThisObject _ _ => match to with TK.AnyRef => true | _ => false end | _ => false end.

Definition is_tabular_section (kind : TypeKind) : bool :=
  match kind with
  | TK.MetadataRef f => match meta_kind f with MK.TabularSection _ => true | _ => false end
  | _ => false
  end.

Fixpoint coercible_loop (fuel : nat) (from to : TypeId) : K St bool :=
  match fuel with
  | O => panic
  | S fuel =>
      to_kind ← get to;
      if is_string to_kind then mret true
      else
        from_kind ← get from;
        if this_to_any_ref from_kind to_kind then mret true
        else
          b ← if is_tabular_section from_kind then to_admits_bare_value_table to else mret false;
          if b : bool then mret true
          else
            b ← if is_unknown_kind_form_item from_kind then slot_admits_form_item to else mret false;
            if b : bool then mret true
            else
              match union_parts from_kind with
              | Some parts =>
                  t ← tally_parts (fun part => coercible_loop fuel part to) to parts (MkTally false false true true);
                  mret (match t with Some t => tally_accepts t | None => false end)
              | None => is_assignable from to
              end
  end.

Definition is_coercible_to (from to : TypeId) : K St bool := coercible_loop (S from) from to.

Definition is_coercible_documented_union (from to : TypeId) : K St bool :=
  kind ← get from;
  match kind with
  | TK.Union parts => anyM (fun part => is_coercible_to part to) parts
  | _ => mret false
  end.
End code.
