(* ===== verification/SubtypeSpec.v ===== *)
(** SubtypeSpec: the relation that the subtype test decides.

    [assignable] is one rule per reason a value fits, with no order among them; [kof] is the type of
    an index.  The test tries the reasons in an order, commits to unions, and interns types on the
    way: [assignable_loop_spec] shows that it always ends and answers as the relation, whatever the
    kernel is.  Its order loses nothing, since a union fits exactly when its members do. *)
From stdpp Require Import prelude strings.
From S2P Require Import Prelude Case Names Metadata Types Corpus Interning InterningSpec KernelSpec Builders PlatformNames Subtype.

Section relation.
Context `{CharCase} `{StrLower} `{PlatformTypes}.

(** The platform's type of a collection of metadata objects. *)
Definition collection_kind : TypeKind :=
  TK.PlatformObject (MkPlatformObject (canonical_platform_name (chars "КоллекцияОбъектовМетаданных"))).

(** The metadata type of a module's own object or manager. *)
Definition this_kind (kind : TypeKind) : option TypeKind :=
  match kind with
  | TK.ThisObject config_id owner =>
      kind ← object_kind_for (mdo_type owner); Some (TK.MetadataRef (MkMetaRef kind (mdo_name owner) config_id))
  | TK.ThisManager config_id owner =>
      _ ← manager_type_prefix (mdo_type owner);
      Some (TK.ObjectManager (MkManager (mdo_type owner) (mdo_name owner) config_id))
  | _ => None
  end.

Inductive assignable (kof : TypeId -> TypeKind) : TypeKind -> TypeKind -> Prop :=
  | a_same k : assignable kof k k
  | a_from_dynamic k1 k2 : is_dynamic k1 = true -> assignable kof k1 k2
  | a_to_dynamic k1 k2 : is_dynamic k2 = true -> assignable kof k1 k2
  | a_never k : assignable kof TK.Never k
  | a_name k1 k2 : same_platform_name k1 k2 = true -> assignable kof k1 k2
  | a_from_soft k1 k2 : is_soft k1 = true -> assignable kof k1 k2
  | a_to_soft k1 k2 : is_soft k2 = true -> assignable kof k1 k2
  | a_from_collection mdo k : assignable kof collection_kind k -> assignable kof (TK.MetadataObjectCollection mdo) k
  | a_to_collection mdo k : assignable kof k collection_kind -> assignable kof k (TK.MetadataObjectCollection mdo)
  | a_from_union ps k : (forall p, p ∈ ps -> assignable kof (kof p) k) -> assignable kof (TK.Union ps) k
  | a_to_union ps p k : p ∈ ps -> assignable kof k (kof p) -> assignable kof k (TK.Union ps)
  | a_flat k1 k2 : flat_rules k1 k2 = true -> assignable kof k1 k2
  | a_array_open a : assignable kof (TK.Array (MkArray (Some a))) (TK.Array (MkArray None))
  | a_open_array b : assignable kof (TK.Array (MkArray None)) (TK.Array (MkArray (Some b)))
  | a_array a b :
      assignable kof (kof a) (kof b) -> assignable kof (TK.Array (MkArray (Some a))) (TK.Array (MkArray (Some b)))
  | a_this k1 k k2 : this_kind k1 = Some k -> assignable kof k k2 -> assignable kof k1 k2
  | a_function f g :
      length (params f) = length (params g) ->
      (forall p, p ∈ zip (params f) (params g) -> assignable kof (kof (param_ty p.2)) (kof (param_ty p.1))) ->
      assignable kof (kof (returns f)) (kof (returns g)) ->
      assignable kof (TK.Function f) (TK.Function g).

(** ** What the flat rules do not speak of *)

Definition is_compound (kind : TypeKind) : bool :=
  match kind with TK.Union _ | TK.MetadataObjectCollection _ => true | _ => false end.

Lemma flat_rules_compound k1 k2 : flat_rules k1 k2 = true -> is_compound k1 = false /\ is_compound k2 = false.
Proof.
  assert (forall k, is_compound k = true -> is_row_metadata_ref k = false /\ is_row_platform_object k = false) as Hrow.
  { by intros []. }
  assert (flat_rules k1 k2 = true -> is_compound k1 = true -> False) as Hfrom.
  { intros E Hc. unfold flat_rules in E. unfold is_tabular_row_bridge in E. destruct (Hrow _ Hc) as [Hm Ho]. rewrite Hm, Ho in E.
    destruct k1; try discriminate Hc; destruct k2; discriminate E. }
  assert (flat_rules k1 k2 = true -> is_compound k2 = true -> False) as Hto.
  { intros E Hc. unfold flat_rules in E. unfold is_tabular_row_bridge in E. destruct (Hrow _ Hc) as [Hm Ho]. rewrite Hm, Ho in E.
    rewrite !andb_false_r in E. destruct k2; try discriminate Hc; destruct k1; discriminate E. }
  intros E. split; apply not_true_is_false; auto.
Qed.

Lemma this_kind_plain k k' : this_kind k = Some k' -> is_compound k = false /\ is_compound k' = false /\
  is_dynamic k' = false /\ is_never k' = false /\ is_soft k' = false.
Proof. destruct k; try done; simpl; intros ?; by simplify_option_eq. Qed.

(** ** Inversion *)

(** A union fits when all its members do, for whatever reason it fits. *)
Lemma assignable_from_union kof ps k p : assignable kof (TK.Union ps) k -> p ∈ ps -> assignable kof (kof p) k.
Proof.
  intros Ha Hp. remember (TK.Union ps) as u eqn:Eu. induction Ha; subst; try done.
  - by apply (a_to_union _ _ p); [|apply a_same].
  - by apply a_to_dynamic.
  - by apply a_to_soft.
  - apply a_to_collection. by apply IHHa.
  - injection Eu as ->. auto.
  - eapply a_to_union; [done|]. by apply IHHa.
  - by apply flat_rules_compound in H2 as [? _].
Qed.

(** Collections count as the platform's type. *)
Definition as_collection (kind : TypeKind) : TypeKind :=
  match kind with TK.MetadataObjectCollection _ => collection_kind | _ => kind end.

Lemma as_collection_id k : is_collection k = false -> as_collection k = k.
Proof. by destruct k. Qed.

Lemma assignable_of_collection kof k1 k2 :
  assignable kof (as_collection k1) (as_collection k2) -> assignable kof k1 k2.
Proof.
  intros Ha. assert (assignable kof k1 (as_collection k2)) as Hb.
  { destruct k1; try exact Ha. by apply a_from_collection. }
  destruct k2; try exact Hb. by apply a_to_collection.
Qed.

Lemma assignable_as_collection kof k1 k2 :
  assignable kof k1 k2 -> assignable kof (as_collection k1) (as_collection k2).
Proof.
  induction 1 as [k|k1 k2 Hd|k1 k2 Hd|k|k1 k2 Hn|k1 k2 Hs|k1 k2 Hs|mdo k Ha IH|mdo k Ha IH|ps k Ha IH|ps p k Hp Ha IH
    |k1 k2 Hf|a|b|a b Ha IH|k1 k k2 Ht Ha IH|f g Hl Hp IHp Hr IHr].
  - apply a_same.
  - apply a_from_dynamic. by destruct k1.
  - apply a_to_dynamic. by destruct k2.
  - apply a_never.
  - apply a_name. by destruct k1, k2.
  - apply a_from_soft. by destruct k1.
  - apply a_to_soft. by destruct k2.
  - exact IH.
  - exact IH.
  - apply a_from_union. intros p Hp. specialize (IH p Hp). destruct (kof p); try exact IH. by apply a_from_collection.
  - apply (a_to_union _ _ p); [done|]. destruct (kof p); try exact IH. by apply a_to_collection.
  - destruct (flat_rules_compound _ _ Hf). rewrite (as_collection_id k1), (as_collection_id k2) by ((by destruct k1) || (by destruct k2)).
    by apply a_flat.
  - apply a_array_open.
  - apply a_open_array.
  - by apply a_array.
  - destruct (this_kind_plain _ _ Ht) as (Hc1 & Hc2 & _). rewrite as_collection_id in IH by by destruct k.
    rewrite (as_collection_id k1) by by destruct k1. by apply (a_this _ _ k).
  - by apply a_function.
Qed.

(** The types that are decided before the expected type is taken apart. *)
Definition is_early (kind : TypeKind) : bool :=
  is_dynamic kind || is_never kind || is_soft kind || is_compound kind.

Lemma assignable_to_union kof ps k :
  is_early k = false -> assignable kof k (TK.Union ps) -> exists p, p ∈ ps /\ assignable kof k (kof p).
Proof.
  intros He Ha. remember (TK.Union ps) as u eqn:Eu. revert He Eu.
  induction Ha as [k|k1 k2 Hd|k1 k2 Hd|k|k1 k2 Hn|k1 k2 Hs|k1 k2 Hs|mdo k Ha IH|mdo k Ha IH|qs k Ha IH|qs p k Hp Ha IH
    |k1 k2 Hf|a|b|a b Ha IH|k1 k k2 Ht Ha IH|f g Hl Hp IHp Hr IHr]; intros He Eu; try discriminate Eu; try discriminate He.
  - by rewrite Eu in He.
  - unfold is_early in He. by rewrite Hd in He.
  - by rewrite Eu in Hd.
  - rewrite Eu in Hn. by destruct k1.
  - unfold is_early in He. by rewrite Hs, !orb_true_r in He.
  - by rewrite Eu in Hs.
  - injection Eu as ->. by exists p.
  - rewrite Eu in Hf. by destruct (flat_rules_compound _ _ Hf).
  - destruct IH as (p & Hp & Hpa); [|done|].
    + unfold is_early. by destruct (this_kind_plain _ _ Ht) as (_ & -> & -> & -> & ->).
    + exists p. split; [done|]. by apply (a_this _ _ k).
Qed.

(** Once neither type is early, a reason is the name, a flat rule, arrays, the own object or
    functions. *)
Lemma assignable_rest kof k1 k2 :
  k1 <> k2 -> is_early k1 = false -> is_dynamic k2 = false -> is_soft k2 = false -> is_compound k2 = false ->
  same_platform_name k1 k2 = false ->
  assignable kof k1 k2 <->
    flat_rules k1 k2 = true \/
    match k1, k2 with
    | TK.Array a, TK.Array b =>
        match element a, element b with
        | Some x, Some y => assignable kof (kof x) (kof y)
        | None, None => False
        | _, _ => True
        end
    | _, _ => False
    end \/
    (exists k, this_kind k1 = Some k /\ assignable kof k k2) \/
    match k1, k2 with
    | TK.Function f, TK.Function g =>
        length (params f) = length (params g) /\
        (forall p, p ∈ zip (params f) (params g) -> assignable kof (kof (param_ty p.2)) (kof (param_ty p.1))) /\
        assignable kof (kof (returns f)) (kof (returns g))
    | _, _ => False
    end.
Proof.
  intros Hne He Hd Hs Hc Hn. unfold is_early in He. rewrite !orb_false_iff in He. destruct He as [[[He1 He2] He3] He4].
  split.
  - intros Ha. inversion Ha; subst; try congruence; try done; simpl; eauto 7.
  - intros [Hf|[Ha|[(k & Ht & Ha)|Hf]]].
    + by apply a_flat.
    + destruct k1; try done; destruct k2; try done. destruct f as [[x|]], f0 as [[y|]]; simpl in Ha; try done;
        [by apply a_array|apply a_array_open|apply a_open_array].
    + by apply (a_this _ _ k).
    + destruct k1; try done; destruct k2; try done. destruct Hf as (? & ? & ?). by apply a_function.
Qed.
End relation.

(** ** The test *)

Section test.
Context {St : Type} `{TypeLookup St, TypeIntern St} `{DebugText} `{CharCase} `{StrLower} `{PlatformTypes}.
Context `{!TypeKernelLaws St}.
Implicit Types s : St.

Lemma ok_closed s : kernel_ok s -> closed s.
Proof.
  intros Hs id kind Hl. eapply Forall_impl; [by eapply kernel_below|]. by intros j [_ ?].
Qed.

(** *** How deep a type is *)

Definition rank (kind : TypeKind) : nat :=
  match kind_ids kind with
  | [] =>
      match kind with
      | TK.MetadataObjectCollection _ | TK.ThisObject _ _ | TK.ThisManager _ _ => 1
      | _ => 0
      end
  | ids => S (S (max_list ids))
  end.

Lemma rank_member kind p : p ∈ kind_ids kind -> (p + 2 <= rank kind)%nat.
Proof.
  intros Hp. unfold rank. destruct (kind_ids kind) as [|i ids]; [by apply not_elem_of_nil in Hp|].
  apply max_list_elem_of_le in Hp. lia.
Qed.

Lemma rank_index s id kind : kernel_ok s -> lookup_type id s = Some kind -> (rank kind <= id + 1)%nat.
Proof.
  intros Hs Hl. pose proof (kernel_below _ _ _ Hs Hl) as Hb. unfold rank.
  destruct (kind_ids kind) as [|i ids] eqn:Ei; [by destruct kind; lia|].
  assert (max_list (i :: ids) < id)%nat; [|lia].
  assert (max_list (i :: ids) ∈ i :: ids) as Hm.
  { clear. revert i. induction ids as [|j ids IH]; intros i; [simpl; rewrite Nat.max_0_r; by left|].
    change (max_list (i :: j :: ids)) with (i `max` max_list (j :: ids))%nat. destruct (Nat.max_spec i (max_list (j :: ids))) as [[_ ->]|[_ ->]]; [right; apply IH|by left]. }
  by apply (proj1 (Forall_forall _ _) Hb) in Hm as [? _].
Qed.

(** *** Computations that decide a question

    [s0] is the kernel the question is about; the computation may run in any kernel that grew from
    it. *)
Definition decides (s0 : St) (m : K St bool) (Q : Prop) : Prop :=
  forall s, kernel_ok s -> extends s0 s ->
  exists b s', m s = Some (b, s') /\ kernel_ok s' /\ extends s s' /\ (b = true <-> Q).

Lemma decides_ret s0 b (Q : Prop) : (b = true <-> Q) -> decides s0 (mret b) Q.
Proof. intros Hb s Hs He. by exists b, s. Qed.

Lemma decides_iff s0 m (P Q : Prop) : (P <-> Q) -> decides s0 m P -> decides s0 m Q.
Proof.
  intros HPQ Hm s Hs He. destruct (Hm s Hs He) as (b & s' & E & Hs' & He' & Hb).
  exists b, s'. by rewrite <- HPQ.
Qed.

Lemma decides_or s0 m1 m2 (P Q : Prop) :
  decides s0 m1 P -> decides s0 m2 Q ->
  decides s0 (b ← m1; if b : bool then mret true else m2) (P \/ Q).
Proof.
  intros Hm1 Hm2 s Hs He. destruct (Hm1 s Hs He) as ([|] & s1 & E1 & Hs1 & He1 & Hb1).
  - exists true, s1. unfold mbind, K_bind. rewrite E1. simpl. split_and!; try done. split; [|done].
    intros _. left. by apply Hb1.
  - destruct (Hm2 s1 Hs1) as (b & s2 & E2 & Hs2 & He2 & Hb2); [by transitivity s|].
    exists b, s2. unfold mbind, K_bind. rewrite E1. simpl. split_and!; try done; [by transitivity s1|].
    rewrite Hb2, <- Hb1. intuition congruence.
Qed.

Lemma decides_and s0 m1 m2 (P Q : Prop) :
  decides s0 m1 P -> decides s0 m2 Q ->
  decides s0 (b ← m1; if b : bool then m2 else mret false) (P /\ Q).
Proof.
  intros Hm1 Hm2 s Hs He. destruct (Hm1 s Hs He) as ([|] & s1 & E1 & Hs1 & He1 & Hb1).
  - destruct (Hm2 s1 Hs1) as (b & s2 & E2 & Hs2 & He2 & Hb2); [by transitivity s|].
    exists b, s2. unfold mbind, K_bind. rewrite E1. simpl. split_and!; try done; [by transitivity s1|].
    rewrite Hb2, <- Hb1. intuition congruence.
  - exists false, s1. unfold mbind, K_bind. rewrite E1. simpl. split_and!; try done. rewrite <- Hb1. intuition congruence.
Qed.

Lemma decides_any {A} s0 (f : A -> K St bool) (Q : A -> Prop) l :
  (forall x, x ∈ l -> decides s0 (f x) (Q x)) -> decides s0 (anyM f l) (exists x, x ∈ l /\ Q x).
Proof.
  induction l as [|x l IH]; intros Hl; simpl.
  - apply decides_ret. split; [done|]. by intros (x & Hx%not_elem_of_nil & _).
  - eapply decides_iff; [|apply decides_or; [apply Hl; by left|apply IH; intros y Hy; apply Hl; by right]].
    split; [intros [Hx|(y & Hy & Hq)]; [exists x|exists y]; split; [by left|done|by right|done]|].
    intros (y & [->|Hy]%elem_of_cons & Hq); [by left|right; eauto].
Qed.

Lemma decides_all {A} s0 (f : A -> K St bool) (Q : A -> Prop) l :
  (forall x, x ∈ l -> decides s0 (f x) (Q x)) -> decides s0 (allM f l) (forall x, x ∈ l -> Q x).
Proof.
  induction l as [|x l IH]; intros Hl; simpl.
  - apply decides_ret. split; [|done]. by intros _ x Hx%not_elem_of_nil.
  - eapply decides_iff; [|apply decides_and; [apply Hl; by left|apply IH; intros y Hy; apply Hl; by right]].
    split; [intros [Hx Hq] y [->|Hy]%elem_of_cons; auto|].
    intros Hq. split; [apply Hq; by left|intros y Hy; apply Hq; by right].
Qed.

Lemma decides_get s0 id kind f (Q : Prop) :
  lookup_type id s0 = Some kind -> decides s0 (f kind) Q -> decides s0 (kind ← get id; f kind) Q.
Proof.
  intros Hl Hf s Hs He. unfold mbind, K_bind, get. rewrite (He _ _ Hl). simpl. by apply Hf.
Qed.

(** [decides], for a test of two types that may be newer than [s0]. *)
Definition decides_types (s0 : St) (test : TypeId -> TypeId -> K St bool) (k1 k2 : TypeKind) (Q : Prop) : Prop :=
  forall s from to, kernel_ok s -> extends s0 s -> lookup_type from s = Some k1 -> lookup_type to s = Some k2 ->
  exists b s', test from to s = Some (b, s') /\ kernel_ok s' /\ extends s s' /\ (b = true <-> Q).

(** Interning a type without types inside that is its own canonical form. *)
Lemma intern_leaf s kind c :
  kernel_ok s -> fits s kind -> canonicalise kind s = Some (c, s) ->
  exists id s', intern_type kind s = Some (id, s') /\ kernel_ok s' /\ extends s s' /\ lookup_type id s' = Some c.
Proof.
  intros Hs Hf Ec. destruct (kernel_interns s kind Hs Hf) as (id & c' & s' & Ec' & Ei & Hl & He & Hs').
  rewrite Ec in Ec'. injection Ec' as <-. by exists id, s'.
Qed.

(** *** The steps that intern *)

Lemma as_collection_spec s id kind :
  kernel_ok s -> lookup_type id s = Some kind ->
  exists id' s', as_platform_metadata_collection id s = Some (id', s') /\ kernel_ok s' /\ extends s s' /\
    lookup_type id' s' = Some (as_collection kind).
Proof.
  intros Hs Hl. unfold as_platform_metadata_collection, mbind, K_bind, get. rewrite Hl. simpl.
  destruct kind; try (by eexists id, s).
  apply intern_leaf; [done| |reflexivity]. split; [constructor|]. apply (bool_decide_unpack _). by vm_compute.
Qed.

Lemma coerce_this_spec s id kind :
  kernel_ok s -> lookup_type id s = Some kind ->
  exists r s', coerce_to_metadata_ref_id id s = Some (r, s') /\ kernel_ok s' /\ extends s s' /\
    match this_kind kind with
    | Some k => exists id', r = Some id' /\ lookup_type id' s' = Some k
    | None => r = None
    end.
Proof.
  intros Hs Hl. unfold coerce_to_metadata_ref_id, mbind, K_bind, get. rewrite Hl. simpl.
  destruct kind; try (by eexists None, s); simpl.
  - destruct (object_kind_for (mdo_type owner)) as [kind|]; [|by eexists None, s].
    destruct (intern_leaf s (TK.MetadataRef (MkMetaRef kind (mdo_name owner) config_id)) _ Hs ltac:(by repeat constructor) eq_refl)
      as (id' & s' & E & Hs' & He & Hl').
    eexists (Some id'), s'. unfold metadata_ref. simpl. rewrite E. simpl. split_and!; try done. by exists id'.
  - destruct (manager_type_prefix (mdo_type owner)) as [p|]; [|by eexists None, s].
    destruct (intern_leaf s (TK.ObjectManager (MkManager (mdo_type owner) (mdo_name owner) config_id)) _ Hs ltac:(by repeat constructor) eq_refl)
      as (id' & s' & E & Hs' & He & Hl').
    eexists (Some id'), s'. unfold object_manager. simpl. rewrite E. simpl. split_and!; try done. by exists id'.
Qed.

(** *** The loop *)

Lemma decides_true s0 (Q : Prop) : Q -> decides s0 (mret true) Q.
Proof. intros HQ. by apply decides_ret. Qed.

(** What the test of smaller types decides at the indices of a kernel. *)
Lemma decides_at s0 test k1 k2 Q s from to :
  decides_types s0 test k1 k2 Q -> extends s0 s -> lookup_type from s = Some k1 -> lookup_type to s = Some k2 ->
  decides s (test from to) Q.
Proof.
  intros Ht He Hl1 Hl2 s' Hs' He'. apply Ht; [done|by transitivity s|by apply He'..].
Qed.

Definition loop_decides (s0 : St) (fuel : nat) : Prop :=
  forall k1 k2, Forall (in_table s0) (kind_ids k1) -> Forall (in_table s0) (kind_ids k2) ->
  (rank k1 + rank k2 < fuel)%nat ->
  decides_types s0 (assignable_loop fuel) k1 k2 (assignable (kind_of s0) k1 k2).

(** The members of two types, in any kernel that grew. *)
Lemma loop_members s0 fuel k1 k2 s p q :
  kernel_ok s0 -> loop_decides s0 fuel -> extends s0 s ->
  Forall (in_table s0) (kind_ids k1) -> Forall (in_table s0) (kind_ids k2) -> (rank k1 + rank k2 < S fuel)%nat ->
  p ∈ kind_ids k1 /\ q ∈ kind_ids k2 \/ p ∈ kind_ids k2 /\ q ∈ kind_ids k1 ->
  decides s (assignable_loop fuel p q) (assignable (kind_of s0) (kind_of s0 p) (kind_of s0 q)).
Proof.
  intros Hs0 IH He Hf1 Hf2 Hr Hpq.
  assert (in_table s0 p /\ in_table s0 q /\ (p + 2 + (q + 2) <= rank k1 + rank k2)%nat) as (Hp & Hq & Hle).
  { destruct Hpq as [[Hp Hq]|[Hp Hq]]; pose proof (rank_member _ _ Hp); pose proof (rank_member _ _ Hq);
      rewrite Forall_forall in Hf1, Hf2; (split_and!; [auto|auto|lia]). }
  pose proof (lookup_kind_of _ _ Hp) as Lp. pose proof (lookup_kind_of _ _ Hq) as Lq.
  pose proof (rank_index _ _ _ Hs0 Lp). pose proof (rank_index _ _ _ Hs0 Lq).
  apply (decides_at s0 _ (kind_of s0 p) (kind_of s0 q)); [|done|by apply He..].
  apply IH; [by apply (ok_closed s0 Hs0 p)|by apply (ok_closed s0 Hs0 q)|lia].
Qed.

(** A member of one type against the other type, which may be new. *)
Lemma loop_member_from s0 fuel k1 k2 s p to :
  kernel_ok s0 -> loop_decides s0 fuel -> extends s0 s -> lookup_type to s = Some k2 ->
  Forall (in_table s0) (kind_ids k1) -> Forall (in_table s0) (kind_ids k2) -> (rank k1 + rank k2 < S fuel)%nat ->
  p ∈ kind_ids k1 ->
  decides s (assignable_loop fuel p to) (assignable (kind_of s0) (kind_of s0 p) k2).
Proof.
  intros Hs0 IH He Hl Hf1 Hf2 Hr Hp. pose proof (rank_member _ _ Hp).
  assert (in_table s0 p) as Hpt by by apply (proj1 (Forall_forall _ _) Hf1).
  pose proof (lookup_kind_of _ _ Hpt) as Lp. pose proof (rank_index _ _ _ Hs0 Lp).
  apply (decides_at s0 _ (kind_of s0 p) k2); [|done|by apply He|done].
  apply IH; [by apply (ok_closed s0 Hs0 p)|done|lia].
Qed.

Lemma loop_member_to s0 fuel k1 k2 s from p :
  kernel_ok s0 -> loop_decides s0 fuel -> extends s0 s -> lookup_type from s = Some k1 ->
  Forall (in_table s0) (kind_ids k1) -> Forall (in_table s0) (kind_ids k2) -> (rank k1 + rank k2 < S fuel)%nat ->
  p ∈ kind_ids k2 ->
  decides s (assignable_loop fuel from p) (assignable (kind_of s0) k1 (kind_of s0 p)).
Proof.
  intros Hs0 IH He Hl Hf1 Hf2 Hr Hp. pose proof (rank_member _ _ Hp).
  assert (in_table s0 p) as Hpt by by apply (proj1 (Forall_forall _ _) Hf2).
  pose proof (lookup_kind_of _ _ Hpt) as Lp. pose proof (rank_index _ _ _ Hs0 Lp).
  apply (decides_at s0 _ k1 (kind_of s0 p)); [|done|done|by apply He].
  apply IH; [done|by apply (ok_closed s0 Hs0 p)|lia].
Qed.

Lemma rank_as_collection k : (rank (as_collection k) + (if is_collection k then 1 else 0) <= rank k)%nat.
Proof.
  destruct (is_collection k) eqn:E; [|rewrite as_collection_id by done; lia]. by destruct k.
Qed.

Lemma as_collection_ids s k : Forall (in_table s) (kind_ids k) -> Forall (in_table s) (kind_ids (as_collection k)).
Proof. by destruct k. Qed.

Lemma decides_bind_get s (ty : TypeId) kind (f : TypeId -> K St bool) (Q : Prop) :
  lookup_type ty s = Some kind ->
  (forall s' ty', kernel_ok s' -> extends s s' -> lookup_type ty' s' = Some (as_collection kind) ->
    decides s' (f ty') Q) ->
  decides s (ty' ← as_platform_metadata_collection ty; f ty') Q.
Proof.
  intros Hl Hf s1 Hs1 He1. destruct (as_collection_spec s1 ty kind Hs1 (He1 _ _ Hl)) as (ty' & s2 & E & Hs2 & He2 & Hl2).
  unfold mbind, K_bind. rewrite E. simpl. destruct (Hf s2 ty' Hs2 ltac:(by transitivity s1) Hl2 s2 Hs2 ltac:(done))
    as (b & s3 & E3 & Hs3 & He3 & Hb). exists b, s3. split_and!; try done. by transitivity s2.
Qed.

(** Every branch of the loop decides its part of the relation. *)
Section branches.
Variable s0 : St.
Variable fuel : nat.
Variables k1 k2 : TypeKind.
Hypothesis Hs0 : kernel_ok s0.
Hypothesis IH : loop_decides s0 fuel.
Hypothesis Hf1 : Forall (in_table s0) (kind_ids k1).
Hypothesis Hf2 : Forall (in_table s0) (kind_ids k2).
Hypothesis Hr : (rank k1 + rank k2 < S fuel)%nat.
Variable s : St.
Variables from to : TypeId.
Hypothesis He : extends s0 s.
Hypothesis Lf : lookup_type from s = Some k1.
Hypothesis Lt : lookup_type to s = Some k2.
Abbreviation rel := (assignable (kind_of s0)).

Lemma collection_decides :
  is_collection k1 || is_collection k2 = true ->
  decides s (from ← as_platform_metadata_collection from;
             to ← as_platform_metadata_collection to;
             assignable_loop fuel from to) (rel k1 k2).
Proof.
  intros Hc. apply (decides_bind_get _ _ k1); [done|]. intros s1 from' Hs1 He1 L1.
  apply (decides_bind_get _ _ k2); [by apply He1|]. intros s2 to' Hs2 He2 L2.
  eapply decides_iff; [split; [apply assignable_of_collection|apply assignable_as_collection]|].
  apply (decides_at s0 _ (as_collection k1) (as_collection k2)); [|by do 2 etrans|by apply He2|done].
  apply IH; [by apply as_collection_ids..|].
  pose proof (rank_as_collection k1). pose proof (rank_as_collection k2).
  destruct (is_collection k1), (is_collection k2); simpl in *; lia || done.
Qed.

Lemma from_union_decides ps :
  k1 = TK.Union ps -> decides s (allM (fun p => assignable_loop fuel p to) ps) (rel k1 k2).
Proof.
  intros E. eapply decides_iff; [|apply (decides_all s _ (fun p => rel (kind_of s0 p) k2))].
  - rewrite E. split; [apply a_from_union|]. intros Ha p Hp. by apply (assignable_from_union _ ps).
  - intros p Hp. apply (loop_member_from s0 fuel k1); try done. by rewrite E.
Qed.

Lemma to_union_decides ps :
  k2 = TK.Union ps -> is_early k1 = false -> decides s (anyM (fun p => assignable_loop fuel from p) ps) (rel k1 k2).
Proof.
  intros E Hn. eapply decides_iff; [|apply (decides_any s _ (fun p => rel k1 (kind_of s0 p)))].
  - rewrite E. split; [intros (p & Hp & Ha); by apply (a_to_union _ _ p)|]. by apply assignable_to_union.
  - intros p Hp. apply (loop_member_to s0 fuel k1 k2); try done. by rewrite E.
Qed.

Lemma array_decides :
  decides s (is_array_bridge (assignable_loop fuel) k1 k2)
    match k1, k2 with
    | TK.Array a, TK.Array b =>
        match element a, element b with
        | Some x, Some y => rel (kind_of s0 x) (kind_of s0 y)
        | None, None => False
        | _, _ => True
        end
    | _, _ => False
    end.
Proof.
  unfold is_array_bridge. destruct k1; try (by apply decides_ret); destruct k2; try (by apply decides_ret).
  destruct f as [[x|]], f0 as [[y|]]; simpl; try (by apply decides_ret).
  apply (loop_members s0 fuel (TK.Array (MkArray (Some x))) (TK.Array (MkArray (Some y)))); try done.
  left. split; by left.
Qed.

Lemma function_decides :
  decides s (function_rule (assignable_loop fuel) k1 k2)
    match k1, k2 with
    | TK.Function f, TK.Function g =>
        length (params f) = length (params g) /\
        (forall p, p ∈ zip (params f) (params g) -> rel (kind_of s0 (param_ty p.2)) (kind_of s0 (param_ty p.1))) /\
        rel (kind_of s0 (returns f)) (kind_of s0 (returns g))
    | _, _ => False
    end.
Proof.
  unfold function_rule. destruct k1; try (by apply decides_ret); destruct k2; try (by apply decides_ret).
  destruct (Nat.eqb_spec (length (params f)) (length (params f0))) as [E|E]; simpl;
    [|apply decides_ret; split; [done|by intros []]].
  eapply decides_iff; [|apply decides_and].
  - split; [intros Hpr; split; [exact E|exact Hpr]|by intros []].
  - apply (decides_all s _ (fun p : _ * _ => rel (kind_of s0 (param_ty p.2)) (kind_of s0 (param_ty p.1)))).
    intros [p q] Hpq. apply (loop_members s0 fuel (TK.Function f) (TK.Function f0)); try done.
    right. simpl. split; apply elem_of_app; left; apply list_elem_of_fmap_2; [by eapply elem_of_zip_r|by eapply elem_of_zip_l].
  - apply (loop_members s0 fuel (TK.Function f) (TK.Function f0)); try done.
    left. simpl. split; apply elem_of_app; right; by left.
Qed.

Lemma this_decides :
  decides s (this_bridge (assignable_loop fuel) from to k1) (exists k, this_kind k1 = Some k /\ rel k k2).
Proof.
  assert (forall k, this_kind k1 = Some k -> rank k = 0 /\ kind_ids k = [] /\ rank k1 = 1)%nat as Hrank.
  { intros k Hk. destruct k1; try done; simpl in Hk; by simplify_option_eq. }
  assert (decides s (coerced ← coerce_to_metadata_ref_id from;
                     match coerced with Some coerced => assignable_loop fuel coerced to | None => mret false end)
            (exists k, this_kind k1 = Some k /\ rel k k2)) as Hd.
  { intros s1 Hs1 He1. destruct (coerce_this_spec s1 from k1 Hs1 (He1 _ _ Lf)) as (r & s2 & E & Hs2 & He2 & Hk).
    unfold mbind, K_bind. rewrite E. simpl. destruct (this_kind k1) as [k|].
    - destruct Hk as (id & -> & Lid). destruct (Hrank k eq_refl) as (Hr0 & Hi & Hr1).
      destruct (IH k k2 ltac:(by rewrite Hi) Hf2 ltac:(lia) s2 id to) as (b & s3 & E3 & Hs3 & He3 & Hb);
        [done|by do 2 etrans|done|by apply He2, He1|].
      exists b, s3. split_and!; try done; [by etrans|]. rewrite Hb. split; [eauto|]. by intros (? & [= <-] & ?).
    - rewrite Hk. exists false, s2. split_and!; try done. split; [done|]. by intros (? & ? & _). }
  unfold this_bridge. destruct k1; try exact Hd; (apply decides_ret; split; [done|by intros (? & ? & _)]).
Qed.
End branches.

Lemma loop_step s0 fuel : kernel_ok s0 -> loop_decides s0 fuel -> loop_decides s0 (S fuel).
Proof.
  intros Hs0 IH k1 k2 Hf1 Hf2 Hr s from to Hs He Lf Lt.
  apply (fun H : decides s (assignable_loop (S fuel) from to) (assignable (kind_of s0) k1 k2) => H s Hs ltac:(done)). simpl.
  destruct (Nat.eqb_spec from to) as [->|Hne].
  { apply decides_true. rewrite Lf in Lt. injection Lt as ->. apply a_same. }
  assert (k1 <> k2) as Hk by (intros ->; by apply Hne, (kernel_unique s Hs _ _ k2)).
  apply (decides_get _ _ k1); [done|]. apply (decides_get _ _ k2); [done|].
  destruct (is_dynamic k1 || is_dynamic k2) eqn:Ed.
  { apply decides_true. apply orb_true_iff in Ed as [?|?]; [by apply a_from_dynamic|by apply a_to_dynamic]. }
  destruct (is_never k1) eqn:En; [apply decides_true; destruct k1; try done; apply a_never|].
  destruct (same_platform_name k1 k2) eqn:Es; [by apply decides_true, a_name|].
  destruct (is_soft k1 || is_soft k2) eqn:Eso.
  { apply decides_true. apply orb_true_iff in Eso as [?|?]; [by apply a_from_soft|by apply a_to_soft]. }
  destruct (is_collection k1 || is_collection k2) eqn:Ec; [by apply collection_decides|].
  apply orb_false_iff in Ed as [Ed1 Ed2], Eso as [Eso1 Eso2], Ec as [Ec1 Ec2].
  destruct (union_parts k1) as [ps|] eqn:Eu1.
  { apply from_union_decides; try done. by destruct k1; try done; injection Eu1 as ->. }
  assert (forall k, is_collection k = false -> union_parts k = None -> is_compound k = false) as Hcomp by by intros [].
  assert (is_early k1 = false) as Hearly by (unfold is_early; by rewrite Ed1, En, Eso1, Hcomp).
  destruct (union_parts k2) as [ps|] eqn:Eu2.
  { apply to_union_decides; try done. by destruct k2; try done; injection Eu2 as ->. }
  eapply decides_iff; [symmetry; apply assignable_rest; auto|].
  destruct (flat_rules k1 k2); [by apply decides_true; left|].
  eapply decides_iff; [|apply decides_or; [by apply (array_decides s0 fuel) with from to|
    apply decides_or; [by apply this_decides|by apply (function_decides s0 fuel) with from to]]].
  split; [by right|by intros [?|?]].
Qed.

Lemma loop_decided s0 fuel : kernel_ok s0 -> loop_decides s0 fuel.
Proof. intros Hs0. induction fuel as [|fuel IH]; [intros k1 k2 _ _ Hr; lia|by apply loop_step]. Qed.

(** The test in any kernel that grew from the one the question is about. *)
Lemma assignability_decides s from to :
  kernel_ok s -> in_table s from -> in_table s to ->
  decides s (is_assignable from to) (assignable (kind_of s) (kind_of s from) (kind_of s to)).
Proof.
  intros Hs Hf Ht. pose proof (lookup_kind_of _ _ Hf) as Lf. pose proof (lookup_kind_of _ _ Ht) as Lt.
  pose proof (rank_index _ _ _ Hs Lf). pose proof (rank_index _ _ _ Hs Lt).
  apply (decides_at s (assignable_loop (from + to + 3)) (kind_of s from) (kind_of s to)); [|done..].
  apply (loop_decided s _ Hs); [by apply (ok_closed s Hs from)|by apply (ok_closed s Hs to)|lia].
Qed.

(** C17. [is_assignable] is the relation [assignable].  In every kernel that keeps its promises and
    for any two of its types the test ends, without a panic and within the fuel, and answers [true]
    exactly when some rule of the relation gives a reason, in whichever order the code tries them;
    what it interns on the way only adds to the kernel.  That each union is resolved by its members,
    the left one first, loses no answer. *)
Theorem assignability_decided s from to :
  kernel_ok s -> in_table s from -> in_table s to ->
  exists b s', is_assignable from to s = Some (b, s') /\ kernel_ok s' /\ extends s s' /\
    (b = true <-> assignable (kind_of s) (kind_of s from) (kind_of s to)).
Proof. intros Hs Hf Ht. by apply assignability_decides. Qed.
End test.

(** ** Examples *)

Section examples.
#[local] Instance example_case : CharCase := basic_lowercase.
#[local] Existing Instances basic_str_lower example_types example_debug.
#[local] Instance example_laws : TypeKernelLaws TypeKernelInner := kernel_laws example_corpus_ok.

(** Undefined, or a string, where a string or Undefined is expected, and the other way around. *)
Lemma assignability_decided_witness :
  (exists b k, is_assignable 7 8 example_kernel = Some (b, k) /\
    (b = true <-> assignable (kind_of example_kernel) (kind_of example_kernel 7) (kind_of example_kernel 8))) /\
  is_assignable 7 8 example_kernel = Some (true, example_kernel) /\
  is_assignable 8 7 example_kernel = Some (false, example_kernel).
Proof.
  split; [|split; vm_compute; reflexivity].
  destruct (assignability_decided (TypeKernelLaws0 := example_laws) example_kernel 7 8) as (b & k & E & _ & _ & Hb);
    [|apply lookup_lt_is_Some; vm_compute; lia..|by exists b, k].
  exact (reachable_wf example_kernel example_corpus_ok example_kernel_reachable).
Defined.
End examples.
