(* ===== verification/CoercionSpec.v ===== *)
(** CoercionSpec: the relation that the test of arguments decides.

    [coercible] widens [assignable]: everything may be passed for a string, an own object for any
    reference, a tabular section for a bare value table, a form item of unknown kind for a form item,
    and a union when one of its regular members may be passed and the others are excused.
    [coercion_decided] shows that [is_coercible_to] always ends and answers as this relation. *)
From stdpp Require Import prelude strings.
From S2P Require Import Prelude Case Names Metadata Types Corpus Interning InterningSpec KernelSpec Builders PlatformNames Subtype SubtypeSpec.

Section relation.
Context `{CharCase} `{StrLower} `{PlatformTypes}.

Inductive admits_bare_table (kof : TypeId -> TypeKind) : TypeKind -> Prop :=
  | bare_table f : table_projection f = None -> admits_bare_table kof (TK.ValueTable f)
  | bare_table_union ps p : p ∈ ps -> admits_bare_table kof (kof p) -> admits_bare_table kof (TK.Union ps).

Inductive admits_form_item (kof : TypeId -> TypeKind) : TypeKind -> Prop :=
  | form_item kind : is_form_item_kind kind || is_unknown_kind_form_item kind = true -> admits_form_item kof kind
  | form_item_union ps p : p ∈ ps -> admits_form_item kof (kof p) -> admits_form_item kof (TK.Union ps).

Definition regular (kof : TypeId -> TypeKind) (ps : list TypeId) (p : TypeId) : Prop :=
  p ∈ ps /\ is_flag (kof p) = false.

Inductive coercible (kof : TypeId -> TypeKind) : TypeKind -> TypeKind -> Prop :=
  | c_string k1 k2 : is_string k2 = true -> coercible kof k1 k2
  | c_any_ref k1 k2 : this_to_any_ref k1 k2 = true -> coercible kof k1 k2
  | c_table k1 k2 : is_tabular_section k1 = true -> admits_bare_table kof k2 -> coercible kof k1 k2
  | c_form_item k1 k2 : is_unknown_kind_form_item k1 = true -> admits_form_item kof k2 -> coercible kof k1 k2
  | c_assignable k1 k2 : union_parts k1 = None -> assignable kof k1 k2 -> coercible kof k1 k2
  (** Undefined and Null must fit as they are. *)
  | c_flags ps k2 :
      (forall p, p ∈ ps -> is_flag (kof p) = true /\ assignable kof (kof p) k2) -> coercible kof (TK.Union ps) k2
  (** One member may be passed, and those that may not are binary data. *)
  | c_regular ps q k2 :
      (forall p, p ∈ ps -> is_flag (kof p) = true -> assignable kof (kof p) k2) ->
      regular kof ps q -> coercible kof (kof q) k2 ->
      (forall p, regular kof ps p -> is_binary_data (kof p) = false -> coercible kof (kof p) k2) ->
      coercible kof (TK.Union ps) k2
  (** One member may be passed, and all of them are form items. *)
  | c_form_items ps q k2 :
      (forall p, p ∈ ps -> is_flag (kof p) = true -> assignable kof (kof p) k2) ->
      regular kof ps q -> coercible kof (kof q) k2 ->
      (forall p, regular kof ps p -> is_form_item_kind (kof p) = true) ->
      coercible kof (TK.Union ps) k2.

(** What the reasons before the members of a union say. *)
Definition direct (kof : TypeId -> TypeKind) (k1 k2 : TypeKind) : Prop :=
  is_string k2 = true \/ this_to_any_ref k1 k2 = true \/
  (is_tabular_section k1 = true /\ admits_bare_table kof k2) \/
  (is_unknown_kind_form_item k1 = true /\ admits_form_item kof k2).

Definition by_members (kof : TypeId -> TypeKind) (ps : list TypeId) (k2 : TypeKind) : Prop :=
  (forall p, p ∈ ps -> is_flag (kof p) = true -> assignable kof (kof p) k2) /\
  ((forall p, ~ regular kof ps p) \/
   (exists p, regular kof ps p /\ coercible kof (kof p) k2) /\
   ((forall p, regular kof ps p -> is_binary_data (kof p) = false -> coercible kof (kof p) k2) \/
    (forall p, regular kof ps p -> is_form_item_kind (kof p) = true))).

Lemma coercible_cases kof k1 k2 :
  coercible kof k1 k2 <->
    direct kof k1 k2 \/ match union_parts k1 with Some ps => by_members kof ps k2 | None => assignable kof k1 k2 end.
Proof.
  unfold direct, by_members. split.
  - destruct 1 as [k1 k2 Hs|k1 k2 Hr|k1 k2 Ht Ha|k1 k2 Hi Ha|k1 k2 Hu Ha|ps k2 Hp|ps q k2 Hf Hq Hc Ho|ps q k2 Hf Hq Hc Ho]; auto 8.
    + right. by rewrite Hu.
    + right. simpl. split; [intros p Hpp _; by apply Hp|]. left. intros p [Hpp Hn]. destruct (Hp p Hpp). congruence.
    + right. simpl. split; [exact Hf|]. right. split; [by exists q|by left].
    + right. simpl. split; [exact Hf|]. right. split; [by exists q|by right].
  - intros [[Hs|[Hr|[[Ht Ha]|[Hi Ha]]]]|Hu];
      [by apply c_string|by apply c_any_ref|by apply c_table|by apply c_form_item|].
    destruct (union_parts k1) as [ps|] eqn:Eu; [|by apply c_assignable].
    destruct k1; try done. injection Eu as ->. destruct Hu as [Hf [Hn|[(q & Hq & Hc) [Ho|Ho]]]].
    + apply c_flags. intros p Hp. destruct (is_flag (kof p)) eqn:E; [auto|]. by destruct (Hn p).
    + by apply (c_regular _ _ q).
    + by apply (c_form_items _ _ q).
Qed.
End relation.

Section test.
Context {St : Type} `{TypeLookup St, TypeIntern St} `{DebugText} `{CharCase} `{StrLower} `{PlatformTypes}.
Context `{!TypeKernelLaws St}.
Implicit Types s : St.

(** ** Slots *)

(** A walk into the members of unions that asks [f] elsewhere. *)
Lemma slot_decides (walk : nat -> TypeId -> K St bool) (f : TypeKind -> bool) (admits : (TypeId -> TypeKind) -> TypeKind -> Prop) :
  (forall fuel to s, walk (S fuel) to s =
    (kind ← get to; match kind with TK.Union ps => anyM (walk fuel) ps | _ => mret (f kind) end : K St bool) s) ->
  (forall kof ps, admits kof (TK.Union ps) <-> exists p, p ∈ ps /\ admits kof (kof p)) ->
  (forall kof kind, union_parts kind = None -> admits kof kind <-> f kind = true) ->
  forall s0 to, kernel_ok s0 -> in_table s0 to -> decides s0 (walk (S to) to) (admits (kind_of s0) (kind_of s0 to)).
Proof.
  intros Hwalk Hunion Hleaf s0 to Hs0.
  enough (forall fuel to, in_table s0 to -> (to < fuel)%nat ->
    decides s0 (walk fuel to) (admits (kind_of s0) (kind_of s0 to))) as Hd by (intros; apply Hd; [done|lia]).
  clear to. intros fuel. induction fuel as [|fuel IH]; intros to Ht Hlt; [lia|].
  intros s. rewrite Hwalk. revert s. apply (decides_get _ _ (kind_of s0 to)); [by apply lookup_kind_of|].
  pose proof (kernel_below _ _ _ Hs0 (lookup_kind_of _ _ Ht)) as Hb.
  destruct (kind_of s0 to) as [] eqn:Ek; try (apply decides_ret; symmetry; by apply Hleaf).
  eapply decides_iff; [symmetry; apply Hunion|].
  apply (decides_any s0 _ (fun p => admits (kind_of s0) (kind_of s0 p))). intros p Hp.
  apply (proj1 (Forall_forall _ _) Hb) in Hp as [? ?]. apply IH; [done|lia].
Qed.

Lemma bare_table_decides s0 to :
  kernel_ok s0 -> in_table s0 to ->
  decides s0 (to_admits_bare_value_table to) (admits_bare_table (kind_of s0) (kind_of s0 to)).
Proof.
  apply (slot_decides bare_table_loop (fun kind =>
    match kind with TK.ValueTable f => match table_projection f with None => true | Some _ => false end | _ => false end)).
  - intros fuel id s. simpl. unfold mbind, K_bind, get. destruct (lookup_type id s) as [kind|]; [|done]. simpl. by destruct kind.
  - intros kof ps. split; [inversion 1; eauto|intros (p & Hp & Ha); by apply (bare_table_union _ _ p)].
  - intros kof kind Hk. split; [destruct 1 as [f ->|]; done|]. destruct kind; try done.
    destruct (table_projection f) eqn:E; [done|]. by intros _; apply bare_table.
Qed.

Lemma form_item_decides s0 to :
  kernel_ok s0 -> in_table s0 to ->
  decides s0 (slot_admits_form_item to) (admits_form_item (kind_of s0) (kind_of s0 to)).
Proof.
  apply (slot_decides form_item_loop (fun kind => is_form_item_kind kind || is_unknown_kind_form_item kind)).
  - intros fuel id s. simpl. unfold mbind, K_bind, get. destruct (lookup_type id s) as [kind|]; [|done]. simpl. by destruct kind.
  - intros kof ps. split; [inversion 1; subst; [done|eauto]|intros (p & Hp & Ha); by apply (form_item_union _ _ p)].
  - intros kof kind Hk. split; [destruct 1; done|]. apply form_item.
Qed.

(** ** The members of a union *)

Definition tally_ok (kof : TypeId -> TypeKind) (ps : list TypeId) (k2 : TypeKind) (t t' : Tally) : Prop :=
  (has_regular t' = true <-> has_regular t = true \/ exists p, regular kof ps p) /\
  (some_regular_fits t' = true <->
    some_regular_fits t = true \/ exists p, regular kof ps p /\ coercible kof (kof p) k2) /\
  (nonfitting_regular_all_binary t' = true <->
    nonfitting_regular_all_binary t = true /\
    forall p, regular kof ps p -> is_binary_data (kof p) = false -> coercible kof (kof p) k2) /\
  (regular_all_form_items t' = true <->
    regular_all_form_items t = true /\ forall p, regular kof ps p -> is_form_item_kind (kof p) = true).

Lemma regular_cons kof p ps q :
  regular kof (p :: ps) q <-> (q = p /\ is_flag (kof p) = false) \/ regular kof ps q.
Proof. unfold regular. rewrite elem_of_cons. split; [intros [[->|?] ?]; auto|intros [[-> ?]|[? ?]]; auto]. Qed.

Lemma tally_ok_flag kof p ps k2 t t' :
  is_flag (kof p) = true -> tally_ok kof ps k2 t t' -> tally_ok kof (p :: ps) k2 t t'.
Proof.
  intros Hp. assert (forall q, regular kof (p :: ps) q <-> regular kof ps q) as E.
  { intros q. rewrite regular_cons. split; [intros [[_ ?]|?]; congruence || done|by right]. }
  unfold tally_ok. by setoid_rewrite E.
Qed.

(** One more regular member. *)
Lemma tally_ok_regular kof p ps k2 t t1 t' :
  is_flag (kof p) = false -> has_regular t1 = true ->
  (some_regular_fits t1 = true <-> some_regular_fits t = true \/ coercible kof (kof p) k2) ->
  (nonfitting_regular_all_binary t1 = true <->
    nonfitting_regular_all_binary t = true /\ (is_binary_data (kof p) = false -> coercible kof (kof p) k2)) ->
  regular_all_form_items t1 = regular_all_form_items t && is_form_item_kind (kof p) ->
  tally_ok kof ps k2 t1 t' -> tally_ok kof (p :: ps) k2 t t'.
Proof.
  intros Hp G1 G2 G3 G4 (T1 & T2 & T3 & T4). unfold tally_ok. setoid_rewrite regular_cons.
  assert (forall P : TypeId -> Prop,
    (forall q, q = p /\ is_flag (kof p) = false \/ regular kof ps q -> P q) <->
    P p /\ forall q, regular kof ps q -> P q) as Hall.
  { intros P. split; [intros HP; split; [apply HP; by left|auto]|]. intros [HPp HP] q [[-> _]|Hq]; auto. }
  rewrite T1, T2, T3, T4, G1, G2, G3, G4, !Hall, andb_true_iff. split_and!.
  - split; [intros _; right; exists p; by left|by left].
  - split.
    + intros [[?|?]|(q & Hq & ?)]; [by left|right; exists p; split; [by left|done]|right; exists q; auto].
    + intros [?|(q & [[-> _]|Hq] & ?)]; [auto|auto|right; eauto].
  - tauto.
  - tauto.
Qed.

Lemma tally_parts_spec s0 to (f : TypeId -> K St bool) ps :
  kernel_ok s0 -> in_table s0 to -> Forall (in_table s0) ps ->
  (forall p, p ∈ ps -> decides s0 (f p) (coercible (kind_of s0) (kind_of s0 p) (kind_of s0 to))) ->
  forall t s, kernel_ok s -> extends s0 s ->
  exists r s', tally_parts f to ps t s = Some (r, s') /\ kernel_ok s' /\ extends s s' /\
    match r with
    | None => ~ forall p, p ∈ ps -> is_flag (kind_of s0 p) = true ->
        assignable (kind_of s0) (kind_of s0 p) (kind_of s0 to)
    | Some t' =>
        (forall p, p ∈ ps -> is_flag (kind_of s0 p) = true -> assignable (kind_of s0) (kind_of s0 p) (kind_of s0 to)) /\
        tally_ok (kind_of s0) ps (kind_of s0 to) t t'
    end.
Proof.
  intros Hs0 Hto Hps Hf. induction Hps as [|p ps Hp Hps IH]; intros t s Hs He.
  { exists (Some t), s. do 3 (split; [done|]). split; [by intros p ?%not_elem_of_nil|].
    assert (forall q, regular (kind_of s0) [] q -> False) as Hn by by intros q [?%not_elem_of_nil _].
    unfold tally_ok. split_and!; (split; [|try (by intros [? _])]).
    - by left.
    - by intros [?|[q ?%Hn]].
    - by left.
    - by intros [?|(q & ?%Hn & _)].
    - intros ?. split; [done|by intros q ?%Hn].
    - intros ?. split; [done|by intros q ?%Hn]. }
  specialize (IH ltac:(intros q Hq; apply Hf; by right)).
  simpl. unfold mbind, K_bind, get. rewrite (He _ _ (lookup_kind_of _ _ Hp)). simpl.
  destruct (is_flag (kind_of s0 p)) eqn:Efl.
  - destruct (assignability_decides s0 p to Hs0 Hp Hto s Hs He) as (b & s1 & E1 & Hs1 & He1 & Hb). rewrite E1. simpl.
    destruct b.
    + destruct (IH t s1 Hs1 ltac:(by etrans)) as (r & s2 & E2 & Hs2 & He2 & Hr). exists r, s2.
      split_and!; try done; [by etrans|]. destruct r as [t'|].
      * destruct Hr as [Hfl Ht]. split; [intros q [->|Hq]%elem_of_cons ?; [by apply Hb|auto]|by apply tally_ok_flag].
      * intros Hall. apply Hr. intros q Hq. apply Hall. by right.
    + exists None, s1. split_and!; try done. intros Hall. enough (false = true) by done. apply Hb, Hall; [by left|done].
  - destruct (Hf p ltac:(by left) s Hs He) as (b & s1 & E1 & Hs1 & He1 & Hb). rewrite E1. simpl.
    assert (forall t1,
      has_regular t1 = true ->
      (some_regular_fits t1 = true <-> some_regular_fits t = true \/ coercible (kind_of s0) (kind_of s0 p) (kind_of s0 to)) ->
      (nonfitting_regular_all_binary t1 = true <-> nonfitting_regular_all_binary t = true /\
        (is_binary_data (kind_of s0 p) = false -> coercible (kind_of s0) (kind_of s0 p) (kind_of s0 to))) ->
      regular_all_form_items t1 = regular_all_form_items t && is_form_item_kind (kind_of s0 p) ->
      exists r s', tally_parts f to ps t1 s1 = Some (r, s') /\ kernel_ok s' /\ extends s s' /\
        match r with
        | None => ~ forall q, q ∈ p :: ps -> is_flag (kind_of s0 q) = true ->
            assignable (kind_of s0) (kind_of s0 q) (kind_of s0 to)
        | Some t' =>
            (forall q, q ∈ p :: ps -> is_flag (kind_of s0 q) = true ->
              assignable (kind_of s0) (kind_of s0 q) (kind_of s0 to)) /\
            tally_ok (kind_of s0) (p :: ps) (kind_of s0 to) t t'
        end) as Hgo.
    { intros t1 G1 G2 G3 G4. destruct (IH t1 s1 Hs1 ltac:(by etrans)) as (r & s2 & E2 & Hs2 & He2 & Hr). exists r, s2.
      split_and!; try done; [by etrans|]. destruct r as [t'|].
      - destruct Hr as [Hfl Ht]. split; [intros q [->|Hq]%elem_of_cons ?; [congruence|auto]|].
        by apply (tally_ok_regular _ _ _ _ _ t1).
      - intros Hall. apply Hr. intros q Hq. apply Hall. by right. }
    destruct b; [|destruct (is_binary_data (kind_of s0 p))]; simpl; apply Hgo; try done; simpl; rewrite <- ?Hb; intuition congruence.
Qed.

Lemma tally_decides s0 to f ps :
  kernel_ok s0 -> in_table s0 to -> Forall (in_table s0) ps ->
  (forall p, p ∈ ps -> decides s0 (f p) (coercible (kind_of s0) (kind_of s0 p) (kind_of s0 to))) ->
  decides s0 (t ← tally_parts f to ps (MkTally false false true true);
              mret (match t with Some t => tally_accepts t | None => false end))
    (by_members (kind_of s0) ps (kind_of s0 to)).
Proof.
  intros Hs0 Hto Hps Hf s Hs He.
  destruct (tally_parts_spec s0 to f ps Hs0 Hto Hps Hf (MkTally false false true true) s Hs He) as (r & s' & E & Hs' & He' & Hr).
  unfold mbind, K_bind. rewrite E. simpl. destruct r as [t'|].
  2: { exists false, s'. split_and!; try done. split; [done|]. by intros [Hfl _]. }
  exists (tally_accepts t'), s'. do 3 (split; [done|]).
  destruct Hr as (Hfl & T1 & T2 & T3 & T4). simpl in *. unfold tally_accepts, by_members.
  rewrite orb_true_iff, andb_true_iff, orb_true_iff, negb_true_iff, T2, T3, T4. split.
  - intros [Hn|Ht]; (split; [done|]); [left|right; intuition congruence].
    intros p Hp. enough (has_regular t' = true) by congruence. apply T1. right. by exists p.
  - intros [_ [Hn|Ht]]; [left|right; intuition].
    apply not_true_is_false. intros [?|[p Hp]]%T1; [done|by apply (Hn p)].
Qed.

(** ** The test *)

Lemma coercible_loop_decides s0 to fuel from :
  kernel_ok s0 -> in_table s0 to -> in_table s0 from -> (from < fuel)%nat ->
  decides s0 (coercible_loop fuel from to) (coercible (kind_of s0) (kind_of s0 from) (kind_of s0 to)).
Proof.
  intros Hs0 Ht. revert from. induction fuel as [|fuel IH]; intros from Hf Hlt; [lia|].
  eapply decides_iff; [symmetry; apply coercible_cases|]. simpl.
  apply (decides_get _ _ (kind_of s0 to)); [by apply lookup_kind_of|].
  unfold direct. destruct (is_string (kind_of s0 to)) eqn:E1; [apply decides_true; by do 2 left|].
  apply (decides_get _ _ (kind_of s0 from)); [by apply lookup_kind_of|].
  destruct (this_to_any_ref (kind_of s0 from) (kind_of s0 to)) eqn:E2; [apply decides_true; left; by right; left|].
  eapply decides_iff; [|apply decides_or; [|apply decides_or]].
  - split; [intros [Hx|[Hx|Hx]]; [left; right; right; left; exact Hx|left; right; right; right; exact Hx|right; exact Hx]|].
    intros [[?|[?|[Hx|Hx]]]|Hx]; [done|done|by left|by right; left|by right; right].
  - destruct (is_tabular_section (kind_of s0 from)); [|apply decides_ret; split; [done|by intros []]].
    eapply decides_iff; [|by apply bare_table_decides]. split; [done|by intros []].
  - destruct (is_unknown_kind_form_item (kind_of s0 from)); [|apply decides_ret; split; [done|by intros []]].
    eapply decides_iff; [|by apply form_item_decides]. split; [done|by intros []].
  - destruct (union_parts (kind_of s0 from)) as [ps|] eqn:Eu; [|by apply assignability_decides].
    pose proof (kernel_below _ _ _ Hs0 (lookup_kind_of _ _ Hf)) as Hb. destruct (kind_of s0 from); try done.
    injection Eu as ->. rewrite Forall_forall in Hb. apply tally_decides; [done|done| |].
    + apply Forall_forall. intros p Hp. by apply (Hb p).
    + intros p Hp. destruct (Hb p Hp). apply IH; [done|lia].
Qed.

Lemma coercion_decides s from to :
  kernel_ok s -> in_table s from -> in_table s to ->
  decides s (is_coercible_to from to) (coercible (kind_of s) (kind_of s from) (kind_of s to)).
Proof. intros Hs Hf Ht. apply coercible_loop_decides; [done..|lia]. Qed.

Lemma coercible_of_assignable s from k :
  kernel_ok s -> in_table s from -> assignable (kind_of s) (kind_of s from) k -> coercible (kind_of s) (kind_of s from) k.
Proof.
  intros Hs. induction (lt_wf from) as [from _ IH]. intros Hf Ha.
  destruct (union_parts (kind_of s from)) as [ps|] eqn:Eu; [|by apply c_assignable].
  pose proof (kernel_below _ _ _ Hs (lookup_kind_of _ _ Hf)) as Hb. destruct (kind_of s from) as [] eqn:Ek; try done.
  injection Eu as ->. rewrite Forall_forall in Hb.
  assert (forall p, p ∈ ps -> assignable (kind_of s) (kind_of s p) k) as Hp by (intros p Hp; by apply (assignable_from_union _ ps)).
  assert (forall p, p ∈ ps -> coercible (kind_of s) (kind_of s p) k) as Hc.
  { intros p Hpp. destruct (Hb p Hpp). apply IH; auto. }
  apply coercible_cases. right. split; [auto|].
  destruct (existsb (fun p => negb (is_flag (kind_of s p))) ps) eqn:E.
  - apply existsb_true in E as (q & Hq & E). right. split; [exists q; split; [|auto]|].
    + split; [done|]. by apply negb_true_iff.
    + left. intros p [Hpp _] _. auto.
  - left. intros p [Hpp Hn]. apply existsb_false, (proj1 (Forall_forall _ _)) with p in E; [|done]. by rewrite Hn in E.
Qed.

(** C20. [is_coercible_to] is the relation [coercible], and the policy for arguments is never stricter
    than the lattice: in every kernel that keeps its promises and for any two of its types the test
    ends, without a panic and within the fuel, answers [true] exactly when the relation gives a
    reason, and answers [true] whenever the one type is assignable to the other.  A documented union
    is accepted exactly when one of its members is. *)
Theorem coercion_decided s from to :
  kernel_ok s -> in_table s from -> in_table s to ->
  exists b s', is_coercible_to from to s = Some (b, s') /\ kernel_ok s' /\ extends s s' /\
    (b = true <-> coercible (kind_of s) (kind_of s from) (kind_of s to)) /\
    (assignable (kind_of s) (kind_of s from) (kind_of s to) -> b = true) /\
    exists d s2, is_coercible_documented_union from to s = Some (d, s2) /\
      (d = true <-> exists ps p, kind_of s from = TK.Union ps /\ p ∈ ps /\ coercible (kind_of s) (kind_of s p) (kind_of s to)).
Proof.
  intros Hs Hf Ht. destruct (coercion_decides s from to Hs Hf Ht s Hs ltac:(done)) as (b & s' & E & Hs' & He & Hb).
  exists b, s'. do 4 (split; [done|]). split; [intros Ha; by apply Hb, coercible_of_assignable|].
  enough (decides s (is_coercible_documented_union from to) (exists ps p, kind_of s from = TK.Union ps /\ p ∈ ps /\
    coercible (kind_of s) (kind_of s p) (kind_of s to))) as Hd.
  { destruct (Hd s Hs ltac:(done)) as (d & s2 & E2 & _ & _ & Hd2). by exists d, s2. }
  apply (decides_get _ _ (kind_of s from)); [by apply lookup_kind_of|].
  pose proof (kernel_below _ _ _ Hs (lookup_kind_of _ _ Hf)) as Hbl.
  destruct (kind_of s from) as [] eqn:Ek; try (apply decides_ret; split; [done|by intros (? & ? & ? & _)]).
  eapply decides_iff; [|apply (decides_any s _ (fun p => coercible (kind_of s) (kind_of s p) (kind_of s to)))].
  - split; [intros (p & Hp & Hc); by eexists _, p|]. by intros (ps & p & [= <-] & Hp & Hc); exists p.
  - intros p Hp. apply coercion_decides; [done| |done]. by apply (proj1 (Forall_forall _ _) Hbl).
Qed.
End test.

(** ** Examples *)

Section examples.
#[local] Instance coercion_case : CharCase := basic_lowercase.
#[local] Existing Instances basic_str_lower example_types example_debug.
#[local] Instance coercion_laws : TypeKernelLaws TypeKernelInner := kernel_laws example_corpus_ok.

(** A string or Undefined may be passed for a string, although it does not fit; a number is no union. *)
Lemma coercion_decided_witness :
  (exists b k, is_coercible_to 8 6 example_kernel = Some (b, k) /\
    (b = true <-> coercible (kind_of example_kernel) (kind_of example_kernel 8) (kind_of example_kernel 6))) /\
  is_coercible_to 8 7 example_kernel = Some (true, example_kernel) /\
  is_assignable 8 7 example_kernel = Some (false, example_kernel) /\
  is_coercible_to 8 6 example_kernel = Some (false, example_kernel).
Proof.
  split; [|split; [|split]; vm_compute; reflexivity].
  destruct (coercion_decided (TypeKernelLaws0 := coercion_laws) example_kernel 8 6) as (b & k & E & _ & _ & Hb & _);
    [|apply lookup_lt_is_Some; vm_compute; lia..|by exists b, k].
  exact (reachable_wf example_kernel example_corpus_ok example_kernel_reachable).
Defined.
End examples.
