(* ===== verification/JoinSpec.v ===== *)
(** JoinSpec: a union is the join of its members.

    The type that a union is interned as admits every one of its members, and fits where all of them
    fit; unless it is [Any], it fits nowhere else.  Canonisation drops members and flattens, so this
    ties the kernel to the subtype test. *)
From stdpp Require Import prelude strings.
From S2P Require Import Prelude Case Names Metadata Types Corpus Interning InterningSpec KernelSpec Builders PlatformNames Subtype SubtypeSpec.

Section join.
Context {St : Type} `{TypeLookup St, TypeIntern St} `{DebugText} `{CharCase} `{StrLower} `{PlatformTypes}.
Context `{!TypeKernelLaws St}.
Implicit Types s : St.

(** The test says yes. *)
Definition fits_at (s : St) (from to : TypeId) : Prop := exists s', is_assignable from to s = Some (true, s').

Lemma fits_at_iff s from to :
  kernel_ok s -> in_table s from -> in_table s to ->
  fits_at s from to <-> assignable (kind_of s) (kind_of s from) (kind_of s to).
Proof.
  intros Hs Hf Ht. destruct (assignability_decides s from to Hs Hf Ht s Hs ltac:(done)) as (b & s' & E & _ & _ & Hb).
  unfold fits_at. rewrite E, <- Hb. split; [by intros (? & [= -> _])|intros ->; by exists s'].
Qed.

(** Members fit where the members of inner unions fit. *)
Lemma members_fit s ms k :
  (forall m, m ∈ ms -> assignable (kind_of s) (kind_of s m) k) <->
  (forall x, x ∈ ms ≫= member_flat s -> assignable (kind_of s) (kind_of s x) k).
Proof.
  split.
  - intros Hm x (m & Hx & Hmm)%list_elem_of_bind. specialize (Hm m Hmm). unfold member_flat in Hx.
    destruct (kind_of s m) eqn:Ek; try (apply list_elem_of_singleton in Hx as ->; by rewrite Ek).
    by apply (assignable_from_union _ members).
  - intros Hx m Hm. destruct (kind_of s m) eqn:Ek;
      try (rewrite <- Ek; apply Hx, list_elem_of_bind; exists m; (split; [|done]); unfold member_flat; rewrite Ek; by left).
    apply a_from_union. intros p Hp. apply Hx, list_elem_of_bind. exists m. split; [|done]. unfold member_flat. by rewrite Ek.
Qed.

(** The members that canonisation may drop fit everywhere. *)
Lemma dropped_fit s ms x k :
  flat_unions s -> Forall (in_table s) ms -> x ∈ ms ≫= member_flat s -> is_plain (kind_of s x) = false ->
  assignable (kind_of s) (kind_of s x) k.
Proof.
  intros Hfu Hms Hx Hp. pose proof (member_flat_no_union s ms x Hfu Hms Hx) as Hn.
  destruct (kind_of s x) as [] eqn:Ek; try done; [by apply a_from_dynamic..|apply a_never| |];
    try (by apply a_from_dynamic). by destruct (Hn members).
Qed.

(** The members of the canonical form, by its shape. *)
Lemma canonical_union_shape s ms (c := canonical_union s ms) :
  c = TK.Any \/
  exists l, (forall x, x ∈ l <-> x ∈ union_members s ms) /\
    ((l = [] /\ c = TK.Unknown) \/ (exists m, l = [m] /\ c = kind_of s m) \/ c = TK.Union l).
Proof.
  subst c. unfold canonical_union. case_match; [by left|]. right.
  exists (sorted_members s (union_members s ms)). split; [apply sorted_members_elem|].
  destruct (sorted_members s (union_members s ms)) as [|m [|m' l]]; [by left|right; left; by exists m|by right; right].
Qed.

Lemma canonical_union_fits s ms k :
  (forall x, x ∈ ms ≫= member_flat s -> assignable (kind_of s) (kind_of s x) k) ->
  assignable (kind_of s) (canonical_union s ms) k.
Proof.
  intros Hx. destruct (canonical_union_shape s ms) as [->|(l & Hl & Hc)]; [by apply a_from_dynamic|].
  assert (forall x, x ∈ l -> assignable (kind_of s) (kind_of s x) k) as Hlx.
  { intros x Hxl. apply Hx, (others_elem s is_never), (others_elem s is_unknown), Hl, Hxl. }
  destruct Hc as [[_ ->]|[(m & -> & ->)| ->]]; [by apply a_from_dynamic|apply Hlx; by left|by apply a_from_union].
Qed.

Lemma canonical_union_members_fit s ms k x :
  flat_unions s -> Forall (in_table s) ms -> canonical_union s ms <> TK.Any ->
  assignable (kind_of s) (canonical_union s ms) k -> x ∈ ms ≫= member_flat s ->
  assignable (kind_of s) (kind_of s x) k.
Proof.
  intros Hfu Hms Hany Hc Hx. destruct (is_plain (kind_of s x)) eqn:Ep; [|by eapply dropped_fit].
  destruct (canonical_union_shape s ms) as [?|(l & Hl & Hs)]; [done|].
  assert (x ∈ l) as Hxl by by apply Hl, union_members_plain.
  destruct Hs as [[-> _]|[(m & -> & Em)|Eu]]; [by apply not_elem_of_nil in Hxl| |].
  - apply list_elem_of_singleton in Hxl as ->. by rewrite Em in Hc.
  - rewrite Eu in Hc. by apply (assignable_from_union _ l).
Qed.

Lemma canonical_union_admits s ms x :
  flat_unions s -> Forall (in_table s) ms -> x ∈ ms ≫= member_flat s ->
  assignable (kind_of s) (kind_of s x) (canonical_union s ms).
Proof.
  intros Hfu Hms Hx. destruct (decide (canonical_union s ms = TK.Any)) as [->|Hany]; [by apply a_to_dynamic|].
  by apply (canonical_union_members_fit s ms); [..|apply a_same|].
Qed.

(** C18. Interning a union joins its members, as the subtype test sees them: in every kernel that keeps
    its promises the test answers [true] for each member against the interned type, though that type
    may be another union, a single member or [Any]; it answers [true] for the interned type against
    any type that every member fits; and when the interned type is not [Any], against no other type. *)
Theorem unions_are_joins s ms :
  kernel_ok s -> Forall (in_table s) ms ->
  exists id s', intern_type (TK.Union ms) s = Some (id, s') /\ kernel_ok s' /\ extends s s' /\
    (forall m, m ∈ ms -> fits_at s' m id) /\
    forall to, in_table s' to ->
      ((forall m, m ∈ ms -> fits_at s' m to) -> fits_at s' id to) /\
      (kind_of s' id <> TK.Any -> fits_at s' id to -> forall m, m ∈ ms -> fits_at s' m to).
Proof.
  intros Hs Hms. destruct (kernel_interns s (TK.Union ms) Hs (conj Hms I)) as (id & c & s' & Ec & Ei & Hl & He & Hs').
  exists id, s'. do 3 (split; [done|]).
  assert (Forall (in_table s') ms) as Hms' by (eapply Forall_impl; [exact Hms|intros; by eapply in_table_extends]).
  assert (kind_of s' id = canonical_union s' ms) as Ek.
  { assert (canonicalise_union ms s = Some c) as Eu.
    { simpl in Ec. destruct (canonicalise_union ms s); [by injection Ec as ->|done]. }
    apply (canonicalise_union_mono _ _ _ He) in Eu. rewrite canonicalise_union_eq in Eu by (done || by apply ok_closed).
    unfold kind_of. rewrite Hl. simpl. congruence. }
  assert (in_table s' id) as Hid by by eexists.
  assert (forall m, m ∈ ms -> in_table s' m) as Hin by (intros m Hm; by apply (proj1 (Forall_forall _ _) Hms')).
  pose proof (kernel_flat _ Hs') as Hfu.
  split; [|intros to Hto; split].
  - intros m Hm. apply fits_at_iff; [by auto..|]. rewrite Ek. revert m Hm. apply (proj2 (members_fit s' ms _)). intros x Hx.
    by apply canonical_union_admits.
  - intros Hall. apply fits_at_iff; [done..|]. rewrite Ek. apply canonical_union_fits, (proj1 (members_fit s' ms _)).
    intros m Hm. apply fits_at_iff; auto.
  - intros Hany Hf m Hm. apply fits_at_iff; [by auto..|]. apply fits_at_iff in Hf; [|done..]. rewrite Ek in Hf, Hany.
    revert m Hm. apply (proj2 (members_fit s' ms _)). intros x Hx. by apply (canonical_union_members_fit s' ms).
Qed.
End join.

(** ** Examples *)

Section examples.
#[local] Instance join_case : CharCase := basic_lowercase.
#[local] Existing Instances basic_str_lower example_types example_debug.
#[local] Instance join_laws : TypeKernelLaws TypeKernelInner := kernel_laws example_corpus_ok.

(** A number, and a string or Undefined. *)
Lemma unions_are_joins_witness :
  exists id k, kernel_intern (TK.Union [6; 8]) example_kernel = Some (id, k) /\
    fits_at k 6 id /\ fits_at k 8 id.
Proof.
  destruct (unions_are_joins (TypeKernelLaws0 := join_laws) example_kernel [6; 8]) as (id & k & E & _ & _ & Hm & _).
  - exact (reachable_wf example_kernel example_corpus_ok example_kernel_reachable).
  - repeat constructor; apply lookup_lt_is_Some; vm_compute; lia.
  - exists id, k. split; [exact E|]. split; apply Hm; rewrite !elem_of_cons; auto.
Defined.

Example joined_types :
  (kind ← (fst <$> canonicalise (TK.Union [6; 8]) example_kernel); Some kind) = Some (TK.Union [6; 7; 4]) /\
  is_Some (kernel_intern (TK.Union [6; 8]) example_kernel).
Proof. split; [by vm_compute|by eexists]. Qed.
End examples.
