(* ===== verification/BridgeSpec.v ===== *)
(** BridgeSpec: the generic names of the platform and the bridges to them.

    subtype.rs lets a concrete type pass for a generic one by a table of names, and
    platform_type_name.rs holds the names that a signature may use although the corpus does not have
    them.  The two lists agree: a name is in the second exactly when the bridge from concrete types
    or the one from rows of tabular sections leads to it, but for the manager of a constant's value,
    which only the first list has. *)
From stdpp Require Import prelude strings.
From S2P Require Import Prelude Case Names Metadata Types Interning PlatformNames Subtype.

#[local] Opaque chars.

Section bridges.
Context `{CharCase} `{StrLower} `{CharAlphabetic}.

Definition is_constant_manager (kind : TypeKind) : bool :=
  match kind with
  | TK.MetadataRef f => match meta_kind f with MK.ConstantValueManager => true | _ => false end
  | _ => false
  end.

Lemma existsb_elem {A} (f : A -> bool) l : existsb f l = true <-> exists x, x ∈ l /\ f x = true.
Proof. rewrite existsb_exists. by setoid_rewrite <- list_elem_of_In. Qed.

Lemma find_name_elem table mdo ru en : find_name table mdo = Some (ru, en) -> (mdo, ru, en) ∈ table.
Proof.
  unfold find_name. destruct (list_find _ table) as [[i [[m r] e]]|] eqn:E; [|done]. simpl. intros [= -> ->].
  apply list_find_Some in E as (Hi & Hm & _). simpl in Hm. subst m. by eapply list_elem_of_lookup_2.
Qed.

(** Every row of the table is the first one of its kind. *)
Lemma find_name_row (table : list (MdoType * text * text)) row :
  forallb (fun row => bool_decide (find_name table row.1.1 = Some (row.1.2, row.2))) table = true ->
  row ∈ table -> find_name table row.1.1 = Some (row.1.2, row.2).
Proof.
  rewrite forallb_forall. intros Hall Hr. apply list_elem_of_In, Hall in Hr. by apply bool_decide_eq_true in Hr.
Qed.

Lemma form_control_names_elem ru en :
  (exists kind, form_control_name_for kind = Some (ru, en)) <-> (ru, en) ∈ form_control_names.
Proof.
  unfold form_control_names. rewrite list_elem_of_bind. split.
  - intros [kind Hk]. exists (match kind with
      | FEK.UsualGroup | FEK.Pages | FEK.Page | FEK.CommandBar | FEK.ButtonGroup => FEK.Group
      | kind => kind
      end).
    assert (forall k, form_control_name_for k = Some (ru, en) -> (ru, en) ∈ option_list (form_control_name_for k)) as Hl.
    { intros k ->. by left. }
    unfold FORM_CONTROL_KINDS. rewrite !elem_of_cons. destruct kind; try discriminate Hk; (split; [by apply Hl|auto 7]).
  - intros (kind & Hr & _). exists kind. destruct (form_control_name_for kind); [|by apply not_elem_of_nil in Hr].
    by apply list_elem_of_singleton in Hr as ->.
Qed.

Lemma form_data_names_elem ru en :
  (exists kind, (form_data_platform_type_name kind, form_data_english_name kind) = (ru, en)) <-> (ru, en) ∈ FORM_DATA_NAMES.
Proof.
  split.
  - intros [kind E]. rewrite <- E. unfold FORM_DATA_NAMES. destruct kind; [|right|do 2 right|do 3 right]; left.
  - unfold FORM_DATA_NAMES. rewrite !elem_of_cons. intros [E|[E|[E|[E|Hn%not_elem_of_nil]]]]; rewrite ?E.
    + exists FD.Structure. reflexivity.
    + exists FD.Collection. reflexivity.
    + exists FD.StructureWithCollection. reflexivity.
    + exists FD.Tree. reflexivity.
    + destruct Hn.
Qed.

(** A row of one of the five tables of generic names. *)
Definition generic_row (p : text * text) : Prop :=
  (exists mdo, (mdo, p.1, p.2) ∈ MANAGER_NAMES) \/ (exists mdo, (mdo, p.1, p.2) ∈ OBJECT_NAMES) \/
  p ∈ form_control_names \/ p ∈ FORM_DATA_NAMES \/ p = (chars "ТабличнаяЧасть", chars "TabularSection").

Lemma generic_row_name p name :
  generic_row p -> name_eq_ci name p.1 p.2 = true -> is_generic_bridge_target_name name = true.
Proof.
  intros Hp En. unfold is_generic_bridge_target_name. rewrite !orb_true_iff, !existsb_elem.
  destruct Hp as [[mdo Hm]|[[mdo Hm]|[Hp|[Hp| ->]]]].
  - do 5 left. by exists (mdo, p.1, p.2).
  - do 4 left. right. by exists (mdo, p.1, p.2).
  - do 3 left. right. by exists p.
  - do 2 left. right. by exists p.
  - left. by right.
Qed.

Lemma generic_name_row name :
  is_generic_bridge_target_name name = true ->
  (exists p, generic_row p /\ name_eq_ci name p.1 p.2 = true) \/ is_tabular_row_name name = true.
Proof.
  unfold is_generic_bridge_target_name, generic_row. rewrite !orb_true_iff, !existsb_elem.
  intros [[[[[(row & Hr & E)|(row & Hr & E)]|(p & Hp & E)]|(p & Hp & E)]|E]|E]; [left..|by right].
  - exists (row.1.2, row.2). split; [left; exists row.1.1; by destruct row as [[]]|done].
  - exists (row.1.2, row.2). split; [right; left; exists row.1.1; by destruct row as [[]]|done].
  - exists p. auto.
  - exists p. auto 6.
  - eexists (_, _). split; [do 4 right; reflexivity|done].
Qed.

Lemma generic_names_row from p :
  generic_names from = Some p -> is_constant_manager from = false -> generic_row p.
Proof.
  assert (forall mdo, generic_manager_names mdo = Some p -> generic_row p) as Hm.
  { intros mdo E. destruct p. left. exists mdo. by apply find_name_elem. }
  assert (forall mdo, generic_object_names mdo = Some p -> generic_row p) as Ho.
  { intros mdo E. destruct p. right. left. exists mdo. by apply find_name_elem. }
  intros Eg Hc. destruct from; cbn [generic_names] in Eg;
    lazymatch type of Eg with
    | generic_manager_names ?mdo = _ => exact (Hm mdo Eg)
    | generic_object_names ?mdo = _ => exact (Ho mdo Eg)
    | None = _ => discriminate Eg
    | _ => idtac
    end.
  - simpl in Hc. destruct (meta_kind f); cbn [object_mdo_of_kind mbind option_bind] in Eg; try discriminate Hc;
      lazymatch type of Eg with
      | generic_object_names ?mdo = _ => exact (Ho mdo Eg)
      | None = _ => discriminate Eg
      | _ => idtac
      end.
    injection Eg as <-. do 4 right. reflexivity.
  - do 3 right. left. destruct p. apply form_data_names_elem. exists kind. congruence.
  - destruct p. do 2 right. left. apply form_control_names_elem. by exists kind.
Qed.

Lemma generic_row_source p : generic_row p -> exists from, generic_names from = Some p /\ is_constant_manager from = false.
Proof.
  destruct p as [ru en]. intros [[mdo Hm]|[[mdo Hm]|[Hp|[Hp|E]]]].
  - exists (TK.ThisManager Root (MkMdoRef mdo [])). split; [|done].
    exact (find_name_row MANAGER_NAMES (mdo, ru, en) ltac:(vm_compute; reflexivity) Hm).
  - exists (TK.ThisObject Root (MkMdoRef mdo [])). split; [|done].
    exact (find_name_row OBJECT_NAMES (mdo, ru, en) ltac:(vm_compute; reflexivity) Hm).
  - apply form_control_names_elem in Hp as [kind Hk]. by exists (TK.FormControl kind None).
  - apply form_data_names_elem in Hp as [kind Hk]. exists (TK.FormData kind None). split; [|done]. simpl. by rewrite Hk.
  - rewrite E. by exists (TK.MetadataRef (MkMetaRef (MK.TabularSection Mdo.Catalog) [] Root)).
Qed.

(** The two bridges of the subtype test that lead to generic names, the one from a concrete type to
    its generic name and the one from a row of a tabular section to its platform names, agree with
    the list of such names: a platform name, in whatever spelling, is in the list exactly when one
    of the two leads to it from some type other than the manager of a constant's value; and where
    one of them leads to, that manager's included, the name is exempt from the search in the corpus.
    The other ways from one name to another (a spreadsheet for its area, a supertype, a common
    module) are not meant here. *)
Theorem bridge_targets_known name :
  let bridged from := is_concrete_to_generic_platform_bridge from (TK.PlatformObject (MkPlatformObject name)) ||
    is_tabular_row_bridge from (TK.PlatformObject (MkPlatformObject name)) in
  (is_generic_bridge_target_name name = true <-> exists from, bridged from = true /\ is_constant_manager from = false) /\
  ((exists from, bridged from = true) -> is_exact_non_corpus_type_name name = true).
Proof.
  cbv zeta. set (to := TK.PlatformObject (MkPlatformObject name)).
  assert (forall from, is_concrete_to_generic_platform_bridge from to || is_tabular_row_bridge from to = true -> is_constant_manager from = false ->
    is_generic_bridge_target_name name = true) as Hto.
  { intros from [E|E]%orb_true_iff Hc.
    - simpl in E. destruct (generic_names from) as [p|] eqn:Eg; [|done].
      apply (generic_row_name p); [by eapply generic_names_row|]. by destruct p.
    - unfold is_generic_bridge_target_name. apply orb_true_iff. right. apply orb_true_iff in E as [E|E];
        apply andb_true_iff in E as [E1 E2]; [done|by destruct from]. }
  split; [split|].
  - intros [(p & Hp & E)|E]%generic_name_row.
    + destruct (generic_row_source p Hp) as (from & Eg & Hc). exists from. split; [|done].
      apply orb_true_iff. left. simpl. rewrite Eg. by destruct p.
    + exists (TK.MetadataRef (MkMetaRef (MK.TabularSectionRow Mdo.Catalog) [] Root)). split; [|done].
      apply orb_true_iff. right. unfold is_tabular_row_bridge. simpl. by rewrite E.
  - intros (from & E & Hc). by apply (Hto from).
  - intros [from E]. unfold is_exact_non_corpus_type_name. apply orb_true_iff.
    destruct (is_constant_manager from) eqn:Hc; [right|left; by apply (Hto from)].
    destruct from; try done. simpl in Hc. apply orb_true_iff in E as [E|E].
    + simpl in E. destruct (meta_kind f); try done. apply existsb_elem.
      exists (chars "КонстантаМенеджерЗначения", chars "ConstantValueManager").
      split; [apply (bool_decide_unpack _); by vm_compute|exact E].
    + unfold is_tabular_row_bridge in E. simpl in E. by destruct (meta_kind f).
Qed.
End bridges.
