(* ===== verification/Paths.v ===== *)
(** Paths: paths, conventional names, the roles of files, and which paths belong to a project.

    Conventional names crates/bsl-conventions/src/lib.rs, roles of files
    crates/project-model/src/file_role.rs, exclusions crates/stdx/src/path_exclusion.rs, the rules of
    a directory crates/vfs/src/loader.rs.  A path is the list of its components, as Rust's library
    has them on Unix.  The file system is the class [FileSystem], the library of glob patterns the
    class [Globs]. *)
From stdpp Require Import prelude strings.
From S2P Require Import Prelude Case Names.

(** ** Paths of the library *)

Inductive Component : Set := RootDir | CurDir | ParentDir | Normal (name : text).

#[export] Instance Component_eq_dec : EqDecision Component.
Proof. solve_decision. Defined.

(** [CurDir] stands at the start only, [RootDir] only there. *)
Definition Path : Set := list Component.

Definition is_absolute (p : Path) : bool := match p with RootDir :: _ => true | _ => false end.

(** [Path::starts_with], by whole components. *)
Definition path_starts_with (p base : Path) : bool := bool_decide (base `prefix_of` p).

Definition file_name (p : Path) : option text :=
  match last p with Some (Normal name) => Some name | _ => None end.

Definition parent (p : Path) : option Path :=
  match last p with Some RootDir | None => None | Some _ => Some (removelast p) end.

(** [Path::join]. *)
Definition path_join (p q : Path) : Path :=
  match p, q with
  | _, RootDir :: _ => q
  | [], _ => q
  | _, _ => p ++ filter (fun c => c <> CurDir) q
  end.

(** [str::rsplit_once] at a character: around the last one. *)
Definition rsplit_once (c : char) (s : text) : option (text * text) :=
  '(after, before) ← split_once c (reverse s); Some (reverse before, reverse after).

(** [rsplit_file_at_dot]: the stem and the extension of a file name. *)
Definition split_at_dot (name : text) : text * option text :=
  match rsplit_once 0x2E name with
  | Some ([], _) | None => (name, None)
  | Some (before, after) => (before, Some after)
  end.

Definition extension (p : Path) : option text := name ← file_name p; (split_at_dot name).2.
Definition file_stem (p : Path) : option text := name ← file_name p; Some (split_at_dot name).1.

(** ** Conventional names *)

Module CN.
Inductive ConventionalName : Set :=
  | Module | ObjectModule | ManagerModule | FormModule | CommandModule | RecordSetModule |
  ValueManagerModule | SessionModule | ExternalConnectionModule | ManagedApplicationModule |
  OrdinaryApplicationModule | ApplicationModule | ModuleBin | Ext | Form | Forms | Commands |
  ConfigurationXml | PredefinedXml | RightsXml | FormXml | FormJson | FormBin |
  ParentConfigurationsBin.
End CN.
Abbreviation ConventionalName := CN.ConventionalName.

#[export] Instance ConventionalName_eq_dec : EqDecision ConventionalName.
Proof. solve_decision. Defined.

Definition ConventionalName_ALL : list ConventionalName :=
  [ CN.Module; CN.ObjectModule; CN.ManagerModule; CN.FormModule; CN.CommandModule;
    CN.RecordSetModule; CN.ValueManagerModule; CN.SessionModule; CN.ExternalConnectionModule;
    CN.ManagedApplicationModule; CN.OrdinaryApplicationModule; CN.ApplicationModule; CN.ModuleBin;
    CN.Ext; CN.Form; CN.Forms; CN.Commands; CN.ConfigurationXml; CN.PredefinedXml; CN.RightsXml;
    CN.FormXml; CN.FormJson; CN.FormBin; CN.ParentConfigurationsBin ].

Definition canonical (name : ConventionalName) : text :=
  match name with
  | CN.Module => chars "Module.bsl"
  | CN.ObjectModule => chars "ObjectModule.bsl"
  | CN.ManagerModule => chars "ManagerModule.bsl"
  | CN.FormModule => chars "FormModule.bsl"
  | CN.CommandModule => chars "CommandModule.bsl"
  | CN.RecordSetModule => chars "RecordSetModule.bsl"
  | CN.ValueManagerModule => chars "ValueManagerModule.bsl"
  | CN.SessionModule => chars "SessionModule.bsl"
  | CN.ExternalConnectionModule => chars "ExternalConnectionModule.bsl"
  | CN.ManagedApplicationModule => chars "ManagedApplicationModule.bsl"
  | CN.OrdinaryApplicationModule => chars "OrdinaryApplicationModule.bsl"
  | CN.ApplicationModule => chars "ApplicationModule.bsl"
  | CN.ModuleBin => chars "Module.bin"
  | CN.Ext => chars "Ext"
  | CN.Form => chars "Form"
  | CN.Forms => chars "Forms"
  | CN.Commands => chars "Commands"
  | CN.ConfigurationXml => chars "Configuration.xml"
  | CN.PredefinedXml => chars "Predefined.xml"
  | CN.RightsXml => chars "Rights.xml"
  | CN.FormXml => chars "Form.xml"
  | CN.FormJson => chars "Form.json"
  | CN.FormBin => chars "Form.bin"
  | CN.ParentConfigurationsBin => chars "ParentConfigurations.bin"
  end.

Definition canonical_stem (name : ConventionalName) : text :=
  match rsplit_once 0x2E (canonical name) with Some (stem, _) => stem | None => canonical name end.

Definition conventional_of (name : text) : option ConventionalName :=
  found ← list_find (fun c => eq_ignore_ascii_case (canonical c) name = true) ConventionalName_ALL; Some found.2.

Definition BSL_EXTENSION : text := chars "bsl".
Definition XML_EXTENSION : text := chars "xml".
Definition BIN_EXTENSION : text := chars "bin".

Definition has_extension (p : Path) (ext : text) : bool :=
  match extension p with Some e => eq_ignore_ascii_case e ext | None => false end.

Definition str_has_extension (name ext : text) : bool :=
  match rsplit_once 0x2E name with Some (_, e) => eq_ignore_ascii_case e ext | None => false end.

Definition is_conventional (found : option text) (name : ConventionalName) : bool :=
  match found with Some n => bool_decide (conventional_of n = Some name) | None => false end.

Module SegmentMatch.
Inductive t : Set := Exact | Ci | StemExactExtCi.

Definition matches (mode : t) (real candidate : text) : bool :=
  match mode with
  | Exact => bool_decide (real = candidate)
  | Ci => eq_ignore_ascii_case real candidate
  | StemExactExtCi =>
      match rsplit_once 0x2E real, rsplit_once 0x2E candidate with
      | Some (real_stem, real_ext), Some (cand_stem, cand_ext) =>
          bool_decide (real_stem = cand_stem) && eq_ignore_ascii_case real_ext cand_ext
      | None, None => bool_decide (real = candidate)
      | _, _ => false
      end
  end.
End SegmentMatch.

(** ** Roles of files *)

Definition SOURCE_EXTENSIONS : list text := [BSL_EXTENSION].
Definition FORM_SIDECAR_EXTENSION : text := chars "json".

Inductive FileRole : Set := Source | MetadataWatched | Ignored.

#[export] Instance FileRole_eq_dec : EqDecision FileRole.
Proof. solve_decision. Defined.

Definition is_form_sidecar_path (p : Path) : bool :=
  match file_name p with
  | None => false
  | Some file =>
      if bool_decide (conventional_of file = Some CN.FormJson) then
        match parent p with
        | None => false
        | Some form_dir =>
            is_conventional (file_name form_dir) CN.Form &&
            is_conventional (d ← parent form_dir; file_name d) CN.Ext
        end
      else false
  end.

Definition is_derived_queries_extract (p : Path) : bool :=
  match file_stem p with
  | None => false
  | Some stem =>
      match rsplit_once 0x2E stem with
      | Some (_, tail) => eq_ignore_ascii_case tail (chars "Queries")
      | None => false
      end
  end.

Definition file_role (p : Path) : FileRole :=
  match extension p with
  | None => Ignored
  | Some ext =>
      if existsb (fun e => eq_ignore_ascii_case ext e) SOURCE_EXTENSIONS then
        if is_derived_queries_extract p then Ignored else Source
      else if eq_ignore_ascii_case ext FORM_SIDECAR_EXTENSION then
        if is_form_sidecar_path p then MetadataWatched else Ignored
      else if eq_ignore_ascii_case ext BIN_EXTENSION then
        if is_conventional (file_name p) CN.FormBin && is_conventional (d ← parent p; file_name d) CN.Ext
        then MetadataWatched else Ignored
      else if eq_ignore_ascii_case ext XML_EXTENSION then MetadataWatched
      else Ignored
  end.

Definition is_bsl_source_path (p : Path) : bool := bool_decide (file_role p = Source).
Definition is_metadata_path (p : Path) : bool := bool_decide (file_role p = MetadataWatched).

Definition substrate_listed_family (p : Path) : option text :=
  file ← file_name p;
  if negb (bool_decide (conventional_of file = Some CN.Module)) then None
  else
    ext_dir ← parent p;
    ext ← file_name ext_dir;
    if negb (bool_decide (conventional_of ext = Some CN.Ext)) then None
    else d ← parent ext_dir; d ← parent d; file_name d.

Definition is_common_module_body_path (p : Path) : bool :=
  match substrate_listed_family p with Some f => eq_ignore_ascii_case f (chars "CommonModules") | None => false end.

Definition is_substrate_listed_body_path (p : Path) : bool :=
  match substrate_listed_family p with
  | Some family =>
      existsb (fun f => eq_ignore_ascii_case family f)
        [chars "CommonModules"; chars "HTTPServices"; chars "WebServices"; chars "IntegrationServices"]
  | None => false
  end.
