(* ===== verification/Exclusions.v ===== *)
(** Exclusions: the directories and patterns taken out of a project
    (crates/stdx/src/path_exclusion.rs), and the rules of a directory (crates/vfs/src/loader.rs). *)
From stdpp Require Import prelude strings.
From S2P Require Import Prelude Case Names Paths.

(** [Path::canonicalize], and [symlink_metadata] saying that the path is a link. *)
Class FileSystem := {
  canonicalize : Path -> option Path;
  is_symlink_at : Path -> bool;
}.

(** The globset library: what is wrong with a pattern or with a set of patterns, and whether a set
    matches. *)
Class Globs := {
  glob_error : text -> option text;
  set_error : list text -> option text;
  set_match : list text -> text -> bool;
}.

Record Patterns : Set := MkPatterns {
  declared_base : Path;
  anchors : list (Path * Path);
  glob_sources : list text;
  glob_set : list text;
}.

Record Excluded : Set := MkExcluded { declared : Path; spellings : list Path }.

Record ExcludedPaths : Set := MkExcludedPaths { entries : list Excluded; patterns : option Patterns }.

Record InvalidPattern : Set := MkInvalidPattern { pattern : text; reason : text }.

(** The cache of resolved directories. *)
Definition ResolvedDirs : Set := list (Path * Path).

Definition normalize_step (out : Path) (c : Component) : Path :=
  match c with
  | CurDir => out
  | ParentDir =>
      match last out with
      | Some (Normal _) => removelast out
      | _ => if is_absolute out then out else path_join out [ParentDir]
      end
  | other => path_join out [other]
  end.

Definition normalize_lexically (p : Path) : Path := foldl normalize_step [] p.

Definition has_dot_components (p : Path) : bool :=
  existsb (fun c => match c with CurDir | ParentDir => true | _ => false end) p.

Definition is_within (p prefix : Path) : bool := path_starts_with p prefix.

Definition same_path (left right : Path) : bool :=
  is_within left right && (length left =? length right)%nat.

Definition strip_within (p prefix : Path) : option Path :=
  if is_within p prefix then Some (drop (length prefix) p) else None.

Definition push_unique {A} `{EqDecision A} (l : list A) (x : A) : list A := if decide (x ∈ l) then l else l ++ [x].

(** [push_anchor] is the same over pairs. *)
Definition push_anchor (anchors : list (Path * Path)) (prefix relative : Path) : list (Path * Path) :=
  push_unique anchors (prefix, relative).

(** [str::split] at a character. *)
Fixpoint split_char (c : char) (s : text) : list text :=
  match s with
  | [] => [[]]
  | x :: s =>
      if (x =? c)%Z then [] :: split_char c s
      else match split_char c s with [] => [[x]] | w :: ws => (x :: w) :: ws end
  end.

Fixpoint join_text (sep : text) (ws : list text) : text :=
  match ws with
  | [] => []
  | [w] => w
  | w :: ws => w ++ sep ++ join_text sep ws
  end.

(** [str::trim_end_matches] of a character. *)
Definition trim_end_char (c : char) (s : text) : text :=
  reverse ((fix go s := match s with x :: rest => if (x =? c)%Z then go rest else s | [] => [] end) (reverse s)).

Section code.
Context `{FileSystem} `{Globs}.

(** [simplify_verbatim] does nothing on Unix. *)
Definition resolve (p : Path) : option Path := canonicalize p.

Fixpoint resolve_loop (fuel : nat) (existing missing : Path) : option Path :=
  match fuel with
  | O => None
  | S fuel =>
      match resolve existing with
      | Some resolved => Some (normalize_lexically (foldl (fun out c => path_join out [c]) resolved missing))
      | None =>
          c ← last existing;
          p ← parent existing;
          resolve_loop fuel p (c :: missing)
      end
  end.

Definition resolve_as_far_as_it_goes (p : Path) : option Path := resolve_loop (S (length p)) p [].

(** ** Patterns *)

Definition matches_relative (p : Patterns) (relative below : Path) : bool :=
  (fix go (candidate : text) (cs : Path) : bool :=
     match cs with
     | [] => false
     | Normal name :: cs =>
         let candidate := candidate ++ (match candidate with [] => [] | _ => chars "/" end) ++ name in
         set_match (glob_set p) candidate || go candidate cs
     | _ :: cs => go candidate cs
     end) [] (relative ++ below).

Definition patterns_match (p : Patterns) (path : Path) : bool :=
  existsb (fun a => match strip_within path a.1 with
                    | Some below => matches_relative p a.2 below
                    | None => false
                    end) (anchors p).

Definition matches_any_spelling (p : Patterns) (path : Path) : bool :=
  patterns_match p (if has_dot_components path then normalize_lexically path else path).

Definition patterns_respelled_under (p : Patterns) (roots : list (Path * Path)) : Patterns :=
  let anchors' := foldl (fun acc root =>
    foldl (fun acc a =>
      let acc := match strip_within root.2 a.1 with
                 | Some below => push_anchor acc root.1 (path_join a.2 below) | None => acc end in
      let acc := match strip_within root.1 a.1 with
                 | Some below => push_anchor acc root.2 (path_join a.2 below) | None => acc end in
      if bool_decide (a.2 = []) then
        match strip_within a.1 root.2 with
        | Some below => push_anchor acc (path_join root.1 below) []
        | None => acc
        end
      else acc) acc (anchors p)) (anchors p) roots in
  MkPatterns (declared_base p) anchors' (glob_sources p) (glob_set p).

(** What a pattern is compiled as, or why it is refused. *)
Definition anchored_pattern (pattern : text) : InvalidPattern + text :=
  let invalid r := inl (MkInvalidPattern pattern r) in
  let trimmed := trim pattern in
  match trimmed with
  | [] => invalid (chars "must not be empty")
  | _ =>
      if starts_with trimmed (chars "!") then
        invalid (chars "is a negation; negated patterns are not supported")
      else
        let normalized := replace_char 0x5C 0x2F trimmed in
        if starts_with normalized (chars "/") then invalid (chars "must be relative to the config file")
        else
          let normalized := trim_end_char 0x2F normalized in
          let has_separator := bool_decide (0x2F%Z ∈ normalized) in
          let segments := filter (fun s => s <> [] /\ s <> chars ".") (split_char 0x2F normalized) in
          if bool_decide (segments = []) || bool_decide (chars ".." ∈ segments) then
            invalid (chars "must name a path inside the config directory, without `..`")
          else
            let normalized := join_text (chars "/") segments in
            let anchored := if has_separator : bool then normalized else chars "**/" ++ normalized in
            match glob_error anchored with
            | Some kind => invalid (chars "is not a valid glob: " ++ kind)
            | None => inr anchored
            end
  end.

Fixpoint anchored_patterns (ps : list text) : InvalidPattern + list text :=
  match ps with
  | [] => inr []
  | p :: ps =>
      match anchored_pattern p with
      | inl e => inl e
      | inr g => match anchored_patterns ps with inl e => inl e | inr gs => inr (g :: gs) end
      end
  end.

Definition with_patterns (self : ExcludedPaths) (base : Path) (ps : list text) : InvalidPattern + ExcludedPaths :=
  match anchored_patterns ps with
  | inl e => inl e
  | inr [] => inr self
  | inr globs =>
      match set_error globs with
      | Some kind => inl (MkInvalidPattern (join_text (chars ", ") ps) (chars "cannot be compiled: " ++ kind))
      | None =>
          let declared_base := normalize_lexically base in
          let anchors := [(declared_base, [])] in
          let anchors := match resolve_as_far_as_it_goes declared_base with
                         | Some resolved => push_anchor anchors resolved []
                         | None => anchors
                         end in
          inr (MkExcludedPaths (entries self) (Some (MkPatterns declared_base anchors ps globs)))
      end
  end.

(** ** The set *)

(** [ExcludedPaths::new]. *)
Definition ExcludedPaths_new (paths : list Path) : ExcludedPaths :=
  MkExcludedPaths
    (foldl (fun entries p =>
       let d := normalize_lexically p in
       if existsb (fun e => bool_decide (declared e = d)) entries then entries
       else
         let spellings := match resolve_as_far_as_it_goes d with
                          | Some resolved => push_unique [d] resolved
                          | None => [d]
                          end in
         entries ++ [MkExcluded d spellings]) [] paths) None.

Definition excluded_is_empty (self : ExcludedPaths) : bool :=
  match entries self, patterns self with [], None => true | _, _ => false end.

Definition any_spelling (self : ExcludedPaths) (test : Path -> bool) : bool :=
  existsb (fun e => existsb test (spellings e)) (entries self).

Definition patterns_exclude (self : ExcludedPaths) (p : Path) : bool :=
  match patterns self with Some ps => matches_any_spelling ps p | None => false end.

Definition is_excluded (self : ExcludedPaths) (p : Path) : bool :=
  if excluded_is_empty self then false
  else if any_spelling self (fun s => is_within p s) then true
  else if patterns_exclude self p then true
  else has_dot_components p &&
       let normalized := normalize_lexically p in any_spelling self (fun s => is_within normalized s).

Definition is_excluded_resolved (self : ExcludedPaths) (p : Path) : bool :=
  is_excluded self p ||
  (negb (excluded_is_empty self) &&
   match resolve_as_far_as_it_goes p with Some resolved => is_excluded self resolved | None => false end).

Definition respelled_under (self : ExcludedPaths) (roots : list Path) : ExcludedPaths :=
  let roots := (fun root => (root, default (normalize_lexically root) (canonicalize root))) <$> roots in
  MkExcludedPaths
    ((fun e => MkExcluded (declared e)
       (foldl (fun acc root =>
          foldl (fun acc s => match strip_within s root.2 with
                              | Some relative => push_unique acc (path_join root.1 relative)
                              | None => acc
                              end) acc (spellings e)) (spellings e) roots)) <$> entries self)
    ((fun ps => patterns_respelled_under ps roots) <$> patterns self).

Definition excludes_walked_file (self : ExcludedPaths) (p : Path) (resolved : ResolvedDirs) : bool * ResolvedDirs :=
  match patterns self with
  | None => (false, resolved)
  | Some ps =>
      if matches_any_spelling ps p then (true, resolved)
      else
        match parent p, file_name p with
        | Some dir, Some name =>
            match assoc_get dir resolved with
            | Some dir' => (matches_any_spelling ps (path_join dir' [Normal name]), resolved)
            | None =>
                let dir' := default dir (resolve_as_far_as_it_goes dir) in
                (matches_any_spelling ps (path_join dir' [Normal name]), assoc_set dir dir' resolved)
            end
        | _, _ => (false, resolved)
        end
  end.

Definition prunes_walked_dir (self : ExcludedPaths) (p : Path) (is_symlink : bool) (resolved : ResolvedDirs)
    : bool * ResolvedDirs :=
  if excluded_is_empty self then (false, resolved)
  else if is_excluded self p then (true, resolved)
  else
    let from_parent :=
      dir ← parent p; dir' ← assoc_get dir resolved; name ← file_name p; Some (path_join dir' [Normal name]) in
    let canonical := match is_symlink, from_parent with
                     | false, Some canonical => canonical
                     | _, _ => default p (canonicalize p)
                     end in
    (is_excluded self canonical, assoc_set p canonical resolved).

Definition is_excluded_resolving (self : ExcludedPaths) (p : Path) (resolved : ResolvedDirs) : bool * ResolvedDirs :=
  if excluded_is_empty self then (false, resolved)
  else if is_excluded self p then (true, resolved)
  else if is_symlink_at p then
    (match canonicalize p with Some canonical => is_excluded self canonical | None => false end, resolved)
  else
    match parent p, file_name p with
    | Some dir, Some name =>
        match assoc_get dir resolved with
        | Some dir' => (is_excluded self (path_join dir' [Normal name]), resolved)
        | None =>
            let dir' := default dir (resolve_as_far_as_it_goes dir) in
            (is_excluded self (path_join dir' [Normal name]), assoc_set dir dir' resolved)
        end
    | _, _ => (false, resolved)
    end.

Definition has_exclusion_below (self : ExcludedPaths) (dir : Path) : bool :=
  match entries self with
  | [] => false
  | _ =>
      let below dir := any_spelling self (fun s => is_within s dir && negb (same_path s dir)) in
      below dir || (has_dot_components dir && below (normalize_lexically dir))
  end.

Definition has_exclusion_below_resolved (self : ExcludedPaths) (dir : Path) : bool :=
  has_exclusion_below self dir ||
  match entries self with
  | [] => false
  | _ => match resolve_as_far_as_it_goes dir with Some resolved => has_exclusion_below self resolved | None => false end
  end.

(** ** The rules of a directory *)

Inductive LoadMode : Set := LoadContent | WatchOnly.

Record FileRule : Set := MkFileRule { rule_extensions : list text; load_mode : LoadMode }.

Record Directories : Set := MkDirectories {
  extensions : list text;
  include : list Path;
  exclude : list Path;
  hard_exclude : ExcludedPaths;
  rules : list FileRule;
}.

Inductive Entry : Set :=
  | Files (files : list Path)
  | WatchOnlyFiles (files : list Path)
  | DirectoriesEntry (dirs : Directories).

Definition is_hard_excluded (self : Directories) (p : Path) : bool := is_excluded (hard_exclude self) p.

(** The most specific include the path lies in. *)
Definition most_specific (self : Directories) (p : Path) : option Path :=
  foldl (fun (found : option Path) incl =>
    if path_starts_with p incl then
      Some (match found with
            | Some prev => if path_starts_with prev incl then prev else incl
            | None => incl
            end)
    else found) None (include self).

Definition includes_path (self : Directories) (p : Path) : bool :=
  if is_hard_excluded self p then false
  else
    match most_specific self p with
    | None => false
    | Some incl => negb (existsb (fun excl => path_starts_with p excl && path_starts_with excl incl) (exclude self))
    end.

Definition classify_file (self : Directories) (p : Path) : option LoadMode :=
  if negb (includes_path self p) then None
  else
    let ext := default [] (extension p) in
    if existsb (fun it => eq_ignore_ascii_case it ext) (extensions self) then Some LoadContent
    else
      found ← list_find (fun rule => existsb (fun it => eq_ignore_ascii_case it ext) (rule_extensions rule) = true) (rules self);
      Some (load_mode found.2).

Definition dirs_contains_file (self : Directories) (p : Path) : bool :=
  match classify_file self p with Some _ => true | None => false end.

Definition dirs_contains_dir (self : Directories) (p : Path) : bool := includes_path self p.

Definition contains_file (self : Entry) (p : Path) : bool :=
  match self with
  | Files files | WatchOnlyFiles files => bool_decide (p ∈ files)
  | DirectoriesEntry dirs => dirs_contains_file dirs p
  end.

Definition contains_dir (self : Entry) (p : Path) : bool :=
  match self with
  | Files _ | WatchOnlyFiles _ => false
  | DirectoriesEntry dirs => dirs_contains_dir dirs p
  end.
End code.
