(* ===== verification/Vfs.v ===== *)
(** Vfs: the virtual file system, which interns paths as ids of files and merges what happened to
    each file between two drains (crates/vfs/src/lib.rs, path_interner.rs, file_set.rs). *)
From stdpp Require Import prelude.
From S2P Require Import Prelude Paths.

(** [stdx::hash_once] of the rustc_hash library. *)
Class Hasher := hash_once : text -> N.

(** [VfsPath] wraps a path; two are equal when their components are. *)
Abbreviation VfsPath := Path.

Record FileId : Set := MkFileId { index : N }.

#[export] Instance FileId_eq_dec : EqDecision FileId.
Proof. solve_decision. Defined.

Definition U32_MODULUS : N := 4294967296.

(** [as u32] of an index of a vector, and back. *)
Definition id_of_index (idx : nat) : FileId := MkFileId (N.of_nat idx mod U32_MODULUS).
Definition index_of_id (id : FileId) : nat := N.to_nat (index id).

(** ** The interner: an [IndexSet], the order of insertion gives the index *)

Definition PathInterner : Set := list VfsPath.

Definition get_index_of (i : PathInterner) (p : VfsPath) : option nat := fst <$> list_find (fun q => q = p) i.

(** [intern]: the id and the interner after. *)
Definition intern (i : PathInterner) (p : VfsPath) : FileId * PathInterner :=
  match get_index_of i p with
  | Some idx => (id_of_index idx, i)
  | None => (id_of_index (length i), i ++ [p])
  end.

Definition interner_get (i : PathInterner) (p : VfsPath) : option FileId := id_of_index <$> get_index_of i p.

(** [None] where the index panics. *)
Definition interner_lookup (i : PathInterner) (id : FileId) : option VfsPath := i !! index_of_id id.

(** ** Changes *)

Inductive FileState : Set := Exists (hash : N) | Deleted | WatchOnly.

Inductive ChangeKind : Set := KCreate | KModify | KDelete.

Inductive Change : Set :=
  | Create (content : text) (hash : N)
  | Modify (content : text) (hash : N)
  | Delete.

Definition kind (c : Change) : ChangeKind :=
  match c with Create _ _ => KCreate | Modify _ _ => KModify | Delete => KDelete end.

Definition content (c : Change) : option text :=
  match c with Create t _ | Modify t _ => Some t | Delete => None end.

Definition hash (c : Change) : option N :=
  match c with Create _ h | Modify _ h => Some h | Delete => None end.

Record ChangedFile : Set := MkChangedFile { file_id : FileId; change : Change }.

Definition merge_changes (old new : Change) : Change :=
  match old, new with
  | Create _ _, Create text hash | Create _ _, Modify text hash => Create text hash
  | Create _ _, Delete => Delete
  | Modify _ _, Modify text hash => Modify text hash
  | Modify _ _, Delete => Delete
  | Delete, Create text hash => Modify text hash
  | _, _ => new
  end.

(** ** The virtual file system *)

Record Vfs : Set := MkVfs {
  interner : PathInterner;
  data : list FileState;
  changes : list (FileId * ChangedFile);
}.

Definition Vfs_new : Vfs := MkVfs [] [] [].

Definition get_state (v : Vfs) (id : FileId) : FileState := default Deleted (data v !! index_of_id id).

Definition set_state (v : Vfs) (id : FileId) (s : FileState) : Vfs :=
  MkVfs (interner v) (<[index_of_id id := s]> (data v)) (changes v).

(** The [while] loop pushes until the index is inside. *)
Definition alloc_file_id (v : Vfs) (p : VfsPath) : FileId * Vfs :=
  let (id, i) := intern (interner v) p in
  (id, MkVfs i (data v ++ replicate (S (index_of_id id) - length (data v)) Deleted) (changes v)).

Definition record_change (v : Vfs) (id : FileId) (c : Change) : Vfs :=
  MkVfs (interner v) (data v)
    (match assoc_get id (changes v) with
     | Some existing => assoc_set id (MkChangedFile (file_id existing) (merge_changes (change existing) c)) (changes v)
     | None => assoc_set id (MkChangedFile id c) (changes v)
     end).

Section code.
Context `{Hasher}.

Definition set_file_contents (v : Vfs) (p : VfsPath) (contents : option text) : bool * Vfs :=
  let (id, v) := alloc_file_id v p in
  match get_state v id, contents with
  | Exists old_hash, Some t =>
      let new_hash := hash_once t in
      if (new_hash =? old_hash)%N then (false, v)
      else (true, record_change (set_state v id (Exists new_hash)) id (Modify t new_hash))
  | Exists _, None => (true, record_change (set_state v id Deleted) id Delete)
  | Deleted, Some t | WatchOnly, Some t =>
      let new_hash := hash_once t in
      (true, record_change (set_state v id (Exists new_hash)) id (Create t new_hash))
  | Deleted, None => (false, v)
  | WatchOnly, None => (false, set_state v id Deleted)
  end.
End code.

Definition register_watch_only (v : Vfs) (p : VfsPath) : FileId * Vfs :=
  let (id, v) := alloc_file_id v p in
  (id, match get_state v id with Deleted => set_state v id WatchOnly | _ => v end).

Definition vfs_file_id (v : Vfs) (p : VfsPath) : option FileId := interner_get (interner v) p.

Definition unregister_watch_only (v : Vfs) (p : VfsPath) : Vfs :=
  match vfs_file_id v p with
  | None => v
  | Some id => match get_state v id with WatchOnly => set_state v id Deleted | _ => v end
  end.

Definition take_changes (v : Vfs) : list ChangedFile * Vfs := ((changes v).*2, MkVfs (interner v) (data v) []).

(** The number of changes and the bytes they hold. *)
Definition pending_change_bytes (v : Vfs) : nat * Z :=
  (length (changes v),
   foldr (fun c n => match change c.2 with Create t _ | Modify t _ => str_len t | Delete => 0 end + n)%Z 0%Z (changes v)).

Definition vfs_file_path (v : Vfs) (id : FileId) : option VfsPath := interner_lookup (interner v) id.

Definition vfs_exists (v : Vfs) (id : FileId) : bool :=
  match get_state v id with Exists _ | WatchOnly => true | Deleted => false end.

Definition num_file_ids (v : Vfs) : N := N.of_nat (length (data v)) mod U32_MODULUS.

(** ** Sets of files *)

Record FileSet : Set := MkFileSet {
  files : list (VfsPath * FileId);
  paths : list (FileId * VfsPath);
}.

Definition FileSet_new : FileSet := MkFileSet [] [].

Definition fs_len (s : FileSet) : nat := length (files s).
Definition fs_is_empty (s : FileSet) : bool := match files s with [] => true | _ => false end.

Definition fs_insert (s : FileSet) (id : FileId) (p : VfsPath) : FileSet :=
  MkFileSet (assoc_set p id (files s)) (assoc_set id p (paths s)).

Definition file_for_path (s : FileSet) (p : VfsPath) : option FileId := assoc_get p (files s).
Definition path_for_file (s : FileSet) (id : FileId) : option VfsPath := assoc_get id (paths s).
Definition fs_iter (s : FileSet) : list FileId := (paths s).*1.

Definition fs_remove (s : FileSet) (id : FileId) : option VfsPath * FileSet :=
  match assoc_get id (paths s) with
  | None => (None, s)
  | Some p => (Some p, MkFileSet (assoc_remove p (files s)) (assoc_remove id (paths s)))
  end.
