(* ===== verification/VfsSpec.v ===== *)
(** VfsSpec: what the drains of the virtual file system hand to a consumer
    (crates/vfs/src/lib.rs, file_set.rs). *)
From stdpp Require Import functions prelude.
From S2P Require Import Prelude Paths Vfs.

(** ** A consumer beside the virtual file system *)

(** What happens to the virtual file system. *)
Inductive VfsOp : Set :=
  | OpSet (p : VfsPath) (contents : option text)
  | OpRegister (p : VfsPath)
  | OpUnregister (p : VfsPath)
  | OpDrain.

(** The consumer holds a text for each file it knows; [written] is the last content of each path. *)
Record World : Type := MkWorld {
  vfs : Vfs;
  held : FileId -> option text;
  written : VfsPath -> option text;
}.

Definition world0 : World := MkWorld Vfs_new (fun _ => None) (fun _ => None).

Definition deliver (held : FileId -> option text) (f : ChangedFile) : FileId -> option text :=
  <[file_id f := content (change f)]> held.

Definition vfs_step `{Hasher} (w : World) (o : VfsOp) : World :=
  match o with
  | OpSet p contents => MkWorld (set_file_contents (vfs w) p contents).2 (held w) (<[p := contents]> (written w))
  | OpRegister p => MkWorld (register_watch_only (vfs w) p).2 (held w) (written w)
  | OpUnregister p => MkWorld (unregister_watch_only (vfs w) p) (held w) (written w)
  | OpDrain => let (drained, v) := take_changes (vfs w) in MkWorld v (foldl deliver (held w) drained) (written w)
  end.

Definition vfs_run `{Hasher} (ops : list VfsOp) : World := foldl vfs_step world0 ops.

Definition fits (v : Vfs) : Prop := (N.of_nat (length (interner v)) <= U32_MODULUS)%N.

Lemma index_id_of idx : (N.of_nat idx < U32_MODULUS)%N -> index_of_id (id_of_index idx) = idx.
Proof. intros ?. unfold index_of_id, id_of_index; simpl. rewrite N.mod_small by done. lia. Qed.

Lemma fits_index v idx p : fits v -> interner v !! idx = Some p -> index_of_id (id_of_index idx) = idx.
Proof. unfold fits. intros ? ?%lookup_lt_Some. apply index_id_of. lia. Qed.

Lemma get_index_of_Some i p idx : get_index_of i p = Some idx -> i !! idx = Some p.
Proof. unfold get_index_of. intros ([n q] & E & [= ->])%fmap_Some_1.
  apply list_find_Some in E as (Hq & -> & _). done. Qed.

Lemma get_index_of_None i p : get_index_of i p = None -> p ∉ i.
Proof.
  unfold get_index_of. intros Hf%fmap_None Hp. apply list_find_None in Hf.
  apply list_elem_of_lookup_1 in Hp as [n Hn]. by eapply Forall_lookup_1 in Hf; [|exact Hn].
Qed.

(** ** The invariant *)

Definition pending (v : Vfs) (id : FileId) : option Change := change <$> assoc_get id (changes v).

(** What the consumer will hold after a drain. *)
Definition effective (pend : option Change) (h : option text) : option text :=
  match pend with Some c => content c | None => h end.

Section inv.
Context `{Hasher}.

(** A file: its state, the change recorded of it, what the consumer holds and what was written. *)
Record cell (s : FileState) (pend : option Change) (h last : option text) : Prop := MkCell {
  cell_last : hash_once <$> effective pend h = hash_once <$> last;
  cell_state : match s with Exists n => hash_once <$> effective pend h = Some n | _ => effective pend h = None end;
  cell_create : forall t n, pend = Some (Create t n) -> h = None;
}.

Record inv (seen : VfsPath -> text -> Prop) (w : World) : Prop := MkInv {
  inv_len : length (data (vfs w)) = length (interner (vfs w));
  inv_nodup : NoDup (interner (vfs w));
  inv_wf : assoc_wf (changes (vfs w));
  inv_ids : forall id f, assoc_get id (changes (vfs w)) = Some f -> file_id f = id;
  inv_fresh : forall id, length (interner (vfs w)) <= index_of_id id -> pending (vfs w) id = None /\ held w id = None;
  inv_unseen : forall p, p ∉ interner (vfs w) -> written w p = None;
  inv_cell : forall idx p s, interner (vfs w) !! idx = Some p -> data (vfs w) !! idx = Some s ->
    let id := id_of_index idx in cell s (pending (vfs w) id) (held w id) (written w p);
  inv_seen : forall idx p t, interner (vfs w) !! idx = Some p ->
    effective (pending (vfs w) (id_of_index idx)) (held w (id_of_index idx)) = Some t -> seen p t;
}.

Lemma inv_world0 seen : inv seen world0.
Proof. split; try done; constructor. Qed.

Lemma inv_weaken (seen seen' : VfsPath -> text -> Prop) w : (forall p t, seen p t -> seen' p t) -> inv seen w -> inv seen' w.
Proof. intros Hs []. split; eauto. Qed.

(** *** Allocation *)

Lemma alloc_get v p id v' :
  length (data v) = length (interner v) -> fits v' -> alloc_file_id v p = (id, v') ->
  interner v' !! index_of_id id = Some p /\ id = id_of_index (index_of_id id).
Proof.
  unfold alloc_file_id, intern. intros Hlen Hf E. destruct (get_index_of (interner v) p) as [idx|] eqn:Eg.
  - injection E as <- <-. apply get_index_of_Some in Eg. by rewrite !(fits_index _ _ _ Hf Eg).
  - injection E as <- <-. unfold fits in Hf. simpl in *. rewrite length_app in Hf. simpl in Hf.
    rewrite !index_id_of by lia. split; [by apply list_lookup_middle|done].
Qed.

Lemma inv_alloc seen w p id v' :
  inv seen w -> fits v' -> alloc_file_id (vfs w) p = (id, v') -> inv seen (MkWorld v' (held w) (written w)).
Proof.
  intros I Hf E. unfold alloc_file_id, intern in E.
  destruct (get_index_of (interner (vfs w)) p) as [idx|] eqn:Eg; injection E as <- <-.
  - apply get_index_of_Some in Eg as Hl. assert (S (index_of_id (id_of_index idx)) - length (data (vfs w)) = 0) as ->.
    { apply lookup_lt_Some in Hl as ?. rewrite (inv_len _ _ I), (fits_index (vfs w) idx p) by done. lia. }
    rewrite app_nil_r. destruct I. by split.
  - unfold fits in Hf. simpl in Hf. rewrite length_app in Hf. simpl in Hf.
    pose proof (get_index_of_None _ _ Eg) as Hn. rewrite index_id_of, (inv_len _ _ I) by lia.
    replace (S (length (interner (vfs w))) - length (interner (vfs w))) with 1 by lia. simpl.
    destruct I as [Hlen Hnd Hwf Hids Hfresh Hun Hcell Hseen]. split; simpl; try done.
    + rewrite !length_app. simpl. lia.
    + apply NoDup_app. split; [done|]. split; [|apply NoDup_singleton]. by intros x ? ->%list_elem_of_singleton.
    + intros id. rewrite length_app. simpl. intros ?. apply Hfresh. lia.
    + intros q [Hq _]%not_elem_of_app. by apply Hun.
    + intros idx q s [Hq|[Hi Hq]]%lookup_app_Some Hs; apply lookup_app_Some in Hs as [Hs|[Hi' Hs]].
      * by apply Hcell.
      * apply lookup_lt_Some in Hq. lia.
      * apply lookup_lt_Some in Hs. lia.
      * assert (idx = length (interner (vfs w))) as ->. { apply lookup_lt_Some in Hq. simpl in Hq. lia. }
        rewrite Nat.sub_diag in Hq. injection Hq as <-. rewrite Hlen, Nat.sub_diag in Hs. injection Hs as <-.
        destruct (Hfresh (id_of_index (length (interner (vfs w))))) as [Hp Hh]. { rewrite index_id_of by lia. lia. }
        unfold pending in *; simpl in *. rewrite Hp, Hh, Hun by done. by split.
    + intros idx q t [Hq|[Hi Hq]]%lookup_app_Some Ht; [by eapply Hseen|].
      assert (idx = length (interner (vfs w))) as ->. { apply lookup_lt_Some in Hq. simpl in Hq. lia. }
      destruct (Hfresh (id_of_index (length (interner (vfs w))))) as [Hp Hh]. { rewrite index_id_of by lia. lia. }
      unfold pending in *; simpl in *. by rewrite Hp, Hh in Ht.
Qed.
(** *** Changes of one file *)

(** The interner is injective, so what happens to one path leaves the cells of the others. *)
Lemma inv_update seen w v' p idx s' last' :
  inv seen w -> fits (vfs w) -> interner (vfs w) !! idx = Some p -> interner v' = interner (vfs w) ->
  data v' = <[idx := s']> (data (vfs w)) -> assoc_wf (changes v') ->
  (forall id f, assoc_get id (changes v') = Some f -> file_id f = id) ->
  (forall id, id <> id_of_index idx -> pending v' id = pending (vfs w) id) ->
  cell s' (pending v' (id_of_index idx)) (held w (id_of_index idx)) last' ->
  (forall t, effective (pending v' (id_of_index idx)) (held w (id_of_index idx)) = Some t -> seen p t) ->
  inv seen (MkWorld v' (held w) (<[p := last']> (written w))).
Proof.
  intros I Hf Hp Ei Ed Hwf Hids Hother Hc Hs. pose proof (fits_index _ _ _ Hf Hp) as Hidx.
  destruct I as [Hlen Hnd _ _ Hfresh Hun Hcell Hseen].
  assert (forall i q, interner (vfs w) !! i = Some q -> i <> idx -> q <> p /\ id_of_index i <> id_of_index idx) as Hne.
  { intros i q Hq Hi. split; [intros ->; apply Hi; exact (NoDup_lookup _ _ _ _ Hnd Hq Hp)|].
    intros E%(f_equal index_of_id). by rewrite Hidx, (fits_index _ _ _ Hf Hq) in E. }
  split; simpl; rewrite ?Ei, ?Ed; try done.
  - by rewrite length_insert.
  - intros id Hid. rewrite Hother; [by apply Hfresh|]. intros ->. apply lookup_lt_Some in Hp. lia.
  - intros q Hq. rewrite fn_lookup_insert_ne; [by apply Hun|]. intros ->. apply Hq. exact (list_elem_of_lookup_2 _ _ _ Hp).
  - intros i q s Hq Hs'. destruct (decide (i = idx)) as [->|Hi].
    + assert (q = p) as -> by congruence. rewrite fn_lookup_insert.
      apply list_lookup_insert_Some in Hs' as [(_ & <- & _)|(? & _)]; done.
    + destruct (Hne i q Hq Hi) as [Hqp Hid]. rewrite fn_lookup_insert_ne, Hother by done.
      apply Hcell; [done|]. by rewrite list_lookup_insert_ne in Hs'.
  - intros i q t Hq. destruct (decide (i = idx)) as [->|Hi].
    + assert (q = p) as -> by congruence. apply Hs.
    + destruct (Hne i q Hq Hi) as [_ Hid]. rewrite Hother by done. by apply Hseen.
Qed.

Lemma pending_record v id c id' :
  pending (record_change v id c) id' =
  if decide (id = id') then Some (match pending v id with Some o => merge_changes o c | None => c end) else pending v id'.
Proof.
  unfold pending, record_change; simpl. destruct (assoc_get id (changes v)) as [f|] eqn:E; rewrite assoc_get_set; by case_decide.
Qed.

Lemma record_ids v id c :
  (forall i f, assoc_get i (changes v) = Some f -> file_id f = i) ->
  forall i f, assoc_get i (changes (record_change v id c)) = Some f -> file_id f = i.
Proof.
  intros Hids i f. unfold record_change; simpl. destruct (assoc_get id (changes v)) as [g|] eqn:E; rewrite assoc_get_set;
    case_decide as Hd; try apply Hids; intros [= <-]; simpl; subst; [by apply Hids|done].
Qed.

Lemma record_wf v id c : assoc_wf (changes v) -> assoc_wf (changes (record_change v id c)).
Proof. unfold record_change; simpl. intros. case_match; by apply assoc_set_wf. Qed.

(** Whatever was recorded, the merge has the content of the newer change, and creates only for a
    consumer without the file. *)
Lemma effective_merge o c h : effective (Some (match o with Some o => merge_changes o c | None => c end)) h = content c.
Proof. by destruct o as [[]|], c. Qed.

Lemma inv_lookup seen w idx p :
  inv seen w -> interner (vfs w) !! idx = Some p -> exists s, data (vfs w) !! idx = Some s.
Proof. intros I Hp. apply lookup_lt_is_Some. rewrite (inv_len _ _ I). exact (lookup_lt_Some _ _ _ Hp). Qed.
(** *** The operations *)

(** A change of the state and the record of it. *)
Lemma inv_record seen w p idx s' c last' :
  inv seen w -> fits (vfs w) -> interner (vfs w) !! idx = Some p ->
  let id := id_of_index idx in
  let c' := match pending (vfs w) id with Some o => merge_changes o c | None => c end in
  hash_once <$> content c = hash_once <$> last' ->
  match s' with Exists n => hash_once <$> content c = Some n | _ => content c = None end ->
  (forall t n, c' = Create t n -> held w id = None) ->
  (forall t, content c = Some t -> seen p t) ->
  inv seen (MkWorld (record_change (set_state (vfs w) id s') id c) (held w) (<[p := last']> (written w))).
Proof.
  intros I Hf Hp id c' Hlast Hs' Hc' Hseen.
  apply (inv_update seen w _ p idx s'); try done.
  - subst id. change (<[index_of_id (id_of_index idx) := s']> (data (vfs w)) = <[idx := s']> (data (vfs w))).
    by rewrite (fits_index _ _ _ Hf Hp).
  - apply record_wf, I.
  - apply record_ids, I.
  - intros i Hi. rewrite pending_record, decide_False by done. done.
  - rewrite pending_record, decide_True by done. fold id.
    change (pending (set_state (vfs w) id s') id) with (pending (vfs w) id).
    split; rewrite ?effective_merge; try done. intros t n [= E]. by eapply Hc'.
  - rewrite pending_record, decide_True by done. intros t. rewrite effective_merge. apply Hseen.
Qed.

(** Nothing is recorded: the state may change between two that hold no content. *)
Lemma inv_silent seen w p idx s s' last' :
  inv seen w -> fits (vfs w) -> interner (vfs w) !! idx = Some p -> data (vfs w) !! idx = Some s ->
  let id := id_of_index idx in
  cell s' (pending (vfs w) id) (held w id) last' ->
  inv seen (MkWorld (set_state (vfs w) id s') (held w) (<[p := last']> (written w))).
Proof.
  intros I Hf Hp Hd id Hc. apply (inv_update seen w _ p idx s'); try done; try apply I; [|intros t; by apply (inv_seen _ _ I)].
  subst id. simpl. by rewrite (fits_index _ _ _ Hf Hp).
Qed.

Lemma get_state_idx v idx p s :
  fits v -> interner v !! idx = Some p -> data v !! idx = Some s -> get_state v (id_of_index idx) = s.
Proof. intros Hf Hp Hs. unfold get_state. by rewrite (fits_index _ _ _ Hf Hp), Hs. Qed.

Lemma set_state_same v idx p s :
  fits v -> interner v !! idx = Some p -> data v !! idx = Some s -> set_state v (id_of_index idx) s = v.
Proof.
  intros Hf Hp Hs. unfold set_state. rewrite (fits_index _ _ _ Hf Hp), list_insert_id by done. by destruct v.
Qed.

(** A change that creates is recorded only of a file the consumer lacks. *)
Lemma create_lacks s pend h last t n t' n' :
  cell s pend h last -> s = Deleted \/ s = WatchOnly ->
  (match pend with Some o => merge_changes o (Create t n) | None => Create t n end) = Create t' n' -> h = None.
Proof.
  intros [_ Hs Hc] Hd E. assert (effective pend h = None) as He by (by destruct Hd as [-> | ->]).
  destruct pend as [[]|]; simpl in *; [by eapply Hc|done..].
Qed.

Lemma modify_lacks s pend h last t n t' n' :
  cell s pend h last ->
  (match pend with Some o => merge_changes o (Modify t n) | None => Modify t n end) = Create t' n' -> h = None.
Proof. intros [_ _ Hc] E. destruct pend as [[]|]; simpl in *; [by eapply Hc|done..]. Qed.

Lemma inv_set seen w p contents :
  let w' := vfs_step w (OpSet p contents) in
  inv seen w -> fits (vfs w') -> (forall t, contents = Some t -> seen p t) -> inv seen w'.
Proof.
  intros w' I Hf Hseen. subst w'. simpl in *. unfold set_file_contents in *.
  destruct (alloc_file_id (vfs w) p) as [id v1] eqn:Ea.
  assert (fits v1) as Hf1.
  { revert Hf. destruct (get_state v1 id), contents; simpl; try case_match; exact (fun H => H). }
  pose proof (inv_alloc _ _ _ _ _ I Hf1 Ea) as I1. destruct (alloc_get _ _ _ _ (inv_len _ _ I) Hf1 Ea) as [Hp Eid].
  set (idx := index_of_id id) in *. set (w1 := MkWorld v1 (held w) (written w)) in *.
  destruct (inv_lookup _ _ _ _ I1 Hp) as [s Hs]. pose proof (inv_cell _ _ I1 _ _ _ Hp Hs) as Hc. clear Hf.
  rewrite Eid, (get_state_idx _ _ _ _ Hf1 Hp Hs). simpl in Hc.
  destruct s as [old| |], contents as [t|]; simpl.
  - destruct (N.eqb_spec (hash_once t) old) as [Eh|Eh].
    + rewrite <- (set_state_same _ _ _ _ Hf1 Hp Hs). apply (inv_silent seen w1 p idx (Exists old)); try done.
      destruct Hc as [H1 H2 H3]. split; try done. simpl. by rewrite Eh.
    + apply (inv_record seen w1); try done. intros ??. by eapply modify_lacks.
  - apply (inv_record seen w1); try done. intros t n E. by destruct (pending _ _) as [[]|].
  - apply (inv_record seen w1); try done.
    intros t' n'. eapply create_lacks; [exact Hc|by left].
  - rewrite <- (set_state_same _ _ _ _ Hf1 Hp Hs). apply (inv_silent seen w1 p idx Deleted); try done.
    destruct Hc as [H1 H2 H3]. split; try done. exact (f_equal (fmap hash_once) H2).
  - apply (inv_record seen w1); try done.
    intros t' n'. eapply create_lacks; [exact Hc|by right].
  - apply (inv_silent seen w1 p idx WatchOnly); try done. destruct Hc as [H1 H2 H3]. split; try done. exact (f_equal (fmap hash_once) H2).
Qed.

Lemma inv_written seen w f : (forall p, f p = written w p) -> inv seen w -> inv seen (MkWorld (vfs w) (held w) f).
Proof. intros E I. destruct I as [? ? ? ? ? ? Hc ?]. split; simpl; try done; [intros; rewrite E; auto|intros; rewrite E; by apply Hc]. Qed.

(** The state of a file without content changes to another such state. *)
Lemma inv_watch seen w p idx s s' :
  inv seen w -> fits (vfs w) -> interner (vfs w) !! idx = Some p -> data (vfs w) !! idx = Some s ->
  (forall n, s <> Exists n) -> (forall n, s' <> Exists n) ->
  inv seen (MkWorld (set_state (vfs w) (id_of_index idx) s') (held w) (written w)).
Proof.
  intros I Hf Hp Hs Hn Hn'. pose proof (inv_cell _ _ I _ _ _ Hp Hs) as Hc.
  assert (cell s' (pending (vfs w) (id_of_index idx)) (held w (id_of_index idx)) (written w p)) as Hc'.
  { destruct Hc as [H1 H2 H3]. split; try done. destruct s as [n| |]; [by destruct (Hn n)|..]; destruct s' as [n| |]; try done; by destruct (Hn' n). }
  pose proof (inv_silent seen w p idx s s' _ I Hf Hp Hs Hc') as I'. revert I'.
  apply (inv_written seen (MkWorld _ _ (<[p := written w p]> (written w)))). simpl. intros q.
  destruct (decide (q = p)) as [->|]; [by rewrite fn_lookup_insert|by rewrite fn_lookup_insert_ne].
Qed.

Lemma inv_register seen w p :
  let w' := vfs_step w (OpRegister p) in inv seen w -> fits (vfs w') -> inv seen w'.
Proof.
  intros w' I Hf. subst w'. simpl in *. unfold register_watch_only in *.
  destruct (alloc_file_id (vfs w) p) as [id v1] eqn:Ea.
  assert (fits v1) as Hf1 by (revert Hf; simpl; case_match; exact (fun H => H)).
  pose proof (inv_alloc _ _ _ _ _ I Hf1 Ea) as I1. destruct (alloc_get _ _ _ _ (inv_len _ _ I) Hf1 Ea) as [Hp Eid].
  set (w1 := MkWorld v1 (held w) (written w)) in *. destruct (inv_lookup _ _ _ _ I1 Hp) as [s Hs].
  rewrite Eid, (get_state_idx _ _ _ _ Hf1 Hp Hs). destruct s; try exact I1.
  by apply (inv_watch seen w1 p _ Deleted).
Qed.

Lemma inv_unregister seen w p :
  let w' := vfs_step w (OpUnregister p) in inv seen w -> fits (vfs w) -> inv seen w'.
Proof.
  intros w' I Hf. subst w'. simpl. unfold unregister_watch_only, vfs_file_id, interner_get.
  destruct (get_index_of (interner (vfs w)) p) as [idx|] eqn:Eg; simpl; [|by destruct w].
  apply get_index_of_Some in Eg as Hp. destruct (inv_lookup _ _ _ _ I Hp) as [s Hs].
  rewrite (get_state_idx _ _ _ _ Hf Hp Hs). destruct s; try by destruct w. by apply (inv_watch seen w p _ WatchOnly).
Qed.

Lemma deliver_all h cs id :
  assoc_wf cs -> (forall i f, (i, f) ∈ cs -> file_id f = i) ->
  foldl deliver h (cs.*2) id = effective (change <$> assoc_get id cs) (h id).
Proof.
  unfold assoc_wf. revert h. induction cs as [|[k f] cs IH]; intros h Hwf Hids; [done|]. simpl in *.
  apply NoDup_cons in Hwf as [Hk Hwf]. rewrite IH by (try done; intros; apply Hids; by right).
  unfold deliver at 1. rewrite (Hids k f) by by left. case_decide as E.
  - subst. rewrite fn_lookup_insert. apply assoc_get_None in Hk. by rewrite Hk.
  - by rewrite fn_lookup_insert_ne.
Qed.

Lemma drained_ids seen w i f : inv seen w -> (i, f) ∈ changes (vfs w) -> file_id f = i.
Proof. intros I Hf. apply (inv_ids _ _ I), assoc_elem_get; [apply I|done]. Qed.

Lemma inv_drain seen w : inv seen w -> inv seen (vfs_step w OpDrain).
Proof.
  intros I. assert (forall id, held (vfs_step w OpDrain) id = effective (pending (vfs w) id) (held w id)) as Hh.
  { intros id. simpl. apply deliver_all; [apply I|]. intros i f. by apply drained_ids with seen. }
  split; [apply I|apply I|constructor|done| |apply I| |].
  - intros id Hid. split; [done|]. rewrite Hh. by destruct (inv_fresh _ _ I id Hid) as [-> ->].
  - intros idx p s Hp Hs id. destruct (inv_cell _ _ I _ _ _ Hp Hs) as [Hlast Hst _].
    split; [..|done]; change (pending (vfs (vfs_step w OpDrain)) id) with (@None Change); cbn [effective]; by rewrite Hh.
  - intros idx p t Hp. change (pending (vfs (vfs_step w OpDrain)) (id_of_index idx)) with (@None Change). cbn [effective].
    rewrite Hh. by apply (inv_seen _ _ I).
Qed.
End inv.

Section run.
Context `{Hasher}.

Definition seen_in (ops : list VfsOp) (p : VfsPath) (t : text) : Prop := OpSet p (Some t) ∈ ops.

Lemma intern_grows i p : length i <= length (intern i p).2.
Proof. unfold intern. case_match; simpl; [done|]. rewrite length_app. lia. Qed.

Lemma alloc_interner v p : interner (alloc_file_id v p).2 = (intern (interner v) p).2.
Proof. unfold alloc_file_id. by destruct (intern _ _). Qed.

Lemma step_grows w o : length (interner (vfs w)) <= length (interner (vfs (vfs_step w o))).
Proof.
  destruct o as [p c|p|p|]; simpl.
  - unfold set_file_contents. pose proof (alloc_interner (vfs w) p) as E. pose proof (intern_grows (interner (vfs w)) p) as Hg.
    destruct (alloc_file_id (vfs w) p) as [id v]. simpl in E. rewrite <- E in Hg. by repeat case_match.
  - unfold register_watch_only. pose proof (alloc_interner (vfs w) p) as E. pose proof (intern_grows (interner (vfs w)) p) as Hg.
    destruct (alloc_file_id (vfs w) p) as [id v]. simpl in E. rewrite <- E in Hg. simpl. by case_match.
  - unfold unregister_watch_only. by repeat case_match.
  - done.
Qed.

Lemma run_inv ops : fits (vfs (vfs_run ops)) -> inv (seen_in ops) (vfs_run ops).
Proof.
  unfold vfs_run. induction ops as [|o ops IH] using rev_ind; intros Hf; [apply inv_world0|].
  rewrite foldl_app in *. simpl in *. set (w := foldl vfs_step world0 ops) in *.
  assert (fits (vfs w)) as Hf0 by (unfold fits in *; pose proof (step_grows w o); lia).
  assert (inv (seen_in (ops ++ [o])) w) as I.
  { eapply inv_weaken; [|by apply IH]. intros p t Hs. apply elem_of_app. by left. }
  destruct o.
  - apply inv_set; try done. intros t ->. apply elem_of_app. right. by apply list_elem_of_singleton.
  - by apply inv_register.
  - by apply inv_unregister.
  - by apply inv_drain.
Qed.

Lemma held_of_path seen w p :
  inv seen w -> fits (vfs w) -> changes (vfs w) = [] ->
  match vfs_file_id (vfs w) p with
  | Some id => hash_once <$> held w id = hash_once <$> written w p /\ (forall t, held w id = Some t -> seen p t)
  | None => written w p = None
  end.
Proof.
  intros I Hf Hd. unfold vfs_file_id, interner_get. destruct (get_index_of _ p) as [idx|] eqn:Eg; simpl.
  - apply get_index_of_Some in Eg. destruct (inv_lookup _ _ _ _ I Eg) as [s Hs].
    pose proof (cell_last _ _ _ _ (inv_cell _ _ I _ _ _ Eg Hs)) as Hc. pose proof (fun t => inv_seen _ _ I idx p t Eg) as Hseen.
    unfold pending in *. rewrite Hd in *. simpl in *. split; [done|]. exact Hseen.
  - by apply (inv_unseen _ _ I), get_index_of_None.
Qed.

Lemma pending_interned seen w id f :
  inv seen w -> fits (vfs w) -> (id, f) ∈ changes (vfs w) ->
  exists idx p s, id = id_of_index idx /\ interner (vfs w) !! idx = Some p /\ data (vfs w) !! idx = Some s.
Proof.
  intros I Hf Hc%assoc_elem_get; [|apply I]. destruct (decide (index_of_id id < length (interner (vfs w)))) as [Hlt|Hge].
  - apply lookup_lt_is_Some in Hlt as [p Hp]. destruct (inv_lookup _ _ _ _ I Hp) as [s Hs].
    exists (index_of_id id), p, s. split; [|done]. apply lookup_lt_Some in Hp. unfold fits in Hf. destruct id as [n].
    unfold id_of_index, index_of_id in *; simpl in *. by rewrite N2Nat.id, N.mod_small by lia.
  - destruct (inv_fresh _ _ I id) as [Hn _]; [lia|]. unfold pending in Hn. by rewrite Hc in Hn.
Qed.

(** C24. The drains lose nothing.  Whatever is written, registered, unregistered and drained, in
    whatever order, after one more drain the consumer that applied every change holds for each
    path a text that was written to it, of the same hash as the last one (so the last text itself
    when no two of them collide), and none when the path was deleted last or never written.  Each
    drain names a file once, and tells the consumer to create only files it does not hold.  The
    paths are fewer than the ids. *)
Theorem drains_hand_over_contents ops :
  let w := vfs_run ops in
  let w' := vfs_step w OpDrain in
  fits (vfs w) ->
  (forall p, match vfs_file_id (vfs w') p with
             | Some id => hash_once <$> held w' id = hash_once <$> written w p /\
                          (forall t, held w' id = Some t -> OpSet p (Some t) ∈ ops)
             | None => written w p = None
             end) /\
  NoDup (file_id <$> (take_changes (vfs w)).1) /\
  (forall f, f ∈ (take_changes (vfs w)).1 -> kind (change f) = KCreate -> held w (file_id f) = None).
Proof.
  intros w w' Hf. pose proof (run_inv ops Hf) as I. pose proof (inv_drain _ _ I) as I'.
  fold w w' in I, I'. split; [|split].
  - intros p. exact (held_of_path _ w' p I' Hf eq_refl).
  - simpl. replace (file_id <$> (changes (vfs w)).*2) with ((changes (vfs w)).*1); [apply I|].
    rewrite <- list_fmap_compose. apply list_fmap_ext. intros k [i f] Hk%list_elem_of_lookup_2. symmetry.
    exact (drained_ids _ _ _ _ I Hk).
  - simpl. intros f ([i g] & -> & Hg)%list_elem_of_fmap Hk. simpl in *. rewrite (drained_ids _ _ _ _ I Hg).
    assert (exists idx p s, i = id_of_index idx /\ interner (vfs w) !! idx = Some p /\ data (vfs w) !! idx = Some s)
      as (idx & p & s & -> & Hp & Hs) by by eapply pending_interned.
    destruct (change g) as [t n| |] eqn:Ec; try done.
    eapply (cell_create _ _ _ _ (inv_cell _ _ I _ _ _ Hp Hs) t n). unfold pending.
    rewrite (assoc_elem_get _ _ _ (inv_wf _ _ I) Hg). simpl. by rewrite Ec.
Qed.
End run.

(** What the module of a consumer does with kinds of changes: [Create] and [Delete] change the
    files there are, [Modify] does not (crates/bsl-analyzer/src/workspace.rs). *)
Definition change_is_structural (c : Change) : bool := match c with Create _ _ | Delete => true | Modify _ _ => false end.

(** A file created, deleted and created again before the first drain reaches a consumer that never
    held it as a modification. *)
Lemma recreated_file_is_modified `{Hasher} p t :
  let w := vfs_run [OpSet p (Some t); OpSet p None; OpSet p (Some t)] in
  exists id, (take_changes (vfs w)).1 = [MkChangedFile id (Modify t (hash_once t))] /\ held w id = None.
Proof.
  exists (MkFileId 0). unfold vfs_run, world0, Vfs_new. simpl. unfold set_file_contents. simpl.
  unfold alloc_file_id, intern, get_index_of. simpl. rewrite decide_True by done. simpl.
  unfold get_state, record_change, set_state. simpl. rewrite decide_True by done. simpl. split; done.
Qed.

(** Two files; the first is rewritten with its own content and deleted, the second watched, loaded
    and drained. *)
#[local] Instance sum_hash : Hasher := fun t => Z.to_N (foldr Z.add 0%Z t).

Lemma drains_hand_over_contents_witness :
  let a := [RootDir; Normal [97%Z]] in
  let b := [RootDir; Normal [98%Z]] in
  let w' := vfs_step (vfs_run [OpSet a (Some [1; 2]%Z); OpDrain; OpRegister b; OpSet a (Some [1; 2]%Z); OpSet b (Some [3]%Z); OpSet a None]) OpDrain in
  vfs_file_id (vfs w') b = Some (MkFileId 1) /\ held w' (MkFileId 1) = Some [3%Z] /\ held w' (MkFileId 0) = None /\
  hash_once <$> held w' (MkFileId 1) = hash_once <$> written w' b.
Proof.
  intros a b w'. split; [reflexivity|]. split; [reflexivity|]. split; [reflexivity|].
  assert (fits (vfs (vfs_run [OpSet a (Some [1; 2]%Z); OpDrain; OpRegister b; OpSet a (Some [1; 2]%Z); OpSet b (Some [3]%Z); OpSet a None]))) as Hf.
  { unfold fits. vm_compute. discriminate. }
  exact (proj1 (proj1 (drains_hand_over_contents _ Hf) b)).
Defined.
