(* ===== verification/Inputs.v ===== *)
(** Inputs: the inputs of the database (crates/base-db/src/lib.rs, input.rs).

    The maps of [Files] hold the values of the inputs.  Writing a field of an input that exists
    starts a revision of the salsa library; [input_writes] counts those writes, as creating an
    input does not. *)
From stdpp Require Import prelude.
From S2P Require Import Prelude Paths Vfs.

(** [content_revision]: the rustc_hash library applied to the length and the bytes. *)
Class ContentRevision := content_revision : text -> N.

Record SourceRootId : Set := MkSourceRootId { root_index : N }.

#[export] Instance SourceRootId_eq_dec : EqDecision SourceRootId.
Proof. solve_decision. Defined.

Definition BSL_SOURCE_ROOT : SourceRootId := MkSourceRootId 0.
Definition METADATA_SOURCE_ROOT : SourceRootId := MkSourceRootId 1.

Inductive SourceRootKind : Set := Local | Library | Metadata.

Inductive Durability : Set := LOW | MEDIUM | HIGH.

Record SourceRoot : Set := MkSourceRoot { root_kind : SourceRootKind; file_set : FileSet }.

Definition new_local (s : FileSet) : SourceRoot := MkSourceRoot Local s.
Definition new_library (s : FileSet) : SourceRoot := MkSourceRoot Library s.
Definition new_metadata (s : FileSet) : SourceRoot := MkSourceRoot Metadata s.

Definition is_library (r : SourceRoot) : bool := match root_kind r with Library => true | _ => false end.
Definition root_iter (r : SourceRoot) : list FileId := fs_iter (file_set r).

Definition durability (r : SourceRoot) : Durability :=
  match root_kind r with Local => LOW | Library => HIGH | Metadata => MEDIUM end.

(** ** The inputs, each field with its durability *)

Record FileTextInput : Set := MkFileTextInput { input_text : text; text_durability : Durability }.

Record FileRevisionInput : Set := MkFileRevisionInput {
  revision : N;
  unreadable : bool;
  revision_durability : Durability;
  unreadable_durability : Durability;
}.

Record SourceRootInput : Set := MkSourceRootInput { root : SourceRoot; root_durability : Durability }.

Record FileSourceRootInput : Set := MkFileSourceRootInput {
  source_root_id : SourceRootId;
  file_root_durability : Durability;
}.

(** Of the snapshots of parses only whose file has one. *)
Record Files : Set := MkFiles {
  file_texts : list (FileId * FileTextInput);
  file_revisions : list (FileId * FileRevisionInput);
  source_roots : list (SourceRootId * SourceRootInput);
  file_source_roots : list (FileId * FileSourceRootInput);
  parse_snapshots : list (FileId * unit);
  input_writes : nat;
}.

Definition Files_new : Files := MkFiles [] [] [] [] [] 0.

(** ** Looking up *)

Definition try_file_text (f : Files) (id : FileId) : option FileTextInput := assoc_get id (file_texts f).
Definition try_file_revision (f : Files) (id : FileId) : option FileRevisionInput := assoc_get id (file_revisions f).
Definition try_source_root (f : Files) (id : SourceRootId) : option SourceRootInput := assoc_get id (source_roots f).
Definition try_file_source_root (f : Files) (id : FileId) : option FileSourceRootInput := assoc_get id (file_source_roots f).

Definition file_is_unread (f : Files) (id : FileId) : bool :=
  match try_file_revision f id with Some r => unreadable r | None => false end.

(** ** Writing *)

Definition durability_for_file (f : Files) (id : FileId) : option Durability :=
  mapping ← try_file_source_root f id;
  input ← try_source_root f (source_root_id mapping);
  Some (durability (root input)).

Definition set_file_revision_with_durability (f : Files) (id : FileId) (rev : N) (d : Durability) (unread : bool) : Files :=
  match try_file_revision f id with
  | Some input =>
      let flips := negb (eqb (unreadable input) unread) in
      let input' := MkFileRevisionInput rev unread d (if flips then d else unreadable_durability input) in
      MkFiles (file_texts f) (assoc_set id input' (file_revisions f)) (source_roots f) (file_source_roots f)
        (parse_snapshots f) (input_writes f + (if flips then 2 else 1))
  | None =>
      MkFiles (file_texts f) (assoc_set id (MkFileRevisionInput rev unread d d) (file_revisions f)) (source_roots f)
        (file_source_roots f) (parse_snapshots f) (input_writes f)
  end.

Section code.
Context `{ContentRevision}.

Definition set_file_text_marked (f : Files) (id : FileId) (t : text) (d : Durability) (unread : bool) : Files :=
  let f' :=
    MkFiles (assoc_set id (MkFileTextInput t d) (file_texts f)) (file_revisions f) (source_roots f)
      (file_source_roots f) (parse_snapshots f)
      (match try_file_text f id with Some _ => S (input_writes f) | None => input_writes f end) in
  set_file_revision_with_durability f' id (content_revision t) d unread.

Definition set_file_text_with_durability (f : Files) (id : FileId) (t : text) (d : Durability) : Files :=
  set_file_text_marked f id t d false.

(** [set_file_text] of the database is [set_file_text_smart]. *)
Definition set_file_text_smart (f : Files) (id : FileId) (t : text) : Files :=
  match durability_for_file f id with
  | Some d => set_file_text_with_durability f id t d
  | None => set_file_text_with_durability f id t LOW
  end.

Definition set_file_unreadable (f : Files) (id : FileId) : Files :=
  set_file_text_marked f id [] (default LOW (durability_for_file f id)) true.
End code.

Definition set_file_revision_from_disk (f : Files) (id : FileId) (rev : N) : Files :=
  let f' := MkFiles (assoc_remove id (file_texts f)) (file_revisions f) (source_roots f) (file_source_roots f)
              (assoc_remove id (parse_snapshots f)) (input_writes f) in
  set_file_revision_with_durability f' id rev (default LOW (durability_for_file f' id)) false.

Definition set_source_root (f : Files) (id : SourceRootId) (r : SourceRoot) : Files :=
  MkFiles (file_texts f) (file_revisions f) (assoc_set id (MkSourceRootInput r (durability r)) (source_roots f))
    (file_source_roots f) (parse_snapshots f)
    (match try_source_root f id with Some _ => S (input_writes f) | None => input_writes f end).

Definition set_file_source_root (f : Files) (id : FileId) (rid : SourceRootId) : Files :=
  let d := match try_source_root f rid with Some input => durability (root input) | None => LOW end in
  match try_file_source_root f id with
  | Some input =>
      if decide (source_root_id input = rid) then f
      else MkFiles (file_texts f) (file_revisions f) (source_roots f)
             (assoc_set id (MkFileSourceRootInput rid d) (file_source_roots f)) (parse_snapshots f) (S (input_writes f))
  | None =>
      MkFiles (file_texts f) (file_revisions f) (source_roots f)
        (assoc_set id (MkFileSourceRootInput rid d) (file_source_roots f)) (parse_snapshots f) (input_writes f)
  end.
