(* ===== verification/Load.v ===== *)
(** Load: batches of source changes applied to the inputs (crates/ide-host-core/src/load.rs). *)
From stdpp Require Import prelude.
From S2P Require Import Prelude Paths Vfs Inputs.

Inductive FileTextSource : Set :=
  | SourceOverlay (t : text)
  | SourceDisk (t : text)
  | SourceDeleted
  | SourceUnreadable.

Inductive BatchTextSource : Set :=
  | Overlay (t : text)
  | Disk (t : text)
  | DiskOwned (t : text)
  | DiskRevision (rev : N)
  | BatchDeleted
  | Unreadable.

Inductive SourceBatchChange : Set :=
  | Upsert (id : FileId) (path : VfsPath) (source : option BatchTextSource)
  | Remove (id : FileId).

Record SourceBatchEffects : Set := MkEffects {
  file_set_changed : bool;
  bsl_source_changed : bool;
  changed_file_ids : list FileId;
  affected_paths : list VfsPath;
}.

Definition no_effects : SourceBatchEffects := MkEffects false false [] [].

Section code.
Context `{ContentRevision}.

(** [set_file_text_source]. *)
Definition set_file_text_source (f : Files) (id : FileId) (s : FileTextSource) : Files :=
  match s with
  | SourceOverlay t => set_file_text_smart f id t
  | SourceDisk t => set_file_revision_from_disk f id (content_revision t)
  | SourceDeleted => set_file_text_smart f id []
  | SourceUnreadable => set_file_unreadable f id
  end.

Definition disk_revision_of (s : BatchTextSource) : option N :=
  match s with
  | Disk t | DiskOwned t => Some (content_revision t)
  | DiskRevision r => Some r
  | _ => None
  end.

(** Whether the inputs already say what the source says, and the revision of a source on disk. *)
Definition source_matches (f : Files) (id : FileId) (s : BatchTextSource) : bool * option N :=
  let disk_revision := disk_revision_of s in
  match try_file_revision f id with
  | None => (false, disk_revision)
  | Some r =>
      let unread := match s with Unreadable => true | _ => false end in
      if negb (eqb (unreadable r) unread) then (false, disk_revision)
      else
        match s with
        | Overlay t =>
            match try_file_text f id with
            | None => (false, None)
            | Some input =>
                if negb (bool_decide (input_text input = t)) then (false, None)
                else ((revision r =? content_revision t)%N, disk_revision)
            end
        | Disk _ | DiskOwned _ | DiskRevision _ =>
            (match try_file_text f id with
             | None => bool_decide (disk_revision = Some (revision r))
             | Some _ => false
             end, disk_revision)
        | BatchDeleted | Unreadable =>
            (match try_file_text f id with
             | Some input => match input_text input with [] => true | _ => false end
             | None => false
             end && (revision r =? content_revision [])%N, disk_revision)
        end
  end.

Definition apply_owned_source (f : Files) (id : FileId) (s : BatchTextSource) (disk_revision : option N) : Files :=
  match s with
  | Overlay t => set_file_text_source f id (SourceOverlay t)
  | Disk _ | DiskOwned _ | DiskRevision _ => set_file_revision_from_disk f id (default 0%N disk_revision)
  | BatchDeleted => set_file_text_source f id SourceDeleted
  | Unreadable => set_file_text_source f id SourceUnreadable
  end.

Definition add_effect (e : SourceBatchEffects) (set_changed bsl : bool) (id : FileId) (p : VfsPath) : SourceBatchEffects :=
  MkEffects (file_set_changed e || set_changed) (bsl_source_changed e || bsl) (changed_file_ids e ++ [id])
    (affected_paths e ++ [p]).

(** One change of a batch; [None] where the assertion panics. *)
Definition apply_change (rid : SourceRootId) (f : Files) (s : FileSet) (e : SourceBatchEffects) (c : SourceBatchChange)
    : option (Files * FileSet * SourceBatchEffects) :=
  match c with
  | Upsert id path source =>
      let is_bsl := is_bsl_source_path path in
      if negb (bool_decide (is_Some source)) && is_bsl then None
      else
        let path_changed := negb (bool_decide (path_for_file s id = Some path)) in
        let '(source_changed, disk_revision) :=
          match source with
          | None => (false, None)
          | Some source => let (matches, rev) := source_matches f id source in (negb matches, rev)
          end in
        if negb path_changed && negb source_changed then Some (f, s, e)
        else
          let f := set_file_source_root f id rid in
          let f := match source with Some source => apply_owned_source f id source disk_revision | None => f end in
          let s := if path_changed then fs_insert (fs_remove s id).2 id path else s in
          Some (f, s, add_effect e path_changed is_bsl id path)
  | Remove id =>
      match path_for_file s id with
      | None => Some (f, s, e)
      | Some path =>
          let is_bsl := is_bsl_source_path path in
          let f :=
            if is_bsl then
              let (matches, disk_revision) := source_matches f id BatchDeleted in
              if matches then f else apply_owned_source f id BatchDeleted disk_revision
            else f in
          Some (f, (fs_remove s id).2, add_effect e true is_bsl id path)
      end
  end.

(** [cancelled] answers the n-th question. *)
Fixpoint apply_changes (cancelled : nat -> bool) (n : nat) (rid : SourceRootId) (f : Files) (s : FileSet)
    (e : SourceBatchEffects) (cs : list SourceBatchChange) : option (Files * option (FileSet * SourceBatchEffects)) :=
  match cs with
  | [] => if cancelled n then Some (f, None) else Some (f, Some (s, e))
  | c :: cs =>
      if cancelled n then Some (f, None)
      else '(f, s, e) ← apply_change rid f s e c; apply_changes cancelled (S n) rid f s e cs
  end.

(** [None] where it panics, as it does at a root that is not there; the effects are [None] when it
    was cancelled. *)
Definition apply_source_batch_cancellable (f : Files) (rid : SourceRootId) (cs : list SourceBatchChange)
    (cancelled : nat -> bool) : option (Files * option SourceBatchEffects) :=
  match cs with
  | [] => Some (f, Some no_effects)
  | _ =>
      input ← try_source_root f rid;
      '(f, done) ← apply_changes cancelled 0 rid f (file_set (root input)) no_effects cs;
      match done with
      | None => Some (f, None)
      | Some (s, e) => Some (if file_set_changed e then set_source_root f rid (new_local s) else f, Some e)
      end
  end.

Definition apply_source_batch (f : Files) (rid : SourceRootId) (cs : list SourceBatchChange)
    : option (Files * SourceBatchEffects) :=
  '(f, done) ← apply_source_batch_cancellable f rid cs (fun _ => false);
  e ← done;
  Some (f, e).

Definition build_source_root (all_files : list (FileId * Path)) : SourceRoot :=
  new_local (foldl (fun s f => fs_insert s f.1 f.2) FileSet_new all_files).
End code.
