(* ===== verification/LoadSpec.v ===== *)
(** LoadSpec: a batch of source changes against the files as the queries see them
    (crates/ide-host-core/src/load.rs over crates/base-db/src/lib.rs). *)
From stdpp Require Import functions prelude.
From S2P Require Import Prelude Paths Vfs Inputs Load.

(** ** Files as the queries see them *)

(** The text pinned of a file, the revision its bytes must have, and the mark of ignorance. *)
Record FileInputs : Set := MkFileInputs { pinned : option text; expected : N; ignorant : bool }.

#[export] Instance FileInputs_eq_dec : EqDecision FileInputs.
Proof. solve_decision. Defined.

Definition inputs_of (f : Files) (id : FileId) : option FileInputs :=
  r ← try_file_revision f id; Some (MkFileInputs (input_text <$> try_file_text f id) (revision r) (unreadable r)).

Definition root_of (f : Files) (id : FileId) : option SourceRootId := source_root_id <$> try_file_source_root f id.

Definition path_in (f : Files) (rid : SourceRootId) (id : FileId) : option VfsPath :=
  input ← try_source_root f rid; path_for_file (file_set (root input)) id.

Definition fs_wf (s : FileSet) : Prop := assoc_wf (paths s).

Definition files_wf (f : Files) : Prop :=
  assoc_wf (file_texts f) /\ (forall rid input, try_source_root f rid = Some input -> fs_wf (file_set (root input))).

(** ** What a batch promises *)

Record BatchState : Type := MkBatchState {
  b_inputs : FileId -> option FileInputs;
  b_paths : FileId -> option VfsPath;
  b_roots : FileId -> option SourceRootId;
}.

Section code.
Context `{ContentRevision}.

Definition target (s : BatchTextSource) : FileInputs :=
  match s with
  | Overlay t => MkFileInputs (Some t) (content_revision t) false
  | Disk t | DiskOwned t => MkFileInputs None (content_revision t) false
  | DiskRevision r => MkFileInputs None r false
  | BatchDeleted => MkFileInputs (Some []) (content_revision []) false
  | Unreadable => MkFileInputs (Some []) (content_revision []) true
  end.

(** Whether the change has something to do. *)
Definition changes_something (b : BatchState) (c : SourceBatchChange) : bool :=
  match c with
  | Upsert id p source =>
      negb (bool_decide (b_paths b id = Some p)) ||
      match source with Some s => negb (bool_decide (b_inputs b id = Some (target s))) | None => false end
  | Remove id => bool_decide (is_Some (b_paths b id))
  end.

Definition change_id (c : SourceBatchChange) : FileId := match c with Upsert id _ _ | Remove id => id end.

Definition spec_step (rid : SourceRootId) (b : BatchState) (c : SourceBatchChange) : BatchState :=
  if changes_something b c then
    match c with
    | Upsert id p source =>
        MkBatchState (match source with Some s => <[id := Some (target s)]> (b_inputs b) | None => b_inputs b end)
          (<[id := Some p]> (b_paths b)) (<[id := Some rid]> (b_roots b))
    | Remove id =>
        MkBatchState
          (match b_paths b id with
           | Some p => if is_bsl_source_path p then <[id := Some (target BatchDeleted)]> (b_inputs b) else b_inputs b
           | None => b_inputs b
           end) (<[id := None]> (b_paths b)) (b_roots b)
    end
  else b.

Fixpoint spec_changed (rid : SourceRootId) (b : BatchState) (cs : list SourceBatchChange) : list FileId :=
  match cs with
  | [] => []
  | c :: cs => (if changes_something b c then [change_id c] else []) ++ spec_changed rid (spec_step rid b c) cs
  end.

Definition admissible (c : SourceBatchChange) : Prop :=
  match c with Upsert _ p None => is_bsl_source_path p = false | _ => True end.

(** ** The inputs of one file *)

Lemma source_matches_true f id s : (source_matches f id s).1 = true <-> inputs_of f id = Some (target s).
Proof.
  unfold source_matches, inputs_of. destruct (try_file_revision f id) as [[r u du dv]|]; simpl; [|done].
  destruct (try_file_text f id) as [[t dt]|]; destruct s as [t'|t'|t'|r'| |], u; simpl;
    try (case_bool_decide; simpl); try (destruct t as [|c t]; simpl); rewrite ?N.eqb_eq; naive_solver.
Qed.

Lemma source_matches_spec f id s :
  source_matches f id s = (bool_decide (inputs_of f id = Some (target s)), disk_revision_of s).
Proof.
  apply injective_projections; simpl.
  - apply eq_bool_prop_intro. by rewrite bool_decide_spec, <- source_matches_true, Is_true_true.
  - unfold source_matches. destruct (try_file_revision f id); [|done]. destruct s; simpl; repeat case_match; done.
Qed.

(** *** What the writes do *)

Definition same_roots (f f' : Files) : Prop :=
  source_roots f' = source_roots f /\ file_source_roots f' = file_source_roots f.

Lemma inputs_of_set_revision f id rev d u id' :
  inputs_of (set_file_revision_with_durability f id rev d u) id' =
  if decide (id = id') then Some (MkFileInputs (input_text <$> try_file_text f id) rev u) else inputs_of f id'.
Proof.
  unfold set_file_revision_with_durability, inputs_of, try_file_revision, try_file_text.
  destruct (assoc_get id (file_revisions f)) as [r|] eqn:E; simpl; rewrite assoc_get_set; case_decide; by subst.
Qed.

Lemma set_revision_texts f id rev d u : file_texts (set_file_revision_with_durability f id rev d u) = file_texts f.
Proof. unfold set_file_revision_with_durability. by case_match. Qed.

(** The file has the inputs, and nothing else that the queries see changed. *)
Record writes_inputs (f : Files) (id : FileId) (i : FileInputs) (f' : Files) : Prop := MkWrites {
  writes_at : forall id', inputs_of f' id' = if decide (id = id') then Some i else inputs_of f id';
  writes_roots : same_roots f f';
  writes_wf : assoc_wf (file_texts f) -> assoc_wf (file_texts f');
}.

Lemma set_text_writes f id t d u :
  writes_inputs f id (MkFileInputs (Some t) (content_revision t) u) (set_file_text_marked f id t d u).
Proof.
  unfold set_file_text_marked. split.
  - intros id'. rewrite inputs_of_set_revision. unfold inputs_of, try_file_text, try_file_revision; simpl.
    case_decide as E; [by rewrite assoc_get_set_eq|]. by rewrite assoc_get_set_ne.
  - unfold same_roots, set_file_revision_with_durability. by case_match.
  - intros. rewrite set_revision_texts. by apply assoc_set_wf.
Qed.

Lemma set_disk_writes f id rev :
  assoc_wf (file_texts f) -> writes_inputs f id (MkFileInputs None rev false) (set_file_revision_from_disk f id rev).
Proof.
  intros Hwf. unfold set_file_revision_from_disk. split.
  - intros id'. rewrite inputs_of_set_revision. unfold inputs_of, try_file_text, try_file_revision; simpl.
    rewrite !assoc_get_remove by done. case_decide as E; [by rewrite decide_True|done].
  - unfold same_roots, set_file_revision_with_durability. by case_match.
  - intros. rewrite set_revision_texts. by apply assoc_remove_wf.
Qed.

Lemma apply_source_writes f id s :
  assoc_wf (file_texts f) -> writes_inputs f id (target s) (apply_owned_source f id s (disk_revision_of s)).
Proof.
  intros Hwf. destruct s; simpl; unfold set_file_text_smart, set_file_text_with_durability; try case_match;
    first [by apply set_disk_writes|apply set_text_writes].
Qed.

(** *** Sets of files and the roots of files *)

Lemma path_fs_remove s id id' :
  fs_wf s -> path_for_file (fs_remove s id).2 id' = if decide (id = id') then None else path_for_file s id'.
Proof.
  intros Hwf. unfold fs_remove, path_for_file. destruct (assoc_get id (paths s)) as [p|] eqn:E; simpl.
  - by apply assoc_get_remove.
  - case_decide; by subst.
Qed.

Lemma fs_remove_wf s id : fs_wf s -> fs_wf (fs_remove s id).2.
Proof. unfold fs_wf, fs_remove. intros. case_match; simpl; [by apply assoc_remove_wf|done]. Qed.

Lemma path_fs_insert s id p id' :
  path_for_file (fs_insert s id p) id' = if decide (id = id') then Some p else path_for_file s id'.
Proof. apply assoc_get_set. Qed.

Lemma fs_insert_wf s id p : fs_wf s -> fs_wf (fs_insert s id p).
Proof. apply assoc_set_wf. Qed.

Lemma root_of_set f id rid id' :
  root_of (set_file_source_root f id rid) id' = if decide (id = id') then Some rid else root_of f id'.
Proof.
  unfold root_of, set_file_source_root. destruct (try_file_source_root f id) as [i|] eqn:E.
  - destruct (decide (source_root_id i = rid)) as [Hr|Hr].
    + case_decide as Hd; [subst|done]. by rewrite E.
    + unfold try_file_source_root; simpl. rewrite assoc_get_set. by case_decide.
  - unfold try_file_source_root; simpl. rewrite assoc_get_set. by case_decide.
Qed.

Lemma set_file_root_rest f id rid :
  let f' := set_file_source_root f id rid in
  (forall id', inputs_of f' id' = inputs_of f id') /\ source_roots f' = source_roots f /\ file_texts f' = file_texts f.
Proof. simpl. unfold set_file_source_root, inputs_of. by repeat case_match. Qed.

(** *** One change and a batch *)

Record shows (f : Files) (s : FileSet) (b : BatchState) : Prop := MkShows {
  shows_inputs : forall id, inputs_of f id = b_inputs b id;
  shows_paths : forall id, path_for_file s id = b_paths b id;
  shows_roots : forall id, root_of f id = b_roots b id;
  shows_texts : assoc_wf (file_texts f);
  shows_set : fs_wf s;
}.

(** What one change does, where it is carried out. *)
Definition change_shown (f : Files) (s : FileSet) (b : BatchState) (e : SourceBatchEffects) (rid : SourceRootId)
    (c : SourceBatchChange) : Prop :=
  exists f' s' e', apply_change rid f s e c = Some (f', s', e') /\ shows f' s' (spec_step rid b c) /\
    source_roots f' = source_roots f /\
    changed_file_ids e' = changed_file_ids e ++ (if changes_something b c then [change_id c] else []) /\
    (changes_something b c = false -> f' = f /\ e' = e) /\
    (file_set_changed e' = false -> s' = s /\ file_set_changed e = false).

(** The file stands under the root, at its path. *)
Lemma shows_placed f s b rid id p inputs' f2 :
  shows f s b -> same_roots (set_file_source_root f id rid) f2 -> assoc_wf (file_texts f2) ->
  (forall id', inputs_of f2 id' = inputs' id') ->
  let s2 := if negb (bool_decide (path_for_file s id = Some p)) then fs_insert (fs_remove s id).2 id p else s in
  shows f2 s2 (MkBatchState inputs' (<[id := Some p]> (b_paths b)) (<[id := Some rid]> (b_roots b))) /\
  source_roots f2 = source_roots f.
Proof.
  intros [Hi Hp Hr Ht Hs] [Hr2 Hr3] Ht2 Hi2. simpl. split; [split; simpl; try done|].
  - intros id'. case_bool_decide as Hc; simpl; destruct (decide (id = id')) as [<-|Hn];
      rewrite ?fn_lookup_insert, ?path_fs_insert, ?decide_True, ?fn_lookup_insert_ne, ?decide_False, ?path_fs_remove,
        ?decide_False by done; try done; apply Hp.
  - intros id'. unfold root_of, try_file_source_root. rewrite Hr3.
    pose proof (root_of_set f id rid id') as Hrs. unfold root_of, try_file_source_root in Hrs. rewrite Hrs.
    destruct (decide (id = id')) as [<-|Hn]; [by rewrite fn_lookup_insert|]. rewrite fn_lookup_insert_ne by done. apply Hr.
  - case_bool_decide; simpl; [done|]. by apply fs_insert_wf, fs_remove_wf.
  - rewrite Hr2. apply (set_file_root_rest f id rid).
Qed.

Lemma shows_upsert f s b e rid id p source :
  shows f s b -> admissible (Upsert id p source) -> change_shown f s b e rid (Upsert id p source).
Proof.
  intros Hsh Ha. destruct (set_file_root_rest f id rid) as (Hi1 & Hr1 & Ht1). pose proof Hsh as [Hi Hp Hr Ht Hs].
  unfold change_shown, spec_step; simpl.
  assert (negb (bool_decide (is_Some source)) && is_bsl_source_path p = false) as -> by by destruct source.
  rewrite <- (Hp id). pose proof (shows_placed f s b rid id p) as Hpl. simpl in Hpl.
  set (pc := negb (bool_decide (path_for_file s id = Some p))) in *.
  destruct source as [src|].
  - rewrite source_matches_spec, <- (Hi id). set (sc := negb (bool_decide (inputs_of f id = Some (target src)))).
    rewrite <- negb_orb. destruct (pc || sc) eqn:Ec; simpl; [|exists f, s, e; by rewrite app_nil_r].
    destruct (apply_source_writes (set_file_source_root f id rid) id src) as [Hi2 Hr2 Ht2]; [by rewrite Ht1|].
    edestruct (Hpl (<[id := Some (target src)]> (b_inputs b))) as [Hs2 Hsr]; [exact Hsh|exact Hr2|by apply Ht2; rewrite Ht1| |].
    + intros id'. rewrite Hi2. destruct (decide (id = id')) as [->|Hn]; [by rewrite fn_lookup_insert|].
      by rewrite fn_lookup_insert_ne, Hi1.
    + eexists _, _, _. split; [reflexivity|]. split_and!; try done. simpl. by intros [? ->]%orb_false_iff.
  - rewrite orb_false_r, andb_true_r. destruct pc eqn:Ec; simpl; [|exists f, s, e; by rewrite app_nil_r].
    edestruct (Hpl (b_inputs b) (set_file_source_root f id rid)) as [Hs2 Hsr]; [exact Hsh|done|by rewrite Ht1|by intros; rewrite Hi1|].
    eexists _, _, _. split; [reflexivity|]. split_and!; try done. simpl. by intros [? ?]%orb_false_iff.
Qed.

Lemma shows_remove f s b e rid id : shows f s b -> change_shown f s b e rid (Remove id).
Proof.
  intros Hsh. pose proof Hsh as [Hi Hp Hr Ht Hs]. unfold change_shown, spec_step; simpl. rewrite <- (Hp id).
  destruct (path_for_file s id) as [p|] eqn:Ep; simpl; [|exists f, s, e; by rewrite app_nil_r].
  set (f' := if is_bsl_source_path p then _ else f).
  assert (exists g, f' = g /\ (forall id', inputs_of g id' =
    (if is_bsl_source_path p then <[id := Some (target BatchDeleted)]> (b_inputs b) else b_inputs b) id') /\
    same_roots f g /\ assoc_wf (file_texts g)) as (g & Eg & Hgi & [Hg1 Hg2] & Hgt).
  { subst f'. destruct (is_bsl_source_path p); [|by exists f]. rewrite source_matches_spec. case_bool_decide as Hm.
    - exists f. split_and!; try done. intros id'. destruct (decide (id = id')) as [<-|]; [by rewrite fn_lookup_insert|].
      by rewrite fn_lookup_insert_ne.
    - eexists. split; [reflexivity|]. destruct (apply_source_writes f id BatchDeleted Ht) as [Hi2 Hr2 Ht2].
      split_and!; [|exact Hr2|by apply Ht2]. intros id'. rewrite Hi2.
      destruct (decide (id = id')) as [<-|]; [by rewrite fn_lookup_insert|]. by rewrite fn_lookup_insert_ne. }
  rewrite Eg. eexists _, _, _. split; [reflexivity|]. split_and!; try done.
  - split; simpl; try done.
    + intros id'. rewrite path_fs_remove by done. destruct (decide (id = id')) as [<-|]; [by rewrite fn_lookup_insert|].
      by rewrite fn_lookup_insert_ne.
    + intros id'. unfold root_of, try_file_source_root. rewrite Hg2. apply Hr.
    + by apply fs_remove_wf.
  - simpl. by rewrite orb_true_r.
Qed.

Lemma shows_change f s b e rid c : shows f s b -> admissible c -> change_shown f s b e rid c.
Proof. destruct c; intros; [by apply shows_upsert|by apply shows_remove]. Qed.

Lemma shows_changes cs f s b e rid n :
  shows f s b -> Forall admissible cs ->
  exists f' s' e', apply_changes (fun _ => false) n rid f s e cs = Some (f', Some (s', e')) /\
    shows f' s' (foldl (spec_step rid) b cs) /\ source_roots f' = source_roots f /\
    changed_file_ids e' = changed_file_ids e ++ spec_changed rid b cs /\
    (spec_changed rid b cs = [] -> f' = f /\ e' = e) /\
    (file_set_changed e' = false -> s' = s /\ file_set_changed e = false).
Proof.
  revert f s b e n. induction cs as [|c cs IH]; intros f s b e n Hsh Ha.
  - exists f, s, e. simpl. by rewrite app_nil_r.
  - apply Forall_cons in Ha as [Hc Ha]. destruct (shows_change f s b e rid c Hsh Hc) as (f1 & s1 & e1 & E & Hsh1 & Hr1 & Hc1 & Hn1 & Hs1).
    destruct (IH f1 s1 _ e1 (S n) Hsh1 Ha) as (f2 & s2 & e2 & E2 & Hsh2 & Hr2 & Hc2 & Hn2 & Hs2).
    exists f2, s2, e2. simpl. rewrite E. simpl. split; [done|]. split; [done|]. split; [by rewrite Hr2|]. split_and!.
    + by rewrite Hc2, Hc1, app_assoc.
    + intros [H1 H2]%app_nil. destruct (Hn2 H2) as [-> ->]. apply Hn1. by destruct (changes_something b c).
    + intros He. destruct (Hs2 He) as [-> He1]. by destruct (Hs1 He1) as [-> ?].
Qed.

Lemma path_in_set_root f rid r rid' id :
  path_in (set_source_root f rid r) rid' id = if decide (rid = rid') then path_for_file (file_set r) id else path_in f rid' id.
Proof. unfold path_in, try_source_root; simpl. rewrite assoc_get_set. by case_decide. Qed.

Definition batch_state (f : Files) (rid : SourceRootId) : BatchState := MkBatchState (inputs_of f) (path_in f rid) (root_of f).

(** What holds of the inputs after a batch against the inputs before it. *)
Record batch_done (f : Files) (rid : SourceRootId) (cs : list SourceBatchChange) (f' : Files) (e : SourceBatchEffects)
    : Prop := MkBatchDone {
  done_inputs : forall id, inputs_of f' id = b_inputs (foldl (spec_step rid) (batch_state f rid) cs) id;
  done_paths : forall id, path_in f' rid id = b_paths (foldl (spec_step rid) (batch_state f rid) cs) id;
  done_roots : forall id, root_of f' id = b_roots (foldl (spec_step rid) (batch_state f rid) cs) id;
  done_others : forall rid', rid' <> rid -> try_source_root f' rid' = try_source_root f rid';
  done_there : is_Some (try_source_root f' rid);
  done_changed : changed_file_ids e = spec_changed rid (batch_state f rid) cs;
  done_silent : changed_file_ids e = [] -> f' = f;
  done_wf : files_wf f';
}.

Lemma batch_refines f rid cs :
  files_wf f -> is_Some (try_source_root f rid) -> Forall admissible cs ->
  exists f' e, apply_source_batch f rid cs = Some (f', e) /\ batch_done f rid cs f' e.
Proof.
  intros [Ht Hw] [input Hin] Ha. unfold apply_source_batch, apply_source_batch_cancellable.
  destruct cs as [|c cs]; [by exists f, no_effects|]. rewrite Hin. cbn [mbind option_bind].
  assert (shows f (file_set (root input)) (batch_state f rid)) as Hsh.
  { split; try done; [|by eapply Hw]. intros id. simpl. unfold path_in. by rewrite Hin. }
  destruct (shows_changes (c :: cs) _ _ _ no_effects rid 0 Hsh Ha) as (f1 & s1 & e1 & E & Hsh1 & Hr1 & Hc1 & Hn1 & Hs1).
  cbn [mbind option_bind] in E |- *. rewrite E. cbn. set (f2 := if file_set_changed e1 then _ else f1). exists f2, e1. split; [done|].
  assert (forall id, inputs_of f2 id = inputs_of f1 id /\ root_of f2 id = root_of f1 id) as Hf2.
  { intros id. subst f2. by destruct (file_set_changed e1). }
  assert (file_set_changed e1 = false -> f2 = f1) as Hnc by (by subst f2; intros ->).
  assert (forall rid', try_source_root f1 rid' = try_source_root f rid') as Hroots by (intros; unfold try_source_root; by rewrite Hr1).
  split.
  - intros id. rewrite (proj1 (Hf2 id)). apply Hsh1.
  - intros id. subst f2. destruct (file_set_changed e1) eqn:Ee.
    + rewrite path_in_set_root, decide_True by done. apply Hsh1.
    + destruct (Hs1 eq_refl) as [-> _]. rewrite <- (shows_paths _ _ _ Hsh1). unfold path_in. by rewrite Hroots, Hin.
  - intros id. rewrite (proj2 (Hf2 id)). apply Hsh1.
  - intros rid' Hn. subst f2. destruct (file_set_changed e1); [|done]. unfold try_source_root at 1; simpl.
    rewrite assoc_get_set_ne by done. apply Hroots.
  - subst f2. destruct (file_set_changed e1); [|by rewrite Hroots, Hin]. unfold try_source_root; simpl. by rewrite assoc_get_set_eq.
  - done.
  - intros He. rewrite Hc1 in He. simpl in He.
    destruct (Hn1 He) as [Hf1 He1]. by rewrite Hnc by by rewrite He1.
  - split.
    + subst f2. by destruct (file_set_changed e1); apply Hsh1.
    + intros rid' i. subst f2. destruct (file_set_changed e1); [|rewrite Hroots; apply Hw].
      unfold try_source_root; simpl. rewrite assoc_get_set. case_decide; [intros [= <-]; apply Hsh1|].
      fold (try_source_root f1 rid'). rewrite Hroots. apply Hw.
Qed.

(** *** Batches that name each file once *)

Definition same_at (id : FileId) (b b' : BatchState) : Prop :=
  b_inputs b' id = b_inputs b id /\ b_paths b' id = b_paths b id /\ b_roots b' id = b_roots b id.

Lemma spec_step_other rid b c id : change_id c <> id -> same_at id b (spec_step rid b c).
Proof.
  intros Hn. unfold spec_step, same_at. destruct (changes_something b c); [|done].
  destruct c as [i p src|i]; simpl in *; [destruct src|destruct (b_paths b i) as [q|]; [destruct (is_bsl_source_path q)|]];
    by rewrite ?fn_lookup_insert_ne by done.
Qed.

Lemma spec_fold_other rid cs b id : id ∉ change_id <$> cs -> same_at id b (foldl (spec_step rid) b cs).
Proof.
  revert b. induction cs as [|c cs IH]; intros b Hid; [done|]. apply not_elem_of_cons in Hid as [Hc Hid].
  unfold same_at. simpl. destruct (IH (spec_step rid b c) Hid) as (-> & -> & ->). by apply spec_step_other.
Qed.

Lemma changes_same b b' c : same_at (change_id c) b b' -> changes_something b' c = changes_something b c.
Proof. unfold same_at. destruct c; simpl; intros (H1 & H2 & _); by rewrite ?H1, ?H2. Qed.

(** The change is carried out on a state that agrees with the one before the batch. *)
Lemma spec_fold_at rid cs b c :
  NoDup (change_id <$> cs) -> c ∈ cs ->
  exists b1, same_at (change_id c) b b1 /\ same_at (change_id c) (spec_step rid b1 c) (foldl (spec_step rid) b cs).
Proof.
  revert b. induction cs as [|c' cs IH]; intros b Hnd Hc; [by apply elem_of_nil in Hc|].
  csimpl in Hnd. apply NoDup_cons in Hnd as [Hn Hnd]. simpl. apply elem_of_cons in Hc as [->|Hc].
  - exists b. split; [done|]. by apply spec_fold_other.
  - destruct (IH (spec_step rid b c') Hnd Hc) as (b1 & (H1 & H2 & H3) & Hs). exists b1. split; [|done].
    destruct (spec_step_other rid b c' (change_id c)) as (E1 & E2 & E3).
    { intros E. apply Hn. rewrite E. by apply list_elem_of_fmap_2. }
    unfold same_at. by rewrite H1, H2, H3.
Qed.

Lemma filter_same {A} (P Q : A -> Prop) `{forall x, Decision (P x), forall x, Decision (Q x)} (l : list A) :
  (forall x, x ∈ l -> P x <-> Q x) -> filter P l = filter Q l.
Proof.
  induction l as [|x l IH]; intros Hl; [done|]. rewrite !filter_cons, IH by (intros; apply Hl; by right).
  destruct (Hl x) as [Hpq Hqp]; [by left|]. repeat case_decide; try done; exfalso; auto.
Qed.

Lemma filter_nothing {A} (P : A -> Prop) `{forall x, Decision (P x)} (l : list A) :
  (forall x, x ∈ l -> ~ P x) -> filter P l = [].
Proof.
  intros Hl. induction l as [|x l IH]; [done|]. rewrite filter_cons, decide_False by (apply Hl; by left).
  apply IH. intros y Hy. apply Hl. by right.
Qed.

Lemma spec_changed_once rid cs b :
  NoDup (change_id <$> cs) -> spec_changed rid b cs = change_id <$> filter (fun c => changes_something b c = true) cs.
Proof.
  revert b. induction cs as [|c cs IH]; intros b Hnd; [done|]. csimpl in Hnd. apply NoDup_cons in Hnd as [Hn Hnd].
  simpl. rewrite (IH _ Hnd), filter_cons.
  replace (filter (fun c0 => changes_something (spec_step rid b c) c0 = true) cs) with (filter (fun c0 => changes_something b c0 = true) cs).
  - destruct (changes_something b c) eqn:E; [by rewrite decide_True|by rewrite decide_False by done].
  - apply filter_same. intros c0 Hc0. rewrite (changes_same b (spec_step rid b c) c0); [done|].
    apply spec_step_other. intros E. apply Hn. rewrite E. by apply list_elem_of_fmap_2.
Qed.

Lemma spec_step_upsert rid b id p source :
  let b' := spec_step rid b (Upsert id p source) in
  b_paths b' id = Some p /\ (forall s, source = Some s -> b_inputs b' id = Some (target s)).
Proof.
  unfold spec_step. destruct (changes_something b (Upsert id p source)) eqn:E.
  - destruct source; simpl; rewrite !fn_lookup_insert; naive_solver.
  - simpl in *. apply orb_false_iff in E as [E1%negb_false_iff%bool_decide_eq_true E2]. split; [done|].
    intros s ->. by apply negb_false_iff, bool_decide_eq_true in E2.
Qed.

Lemma spec_step_remove rid b id :
  let b' := spec_step rid b (Remove id) in
  b_paths b' id = None /\
  (forall p, b_paths b id = Some p -> is_bsl_source_path p = true -> b_inputs b' id = Some (target BatchDeleted)).
Proof.
  unfold spec_step. simpl. destruct (b_paths b id) as [q|] eqn:E; simpl; [|by rewrite E].
  rewrite fn_lookup_insert. split; [done|]. intros p [= ->] ->. by rewrite fn_lookup_insert.
Qed.

Lemma spec_step_settled rid b c : changes_something (spec_step rid b c) c = false.
Proof.
  destruct c as [id p source|id].
  - destruct (spec_step_upsert rid b id p source) as [Hp Hs]. simpl in *. rewrite Hp, bool_decide_true by done. simpl.
    destruct source as [s|]; [|done]. by rewrite (Hs s), bool_decide_true.
  - destruct (spec_step_remove rid b id) as [Hp _]. simpl in *. by rewrite Hp.
Qed.

Lemma spec_step_root rid b id p source :
  b_roots b id = Some rid \/ b_paths b id <> Some p \/ (exists s, source = Some s /\ b_inputs b id <> Some (target s)) ->
  b_roots (spec_step rid b (Upsert id p source)) id = Some rid.
Proof.
  unfold spec_step. destruct (changes_something b (Upsert id p source)) eqn:E; simpl; [by rewrite fn_lookup_insert|].
  simpl in E. apply orb_false_iff in E as [E1%negb_false_iff%bool_decide_eq_true E2]. intros [?|[?|(s & -> & Hs)]]; [done..|].
  by apply negb_false_iff, bool_decide_eq_true in E2.
Qed.

(** A batch that names each file once, file by file. *)
Record batch_facts (f : Files) (rid : SourceRootId) (cs : list SourceBatchChange) (f' : Files) : Prop := MkFacts {
  facts_wf : files_wf f';
  facts_there : forall rid', is_Some (try_source_root f rid') -> is_Some (try_source_root f' rid');
  facts_others : forall rid' id, rid' <> rid -> path_in f' rid' id = path_in f rid' id;
  facts_same : forall id, id ∉ change_id <$> cs ->
    path_in f' rid id = path_in f rid id /\ inputs_of f' id = inputs_of f id /\ root_of f' id = root_of f id;
  facts_upsert : forall id p s, Upsert id p (Some s) ∈ cs ->
    path_in f' rid id = Some p /\ inputs_of f' id = Some (target s) /\
    (root_of f id = Some rid \/ path_in f rid id <> Some p \/ inputs_of f id <> Some (target s) -> root_of f' id = Some rid);
  facts_remove : forall id, Remove id ∈ cs ->
    path_in f' rid id = None /\ root_of f' id = root_of f id /\
    (forall p, path_in f rid id = Some p -> is_bsl_source_path p = false -> inputs_of f' id = inputs_of f id);
}.

Lemma batch_by_file f rid cs :
  files_wf f -> is_Some (try_source_root f rid) -> Forall admissible cs -> NoDup (change_id <$> cs) ->
  exists f' e, apply_source_batch f rid cs = Some (f', e) /\ batch_facts f rid cs f' /\
    changed_file_ids e = change_id <$> filter (fun c => changes_something (batch_state f rid) c = true) cs.
Proof.
  intros Hwf Hr Ha Hnd. destruct (batch_refines f rid cs Hwf Hr Ha) as (f' & e & E & D). exists f', e. split; [done|].
  set (b := batch_state f rid) in *. split; [|by rewrite (done_changed _ _ _ _ _ D), spec_changed_once].
  assert (forall id, same_at id (foldl (spec_step rid) b cs) (batch_state f' rid)) as Hb'.
  { intros id. split; [apply (done_inputs _ _ _ _ _ D)|split; [apply (done_paths _ _ _ _ _ D)|apply (done_roots _ _ _ _ _ D)]]. }
  assert (forall c, c ∈ cs -> exists b1, same_at (change_id c) b b1 /\ same_at (change_id c) (spec_step rid b1 c) (batch_state f' rid)) as Hat.
  { intros c Hc. destruct (spec_fold_at rid cs b c Hnd Hc) as (b1 & Hs1 & (H1 & H2 & H3)). exists b1. split; [done|].
    destruct (Hb' (change_id c)) as (H4 & H5 & H6). unfold same_at. by rewrite H4, H5, H6. }
  split.
  - apply D.
  - intros rid' Hi. destruct (decide (rid' = rid)) as [->|Hn]; [apply D|]. by rewrite (done_others _ _ _ _ _ D).
  - intros rid' id Hn. unfold path_in. by rewrite (done_others _ _ _ _ _ D).
  - intros id Hid. destruct (Hb' id) as (Hi & Hp & Hro), (spec_fold_other rid cs b id Hid) as (Hi' & Hp' & Hr').
    simpl in *. by rewrite Hp, Hi, Hro, Hi', Hp', Hr'.
  - intros id p s Hc. destruct (Hat _ Hc) as (b1 & (Hi1 & Hp1 & Hr1) & (Hi & Hp & Hro)). simpl in *.
    destruct (spec_step_upsert rid b1 id p (Some s)) as [H1 H2]. rewrite Hp, Hi, Hro. split; [done|]. split; [by apply H2|].
    intros Hc'. apply spec_step_root. rewrite Hr1, Hp1, Hi1. naive_solver.
  - intros id Hc. destruct (Hat _ Hc) as (b1 & (Hi1 & Hp1 & Hr1) & (Hi & Hp & Hro)). simpl in *.
    destruct (spec_step_remove rid b1 id) as [H1 H2]. rewrite Hp, Hi, Hro. split; [done|].
    unfold spec_step. simpl. rewrite Hp1. unfold b; simpl. destruct (path_in f rid id) as [q|] eqn:Eq; simpl.
    + split; [done|]. intros p [= <-] Hq. rewrite Hq. by rewrite Hi1.
    + split; [by rewrite Hr1|]. done.
Qed.

(** C25. A batch does what it says, once.  Whatever mix of insertions, updates and removals a batch
    holds, of different files, under a root that is there: it succeeds; afterwards each file
    inserted stands at its path with the pinned text, the revision and the mark of its source, each
    file removed has no path (its module reads as the empty text), every other file is as it was,
    and the effects name exactly the files for which there was something to do.  Applying the same
    batch again changes nothing, not even an input of the salsa library. *)
Theorem batch_settles f rid cs :
  files_wf f -> is_Some (try_source_root f rid) -> Forall admissible cs -> NoDup (change_id <$> cs) ->
  exists f' e e', apply_source_batch f rid cs = Some (f', e) /\
    (forall c, c ∈ cs ->
       match c with
       | Upsert id p source =>
           path_in f' rid id = Some p /\ (forall s, source = Some s -> inputs_of f' id = Some (target s))
       | Remove id =>
           path_in f' rid id = None /\
           (forall p, path_in f rid id = Some p -> is_bsl_source_path p = true -> inputs_of f' id = Some (target BatchDeleted))
       end) /\
    (forall id, id ∉ change_id <$> cs ->
       path_in f' rid id = path_in f rid id /\ inputs_of f' id = inputs_of f id /\ root_of f' id = root_of f id) /\
    changed_file_ids e = change_id <$> filter (fun c => changes_something (batch_state f rid) c = true) cs /\
    apply_source_batch f' rid cs = Some (f', e') /\ changed_file_ids e' = [].
Proof.
  intros Hwf Hr Ha Hnd. destruct (batch_refines f rid cs Hwf Hr Ha) as (f' & e & E & D).
  destruct (batch_refines f' rid cs (done_wf _ _ _ _ _ D) (done_there _ _ _ _ _ D) Ha) as (f2 & e2 & E2 & D2).
  set (b := batch_state f rid) in *. set (b' := foldl (spec_step rid) b cs).
  assert (forall id, same_at id b' (batch_state f' rid)) as Hb'.
  { intros id. split; [apply (done_inputs _ _ _ _ _ D)|split; [apply (done_paths _ _ _ _ _ D)|apply (done_roots _ _ _ _ _ D)]]. }
  assert (changed_file_ids e2 = []) as Hn2.
  { rewrite (done_changed _ _ _ _ _ D2), spec_changed_once by done. rewrite filter_nothing; [done|]. intros c Hc.
    rewrite (changes_same _ _ _ (Hb' _)). destruct (spec_fold_at rid cs b c Hnd Hc) as (b1 & _ & Hs).
    fold b' in Hs. rewrite (changes_same _ _ _ Hs). by rewrite spec_step_settled. }
  assert (f2 = f') as -> by by apply (done_silent _ _ _ _ _ D2).
  exists f', e, e2. split; [done|]. split_and!; [| | |done|done].
  - intros c Hc. destruct (spec_fold_at rid cs b c Hnd Hc) as (b1 & Hs1 & Hs). fold b' in Hs.
    destruct (Hb' (change_id c)) as (Hi & Hp & _), Hs as (Hsi & Hsp & _). simpl in Hi, Hp. rewrite Hsi in Hi. rewrite Hsp in Hp.
    destruct c as [id p source|id]; simpl in *; rewrite Hp, Hi; [apply spec_step_upsert|].
    destruct Hs1 as (_ & Hs1 & _). simpl in Hs1. rewrite <- Hs1. apply spec_step_remove.
  - intros id Hid. destruct (Hb' id) as (Hi & Hp & Hro), (spec_fold_other rid cs b id Hid) as (Hi' & Hp' & Hr').
    fold b' in Hi', Hp', Hr'. simpl in Hi, Hp, Hro. by rewrite Hp, Hi, Hro, Hi', Hp', Hr'.
  - by rewrite (done_changed _ _ _ _ _ D), spec_changed_once.
Qed.
End code.

(** A root whose set of files a batch changed is published as a local one, whatever it was. *)
Lemma batch_publishes_local `{ContentRevision} f rid cs f' e :
  apply_source_batch f rid cs = Some (f', e) -> file_set_changed e = true ->
  exists s, try_source_root f' rid = Some (MkSourceRootInput (new_local s) LOW).
Proof.
  unfold apply_source_batch, apply_source_batch_cancellable. destruct cs as [|c cs]; [by intros [= <- <-]|].
  destruct (try_source_root f rid) as [input|]; [|done]. cbn [mbind option_bind].
  destruct (apply_changes _ _ _ _ _ _ (c :: cs)) as [[f1 [[s1 e1]|]]|]; cbn; [|done..].
  intros [= <- <-] He. rewrite He. exists s1. unfold try_source_root; simpl. by rewrite assoc_get_set_eq.
Qed.

(** A module opened, one removed, one that is as it was, and an XML file read anew. *)
#[local] Instance sum_revision : ContentRevision := fun t => Z.to_N (foldr Z.add 0%Z t).

Definition sample_path (c : char) (ext : text) : VfsPath := [RootDir; Normal (c :: 46%Z :: ext)].
Definition sample_ext : text := [98; 115; 108]%Z.

Definition sample_files : Files :=
  MkFiles [(MkFileId 1, MkFileTextInput [5%Z] LOW)]
    [(MkFileId 0, MkFileRevisionInput 7 false LOW LOW); (MkFileId 1, MkFileRevisionInput 5 false LOW LOW);
     (MkFileId 2, MkFileRevisionInput 9 true LOW LOW)]
    [(BSL_SOURCE_ROOT, MkSourceRootInput (new_local (fs_insert (fs_insert FileSet_new (MkFileId 0) (sample_path 97 sample_ext))
        (MkFileId 1) (sample_path 98 sample_ext))) LOW)] [] [] 0.

Lemma batch_settles_witness :
  let batch := [Remove (MkFileId 1); Upsert (MkFileId 0) (sample_path 97 sample_ext) (Some (DiskRevision 7));
                Upsert (MkFileId 3) (sample_path 99 sample_ext) (Some (Overlay [1; 2]%Z))] in
  exists f' e e', apply_source_batch sample_files BSL_SOURCE_ROOT batch = Some (f', e) /\
    inputs_of f' (MkFileId 1) = Some (MkFileInputs (Some []) 0 false) /\
    changed_file_ids e = [MkFileId 1; MkFileId 3] /\
    apply_source_batch f' BSL_SOURCE_ROOT batch = Some (f', e').
Proof.
  intros batch. destruct (batch_settles sample_files BSL_SOURCE_ROOT batch) as (f' & e & e' & E & Hc & _ & He & E' & _).
  - split; [apply NoDup_singleton|]. intros rid input. unfold try_source_root. simpl. case_decide; [|done]. intros [= <-].
    unfold fs_wf, assoc_wf. simpl. repeat constructor; try apply not_elem_of_nil. by intros ?%list_elem_of_singleton.
  - by eexists.
  - repeat constructor.
  - repeat constructor; rewrite ?not_elem_of_cons, ?list_elem_of_singleton; repeat split; try done; apply not_elem_of_nil.
  - exists f', e, e'. split; [exact E|]. split; [|split; [|exact E']].
    + destruct (Hc (Remove (MkFileId 1))) as [_ H1]; [by left|]. rewrite (H1 (sample_path 98 sample_ext)).
      * reflexivity.
      * reflexivity.
      * vm_compute. reflexivity.
    + rewrite He. vm_compute. reflexivity.
Defined.
