(* ===== verification/Workspace.v ===== *)
(** Workspace: the owner of the files on disk, its journal of publications, and the views of the
    editors (crates/ide-host-core/src/workspace.rs).

    The inputs of the metadata live in crates/ide-db and are the class [MetadataInputs]: the
    snapshot of the configurations and the listing of each root.  A [HashSet] and a [HashMap] keep
    no order; here they have the order of insertion, which the results do not depend on.  The
    gate that tests set while a view is seeded is left out. *)
From stdpp Require Import prelude sorting.
From S2P Require Import Prelude Interning Paths Vfs Inputs Load.

Class MetadataInputs := {
  Configs : Set;
  Configs_eq_dec :: EqDecision Configs;
  no_configs : Configs;
  config_roots : Configs -> list Path;
  Listing : Set;
  config_key : Path -> text;
}.

Definition JOURNAL_CAPACITY : nat := 64.
Definition U64_MAX : N := 18446744073709551615.

Definition saturating_succ (n : N) : N := N.min (n + 1) U64_MAX.

Inductive DiskFileState : Set := Readable (rev : N) | UnreadableFile | DeletedFile.

#[export] Instance DiskFileState_eq_dec : EqDecision DiskFileState.
Proof. solve_decision. Defined.

Record CatalogFile : Set := MkCatalogFile { cat_id : FileId; cat_path : Path; cat_state : DiskFileState }.

Record SnapshotSourceRoot : Set := MkSnapshotRoot { sroot_id : SourceRootId; sroot : SourceRoot }.

Record SnapshotFile : Set := MkSnapshotFile {
  snap_id : FileId;
  snap_path : Path;
  snap_root : SourceRootId;
  snap_state : DiskFileState;
}.

#[export] Instance SnapshotFile_eq_dec : EqDecision SnapshotFile.
Proof. solve_decision. Defined.

(** ** The catalog: one interner shared by every adapter *)

Record CatalogState : Set := MkCatalog {
  catalog_vfs : Vfs;
  catalog_files : list (Path * CatalogFile);
  listed : N;
}.

(** [None] where the look-up of a path panics.  The ids below [listed] grow to [num_file_ids]. *)
Fixpoint list_allocated (fuel : nat) (c : CatalogState) : option CatalogState :=
  if (listed c <? num_file_ids (catalog_vfs c))%N then
    match fuel with
    | O => None
    | S fuel =>
        let id := MkFileId (listed c) in
        path ← vfs_file_path (catalog_vfs c) id;
        let files := match assoc_get path (catalog_files c) with
                     | Some _ => catalog_files c
                     | None => assoc_set path (MkCatalogFile id path DeletedFile) (catalog_files c)
                     end in
        list_allocated fuel (MkCatalog (catalog_vfs c) files (listed c + 1))
    end
  else Some c.

Definition list_all (c : CatalogState) : option CatalogState := list_allocated (length (data (catalog_vfs c))) c.

Definition CatalogState_new (v : Vfs) : option CatalogState := list_all (MkCatalog v [] 0).

Definition catalog_alloc (c : CatalogState) (p : Path) : option (FileId * CatalogState) :=
  let (id, v) := alloc_file_id (catalog_vfs c) p in
  c ← list_all (MkCatalog v (catalog_files c) (listed c));
  Some (id, c).

(** The error is the id the path has. *)
Definition register_path (c : CatalogState) (p : Path) (id : FileId) : option ((FileId + unit) * CatalogState) :=
  match assoc_get p (catalog_files c) with
  | Some existing => Some (if decide (cat_id existing = id) then inr () else inl (cat_id existing), c)
  | None =>
      '(id', c) ← catalog_alloc c p;
      Some (if decide (id' = id) then inr () else inl id', c)
  end.

Definition catalog_file_id (c : CatalogState) (p : Path) : option FileId := cat_id <$> assoc_get p (catalog_files c).

Definition catalog_path (c : CatalogState) (id : FileId) : option Path :=
  found ← list_find (fun f => cat_id f.2 = id) (catalog_files c); Some (cat_path found.2.2).

Definition catalog_list (c : CatalogState) : list CatalogFile := (catalog_files c).*2.

(** [with_vfs], whose caller may do anything with the interner. *)
Definition with_vfs {R} (c : CatalogState) (g : Vfs -> R * Vfs) : option (R * CatalogState) :=
  let (r, v) := g (catalog_vfs c) in
  c ← list_all (MkCatalog v (catalog_files c) (listed c));
  Some (r, c).

Definition set_state (c : CatalogState) (f : CatalogFile) : CatalogState :=
  MkCatalog (catalog_vfs c) (assoc_set (cat_path f) f (catalog_files c)) (listed c).

(** ** Publications *)

Record PublishedChange : Set := MkPublished {
  pub_generation : N;
  pub_file_ids : list FileId;
  pub_paths : list Path;
  metadata_changed : bool;
}.

Definition component_rank (c : Component) : Z :=
  match c with RootDir => 0 | CurDir => 1 | ParentDir => 2 | Normal _ => 3 end.

Definition component_leb (x y : Component) : bool :=
  match x, y with
  | Normal a, Normal b => text_leb a b
  | _, _ => (component_rank x <=? component_rank y)%Z
  end.

(** The order of paths, component by component. *)
Fixpoint path_leb (p q : Path) : bool :=
  match p, q with
  | [], _ => true
  | _ :: _, [] => false
  | x :: p, y :: q => if decide (x = y) then path_leb p q else component_leb x y
  end.

Definition id_le (a b : FileId) : Prop := (index a <= index b)%N.
Definition path_le (p q : Path) : Prop := path_leb p q = true.

#[export] Instance id_le_dec : RelDecision id_le.
Proof. intros a b. unfold id_le. apply _. Defined.

#[export] Instance path_le_dec : RelDecision path_le.
Proof. intros p q. unfold path_le. apply _. Defined.

Definition batch_le (x y : SourceRootId * list SourceBatchChange) : Prop := (root_index x.1 <= root_index y.1)%N.

#[export] Instance batch_le_dec : RelDecision batch_le.
Proof. intros a b. unfold batch_le. apply _. Defined.

(** ** The database *)

Section code.
Context `{MetadataInputs} `{ContentRevision}.

Record Db : Set := MkDb {
  files : Files;
  configs : Configs;
  listings : list (text * Listing);
  load_complete : bool;
  prepared_metadata_inputs : bool;
}.

Definition Db_new : Db := MkDb Files_new no_configs [] false false.

Definition with_files (db : Db) (f : Files) : Db :=
  MkDb f (configs db) (listings db) (load_complete db) (prepared_metadata_inputs db).

Definition set_configs (db : Db) (c : Configs) : Db :=
  MkDb (files db) c (listings db) (load_complete db) (prepared_metadata_inputs db).

Definition set_listing (db : Db) (p : Path) (l : Listing) : Db :=
  MkDb (files db) (configs db) (assoc_set (config_key p) l (listings db)) (load_complete db) (prepared_metadata_inputs db).

Definition set_load_complete (db : Db) (b : bool) : Db :=
  MkDb (files db) (configs db) (listings db) b (prepared_metadata_inputs db).

Definition use_prepared_metadata_inputs (db : Db) : Db :=
  MkDb (files db) (configs db) (listings db) (load_complete db) true.

Definition db_apply_batch (db : Db) (rid : SourceRootId) (cs : list SourceBatchChange) : option (Db * SourceBatchEffects) :=
  '(f, e) ← apply_source_batch (files db) rid cs; Some (with_files db f, e).

(** ** Snapshots *)

Record WorkspaceSnapshot : Set := MkSnapshot {
  snap_generation : N;
  metadata_ready : bool;
  snap_configs : Configs;
  snap_roots : list SnapshotSourceRoot;
  snap_files : list SnapshotFile;
  snap_catalog : list CatalogFile;
  snap_metadata : list (Path * Listing);
}.

Definition state_of_revision (r : FileRevisionInput) : DiskFileState :=
  if unreadable r then UnreadableFile else Readable (revision r).

(** The files of a root that have a revision. *)
Definition captured_files (f : Files) (rid : SourceRootId) (r : SourceRoot) : list SnapshotFile :=
  omap (fun id => p ← path_for_file (file_set r) id; rev ← try_file_revision f id;
                  Some (MkSnapshotFile id p rid (state_of_revision rev))) (root_iter r).

Definition captured_roots (f : Files) : list SnapshotSourceRoot :=
  omap (fun rid => input ← try_source_root f rid; Some (MkSnapshotRoot rid (root input)))
    [BSL_SOURCE_ROOT; METADATA_SOURCE_ROOT].

Definition capture (db : Db) (generation : N) : WorkspaceSnapshot :=
  let roots := captured_roots (files db) in
  let fs := r ← roots; captured_files (files db) (sroot_id r) (sroot r) in
  MkSnapshot generation (load_complete db) (configs db) roots fs
    ((fun f => MkCatalogFile (snap_id f) (snap_path f) (snap_state f)) <$> fs)
    (omap (fun p => l ← assoc_get (config_key p) (listings db); Some (p, l)) (config_roots (configs db))).

Inductive CatchUp : Set :=
  | Current
  | Changes (cs : list PublishedChange)
  | Reseed (s : WorkspaceSnapshot).

(** ** The owner *)

Record WorkspaceBackend : Set := MkBackend {
  host : Db;
  generation : N;
  journal : list PublishedChange;
  catalog : CatalogState;
}.

Definition backend_snapshot (b : WorkspaceBackend) : WorkspaceSnapshot :=
  let s := capture (host b) (generation b) in
  MkSnapshot (snap_generation s) (metadata_ready s) (snap_configs s) (snap_roots s) (snap_files s)
    (catalog_list (catalog b)) (snap_metadata s).

(** What the catalog says of a file of a root: not read when it has no revision. *)
Definition present_files (f : Files) : list CatalogFile :=
  r ← captured_roots f;
  omap (fun id => p ← path_for_file (file_set (sroot r)) id;
                  Some (MkCatalogFile id p
                          match try_file_revision f id with Some rev => state_of_revision rev | None => UnreadableFile end))
    (root_iter (sroot r)).

Definition in_some_root (f : Files) (id : FileId) : bool :=
  existsb (fun rid => match try_source_root f rid with
                      | Some input => bool_decide (is_Some (path_for_file (file_set (root input)) id))
                      | None => false
                      end) [BSL_SOURCE_ROOT; METADATA_SOURCE_ROOT].

Definition reconcile_catalog (f : Files) (c : CatalogState) : CatalogState :=
  let present := foldl (fun m file => assoc_set (cat_path file) file m) [] (present_files f) in
  let c := foldl set_state c present.*2 in
  foldl (fun c file =>
    if in_some_root f (cat_id file) then c
    else set_state c (MkCatalogFile (cat_id file) (cat_path file) DeletedFile)) c (catalog_list c).

Definition rebuild_catalog (f : Files) (c : CatalogState) : option CatalogState :=
  foldl (fun acc file => c ← acc; '(_, c) ← register_path c (cat_path file) (cat_id file); Some (set_state c file))
    (Some c) (present_files f).

Definition with_bsl_root (db : Db) : Db :=
  match try_source_root (files db) BSL_SOURCE_ROOT with
  | Some _ => db
  | None => with_files db (set_source_root (files db) BSL_SOURCE_ROOT (new_local FileSet_new))
  end.

Definition Backend_new (db : Db) : option WorkspaceBackend :=
  let db := with_bsl_root db in
  c ← CatalogState_new Vfs_new;
  c ← rebuild_catalog (files db) c;
  Some (MkBackend db 0 [] c).

Definition with_catalog (db : Db) (c : CatalogState) : WorkspaceBackend := MkBackend (with_bsl_root db) 0 [] c.

Definition publish_change (b : WorkspaceBackend) (file_ids : list FileId) (paths : list Path) (metadata_changed : bool)
    : option PublishedChange * WorkspaceBackend :=
  let file_ids := dedup (merge_sort id_le file_ids) in
  let paths := dedup (merge_sort path_le paths) in
  match file_ids, paths, metadata_changed with
  | [], [], false => (None, b)
  | _, _, _ =>
      let g := saturating_succ (generation b) in
      let change := MkPublished g file_ids paths metadata_changed in
      let c := reconcile_catalog (files (host b)) (catalog b) in
      let j := journal b ++ [change] in
      let j := if (JOURNAL_CAPACITY <? length j)%nat then tail j else j in
      (Some change, MkBackend (host b) g j c)
  end.

Definition publish_full_rebuild_from (b : WorkspaceBackend) (previous : N) : N * WorkspaceBackend :=
  let g := saturating_succ previous in
  (g, MkBackend (host b) g [] (reconcile_catalog (files (host b)) (catalog b))).

Definition publish_full_rebuild (b : WorkspaceBackend) : N * WorkspaceBackend := publish_full_rebuild_from b (generation b).

(** The sum overflows only at the largest generation. *)
Definition changes_since (b : WorkspaceBackend) (g : N) : CatchUp :=
  if (g =? generation b)%N then Current
  else if (generation b <? g)%N then Reseed (backend_snapshot b)
  else
    let oldest := match journal b with c :: _ => pub_generation c | [] => (generation b + 1)%N end in
    if (saturating_succ g <? oldest)%N then Reseed (backend_snapshot b)
    else Changes (filter (fun c => (g < pub_generation c)%N) (journal b)).

(** The batches in the order of their roots, then the metadata, then one publication. *)
Definition apply_batches (b : WorkspaceBackend) (batches : list (SourceRootId * list SourceBatchChange))
    (update_metadata : Db -> SourceBatchEffects -> Db * bool) : option (option PublishedChange * WorkspaceBackend) :=
  let batches := merge_sort batch_le batches in
  '(db, e) ← foldl (fun acc batch =>
      '(db, e) ← acc;
      '(db, e') ← db_apply_batch db batch.1 batch.2;
      Some (db, MkEffects (file_set_changed e || file_set_changed e') (bsl_source_changed e || bsl_source_changed e')
                  (changed_file_ids e ++ changed_file_ids e') (affected_paths e ++ affected_paths e')))
    (Some (host b, no_effects)) batches;
  let (db, changed) := update_metadata db e in
  Some (publish_change (MkBackend db (generation b) (journal b) (catalog b)) (changed_file_ids e) (affected_paths e) changed).

(** [apply_source_batch] of the owner. *)
Definition backend_apply_source_batch (b : WorkspaceBackend) (cs : list SourceBatchChange)
    (update_metadata : Db -> SourceBatchEffects -> Db * bool) : option (option PublishedChange * WorkspaceBackend) :=
  apply_batches b [(BSL_SOURCE_ROOT, cs)] update_metadata.

(** ** The view of an editor *)

Record EditorView : Set := MkView {
  view_db : Db;
  view_generation : N;
  disk : WorkspaceSnapshot;
  open_files : list (FileId * (Path * text));
}.

Definition source_for_state (s : DiskFileState) : BatchTextSource :=
  match s with
  | Readable r => DiskRevision r
  | UnreadableFile => Unreadable
  | DeletedFile => BatchDeleted
  end.

Definition upsert_of (f : SnapshotFile) : SourceBatchChange :=
  Upsert (snap_id f) (snap_path f) (Some (source_for_state (snap_state f))).

(** [open], and what [change] does when the file is open. *)
Definition view_open (v : EditorView) (id : FileId) (p : Path) (t : text) : option EditorView :=
  '(db, _) ← db_apply_batch (view_db v) BSL_SOURCE_ROOT [Upsert id p (Some (Overlay t))];
  Some (MkView db (view_generation v) (disk v) (assoc_set id (p, t) (open_files v))).

Definition view_change (v : EditorView) (id : FileId) (t : text) : option (bool * EditorView) :=
  match assoc_get id (open_files v) with
  | None => Some (false, v)
  | Some (p, _) => v ← view_open v id p t; Some (true, v)
  end.

Definition view_saved (v : EditorView) (id : FileId) : bool := bool_decide (is_Some (assoc_get id (open_files v))).

Definition restore_disk_file (v : EditorView) (id : FileId) : option EditorView :=
  '(db, _) ← match list_find (fun f => snap_id f = id) (snap_files (disk v)) with
             | Some (_, f) => db_apply_batch (view_db v) (snap_root f) [upsert_of f]
             | None => db_apply_batch (view_db v) BSL_SOURCE_ROOT [Remove id]
             end;
  Some (MkView db (view_generation v) (disk v) (open_files v)).

Definition view_close (v : EditorView) (id : FileId) : option (bool * EditorView) :=
  match assoc_get id (open_files v) with
  | None => Some (false, v)
  | Some _ =>
      v ← restore_disk_file (MkView (view_db v) (view_generation v) (disk v) (assoc_remove id (open_files v))) id;
      Some (true, v)
  end.

(** A seeding asks [cancelled] again and again; it answers the n-th question.  A batch asks before
    each of its changes and once after them, an empty one does not ask. *)
Definition batch_questions (cs : list SourceBatchChange) : nat := match cs with [] => 0 | _ => S (length cs) end.

(** The database as far as it came, and the questions so far; nothing when it was cancelled. *)
Fixpoint seed_roots (cancelled : nat -> bool) (n : nat) (s : WorkspaceSnapshot) (db : Db) (rs : list SnapshotSourceRoot)
    : option (Db * option nat) :=
  match rs with
  | [] => Some (db, Some n)
  | r :: rs =>
      if cancelled n then Some (db, None)
      else
        let f := set_source_root (files db) (sroot_id r) (sroot r) in
        let changes := upsert_of <$> filter (fun f => snap_root f = sroot_id r) (snap_files s) in
        '(f, done) ← apply_source_batch_cancellable f (sroot_id r) changes (fun i => cancelled (S n + i));
        match done with
        | None => Some (with_files db f, None)
        | Some _ => seed_roots cancelled (S n + batch_questions changes) s (with_files db f) rs
        end
  end.

Fixpoint seed_listings (cancelled : nat -> bool) (n : nat) (db : Db) (ls : list (Path * Listing)) : Db * option nat :=
  match ls with
  | [] => (db, Some n)
  | l :: ls => if cancelled n then (db, None) else seed_listings cancelled (S n) (set_listing db l.1 l.2) ls
  end.

Definition seed_cancellable (v : EditorView) (s : WorkspaceSnapshot) (cancelled : nat -> bool) : option (bool * EditorView) :=
  let stopped db := Some (false, MkView db (view_generation v) (disk v) (open_files v)) in
  let db := set_configs (with_bsl_root (view_db v)) (snap_configs s) in
  '(db, asked) ← seed_roots cancelled 0 s db (snap_roots s);
  match asked with
  | None => stopped db
  | Some n =>
      match seed_listings cancelled n db (snap_metadata s) with
      | (db, None) => stopped db
      | (db, Some n) =>
          if cancelled n then stopped db
          else
            let db := use_prepared_metadata_inputs (set_load_complete db (metadata_ready s)) in
            Some (true, MkView db (snap_generation s) s (open_files v))
      end
  end.

Definition seed (v : EditorView) (s : WorkspaceSnapshot) : option EditorView :=
  '(done, v) ← seed_cancellable v s (fun _ => false); if done : bool then Some v else None.

(** The view, nothing when it was cancelled. *)
Definition prepare (s : WorkspaceSnapshot) (cancelled : nat -> bool) : option (option EditorView) :=
  '(done, v) ← seed_cancellable (MkView Db_new 0 s []) s cancelled; Some (if done : bool then Some v else None).

Definition EditorView_new (s : WorkspaceSnapshot) : option EditorView := v ← prepare s (fun _ => false); v.

(** The loop over the listings, in [catch_up_deltas]. *)
Definition set_listings (db : Db) (s : WorkspaceSnapshot) : Db :=
  foldl (fun db l => set_listing db l.1 l.2) db (snap_metadata s).

Definition reopen (acc : option EditorView) (o : FileId * (Path * text)) : option EditorView :=
  v ← acc; view_open v o.1 o.2.1 o.2.2.

Definition replace_from_prepared (v prepared : EditorView) : option (bool * EditorView) :=
  if (view_generation prepared <? view_generation v)%N then Some (false, v)
  else v ← foldl reopen (Some prepared) (open_files v); Some (true, v).

(** ** Catching up *)

Fixpoint contiguous (g : N) (cs : list PublishedChange) : bool :=
  match cs with
  | [] => true
  | c :: cs => (pub_generation c =? g + 1)%N && contiguous (pub_generation c) cs
  end.

(** Whether the publications lead from one generation to the other: there is one, the first is the
    next, each follows the one before, the last is the snapshot's. *)
Definition suffix_ok (from to : N) (cs : list PublishedChange) : bool :=
  contiguous from cs &&
  match last cs with Some c => (pub_generation c =? to)%N | None => false end.

Definition metadata_files (s : WorkspaceSnapshot) : list (FileId * SnapshotFile) :=
  foldl (fun m f => assoc_set (snap_id f) f m) [] (filter (fun f => snap_root f = METADATA_SOURCE_ROOT) (snap_files s)).

Definition differs (m : list (FileId * SnapshotFile)) (f : FileId * SnapshotFile) : bool :=
  match assoc_get f.1 m with
  | None => true
  | Some g => negb (bool_decide (snap_path g = snap_path f.2)) || negb (bool_decide (snap_state g = snap_state f.2))
  end.

Definition changed_set (v : EditorView) (s : WorkspaceSnapshot) (cs : list PublishedChange) : list FileId :=
  let changed := cs ≫= pub_file_ids in
  let changed :=
    if existsb metadata_changed cs then
      let previous := metadata_files (disk v) in
      let next := metadata_files s in
      changed ++ (filter (fun f => differs next f = true) previous).*1 ++ (filter (fun f => differs previous f = true) next).*1
    else changed in
  remove_dups changed.

Definition next_files (s : WorkspaceSnapshot) : list (FileId * SnapshotFile) :=
  foldl (fun m f => assoc_set (snap_id f) f m) [] (snap_files s).

Definition is_open (v : EditorView) (id : FileId) : bool := bool_decide (is_Some (assoc_get id (open_files v))).

(** The removals of one root, then its insertions. *)
Definition root_batch (v : EditorView) (s : WorkspaceSnapshot) (changed : list FileId) (rid : SourceRootId)
    (current : list FileId) : list SourceBatchChange :=
  let next := next_files s in
  (Remove <$> filter (fun id => id ∈ changed /\ is_open v id = false /\ snap_root <$> assoc_get id next <> Some rid) current) ++
  omap (fun id => if is_open v id then None
                  else f ← assoc_get id next; if decide (snap_root f = rid) then Some (upsert_of f) else None) changed.

Definition ensure_root (db : Db) (s : WorkspaceSnapshot) (rid : SourceRootId) : Db :=
  if existsb (fun r => bool_decide (sroot_id r = rid)) (snap_roots s) && bool_decide (try_source_root (files db) rid = None) then
    with_files db (set_source_root (files db) rid
      (if decide (rid = METADATA_SOURCE_ROOT) then new_metadata FileSet_new else new_local FileSet_new))
  else db.

Definition catch_up_root (v : EditorView) (s : WorkspaceSnapshot) (changed : list FileId) (acc : option Db)
    (rid : SourceRootId) : option Db :=
  db ← acc;
  let db := ensure_root db s rid in
  match try_source_root (files db) rid with
  | Some input =>
      '(db, _) ← db_apply_batch db rid (root_batch v s changed rid (root_iter (root input)));
      Some db
  | None => Some db
  end.

Definition catch_up_deltas (v : EditorView) (s : WorkspaceSnapshot) (cs : list PublishedChange) : option (bool * EditorView) :=
  if (snap_generation s <? view_generation v)%N then Some (false, v)
  else if (snap_generation s =? view_generation v)%N then Some (bool_decide (cs = []), v)
  else if negb (suffix_ok (view_generation v) (snap_generation s) cs) then Some (false, v)
  else
    let changed := changed_set v s cs in
    db ← foldl (catch_up_root v s changed) (Some (view_db v)) [BSL_SOURCE_ROOT; METADATA_SOURCE_ROOT];
    let db := if decide (configs db = snap_configs s) then db else set_configs db (snap_configs s) in
    let db := set_listings db s in
    let db := if eqb (load_complete db) (metadata_ready s) then db else set_load_complete db (metadata_ready s) in
    let v := MkView db (snap_generation s) s (open_files v) in
    v ← foldl (fun acc id =>
        v ← acc;
        match assoc_get id (open_files v) with Some (p, t) => view_open v id p t | None => Some v end) (Some v) changed;
    Some (true, v).

Definition catch_up (v : EditorView) (s : WorkspaceSnapshot) (cs : list PublishedChange) : option EditorView :=
  if (snap_generation s <? view_generation v)%N then Some v
  else
    '(done, v') ← catch_up_deltas v s cs;
    if done : bool then Some v'
    else
      v'' ← seed (MkView Db_new (view_generation v') (disk v') []) s;
      foldl reopen (Some v'') (open_files v').
End code.
