(* ===== verification/JournalSpec.v ===== *)
(** JournalSpec: what the owner of a workspace answers of its publications
    (crates/ide-host-core/src/workspace.rs). *)
From stdpp Require Import prelude sorting.
From S2P Require Import Prelude Interning Paths Vfs Inputs Load Workspace.

Section code.
Context `{MetadataInputs} `{ContentRevision}.

(** ** The histories of an owner *)

(** Between publications the owner writes its database; [since] are the publications after the
    last full rebuild (or the start), [base] the generation that one had. *)
Inductive Publishes (g0 : N) : N -> list PublishedChange -> WorkspaceBackend -> Prop :=
  | pub_start db c : Publishes g0 g0 [] (MkBackend db g0 [] c)
  | pub_write base since b db : Publishes g0 base since b -> Publishes g0 base since (MkBackend db (generation b) (journal b) (catalog b))
  | pub_change base since b ids ps m change b' :
      Publishes g0 base since b -> publish_change b ids ps m = (Some change, b') ->
      Publishes g0 base (since ++ [change]) b'
  | pub_nothing base since b ids ps m b' :
      Publishes g0 base since b -> publish_change b ids ps m = (None, b') -> Publishes g0 base since b'
  | pub_rebuild base since b g b' :
      Publishes g0 base since b -> publish_full_rebuild b = (g, b') -> Publishes g0 g [] b'.

Lemma contiguous_cons g c cs :
  contiguous g (c :: cs) = true <-> pub_generation c = (g + 1)%N /\ contiguous (g + 1) cs = true.
Proof. simpl. rewrite andb_true_iff, N.eqb_eq. split; [by intros [-> ?]|by intros [-> ?]]. Qed.

Lemma contiguous_snoc g cs c :
  contiguous g (cs ++ [c]) = true <-> contiguous g cs = true /\ pub_generation c = (g + N.of_nat (length cs) + 1)%N.
Proof.
  revert g. induction cs as [|c' cs IH]; intros g.
  - simpl. rewrite andb_true_r, N.eqb_eq, N.add_0_r. naive_solver.
  - rewrite <- app_comm_cons, !contiguous_cons, IH. simpl length.
    replace (g + N.of_nat (S (length cs)))%N with (g + 1 + N.of_nat (length cs))%N by lia. naive_solver.
Qed.

Lemma contiguous_later g cs n : contiguous g cs = true -> (n <= g)%N -> filter (fun c => (n < pub_generation c)%N) cs = cs.
Proof.
  revert g. induction cs as [|c cs IH]; intros g Hc Hn; [done|]. apply contiguous_cons in Hc as [Hg Hc].
  rewrite filter_cons, decide_True by lia. f_equal. apply (IH (g + 1)%N); [done|lia].
Qed.

(** The publications after a generation are a suffix. *)
Lemma contiguous_filter g cs n :
  contiguous g cs = true -> (g <= n)%N -> filter (fun c => (n < pub_generation c)%N) cs = drop (N.to_nat (n - g)) cs.
Proof.
  revert g. induction cs as [|c cs IH]; intros g Hc Hn; [by destruct (N.to_nat _)|].
  destruct (decide (n = g)) as [->|Hne].
  - rewrite N.sub_diag. simpl drop. by apply (contiguous_later g).
  - apply contiguous_cons in Hc as [Hg Hc]. rewrite filter_cons, decide_False by lia.
    rewrite (IH (g + 1)%N) by (done || lia). by replace (N.to_nat (n - g)) with (S (N.to_nat (n - (g + 1)))) by lia.
Qed.

Lemma contiguous_drop g cs k : contiguous g cs = true -> contiguous (g + N.of_nat (min k (length cs))) (drop k cs) = true.
Proof.
  revert g k. induction cs as [|c cs IH]; intros g [|k] Hc; simpl; rewrite ?N.add_0_r; try done.
  apply contiguous_cons in Hc as [_ Hc]. specialize (IH (g + 1)%N k Hc).
  by replace (g + N.of_nat (S (min k (length cs))))%N with (g + 1 + N.of_nat (min k (length cs)))%N by lia.
Qed.

Lemma contiguous_last g cs c : contiguous g cs = true -> last cs = Some c -> pub_generation c = (g + N.of_nat (length cs))%N.
Proof.
  intros Hc Hl. apply last_Some in Hl as [l ->]. apply contiguous_snoc in Hc as [_ ->]. rewrite length_app. simpl. lia.
Qed.

(** ** The invariant of an owner *)

Record journal_ok (base : N) (since : list PublishedChange) (b : WorkspaceBackend) : Prop := MkJournalOk {
  jok_contiguous : contiguous base since = true;
  jok_generation : generation b = (base + N.of_nat (length since))%N;
  jok_journal : journal b = drop (length since - JOURNAL_CAPACITY) since;
}.

Lemma publish_generation b ids ps m c b' :
  publish_change b ids ps m = (Some c, b') ->
  pub_generation c = saturating_succ (generation b) /\ generation b' = saturating_succ (generation b) /\
  journal b' = (let j := journal b ++ [c] in if (JOURNAL_CAPACITY <? length j)%nat then tail j else j).
Proof.
  unfold publish_change. destruct (dedup _), (dedup _), m; intros [= <- <-]; done.
Qed.

Lemma publish_none b ids ps m b' : publish_change b ids ps m = (None, b') -> b' = b.
Proof. unfold publish_change. by destruct (dedup _), (dedup _), m; intros [=]. Qed.

Lemma publish_generation_le b ids ps m c b' :
  publish_change b ids ps m = (c, b') -> (generation b <= U64_MAX)%N -> (generation b <= generation b')%N.
Proof.
  destruct c as [c|].
  - intros (_ & -> & _)%publish_generation. unfold saturating_succ. lia.
  - by intros ->%publish_none.
Qed.

Lemma journal_push (since : list PublishedChange) c :
  (let j := drop (length since - JOURNAL_CAPACITY) since ++ [c] in if (JOURNAL_CAPACITY <? length j)%nat then tail j else j)
  = drop (length (since ++ [c]) - JOURNAL_CAPACITY) (since ++ [c]).
Proof.
  simpl. rewrite !length_app, length_drop. simpl. unfold JOURNAL_CAPACITY.
  destruct (Nat.ltb_spec 64 (length since - (length since - 64) + 1)) as [Hl|Hl].
  - replace (length since + 1 - 64) with (S (length since - 64)) by lia.
    rewrite drop_app_le by lia. destruct (drop (length since - 64) since) as [|x l] eqn:E.
    + apply (f_equal length) in E. rewrite length_drop in E. simpl in E. lia.
    + simpl. f_equal. replace (S (length since - 64)) with ((length since - 64) + 1) by lia. rewrite <- drop_drop, E. done.
  - replace (length since - 64) with 0 by lia. by replace (length since + 1 - 64) with 0 by lia.
Qed.

Lemma publishes_ok g0 base since b : Publishes g0 base since b -> (generation b < U64_MAX)%N -> journal_ok base since b.
Proof.
  induction 1 as [db c|base since b db _ IH|base since b ids ps m c b' _ IH E|base since b ids ps m b' _ IH E|base since b g b' _ IH E];
    intros Hg.
  - split; simpl; [done|lia|done].
  - destruct (IH Hg). by split.
  - destruct (publish_generation _ _ _ _ _ _ E) as (Hc & Hb & Hj). unfold saturating_succ in *.
    destruct IH as [H1 H2 H3]; [lia|]. split.
    + apply contiguous_snoc. split; [done|]. lia.
    + rewrite length_app. simpl. lia.
    + by rewrite Hj, H3, journal_push.
  - apply publish_none in E as ->. by apply IH.
  - injection E as <- <-. split; simpl; [done|lia|done].
Qed.

Lemma suffix_ok_drop base since b g :
  journal_ok base since b -> (base <= g < generation b)%N ->
  suffix_ok g (generation b) (filter (fun c => (g < pub_generation c)%N) since) = true.
Proof.
  intros [Hc Hg _] Hr. rewrite (contiguous_filter base) by (done || lia). unfold suffix_ok. apply andb_true_iff.
  pose proof (contiguous_drop base since (N.to_nat (g - base)) Hc) as Hd.
  replace (base + N.of_nat (min (N.to_nat (g - base)) (length since)))%N with g in Hd by lia. split; [done|].
  destruct (last (drop (N.to_nat (g - base)) since)) as [c|] eqn:El.
  - apply (contiguous_last _ _ _ Hd) in El. rewrite length_drop in El. apply N.eqb_eq. lia.
  - apply last_None in El. apply (f_equal length) in El. rewrite length_drop in El. simpl in El. lia.
Qed.

Lemma journal_answers base since b g :
  journal_ok base since b -> (generation b < U64_MAX)%N ->
  changes_since b g =
  if (g =? generation b)%N then Current
  else if (generation b <? g)%N || (g <? base)%N || (g + N.of_nat JOURNAL_CAPACITY <? generation b)%N
  then Reseed (backend_snapshot b)
  else Changes (filter (fun c => (g < pub_generation c)%N) since).
Proof.
  intros [Hc Hg Hj] Hm. unfold changes_since. destruct (N.eqb_spec g (generation b)) as [|Hne]; [done|].
  destruct (N.ltb_spec (generation b) g) as [|Hlt]; [done|]. simpl orb. rewrite Hj.
  pose proof (contiguous_drop base since (length since - JOURNAL_CAPACITY) Hc) as Hd.
  unfold saturating_succ, JOURNAL_CAPACITY in *. rewrite Nat.min_l in Hd by lia.
  set (k := length since - 64) in *. assert (length (drop k since) = length since - k) as Hl by apply length_drop.
  assert (match drop k since with c :: _ => pub_generation c | [] => (generation b + 1)%N end = base + N.of_nat k + 1)%N as ->.
  { destruct (drop k since) as [|c l]; simpl in Hl; [lia|]. by apply contiguous_cons in Hd as [-> _]. }
  replace (N.min (g + 1) U64_MAX) with (g + 1)%N by lia.
  destruct (N.ltb_spec (g + 1) (base + N.of_nat k + 1)) as [Hold|Hold].
  - destruct (N.ltb_spec g base); [done|]. simpl. by rewrite (proj2 (N.ltb_lt _ _)) by lia.
  - rewrite (proj2 (N.ltb_ge g base)), (proj2 (N.ltb_ge (g + N.of_nat 64) (generation b))) by lia. simpl. f_equal.
    rewrite (contiguous_filter _ _ g Hd), (contiguous_filter base) by (done || lia). rewrite drop_drop. f_equal. lia.
Qed.

(** C26. The journal loses nothing it does not own up to.  After any publications, rebuilds and
    writes of its database, an owner asked for what is new since a generation says there is
    nothing when it is the current one, and otherwise hands over exactly the publications since,
    in order and without a gap, so that a view accepts them; it sends the snapshot instead only to
    a generation of the future, one before the last full rebuild, or one more than sixty-four
    publications ago.  The generations stay below the largest number. *)
Theorem journal_hands_over_publications g0 base since b g :
  Publishes g0 base since b -> (generation b < U64_MAX)%N ->
  match changes_since b g with
  | Current => g = generation b
  | Changes cs =>
      (base <= g < generation b)%N /\ cs = filter (fun c => (g < pub_generation c)%N) since /\
      suffix_ok g (generation b) cs = true /\ (length cs <= JOURNAL_CAPACITY)%nat
  | Reseed s =>
      s = backend_snapshot b /\ (generation b < g \/ g < base \/ g + N.of_nat JOURNAL_CAPACITY < generation b)%N
  end.
Proof.
  intros Hp Hm. pose proof (publishes_ok _ _ _ _ Hp Hm) as Hj. rewrite (journal_answers base since) by done.
  destruct (N.eqb_spec g (generation b)) as [|Hne]; [done|].
  destruct (N.ltb_spec (generation b) g), (N.ltb_spec g base), (N.ltb_spec (g + N.of_nat JOURNAL_CAPACITY) (generation b));
    simpl; try (split; [done|]; lia).
  assert (base <= g < generation b)%N as Hr by lia. split; [done|]. split; [done|].
  split; [by apply (suffix_ok_drop base)|]. destruct Hj as [Hc Hg _].
  rewrite (contiguous_filter base) by (done || lia). rewrite length_drop. lia.
Qed.
End code.

(** Two files change in turn; a view two publications behind is handed both. *)
#[local] Instance no_metadata : MetadataInputs :=
  { Configs := unit; no_configs := tt; config_roots := fun _ => []; Listing := unit; config_key := fun _ => [] }.

#[local] Instance sum_revision : ContentRevision := fun t => Z.to_N (foldr Z.add 0%Z t).

Lemma journal_hands_over_publications_witness :
  let c k := MkPublished k [MkFileId k] [] false in
  exists b, generation b = 2%N /\ changes_since b 0 = Changes [c 1; c 2]%N /\
    suffix_ok 0 (generation b) [c 1; c 2]%N = true /\ (length [c 1; c 2]%N <= JOURNAL_CAPACITY)%nat.
Proof.
  intros c. set (b0 := MkBackend Db_new 0 [] (MkCatalog Vfs_new [] 0)).
  set (b1 := (publish_change b0 [MkFileId 1] [] false).2). set (b2 := (publish_change b1 [MkFileId 2] [] false).2).
  assert (Publishes 0 0 ([] ++ [c 1%N] ++ [c 2%N]) b2) as Hp.
  { eapply (pub_change 0 0 [c 1%N] b1 [MkFileId 2] [] false); [|reflexivity].
    eapply (pub_change 0 0 [] b0 [MkFileId 1] [] false); [constructor|reflexivity]. }
  assert (generation b2 < U64_MAX)%N as Hm by reflexivity.
  exists b2. split; [reflexivity|]. split; [reflexivity|].
  exact (proj2 (proj2 (journal_hands_over_publications _ _ _ _ 0 Hp Hm))).
Defined.
