(* ===== verification/ViewSpec.v ===== *)
(** ViewSpec: a view of the workspace shows the files on disk and the buffers of its editor
    (crates/ide-host-core/src/workspace.rs, load.rs). *)
From stdpp Require Import prelude sorting.
From S2P Require Import Prelude Interning Paths Vfs Inputs Load LoadSpec Workspace.

Definition both_roots : list SourceRootId := [BSL_SOURCE_ROOT; METADATA_SOURCE_ROOT].

Section code.
Context `{MetadataInputs} `{ContentRevision}.

(** ** What a file looks like *)

(** It stands under one root only, with its inputs. *)
Record placed (f : Files) (id : FileId) (rid : SourceRootId) (p : VfsPath) (i : FileInputs) : Prop := MkPlaced {
  placed_path : path_in f rid id = Some p;
  placed_only : forall rid', rid' ∈ both_roots -> rid' <> rid -> path_in f rid' id = None;
  placed_inputs : inputs_of f id = Some i;
  placed_root : root_of f id = Some rid;
}.

Definition absent (f : Files) (id : FileId) : Prop := forall rid, rid ∈ both_roots -> path_in f rid id = None.

Definition snap_target (g : SnapshotFile) : FileInputs := target (source_for_state (snap_state g)).

(** The buffer when the file is open, else what the disk has. *)
Definition shows_file (f : Files) (id : FileId) (o : option (Path * text)) (d : option SnapshotFile) : Prop :=
  match o, d with
  | Some (p, t), _ => placed f id BSL_SOURCE_ROOT p (target (Overlay t))
  | None, Some g => placed f id (snap_root g) (snap_path g) (snap_target g)
  | None, None => absent f id
  end.

Definition snap_lookup (s : WorkspaceSnapshot) (id : FileId) : option SnapshotFile :=
  snd <$> list_find (fun f => snap_id f = id) (snap_files s).

(** ** Snapshots of an owner *)

(** Each file is in one root, with its path; files of the metadata are not modules. *)
Record snapshot_ok (s : WorkspaceSnapshot) : Prop := MkSnapshotOk {
  sok_ids : NoDup (snap_id <$> snap_files s);
  sok_roots : NoDup (sroot_id <$> snap_roots s);
  sok_bsl : BSL_SOURCE_ROOT ∈ sroot_id <$> snap_roots s;
  sok_known : forall r, r ∈ snap_roots s -> sroot_id r ∈ both_roots;
  sok_rooted : forall f, f ∈ snap_files s -> snap_root f ∈ sroot_id <$> snap_roots s;
  sok_sets : forall r, r ∈ snap_roots s -> fs_wf (file_set (sroot r));
  sok_complete : forall r id p, r ∈ snap_roots s ->
    path_for_file (file_set (sroot r)) id = Some p <->
    exists f, snap_lookup s id = Some f /\ snap_path f = p /\ snap_root f = sroot_id r;
  sok_metadata : forall f, f ∈ snap_files s -> snap_root f = METADATA_SOURCE_ROOT -> is_bsl_source_path (snap_path f) = false;
  sok_listings : NoDup (config_key <$> (snap_metadata s).*1);
}.

Record view_ok (v : EditorView) : Prop := MkViewOk {
  vok_wf : files_wf (files (view_db v));
  vok_bsl : is_Some (try_source_root (files (view_db v)) BSL_SOURCE_ROOT);
  vok_roots : forall r, r ∈ snap_roots (disk v) -> is_Some (try_source_root (files (view_db v)) (sroot_id r));
  vok_files : forall id, shows_file (files (view_db v)) id (assoc_get id (open_files v)) (snap_lookup (disk v) id);
  vok_generation : view_generation v = snap_generation (disk v);
  vok_configs : configs (view_db v) = snap_configs (disk v);
  vok_ready : load_complete (view_db v) = metadata_ready (disk v);
  vok_listings : forall p l, (p, l) ∈ snap_metadata (disk v) -> assoc_get (config_key p) (listings (view_db v)) = Some l;
  vok_open : assoc_wf (open_files v);
}.

(** The editors open modules: an open file is not one of the metadata. *)
Definition opens_modules (s : WorkspaceSnapshot) (o : list (FileId * (Path * text))) : Prop :=
  forall id f, is_Some (assoc_get id o) -> snap_lookup s id = Some f -> snap_root f = BSL_SOURCE_ROOT.

Lemma snap_lookup_elem s id f : snap_lookup s id = Some f -> f ∈ snap_files s /\ snap_id f = id.
Proof.
  unfold snap_lookup. intros ([n g] & E & ->)%fmap_Some_1. apply list_find_Some in E as (Hl & Hg & _). simpl.
  split; [exact (list_elem_of_lookup_2 _ _ _ Hl)|done].
Qed.

Lemma snap_lookup_of s f : NoDup (snap_id <$> snap_files s) -> f ∈ snap_files s -> snap_lookup s (snap_id f) = Some f.
Proof.
  unfold snap_lookup. intros Hnd Hf. destruct (list_find _ _) as [[n g]|] eqn:E; simpl.
  - apply list_find_Some in E as (Hl & Hg & _). f_equal. apply list_elem_of_lookup_2 in Hl.
    destruct (proj1 (list_elem_of_lookup _ _) Hf) as [i Hi], (proj1 (list_elem_of_lookup _ _) Hl) as [j Hj].
    assert (i = j) as -> by (eapply NoDup_lookup; [exact Hnd|rewrite list_lookup_fmap, Hi; reflexivity|rewrite list_lookup_fmap, Hj; simpl; congruence]).
    congruence.
  - apply list_find_None in E. apply list_elem_of_lookup_1 in Hf as [i Hi]. by eapply Forall_lookup_1 in E; [|exact Hi].
Qed.

(** *** Batches and files *)

Lemma placed_keep f f' rid cs id rid' p i :
  batch_facts f rid cs f' -> id ∉ change_id <$> cs -> placed f id rid' p i -> placed f' id rid' p i.
Proof.
  intros F Hid [Hp Ho Hi Hr]. destruct (facts_same _ _ _ _ F id Hid) as (E1 & E2 & E3).
  assert (forall r, path_in f' r id = path_in f r id) as Hpath.
  { intros r. destruct (decide (r = rid)) as [->|]; [done|]. by apply (facts_others _ _ _ _ F). }
  split; rewrite ?Hpath, ?E2, ?E3; try done. intros r Hr' Hn. rewrite Hpath. by apply Ho.
Qed.

Lemma absent_keep f f' rid cs id : batch_facts f rid cs f' -> id ∉ change_id <$> cs -> absent f id -> absent f' id.
Proof.
  intros F Hid Ha r Hr. destruct (facts_same _ _ _ _ F id Hid) as (E1 & _ & _).
  destruct (decide (r = rid)) as [->|]; [rewrite E1|rewrite (facts_others _ _ _ _ F) by done]; by apply Ha.
Qed.

Lemma shows_keep f f' rid cs id o d :
  batch_facts f rid cs f' -> id ∉ change_id <$> cs -> shows_file f id o d -> shows_file f' id o d.
Proof. intros F Hid. destruct o as [[p t]|], d; simpl; eauto using placed_keep, absent_keep. Qed.

(** Inserting a file that stands nowhere else. *)
Lemma placed_upsert f f' rid cs id p s :
  batch_facts f rid cs f' -> Upsert id p (Some s) ∈ cs ->
  (forall rid', rid' ∈ both_roots -> rid' <> rid -> path_in f rid' id = None) ->
  root_of f id = Some rid \/ path_in f rid id = None \/ inputs_of f id = None ->
  placed f' id rid p (target s).
Proof.
  intros F Hc Ho Hr. destruct (facts_upsert _ _ _ _ F _ _ _ Hc) as (H1 & H2 & H3). split; try done.
  - intros r Hr' Hn. rewrite (facts_others _ _ _ _ F) by done. by apply Ho.
  - apply H3. destruct Hr as [?|[E|E]]; [by left|right; left; by rewrite E|right; right; by rewrite E].
Qed.

(** What a shown file says of its paths. *)
Lemma shows_paths_at f id o d rid p :
  shows_file f id o d -> rid ∈ both_roots -> path_in f rid id = Some p -> root_of f id = Some rid /\ is_Some (inputs_of f id).
Proof.
  intros Hs Hr Hp. assert (forall r q i, placed f id r q i -> root_of f id = Some rid /\ is_Some (inputs_of f id)) as Hpl.
  { intros r q i [_ Ho Hi Hro]. destruct (decide (rid = r)) as [->|Hn]; [by rewrite Hro, Hi|]. by rewrite (Ho rid) in Hp. }
  destruct o as [[q t]|], d as [g|]; simpl in Hs; eauto. by rewrite (Hs rid Hr) in Hp.
Qed.

(** *** Opening, changing and closing *)

Lemma db_batch db rid cs :
  files_wf (files db) -> is_Some (try_source_root (files db) rid) -> Forall admissible cs -> NoDup (change_id <$> cs) ->
  exists f' e, db_apply_batch db rid cs = Some (with_files db f', e) /\ batch_facts (files db) rid cs f'.
Proof.
  intros. destruct (batch_by_file (files db) rid cs) as (f' & e & E & F & _); [done..|]. exists f', e.
  unfold db_apply_batch. rewrite E. done.
Qed.

(** The other root does not hold a file that is open or whose disk file stands in this root. *)
Lemma shows_elsewhere f id o d rid rid' :
  shows_file f id o d -> rid' ∈ both_roots -> rid' <> rid ->
  match o, d with Some _, _ => rid = BSL_SOURCE_ROOT | None, Some g => snap_root g = rid | None, None => True end ->
  path_in f rid' id = None.
Proof. destruct o as [[q t]|], d as [g|]; simpl; intros Hs Hr Hn E; subst; by apply Hs. Qed.

Lemma shows_after_upsert f f' rid cs id p s o d :
  batch_facts f rid cs f' -> Upsert id p (Some s) ∈ cs -> shows_file f id o d -> rid ∈ both_roots ->
  match o, d with Some _, _ => rid = BSL_SOURCE_ROOT | None, Some g => snap_root g = rid | None, None => True end ->
  placed f' id rid p (target s).
Proof.
  intros F Hc Hs Hr Hm. eapply placed_upsert; [done|done| |].
  - intros r Hr' Hn. by eapply shows_elsewhere.
  - destruct (path_in f rid id) as [q|] eqn:E; [|auto]. left. by eapply shows_paths_at.
Qed.

Lemma bsl_in_both : BSL_SOURCE_ROOT ∈ both_roots.
Proof. by left. Qed.

Lemma metadata_in_both : METADATA_SOURCE_ROOT ∈ both_roots.
Proof. right. by left. Qed.

(** The view after the files of its database changed. *)
Lemma view_ok_files v f' o :
  view_ok v -> files_wf f' ->
  (forall rid, is_Some (try_source_root (files (view_db v)) rid) -> is_Some (try_source_root f' rid)) ->
  (forall id, shows_file f' id (assoc_get id o) (snap_lookup (disk v) id)) -> assoc_wf o ->
  view_ok (MkView (with_files (view_db v) f') (view_generation v) (disk v) o).
Proof. intros V Hwf Hr Hs Ho. split; try done; simpl; try apply V; try apply Hr; try apply V. intros r Hin. apply Hr. by apply V. Qed.

Lemma view_open_ok v id p t :
  view_ok v -> (forall f, snap_lookup (disk v) id = Some f -> snap_root f = BSL_SOURCE_ROOT) ->
  exists v', view_open v id p t = Some v' /\ view_ok v' /\ disk v' = disk v /\ open_files v' = assoc_set id (p, t) (open_files v).
Proof.
  intros V Hd. set (cs := [Upsert id p (Some (Overlay t))]).
  destruct (db_batch (view_db v) BSL_SOURCE_ROOT cs) as (f' & e & E & F); [apply V|apply V|by repeat constructor|apply NoDup_singleton|].
  unfold view_open. fold cs. rewrite E. eexists. split; [reflexivity|]. split; [|done].
  apply view_ok_files; [done|apply F|apply (facts_there _ _ _ _ F)| |apply assoc_set_wf, V].
  intros id'. rewrite assoc_get_set. case_decide as Hid.
  - subst id'. eapply (shows_after_upsert _ _ _ cs id p (Overlay t)); [exact F|by left|apply (vok_files _ V)|apply bsl_in_both|].
    destruct (assoc_get id (open_files v)); [done|]. destruct (snap_lookup (disk v) id) as [g|] eqn:Eg; [|done]. by apply Hd.
  - eapply shows_keep; [exact F| |apply V]. simpl. rewrite list_elem_of_singleton. congruence.
Qed.

Lemma view_close_ok v id :
  view_ok v -> snapshot_ok (disk v) -> opens_modules (disk v) (open_files v) ->
  exists b v', view_close v id = Some (b, v') /\ view_ok v' /\ disk v' = disk v /\ open_files v' = assoc_remove id (open_files v).
Proof.
  intros V S Hm. unfold view_close. destruct (assoc_get id (open_files v)) as [[p t]|] eqn:Eo.
  2: { exists false, v. split_and!; try done. symmetry. by apply assoc_remove_none. }
  pose proof (vok_files _ V id) as Hid. rewrite Eo in Hid. unfold restore_disk_file. simpl.
  change (list_find _ _) with (list_find (fun f => snap_id f = id) (snap_files (disk v))).
  destruct (list_find (fun f => snap_id f = id) (snap_files (disk v))) as [[n g]|] eqn:El.
  - assert (snap_lookup (disk v) id = Some g) as Hg by (unfold snap_lookup; by rewrite El).
    pose proof (snap_lookup_elem _ _ _ Hg) as [_ Hgid]. assert (snap_root g = BSL_SOURCE_ROOT) as Hr by (eapply Hm; [by rewrite Eo|done]).
    set (cs := [upsert_of g]).
    destruct (db_batch (view_db v) BSL_SOURCE_ROOT cs) as (f' & e & E & F); [apply V|apply V|by repeat constructor|apply NoDup_singleton|].
    rewrite Hr, E. simpl. eexists true, _. split; [reflexivity|]. split; [|done].
    apply view_ok_files; [done|apply F|apply (facts_there _ _ _ _ F)| |apply assoc_remove_wf, V].
    intros id'. rewrite assoc_get_remove by apply V. case_decide as Hne.
    + subst id'. rewrite Hg. unfold shows_file. rewrite Hr.
      eapply (shows_after_upsert _ _ _ cs id (snap_path g) (source_for_state (snap_state g))); [exact F| |exact Hid|apply bsl_in_both|done].
      rewrite <- Hgid. by left.
    + eapply shows_keep; [exact F| |apply V]. simpl. rewrite Hgid, list_elem_of_singleton. congruence.
  - assert (snap_lookup (disk v) id = None) as Hg by (unfold snap_lookup; by rewrite El).
    set (cs := [Remove id]).
    destruct (db_batch (view_db v) BSL_SOURCE_ROOT cs) as (f' & e & E & F); [apply V|apply V|by repeat constructor|apply NoDup_singleton|].
    rewrite E. simpl. eexists true, _. split; [reflexivity|]. split; [|done].
    apply view_ok_files; [done|apply F|apply (facts_there _ _ _ _ F)| |apply assoc_remove_wf, V].
    intros id'. rewrite assoc_get_remove by apply V. case_decide as Hne.
    + subst id'. rewrite Hg. intros r Hr. destruct (decide (r = BSL_SOURCE_ROOT)) as [->|Hn].
      * by apply (facts_remove _ _ _ _ F); left.
      * rewrite (facts_others _ _ _ _ F) by done. by apply Hid.
    + eapply shows_keep; [exact F| |apply V]. simpl. rewrite list_elem_of_singleton. congruence.
Qed.

(** *** Seeding *)

(** The files of the roots [dn] are in place, nothing is known of the others. *)
Record seeded (s : WorkspaceSnapshot) (dn : list SourceRootId) (f : Files) : Prop := MkSeeded {
  sd_wf : files_wf f;
  sd_bsl : is_Some (try_source_root f BSL_SOURCE_ROOT);
  sd_roots : forall rid, rid ∈ dn -> is_Some (try_source_root f rid);
  sd_done : forall id g, snap_lookup s id = Some g -> snap_root g ∈ dn -> placed f id (snap_root g) (snap_path g) (snap_target g);
  sd_rest : forall id, (forall g, snap_lookup s id = Some g -> snap_root g ∉ dn) -> absent f id /\ inputs_of f id = None;
}.

Lemma files_wf_set_root f rid r : files_wf f -> fs_wf (file_set r) -> files_wf (set_source_root f rid r).
Proof.
  intros [Ht Hw] Hr. split; [done|]. intros rid' i. unfold try_source_root; simpl. rewrite assoc_get_set.
  case_decide; [by intros [= <-]|]. apply Hw.
Qed.

Lemma try_set_root f rid r rid' : is_Some (try_source_root f rid') \/ rid = rid' -> is_Some (try_source_root (set_source_root f rid r) rid').
Proof. unfold try_source_root; simpl. rewrite assoc_get_set. intros [?|?]; by case_decide. Qed.

Definition root_upserts (s : WorkspaceSnapshot) (rid : SourceRootId) : list SourceBatchChange :=
  upsert_of <$> filter (fun f => snap_root f = rid) (snap_files s).

Lemma root_upserts_ids s rid : change_id <$> root_upserts s rid = snap_id <$> filter (fun f => snap_root f = rid) (snap_files s).
Proof. unfold root_upserts. rewrite <- list_fmap_compose. done. Qed.

Lemma NoDup_fmap_filter {A B} (h : A -> B) (P : A -> Prop) `{forall x, Decision (P x)} l : NoDup (h <$> l) -> NoDup (h <$> filter P l).
Proof.
  induction l as [|x l IH]; [done|]. csimpl. intros [Hn Hnd]%NoDup_cons. rewrite filter_cons. case_decide; [|by apply IH].
  csimpl. apply NoDup_cons. split; [|by apply IH]. intros (y & E & [_ Hy]%list_elem_of_filter)%list_elem_of_fmap. apply Hn. rewrite E.
  by apply list_elem_of_fmap_2.
Qed.

Lemma root_upserts_elem s rid id :
  snapshot_ok s -> id ∈ change_id <$> root_upserts s rid <-> exists g, snap_lookup s id = Some g /\ snap_root g = rid.
Proof.
  intros S. rewrite root_upserts_ids. split.
  - intros (g & -> & [Hr Hg]%list_elem_of_filter)%list_elem_of_fmap. exists g. split; [|done]. by apply snap_lookup_of, Hg; apply S.
  - intros (g & Hg & Hr). apply snap_lookup_elem in Hg as [Hg <-]. apply list_elem_of_fmap_2. by apply list_elem_of_filter.
Qed.

Lemma root_upserts_admissible s rid : Forall admissible (root_upserts s rid).
Proof. apply Forall_fmap, Forall_true. done. Qed.

(** A batch that is not cancelled does what it does when nobody asks. *)
Lemma apply_changes_uncancelled cancelled cs : forall n m rid f s e f' d,
  apply_changes cancelled n rid f s e cs = Some (f', Some d) -> apply_changes (fun _ => false) m rid f s e cs = Some (f', Some d).
Proof.
  induction cs as [|c cs IH]; intros n m rid f s e f' d; simpl; destruct (cancelled n); try done.
  destruct (apply_change rid f s e c) as [[[f1 s1] e1]|]; [|done]. simpl. apply IH.
Qed.

Lemma batch_uncancelled f rid cs cancelled f' e :
  apply_source_batch_cancellable f rid cs cancelled = Some (f', Some e) -> apply_source_batch f rid cs = Some (f', e).
Proof.
  unfold apply_source_batch, apply_source_batch_cancellable. destruct cs as [|c cs]; [by intros [= <- <-]|].
  destruct (try_source_root f rid) as [input|]; [|done]. cbn [mbind option_bind].
  destruct (apply_changes cancelled _ _ _ _ _ _) as [[f1 [[s1 e1]|]]|] eqn:E; [|done|done].
  rewrite (apply_changes_uncancelled _ _ _ 0 _ _ _ _ _ _ E). by intros [= <- <-].
Qed.

(** One that panics does so when nobody asks. *)
Lemma batch_panics f rid cs cancelled :
  apply_source_batch_cancellable f rid cs cancelled = None -> apply_source_batch f rid cs = None.
Proof.
  assert (forall cs n m f s e, apply_changes cancelled n rid f s e cs = None -> apply_changes (fun _ => false) m rid f s e cs = None) as Hc.
  { clear. induction cs as [|c cs IH]; intros n m f s e; simpl; destruct (cancelled n); try done.
    destruct (apply_change rid f s e c) as [[[f1 s1] e1]|]; [|done]. simpl. apply IH. }
  unfold apply_source_batch, apply_source_batch_cancellable. destruct cs as [|c cs]; [done|].
  destruct (try_source_root f rid) as [input|]; [|done]. cbn [mbind option_bind].
  destruct (apply_changes cancelled _ _ _ _ _ _) as [[f1 [[s1 e1]|]]|] eqn:E; [done|done|].
  by rewrite (Hc _ _ 0 _ _ _ E).
Qed.

(** One that nothing cancels is not cancelled. *)
Lemma batch_total f rid cs :
  apply_source_batch_cancellable f rid cs (fun _ => false) = p ← apply_source_batch f rid cs; Some (p.1, Some p.2).
Proof.
  unfold apply_source_batch. destruct (apply_source_batch_cancellable f rid cs _) as [[f' [e|]]|] eqn:E; [done| |done].
  exfalso. unfold apply_source_batch_cancellable in E. destruct cs as [|c cs]; [done|].
  destruct (try_source_root f rid) as [input|]; [|done]. cbn [mbind option_bind] in E.
  assert (forall cs n f s e f1, apply_changes (fun _ => false) n rid f s e cs <> Some (f1, None)) as Hn.
  { clear. induction cs as [|c cs IH]; intros n f s e f1; simpl; [done|].
    destruct (apply_change rid f s e c) as [[[f2 s2] e2]|]; [apply IH|done]. }
  destruct (apply_changes (fun _ => false) _ _ _ _ _ _) as [[f1 [[s1 e1]|]]|] eqn:E1; [done|by apply Hn in E1|done].
Qed.

(** A root and its files, as seeding writes them when nothing cancels. *)
Definition seed_root (s : WorkspaceSnapshot) (acc : option Db) (r : SnapshotSourceRoot) : option Db :=
  db ← acc;
  let db := with_files db (set_source_root (files db) (sroot_id r) (sroot r)) in
  '(db, _) ← db_apply_batch db (sroot_id r) (root_upserts s (sroot_id r));
  Some db.

Lemma foldl_seed_none s rs : foldl (seed_root s) None rs = None.
Proof. by induction rs. Qed.

Lemma seed_roots_uncancelled cancelled s rs : forall n db db' m,
  seed_roots cancelled n s db rs = Some (db', Some m) -> foldl (seed_root s) (Some db) rs = Some db'.
Proof.
  induction rs as [|r rs IH]; intros n db db' m; cbn [seed_roots foldl]; [by intros [= <- _]|]. destruct (cancelled n); [done|].
  destruct (apply_source_batch_cancellable _ _ _ _) as [[f [e|]]|] eqn:E; [|done|done]. cbn [mbind option_bind]. intros Hr.
  apply batch_uncancelled in E. apply IH in Hr. unfold seed_root at 2. cbn [mbind option_bind].
  unfold db_apply_batch, root_upserts. simpl files. rewrite E. exact Hr.
Qed.

Lemma seed_roots_panic cancelled s rs : forall n db,
  seed_roots cancelled n s db rs = None -> foldl (seed_root s) (Some db) rs = None.
Proof.
  induction rs as [|r rs IH]; intros n db; cbn [seed_roots foldl]; [done|]. destruct (cancelled n); [done|].
  unfold seed_root at 2, db_apply_batch. cbn [mbind option_bind]. simpl files. change (upsert_of <$> _) with (root_upserts s (sroot_id r)).
  destruct (apply_source_batch_cancellable _ _ _ _) as [[f [e|]]|] eqn:E; cbn [mbind option_bind]; intros Hr; [|done|].
  - apply batch_uncancelled in E. rewrite E. cbn [mbind option_bind]. by eapply IH.
  - apply batch_panics in E. rewrite E. apply foldl_seed_none.
Qed.

Lemma seed_roots_total s rs db : forall n,
  seed_roots (fun _ => false) n s db rs = db' ← foldl (seed_root s) (Some db) rs; Some (db', Some (n + foldr (fun r k => S (batch_questions (root_upserts s (sroot_id r))) + k) 0 rs)).
Proof.
  revert db. induction rs as [|r rs IH]; intros db n; cbn [seed_roots foldl foldr]; [by rewrite Nat.add_0_r|].
  rewrite batch_total. unfold seed_root at 2, db_apply_batch, root_upserts. cbn [mbind option_bind]. simpl files.
  destruct (apply_source_batch _ _ _) as [[f e]|]; cbn [mbind option_bind fst snd]; [|by rewrite foldl_seed_none].
  rewrite IH. unfold root_upserts. destruct (foldl _ _ rs); [|done]. simpl. do 3 f_equal. lia.
Qed.

Lemma seed_listings_uncancelled cancelled ls : forall n db db' m,
  seed_listings cancelled n db ls = (db', Some m) -> foldl (fun db l => set_listing db l.1 l.2) db ls = db'.
Proof. induction ls as [|l ls IH]; intros n db db' m; simpl; [by intros [= <- _]|]. destruct (cancelled n); [done|apply IH]. Qed.

Lemma seed_listings_total ls : forall n db,
  seed_listings (fun _ => false) n db ls = (foldl (fun db l => set_listing db l.1 l.2) db ls, Some (n + length ls)).
Proof. induction ls as [|l ls IH]; intros n db; simpl; [by rewrite Nat.add_0_r|]. rewrite IH. do 2 f_equal. lia. Qed.

(** What a seeding leaves that runs to its end. *)
Definition seeded_view (v : EditorView) (s : WorkspaceSnapshot) : option EditorView :=
  db ← foldl (seed_root s) (Some (set_configs (with_bsl_root (view_db v)) (snap_configs s))) (snap_roots s);
  Some (MkView (use_prepared_metadata_inputs (set_load_complete (set_listings db s) (metadata_ready s))) (snap_generation s) s
    (open_files v)).

Lemma seed_uncancelled v s cancelled v' : seed_cancellable v s cancelled = Some (true, v') -> seeded_view v s = Some v'.
Proof.
  unfold seed_cancellable, seeded_view, set_listings. destruct (seed_roots _ _ _ _ _) as [[db [n|]]|] eqn:E; [|done|done]. cbn [mbind option_bind].
  rewrite (seed_roots_uncancelled _ _ _ _ _ _ _ E). destruct (seed_listings _ _ _ _) as [db2 [m|]] eqn:E2; [|done].
  rewrite <- (seed_listings_uncancelled _ _ _ _ _ _ E2). destruct (cancelled m); [done|]. by intros [= <-].
Qed.

Lemma seed_total v s : seed v s = seeded_view v s.
Proof.
  unfold seed, seed_cancellable, seeded_view, set_listings. rewrite seed_roots_total. destruct (foldl (seed_root s) _ _); [|done].
  cbn [mbind option_bind]. by rewrite seed_listings_total.
Qed.

Lemma new_seeds s : EditorView_new s = seed (MkView Db_new 0 s []) s.
Proof. unfold EditorView_new, prepare, seed. by destruct (seed_cancellable _ _ _) as [[[] v]|]. Qed.

(** Preparing a view makes the one that is made at once, or nothing when it is cancelled. *)
Lemma prepare_all_or_nothing s cancelled v0 :
  EditorView_new s = Some v0 -> prepare s cancelled = Some (Some v0) \/ prepare s cancelled = Some None.
Proof.
  rewrite new_seeds, seed_total. unfold prepare. destruct (seed_cancellable _ _ _) as [[[] v1]|] eqn:E; intros Hv; [|by right|].
  - apply seed_uncancelled in E. left. cbn [mbind option_bind]. congruence.
  - exfalso. unfold seed_cancellable in E. destruct (seed_roots _ _ _ _ _) as [[db [n|]]|] eqn:Er; [|done|].
    + cbn [mbind option_bind] in E. destruct (seed_listings _ _ _ _) as [db2 [m|]]; [|done]. by destruct (cancelled m).
    + apply seed_roots_panic in Er. unfold seeded_view in Hv. by rewrite Er in Hv.
Qed.

Lemma seed_root_ok s db r dn :
  snapshot_ok s -> r ∈ snap_roots s -> sroot_id r ∉ dn -> seeded s dn (files db) ->
  exists f', seed_root s (Some db) r = Some (with_files db f') /\ seeded s (dn ++ [sroot_id r]) f'.
Proof.
  intros S Hr Hn D. set (f1 := set_source_root (files db) (sroot_id r) (sroot r)).
  assert (files_wf f1) as Hwf1 by (apply files_wf_set_root; [apply D|by apply (sok_sets _ S)]).
  destruct (db_batch (with_files db f1) (sroot_id r) (root_upserts s (sroot_id r))) as (f' & e & E & F).
  { done. } { apply try_set_root. by right. } { apply root_upserts_admissible. }
  { rewrite root_upserts_ids. apply NoDup_fmap_filter, S. }
  exists f'. split; [unfold seed_root; cbn; fold f1; by rewrite E|]. simpl in F.
  assert (forall id, path_in f1 (sroot_id r) id = path_for_file (file_set (sroot r)) id) as Hp1.
  { intros id. unfold f1. by rewrite path_in_set_root, decide_True. }
  assert (forall rid id, rid <> sroot_id r -> path_in f1 rid id = path_in (files db) rid id) as Hp2.
  { intros rid id Hne. unfold f1. by rewrite path_in_set_root, decide_False by congruence. }
  assert (forall id, (forall g, snap_lookup s id = Some g -> snap_root g <> sroot_id r) ->
    path_in f' (sroot_id r) id = None /\ inputs_of f' id = inputs_of (files db) id /\ root_of f' id = root_of (files db) id) as Hother.
  { intros id Hid. destruct (facts_same _ _ _ _ F id) as (E1 & E2 & E3).
    { rewrite root_upserts_elem by done. intros (g & Hg & Hrg). by eapply Hid. }
    rewrite E1, E2, E3, Hp1. split; [|done]. destruct (path_for_file _ id) as [p|] eqn:Ep; [|done].
    apply (sok_complete _ S _ _ _ Hr) in Ep as (g & Hg & _ & Hrg). by destruct (Hid g). }
  split; [apply F| | | |].
  - apply (facts_there _ _ _ _ F), try_set_root. left. apply D.
  - intros rid Hrid. apply (facts_there _ _ _ _ F), try_set_root. apply elem_of_app in Hrid as [?|Hrid%list_elem_of_singleton]; [|by right].
    left. by apply (sd_roots _ _ _ D).
  - intros id g Hg Hrg. apply elem_of_app in Hrg as [Hrg|Hrg%list_elem_of_singleton].
    + assert (snap_root g <> sroot_id r) as Hne by congruence.
      destruct (Hother id) as (O1 & O2 & O3); [intros g'; rewrite Hg; by intros [= <-]|].
      destruct (sd_done _ _ _ D id g Hg Hrg) as [P1 P2 P3 P4]. split; [| |by rewrite O2|by rewrite O3].
      * by rewrite (facts_others _ _ _ _ F), Hp2.
      * intros rid Hb Hne'. destruct (decide (rid = sroot_id r)) as [->|]; [done|].
        rewrite (facts_others _ _ _ _ F), Hp2 by done. by apply P2.
    + destruct (sd_rest _ _ _ D id) as [A1 A2]; [intros g'; rewrite Hg; intros [= <-]; by rewrite Hrg|].
      rewrite Hrg. eapply placed_upsert; [exact F| | |].
      * unfold root_upserts. pose proof (snap_lookup_elem _ _ _ Hg) as [Hin <-]. apply (list_elem_of_fmap_2 upsert_of).
        by apply list_elem_of_filter.
      * intros rid Hb Hne. rewrite Hp2 by done. by apply A1.
      * right. right. exact A2.
  - intros id Hid. destruct (sd_rest _ _ _ D id) as [A1 A2].
    { intros g Hg Hrg. eapply Hid; [done|]. apply elem_of_app. by left. }
    destruct (Hother id) as (O1 & O2 & O3).
    { intros g Hg Hrg. eapply Hid; [done|]. rewrite Hrg. apply elem_of_app. right. by apply list_elem_of_singleton. }
    split; [|by rewrite O2]. intros rid Hb. destruct (decide (rid = sroot_id r)) as [->|]; [done|].
    rewrite (facts_others _ _ _ _ F), Hp2 by done. by apply A1.
Qed.

Lemma seed_roots_ok s rs : forall db dn,
  snapshot_ok s -> (forall r, r ∈ rs -> r ∈ snap_roots s) -> NoDup (dn ++ (sroot_id <$> rs)) -> seeded s dn (files db) ->
  exists f', foldl (seed_root s) (Some db) rs = Some (with_files db f') /\ seeded s (dn ++ (sroot_id <$> rs)) f'.
Proof.
  induction rs as [|r rs IH]; intros db dn S Hin Hnd D.
  - exists (files db). rewrite app_nil_r. split; [|done]. by destruct db.
  - rewrite fmap_cons in *. destruct (seed_root_ok s db r dn S) as (f1 & E & D1); [apply Hin; by left| |done|].
    { apply NoDup_app in Hnd as (_ & Hn & _). intros Hd. apply (Hn _ Hd). by left. }
    destruct (IH (with_files db f1) (dn ++ [sroot_id r])) as (f2 & E2 & D2); [done|intros; apply Hin; by right| |done|].
    { by rewrite <- app_assoc. }
    exists f2. cbn [foldl]. rewrite E. split; [exact E2|]. rewrite <- app_assoc in D2. exact D2.
Qed.

(** *** The inputs of the metadata *)

Lemma set_listings_files db s : files (set_listings db s) = files db /\ configs (set_listings db s) = configs db /\
  load_complete (set_listings db s) = load_complete db.
Proof.
  unfold set_listings. revert db. induction (snap_metadata s) as [|l ls IH]; intros db; [done|]. simpl.
  by destruct (IH (set_listing db l.1 l.2)) as (-> & -> & ->).
Qed.

Lemma set_listings_get db s p l :
  NoDup (config_key <$> (snap_metadata s).*1) -> (p, l) ∈ snap_metadata s ->
  assoc_get (config_key p) (listings (set_listings db s)) = Some l.
Proof.
  unfold set_listings. revert db. induction (snap_metadata s) as [|[q m] ls IH]; intros db Hnd Hin; [by apply elem_of_nil in Hin|].
  csimpl in Hnd. apply NoDup_cons in Hnd as [Hn Hnd]. simpl. apply elem_of_cons in Hin as [[= -> ->]|Hin]; [|by apply IH].
  clear IH. assert (forall db, assoc_get (config_key q) (listings (foldl (fun db l => set_listing db l.1 l.2) db ls)) =
    assoc_get (config_key q) (listings db)) as ->.
  { clear db. revert Hn. clear Hnd. induction ls as [|[q' m'] ls IH]; intros Hn db; [done|].
    csimpl in Hn. apply not_elem_of_cons in Hn as [Hne Hn]. simpl. rewrite (IH Hn). simpl. by rewrite assoc_get_set_ne. }
  simpl. by rewrite assoc_get_set_eq.
Qed.

Lemma with_bsl_root_new : files (with_bsl_root Db_new) = set_source_root Files_new BSL_SOURCE_ROOT (new_local FileSet_new).
Proof. done. Qed.

(** A fresh view shows the snapshot. *)
Lemma seed_ok s g d : snapshot_ok s ->
  exists v, seed (MkView Db_new g d []) s = Some v /\ view_ok v /\ disk v = s /\ open_files v = [].
Proof.
  intros S. rewrite seed_total. unfold seeded_view. simpl view_db. set (db0 := set_configs (with_bsl_root Db_new) (snap_configs s)).
  assert (seeded s [] (files db0)) as D0.
  { split.
    - split; [constructor|]. intros rid i. unfold try_source_root. simpl. case_decide; [|done]. intros [= <-]. constructor.
    - by eexists.
    - intros rid Hr. by apply elem_of_nil in Hr.
    - intros id g' _ Hr. by apply elem_of_nil in Hr.
    - intros id _. split; [|done]. intros rid _. unfold path_in, try_source_root. simpl. by case_decide. }
  destruct (seed_roots_ok s (snap_roots s) db0 [] S) as (f' & E & D); [done|apply S|done|]. rewrite E. simpl in D.
  cbn [mbind option_bind]. set (db1 := with_files db0 f').
  destruct (set_listings_files db1 s) as (L1 & L2 & L3). eexists. split; [reflexivity|]. split; [|done].
  split; simpl; rewrite ?L1, ?L2; try done.
  - apply D.
  - apply D.
  - intros r Hr. apply (sd_roots _ _ _ D). by apply list_elem_of_fmap_2.
  - intros id. simpl. destruct (snap_lookup s id) as [g'|] eqn:Eg.
    + apply (sd_done _ _ _ D); [done|]. apply (sok_rooted _ S). by apply (snap_lookup_elem s id).
    + apply (sd_rest _ _ _ D). by rewrite Eg.
  - intros p l Hpl. apply set_listings_get; [apply S|done].
  - constructor.
Qed.
End code.
