(* ===== verification/CatchUpSpec.v ===== *)
(** CatchUpSpec: a view that applies the publications of the owner shows what a fresh view of the
    new snapshot would (crates/ide-host-core/src/workspace.rs). *)
From stdpp Require Import prelude sorting.
From S2P Require Import Prelude Interning Paths Vfs Inputs Load LoadSpec Workspace ViewSpec.

Section code.
Context `{MetadataInputs} `{ContentRevision}.

(** ** The files that changed *)

(** The publications name each file that differs, or say that the metadata changed and the file
    is one of it. *)
Definition complete (s s' : WorkspaceSnapshot) (cs : list PublishedChange) : Prop :=
  forall id, snap_lookup s id <> snap_lookup s' id ->
    id ∈ (cs ≫= pub_file_ids) \/
    (existsb metadata_changed cs = true /\
     forall g, snap_lookup s id = Some g \/ snap_lookup s' id = Some g -> snap_root g = METADATA_SOURCE_ROOT).

Definition by_id (m : list (FileId * SnapshotFile)) (l : list SnapshotFile) : list (FileId * SnapshotFile) :=
  foldl (fun m f => assoc_set (snap_id f) f m) m l.

Lemma by_id_get m l id g :
  NoDup (snap_id <$> l) ->
  assoc_get id (by_id m l) = Some g <-> (g ∈ l /\ snap_id g = id) \/ ((id ∉ snap_id <$> l) /\ assoc_get id m = Some g).
Proof.
  unfold by_id. revert m. induction l as [|f l IH]; intros m Hnd.
  - simpl. rewrite elem_of_nil. split; [right; split; [apply not_elem_of_nil|done]|]. by intros [[]|[_ ?]].
  - csimpl in Hnd. apply NoDup_cons in Hnd as [Hn Hnd]. simpl. rewrite (IH _ Hnd), assoc_get_set. csimpl.
    rewrite elem_of_cons, not_elem_of_cons. split.
    + intros [[Hg <-]|[Hid Hg]]; [left; auto|]. case_decide as E; [|right; auto]. injection Hg as ->. left; auto.
    + intros [[[->|Hg] <-]|[[Hne Hid] Hg]]; [right; split; [done|by rewrite decide_True]|by left|].
      right. split; [done|]. by rewrite decide_False by congruence.
Qed.

Lemma lookup_iff s id g : NoDup (snap_id <$> snap_files s) -> snap_lookup s id = Some g <-> g ∈ snap_files s /\ snap_id g = id.
Proof. intros Hnd. split; [apply snap_lookup_elem|]. intros [Hg <-]. by apply snap_lookup_of. Qed.

Lemma next_files_get s id : NoDup (snap_id <$> snap_files s) -> assoc_get id (next_files s) = snap_lookup s id.
Proof.
  intros Hnd. apply option_eq. intros g. rewrite lookup_iff by done. unfold next_files.
  rewrite (by_id_get [] _ _ _ Hnd). simpl. split; [by intros [?|[_ [=]]]|by left].
Qed.

Lemma metadata_files_get s id g :
  NoDup (snap_id <$> snap_files s) ->
  assoc_get id (metadata_files s) = Some g <-> snap_lookup s id = Some g /\ snap_root g = METADATA_SOURCE_ROOT.
Proof.
  intros Hnd. rewrite lookup_iff by done. unfold metadata_files.
  rewrite (by_id_get [] _ _ _ (NoDup_fmap_filter _ _ _ Hnd)), list_elem_of_filter. simpl.
  split; [by intros [[[? ?] ?]|[_ [=]]]|]. intros [[? ?] ?]. by left.
Qed.

Lemma differs_listed m m' id g :
  assoc_get id m = Some g -> differs m' (id, g) = true -> id ∈ (filter (fun f => differs m' f = true) m).*1.
Proof.
  intros Hg Hd. apply (list_elem_of_fmap_2' fst _ (id, g)); [|done]. apply list_elem_of_filter. split; [done|].
  by apply assoc_get_elem.
Qed.

Lemma same_file (f g : SnapshotFile) :
  snap_id f = snap_id g -> snap_root f = snap_root g -> snap_path f = snap_path g -> snap_state f = snap_state g -> f = g.
Proof. destruct f, g; simpl; congruence. Qed.

Lemma changed_covers v s cs id :
  snapshot_ok (disk v) -> snapshot_ok s -> complete (disk v) s cs -> id ∉ changed_set v s cs ->
  snap_lookup (disk v) id = snap_lookup s id.
Proof.
  intros S S' C Hid. destruct (decide (snap_lookup (disk v) id = snap_lookup s id)) as [|Hne]; [done|]. exfalso. apply Hid.
  unfold changed_set. apply elem_of_remove_dups. destruct (C id Hne) as [Hc|[Hm Hg]]; [case_match; [apply elem_of_app; by left|done]|].
  rewrite Hm. rewrite !elem_of_app. right. pose proof (sok_ids _ S) as N. pose proof (sok_ids _ S') as N'.
  assert (forall g, snap_lookup (disk v) id = Some g -> assoc_get id (metadata_files (disk v)) = Some g) as H1.
  { intros g E. apply metadata_files_get; auto. }
  assert (forall g, snap_lookup s id = Some g -> assoc_get id (metadata_files s) = Some g) as H2.
  { intros g E. apply metadata_files_get; auto. }
  destruct (snap_lookup (disk v) id) as [f|] eqn:Ef.
  - left. eapply differs_listed; [by apply H1|]. unfold differs; simpl.
    destruct (assoc_get id (metadata_files s)) as [g|] eqn:Eg; [|done]. apply metadata_files_get in Eg as [Eg Hr]; [|done].
    apply not_false_is_true. intros [E1%negb_false_iff%bool_decide_eq_true E2%negb_false_iff%bool_decide_eq_true]%orb_false_iff.
    apply Hne. rewrite Eg. f_equal. apply snap_lookup_elem in Ef as [_ Hf], Eg as [_ Hg']. apply same_file; try congruence.
    rewrite Hr. by apply Hg; left.
  - right. destruct (snap_lookup s id) as [g|] eqn:Eg; [|done]. eapply differs_listed; [by apply H2|]. unfold differs; simpl.
    destruct (assoc_get id (metadata_files (disk v))) as [f|] eqn:Ef'; [|done]. apply metadata_files_get in Ef' as [? _]; [|done]. congruence.
Qed.

(** ** One root *)

Lemma is_open_false v id : is_open v id = false <-> assoc_get id (open_files v) = None.
Proof. unfold is_open. by rewrite bool_decide_eq_false, eq_None_not_Some. Qed.

Lemma in_root_iter r id : id ∈ root_iter r <-> is_Some (path_for_file (file_set r) id).
Proof.
  unfold root_iter, fs_iter, path_for_file. destruct (assoc_get id (paths (file_set r))) as [p|] eqn:E.
  - split; [by eexists|]. intros _. by apply assoc_get_elem, (list_elem_of_fmap_2 fst) in E.
  - apply assoc_get_None in E. split; [done|]. by intros [? ?].
Qed.

Section batch.
Context (v : EditorView) (s : WorkspaceSnapshot) (changed : list FileId) (rid : SourceRootId) (r : SourceRoot).
Hypothesis S : snapshot_ok s.
Hypothesis Hnd : NoDup changed.
Hypothesis Hset : fs_wf (file_set r).

Let batch : list SourceBatchChange := root_batch v s changed rid (root_iter r).

Lemma batch_removes id :
  Remove id ∈ batch <->
  is_Some (path_for_file (file_set r) id) /\ id ∈ changed /\ assoc_get id (open_files v) = None /\
  snap_root <$> snap_lookup s id <> Some rid.
Proof.
  unfold batch, root_batch. rewrite elem_of_app, list_elem_of_fmap, list_elem_of_omap. split.
  - intros [(i & [= ->] & [(Hc & Ho%is_open_false & Hr) Hi%in_root_iter]%list_elem_of_filter)|(i & _ & E)].
    + rewrite next_files_get in Hr by apply S. done.
    + destruct (is_open v i); [done|]. simpl in E. destruct (assoc_get i (next_files s)); [|done]. simpl in E. by case_decide.
  - intros (Hp & Hc & Ho & Hr). left. exists id. split; [done|]. apply list_elem_of_filter.
    rewrite next_files_get, is_open_false, in_root_iter by apply S. done.
Qed.

Lemma batch_upserts id p src :
  Upsert id p src ∈ batch <->
  id ∈ changed /\ assoc_get id (open_files v) = None /\
  exists g, snap_lookup s id = Some g /\ snap_root g = rid /\ snap_path g = p /\ src = Some (source_for_state (snap_state g)).
Proof.
  unfold batch, root_batch. rewrite elem_of_app, list_elem_of_fmap, list_elem_of_omap. split.
  - intros [(i & [=] & _)|(i & Hc & E)]. destruct (is_open v i) eqn:Ho; [done|]. apply is_open_false in Ho.
    rewrite next_files_get in E by apply S. destruct (snap_lookup s i) as [g|] eqn:Eg; [|done]. simpl in E.
    case_decide as Hr; [|done]. injection E as <- <- <-. destruct (snap_lookup_elem _ _ _ Eg) as [_ Hid]. rewrite Hid.
    split; [done|]. split; [done|]. by exists g.
  - intros (Hc & Ho%is_open_false & g & Eg & Hr & <- & ->). right. exists id. split; [done|]. rewrite Ho.
    rewrite next_files_get, Eg by apply S. simpl. rewrite decide_True by done. unfold upsert_of.
    by destruct (snap_lookup_elem _ _ _ Eg) as [_ ->].
Qed.

Lemma batch_admissible : Forall admissible batch.
Proof.
  apply Forall_lookup. intros i c Hc%list_elem_of_lookup_2. destruct c as [id p src|id]; [|done].
  apply batch_upserts in Hc as (_ & _ & g & _ & _ & _ & ->). done.
Qed.

Lemma batch_in id :
  id ∈ change_id <$> batch -> id ∈ changed /\ assoc_get id (open_files v) = None.
Proof.
  intros ([i p src|i] & -> & Hc)%list_elem_of_fmap; simpl.
  - by apply batch_upserts in Hc as (? & ? & _).
  - by apply batch_removes in Hc as (_ & ? & ? & _).
Qed.

Lemma upsert_ids (l : list FileId) :
  change_id <$> omap (fun id => if is_open v id then None
    else f ← assoc_get id (next_files s); if decide (snap_root f = rid) then Some (upsert_of f) else None) l =
  filter (fun id => is_open v id = false /\ snap_root <$> snap_lookup s id = Some rid) l.
Proof.
  induction l as [|id l IH]; [done|]. rewrite filter_cons. cbn [omap list_omap]. rewrite next_files_get by apply S.
  destruct (is_open v id) eqn:Ho; [by rewrite decide_False by (by intros [? ?])|].
  destruct (snap_lookup s id) as [g|] eqn:Eg; cbn [mbind option_bind]; [|by rewrite decide_False by (by intros [? ?])].
  destruct (decide (snap_root g = rid)) as [Hr|Hr].
  - rewrite decide_True by (split; simpl; congruence). csimpl. rewrite IH. by destruct (snap_lookup_elem _ _ _ Eg) as [_ ->].
  - by rewrite decide_False by (by intros [_ [=]]).
Qed.

Lemma remove_ids (l : list FileId) : change_id <$> (Remove <$> l) = l.
Proof. induction l as [|id l IH]; [done|]. csimpl. by rewrite IH. Qed.

Lemma batch_once : NoDup (change_id <$> batch).
Proof.
  unfold batch, root_batch. rewrite fmap_app, remove_ids, upsert_ids. apply NoDup_app. split_and!.
  - by apply NoDup_filter.
  - intros id Hid Hu.
    apply list_elem_of_filter in Hid as [(_ & _ & Hr) _]. apply list_elem_of_filter in Hu as [(_ & Hr') _].
    rewrite next_files_get in Hr by apply S. done.
  - by apply NoDup_filter.
Qed.
End batch.

(** What catching up with one root does to each file. *)
Record root_caught (v : EditorView) (s : WorkspaceSnapshot) (changed : list FileId) (rid : SourceRootId) (f f' : Files)
    : Prop := MkRootCaught {
  rc_wf : files_wf f';
  rc_there : forall rid', is_Some (try_source_root f rid') -> is_Some (try_source_root f' rid');
  rc_root : rid ∈ sroot_id <$> snap_roots s -> is_Some (try_source_root f' rid);
  rc_others : forall rid' id, rid' <> rid -> path_in f' rid' id = path_in f rid' id;
  rc_same : forall id, ~ (id ∈ changed /\ assoc_get id (open_files v) = None) ->
    path_in f' rid id = path_in f rid id /\ inputs_of f' id = inputs_of f id /\ root_of f' id = root_of f id;
  rc_next : forall id g, id ∈ changed -> assoc_get id (open_files v) = None -> snap_lookup s id = Some g -> snap_root g = rid ->
    path_in f' rid id = Some (snap_path g) /\ inputs_of f' id = Some (snap_target g) /\
    (root_of f id = Some rid \/ path_in f rid id = None -> root_of f' id = Some rid);
  rc_gone : forall id, id ∈ changed -> assoc_get id (open_files v) = None -> snap_root <$> snap_lookup s id <> Some rid ->
    path_in f' rid id = None /\ root_of f' id = root_of f id /\
    ((forall p, path_in f rid id = Some p -> is_bsl_source_path p = false) -> inputs_of f' id = inputs_of f id);
}.

Lemma ensure_root_ok db s rid :
  files_wf (files db) ->
  exists f1, ensure_root db s rid = with_files db f1 /\ files_wf f1 /\
    (forall rid', is_Some (try_source_root (files db) rid') -> is_Some (try_source_root f1 rid')) /\
    (rid ∈ sroot_id <$> snap_roots s -> is_Some (try_source_root f1 rid)) /\
    (forall rid' id, path_in f1 rid' id = path_in (files db) rid' id) /\
    (forall id, inputs_of f1 id = inputs_of (files db) id /\ root_of f1 id = root_of (files db) id).
Proof.
  intros Hwf. unfold ensure_root. destruct (existsb _ _ && _) eqn:E.
  - apply andb_true_iff in E as [_ En%bool_decide_eq_true]. eexists. split; [reflexivity|].
    set (r := if decide (rid = METADATA_SOURCE_ROOT) then _ else _).
    assert (file_set r = FileSet_new) as Hr by (subst r; by case_decide).
    split_and!; [apply files_wf_set_root; [done|rewrite Hr; constructor]|intros; apply try_set_root; by left|
      intros; apply try_set_root; by right| |done].
    intros rid' id. rewrite path_in_set_root, Hr. case_decide; [|done]. subst rid'. unfold path_in. by rewrite En.
  - exists (files db). split; [by destruct db|]. split_and!; try done. intros (r & -> & Hr)%list_elem_of_fmap.
    apply andb_false_iff in E as [E|E%bool_decide_eq_false]; [|by apply not_eq_None_Some].
    exfalso. apply Is_true_false in E. apply E, existb_True. apply Exists_exists. exists r. split; [done|]. by apply bool_decide_spec.
Qed.

Lemma catch_up_root_ok v s changed db rid :
  snapshot_ok s -> NoDup changed -> files_wf (files db) ->
  exists f', catch_up_root v s changed (Some db) rid = Some (with_files db f') /\ root_caught v s changed rid (files db) f'.
Proof.
  intros S Hnd Hwf. destruct (ensure_root_ok db s rid Hwf) as (f1 & E1 & W1 & T1 & R1 & P1 & I1).
  unfold catch_up_root. cbn [mbind option_bind]. rewrite E1. cbn [files with_files].
  destruct (try_source_root f1 rid) as [input|] eqn:Ein.
  - pose proof (proj2 W1 _ _ Ein) as Hset. set (batch := root_batch v s changed rid (root_iter (root input))).
    destruct (db_batch (with_files db f1) rid batch) as (f' & e & E & F);
      [done|simpl; by rewrite Ein|by apply batch_admissible|by apply batch_once|]. rewrite E. exists f'. split; [done|]. simpl in F.
    assert (forall id, path_in f1 rid id = path_for_file (file_set (root input)) id) as Hp by (intros; unfold path_in; by rewrite Ein).
    split.
    + apply F.
    + intros rid' Hr. by apply (facts_there _ _ _ _ F), T1.
    + intros _. apply (facts_there _ _ _ _ F). by rewrite Ein.
    + intros rid' id Hn. by rewrite (facts_others _ _ _ _ F), P1.
    + intros id Hid. destruct (facts_same _ _ _ _ F id) as (-> & -> & ->); [|by rewrite P1, (proj1 (I1 id)), (proj2 (I1 id))].
      intros Hin. apply Hid. by eapply batch_in.
    + intros id g Hc Ho Hg Hr. destruct (facts_upsert _ _ _ _ F id (snap_path g) (source_for_state (snap_state g))) as (F1 & F2 & F3).
      { apply batch_upserts; [done|]. split; [done|]. split; [done|]. by exists g. }
      split; [done|]. split; [done|]. intros Hro. apply F3. rewrite (proj2 (I1 id)), P1.
      destruct Hro as [?|Hn]; [by left|right; left; by rewrite Hn].
    + intros id Hc Ho Hg. destruct (path_in f1 rid id) as [p|] eqn:Ep.
      * destruct (facts_remove _ _ _ _ F id) as (F1 & F2 & F3); [apply batch_removes; [done|]; rewrite <- Hp; by rewrite Ep|].
        rewrite F1, F2, (proj2 (I1 id)). split; [done|]. split; [done|]. intros Hb. rewrite (F3 p Ep); [apply I1|].
        apply Hb. by rewrite <- P1.
      * destruct (facts_same _ _ _ _ F id) as (-> & -> & ->); [|by rewrite Ep, (proj1 (I1 id)), (proj2 (I1 id))].
        intros ([i q src|i] & -> & Hc')%list_elem_of_fmap; simpl in *.
        -- apply batch_upserts in Hc' as (_ & _ & g & Eg & Hr & _); [|done]. rewrite Eg in Hg. simpl in Hg. congruence.
        -- apply batch_removes in Hc' as ([q Hq] & _); [|done]. rewrite <- Hp in Hq. congruence.
  - exists f1. split; [done|]. assert (forall id g, snap_lookup s id = Some g -> snap_root g <> rid) as Hno.
    { intros id g [Hg _]%snap_lookup_elem Hr. apply (sok_rooted _ S) in Hg. rewrite Hr in Hg. destruct (R1 Hg) as [? ?]. congruence. }
    split; [done|done| | | | |].
    + intros Hr. by destruct (R1 Hr).
    + intros rid' id _. apply P1.
    + intros id _. by rewrite P1, (proj1 (I1 id)), (proj2 (I1 id)).
    + intros id g _ _ Hg Hr. by destruct (Hno id g).
    + intros id _ _ _. rewrite (proj1 (I1 id)), (proj2 (I1 id)). split; [|done]. unfold path_in. by rewrite Ein.
Qed.

(** ** Both roots *)

Lemma both_inv rid : rid ∈ both_roots -> rid = BSL_SOURCE_ROOT \/ rid = METADATA_SOURCE_ROOT.
Proof. unfold both_roots. intros [->|Hr]%elem_of_cons; [by left|right]. by apply list_elem_of_singleton in Hr. Qed.

Lemma roots_differ : BSL_SOURCE_ROOT <> METADATA_SOURCE_ROOT.
Proof. done. Qed.

Lemma snap_root_both s id g : snapshot_ok s -> snap_lookup s id = Some g -> snap_root g ∈ both_roots.
Proof.
  intros S [Hg _]%snap_lookup_elem. apply (sok_rooted _ S) in Hg as Hr. apply list_elem_of_fmap in Hr as (r & -> & Hr).
  by apply (sok_known _ S).
Qed.

(** A file that stays as it is, file by file. *)
Lemma shows_same f f' id o d :
  (forall rid, rid ∈ both_roots -> path_in f' rid id = path_in f rid id) -> inputs_of f' id = inputs_of f id ->
  root_of f' id = root_of f id -> (forall g, o = None -> d = Some g -> snap_root g ∈ both_roots) ->
  shows_file f id o d -> shows_file f' id o d.
Proof.
  intros Hp Hi Hr Hd. assert (forall rid p i, rid ∈ both_roots -> placed f id rid p i -> placed f' id rid p i) as Hpl.
  { intros rid p i Hb [P1 P2 P3 P4]. split; rewrite ?Hi, ?Hr, ?Hp by done; try done. intros rid' Hb' Hn. rewrite Hp by done. by apply P2. }
  destruct o as [[p t]|], d as [g|]; simpl.
  - apply Hpl, bsl_in_both.
  - apply Hpl, bsl_in_both.
  - apply Hpl. by apply Hd.
  - intros Ha rid Hb. rewrite Hp by done. by apply Ha.
Qed.

Lemma both_caught v s changed f1 f2 :
  view_ok v -> snapshot_ok (disk v) -> snapshot_ok s ->
  (forall id, id ∉ changed -> snap_lookup (disk v) id = snap_lookup s id) ->
  root_caught v s changed BSL_SOURCE_ROOT (files (view_db v)) f1 ->
  root_caught v s changed METADATA_SOURCE_ROOT f1 f2 ->
  forall id, shows_file f2 id (assoc_get id (open_files v)) (snap_lookup s id).
Proof.
  intros V S S' Hsame R1 R2 id. set (f0 := files (view_db v)) in *. pose proof (vok_files _ V id) as Hid. fold f0 in Hid.
  assert (forall i, path_in f1 METADATA_SOURCE_ROOT i = path_in f0 METADATA_SOURCE_ROOT i) as Hm1 by (intros; by apply (rc_others _ _ _ _ _ _ R1)).
  assert (forall i, path_in f2 BSL_SOURCE_ROOT i = path_in f1 BSL_SOURCE_ROOT i) as Hb2 by (intros; by apply (rc_others _ _ _ _ _ _ R2)).
  destruct (decide (id ∈ changed /\ assoc_get id (open_files v) = None)) as [[Hc Ho]|Hno].
  2: { destruct (rc_same _ _ _ _ _ _ R1 id Hno) as (A1 & A2 & A3), (rc_same _ _ _ _ _ _ R2 id Hno) as (B1 & B2 & B3).
       assert (shows_file f0 id (assoc_get id (open_files v)) (snap_lookup s id)) as Hid'.
       { destruct (assoc_get id (open_files v)) as [[p t]|] eqn:Eo; [done|]. rewrite <- Hsame; [done|]. intros Hc. by apply Hno. }
       revert Hid'. apply shows_same; [|congruence|congruence|].
       - intros rid [-> | ->]%both_inv; [by rewrite Hb2, A1|by rewrite B1, Hm1].
       - intros g _ Hg. by eapply snap_root_both. }
  rewrite Ho in *. destruct (snap_lookup s id) as [g|] eqn:Eg.
  2: { intros rid [-> | ->]%both_inv.
       - rewrite Hb2. apply (rc_gone _ _ _ _ _ _ R1); [done|done|by rewrite Eg].
       - apply (rc_gone _ _ _ _ _ _ R2); [done|done|by rewrite Eg]. }
  simpl. destruct (both_inv _ (snap_root_both _ _ _ S' Eg)) as [Hr|Hr].
  - destruct (rc_next _ _ _ _ _ _ R1 id g Hc Ho Eg Hr) as (A1 & A2 & A3).
    destruct (rc_gone _ _ _ _ _ _ R2 id Hc Ho) as (B1 & B2 & B3); [rewrite Eg; simpl; by rewrite Hr|].
    rewrite Hr. split.
    + by rewrite Hb2.
    + by intros rid [-> | ->]%both_inv.
    + rewrite B3; [done|]. intros p Hp. rewrite Hm1 in Hp.
      destruct (snap_lookup (disk v) id) as [h|] eqn:Eh; [|by rewrite Hid in Hp by apply metadata_in_both].
      simpl in Hid. destruct (decide (snap_root h = METADATA_SOURCE_ROOT)) as [Hh|Hh].
      * pose proof (placed_path _ _ _ _ _ Hid) as Hph. rewrite Hh in Hph. rewrite Hp in Hph. injection Hph as ->.
        apply (sok_metadata _ S); [|done]. by apply snap_lookup_elem in Eh as [? _].
      * by rewrite (placed_only _ _ _ _ _ Hid) in Hp by (done || apply metadata_in_both).
    + rewrite B2. apply A3. destruct (path_in f0 BSL_SOURCE_ROOT id) as [q|] eqn:Eq; [left|by right].
      eapply shows_paths_at; [exact Hid|apply bsl_in_both|exact Eq].
  - destruct (rc_gone _ _ _ _ _ _ R1 id Hc Ho) as (A1 & A2 & _); [rewrite Eg; simpl; by rewrite Hr|].
    destruct (rc_next _ _ _ _ _ _ R2 id g Hc Ho Eg Hr) as (B1 & B2 & B3).
    rewrite Hr. split; [done| |done|].
    + intros rid [-> | ->]%both_inv; [|done]. intros _. by rewrite Hb2.
    + apply B3. rewrite Hm1, A2. destruct (path_in f0 METADATA_SOURCE_ROOT id) as [q|] eqn:Eq; [left|by right].
      eapply shows_paths_at; [exact Hid|apply metadata_in_both|exact Eq].
Qed.

(** ** The buffers again *)

Definition same_open (o o' : list (FileId * (Path * text))) : Prop := forall id, assoc_get id o' = assoc_get id o.

Lemma opens_same s o o' : same_open o o' -> opens_modules s o -> opens_modules s o'.
Proof. intros E Hm id f Ho. rewrite E in Ho. by apply Hm. Qed.

(** Opening again what is open. *)
Lemma reopen_changed_ok s ids : forall v,
  view_ok v -> disk v = s -> opens_modules s (open_files v) ->
  exists v', foldl (fun acc id => v0 ← acc;
      match assoc_get id (open_files v0) with Some (p, t) => view_open v0 id p t | None => Some v0 end) (Some v) ids = Some v' /\
    view_ok v' /\ disk v' = s /\ same_open (open_files v) (open_files v').
Proof.
  induction ids as [|id ids IH]; intros v V Hd Hm; [by exists v|]. cbn [foldl mbind option_bind].
  destruct (assoc_get id (open_files v)) as [[p t]|] eqn:Eo; [|by apply IH].
  destruct (view_open_ok v id p t V) as (v1 & -> & V1 & D1 & O1); [intros f; rewrite Hd; by apply Hm|].
  assert (same_open (open_files v) (open_files v1)) as Hs.
  { intros i. rewrite O1, assoc_get_set. case_decide; [by subst|done]. }
  destruct (IH v1 V1) as (v2 & E2 & V2 & D2 & O2); [congruence|by eapply opens_same|]. exists v2. split; [done|]. split; [done|]. split; [done|].
  intros i. by rewrite O2, Hs.
Qed.

(** Opening the buffers of another view in a fresh one. *)
Lemma reopen_all_ok s o : forall v,
  view_ok v -> disk v = s -> opens_modules s (open_files v) -> opens_modules s o -> NoDup o.*1 ->
  exists v', foldl reopen (Some v) o = Some v' /\ view_ok v' /\ disk v' = s /\
    (forall id, assoc_get id (open_files v') = match assoc_get id o with Some b => Some b | None => assoc_get id (open_files v) end).
Proof.
  induction o as [|[id [p t]] o IH]; intros v V Hd Hm Hmo Hnd; [by exists v|]. csimpl in Hnd. apply NoDup_cons in Hnd as [Hn Hnd].
  assert (forall f, snap_lookup s id = Some f -> snap_root f = BSL_SOURCE_ROOT) as Hid.
  { intros f. apply Hmo. simpl. by rewrite decide_True by done. }
  destruct (view_open_ok v id p t V) as (v1 & E1 & V1 & D1 & O1); [by rewrite Hd|].
  destruct (IH v1 V1) as (v2 & E2 & V2 & D2 & O2); [congruence| | |done|].
  - intros i f Hi. rewrite O1, assoc_get_set in Hi. case_decide; [subst; apply Hid|by apply Hm].
  - intros i f Hi. apply Hmo. simpl. by case_decide.
  - exists v2. cbn [foldl reopen mbind option_bind fst snd]. rewrite E1. split; [done|]. split; [done|]. split; [done|].
    intros i. rewrite O2, O1, assoc_get_set. simpl. case_decide as Hi; [|done]. subst.
    apply assoc_get_None in Hn. by rewrite Hn.
Qed.

Lemma fresh_ok s o : snapshot_ok s -> opens_modules s o -> NoDup o.*1 ->
  forall g d, exists v', (v ← seed (MkView Db_new g d []) s; foldl reopen (Some v) o) = Some v' /\ view_ok v' /\ disk v' = s /\
    same_open o (open_files v').
Proof.
  intros S Hm Hnd g d. destruct (seed_ok s g d S) as (v & -> & V & Hd & Ho). cbn [mbind option_bind].
  destruct (reopen_all_ok s o v V Hd) as (v' & E & V' & D' & O'); [by rewrite Ho; intros id f [? ?]|done|done|].
  exists v'. split; [done|]. split; [done|]. split; [done|]. intros id. rewrite O', Ho. by destruct (assoc_get id o).
Qed.

(** ** Catching up *)

Lemma catch_up_deltas_ok v s cs :
  view_ok v -> snapshot_ok (disk v) -> snapshot_ok s -> opens_modules s (open_files v) ->
  (suffix_ok (view_generation v) (snap_generation s) cs = true -> complete (disk v) s cs) ->
  exists b v', catch_up_deltas v s cs = Some (b, v') /\
    (b = false -> v' = v) /\ view_ok v' /\ (disk v' = disk v \/ disk v' = s) /\ same_open (open_files v) (open_files v').
Proof.
  intros V S S' Hm C. unfold catch_up_deltas.
  destruct (snap_generation s <? view_generation v)%N; [exists false, v; split_and!; by auto|].
  destruct (snap_generation s =? view_generation v)%N; [eexists _, v; split; [reflexivity|]; split_and!; by auto|].
  destruct (suffix_ok _ _ cs) eqn:Es; simpl negb; cbn iota; [|exists false, v; split_and!; by auto].
  set (changed := changed_set v s cs). assert (NoDup changed) as Hnd by apply NoDup_remove_dups.
  destruct (catch_up_root_ok v s changed (view_db v) BSL_SOURCE_ROOT S' Hnd (vok_wf _ V)) as (f1 & E1 & R1).
  destruct (catch_up_root_ok v s changed (with_files (view_db v) f1) METADATA_SOURCE_ROOT S' Hnd (rc_wf _ _ _ _ _ _ R1)) as (f2 & E2 & R2).
  cbn [foldl]. rewrite E1, E2. cbn [mbind option_bind].
  pose proof (both_caught v s changed f1 f2 V S S' (fun id => changed_covers v s cs id S S' (C eq_refl)) R1 R2) as Hshow.
  set (db2 := with_files (with_files (view_db v) f1) f2). set (db3 := if decide (configs db2 = snap_configs s) then _ else _).
  assert (files db3 = f2 /\ configs db3 = snap_configs s) as [F3 C3] by (subst db3; by case_decide).
  destruct (set_listings_files db3 s) as (L1 & L2 & L3). pose proof (fun p l => set_listings_get db3 s p l (sok_listings _ S')) as L4.
  set (db4 := set_listings db3 s) in *. set (db5 := if eqb _ _ then db4 else _).
  assert (files db5 = f2 /\ configs db5 = snap_configs s /\ load_complete db5 = metadata_ready s /\ listings db5 = listings db4)
    as (F5 & C5 & M5 & L5).
  { subst db5. destruct (eqb _ _) eqn:Eb; simpl; [|by rewrite L1, L2]. apply eqb_prop in Eb. by rewrite L1, L2. }
  destruct (reopen_changed_ok s changed (MkView db5 (snap_generation s) s (open_files v))) as (v' & -> & V' & D' & O'); [|done|done|].
  - split; simpl; rewrite ?F5; try done.
    + apply R2.
    + apply (rc_there _ _ _ _ _ _ R2), (rc_there _ _ _ _ _ _ R1), V.
    + intros r Hr. apply (list_elem_of_fmap_2 sroot_id) in Hr as Hr'.
      destruct (both_inv _ (sok_known _ S' _ Hr)) as [E|E]; rewrite E in *; [|by apply (rc_root _ _ _ _ _ _ R2)].
      by apply (rc_there _ _ _ _ _ _ R2), (rc_root _ _ _ _ _ _ R1).
    + intros p l Hpl. rewrite L5. by apply L4.
    + apply V.
  - exists true, v'. split; [done|]. split_and!; by auto.
Qed.

Lemma catch_up_ok v s cs :
  view_ok v -> snapshot_ok (disk v) -> snapshot_ok s -> opens_modules s (open_files v) ->
  (suffix_ok (view_generation v) (snap_generation s) cs = true -> complete (disk v) s cs) ->
  exists v', catch_up v s cs = Some v' /\ view_ok v' /\ (disk v' = disk v \/ disk v' = s) /\ same_open (open_files v) (open_files v').
Proof.
  intros V S S' Hm C. unfold catch_up. destruct (snap_generation s <? view_generation v)%N; [exists v; split_and!; by auto|].
  destruct (catch_up_deltas_ok v s cs V S S' Hm C) as (b & v1 & -> & Hb & V1 & D1 & O1). cbn [mbind option_bind].
  destruct b; [by exists v1|]. rewrite (Hb eq_refl).
  destruct (fresh_ok s (open_files v) S' Hm (vok_open _ V) (view_generation v) (disk v)) as (v2 & E2 & V2 & D2 & O2).
  exists v2. split; [done|]. split_and!; by auto.
Qed.

(** A view prepared beside this one takes its place with the open buffers. *)
Lemma replace_ok v s cancelled :
  view_ok v -> snapshot_ok s -> opens_modules s (open_files v) ->
  prepare s cancelled = Some None \/
  exists prepared b v', prepare s cancelled = Some (Some prepared) /\ replace_from_prepared v prepared = Some (b, v') /\
    view_ok v' /\ (disk v' = disk v \/ disk v' = s) /\ same_open (open_files v) (open_files v').
Proof.
  intros V S' Hm. destruct (seed_ok s 0 s S') as (p & E & Vp & Dp & Op). rewrite <- new_seeds in E.
  destruct (prepare_all_or_nothing s cancelled p E) as [Ep|Ep]; [|by left]. right. exists p. unfold replace_from_prepared.
  destruct (view_generation p <? view_generation v)%N; [exists false, v; split_and!; by auto|].
  destruct (reopen_all_ok s (open_files v) p Vp Dp) as (v' & E' & V' & D' & O'); [by rewrite Op; intros id f [? ?]|done|apply V|].
  exists true, v'. rewrite E'. split; [done|]. split; [done|]. split; [done|]. split; [by right|].
  intros id. rewrite O', Op. by destruct (assoc_get id (open_files v)).
Qed.

(** ** The life of a view *)

Inductive ViewOp : Type :=
  | VOpen (id : FileId) (p : Path) (t : text)
  | VChange (id : FileId) (t : text)
  | VClose (id : FileId)
  | VDeltas (s : WorkspaceSnapshot) (cs : list PublishedChange)
  | VCatchUp (s : WorkspaceSnapshot) (cs : list PublishedChange)
  | VPrepare (s : WorkspaceSnapshot) (cancelled : nat -> bool).

Definition view_step (v : EditorView) (o : ViewOp) : option EditorView :=
  match o with
  | VOpen id p t => view_open v id p t
  | VChange id t => snd <$> view_change v id t
  | VClose id => snd <$> view_close v id
  | VDeltas s cs => snd <$> catch_up_deltas v s cs
  | VCatchUp s cs => catch_up v s cs
  | VPrepare s cancelled =>
      prepared ← prepare s cancelled;
      match prepared with Some prepared => snd <$> replace_from_prepared v prepared | None => Some v end
  end.

(** The editor opens modules; the owner's snapshots are whole and its publications name what
    changed. *)
Definition admitted (v : EditorView) (o : ViewOp) : Prop :=
  match o with
  | VOpen id _ _ => forall f, snap_lookup (disk v) id = Some f -> snap_root f = BSL_SOURCE_ROOT
  | VChange _ _ | VClose _ => True
  | VDeltas s cs | VCatchUp s cs =>
      snapshot_ok s /\ opens_modules s (open_files v) /\
      (suffix_ok (view_generation v) (snap_generation s) cs = true -> complete (disk v) s cs)
  | VPrepare s _ => snapshot_ok s /\ opens_modules s (open_files v)
  end.

Inductive ViewReach (s0 : WorkspaceSnapshot) : EditorView -> Prop :=
  | reach_new v : EditorView_new s0 = Some v -> ViewReach s0 v
  | reach_step v o v' : ViewReach s0 v -> admitted v o -> view_step v o = Some v' -> ViewReach s0 v'.

Record view_inv (v : EditorView) : Prop := MkViewInv {
  vi_ok : view_ok v;
  vi_disk : snapshot_ok (disk v);
  vi_open : opens_modules (disk v) (open_files v);
}.

Lemma view_step_inv v o : view_inv v -> admitted v o -> exists v', view_step v o = Some v' /\ view_inv v'.
Proof.
  intros [V S Hm] A. destruct o as [id p t|id t|id|s cs|s cs|s cancelled]; simpl in *.
  - destruct (view_open_ok v id p t V A) as (v' & -> & V' & D & O). exists v'. split; [done|]. split; rewrite ?D; try done.
    intros i f Hi. rewrite O, assoc_get_set in Hi. case_decide; [subst; apply A|by apply Hm].
  - unfold view_change. destruct (assoc_get id (open_files v)) as [[p t0]|] eqn:Eo; [|by exists v].
    destruct (view_open_ok v id p t V) as (v' & -> & V' & D & O); [intros f; apply Hm; by rewrite Eo|].
    exists v'. split; [done|]. split; rewrite ?D; try done. intros i f Hi. rewrite O, assoc_get_set in Hi.
    case_decide; [subst; apply Hm; by rewrite Eo|by apply Hm].
  - destruct (view_close_ok v id V S Hm) as (b & v' & -> & V' & D & O). exists v'. split; [done|]. split; rewrite ?D; try done.
    intros i f Hi. rewrite O, assoc_get_remove in Hi by apply V. case_decide; [by destruct Hi|by apply Hm].
  - destruct A as (S' & Hm' & C). destruct (catch_up_deltas_ok v s cs V S S' Hm' C) as (b & v' & -> & _ & V' & D & O).
    exists v'. split; [done|]. split; [done| |]; destruct D as [-> | ->]; try done; by eapply opens_same.
  - destruct A as (S' & Hm' & C). destruct (catch_up_ok v s cs V S S' Hm' C) as (v' & -> & V' & D & O).
    exists v'. split; [done|]. split; [done| |]; destruct D as [-> | ->]; try done; by eapply opens_same.
  - destruct A as (S' & Hm'). destruct (replace_ok v s cancelled V S' Hm') as [->|(p & b & v' & -> & E & V' & D & O)]; [by exists v|].
    cbn [mbind option_bind]. rewrite E. exists v'. split; [done|].
    split; [done| |]; destruct D as [-> | ->]; try done; by eapply opens_same.
Qed.

Lemma view_reach_inv s0 v : snapshot_ok s0 -> ViewReach s0 v -> view_inv v.
Proof.
  intros S. induction 1 as [v E|v o v' _ IH A E].
  - destruct (seed_ok s0 0 s0 S) as (v' & E' & V & D & O). rewrite new_seeds, E' in E. injection E as ->.
    split; [done|by rewrite D|]. rewrite O. by intros id f [? ?].
  - destruct (view_step_inv v o IH A) as (v1 & E1 & I1). congruence.
Qed.

(** Two databases that show the same files answer alike. *)
Lemma shows_agree f f' id o d :
  shows_file f id o d -> shows_file f' id o d ->
  (forall rid, rid ∈ both_roots -> path_in f rid id = path_in f' rid id) /\
  (forall rid, rid ∈ both_roots -> is_Some (path_in f rid id) -> inputs_of f id = inputs_of f' id /\ root_of f id = root_of f' id).
Proof.
  assert (forall r p i, placed f id r p i -> placed f' id r p i ->
    (forall rid, rid ∈ both_roots -> path_in f rid id = path_in f' rid id) /\
    inputs_of f id = inputs_of f' id /\ root_of f id = root_of f' id) as Hpl.
  { intros r p i [P1 P2 P3 P4] [Q1 Q2 Q3 Q4]. split; [|split; congruence]. intros rid Hb.
    destruct (decide (rid = r)) as [->|]; [congruence|]. by rewrite P2, Q2. }
  destruct o as [[p t]|], d as [g|]; simpl; intros A B; try (destruct (Hpl _ _ _ A B) as (H1 & H2 & H3); by split).
  split; [intros; by rewrite A, B|]. intros rid Hb. rewrite A by done. by intros [? ?].
Qed.

End code.
