(* ===== verification/OwnerSpec.v ===== *)
(** OwnerSpec: the snapshots of the owner, and that its publications name every file that changed
    between two of them (crates/ide-host-core/src/workspace.rs). *)
From stdpp Require Import prelude sorting.
From S2P Require Import Prelude Interning InterningSpec Paths Vfs Inputs Load LoadSpec Workspace JournalSpec ViewSpec CatchUpSpec.

Section code.
Context `{MetadataInputs} `{ContentRevision}.

(** ** What a snapshot holds of a file *)

Definition state_of_inputs (i : FileInputs) : DiskFileState := if ignorant i then UnreadableFile else Readable (expected i).

Definition captured_at (f : Files) (rid : SourceRootId) (id : FileId) : option SnapshotFile :=
  p ← path_in f rid id; i ← inputs_of f id; Some (MkSnapshotFile id p rid (state_of_inputs i)).

Definition find_by (l : list SnapshotFile) (id : FileId) : option SnapshotFile := snd <$> list_find (fun f => snap_id f = id) l.

Lemma find_by_cons x l id : find_by (x :: l) id = if decide (snap_id x = id) then Some x else find_by l id.
Proof. unfold find_by. simpl. case_decide; [done|]. by destruct (list_find _ l) as [[n g]|]. Qed.

Lemma find_by_app l l' id : find_by (l ++ l') id = match find_by l id with Some x => Some x | None => find_by l' id end.
Proof. induction l as [|x l IH]; [done|]. rewrite <- app_comm_cons, !find_by_cons, IH. by case_decide. Qed.

Lemma find_by_omap (h : FileId -> option SnapshotFile) l id :
  (forall i x, h i = Some x -> snap_id x = i) -> find_by (omap h l) id = if decide (id ∈ l) then h id else None.
Proof.
  intros Hh. induction l as [|i l IH]; [by rewrite decide_False by apply not_elem_of_nil|].
  change (omap h (i :: l)) with (match h i with Some y => y :: omap h l | None => omap h l end).
  destruct (h i) as [x|] eqn:Ei.
  - rewrite find_by_cons, (Hh _ _ Ei), IH. destruct (decide (i = id)) as [->|Hn]; [by rewrite decide_True by by left|].
    destruct (decide (id ∈ l)); [by rewrite decide_True by by right|]. rewrite decide_False; [done|].
    rewrite elem_of_cons. by intros [->|?].
  - rewrite IH. destruct (decide (id ∈ l)); [by rewrite decide_True by by right|]. destruct (decide (id = i)) as [->|Hn].
    + by rewrite decide_True by by left.
    + rewrite decide_False; [done|]. rewrite elem_of_cons. by intros [?|?].
Qed.

Lemma find_by_captured f rid input id :
  try_source_root f rid = Some input -> find_by (captured_files f rid (root input)) id = captured_at f rid id.
Proof.
  intros Hr. unfold captured_files. rewrite find_by_omap.
  - unfold captured_at, path_in. rewrite Hr. cbn [mbind option_bind]. case_decide as Hin.
    + apply in_root_iter in Hin as [p ->]. unfold inputs_of. cbn [mbind option_bind].
      by destruct (try_file_revision f id).
    + rewrite in_root_iter in Hin. destruct (path_for_file _ id); [|done]. destruct Hin. by eexists.
  - intros i x. destruct (path_for_file _ i); [|done]. cbn. destruct (try_file_revision f i); [|done]. by intros [= <-].
Qed.

Lemma capture_lookup db g id :
  snap_lookup (capture db g) id =
  match captured_at (files db) BSL_SOURCE_ROOT id with
  | Some x => Some x
  | None => captured_at (files db) METADATA_SOURCE_ROOT id
  end.
Proof.
  change (snap_lookup (capture db g) id) with (find_by (snap_files (capture db g)) id). unfold capture, captured_roots. cbn [snap_files].
  cbn [omap list_omap]. assert (forall rid, try_source_root (files db) rid = None -> captured_at (files db) rid id = None) as Hn.
  { intros rid E. unfold captured_at, path_in. by rewrite E. }
  destruct (try_source_root (files db) BSL_SOURCE_ROOT) as [i|] eqn:E1, (try_source_root (files db) METADATA_SOURCE_ROOT) as [j|] eqn:E2;
    cbn [mbind option_bind list_bind sroot_id sroot]; rewrite ?app_nil_r, ?find_by_app;
    rewrite ?(find_by_captured _ _ _ _ E1), ?(find_by_captured _ _ _ _ E2), ?(Hn _ E1), ?(Hn _ E2); try done;
    by destruct (captured_at _ BSL_SOURCE_ROOT id).
Qed.

(** The snapshot depends on the paths and the inputs alone. *)
Lemma captured_same f f' rid id :
  path_in f' rid id = path_in f rid id -> inputs_of f' id = inputs_of f id -> captured_at f' rid id = captured_at f rid id.
Proof. unfold captured_at. by intros -> ->. Qed.

(** ** The owner's files *)

(** Each file of a root has a revision, and is in one root; files of the metadata are no modules. *)
Record owner_ok (f : Files) : Prop := MkOwnerOk {
  ow_wf : files_wf f;
  ow_bsl : is_Some (try_source_root f BSL_SOURCE_ROOT);
  ow_revisions : forall rid id p, rid ∈ both_roots -> path_in f rid id = Some p -> is_Some (inputs_of f id);
  ow_once : forall id p, path_in f BSL_SOURCE_ROOT id = Some p -> path_in f METADATA_SOURCE_ROOT id = None;
  ow_metadata : forall id p, path_in f METADATA_SOURCE_ROOT id = Some p -> is_bsl_source_path p = false;
}.

Lemma captured_root_iff f r :
  r ∈ captured_roots f <-> sroot_id r ∈ both_roots /\ exists input, try_source_root f (sroot_id r) = Some input /\ sroot r = root input.
Proof.
  unfold captured_roots. rewrite list_elem_of_omap. fold both_roots. split.
  - intros (rid & Hb & E). destruct (try_source_root f rid) as [i|] eqn:Ei; [|done]. injection E as <-. simpl. split; [done|].
    by exists i.
  - intros (Hb & i & Hi & Hr). exists (sroot_id r). split; [done|]. rewrite Hi. simpl. rewrite <- Hr. by destruct r.
Qed.

Lemma captured_file_iff db g x :
  x ∈ snap_files (capture db g) <-> snap_root x ∈ both_roots /\ captured_at (files db) (snap_root x) (snap_id x) = Some x.
Proof.
  unfold capture. cbn [snap_files]. rewrite list_elem_of_bind. split.
  - intros (r & Hx & (Hb & i & Hi & Hr)%captured_root_iff). unfold captured_files in Hx. apply list_elem_of_omap in Hx as (id & Hin & E).
    destruct (path_for_file _ id) as [p|] eqn:Ep; [|done]. cbn in E. destruct (try_file_revision (files db) id) as [rev|] eqn:Er; [|done].
    injection E as <-. cbn [snap_root snap_id]. split; [done|]. unfold captured_at, path_in, inputs_of. rewrite Hi. cbn. rewrite <- Hr, Ep. cbn.
    rewrite Er. done.
  - intros [Hb E]. unfold captured_at, path_in in E. destruct (try_source_root (files db) (snap_root x)) as [i|] eqn:Ei; [|done].
    cbn in E. destruct (path_for_file (file_set (root i)) (snap_id x)) as [p|] eqn:Ep; [|done]. cbn in E. unfold inputs_of in E.
    destruct (try_file_revision (files db) (snap_id x)) as [rev|] eqn:Er; [|done]. cbn in E.
    exists (MkSnapshotRoot (snap_root x) (root i)). split; [|apply captured_root_iff; split; [done|by exists i]].
    unfold captured_files. apply list_elem_of_omap. exists (snap_id x). split; [apply in_root_iter; simpl; by rewrite Ep|].
    simpl. rewrite Ep. cbn. rewrite Er. exact E.
Qed.

Lemma captured_at_some f rid id x :
  captured_at f rid id = Some x -> snap_id x = id /\ snap_root x = rid /\ path_in f rid id = Some (snap_path x).
Proof.
  unfold captured_at. destruct (path_in f rid id) as [p|]; [|done]. cbn. destruct (inputs_of f id); [|done]. by intros [= <-].
Qed.

Lemma NoDup_omap_ids {A} (h : A -> option SnapshotFile) (k : A -> FileId) (l : list A) :
  (forall i x, h i = Some x -> snap_id x = k i) -> NoDup (k <$> l) -> NoDup (snap_id <$> omap h l).
Proof.
  intros Hh. induction l as [|i l IH]; intros Hnd; [constructor|]. csimpl in Hnd. apply NoDup_cons in Hnd as [Hn Hnd].
  change (omap h (i :: l)) with (match h i with Some y => y :: omap h l | None => omap h l end).
  destruct (h i) as [x|] eqn:E; [|by apply IH]. csimpl. apply NoDup_cons. split; [|by apply IH].
  rewrite (Hh _ _ E). intros (y & Ey & (j & Hj & Ej)%list_elem_of_omap)%list_elem_of_fmap. apply Hn. rewrite Ey, (Hh _ _ Ej).
  by apply list_elem_of_fmap_2.
Qed.

Lemma captured_ids f rid input :
  fs_wf (file_set (root input)) -> NoDup (snap_id <$> captured_files f rid (root input)).
Proof.
  intros Hwf. apply (NoDup_omap_ids _ (fun id => id)); [|by rewrite list_fmap_id].
  intros i x. destruct (path_for_file _ i); [|done]. cbn. destruct (try_file_revision f i); [|done]. by intros [= <-].
Qed.

Lemma capture_ids db g : owner_ok (files db) -> NoDup (snap_id <$> snap_files (capture db g)).
Proof.
  intros O. unfold capture, captured_roots. cbn [snap_files omap list_omap].
  destruct (try_source_root (files db) BSL_SOURCE_ROOT) as [i|] eqn:E1, (try_source_root (files db) METADATA_SOURCE_ROOT) as [j|] eqn:E2;
    cbn [mbind option_bind list_bind sroot_id sroot]; rewrite ?app_nil_r; try (apply captured_ids; by eapply (proj2 (ow_wf _ O))); [|constructor].
  rewrite fmap_app. apply NoDup_app. split_and!; try (apply captured_ids; by eapply (proj2 (ow_wf _ O))).
  intros id (x & -> & Hx)%list_elem_of_fmap (y & Exy & Hy)%list_elem_of_fmap.
  assert (forall rid input z, try_source_root (files db) rid = Some input -> z ∈ captured_files (files db) rid (root input) ->
    is_Some (path_in (files db) rid (snap_id z))) as Hp.
  { intros rid input z Hr Hz. unfold captured_files in Hz. apply list_elem_of_omap in Hz as (k & Hk & E).
    destruct (path_for_file _ k) as [p|] eqn:Ep; [|done]. cbn in E. destruct (try_file_revision (files db) k); [|done].
    injection E as <-. cbn. unfold path_in. rewrite Hr. cbn. by rewrite Ep. }
  destruct (Hp _ _ _ E1 Hx) as [p Hpx], (Hp _ _ _ E2 Hy) as [q Hqy]. rewrite <- Exy in Hqy.
  by rewrite (ow_once _ O _ _ Hpx) in Hqy.
Qed.

Lemma capture_listings db g :
  NoDup (config_key <$> config_roots (configs db)) -> NoDup (config_key <$> (snap_metadata (capture db g)).*1).
Proof.
  unfold capture. cbn [snap_metadata]. induction (config_roots (configs db)) as [|p l IH]; intros Hnd; [constructor|].
  csimpl in Hnd. apply NoDup_cons in Hnd as [Hn Hnd]. cbn [omap list_omap].
  destruct (assoc_get (config_key p) (listings db)) as [x|]; cbn [mbind option_bind]; [|by apply IH].
  csimpl. apply NoDup_cons. split; [|by apply IH]. intros (q & Eq & Hq)%list_elem_of_fmap. apply Hn. rewrite Eq.
  apply list_elem_of_fmap_2. apply list_elem_of_fmap in Hq as ([q' y] & -> & Hq). apply list_elem_of_omap in Hq as (k & Hk & E).
  destruct (assoc_get (config_key k) (listings db)); [|done]. by injection E as <- <-.
Qed.

Lemma capture_ok db g :
  owner_ok (files db) -> NoDup (config_key <$> config_roots (configs db)) -> snapshot_ok (capture db g).
Proof.
  intros O Hl. split.
  - by apply capture_ids.
  - unfold capture, captured_roots. cbn [snap_roots omap list_omap].
    destruct (try_source_root (files db) BSL_SOURCE_ROOT), (try_source_root (files db) METADATA_SOURCE_ROOT);
      cbn [mbind option_bind]; csimpl; repeat constructor; try apply not_elem_of_nil. by intros ?%list_elem_of_singleton.
  - destruct (ow_bsl _ O) as [i Hi]. apply list_elem_of_fmap. exists (MkSnapshotRoot BSL_SOURCE_ROOT (root i)). split; [done|].
    apply captured_root_iff. split; [apply bsl_in_both|]. by exists i.
  - by intros r [? _]%captured_root_iff.
  - intros x [Hb E]%captured_file_iff. apply list_elem_of_fmap. unfold captured_at, path_in in E.
    destruct (try_source_root (files db) (snap_root x)) as [i|] eqn:Ei; [|done]. exists (MkSnapshotRoot (snap_root x) (root i)).
    split; [done|]. apply captured_root_iff. split; [done|]. by exists i.
  - intros r (_ & i & Hi & ->)%captured_root_iff. by eapply (proj2 (ow_wf _ O)).
  - intros r id p (Hb & i & Hi & Hr)%captured_root_iff. rewrite Hr.
    assert (path_for_file (file_set (root i)) id = path_in (files db) (sroot_id r) id) as -> by (unfold path_in; by rewrite Hi).
    rewrite capture_lookup. split.
    + intros Hp. destruct (ow_revisions _ O _ _ _ Hb Hp) as [inp Hinp].
      assert (captured_at (files db) (sroot_id r) id = Some (MkSnapshotFile id p (sroot_id r) (state_of_inputs inp))) as Hc
        by (unfold captured_at; by rewrite Hp, Hinp).
      destruct (both_inv _ Hb) as [Er|Er]; rewrite Er in *; rewrite ?Hc; [by eexists|].
      destruct (captured_at (files db) BSL_SOURCE_ROOT id) as [x|] eqn:Ex; [|by eexists].
      apply captured_at_some in Ex as (_ & _ & Ex). by rewrite (ow_once _ O _ _ Ex) in Hp.
    + intros (x & Hx & <- & <-). destruct (captured_at (files db) BSL_SOURCE_ROOT id) as [y|] eqn:Ey.
      * injection Hx as ->. by apply captured_at_some in Ey as (_ & -> & ?).
      * by apply captured_at_some in Hx as (_ & -> & ?).
  - intros x [Hb E]%captured_file_iff Hr. apply captured_at_some in E as (_ & _ & E). rewrite Hr in E. by apply (ow_metadata _ O) in E.
  - by apply capture_listings.
Qed.

(** ** Batches and their effects *)

Lemma spec_unchanged rid cs b id : id ∉ spec_changed rid b cs -> same_at id b (foldl (spec_step rid) b cs).
Proof.
  revert b. induction cs as [|c cs IH]; intros b Hid; [done|]. simpl in Hid. apply not_elem_of_app in Hid as [Hc Hid].
  unfold same_at. simpl. destruct (IH _ Hid) as (-> & -> & ->). destruct (decide (change_id c = id)) as [<-|Hn]; [|by apply spec_step_other].
  unfold spec_step. destruct (changes_something b c) eqn:E; [|done]. destruct Hc. by left.
Qed.

(** What the queries see of a file under both roots. *)
Definition seen_same (f f' : Files) (id : FileId) : Prop :=
  (forall rid, path_in f' rid id = path_in f rid id) /\ inputs_of f' id = inputs_of f id.

Lemma seen_same_trans f f1 f2 id : seen_same f f1 id -> seen_same f1 f2 id -> seen_same f f2 id.
Proof. intros [P1 I1] [P2 I2]. split; [intros rid; by rewrite P2, P1|by rewrite I2, I1]. Qed.

Definition batch_ready (f : Files) (batch : SourceRootId * list SourceBatchChange) : Prop :=
  is_Some (try_source_root f batch.1) /\ Forall admissible batch.2.

Lemma batch_names f batch :
  files_wf f -> batch_ready f batch ->
  exists f' e, apply_source_batch f batch.1 batch.2 = Some (f', e) /\ files_wf f' /\
    (forall rid, is_Some (try_source_root f rid) -> is_Some (try_source_root f' rid)) /\
    (forall id, id ∉ changed_file_ids e -> seen_same f f' id).
Proof.
  intros Hwf [Hr Ha]. destruct (batch_refines f batch.1 batch.2 Hwf Hr Ha) as (f' & e & E & D). exists f', e.
  split; [done|]. split; [apply D|]. split.
  - intros rid Hi. destruct (decide (rid = batch.1)) as [->|Hn]; [apply D|]. by rewrite (done_others _ _ _ _ _ D).
  - intros id Hid. rewrite (done_changed _ _ _ _ _ D) in Hid. destruct (spec_unchanged _ _ _ _ Hid) as (H1 & H2 & _).
    split; [|by rewrite (done_inputs _ _ _ _ _ D)]. intros rid. destruct (decide (rid = batch.1)) as [->|Hn].
    + by rewrite (done_paths _ _ _ _ _ D).
    + unfold path_in. by rewrite (done_others _ _ _ _ _ D).
Qed.

Definition batch_fold (acc : option (Db * SourceBatchEffects)) (batch : SourceRootId * list SourceBatchChange)
    : option (Db * SourceBatchEffects) :=
  '(db, e) ← acc;
  '(db, e') ← db_apply_batch db batch.1 batch.2;
  Some (db, MkEffects (file_set_changed e || file_set_changed e') (bsl_source_changed e || bsl_source_changed e')
              (changed_file_ids e ++ changed_file_ids e') (affected_paths e ++ affected_paths e')).

Lemma batches_name batches : forall db e,
  files_wf (files db) -> Forall (batch_ready (files db)) batches ->
  exists f' e', foldl batch_fold (Some (db, e)) batches = Some (with_files db f', e') /\ files_wf f' /\
    (forall rid, is_Some (try_source_root (files db) rid) -> is_Some (try_source_root f' rid)) /\
    (forall id, id ∉ changed_file_ids e' -> (id ∉ changed_file_ids e) /\ seen_same (files db) f' id).
Proof.
  induction batches as [|batch batches IH]; intros db e Hwf Hb.
  - exists (files db), e. simpl. split; [by destruct db|]. done.
  - apply Forall_cons in Hb as [Hb Hbs]. destruct (batch_names _ batch Hwf Hb) as (f1 & e1 & E1 & W1 & T1 & N1).
    cbn [foldl batch_fold mbind option_bind]. unfold db_apply_batch at 1. rewrite E1. cbn [mbind option_bind].
    match goal with |- context [foldl batch_fold (Some (?d, ?x)) batches] => destruct (IH d x) as (f2 & e2 & E2 & W2 & T2 & N2) end.
    { done. } { eapply Forall_impl; [exact Hbs|]. intros b [Hr Ha]. split; [by apply T1|done]. }
    exists f2, e2. rewrite E2. split; [done|]. split; [done|]. split; [intros rid Hr; by apply T2, T1|].
    intros id Hid. destruct (N2 id Hid) as [Hn Hs]. simpl in Hn. apply not_elem_of_app in Hn as [Hn Hn1]. split; [done|].
    by eapply seen_same_trans; [apply N1|].
Qed.

(** ** The publications of an owner *)

(** The source batches of [apply_batches], before the metadata are brought up to date. *)
Definition sources_applied (db : Db) (batches : list (SourceRootId * list SourceBatchChange)) : option (Db * SourceBatchEffects) :=
  foldl batch_fold (Some (db, no_effects)) (merge_sort batch_le batches).

(** A write to the owner's database that is no source batch: the databases before and after it, and
    whether the publication of its step says that the metadata changed. *)
Record Write : Type := MkWrite { before : Db; after : Db; said : bool }.

Definition writes_file (w : Write) (id : FileId) : Prop :=
  snap_lookup (capture (before w) 0) id <> snap_lookup (capture (after w) 0) id.

(** It changes files of the metadata only, and says so. *)
Definition careful (w : Write) : Prop :=
  forall id, writes_file w id ->
    said w = true /\
    forall x, snap_lookup (capture (before w) 0) id = Some x \/ snap_lookup (capture (after w) 0) id = Some x ->
      snap_root x = METADATA_SOURCE_ROOT.

(** What an owner does but for rebuilds, with its publications and its other writes: batches with a
    refresh of the metadata ([apply_batches]); the same by hand, as the resident of the MCP server
    does it (a source batch on [database_mut], whatever else is written to it, then [publish_change]
    with the files of the batch); any write to [database_mut]; and any publication. *)
Inductive OwnerRuns (b : WorkspaceBackend) : list PublishedChange -> list Write -> WorkspaceBackend -> Prop :=
  | owner_start : OwnerRuns b [] [] b
  | owner_batches cs ws b1 batches db e update pub b2 :
      OwnerRuns b cs ws b1 -> Forall (batch_ready (files (host b1))) batches ->
      sources_applied (host b1) batches = Some (db, e) -> files_wf (files (update db e).1) ->
      apply_batches b1 batches update = Some (pub, b2) ->
      OwnerRuns b (cs ++ option_list pub) (ws ++ [MkWrite db (update db e).1 (update db e).2]) b2
  | owner_resident cs ws b1 batch db e db' paths m pub b2 :
      OwnerRuns b cs ws b1 -> batch_ready (files (host b1)) batch ->
      db_apply_batch (host b1) batch.1 batch.2 = Some (db, e) -> files_wf (files db') ->
      publish_change (MkBackend db' (generation b1) (journal b1) (catalog b1)) (changed_file_ids e) paths m = (pub, b2) ->
      OwnerRuns b (cs ++ option_list pub) (ws ++ [MkWrite db db' m]) b2
  | owner_writes cs ws b1 db :
      OwnerRuns b cs ws b1 -> files_wf (files db) ->
      OwnerRuns b cs (ws ++ [MkWrite (host b1) db false]) (MkBackend db (generation b1) (journal b1) (catalog b1))
  | owner_publishes cs ws b1 ids paths m pub b2 :
      OwnerRuns b cs ws b1 -> publish_change b1 ids paths m = (pub, b2) ->
      OwnerRuns b (cs ++ option_list pub) ws b2.

Lemma snap_lookup_same db db' g g' id :
  seen_same (files db) (files db') id -> snap_lookup (capture db' g') id = snap_lookup (capture db g) id.
Proof. intros [Hp Hi]. rewrite !capture_lookup. by rewrite !(captured_same (files db) (files db')) by done. Qed.

(** The publication, if there is one, names the files and says whether the metadata changed. *)
Lemma publish_names b ids ps m pub b' :
  publish_change b ids ps m = (pub, b') ->
  host b' = host b /\
  match pub with
  | Some c => (forall id, id ∈ pub_file_ids c <-> id ∈ ids) /\ metadata_changed c = m
  | None => ids = [] /\ m = false
  end.
Proof.
  unfold publish_change. assert (forall id, id ∈ dedup (merge_sort id_le ids) <-> id ∈ ids) as Hd.
  { intros id. by rewrite dedup_elem, merge_sort_Permutation. }
  destruct (dedup (merge_sort id_le ids)) as [|i l] eqn:E, (dedup (merge_sort path_le ps)), m; intros [= <- <-]; try (split; [done|]; split; [exact Hd|done]).
  split; [done|]. split; [|done]. destruct ids as [|j ids]; [done|]. exfalso.
  eapply not_elem_of_nil. apply (Hd j). by left.
Qed.

Lemma complete_trans s s1 s2 cs cs1 : complete s s1 cs -> complete s1 s2 cs1 -> complete s s2 (cs ++ cs1).
Proof.
  intros C1 C2 id Hne. assert (forall l1 l2 : list PublishedChange, id ∈ (l1 ≫= pub_file_ids) \/ id ∈ (l2 ≫= pub_file_ids) ->
    id ∈ ((l1 ++ l2) ≫= pub_file_ids)) as Happ by (intros l1 l2 Hl; rewrite bind_app; by apply elem_of_app).
  destruct (decide (snap_lookup s id = snap_lookup s1 id)) as [E1|E1], (decide (snap_lookup s1 id = snap_lookup s2 id)) as [E2|E2].
  - congruence.
  - destruct (C2 id E2) as [?|[Hm Hg]]; [left; apply Happ; by right|right]. rewrite existsb_app, Hm, orb_true_r. split; [done|].
    intros g. rewrite E1. apply Hg.
  - destruct (C1 id E1) as [?|[Hm Hg]]; [left; apply Happ; by left|right]. rewrite existsb_app, Hm. split; [done|].
    intros g. rewrite <- E2. apply Hg.
  - destruct (C1 id E1) as [?|[Hm Hg]]; [left; apply Happ; by left|].
    destruct (C2 id E2) as [?|[_ Hg']]; [left; apply Happ; by right|right]. rewrite existsb_app, Hm. split; [done|].
    intros g [Hs|Hs]; [apply Hg; by left|apply Hg'; by right].
Qed.

Lemma backend_lookup b id : snap_lookup (backend_snapshot b) id = snap_lookup (capture (host b) (generation b)) id.
Proof. done. Qed.

Lemma capture_generation db g g' id : snap_lookup (capture db g) id = snap_lookup (capture db g') id.
Proof. by rewrite !capture_lookup. Qed.

(** A step that changes files as [ids] and a write say, and publishes them, is complete when the
    write is careful, and in any case names what the write did not change. *)
Lemma step_named b w ids paths pub b2 :
  (forall id, id ∉ ids -> snap_lookup (capture (before w) 0) id = snap_lookup (capture (host b) 0) id) ->
  publish_change (MkBackend (after w) (generation b) (journal b) (catalog b)) ids paths (said w) = (pub, b2) ->
  (forall id, snap_lookup (backend_snapshot b) id <> snap_lookup (backend_snapshot b2) id ->
     id ∈ (option_list pub ≫= pub_file_ids) \/ writes_file w id) /\
  (careful w -> complete (backend_snapshot b) (backend_snapshot b2) (option_list pub)).
Proof.
  intros Hsame Hp. apply publish_names in Hp as [Hh Hp]. simpl in Hh.
  assert (forall id, id ∈ ids -> id ∈ (option_list pub ≫= pub_file_ids)) as Hin.
  { intros id Hid. destruct pub as [c|]; simpl; [rewrite app_nil_r; by apply Hp|]. destruct Hp as [Hp _]. rewrite Hp in Hid. by apply elem_of_nil in Hid. }
  assert (forall id, id ∉ ids -> snap_lookup (backend_snapshot b) id = snap_lookup (capture (before w) 0) id) as Hb.
  { intros id Hid. rewrite backend_lookup, (Hsame id Hid). apply capture_generation. }
  assert (forall id, snap_lookup (backend_snapshot b2) id = snap_lookup (capture (after w) 0) id) as Ha.
  { intros id. rewrite backend_lookup, Hh. apply capture_generation. }
  split.
  - intros id Hne. destruct (decide (id ∈ ids)) as [Hid|Hid]; [left; by apply Hin|right]. unfold writes_file. by rewrite <- (Hb id Hid), <- Ha.
  - intros Hc id Hne. destruct (decide (id ∈ ids)) as [Hid|Hid]; [left; by apply Hin|right].
    destruct (Hc id) as [Hsaid Hroot]; [unfold writes_file; by rewrite <- (Hb id Hid), <- Ha|].
    destruct pub as [c|]; [|by destruct Hp as [_ Hp]; congruence]. simpl. destruct Hp as [_ ->]. rewrite Hsaid. split; [done|].
    intros x. rewrite (Hb id Hid), Ha. apply Hroot.
Qed.

Lemma batch_named b batch :
  files_wf (files (host b)) -> batch_ready (files (host b)) batch ->
  exists f e, db_apply_batch (host b) batch.1 batch.2 = Some (with_files (host b) f, e) /\
    forall id, id ∉ changed_file_ids e -> snap_lookup (capture (with_files (host b) f) 0) id = snap_lookup (capture (host b) 0) id.
Proof.
  intros Hwf Hb. destruct (batch_names _ batch Hwf Hb) as (f & e & E & _ & _ & N). exists f, e. unfold db_apply_batch. rewrite E.
  split; [done|]. intros id Hid. apply snap_lookup_same. by apply N.
Qed.

Lemma sources_named b batches :
  files_wf (files (host b)) -> Forall (batch_ready (files (host b))) batches ->
  exists f e, sources_applied (host b) batches = Some (with_files (host b) f, e) /\ files_wf f /\
    forall id, id ∉ changed_file_ids e -> snap_lookup (capture (with_files (host b) f) 0) id = snap_lookup (capture (host b) 0) id.
Proof.
  intros Hwf Hb. destruct (batches_name (merge_sort batch_le batches) (host b) no_effects Hwf) as (f & e & E & W & _ & N).
  { by rewrite merge_sort_Permutation. }
  exists f, e. split; [done|]. split; [done|]. intros id Hid. destruct (N id Hid) as [_ Hs]. by apply snap_lookup_same.
Qed.

(** One step of the owner: what it publishes and what it writes. *)
Lemma apply_batches_steps b batches update db e pub b2 :
  sources_applied (host b) batches = Some (db, e) -> apply_batches b batches update = Some (pub, b2) ->
  publish_change (MkBackend (update db e).1 (generation b) (journal b) (catalog b)) (changed_file_ids e) (affected_paths e) (update db e).2 = (pub, b2).
Proof.
  intros E. unfold apply_batches. change (foldl _ (Some (host b, no_effects)) (merge_sort batch_le batches)) with (sources_applied (host b) batches).
  rewrite E. cbn [mbind option_bind]. destruct (update db e) as [db2 m]. by intros [= <-].
Qed.

Lemma named_trans b b1 b2 cs1 cs2 (ws1 ws2 : list Write) :
  (forall id, snap_lookup (backend_snapshot b) id <> snap_lookup (backend_snapshot b1) id ->
     id ∈ (cs1 ≫= pub_file_ids) \/ exists w, w ∈ ws1 /\ writes_file w id) ->
  (forall id, snap_lookup (backend_snapshot b1) id <> snap_lookup (backend_snapshot b2) id ->
     id ∈ (cs2 ≫= pub_file_ids) \/ exists w, w ∈ ws2 /\ writes_file w id) ->
  forall id, snap_lookup (backend_snapshot b) id <> snap_lookup (backend_snapshot b2) id ->
    id ∈ ((cs1 ++ cs2) ≫= pub_file_ids) \/ exists w, w ∈ ws1 ++ ws2 /\ writes_file w id.
Proof.
  intros N1 N2 id Hne. rewrite bind_app. setoid_rewrite elem_of_app.
  destruct (decide (snap_lookup (backend_snapshot b) id = snap_lookup (backend_snapshot b1) id)) as [E|E].
  - rewrite E in Hne. destruct (N2 id Hne) as [|(w & Hw & Hi)]; [left; by right|right; exists w; split; [by right|done]].
  - destruct (N1 id E) as [|(w & Hw & Hi)]; [left; by left|right; exists w; split; [by left|done]].
Qed.

Lemma publishes_more g0 base since b db ids paths m pub b2 :
  Publishes g0 base since b ->
  publish_change (MkBackend db (generation b) (journal b) (catalog b)) ids paths m = (pub, b2) ->
  Publishes g0 base (since ++ option_list pub) b2.
Proof.
  intros Hp Ep. apply (pub_write _ _ _ _ db) in Hp. destruct pub as [c|]; simpl; [by eapply pub_change|].
  rewrite app_nil_r. by eapply pub_nothing.
Qed.

Lemma publish_generation_grows b ids paths m pub b2 :
  publish_change b ids paths m = (pub, b2) -> (generation b2 < U64_MAX)%N ->
  (generation b < U64_MAX)%N /\ (generation b <= generation b2)%N.
Proof.
  intros E Hm. destruct pub as [c|].
  - apply publish_generation in E as (_ & E & _). rewrite E in Hm |- *. unfold saturating_succ in *. lia.
  - apply publish_none in E as ->. done.
Qed.

(** What a run keeps true of its start [b], its publications and its writes. *)
Definition run_facts (b : WorkspaceBackend) (cs : list PublishedChange) (ws : list Write) (b' : WorkspaceBackend) : Prop :=
  (forall id, snap_lookup (backend_snapshot b) id <> snap_lookup (backend_snapshot b') id ->
     id ∈ (cs ≫= pub_file_ids) \/ exists w, w ∈ ws /\ writes_file w id) /\
  (Forall careful ws -> complete (backend_snapshot b) (backend_snapshot b') cs) /\
  (forall g0 base since, Publishes g0 base since b -> Publishes g0 base (since ++ cs) b') /\
  ((generation b' < U64_MAX)%N -> (generation b < U64_MAX)%N /\ (generation b <= generation b')%N).

Lemma step_runs b cs ws b1 w ids paths pub b2 :
  run_facts b cs ws b1 -> files_wf (files (after w)) ->
  (forall id, id ∉ ids -> snap_lookup (capture (before w) 0) id = snap_lookup (capture (host b1) 0) id) ->
  publish_change (MkBackend (after w) (generation b1) (journal b1) (catalog b1)) ids paths (said w) = (pub, b2) ->
  files_wf (files (host b2)) /\ run_facts b (cs ++ option_list pub) (ws ++ [w]) b2.
Proof.
  intros (N1 & C1 & P1 & G1) Hwf Hsame E. destruct (step_named b1 w ids paths pub b2 Hsame E) as [N2 C2].
  split; [destruct (publish_names _ _ _ _ _ _ E) as [-> _]; exact Hwf|]. split; [|split; [|split]].
  - eapply named_trans; [exact N1|]. intros id Hne. destruct (N2 id Hne) as [|Hw]; [by left|right]. exists w. split; [by left|done].
  - intros [Hws Hw]%Forall_app. apply Forall_inv in Hw. eapply complete_trans; [exact (C1 Hws)|exact (C2 Hw)].
  - intros g0 base since Hp. rewrite app_assoc. eapply publishes_more; [by apply P1|exact E].
  - intros Hm. destruct (publish_generation_grows _ _ _ _ _ _ E Hm) as [Hm1 Hle]. simpl in Hm1, Hle. destruct (G1 Hm1). split; [done|lia].
Qed.

Lemma publication_runs b cs ws b1 ids paths m pub b2 :
  run_facts b cs ws b1 -> host b2 = host b1 ->
  publish_change (MkBackend (host b1) (generation b1) (journal b1) (catalog b1)) ids paths m = (pub, b2) ->
  run_facts b (cs ++ option_list pub) ws b2.
Proof.
  intros (N1 & C1 & P1 & G1) Hh E.
  assert (forall id, snap_lookup (backend_snapshot b2) id = snap_lookup (backend_snapshot b1) id) as Hs.
  { intros id. rewrite !backend_lookup, Hh. apply capture_generation. }
  split; [|split; [|split]].
  - intros id Hne. rewrite Hs in Hne. rewrite bind_app. destruct (N1 id Hne) as [|?]; [left; apply elem_of_app; by left|by right].
  - intros Hw. eapply complete_trans; [by apply C1|]. intros id Hne. by rewrite Hs in Hne.
  - intros g0 base since Hp. rewrite app_assoc. eapply publishes_more; [by apply P1|exact E].
  - intros Hm. destruct (publish_generation_grows _ _ _ _ _ _ E Hm) as [Hm1 Hle]. simpl in Hm1, Hle. destruct (G1 Hm1). split; [done|lia].
Qed.

Lemma owner_runs_ok b cs ws b' :
  OwnerRuns b cs ws b' -> files_wf (files (host b)) -> files_wf (files (host b')) /\ run_facts b cs ws b'.
Proof.
  intros Hr Hwf. induction Hr as [|cs ws b1 batches db e update pub b2 _ IH Hb Es Hu E|cs ws b1 batch db e db' paths m pub b2 _ IH Hb Es Hu E
    |cs ws b1 db _ IH Hu|cs ws b1 ids paths m pub b2 _ IH E].
  - split; [done|]. split; [by intros id|]. split; [by intros _ id|]. split; [|done]. intros. by rewrite app_nil_r.
  - apply (apply_batches_steps _ _ _ _ _ _ _ Es) in E. destruct IH as (W1 & IH).
    destruct (sources_named b1 batches W1 Hb) as (f & e' & Es' & _ & Hsame). rewrite Es in Es'. injection Es' as -> ->.
    eapply (step_runs _ _ _ b1 (MkWrite _ _ _)); [exact IH|exact Hu|exact Hsame|exact E].
  - destruct IH as (W1 & IH). destruct (batch_named b1 batch W1 Hb) as (f & e' & Es' & Hsame). rewrite Es in Es'. injection Es' as -> ->.
    eapply (step_runs _ _ _ b1 (MkWrite _ _ _)); [exact IH|exact Hu|exact Hsame|exact E].
  - destruct IH as (W1 & IH). rewrite <- (app_nil_r cs).
    eapply (step_runs _ _ _ b1 (MkWrite _ _ _) [] [] None); [exact IH|exact Hu|by intros id _|done].
  - destruct IH as (W1 & IH). destruct (publish_names _ _ _ _ _ _ E) as [Hh _]. rewrite Hh. split; [exact W1|].
    eapply (publication_runs _ _ _ b1); [exact IH|exact Hh|]. by destruct b1.
Qed.

(** The answer at the end of a run. *)
Lemma owner_answers g0 base since b cs b' :
  Publishes g0 base since b -> (generation b < U64_MAX)%N -> Publishes g0 base (since ++ cs) b' ->
  (generation b' < U64_MAX)%N -> (generation b <= generation b')%N ->
  match changes_since b' (generation b) with
  | Current => cs = []
  | Changes cs' => cs' = cs /\ suffix_ok (generation b) (generation b') cs = true
  | Reseed s => s = backend_snapshot b' /\ (JOURNAL_CAPACITY < length cs)%nat
  end.
Proof.
  intros Hp Hm0 Hp' Hm Hle. pose proof (publishes_ok _ _ _ _ Hp' Hm) as J'. destruct J' as [Jc Jg Jj].
  pose proof (publishes_ok _ _ _ _ Hp Hm0) as [Kc Kg Kj].
  rewrite length_app in Jg. rewrite (journal_answers base (since ++ cs)) by first [done|split; [done|rewrite length_app; lia|done]].
  destruct (N.eqb_spec (generation b) (generation b')) as [E|E].
  - destruct cs; [done|]. simpl in Jg. lia.
  - destruct (N.ltb_spec (generation b') (generation b)); [lia|]. destruct (N.ltb_spec (generation b) base); [lia|].
    destruct (N.ltb_spec (generation b + N.of_nat JOURNAL_CAPACITY) (generation b')); simpl.
    + split; [done|]. unfold JOURNAL_CAPACITY in *. lia.
    + assert (filter (fun c => (generation b < pub_generation c)%N) (since ++ cs) = cs) as Hf.
      { rewrite (contiguous_filter base) by (done || lia). replace (N.to_nat (generation b - base)) with (length since) by lia.
        by rewrite drop_app_length. }
      split; [done|]. rewrite <- Hf at 1. apply (suffix_ok_drop base (since ++ cs)); [|lia]. split; [done|rewrite length_app; lia|done].
Qed.

(** C23. The publications name what changed.  An owner applies batches of source changes, each with a
    refresh of its metadata; the resident of the MCP server applies one by hand and publishes its
    files; either may write to the database in other ways, and publish anything.  (A full rebuild
    forgets the journal, and is not among these steps.)  Asked at the end what is new since it was
    at the generation where this began, the owner hands over exactly the publications made since,
    in their order; or nothing when there were none; or, after more than sixty-four, its snapshot
    instead.  Every file whose path, root or content on disk differs between the snapshot it would
    have given then and the one it gives now is named by one of these publications, or one of the
    refreshes and other writes changed it: no file of a source batch is missed.  And if those
    writes changed files of the metadata only, in steps that say that the metadata changed, each
    such file is named or is one of the metadata of which a publication says that they changed, so
    that a view of the first snapshot catches up with the second. *)
Theorem publications_name_what_changed g0 base since b cs ws b' :
  Publishes g0 base since b -> files_wf (files (host b)) -> OwnerRuns b cs ws b' -> (generation b' < U64_MAX)%N ->
  match changes_since b' (generation b) with
  | Current => cs = []
  | Changes cs' => cs' = cs /\ suffix_ok (generation b) (generation b') cs = true
  | Reseed s => s = backend_snapshot b' /\ (JOURNAL_CAPACITY < length cs)%nat
  end /\
  (forall id, snap_lookup (backend_snapshot b) id <> snap_lookup (backend_snapshot b') id ->
     id ∈ (cs ≫= pub_file_ids) \/ exists w, w ∈ ws /\ writes_file w id) /\
  (Forall careful ws -> complete (backend_snapshot b) (backend_snapshot b') cs).
Proof.
  intros Hp Hwf Hr Hm. destruct (owner_runs_ok b cs ws b' Hr Hwf) as (_ & N & C & P & G). split; [|by split].
  destruct (G Hm) as [Hm0 Hle]. by apply (owner_answers g0 base since); [| |by apply P| |].
Qed.
End code.

(** ** A small workspace *)

(** A module, a file of the metadata; then the module changes and another appears. *)
#[local] Instance no_metadata : MetadataInputs :=
  { Configs := unit; no_configs := tt; config_roots := fun _ => []; Listing := unit; config_key := fun _ => [] }.

#[local] Instance sum_revision : ContentRevision := fun t => Z.to_N (foldr Z.add 0%Z t).

Definition sample_module (c : char) : VfsPath := [RootDir; Normal [c; 46; 98; 115; 108]%Z].
Definition sample_xml : VfsPath := [RootDir; Normal [99; 46; 120; 109; 108]%Z].

Definition sample_db : Db :=
  MkDb (MkFiles []
    [(MkFileId 0, MkFileRevisionInput 7 false LOW LOW); (MkFileId 2, MkFileRevisionInput 9 true MEDIUM MEDIUM)]
    [(BSL_SOURCE_ROOT, MkSourceRootInput (new_local (fs_insert FileSet_new (MkFileId 0) (sample_module 97))) LOW);
     (METADATA_SOURCE_ROOT, MkSourceRootInput (new_metadata (fs_insert FileSet_new (MkFileId 2) sample_xml)) MEDIUM)]
    [] [] 0) tt [] true false.

Definition sample_batch : list SourceBatchChange :=
  [Upsert (MkFileId 1) (sample_module 98) (Some (DiskRevision 3)); Upsert (MkFileId 0) (sample_module 97) (Some (Disk [4; 4]%Z))].

Definition sample_owner : WorkspaceBackend := MkBackend sample_db 0 [] (MkCatalog Vfs_new [] 0).

Definition no_update (db : Db) (e : SourceBatchEffects) : Db * bool := (db, false).

Definition sample_after : option (option PublishedChange * WorkspaceBackend) :=
  Eval vm_compute in apply_batches sample_owner [(BSL_SOURCE_ROOT, sample_batch)] no_update.

Lemma sample_owner_ok : owner_ok (files sample_db).
Proof.
  split.
  - split; [constructor|]. intros rid i. unfold try_source_root. simpl. repeat case_decide; try done; intros [= <-];
      unfold fs_wf, assoc_wf; simpl; apply NoDup_singleton.
  - by eexists.
  - intros rid id p [-> | ->]%both_inv; unfold path_in, path_for_file, inputs_of, try_file_revision; simpl; repeat case_decide;
      simplify_eq; try done; by eexists.
  - intros id p. unfold path_in, path_for_file. simpl. by repeat case_decide; simplify_eq.
  - intros id p. unfold path_in, path_for_file. simpl. case_decide; [|done]. intros [= <-]. vm_compute. reflexivity.
Qed.

Lemma publications_name_what_changed_witness :
  exists change b' ws, apply_batches sample_owner [(BSL_SOURCE_ROOT, sample_batch)] no_update = Some (Some change, b') /\
    OwnerRuns sample_owner [change] ws b' /\ Forall careful ws /\
    changes_since b' 0 = Changes [change] /\ pub_file_ids change = [MkFileId 0; MkFileId 1] /\
    complete (backend_snapshot sample_owner) (backend_snapshot b') [change].
Proof.
  destruct sample_after as [[[change|] b']|] eqn:E; [|discriminate E|discriminate E].
  injection E as Ec Eb.
  assert (apply_batches sample_owner [(BSL_SOURCE_ROOT, sample_batch)] no_update = Some (Some change, b')) as Ea.
  { rewrite <- Ec, <- Eb. vm_compute. reflexivity. }
  destruct (sources_applied sample_db [(BSL_SOURCE_ROOT, sample_batch)]) as [[db e]|] eqn:Es; [|vm_compute in Es; discriminate Es].
  assert (OwnerRuns sample_owner ([] ++ option_list (Some change)) ([] ++ [MkWrite db db false]) b') as Hr.
  { apply (owner_batches _ _ _ sample_owner [(BSL_SOURCE_ROOT, sample_batch)] db e no_update); [constructor| |exact Es| |exact Ea].
    - repeat constructor; by eexists.
    - destruct (sources_named sample_owner [(BSL_SOURCE_ROOT, sample_batch)]) as (f & e' & Es' & W & _);
        [apply sample_owner_ok|repeat constructor; by eexists|]. change (sources_applied (host sample_owner)) with (sources_applied sample_db) in Es'.
      rewrite Es in Es'. injection Es' as -> ->. exact W. }
  assert (Forall careful ([] ++ [MkWrite db db false])) as Hc by (constructor; [intros id Hne; by destruct Hne|constructor]).
  exists change, b', [MkWrite db db false].
  split; [exact Ea|]. split; [exact Hr|]. split; [exact Hc|].
  split; [rewrite <- Ec, <- Eb; vm_compute; reflexivity|]. split; [by rewrite <- Ec|].
  apply (publications_name_what_changed 0 0 [] sample_owner [change] [MkWrite db db false] b' (pub_start 0 sample_db _)); [|exact Hr| |exact Hc].
  - apply sample_owner_ok.
  - rewrite <- Eb. reflexivity.
Defined.
