(* ===== verification/SharedSpec.v ===== *)
(** SharedSpec: the life of the view of an editor over an owner
    (crates/ide-host-core/src/workspace.rs). *)
From stdpp Require Import prelude sorting.
From S2P Require Import Prelude Interning Paths Vfs Inputs Load LoadSpec Workspace JournalSpec ViewSpec CatchUpSpec OwnerSpec.

Section code.
Context `{MetadataInputs} `{ContentRevision}.

(** C22. A view never drifts from the disk.  Take a view made of a snapshot of the owner, and let
    its editor open, change and close modules, and let it catch up with later snapshots, by the
    publications, from the snapshot or by a view prepared beside it, which may be cancelled, in
    any order: no step panics, and at every moment the view
    answers each question for a path, a pinned text, a revision and a root as a view made afresh
    of the snapshot it last saw, in which the same buffers were opened, and has the same metadata.
    In particular open modules read as their buffers, the others as the disk.  The publications
    name what changed, and the files of the metadata are no modules. *)
Theorem views_agree_with_fresh_ones s0 v :
  snapshot_ok s0 -> ViewReach s0 v ->
  (forall o, admitted v o -> is_Some (view_step v o)) /\
  exists fresh, (w ← EditorView_new (disk v); foldl reopen (Some w) (open_files v)) = Some fresh /\
    (forall id rid, rid ∈ both_roots ->
       path_in (files (view_db v)) rid id = path_in (files (view_db fresh)) rid id /\
       (is_Some (path_in (files (view_db v)) rid id) ->
          inputs_of (files (view_db v)) id = inputs_of (files (view_db fresh)) id /\
          root_of (files (view_db v)) id = root_of (files (view_db fresh)) id)) /\
    (forall id p t, assoc_get id (open_files v) = Some (p, t) ->
       path_in (files (view_db v)) BSL_SOURCE_ROOT id = Some p /\
       inputs_of (files (view_db v)) id = Some (MkFileInputs (Some t) (content_revision t) false)) /\
    configs (view_db v) = configs (view_db fresh) /\ load_complete (view_db v) = load_complete (view_db fresh) /\
    (forall p l, (p, l) ∈ snap_metadata (disk v) -> assoc_get (config_key p) (listings (view_db v)) = Some l).
Proof.
  intros S R. pose proof (view_reach_inv s0 v S R) as I. pose proof I as [V SD Hm].
  split; [intros o A; by destruct (view_step_inv v o I A) as (v' & -> & _)|].
  destruct (fresh_ok (disk v) (open_files v) SD Hm (vok_open _ V) 0 (disk v)) as (w & E & W & D & O).
  exists w. rewrite new_seeds. split; [exact E|]. split; [|split; [|split; [|split]]].
  - intros id rid Hb. pose proof (vok_files _ W id) as Hw. rewrite D, O in Hw.
    destruct (shows_agree _ _ _ _ _ (vok_files _ V id) Hw) as [H1 H2]. split; [by apply H1|by apply H2].
  - intros id p t Ho. pose proof (vok_files _ V id) as Hv. rewrite Ho in Hv. split; apply Hv.
  - by rewrite (vok_configs _ V), (vok_configs _ W), D.
  - by rewrite (vok_ready _ V), (vok_ready _ W), D.
  - apply V.
Qed.
End code.

(** ** The small workspace *)

#[local] Existing Instance OwnerSpec.no_metadata.
#[local] Existing Instance OwnerSpec.sum_revision.

Definition sample_changed : Db :=
  Eval vm_compute in match sample_after with Some (_, b) => host b | None => sample_db end.

Definition sample_seed : WorkspaceSnapshot := capture sample_db 0.
Definition sample_next : WorkspaceSnapshot := capture sample_changed 1.
Definition sample_change : PublishedChange := MkPublished 1 [MkFileId 0; MkFileId 1] [] false.

(** The editor opens the module, the view catches up, and a file of the metadata stays as it was. *)
Definition sample_view : option EditorView :=
  Eval vm_compute in
  v ← EditorView_new sample_seed;
  v ← view_step v (VOpen (MkFileId 0) (sample_module 97) [1; 2]%Z);
  view_step v (VDeltas sample_next [sample_change]).

Lemma sample_changed_ok : owner_ok (files sample_changed).
Proof.
  split.
  - split; [constructor|]. intros rid i. unfold try_source_root. simpl. repeat case_decide; try done; intros [= <-];
      unfold fs_wf, assoc_wf; simpl; repeat constructor; try apply not_elem_of_nil; by intros ?%list_elem_of_singleton.
  - by eexists.
  - intros rid id p [-> | ->]%both_inv; unfold path_in, path_for_file, inputs_of, try_file_revision; simpl; repeat case_decide;
      simplify_eq; try done; by eexists.
  - intros id p. unfold path_in, path_for_file. simpl. by repeat case_decide; simplify_eq.
  - intros id p. unfold path_in, path_for_file. simpl. case_decide; [|done]. intros [= <-]. vm_compute. reflexivity.
Qed.

Lemma sample_complete : complete sample_seed sample_next [sample_change].
Proof.
  intros id Hne. left. destruct (decide (id = MkFileId 0)) as [->|H0]; [by left|]. destruct (decide (id = MkFileId 1)) as [->|H1]; [right; by left|].
  destruct Hne. unfold sample_seed, sample_next. rewrite !capture_lookup.
  unfold captured_at, path_in, path_for_file, inputs_of, try_file_revision. simpl. by repeat case_decide; simplify_eq.
Qed.

Lemma views_agree_with_fresh_ones_witness :
  exists v, sample_view = Some v /\ view_generation v = 1%N /\
    (exists fresh, (w ← EditorView_new (disk v); foldl reopen (Some w) (open_files v)) = Some fresh /\
      path_in (files (view_db v)) BSL_SOURCE_ROOT (MkFileId 1) = path_in (files (view_db fresh)) BSL_SOURCE_ROOT (MkFileId 1)) /\
    inputs_of (files (view_db v)) (MkFileId 0) = Some (MkFileInputs (Some [1; 2]%Z) 3 false) /\
    inputs_of (files (view_db v)) (MkFileId 1) = Some (MkFileInputs None 3 false).
Proof.
  assert (snapshot_ok sample_seed) as S by (apply capture_ok; [apply sample_owner_ok|constructor]).
  assert (snapshot_ok sample_next) as S' by (apply capture_ok; [apply sample_changed_ok|constructor]).
  destruct (EditorView_new sample_seed) as [v0|] eqn:E0; [|by vm_compute in E0].
  destruct (view_step v0 (VOpen (MkFileId 0) (sample_module 97) [1; 2]%Z)) as [v1|] eqn:E1; [|by vm_compute in E0; injection E0 as <-; vm_compute in E1].
  destruct (view_step v1 (VDeltas sample_next [sample_change])) as [v|] eqn:E2;
    [|by vm_compute in E0; injection E0 as <-; vm_compute in E1; injection E1 as <-; vm_compute in E2].
  assert (sample_view = Some v) as Ev.
  { change sample_view with (v ← EditorView_new sample_seed; v ← view_step v (VOpen (MkFileId 0) (sample_module 97) [1; 2]%Z);
      view_step v (VDeltas sample_next [sample_change])). rewrite E0. cbn [mbind option_bind]. rewrite E1. exact E2. }
  assert (ViewReach sample_seed v0) as R0 by by constructor.
  assert (ViewReach sample_seed v1) as R1.
  { eapply reach_step; [exact R0| |exact E1]. vm_compute in E0. injection E0 as <-. intros f E. vm_compute in E. by injection E as <-. }
  assert (exists f1 g1, v1 = MkView f1 0 sample_seed g1 /\ g1 = [(MkFileId 0, (sample_module 97, [1; 2]%Z))]) as (f1 & g1 & -> & ->).
  { destruct v1 as [f1 n1 d1 g1]. exists f1, g1. vm_compute in E0. injection E0 as <-. vm_compute in E1. injection E1 as <- <- <- <-.
    by split. }
  assert (ViewReach sample_seed v) as R.
  { eapply reach_step; [exact R1| |exact E2]. split; [exact S'|]. split; [|intros _; exact sample_complete].
    intros id f [b Hb] Hf. simpl in Hb. case_decide as Hid; [|done]. subst id. vm_compute in Hf. by injection Hf as <-. }
  destruct (views_agree_with_fresh_ones sample_seed v S R) as (_ & fresh & Efresh & Hpaths & Hopen & _).
  exists v. split; [exact Ev|]. assert (view_generation v = 1%N /\ inputs_of (files (view_db v)) (MkFileId 1) = Some (MkFileInputs None 3 false) /\
    assoc_get (MkFileId 0) (open_files v) = Some (sample_module 97, [1; 2]%Z)) as (Hg & H1 & Ho).
  { unfold sample_view in Ev. injection Ev as <-. by split_and!. }
  split; [exact Hg|]. split; [exists fresh; split; [exact Efresh|apply Hpaths; by left]|]. split; [|exact H1].
  exact (proj2 (Hopen _ _ _ Ho)).
Defined.
