(* ===== verification/ExclusionsSpec.v ===== *)
(** ExclusionsSpec: what is taken out of a project stays out under every spelling
    (crates/stdx/src/path_exclusion.rs), and the most specific rule of a directory wins
    (crates/vfs/src/loader.rs). *)
From stdpp Require Import prelude.
From S2P Require Import Prelude Case Names Paths Exclusions.

(** ** Paths and their normal forms *)

Definition is_normal (c : Component) : Prop := match c with Normal _ => True | _ => False end.

(** As Rust's library parses an absolute path: the root, then names and steps to the parent. *)
Definition parsed (p : Path) : Prop :=
  exists r, p = RootDir :: r /\ Forall (fun c => c <> RootDir /\ c <> CurDir) r.

Lemma normalize_step_root ns c :
  Forall is_normal ns -> c <> RootDir -> c <> CurDir ->
  exists ns', normalize_step (RootDir :: ns) c = RootDir :: ns' /\ Forall is_normal ns' /\
    match c with Normal _ => ns' = ns ++ [c] | _ => True end.
Proof.
  intros Hn Hr Hc. destruct c as [| | |n]; try done.
  - unfold normalize_step. destruct ns as [|x ns _] using rev_ind; [by exists []|].
    rewrite app_comm_cons, last_snoc, removelast_last. apply Forall_app in Hn as [Hn Hx]. apply Forall_cons in Hx as [Hx _].
    destruct x; try done. by exists ns.
  - exists (ns ++ [Normal n]). split; [done|]. split; [|done]. apply Forall_app. by repeat constructor.
Qed.

Lemma normalize_fold r : forall ns,
  Forall is_normal ns -> Forall (fun c => c <> RootDir /\ c <> CurDir) r ->
  exists ns', foldl normalize_step (RootDir :: ns) r = RootDir :: ns' /\ Forall is_normal ns' /\
    (Forall is_normal r -> ns' = ns ++ r).
Proof.
  induction r as [|c r IH]; intros ns Hn Hr; [exists ns; by rewrite app_nil_r|]. apply Forall_cons in Hr as [[Hc1 Hc2] Hr].
  destruct (normalize_step_root ns c Hn Hc1 Hc2) as (n1 & E1 & H1 & K1). cbn [foldl]. rewrite E1.
  destruct (IH n1 H1 Hr) as (n2 & E2 & H2 & K2). exists n2. split; [done|]. split; [done|].
  intros Hcr. apply Forall_cons in Hcr as [Hc Hcr]. rewrite (K2 Hcr). destruct c; try done. by rewrite K1, <- app_assoc.
Qed.

Lemma normalize_parsed p : parsed p -> exists ns, normalize_lexically p = RootDir :: ns /\ Forall is_normal ns.
Proof. intros (r & -> & Hr). destruct (normalize_fold r [] (Forall_nil_2 _) Hr) as (ns & E & Hn & _). by exists ns. Qed.

Lemma normal_parsed ns : Forall is_normal ns -> Forall (fun c => c <> RootDir /\ c <> CurDir) ns.
Proof. intros Hn. eapply Forall_impl; [exact Hn|]. by intros []. Qed.

Lemma normalize_normal ns : Forall is_normal ns -> normalize_lexically (RootDir :: ns) = RootDir :: ns.
Proof.
  intros Hn. destruct (normalize_fold ns [] (Forall_nil_2 _) (normal_parsed _ Hn)) as (ns' & E & _ & K).
  unfold normalize_lexically. cbn [foldl]. change (normalize_step [] RootDir) with [RootDir]. by rewrite E, K.
Qed.

Lemma normalize_idempotent p : parsed p -> normalize_lexically (normalize_lexically p) = normalize_lexically p.
Proof. intros (ns & -> & Hn)%normalize_parsed. by apply normalize_normal. Qed.

Lemma normalize_app p q : parsed p -> Forall is_normal q -> normalize_lexically (p ++ q) = normalize_lexically p ++ q.
Proof.
  intros (ns & E & Hn)%normalize_parsed Hq. unfold normalize_lexically in *. rewrite foldl_app, E.
  destruct (normalize_fold q ns Hn (normal_parsed _ Hq)) as (ns' & -> & _ & K). by rewrite K.
Qed.

Lemma parsed_app p q : parsed p -> Forall is_normal q -> parsed (p ++ q).
Proof. intros (r & -> & Hr) Hq. exists (r ++ q). split; [done|]. apply Forall_app. split; [done|by apply normal_parsed]. Qed.

Lemma normal_no_dots ns : Forall is_normal ns -> has_dot_components (RootDir :: ns) = false.
Proof. unfold has_dot_components. simpl. induction 1 as [|c ns Hc _ IH]; [done|]. simpl. rewrite IH. by destruct c. Qed.

Lemma no_dots_normal p : parsed p -> has_dot_components p = false -> normalize_lexically p = p.
Proof.
  intros (r & -> & Hr) Hd. apply normalize_normal. unfold has_dot_components in Hd. simpl in Hd. revert Hd.
  induction Hr as [|c r [H1 H2] _ IH]; [constructor|]. simpl. intros [Hc Hd]%orb_false_iff. constructor; [by destruct c|by apply IH].
Qed.

Lemma has_dots_app p q : Forall is_normal q -> has_dot_components (p ++ q) = has_dot_components p.
Proof.
  intros Hq. unfold has_dot_components. rewrite existsb_app.
  assert (existsb (fun c => match c with CurDir | ParentDir => true | _ => false end) q = false) as ->; [|by rewrite orb_false_r].
  induction Hq as [|c q Hc _ IH]; [done|]. simpl. rewrite IH. by destruct c.
Qed.

Lemma is_within_app p q s : is_within p s = true -> is_within (p ++ q) s = true.
Proof. unfold is_within, path_starts_with. rewrite !bool_decide_eq_true. intros [k ->]. exists (k ++ q). by rewrite <- app_assoc. Qed.

Section code.
Context `{FileSystem} `{Globs}.

(** ** Exclusions *)

Lemma any_spelling_impl self (t t' : Path -> bool) :
  (forall s, t s = true -> t' s = true) -> any_spelling self t = true -> any_spelling self t' = true.
Proof.
  unfold any_spelling. intros Ht. rewrite !existsb_exists. intros (e & He & Hs). exists e. split; [done|].
  apply existsb_exists in Hs as (s & Hs & Hts). apply existsb_exists. exists s. by auto.
Qed.

Lemma matches_relative_app ps relative below q :
  matches_relative ps relative below = true -> matches_relative ps relative (below ++ q) = true.
Proof.
  unfold matches_relative. rewrite app_assoc.
  match goal with |- ?g [] _ = true -> _ =>
    assert (forall l cand, g cand l = true -> g cand (l ++ q) = true) as Hg; [|apply Hg] end.
  induction l as [|c l IH]; intros cand; [done|]. simpl. destruct c; try apply IH.
  rewrite !orb_true_iff. intros [?|?]; [by left|right; by apply IH].
Qed.

Lemma patterns_match_app ps p q : patterns_match ps p = true -> patterns_match ps (p ++ q) = true.
Proof.
  unfold patterns_match. rewrite !existsb_exists. intros (a & Ha & Hm). exists a. split; [done|]. unfold strip_within in *.
  destruct (is_within p a.1) eqn:E; [|done]. rewrite (is_within_app _ q _ E). unfold is_within, path_starts_with in E.
  apply bool_decide_eq_true in E. rewrite drop_app_le by by apply prefix_length. by apply matches_relative_app.
Qed.

Lemma patterns_exclude_app self p q :
  parsed p -> Forall is_normal q -> patterns_exclude self p = true -> patterns_exclude self (p ++ q) = true.
Proof.
  unfold patterns_exclude. destruct (patterns self) as [ps|]; [|done]. intros Hp Hq. unfold matches_any_spelling.
  rewrite has_dots_app by done. destruct (has_dot_components p); [rewrite normalize_app by done|]; apply patterns_match_app.
Qed.

Lemma is_excluded_iff self p :
  is_excluded self p = true <->
  excluded_is_empty self = false /\
  (any_spelling self (is_within p) = true \/ patterns_exclude self p = true \/
   (has_dot_components p = true /\ any_spelling self (is_within (normalize_lexically p)) = true)).
Proof.
  unfold is_excluded. destruct (excluded_is_empty self); [split; [done|by intros []]|].
  change (any_spelling self (fun s => is_within p s)) with (any_spelling self (is_within p)).
  change (any_spelling self (fun s => is_within (normalize_lexically p) s)) with (any_spelling self (is_within (normalize_lexically p))).
  destruct (any_spelling self (is_within p)); [by intuition|]. destruct (patterns_exclude self p); [by intuition|].
  rewrite andb_true_iff. intuition congruence.
Qed.

Lemma excluded_below self p q : parsed p -> Forall is_normal q -> is_excluded self p = true -> is_excluded self (p ++ q) = true.
Proof.
  intros Hp Hq. rewrite !is_excluded_iff. intros [He Hx]. split; [done|]. destruct Hx as [Hx|[Hx|[Hd Hx]]].
  - left. revert Hx. apply any_spelling_impl. intros s. apply is_within_app.
  - right. left. by apply patterns_exclude_app.
  - right. right. rewrite has_dots_app, normalize_app by done. split; [done|]. revert Hx. apply any_spelling_impl. intros s. apply is_within_app.
Qed.

Lemma excluded_normal self p : parsed p -> is_excluded self (normalize_lexically p) = true -> is_excluded self p = true.
Proof.
  intros Hp. destruct (has_dot_components p) eqn:Ed; [|by rewrite no_dots_normal].
  destruct (normalize_parsed p Hp) as (ns & E & Hn). pose proof (normal_no_dots ns Hn) as Hd. rewrite <- E in Hd.
  rewrite !is_excluded_iff. intros [He Hx]. split; [done|]. destruct Hx as [Hx|[Hx|[Hd' _]]]; [|right; left|congruence].
  - right. right. done.
  - revert Hx. unfold patterns_exclude. destruct (patterns self); [|done]. unfold matches_any_spelling. by rewrite Hd, Ed.
Qed.

(** The directories declared, in any of their spellings. *)
Lemma new_entries paths d :
  d ∈ paths -> exists e, e ∈ entries (ExcludedPaths_new paths) /\ normalize_lexically d ∈ spellings e.
Proof.
  unfold ExcludedPaths_new. cbn [entries].
  set (step := fun (es : list Excluded) (p : Path) => _).
  assert (forall l es e, e ∈ es -> e ∈ foldl step es l) as Hkeep.
  { induction l as [|p l IH]; intros es e He; [done|]. cbn [foldl]. apply IH. unfold step. case_match; [done|]. apply elem_of_app. by left. }
  assert (forall l es, d ∈ l -> (forall e, e ∈ es -> declared e ∈ spellings e) ->
    exists e, e ∈ foldl step es l /\ normalize_lexically d ∈ spellings e) as Hl; [|intros Hd; apply Hl; [done|by intros e ?%elem_of_nil]].
  induction l as [|p l IH]; intros es Hd Hes; [by apply elem_of_nil in Hd|]. cbn [foldl].
  set (dir := normalize_lexically p).
  set (new := MkExcluded dir (match resolve_as_far_as_it_goes dir with Some resolved => push_unique [dir] resolved | None => [dir] end)).
  assert (dir ∈ spellings new) as Hnew.
  { simpl. destruct (resolve_as_far_as_it_goes dir); [|by left]. unfold push_unique. case_decide; by left. }
  assert (forall e, e ∈ step es p -> declared e ∈ spellings e) as Hstep.
  { unfold step. fold dir. fold new. intros e. case_match; [apply Hes|]. intros [He| ->%list_elem_of_singleton]%elem_of_app; [by apply Hes|done]. }
  apply elem_of_cons in Hd as [->|Hd]; [|by apply IH].
  destruct (existsb (fun e => bool_decide (declared e = dir)) es) eqn:Ee.
  - apply existsb_exists in Ee as (e & He & Hde%bool_decide_eq_true). apply list_elem_of_In in He. exists e. split.
    + apply Hkeep. unfold step. fold dir. case_match; [done|]. apply elem_of_app. by left.
    + fold dir. rewrite <- Hde. by apply Hes.
  - exists new. split; [|done]. apply Hkeep. unfold step. fold dir. rewrite Ee. fold new. apply elem_of_app. right. by apply list_elem_of_singleton.
Qed.

(** C27. Nothing comes back from an excluded directory.  Whatever is excluded, so is everything
    below it; a path with steps to the parent is excluded when its normal form is, which has no
    such steps and is its own normal form; and a path whose normal form lies in a directory the
    project excludes, however that directory was declared, is excluded. *)
Theorem exclusions_cannot_be_evaded self p q :
  parsed p -> Forall is_normal q ->
  (is_excluded self p = true -> is_excluded self (p ++ q) = true) /\
  (is_excluded self (normalize_lexically p) = true -> is_excluded self p = true) /\
  has_dot_components (normalize_lexically p) = false /\
  normalize_lexically (normalize_lexically p) = normalize_lexically p /\
  (forall dirs d, self = ExcludedPaths_new dirs -> d ∈ dirs -> normalize_lexically d `prefix_of` normalize_lexically p ->
     is_excluded self p = true).
Proof.
  intros Hp Hq. split; [by apply excluded_below|]. split; [by apply excluded_normal|].
  split; [destruct (normalize_parsed p Hp) as (ns & -> & Hn); by apply normal_no_dots|]. split; [by apply normalize_idempotent|].
  intros dirs d -> Hd Hpre. destruct (new_entries dirs d Hd) as (e & He & Hs). apply excluded_normal; [done|].
  apply is_excluded_iff. split.
  - unfold excluded_is_empty. destruct (entries (ExcludedPaths_new dirs)); [by apply elem_of_nil in He|done].
  - left. unfold any_spelling. apply existsb_exists. exists e. split; [by apply list_elem_of_In|]. apply existsb_exists.
    exists (normalize_lexically d). split; [by apply list_elem_of_In|]. by apply bool_decide_eq_true.
Qed.

(** A path that steps into an excluded directory and out of it again is excluded, though its
    normal form is not. *)
Lemma stepping_through_is_excluded (n m : text) :
  resolve_as_far_as_it_goes [RootDir; Normal n] = None -> n <> m ->
  let self := ExcludedPaths_new [[RootDir; Normal n]] in
  let p := [RootDir; Normal n; ParentDir; Normal m] in
  is_excluded self p = true /\ normalize_lexically p = [RootDir; Normal m] /\ is_excluded self (normalize_lexically p) = false.
Proof.
  intros Hr Hn self p. assert (self = MkExcludedPaths [MkExcluded [RootDir; Normal n] [[RootDir; Normal n]]] None) as ->.
  { unfold self, ExcludedPaths_new. cbn [foldl existsb app]. rewrite (normalize_normal [Normal n]) by by repeat constructor. by rewrite Hr. }
  assert (normalize_lexically p = [RootDir; Normal m]) as -> by done. subst p. split; [|split; [done|]].
  - unfold is_excluded, any_spelling, is_within, path_starts_with. simpl. rewrite bool_decide_eq_true_2; [done|].
    by exists [ParentDir; Normal m].
  - unfold is_excluded, any_spelling, is_within, path_starts_with. simpl. rewrite bool_decide_eq_false_2; [done|].
    intros [k Hk]. simpl in Hk. injection Hk as E _. by apply Hn.
Qed.

(** ** The rules of a directory *)

(** The include chosen is the longest the path lies in. *)
Lemma most_specific_longest self p :
  match most_specific self p with
  | Some incl => incl ∈ include self /\ incl `prefix_of` p /\
      (forall other, other ∈ include self -> other `prefix_of` p -> length other <= length incl)
  | None => forall other, other ∈ include self -> ~ other `prefix_of` p
  end.
Proof.
  unfold most_specific. induction (include self) as [|incl l IH] using rev_ind; [by intros o ?%elem_of_nil|].
  rewrite foldl_app. cbn [foldl]. unfold path_starts_with at 1. case_bool_decide as Hp.
  - destruct (foldl _ None l) as [prev|].
    + destruct IH as (Hin & Hpre & Hmax). unfold path_starts_with. case_bool_decide as Hpi.
      * split; [apply elem_of_app; by left|]. split; [done|].
        intros o [Ho| ->%list_elem_of_singleton]%elem_of_app Hop; [by apply Hmax|by apply prefix_length].
      * split; [apply elem_of_app; right; by apply list_elem_of_singleton|]. split; [done|].
        intros o [Ho| ->%list_elem_of_singleton]%elem_of_app Hop; [|done]. pose proof (Hmax o Ho Hop).
        destruct (prefix_weak_total _ _ _ Hp Hpre) as [Hq|Hq]; [done|apply prefix_length in Hq; lia].
    + split; [apply elem_of_app; right; by apply list_elem_of_singleton|]. split; [done|].
      intros o [Ho| ->%list_elem_of_singleton]%elem_of_app Hop; [by destruct (IH o Ho)|done].
  - destruct (foldl _ None l) as [prev|].
    + destruct IH as (Hin & Hpre & Hmax). split; [apply elem_of_app; by left|]. split; [done|].
      intros o [Ho| ->%list_elem_of_singleton]%elem_of_app Hop; [by apply Hmax|done].
    + intros o [Ho| ->%list_elem_of_singleton]%elem_of_app; [by apply IH|done].
Qed.

(** Whether the rule of files names the extension, in any case of its letters. *)
Definition names_extension (ext : text) (rule : FileRule) : bool :=
  existsb (fun it => eq_ignore_ascii_case it ext) (rule_extensions rule).

(** The first of the rules that names the extension, with its mode. *)
Definition first_naming (ext : text) (rules : list FileRule) (mode : LoadMode) : Prop :=
  exists i rule, rules !! i = Some rule /\ names_extension ext rule = true /\ mode = load_mode rule /\
    forall j earlier, rules !! j = Some earlier -> j < i -> names_extension ext earlier = false.

Lemma first_naming_found ext rules mode :
  (found ← list_find (fun rule => names_extension ext rule = true) rules; Some (load_mode found.2)) = Some mode <->
  first_naming ext rules mode.
Proof.
  unfold first_naming. split.
  - intros ([i rule] & (Hl & Hr & Hfirst)%list_find_Some & [= <-])%bind_Some. exists i, rule. split; [done|]. split; [done|]. split; [done|].
    intros j earlier Hj Hlt. apply not_true_is_false. by apply (Hfirst j earlier).
  - intros (i & rule & Hl & Hr & -> & Hfirst).
    assert (list_find (fun rule => names_extension ext rule = true) rules = Some (i, rule)) as ->; [|done].
    apply list_find_Some. split; [done|]. split; [done|]. intros j earlier Hj Hlt. by rewrite (Hfirst j earlier).
Qed.

(** C28. The most specific rule wins.  A path belongs to a directory entry exactly when it is not
    taken out for good and one of the includes it lies in is longer than every exclude it lies in;
    so neither the order nor the repetition of the rules matters.  A file is loaded in a mode exactly
    when its path belongs, and either its extension, in any case of its letters, is one of the
    source extensions and the mode is to load the content, or it is none of them and the mode is
    that of the first rule that names it; a file no extension and no rule names is not loaded. *)
Theorem most_specific_rule_wins self p :
  (includes_path self p = true <->
   is_hard_excluded self p = false /\
   exists incl, incl ∈ include self /\ incl `prefix_of` p /\
     forall excl, excl ∈ exclude self -> excl `prefix_of` p -> length excl < length incl) /\
  (forall mode, classify_file self p = Some mode <->
     includes_path self p = true /\
     let ext := default [] (extension p) in
     let source := exists e, e ∈ extensions self /\ eq_ignore_ascii_case e ext = true in
     source /\ mode = LoadContent \/ ~ source /\ first_naming ext (rules self) mode).
Proof.
  split.
  - unfold includes_path. destruct (is_hard_excluded self p); [split; [done|by intros []]|].
    pose proof (most_specific_longest self p) as Hm. destruct (most_specific self p) as [incl|].
    + destruct Hm as (Hin & Hpre & Hmax). rewrite negb_true_iff. split.
      * intros Hx. split; [done|]. exists incl. split; [done|]. split; [done|]. intros excl He Hep.
        destruct (decide (length excl < length incl)) as [|Hl]; [done|]. exfalso. apply eq_true_false_abs in Hx; [done|].
        apply existsb_exists. exists excl. split; [by apply list_elem_of_In|]. unfold path_starts_with.
        apply andb_true_iff. split; apply bool_decide_eq_true; [done|].
        destruct (prefix_weak_total _ _ _ Hpre Hep) as [|Hq]; [done|]. pose proof (prefix_length _ _ Hq).
        destruct Hq as [k Hk]. rewrite Hk in *. rewrite length_app in *. destruct k; [by rewrite app_nil_r|simpl in *; lia].
      * intros (_ & incl' & Hin' & Hpre' & Hlt). apply not_true_is_false. intros (excl & He & Hb)%existsb_exists.
        apply list_elem_of_In in He. unfold path_starts_with in Hb.
        apply andb_true_iff in Hb as [Hep%bool_decide_eq_true Hei%bool_decide_eq_true].
        pose proof (Hlt excl He Hep). pose proof (Hmax incl' Hin' Hpre'). apply prefix_length in Hei. lia.
    + split; [done|]. intros (_ & incl & Hin & Hpre & _). by destruct (Hm incl).
  - intros mode. unfold classify_file. destruct (includes_path self p); [simpl negb; cbn iota|split; [done|by intros []]].
    set (ext := default [] (extension p)).
    assert (existsb (fun it => eq_ignore_ascii_case it ext) (extensions self) = true <->
      exists e, e ∈ extensions self /\ eq_ignore_ascii_case e ext = true) as Hsrc.
    { rewrite existsb_exists. by setoid_rewrite <- list_elem_of_In. }
    destruct (existsb _ (extensions self)).
    + pose proof (proj1 Hsrc eq_refl) as Hs. split; [intros [= <-]; split; [done|by left]|]. by intros (_ & [[_ ->]|[Hn _]]).
    + assert (~ exists e, e ∈ extensions self /\ eq_ignore_ascii_case e ext = true) as Hn by (by rewrite <- Hsrc).
      pose proof (first_naming_found ext (rules self) mode) as Hf.
      split; [intros Hm; split; [done|right; split; [done|by apply Hf]]|]. intros (_ & [[Hs _]|[_ Hm]]); [done|by apply Hf].
Qed.
End code.

(** A template directory is out, one module in it is not; nothing resolves. *)
#[local] Instance no_links : FileSystem := { canonicalize := fun _ => None; is_symlink_at := fun _ => false }.
#[local] Instance no_globs : Globs := { glob_error := fun _ => None; set_error := fun _ => None; set_match := fun _ _ => false }.

Lemma exclusions_cannot_be_evaded_witness :
  let p := [RootDir; Normal [1%Z]; ParentDir; Normal [2%Z]] in
  parsed p /\ is_excluded (ExcludedPaths_new [[RootDir; Normal [3%Z]; ParentDir; Normal [2%Z]]]) p = true.
Proof.
  intros p. assert (parsed p) as Hp by (exists [Normal [1%Z]; ParentDir; Normal [2%Z]]; split; [reflexivity|by repeat constructor]).
  split; [exact Hp|].
  apply (exclusions_cannot_be_evaded _ p [] Hp (Forall_nil_2 _)) with (dirs := [[RootDir; Normal [3%Z]; ParentDir; Normal [2%Z]]])
    (d := [RootDir; Normal [3%Z]; ParentDir; Normal [2%Z]]); [reflexivity|by left|]. vm_compute. by exists [].
Defined.
